(* ===== verification/_CoqProject ===== *)
-Q . S2P
Prelude.v
Errors.v
JsNumber.v
JsString.v
JsValue.v
Binary.v
CustomId.v
Codec.v
Roundtrip.v
Decoded.v
Frame.v
Message.v
Streams.v
Filter.v
FilterSpec.v
Sort.v
Update.v
IndexSpec.v
FieldIndex.v
IndexLemmas.v
FieldIndexSpec.v
IndexSet.v
IndexSetSpec.v
Planner.v
PlannerSpec.v
IndexValidation.v
Stored.v
Collection.v
CollectionLemmas.v
CollectionQueries.v
CollectionChanges.v
CollectionSpec.v
CollectionUpdates.v
CollectionIndexes.v
CollectionModel.v
CollectionProperties.v
WalFormat.v
Disk.v
DiskLemmas.v
WriteAheadLog.v
WalLemmas.v
WalInvariant.v
WalOperations.v
WalUpkeep.v
WalOpen.v
WalCrash.v
WalModel.v
WalProperties.v
Operations.v
Checkpoint.v
CheckpointWrite.v
CheckpointRead.v
Triples.v
Engine.v
EngineReplay.v
EngineInvariant.v
EngineCheckpoint.v
EngineSteps.v
EngineCommands.v
EngineReopen.v
EngineLife.v
EngineProperties.v
EngineErrors.v
DocumentSize.v
ServerErrors.v
Cursors.v
CursorProperties.v
Catalog.v
Scans.v
ScanProperties.v
ScanChanges.v
CatalogProperties.v
Dispatcher.v
DispatcherProperties.v
ServerLife.v
Session.v
SessionProperties.v
Driver.v
DriverProperties.v
DriverServer.v
