(* ===== verification/Prelude.v ===== *)
(** * SinterDB: a verification development

    SinterDB is a document database in TypeScript: a storage package (documents,
    indexes, queries, a write-ahead log and snapshots), the protocol package (the
    binary form of documents, frames and messages), a server, and a driver. This
    development models the protocol and storage packages, the commands and
    connections of the server, and the driver, bottom up, as pure functions over
    explicit state, and proves what makes them correct.

    ** How code becomes definitions

    Every definition carries the name of the function it translates. A function
    that may throw returns [res E A] (this file): [Ok] of its result or [Throw] of
    an error (Errors.v has the classes and codes; the text of messages is left
    out). A method that changes its object is an action of a state monad, state
    in and state out, the state a [Record] of the fields of the object; an action
    that throws keeps the changes made before. A number is an IEEE 754 double
    (JsNumber.v), a string its UTF-16 code units (JsString.v), an object the list
    of its properties in the order of the language, a [Map] an association list
    in insertion order (JsValue.v, FieldIndex.v). Bytes are integers from 0 to 255;
    sizes, offsets and sequence numbers are [Z] with the checks of the code, the
    unsigned fields of the formats at their width. A generator is a state machine
    with one function for a step (Checkpoint.v). What the code does not define is
    an argument: the clock, the random source, the operating system.

    ** The parts, and the files that model them

    - The language: JsNumber.v, JsString.v, JsValue.v; errors: Errors.v.
    - packages/protocol: binary-reader.ts and binary-writer.ts in Binary.v;
      custom-id.ts in CustomId.v; document-encoder.ts and document-decoder.ts in
      Codec.v, with Roundtrip.v and Decoded.v; frame.ts and request-id.ts in
      Frame.v; message-codec.ts, message-frame.ts and message-stream-decoder.ts in
      Message.v, with Streams.v.
    - packages/storage, queries: filter.ts in Filter.v (what filters mean in
      FilterSpec.v); sort.ts in Sort.v; update.ts in Update.v; stored documents in
      Stored.v.
    - packages/storage/src/indexing: spec.ts in IndexSpec.v; values.ts and
      field-index.ts in FieldIndex.v (IndexLemmas.v, FieldIndexSpec.v); index-set.ts
      in IndexSet.v (IndexSetSpec.v, IndexValidation.v); planner.ts in Planner.v
      (PlannerSpec.v).
    - packages/storage/src/in-memory-collection.ts: Collection.v, whose methods
      use all of the above and a journal that the caller supplies, the class
      [Journal]. CollectionLemmas.v states what a journal promises
      ([JournalLaws]) and the invariant; CollectionQueries.v, CollectionChanges.v,
      CollectionSpec.v, CollectionUpdates.v (with batches) and CollectionIndexes.v
      treat the operations; CollectionModel.v is the abstract specification, and
      says what a rejected command throws; CollectionProperties.v has the promises
      of a collection.
    - packages/storage/src/wal: the bytes of format.ts in WalFormat.v; the files of
      node:fs in Disk.v (DiskLemmas.v); write-ahead-log.ts in WriteAheadLog.v;
      WalLemmas.v and WalInvariant.v say what the files hold; WalOperations.v,
      WalUpkeep.v, WalOpen.v and WalCrash.v treat the operations, recovery and
      crashes; WalModel.v is the abstract specification; WalProperties.v has the
      promises of a log.
    - packages/storage/src/engine: operations.ts, the transactions in the log, in
      Operations.v; checkpoint.ts, the snapshots, in Checkpoint.v
      (CheckpointWrite.v, CheckpointRead.v); storage-engine.ts in Engine.v, the
      collections, the log and the snapshots together. Its proofs use the small
      Hoare logic of Triples.v. EngineReplay.v says what a log replayed gives,
      EngineInvariant.v what a directory of snapshots holds and what an engine keeps
      true; EngineCheckpoint.v and EngineSteps.v treat checkpoints and timers,
      EngineCommands.v the engine as a journal of its collections (an instance of
      [JournalLaws]) and their commands, EngineReopen.v opening, EngineLife.v any
      life of an engine with its crashes; EngineProperties.v has its promises,
      EngineErrors.v what appending to one throws.
    - packages/server: document-size.ts in DocumentSize.v; cursor-manager.ts in
      Cursors.v, with the abstract table of cursors in CursorProperties.v, over any
      iterators that keep the interface [Source]; catalog.ts in Catalog.v
      (CatalogProperties.v); the iterators that queries return, one document at a
      time, in Scans.v, which are a [Source] (ScanProperties.v) and go on while
      commands change their collection (ScanChanges.v);
      command-dispatcher.ts in Dispatcher.v, with the invariant of a server and
      what every command does to it and is answered with in DispatcherProperties.v
      ([answer_of]), and any life of a
      server with its connections in ServerLife.v; session.ts and group-commit.ts
      in Session.v (SessionProperties.v); the errors of all of them in
      ServerErrors.v.
    - packages/driver: Driver.v, with a module for each part: the results of
      collection.ts, indexes.ts and list-result.ts in [Results], cursor.ts in
      [FindCursor], namespace.ts in [Namespace], the methods of collection.ts and
      database.ts in [Collections], handshake.ts in [Handshake],
      request-dispatcher.ts in [Requests], client.ts in [Client]. A promise is the
      number of its place, an event of a socket or a timer a step.
      DriverProperties.v follows requests and clients through any events;
      DriverServer.v puts the driver and the server together: its cursors over any
      server that keeps the interface [CursorService], which the dispatcher of
      commands does, the handshake of both sides, the way of a command, and what the
      methods of a collection make of the answers of commands ([Answers]).

    ** What the theorems show

    - Formats: encoding and decoding are inverse for documents, frames, messages,
      index definitions, records of the log, transactions and snapshots; what a
      decoder accepts is the encoding of what it returns, up to the order of
      fields; every other input is one of the decoder's own errors. How a stream
      is cut into chunks makes no difference.
    - Queries: a compiled filter decides the meaning of the filter; the value
      order is a total preorder and a sort is its stable rearrangement; a plan
      looks at every document that matches, so that every query of a collection
      answers what a scan would.
    - Changes: an update does to every path what its operator says and never
      changes [_id]; a batch reaches all indexes or none; every operation of a
      collection makes the change of the abstract model, recorded by the journal
      first, or leaves documents and indexes as they were; after any commands and
      failures the journal holds the collection, which can be reopened from it.
    - Durability: whatever calls to the operating system fail, but for closing and
      removing a file ([cleans]), a log behaves as a list of numbered records; after
      a crash at any point it opens, and every record that
      was acknowledged and promised is read back, in order, with at most one more;
      a snapshot is there as a whole or not at all.
    - The engine: after any commands, checkpoints at once or in the background,
      crashes and restarts, opening the directories gives every collection what
      all of them had at one moment, the last one where the write concern promises
      it; the log is only cut when two whole snapshots have what is removed; a
      collection of an engine does what the model of collections says.
      A checkpoint in the background ends, with its snapshot or with an error.
    - The server: the cursors of a connection are a table of what each will still
      return; a find read to its end in batches of any size returns what the query
      returns, and while commands change the collection it returns every document
      that stays, once; whatever connections ask for, the invariant of the server
      is kept, and a request is answered with the document of its command, which
      [answer_of] gives for each, or an error of the protocol, but for one kind
      that the theorem names. The messages of a connection are answered in order,
      each with its [reply], unless that does not fit in a frame, and no answer to
      a command is written before what the command wrote is flushed.
    - The driver: whatever happens to a connection, every request is settled once,
      by the message with its number or by the error that ends the connection, and
      numbers of requests that wait differ; a client is connected once at most and
      closed for good. With the server: both sides agree on a handshake, a command
      gets to the server and its result back, the methods that change or find
      documents return what the server answered and take no answer of it for one
      that is none of the protocol, and a cursor of the driver returns the documents
      of the query, each once, and leaves no cursor behind.

    ** Bounds and fuel

    - Loops over an input recurse on it. [loopZ] of this file runs a counted loop
      exactly as often as the code does.
    - The decoder recurses on its depth, which the code itself bounds by
      [MAX_DOCUMENT_DEPTH]; the fuel is the number of levels left.
    - [bound_loop] (FieldIndex.v) has the length of the interval it halves,
      [decode_loop] (Message.v) the bytes left in the buffer, [scan_loop]
      (WriteAheadLog.v) the bytes of the segment and one more, [writeFully]
      (Disk.v) the bytes to write, since a write that succeeds writes at least
      one, [write_steps] (Checkpoint.v) one turn for each document and one more,
      [allocate_loop] (Cursors.v) a turn for each cursor, whose ids are all it can
      meet, and that of Driver.v one for each request that waits. [hasNext] and
      [toArray] (Driver.v) are given their number of turns: one batch for a
      document and one turn for each document are enough ([driver_reads]).
      The lemmas [bound_loop_spec], [decode_loop_spec], [scan_loop_stops],
      [writeFully_outcome], [write_steps_outcome] and [allocateCursorId_spec] show
      that it is enough. A
      checkpoint in the background needs a turn for each document left, and one
      more at most ([engine_background_ends]).

    ** Assumptions

    The operating system answers every call as it likes: a call succeeds, writes a
    part, or fails and then has done nothing. The theorems on the write-ahead log
    assume [cleans] (WalOperations.v), that closing a file and removing it do not
    fail: [leftover_segment] (WalProperties.v) shows that the log needs it. Stable
    storage keeps the bytes that were flushed, and of the others a beginning. The
    journal of a collection is any that keeps [JournalLaws].

    The log and the snapshots of an engine are on two disks, each with its own
    behaviour. An engine crashes between two commands ([crashed], EngineLife.v):
    the process dies, or the power fails and each file is cut somewhere after
    what was flushed, which the theorems follow where the write concern is
    [Flushed]. Names of databases, collections and indexes do not begin with a byte
    order mark and have no lone surrogates ([plain]), and an index is not created
    while a checkpoint is due ([not_due], EngineCommands.v): [name_bom]
    (Operations.v) and [phantom_index] (EngineLife.v) show what happens else. A
    directory that a log with the concern [Flushed] opens has been flushed before
    ([reopening_flushed]).

    The clock and the ids that a command generates are given with it ([Moment],
    Dispatcher.v). The text of an error of the storage package and the detail of an
    issue of an index are functions that the definitions take ([describe], [detail]);
    the text of an error of the protocol fits in a frame ([presentable]).
    A request is one that a message can hold, and finds room: fewer than 2^31
    documents in a collection, fewer than 2^53 cursors ([acceptable], ServerLife.v).
    A socket is what has been written to it, and whether it was ended or destroyed.
    The calls of one cursor of the driver are awaited one after another, and between
    its commands no other changes the collection ([driver_reads]; Scans.v has what
    an iterator does when they do). Between the two ends values change their order
    of fields only ([command_travels]), where [driver_reads] has them as they were.
    The answers to listIndexes, explain, validateIndexes and listDatabases are read
    by definitions of Driver.v that [driver_understands] does not speak of.
    Listeners for the events of a client do not call it back.

    ** What is not modelled

    - Cyclic objects, and values outside [DocumentValue] where the types of the
      code exclude them: values are trees. So two parts of a document never share
      a mutable object (a finding names the place where the code lets them).
    - Collection.v reads the iterators of queries to their end before the collection
      changes, as its callers in the storage package do; Scans.v has them as cursors
      use them. The iterator over the records of a log is read to its end.
    - Whether the entry of a file in its directory is durable: the files of a
      directory are as durable as the code makes them with its own calls.
    - The manifest and the lock of a data directory and its migrations; the tools
      that inspect, repair and back up a directory; listening for connections, and
      connection strings, which the platform parses. The web site and the command
      line print and parse, and are left out. *)

From stdpp Require Export prelude list numbers sorting.
From Stdlib Require Export ZArith Lia.

#[global] Open Scope Z_scope.

(** ** Results of code that may throw

    [res E A] is the outcome of a piece of code that either returns normally or
    throws an exception of type [E]. *)
Inductive res (E A : Type) :=
  | Ok (a : A)
  | Throw (e : E).
Arguments Ok {E A} a.
Arguments Throw {E A} e.

#[global] Instance res_ret {E} : MRet (res E) := λ A a, Ok a.
#[global] Instance res_bind {E} : MBind (res E) :=
  λ A B f m, match m with Ok a => f a | Throw e => Throw e end.
#[global] Instance res_fmap {E} : FMap (res E) :=
  λ A B f m, match m with Ok a => Ok (f a) | Throw e => Throw e end.

(** [try m catch h]: the handler sees the exception and may rethrow. *)
Definition catch {E A} (m : res E A) (h : E → res E A) : res E A :=
  match m with Ok a => Ok a | Throw e => h e end.

Definition is_Ok {E A} (m : res E A) : bool :=
  match m with Ok _ => true | Throw _ => false end.

(** [guard_throw b e]: the statement [if (!b) throw e]. *)
Definition guard_throw {E} (b : bool) (e : E) : res E () :=
  if b then Ok () else Throw e.

(** ** Loops

    [loopZ body n s] runs [body] [n] times on the state [s], stopping at the
    first exception: the loop [for (index = 0; index < n; index += 1)] whose
    body does not use the index. It recurses on the binary representation of
    [n], so an absurdly large count read from hostile input costs nothing as
    soon as the body throws. *)
Fixpoint loop_pos {E S} (body : S → res E S) (p : positive) (s : S) : res E S :=
  match p with
  | xH => body s
  | xO p => s ← loop_pos body p s; loop_pos body p s
  | xI p => s ← body s; s ← loop_pos body p s; loop_pos body p s
  end.

Definition loopZ {E S} (body : S → res E S) (n : Z) (s : S) : res E S :=
  match n with
  | Zpos p => loop_pos body p s
  | _ => Ok s
  end.

(** Sequencing a list of state transformers. *)
Definition foldM {E A S} (f : A → S → res E S) : list A → S → res E S :=
  fix go l s :=
    match l with
    | [] => Ok s
    | x :: l => s ← f x s; go l s
    end.

(** ** State and exceptions

    [ST S E A]: code that changes a state [S] in place and returns or throws;
    what it changed before throwing stays changed. *)
Definition ST (S E A : Type) : Type := S → res E A * S.

#[global] Instance st_ret {S E} : MRet (ST S E) := λ A a s, (Ok a, s).
#[global] Instance st_bind {S E} : MBind (ST S E) :=
  λ A B f m s, match m s with (Ok a, s) => f a s | (Throw e, s) => (Throw e, s) end.

Definition st_get {S E A} (f : S → A) : ST S E A := λ s, (Ok (f s), s).
Definition st_update {S E} (f : S → S) : ST S E () := λ s, (Ok (), f s).
Definition st_lift {S E A} (m : res E A) : ST S E A := λ s, (m, s).
Definition st_throw {S E A} (e : E) : ST S E A := λ s, (Throw e, s).

(** [try { m } catch (error) { h }]. *)
Definition st_catch {S E A} (m : ST S E A) (h : E → ST S E A) : ST S E A :=
  λ s, match m s with (Throw e, s) => h e s | r => r end.

(** [for (const x of l) f(x)]. *)
Definition st_each {S E A} (f : A → ST S E ()) : list A → ST S E () :=
  fix go l := match l with [] => mret () | x :: l => _ ← f x; go l end.

(** The same loop, passing a value from turn to turn. *)
Definition st_fold {S E A B} (f : A → B → ST S E B) : list A → B → ST S E B :=
  fix go l b := match l with [] => mret b | x :: l => b ← f x b; go l b end.

(** ** Stable sorting

    [Array.prototype.sort] is a stable sort by a comparison function whose sign
    decides the order. Stable insertion: an element goes in front of the first
    element it does not compare greater than. *)
Section Sort.
Context {A : Type} (cmp : A → A → Z).

Fixpoint insert_by (x : A) (l : list A) : list A :=
  match l with
  | [] => [x]
  | y :: l' => if cmp x y <=? 0 then x :: l else y :: insert_by x l'
  end.

Definition sort_by (l : list A) : list A := foldr insert_by [] l.

(** The order a comparison function stands for. *)
Definition cmp_le (x y : A) : Prop := cmp x y ≤ 0.

(** What a comparison function must satisfy to define an order: a total
    preorder, with the sign of the comparison symmetric. *)
Class CmpOrder : Prop := {
  cmp_sym : ∀ x y, cmp x y ≤ 0 ↔ 0 ≤ cmp y x;
  cmp_trans : ∀ x y z, cmp x y ≤ 0 → cmp y z ≤ 0 → cmp x z ≤ 0;
}.
End Sort.
Arguments CmpOrder {A} cmp.

(** ** Byte strings *)
Definition is_byte (b : Z) : Prop := 0 ≤ b < 256.
Abbreviation bytes := (list Z).

(** Length of a byte string or of an array as a JavaScript number. *)
Definition len {A} (l : list A) : Z := Z.of_nat (length l).

(** Lexicographic comparison of byte strings; shorter prefixes come first. *)
Fixpoint lex_cmp (a b : list Z) : comparison :=
  match a, b with
  | [], [] => Eq
  | [], _ :: _ => Lt
  | _ :: _, [] => Gt
  | x :: a, y :: b =>
      match x ?= y with
      | Eq => lex_cmp a b
      | c => c
      end
  end.

Definition sign_of (c : comparison) : Z :=
  match c with Lt => -1 | Eq => 0 | Gt => 1 end.

(** ** Insertion-ordered maps

    A JavaScript [Map] iterates in insertion order: assigning to a key that is
    present keeps its position, deleting and adding it again moves it to the
    end. *)
Section OMap.
Context {K V : Type} `{EqDecision K}.

Fixpoint omap_get (m : list (K * V)) (k : K) : option V :=
  match m with
  | [] => None
  | (k', v) :: m => if decide (k = k') then Some v else omap_get m k
  end.

Fixpoint omap_set (m : list (K * V)) (k : K) (v : V) : list (K * V) :=
  match m with
  | [] => [(k, v)]
  | (k', v') :: m =>
      if decide (k = k') then (k', v) :: m else (k', v') :: omap_set m k v
  end.

Fixpoint omap_delete (m : list (K * V)) (k : K) : list (K * V) :=
  match m with
  | [] => []
  | (k', v') :: m =>
      if decide (k = k') then m else (k', v') :: omap_delete m k
  end.

Definition omap_has (m : list (K * V)) (k : K) : bool :=
  match omap_get m k with Some _ => true | None => false end.

Definition omap_keys (m : list (K * V)) : list K := map fst m.
End OMap.

(** A JavaScript [Set] of the same kind. *)
Section OSet.
Context {K : Type} `{EqDecision K}.

Definition oset_add (s : list K) (k : K) : list K :=
  if decide (k ∈ s) then s else s ++ [k].

Fixpoint oset_delete (s : list K) (k : K) : list K :=
  match s with
  | [] => []
  | k' :: s => if decide (k = k') then s else k' :: oset_delete s k
  end.
End OSet.

(** * Generic lemmas *)

Create HintDb sdb.
Create Rewrite HintDb sdb.

Section ResLemmas.
Context {E : Type}.

Lemma bind_Ok_inv {A B} (m : res E A) (f : A → res E B) b :
  m ≫= f = Ok b → ∃ a, m = Ok a ∧ f a = Ok b.
Proof. destruct m; [naive_solver | done]. Qed.

Lemma Ok_inj {A} (a b : A) : @Ok E A a = Ok b → a = b.
Proof. by intros [=]. Qed.

Lemma bind_Throw_inv {A B} (m : res E A) (f : A → res E B) e :
  m ≫= f = Throw e → m = Throw e ∨ ∃ a, m = Ok a ∧ f a = Throw e.
Proof. destruct m; naive_solver. Qed.

Lemma bind_Ok {A B} (a : A) (f : A → res E B) : Ok a ≫= f = f a.
Proof. done. Qed.

Lemma bind_Throw {A B} (e : E) (f : A → res E B) : Throw e ≫= f = Throw e.
Proof. done. Qed.

Lemma bind_assoc {A B C} (m : res E A) (f : A → res E B) (g : B → res E C) :
  (m ≫= f) ≫= g = m ≫= (λ a, f a ≫= g).
Proof. by destruct m. Qed.

Lemma bind_ret {A} (m : res E A) : m ≫= Ok = m.
Proof. by destruct m. Qed.

Lemma bind_ext {A B} (m : res E A) (f g : A → res E B) :
  (∀ a, m = Ok a → f a = g a) → m ≫= f = m ≫= g.
Proof. destruct m; simpl; auto. Qed.

Lemma guard_throw_Ok b (e : E) u : guard_throw b e = Ok u ↔ b = true.
Proof. destruct b, u; simpl; naive_solver. Qed.

Lemma foldM_app {A S} (f : A → S → res E S) l1 l2 s :
  foldM f (l1 ++ l2) s = foldM f l1 s ≫= foldM f l2.
Proof.
  revert s. induction l1 as [|x l1 IH]; intros s; simpl; [done|].
  rewrite bind_assoc. apply bind_ext. auto.
Qed.

(** An invariant of the body is an invariant of the loop. *)
Lemma foldM_inv {A S} (I : S → Prop) (f : A → S → res E S) l s s' :
  (∀ x s s', x ∈ l → I s → f x s = Ok s' → I s') →
  I s → foldM f l s = Ok s' → I s'.
Proof.
  revert s. induction l as [|x l IH]; intros s Hf Hs; simpl.
  - by intros [= <-].
  - intros (s1 & H1 & H2)%bind_Ok_inv. eapply IH; [|by eapply Hf; [left| |]|done].
    intros y ? ? ?. apply Hf. by right.
Qed.

(** *** Unfolding of the binary loop *)
Fixpoint loop_nat {S} (body : S → res E S) (n : nat) (s : S) : res E S :=
  match n with
  | O => Ok s
  | S n => s ← body s; loop_nat body n s
  end.

Lemma loop_nat_add {S} (body : S → res E S) n m s :
  loop_nat body (n + m) s = loop_nat body n s ≫= loop_nat body m.
Proof.
  revert s. induction n as [|n IH]; intros s; simpl; [done|].
  rewrite bind_assoc. apply bind_ext. auto.
Qed.

Lemma loop_pos_nat {S} (body : S → res E S) p s :
  loop_pos body p s = loop_nat body (Pos.to_nat p) s.
Proof.
  revert s. induction p as [p IH|p IH|]; intros s; cbn [loop_pos].
  - rewrite Pos2Nat.inj_xI. cbn [loop_nat]. apply bind_ext. intros s' _.
    replace (2 * Pos.to_nat p)%nat
      with (Pos.to_nat p + Pos.to_nat p)%nat by lia.
    rewrite loop_nat_add, IH. apply bind_ext. intros ? _. apply IH.
  - rewrite Pos2Nat.inj_xO.
    replace (2 * Pos.to_nat p)%nat with (Pos.to_nat p + Pos.to_nat p)%nat by lia.
    rewrite loop_nat_add, IH. apply bind_ext. intros ? _. apply IH.
  - change (Pos.to_nat 1) with 1%nat. simpl. by rewrite bind_ret.
Qed.

Lemma loopZ_nat {S} (body : S → res E S) n s :
  loopZ body n s = loop_nat body (Z.to_nat n) s.
Proof. destruct n; simpl; [done | apply loop_pos_nat | done]. Qed.

Lemma loopZ_0 {S} (body : S → res E S) s : loopZ body 0 s = Ok s.
Proof. done. Qed.

Lemma loopZ_len_cons {A S} (body : S → res E S) (x : A) l s :
  loopZ body (len (x :: l)) s = body s ≫= loopZ body (len l).
Proof.
  rewrite loopZ_nat. unfold len. rewrite Nat2Z.id. simpl.
  apply bind_ext. intros ? _. by rewrite loopZ_nat, Nat2Z.id.
Qed.

Lemma loopZ_inv {S} (I : S → Prop) (body : S → res E S) n s s' :
  (∀ s s', I s → body s = Ok s' → I s') →
  I s → loopZ body n s = Ok s' → I s'.
Proof.
  intros Hb. rewrite loopZ_nat. generalize (Z.to_nat n) as k. intros k. revert s.
  induction k as [|k IH]; intros s Hs; simpl; [by intros [= <-]|].
  intros (s1 & H1 & H2)%bind_Ok_inv. eauto.
Qed.

(** [mapM] succeeds exactly when it does on every element. *)
Lemma mapM_Ok_Forall2 {A B} (f : A → res E B) l k :
  mapM f l = Ok k ↔ Forall2 (λ x y, f x = Ok y) l k.
Proof.
  revert k. induction l as [|x l IH]; intros k; simpl.
  - split; [intros [= <-]; constructor | by inversion 1].
  - split.
    + intros (y & Hy & (ys & Hys & [= <-])%bind_Ok_inv)%bind_Ok_inv.
      constructor; [done|]. by apply IH.
    + inversion 1 as [|? y ? ys Hy Hys]; subst. rewrite Hy. simpl.
      apply IH in Hys. by rewrite Hys.
Qed.
End ResLemmas.

(** Invert a successful monadic computation in a hypothesis. *)
Ltac inv_ok H :=
  lazymatch type of H with
  | _ ≫= _ = Ok _ =>
      let a := fresh "a" in let H1 := fresh H in
      apply bind_Ok_inv in H; destruct H as (a & H1 & H); inv_ok H1; inv_ok H
  | guard_throw _ _ = Ok _ => apply guard_throw_Ok in H
  | Ok _ = Ok _ => apply Ok_inj in H; first [subst | idtac]
  | Throw _ = Ok _ => discriminate H
  | _ => idtac
  end.

Section LenLemmas.
Context {A : Type}.
Implicit Types l k : list A.

Lemma len_nonneg l : 0 ≤ len l.
Proof. unfold len. lia. Qed.
Lemma len_nil : len (@nil A) = 0.
Proof. done. Qed.
Lemma len_cons x l : len (x :: l) = len l + 1.
Proof. unfold len. simpl. lia. Qed.
Lemma len_app l k : len (l ++ k) = len l + len k.
Proof. unfold len. rewrite length_app. lia. Qed.
Lemma to_nat_len l : Z.to_nat (len l) = length l.
Proof. unfold len. lia. Qed.
Lemma len_0_inv l : len l = 0 → l = [].
Proof. destruct l; unfold len; simpl; [done | lia]. Qed.
End LenLemmas.

#[export] Hint Rewrite @len_nil @len_cons @len_app : sdb.
#[export] Hint Resolve len_nonneg : sdb.

Section SortLemmas.
Context {A : Type} (cmp : A → A → Z).

Lemma insert_by_perm x l : insert_by cmp x l ≡ₚ x :: l.
Proof.
  induction l as [|y l IH]; simpl; [done|]. case_match; [done|].
  rewrite IH. apply Permutation_swap.
Qed.

(** Sorting only reorders. *)
Lemma sort_by_perm l : sort_by cmp l ≡ₚ l.
Proof.
  induction l as [|x l IH]; simpl; [done|]. by rewrite insert_by_perm, IH.
Qed.

Context `{!CmpOrder cmp}.

Lemma cmp_flip x y : cmp x y ≤ 0 ↔ 0 ≤ cmp y x.
Proof. by apply (cmp_sym cmp). Qed.

Lemma cmp_le_trans x y z : cmp x y ≤ 0 → cmp y z ≤ 0 → cmp x z ≤ 0.
Proof. by apply (cmp_trans cmp). Qed.

Lemma cmp_total x y : cmp x y ≤ 0 ∨ cmp y x ≤ 0.
Proof.
  destruct (Z.le_gt_cases (cmp x y) 0); [by left|right].
  destruct (Z.le_gt_cases (cmp y x) 0) as [|Hn]; [done|].
  exfalso. assert (cmp x y ≤ 0) by (apply cmp_flip; lia). lia.
Qed.

Lemma cmp_refl x : cmp x x = 0.
Proof.
  assert (cmp x x ≤ 0) by (destruct (cmp_total x x); done).
  assert (0 ≤ cmp x x) by (by apply cmp_flip). lia.
Qed.

Lemma cmp_eq_sym x y : cmp x y = 0 → cmp y x = 0.
Proof.
  intros H. assert (cmp x y ≤ 0) as H1 by lia. apply cmp_flip in H1.
  assert (cmp y x ≤ 0) by (apply cmp_flip; lia). lia.
Qed.

Lemma cmp_lt_gt x y : cmp x y < 0 ↔ 0 < cmp y x.
Proof.
  pose proof (cmp_flip x y). pose proof (cmp_flip y x).
  split; intros.
  - destruct (Z.eq_dec (cmp y x) 0) as [E|]; [apply cmp_eq_sym in E; lia | lia].
  - destruct (Z.eq_dec (cmp x y) 0) as [E|]; [apply cmp_eq_sym in E; lia | lia].
Qed.

Lemma insert_by_sorted x l :
  StronglySorted (cmp_le cmp) l → StronglySorted (cmp_le cmp) (insert_by cmp x l).
Proof.
  induction l as [|y l IH]; simpl; intros Hl; [by repeat constructor|].
  apply StronglySorted_inv in Hl as [Hl Hy].
  destruct (Z.leb_spec (cmp x y) 0).
  - constructor; [by constructor|]. constructor; [done|].
    eapply Forall_impl; [done|]. intros z Hz. by eapply cmp_le_trans.
  - constructor; [by apply IH|]. rewrite insert_by_perm. constructor; [|done].
    unfold cmp_le. destruct (cmp_total x y); [lia | done].
Qed.

(** Sorting with a comparison that is an order gives a sorted list. *)
Lemma sort_by_sorted l : StronglySorted (cmp_le cmp) (sort_by cmp l).
Proof.
  induction l as [|x l IH]; simpl; [constructor|]. by apply insert_by_sorted.
Qed.

Lemma insert_by_head x l :
  Forall (λ y, cmp x y ≤ 0) l → insert_by cmp x l = x :: l.
Proof.
  destruct l as [|y l]; simpl; [done|]. intros [Hy _]%Forall_cons.
  by apply Z.leb_le in Hy as ->.
Qed.

(** A sorted list is left alone. *)
Lemma sort_by_id l : StronglySorted (cmp_le cmp) l → sort_by cmp l = l.
Proof.
  induction 1 as [|x l Hl IH Hx]; simpl; [done|]. rewrite IH. by apply insert_by_head.
Qed.

Lemma insert_by_filter_ne x z l :
  cmp x z ≠ 0 →
  filter (λ y, cmp y z = 0) (insert_by cmp x l) = filter (λ y, cmp y z = 0) l.
Proof.
  intros Hx. induction l as [|y l IH]; simpl.
  - by rewrite filter_cons_False.
  - case_match; [by rewrite filter_cons_False|].
    rewrite !filter_cons. by rewrite IH.
Qed.

Lemma insert_by_filter_eq x z l :
  cmp x z = 0 →
  filter (λ y, cmp y z = 0) (insert_by cmp x l) = x :: filter (λ y, cmp y z = 0) l.
Proof.
  intros Hx. induction l as [|y l IH]; simpl.
  - by rewrite filter_cons_True.
  - destruct (Z.leb_spec (cmp x y) 0).
    + by rewrite filter_cons_True.
    + assert (cmp y z ≠ 0).
      { intros Hy%cmp_eq_sym. assert (cmp x y ≤ 0); [|lia].
        apply (cmp_le_trans x z y); lia. }
      by rewrite !filter_cons_False.
Qed.

(** Stability: elements that compare equal keep their relative order. *)
Lemma sort_by_stable z l :
  filter (λ y, cmp y z = 0) (sort_by cmp l) = filter (λ y, cmp y z = 0) l.
Proof.
  induction l as [|x l IH]; simpl; [done|].
  rewrite filter_cons. case_decide.
  - by rewrite insert_by_filter_eq, IH.
  - by rewrite insert_by_filter_ne, IH.
Qed.

(** A comparison that separates the elements of a list leaves one sorted
    arrangement. *)
Lemma sorted_unique l1 l2 :
  l1 ≡ₚ l2 →
  (∀ x y, x ∈ l1 → y ∈ l1 → cmp x y = 0 → x = y) →
  StronglySorted (cmp_le cmp) l1 → StronglySorted (cmp_le cmp) l2 → l1 = l2.
Proof.
  revert l2. induction l1 as [|x l1 IH]; intros l2 Hp Heq H1 H2.
  { by apply Permutation_nil_l in Hp. }
  destruct l2 as [|y l2]; [by apply Permutation_nil_r in Hp|].
  apply StronglySorted_inv in H1 as [H1 Hx]. apply StronglySorted_inv in H2 as [H2 Hy].
  assert (x = y) as ->.
  { assert (y ∈ x :: l1) as Hin by (rewrite Hp; left).
    assert (x ∈ y :: l2) as Hin' by (rewrite <- Hp; left).
    apply elem_of_cons in Hin as [->|Hin]; [done|].
    apply elem_of_cons in Hin' as [->|Hin']; [done|].
    rewrite Forall_forall in Hx, Hy. apply Heq; [by left|by right|].
    apply Hx in Hin. apply Hy in Hin'. unfold cmp_le in *.
    apply cmp_flip in Hin'. lia. }
  f_equal. apply Permutation_cons_inv in Hp. apply IH; try done.
  intros a b Ha Hb. apply Heq; by right.
Qed.

Lemma sort_by_perm_eq l1 l2 :
  l1 ≡ₚ l2 →
  (∀ x y, x ∈ l1 → y ∈ l1 → cmp x y = 0 → x = y) →
  sort_by cmp l1 = sort_by cmp l2.
Proof.
  intros Hp Heq. apply sorted_unique; [by rewrite !sort_by_perm| |apply sort_by_sorted..].
  intros x y. rewrite !sort_by_perm. apply Heq.
Qed.
End SortLemmas.

(** Sorting commutes with a map that preserves the comparison. *)
Lemma sort_by_map {A B} (f : A → B) (cA : A → A → Z) (cB : B → B → Z) l :
  (∀ x y, cB (f x) (f y) ≤ 0 ↔ cA x y ≤ 0) →
  sort_by cB (map f l) = map f (sort_by cA l).
Proof.
  intros Hf.
  assert (∀ x k, insert_by cB (f x) (map f k) = map f (insert_by cA x k)) as Hins.
  { intros x k. induction k as [|y k IH]; simpl; [done|].
    specialize (Hf x y).
    destruct (Z.leb_spec (cB (f x) (f y)) 0), (Z.leb_spec (cA x y) 0); try lia;
      simpl; [done|]. by rewrite IH. }
  induction l as [|x l IH]; simpl; [done|]. by rewrite IH, Hins.
Qed.

(** *** Lexicographic comparison *)
Lemma lex_cmp_refl a : lex_cmp a a = Eq.
Proof. induction a as [|x a IH]; simpl; [done|]. by rewrite Z.compare_refl. Qed.

Lemma lex_cmp_eq a b : lex_cmp a b = Eq ↔ a = b.
Proof.
  split; [|intros ->; apply lex_cmp_refl].
  revert b. induction a as [|x a IH]; intros [|y b]; simpl; try done.
  destruct (Z.compare_spec x y); try done. intros. f_equal; auto.
Qed.

Lemma lex_cmp_antisym a b : lex_cmp b a = CompOpp (lex_cmp a b).
Proof.
  revert b. induction a as [|x a IH]; intros [|y b]; simpl; try done.
  rewrite (Z.compare_antisym x y). destruct (x ?= y); simpl; auto.
Qed.

Lemma lex_cmp_trans a b c o :
  o ≠ Eq → lex_cmp a b ≠ CompOpp o → lex_cmp b c ≠ CompOpp o → lex_cmp a c ≠ CompOpp o.
Proof.
  intros Ho. revert b c. induction a as [|x a IH]; intros [|y b] [|z c]; simpl;
    try (destruct o; done).
  destruct (Z.compare_spec x y), (Z.compare_spec y z), (Z.compare_spec x z); subst;
    try lia; try (destruct o; done); eauto.
Qed.

#[export] Instance lex_cmp_order : CmpOrder (λ a b, sign_of (lex_cmp a b)).
Proof.
  split.
  - intros x y. rewrite (lex_cmp_antisym x y). destruct (lex_cmp x y); simpl; lia.
  - intros x y z Hxy Hyz.
    assert (lex_cmp x z ≠ CompOpp Lt) as H.
    { apply (lex_cmp_trans x y z Lt); [done|destruct (lex_cmp x y)|destruct (lex_cmp y z)];
        simpl in *; try done; lia. }
    destruct (lex_cmp x z); simpl in *; [lia | lia | done].
Qed.

(** A comparison with the same signs as one that is an order is an order. *)
Lemma cmp_order_sign {A} (c1 c2 : A → A → Z) :
  (∀ x y, Z.sgn (c1 x y) = Z.sgn (c2 x y)) → CmpOrder c2 → CmpOrder c1.
Proof.
  intros Hs [H1 H2]. split.
  - intros x y. pose proof (Hs x y). pose proof (Hs y x). pose proof (H1 x y). lia.
  - intros x y z ? ?. pose proof (Hs x y). pose proof (Hs y z). pose proof (Hs x z).
    assert (c2 x z ≤ 0) by (apply (H2 x y z); lia). lia.
Qed.

(** Comparing by a key. *)
Lemma cmp_order_key {A B} (f : A → B) (c : B → B → Z) :
  CmpOrder c → CmpOrder (λ x y, c (f x) (f y)).
Proof. intros [H1 H2]. split; eauto. Qed.

(** Comparing by one order and, where it ties, by another. *)
Definition cmp_lex {A} (c1 c2 : A → A → Z) (x y : A) : Z :=
  if c1 x y =? 0 then c2 x y else c1 x y.

Lemma cmp_lex_order {A} (c1 c2 : A → A → Z) :
  CmpOrder c1 → CmpOrder c2 → CmpOrder (cmp_lex c1 c2).
Proof.
  intros O1 O2. unfold cmp_lex. split.
  - intros x y. pose proof (cmp_flip c1 x y). pose proof (cmp_flip c1 y x).
    pose proof (cmp_flip c2 x y). pose proof (cmp_eq_sym c1 x y). pose proof (cmp_eq_sym c1 y x).
    destruct (Z.eqb_spec (c1 x y) 0), (Z.eqb_spec (c1 y x) 0); lia.
  - intros x y z. pose proof (cmp_le_trans c1 x y z). pose proof (cmp_le_trans c2 x y z).
    pose proof (cmp_le_trans c1 y z x). pose proof (cmp_le_trans c1 z x y).
    pose proof (cmp_flip c1 x y). pose proof (cmp_flip c1 y x). pose proof (cmp_flip c1 y z).
    pose proof (cmp_flip c1 z y). pose proof (cmp_flip c1 x z). pose proof (cmp_flip c1 z x).
    destruct (Z.eqb_spec (c1 x y) 0), (Z.eqb_spec (c1 y z) 0), (Z.eqb_spec (c1 x z) 0); lia.
Qed.

(** The reversed order. *)
Lemma cmp_opp_order {A} (c : A → A → Z) : CmpOrder c → CmpOrder (λ x y, c x y * -1).
Proof.
  intros O. split.
  - intros x y. pose proof (cmp_flip c x y). pose proof (cmp_flip c y x). lia.
  - intros x y z ? ?. pose proof (cmp_le_trans c z y x). pose proof (cmp_flip c x y).
    pose proof (cmp_flip c y x). pose proof (cmp_flip c y z). pose proof (cmp_flip c z y).
    pose proof (cmp_flip c x z). pose proof (cmp_flip c z x). lia.
Qed.

Lemma cmp_const_order {A} : CmpOrder (λ _ _ : A, 0).
Proof. split; lia. Qed.

Lemma cmp_order_ext {A} (c1 c2 : A → A → Z) :
  (∀ x y, c1 x y = c2 x y) → CmpOrder c2 → CmpOrder c1.
Proof. intros H. apply cmp_order_sign. intros x y. by rewrite H. Qed.

Lemma filter_id {A} (P : A → Prop) `{∀ x, Decision (P x)} (l : list A) :
  Forall P l → filter P l = l.
Proof.
  induction 1 as [|x l Hx Hl IH]; [done|]. by rewrite filter_cons_True, IH.
Qed.

Lemma flat_map_comp {A B C} (f : B → list C) (g : A → B) l :
  flat_map f (map g l) = flat_map (λ x, f (g x)) l.
Proof. induction l as [|x l IH]; simpl; [done|]. by rewrite IH. Qed.

Section OMapLemmas.
Context {K V : Type} `{EqDecision K}.
Implicit Types m : list (K * V).

Lemma omap_get_set m k v : omap_get (omap_set m k v) k = Some v.
Proof.
  induction m as [|[k' v'] m IH]; simpl; [by rewrite decide_True|].
  case_decide; simpl; [by rewrite decide_True | by rewrite decide_False].
Qed.

Lemma omap_get_set_ne m k k' v : k ≠ k' → omap_get (omap_set m k v) k' = omap_get m k'.
Proof.
  intros Hne. induction m as [|[k1 v1] m IH]; simpl; [by rewrite decide_False|].
  case_decide; simpl; [subst; by rewrite !decide_False|]. by rewrite IH.
Qed.

Lemma omap_set_set m k v w : omap_set (omap_set m k v) k w = omap_set m k w.
Proof.
  induction m as [|[k1 v1] m IH]; simpl; [by rewrite decide_True|].
  case_decide; simpl; [by rewrite decide_True|]. by rewrite decide_False, IH.
Qed.

Lemma omap_get_Some_in m k v : omap_get m k = Some v → (k, v) ∈ m.
Proof.
  induction m as [|[k1 v1] m IH]; simpl; [done|]. case_decide.
  - intros [= <-]. subst. left.
  - right. auto.
Qed.

Lemma omap_get_None m k : omap_get m k = None ↔ k ∉ omap_keys m.
Proof.
  induction m as [|[k1 v1] m IH]; simpl; [split; [intros _; apply not_elem_of_nil|done]|].
  rewrite not_elem_of_cons. case_decide; [naive_solver|]. rewrite IH. naive_solver.
Qed.

Lemma omap_get_in m k v : NoDup (omap_keys m) → (k, v) ∈ m → omap_get m k = Some v.
Proof.
  induction m as [|[k1 v1] m IH]; simpl; [by intros _ ?%not_elem_of_nil|].
  intros [Hn Hd]%NoDup_cons [[= -> ->]|Hin]%elem_of_cons; [by rewrite decide_True|].
  rewrite decide_False; [auto|]. intros ->. apply Hn.
  apply (list_elem_of_fmap_2 fst) in Hin. done.
Qed.

Lemma omap_get_Some_iff m k v :
  NoDup (omap_keys m) → omap_get m k = Some v ↔ (k, v) ∈ m.
Proof. intros. split; [apply omap_get_Some_in | by apply omap_get_in]. Qed.

Lemma omap_set_None m k v : omap_get m k = None → omap_set m k v = m ++ [(k, v)].
Proof.
  induction m as [|[k1 v1] m IH]; simpl; [done|]. case_decide; [done|].
  intros. by rewrite IH.
Qed.

Lemma omap_set_keys_Some m k v :
  is_Some (omap_get m k) → omap_keys (omap_set m k v) = omap_keys m.
Proof.
  induction m as [|[k1 v1] m IH]; simpl; [by intros [? ?]|].
  case_decide; simpl; [done|]. intros. by rewrite IH.
Qed.

Lemma omap_keys_app m1 m2 : omap_keys (m1 ++ m2) = omap_keys m1 ++ omap_keys m2.
Proof. apply map_app. Qed.

Lemma omap_set_keys m k v :
  omap_keys (omap_set m k v) =
    if decide (is_Some (omap_get m k)) then omap_keys m else omap_keys m ++ [k].
Proof.
  case_decide as H; [by apply omap_set_keys_Some|].
  apply eq_None_not_Some in H. by rewrite omap_set_None, omap_keys_app.
Qed.

Lemma omap_set_NoDup m k v : NoDup (omap_keys m) → NoDup (omap_keys (omap_set m k v)).
Proof.
  intros Hd. rewrite omap_set_keys. case_decide as H; [done|].
  apply eq_None_not_Some, omap_get_None in H.
  apply NoDup_app. split; [done|]. split; [|apply NoDup_singleton].
  intros x Hx ->%list_elem_of_singleton. done.
Qed.

Lemma omap_delete_filter m k :
  NoDup (omap_keys m) → omap_delete m k = filter (λ kv, kv.1 ≠ k) m.
Proof.
  induction m as [|[k1 v1] m IH]; simpl; [done|]. intros [Hn Hd]%NoDup_cons.
  case_decide as Hk.
  - subst. rewrite filter_cons_False by (simpl; naive_solver). symmetry.
    apply filter_id, Forall_forall. intros [k2 v2] Hi. simpl. intros ->.
    apply Hn. by apply (list_elem_of_fmap_2 fst) in Hi.
  - rewrite filter_cons_True by (simpl; naive_solver). by rewrite IH.
Qed.

Lemma omap_delete_None m k : omap_get m k = None → omap_delete m k = m.
Proof.
  induction m as [|[k1 v1] m IH]; simpl; [done|]. case_decide; [done|].
  intros. by rewrite IH.
Qed.

Lemma omap_get_delete_ne m k k' :
  k ≠ k' → omap_get (omap_delete m k) k' = omap_get m k'.
Proof.
  intros Hne. induction m as [|[k1 v1] m IH]; simpl; [done|].
  case_decide; subst; simpl; [by rewrite decide_False|]. by rewrite IH.
Qed.

Lemma omap_delete_keys m k : omap_keys (omap_delete m k) = oset_delete (omap_keys m) k.
Proof.
  induction m as [|[k1 v1] m IH]; simpl; [done|]. case_decide; simpl; [done|].
  by rewrite IH.
Qed.

Lemma oset_delete_sublist (s : list K) k : oset_delete s k `sublist_of` s.
Proof.
  induction s as [|k1 s IH]; simpl; [done|]. case_decide; [by apply sublist_cons|].
  by apply sublist_skip.
Qed.

Lemma oset_delete_elem (s : list K) k x :
  NoDup s → x ∈ oset_delete s k ↔ x ∈ s ∧ x ≠ k.
Proof.
  induction s as [|k1 s IH]; simpl; [set_solver|]. intros [Hn Hd]%NoDup_cons.
  case_decide; subst; [set_solver|]. rewrite elem_of_cons, IH by done. set_solver.
Qed.

Lemma oset_delete_NoDup (s : list K) k : NoDup s → NoDup (oset_delete s k).
Proof.
  induction s as [|k1 s IH]; simpl; [done|]. intros [Hn Hd]%NoDup_cons.
  case_decide; [done|]. apply NoDup_cons. split; [|by apply IH].
  rewrite oset_delete_elem by done. naive_solver.
Qed.

Lemma oset_delete_not_in (s : list K) k : k ∉ s → oset_delete s k = s.
Proof.
  induction s as [|k1 s IH]; simpl; [done|]. rewrite not_elem_of_cons.
  intros [? ?]. rewrite decide_False by done. by rewrite IH.
Qed.

Lemma omap_delete_NoDup m k : NoDup (omap_keys m) → NoDup (omap_keys (omap_delete m k)).
Proof. rewrite omap_delete_keys. apply oset_delete_NoDup. Qed.

Lemma omap_get_delete m k : NoDup (omap_keys m) → omap_get (omap_delete m k) k = None.
Proof.
  intros. apply omap_get_None. rewrite omap_delete_keys, oset_delete_elem by done. naive_solver.
Qed.

Lemma oset_add_elem (s : list K) k x : x ∈ oset_add s k ↔ x ∈ s ∨ x = k.
Proof. unfold oset_add. case_decide; set_solver. Qed.

Lemma oset_add_NoDup (s : list K) k : NoDup s → NoDup (oset_add s k).
Proof.
  unfold oset_add. case_decide; [done|]. intros. apply NoDup_app. split; [done|].
  split; [set_solver|apply NoDup_singleton].
Qed.
End OMapLemmas.
