(* ===== verification/Errors.v ===== *)
(** * Errors

    The error classes of [packages/protocol/src/errors.ts] and
    [packages/storage/src/errors.ts]. Error values carry their code; the
    human-readable messages are not modelled. *)

From S2P Require Import Prelude.

(** [ProtocolErrorCode] (packages/protocol/src/errors.ts). *)
Inductive ProtocolErrorCode :=
  | InvalidMagic
  | UnsupportedVersion
  | InvalidMessageKind
  | InvalidFlags
  | InvalidRequestId
  | InvalidPayload
  | PayloadTooLarge
  | IncompleteFrame
  | PayloadLengthMismatch
  | InvalidDocumentValue
  | IntegerOutOfRange
  | InvalidDate
  | DocumentTooDeep
  | CyclicDocument
  | UnexpectedEnd
  | UnknownValueTag
  | InvalidUtf8
  | DuplicateDocumentKey
  | TrailingData
  | InvalidMessagePayload.

(** [StorageErrorCode] (packages/storage/src/errors.ts). *)
Inductive StorageErrorCode :=
  | InvalidDocument
  | InvalidDocumentId
  | InvalidFilter
  | InvalidFindOptions
  | InvalidBatch
  | InvalidUpdate
  | ImmutableId
  | DuplicateId
  | Corruption
  | Io
  | DiskFull
  | PermissionDenied
  | Closed
  | Locked
  | DuplicateKey
  | InvalidIndex
  | IndexNotFound
  | IndexConflict
  | UnsupportedFormat
  | InvalidBackup.

#[export] Instance ProtocolErrorCode_eq_dec : EqDecision ProtocolErrorCode.
Proof. solve_decision. Defined.
#[export] Instance StorageErrorCode_eq_dec : EqDecision StorageErrorCode.
Proof. solve_decision. Defined.

(** The codes of the operating system's errors that the code tells apart; [EIO]
    stands for every other one. *)
Inductive Errno :=
  | ENOSPC | EDQUOT | EACCES | EPERM | EROFS | EEXIST | EISDIR | EINVAL | ENOENT | EIO.

#[export] Instance Errno_eq_dec : EqDecision Errno.
Proof. solve_decision. Defined.

(** What code may throw. [InsertManyError] is [StorageInsertManyError]: the
    index in the batch that failed, the ids inserted before it (their bytes) and
    the code of the cause; [SystemError] is an error of the operating system, with
    its code; [CheckpointDamaged] is the [CheckpointDamagedError] of
    engine/checkpoint.ts. [TypeError], [RangeError] and [JsError] are the language's own error
    classes. *)
Inductive exn :=
  | ProtocolError (code : ProtocolErrorCode)
  | StorageError (code : StorageErrorCode)
  | InsertManyError (failedIndex : Z) (insertedIds : list bytes) (cause : StorageErrorCode)
  | SystemError (code : Errno)
  | CheckpointDamaged
  | TypeError
  | RangeError
  | JsError.

#[export] Instance exn_eq_dec : EqDecision exn.
Proof. solve_decision. Defined.

(** [error instanceof StorageError]. *)
Definition isStorageError (e : exn) : bool :=
  match e with
  | StorageError _ | InsertManyError _ _ _ => true
  | _ => false
  end.

(** [error.code] of a StorageError. *)
Definition storageCode (e : exn) : option StorageErrorCode :=
  match e with
  | StorageError c | InsertManyError _ _ c => Some c
  | _ => None
  end.

Abbreviation result := (res exn).

(** ** Errors of file operations (packages/storage/src/io-error.ts) *)
Definition DISK_FULL : list Errno := [ENOSPC; EDQUOT].
Definition NOT_PERMITTED : list Errno := [EACCES; EPERM; EROFS].

Definition errnoOf (error : exn) : option Errno :=
  match error with SystemError code => Some code | _ => None end.

Definition isDiskFull (error : exn) : bool :=
  match errnoOf error with Some code => bool_decide (code ∈ DISK_FULL) | None => false end.

Definition ioError (cause : exn) (classify : bool) : exn :=
  match (if classify then errnoOf cause else None) with
  | Some code =>
      if bool_decide (code ∈ DISK_FULL) then StorageError DiskFull
      else if bool_decide (code ∈ NOT_PERMITTED) then StorageError PermissionDenied
      else StorageError Io
  | None => StorageError Io
  end.

Definition translateIo (cause : exn) : exn :=
  if isStorageError cause then cause
  else match errnoOf cause with
       | None => cause
       | Some _ => ioError cause true
       end.
