(* ===== verification/JsNumber.v ===== *)
(** * JavaScript numbers

    A number is an IEEE 754 binary64 value, as [spec_float] of the standard
    library (one NaN, mantissa and exponent for finite values). This file models
    what the program uses of the language: the predicates of [Number], the
    conversions between numbers and bigints, addition, the mathematical value
    that relational comparison looks at, and the 64-bit pattern that a
    [DataView] reads and writes. *)

From S2P Require Import Prelude.
From Stdlib Require Export SpecFloat.

Abbreviation number := spec_float.
Abbreviation valid_number := (λ n : number, valid_binary 53 1024 n = true).

(** [Number(z)] for a bigint: rounding to nearest, ties to even. *)
Definition number_of_Z (z : Z) : number := binary_normalize 53 1024 z 0 false.

Definition isNaN (n : number) : bool :=
  match n with S754_nan => true | _ => false end.

(** [Number.isFinite]. *)
Definition isFinite (n : number) : bool :=
  match n with S754_zero _ | S754_finite _ _ _ => true | _ => false end.

(** [Object.is(n, -0)]. *)
Definition isNegZero (n : number) : bool :=
  match n with S754_zero true => true | _ => false end.

(** [Number.isInteger]. *)
Definition isInteger (n : number) : bool :=
  match n with
  | S754_zero _ => true
  | S754_finite _ m e => (0 <=? e) || (Zpos m mod 2 ^ (- e) =? 0)
  | _ => false
  end.

(** [BigInt(n)] for an integral number. *)
Definition Z_of_number (n : number) : Z :=
  match n with
  | S754_finite s m e =>
      cond_Zopp s (if 0 <=? e then Zpos m * 2 ^ e else Zpos m / 2 ^ (- e))
  | _ => 0
  end.

Definition MAX_SAFE_INTEGER : Z := 2 ^ 53 - 1.

(** [Number.isSafeInteger]. *)
Definition isSafeInteger (n : number) : bool :=
  isInteger n && (Z.abs (Z_of_number n) <=? MAX_SAFE_INTEGER).

(** [a + b] on numbers. *)
Definition number_add (a b : number) : number := SFadd 53 1024 a b.

(** ** Mathematical values

    Relational comparison of numbers and bigints compares mathematical values,
    with the two infinities. Finite values are scaled by [2 ^ 1074], which makes
    every binary64 value an integer. *)
Inductive extZ := NegInf | Fin (z : Z) | PosInf.

Definition extZ_cmp (a b : extZ) : comparison :=
  match a, b with
  | NegInf, NegInf | PosInf, PosInf => Eq
  | NegInf, _ | _, PosInf => Lt
  | PosInf, _ | _, NegInf => Gt
  | Fin x, Fin y => x ?= y
  end.

(** [None] is NaN, which is unordered. *)
Definition number_value (n : number) : option extZ :=
  match n with
  | S754_nan => None
  | S754_infinity true => Some NegInf
  | S754_infinity false => Some PosInf
  | S754_zero _ => Some (Fin 0)
  | S754_finite s m e => Some (Fin (cond_Zopp s (Zpos m * 2 ^ (e + 1074))))
  end.

Definition bigint_value (z : Z) : extZ := Fin (z * 2 ^ 1074).

(** ** Bit patterns *)
Definition bits_of_number (n : number) : Z :=
  match n with
  | S754_zero s => if s then 2 ^ 63 else 0
  | S754_infinity s => (if s then 2 ^ 63 else 0) + 2047 * 2 ^ 52
  | S754_nan => 0x7ff8000000000000
  | S754_finite s m e =>
      (if s then 2 ^ 63 else 0) +
      (if Zpos m <? 2 ^ 52 then Zpos m else (e + 1075) * 2 ^ 52 + (Zpos m - 2 ^ 52))
  end.

Definition number_of_bits (b : Z) : number :=
  let s := 2 ^ 63 <=? b in
  let ex := (b / 2 ^ 52) mod 2048 in
  let fr := b mod 2 ^ 52 in
  if ex =? 2047 then if fr =? 0 then S754_infinity s else S754_nan
  else if ex =? 0 then
    match fr with Zpos m => S754_finite s m (-1074) | _ => S754_zero s end
  else
    match 2 ^ 52 + fr with
    | Zpos m => S754_finite s m (ex - 1075)
    | _ => S754_nan
    end.

#[export] Instance number_eq_dec : EqDecision number.
Proof. solve_decision. Defined.

(** * Lemmas *)

Lemma digits2_pos_bounds p :
  2 ^ (Zpos (digits2_pos p) - 1) ≤ Zpos p < 2 ^ Zpos (digits2_pos p).
Proof.
  induction p as [p IH|p IH|]; cbn [digits2_pos]; [| |done];
    rewrite Pos2Z.inj_succ; replace (Z.succ (Zpos (digits2_pos p)) - 1)
      with (Z.succ (Zpos (digits2_pos p) - 1)) by lia;
    rewrite !Z.pow_succ_r by lia; lia.
Qed.

Lemma digits2_pos_unique p d :
  0 < d → 2 ^ (d - 1) ≤ Zpos p < 2 ^ d → Zpos (digits2_pos p) = d.
Proof.
  intros Hd [H1 H2]. pose proof (digits2_pos_bounds p) as [H3 H4].
  assert (2 ^ (Zpos (digits2_pos p) - 1) < 2 ^ d) as H5 by lia.
  assert (2 ^ (d - 1) < 2 ^ Zpos (digits2_pos p)) as H6 by lia.
  apply Z.pow_lt_mono_r_iff in H5; [|lia..]. apply Z.pow_lt_mono_r_iff in H6; lia.
Qed.

Lemma digits2_pos_le p d : 0 ≤ d → Zpos p < 2 ^ d → Zpos (digits2_pos p) ≤ d.
Proof.
  intros Hd H. pose proof (digits2_pos_bounds p) as [H3 H4].
  assert (2 ^ (Zpos (digits2_pos p) - 1) < 2 ^ d) as H5 by lia.
  apply Z.pow_lt_mono_r_iff in H5; lia.
Qed.

Lemma fexp_eq x : fexp 53 1024 x = Z.max (x - 53) (-1074).
Proof. done. Qed.

Lemma bounded_spec m e :
  bounded 53 1024 m e = true ↔
  Z.max (Zpos (digits2_pos m) + e - 53) (-1074) = e ∧ e ≤ 971.
Proof.
  unfold bounded, canonical_mantissa. rewrite andb_true_iff, Z.eqb_eq, Z.leb_le, fexp_eq. done.
Qed.

Lemma iter_xO_spec d m : Zpos (Pos.iter xO m d) = Zpos m * 2 ^ Zpos d.
Proof.
  induction d as [|d IH] using Pos.peano_ind; [simpl; lia|].
  rewrite Pos.iter_succ, Pos2Z.inj_xO, IH, Pos2Z.inj_succ, Z.pow_succ_r by lia. lia.
Qed.

Lemma shl_align_spec m e e' m' e'' :
  shl_align m e e' = (m', e'') →
  e'' = Z.min e e' ∧ Zpos m' = Zpos m * 2 ^ (e - e'').
Proof.
  unfold shl_align. destruct (e' - e) as [|d|d] eqn:E; intros [= <- <-].
  1,2: rewrite Z.sub_diag; lia.
  split; [lia|]. replace (e - e') with (Zpos d) by lia. apply iter_xO_spec.
Qed.

Lemma shr_1_m mrs : 0 ≤ shr_m mrs → shr_m (shr_1 mrs) = shr_m mrs / 2.
Proof.
  destruct mrs as [[|[p|p|]|p] r s]; simpl; try done; intros _.
  - rewrite Pos2Z.inj_xI. apply (Z.div_unique _ _ _ 1); lia.
  - rewrite Pos2Z.inj_xO. apply (Z.div_unique _ _ _ 0); lia.
Qed.

Lemma iter_shr_1_m p mrs :
  0 ≤ shr_m mrs →
  shr_m (iter_pos shr_1 p mrs) = shr_m mrs / 2 ^ Zpos p.
Proof.
  revert mrs. induction p as [p IH|p IH|]; intros mrs Hm; cbn [iter_pos].
  - assert (0 ≤ shr_m mrs / 2) by (apply Z.div_pos; lia).
    rewrite IH; rewrite IH; rewrite ?shr_1_m; try done.
    + rewrite !Z.div_div by lia. f_equal.
      replace (Zpos p~1) with (Zpos p + Zpos p + 1) by lia.
      rewrite !Z.pow_add_r, Z.pow_1_r by lia. lia.
    + apply Z.div_pos; lia.
  - rewrite IH; rewrite IH; try done.
    + rewrite !Z.div_div by lia. f_equal.
      replace (Zpos p~0) with (Zpos p + Zpos p) by lia. by rewrite Z.pow_add_r by lia.
    + apply Z.div_pos; lia.
  - by rewrite shr_1_m.
Qed.

Lemma shr_spec mrs e n mrs' e' :
  0 ≤ shr_m mrs → shr mrs e n = (mrs', e') →
  shr_m mrs' = shr_m mrs / 2 ^ Z.max 0 n ∧ e' = e + Z.max 0 n.
Proof.
  intros Hm. unfold shr. destruct n as [|p|p]; intros [= <- <-]; simpl.
  - rewrite Z.div_1_r. lia.
  - rewrite iter_shr_1_m by done. by rewrite Z.max_r by lia.
  - rewrite Z.max_l by lia. rewrite Z.pow_0_r, Z.div_1_r. lia.
Qed.

Lemma Zdigits2_nonneg_lt m : 0 < m → 2 ^ (Zdigits2 m - 1) ≤ m < 2 ^ Zdigits2 m.
Proof. destruct m; try lia. intros _. apply digits2_pos_bounds. Qed.

Lemma Zdigits2_unique m d : 0 < d → 2 ^ (d - 1) ≤ m < 2 ^ d → Zdigits2 m = d.
Proof.
  intros Hd Hm. assert (0 < 2 ^ (d - 1)) by (apply Z.pow_pos_nonneg; lia).
  destruct m; try lia. by apply digits2_pos_unique.
Qed.

Lemma round_nearest_even_cases m l :
  round_nearest_even m l = m ∨ round_nearest_even m l = m + 1.
Proof. destruct l as [|[]]; simpl; try case_match; auto. Qed.

(** The last step of rounding yields a canonical mantissa. *)
Lemma final_shift_valid sx m e mrs' e' :
  0 ≤ m ≤ 2 ^ 53 → -1074 ≤ e → (e = -1074 ∧ m ≤ 2 ^ 52 ∨ 2 ^ 52 ≤ m) →
  shr_fexp 53 1024 m e loc_Exact = (mrs', e') →
  valid_binary 53 1024
    match shr_m mrs' with
    | Z0 => S754_zero sx
    | Zpos m => if Z.leb e' (Z.sub 1024 53) then S754_finite sx m e' else S754_infinity sx
    | _ => S754_nan
    end = true.
Proof.
  intros Hm He Hcase Hs. unfold shr_fexp in Hs.
  apply shr_spec in Hs as [Hm' He']; simpl in *; [|lia]. rewrite fexp_eq in Hm', He'.
  destruct (shr_m mrs') as [|p|p] eqn:Ep; try done.
  case_match eqn:Hle; [|done]. apply Z.leb_le in Hle. simpl. apply bounded_spec.
  split; [|lia]. clear Hle.
  destruct (Z.eq_dec m (2 ^ 53)) as [->|Hne].
  - rewrite (Zdigits2_unique (2 ^ 53) 54) in Hm', He' by lia.
    replace (Z.max 0 (Z.max (54 + e - 53) (-1074) - e)) with 1 in Hm', He' by lia.
    rewrite (digits2_pos_unique p 53); [lia|lia|]. rewrite Hm'. done.
  - assert (0 < m) as Hpos.
    { destruct (Z.eq_dec m 0) as [->|]; [|lia]. by rewrite Z.div_0_l in Hm' by lia. }
    destruct Hcase as [[-> Hle]|Hge].
    + assert (Zdigits2 m ≤ 53).
      { destruct m; try lia. apply digits2_pos_le; lia. }
      replace (Z.max 0 (Z.max (Zdigits2 m + -1074 - 53) (-1074) - -1074)) with 0 in Hm', He' by lia.
      rewrite Z.div_1_r in Hm'. subst m. simpl in *. lia.
    + rewrite (Zdigits2_unique m 53) in Hm', He' by lia.
      replace (Z.max 0 (Z.max (53 + e - 53) (-1074) - e)) with 0 in Hm', He' by lia.
      rewrite Z.div_1_r in Hm'. subst m. rewrite (digits2_pos_unique p 53); lia.
Qed.

Lemma binary_round_aux_valid sx m e l :
  e ≤ fexp 53 1024 (Zpos (digits2_pos m) + e) →
  valid_binary 53 1024 (binary_round_aux 53 1024 sx (Zpos m) e l) = true.
Proof.
  intros He. unfold binary_round_aux.
  destruct (shr_fexp 53 1024 (Zpos m) e l) as [mrs1 e1] eqn:E1.
  destruct (shr_fexp 53 1024 _ e1 loc_Exact) as [mrs2 e2] eqn:E2.
  unfold shr_fexp in E1. rewrite fexp_eq in *.
  assert (shr_m (shr_record_of_loc (Zpos m) l) = Zpos m) as Hl by (by destruct l as [|[]]).
  apply shr_spec in E1 as [Hm1 He1]; [|by rewrite Hl].
  rewrite Hl in Hm1. cbn [Zdigits2] in *.
  pose proof (digits2_pos_bounds m) as [Hlo Hhi].
  set (D := Zpos (digits2_pos m)) in *. assert (0 < D) by (unfold D; lia).
  set (n := Z.max 0 (Z.max (D + e - 53) (-1074) - e)) in *. assert (0 ≤ n) by lia.
  assert (0 < 2 ^ n) by (apply Z.pow_pos_nonneg; lia).
  eapply final_shift_valid; [| | |exact E2]; [| lia |].
  - assert (0 ≤ shr_m mrs1 < 2 ^ 53) as Hr.
    { rewrite Hm1. split; [apply Z.div_pos; lia|]. apply Z.div_lt_upper_bound; [lia|].
      rewrite <- Z.pow_add_r by lia. eapply Z.lt_le_trans; [exact Hhi|].
      apply Z.pow_le_mono_r; lia. }
    destruct (round_nearest_even_cases (shr_m mrs1) (loc_of_shr_record mrs1)) as [->| ->]; lia.
  - destruct (Z.lt_ge_cases (D + e - 53) (-1074)) as [Hc|Hc].
    + left. split; [lia|].
      assert (shr_m mrs1 < 2 ^ 52).
      { rewrite Hm1.
        apply Z.div_lt_upper_bound; [lia|]. rewrite <- Z.pow_add_r by lia.
        eapply Z.lt_le_trans; [exact Hhi|]. apply Z.pow_le_mono_r; lia. }
      destruct (round_nearest_even_cases (shr_m mrs1) (loc_of_shr_record mrs1)) as [->| ->]; lia.
    + right.
      assert (2 ^ 52 ≤ shr_m mrs1).
      { rewrite Hm1. apply Z.div_le_lower_bound; [lia|]. rewrite <- Z.pow_add_r by lia.
        eapply Z.le_trans; [|exact Hlo]. apply Z.pow_le_mono_r; lia. }
      destruct (round_nearest_even_cases (shr_m mrs1) (loc_of_shr_record mrs1)) as [->| ->]; lia.
Qed.

Lemma binary_normalize_valid m e s : valid_binary 53 1024 (binary_normalize 53 1024 m e s) = true.
Proof.
  assert (∀ sx p, valid_binary 53 1024 (binary_round 53 1024 sx p e) = true) as H.
  { intros sx p. unfold binary_round.
    destruct (shl_align p e _) as [p' e'] eqn:E. apply shl_align_spec in E as [He' Hp'].
    apply binary_round_aux_valid. rewrite fexp_eq in *.
    rewrite (digits2_pos_unique p' (Zpos (digits2_pos p) + (e - e'))); [lia|lia|].
    pose proof (digits2_pos_bounds p). rewrite Hp'.
    replace (Zpos (digits2_pos p) + (e - e') - 1)
      with (Zpos (digits2_pos p) - 1 + (e - e')) by lia.
    rewrite !Z.pow_add_r by lia.
    assert (0 < 2 ^ (e - e')) by (apply Z.pow_pos_nonneg; lia). nia. }
  destruct m; simpl; auto.
Qed.

Lemma number_of_Z_valid z : valid_number (number_of_Z z).
Proof. apply binary_normalize_valid. Qed.

(** Addition of numbers yields a binary64 value again. *)
Lemma number_add_valid a b :
  valid_number a → valid_number b → valid_number (number_add a b).
Proof.
  unfold number_add, SFadd. intros Ha Hb.
  destruct a as [[]|[]| |], b as [[]|[]| |]; try done; apply binary_normalize_valid.
Qed.

(** ** Integers that are numbers *)
Lemma binary_round_small sx p :
  Zpos p < 2 ^ 53 →
  ∃ p', binary_round 53 1024 sx p 0 =
          S754_finite sx p' (Zpos (digits2_pos p) - 53) ∧
        Zpos p' = Zpos p * 2 ^ (53 - Zpos (digits2_pos p)).
Proof.
  intros Hp. assert (Zpos (digits2_pos p) ≤ 53) as Hd by (apply digits2_pos_le; lia).
  unfold binary_round. rewrite fexp_eq.
  destruct (shl_align p 0 _) as [p' e'] eqn:E. apply shl_align_spec in E as [He' Hp'].
  assert (e' = Zpos (digits2_pos p) - 53) as -> by lia. clear He'.
  replace (0 - (Zpos (digits2_pos p) - 53)) with (53 - Zpos (digits2_pos p)) in Hp' by lia.
  exists p'. split; [|done].
  assert (Zpos (digits2_pos p') = 53) as Hd'.
  { apply digits2_pos_unique; [lia|]. pose proof (digits2_pos_bounds p) as [H1 H2].
    assert (0 < 2 ^ (53 - Zpos (digits2_pos p))) by (apply Z.pow_pos_nonneg; lia).
    rewrite Hp'. split.
    - replace (2 ^ (53 - 1)) with (2 ^ (Zpos (digits2_pos p) - 1) * 2 ^ (53 - Zpos (digits2_pos p))); [nia|].
      rewrite <- Z.pow_add_r by lia. f_equal. lia.
    - replace (2 ^ 53) with (2 ^ (Zpos (digits2_pos p)) * 2 ^ (53 - Zpos (digits2_pos p))); [nia|].
      rewrite <- Z.pow_add_r by lia. f_equal. lia. }
  unfold binary_round_aux, shr_fexp. rewrite fexp_eq. cbn [Zdigits2]. rewrite Hd'.
  replace (Z.max _ _ - _) with 0 by lia. cbn -[Z.max Z.leb Z.sub Z.add].
  rewrite fexp_eq, Hd'.
  replace (Z.max _ _ - _) with 0 by lia. cbn -[Z.max Z.leb Z.sub Z.add].
  by rewrite (proj2 (Z.leb_le _ _)) by lia.
Qed.

Lemma number_of_Z_small z :
  z ≠ 0 → Z.abs z < 2 ^ 53 →
  ∃ p e, number_of_Z z = S754_finite (z <? 0) p e ∧ -53 ≤ e ≤ 0 ∧
         Zpos p = Z.abs z * 2 ^ (- e) ∧ e = Zdigits2 z - 53.
Proof.
  intros Hz Hb. unfold number_of_Z. destruct z as [|p|p]; [done| |];
    simpl binary_normalize; destruct (binary_round_small (Zpos p <? 0) p) as (p' & E & Hp'); try lia;
    simpl in *;
    assert (Zpos (digits2_pos p) ≤ 53) by (apply digits2_pos_le; lia).
  - exists p', (Zpos (digits2_pos p) - 53). split; [done|]. split; [lia|]. split; [|done].
    rewrite Hp'. f_equal. f_equal. lia.
  - destruct (binary_round_small true p) as (p2 & E2 & Hp2); [lia|].
    exists p2, (Zpos (digits2_pos p) - 53). split; [done|]. split; [lia|]. split; [|done].
    rewrite Hp2. f_equal. f_equal. lia.
Qed.

Lemma number_of_Z_is_integer z :
  Z.abs z < 2 ^ 53 → isInteger (number_of_Z z) = true.
Proof.
  intros Hz. destruct (Z.eq_dec z 0) as [->|Hne]; [done|].
  destruct (number_of_Z_small z) as (p & e & -> & He & Hp & _); [done..|].
  simpl. apply orb_true_iff. right. apply Z.eqb_eq. rewrite Hp. by apply Z.mod_mul, Z.pow_nonzero; lia.
Qed.

Lemma Z_of_number_of_Z z : Z.abs z < 2 ^ 53 → Z_of_number (number_of_Z z) = z.
Proof.
  intros Hz. destruct (Z.eq_dec z 0) as [->|Hne]; [done|].
  destruct (number_of_Z_small z) as (p & e & -> & He & Hp & _); [done..|]. simpl.
  assert ((if 0 <=? e then Zpos p * 2 ^ e else Zpos p / 2 ^ (- e)) = Z.abs z) as ->.
  { destruct (Z.leb_spec 0 e).
    - replace e with 0 in * by lia. rewrite Hp. rewrite Z.pow_0_r. simpl. lia.
    - rewrite Hp. apply Z.div_mul, Z.pow_nonzero; lia. }
  unfold cond_Zopp. destruct (Z.ltb_spec z 0); lia.
Qed.

Lemma number_value_of_Z z :
  Z.abs z < 2 ^ 53 → number_value (number_of_Z z) = Some (Fin (z * 2 ^ 1074)).
Proof.
  intros Hz. destruct (Z.eq_dec z 0) as [->|Hne]; [done|].
  destruct (number_of_Z_small z) as (p & e & -> & He & Hp & _); [done..|].
  cbn [number_value]. do 2 f_equal.
  assert (Zpos p * 2 ^ (e + 1074) = Z.abs z * 2 ^ 1074) as ->.
  { rewrite Hp, <- Z.mul_assoc, <- Z.pow_add_r by lia. do 2 f_equal. lia. }
  unfold cond_Zopp. destruct (Z.ltb_spec z 0); lia.
Qed.

(** An integral number that is a safe integer and not -0 is determined by its
    integer: the number read back is the one written. *)
Lemma number_of_Z_of_number n :
  valid_number n → isInteger n = true → isNegZero n = false →
  Z.abs (Z_of_number n) < 2 ^ 53 → number_of_Z (Z_of_number n) = n.
Proof.
  intros Hv Hi Hnz Hb. destruct n as [[]|s| |s m e]; try done.
  simpl in Hv. apply bounded_spec in Hv as [Hc _].
  simpl in Hi. cbn [Z_of_number] in *. set (d := Zpos (digits2_pos m)) in *.
  pose proof (digits2_pos_bounds m) as [Hlo Hhi]. fold d in Hlo, Hhi.
  assert (0 < d) as Hd by (unfold d; lia).
  set (a := if 0 <=? e then _ else _) in *.
  assert (Z.abs (cond_Zopp s a) = Z.abs a) as Habs by (destruct s; simpl; lia).
  assert (0 < a ∧ e ≤ 0 ∧ Zpos m = a * 2 ^ (- e)) as (Ha & He & Hm).
  { unfold a in *. destruct (Z.leb_spec 0 e) as [Hle|Hgt].
    - destruct (Z.eq_dec e 0) as [->|]; [lia|exfalso].
      assert (d = 53) by lia. assert (2 ^ 1 ≤ 2 ^ e) by (apply Z.pow_le_mono_r; lia).
      assert (2 ^ 52 ≤ Zpos m) by (subst d; replace 52 with (Zpos (digits2_pos m) - 1); lia). nia.
    - simpl in Hi. apply Z.eqb_eq in Hi.
      assert (0 < 2 ^ (- e)) by (apply Z.pow_pos_nonneg; lia).
      pose proof (Z.div_mod (Zpos m) (2 ^ (- e))). split; [|split; [lia|lia]].
      nia. }
  destruct (number_of_Z_small (cond_Zopp s a)) as (p' & e' & E & He' & Hp' & Hed).
  { destruct s; simpl; lia. } { lia. }
  assert (Zdigits2 (cond_Zopp s a) = d + e) as Hdig.
  { assert (Zdigits2 (cond_Zopp s a) = Zdigits2 a) as -> by (destruct s, a; done).
    assert (0 < d + e) as Hpos.
    { destruct (Z.le_gt_cases (d + e) 0) as [Hle|]; [exfalso|done].
      assert (2 ^ d ≤ 2 ^ (- e)) by (apply Z.pow_le_mono_r; lia). nia. }
    apply Zdigits2_unique; [done|].
    assert (0 < 2 ^ (- e)) by (apply Z.pow_pos_nonneg; lia).
    assert (2 ^ d = 2 ^ (d + e) * 2 ^ (- e)) by (rewrite <- Z.pow_add_r by lia; f_equal; lia).
    assert (2 ^ (d - 1) = 2 ^ (d + e - 1) * 2 ^ (- e)) by (rewrite <- Z.pow_add_r by lia; f_equal; lia).
    nia. }
  assert (e' = e) as -> by lia.
  rewrite E. rewrite Habs, (Z.abs_eq a) in Hp' by lia. rewrite <- Hm in Hp'.
  injection Hp' as ->. f_equal. destruct s; simpl; destruct (Z.ltb_spec a 0), (Z.ltb_spec (- a) 0); lia || done.
Qed.

Lemma number_of_Z_zero_iff z :
  Z.abs z < 2 ^ 53 → isNegZero (number_of_Z z) = false.
Proof.
  intros Hz. destruct (Z.eq_dec z 0) as [->|Hne]; [done|].
  by destruct (number_of_Z_small z) as (p & e & -> & _).
Qed.

Lemma isNaN_spec n : isNaN n = true ↔ n = S754_nan.
Proof. by destruct n. Qed.

(** ** Bit patterns *)
Lemma valid_finite_bounds s m e :
  valid_number (S754_finite s m e) →
  Zpos m < 2 ^ 53 ∧ -1074 ≤ e ≤ 971 ∧ (e = -1074 ∨ 2 ^ 52 ≤ Zpos m).
Proof.
  simpl. intros [Hc He]%bounded_spec. pose proof (digits2_pos_bounds m) as [Hlo Hhi].
  split; [|split; [lia|]].
  - eapply Z.lt_le_trans; [exact Hhi|]. apply Z.pow_le_mono_r; lia.
  - destruct (Z.eq_dec e (-1074)); [by left|right].
    replace 52 with (Zpos (digits2_pos m) - 1) by lia. done.
Qed.

Lemma bits_split (s : bool) ex fr :
  0 ≤ ex < 2048 → 0 ≤ fr < 2 ^ 52 →
  let b := (if s then 2 ^ 63 else 0) + (ex * 2 ^ 52 + fr) in
  (2 ^ 63 <=? b) = s ∧ (b / 2 ^ 52) mod 2048 = ex ∧ b mod 2 ^ 52 = fr ∧ 0 ≤ b < 2 ^ 64.
Proof.
  intros Hex Hfr b.
  assert (b = ((if s then 2048 else 0) + ex) * 2 ^ 52 + fr) as Hb by (unfold b; destruct s; lia).
  assert (b / 2 ^ 52 = (if s then 2048 else 0) + ex) as Hq.
  { symmetry. apply (Z.div_unique _ _ _ fr); lia. }
  assert (b mod 2 ^ 52 = fr) as Hr.
  { symmetry. apply (Z.mod_unique _ _ ((if s then 2048 else 0) + ex)); lia. }
  split; [|split; [|split; [done|destruct s; lia]]].
  - destruct s; [apply Z.leb_le|apply Z.leb_gt]; lia.
  - rewrite Hq. destruct s.
    + replace (2048 + ex) with (ex + 1 * 2048) by lia. rewrite Z.mod_add, Z.mod_small; lia.
    + apply Z.mod_small. lia.
Qed.

(** Writing a number as 64 bits and reading it back gives the number. *)
Lemma number_of_bits_of_number n :
  valid_number n → number_of_bits (bits_of_number n) = n.
Proof.
  intros Hv. destruct n as [[]|[]| |s m e]; try reflexivity.
  apply valid_finite_bounds in Hv as (Hm & He & Hc).
  unfold number_of_bits. cbn [bits_of_number]. destruct (Z.ltb_spec (Zpos m) (2 ^ 52)) as [Hlt|Hge].
  - assert (e = -1074) as -> by lia.
    destruct (bits_split s 0 (Zpos m)) as (E1 & E2 & E3 & _); [lia..|].
    replace (0 * 2 ^ 52 + Zpos m) with (Zpos m) in * by lia. by rewrite E1, E2, E3.
  - destruct (bits_split s (e + 1075) (Zpos m - 2 ^ 52)) as (E1 & E2 & E3 & _); [lia..|].
    rewrite E1, E2, E3.
    destruct (Z.eqb_spec (e + 1075) 2047); [lia|]. destruct (Z.eqb_spec (e + 1075) 0); [lia|].
    replace (2 ^ 52 + (Zpos m - 2 ^ 52)) with (Zpos m) by lia. f_equal. lia.
Qed.

Lemma bits_of_number_range n : valid_number n → 0 ≤ bits_of_number n < 2 ^ 64.
Proof.
  intros Hv. destruct n as [[]|[]| |s m e]; try (simpl; lia).
  apply valid_finite_bounds in Hv as (Hm & He & Hc). cbn [bits_of_number].
  destruct (Z.ltb_spec (Zpos m) (2 ^ 52)).
  - destruct (bits_split s 0 (Zpos m)) as (_ & _ & _ & ?); lia.
  - destruct (bits_split s (e + 1075) (Zpos m - 2 ^ 52)) as (_ & _ & _ & ?); lia.
Qed.

(** Every 64-bit pattern is read as a binary64 value. *)
Lemma number_of_bits_valid b : 0 ≤ b < 2 ^ 64 → valid_number (number_of_bits b).
Proof.
  intros Hb. unfold number_of_bits.
  pose proof (Z.mod_pos_bound b (2 ^ 52) eq_refl) as Hf.
  pose proof (Z.mod_pos_bound (b / 2 ^ 52) 2048 eq_refl) as Hx.
  set (fr := b mod 2 ^ 52) in *. set (ex := (b / 2 ^ 52) mod 2048) in *.
  destruct (Z.eqb_spec ex 2047); [by case_match|].
  destruct (Z.eqb_spec ex 0).
  - destruct fr as [|m|m] eqn:E; try done. simpl. apply bounded_spec.
    assert (Zpos (digits2_pos m) ≤ 52) by (apply digits2_pos_le; lia). lia.
  - destruct (2 ^ 52 + fr) as [|m|m] eqn:E; try done. simpl. apply bounded_spec.
    rewrite (digits2_pos_unique m 53); lia.
Qed.

(** ** Order *)
Lemma extZ_cmp_antisym a b : extZ_cmp b a = CompOpp (extZ_cmp a b).
Proof. destruct a, b; simpl; try done. apply Z.compare_antisym. Qed.

#[export] Instance extZ_cmp_order : CmpOrder (λ a b, sign_of (extZ_cmp a b)).
Proof.
  split.
  - intros x y. rewrite (extZ_cmp_antisym x y). destruct (extZ_cmp x y); simpl; lia.
  - intros [|x|] [|y|] [|z|]; simpl; try lia.
    destruct (Z.compare_spec x y), (Z.compare_spec y z), (Z.compare_spec x z); simpl; lia.
Qed.

Lemma extZ_cmp_eq a b : extZ_cmp a b = Eq ↔ a = b.
Proof.
  destruct a as [|x|], b as [|y|]; simpl; try naive_solver.
  rewrite Z.compare_eq_iff. naive_solver.
Qed.

Example number_pi_bits :
  number_of_bits 0x400921fb54442d18 = S754_finite false 7074237752028440 (-51).
Proof. reflexivity. Qed.

Example number_add_rounds :
  number_add (number_of_Z (2 ^ 53)) (number_of_Z 1) = number_of_Z (2 ^ 53).
Proof. reflexivity. Qed.
