(* ===== verification/JsString.v ===== *)
(** * JavaScript strings

    A string is its sequence of UTF-16 code units. This file models what the
    program uses of the language and of the platform: [isWellFormed], the
    [TextEncoder] and the fatal [TextDecoder] (which drops a leading byte order
    mark), code unit comparison, [split(".")], [startsWith], and the property
    keys that are array indices. *)

From S2P Require Import Prelude.
From Stdlib Require Ascii.
From Stdlib Require String.
Export (notations) String.

Abbreviation jsstring := (list Z).

(** A string literal of the source. *)
Fixpoint js (s : String.string) : jsstring :=
  match s with
  | String.EmptyString => []
  | String.String c s => Z.of_N (Ascii.N_of_ascii c) :: js s
  end.
Arguments js s%_string.

Definition is_unit (u : Z) : Prop := 0 ≤ u < 65536.
Definition is_high (u : Z) : bool := (0xD800 <=? u) && (u <=? 0xDBFF).
Definition is_low (u : Z) : bool := (0xDC00 <=? u) && (u <=? 0xDFFF).

(** [String.prototype.isWellFormed]: no lone surrogates. *)
Fixpoint isWellFormed (s : jsstring) : bool :=
  match s with
  | [] => true
  | u :: s' =>
      if is_high u then
        match s' with
        | v :: s'' => is_low v && isWellFormed s''
        | [] => false
        end
      else negb (is_low u) && isWellFormed s'
  end.

(** The Unicode scalar values of a string; lone surrogates become U+FFFD. *)
Fixpoint to_scalars (s : jsstring) : list Z :=
  match s with
  | [] => []
  | u :: s' =>
      if is_high u then
        match s' with
        | v :: s'' =>
            if is_low v
            then 0x10000 + (u - 0xD800) * 1024 + (v - 0xDC00) :: to_scalars s''
            else 0xFFFD :: to_scalars s'
        | [] => [0xFFFD]
        end
      else if is_low u then 0xFFFD :: to_scalars s'
      else u :: to_scalars s'
  end.

Definition scalar_units (c : Z) : jsstring :=
  if c <? 0x10000 then [c]
  else [0xD800 + (c - 0x10000) / 1024; 0xDC00 + (c - 0x10000) mod 1024].

Definition of_scalars (l : list Z) : jsstring := flat_map scalar_units l.

Definition is_scalar (c : Z) : bool :=
  ((0 <=? c) && (c <? 0xD800)) || ((0xE000 <=? c) && (c <=? 0x10FFFF)).

(** UTF-8 encoding of one scalar value. *)
Definition scalar_utf8 (c : Z) : bytes :=
  if c <? 0x80 then [c]
  else if c <? 0x800 then [0xC0 + c / 64; 0x80 + c mod 64]
  else if c <? 0x10000 then
    [0xE0 + c / 4096; 0x80 + (c / 64) mod 64; 0x80 + c mod 64]
  else
    [0xF0 + c / 262144; 0x80 + (c / 4096) mod 64;
     0x80 + (c / 64) mod 64; 0x80 + c mod 64].

(** [new TextEncoder().encode(s)]. *)
Definition utf8_encode (s : jsstring) : bytes := flat_map scalar_utf8 (to_scalars s).

Definition is_cont (b : Z) : bool := (0x80 <=? b) && (b <? 0xC0).

(** Strict UTF-8 decoding: overlong forms, surrogates, values above U+10FFFF and
    truncated sequences are errors. *)
Fixpoint utf8_decode (bs : bytes) : option (list Z) :=
  match bs with
  | [] => Some []
  | b0 :: r0 =>
      if (0 <=? b0) && (b0 <? 0x80) then cons b0 <$> utf8_decode r0
      else match r0 with
      | [] => None
      | b1 :: r1 =>
          if negb (is_cont b1) then None
          else if (0xC2 <=? b0) && (b0 <? 0xE0) then
            cons ((b0 - 0xC0) * 64 + (b1 - 0x80)) <$> utf8_decode r1
          else match r1 with
          | [] => None
          | b2 :: r2 =>
              if negb (is_cont b2) then None
              else if (0xE0 <=? b0) && (b0 <? 0xF0) then
                let c := (b0 - 0xE0) * 4096 + (b1 - 0x80) * 64 + (b2 - 0x80) in
                if (0x800 <=? c) && is_scalar c then cons c <$> utf8_decode r2 else None
              else match r2 with
              | [] => None
              | b3 :: r3 =>
                  if negb (is_cont b3) then None
                  else if (0xF0 <=? b0) && (b0 <? 0xF5) then
                    let c := (b0 - 0xF0) * 262144 + (b1 - 0x80) * 4096
                             + (b2 - 0x80) * 64 + (b3 - 0x80) in
                    if (0x10000 <=? c) && is_scalar c then cons c <$> utf8_decode r3
                    else None
                  else None
              end
          end
      end
  end.

(** The byte order mark U+FEFF in UTF-8. *)
Definition BOM : bytes := [0xEF; 0xBB; 0xBF].

Definition strip_bom (bs : bytes) : bytes :=
  match bs with
  | b0 :: b1 :: b2 :: rest =>
      if (b0 =? 0xEF) && (b1 =? 0xBB) && (b2 =? 0xBF) then rest else bs
  | _ => bs
  end.

(** [new TextDecoder("utf-8", { fatal: true }).decode(bs)]; [None] is the
    exception. The default [ignoreBOM: false] removes a leading byte order
    mark. *)
Definition text_decode (bs : bytes) : option jsstring :=
  of_scalars <$> utf8_decode (strip_bom bs).

(** The order of [<] on strings: by code unit. *)
Definition string_cmp (a b : jsstring) : comparison := lex_cmp a b.

(** [s.split(".")]. *)
Fixpoint split_dot (s : jsstring) : list jsstring :=
  match s with
  | [] => [[]]
  | u :: s =>
      if u =? 46 then [] :: split_dot s
      else match split_dot s with
           | seg :: segs => (u :: seg) :: segs
           | [] => [[u]]
           end
  end.

(** [segments.join(".")]. *)
Fixpoint join_dot (l : list jsstring) : jsstring :=
  match l with
  | [] => []
  | [s] => s
  | s :: l => s ++ 46 :: join_dot l
  end.

(** [s.startsWith("$")]. *)
Definition starts_dollar (s : jsstring) : bool :=
  match s with u :: _ => u =? 36 | [] => false end.

(** [s.startsWith(p)]. *)
Fixpoint starts_with (p s : jsstring) : bool :=
  match p, s with
  | [], _ => true
  | x :: p, y :: s => (x =? y) && starts_with p s
  | _ :: _, [] => false
  end.

Definition is_digit (u : Z) : bool := (48 <=? u) && (u <=? 57).

(** A property key that is an array index: the canonical decimal form of an
    integer below [2 ^ 32 - 1]. *)
Definition array_index (s : jsstring) : option Z :=
  match s with
  | [48] => Some 0
  | u :: _ =>
      if negb (u =? 48) && forallb is_digit s && (len s <=? 10) then
        let n := fold_left (λ a d, a * 10 + (d - 48)) s 0 in
        if n <=? 4294967294 then Some n else None
      else None
  | [] => None
  end.

Definition wf_string (s : jsstring) : Prop := Forall is_unit s ∧ isWellFormed s = true.

(** Strings that begin with U+FEFF are the ones a [TextDecoder] does not give
    back. *)
Definition starts_bom (s : jsstring) : bool :=
  match s with u :: _ => u =? 0xFEFF | [] => false end.

(** Text that is read back as it was written. *)
Definition plain (s : jsstring) : Prop := wf_string s ∧ starts_bom s = false.

(** [plain], decided. *)
Definition plainb (s : jsstring) : bool :=
  forallb (λ u, (0 <=? u) && (u <? 65536)) s && isWellFormed s && negb (starts_bom s).

Lemma plainb_plain s : plainb s = true → plain s.
Proof.
  unfold plainb. rewrite !andb_true_iff, negb_true_iff, forallb_forall. intros [[Hu Hw] Hb].
  split; [|done]. split; [|done]. apply Forall_forall. intros u Hin%list_elem_of_In.
  apply Hu, andb_true_iff in Hin as [H1%Z.leb_le H2%Z.ltb_lt]. by split.
Qed.

(** * Lemmas *)

Ltac zbool :=
  repeat match goal with
  | H : _ && _ = true |- _ => apply andb_true_iff in H as [? ?]
  | H : _ && _ = false |- _ => apply andb_false_iff in H
  | H : _ || _ = true |- _ => apply orb_true_iff in H
  | H : _ || _ = false |- _ => apply orb_false_iff in H as [? ?]
  | H : negb _ = true |- _ => apply negb_true_iff in H
  | H : negb _ = false |- _ => apply negb_false_iff in H
  | H : (_ <=? _) = true |- _ => apply Z.leb_le in H
  | H : (_ <=? _) = false |- _ => apply Z.leb_gt in H
  | H : (_ <? _) = true |- _ => apply Z.ltb_lt in H
  | H : (_ <? _) = false |- _ => apply Z.ltb_ge in H
  | H : (_ =? _) = true |- _ => apply Z.eqb_eq in H
  | H : (_ =? _) = false |- _ => apply Z.eqb_neq in H
  end.

(** Decide the boolean tests of the goal from the linear arithmetic facts of the
    context. *)
Ltac ztest :=
  repeat match goal with
  | |- context [?a <=? ?b] => destruct (Z.leb_spec a b); try lia
  | |- context [?a <? ?b] => destruct (Z.ltb_spec a b); try lia
  | |- context [?a =? ?b] => destruct (Z.eqb_spec a b); try lia
  end; simpl.

Lemma is_scalar_spec c :
  is_scalar c = true ↔ 0 ≤ c < 0xD800 ∨ 0xE000 ≤ c ≤ 0x10FFFF.
Proof. unfold is_scalar. rewrite orb_true_iff, !andb_true_iff, !Z.leb_le, Z.ltb_lt. lia. Qed.

Lemma is_cont_spec b : is_cont b = true ↔ 0x80 ≤ b < 0xC0.
Proof. unfold is_cont. rewrite andb_true_iff, Z.leb_le, Z.ltb_lt. lia. Qed.

Lemma is_high_spec u : is_high u = true ↔ 0xD800 ≤ u ≤ 0xDBFF.
Proof. unfold is_high. rewrite andb_true_iff, !Z.leb_le. lia. Qed.

Lemma is_low_spec u : is_low u = true ↔ 0xDC00 ≤ u ≤ 0xDFFF.
Proof. unfold is_low. rewrite andb_true_iff, !Z.leb_le. lia. Qed.

Lemma bool_false_iff (b : bool) (P : Prop) : (b = true ↔ P) → (b = false ↔ ¬ P).
Proof. destruct b; naive_solver. Qed.

Lemma cont_mod c : is_cont (0x80 + c mod 64) = true.
Proof. apply is_cont_spec. pose proof (Z.mod_pos_bound c 64). lia. Qed.

Lemma div_mod_64 c : c = 64 * (c / 64) + c mod 64 ∧ 0 ≤ c mod 64 < 64.
Proof. split; [apply Z_div_mod_eq_full | by apply Z.mod_pos_bound]. Qed.

(** Decoding undoes encoding, scalar value by scalar value. *)
Lemma utf8_decode_scalar c rest :
  is_scalar c = true →
  utf8_decode (scalar_utf8 c ++ rest) = cons c <$> utf8_decode rest.
Proof.
  intros Hc. pose proof Hc as Hs. apply is_scalar_spec in Hs.
  unfold scalar_utf8.
  pose proof (div_mod_64 c). pose proof (div_mod_64 (c / 64)).
  pose proof (div_mod_64 (c / 4096)).
  assert (c / 64 / 64 = c / 4096) as E1 by (rewrite Z.div_div; [done|lia..]).
  assert (c / 4096 / 64 = c / 262144) as E2 by (rewrite Z.div_div; [done|lia..]).
  assert (0 ≤ c / 262144) by (apply Z.div_pos; lia).
  assert (c / 262144 < 5) by (apply Z.div_lt_upper_bound; lia).
  destruct (Z.ltb_spec c 0x80); [|destruct (Z.ltb_spec c 0x800);
    [|destruct (Z.ltb_spec c 0x10000)]]; cbn [app utf8_decode];
    rewrite ?cont_mod; cbn [negb].
  - by ztest.
  - ztest. do 2 f_equal. lia.
  - replace (0xE0 + c / 4096 - 0xE0) with (c / 4096) by lia.
    replace (_ + _ + _) with c by lia. rewrite Hc. by ztest.
  - assert (((0xF0 + c / 262144 - 0xF0) * 262144 + (0x80 + (c / 4096) mod 64 - 0x80) * 4096
             + (0x80 + (c / 64) mod 64 - 0x80) * 64 + (0x80 + c mod 64 - 0x80)) = c) as -> by lia.
    rewrite Hc. by ztest.
Qed.

Lemma utf8_decode_scalars l rest :
  Forall (λ c, is_scalar c = true) l →
  utf8_decode (flat_map scalar_utf8 l ++ rest) = app l <$> utf8_decode rest.
Proof.
  induction 1 as [|c l Hc _ IH]; cbn [flat_map].
  - cbn [app]. by destruct (utf8_decode rest).
  - rewrite <- app_assoc, utf8_decode_scalar, IH by done. by destruct (utf8_decode rest).
Qed.

Lemma scalar_units_of c :
  is_scalar c = true →
  ∀ s, to_scalars (scalar_units c ++ s) = c :: to_scalars s.
Proof.
  intros Hc%is_scalar_spec s. unfold scalar_units. destruct (Z.ltb_spec c 0x10000).
  - cbn [app to_scalars]. rewrite (proj2 (bool_false_iff _ _ (is_high_spec c))) by lia.
    by rewrite (proj2 (bool_false_iff _ _ (is_low_spec c))) by lia.
  - pose proof (Z_div_mod_eq_full (c - 0x10000) 1024).
    pose proof (Z.mod_pos_bound (c - 0x10000) 1024 eq_refl).
    assert (0 ≤ (c - 0x10000) / 1024 < 1024).
    { split; [apply Z.div_pos; lia | apply Z.div_lt_upper_bound; lia]. }
    cbn [app to_scalars]. rewrite (proj2 (is_high_spec _)) by lia.
    rewrite (proj2 (is_low_spec _)) by lia. f_equal. lia.
Qed.

Lemma to_of_scalars l :
  Forall (λ c, is_scalar c = true) l → to_scalars (of_scalars l) = l.
Proof.
  induction 1 as [|c l Hc _ IH]; [done|]. unfold of_scalars in *. cbn [flat_map].
  by rewrite scalar_units_of, IH.
Qed.

(** Induction over a well-formed string: ordinary units and surrogate pairs. *)
Lemma wf_string_ind (P : jsstring → Prop) :
  P [] →
  (∀ u s, is_unit u → is_high u = false → is_low u = false →
          wf_string s → P s → P (u :: s)) →
  (∀ u v s, is_high u = true → is_low v = true → wf_string s → P s → P (u :: v :: s)) →
  ∀ s, wf_string s → P s.
Proof.
  intros H0 H1 H2 s. remember (length s) as n eqn:Hn. revert s Hn.
  induction (lt_wf n) as [n _ IH]. intros s -> [Hu Hw].
  destruct s as [|u s]; [done|]. apply Forall_cons in Hu as [Hu Hus]. simpl in Hw.
  destruct (is_high u) eqn:Hh.
  - destruct s as [|v s]; [done|]. apply Forall_cons in Hus as [Hv Hs]. zbool.
    apply H2; try done. eapply IH; [|done|done]. simpl. lia.
  - zbool. apply H1; try done. eapply IH; [|done|done]. simpl. lia.
Qed.

Lemma of_to_scalars s :
  wf_string s → of_scalars (to_scalars s) = s ∧ Forall (λ c, is_scalar c = true) (to_scalars s).
Proof.
  revert s. apply wf_string_ind.
  - by split; [|constructor].
  - intros u s Hu Hh Hl _ [IH1 IH2]. unfold is_unit in Hu. cbn [to_scalars]. rewrite Hh, Hl.
    apply (bool_false_iff _ _ (is_high_spec u)) in Hh.
    apply (bool_false_iff _ _ (is_low_spec u)) in Hl. split.
    + unfold of_scalars in *. cbn [flat_map]. rewrite IH1. unfold scalar_units. by ztest.
    + constructor; [|done]. apply is_scalar_spec. lia.
  - intros u v s Hh Hl _ [IH1 IH2]. cbn [to_scalars]. rewrite Hh, Hl.
    apply is_high_spec in Hh. apply is_low_spec in Hl.
    assert ((u - 0xD800) * 1024 + (v - 0xDC00) = 1024 * (u - 0xD800) + (v - 0xDC00)) as E by lia.
    split.
    + unfold of_scalars in *. cbn [flat_map]. rewrite IH1. unfold scalar_units.
      ztest. set (w := 0x10000 + (u - 0xD800) * 1024 + (v - 0xDC00) - 0x10000).
      assert (w / 1024 = u - 0xD800) as ->.
      { symmetry. apply (Z.div_unique _ _ _ (v - 0xDC00)); unfold w; lia. }
      assert (w mod 1024 = v - 0xDC00) as ->.
      { symmetry. apply (Z.mod_unique _ _ (u - 0xD800)); unfold w; lia. }
      f_equal; [lia|]. f_equal. lia.
    + constructor; [|done]. apply is_scalar_spec. lia.
Qed.

Lemma utf8_decode_encode s :
  wf_string s → utf8_decode (utf8_encode s) = Some (to_scalars s).
Proof.
  intros [_ Hs]%of_to_scalars. unfold utf8_encode.
  rewrite <- (app_nil_r (flat_map _ _)), utf8_decode_scalars by done. simpl.
  by rewrite app_nil_r.
Qed.

(** UTF-8 encoding loses nothing on well-formed strings. *)
Lemma utf8_encode_inj s1 s2 :
  wf_string s1 → wf_string s2 → utf8_encode s1 = utf8_encode s2 → s1 = s2.
Proof.
  intros H1 H2 E. apply (f_equal utf8_decode) in E.
  rewrite !utf8_decode_encode in E by done. injection E as E.
  destruct (of_to_scalars s1) as [<- _]; [done|].
  destruct (of_to_scalars s2) as [<- _]; [done|]. by rewrite E.
Qed.

Lemma strip_bom_id bs :
  (∀ rest, bs ≠ BOM ++ rest) → strip_bom bs = bs.
Proof.
  intros H. destruct bs as [|b0 [|b1 [|b2 rest]]]; try done. simpl.
  destruct (Z.eqb_spec b0 0xEF), (Z.eqb_spec b1 0xBB), (Z.eqb_spec b2 0xBF); try done.
  subst. by destruct (H rest).
Qed.

Lemma utf8_encode_no_bom s rest :
  wf_string s → starts_bom s = false → utf8_encode s ≠ BOM ++ rest.
Proof.
  intros Hw Hb E.
  assert (utf8_decode (utf8_encode s) = utf8_decode (BOM ++ rest)) as E' by (by rewrite E).
  rewrite utf8_decode_encode in E' by done.
  change BOM with (scalar_utf8 0xFEFF) in E'. rewrite utf8_decode_scalar in E' by done.
  destruct (utf8_decode rest) as [l|]; [|done]. injection E' as E'.
  destruct s as [|u s]; [done|]. destruct Hw as [Hu Hw]. simpl in E', Hw, Hb.
  apply Forall_cons in Hu as [Hu _]. unfold is_unit in Hu.
  destruct (is_high u) eqn:Hh.
  - destruct s as [|v s]; [done|]. zbool. rewrite H in E'. injection E' as E' _.
    apply is_high_spec in Hh. apply is_low_spec in H. lia.
  - zbool. rewrite H in E'. injection E' as -> _. done.
Qed.

(** What the decoder makes of an encoded string. *)
Lemma text_decode_encode s :
  wf_string s → starts_bom s = false → text_decode (utf8_encode s) = Some s.
Proof.
  intros Hw Hb. unfold text_decode. rewrite strip_bom_id.
  - rewrite utf8_decode_encode by done. simpl. by destruct (of_to_scalars s) as [-> _].
  - intros rest. by apply utf8_encode_no_bom.
Qed.

(** A leading byte order mark is lost. *)
Lemma text_decode_bom s :
  wf_string s → text_decode (utf8_encode (0xFEFF :: s)) = Some s.
Proof.
  intros Hw. unfold text_decode.
  assert (utf8_encode (0xFEFF :: s) = BOM ++ utf8_encode s) as -> by done.
  simpl strip_bom. rewrite utf8_decode_encode by done. simpl.
  by destruct (of_to_scalars s) as [-> _].
Qed.

Lemma is_scalar_units c : is_scalar c = true → wf_string (scalar_units c).
Proof.
  intros Hc%is_scalar_spec. unfold scalar_units. destruct (Z.ltb_spec c 0x10000).
  - split; [repeat constructor; lia|]. simpl.
    rewrite (proj2 (bool_false_iff _ _ (is_high_spec c))) by lia.
    by rewrite (proj2 (bool_false_iff _ _ (is_low_spec c))) by lia.
  - pose proof (Z.mod_pos_bound (c - 0x10000) 1024 eq_refl).
    assert (0 ≤ (c - 0x10000) / 1024 < 1024).
    { split; [apply Z.div_pos; lia | apply Z.div_lt_upper_bound; lia]. }
    split; [repeat constructor; unfold is_unit; lia|]. cbn [isWellFormed].
    rewrite (proj2 (is_high_spec _)) by lia. by rewrite (proj2 (is_low_spec _)) by lia.
Qed.

Lemma wf_string_app s1 s2 : wf_string s1 → wf_string s2 → wf_string (s1 ++ s2).
Proof.
  intros H1 [H2 H2']. revert s1 H1. apply wf_string_ind; [by split| |].
  - intros u s Hu Hh Hl _ [IH1 IH2]. split; [by constructor|]. simpl. by rewrite Hh, Hl, IH2.
  - intros u v s Hh Hl _ [IH1 IH2]. split.
    + apply is_high_spec in Hh. apply is_low_spec in Hl.
      repeat constructor; unfold is_unit; try lia. done.
    + simpl. by rewrite Hh, Hl, IH2.
Qed.

Lemma of_scalars_wf l : Forall (λ c, is_scalar c = true) l → wf_string (of_scalars l).
Proof.
  induction 1 as [|c l Hc _ IH]; [done|]. unfold of_scalars in *. cbn [flat_map].
  apply wf_string_app; [by apply is_scalar_units | done].
Qed.

Lemma utf8_decode_is_scalar bs l :
  utf8_decode bs = Some l → Forall (λ c, is_scalar c = true) l.
Proof.
  remember (length bs) as n eqn:Hn. revert bs l Hn.
  induction (lt_wf n) as [n _ IH]. intros bs l -> H.
  assert (∀ c rest, is_scalar c = true → (length rest < length bs)%nat →
            cons c <$> utf8_decode rest = Some l → Forall (λ c, is_scalar c = true) l) as Hstep.
  { intros c rest Hc Hlt. destruct (utf8_decode rest) as [l'|] eqn:E; [|done].
    intros [= <-]. constructor; [done|]. eapply IH; [exact Hlt|done|done]. }
  destruct bs as [|b0 r0]; cbn [utf8_decode] in H; [injection H as <-; constructor|].
  case_match eqn:E0. { zbool. eapply Hstep, H; [apply is_scalar_spec; lia | simpl; lia]. }
  destruct r0 as [|b1 r1]; [done|]. case_match eqn:E1; [done|]. zbool. apply is_cont_spec in E1.
  case_match eqn:E2. { zbool. eapply Hstep, H; [apply is_scalar_spec; lia | simpl; lia]. }
  destruct r1 as [|b2 r2]; [done|]. case_match eqn:E3; [done|].
  case_match eqn:E4.
  { case_match eqn:E5; [|done]. apply andb_true_iff in E5 as [_ E5].
    eapply Hstep, H; [done | simpl; lia]. }
  destruct r2 as [|b3 r3]; [done|]. case_match eqn:E5; [done|].
  case_match eqn:E6; [|done]. case_match eqn:E7; [|done]. apply andb_true_iff in E7 as [_ E7].
  eapply Hstep, H; [done | simpl; lia].
Qed.

(** Strict decoding accepts only the encoding of what it returns. *)
Lemma utf8_decode_sound bs l :
  Forall is_byte bs → utf8_decode bs = Some l → flat_map scalar_utf8 l = bs.
Proof.
  remember (length bs) as n eqn:Hn. revert bs l Hn.
  induction (lt_wf n) as [n _ IH]. intros bs l -> Hb H.
  assert (∀ c pre rest, bs = pre ++ rest → pre ≠ [] → scalar_utf8 c = pre →
            cons c <$> utf8_decode rest = Some l → flat_map scalar_utf8 l = bs) as Hstep.
  { intros c pre rest E Hne Hc. destruct (utf8_decode rest) as [l'|] eqn:E'; [|done].
    intros [= <-]. cbn [flat_map]. rewrite Hc, E. f_equal. subst bs.
    apply Forall_app in Hb as [_ Hb]. eapply IH; [|done|done|done].
    rewrite length_app. destruct pre; [done|]. simpl. lia. }
  assert (∀ b d, is_cont d = true → (b * 64 + (d - 128)) / 64 = b ∧ (b * 64 + (d - 128)) mod 64 = d - 128)
    as Hdm.
  { intros b d Hd%is_cont_spec. split.
    - symmetry. apply (Z.div_unique _ _ _ (d - 128)); lia.
    - symmetry. apply (Z.mod_unique _ _ b); lia. }
  destruct bs as [|b0 r0]; cbn [utf8_decode] in H; [injection H as <-; done|].
  case_match eqn:E0. { zbool. apply (Hstep b0 [b0] r0); try done. unfold scalar_utf8. by ztest. }
  destruct r0 as [|b1 r1]; [done|]. case_match eqn:E1; [done|]. apply negb_false_iff in E1.
  destruct (Hdm (b0 - 0xC0) b1 E1) as [D1 D2]. pose proof E1 as C1. apply is_cont_spec in C1.
  case_match eqn:E2.
  { zbool. eapply (Hstep _ [b0; b1] r1); [done..| |exact H]. unfold scalar_utf8. ztest.
    rewrite D1, D2. f_equal; [lia|]. f_equal. lia. }
  destruct r1 as [|b2 r2]; [done|]. case_match eqn:E3; [done|]. apply negb_false_iff in E3.
  pose proof E3 as C2. apply is_cont_spec in C2.
  destruct (Hdm ((b0 - 0xE0) * 64 + (b1 - 128)) b2 E3) as [F1 F2].
  destruct (Hdm (b0 - 0xE0) b1 E1) as [G1 G2].
  case_match eqn:E4.
  { case_match eqn:E5; [|done]. zbool. eapply (Hstep _ [b0; b1; b2] r2); [done..| |exact H].
    replace ((b0 - 0xE0) * 4096 + (b1 - 128) * 64 + (b2 - 128))
      with (((b0 - 0xE0) * 64 + (b1 - 128)) * 64 + (b2 - 128)) in * by lia.
    unfold scalar_utf8. ztest. change 4096 with (64 * 64). rewrite <- Z.div_div by lia.
    rewrite F1, F2, G1, G2. f_equal; [lia|]. f_equal; [lia|]. f_equal. lia. }
  destruct r2 as [|b3 r3]; [done|]. case_match eqn:E5; [done|]. apply negb_false_iff in E5.
  pose proof E5 as C3. apply is_cont_spec in C3.
  destruct (Hdm (((b0 - 0xF0) * 64 + (b1 - 128)) * 64 + (b2 - 128)) b3 E5) as [K1 K2].
  destruct (Hdm ((b0 - 0xF0) * 64 + (b1 - 128)) b2 E3) as [L1 L2].
  destruct (Hdm (b0 - 0xF0) b1 E1) as [M1 M2].
  case_match eqn:E6; [|done]. case_match eqn:E7; [|done]. zbool.
  eapply (Hstep _ [b0; b1; b2; b3] r3); [done..| |exact H].
  replace ((b0 - 0xF0) * 262144 + (b1 - 128) * 4096 + (b2 - 128) * 64 + (b3 - 128))
    with ((((b0 - 0xF0) * 64 + (b1 - 128)) * 64 + (b2 - 128)) * 64 + (b3 - 128)) in * by lia.
  unfold scalar_utf8. ztest. change 262144 with (64 * 64 * 64). change 4096 with (64 * 64).
  rewrite <- !Z.div_div by lia. rewrite K1, K2, L1, L2, M1, M2.
  f_equal; [lia|]. f_equal; [lia|]. f_equal; [lia|]. f_equal. lia.
Qed.

(** Whatever bytes it reads, the decoder only yields well-formed strings. *)
Lemma text_decode_wf bs s : text_decode bs = Some s → wf_string s.
Proof.
  unfold text_decode. destruct (utf8_decode _) as [l|] eqn:E; [|done]. intros [= <-].
  by eapply of_scalars_wf, utf8_decode_is_scalar.
Qed.

(** A decoded string takes no more bytes than it was decoded from. *)
Lemma text_decode_len bs s :
  Forall is_byte bs → text_decode bs = Some s → len (utf8_encode s) ≤ len bs.
Proof.
  unfold text_decode. intros Hb H. destruct (utf8_decode _) as [l|] eqn:E; [|done].
  injection H as <-. assert (Forall is_byte (strip_bom bs) ∧ len (strip_bom bs) ≤ len bs) as [H1 H2].
  { destruct bs as [|b0 [|b1 [|b2 bs]]]; [done..|]. simpl. case_match; [|done].
    apply Forall_cons in Hb as [_ Hb]. apply Forall_cons in Hb as [_ Hb].
    apply Forall_cons in Hb as [_ Hb]. split; [done|]. rewrite !len_cons. lia. }
  unfold utf8_encode. rewrite to_of_scalars by (by eapply utf8_decode_is_scalar).
  by rewrite (utf8_decode_sound _ _ H1 E).
Qed.

Lemma scalar_utf8_bytes c : is_scalar c = true → Forall is_byte (scalar_utf8 c).
Proof.
  intros Hc%is_scalar_spec. unfold scalar_utf8.
  pose proof (div_mod_64 c). pose proof (div_mod_64 (c / 64)). pose proof (div_mod_64 (c / 4096)).
  assert (0 ≤ c / 64) by (apply Z.div_pos; lia).
  assert (0 ≤ c / 4096) by (apply Z.div_pos; lia).
  assert (0 ≤ c / 262144) by (apply Z.div_pos; lia).
  assert (c / 262144 < 5) by (apply Z.div_lt_upper_bound; lia).
  destruct (Z.ltb_spec c 0x80); [|destruct (Z.ltb_spec c 0x800);
    [assert (c / 64 < 32) by (apply Z.div_lt_upper_bound; lia)
    |destruct (Z.ltb_spec c 0x10000);
    [assert (c / 4096 < 16) by (apply Z.div_lt_upper_bound; lia)|]]];
    repeat constructor; unfold is_byte; lia.
Qed.

Lemma utf8_encode_bytes s : wf_string s → Forall is_byte (utf8_encode s).
Proof.
  intros [_ Hs]%of_to_scalars. unfold utf8_encode.
  induction Hs as [|c l Hc _ IH]; cbn [flat_map]; [constructor|].
  apply Forall_app. split; [by apply scalar_utf8_bytes | done].
Qed.

Lemma join_split_dot s : join_dot (split_dot s) = s.
Proof.
  induction s as [|u s IH]; [done|]. simpl.
  destruct (Z.eqb_spec u 46) as [->|].
  - destruct (split_dot s) as [|seg segs] eqn:E; [by destruct s; simpl in E; repeat case_match|].
    simpl. by rewrite <- IH.
  - destruct (split_dot s) as [|seg [|seg' segs]]; simpl in *; by rewrite <- IH.
Qed.

Lemma split_dot_inj s1 s2 : split_dot s1 = split_dot s2 → s1 = s2.
Proof. intros H. by rewrite <- (join_split_dot s1), <- (join_split_dot s2), H. Qed.

Lemma split_dot_nonempty s : split_dot s ≠ [].
Proof. destruct s; simpl; repeat case_match; done. Qed.

Example split_dot_ex : split_dot (js "a.bc.") = [js "a"; js "bc"; js ""].
Proof. reflexivity. Qed.
Example array_index_ex : array_index (js "42") = Some 42 ∧ array_index (js "042") = None.
Proof. done. Qed.
