(* ===== verification/JsValue.v ===== *)
(** * Document values

    The values a document holds ([DocumentValue] of
    packages/protocol/src/document.ts) and the objects of the language they are
    made of. An object is the list of its own enumerable properties in the order
    of [Object.keys]. [Equiv] on values is equality up to the order of the
    fields, the equality that the binary format preserves. *)

From S2P Require Import Prelude Errors JsNumber JsString.

(** [DocumentValue]. A [Date] is its time value, [None] for an invalid one; a
    [CustomId] is its bytes. *)
#[warnings="-register-all"]
Inductive DocumentValue :=
  | VNull
  | VBool (b : bool)
  | VNumber (n : number)
  | VBigInt (z : Z)
  | VString (s : jsstring)
  | VDate (ms : option Z)
  | VBinary (bs : bytes)
  | VId (bs : bytes)
  | VArray (l : list DocumentValue)
  | VDoc (fields : list (jsstring * DocumentValue)).

(** [Document]: the own properties of a plain object. *)
Abbreviation Document := (list (jsstring * DocumentValue)).

(** ** Objects *)

(** [Object.hasOwn] and reading an own property. *)
Abbreviation obj_has := omap_has.
Abbreviation obj_get := omap_get.

(** Where a new array-index property goes: index keys come first, in ascending
    order. *)
Fixpoint obj_insert_index {V} (o : list (jsstring * V)) (i : Z) (k : jsstring) (v : V)
    : list (jsstring * V) :=
  match o with
  | [] => [(k, v)]
  | (k', v') :: o' =>
      match array_index k' with
      | Some j => if j <? i then (k', v') :: obj_insert_index o' i k v else (k, v) :: o
      | None => (k, v) :: o
      end
  end.

(** Setting an own property: in place when it exists, otherwise at the place
    that the property order of the language gives it. *)
Definition obj_set {V} (o : list (jsstring * V)) (k : jsstring) (v : V)
    : list (jsstring * V) :=
  if omap_has o k then omap_set o k v
  else match array_index k with
       | Some i => obj_insert_index o i k v
       | None => o ++ [(k, v)]
       end.

Definition obj_delete {V} (o : list (jsstring * V)) (k : jsstring) : list (jsstring * V) :=
  omap_delete o k.

(** An object literal with computed keys: properties set one after the other. *)
Definition obj_of_list {V} (l : list (jsstring * V)) : list (jsstring * V) :=
  fold_left (λ o kv, obj_set o kv.1 kv.2) l [].

(** ** Well-formed values *)
Definition is_byteb (b : Z) : bool := (0 <=? b) && (b <? 256).
Definition is_unitb (u : Z) : bool := (0 <=? u) && (u <? 65536).

(** The largest magnitude of a time value. *)
Definition MAX_TIME : Z := 8640000000000000.

Definition time_clip (ms : Z) : option Z :=
  if Z.abs ms <=? MAX_TIME then Some ms else None.

(** What every value of the language satisfies. *)
Fixpoint wf_value (v : DocumentValue) : bool :=
  match v with
  | VNull | VBool _ | VBigInt _ => true
  | VNumber n => valid_binary 53 1024 n
  | VString s => forallb is_unitb s
  | VDate None => true
  | VDate (Some ms) => Z.abs ms <=? MAX_TIME
  | VBinary bs => forallb is_byteb bs
  | VId bs => forallb is_byteb bs && (len bs =? 16)
  | VArray l => forallb wf_value l
  | VDoc fs =>
      forallb (λ kv : jsstring * DocumentValue,
        let (k, v) := kv in forallb is_unitb k && wf_value v) fs
      && bool_decide (NoDup (map fst fs))
  end.

(** The nesting depth of a value: what [depth] counts in the codec. *)
Fixpoint depth_of (v : DocumentValue) : Z :=
  match v with
  | VArray l => fold_right Z.max 0 (map (λ v, 1 + depth_of v) l)
  | VDoc fs =>
      fold_right Z.max 0
        (map (λ kv : jsstring * DocumentValue, let (_, v) := kv in 1 + depth_of v) fs)
  | _ => 0
  end.

(** ** Canonical form and equality up to field order *)

(** Keys in the order of their UTF-8 bytes. *)
Definition key_cmp (k1 k2 : jsstring) : Z :=
  sign_of (lex_cmp (utf8_encode k1) (utf8_encode k2)).

Definition field_cmp {V} (f1 f2 : jsstring * V) : Z := key_cmp f1.1 f2.1.

Fixpoint canon (v : DocumentValue) : DocumentValue :=
  match v with
  | VArray l => VArray (map canon l)
  | VDoc fs =>
      VDoc (sort_by field_cmp
        (map (λ kv : jsstring * DocumentValue, let (k, v) := kv in (k, canon v)) fs))
  | v => v
  end.

#[export] Instance value_equiv : Equiv DocumentValue := λ v w, canon v = canon w.
#[export] Instance value_equivalence : Equivalence (≡@{DocumentValue}).
Proof.
  unfold equiv, value_equiv.
  split; [by intros v|by intros v w|by intros u v w ->].
Qed.

(** * Lemmas *)

(** Induction over values and the values they hold. *)
Section ValueInd.
Context (P : DocumentValue → Prop).
Context (Hnull : P VNull) (Hbool : ∀ b, P (VBool b)) (Hnum : ∀ n, P (VNumber n))
        (Hbig : ∀ z, P (VBigInt z)) (Hstr : ∀ s, P (VString s))
        (Hdate : ∀ ms, P (VDate ms)) (Hbin : ∀ bs, P (VBinary bs))
        (Hid : ∀ bs, P (VId bs)) (Harr : ∀ l, Forall P l → P (VArray l))
        (Hdoc : ∀ fs, Forall (λ kv, P kv.2) fs → P (VDoc fs)).

Fixpoint value_ind' (v : DocumentValue) : P v :=
  match v with
  | VNull => Hnull
  | VBool b => Hbool b
  | VNumber n => Hnum n
  | VBigInt z => Hbig z
  | VString s => Hstr s
  | VDate ms => Hdate ms
  | VBinary bs => Hbin bs
  | VId bs => Hid bs
  | VArray l =>
      Harr l ((fix go l : Forall P l :=
        match l with
        | [] => Forall_nil_2 P
        | v :: l => Forall_cons_2 P v l (value_ind' v) (go l)
        end) l)
  | VDoc fs =>
      Hdoc fs ((fix go (fs : list (jsstring * DocumentValue)) : Forall (λ kv, P kv.2) fs :=
        match fs with
        | [] => Forall_nil_2 _
        | (k, v) :: fs => Forall_cons_2 (λ kv, P kv.2) (k, v) fs (value_ind' v) (go fs)
        end) fs)
  end.
End ValueInd.

Lemma is_byteb_spec b : is_byteb b = true ↔ is_byte b.
Proof. unfold is_byteb, is_byte. rewrite andb_true_iff, Z.leb_le, Z.ltb_lt. lia. Qed.

Lemma is_unitb_spec u : is_unitb u = true ↔ is_unit u.
Proof. unfold is_unitb, is_unit. rewrite andb_true_iff, Z.leb_le, Z.ltb_lt. lia. Qed.

Lemma forallb_Forall_iff {A} (f : A → bool) (P : A → Prop) l :
  (∀ x, f x = true ↔ P x) → forallb f l = true ↔ Forall P l.
Proof.
  intros H. rewrite forallb_forall, Forall_forall. split; intros Hl x Hx.
  - by apply H, Hl, list_elem_of_In.
  - by apply H, Hl, list_elem_of_In.
Qed.

Lemma forallb_Forall_1 {A} (f : A → bool) l :
  forallb f l = true → Forall (λ x, f x = true) l.
Proof. by apply forallb_Forall_iff. Qed.

Lemma bytes_wf bs : forallb is_byteb bs = true ↔ Forall is_byte bs.
Proof. apply forallb_Forall_iff, is_byteb_spec. Qed.

Lemma units_wf s : forallb is_unitb s = true ↔ Forall is_unit s.
Proof. apply forallb_Forall_iff, is_unitb_spec. Qed.

Lemma wf_doc fs :
  wf_value (VDoc fs) = true ↔
  Forall (λ kv, Forall is_unit kv.1 ∧ wf_value kv.2 = true) fs ∧ NoDup (omap_keys fs).
Proof.
  cbn [wf_value]. rewrite andb_true_iff, bool_decide_eq_true.
  rewrite (forallb_Forall_iff _ (λ kv, Forall is_unit kv.1 ∧ wf_value kv.2 = true)); [done|].
  intros [k v]. by rewrite andb_true_iff, units_wf.
Qed.

Lemma wf_array l : wf_value (VArray l) = true ↔ Forall (λ v, wf_value v = true) l.
Proof. cbn [wf_value]. by apply forallb_Forall_iff. Qed.

#[export] Instance key_cmp_order : CmpOrder key_cmp.
Proof. exact (cmp_order_key utf8_encode (λ a b, sign_of (lex_cmp a b)) lex_cmp_order). Qed.

#[export] Instance field_cmp_order {V} : CmpOrder (@field_cmp V).
Proof. exact (cmp_order_key fst key_cmp key_cmp_order). Qed.

Lemma key_cmp_eq k1 k2 :
  wf_string k1 → wf_string k2 → key_cmp k1 k2 = 0 → k1 = k2.
Proof.
  intros H1 H2. unfold key_cmp. destruct (lex_cmp _ _) eqn:E; simpl; try lia. intros _.
  apply lex_cmp_eq in E. by apply utf8_encode_inj.
Qed.

Section ObjLemmas.
Context {V : Type}.
Implicit Types o : list (jsstring * V).

Lemma obj_insert_index_perm o i k v : obj_insert_index o i k v ≡ₚ (k, v) :: o.
Proof.
  induction o as [|[k' v'] o IH]; simpl; [done|].
  case_match; [|done]. case_match; [|done]. rewrite IH. apply Permutation_swap.
Qed.

Lemma obj_set_new_perm o k v : obj_get o k = None → obj_set o k v ≡ₚ (k, v) :: o.
Proof.
  intros H. unfold obj_set, omap_has. rewrite H.
  case_match; [apply obj_insert_index_perm|]. by rewrite Permutation_app_comm.
Qed.

Lemma obj_set_old o k v : is_Some (obj_get o k) → obj_set o k v = omap_set o k v.
Proof. intros [w H]. unfold obj_set, omap_has. by rewrite H. Qed.

Lemma obj_set_NoDup o k v : NoDup (omap_keys o) → NoDup (omap_keys (obj_set o k v)).
Proof.
  intros Hd. destruct (obj_get o k) eqn:E.
  - rewrite obj_set_old by done. by apply omap_set_NoDup.
  - unfold omap_keys. rewrite obj_set_new_perm by done. cbn [map fst].
    apply NoDup_cons. by apply omap_get_None in E.
Qed.

Lemma omap_get_perm o1 o2 k :
  NoDup (omap_keys o1) → o1 ≡ₚ o2 → obj_get o1 k = obj_get o2 k.
Proof.
  intros Hd Hp. assert (NoDup (omap_keys o2)).
  { unfold omap_keys. by rewrite <- Hp. }
  destruct (obj_get o1 k) eqn:E1.
  - symmetry. apply omap_get_in; [done|]. rewrite <- Hp. by apply omap_get_Some_in.
  - symmetry. rewrite omap_get_None. unfold omap_keys. rewrite <- Hp.
    by apply omap_get_None.
Qed.

Lemma obj_get_set o k v k' :
  NoDup (omap_keys o) →
  obj_get (obj_set o k v) k' = if decide (k = k') then Some v else obj_get o k'.
Proof.
  intros Hd. destruct (obj_get o k) eqn:E.
  - rewrite obj_set_old by done.
    case_decide; [subst; apply omap_get_set | by apply omap_get_set_ne].
  - rewrite (omap_get_perm _ ((k, v) :: o)); [|by apply obj_set_NoDup|by apply obj_set_new_perm].
    simpl. by case_decide; case_decide.
Qed.
End ObjLemmas.

(** A canonical document is a permutation of the canonical fields. *)
Definition canon_fields (fs : Document) : Document :=
  map (λ kv : jsstring * DocumentValue, let (k, v) := kv in (k, canon v)) fs.

Lemma canon_doc fs : canon (VDoc fs) = VDoc (sort_by field_cmp (canon_fields fs)).
Proof. done. Qed.

Lemma canon_fields_keys fs : omap_keys (canon_fields fs) = omap_keys fs.
Proof.
  unfold omap_keys, canon_fields. rewrite map_map. apply map_ext. by intros [k v].
Qed.

(** The keys of a document that the encoder accepts are well-formed strings. *)
Definition wf_keys (fs : Document) : Prop :=
  NoDup (omap_keys fs) ∧ Forall wf_string (omap_keys fs).

Lemma field_cmp_sep {V} (o : list (jsstring * V)) :
  NoDup (omap_keys o) → Forall wf_string (omap_keys o) →
  ∀ x y, x ∈ o → y ∈ o → field_cmp x y = 0 → x = y.
Proof.
  intros Hd Hw [k1 v1] [k2 v2] H1 H2 E. rewrite Forall_forall in Hw.
  pose proof (list_elem_of_fmap_2 fst _ _ H1) as Hk1.
  pose proof (list_elem_of_fmap_2 fst _ _ H2) as Hk2.
  apply key_cmp_eq in E; [|by apply Hw..]. simpl in E. subst k2. f_equal.
  apply omap_get_in in H1, H2; [|done..]. congruence.
Qed.

(** Field order does not matter to [≡]. *)
Lemma equiv_doc_perm fs1 fs2 :
  wf_keys fs1 → fs1 ≡ₚ fs2 → VDoc fs1 ≡ VDoc fs2.
Proof.
  intros [Hd Hw] Hp. unfold equiv, value_equiv. rewrite !canon_doc. f_equal.
  apply sort_by_perm_eq; [apply _|by apply Permutation_map|].
  apply field_cmp_sep; by rewrite canon_fields_keys.
Qed.

(** Sorting the fields and then making the values canonical, or the other way
    round. *)
Lemma sort_canon_fields fs :
  sort_by field_cmp (canon_fields fs) = canon_fields (sort_by field_cmp fs).
Proof. apply sort_by_map. by intros [k1 v1] [k2 v2]. Qed.

Example obj_set_ex :
  omap_keys (obj_of_list [(js "b", VNull); (js "2", VNull); (js "a", VNull); (js "1", VNull)])
  = [js "1"; js "2"; js "b"; js "a"].
Proof. reflexivity. Qed.
