(* ===== verification/Binary.v ===== *)
(** * Binary writer and reader

    packages/protocol/src/binary-writer.ts and binary-reader.ts. The writer is a
    growing buffer with a length; its operations are shown to append to the
    contents or to fail exactly when the payload limit would be exceeded
    ([writes]). The reader is a buffer with an offset; its operations consume a
    prefix of what remains. *)

From S2P Require Import Prelude Errors JsNumber.

Definition MAX_PAYLOAD_SIZE : Z := 16 * 1024 * 1024.

(** ** Integers as bytes, most significant first *)

(** [setUint8], [setUint32], [setInt32], [setBigInt64], [setBigUint64]: the [n]
    low bytes of [z]. *)
Fixpoint be (n : nat) (z : Z) : bytes :=
  match n with
  | O => []
  | S n => be n (z / 256) ++ [z mod 256]
  end.

(** The unsigned value of a byte string. *)
Definition from_be (bs : bytes) : Z := fold_left (λ a b, a * 256 + b) bs 0.

(** Two's complement on [w] bits. *)
Definition to_signed (w : Z) (z : Z) : Z := if z <? 2 ^ (w - 1) then z else z - 2 ^ w.

(** ** Writer *)
Module Writer.
Definition INITIAL_CAPACITY : Z := 256.

Record writer := { buffer : bytes; length : Z }.

Definition zeros (n : Z) : bytes := repeat 0 (Z.to_nat n).

Definition new : writer := {| buffer := zeros INITIAL_CAPACITY; length := 0 |}.

(** [target.set(source, offset)] within the bounds of [target]. *)
Definition set_bytes (target source : bytes) (offset : Z) : bytes :=
  take (Z.to_nat offset) target ++ source
  ++ drop (Z.to_nat offset + List.length source) target.

Definition ensureCapacity (w : writer) (additionalBytes : Z) : result writer :=
  let requiredCapacity := length w + additionalBytes in
  if MAX_PAYLOAD_SIZE <? requiredCapacity then Throw (ProtocolError PayloadTooLarge)
  else if requiredCapacity <=? len (buffer w) then Ok w
  else
    let nextCapacity :=
      Z.min MAX_PAYLOAD_SIZE (Z.max requiredCapacity (len (buffer w) * 2)) in
    Ok {| buffer := set_bytes (zeros nextCapacity) (buffer w) 0; length := length w |}.

(** Every write: make room, store the bytes at [length], advance [length]. *)
Definition append (w : writer) (value : bytes) : result writer :=
  w ← ensureCapacity w (len value);
  Ok {| buffer := set_bytes (buffer w) value (length w);
        length := length w + len value |}.

Definition writeUint8 (w : writer) (value : Z) : result writer := append w (be 1 value).
Definition writeInt32 (w : writer) (value : Z) : result writer := append w (be 4 value).
Definition writeUint32 (w : writer) (value : Z) : result writer := append w (be 4 value).
Definition writeBigInt64 (w : writer) (value : Z) : result writer := append w (be 8 value).
Definition writeBigUint64 (w : writer) (value : Z) : result writer := append w (be 8 value).
Definition writeFloat64 (w : writer) (value : number) : result writer :=
  append w (be 8 (bits_of_number value)).
Definition writeBytes (w : writer) (value : bytes) : result writer := append w value.

Definition finish (w : writer) : bytes := take (Z.to_nat (length w)) (buffer w).
End Writer.
Abbreviation writer := Writer.writer.

(** ** Reader *)
Module Reader.
Record reader := { data : bytes; offset : Z }.

Definition new (data : bytes) : reader := {| data := data; offset := 0 |}.

Definition remaining (r : reader) : Z := len (data r) - offset r.

Definition ensureAvailable (r : reader) (length : Z) : result () :=
  guard_throw (length <=? remaining r) (ProtocolError UnexpectedEnd).

(** Every read: check the bounds, take the bytes at [offset], advance
    [offset]. *)
Definition consume (r : reader) (length : Z) : result (bytes * reader) :=
  _ ← ensureAvailable r length;
  Ok (take (Z.to_nat length) (drop (Z.to_nat (offset r)) (data r)),
      {| data := data r; offset := offset r + length |}).

Definition readUint8 (r : reader) : result (Z * reader) :=
  '(b, r) ← consume r 1; Ok (from_be b, r).
Definition readInt32 (r : reader) : result (Z * reader) :=
  '(b, r) ← consume r 4; Ok (to_signed 32 (from_be b), r).
Definition readUint32 (r : reader) : result (Z * reader) :=
  '(b, r) ← consume r 4; Ok (from_be b, r).
Definition readBigInt64 (r : reader) : result (Z * reader) :=
  '(b, r) ← consume r 8; Ok (to_signed 64 (from_be b), r).
Definition readFloat64 (r : reader) : result (number * reader) :=
  '(b, r) ← consume r 8; Ok (number_of_bits (from_be b), r).
Definition readBytes (r : reader) (length : Z) : result (bytes * reader) :=
  consume r length.
End Reader.
Abbreviation reader := Reader.reader.

(** * Lemmas *)

Lemma be_length n z : length (be n z) = n.
Proof. revert z. induction n as [|n IH]; intros z; simpl; [done|]. rewrite length_app, IH. simpl. lia. Qed.

Lemma be_len n z : len (be n z) = Z.of_nat n.
Proof. unfold len. by rewrite be_length. Qed.

Lemma be_bytes n z : Forall is_byte (be n z).
Proof.
  revert z. induction n as [|n IH]; intros z; simpl; [done|].
  apply Forall_app. split; [done|]. repeat constructor; pose proof (Z.mod_pos_bound z 256); lia.
Qed.

Lemma from_be_app bs b : from_be (bs ++ [b]) = from_be bs * 256 + b.
Proof. unfold from_be. by rewrite fold_left_app. Qed.

Lemma from_be_be n z : from_be (be n z) = z mod 256 ^ Z.of_nat n.
Proof.
  revert z. induction n as [|n IH]; intros z; cbn [be]; [by rewrite Z.mod_1_r|].
  rewrite from_be_app, IH. rewrite Nat2Z.inj_succ, Z.pow_succ_r by lia.
  assert (0 < 256 ^ Z.of_nat n) by (apply Z.pow_pos_nonneg; lia).
  rewrite (Z.rem_mul_r z 256 (256 ^ Z.of_nat n)) by lia. ring.
Qed.

Lemma from_be_range bs : Forall is_byte bs → 0 ≤ from_be bs < 256 ^ len bs.
Proof.
  induction bs as [|b bs IH] using rev_ind; [done|]. intros [Hbs Hb]%Forall_app.
  apply Forall_cons in Hb as [Hb _]. unfold is_byte in Hb. rewrite from_be_app.
  specialize (IH Hbs). rewrite len_app, Z.pow_add_r by (unfold len; lia).
  change (256 ^ len [b]) with 256. lia.
Qed.

Lemma be_from_be n bs : length bs = n → Forall is_byte bs → be n (from_be bs) = bs.
Proof.
  revert n. induction bs as [|b bs IH] using rev_ind; intros n <-; [done|].
  intros [Hbs Hb]%Forall_app. apply Forall_cons in Hb as [Hb _]. unfold is_byte in Hb.
  rewrite length_app. simpl. rewrite Nat.add_1_r. cbn [be]. rewrite from_be_app.
  rewrite Z.div_add_l, (Z.div_small b), Z.add_0_r by lia. rewrite IH by done.
  rewrite Z.add_comm, Z.mod_add, Z.mod_small by lia. done.
Qed.

Lemma to_signed_spec w z :
  0 < w → 0 ≤ z < 2 ^ w → - 2 ^ (w - 1) ≤ to_signed w z < 2 ^ (w - 1).
Proof.
  intros Hw Hz. unfold to_signed. replace (2 ^ w) with (2 * 2 ^ (w - 1)) in *
    by (rewrite <- Z.pow_succ_r by lia; f_equal; lia).
  destruct (Z.ltb_spec z (2 ^ (w - 1))); lia.
Qed.

Lemma to_signed_mod w z :
  0 < w → - 2 ^ (w - 1) ≤ z < 2 ^ (w - 1) → to_signed w (z mod 2 ^ w) = z.
Proof.
  intros Hw Hz. unfold to_signed.
  assert (2 ^ w = 2 * 2 ^ (w - 1)) as E by (rewrite <- Z.pow_succ_r by lia; f_equal; lia).
  destruct (Z.le_gt_cases 0 z).
  - rewrite Z.mod_small by lia. destruct (Z.ltb_spec z (2 ^ (w - 1))); lia.
  - assert (z mod 2 ^ w = z + 2 ^ w) as ->.
    { symmetry. apply (Z.mod_unique _ _ (-1)); lia. }
    destruct (Z.ltb_spec (z + 2 ^ w) (2 ^ (w - 1))); lia.
Qed.

(** ** What a piece of code writes

    [out]: the bytes it emits, and the exception that ends it, if any. *)
Abbreviation out := (bytes * option exn)%type.

Definition out_app (a b : out) : out :=
  match a with
  | (bs, None) => (bs ++ b.1, b.2)
  | _ => a
  end.

(** The abstract writer: a payload is the bytes so far, up to the limit. *)
Definition emit (start : bytes) (o : out) : result bytes :=
  if MAX_PAYLOAD_SIZE <? len start + len o.1 then Throw (ProtocolError PayloadTooLarge)
  else match o.2 with
       | None => Ok (start ++ o.1)
       | Some e => Throw e
       end.

Definition wf_writer (w : writer) : Prop :=
  0 ≤ Writer.length w ≤ len (Writer.buffer w) ∧ len (Writer.buffer w) ≤ MAX_PAYLOAD_SIZE.

(** Refinement: the code [f] on buffers does what [emit] does on contents. *)
Definition writes (f : writer → result writer) (o : out) : Prop :=
  ∀ w, wf_writer w →
    match emit (Writer.finish w) o with
    | Ok c => ∃ w', f w = Ok w' ∧ wf_writer w' ∧ Writer.finish w' = c
    | Throw e => f w = Throw e
    end.

Lemma finish_len w : wf_writer w → len (Writer.finish w) = Writer.length w.
Proof. intros [H1 H2]. unfold Writer.finish, len in *. rewrite length_take. lia. Qed.

Lemma new_wf : wf_writer Writer.new.
Proof. done. Qed.

Lemma writes_ext f g o : (∀ w, f w = g w) → writes f o → writes g o.
Proof. intros E H w Hw. rewrite <- E. by apply H. Qed.

Lemma writes_throw e : writes (λ _, Throw e) ([], Some e).
Proof.
  intros w Hw. unfold emit. cbn [fst snd]. rewrite finish_len by done. change (len []) with 0.
  destruct Hw as [[? ?] ?]. destruct (Z.ltb_spec MAX_PAYLOAD_SIZE (Writer.length w + 0)); [lia|done].
Qed.

Lemma writes_nil : writes (λ w, Ok w) ([], None).
Proof.
  intros w Hw. unfold emit. cbn [fst snd]. rewrite finish_len by done. change (len []) with 0.
  pose proof Hw as [[? ?] ?].
  destruct (Z.ltb_spec MAX_PAYLOAD_SIZE (Writer.length w + 0)); [lia|].
  exists w. by rewrite app_nil_r.
Qed.

Lemma writes_bind f g o1 o2 :
  writes f o1 → writes g o2 → writes (λ w, f w ≫= g) (out_app o1 o2).
Proof.
  intros Hf Hg w Hw. specialize (Hf w Hw). unfold emit in *.
  destruct o1 as [b1 [e|]]; cbn [out_app fst snd] in *.
  { destruct (MAX_PAYLOAD_SIZE <? _); by rewrite Hf. }
  rewrite len_app. pose proof (len_nonneg o2.1).
  destruct (Z.ltb_spec MAX_PAYLOAD_SIZE (len (Writer.finish w) + len b1)).
  { destruct (Z.ltb_spec MAX_PAYLOAD_SIZE (len (Writer.finish w) + (len b1 + len o2.1))); [|lia].
    by rewrite Hf. }
  destruct Hf as (w1 & E1 & Hw1 & F1). rewrite E1. cbn [mbind res_bind].
  specialize (Hg w1 Hw1). unfold emit in Hg. rewrite F1, len_app in Hg.
  rewrite Z.add_assoc. rewrite app_assoc. exact Hg.
Qed.

Lemma set_bytes_length t s o :
  0 ≤ o → o + len s ≤ len t → len (Writer.set_bytes t s o) = len t.
Proof.
  unfold Writer.set_bytes, len. intros. rewrite !length_app, length_take, length_drop. lia.
Qed.

Lemma take_set_bytes t s o :
  0 ≤ o → o + len s ≤ len t →
  take (Z.to_nat (o + len s)) (Writer.set_bytes t s o) = take (Z.to_nat o) t ++ s.
Proof.
  unfold Writer.set_bytes, len. intros. rewrite app_assoc.
  rewrite take_app_le by (rewrite length_app, length_take; lia).
  apply take_ge. rewrite length_app, length_take. lia.
Qed.

Lemma ensureCapacity_spec w n :
  wf_writer w → 0 ≤ n →
  if MAX_PAYLOAD_SIZE <? Writer.length w + n
  then Writer.ensureCapacity w n = Throw (ProtocolError PayloadTooLarge)
  else ∃ w', Writer.ensureCapacity w n = Ok w' ∧ wf_writer w' ∧
         Writer.length w' = Writer.length w ∧ Writer.finish w' = Writer.finish w ∧
         Writer.length w + n ≤ len (Writer.buffer w').
Proof.
  intros [[H1 H2] H3] Hn. unfold Writer.ensureCapacity.
  destruct (Z.ltb_spec MAX_PAYLOAD_SIZE (Writer.length w + n)); [done|].
  destruct (Z.leb_spec (Writer.length w + n) (len (Writer.buffer w))); [by exists w|].
  set (c := Z.min _ _). assert (Writer.length w + n ≤ c ≤ MAX_PAYLOAD_SIZE) by lia.
  assert (len (Writer.zeros c) = c) as Hz.
  { unfold Writer.zeros, len. rewrite repeat_length. lia. }
  eexists. split; [done|]. unfold wf_writer, Writer.finish. cbn [Writer.buffer Writer.length].
  rewrite set_bytes_length by lia. rewrite Hz. split_and!; try lia.
  unfold Writer.set_bytes. change (take (Z.to_nat 0) _) with (@nil Z). cbn [app].
  rewrite take_app_le by (unfold len in *; lia). done.
Qed.

(** Storing bytes at the end appends them to the contents. *)
Lemma append_writes bs : writes (λ w, Writer.append w bs) (bs, None).
Proof.
  intros w Hw. unfold emit, Writer.append. cbn [fst snd]. rewrite finish_len by done.
  pose proof (ensureCapacity_spec w (len bs) Hw (len_nonneg bs)) as H.
  case_match; [by rewrite H|]. destruct H as (w1 & E1 & [[H1 H2] H3] & El & Ef & Hc).
  rewrite E1. cbn [mbind res_bind]. eexists. split; [done|].
  unfold wf_writer. cbn [Writer.buffer Writer.length]. rewrite El in *.
  rewrite set_bytes_length by lia. pose proof (len_nonneg bs). split; [lia|].
  unfold Writer.finish at 1. cbn [Writer.buffer Writer.length]. rewrite take_set_bytes by lia.
  rewrite <- Ef. unfold Writer.finish. by rewrite El.
Qed.

Lemma writes_foldM {A} (f : A → writer → result writer) (o : A → out) l :
  (∀ x, x ∈ l → writes (f x) (o x)) →
  writes (foldM f l) (foldr (λ x acc, out_app (o x) acc) ([], None) l).
Proof.
  induction l as [|x l IH]; intros H; simpl; [apply writes_nil|].
  apply writes_bind; [apply H; left|]. apply IH. intros y Hy. apply H. by right.
Qed.

(** ** What a piece of code reads *)
Definition wf_reader (r : reader) : Prop :=
  0 ≤ Reader.offset r ≤ len (Reader.data r) ∧ Forall is_byte (Reader.data r).

Definition rest (r : reader) : bytes := drop (Z.to_nat (Reader.offset r)) (Reader.data r).

Lemma rest_len r : wf_reader r → len (rest r) = Reader.remaining r.
Proof. intros [H _]. unfold rest, Reader.remaining, len in *. rewrite length_drop. lia. Qed.

Lemma rest_new bs : rest (Reader.new bs) = bs.
Proof. done. Qed.

Lemma rest_bytes r : wf_reader r → Forall is_byte (rest r).
Proof. intros [_ H]. by apply Forall_drop. Qed.

(** Reading takes a prefix of what remains, or fails when too little remains. *)
Lemma consume_spec r n :
  wf_reader r → 0 ≤ n →
  if len (rest r) <? n then Reader.consume r n = Throw (ProtocolError UnexpectedEnd)
  else ∃ b r', Reader.consume r n = Ok (b, r') ∧ wf_reader r' ∧
         rest r = b ++ rest r' ∧ len b = n ∧ Reader.data r' = Reader.data r.
Proof.
  intros Hr Hn. pose proof (rest_len r Hr) as Hl. pose proof Hr as [Ho Hb].
  unfold Reader.consume, Reader.ensureAvailable. rewrite <- Hl.
  destruct (Z.ltb_spec (len (rest r)) n).
  { destruct (Z.leb_spec n (len (rest r))); [lia|done]. }
  destruct (Z.leb_spec n (len (rest r))); [|lia]. cbn [guard_throw mbind res_bind].
  do 2 eexists. split; [done|]. unfold wf_reader, rest in *. cbn [Reader.data Reader.offset].
  rewrite Z2Nat.inj_add, <- drop_drop, take_drop by lia. split_and!; try done; try lia.
  all: unfold len, Reader.remaining in *; rewrite ?length_take, ?length_drop in *; lia.
Qed.

Lemma consume_app r bs tl :
  wf_reader r → rest r = bs ++ tl →
  ∃ r', Reader.consume r (len bs) = Ok (bs, r') ∧ wf_reader r' ∧ rest r' = tl.
Proof.
  intros Hr E. pose proof (consume_spec r (len bs) Hr (len_nonneg bs)) as H.
  rewrite E, len_app in H. pose proof (len_nonneg tl).
  destruct (Z.ltb_spec (len bs + len tl) (len bs)); [lia|].
  destruct H as (b & r' & E1 & Hr' & E2 & El & _).
  apply app_inj_1 in E2 as [-> ->]; [by exists r'|]. unfold len in El. lia.
Qed.

(** A successful read. *)
Lemma consume_Ok r n b r' :
  wf_reader r → 0 ≤ n → Reader.consume r n = Ok (b, r') →
  wf_reader r' ∧ rest r = b ++ rest r' ∧ len b = n ∧ Forall is_byte b.
Proof.
  intros Hr Hn H. pose proof (consume_spec r n Hr Hn) as Hs.
  case_match; [by rewrite H in Hs|]. destruct Hs as (b1 & r1 & E & Hr1 & E1 & El & _).
  rewrite E in H. injection H as -> ->. split_and!; try done.
  pose proof (rest_bytes r Hr) as Hb. rewrite E1 in Hb. by apply Forall_app in Hb as [? _].
Qed.

Lemma consume_Throw r n e :
  wf_reader r → 0 ≤ n → Reader.consume r n = Throw e → e = ProtocolError UnexpectedEnd.
Proof.
  intros Hr Hn H. pose proof (consume_spec r n Hr Hn) as Hs.
  case_match; [by rewrite H in Hs; injection Hs|].
  destruct Hs as (b1 & r1 & E & _). by rewrite E in H.
Qed.
