(* ===== verification/CustomId.v ===== *)
(** * Document ids

    [CustomId] of packages/protocol/src/custom-id.ts: sixteen bytes, the first six
    a big-endian timestamp in milliseconds, the rest random. The clock and the
    random source are arguments of [generate]. *)

From S2P Require Import Prelude Errors JsNumber JsString JsValue Binary.

Definition CUSTOM_ID_BYTE_LENGTH : Z := 16.
Definition CUSTOM_ID_HEX_LENGTH : Z := CUSTOM_ID_BYTE_LENGTH * 2.
Definition TIMESTAMP_BYTE_LENGTH : Z := 6.
Definition RANDOM_BYTE_LENGTH : Z := CUSTOM_ID_BYTE_LENGTH - TIMESTAMP_BYTE_LENGTH.
Definition MAX_TIMESTAMP : Z := 0xffffffffffff.

Module CustomId.
(** The loop [for (index = 5; index >= 0; index -= 1)] of [writeTimestamp]:
    [n] is [index + 1]. *)
Fixpoint timestamp_loop (n : nat) (target : bytes) (remaining : Z) : bytes :=
  match n with
  | O => target
  | S index =>
      timestamp_loop index (<[index := Z.land remaining 0xff]> target)
        (Z.shiftr remaining 8)
  end.

Definition writeTimestamp (target : bytes) (value : number) : result bytes :=
  _ ← guard_throw
        (isSafeInteger value && (0 <=? Z_of_number value)
         && (Z_of_number value <=? MAX_TIMESTAMP)) RangeError;
  Ok (timestamp_loop (Z.to_nat TIMESTAMP_BYTE_LENGTH) target (Z_of_number value)).

(** [now] is [Date.now()], [random] the bytes of [randomBytes]. *)
Definition generate (now : number) (random : bytes) : result bytes :=
  bytes ← writeTimestamp (Writer.zeros CUSTOM_ID_BYTE_LENGTH) now;
  Ok (Writer.set_bytes bytes random TIMESTAMP_BYTE_LENGTH).

Definition fromBytes (value : bytes) : result bytes :=
  _ ← guard_throw (len value =? CUSTOM_ID_BYTE_LENGTH) TypeError;
  Ok value.

(** The value of a hexadecimal digit, [None] for another character. *)
Definition hex_digit (u : Z) : option Z :=
  if (48 <=? u) && (u <=? 57) then Some (u - 48)
  else if (97 <=? u) && (u <=? 102) then Some (u - 87)
  else if (65 <=? u) && (u <=? 70) then Some (u - 55)
  else None.

(** [Number.parseInt(two, 16)] of each pair of digits. *)
Fixpoint parse_pairs (s : jsstring) : bytes :=
  match s with
  | u :: v :: s =>
      (default 0 (hex_digit u) * 16 + default 0 (hex_digit v)) :: parse_pairs s
  | _ => []
  end.

Definition fromHexString (value : jsstring) : result bytes :=
  _ ← guard_throw
        ((len value =? CUSTOM_ID_HEX_LENGTH)
         && forallb (λ u, if hex_digit u is Some _ then true else false) value)
        TypeError;
  Ok (parse_pairs value).

(** [byte.toString(16).padStart(2, '0')]. *)
Definition hex_char (d : Z) : Z := if d <? 10 then 48 + d else 87 + d.
Definition hex_byte (b : Z) : jsstring := [hex_char (b / 16); hex_char (b mod 16)].

Definition toHexString (id : bytes) : jsstring := flat_map hex_byte id.

(** The time value of [timestamp]. *)
Definition timestamp (id : bytes) : Z :=
  fold_left (λ milliseconds byte, Z.lor (Z.shiftl milliseconds 8) byte)
    (take (Z.to_nat TIMESTAMP_BYTE_LENGTH) id) 0.

Definition equals (a b : bytes) : bool :=
  forallb (λ '(i, byte), bool_decide (b !! i = Some byte)) (imap (λ i x, (i, x)) a).
End CustomId.

(** * Lemmas *)
Lemma lor_shiftl_byte a b : 0 ≤ a → is_byte b → Z.lor (Z.shiftl a 8) b = a * 256 + b.
Proof.
  intros Ha [Hb1 Hb2]. rewrite Z.shiftl_mul_pow2 by lia. change (2 ^ 8) with 256.
  symmetry. apply Z.add_nocarry_lor.
  rewrite <- (Z.mod_small b 256) by lia. change 256 with (2 ^ 8) at 2.
  rewrite <- Z.land_ones, (Z.land_comm b), Z.land_assoc, Z.land_ones by lia.
  change (2 ^ 8) with 256. by rewrite Z.mod_mul.
Qed.

Lemma timestamp_from_be id :
  Forall is_byte id → CustomId.timestamp id = from_be (take 6 id).
Proof.
  intros H. unfold CustomId.timestamp, from_be.
  change (Z.to_nat TIMESTAMP_BYTE_LENGTH) with 6%nat.
  assert (∀ bs a, Forall is_byte bs → 0 ≤ a →
    fold_left (λ x y, Z.lor (Z.shiftl x 8) y) bs a = fold_left (λ x y, x * 256 + y) bs a)
    as Hf; [|apply Hf; [by apply Forall_take|done]].
  intros bs a Hbs. revert a. induction Hbs as [|b bs Hb _ IH]; intros a Ha; [done|].
  cbn [fold_left]. rewrite lor_shiftl_byte by done. apply IH. unfold is_byte in Hb. lia.
Qed.

Lemma timestamp_loop_spec z :
  CustomId.timestamp_loop (Z.to_nat TIMESTAMP_BYTE_LENGTH) (Writer.zeros CUSTOM_ID_BYTE_LENGTH) z
  = be 6 z ++ repeat 0 10.
Proof.
  change (Z.to_nat TIMESTAMP_BYTE_LENGTH) with 6%nat.
  change (Writer.zeros CUSTOM_ID_BYTE_LENGTH) with (repeat 0 16).
  cbn -[Z.land Z.shiftr Z.div Z.modulo].
  rewrite !Z.shiftr_shiftr by lia. change 0xff with (Z.ones 8).
  rewrite !Z.land_ones, !Z.shiftr_div_pow2 by lia.
  rewrite !Z.div_div by lia. done.
Qed.

(** The timestamp of a generated id is the clock it was generated at. *)
Lemma generate_spec now random id :
  Forall is_byte random → len random = RANDOM_BYTE_LENGTH →
  CustomId.generate now random = Ok id →
  id = be 6 (Z_of_number now) ++ random ∧ 0 ≤ Z_of_number now < 256 ^ 6.
Proof.
  intros Hr Hl H. unfold CustomId.generate, CustomId.writeTimestamp in H.
  rewrite timestamp_loop_spec in H.
  apply bind_Ok_inv in H as (b & Hb & <-%Ok_inj).
  apply bind_Ok_inv in Hb as (? & Hg & <-%Ok_inj). apply guard_throw_Ok in Hg. zbool. unfold MAX_TIMESTAMP in *. split; [|lia].
  unfold Writer.set_bytes. change (Z.to_nat TIMESTAMP_BYTE_LENGTH) with 6%nat.
  rewrite take_app_length' by (by rewrite be_length). f_equal.
  rewrite drop_app_ge by (rewrite be_length; lia). rewrite be_length.
  rewrite drop_ge; [apply app_nil_r|]. unfold len, RANDOM_BYTE_LENGTH in Hl.
  change (CUSTOM_ID_BYTE_LENGTH - TIMESTAMP_BYTE_LENGTH) with 10 in Hl.
  rewrite repeat_length. lia.
Qed.

Lemma hex_digit_char d : 0 ≤ d < 16 → CustomId.hex_digit (CustomId.hex_char d) = Some d.
Proof.
  intros H. unfold CustomId.hex_digit, CustomId.hex_char.
  destruct (Z.ltb_spec d 10); ztest; f_equal; lia.
Qed.

Lemma toHexString_cons b id :
  CustomId.toHexString (b :: id) =
    CustomId.hex_char (b / 16) :: CustomId.hex_char (b mod 16) :: CustomId.toHexString id.
Proof. done. Qed.

Lemma hex_byte_digits b :
  is_byte b →
  CustomId.hex_digit (CustomId.hex_char (b / 16)) = Some (b / 16) ∧
  CustomId.hex_digit (CustomId.hex_char (b mod 16)) = Some (b mod 16).
Proof.
  intros [H1 H2]. split; apply hex_digit_char; [|by apply Z.mod_pos_bound].
  split; [by apply Z.div_pos|]. by apply Z.div_lt_upper_bound.
Qed.

(** ** Properties *)

(** An id printed in hexadecimal is read back, whatever its sixteen bytes. *)
Lemma hex_roundtrip (id : bytes) :
  Forall is_byte id → len id = CUSTOM_ID_BYTE_LENGTH →
  CustomId.fromHexString (CustomId.toHexString id) = Ok id.
Proof.
  intros Hb Hl. unfold CustomId.fromHexString.
  assert (len (CustomId.toHexString id) = 2 * len id ∧
    forallb (λ u, if CustomId.hex_digit u is Some _ then true else false)
      (CustomId.toHexString id) = true ∧
    CustomId.parse_pairs (CustomId.toHexString id) = id) as (E1 & E2 & E3).
  { clear Hl. induction Hb as [|b id Hb _ (IH1 & IH2 & IH3)]; [done|].
    rewrite toHexString_cons. destruct (hex_byte_digits b Hb) as [D1 D2].
    cbn [forallb CustomId.parse_pairs]. rewrite D1, D2, IH2, IH3, !len_cons, IH1.
    split_and!; [lia|done|]. f_equal. simpl. pose proof (Z_div_mod_eq_full b 16). lia. }
  rewrite E1, Hl, E2. cbn. by rewrite E3.
Qed.

Lemma hex_roundtrip_witness :
  CustomId.fromHexString (CustomId.toHexString (be 16 0x0123456789abcdef)) =
    Ok (be 16 0x0123456789abcdef).
Proof. apply hex_roundtrip; [apply be_bytes | reflexivity]. Defined.

(** A generated id has sixteen bytes and carries the time at which it was
    generated; a clock outside the 48-bit range is refused. *)
Lemma generate_timestamp (now : number) (random : bytes) :
  Forall is_byte random → len random = RANDOM_BYTE_LENGTH →
  match CustomId.generate now random with
  | Ok id => len id = CUSTOM_ID_BYTE_LENGTH ∧ Forall is_byte id ∧
             CustomId.timestamp id = Z_of_number now ∧
             CustomId.fromBytes id = Ok id
  | Throw e => e = RangeError ∧
      (isSafeInteger now = false ∨ Z_of_number now < 0 ∨ MAX_TIMESTAMP < Z_of_number now)
  end.
Proof.
  intros Hr Hl. destruct (CustomId.generate now random) as [id|e] eqn:E.
  - apply generate_spec in E as [-> Hz]; [|done..].
    assert (len (be 6 (Z_of_number now) ++ random) = CUSTOM_ID_BYTE_LENGTH) as Hlen.
    { rewrite len_app, be_len, Hl. done. }
    assert (Forall is_byte (be 6 (Z_of_number now) ++ random)) as Hb.
    { apply Forall_app. split; [apply be_bytes|done]. }
    split_and!; [done|done| |].
    + rewrite timestamp_from_be by done.
      rewrite take_app_length' by (by rewrite be_length). rewrite from_be_be.
      by apply Z.mod_small.
    + unfold CustomId.fromBytes. by rewrite Hlen.
  - unfold CustomId.generate, CustomId.writeTimestamp in E.
    destruct (isSafeInteger now); [|injection E as <-; auto].
    destruct (Z.leb_spec 0 (Z_of_number now)); [|injection E as <-; auto].
    destruct (Z.leb_spec (Z_of_number now) MAX_TIMESTAMP); [done|injection E as <-; auto].
Qed.

Lemma generate_timestamp_witness :
  match CustomId.generate (number_of_Z 1700000000000) (repeat 7 10) with
  | Ok id => len id = CUSTOM_ID_BYTE_LENGTH ∧ Forall is_byte id ∧
             CustomId.timestamp id = Z_of_number (number_of_Z 1700000000000) ∧
             CustomId.fromBytes id = Ok id
  | Throw e => e = RangeError ∧
      (isSafeInteger (number_of_Z 1700000000000) = false
       ∨ Z_of_number (number_of_Z 1700000000000) < 0
       ∨ MAX_TIMESTAMP < Z_of_number (number_of_Z 1700000000000))
  end.
Proof.
  apply generate_timestamp; [apply bytes_wf; reflexivity | reflexivity].
Defined.
