(* ===== verification/Codec.v ===== *)
(** * Document codec

    packages/protocol/src/document-encoder.ts and document-decoder.ts: the
    binary form of a document value. The encoder writes to a [BinaryWriter],
    fields in the order of their UTF-8 keys; the decoder reads from a
    [BinaryReader].

    Values are trees here, so the set of active containers, which only catches
    cyclic objects, is not part of the state. *)

From S2P Require Import Prelude Errors JsNumber JsString JsValue Binary CustomId.

Definition MAX_DOCUMENT_DEPTH : Z := 100.

(** [ValueTag] (packages/protocol/src/document.ts). *)
Module ValueTag.
Definition Null : Z := 0x00.
Definition False_ : Z := 0x01.
Definition True_ : Z := 0x02.
Definition Int32 : Z := 0x03.
Definition Int64 : Z := 0x04.
Definition Float64 : Z := 0x05.
Definition BigInt64 : Z := 0x06.
Definition String : Z := 0x07.
Definition Binary : Z := 0x08.
Definition DateTime : Z := 0x09.
Definition Array : Z := 0x0a.
Definition Document : Z := 0x0b.
Definition CustomId : Z := 0x0c.
End ValueTag.

Definition MIN_INT32 : Z := -0x80000000.
Definition MAX_INT32 : Z := 0x7fffffff.
Definition MIN_INT64 : Z := - 2 ^ 63.
Definition MAX_INT64 : Z := 2 ^ 63 - 1.
Definition CANONICAL_NAN : Z := 0x7ff8000000000000.

(** ** Encoder *)

Definition encodeString (value : jsstring) : result bytes :=
  if isWellFormed value then Ok (utf8_encode value)
  else Throw (ProtocolError InvalidDocumentValue).

(** The first difference decides, then the length. *)
Fixpoint compareBytes (left right : bytes) : Z :=
  match left, right with
  | l :: left', r :: right' =>
      if l - r =? 0 then compareBytes left' right' else l - r
  | _, _ => len left - len right
  end.

Definition writeLengthPrefixedBytes (w : writer) (value : bytes) : result writer :=
  w ← Writer.writeUint32 w (len value);
  Writer.writeBytes w value.

(** The mathematical values of a finite number and of a constant compared. *)
Definition number_in (low high : Z) (value : number) : bool :=
  isInteger value && negb (isNegZero value)
  && (low <=? Z_of_number value) && (Z_of_number value <=? high).

Definition writeNumber (w : writer) (value : number) : result writer :=
  if isNaN value then
    w ← Writer.writeUint8 w ValueTag.Float64;
    Writer.writeBigUint64 w CANONICAL_NAN
  else if number_in MIN_INT32 MAX_INT32 value then
    w ← Writer.writeUint8 w ValueTag.Int32;
    Writer.writeInt32 w (Z_of_number value)
  else if isSafeInteger value && negb (isNegZero value) then
    w ← Writer.writeUint8 w ValueTag.Int64;
    Writer.writeBigInt64 w (Z_of_number value)
  else
    w ← Writer.writeUint8 w ValueTag.Float64;
    Writer.writeFloat64 w value.

Definition writeBigInt (w : writer) (value : Z) : result writer :=
  if (value <? MIN_INT64) || (MAX_INT64 <? value)
  then Throw (ProtocolError IntegerOutOfRange)
  else
    w ← Writer.writeUint8 w ValueTag.BigInt64;
    Writer.writeBigInt64 w value.

Definition writeDate (w : writer) (value : option Z) : result writer :=
  match value with
  | None => Throw (ProtocolError InvalidDate)
  | Some milliseconds =>
      w ← Writer.writeUint8 w ValueTag.DateTime;
      Writer.writeBigInt64 w milliseconds
  end.

(** [writeArray], the elements' own writing given. *)
Definition writeArray (w : writer) (items : list (writer → result writer))
    : result writer :=
  w ← Writer.writeUint8 w ValueTag.Array;
  w ← Writer.writeUint32 w (len items);
  foldM (λ writeItem w, writeItem w) items w.

(** [writeDocument], the fields with their encoded key and their value's own
    writing given: sorted by key bytes, counted, written in turn. *)
Definition writeDocument (w : writer) (fields : list (bytes * (writer → result writer)))
    : result writer :=
  let fields := sort_by (λ l r, compareBytes l.1 r.1) fields in
  w ← Writer.writeUint8 w ValueTag.Document;
  w ← Writer.writeUint32 w (len fields);
  foldM (λ field w,
    w ← writeLengthPrefixedBytes w field.1;
    field.2 w) fields w.

Fixpoint writeValue (value : DocumentValue) (depth : Z) (w : writer) : result writer :=
  if MAX_DOCUMENT_DEPTH <? depth then Throw (ProtocolError DocumentTooDeep)
  else match value with
  | VNull => Writer.writeUint8 w ValueTag.Null
  | VBool b => Writer.writeUint8 w (if b then ValueTag.True_ else ValueTag.False_)
  | VNumber n => writeNumber w n
  | VBigInt z => writeBigInt w z
  | VString s =>
      w ← Writer.writeUint8 w ValueTag.String;
      bs ← encodeString s;
      writeLengthPrefixedBytes w bs
  | VDate d => writeDate w d
  | VBinary bs =>
      w ← Writer.writeUint8 w ValueTag.Binary;
      writeLengthPrefixedBytes w bs
  | VId id =>
      w ← Writer.writeUint8 w ValueTag.CustomId;
      Writer.writeBytes w id
  | VArray l => writeArray w (map (λ item, writeValue item (depth + 1)) l)
  | VDoc fs =>
      fields ← mapM (λ kv : jsstring * DocumentValue, let (key, v) := kv in
                 encodedKey ← encodeString key;
                 Ok (encodedKey, writeValue v (depth + 1))) fs;
      writeDocument w fields
  end.

Definition encodeDocumentValue (value : DocumentValue) : result bytes :=
  w ← writeValue value 0 Writer.new;
  Ok (Writer.finish w).

Definition encodeDocument (document : Document) : result bytes :=
  encodeDocumentValue (VDoc document).

(** ** Decoder

    [decode] is the module's [TextDecoder]; [text_decode] is the one it
    creates. *)
Section Decoder.
Context (decode : bytes → option jsstring).

Definition readLengthPrefixedBytes (r : reader) : result (bytes * reader) :=
  '(length, r) ← Reader.readUint32 r;
  Reader.readBytes r length.

Definition readString (r : reader) : result (jsstring * reader) :=
  '(bs, r) ← readLengthPrefixedBytes r;
  match decode bs with
  | Some s => Ok (s, r)
  | None => Throw (ProtocolError InvalidUtf8)
  end.

Definition readInt64 (r : reader) : result (number * reader) :=
  '(value, r) ← Reader.readBigInt64 r;
  if (value <? - MAX_SAFE_INTEGER) || (MAX_SAFE_INTEGER <? value)
  then Throw (ProtocolError IntegerOutOfRange)
  else Ok (number_of_Z value, r).

(** [new Date(Number(milliseconds))]; an out-of-range time value is NaN. The
    rounding of [Number] cannot bring a value into range. *)
Definition readDate (r : reader) : result (option Z * reader) :=
  '(milliseconds, r) ← Reader.readBigInt64 r;
  match time_clip (Z_of_number (number_of_Z milliseconds)) with
  | Some ms => Ok (Some ms, r)
  | None => Throw (ProtocolError InvalidDate)
  end.

Definition readArray (readItem : reader → result (DocumentValue * reader)) (r : reader)
    : result (list DocumentValue * reader) :=
  '(length, r) ← Reader.readUint32 r;
  loopZ (λ '(value, r),
    '(item, r) ← readItem r;
    Ok (value ++ [item], r)) length ([], r).

Definition readDocument (readItem : reader → result (DocumentValue * reader)) (r : reader)
    : result (Document * reader) :=
  '(fieldCount, r) ← Reader.readUint32 r;
  loopZ (λ '(document, r),
    '(key, r) ← readString r;
    if obj_has document key then Throw (ProtocolError DuplicateDocumentKey)
    else
      '(value, r) ← readItem r;
      Ok (obj_set document key value, r)) fieldCount ([], r).

(** The switch of [readValue]; [readItem] reads a value one level deeper. *)
Definition readTagged (readItem : reader → result (DocumentValue * reader))
    (tag : Z) (r : reader) : result (DocumentValue * reader) :=
  if tag =? ValueTag.Null then Ok (VNull, r)
  else if tag =? ValueTag.False_ then Ok (VBool false, r)
  else if tag =? ValueTag.True_ then Ok (VBool true, r)
  else if tag =? ValueTag.Int32 then
    '(value, r) ← Reader.readInt32 r; Ok (VNumber (number_of_Z value), r)
  else if tag =? ValueTag.Int64 then
    '(value, r) ← readInt64 r; Ok (VNumber value, r)
  else if tag =? ValueTag.Float64 then
    '(value, r) ← Reader.readFloat64 r; Ok (VNumber value, r)
  else if tag =? ValueTag.BigInt64 then
    '(value, r) ← Reader.readBigInt64 r; Ok (VBigInt value, r)
  else if tag =? ValueTag.String then
    '(value, r) ← readString r; Ok (VString value, r)
  else if tag =? ValueTag.Binary then
    '(value, r) ← readLengthPrefixedBytes r; Ok (VBinary value, r)
  else if tag =? ValueTag.DateTime then
    '(value, r) ← readDate r; Ok (VDate value, r)
  else if tag =? ValueTag.CustomId then
    '(bs, r) ← Reader.readBytes r CUSTOM_ID_BYTE_LENGTH;
    id ← CustomId.fromBytes bs;
    Ok (VId id, r)
  else if tag =? ValueTag.Array then
    '(value, r) ← readArray readItem r; Ok (VArray value, r)
  else if tag =? ValueTag.Document then
    '(value, r) ← readDocument readItem r; Ok (VDoc value, r)
  else Throw (ProtocolError UnknownValueTag).

(** [levels] is [MAX_DOCUMENT_DEPTH + 1 - depth]. *)
Fixpoint readValue (levels : nat) (r : reader) : result (DocumentValue * reader) :=
  match levels with
  | O => Throw (ProtocolError DocumentTooDeep)
  | S levels =>
      '(tag, r) ← Reader.readUint8 r;
      readTagged (readValue levels) tag r
  end.

Definition decodeValueWith (payload : bytes) : result DocumentValue :=
  if MAX_PAYLOAD_SIZE <? len payload then Throw (ProtocolError PayloadTooLarge)
  else
    '(value, r) ← readValue (Z.to_nat (MAX_DOCUMENT_DEPTH + 1)) (Reader.new payload);
    if Reader.remaining r =? 0 then Ok value else Throw (ProtocolError TrailingData).
End Decoder.

Definition decodeDocumentValue (payload : bytes) : result DocumentValue :=
  decodeValueWith text_decode payload.

Definition decodeDocument (payload : bytes) : result Document :=
  value ← decodeDocumentValue payload;
  match value with
  | VDoc fields => Ok fields
  | _ => Throw (ProtocolError InvalidDocumentValue)
  end.

(** ** The format

    [enc]: the bytes of a value. [storable levels]: what the encoder checks
    besides the size, [levels] containers deep. *)
Definition enc_bytes (bs : bytes) : bytes := be 4 (len bs) ++ bs.

Definition enc_number (n : number) : bytes :=
  if isNaN n then ValueTag.Float64 :: be 8 CANONICAL_NAN
  else if number_in MIN_INT32 MAX_INT32 n then ValueTag.Int32 :: be 4 (Z_of_number n)
  else if isSafeInteger n && negb (isNegZero n) then ValueTag.Int64 :: be 8 (Z_of_number n)
  else ValueTag.Float64 :: be 8 (bits_of_number n).

Definition enc_fields (fs : list (jsstring * bytes)) : bytes :=
  flat_map (λ kv, enc_bytes (utf8_encode kv.1) ++ kv.2) (sort_by field_cmp fs).

Fixpoint enc (v : DocumentValue) : bytes :=
  match v with
  | VNull => [ValueTag.Null]
  | VBool b => [if b then ValueTag.True_ else ValueTag.False_]
  | VNumber n => enc_number n
  | VBigInt z => ValueTag.BigInt64 :: be 8 z
  | VString s => ValueTag.String :: enc_bytes (utf8_encode s)
  | VDate d => ValueTag.DateTime :: be 8 (default 0 d)
  | VBinary bs => ValueTag.Binary :: enc_bytes bs
  | VId bs => ValueTag.CustomId :: bs
  | VArray l => ValueTag.Array :: be 4 (len l) ++ flat_map enc l
  | VDoc fs =>
      ValueTag.Document :: be 4 (len fs)
      ++ enc_fields (map (λ kv : jsstring * DocumentValue, let (k, v) := kv in (k, enc v)) fs)
  end.

Fixpoint storable (levels : nat) (v : DocumentValue) : bool :=
  match levels with
  | O => false
  | S levels =>
      match v with
      | VBigInt z => (MIN_INT64 <=? z) && (z <=? MAX_INT64)
      | VString s => isWellFormed s
      | VDate None => false
      | VArray l => forallb (storable levels) l
      | VDoc fs =>
          forallb (λ kv : jsstring * DocumentValue, let (k, v) := kv in
            isWellFormed k && storable levels v) fs
      | _ => true
      end
  end.

(** The levels a top-level value has. *)
Definition top_levels : nat := Z.to_nat (MAX_DOCUMENT_DEPTH + 1).
Arguments top_levels : simpl never.

(** * The encoder writes the format *)

(** What the encoder may throw. *)
Definition encode_codes : list ProtocolErrorCode :=
  [PayloadTooLarge; InvalidDocumentValue; IntegerOutOfRange; InvalidDate; DocumentTooDeep].

(** [f] writes [bs] when [b] holds and otherwise ends in an error of the
    encoder. *)
Definition encodes (f : writer → result writer) (b : bool) (bs : bytes) : Prop :=
  ∃ o, writes f o ∧
    if b then o = (bs, None) else ∃ c, o.2 = Some (ProtocolError c) ∧ c ∈ encode_codes.

Lemma encodes_append bs : encodes (λ w, Writer.append w bs) true bs.
Proof. exists (bs, None). split; [apply append_writes|done]. Qed.

Lemma encodes_throw c bs :
  c ∈ encode_codes → encodes (λ _, Throw (ProtocolError c)) false bs.
Proof. intros Hc. eexists. split; [apply writes_throw|]. by exists c. Qed.

Lemma encodes_bind f g b1 b2 bs1 bs2 :
  encodes f b1 bs1 → encodes g b2 bs2 →
  encodes (λ w, f w ≫= g) (b1 && b2) (bs1 ++ bs2).
Proof.
  intros (o1 & H1 & E1) (o2 & H2 & E2). exists (out_app o1 o2).
  split; [by apply writes_bind|]. destruct b1; simpl.
  - rewrite E1. destruct b2; [by rewrite E2|]. destruct E2 as (c & Hc & ?).
    exists c. simpl. by rewrite Hc.
  - destruct E1 as (c & Hc & ?), o1 as [? [?|]]; [|done]. by exists c.
Qed.

Lemma encodes_foldM {A} (f : A → writer → result writer) (b : A → bool) (bs : A → bytes) l :
  Forall (λ x, encodes (f x) (b x) (bs x)) l →
  encodes (foldM f l) (forallb b l) (flat_map bs l).
Proof.
  induction 1 as [|x l Hx _ IH]; simpl.
  - exists ([], None). split; [apply writes_nil|done].
  - by apply encodes_bind.
Qed.

Lemma foldM_map {A B S} (f : B → S → result S) (g : A → B) l s :
  foldM f (map g l) s = foldM (λ x, f (g x)) l s.
Proof. revert s. induction l as [|x l IH]; intros s; simpl; [done|]. by apply bind_ext. Qed.

Lemma forallb_perm {A} (f : A → bool) l k : l ≡ₚ k → forallb f l = forallb f k.
Proof.
  induction 1 as [|x l k _ IH|x y l|l1 l2 l3 _ IH1 _ IH2]; simpl; [done|by rewrite IH| |by rewrite IH1].
  by rewrite !andb_assoc, (andb_comm (f y)).
Qed.

Lemma forallb_ext_in {A} (f g : A → bool) l :
  (∀ x, x ∈ l → f x = g x) → forallb f l = forallb g l.
Proof.
  induction l as [|x l IH]; intros H; simpl; [done|].
  rewrite H by left. f_equal. apply IH. intros y Hy. apply H. by right.
Qed.

Lemma compareBytes_sign a b : Z.sgn (compareBytes a b) = sign_of (lex_cmp a b).
Proof.
  revert b. induction a as [|x a IH]; intros [|y b]; cbn [compareBytes lex_cmp]; try done.
  destruct (Z.eqb_spec (x - y) 0) as [E|E], (Z.compare_spec x y); simpl; try lia. apply IH.
Qed.

Lemma compareBytes_key k1 k2 :
  compareBytes (utf8_encode k1) (utf8_encode k2) ≤ 0 ↔ key_cmp k1 k2 ≤ 0.
Proof.
  pose proof (compareBytes_sign (utf8_encode k1) (utf8_encode k2)) as H. unfold key_cmp.
  destruct (lex_cmp _ _); simpl in *; lia.
Qed.

Lemma encodes_length_prefixed bs :
  encodes (λ w, writeLengthPrefixedBytes w bs) true (enc_bytes bs).
Proof. apply (encodes_bind _ _ true true); apply encodes_append. Qed.

Lemma encodes_ext f g b bs : (∀ w, f w = g w) → encodes f b bs → encodes g b bs.
Proof. intros E (o & Ho & Hb). exists o. split; [by eapply writes_ext|done]. Qed.

(** A tag and then [bs]. *)
Lemma encodes_tag t f b bs :
  0 ≤ t < 256 → encodes f b bs →
  encodes (λ w, Writer.writeUint8 w t ≫= f) b (t :: bs).
Proof.
  intros Ht Hf. apply (encodes_bind _ _ true b [t]); [|done].
  assert ([t] = be 1 t) as -> by (simpl; by rewrite Z.mod_small). apply encodes_append.
Qed.

Lemma encodes_uint8 t : 0 ≤ t < 256 → encodes (λ w, Writer.writeUint8 w t) true [t].
Proof.
  intros Ht. assert ([t] = be 1 t) as -> by (simpl; by rewrite Z.mod_small).
  apply encodes_append.
Qed.

Lemma encodes_number n : encodes (λ w, writeNumber w n) true (enc_number n).
Proof.
  unfold writeNumber, enc_number.
  repeat case_match; (apply encodes_tag; [done|apply encodes_append]).
Qed.

Lemma encodes_bigint z :
  encodes (λ w, writeBigInt w z) ((MIN_INT64 <=? z) && (z <=? MAX_INT64))
    (ValueTag.BigInt64 :: be 8 z).
Proof.
  unfold writeBigInt.
  destruct (Z.ltb_spec z MIN_INT64), (Z.leb_spec MIN_INT64 z),
    (Z.ltb_spec MAX_INT64 z), (Z.leb_spec z MAX_INT64); try lia; simpl;
    (apply encodes_throw; set_solver) || (apply encodes_tag; [done|apply encodes_append]).
Qed.

Lemma encodes_date d :
  encodes (λ w, writeDate w d) (if d is None then false else true)
    (ValueTag.DateTime :: be 8 (default 0 d)).
Proof.
  destruct d; simpl; [|apply encodes_throw; set_solver].
  apply encodes_tag; [done|apply encodes_append].
Qed.

Lemma encodes_string s :
  encodes (λ w, bs ← encodeString s; writeLengthPrefixedBytes w bs)
    (isWellFormed s) (enc_bytes (utf8_encode s)).
Proof.
  unfold encodeString. destruct (isWellFormed s); simpl; [apply encodes_length_prefixed|].
  apply encodes_throw. set_solver.
Qed.

(** The fields of a document once their keys are encoded. *)
Lemma encodes_document (f : DocumentValue → writer → result writer) b e (fs : Document) :
  Forall (λ kv, encodes (f kv.2) (b kv.2) (e kv.2)) fs →
  encodes (λ w, writeDocument w (map (λ kv, (utf8_encode kv.1, f kv.2)) fs))
    (forallb (λ kv, b kv.2) fs)
    (ValueTag.Document :: be 4 (len fs) ++ enc_fields (map (λ kv, (kv.1, e kv.2)) fs)).
Proof.
  intros Hf. unfold writeDocument, enc_fields.
  rewrite (sort_by_map (λ kv : jsstring * DocumentValue, (utf8_encode kv.1, f kv.2)) field_cmp)
    by (intros x y; apply compareBytes_key).
  rewrite (sort_by_map (λ kv : jsstring * DocumentValue, (kv.1, e kv.2)) field_cmp)
    by done.
  rewrite <- (forallb_perm _ _ _ (sort_by_perm field_cmp fs)).
  apply encodes_tag; [done|]. apply (encodes_bind _ _ true _).
  { unfold len. rewrite length_map, (Permutation_length (sort_by_perm field_cmp fs)).
    apply encodes_append. }
  rewrite flat_map_comp.
  eapply encodes_ext; [intros w; symmetry; apply foldM_map|].
  apply encodes_foldM. rewrite sort_by_perm. eapply Forall_impl; [done|].
  intros [k v] Hv. apply (encodes_bind _ _ true); [apply encodes_length_prefixed | done].
Qed.

Lemma encode_keys (f : DocumentValue → writer → result writer) (fs : Document) :
  mapM (λ kv : jsstring * DocumentValue, let (key, v) := kv in
    encodedKey ← encodeString key; Ok (encodedKey, f v)) fs
  = if forallb (λ kv, isWellFormed kv.1) fs
    then Ok (map (λ kv, (utf8_encode kv.1, f kv.2)) fs)
    else Throw (ProtocolError InvalidDocumentValue).
Proof.
  induction fs as [|[k v] fs IH]; [done|]. cbn [mapM forallb map fst snd].
  rewrite IH. assert (encodeString k = if isWellFormed k then Ok (utf8_encode k)
    else Throw (ProtocolError InvalidDocumentValue)) as -> by done.
  destruct (isWellFormed k); simpl; [|done]. by destruct (forallb _ fs).
Qed.

Lemma encodes_value v depth :
  0 ≤ depth →
  encodes (writeValue v depth)
    (storable (Z.to_nat (MAX_DOCUMENT_DEPTH + 1 - depth)) v) (enc v).
Proof.
  revert depth. induction v as [| b | n | z | s | d | bs | bs | l IH | fs IH]
    using value_ind'; intros depth Hd;
    (eapply encodes_ext; [intros w; unfold writeValue; fold writeValue; reflexivity|]);
    unfold MAX_DOCUMENT_DEPTH in *;
    (destruct (Z.ltb_spec 100 depth);
      [replace (Z.to_nat (100 + 1 - depth)) with O by lia; apply encodes_throw; set_solver|]);
    (destruct (Z.to_nat (100 + 1 - depth)) as [|levels] eqn:El; [lia|]);
    cbn [storable].
  - by apply encodes_uint8.
  - by apply encodes_uint8; destruct b.
  - apply encodes_number.
  - apply encodes_bigint.
  - apply encodes_tag; [done|apply encodes_string].
  - eapply encodes_ext; [done|]. apply encodes_date.
  - apply encodes_tag; [done|apply encodes_length_prefixed].
  - apply encodes_tag; [done|apply encodes_append].
  - unfold writeArray. apply encodes_tag; [done|]. apply (encodes_bind _ _ true).
    + unfold len. rewrite length_map. apply encodes_append.
    + eapply encodes_ext; [intros w; symmetry; apply foldM_map|].
      apply encodes_foldM. eapply Forall_impl; [done|]. intros v Hv.
      replace levels with (Z.to_nat (100 + 1 - (depth + 1))) by lia. apply Hv. lia.
  - eapply encodes_ext; [intros w; rewrite (encode_keys (λ v, writeValue v (depth + 1))); done|].
    assert (forallb (λ kv : jsstring * DocumentValue, let (k, v) := kv in
      isWellFormed k && storable levels v) fs =
      forallb (λ kv, isWellFormed kv.1) fs && forallb (λ kv, storable levels kv.2) fs) as ->.
    { clear. induction fs as [|[k v] fs IH]; [done|]. simpl. rewrite IH.
      by destruct (isWellFormed k), (storable levels v); rewrite ?andb_false_r. }
    assert (enc (VDoc fs) = ValueTag.Document :: be 4 (len fs)
      ++ enc_fields (map (λ kv, (kv.1, enc kv.2)) fs)) as ->.
    { cbn [enc]. do 3 f_equal. apply map_ext. by intros [k v]. }
    destruct (forallb (λ kv, isWellFormed kv.1) fs); cbn [andb];
      [|by apply (encodes_throw InvalidDocumentValue); set_solver].
    cbn [mbind res_bind].
    apply (encodes_document (λ v, writeValue v (depth + 1)) (storable levels) enc fs).
    eapply Forall_impl; [done|]. intros [k v] Hv.
    replace levels with (Z.to_nat (100 + 1 - (depth + 1))) by lia. apply Hv. lia.
Qed.

Lemma encode_outcome v :
  match encodeDocumentValue v with
  | Ok bs => storable top_levels v = true ∧ bs = enc v ∧ len bs ≤ MAX_PAYLOAD_SIZE
  | Throw e =>
      (storable top_levels v = true → e = ProtocolError PayloadTooLarge ∧
         MAX_PAYLOAD_SIZE < len (enc v)) ∧
      ∃ c, e = ProtocolError c ∧ c ∈ encode_codes
  end.
Proof.
  unfold encodeDocumentValue. destruct (encodes_value v 0) as (o & Ho & Hb); [lia|].
  specialize (Ho Writer.new new_wf). unfold emit in Ho.
  change (len (Writer.finish Writer.new)) with 0 in Ho. rewrite Z.add_0_l in Ho.
  change (Z.to_nat (MAX_DOCUMENT_DEPTH + 1 - 0)) with top_levels in Hb.
  destruct (Z.ltb_spec MAX_PAYLOAD_SIZE (len o.1)).
  - rewrite Ho. cbn [mbind res_bind].
    split; [|exists PayloadTooLarge; split; [done|left]].
    intros Hst. rewrite Hst in Hb. by subst o.
  - destruct (storable top_levels v).
    + subst o. cbn [snd fst] in Ho. destruct Ho as (w' & -> & _ & Hf).
      cbn [mbind res_bind]. by rewrite Hf.
    + destruct Hb as (c & Hc & ?). rewrite Hc in Ho. rewrite Ho. cbn [mbind res_bind].
      split; [done|]. by exists c.
Qed.

Lemma encode_Ok v bs :
  encodeDocumentValue v = Ok bs →
  storable top_levels v = true ∧ bs = enc v ∧ len bs ≤ MAX_PAYLOAD_SIZE.
Proof. intros E. pose proof (encode_outcome v) as H. by rewrite E in H. Qed.

Lemma encode_fits v :
  storable top_levels v = true → len (enc v) ≤ MAX_PAYLOAD_SIZE →
  encodeDocumentValue v = Ok (enc v).
Proof.
  intros Hs Hl. pose proof (encode_outcome v) as H. destruct (encodeDocumentValue v) as [bs|e].
  - by destruct H as (_ & -> & _).
  - destruct (proj1 H Hs) as [_ ?]. lia.
Qed.

(** ** Properties *)

(** C33: what [encodeDocumentValue] returns, for every value: the bytes of the
    format exactly when the value is storable and fits in a payload, and an
    encoder error otherwise; never another exception. *)
Theorem encode_spec (v : DocumentValue) :
  match encodeDocumentValue v with
  | Ok bs => storable top_levels v = true ∧ bs = enc v ∧ len bs ≤ MAX_PAYLOAD_SIZE
  | Throw e =>
      (storable top_levels v = true → e = ProtocolError PayloadTooLarge ∧
         MAX_PAYLOAD_SIZE < len (enc v)) ∧
      ∃ c, e = ProtocolError c ∧ c ∈ encode_codes
  end.
Proof. apply encode_outcome. Qed.
