(* ===== verification/Decoded.v ===== *)
(** * What the decoder accepts

    Everything [decodeDocumentValue] returns is a well-formed value within the
    depth limit, no larger than the bytes it was read from, that the encoder
    accepts again; everything it throws is one of the protocol errors of the
    decoder. The other language errors that the code could raise (the
    [TypeError] of [CustomId.fromBytes]) are unreachable. *)

From S2P Require Import Prelude Errors JsNumber JsString JsValue Binary CustomId Codec Roundtrip.

Definition decode_codes : list ProtocolErrorCode :=
  [PayloadTooLarge; UnexpectedEnd; UnknownValueTag; InvalidUtf8; IntegerOutOfRange;
   InvalidDate; DocumentTooDeep; DuplicateDocumentKey; TrailingData].

Definition decode_error (e : exn) : Prop := ∃ c, e = ProtocolError c ∧ c ∈ decode_codes.

(** [f] reads some [n] bytes as a value that satisfies [P] of it and [n], or ends
    in a decoder error. *)
Definition parses {A} (f : reader → result (A * reader)) (P : A → Z → Prop) : Prop :=
  ∀ r, wf_reader r →
    match f r with
    | Ok (a, r') =>
        wf_reader r' ∧ ∃ n, 0 ≤ n ∧ len (rest r) = n + len (rest r') ∧ P a n
    | Throw e => decode_error e
    end.

Lemma parses_bind {A B} (f : reader → result (A * reader)) (g : A → reader → result (B * reader)) P Q :
  parses f P → (∀ a n, 0 ≤ n → P a n → parses (g a) (λ b m, Q b (n + m))) →
  parses (λ r, '(a, r) ← f r; g a r) Q.
Proof.
  intros Hf Hg r Hr. specialize (Hf r Hr). destruct (f r) as [[a r1]|e]; [|done].
  destruct Hf as (Hr1 & n & Hn & El & HP). cbn [mbind res_bind].
  specialize (Hg a n Hn HP r1 Hr1). destruct (g a r1) as [[b r2]|e]; [|done].
  destruct Hg as (Hr2 & m & Hm & El2 & HQ). split; [done|]. exists (n + m).
  split_and!; [lia|lia|done].
Qed.

Lemma parses_ok {A} (a : A) (P : A → Z → Prop) : P a 0 → parses (λ r, Ok (a, r)) P.
Proof. intros HP r Hr. split; [done|]. exists 0. split_and!; [lia|lia|done]. Qed.

Lemma parses_throw {A} c (P : A → Z → Prop) :
  c ∈ decode_codes → parses (λ _, Throw (ProtocolError c)) P.
Proof. intros Hc r Hr. by exists c. Qed.

Lemma parses_impl {A} (f : reader → result (A * reader)) (P Q : A → Z → Prop) :
  parses f P → (∀ a n, 0 ≤ n → P a n → Q a n) → parses f Q.
Proof.
  intros Hf H r Hr. specialize (Hf r Hr). destruct (f r) as [[a r1]|e]; [|done].
  destruct Hf as (? & n & ? & ? & ?). split; [done|]. exists n. eauto.
Qed.

(** An invariant of the loop's state and of the bytes read so far. *)
Lemma parses_loop {S} (body : S * reader → result (S * reader)) (I : S → Z → Prop) k s n :
  (∀ s n, 0 ≤ n → I s n → parses (λ r, body (s, r)) (λ s' m, I s' (n + m))) →
  0 ≤ n → I s n → parses (λ r, loopZ body k (s, r)) (λ s' m, I s' (n + m)).
Proof.
  intros Hb Hn Hs r Hr. rewrite loopZ_nat. revert s n r Hn Hs Hr.
  induction (Z.to_nat k) as [|j IH]; intros s n r Hn Hs Hr; cbn [loop_nat].
  { split; [done|]. exists 0. rewrite Z.add_0_r. split_and!; [lia|lia|done]. }
  specialize (Hb s n Hn Hs r Hr). destruct (body (s, r)) as [[s1 r1]|e]; [|done].
  destruct Hb as (Hr1 & m & Hm & El & HI). cbn [mbind res_bind].
  specialize (IH s1 (n + m) r1 ltac:(lia) HI Hr1).
  destruct (loop_nat body j (s1, r1)) as [[s2 r2]|e]; [|done].
  destruct IH as (Hr2 & m2 & Hm2 & El2 & HI2). split; [done|]. exists (m + m2).
  rewrite Z.add_assoc. split_and!; [lia|lia|done].
Qed.

Lemma len_flat_map_perm {A} (f : A → bytes) l k :
  l ≡ₚ k → len (flat_map f l) = len (flat_map f k).
Proof. intros Hp. unfold len. f_equal. by apply Permutation_length, Permutation_flat_map. Qed.

(** ** The reader's operations *)
Lemma parses_consume k :
  0 ≤ k → parses (λ r, Reader.consume r k) (λ b n, n = k ∧ len b = k ∧ Forall is_byte b).
Proof.
  intros Hk r Hr. destruct (Reader.consume r k) as [[b r1]|e] eqn:E.
  - apply consume_Ok in E as (Hr1 & E & Hl & Hb); [|done..]. split; [done|].
    exists k. rewrite E, len_app, Hl. done.
  - apply consume_Throw in E as ->; [|done..]. exists UnexpectedEnd. split; [done|].
    by apply list_elem_of_In; simpl; auto.
Qed.

Lemma parses_view {A} k (h : bytes → A) (P : A → Z → Prop) :
  0 ≤ k → (∀ b, len b = k → Forall is_byte b → P (h b) k) →
  parses (λ r, '(b, r) ← Reader.consume r k; Ok (h b, r)) P.
Proof.
  intros Hk HP. eapply (parses_bind _ (λ b r, Ok (h b, r))); [by apply parses_consume|].
  intros b n _ (-> & Hl & Hb). apply parses_ok. rewrite Z.add_0_r. by apply HP.
Qed.

Lemma parses_uint8 : parses Reader.readUint8 (λ z n, n = 1).
Proof. by apply (parses_view 1 from_be). Qed.

Lemma parses_uint32 : parses Reader.readUint32 (λ z n, n = 4 ∧ 0 ≤ z).
Proof.
  apply (parses_view 4 from_be); [lia|]. intros b Hl Hb. split; [done|]. by apply from_be_range.
Qed.

Lemma parses_int32 : parses Reader.readInt32 (λ z n, n = 4 ∧ MIN_INT32 ≤ z ≤ MAX_INT32).
Proof.
  apply (parses_view 4 (λ b, to_signed 32 (from_be b))); [lia|]. intros b Hl Hb.
  apply from_be_range in Hb. rewrite Hl in Hb. apply (to_signed_spec 32) in Hb; [|lia].
  unfold MIN_INT32, MAX_INT32. lia.
Qed.

Lemma parses_int64 : parses Reader.readBigInt64 (λ z n, n = 8 ∧ MIN_INT64 ≤ z ≤ MAX_INT64).
Proof.
  apply (parses_view 8 (λ b, to_signed 64 (from_be b))); [lia|]. intros b Hl Hb.
  apply from_be_range in Hb. rewrite Hl in Hb. apply (to_signed_spec 64) in Hb; [|lia].
  unfold MIN_INT64, MAX_INT64. lia.
Qed.

Lemma parses_float64 : parses Reader.readFloat64 (λ x n, n = 8 ∧ valid_number x).
Proof.
  apply (parses_view 8 (λ b, number_of_bits (from_be b))); [lia|]. intros b Hl Hb.
  apply from_be_range in Hb. rewrite Hl in Hb. split; [done|]. by apply number_of_bits_valid.
Qed.

Lemma parses_length_prefixed :
  parses readLengthPrefixedBytes (λ b n, n = 4 + len b ∧ Forall is_byte b).
Proof.
  unfold readLengthPrefixedBytes. eapply parses_bind; [apply parses_uint32|].
  intros z n Hn [-> Hz]. eapply parses_impl; [by apply parses_consume|].
  cbn beta. intros b m _ (-> & -> & Hb). done.
Qed.

(** Lengths of the format. *)
Lemma len_enc_bytes bs : len (enc_bytes bs) = 4 + len bs.
Proof. unfold enc_bytes. by rewrite len_app, be_len. Qed.

Lemma enc_number_len n : len (enc_number n) ≤ 9.
Proof. unfold enc_number. repeat case_match; rewrite len_cons, be_len; lia. Qed.

Lemma enc_int32_len z :
  MIN_INT32 ≤ z ≤ MAX_INT32 → len (enc_number (number_of_Z z)) = 5.
Proof.
  unfold MIN_INT32, MAX_INT32. intros Hz. unfold enc_number.
  assert (isInteger (number_of_Z z) = true) as Hi by (apply number_of_Z_is_integer; lia).
  assert (isNaN (number_of_Z z) = false) as -> by (by destruct (number_of_Z z)).
  assert (number_in MIN_INT32 MAX_INT32 (number_of_Z z) = true) as ->.
  { unfold number_in, MIN_INT32, MAX_INT32. rewrite Hi, number_of_Z_zero_iff, Z_of_number_of_Z by lia.
    by ztest. }
  by rewrite len_cons, be_len.
Qed.

(** ** Values *)

(** What holds of a value read [levels] deep from [n] bytes. *)
Definition accepted (levels : nat) (v : DocumentValue) (n : Z) : Prop :=
  wf_value v = true ∧ storable levels v = true ∧ len (enc v) ≤ n.

Section Parse.
Context (decode : bytes → option jsstring).
Context (Hdecode : ∀ bs s, Forall is_byte bs → decode bs = Some s →
                     wf_string s ∧ len (utf8_encode s) ≤ len bs).

Lemma parses_string :
  parses (readString decode) (λ s n, wf_string s ∧ 4 + len (utf8_encode s) ≤ n).
Proof.
  unfold readString. eapply parses_bind; [apply parses_length_prefixed|].
  intros b n Hn [-> Hb]. destruct (decode b) as [s|] eqn:E.
  - apply parses_ok. apply Hdecode in E as [? ?]; [|done]. split; [done|lia].
  - apply parses_throw. set_solver.
Qed.

Lemma parses_readInt64 :
  parses readInt64 (λ x n, n = 8 ∧ valid_number x).
Proof.
  unfold readInt64. eapply parses_bind; [apply parses_int64|]. intros z n Hn [-> Hz].
  case_match; [apply parses_throw; set_solver|]. apply parses_ok.
  split; [done|apply number_of_Z_valid].
Qed.

Lemma parses_date :
  parses readDate (λ d n, n = 8 ∧ ∃ ms, d = Some ms ∧ Z.abs ms ≤ MAX_TIME).
Proof.
  unfold readDate. eapply parses_bind; [apply parses_int64|]. intros z n Hn [-> Hz].
  unfold time_clip. set (x := Z_of_number (number_of_Z z)). clearbody x.
  destruct (Z.leb_spec (Z.abs x) MAX_TIME); [|apply parses_throw; set_solver].
  apply parses_ok. split; [done|]. by exists x.
Qed.

Lemma parses_array readItem levels :
  parses readItem (accepted levels) →
  parses (readArray readItem)
    (λ l n, Forall (λ v, wf_value v = true ∧ storable levels v = true) l ∧
            4 + len (flat_map enc l) ≤ n).
Proof.
  intros Hi. unfold readArray. eapply parses_bind; [apply parses_uint32|].
  intros z n Hn [-> _].
  apply (parses_loop _ (λ l n, Forall (λ v, wf_value v = true ∧ storable levels v = true) l ∧
            4 + len (flat_map enc l) ≤ n) z [] 4); [|done|by split].
  intros l n Hn' [Hl Hs]. eapply parses_bind; [exact Hi|]. intros v m Hm (Hw & Hst & He).
  apply parses_ok. split; [by apply Forall_app; split; [|repeat constructor]|].
  rewrite flat_map_app, len_app. simpl. rewrite app_nil_r. lia.
Qed.

Definition fields_ok (levels : nat) (fs : Document) (n : Z) : Prop :=
  Forall (λ kv, wf_string kv.1 ∧ wf_value kv.2 = true ∧ storable levels kv.2 = true) fs ∧
  NoDup (omap_keys fs) ∧ 4 + len (flat_map (enc_field enc) fs) ≤ n.

Lemma fields_ok_set levels fs n k v m :
  fields_ok levels fs n → obj_get fs k = None → wf_string k → wf_value v = true →
  storable levels v = true → 4 + len (utf8_encode k) + len (enc v) ≤ m →
  fields_ok levels (obj_set fs k v) (n + m).
Proof.
  intros (Hf & Hd & Hl) Hk Hwk Hw Hs Hm. pose proof (obj_set_new_perm fs k v Hk) as Hp.
  split_and!.
  - rewrite Hp. by constructor.
  - by apply obj_set_NoDup.
  - rewrite (len_flat_map_perm _ _ _ Hp). cbn [flat_map]. rewrite len_app, len_enc_field.
    simpl. lia.
Qed.

Lemma parses_document readItem levels :
  parses readItem (accepted levels) →
  parses (readDocument decode readItem) (fields_ok levels).
Proof.
  intros Hi. unfold readDocument. eapply parses_bind; [apply parses_uint32|].
  intros z n Hn [-> _]. apply (parses_loop _ (fields_ok levels) z [] 4).
  - intros fs n Hn' Hfs. eapply parses_bind; [apply parses_string|].
    intros k m Hm [Hk Hkl]. unfold omap_has. destruct (obj_get fs k) eqn:Eg.
    { apply parses_throw. set_solver. }
    eapply parses_bind; [exact Hi|]. intros v m' Hm' (Hw & Hs & He). apply parses_ok.
    rewrite Z.add_0_r, Z.add_assoc. replace (n + m + m') with (n + (m + m')) by lia.
    apply fields_ok_set; try done. lia.
  - lia.
  - by split_and!; [constructor|constructor|].
Qed.

Lemma fields_ok_accepted levels fs n :
  fields_ok levels fs n → accepted (S levels) (VDoc fs) (1 + n).
Proof.
  intros (Hf & Hd & Hl). split_and!.
  - apply wf_doc. split; [|done]. eapply Forall_impl; [exact Hf|].
    intros kv ([Hu _] & Hw & _). done.
  - cbn [storable]. apply (forallb_Forall_iff _
      (λ kv, isWellFormed kv.1 = true ∧ storable levels kv.2 = true));
      [intros [k v]; by rewrite andb_true_iff|].
    eapply Forall_impl; [exact Hf|]. intros kv ([_ ?] & _ & ?). done.
  - rewrite enc_doc, len_cons, len_app, be_len.
    rewrite (len_flat_map_perm _ _ _ (sort_by_perm field_cmp fs)). lia.
Qed.

(** The tag's own byte. *)
Lemma parses_tag {A} (g : Z → reader → result (A * reader)) P :
  (∀ t, parses (g t) (λ a n, P a (1 + n))) →
  parses (λ r, '(tag, r) ← Reader.readUint8 r; g tag r) P.
Proof.
  intros Hg. eapply parses_bind; [apply parses_uint8|]. intros t n _ ->. apply Hg.
Qed.

Lemma parses_map {A B} (f : reader → result (A * reader)) (h : A → B) P Q :
  parses f P → (∀ a n, 0 ≤ n → P a n → Q (h a) n) →
  parses (λ r, '(a, r) ← f r; Ok (h a, r)) Q.
Proof.
  intros Hf H. eapply (parses_bind _ (λ a r, Ok (h a, r))); [exact Hf|].
  intros a n Hn HP. apply parses_ok. rewrite Z.add_0_r. auto.
Qed.

Lemma parses_custom_id levels :
  parses (λ r, '(bs, r) ← Reader.readBytes r CUSTOM_ID_BYTE_LENGTH;
               id ← CustomId.fromBytes bs; Ok (VId id, r))
    (λ v n, accepted (S levels) v (1 + n)).
Proof.
  eapply parses_bind; [by apply parses_consume|]. intros b n _ (-> & Hl & Hb).
  unfold CustomId.fromBytes. rewrite Hl. cbn [Z.eqb Pos.eqb guard_throw mbind res_bind
    CUSTOM_ID_BYTE_LENGTH]. apply parses_ok. split_and!.
  - cbn [wf_value]. rewrite Hl. apply andb_true_iff. split; [by apply bytes_wf|done].
  - done.
  - cbn [enc]. rewrite len_cons, Hl. unfold CUSTOM_ID_BYTE_LENGTH. lia.
Qed.

Lemma parses_tagged readItem levels tag :
  parses readItem (accepted levels) →
  parses (readTagged decode readItem tag) (λ v n, accepted (S levels) v (1 + n)).
Proof.
  intros Hi. unfold readTagged. unfold accepted.
  do 3 (case_match; [by apply parses_ok|]).
  case_match.
  { eapply parses_map; [apply parses_int32|]. intros z n _ [-> Hz]. split_and!; [|done|].
    - apply number_of_Z_valid.
    - cbn [enc]. rewrite enc_int32_len by done. lia. }
  case_match.
  { eapply parses_map; [apply parses_readInt64|]. intros x n _ [-> Hx]. split_and!; [done..|].
    cbn [enc]. pose proof (enc_number_len x). lia. }
  case_match.
  { eapply parses_map; [apply parses_float64|]. intros x n _ [-> Hx]. split_and!; [done..|].
    cbn [enc]. pose proof (enc_number_len x). lia. }
  case_match.
  { eapply parses_map; [apply parses_int64|]. intros z n _ [-> Hz]. split_and!; [done| |].
    - cbn [storable]. rewrite andb_true_iff, !Z.leb_le. done.
    - cbn [enc]. rewrite len_cons, be_len. lia. }
  case_match.
  { eapply parses_map; [apply parses_string|]. intros s n _ [[Hu Hw] Hn]. split_and!.
    - by apply units_wf.
    - done.
    - cbn [enc]. rewrite len_cons, len_enc_bytes. lia. }
  case_match.
  { eapply parses_map; [apply parses_length_prefixed|]. intros b n _ [-> Hb]. split_and!.
    - by apply bytes_wf.
    - done.
    - cbn [enc]. rewrite len_cons, len_enc_bytes. lia. }
  case_match.
  { eapply parses_map; [apply parses_date|]. intros d n _ (-> & ms & -> & Hms). split_and!.
    - cbn [wf_value]. by apply Z.leb_le.
    - done.
    - cbn [enc]. rewrite len_cons, be_len. lia. }
  case_match; [apply parses_custom_id|].
  case_match.
  { eapply parses_map; [by apply parses_array|]. intros l n _ [Hl Hn]. split_and!.
    - apply wf_array. eapply Forall_impl; [exact Hl|]. by intros v [? ?].
    - cbn [storable]. apply (forallb_Forall_iff _ (λ v, storable levels v = true)); [done|].
      eapply Forall_impl; [exact Hl|]. by intros v [? ?].
    - cbn [enc]. rewrite len_cons, len_app, be_len. lia. }
  case_match.
  { eapply parses_map; [by apply parses_document|]. intros fs n _ Hfs.
    by apply fields_ok_accepted. }
  apply parses_throw. set_solver.
Qed.

Lemma parses_value levels : parses (readValue decode levels) (accepted levels).
Proof.
  induction levels as [|levels IH].
  - apply parses_throw. set_solver.
  - apply parses_tag. intros t. by apply parses_tagged.
Qed.
End Parse.

Lemma decode_outcome (bs : bytes) :
  Forall is_byte bs →
  match decodeDocumentValue bs with
  | Ok v => wf_value v = true ∧
            ∃ bs', encodeDocumentValue v = Ok bs' ∧ len bs' ≤ len bs
  | Throw e => decode_error e
  end.
Proof.
  intros Hb. unfold decodeDocumentValue, decodeValueWith.
  destruct (Z.ltb_spec MAX_PAYLOAD_SIZE (len bs)).
  { exists PayloadTooLarge. split; [done|left]. }
  assert (wf_reader (Reader.new bs)) as Hr.
  { split; [|done]. simpl. pose proof (len_nonneg bs). lia. }
  pose proof (parses_value text_decode (λ bs s Hb H, conj (text_decode_wf bs s H)
    (text_decode_len bs s Hb H)) top_levels _ Hr) as Hp.
  change (Z.to_nat (MAX_DOCUMENT_DEPTH + 1)) with top_levels.
  destruct (readValue text_decode top_levels (Reader.new bs)) as [[v r]|e]; [|exact Hp].
  destruct Hp as (Hr' & n & Hn & El & Hw & Hs & He). cbn [mbind res_bind].
  destruct (Reader.remaining r =? 0); [|exists TrailingData; split; [done|]; do 8 right; left].
  split; [done|]. rewrite rest_new in El. pose proof (len_nonneg (rest r)).
  exists (enc v). split; [by apply encode_fits; [|lia]|lia].
Qed.

(** ** Properties *)

(** C34: whatever bytes it is given, the decoder returns a well-formed value that
    the encoder accepts, in no more bytes, or throws one of its protocol
    errors. *)
Theorem decode_total (bs : bytes) :
  Forall is_byte bs →
  match decodeDocumentValue bs with
  | Ok v => wf_value v = true ∧
            ∃ bs', encodeDocumentValue v = Ok bs' ∧ len bs' ≤ len bs
  | Throw e => decode_error e
  end.
Proof. apply decode_outcome. Qed.

Lemma decode_total_witness :
  match decodeDocumentValue [11; 0; 0; 0; 1; 0; 0; 0; 1; 97; 3; 255; 255; 255; 255] with
  | Ok v => wf_value v = true ∧
            ∃ bs', encodeDocumentValue v = Ok bs' ∧ len bs' ≤ 15
  | Throw e => decode_error e
  end.
Proof.
  apply (decode_total [11; 0; 0; 0; 1; 0; 0; 0; 1; 97; 3; 255; 255; 255; 255]).
  apply bytes_wf. reflexivity.
Defined.
