(* ===== verification/Frame.v ===== *)
(** * Frames

    packages/protocol/src/frame.ts: the fixed header and the payload of a frame,
    and packages/protocol/src/request-id.ts. The numbers an [encodeFrame] input
    carries are arbitrary JavaScript numbers; the fields of a decoded frame are
    unsigned integers. *)

From S2P Require Import Prelude Errors JsNumber JsString JsValue Binary.

(** packages/protocol/src/constants.ts *)
Definition PROTOCOL_MAGIC : bytes := [0x53; 0x4e; 0x54; 0x52].
Definition PROTOCOL_VERSION : Z := 1.
Definition FRAME_HEADER_SIZE : Z := 16.
Definition MIN_REQUEST_ID : Z := 1.
Definition MAX_REQUEST_ID : Z := 0xffffffff.

Module MessageKind.
Definition Handshake : Z := 0x01.
Definition Ping : Z := 0x02.
Definition Command : Z := 0x03.
Definition Result : Z := 0x04.
Definition StreamItem : Z := 0x05.
Definition StreamEnd : Z := 0x06.
Definition Error : Z := 0x07.
(** [Object.values(MessageKind)]. *)
Definition values : list Z :=
  [Handshake; Ping; Command; Result; StreamItem; StreamEnd; Error].
End MessageKind.

Module FrameFlag.
Definition None_ : Z := 0.
Definition More : Z := Z.shiftl 1 0.
End FrameFlag.

Definition SUPPORTED_FRAME_FLAGS : Z := FrameFlag.More.

Module FrameOffset.
Definition Magic : nat := 0.
Definition Version : nat := 4.
Definition Kind : nat := 6.
Definition Flags : nat := 7.
Definition RequestId : nat := 8.
Definition PayloadLength : nat := 12.
End FrameOffset.

Module Frame.
Record Frame := {
  version : Z;
  kind : Z;
  flags : Z;
  requestId : Z;
  payload : bytes;
}.

Record FrameInput := {
  in_kind : number;
  in_requestId : number;
  in_payload : bytes;
  in_flags : option number;
}.

Record FrameHeader := {
  h_version : Z;
  h_kind : Z;
  h_flags : Z;
  h_requestId : Z;
  h_payloadLength : Z;
}.

Definition validateMagic (data : bytes) : result () :=
  guard_throw
    (forallb (λ '(index, expected), bool_decide (data !! (FrameOffset.Magic + index)%nat = Some expected))
       (imap pair PROTOCOL_MAGIC))
    (ProtocolError InvalidMagic).

(** An integral number between [low] and [high]. *)
Definition int_between (low high : Z) (value : number) : bool :=
  isInteger value && (low <=? Z_of_number value) && (Z_of_number value <=? high).

Definition validateMessageKind (value : number) : result () :=
  guard_throw
    (existsb (λ kind, isInteger value && (Z_of_number value =? kind)) MessageKind.values)
    (ProtocolError InvalidMessageKind).

Definition validateFlags (flags : number) : result () :=
  guard_throw
    (int_between 0 0xff flags
     && (Z.land (Z_of_number flags) (Z.lnot SUPPORTED_FRAME_FLAGS) =? 0))
    (ProtocolError InvalidFlags).

Definition validateRequestId (requestId : number) : result () :=
  guard_throw (int_between 0 MAX_REQUEST_ID requestId) (ProtocolError InvalidRequestId).

Definition validatePayload (payload : bytes) : result () :=
  guard_throw (len payload <=? MAX_PAYLOAD_SIZE) (ProtocolError PayloadTooLarge).

(** [view.setUint8], [setUint16], [setUint32] and [frame.set] at an offset. *)
Definition set_at (frame : bytes) (offset : nat) (value : bytes) : bytes :=
  Writer.set_bytes frame value (Z.of_nat offset).

Definition encodeFrame (input : FrameInput) : result bytes :=
  _ ← validateMessageKind (in_kind input);
  _ ← validateRequestId (in_requestId input);
  let flags := default (number_of_Z FrameFlag.None_) (in_flags input) in
  _ ← validateFlags flags;
  _ ← validatePayload (in_payload input);
  let frame := Writer.zeros (FRAME_HEADER_SIZE + len (in_payload input)) in
  let frame := set_at frame FrameOffset.Magic PROTOCOL_MAGIC in
  let frame := set_at frame FrameOffset.Version (be 2 PROTOCOL_VERSION) in
  let frame := set_at frame FrameOffset.Kind (be 1 (Z_of_number (in_kind input))) in
  let frame := set_at frame FrameOffset.Flags (be 1 (Z_of_number flags)) in
  let frame := set_at frame FrameOffset.RequestId (be 4 (Z_of_number (in_requestId input))) in
  let frame := set_at frame FrameOffset.PayloadLength (be 4 (len (in_payload input))) in
  Ok (set_at frame (Z.to_nat FRAME_HEADER_SIZE) (in_payload input)).

(** [view.getUint..]: [n] bytes at an offset. *)
Definition get_at (data : bytes) (offset n : nat) : Z :=
  from_be (take n (drop offset data)).

Definition readFrameHeader (data : bytes) : result FrameHeader :=
  _ ← guard_throw (negb (len data <? FRAME_HEADER_SIZE)) (ProtocolError IncompleteFrame);
  _ ← validateMagic data;
  let version := get_at data FrameOffset.Version 2 in
  let kind := get_at data FrameOffset.Kind 1 in
  let flags := get_at data FrameOffset.Flags 1 in
  let requestId := get_at data FrameOffset.RequestId 4 in
  let payloadLength := get_at data FrameOffset.PayloadLength 4 in
  _ ← guard_throw (version =? PROTOCOL_VERSION) (ProtocolError UnsupportedVersion);
  _ ← validateMessageKind (number_of_Z kind);
  _ ← validateFlags (number_of_Z flags);
  _ ← guard_throw (payloadLength <=? MAX_PAYLOAD_SIZE) (ProtocolError PayloadTooLarge);
  Ok {| h_version := version; h_kind := kind; h_flags := flags;
        h_requestId := requestId; h_payloadLength := payloadLength |}.

Definition decodeFrame (data : bytes) : result Frame :=
  header ← readFrameHeader data;
  let expectedLength := FRAME_HEADER_SIZE + h_payloadLength header in
  if len data <? expectedLength then Throw (ProtocolError IncompleteFrame)
  else if expectedLength <? len data then Throw (ProtocolError PayloadLengthMismatch)
  else Ok {| version := h_version header; kind := h_kind header; flags := h_flags header;
             requestId := h_requestId header;
             payload := drop (Z.to_nat FRAME_HEADER_SIZE) data |}.

Definition getFrameLength (data : bytes) : result Z :=
  header ← readFrameHeader data;
  Ok (FRAME_HEADER_SIZE + h_payloadLength header).
End Frame.

(** ** Request ids *)
Module RequestId.
Record RequestIdGenerator := { current : Z }.

Definition validateInitialValue (value : number) : result () :=
  guard_throw (Frame.int_between MIN_REQUEST_ID MAX_REQUEST_ID value)
    (ProtocolError InvalidRequestId).

Definition new (initialValue : number) : result RequestIdGenerator :=
  _ ← validateInitialValue initialValue;
  Ok {| current := Z_of_number initialValue |}.

Definition next (g : RequestIdGenerator) : Z * RequestIdGenerator :=
  let requestId := current g in
  (requestId,
   {| current := if requestId =? MAX_REQUEST_ID then MIN_REQUEST_ID else requestId + 1 |}).

(** The ids of [n] calls of [next]. *)
Fixpoint take_ids (n : nat) (g : RequestIdGenerator) : list Z :=
  match n with
  | O => []
  | S n => let (id, g) := next g in id :: take_ids n g
  end.
End RequestId.

(** ** The layout of a frame *)
Definition frame_bytes (kind flags requestId : Z) (payload : bytes) : bytes :=
  PROTOCOL_MAGIC ++ be 2 PROTOCOL_VERSION ++ be 1 kind ++ be 1 flags
  ++ be 4 requestId ++ be 4 (len payload) ++ payload.

(** A header that the protocol allows. *)
Definition valid_header (kind flags requestId : Z) (payload : bytes) : Prop :=
  kind ∈ MessageKind.values ∧ (flags = 0 ∨ flags = 1) ∧ 0 ≤ requestId ≤ MAX_REQUEST_ID ∧
  len payload ≤ MAX_PAYLOAD_SIZE.

(** * Lemmas *)
Import Frame.

Lemma int_between_spec low high n :
  int_between low high n = true ↔ isInteger n = true ∧ low ≤ Z_of_number n ≤ high.
Proof. unfold int_between. rewrite !andb_true_iff, !Z.leb_le. tauto. Qed.

Lemma flags_land z : 0 ≤ z ≤ 255 → Z.land z (Z.lnot SUPPORTED_FRAME_FLAGS) = 0 ↔ z = 0 ∨ z = 1.
Proof.
  intros Hz. change SUPPORTED_FRAME_FLAGS with (Z.ones 1).
  assert (Z.land z (Z.lnot (Z.ones 1)) = z - z mod 2) as ->.
  { rewrite <- Z.ldiff_land, Z.ldiff_ones_r by lia. rewrite Z.shiftr_div_pow2, Z.shiftl_mul_pow2 by lia.
    change (2 ^ 1) with 2. pose proof (Z_div_mod_eq_full z 2). lia. }
  pose proof (Z.mod_pos_bound z 2 eq_refl). split; [lia|by intros [-> | ->]].
Qed.

(** A message kind or a flag byte, checked through its number. *)
Lemma kind_check z :
  0 ≤ z < 256 →
  existsb (λ kind, isInteger (number_of_Z z) && (Z_of_number (number_of_Z z) =? kind))
    MessageKind.values = true ↔ z ∈ MessageKind.values.
Proof.
  intros Hz. rewrite number_of_Z_is_integer, Z_of_number_of_Z by lia. rewrite existsb_exists.
  split; [intros (k & Hk & ->%Z.eqb_eq); by apply list_elem_of_In|].
  intros Hk. exists z. split; [by apply list_elem_of_In|]. apply Z.eqb_refl.
Qed.

Lemma kind_range k : k ∈ MessageKind.values → 1 ≤ k ≤ 7.
Proof.
  unfold MessageKind.values. intros H. apply list_elem_of_In in H.
  repeat destruct H as [<-|H]; try done.
Qed.

Lemma kind_check_input n :
  existsb (λ kind, isInteger n && (Z_of_number n =? kind)) MessageKind.values = true ↔
  isInteger n = true ∧ Z_of_number n ∈ MessageKind.values.
Proof.
  rewrite existsb_exists. split.
  - intros (k & Hk & [Hi ->%Z.eqb_eq]%andb_true_iff). split; [done|]. by apply list_elem_of_In.
  - intros [Hi Hk]. exists (Z_of_number n). split; [by apply list_elem_of_In|].
    by rewrite Hi, Z.eqb_refl.
Qed.

Lemma flags_check n :
  int_between 0 0xff n && (Z.land (Z_of_number n) (Z.lnot SUPPORTED_FRAME_FLAGS) =? 0) = true ↔
  isInteger n = true ∧ (Z_of_number n = 0 ∨ Z_of_number n = 1).
Proof.
  rewrite andb_true_iff, int_between_spec, Z.eqb_eq. split.
  - intros [[Hi Hb] Hl]. split; [done|]. by apply flags_land.
  - intros [Hi Hf]. split; [split; [done|lia]|]. apply flags_land; lia.
Qed.

(** Overwriting a part of a buffer. *)
Lemma set_at_app pre old post v :
  length old = length v →
  set_at (pre ++ old ++ post) (length pre) v = pre ++ v ++ post.
Proof.
  intros Hl. unfold set_at, Writer.set_bytes. rewrite Nat2Z.id, take_app_length. f_equal. f_equal.
  rewrite <- Hl, <- drop_drop, drop_app_length. apply drop_app_length.
Qed.

(** The writes into the zeroed buffer produce the layout. *)
Lemma frame_layout k f r p :
  set_at (set_at (set_at (set_at (set_at (set_at (set_at
    (Writer.zeros (FRAME_HEADER_SIZE + len p)) FrameOffset.Magic PROTOCOL_MAGIC)
    FrameOffset.Version (be 2 PROTOCOL_VERSION)) FrameOffset.Kind (be 1 k))
    FrameOffset.Flags (be 1 f)) FrameOffset.RequestId (be 4 r))
    FrameOffset.PayloadLength (be 4 (len p))) (Z.to_nat FRAME_HEADER_SIZE) p
  = frame_bytes k f r p.
Proof.
  assert (Writer.zeros (FRAME_HEADER_SIZE + len p) = repeat 0 4 ++ repeat 0 12 ++ repeat 0 (length p)) as ->.
  { unfold Writer.zeros, FRAME_HEADER_SIZE, len. rewrite <- !repeat_app. f_equal. lia. }
  rewrite (set_at_app [] (repeat 0 4) (repeat 0 12 ++ repeat 0 (length p)) PROTOCOL_MAGIC eq_refl
    : set_at (repeat 0 4 ++ _) FrameOffset.Magic _ = PROTOCOL_MAGIC ++ _).
  change (repeat 0 12) with (repeat 0 2 ++ repeat 0 10). rewrite <- app_assoc.
  change FrameOffset.Version with (length PROTOCOL_MAGIC).
  rewrite (set_at_app _ (repeat 0 2)) by (by rewrite be_length).
  change (repeat 0 10) with (repeat 0 1 ++ repeat 0 9). rewrite <- app_assoc.
  change FrameOffset.Kind with (length (PROTOCOL_MAGIC ++ be 2 PROTOCOL_VERSION)).
  rewrite app_assoc, (set_at_app _ (repeat 0 1)) by (by rewrite be_length).
  change (repeat 0 9) with (repeat 0 1 ++ repeat 0 8). rewrite <- (app_assoc (repeat 0 1)).
  change FrameOffset.Flags with (length ((PROTOCOL_MAGIC ++ be 2 PROTOCOL_VERSION) ++ be 1 k)).
  rewrite (app_assoc _ (be 1 k)), (set_at_app _ (repeat 0 1)) by (by rewrite be_length).
  change (repeat 0 8) with (repeat 0 4 ++ repeat 0 4). rewrite <- (app_assoc (repeat 0 4)).
  change FrameOffset.RequestId
    with (length (((PROTOCOL_MAGIC ++ be 2 PROTOCOL_VERSION) ++ be 1 k) ++ be 1 f)).
  rewrite (app_assoc _ (be 1 f)), (set_at_app _ (repeat 0 4)) by (by rewrite be_length).
  change FrameOffset.PayloadLength
    with (length ((((PROTOCOL_MAGIC ++ be 2 PROTOCOL_VERSION) ++ be 1 k) ++ be 1 f) ++ be 4 r)).
  rewrite (app_assoc _ (be 4 r)), (set_at_app _ (repeat 0 4)) by (by rewrite be_length).
  change (Z.to_nat FRAME_HEADER_SIZE) with
    (length (((((PROTOCOL_MAGIC ++ be 2 PROTOCOL_VERSION) ++ be 1 k) ++ be 1 f) ++ be 4 r)
       ++ be 4 (len p))).
  rewrite (app_assoc _ (be 4 (len p))).
  rewrite <- (app_nil_r (repeat 0 (length p))), (set_at_app _ (repeat 0 (length p)))
    by (by rewrite repeat_length).
  unfold frame_bytes. by rewrite app_nil_r, <- !app_assoc.
Qed.

(** What the header reader makes of header fields. *)
Lemma readFrameHeader_bytes k f r n tl :
  0 ≤ k < 256 → 0 ≤ f < 256 → 0 ≤ r < 2 ^ 32 → 0 ≤ n < 2 ^ 32 →
  readFrameHeader (PROTOCOL_MAGIC ++ be 2 PROTOCOL_VERSION ++ be 1 k ++ be 1 f ++ be 4 r
                   ++ be 4 n ++ tl) =
  (_ ← validateMessageKind (number_of_Z k);
   _ ← validateFlags (number_of_Z f);
   _ ← guard_throw (n <=? MAX_PAYLOAD_SIZE) (ProtocolError PayloadTooLarge);
   Ok {| h_version := 1; h_kind := k; h_flags := f; h_requestId := r; h_payloadLength := n |}).
Proof.
  intros Hk Hf Hr Hn. set (data := _ ++ _). unfold readFrameHeader.
  assert ((len data <? FRAME_HEADER_SIZE) = false) as ->.
  { apply Z.ltb_ge. unfold data. rewrite !len_app, !be_len. pose proof (len_nonneg tl).
    change (len PROTOCOL_MAGIC) with 4. unfold FRAME_HEADER_SIZE. lia. }
  assert (validateMagic data = Ok ()) as -> by done.
  assert (get_at data FrameOffset.Version 2 = 1) as -> by done.
  assert (get_at data FrameOffset.Kind 1 = k) as ->.
  { transitivity (from_be (be 1 k)); [done|]. by rewrite from_be_be, Z.mod_small. }
  assert (get_at data FrameOffset.Flags 1 = f) as ->.
  { transitivity (from_be (be 1 f)); [done|]. by rewrite from_be_be, Z.mod_small. }
  assert (get_at data FrameOffset.RequestId 4 = r) as ->.
  { transitivity (from_be (be 4 r)); [done|]. by rewrite from_be_be, Z.mod_small. }
  assert (get_at data FrameOffset.PayloadLength 4 = n) as ->; [|done].
  transitivity (from_be (be 4 n)); [done|]. by rewrite from_be_be, Z.mod_small.
Qed.

(** Decoding a frame of the layout. *)
Lemma frame_decode k f r p :
  valid_header k f r p →
  len (frame_bytes k f r p) = FRAME_HEADER_SIZE + len p ∧
  getFrameLength (frame_bytes k f r p) = Ok (len (frame_bytes k f r p)) ∧
  decodeFrame (frame_bytes k f r p) =
    Ok {| version := PROTOCOL_VERSION; kind := k; flags := f; requestId := r; payload := p |}.
Proof.
  intros (Hk & Hf & Hr & Hp). pose proof (kind_range k Hk). pose proof (len_nonneg p).
  unfold MAX_REQUEST_ID, MAX_PAYLOAD_SIZE in *.
  assert (len (frame_bytes k f r p) = FRAME_HEADER_SIZE + len p) as El.
  { unfold frame_bytes. rewrite !len_app, !be_len. change (len PROTOCOL_MAGIC) with 4.
    unfold FRAME_HEADER_SIZE. lia. }
  assert (∀ tl, readFrameHeader (PROTOCOL_MAGIC ++ be 2 PROTOCOL_VERSION ++ be 1 k ++ be 1 f
      ++ be 4 r ++ be 4 (len p) ++ tl) =
    Ok {| h_version := 1; h_kind := k; h_flags := f; h_requestId := r; h_payloadLength := len p |})
    as Hh.
  { intros tl. rewrite readFrameHeader_bytes by lia.
    unfold validateMessageKind, validateFlags.
    rewrite (proj2 (kind_check k ltac:(lia)) Hk), (proj2 (flags_check (number_of_Z f))).
    - cbn [guard_throw mbind res_bind]. unfold MAX_PAYLOAD_SIZE.
      by rewrite (proj2 (Z.leb_le (len p) _)) by lia.
    - rewrite number_of_Z_is_integer, Z_of_number_of_Z by lia. done. }
  split; [done|]. unfold getFrameLength, decodeFrame. rewrite El. unfold frame_bytes in *.
  rewrite Hh. cbn [mbind res_bind h_payloadLength h_kind h_flags h_requestId h_version].
  split; [done|]. rewrite Z.ltb_irrefl. done.
Qed.

Lemma be_get_at data offset n :
  Forall is_byte data → (offset + n ≤ length data)%nat →
  be n (get_at data offset n) = take n (drop offset data).
Proof.
  intros Hb Hl. apply be_from_be; [|by apply Forall_take, Forall_drop].
  rewrite length_take, length_drop. lia.
Qed.

Lemma header_split (data : bytes) :
  (16 ≤ length data)%nat →
  data = take 4 data ++ take 2 (drop 4 data) ++ take 1 (drop 6 data) ++ take 1 (drop 7 data)
         ++ take 4 (drop 8 data) ++ take 4 (drop 12 data) ++ drop 16 data.
Proof.
  intros H. do 16 (destruct data as [|? data]; [simpl in H; lia|]). reflexivity.
Qed.

Lemma validateMagic_Ok data u : validateMagic data = Ok u → take 4 data = PROTOCOL_MAGIC.
Proof.
  unfold validateMagic. rewrite guard_throw_Ok. cbn. rewrite !andb_true_iff, !bool_decide_eq_true.
  intros (H0 & H1 & H2 & H3 & _). destruct data as [|? [|? [|? [|? data]]]]; try done.
  cbn in *. by simplify_eq.
Qed.

(** A successful header read, in terms of the bytes. *)
Lemma readFrameHeader_Ok data h :
  Forall is_byte data → readFrameHeader data = Ok h →
  data = PROTOCOL_MAGIC ++ be 2 PROTOCOL_VERSION ++ be 1 (h_kind h) ++ be 1 (h_flags h)
         ++ be 4 (h_requestId h) ++ be 4 (h_payloadLength h) ++ drop 16 data ∧
  FRAME_HEADER_SIZE ≤ len data ∧
  h_version h = 1 ∧ h_kind h ∈ MessageKind.values ∧ (h_flags h = 0 ∨ h_flags h = 1) ∧
  0 ≤ h_requestId h ≤ MAX_REQUEST_ID ∧ 0 ≤ h_payloadLength h ≤ MAX_PAYLOAD_SIZE.
Proof.
  intros Hb H. unfold readFrameHeader, validateMessageKind, validateFlags in H. inv_ok H.
  apply negb_true_iff, Z.ltb_ge in H0. apply validateMagic_Ok in H1.
  apply Z.eqb_eq in H2. apply Z.leb_le in H5.
  assert (16 ≤ length data)%nat as Hl by (unfold FRAME_HEADER_SIZE, len in H0; lia).
  assert (∀ off n, 0 ≤ get_at data off n < 256 ^ Z.of_nat (length (take n (drop off data)))) as Hr.
  { intros off n. by apply from_be_range, Forall_take, Forall_drop. }
  assert (∀ off n, (off + n ≤ 16)%nat → 0 ≤ get_at data off n < 256 ^ Z.of_nat n) as Hr'.
  { intros off n Hn. specialize (Hr off n). rewrite length_take, length_drop in Hr.
    rewrite Nat.min_l in Hr by lia. done. }
  cbn [h_version h_kind h_flags h_requestId h_payloadLength].
  pose proof (Hr' FrameOffset.Kind 1%nat ltac:(cbn; lia)) as Rk.
  pose proof (Hr' FrameOffset.Flags 1%nat ltac:(cbn; lia)) as Rf.
  pose proof (Hr' FrameOffset.RequestId 4%nat ltac:(cbn; lia)) as Rr.
  pose proof (Hr' FrameOffset.PayloadLength 4%nat ltac:(cbn; lia)) as Rn.
  apply kind_check in H3; [|exact Rk]. apply flags_check in H4 as [_ H4].
  rewrite !Z_of_number_of_Z in H4 by lia.
  split_and!; try done; try lia.
  - rewrite <- H2 at 1. rewrite !be_get_at by (done || cbn; lia).
    rewrite <- H1. by apply header_split.
  - unfold MAX_REQUEST_ID. change (256 ^ Z.of_nat 4) with 4294967296 in Rr. lia.
Qed.

Lemma frame_outcome (input : FrameInput) :
  let flags := default (number_of_Z 0) (in_flags input) in
  match encodeFrame input with
  | Ok data =>
      len data = FRAME_HEADER_SIZE + len (in_payload input) ∧
      getFrameLength data = Ok (len data) ∧
      decodeFrame data =
        Ok {| version := PROTOCOL_VERSION; kind := Z_of_number (in_kind input);
              flags := Z_of_number flags; requestId := Z_of_number (in_requestId input);
              payload := in_payload input |}
  | Throw (ProtocolError InvalidMessageKind) =>
      ¬ (isInteger (in_kind input) = true ∧ Z_of_number (in_kind input) ∈ MessageKind.values)
  | Throw (ProtocolError InvalidRequestId) =>
      ¬ (isInteger (in_requestId input) = true ∧ 0 ≤ Z_of_number (in_requestId input) ≤ MAX_REQUEST_ID)
  | Throw (ProtocolError InvalidFlags) =>
      ¬ (isInteger flags = true ∧ (Z_of_number flags = 0 ∨ Z_of_number flags = 1))
  | Throw (ProtocolError PayloadTooLarge) => MAX_PAYLOAD_SIZE < len (in_payload input)
  | Throw _ => False
  end.
Proof.
  destruct input as [k r p fl]. intros f. cbn [in_kind in_requestId in_payload in_flags] in f |- *.
  unfold encodeFrame. cbn [in_kind in_requestId in_payload in_flags]. rewrite frame_layout.
  change (default (number_of_Z FrameFlag.None_) fl) with f.
  unfold validateMessageKind. destruct (existsb _ _) eqn:Ek; cbn [guard_throw mbind res_bind];
    [apply kind_check_input in Ek as [Hik Hk]|by intros Hn%kind_check_input; congruence].
  unfold validateRequestId. destruct (int_between 0 _ r) eqn:Er; cbn [guard_throw mbind res_bind];
    [apply int_between_spec in Er as [Hir Hr]|by intros Hn%int_between_spec; congruence].
  unfold validateFlags. destruct (int_between 0 0xff f && _) eqn:Ef; cbn [guard_throw mbind res_bind];
    [apply flags_check in Ef as [Hif Hf]|by intros Hn%flags_check; congruence].
  unfold validatePayload. destruct (Z.leb_spec (len p) MAX_PAYLOAD_SIZE); cbn [guard_throw mbind res_bind];
    [|done].
  apply frame_decode. done.
Qed.

(** ** Properties *)

(** An encoded frame is decoded to the same fields and payload; an input is
    refused exactly when its kind, request id, flags or payload size is outside
    the protocol. *)
Lemma frame_roundtrip (input : FrameInput) :
  let flags := default (number_of_Z 0) (in_flags input) in
  match encodeFrame input with
  | Ok data =>
      len data = FRAME_HEADER_SIZE + len (in_payload input) ∧
      getFrameLength data = Ok (len data) ∧
      decodeFrame data =
        Ok {| version := PROTOCOL_VERSION; kind := Z_of_number (in_kind input);
              flags := Z_of_number flags; requestId := Z_of_number (in_requestId input);
              payload := in_payload input |}
  | Throw (ProtocolError InvalidMessageKind) =>
      ¬ (isInteger (in_kind input) = true ∧ Z_of_number (in_kind input) ∈ MessageKind.values)
  | Throw (ProtocolError InvalidRequestId) =>
      ¬ (isInteger (in_requestId input) = true ∧ 0 ≤ Z_of_number (in_requestId input) ≤ MAX_REQUEST_ID)
  | Throw (ProtocolError InvalidFlags) =>
      ¬ (isInteger flags = true ∧ (Z_of_number flags = 0 ∨ Z_of_number flags = 1))
  | Throw (ProtocolError PayloadTooLarge) => MAX_PAYLOAD_SIZE < len (in_payload input)
  | Throw _ => False
  end.
Proof. apply frame_outcome. Qed.

(** A frame that is accepted is one that encoding its own fields gives back
    byte for byte: no two byte strings are read as the same frame. *)
Lemma frame_decode_encode (data : bytes) (f : Frame) :
  Forall is_byte data → decodeFrame data = Ok f →
  version f = PROTOCOL_VERSION ∧
  encodeFrame {| in_kind := number_of_Z (kind f); in_requestId := number_of_Z (requestId f);
                 in_payload := payload f; in_flags := Some (number_of_Z (flags f)) |} = Ok data.
Proof.
  intros Hb H. unfold decodeFrame in H. apply bind_Ok_inv in H as (h & Hh & H).
  apply readFrameHeader_Ok in Hh as (Ed & Hl & Hv & Hk & Hf & Hr & Hn); [|done].
  destruct (Z.ltb_spec (len data) (FRAME_HEADER_SIZE + h_payloadLength h)); [done|].
  destruct (Z.ltb_spec (FRAME_HEADER_SIZE + h_payloadLength h) (len data)); [done|].
  apply Ok_inj in H as <-. cbn [version kind flags requestId payload]. split; [done|].
  pose proof (kind_range _ Hk).
  change (Z.to_nat FRAME_HEADER_SIZE) with 16%nat.
  assert (len (drop 16 data) = h_payloadLength h) as Hp.
  { unfold len, FRAME_HEADER_SIZE in *. rewrite length_drop. lia. }
  unfold encodeFrame. cbn [in_kind in_requestId in_payload in_flags default]. rewrite frame_layout.
  unfold MAX_REQUEST_ID, MAX_PAYLOAD_SIZE in *.
  unfold validateMessageKind. rewrite (proj2 (kind_check (h_kind h) ltac:(lia)) Hk).
  unfold validateRequestId, MAX_REQUEST_ID. rewrite (proj2 (int_between_spec _ _ _)).
  2: { rewrite number_of_Z_is_integer, Z_of_number_of_Z by lia. done. }
  unfold validateFlags. cbn [default from_option id]. rewrite (proj2 (flags_check _)).
  2: { rewrite number_of_Z_is_integer, Z_of_number_of_Z by lia. done. }
  unfold validatePayload, MAX_PAYLOAD_SIZE. rewrite (proj2 (Z.leb_le _ _)) by lia.
  cbn [guard_throw mbind res_bind]. rewrite !Z_of_number_of_Z by lia.
  unfold frame_bytes. rewrite Hp. by rewrite <- Ed.
Qed.

Lemma frame_decode_encode_witness :
  version {| version := 1; kind := 2; flags := 0; requestId := 7; payload := [1; 2] |}
    = PROTOCOL_VERSION ∧
  encodeFrame {| in_kind := number_of_Z 2; in_requestId := number_of_Z 7;
                 in_payload := [1; 2]; in_flags := Some (number_of_Z 0) |}
    = Ok (frame_bytes 2 0 7 [1; 2]).
Proof.
  apply (frame_decode_encode (frame_bytes 2 0 7 [1; 2])
    {| version := 1; kind := 2; flags := 0; requestId := 7; payload := [1; 2] |});
    [apply bytes_wf|]; vm_compute; reflexivity.
Defined.

(** The id that comes [i] calls after [v]. *)
Lemma take_ids_lookup n v i :
  MIN_REQUEST_ID ≤ v ≤ MAX_REQUEST_ID → (i < n)%nat →
  RequestId.take_ids n {| RequestId.current := v |} !! i =
    Some ((v - MIN_REQUEST_ID + Z.of_nat i) mod MAX_REQUEST_ID + MIN_REQUEST_ID).
Proof.
  unfold MIN_REQUEST_ID, MAX_REQUEST_ID.
  revert v i. induction n as [|n IH]; intros v i Hv Hi; [lia|].
  cbn [RequestId.take_ids RequestId.next RequestId.current]. destruct i as [|i]; cbn [lookup list_lookup].
  - f_equal. rewrite Z.add_0_r, Z.mod_small by lia. lia.
  - unfold MIN_REQUEST_ID, MAX_REQUEST_ID.
    destruct (Z.eqb_spec v 0xffffffff) as [->|].
    + rewrite IH by lia. do 2 f_equal. rewrite Nat2Z.inj_succ.
      replace (0xffffffff - 1 + Z.succ (Z.of_nat i)) with (1 - 1 + Z.of_nat i + 1 * 0xffffffff) by lia.
      by rewrite Z.mod_add.
    + rewrite IH by lia. do 2 f_equal. rewrite Nat2Z.inj_succ. f_equal. lia.
Qed.

(** Request ids stay between 1 and 2^32 - 1, starting from the initial value
    and wrapping to 1, and no id is used twice in 2^32 - 1 consecutive calls. *)
Lemma request_ids_cycle (initialValue : number) (g : RequestId.RequestIdGenerator) (n i j : nat) (x y : Z) :
  RequestId.new initialValue = Ok g →
  RequestId.take_ids n g !! i = Some x → RequestId.take_ids n g !! j = Some y →
  x = (Z_of_number initialValue - MIN_REQUEST_ID + Z.of_nat i) mod MAX_REQUEST_ID + MIN_REQUEST_ID ∧
  MIN_REQUEST_ID ≤ x ≤ MAX_REQUEST_ID ∧
  (x = y → Z.of_nat j - Z.of_nat i < MAX_REQUEST_ID → Z.of_nat i - Z.of_nat j < MAX_REQUEST_ID → i = j).
Proof.
  intros Hg Hi Hj. unfold RequestId.new, RequestId.validateInitialValue in Hg. inv_ok Hg.
  apply int_between_spec in Hg0 as [_ Hv]. set (v := Z_of_number initialValue) in *.
  assert (∀ k z, RequestId.take_ids n {| RequestId.current := v |} !! k = Some z →
    z = (v - MIN_REQUEST_ID + Z.of_nat k) mod MAX_REQUEST_ID + MIN_REQUEST_ID) as Hk.
  { intros k z Hz. rewrite take_ids_lookup in Hz; [congruence|done|].
    apply lookup_lt_Some in Hz. revert Hz. generalize {| RequestId.current := v |}. clear.
    revert k. induction n as [|n IH]; intros k g Hl; simpl in Hl; [lia|].
    destruct k; [lia|]. simpl in Hl. apply Nat.succ_lt_mono in Hl. apply IH in Hl. lia. }
  apply Hk in Hi as ->. apply Hk in Hj as ->. unfold MIN_REQUEST_ID, MAX_REQUEST_ID in *.
  pose proof (Z.mod_pos_bound (v - 1 + Z.of_nat i) 0xffffffff eq_refl).
  split; [done|]. split; [lia|]. intros E H1 H2.
  assert ((v - 1 + Z.of_nat i) mod 0xffffffff = (v - 1 + Z.of_nat j) mod 0xffffffff) as E' by lia.
  pose proof (Z_div_mod_eq_full (v - 1 + Z.of_nat i) 0xffffffff).
  pose proof (Z_div_mod_eq_full (v - 1 + Z.of_nat j) 0xffffffff). nia.
Qed.

Lemma request_ids_cycle_witness :
  1 = (Z_of_number (number_of_Z 0xffffffff) - MIN_REQUEST_ID + Z.of_nat 1) mod MAX_REQUEST_ID
      + MIN_REQUEST_ID ∧
  MIN_REQUEST_ID ≤ 1 ≤ MAX_REQUEST_ID ∧
  (1 = 1 → Z.of_nat 1 - Z.of_nat 1 < MAX_REQUEST_ID → Z.of_nat 1 - Z.of_nat 1 < MAX_REQUEST_ID →
   1%nat = 1%nat).
Proof.
  apply (request_ids_cycle (number_of_Z 0xffffffff) {| RequestId.current := 0xffffffff |} 2 1 1 1 1);
    vm_compute; reflexivity.
Defined.
