(* ===== verification/Message.v ===== *)
(** * Messages

    packages/protocol/src/message-codec.ts (the payload of each kind of message),
    message-frame.ts (a message in a frame) and message-stream-decoder.ts (the
    messages of a byte stream that arrives in chunks). *)

From S2P Require Import Prelude Errors JsNumber JsString JsValue Binary Codec Roundtrip Decoded Frame.

Module Message.
Definition fail {A} : result A := Throw (ProtocolError InvalidMessagePayload).

Definition MAX_UINT16 : Z := 0xffff.
Definition MAX_UINT32 : Z := 0xffffffff.

Definition isDocument (value : option DocumentValue) : bool :=
  match value with Some (VDoc _) => true | _ => false end.

Definition isNonEmptyString (value : option DocumentValue) : bool :=
  match value with Some (VString s) => 0 <? len s | _ => false end.

Definition isUnsignedInteger (value : option DocumentValue) (maximum : Z) : bool :=
  match value with
  | Some (VNumber n) => Frame.int_between 0 maximum n
  | _ => false
  end.

Definition is_string (v : DocumentValue) : bool :=
  match v with VString _ => true | _ => false end.

(** [value === s] for a string constant. *)
Definition equals_string (value : option DocumentValue) (s : jsstring) : bool :=
  match value with Some (VString s') => bool_decide (s' = s) | _ => false end.

(** [Array.isArray(value) && value.every(item => typeof item === 'string')]. *)
Definition isStringArray (value : option DocumentValue) : bool :=
  match value with Some (VArray l) => forallb is_string l | _ => false end.

(** [value === 0]. *)
Definition equals_zero (value : option DocumentValue) : bool :=
  match value with
  | Some (VNumber n) => isInteger n && (Z_of_number n =? 0)
  | _ => false
  end.

(** A [Date] with a finite time value. *)
Definition isValidDate (value : option DocumentValue) : bool :=
  match value with Some (VDate (Some _)) => true | _ => false end.

Definition isBoolean (value : option DocumentValue) : bool :=
  match value with Some (VBool _) => true | _ => false end.

Definition check (b : bool) : result () := if b then Ok () else fail.

Definition validateHandshake (payload : Document) : result () :=
  let role := obj_get payload (js "role") in
  let capabilities := obj_get payload (js "capabilities") in
  _ ← check (equals_string role (js "client") || equals_string role (js "server"));
  _ ← check (isUnsignedInteger (obj_get payload (js "protocolVersion")) MAX_UINT16
             && negb (equals_zero (obj_get payload (js "protocolVersion"))));
  _ ← check (isNonEmptyString (obj_get payload (js "product")));
  _ ← check (isNonEmptyString (obj_get payload (js "productVersion")));
  check (isStringArray capabilities).

Definition validatePing (payload : Document) : result () :=
  check (isValidDate (obj_get payload (js "sentAt"))).

Definition validateCommand (payload : Document) : result () :=
  _ ← check (isNonEmptyString (obj_get payload (js "command")));
  _ ← check (negb (obj_has payload (js "database")
                   && negb (isNonEmptyString (obj_get payload (js "database")))));
  check (isDocument (obj_get payload (js "parameters"))).

Definition validateResult (payload : Document) : result () :=
  check (obj_has payload (js "value")).

Definition validateStreamItem (payload : Document) : result () :=
  _ ← check (isUnsignedInteger (obj_get payload (js "sequence")) MAX_SAFE_INTEGER);
  check (obj_has payload (js "value")).

Definition validateStreamEnd (payload : Document) : result () :=
  check (isUnsignedInteger (obj_get payload (js "count")) MAX_SAFE_INTEGER).

Definition validateError (payload : Document) : result () :=
  _ ← check (isUnsignedInteger (obj_get payload (js "code")) MAX_UINT32);
  _ ← check (isNonEmptyString (obj_get payload (js "name")));
  _ ← check (isNonEmptyString (obj_get payload (js "message")));
  _ ← check (isBoolean (obj_get payload (js "retryable")));
  check (negb (obj_has payload (js "details")
               && negb (isDocument (obj_get payload (js "details"))))).

Definition validateMessagePayload (kind : Z) (payload : Document) : result () :=
  if kind =? MessageKind.Handshake then validateHandshake payload
  else if kind =? MessageKind.Ping then validatePing payload
  else if kind =? MessageKind.Command then validateCommand payload
  else if kind =? MessageKind.Result then validateResult payload
  else if kind =? MessageKind.StreamItem then validateStreamItem payload
  else if kind =? MessageKind.StreamEnd then validateStreamEnd payload
  else if kind =? MessageKind.Error then validateError payload
  else Throw (ProtocolError InvalidMessageKind).

Definition encodeMessagePayload (kind : Z) (payload : Document) : result bytes :=
  _ ← validateMessagePayload kind payload;
  encodeDocument payload.

Definition decodeMessagePayload (kind : Z) (encoded : bytes) : result Document :=
  payload ← decodeDocument encoded;
  _ ← validateMessagePayload kind payload;
  Ok payload.

(** ** Messages in frames *)
Record MessageInput := {
  in_kind : Z;
  in_requestId : number;
  in_payload : Document;
  in_flags : option number;
}.

Record DecodedMessage := {
  version : Z;
  kind : Z;
  flags : Z;
  requestId : Z;
  payload : Document;
}.

Definition encodeMessage (input : MessageInput) : result bytes :=
  payload ← encodeMessagePayload (in_kind input) (in_payload input);
  Frame.encodeFrame
    {| Frame.in_kind := number_of_Z (in_kind input);
       Frame.in_requestId := in_requestId input;
       Frame.in_payload := payload;
       Frame.in_flags := in_flags input |}.

Definition decodeMessage (encoded : bytes) : result DecodedMessage :=
  frame ← Frame.decodeFrame encoded;
  payload ← decodeMessagePayload (Frame.kind frame) (Frame.payload frame);
  Ok {| version := Frame.version frame; kind := Frame.kind frame;
        flags := Frame.flags frame; requestId := Frame.requestId frame;
        payload := payload |}.
End Message.

(** ** Streams *)
Module Stream.
(** [MessageStreamDecoder]. *)
Record decoder := { buffered : bytes; length : Z }.

Definition new : decoder := {| buffered := []; length := 0 |}.

Definition bufferedBytes (d : decoder) : Z := length d.

Definition reset (d : decoder) : decoder := new.

(** [data.subarray(first, last)]. *)
Definition subarray (data : bytes) (first last : Z) : bytes :=
  take (Z.to_nat (last - first)) (drop (Z.to_nat first) data).

Definition append (d : decoder) (chunk : bytes) : decoder :=
  let required := length d + len chunk in
  let buffered :=
    if len (buffered d) <? required then
      let grown := Writer.zeros
        (Z.max (Z.max required (len (buffered d) * 2)) FRAME_HEADER_SIZE) in
      Writer.set_bytes grown (subarray (buffered d) 0 (length d)) 0
    else buffered d in
  {| buffered := Writer.set_bytes buffered chunk (length d); length := required |}.

(** The [while] loop: the messages of the complete frames from [consumed] on,
    the offset after the last one consumed, and the exception that ended the
    loop, if any. Every turn consumes a header at least, so the number of
    bytes bounds the number of turns. *)
Fixpoint decode_loop (fuel : nat) (d : decoder) (consumed : Z)
    (messages : list Message.DecodedMessage)
    : list Message.DecodedMessage * Z * option exn :=
  match fuel with
  | O => (messages, consumed, None)
  | S fuel =>
      if FRAME_HEADER_SIZE <=? length d - consumed then
        match Frame.getFrameLength (subarray (buffered d) consumed (length d)) with
        | Throw e => (messages, consumed, Some e)
        | Ok frameLength =>
            if length d - consumed <? frameLength then (messages, consumed, None)
            else
              let frame := subarray (buffered d) consumed (consumed + frameLength) in
              let consumed := consumed + frameLength in
              match Message.decodeMessage frame with
              | Throw e => (messages, consumed, Some e)
              | Ok message => decode_loop fuel d consumed (messages ++ [message])
              end
        end
      else (messages, consumed, None)
  end.

(** The [finally] block: drop what was consumed. *)
Definition discard (d : decoder) (consumed : Z) : decoder :=
  if 0 <? consumed then
    {| buffered := Writer.set_bytes (buffered d)
         (subarray (buffered d) consumed (length d)) 0;
       length := length d - consumed |}
  else d.

Definition push (d : decoder) (chunk : bytes)
    : result (list Message.DecodedMessage) * decoder :=
  if len chunk =? 0 then (Ok [], d)
  else
    let d := append d chunk in
    let '(messages, consumed, error) :=
      decode_loop (S (Z.to_nat (length d))) d 0 [] in
    (match error with None => Ok messages | Some e => Throw e end, discard d consumed).
End Stream.
Abbreviation DecodedMessage := Message.DecodedMessage.
