(* ===== verification/Streams.v ===== *)
(** * Messages of a stream

    Theorems about Message.v: the message codec, and the stream decoder against
    an abstract description of the messages in a byte string. *)

From S2P Require Import Prelude Errors JsNumber JsString JsValue Binary Codec Roundtrip Decoded Frame Message.
Import Message.

(** ** Definitions *)

(** [stream_parse p ms rest e]: the complete frames at the front of [p] are the
    messages [ms], up to the first error; [rest] remains. *)
Inductive stream_parse : bytes → list DecodedMessage → bytes → option exn → Prop :=
  | sp_short p : len p < FRAME_HEADER_SIZE → stream_parse p [] p None
  | sp_header p e :
      FRAME_HEADER_SIZE ≤ len p → Frame.getFrameLength p = Throw e →
      stream_parse p [] p (Some e)
  | sp_partial p n :
      FRAME_HEADER_SIZE ≤ len p → Frame.getFrameLength p = Ok n → len p < n →
      stream_parse p [] p None
  | sp_bad p n e :
      FRAME_HEADER_SIZE ≤ len p → Frame.getFrameLength p = Ok n → n ≤ len p →
      decodeMessage (take (Z.to_nat n) p) = Throw e →
      stream_parse p [] (drop (Z.to_nat n) p) (Some e)
  | sp_message p n m ms rest e :
      FRAME_HEADER_SIZE ≤ len p → Frame.getFrameLength p = Ok n → n ≤ len p →
      decodeMessage (take (Z.to_nat n) p) = Ok m →
      stream_parse (drop (Z.to_nat n) p) ms rest e →
      stream_parse p (m :: ms) rest e.

(** The bytes a decoder holds. *)
Definition contents (d : Stream.decoder) : bytes :=
  take (Z.to_nat (Stream.length d)) (Stream.buffered d).

Definition wf_decoder (d : Stream.decoder) : Prop :=
  0 ≤ Stream.length d ≤ len (Stream.buffered d) ∧ Forall is_byte (Stream.buffered d).

(** A client that pushes chunks until one of them throws. *)
Fixpoint push_all (d : Stream.decoder) (chunks : list bytes)
    : list DecodedMessage * option exn * Stream.decoder :=
  match chunks with
  | [] => ([], None, d)
  | chunk :: chunks =>
      match Stream.push d chunk with
      | (Ok ms, d) => let '(ms', e, d) := push_all d chunks in (ms ++ ms', e, d)
      | (Throw e, d) => ([], Some e, d)
      end
  end.

(** ** The header decides the length of a frame *)
Lemma get_at_app p q offset n :
  (offset + n ≤ length p)%nat → Frame.get_at (p ++ q) offset n = Frame.get_at p offset n.
Proof.
  intros H. unfold Frame.get_at. rewrite drop_app_le by lia.
  rewrite take_app_le; [done|]. rewrite length_drop. lia.
Qed.

Lemma getFrameLength_app p q :
  FRAME_HEADER_SIZE ≤ len p → Frame.getFrameLength (p ++ q) = Frame.getFrameLength p.
Proof.
  intros Hl. unfold Frame.getFrameLength, Frame.readFrameHeader.
  rewrite len_app. pose proof (len_nonneg q).
  destruct (Z.ltb_spec (len p + len q) FRAME_HEADER_SIZE); [lia|].
  destruct (Z.ltb_spec (len p) FRAME_HEADER_SIZE); [lia|].
  unfold FRAME_HEADER_SIZE, len in Hl.
  rewrite !get_at_app by (cbn; lia).
  assert (Frame.validateMagic (p ++ q) = Frame.validateMagic p) as ->; [|done].
  do 4 (destruct p as [|? p]; [simpl in Hl; lia|]). done.
Qed.

Lemma getFrameLength_min p n :
  Forall is_byte p → Frame.getFrameLength p = Ok n → FRAME_HEADER_SIZE ≤ n.
Proof.
  intros Hb H. unfold Frame.getFrameLength in H. inv_ok H.
  apply readFrameHeader_Ok in H0 as (_ & _ & _ & _ & _ & _ & ?); [lia|done].
Qed.

Lemma decodeMessage_frame b m :
  decodeMessage b = Ok m →
  FRAME_HEADER_SIZE ≤ len b ∧ Frame.getFrameLength b = Ok (len b).
Proof.
  unfold decodeMessage. intros (f & Hf & _)%bind_Ok_inv.
  unfold Frame.decodeFrame in Hf. apply bind_Ok_inv in Hf as (h & Hh & Hf).
  destruct (Z.ltb_spec (len b) (FRAME_HEADER_SIZE + Frame.h_payloadLength h)); [done|].
  destruct (Z.ltb_spec (FRAME_HEADER_SIZE + Frame.h_payloadLength h) (len b)); [done|].
  split.
  - unfold Frame.readFrameHeader in Hh. inv_ok Hh.
    match goal with H : negb _ = true |- _ => apply negb_true_iff, Z.ltb_ge in H; done end.
  - unfold Frame.getFrameLength. rewrite Hh. cbn [mbind res_bind]. f_equal. lia.
Qed.

(** ** The abstract stream *)
Lemma take_drop_len {A} (p : list A) n :
  0 ≤ n ≤ len p → len (take (Z.to_nat n) p) = n ∧ len (drop (Z.to_nat n) p) = len p - n.
Proof. unfold len. rewrite length_take, length_drop. lia. Qed.

(** What arrives later does not change what was already there. *)
Lemma stream_parse_app p ms rest q :
  Forall is_byte p → stream_parse p ms rest None →
  ∀ ms2 rest2 e, stream_parse (rest ++ q) ms2 rest2 e → stream_parse (p ++ q) (ms ++ ms2) rest2 e.
Proof.
  intros Hb H ms2 rest2 e. remember None as o eqn:Eo. revert Hb.
  induction H as [p|p|p|p|p n m ms rest o Hl Hg Hn Hd H IH]; try done.
  intros Hb H2. pose proof (getFrameLength_min _ _ Hb Hg) as Hm. unfold FRAME_HEADER_SIZE in Hm.
  pose proof (len_nonneg q). cbn [app].
  eapply (sp_message _ n).
  - rewrite len_app. lia.
  - by rewrite getFrameLength_app.
  - rewrite len_app. lia.
  - rewrite take_app_le; [done|]. unfold len in Hn. lia.
  - rewrite drop_app_le by (unfold len in Hn; lia). apply IH; [done|by apply Forall_drop|done].
Qed.

Lemma stream_parse_app_error p ms rest e q :
  Forall is_byte p → stream_parse p ms rest (Some e) →
  stream_parse (p ++ q) ms (rest ++ q) (Some e).
Proof.
  intros Hb H. remember (Some e) as o eqn:Eo. revert Hb. pose proof (len_nonneg q) as Hq.
  induction H as [p|p e' Hl Hg|p|p n e' Hl Hg Hn Hd|p n m ms rest o Hl Hg Hn Hd H IH]; intros Hb; try done.
  - apply sp_header; [rewrite len_app; lia|by rewrite getFrameLength_app].
  - pose proof (getFrameLength_min _ _ Hb Hg) as Hm. unfold FRAME_HEADER_SIZE in Hm.
    rewrite <- drop_app_le by (unfold len in Hn; lia).
    apply sp_bad; [rewrite len_app; lia|by rewrite getFrameLength_app|rewrite len_app; lia|].
    rewrite take_app_le; [done|]. unfold len in Hn. lia.
  - pose proof (getFrameLength_min _ _ Hb Hg) as Hm. unfold FRAME_HEADER_SIZE in Hm.
    eapply (sp_message _ n); [rewrite len_app; lia|by rewrite getFrameLength_app|rewrite len_app; lia| |].
    + rewrite take_app_le; [done|]. unfold len in Hn. lia.
    + rewrite drop_app_le by (unfold len in Hn; lia). apply IH; [done|by apply Forall_drop].
Qed.

(** There is one way to parse a byte string. *)
Lemma stream_parse_det p ms1 r1 e1 ms2 r2 e2 :
  stream_parse p ms1 r1 e1 → stream_parse p ms2 r2 e2 → ms1 = ms2 ∧ r1 = r2 ∧ e1 = e2.
Proof.
  intros H1. revert ms2 r2 e2.
  induction H1 as [p|p e Hl Hg|p n Hl Hg Hn|p n e Hl Hg Hn Hd|p n m ms rest e Hl Hg Hn Hd _ IH];
    intros ms2 r2 e2 H2; inversion H2; subst; try lia;
    repeat match goal with
    | H1 : Frame.getFrameLength ?p = _, H2 : Frame.getFrameLength ?p = _ |- _ =>
        rewrite H1 in H2; simplify_eq
    | H1 : decodeMessage ?p = _, H2 : decodeMessage ?p = _ |- _ =>
        rewrite H1 in H2; simplify_eq
    | H : stream_parse (drop _ _) _ _ _ |- _ => apply IH in H as (-> & -> & ->)
    end; done || lia.
Qed.

Lemma stream_parse_bytes p ms rest e :
  Forall is_byte p → stream_parse p ms rest e → Forall is_byte rest.
Proof.
  intros Hb H. induction H; try done; [by apply Forall_drop|].
  match goal with IH : _ → Forall is_byte _ |- _ => apply IH end. by apply Forall_drop.
Qed.

(** Whole messages, one after the other. *)
Lemma stream_parse_messages bs ms :
  Forall2 (λ b m, decodeMessage b = Ok m) bs ms → stream_parse (concat bs) ms [] None.
Proof.
  induction 1 as [|b m bs ms Hb _ IH]; simpl; [by apply sp_short|].
  destruct (decodeMessage_frame b m Hb) as [Hl Hg]. pose proof (len_nonneg (concat bs)).
  eapply (sp_message _ (len b)); [rewrite len_app; lia|by rewrite getFrameLength_app|rewrite len_app; lia|..].
  - rewrite to_nat_len, take_app_length. done.
  - by rewrite to_nat_len, drop_app_length.
Qed.

(** ** The decoder's buffer *)
Lemma subarray_len data a b :
  0 ≤ a ≤ b → b ≤ len data → len (Stream.subarray data a b) = b - a.
Proof. unfold Stream.subarray, len. intros. rewrite length_take, length_drop. lia. Qed.

Lemma subarray_take data a n b :
  0 ≤ n → a + n ≤ b →
  Stream.subarray data a (a + n) = take (Z.to_nat n) (Stream.subarray data a b).
Proof. intros. unfold Stream.subarray. rewrite take_take. f_equal. lia. Qed.

Lemma subarray_drop data a n b :
  0 ≤ a → 0 ≤ n → a + n ≤ b →
  Stream.subarray data (a + n) b = drop (Z.to_nat n) (Stream.subarray data a b).
Proof.
  intros. unfold Stream.subarray.
  replace (Z.to_nat (b - a)) with (Z.to_nat n + Z.to_nat (b - (a + n)))%nat by lia.
  rewrite <- take_drop_commute, drop_drop. do 2 f_equal. lia.
Qed.

Lemma subarray_contents d : Stream.subarray (Stream.buffered d) 0 (Stream.length d) = contents d.
Proof. unfold Stream.subarray, contents. by rewrite Z.sub_0_r. Qed.

Lemma set_bytes_bytes t v o :
  Forall is_byte t → Forall is_byte v → Forall is_byte (Writer.set_bytes t v o).
Proof.
  intros Ht Hv. unfold Writer.set_bytes. repeat (apply Forall_app; split); try done;
    [by apply Forall_take | by apply Forall_drop].
Qed.

Lemma append_spec d c :
  wf_decoder d → Forall is_byte c →
  wf_decoder (Stream.append d c) ∧ contents (Stream.append d c) = contents d ++ c.
Proof.
  intros [Hl Hb] Hc. unfold Stream.append. pose proof (len_nonneg c) as Hn.
  match goal with |- context [if ?b then ?x else ?y] => set (buf := if b then x else y) end.
  assert (Forall is_byte buf ∧ Stream.length d + len c ≤ len buf ∧
    take (Z.to_nat (Stream.length d)) buf = contents d) as (H1 & H2 & H3).
  { unfold buf. case_match eqn:E; [|apply Z.ltb_ge in E; done].
    set (g := Z.max _ _). assert (len (Writer.zeros g) = g) as Hg.
    { unfold Writer.zeros, len. rewrite repeat_length. unfold g. lia. }
    rewrite subarray_contents.
    assert (len (contents d) = Stream.length d) as Hlc.
    { unfold contents, len in *. rewrite length_take. lia. }
    split_and!.
    - apply set_bytes_bytes; [|by apply Forall_take].
      apply Forall_forall. intros x Hx%list_elem_of_In%repeat_spec. by subst x.
    - rewrite set_bytes_length; lia.
    - rewrite <- Hlc at 1. rewrite <- (Z.add_0_l (len (contents d))).
      rewrite take_set_bytes by lia. done. }
  clearbody buf. split.
  - split; cbn [Stream.length Stream.buffered]; [|by apply set_bytes_bytes].
    rewrite set_bytes_length by lia. lia.
  - unfold contents at 1. cbn [Stream.length Stream.buffered].
    rewrite take_set_bytes by lia. by rewrite H3.
Qed.

Lemma discard_spec d c :
  wf_decoder d → 0 ≤ c ≤ Stream.length d →
  wf_decoder (Stream.discard d c) ∧
  contents (Stream.discard d c) = Stream.subarray (Stream.buffered d) c (Stream.length d).
Proof.
  intros [Hl Hb] Hc. unfold Stream.discard. destruct (Z.ltb_spec 0 c).
  - pose proof (subarray_len (Stream.buffered d) c (Stream.length d) Hc (proj2 Hl)) as Hs.
    split.
    + split; cbn [Stream.length Stream.buffered].
      * rewrite set_bytes_length; lia.
      * apply set_bytes_bytes; [done|]. by apply Forall_take, Forall_drop.
    + unfold contents. cbn [Stream.length Stream.buffered]. rewrite <- Hs at 1.
      rewrite <- (Z.add_0_l (len _)). rewrite take_set_bytes by lia. done.
  - replace c with 0 by lia. by rewrite subarray_contents.
Qed.

(** The loop parses what is left to consume; its fuel never runs out. *)
Lemma decode_loop_spec fuel d consumed acc :
  wf_decoder d → 0 ≤ consumed ≤ Stream.length d →
  Stream.length d - consumed < Z.of_nat fuel →
  ∃ ms consumed' e,
    Stream.decode_loop fuel d consumed acc = (acc ++ ms, consumed', e) ∧
    consumed ≤ consumed' ≤ Stream.length d ∧
    stream_parse (Stream.subarray (Stream.buffered d) consumed (Stream.length d)) ms
      (Stream.subarray (Stream.buffered d) consumed' (Stream.length d)) e.
Proof.
  intros Hd. destruct Hd as [Hl Hb].
  revert consumed acc. induction fuel as [|fuel IH]; intros consumed acc Hc Hf; [lia|].
  cbn [Stream.decode_loop]. set (p := Stream.subarray _ consumed _).
  assert (len p = Stream.length d - consumed) as Hp by (apply subarray_len; lia).
  assert (Forall is_byte p) as Hpb by (by apply Forall_take, Forall_drop).
  destruct (Z.leb_spec FRAME_HEADER_SIZE (Stream.length d - consumed)).
  2: { exists [], consumed, None. rewrite app_nil_r. split_and!; [done|lia..|].
       fold p. apply sp_short. lia. }
  destruct (Frame.getFrameLength p) as [n|e] eqn:Eg.
  2: { exists [], consumed, (Some e). rewrite app_nil_r. split_and!; [done|lia..|].
       fold p. apply sp_header; [lia|done]. }
  pose proof (getFrameLength_min p n Hpb Eg) as Hn. unfold FRAME_HEADER_SIZE in Hn.
  destruct (Z.ltb_spec (Stream.length d - consumed) n).
  { exists [], consumed, None. rewrite app_nil_r. split_and!; [done|lia..|].
    fold p. apply (sp_partial _ n); [lia|done|lia]. }
  rewrite (subarray_take _ consumed n (Stream.length d)) by lia. fold p.
  pose proof (subarray_drop (Stream.buffered d) consumed n (Stream.length d)) as Hdr. fold p in Hdr.
  destruct (decodeMessage (take (Z.to_nat n) p)) as [m|e] eqn:Em.
  - destruct (IH (consumed + n) (acc ++ [m])) as (ms & c' & e & E & Hc' & Hs); [lia|lia|].
    exists (m :: ms), c', e. rewrite E, <- app_assoc. split_and!; [done|lia..|].
    apply (sp_message _ n); [lia|done|lia|done|]. by rewrite <- Hdr by lia.
  - exists [], (consumed + n), (Some e). rewrite app_nil_r. split_and!; [done|lia..|].
    rewrite Hdr by lia. apply sp_bad; [lia|done|lia|done].
Qed.

(** [push] parses what it holds followed by the chunk. *)
Lemma push_spec d chunk :
  wf_decoder d → Forall is_byte chunk → chunk ≠ [] →
  ∃ ms rest e d',
    stream_parse (contents d ++ chunk) ms rest e ∧
    Stream.push d chunk = (match e with None => Ok ms | Some e => Throw e end, d') ∧
    wf_decoder d' ∧ contents d' = rest.
Proof.
  intros Hd Hc Hne. unfold Stream.push.
  destruct (Z.eqb_spec (len chunk) 0) as [E|_]; [by apply len_0_inv in E|].
  destruct (append_spec d chunk Hd Hc) as [Hd1 E1]. set (d1 := Stream.append d chunk) in *.
  pose proof Hd1 as [Hl1 _].
  destruct (decode_loop_spec (S (Z.to_nat (Stream.length d1))) d1 0 []) as (ms & c & e & E & Hcb & Hs);
    [done|lia|lia|].
  rewrite E. cbn [app]. rewrite subarray_contents, E1 in Hs.
  destruct (discard_spec d1 c Hd1 ltac:(lia)) as [Hd2 E2].
  exists ms, (Stream.subarray (Stream.buffered d1) c (Stream.length d1)), e, (Stream.discard d1 c).
  split_and!; done.
Qed.

(** A state from which nothing more can be parsed. *)
Definition settled (d : Stream.decoder) : Prop := stream_parse (contents d) [] (contents d) None.

Lemma settled_new : wf_decoder Stream.new ∧ settled Stream.new.
Proof. split; [by split|]. by apply sp_short. Qed.

Lemma push_settled d chunk ms d' :
  wf_decoder d → settled d → Forall is_byte chunk → Stream.push d chunk = (Ok ms, d') →
  wf_decoder d' ∧ settled d' ∧ stream_parse (contents d ++ chunk) ms (contents d') None.
Proof.
  intros Hd Hs Hc H. destruct (decide (chunk = [])) as [->|Hne].
  { unfold Stream.push in H. simpl in H. simplify_eq. by rewrite app_nil_r. }
  destruct (push_spec d chunk Hd Hc Hne) as (ms1 & rest1 & e & d1 & Hp & E & Hd1 & E1).
  rewrite E in H. destruct e; simplify_eq. split_and!; try done.
  unfold settled. clear -Hp. revert Hp. generalize (contents d ++ chunk). intros p Hp.
  remember None as o eqn:Eo. induction Hp; try done.
  - by apply sp_short.
  - by eapply sp_partial.
  - auto.
Qed.

Lemma push_all_spec chunks d ms e d' :
  wf_decoder d → settled d → Forall (Forall is_byte) chunks →
  push_all d chunks = (ms, e, d') →
  match e with
  | None => wf_decoder d' ∧ stream_parse (contents d ++ concat chunks) ms (contents d') None
  | Some e => ∃ ms' rest, stream_parse (contents d ++ concat chunks) ms' rest (Some e)
  end.
Proof.
  intros Hd Hs Hc. revert d ms e d' Hd Hs.
  induction Hc as [|chunk chunks Hch Hcs IH]; intros d ms e d' Hd Hs H; cbn [push_all concat] in *.
  { simplify_eq. by rewrite app_nil_r. }
  assert (Forall is_byte (contents d)) as Hcd by (apply Forall_take, Hd).
  destruct (Stream.push d chunk) as [[ms1|e1] d1] eqn:Ep.
  - destruct (push_settled _ _ _ _ Hd Hs Hch Ep) as (Hd1 & Hs1 & Hp1).
    destruct (push_all d1 chunks) as [[ms2 e2] d2] eqn:Ea. simplify_eq.
    specialize (IH d1 ms2 e d' Hd1 Hs1 Ea). rewrite app_assoc.
    assert (Forall is_byte (contents d ++ chunk)) by (by apply Forall_app).
    destruct e as [e|].
    + destruct IH as (ms' & rest & IH). exists (ms1 ++ ms'), rest. by eapply stream_parse_app.
    + destruct IH as [? IH]. split; [done|]. by eapply stream_parse_app.
  - simplify_eq. destruct (decide (chunk = [])) as [->|Hne].
    { unfold Stream.push in Ep. simpl in Ep. done. }
    destruct (push_spec d chunk Hd Hch Hne) as (ms1 & rest1 & e & d1' & Hp & E & _).
    rewrite E in Ep. destruct e as [e|]; simplify_eq. exists ms1, (rest1 ++ concat chunks).
    rewrite app_assoc. apply stream_parse_app_error; [by apply Forall_app|done].
Qed.

(** ** Properties *)

(** C36: how a stream is cut into chunks does not matter: pushing the chunks one
    by one yields the messages of one push of all the bytes and leaves the same
    bytes pending; if some chunk makes the decoder throw, so does the one push,
    with the same error. *)
Theorem stream_chunking (chunks : list bytes) :
  Forall (Forall is_byte) chunks →
  match push_all Stream.new chunks with
  | (ms, None, d) =>
      ∃ d1, Stream.push Stream.new (concat chunks) = (Ok ms, d1) ∧ contents d1 = contents d
  | (_, Some e, _) => (Stream.push Stream.new (concat chunks)).1 = Throw e
  end.
Proof.
  intros Hc. destruct settled_new as [Hw Hs].
  destruct (push_all Stream.new chunks) as [[ms e] d] eqn:E.
  pose proof (push_all_spec _ _ _ _ _ Hw Hs Hc E) as H. cbn [contents] in H.
  change (contents Stream.new) with (@nil Z) in H. cbn [app] in H.
  assert (Forall is_byte (concat chunks)) as Hb.
  { clear -Hc. induction Hc; simpl; [constructor|]. by apply Forall_app. }
  destruct (decide (concat chunks = [])) as [E0|Hne].
  - rewrite E0 in *. assert (stream_parse [] [] [] None) as H0 by (by apply sp_short).
    destruct e as [e|].
    + destruct H as (? & ? & H). by destruct (stream_parse_det _ _ _ _ _ _ _ H H0) as (_ & _ & ?).
    + destruct H as [_ H]. destruct (stream_parse_det _ _ _ _ _ _ _ H H0) as (-> & Ed & _).
      exists Stream.new. by rewrite Ed.
  - destruct (push_spec Stream.new _ Hw Hb Hne) as (ms1 & rest1 & e1 & d1 & Hp & E1 & _ & Ed1).
    change (contents Stream.new ++ concat chunks) with (concat chunks) in Hp.
    destruct e as [e|].
    + destruct H as (ms' & rest & H).
      destruct (stream_parse_det _ _ _ _ _ _ _ H Hp) as (_ & _ & <-). by rewrite E1.
    + destruct H as [_ H]. destruct (stream_parse_det _ _ _ _ _ _ _ H Hp) as (-> & Er & <-).
      exists d1. by rewrite Ed1, Er.
Qed.

(** However the bytes of a sequence of messages arrive, the decoder yields
    exactly those messages, in order, and nothing stays pending. *)
Lemma stream_messages (bs chunks : list bytes) (ms : list DecodedMessage) :
  Forall (Forall is_byte) chunks → concat chunks = concat bs →
  Forall2 (λ b m, decodeMessage b = Ok m) bs ms →
  ∃ d, push_all Stream.new chunks = (ms, None, d) ∧ contents d = [].
Proof.
  intros Hc E Hm. apply stream_parse_messages in Hm. rewrite <- E in Hm.
  destruct settled_new as [Hw Hs]. destruct (push_all Stream.new chunks) as [[ms' e] d] eqn:Ep.
  pose proof (push_all_spec _ _ _ _ _ Hw Hs Hc Ep) as H.
  change (contents Stream.new) with (@nil Z) in H. cbn [app] in H. destruct e as [e|].
  - destruct H as (ms1 & rest & H). by destruct (stream_parse_det _ _ _ _ _ _ _ H Hm) as (_ & _ & ?).
  - destruct H as [_ H]. destruct (stream_parse_det _ _ _ _ _ _ _ H Hm) as (-> & Ed & _).
    by exists d.
Qed.

Lemma stream_messages_witness :
  let b := frame_bytes MessageKind.StreamEnd 0 9 (enc (VDoc [(js "count", VNumber (number_of_Z 3))])) in
  ∃ d, push_all Stream.new [take 5 b; drop 5 b ++ take 20 b; drop 20 b] =
    ([{| version := 1; kind := 6; flags := 0; requestId := 9;
         payload := [(js "count", VNumber (number_of_Z 3))] |};
      {| version := 1; kind := 6; flags := 0; requestId := 9;
         payload := [(js "count", VNumber (number_of_Z 3))] |}], None, d) ∧ contents d = [].
Proof.
  intros b. apply (stream_messages [b; b]).
  - do 3 (apply Forall_cons; split; [apply bytes_wf; vm_compute; reflexivity|]).
    apply Forall_nil_2.
  - vm_compute. reflexivity.
  - repeat constructor; vm_compute; reflexivity.
Defined.

Lemma stream_chunking_witness :
  match push_all Stream.new [[0x53]; [0x4e; 0x54; 0x52; 0; 2] ++ repeat 0 10; [7]] with
  | (ms, None, d) =>
      ∃ d1, Stream.push Stream.new ([0x53] ++ ([0x4e; 0x54; 0x52; 0; 2] ++ repeat 0 10) ++ [7] ++ [])
              = (Ok ms, d1) ∧ contents d1 = contents d
  | (_, Some e, _) =>
      (Stream.push Stream.new ([0x53] ++ ([0x4e; 0x54; 0x52; 0; 2] ++ repeat 0 10) ++ [7] ++ [])).1 = Throw e
  end.
Proof.
  apply (stream_chunking [[0x53]; [0x4e; 0x54; 0x52; 0; 2] ++ repeat 0 10; [7]]).
  do 3 (apply Forall_cons; split; [apply bytes_wf; reflexivity|]). apply Forall_nil_2.
Defined.

(** ** Payloads survive the codec *)
Lemma norm_fields_get fs fs' k :
  NoDup (omap_keys fs) → fs' ≡ₚ norm_fields fs → obj_get fs' k = norm <$> obj_get fs k.
Proof.
  intros Hd Hp. assert (omap_keys (norm_fields fs) = omap_keys fs) as Hk.
  { unfold omap_keys, norm_fields. by rewrite map_map. }
  rewrite <- (omap_get_perm (norm_fields fs) fs') by (by rewrite ?Hk).
  clear. induction fs as [|[k' v] fs IH]; [done|]. simpl. by case_decide.
Qed.

(** The checks see no difference. *)
Lemma isDocument_norm o : isDocument (norm <$> o) = isDocument o.
Proof. by destruct o as [[]|]. Qed.
Lemma isNonEmptyString_norm o : isNonEmptyString (norm <$> o) = isNonEmptyString o.
Proof. by destruct o as [[]|]. Qed.
Lemma isUnsignedInteger_norm o m : isUnsignedInteger (norm <$> o) m = isUnsignedInteger o m.
Proof. by destruct o as [[]|]. Qed.
Lemma equals_string_norm o s : equals_string (norm <$> o) s = equals_string o s.
Proof. by destruct o as [[]|]. Qed.

Lemma equals_zero_norm o : equals_zero (norm <$> o) = equals_zero o.
Proof. by destruct o as [[]|]. Qed.
Lemma isValidDate_norm o : isValidDate (norm <$> o) = isValidDate o.
Proof. by destruct o as [[]|]. Qed.
Lemma isBoolean_norm o : isBoolean (norm <$> o) = isBoolean o.
Proof. by destruct o as [[]|]. Qed.
Lemma isStringArray_norm o : isStringArray (norm <$> o) = isStringArray o.
Proof.
  destruct o as [[]|]; try done. simpl.
  induction l as [|v l IH]; [done|]. simpl. rewrite IH. by destruct v.
Qed.

Lemma validate_norm kind fs fs' :
  NoDup (omap_keys fs) → fs' ≡ₚ norm_fields fs →
  validateMessagePayload kind fs' = validateMessagePayload kind fs.
Proof.
  intros Hd Hp. pose proof (λ k, norm_fields_get fs fs' k Hd Hp) as Hg.
  assert (∀ k, obj_has fs' k = obj_has fs k) as Hh.
  { intros k. unfold omap_has. rewrite Hg. by destruct (obj_get fs k). }
  unfold validateMessagePayload, validateHandshake, validatePing, validateCommand,
    validateResult, validateStreamItem, validateStreamEnd, validateError.
  by rewrite !Hg, !Hh, !isDocument_norm, !isNonEmptyString_norm, !isUnsignedInteger_norm,
    !equals_string_norm, !equals_zero_norm, !isValidDate_norm, !isBoolean_norm,
    !isStringArray_norm.
Qed.

Lemma validate_kind kind fs u :
  validateMessagePayload kind fs = Ok u → kind ∈ MessageKind.values.
Proof.
  unfold validateMessagePayload. intros H.
  repeat (case_match; [match goal with E : (_ =? _) = true |- _ => apply Z.eqb_eq in E end;
    subst kind; unfold MessageKind.values; set_solver|]). done.
Qed.

Lemma encodeFrame_bytes (input : Frame.FrameInput) data :
  Forall is_byte (Frame.in_payload input) → Frame.encodeFrame input = Ok data → Forall is_byte data.
Proof.
  intros Hp. unfold Frame.encodeFrame. rewrite frame_layout. intros H. inv_ok H.
  unfold Frame.frame_bytes. apply Forall_app. split; [by apply bytes_wf|].
  do 5 (apply Forall_app; split; [apply be_bytes|]). exact Hp.
Qed.

(** An encoded message is bytes, and what they are read as. *)
Record transmitted (input : MessageInput) (m : DecodedMessage) : Prop := {
  transmitted_version : version m = PROTOCOL_VERSION;
  transmitted_kind : kind m = in_kind input;
  transmitted_flags : flags m = Z_of_number (default (number_of_Z 0) (in_flags input));
  transmitted_id : requestId m = Z_of_number (in_requestId input);
  transmitted_payload : VDoc (payload m) ≡ VDoc (in_payload input);
  transmitted_get : ∀ k, obj_get (payload m) k = norm <$> obj_get (in_payload input) k;
}.

Lemma message_decoded (input : MessageInput) (data : bytes) :
  wf_value (VDoc (in_payload input)) = true → bom_free (VDoc (in_payload input)) = true →
  encodeMessage input = Ok data →
  Forall is_byte data ∧ ∃ m, decodeMessage data = Ok m ∧ transmitted input m.
Proof.
  intros Hw Hb E. unfold encodeMessage, encodeMessagePayload in E.
  apply bind_Ok_inv in E as (p & Ep & E). apply bind_Ok_inv in Ep as ([] & Hv & Ep).
  destruct (encode_decode_document _ _ Hw Hb Ep) as (fs' & Ed & Hp & Heq).
  split.
  { eapply encodeFrame_bytes; [|exact E]. cbn. apply encode_Ok in Ep as (Hs & -> & _). by eapply enc_is_bytes. }
  pose proof (validate_kind _ _ _ Hv) as Hk. pose proof (kind_range _ Hk).
  pose proof (frame_outcome {| Frame.in_kind := number_of_Z (in_kind input);
    Frame.in_requestId := in_requestId input; Frame.in_payload := p;
    Frame.in_flags := in_flags input |}) as Hf.
  rewrite E in Hf. destruct Hf as (_ & _ & Hf). unfold decodeMessage. rewrite Hf.
  cbn [mbind res_bind Frame.kind Frame.payload Frame.flags Frame.requestId Frame.version
       Frame.in_kind Frame.in_payload Frame.in_flags Frame.in_requestId].
  rewrite Z_of_number_of_Z by lia. unfold decodeMessagePayload. rewrite Ed.
  cbn [mbind res_bind]. apply wf_doc in Hw as [_ Hd].
  rewrite (validate_norm _ _ _ Hd Hp), Hv. cbn [mbind res_bind]. eexists. split; [done|].
  split; [done..|exact Heq|]. intros k. by apply norm_fields_get.
Qed.

(** A decoder with nothing pending that gets a whole message. *)
Lemma message_pushed (input : MessageInput) (data : bytes) d :
  wf_value (VDoc (in_payload input)) = true → bom_free (VDoc (in_payload input)) = true →
  encodeMessage input = Ok data → wf_decoder d → contents d = [] →
  ∃ m d', Stream.push d data = (Ok [m], d') ∧ transmitted input m ∧ wf_decoder d' ∧ contents d' = [].
Proof.
  intros Hw Hb E Hd Hc. destruct (message_decoded input data Hw Hb E) as (Hbytes & m & Em & Ht).
  destruct (push_spec d data Hd Hbytes) as (ms & rest & e & d' & Hp & Ep & Hd' & Er).
  { intros ->. destruct (decodeMessage_frame _ _ Em) as [Hl _]. exact (Hl eq_refl). }
  rewrite Hc in Hp. cbn [app] in Hp.
  assert (stream_parse data [m] [] None) as Hp'.
  { rewrite <- (app_nil_r data). apply (stream_parse_messages [data] [m]). by repeat constructor. }
  destruct (stream_parse_det _ _ _ _ _ _ _ Hp Hp') as (-> & -> & ->). by exists m, d'.
Qed.

(** A message survives the wire: decoding an encoded message gives its kind,
    request id and flags and its payload up to the order of the fields. *)
Lemma message_roundtrip (input : MessageInput) (data : bytes) :
  wf_value (VDoc (in_payload input)) = true → bom_free (VDoc (in_payload input)) = true →
  encodeMessage input = Ok data →
  ∃ m, decodeMessage data = Ok m ∧
    version m = PROTOCOL_VERSION ∧ kind m = in_kind input ∧
    flags m = Z_of_number (default (number_of_Z 0) (in_flags input)) ∧
    requestId m = Z_of_number (in_requestId input) ∧
    VDoc (payload m) ≡ VDoc (in_payload input).
Proof.
  intros Hw Hb E. destruct (message_decoded input data Hw Hb E) as (_ & m & Em & [T1 T2 T3 T4 T5 _]). by exists m.
Qed.

Lemma message_roundtrip_witness :
  ∃ m, decodeMessage (frame_bytes MessageKind.Result 1 9 (enc (VDoc [(js "value", sample)]))) = Ok m ∧
    version m = PROTOCOL_VERSION ∧ kind m = MessageKind.Result ∧
    flags m = Z_of_number (number_of_Z 1) ∧ requestId m = Z_of_number (number_of_Z 9) ∧
    VDoc (payload m) ≡ VDoc [(js "value", sample)].
Proof.
  apply (message_roundtrip {| in_kind := MessageKind.Result; in_requestId := number_of_Z 9;
    in_payload := [(js "value", sample)]; in_flags := Some (number_of_Z 1) |});
    vm_compute; reflexivity.
Defined.
