(* ===== verification/Filter.v ===== *)
(** * Filters

    packages/storage/src/filter.ts: find filters compiled to predicates on
    documents. A compiled predicate may throw, since comparing canonical bytes
    encodes the field's value. *)

From S2P Require Import Prelude Errors JsNumber JsString JsValue Binary Codec.

(** [array.every(f)] and [array.some(f)], for functions that may throw. *)
Definition everyM {A} (f : A → result bool) : list A → result bool :=
  fix go l :=
    match l with
    | [] => Ok true
    | x :: l => b ← f x; if b : bool then go l else Ok false
    end.

Definition someM {A} (f : A → result bool) : list A → result bool :=
  fix go l :=
    match l with
    | [] => Ok false
    | x :: l => b ← f x; if b : bool then Ok true else go l
    end.

Definition isPlainDocument (value : DocumentValue) : bool :=
  match value with VDoc _ => true | _ => false end.

Module Filter.
Definition invalidFilter {A} : result A := Throw (StorageError InvalidFilter).

(** [ResolvedField]: [None] is [{ found: false }]. *)
Abbreviation ResolvedField := (option DocumentValue).
Abbreviation FieldPredicate := (ResolvedField → result bool).
Abbreviation CompiledFilter := (Document → result bool).

Record CompiledField := {
  segments : list jsstring;
  predicates : list FieldPredicate;
}.

Inductive ComparisonOperator := Gt_ | Gte_ | Lt_ | Lte_.

(** ** Fields *)
Definition compileFieldPath (path : jsstring) : result (list jsstring) :=
  if len path =? 0 then invalidFilter
  else
    let segments := split_dot path in
    if existsb (λ segment, (len segment =? 0) || starts_dollar segment) segments
    then invalidFilter
    else Ok segments.

Fixpoint resolveField (document : Document) (segments : list jsstring) : ResolvedField :=
  match segments with
  | [] => None
  | segment :: rest =>
      match obj_get document segment with
      | None => None
      | Some value =>
          match rest with
          | [] => Some value
          | _ => match value with VDoc current => resolveField current rest | _ => None end
          end
      end
  end.

(** ** Comparing values *)
Definition bytesEqual (left right : bytes) : bool := bool_decide (left = right).

Definition canonicalEquals (actual : DocumentValue) (encodedExpected : bytes) : result bool :=
  bs ← encodeDocumentValue actual;
  Ok (bytesEqual bs encodedExpected).

Definition isComparableValue (value : DocumentValue) : bool :=
  match value with
  | VString _ | VBigInt _ | VBinary _ | VId _ => true
  | VNumber n => isFinite n
  | VDate (Some _) => true
  | _ => false
  end.

(** [left < right ? -1 : left > right ? 1 : 0], given how the two compare. *)
Definition comparePrimitive (c : comparison) : Z := sign_of c.

Fixpoint compareBytes (left right : bytes) : Z :=
  match left, right with
  | l :: left', r :: right' =>
      if l <? r then -1 else if r <? l then 1 else compareBytes left' right'
  | _, _ => comparePrimitive (len left ?= len right)
  end.

(** Two numbers under [<] and [>]; NaN is neither. *)
Definition number_cmp (left right : number) : comparison :=
  match number_value left, number_value right with
  | Some x, Some y => extZ_cmp x y
  | _, _ => Eq
  end.

(** [None] is [undefined]. *)
Definition compareValues (actual expected : DocumentValue) : option Z :=
  match expected, actual with
  | VString e, VString a => Some (comparePrimitive (string_cmp a e))
  | VNumber e, VNumber a =>
      if negb (isFinite a) || negb (isFinite e) then None
      else Some (comparePrimitive (number_cmp a e))
  | VBigInt e, VBigInt a => Some (comparePrimitive (a ?= e))
  | VDate e, VDate a =>
      match a, e with
      | Some a, Some e => Some (comparePrimitive (a ?= e))
      | _, _ => None
      end
  | VBinary e, VBinary a => Some (compareBytes a e)
  | VId e, VId a => Some (compareBytes a e)
  | _, _ => None
  end.

Definition isOperatorDocument (value : DocumentValue) : bool :=
  match value with
  | VDoc fields => existsb (λ kv, starts_dollar kv.1) fields
  | _ => false
  end.

(** ** Predicates *)
Definition compileEqualityPredicate (expected : DocumentValue) : result FieldPredicate :=
  encodedExpected ← encodeDocumentValue expected;
  Ok (λ field,
    match field with
    | None => Ok false
    | Some value => canonicalEquals value encodedExpected
    end).

Definition compileInequalityPredicate (expected : DocumentValue) : result FieldPredicate :=
  encodedExpected ← encodeDocumentValue expected;
  Ok (λ field,
    match field with
    | None => Ok true
    | Some value => b ← canonicalEquals value encodedExpected; Ok (negb b)
    end).

Definition compileComparisonPredicate (operator : ComparisonOperator) (expected : DocumentValue)
    : result FieldPredicate :=
  if negb (isComparableValue expected) then invalidFilter
  else Ok (λ field,
    match field with
    | None => Ok false
    | Some value =>
        match compareValues value expected with
        | None => Ok false
        | Some comparison =>
            Ok match operator with
               | Gt_ => 0 <? comparison
               | Gte_ => 0 <=? comparison
               | Lt_ => comparison <? 0
               | Lte_ => comparison <=? 0
               end
        end
    end).

Definition compileMembershipPredicate (operand : DocumentValue) (negate : bool)
    : result FieldPredicate :=
  match operand with
  | VArray candidates =>
      encodedCandidates ← mapM encodeDocumentValue candidates;
      Ok (λ field,
        match field with
        | None => Ok negate
        | Some value =>
            directMatch ← someM (canonicalEquals value) encodedCandidates;
            elementMatch ←
              match value with
              | VArray elements =>
                  someM (λ element, someM (canonicalEquals element) encodedCandidates) elements
              | _ => Ok false
              end;
            let matched := directMatch || elementMatch in
            Ok (if negate then negb matched else matched)
        end)
  | _ => invalidFilter
  end.

Definition compileExistsPredicate (operand : DocumentValue) : result FieldPredicate :=
  match operand with
  | VBool b => Ok (λ field, Ok (eqb (if field is Some _ then true else false) b))
  | _ => invalidFilter
  end.

(** [compileNotPredicate], the operators of its operand compiled. *)
Definition notPredicate (predicates : list FieldPredicate) : FieldPredicate :=
  λ field, b ← everyM (λ predicate, predicate field) predicates; Ok (negb b).

(** [compileOperatorDocument] on a document; [$not] recurses through
    [compileNotPredicate]. *)
Fixpoint compileOperatorDocument (operators : DocumentValue) : result (list FieldPredicate) :=
  match operators with
  | VDoc fields =>
      if existsb (λ kv : jsstring * DocumentValue, negb (starts_dollar kv.1)) fields
      then invalidFilter
      else
        mapM (λ kv : jsstring * DocumentValue, let (name, operand) := kv in
          if decide (name = js "$eq") then compileEqualityPredicate operand
          else if decide (name = js "$ne") then compileInequalityPredicate operand
          else if decide (name = js "$gt") then compileComparisonPredicate Gt_ operand
          else if decide (name = js "$gte") then compileComparisonPredicate Gte_ operand
          else if decide (name = js "$lt") then compileComparisonPredicate Lt_ operand
          else if decide (name = js "$lte") then compileComparisonPredicate Lte_ operand
          else if decide (name = js "$in") then compileMembershipPredicate operand false
          else if decide (name = js "$nin") then compileMembershipPredicate operand true
          else if decide (name = js "$exists") then compileExistsPredicate operand
          else if decide (name = js "$not") then
            if isOperatorDocument operand then
              predicates ← compileOperatorDocument operand;
              Ok (notPredicate predicates)
            else invalidFilter
          else invalidFilter) fields
  | _ => invalidFilter
  end.

Definition compileField (path : jsstring) (value : DocumentValue) : result CompiledField :=
  segments ← compileFieldPath path;
  predicates ←
    if isOperatorDocument value then compileOperatorDocument value
    else p ← compileEqualityPredicate value; Ok [p];
  Ok {| segments := segments; predicates := predicates |}.

Definition matchesCompiledFilter (document : Document) (fields : list CompiledField)
    : result bool :=
  everyM (λ field,
    let resolved := resolveField document (segments field) in
    everyM (λ predicate, predicate resolved) (predicates field)) fields.

(** What a logical operator does with its compiled clauses. *)
Definition logicalFilter (name : jsstring) (clauses : list CompiledFilter) : CompiledFilter :=
  λ document,
    if decide (name = js "$and") then everyM (λ matches, matches document) clauses
    else if decide (name = js "$or") then someM (λ matches, matches document) clauses
    else b ← someM (λ matches, matches document) clauses; Ok (negb b).

(** [compileClauses]; the fields and the logical operators are compiled in the
    order of the keys, and [compileLogicalOperator] recurses. *)
Fixpoint compileClauses (filter : DocumentValue) : result CompiledFilter :=
  match filter with
  | VDoc entries =>
      compiled ← mapM (λ kv : jsstring * DocumentValue, let (key, value) := kv in
        if starts_dollar key then
          if bool_decide (key = js "$and") || bool_decide (key = js "$or")
             || bool_decide (key = js "$nor") then
            match value with
            | VArray operand =>
                if (len operand =? 0) || negb (forallb isPlainDocument operand)
                then invalidFilter
                else
                  clauses ← mapM compileClauses operand;
                  Ok (inr (logicalFilter key clauses))
            | _ => invalidFilter
            end
          else invalidFilter
        else
          field ← compileField key value;
          Ok (inl field)) entries;
      let fields := omap (λ c : CompiledField + CompiledFilter, match c with inl f => Some f | inr _ => None end) compiled in
      let logical := omap (λ c : CompiledField + CompiledFilter, match c with inl _ => None | inr l => Some l end) compiled in
      Ok (λ document,
        b ← matchesCompiledFilter document fields;
        if b : bool then everyM (λ matches, matches document) logical else Ok false)
  | _ => invalidFilter
  end.

Definition compileFilter (filter : DocumentValue) : result CompiledFilter :=
  if negb (isPlainDocument filter) then invalidFilter
  else
    catch (_ ← encodeDocumentValue filter; compileClauses filter)
      (λ error, if isStorageError error then Throw error else invalidFilter).
End Filter.
Abbreviation CompiledFilter := Filter.CompiledFilter.
