(* ===== verification/FilterSpec.v ===== *)
(** * What filters mean

    The meaning of a filter as a proposition on documents, where equality is
    equality up to field order, and the theorems that compiling a filter (Filter.v)
    succeeds exactly on the valid filters and that a compiled filter decides its
    meaning on every document the store can hold. *)

From S2P Require Import Prelude Errors JsNumber JsString JsValue Binary Codec Roundtrip Filter.
Import Filter.

(** ** Definitions *)

(** A value that the encoder accepts. *)
Definition fits (v : DocumentValue) : Prop :=
  storable top_levels v = true ∧ len (enc v) ≤ MAX_PAYLOAD_SIZE.

Definition encodable (v : DocumentValue) : Prop := wf_value v = true ∧ fits v.

(** Every entry of a document satisfies [P]; some element of an array does. *)
Definition all_entries (P : jsstring → DocumentValue → Prop) : Document → Prop :=
  fix go fs := match fs with [] => True | (k, v) :: fs => P k v ∧ go fs end.

Definition all_of (P : DocumentValue → Prop) : list DocumentValue → Prop :=
  fix go l := match l with [] => True | v :: l => P v ∧ go l end.

Definition some_of (P : DocumentValue → Prop) : list DocumentValue → Prop :=
  fix go l := match l with [] => False | v :: l => P v ∨ go l end.

Definition equals_value (field : option DocumentValue) (expected : DocumentValue) : Prop :=
  ∃ x, field = Some x ∧ x ≡ expected.

(** The field, or an element of the array it holds, is one of the candidates. *)
Definition member_of (field : option DocumentValue) (candidates : list DocumentValue) : Prop :=
  ∃ x, field = Some x ∧
    ((∃ c, c ∈ candidates ∧ x ≡ c) ∨
     (∃ l e c, x = VArray l ∧ e ∈ l ∧ c ∈ candidates ∧ e ≡ c)).

(** The field compares with [expected], and the result satisfies [test]. *)
Definition compares (test : Z → Prop) (field : option DocumentValue) (expected : DocumentValue) : Prop :=
  ∃ x c, field = Some x ∧ compareValues x expected = Some c ∧ test c.

Definition array_items (v : DocumentValue) : list DocumentValue :=
  match v with VArray l => l | _ => [] end.

Fixpoint operators_hold (operators : DocumentValue) (field : option DocumentValue) : Prop :=
  match operators with
  | VDoc fs =>
      all_entries (λ name operand,
        if decide (name = js "$eq") then equals_value field operand
        else if decide (name = js "$ne") then ¬ equals_value field operand
        else if decide (name = js "$gt") then compares (λ c, 0 < c) field operand
        else if decide (name = js "$gte") then compares (λ c, 0 ≤ c) field operand
        else if decide (name = js "$lt") then compares (λ c, c < 0) field operand
        else if decide (name = js "$lte") then compares (λ c, c ≤ 0) field operand
        else if decide (name = js "$in") then member_of field (array_items operand)
        else if decide (name = js "$nin") then ¬ member_of field (array_items operand)
        else if decide (name = js "$exists") then is_Some field ↔ operand = VBool true
        else ¬ operators_hold operand field) fs
  | _ => False
  end.

Definition field_holds (value : DocumentValue) (field : option DocumentValue) : Prop :=
  if isOperatorDocument value then operators_hold value field else equals_value field value.

Fixpoint filter_holds (filter : DocumentValue) (document : Document) : Prop :=
  match filter with
  | VDoc fs =>
      all_entries (λ key value,
        if starts_dollar key then
          match value with
          | VArray clauses =>
              if decide (key = js "$and") then all_of (λ c, filter_holds c document) clauses
              else if decide (key = js "$or") then some_of (λ c, filter_holds c document) clauses
              else ¬ some_of (λ c, filter_holds c document) clauses
          | _ => False
          end
        else field_holds value (resolveField document (split_dot key))) fs
  | _ => False
  end.

(** ** Valid filters *)
Fixpoint valid_operators (operators : DocumentValue) : bool :=
  match operators with
  | VDoc fs =>
      forallb (λ kv : jsstring * DocumentValue, let (name, operand) := kv in
        if decide (name = js "$eq") then true
        else if decide (name = js "$ne") then true
        else if decide (name = js "$gt") then isComparableValue operand
        else if decide (name = js "$gte") then isComparableValue operand
        else if decide (name = js "$lt") then isComparableValue operand
        else if decide (name = js "$lte") then isComparableValue operand
        else if decide (name = js "$in") then if operand is VArray _ then true else false
        else if decide (name = js "$nin") then if operand is VArray _ then true else false
        else if decide (name = js "$exists") then if operand is VBool _ then true else false
        else if decide (name = js "$not") then isOperatorDocument operand && valid_operators operand
        else false) fs
  | _ => false
  end.

Definition valid_path (path : jsstring) : bool :=
  negb (len path =? 0)
  && forallb (λ segment, negb (len segment =? 0) && negb (starts_dollar segment)) (split_dot path).

Fixpoint valid_filter (filter : DocumentValue) : bool :=
  match filter with
  | VDoc fs =>
      forallb (λ kv : jsstring * DocumentValue, let (key, value) := kv in
        if starts_dollar key then
          (bool_decide (key = js "$and") || bool_decide (key = js "$or") || bool_decide (key = js "$nor"))
          && match value with
             | VArray l => negb (len l =? 0) && forallb isPlainDocument l && forallb valid_filter l
             | _ => false
             end
        else valid_path key && (if isOperatorDocument value then valid_operators value else true)) fs
  | _ => false
  end.

(** [m] returns, and its answer is whether [P] holds. *)
Definition decides (m : result bool) (P : Prop) : Prop := ∃ b, m = Ok b ∧ (b = true ↔ P).

(** * Parts of what fits *)
Lemma storable_mono n m v : (n ≤ m)%nat → storable n v = true → storable m v = true.
Proof.
  revert n m. induction v as [| b | x | z | s | d | bs | bs | l IH | fs IH] using value_ind';
    intros [|n] [|m] Hle Hs; try done; try lia.
  - cbn [storable] in *. apply forallb_Forall_1 in Hs.
    apply (forallb_Forall_iff _ (λ v, storable m v = true)); [done|].
    rewrite Forall_forall in Hs, IH |- *. intros v Hv. apply (IH v Hv n); [lia|auto].
  - cbn [storable] in *.
    rewrite (forallb_Forall_iff _ (λ kv, isWellFormed kv.1 = true ∧ storable n kv.2 = true)) in Hs
      by (intros [k v]; by rewrite andb_true_iff).
    apply (forallb_Forall_iff _ (λ kv, isWellFormed kv.1 = true ∧ storable m kv.2 = true));
      [intros [k v]; by rewrite andb_true_iff|].
    rewrite Forall_forall in Hs, IH |- *. intros kv Hkv.
    destruct (Hs _ Hkv). split; [done|]. apply (IH kv Hkv n); [lia|done].
Qed.

Lemma storable_elem n l v : storable (S n) (VArray l) = true → v ∈ l → storable n v = true.
Proof.
  cbn [storable]. intros H Hv. apply forallb_Forall_1 in H. rewrite Forall_forall in H. auto.
Qed.

Lemma storable_field n fs k v : storable (S n) (VDoc fs) = true → (k, v) ∈ fs → storable n v = true.
Proof.
  cbn [storable]. intros H Hv.
  rewrite (forallb_Forall_iff _ (λ kv, isWellFormed kv.1 = true ∧ storable n kv.2 = true)) in H
    by (intros [? ?]; by rewrite andb_true_iff).
  rewrite Forall_forall in H. by apply (H _ Hv).
Qed.

Lemma top_levels_S : top_levels = S (Z.to_nat MAX_DOCUMENT_DEPTH).
Proof. done. Qed.

Lemma enc_len_field fs k v : (k, v) ∈ fs → len (enc v) ≤ len (enc (VDoc fs)).
Proof.
  intros H. rewrite enc_doc, len_cons, len_app, be_len.
  rewrite <- (sort_by_perm field_cmp fs) in H.
  pose proof (len_flat_map_le (enc_field enc) _ _ H) as Hl. rewrite len_enc_field in Hl.
  cbn [fst snd] in Hl. pose proof (len_nonneg (utf8_encode k)). lia.
Qed.

Lemma enc_len_elem l v : v ∈ l → len (enc v) ≤ len (enc (VArray l)).
Proof.
  intros H. cbn [enc]. rewrite len_cons, len_app, be_len.
  pose proof (len_flat_map_le enc _ _ H). lia.
Qed.

Lemma fits_field fs k v : fits (VDoc fs) → (k, v) ∈ fs → fits v.
Proof.
  intros [Hs Hl] H. split; [|pose proof (enc_len_field _ _ _ H); lia].
  rewrite top_levels_S in Hs |- *. eapply storable_mono; [|by eapply storable_field]. lia.
Qed.

Lemma fits_elem l v : fits (VArray l) → v ∈ l → fits v.
Proof.
  intros [Hs Hl] H. split; [|pose proof (enc_len_elem _ _ H); lia].
  rewrite top_levels_S in Hs |- *. eapply storable_mono; [|by eapply storable_elem]. lia.
Qed.

Lemma encodable_field fs k v : encodable (VDoc fs) → (k, v) ∈ fs → encodable v.
Proof.
  intros [Hw Hf] H. split; [|by eapply fits_field].
  apply wf_doc in Hw as [Hw _]. rewrite Forall_forall in Hw. by apply (Hw _ H).
Qed.

Lemma encodable_elem l v : encodable (VArray l) → v ∈ l → encodable v.
Proof.
  intros [Hw Hf] H. split; [|by eapply fits_elem].
  apply wf_array in Hw. rewrite Forall_forall in Hw. auto.
Qed.

Lemma fits_encode v : fits v → encodeDocumentValue v = Ok (enc v).
Proof. intros [? ?]. by apply encode_fits. Qed.

Lemma resolveField_encodable document segments v :
  encodable (VDoc document) → resolveField document segments = Some v → encodable v.
Proof.
  revert document. induction segments as [|s segments IH]; intros document Hd H; [done|].
  cbn [resolveField] in H. destruct (obj_get document s) as [x|] eqn:E; [|done].
  apply omap_get_Some_in in E. pose proof (encodable_field _ _ _ Hd E).
  destruct segments; [by simplify_eq|]. destruct x; try done. eauto.
Qed.

(** * Deciding *)
Lemma decides_ok b P : (b = true ↔ P) → decides (Ok b) P.
Proof. by exists b. Qed.

Lemma decides_iff m P Q : (P ↔ Q) → decides m P → decides m Q.
Proof. intros H (b & ? & ?). exists b. naive_solver. Qed.

Lemma decides_neg m P : decides m P → decides (b ← m; Ok (negb b)) (¬ P).
Proof.
  intros (b & -> & Hb). exists (negb b). split; [done|]. destruct b; simpl; naive_solver.
Qed.

Lemma decides_and m1 m2 P Q :
  decides m1 P → decides m2 Q → decides (b ← m1; if b : bool then m2 else Ok false) (P ∧ Q).
Proof.
  intros (b & -> & Hb) (c & E & Hc). destruct b; cbn; [exists c|exists false];
    (split; [done|]); destruct c; naive_solver.
Qed.

Lemma decides_or m1 m2 P Q :
  decides m1 P → decides m2 Q → decides (b ← m1; if b : bool then Ok true else m2) (P ∨ Q).
Proof.
  intros (b & -> & Hb) (c & E & Hc). destruct b; cbn; [exists true|exists c];
    (split; [done|]); destruct c; naive_solver.
Qed.

Lemma decides_every {A} (f : A → result bool) (P : A → Prop) l :
  Forall (λ x, decides (f x) (P x)) l → decides (everyM f l) (Forall P l).
Proof.
  induction 1 as [|x l Hx _ IH]; cbn; [by exists true|].
  eapply decides_iff; [|by apply decides_and]. by rewrite Forall_cons.
Qed.

Lemma decides_some {A} (f : A → result bool) (P : A → Prop) l :
  Forall (λ x, decides (f x) (P x)) l → decides (someM f l) (Exists P l).
Proof.
  induction 1 as [|x l Hx _ IH]; cbn.
  - exists false. split; [done|]. by rewrite Exists_nil.
  - eapply decides_iff; [|by apply decides_or]. by rewrite Exists_cons.
Qed.

(** Comparing canonical bytes decides equality up to field order. *)
Lemma enc_eq_equiv v w : encodable v → encodable w → enc v = enc w ↔ v ≡ w.
Proof.
  intros [Hv [Sv Lv]] [Hw [Sw Lw]]. split; [|by intros ->]. intros E.
  by apply enc_inj.
Qed.

Lemma decides_equals x e :
  encodable x → encodable e → decides (canonicalEquals x (enc e)) (x ≡ e).
Proof.
  intros Hx He. unfold canonicalEquals. rewrite fits_encode by apply Hx. cbn.
  apply decides_ok. unfold bytesEqual. rewrite bool_decide_eq_true. by apply enc_eq_equiv.
Qed.

Lemma decides_entries {B} (f : B → result bool) (P : jsstring → DocumentValue → Prop) fs l :
  Forall2 (λ kv p, decides (f p) (P kv.1 kv.2)) fs l → decides (everyM f l) (all_entries P fs).
Proof.
  induction 1 as [|[k v] p fs l Hp _ IH]; cbn; [by exists true|].
  by apply (decides_and (f p) (everyM f l)).
Qed.

Lemma decides_all_of (ms : list CompiledFilter) P l document :
  Forall2 (λ v (m : CompiledFilter), decides (m document) (P v)) l ms →
  decides (everyM (λ m : CompiledFilter, m document) ms) (all_of P l).
Proof.
  induction 1 as [|v m l ms Hm _ IH]; cbn; [by exists true|]. by apply decides_and.
Qed.

Lemma decides_some_of (ms : list CompiledFilter) P l document :
  Forall2 (λ v (m : CompiledFilter), decides (m document) (P v)) l ms →
  decides (someM (λ m : CompiledFilter, m document) ms) (some_of P l).
Proof.
  induction 1 as [|v m l ms Hm _ IH]; cbn; [by exists false|]. by apply decides_or.
Qed.

(** A resolved field that the store can hold. *)
Definition ok_field (field : option DocumentValue) : Prop := ∀ x, field = Some x → encodable x.

(** ** Predicates decide their meaning *)
Section Predicates.
Context (field : option DocumentValue) (Hfield : ok_field field).

Lemma equality_decides e p :
  encodable e → compileEqualityPredicate e = Ok p → decides (p field) (equals_value field e).
Proof.
  intros He H. unfold compileEqualityPredicate in H. rewrite fits_encode in H by apply He.
  apply Ok_inj in H as <-. destruct field as [x|].
  - eapply decides_iff; [|apply decides_equals; [by apply Hfield|done]].
    unfold equals_value. naive_solver.
  - exists false. split; [done|]. unfold equals_value. naive_solver.
Qed.

Lemma inequality_decides e p :
  encodable e → compileInequalityPredicate e = Ok p → decides (p field) (¬ equals_value field e).
Proof.
  intros He H. unfold compileInequalityPredicate in H. rewrite fits_encode in H by apply He.
  apply Ok_inj in H as <-. destruct field as [x|].
  - apply decides_neg. eapply decides_iff; [|apply decides_equals; [by apply Hfield|done]].
    unfold equals_value. naive_solver.
  - exists true. split; [done|]. unfold equals_value. naive_solver.
Qed.

Lemma comparison_decides o e p :
  compileComparisonPredicate o e = Ok p →
  decides (p field)
    (compares (λ c, match o with Gt_ => 0 < c | Gte_ => 0 ≤ c | Lt_ => c < 0 | Lte_ => c ≤ 0 end)
       field e).
Proof.
  unfold compileComparisonPredicate. intros H. case_match; [done|]. apply Ok_inj in H as <-.
  destruct field as [x|]; [|apply decides_ok; unfold compares; naive_solver].
  destruct (compareValues x e) as [c|] eqn:E; apply decides_ok; unfold compares; [|naive_solver].
  destruct o; rewrite ?Z.ltb_lt, ?Z.leb_le; naive_solver.
Qed.

Lemma mapM_encode l :
  Forall fits l → mapM encodeDocumentValue l = Ok (map enc l).
Proof.
  intros Hl. apply mapM_Ok_Forall2. induction Hl; simpl; constructor; [by apply fits_encode|done].
Qed.

Lemma decides_candidates x candidates :
  encodable x → Forall encodable candidates →
  decides (someM (canonicalEquals x) (map enc candidates)) (∃ c, c ∈ candidates ∧ x ≡ c).
Proof.
  intros Hx Hc.
  eapply decides_iff; [|apply (decides_some _ (λ bs, ∃ c, c ∈ candidates ∧ bs = enc c ∧ x ≡ c))].
  - rewrite Exists_exists. split.
    + intros (bs & _ & c & ? & _ & ?). eauto.
    + intros (c & Hin & ?). exists (enc c). split; [|by exists c].
      by apply list_elem_of_fmap_2 with (f := enc).
  - apply Forall_forall. intros bs (c & -> & Hin)%list_elem_of_fmap.
    rewrite Forall_forall in Hc.
    eapply decides_iff; [|by apply decides_equals, Hc].
    split; [by exists c|]. intros (c' & Hc' & Ee & Hx'). rewrite Hx'.
    apply enc_eq_equiv; [by apply Hc|by apply Hc|done].
Qed.

Lemma membership_decides operand negate p :
  encodable operand → compileMembershipPredicate operand negate = Ok p →
  decides (p field)
    (if negate : bool then ¬ member_of field (array_items operand)
     else member_of field (array_items operand)).
Proof.
  intros He H. destruct operand as [| | | | | | | |l|]; try done. cbn [compileMembershipPredicate] in H.
  assert (Forall encodable l) as Hl.
  { apply Forall_forall. intros v. by apply encodable_elem. }
  rewrite mapM_encode in H by (eapply Forall_impl; [exact Hl|]; by intros ? [? ?]).
  apply Ok_inj in H as <-. cbn [array_items].
  destruct field as [x|]; [|apply decides_ok; unfold member_of; destruct negate; naive_solver].
  assert (encodable x) as Hx by (by apply Hfield).
  destruct (decides_candidates x l Hx Hl) as (b1 & E1 & H1). rewrite E1. cbn [mbind res_bind].
  assert (decides match x with
    | VArray elements => someM (λ element, someM (canonicalEquals element) (map enc l)) elements
    | _ => Ok false
    end (∃ es e c, x = VArray es ∧ e ∈ es ∧ c ∈ l ∧ e ≡ c)) as (b2 & E2 & H2).
  { destruct x as [| | | | | | | |es|]; try (exists false; naive_solver).
    eapply decides_iff; [|apply (decides_some _ (λ e, ∃ c, c ∈ l ∧ e ≡ c))].
    - rewrite Exists_exists. naive_solver.
    - apply Forall_forall. intros e Hin. apply decides_candidates; [|done].
      by eapply encodable_elem. }
  rewrite E2. cbn [mbind res_bind].
  assert (b1 || b2 = true ↔ member_of (Some x) l) as Hm.
  { rewrite orb_true_iff, H1, H2. unfold member_of. naive_solver. }
  destruct negate; apply decides_ok; [|done]. rewrite <- Hm. by destruct (b1 || b2).
Qed.

Lemma exists_decides operand p :
  compileExistsPredicate operand = Ok p →
  decides (p field) (is_Some field ↔ operand = VBool true).
Proof.
  intros H. destruct operand as [|b| | | | | | | |]; try done. apply Ok_inj in H as <-.
  apply decides_ok. rewrite eqb_true_iff.
  destruct field as [x|], b; unfold is_Some; split; naive_solver.
Qed.

(** Operator documents. *)
Lemma operators_decides operators ps :
  encodable operators → compileOperatorDocument operators = Ok ps →
  decides (everyM (λ p : FieldPredicate, p field) ps) (operators_hold operators field).
Proof.
  revert ps. induction operators as [|?|?|?|?|?|?|?|l IHl|fs IH] using value_ind';
    intros ps He H; try done.
  cbn [compileOperatorDocument operators_hold] in *. case_match eqn:Hx; [done|]. clear Hx.
  apply mapM_Ok_Forall2 in H. apply decides_entries.
  assert (∀ kv, kv ∈ fs → encodable kv.2) as Hf.
  { intros [k v]. by apply encodable_field. }
  clear He. revert Hf IH. induction H as [|[name operand] p fs ps Hp _ IHf]; intros Hf IH; [constructor|].
  apply Forall_cons in IH as [IHv IH]. constructor.
  2: { apply IHf; [|done]. intros kv Hkv. apply Hf. by right. }
  assert (encodable operand) as Ho by (apply (Hf (name, operand)); left).
  cbn [fst snd] in *.
  case_decide; [by apply equality_decides|].
  case_decide; [by apply inequality_decides|].
  case_decide; [by apply (comparison_decides Gt_)|].
  case_decide; [by apply (comparison_decides Gte_)|].
  case_decide; [by apply (comparison_decides Lt_)|].
  case_decide; [by apply (comparison_decides Lte_)|].
  case_decide; [by apply (membership_decides operand false)|].
  case_decide; [by apply (membership_decides operand true)|].
  case_decide; [by apply exists_decides|].
  case_decide; [|done]. case_match; [|done]. inv_ok Hp.
  apply decides_neg. by apply IHv.
Qed.
End Predicates.

(** ** Filters decide their meaning *)
Lemma field_decides document key value f :
  encodable (VDoc document) → encodable value → compileField key value = Ok f →
  decides (everyM (λ p : FieldPredicate, p (resolveField document (segments f))) (predicates f))
    (field_holds value (resolveField document (split_dot key))).
Proof.
  intros Hd Hv H. unfold compileField in H. inv_ok H. cbn [segments predicates].
  unfold compileFieldPath in H0. destruct (len key =? 0); [done|].
  destruct (existsb _ (split_dot key)); [done|]. apply Ok_inj in H0 as <-.
  assert (ok_field (resolveField document (split_dot key))) as Hf.
  { intros x. by apply resolveField_encodable. }
  unfold field_holds. destruct (isOperatorDocument value).
  - by apply operators_decides.
  - apply bind_Ok_inv in H1 as (p & Hp & <-%Ok_inj). cbn [everyM].
    destruct (equality_decides _ Hf value p Hv Hp) as (b & -> & Hb).
    exists b. split; [by destruct b|done].
Qed.

(** What an entry of a filter document means. *)
Definition entry_holds (document : Document) (key : jsstring) (value : DocumentValue) : Prop :=
  if starts_dollar key then
    match value with
    | VArray clauses =>
        if decide (key = js "$and") then all_of (λ c, filter_holds c document) clauses
        else if decide (key = js "$or") then some_of (λ c, filter_holds c document) clauses
        else ¬ some_of (λ c, filter_holds c document) clauses
    | _ => False
    end
  else field_holds value (resolveField document (split_dot key)).

Abbreviation compiled_entry := (CompiledField + CompiledFilter)%type.

Definition entry_decides (document : Document) (kv : jsstring * DocumentValue) (c : compiled_entry) : Prop :=
  match c with
  | inl f => decides (everyM (λ p : FieldPredicate, p (resolveField document (segments f))) (predicates f))
               (entry_holds document kv.1 kv.2)
  | inr m => decides (m document) (entry_holds document kv.1 kv.2)
  end.

(** Fields are tried before logical operators, which does not change the
    conjunction. *)
Lemma entries_decide document fs (cs : list compiled_entry) :
  Forall2 (entry_decides document) fs cs →
  ∃ Pf Pl,
    decides (matchesCompiledFilter document
      (omap (λ c : compiled_entry, match c with inl f => Some f | inr _ => None end) cs)) Pf ∧
    decides (everyM (λ m : CompiledFilter, m document)
      (omap (λ c : compiled_entry, match c with inl _ => None | inr l => Some l end) cs)) Pl ∧
    (all_entries (entry_holds document) fs ↔ Pf ∧ Pl).
Proof.
  induction 1 as [|[k v] c fs cs Hc _ (Pf & Pl & Hf & Hl & IH)].
  { exists True, True. split_and!; [by exists true|by exists true|]. simpl. tauto. }
  destruct c as [f|m]; cbn [entry_decides fst snd] in Hc; cbn [omap list_omap all_entries].
  - exists (entry_holds document k v ∧ Pf), Pl. split_and!; [|done|rewrite IH; tauto].
    unfold matchesCompiledFilter in *. cbn [everyM]. by apply decides_and.
  - exists Pf, (entry_holds document k v ∧ Pl). split_and!; [done| |rewrite IH; tauto].
    cbn [everyM]. by apply decides_and.
Qed.

Lemma logical_decides document key operand (clauses : list CompiledFilter) :
  starts_dollar key = true →
  Forall2 (λ v (m : CompiledFilter), decides (m document) (filter_holds v document)) operand clauses →
  decides (logicalFilter key clauses document) (entry_holds document key (VArray operand)).
Proof.
  intros Hk H. unfold entry_holds, logicalFilter. rewrite Hk.
  case_decide; [by apply decides_all_of|].
  case_decide; [by apply decides_some_of|]. by apply decides_neg, decides_some_of.
Qed.

(** Induction for functions that recurse into the arrays of a document's
    fields. *)
Lemma clause_ind (P : DocumentValue → Prop) :
  (∀ v, (∀ fs, v ≠ VDoc fs) → P v) →
  (∀ fs, Forall (λ kv, P kv.2) fs →
         (∀ k l, (k, VArray l) ∈ fs → Forall P l) → P (VDoc fs)) →
  ∀ v, P v.
Proof.
  intros H1 H2 v.
  cut (P v ∧ match v with VArray l => Forall P l | _ => True end); [by intros [? _]|].
  induction v as [|?|?|?|?|?|?|?|l IH|fs IH] using value_ind'; (split; [|try done]);
    try (by apply H1).
  - eapply Forall_impl; [exact IH|]. by intros ? [? _].
  - rewrite Forall_forall in IH. apply H2.
    + apply Forall_forall. intros kv Hkv. by apply IH.
    + intros k l Hkl. apply (IH _ Hkl).
Qed.

Lemma clauses_decide document filter m :
  encodable (VDoc document) → encodable filter → compileClauses filter = Ok m →
  decides (m document) (filter_holds filter document).
Proof.
  intros Hd. revert m. induction filter as [v Hv|fs IH IHl] using clause_ind; intros m He H.
  { destruct v; try done. by destruct (Hv fields). }
  cbn [compileClauses] in H. apply bind_Ok_inv in H as (cs & Hcs & <-%Ok_inj).
  apply mapM_Ok_Forall2 in Hcs.
  destruct (entries_decide document fs cs) as (Pf & Pl & Hf & Hl & Hiff).
  { assert (∀ kv, kv ∈ fs → encodable kv.2) as Hfs by (intros [k v]; by apply encodable_field).
    clear He. induction Hcs as [|[key value] c fs cs Hc _ IHcs]; [constructor|].
    apply Forall_cons in IH as [IHv IH]. constructor.
    2: { apply IHcs; [done| |]; intros; [eapply IHl|apply Hfs]; by right. }
    assert (encodable value) as Hv by (apply (Hfs (key, value)); left).
    destruct (starts_dollar key) eqn:Ek.
    - destruct (bool_decide (key = _) || _ || _); [|done]. destruct value as [| | | | | | | |l|]; try done.
      destruct ((len l =? 0) || _); [done|]. apply bind_Ok_inv in Hc as (ms & Hms & <-%Ok_inj).
      cbn [entry_decides fst snd]. apply logical_decides; [done|].
      apply mapM_Ok_Forall2 in Hms. specialize (IHl key l ltac:(left)).
      assert (∀ v, v ∈ l → encodable v) as Hel by (intros v; by apply encodable_elem).
      clear -Hms IHl Hel. induction Hms as [|v m l ms Hm _ IHms]; [constructor|].
      apply Forall_cons in IHl as [IHv IHl]. constructor; [apply IHv; [apply Hel; left|done]|].
      apply IHms; [done|]. intros. apply Hel. by right.
    - apply bind_Ok_inv in Hc as (f & Hf & <-%Ok_inj). cbn [entry_decides fst snd].
      unfold entry_holds. rewrite Ek. by apply field_decides. }
  eapply decides_iff; [symmetry; exact Hiff|]. by apply decides_and.
Qed.

(** ** Which filters compile *)

(** [m] returns when [b] holds and otherwise throws the filter error. *)
Definition yields {A} (b : bool) (m : result A) : Prop :=
  if b then ∃ a, m = Ok a else m = invalidFilter.

Lemma yields_mapM {A B} (f : A → result B) (b : A → bool) l :
  Forall (λ x, yields (b x) (f x)) l → yields (forallb b l) (mapM f l).
Proof.
  induction 1 as [|x l Hx _ IH]; [by exists []|]. cbn [mapM forallb]. unfold yields in *.
  destruct (b x); cbn [andb]; [|by rewrite Hx]. destruct Hx as [y ->]. cbn [mbind res_bind].
  destruct (forallb b l); [|by rewrite IH]. destruct IH as [ys ->]. by exists (y :: ys).
Qed.

Lemma yields_bind {A B} b (m : result A) (f : A → result B) b2 :
  yields b m → (∀ a, m = Ok a → yields b2 (f a)) → yields (b && b2) (m ≫= f).
Proof.
  unfold yields. destruct b; cbn; [|by intros ->]. intros [a ->] H. by apply H.
Qed.

Lemma yields_ok {A} (a : A) : yields true (Ok a).
Proof. by exists a. Qed.

Lemma yields_equality e : fits e → yields true (compileEqualityPredicate e).
Proof. intros He. unfold compileEqualityPredicate. rewrite fits_encode by done. by eexists. Qed.

Lemma yields_inequality e : fits e → yields true (compileInequalityPredicate e).
Proof. intros He. unfold compileInequalityPredicate. rewrite fits_encode by done. by eexists. Qed.

Lemma yields_comparison o e : yields (isComparableValue e) (compileComparisonPredicate o e).
Proof. unfold compileComparisonPredicate. destruct (isComparableValue e); [by eexists|done]. Qed.

Lemma yields_membership e n :
  fits e → yields (if e is VArray _ then true else false) (compileMembershipPredicate e n).
Proof.
  intros He. destruct e; try done. cbn [compileMembershipPredicate].
  rewrite mapM_encode; [by eexists|]. apply Forall_forall. intros v. by apply fits_elem.
Qed.

Lemma yields_exists e : yields (if e is VBool _ then true else false) (compileExistsPredicate e).
Proof. destruct e; try done. by eexists. Qed.

Lemma dollar_names (fs : Document) :
  forallb (λ kv, starts_dollar kv.1) fs = negb (existsb (λ kv : jsstring * DocumentValue, negb (starts_dollar kv.1)) fs).
Proof. induction fs as [|kv fs IH]; [done|]. simpl. rewrite IH. by destruct (starts_dollar kv.1). Qed.

Lemma valid_operators_dollar fs :
  valid_operators (VDoc fs) = true →
  existsb (λ kv : jsstring * DocumentValue, negb (starts_dollar kv.1)) fs = false.
Proof.
  intros H. apply negb_true_iff. rewrite <- dollar_names. cbn [valid_operators] in H.
  apply forallb_Forall_1 in H. apply (forallb_Forall_iff _ (λ kv, starts_dollar kv.1 = true)); [done|].
  eapply Forall_impl; [exact H|]. intros [name operand] Hn. cbn [fst].
  repeat (case_decide as E; [rewrite E; reflexivity|]; clear E). done.
Qed.

Lemma yields_operators operators :
  fits operators → yields (valid_operators operators) (compileOperatorDocument operators).
Proof.
  induction operators as [|?|?|?|?|?|?|?|l IHl|fs IH] using value_ind'; intros Hf; try done.
  destruct (existsb (λ kv : jsstring * DocumentValue, negb (starts_dollar kv.1)) fs) eqn:Ed.
  { cbn [compileOperatorDocument]. rewrite Ed.
    destruct (valid_operators (VDoc fs)) eqn:Ev; [|done].
    apply valid_operators_dollar in Ev. congruence. }
  cbn [compileOperatorDocument valid_operators]. rewrite Ed. clear Ed. apply yields_mapM.
  assert (∀ kv, kv ∈ fs → fits kv.2) as Hfs by (intros [k v]; by apply fits_field).
  rewrite Forall_forall in IH |- *. intros [name operand] Hin.
  specialize (IH _ Hin (Hfs _ Hin)). specialize (Hfs _ Hin). cbn [snd] in *.
  case_decide; [by apply yields_equality|].
  case_decide; [by apply yields_inequality|].
  do 4 (case_decide; [apply yields_comparison|]).
  do 2 (case_decide; [by apply yields_membership|]).
  case_decide; [apply yields_exists|].
  case_decide; [|done]. destruct (isOperatorDocument operand); [|done]. cbn [andb].
  rewrite <- (andb_true_r (valid_operators operand)). apply yields_bind; [done|].
  intros; apply yields_ok.
Qed.

Lemma yields_path path : yields (valid_path path) (compileFieldPath path).
Proof.
  unfold valid_path, compileFieldPath. destruct (len path =? 0); [done|]. cbn [negb andb].
  assert (existsb (λ segment, (len segment =? 0) || starts_dollar segment) (split_dot path)
    = negb (forallb (λ segment, negb (len segment =? 0) && negb (starts_dollar segment)) (split_dot path)))
    as ->.
  { induction (split_dot path) as [|s l IH]; [done|]. simpl. rewrite IH.
    by destruct (len s =? 0), (starts_dollar s). }
  destruct (forallb _ _); [apply yields_ok|done].
Qed.

Lemma yields_field key value :
  fits value →
  yields (valid_path key && (if isOperatorDocument value then valid_operators value else true))
    (compileField key value).
Proof.
  intros Hv. unfold compileField. apply yields_bind; [apply yields_path|]. intros segments _.
  rewrite <- (andb_true_r (if isOperatorDocument value then _ else _)).
  apply yields_bind; [|intros; apply yields_ok].
  destruct (isOperatorDocument value); [by apply yields_operators|].
  apply (yields_bind true _ _ true); [by apply yields_equality|]. intros; apply yields_ok.
Qed.

Lemma yields_clauses filter :
  fits filter → yields (valid_filter filter) (compileClauses filter).
Proof.
  induction filter as [v Hv|fs IH IHl] using clause_ind; intros Hf.
  { destruct v; try done. by destruct (Hv fields). }
  cbn [compileClauses valid_filter]. rewrite <- (andb_true_r (forallb _ fs)).
  apply yields_bind; [|intros; apply yields_ok]. apply yields_mapM.
  assert (∀ kv, kv ∈ fs → fits kv.2) as Hfs by (intros [k v]; by apply fits_field).
  rewrite Forall_forall in IH |- *. intros [key value] Hin.
  specialize (Hfs _ Hin). cbn [snd] in Hfs.
  destruct (starts_dollar key) eqn:Ek.
  - destruct (_ || _ || _); [|done]. cbn [andb]. destruct value as [| | | | | | | |l|]; try done.
    destruct (len l =? 0); [done|]. cbn [negb orb andb].
    destruct (forallb isPlainDocument l); [|done]. cbn [negb andb].
    rewrite <- (andb_true_r (forallb valid_filter l)). apply yields_bind; [|intros; apply yields_ok].
    apply yields_mapM. specialize (IHl key l Hin). rewrite Forall_forall in IHl |- *.
    intros v Hv. apply IHl; [done|]. by eapply fits_elem.
  - rewrite <- (andb_true_r (valid_path key && _)).
    apply yields_bind; [by apply yields_field|]. intros; apply yields_ok.
Qed.

(** ** Properties *)

Lemma compileFilter_yields filter :
  match compileFilter filter with
  | Ok m => isPlainDocument filter = true ∧ fits filter ∧ compileClauses filter = Ok m ∧
            valid_filter filter = true
  | Throw e => e = StorageError InvalidFilter ∧ ¬ (fits filter ∧ valid_filter filter = true)
  end.
Proof.
  unfold compileFilter. destruct (isPlainDocument filter) eqn:Ep; cbn [negb].
  2: { split; [done|]. intros [_ H]. by destruct filter. }
  pose proof (encode_outcome filter) as He.
  destruct (encodeDocumentValue filter) as [bs|e] eqn:Ee; cbn [mbind res_bind catch].
  - destruct He as (Hs & -> & Hl). assert (fits filter) as Hf by done.
    pose proof (yields_clauses filter Hf) as Hy. unfold yields in Hy.
    destruct (valid_filter filter) eqn:Ev.
    + destruct Hy as [m ->]. by cbn.
    + rewrite Hy. cbn. split; [done|]. by intros [_ ?].
  - destruct He as [Hfit (c & -> & _)]. cbn [isStorageError]. split; [done|].
    intros [[Hs Hl] _]. destruct (Hfit Hs) as [_ ?]. lia.
Qed.

(** Exactly the valid filters that the encoder accepts compile; every other
    one is refused with the filter error, never another exception. *)
Lemma compileFilter_total (filter : DocumentValue) :
  match compileFilter filter with
  | Ok _ => fits filter ∧ valid_filter filter = true
  | Throw e => e = StorageError InvalidFilter ∧ ¬ (fits filter ∧ valid_filter filter = true)
  end.
Proof.
  pose proof (compileFilter_yields filter) as H.
  destruct (compileFilter filter); [|done]. by destruct H as (_ & ? & _ & ?).
Qed.

Lemma compileFilter_decides filter m document :
  compileFilter filter = Ok m → wf_value filter = true → encodable (VDoc document) →
  decides (m document) (filter_holds filter document).
Proof.
  intros H Hw Hd. pose proof (compileFilter_yields filter) as Hy. rewrite H in Hy.
  destruct Hy as (_ & Hf & Hc & _). by eapply clauses_decide.
Qed.

(** C35: a compiled filter decides the meaning of the filter on every document
    that can be stored: it never throws, and it answers [true] exactly when the
    filter holds, with equality up to the order of fields. *)
Theorem filter_correct (filter : DocumentValue) (m : CompiledFilter) (document : Document) :
  compileFilter filter = Ok m → wf_value filter = true → encodable (VDoc document) →
  ∃ b, m document = Ok b ∧ (b = true ↔ filter_holds filter document).
Proof. apply compileFilter_decides. Qed.

Lemma filter_correct_witness :
  let f := VDoc [(js "a.b", VDoc [(js "$gte", VNumber (number_of_Z 3))]);
                 (js "$or", VArray [VDoc [(js "c", VDoc [(js "y", VNull); (js "x", VNull)])];
                                    VDoc [(js "d", VDoc [(js "$in", VArray [VBigInt 1])])]])] in
  let d := [(js "a", VDoc [(js "b", VNumber (number_of_Z 4))]);
            (js "c", VDoc [(js "x", VNull); (js "y", VNull)])] in
  match compileFilter f with
  | Ok m => ∃ b, m d = Ok b ∧ (b = true ↔ filter_holds f d)
  | Throw _ => False
  end.
Proof.
  intros f d. assert (is_Ok (compileFilter f) = true) as H by (vm_compute; reflexivity).
  assert (encodable (VDoc d)) as Hd.
  { split; [vm_compute; reflexivity|]. split; vm_compute; [reflexivity|discriminate]. }
  assert (wf_value f = true) as Hw by (vm_compute; reflexivity).
  revert H. destruct (compileFilter f) as [m|e] eqn:E; intros H; [|discriminate H].
  exact (filter_correct f m d E Hw Hd).
Defined.
