(* ===== verification/Sort.v ===== *)
(** * Sorting

    packages/storage/src/sort.ts: the order over values of all types, and the
    stable sort of documents by a list of paths. The properties: the order is a
    total preorder, and a sort is the stable rearrangement it defines. *)

From S2P Require Import Prelude Errors JsNumber JsString JsValue Filter.

Module Sort.
Definition invalidSort {A} : result A := Throw (StorageError InvalidFindOptions).

(** A sort specification: paths and directions. *)
Abbreviation SortSpecification := (list (jsstring * Z)).

Record SortKey := { segments : list jsstring; direction : Z }.

Module Rank.
Definition Missing : Z := 0.
Definition Null : Z := 1.
Definition Number : Z := 2.
Definition String : Z := 3.
Definition Binary : Z := 4.
Definition Id : Z := 5.
Definition Boolean : Z := 6.
Definition Date : Z := 7.
Definition Array : Z := 8.
Definition Document : Z := 9.
End Rank.

Definition rankOf (value : DocumentValue) : Z :=
  match value with
  | VNull => Rank.Null
  | VNumber _ | VBigInt _ => Rank.Number
  | VString _ => Rank.String
  | VBool _ => Rank.Boolean
  | VDate _ => Rank.Date
  | VBinary _ => Rank.Binary
  | VId _ => Rank.Id
  | VArray _ => Rank.Array
  | VDoc _ => Rank.Document
  end.

(** [SortValue]: a rank and a value, [None] for [undefined]. *)
Record SortValue := { rank : Z; value : option DocumentValue }.

Definition compareOrdered (c : comparison) : Z := sign_of c.

(** [compareNumbers] on the mathematical values, [None] for NaN. *)
Definition compareNumbers (left right : option extZ) : Z :=
  match left, right with
  | None, None => 0
  | None, Some _ => -1
  | Some _, None => 1
  | Some l, Some r => compareOrdered (extZ_cmp l r)
  end.

(** The value that comparing a number, a bigint or a time value looks at. *)
Definition numeric_value (v : DocumentValue) : option extZ :=
  match v with
  | VNumber n => number_value n
  | VBigInt z => Some (bigint_value z)
  | VDate (Some ms) => Some (bigint_value ms)
  | _ => None
  end.

Fixpoint compareBytes (left right : bytes) : Z :=
  match left, right with
  | l :: left', r :: right' =>
      let difference := l - r in
      if negb (difference =? 0) then (if difference <? 0 then -1 else 1)
      else compareBytes left' right'
  | _, _ => compareOrdered (len left ?= len right)
  end.

Definition compareSortValues (left right : SortValue) : Z :=
  if negb (rank left =? rank right) then (if rank left <? rank right then -1 else 1)
  else
    match value left, value right with
    | Some a, Some b =>
        if rank left =? Rank.Number then compareNumbers (numeric_value a) (numeric_value b)
        else match a, b with
             | VString a, VString b => compareOrdered (string_cmp a b)
             | VBool a, VBool b => compareOrdered (Z.b2z a ?= Z.b2z b)
             | VDate _, VDate _ => compareNumbers (numeric_value a) (numeric_value b)
             | VBinary a, VBinary b => compareBytes a b
             | VId a, VId b => compareBytes a b
             | _, _ => 0
             end
    | _, _ => 0
    end.

Definition sort_value (v : DocumentValue) : SortValue :=
  {| rank := rankOf v; value := Some v |}.

Definition compareDocumentValues (left right : DocumentValue) : Z :=
  compareSortValues (sort_value left) (sort_value right).

Definition missing : SortValue := {| rank := Rank.Missing; value := None |}.

Fixpoint resolveSortValue (document : Document) (segments : list jsstring) : SortValue :=
  match segments with
  | [] => missing
  | segment :: rest =>
      match obj_get document segment with
      | None => missing
      | Some value =>
          match rest with
          | [] => sort_value value
          | _ =>
              match value with
              | VDoc current => resolveSortValue current rest
              | _ => missing
              end
          end
      end
  end.

(** The loop over the entries, [seen] the paths so far. *)
Fixpoint parse_entries (specification : SortSpecification) (seen : list jsstring)
    : result (list SortKey) :=
  match specification with
  | [] => Ok []
  | (path, direction) :: specification =>
      if len path =? 0 then invalidSort
      else if negb (direction =? 1) && negb (direction =? -1) then invalidSort
      else if decide (path ∈ seen) then invalidSort
      else
        let segments := split_dot path in
        if existsb (λ segment, (len segment =? 0) || starts_dollar segment) segments
        then invalidSort
        else
          keys ← parse_entries specification (oset_add seen path);
          Ok ({| segments := segments; direction := direction |} :: keys)
  end.

Definition parseSortSpecification (specification : SortSpecification)
    : result (list SortKey) :=
  if len specification =? 0 then invalidSort else parse_entries specification [].

(** The comparison function given to [Array.prototype.sort], on documents
    decorated with their values. *)
Fixpoint compare_decorated (keys : list SortKey) (left right : list SortValue) : Z :=
  match keys, left, right with
  | key :: keys, l :: ls, r :: rs =>
      let comparison := compareSortValues l r in
      if negb (comparison =? 0) then comparison * direction key
      else compare_decorated keys ls rs
  | _, _, _ => 0
  end.

Definition decorate (keys : list SortKey) (document : Document) : Document * list SortValue :=
  (document, map (λ key, resolveSortValue document (segments key)) keys).

Definition sort_documents (keys : list SortKey) (documents : list Document) : list Document :=
  map fst (sort_by (λ l r, compare_decorated keys l.2 r.2) (map (decorate keys) documents)).

Definition compileSort (specification : SortSpecification)
    : result (list Document → list Document) :=
  keys ← parseSortSpecification specification;
  Ok (sort_documents keys).
End Sort.

(** * The order on values *)
Import Sort.

(** The comparison of two documents by a list of keys. *)
Definition document_cmp (keys : list SortKey) (d1 d2 : Document) : Z :=
  compare_decorated keys (decorate keys d1).2 (decorate keys d2).2.

Lemma compareBytes_lex a b : compareBytes a b = sign_of (lex_cmp a b).
Proof.
  revert b. induction a as [|x a IH]; intros [|y b]; cbn [compareBytes lex_cmp]; try done.
  rewrite IH. destruct (Z.eqb_spec (x - y) 0), (Z.compare_spec x y); simpl; try lia; try done.
  - destruct (Z.ltb_spec (x - y) 0); lia.
  - destruct (Z.ltb_spec (x - y) 0); lia.
Qed.

#[export] Instance compareNumbers_order : CmpOrder compareNumbers.
Proof.
  destruct extZ_cmp_order as [H1 H2].
  split; [intros [x|] [y|]|intros [x|] [y|] [z|]]; simpl; try lia; unfold compareOrdered; eauto.
Qed.

(** A value as a rank, a numeric part and a text part, each compared in turn:
    the order that [compareSortValues] implements. *)
Definition numeric_key (v : DocumentValue) : option extZ :=
  match v with
  | VBool b => Some (Fin (Z.b2z b))
  | v => numeric_value v
  end.

Definition text_key (v : DocumentValue) : list Z :=
  match v with
  | VString s => s
  | VBinary bs => bs
  | VId bs => bs
  | _ => []
  end.

Definition key_order : Z * option extZ * list Z → Z * option extZ * list Z → Z :=
  cmp_lex (λ x y, x.1.1 - y.1.1)
    (cmp_lex (λ x y, compareNumbers x.1.2 y.1.2) (λ x y, sign_of (lex_cmp x.2 y.2))).

Lemma key_order_order : CmpOrder key_order.
Proof.
  apply cmp_lex_order; [split; lia|]. apply cmp_lex_order.
  - apply (cmp_order_key (λ x : Z * option extZ * list Z, x.1.2)), _.
  - apply (cmp_order_key (λ x : Z * option extZ * list Z, x.2) (λ a b, sign_of (lex_cmp a b))), _.
Qed.

(** [None] is a missing field. *)
Definition sort_key (o : option DocumentValue) : Z * option extZ * list Z :=
  match o with
  | None => (Rank.Missing, None, [])
  | Some v => (rankOf v, numeric_key v, text_key v)
  end.

Definition sort_value_of (o : option DocumentValue) : SortValue :=
  match o with None => missing | Some v => sort_value v end.

Lemma compareSortValues_key a b :
  Z.sgn (compareSortValues (sort_value_of a) (sort_value_of b)) =
  Z.sgn (key_order (sort_key a) (sort_key b)).
Proof.
  unfold compareSortValues, key_order, cmp_lex.
  destruct a as [a|], b as [b|]; [destruct a, b|destruct a|destruct b|];
    cbn -[compareNumbers lex_cmp numeric_value]; try done;
    rewrite ?compareBytes_lex; cbn -[compareNumbers lex_cmp numeric_value];
    repeat match goal with
    | |- context [compareNumbers ?x ?y =? 0] => destruct (Z.eqb_spec (compareNumbers x y) 0) as [->|]
    end; try done.
  match goal with b : bool, b' : bool |- _ => by destruct b, b' end.
Qed.

Lemma sort_value_order {A} (f : A → option DocumentValue) :
  CmpOrder (λ x y, compareSortValues (sort_value_of (f x)) (sort_value_of (f y))).
Proof.
  apply (cmp_order_sign _ (λ x y, key_order (sort_key (f x)) (sort_key (f y)))).
  - intros x y. apply compareSortValues_key.
  - apply (cmp_order_key (λ x, sort_key (f x)) key_order), key_order_order.
Qed.




(** What the parser requires of an entry. *)
Definition valid_entry (entry : jsstring * Z) : Prop :=
  entry.1 ≠ [] ∧ (entry.2 = 1 ∨ entry.2 = -1) ∧
  Forall (λ segment, segment ≠ [] ∧ starts_dollar segment = false) (split_dot entry.1).

Definition entry_key (entry : jsstring * Z) : SortKey :=
  {| segments := split_dot entry.1; direction := entry.2 |}.

Lemma segments_check (l : list jsstring) :
  existsb (λ segment, (len segment =? 0) || starts_dollar segment) l = false ↔
  Forall (λ segment, segment ≠ [] ∧ starts_dollar segment = false) l.
Proof.
  induction l as [|s l IH]; simpl; [by split|].
  rewrite orb_false_iff, IH, Forall_cons, orb_false_iff, Z.eqb_neq.
  assert (len s ≠ 0 ↔ s ≠ []) as ->; [|done].
  split; [by intros H ->|]. intros H E. by apply len_0_inv in E.
Qed.

Lemma parse_entries_spec spec seen :
  match parse_entries spec seen with
  | Ok keys => keys = map entry_key spec ∧ Forall valid_entry spec ∧
               NoDup (map fst spec) ∧ (∀ p, p ∈ map fst spec → p ∉ seen)
  | Throw e => e = StorageError InvalidFindOptions ∧
      ¬ (Forall valid_entry spec ∧ NoDup (map fst spec) ∧ ∀ p, p ∈ map fst spec → p ∉ seen)
  end.
Proof.
  revert seen. induction spec as [|[path dir] spec IH]; intros seen; cbn [parse_entries map fst].
  { split_and!; try done; [constructor|]. intros p. by intros ?%not_elem_of_nil. }
  destruct (Z.eqb_spec (len path) 0) as [E|E].
  { split; [done|]. intros [[Hv _]%Forall_cons _]. apply len_0_inv in E as ->. by destruct Hv. }
  destruct (Z.eqb_spec dir 1) as [D1|D1], (Z.eqb_spec dir (-1)) as [D2|D2]; cbn [negb andb];
    try (split; [done|]; intros [[(_ & Hd & _) _]%Forall_cons _]; simpl in Hd; lia).
  all: case_decide as Hs; [split; [done|]; intros (_ & _ & Hp); by apply (Hp path); [left|]|].
  all: destruct (existsb _ (split_dot path)) eqn:Es.
  all: try (split; [done|]; intros [[(_ & _ & Hv) _]%Forall_cons _]; cbn [fst] in Hv;
    apply segments_check in Hv; congruence).
  all: apply segments_check in Es; specialize (IH (oset_add seen path));
    destruct (parse_entries spec (oset_add seen path)) as [keys|e]; cbn [mbind res_bind].
  all: assert (path ≠ []) by (by intros ->).
  all: try (destruct IH as [-> IH]; split; [done|];
    intros ([_ Hv]%Forall_cons & [Hn Hd]%NoDup_cons & Hp); apply IH; split_and!; [done..|];
    intros p Hin; rewrite oset_add_elem; intros [Hps| ->]; [by apply (Hp p); [right|]|done]).
  all: destruct IH as (-> & Hv & Hd & Hp); split_and!; try done.
  all: try (constructor; [|done]; split_and!; simpl; auto).
  all: try (apply NoDup_cons; split; [intros Hin; by apply (Hp path Hin), oset_add_elem; right|done]).
  all: intros p [->|Hin]%elem_of_cons; [done|]; intros Hps; apply (Hp p Hin), oset_add_elem; by left.
Qed.

(** * Properties *)

(** Exactly the non-empty specifications with distinct, well-formed paths and
    directions 1 or -1 are accepted, and each entry becomes one key. *)
Lemma sort_specification (specification : SortSpecification) :
  match parseSortSpecification specification with
  | Ok keys => specification ≠ [] ∧ Forall valid_entry specification ∧
               NoDup (map fst specification) ∧ keys = map entry_key specification
  | Throw e => e = StorageError InvalidFindOptions ∧
      ¬ (specification ≠ [] ∧ Forall valid_entry specification ∧ NoDup (map fst specification))
  end.
Proof.
  unfold parseSortSpecification. destruct (Z.eqb_spec (len specification) 0) as [E|E].
  { apply len_0_inv in E as ->. split; [done|]. by intros [? _]. }
  pose proof (parse_entries_spec specification []) as H.
  assert (specification ≠ []) by (by intros ->).
  destruct (parse_entries specification []) as [keys|e].
  - destruct H as (-> & Hv & Hd & _). done.
  - destruct H as [-> H]. split; [done|]. intros (_ & Hv & Hd). apply H. split_and!; [done..|].
    intros p _. apply not_elem_of_nil.
Qed.

(** The comparison of values of all types is a total preorder: comparing the
    other way round flips the sign, and [<=] is transitive. *)
Lemma values_preorder (a b c : DocumentValue) :
  (compareDocumentValues a b ≤ 0 ↔ 0 ≤ compareDocumentValues b a) ∧
  (compareDocumentValues a b ≤ 0 → compareDocumentValues b c ≤ 0 → compareDocumentValues a c ≤ 0).
Proof.
  destruct (sort_value_order (λ v : DocumentValue, Some v)) as [H1 H2].
  split; [apply H1|apply H2].
Qed.

Lemma sort_documents_by keys documents : sort_documents keys documents = sort_by (document_cmp keys) documents.
Proof.
  unfold sort_documents. rewrite (sort_by_map (decorate keys) (document_cmp keys)) by done.
  rewrite map_map. apply map_id.
Qed.

(** A compiled sort returns the documents that it gets. *)
Lemma compileSort_perm specification sorter documents : compileSort specification = Ok sorter → sorter documents ≡ₚ documents.
Proof. intros (keys & _ & [= <-])%bind_Ok_inv. rewrite sort_documents_by. apply sort_by_perm. Qed.


