(* ===== verification/Update.v ===== *)
(** * Updates

    packages/storage/src/update.ts: update documents compiled to functions that
    change a document, and the document an upsert starts from.

    A compiled update changes a freshly decoded document in place; here it
    returns the changed document. When it throws, the document it was changing
    is dropped by every caller, so nothing is lost by not returning it.
    Documents are trees: two fields never share one mutable object. *)

From S2P Require Import Prelude Errors JsNumber JsString JsValue Binary Codec Roundtrip Filter FilterSpec Sort.

(** [array.filter(f)], for a function that may throw. *)
Definition filterM {A} (f : A → result bool) : list A → result (list A) :=
  fix go l :=
    match l with
    | [] => Ok []
    | x :: l => b ← f x; k ← go l; Ok (if b : bool then x :: k else k)
    end.

Module Update.
Definition invalidUpdate {A} : result A := Throw (StorageError InvalidUpdate).

Inductive UpdateOperator := Set_ | Unset | Inc | Min | Max | Push | Pull | AddToSet.

Definition SUPPORTED_OPERATORS : list (jsstring * UpdateOperator) :=
  [(js "$set", Set_); (js "$unset", Unset); (js "$inc", Inc); (js "$min", Min);
   (js "$max", Max); (js "$push", Push); (js "$pull", Pull); (js "$addToSet", AddToSet)].

Record Instruction := {
  operator : UpdateOperator;
  path : jsstring;
  segments : list jsstring;
  operand : DocumentValue;
}.

(** A compiled update. *)
Abbreviation CompiledUpdate := (Document → result Document).

(** [segments[segments.length - 1]]. *)
Definition last_segment (segments : list jsstring) : jsstring := List.last segments [].

(** ** Paths *)
Fixpoint overlaps (left right : list jsstring) : bool :=
  match left, right with
  | l :: left', r :: right' => bool_decide (l = r) && overlaps left' right'
  | _, _ => true
  end.

Definition reserved (segment : jsstring) : bool :=
  (len segment =? 0) || starts_dollar segment || bool_decide (segment = js "__proto__").

Definition parsePath (path : jsstring) : result (list jsstring) :=
  let segments := split_dot path in
  if existsb reserved segments then invalidUpdate
  else if bool_decide (head segments = Some (js "_id")) then Throw (StorageError ImmutableId)
  else Ok segments.

(** The document that holds the last segment of a path, with how to put it back
    in place: what aliasing does when the code changes the parent. [None] is
    [undefined]. *)
Fixpoint resolveParent (current : Document) (segments : list jsstring) (create : bool)
    : result (option (Document * (Document → Document))) :=
  match segments with
  | [] | [_] => Ok (Some (current, λ parent, parent))
  | segment :: rest =>
      let inside child :=
        r ← resolveParent child rest create;
        Ok (match r with
            | Some (parent, put) =>
                Some (parent, λ parent', obj_set current segment (VDoc (put parent')))
            | None => None
            end) in
      match obj_get current segment with
      | None => if create then inside [] else Ok None
      | Some (VDoc value) => inside value
      | Some _ => if create then invalidUpdate else Ok None
      end
  end.

(** ** Operators *)
Definition validateOperand (operator : UpdateOperator) (operand : DocumentValue)
    : result DocumentValue :=
  match operator with
  | Inc =>
      match operand with
      | VBigInt _ => Ok operand
      | VNumber n => if isFinite n then Ok operand else invalidUpdate
      | _ => invalidUpdate
      end
  | Min | Max =>
      match operand with
      | VArray _ | VDoc _ => invalidUpdate
      | _ => Ok operand
      end
  | _ => Ok operand
  end.

Definition applyInc (parent : Document) (key : jsstring) (operand : DocumentValue)
    : result Document :=
  match obj_get parent key with
  | None => Ok (obj_set parent key operand)
  | Some (VNumber current) =>
      match operand with
      | VNumber n =>
          let sum := number_add current n in
          if negb (isFinite sum) then invalidUpdate else Ok (obj_set parent key (VNumber sum))
      | _ => invalidUpdate
      end
  | Some (VBigInt current) =>
      match operand with
      | VBigInt z => Ok (obj_set parent key (VBigInt (current + z)))
      | _ => invalidUpdate
      end
  | Some _ => invalidUpdate
  end.

Definition applyExtremum (parent : Document) (key : jsstring) (operand : DocumentValue)
    (operator : UpdateOperator) : Document :=
  match obj_get parent key with
  | None => obj_set parent key operand
  | Some current =>
      let comparison := Sort.compareDocumentValues operand current in
      if (match operator with Min => comparison <? 0 | _ => 0 <? comparison end)
      then obj_set parent key operand
      else parent
  end.

(** The array, and the parent, in which [create] puts a new one. *)
Definition getArray (parent : Document) (key : jsstring) (create : bool)
    : result (list DocumentValue * Document) :=
  match obj_get parent key with
  | None => Ok ([], if create then obj_set parent key (VArray []) else parent)
  | Some (VArray value) => Ok (value, parent)
  | Some _ => invalidUpdate
  end.

Definition valuesEqual (left right : DocumentValue) : result bool :=
  a ← encodeDocumentValue left;
  b ← encodeDocumentValue right;
  Ok (Filter.bytesEqual a b).

Definition creates (operator : UpdateOperator) : bool :=
  match operator with Unset | Pull => false | _ => true end.

(** The [switch] of [applyInstruction] on the parent that was found. *)
Definition applyToParent (parent : Document) (key : jsstring) (instruction : Instruction)
    : result Document :=
  let operand := operand instruction in
  match operator instruction with
  | Set_ => Ok (obj_set parent key operand)
  | Unset => Ok (if obj_has parent key then obj_delete parent key else parent)
  | Inc => applyInc parent key operand
  | Min => Ok (applyExtremum parent key operand Min)
  | Max => Ok (applyExtremum parent key operand Max)
  | Push =>
      '(array, parent) ← getArray parent key true;
      Ok (obj_set parent key (VArray (array ++ [operand])))
  | AddToSet =>
      '(array, parent) ← getArray parent key true;
      found ← someM (λ element, valuesEqual element operand) array;
      Ok (if found : bool then parent else obj_set parent key (VArray (array ++ [operand])))
  | Pull =>
      '(array, parent) ← getArray parent key false;
      if len array =? 0 then Ok parent
      else
        kept ← filterM (λ element, b ← valuesEqual element operand; Ok (negb b)) array;
        Ok (obj_set parent key (VArray kept))
  end.

Definition applyInstruction (instruction : Instruction) (document : Document) : result Document :=
  resolved ← resolveParent document (segments instruction) (creates (operator instruction));
  match resolved with
  | None => Ok document
  | Some (parent, put) =>
      parent' ← applyToParent parent (last_segment (segments instruction)) instruction;
      Ok (put parent')
  end.

(** ** Update documents *)
Definition parseOperand (operator : UpdateOperator) (entry : jsstring * DocumentValue)
    : result Instruction :=
  segments ← parsePath entry.1;
  operand ← validateOperand operator entry.2;
  Ok {| operator := operator; path := entry.1; segments := segments; operand := operand |}.

Definition parseOperator (entry : jsstring * DocumentValue) : result (list Instruction) :=
  match omap_get SUPPORTED_OPERATORS entry.1 with
  | None => invalidUpdate
  | Some operator =>
      match entry.2 with
      | VDoc ((_ :: _) as operands) => mapM (parseOperand operator) operands
      | _ => invalidUpdate
      end
  end.

(** The two nested loops over the instructions. *)
Fixpoint conflicts (instructions : list Instruction) : bool :=
  match instructions with
  | [] => false
  | a :: instructions =>
      existsb (λ b, overlaps (segments a) (segments b)) instructions || conflicts instructions
  end.

Definition parseUpdate (update : DocumentValue) : result (list Instruction) :=
  match update with
  | VDoc ((_ :: _) as operators) =>
      parsed ← mapM parseOperator operators;
      let instructions := concat parsed in
      if conflicts instructions then invalidUpdate else Ok instructions
  | _ => invalidUpdate
  end.

Definition compileUpdate (update : DocumentValue) : result CompiledUpdate :=
  instructions ← parseUpdate update;
  Ok (foldM applyInstruction instructions).

(** ** Upserts *)
Definition extractEquality (value : DocumentValue) : option DocumentValue :=
  match value with
  | VDoc fields =>
      if negb (existsb (λ kv, starts_dollar kv.1) fields) then Some value
      else
        match fields with
        | [(key, operand)] => if decide (key = js "$eq") then Some operand else None
        | _ => None
        end
  | _ => Some value
  end.

(** One turn of the loop of [seedDocumentFromFilter], on the seed and the paths
    assigned so far. *)
Definition seedField (entry : jsstring * DocumentValue) (state : Document * list (list jsstring))
    : result (Document * list (list jsstring)) :=
  let (key, value) := entry in
  let (seed, assigned) := state in
  if starts_dollar key then Ok state
  else
    match extractEquality value with
    | None => Ok state
    | Some equality =>
        let segments := split_dot key in
        if existsb reserved segments || existsb (λ other, overlaps other segments) assigned
        then invalidUpdate
        else
          resolved ← resolveParent seed segments true;
          match resolved with
          | None => Throw TypeError
          | Some (parent, put) =>
              Ok (put (obj_set parent (last_segment segments) equality), assigned ++ [segments])
          end
    end.

Definition seedDocumentFromFilter (filter : Document) : result Document :=
  '(seed, _) ← foldM seedField filter ([], []);
  Ok seed.
End Update.
Import Update.

(** * What an update does *)

(** What an operator makes of the field at its path ([None]: no such field). *)
Definition effect (operator : UpdateOperator) (operand : DocumentValue)
    (field : option DocumentValue) : result (option DocumentValue) :=
  match operator, field with
  | Set_, _ => Ok (Some operand)
  | Unset, _ => Ok None
  | Inc, None => Ok (Some operand)
  | Inc, Some (VNumber current) =>
      match operand with
      | VNumber n =>
          if isFinite (number_add current n) then Ok (Some (VNumber (number_add current n)))
          else invalidUpdate
      | _ => invalidUpdate
      end
  | Inc, Some (VBigInt current) =>
      match operand with VBigInt z => Ok (Some (VBigInt (current + z))) | _ => invalidUpdate end
  | Inc, Some _ => invalidUpdate
  | (Min | Max), None => Ok (Some operand)
  | Min, Some current =>
      Ok (Some (if Sort.compareDocumentValues operand current <? 0 then operand else current))
  | Max, Some current =>
      Ok (Some (if 0 <? Sort.compareDocumentValues operand current then operand else current))
  | (Push | AddToSet), None => Ok (Some (VArray [operand]))
  | Push, Some (VArray array) => Ok (Some (VArray (array ++ [operand])))
  | AddToSet, Some (VArray array) =>
      found ← someM (λ element, valuesEqual element operand) array;
      Ok (Some (VArray (if found : bool then array else array ++ [operand])))
  | Pull, None => Ok None
  | Pull, Some (VArray array) =>
      kept ← filterM (λ element, b ← valuesEqual element operand; Ok (negb b)) array;
      Ok (Some (VArray kept))
  | (Push | AddToSet | Pull), Some _ => invalidUpdate
  end.

(** A field on the way to the end of the path is there and is no document. *)
Fixpoint blocked (current : Document) (segments : list jsstring) : bool :=
  match segments with
  | [] | [_] => false
  | segment :: rest =>
      match obj_get current segment with
      | None => false
      | Some (VDoc value) => blocked value rest
      | Some _ => true
      end
  end.

Abbreviation lookup_path := Filter.resolveField.

(** * Lemmas *)
Abbreviation wf_document d := (wf_value (VDoc d) = true).

Lemma overlaps_sym p q : overlaps p q = overlaps q p.
Proof.
  revert q. induction p as [|x p IH]; intros [|y q]; simpl; [done..|].
  rewrite IH. f_equal. by apply bool_decide_ext.
Qed.

Lemma wf_document_keys d : wf_document d → NoDup (omap_keys d).
Proof. intros H%wf_doc. apply H. Qed.

Lemma wf_document_get d k v : wf_document d → obj_get d k = Some v → wf_value v = true.
Proof.
  intros [H _]%wf_doc Hg%omap_get_Some_in. rewrite Forall_forall in H. by apply (H (k, v)).
Qed.

Lemma wf_empty : wf_document [].
Proof. reflexivity. Qed.

Lemma wf_document_set d k v :
  wf_document d → Forall is_unit k → wf_value v = true → wf_document (obj_set d k v).
Proof.
  intros [H Hd]%wf_doc Hk Hv. apply wf_doc. split; [|by apply obj_set_NoDup].
  destruct (obj_get d k) eqn:E.
  - rewrite obj_set_old by done. clear E Hd.
    induction H as [|[k' w] d Hw Hd IH]; simpl; [by repeat constructor|].
    case_decide; constructor; [|done|done|done]. split; [apply Hw|done].
  - rewrite obj_set_new_perm by done. by constructor.
Qed.

Lemma wf_document_delete d k : wf_document d → wf_document (obj_delete d k).
Proof.
  intros [H Hd]%wf_doc. apply wf_doc. split; [|by apply omap_delete_NoDup].
  unfold obj_delete. rewrite omap_delete_filter by done.
  apply Forall_forall. intros kv Hi. rewrite list_elem_of_filter in Hi.
  rewrite Forall_forall in H. apply H, Hi.
Qed.

Lemma lookup_path_empty q : lookup_path [] q = None.
Proof. by destruct q. Qed.

Lemma lookup_path_cons d x q :
  q ≠ [] →
  lookup_path d (x :: q) =
    match obj_get d x with Some (VDoc child) => lookup_path child q | _ => None end.
Proof. intros Hq. destruct q; [done|]. simpl. by case_match. Qed.

Lemma blocked_empty q : blocked [] q = false.
Proof. by destruct q as [|x [|y q]]. Qed.

Lemma blocked_cons d x q :
  q ≠ [] →
  blocked d (x :: q) =
    match obj_get d x with
    | None => false | Some (VDoc child) => blocked child q | Some _ => true
    end.
Proof. by destruct q. Qed.

(** [parent] is the document at the end of the path, and [put] writes a changed
    one back, disturbing no other path. *)
Record focus (d : Document) (segments : list jsstring) (parent : Document)
    (put : Document → Document) : Prop := {
  focus_wf : wf_document parent;
  focus_get : obj_get parent (last_segment segments) = lookup_path d segments;
  focus_open : blocked d segments = false;
  focus_put : ∀ parent',
    wf_document parent' →
    (∀ k, k ≠ last_segment segments → obj_get parent' k = obj_get parent k) →
    wf_document (put parent') ∧
    lookup_path (put parent') segments = obj_get parent' (last_segment segments) ∧
    ∀ q, overlaps q segments = false →
      lookup_path (put parent') q = lookup_path d q ∧ blocked (put parent') q = blocked d q;
}.

Lemma focus_here d k : wf_document d → focus d [k] d (λ parent, parent).
Proof.
  intros Hd. split; [done| |done|].
  - unfold last_segment. simpl. by destruct (obj_get d k).
  - unfold last_segment. intros d' Hd' Hother. split; [done|]. simpl in *. split; [by destruct (obj_get d' k)|].
    intros [|x q] Hq; [done|]. simpl in Hq. destruct (decide (x = k)) as [->|Hne].
    + rewrite bool_decide_eq_true_2 in Hq by done. by destruct q.
    + simpl. by rewrite Hother by done.
Qed.

Lemma focus_inside d k child rest parent put :
  wf_document d → Forall is_unit k → rest ≠ [] →
  (obj_get d k = Some (VDoc child) ∨ obj_get d k = None ∧ child = []) →
  focus child rest parent put →
  focus d (k :: rest) parent (λ parent', obj_set d k (VDoc (put parent'))).
Proof.
  intros Hd Hk Hrest Hchild [Hw Hg Ho Hp].
  assert (∀ q, match obj_get d k with Some (VDoc c) => lookup_path c q | _ => None end
               = lookup_path child q) as Hlook.
  { intros q. destruct Hchild as [->|[-> ->]]; [done|]. by rewrite lookup_path_empty. }
  assert (∀ q, match obj_get d k with
               | None => false | Some (VDoc c) => blocked c q | Some _ => true
               end = blocked child q) as Hblock.
  { intros q. destruct Hchild as [->|[-> ->]]; [done|]. by rewrite blocked_empty. }
  assert (last_segment (k :: rest) = last_segment rest) as Hlast by (by destruct rest).
  split; rewrite ?Hlast; [done| | |].
  - rewrite Hg, lookup_path_cons by done. by rewrite Hlook.
  - destruct rest; [done|]. simpl. by destruct Hchild as [->|[-> ->]].
  - intros p' Hw' Hother. destruct (Hp p' Hw' Hother) as (Hput & Hat & Hframe).
    split; [by apply wf_document_set|].
    split; [by rewrite lookup_path_cons, obj_get_set, decide_True
              by first [done | by apply wf_document_keys]|].
    intros [|x q] Hq; [done|]. simpl in Hq. destruct (decide (x = k)) as [->|Hne].
    + rewrite bool_decide_eq_true_2 in Hq by done. simpl in Hq.
      destruct q as [|y q]; [done|].
      rewrite !lookup_path_cons, !blocked_cons, obj_get_set, decide_True, Hlook, Hblock
        by first [done | by apply wf_document_keys].
      by apply Hframe.
    + simpl. rewrite obj_get_set, decide_False by first [by apply wf_document_keys | congruence].
      done.
Qed.

Lemma resolveParent_outcome d segments create :
  wf_document d → Forall (Forall is_unit) segments → segments ≠ [] →
  match resolveParent d segments create with
  | Throw e => create = true ∧ blocked d segments = true ∧ e = StorageError InvalidUpdate
  | Ok None => create = false ∧ lookup_path d segments = None
  | Ok (Some (parent, put)) => focus d segments parent put
  end.
Proof.
  intros Hd Hs. revert d Hd. induction Hs as [|k rest Hk Hs IH]; intros d Hd Hne; [done|].
  destruct rest as [|k2 rest']; [by apply focus_here|].
  remember (k2 :: rest') as rest eqn:Er. assert (rest ≠ []) as Hrest by (by subst).
  assert (∀ child, wf_document child →
    obj_get d k = Some (VDoc child) ∨ obj_get d k = None ∧ child = [] →
    match resolveParent child rest create with
    | Throw e => create = true ∧ blocked d (k :: rest) = true ∧ e = StorageError InvalidUpdate
    | Ok None => create = false ∧ lookup_path d (k :: rest) = None
    | Ok (Some (parent, put)) =>
        focus d (k :: rest) parent (λ parent', obj_set d k (VDoc (put parent')))
    end) as Hin.
  { intros child Hc Hchild. specialize (IH child Hc Hrest).
    destruct (resolveParent child rest create) as [[[parent put]|]|e].
    - by apply (focus_inside d k child).
    - rewrite lookup_path_cons by done. destruct Hchild as [->|[-> ->]]; [done|]. by destruct IH.
    - destruct IH as (? & Hb & ?). split; [done|]. split; [|done].
      destruct Hchild as [E|[_ ->]]; subst rest; [simpl; by rewrite E|].
      simpl in Hb. by destruct rest'. }
  assert (resolveParent d (k :: rest) create =
    let inside child :=
      r ← resolveParent child rest create;
      Ok (match r with
          | Some (parent, put) =>
              Some (parent, λ parent', obj_set d k (VDoc (put parent')))
          | None => None
          end) in
    match obj_get d k with
    | None => if create then inside [] else Ok None
    | Some (VDoc value) => inside value
    | Some _ => if create then invalidUpdate else Ok None
    end) as -> by (by subst).
  destruct (obj_get d k) as [v|] eqn:E; cbn zeta.
  - destruct v; try (destruct create; cbn -[lookup_path blocked];
      [split; [done|]; split; [subst rest; simpl; by rewrite E|done]
      |split; [done|]; rewrite lookup_path_cons by done; by rewrite E]).
    specialize (Hin fields (wf_document_get _ _ _ Hd E) (or_introl eq_refl)).
    by destruct (resolveParent fields rest create) as [[[parent put]|]|e].
  - destruct create.
    + specialize (Hin [] wf_empty (or_intror (conj eq_refl eq_refl))).
      by destruct (resolveParent [] rest true) as [[[parent put]|]|e].
    + split; [done|]. rewrite lookup_path_cons by done. by rewrite E.
Qed.

(** [parent'] is [parent] with [field] at [key]. *)
Definition written (parent : Document) (key : jsstring) (field : option DocumentValue)
    (parent' : Document) : Prop :=
  wf_document parent' ∧ obj_get parent' key = field ∧
  ∀ k, k ≠ key → obj_get parent' k = obj_get parent k.

Lemma written_same parent key : wf_document parent → written parent key (obj_get parent key) parent.
Proof. done. Qed.

Lemma written_set parent key v :
  wf_document parent → Forall is_unit key → wf_value v = true →
  written parent key (Some v) (obj_set parent key v).
Proof.
  intros Hp Hk Hv. split; [by apply wf_document_set|].
  pose proof (wf_document_keys _ Hp). split; [|intros k Hne]; rewrite obj_get_set by done.
  - by rewrite decide_True.
  - by rewrite decide_False by congruence.
Qed.

Lemma written_twice parent key v parent1 parent2 field :
  written parent key v parent1 → written parent1 key field parent2 →
  written parent key field parent2.
Proof.
  intros (_ & _ & H1) (Hw & Hg & H2). split; [done|]. split; [done|].
  intros k Hk. by rewrite H2, H1.
Qed.

Lemma written_delete parent key :
  wf_document parent →
  written parent key None (if obj_has parent key then obj_delete parent key else parent).
Proof.
  intros Hp. unfold obj_has, omap_has. destruct (obj_get parent key) eqn:E.
  - split; [by apply wf_document_delete|].
    split; [by apply omap_get_delete, wf_document_keys|].
    intros k Hk. by apply omap_get_delete_ne.
  - rewrite <- E. by apply written_same.
Qed.

Lemma filterM_sub {A} (f : A → result bool) l k : filterM f l = Ok k → ∀ x, x ∈ k → x ∈ l.
Proof.
  revert k. induction l as [|x l IH]; simpl; intros k H.
  - inv_ok H. done.
  - inv_ok H. intros y. specialize (IH _ H1 y). rewrite elem_of_cons.
    destruct a; [rewrite elem_of_cons|]; naive_solver.
Qed.

Lemma wf_array_filterM f l k :
  wf_value (VArray l) = true → filterM f l = Ok k → wf_value (VArray k) = true.
Proof.
  rewrite !wf_array, !Forall_forall. intros H Hk x Hx. eapply H, filterM_sub; done.
Qed.

Lemma wf_array_snoc l v :
  wf_value (VArray l) = true → wf_value v = true → wf_value (VArray (l ++ [v])) = true.
Proof. rewrite !wf_array. intros. apply Forall_app_2; [done|]. by constructor. Qed.

Lemma getArray_outcome parent key create :
  wf_document parent → Forall is_unit key →
  match getArray parent key create with
  | Ok (array, parent') =>
      wf_value (VArray array) = true ∧
      (obj_get parent key = Some (VArray array) ∧ parent' = parent ∨
       obj_get parent key = None ∧ array = [] ∧
       written parent key (if create then Some (VArray []) else None) parent')
  | Throw e =>
      e = StorageError InvalidUpdate ∧
      ∃ v, obj_get parent key = Some v ∧ ∀ array, v ≠ VArray array
  end.
Proof.
  intros Hp Hk. unfold getArray. destruct (obj_get parent key) as [v|] eqn:E.
  - destruct v; try (split; [done|]; eexists; split; [done|]; intros array; discriminate).
    split; [by eapply wf_document_get|]. by left.
  - split; [done|]. right. split; [done|]. split; [done|].
    destruct create; [by apply written_set|]. rewrite <- E. by apply written_same.
Qed.

(** What [applyToParent] returns, against the effect of the operator. *)
Definition applied (parent : Document) (key : jsstring) (m : result (option DocumentValue))
    (r : result Document) : Prop :=
  match r, m with
  | Throw e, Throw e' => e = e'
  | Ok parent', Ok field => written parent key field parent'
  | _, _ => False
  end.

Lemma applied_set parent key v :
  wf_document parent → Forall is_unit key → wf_value v = true →
  applied parent key (Ok (Some v)) (Ok (obj_set parent key v)).
Proof. apply written_set. Qed.

Lemma inc_applied parent key v :
  wf_document parent → Forall is_unit key → wf_value v = true →
  applied parent key (effect Inc v (obj_get parent key)) (applyInc parent key v).
Proof.
  intros Hp Hk Hv. unfold applyInc, effect.
  destruct (obj_get parent key) as [w|] eqn:E; [|by apply applied_set].
  pose proof (wf_document_get _ _ _ Hp E) as Hw.
  destruct w as [|b|n|z|s|ms|bs|bs|l|fs]; try reflexivity; destruct v; try reflexivity.
  - destruct (isFinite _) eqn:F; cbn [negb]; [|reflexivity].
    apply applied_set; [done..|]. by apply number_add_valid.
  - by apply applied_set.
Qed.

Lemma extremum_applied parent key v operator :
  operator = Min ∨ operator = Max →
  wf_document parent → Forall is_unit key → wf_value v = true →
  applied parent key (effect operator v (obj_get parent key))
    (Ok (applyExtremum parent key v operator)).
Proof.
  intros Ho Hp Hk Hv. unfold applyExtremum, effect.
  destruct (obj_get parent key) as [w|] eqn:E; cbn zeta;
    destruct Ho as [-> | ->]; try (by apply applied_set);
    (destruct (_ <? _); [by apply applied_set|cbn [applied]; rewrite <- E; by apply written_same]).
Qed.

(** The three operators on arrays. *)
Lemma push_applied parent key v :
  wf_document parent → Forall is_unit key → wf_value v = true →
  applied parent key (effect Push v (obj_get parent key))
    ('(array, parent) ← getArray parent key true;
     Ok (obj_set parent key (VArray (array ++ [v])))).
Proof.
  intros Hp Hk Hv. pose proof (getArray_outcome parent key true Hp Hk) as H.
  destruct (getArray parent key true) as [[array parent']|e]; cbn [mbind res_bind].
  - destruct H as [Ha [[-> ->]|(-> & -> & Hw)]].
    + apply applied_set; [done..|]. by apply wf_array_snoc.
    + eapply written_twice; [apply Hw|]. apply written_set; [apply Hw|done|].
      by apply (wf_array_snoc []).
  - destruct H as [-> (w & -> & Hw)]. destruct w; try reflexivity. by destruct (Hw l).
Qed.

Lemma addToSet_applied parent key v :
  wf_document parent → Forall is_unit key → wf_value v = true →
  applied parent key (effect AddToSet v (obj_get parent key))
    ('(array, parent) ← getArray parent key true;
     found ← someM (λ element, valuesEqual element v) array;
     Ok (if found : bool then parent else obj_set parent key (VArray (array ++ [v])))).
Proof.
  intros Hp Hk Hv. pose proof (getArray_outcome parent key true Hp Hk) as H.
  destruct (getArray parent key true) as [[array parent']|e]; cbn [mbind res_bind].
  - destruct H as [Ha [[E ->]|(-> & -> & Hw)]].
    + rewrite E. cbn [effect]. destruct (someM _ array) as [[]|e]; cbn [mbind res_bind applied].
      * rewrite <- E. by apply written_same.
      * apply written_set; [done..|]. by apply wf_array_snoc.
      * done.
    + eapply written_twice; [apply Hw|]. apply written_set; [apply Hw|done|].
      by apply (wf_array_snoc []).
  - destruct H as [-> (w & -> & Hw)]. destruct w; try reflexivity. by destruct (Hw l).
Qed.

Lemma pull_applied parent key v :
  wf_document parent → Forall is_unit key → wf_value v = true →
  applied parent key (effect Pull v (obj_get parent key))
    ('(array, parent) ← getArray parent key false;
     if len array =? 0 then Ok parent
     else
       kept ← filterM (λ element, b ← valuesEqual element v; Ok (negb b)) array;
       Ok (obj_set parent key (VArray kept))).
Proof.
  intros Hp Hk Hv. pose proof (getArray_outcome parent key false Hp Hk) as H.
  destruct (getArray parent key false) as [[array parent']|e]; cbn [mbind res_bind].
  - destruct H as [Ha [[E ->]|(-> & -> & Hw)]]; [|exact Hw].
    rewrite E. cbn [effect]. destruct (Z.eqb_spec (len array) 0) as [->%len_0_inv|_].
    + cbn [filterM mbind res_bind applied]. rewrite <- E. by apply written_same.
    + destruct (filterM _ array) as [kept|e] eqn:F; cbn [mbind res_bind applied]; [|done].
      apply written_set; [done..|]. by eapply wf_array_filterM.
  - destruct H as [-> (w & -> & Hw)]. destruct w; try reflexivity. by destruct (Hw l).
Qed.

Lemma applyToParent_applied parent key i :
  wf_document parent → Forall is_unit key → wf_value (operand i) = true →
  applied parent key (effect (operator i) (operand i) (obj_get parent key))
    (applyToParent parent key i).
Proof.
  intros Hp Hk Hv. unfold applyToParent. cbn zeta. destruct (operator i).
  - by apply applied_set.
  - by apply written_delete.
  - by apply inc_applied.
  - apply extremum_applied; auto.
  - apply extremum_applied; auto.
  - by apply push_applied.
  - by apply pull_applied.
  - by apply addToSet_applied.
Qed.

Definition wf_instruction (i : Instruction) : Prop :=
  Forall (Forall is_unit) (segments i) ∧ segments i ≠ [] ∧ wf_value (operand i) = true.

Lemma last_segment_in segments : segments ≠ [] → last_segment segments ∈ segments.
Proof.
  intros H. unfold last_segment. destruct (exists_last H) as (l & x & ->).
  rewrite last_last. set_solver.
Qed.

(** The outcome of an instruction, on every branch. *)
Definition instruction_outcome (d : Document) (i : Instruction) (r : result Document) : Prop :=
  match r with
  | Ok d' =>
      wf_document d' ∧
      (creates (operator i) = true → blocked d (segments i) = false) ∧
      effect (operator i) (operand i) (lookup_path d (segments i))
        = Ok (lookup_path d' (segments i)) ∧
      ∀ q, overlaps q (segments i) = false →
        lookup_path d' q = lookup_path d q ∧ blocked d' q = blocked d q
  | Throw e =>
      creates (operator i) = true ∧ blocked d (segments i) = true ∧ e = StorageError InvalidUpdate ∨
      effect (operator i) (operand i) (lookup_path d (segments i)) = Throw e
  end.

Lemma applyInstruction_outcome d i :
  wf_document d → wf_instruction i → instruction_outcome d i (applyInstruction i d).
Proof.
  intros Hd (Hs & Hne & Hv). unfold applyInstruction.
  pose proof (resolveParent_outcome d (segments i) (creates (operator i)) Hd Hs Hne) as H.
  destruct (resolveParent d (segments i) _) as [[[parent put]|]|e]; cbn [mbind res_bind].
  - destruct H as [Hp Hg Ho Hput]. assert (Forall is_unit (last_segment (segments i))) as Hk.
    { rewrite Forall_forall in Hs. by apply Hs, last_segment_in. }
    pose proof (applyToParent_applied parent _ i Hp Hk Hv) as Ha. rewrite Hg in Ha.
    unfold instruction_outcome. destruct (applyToParent _ _ i) as [parent'|e];
      cbn [mbind res_bind]; destruct (effect _ _ _) as [field|e']; simpl in Ha; try done.
    + destruct Ha as (Hw & Hf & Hother). destruct (Hput parent' Hw Hother) as (H1 & H2 & H3).
      split; [done|]. split; [done|]. split; [by rewrite H2, Hf|done].
    + right. by subst.
  - destruct H as [Hc Hl]. split; [done|]. split; [by rewrite Hc|]. split; [|done].
    rewrite Hl. by destruct (operator i).
  - left. destruct H as (? & ? & ->). done.
Qed.

(** Instructions on paths that do not overlap do not see each other. *)
Lemma instructions_outcome il d :
  wf_document d → Forall wf_instruction il → conflicts il = false →
  match foldM applyInstruction il d with
  | Ok d' =>
      wf_document d' ∧
      Forall (λ i,
        (creates (operator i) = true → blocked d (segments i) = false) ∧
        effect (operator i) (operand i) (lookup_path d (segments i))
          = Ok (lookup_path d' (segments i))) il ∧
      ∀ q, Forall (λ i, overlaps q (segments i) = false) il → lookup_path d' q = lookup_path d q
  | Throw e => ∃ i, i ∈ il ∧ instruction_outcome d i (Throw e)
  end.
Proof.
  intros Hd Hil. revert d Hd. induction Hil as [|i il Hi Hil IH]; intros d Hd Hc; [done|].
  cbn [foldM]. simpl in Hc. apply orb_false_iff in Hc as [Ho Hc].
  assert (Forall (λ j, overlaps (segments j) (segments i) = false) il) as Hj.
  { apply Forall_forall. intros j Hj. rewrite overlaps_sym.
    apply not_true_is_false. intros Ht. apply not_true_iff_false in Ho. apply Ho.
    apply existsb_exists. exists j. split; [by apply list_elem_of_In|done]. }
  pose proof (applyInstruction_outcome d i Hd Hi) as Hout.
  destruct (applyInstruction i d) as [d1|e]; cbn [mbind res_bind]; [|exists i; split; [left|done]].
  destruct Hout as (Hd1 & Hb & He & Hf). specialize (IH d1 Hd1 Hc).
  rewrite Forall_forall in Hj. destruct (foldM applyInstruction il d1) as [d'|e].
  - destruct IH as (Hw & Heff & Hframe). split; [done|]. split.
    + constructor.
      * split; [done|]. rewrite Hframe; [done|].
        apply Forall_forall. intros j Hin. rewrite overlaps_sym. by apply Hj.
      * rewrite Forall_forall in Heff |- *. intros j Hin. destruct (Hf _ (Hj j Hin)) as [Hl Hbl].
        destruct (Heff j Hin) as [H1 H2]. by rewrite Hl, Hbl in *.
    + intros q [Hq Hqs]%Forall_cons. rewrite Hframe by done. by apply Hf.
  - destruct IH as (j & Hin & Hj'). exists j. split; [by right|].
    destruct (Hf _ (Hj j Hin)) as [Hl Hbl]. unfold instruction_outcome in *.
    by rewrite Hl, Hbl in Hj'.
Qed.

(** ** Which updates compile *)
Definition instruction_of (operator : UpdateOperator) (entry : jsstring * DocumentValue)
    : Instruction :=
  {| operator := operator; path := entry.1; segments := split_dot entry.1; operand := entry.2 |}.

(** The instructions that an update document lists. *)
Definition instructions_of (update : DocumentValue) : list Instruction :=
  match update with
  | VDoc operators =>
      flat_map (λ entry : jsstring * DocumentValue,
        match omap_get SUPPORTED_OPERATORS entry.1, entry.2 with
        | Some operator, VDoc operands => map (instruction_of operator) operands
        | _, _ => []
        end) operators
  | _ => []
  end.

Definition valid_operand (operator : UpdateOperator) (operand : DocumentValue) : bool :=
  match operator, operand with
  | Inc, VBigInt _ => true
  | Inc, VNumber n => isFinite n
  | Inc, _ => false
  | (Min | Max), (VArray _ | VDoc _) => false
  | _, _ => true
  end.

Definition valid_update_path (path : jsstring) : bool :=
  negb (existsb reserved (split_dot path)) &&
  negb (bool_decide (head (split_dot path) = Some (js "_id"))).

(** Known operators, each with a non-empty document of valid paths and operands,
    and no two paths of which one is a prefix of the other. *)
Definition valid_update (update : DocumentValue) : bool :=
  match update with
  | VDoc ((_ :: _) as operators) =>
      forallb (λ entry : jsstring * DocumentValue,
        match omap_get SUPPORTED_OPERATORS entry.1, entry.2 with
        | Some operator, VDoc ((_ :: _) as operands) =>
            forallb (λ kv, valid_update_path kv.1 && valid_operand operator kv.2) operands
        | _, _ => false
        end) operators
      && negb (conflicts (instructions_of update))
  | _ => false
  end.

(** [m] returns [a] exactly when [b] holds, and throws an error of an invalid
    update otherwise. *)
Definition parses {A} (b : bool) (a : A) (m : result A) : Prop :=
  match m with
  | Ok x => b = true ∧ x = a
  | Throw e => b = false ∧ (e = StorageError InvalidUpdate ∨ e = StorageError ImmutableId)
  end.

Lemma parses_invalid {A} (a : A) : parses false a invalidUpdate.
Proof. split; [done|by left]. Qed.

Lemma parses_mapM {A B} (f : A → result B) (b : A → bool) (g : A → B) l :
  (∀ x, x ∈ l → parses (b x) (g x) (f x)) → parses (forallb b l) (map g l) (mapM f l).
Proof.
  induction l as [|x l IH]; intros H; [done|].
  pose proof (H x (list_elem_of_here _ _)) as Hx. simpl.
  destruct (f x) as [y|e]; cbn [mbind res_bind].
  - destruct Hx as [-> ->]. specialize (IH (λ y Hy, H y (list_elem_of_further _ _ _ Hy))).
    destruct (mapM f l) as [ys|e]; cbn [mbind res_bind]; simpl in *; naive_solver.
  - destruct Hx as [-> He]. done.
Qed.

Lemma parses_operand operator kv :
  parses (valid_update_path kv.1 && valid_operand operator kv.2) (instruction_of operator kv)
    (parseOperand operator kv).
Proof.
  destruct kv as [path v]. unfold parseOperand, parsePath, valid_update_path. cbn [fst snd].
  destruct (existsb reserved (split_dot path)); [apply parses_invalid|]. cbn [negb andb].
  destruct (bool_decide _); cbn [negb andb mbind res_bind]; [split; [done|by right]|].
  unfold instruction_of. cbn [fst snd].
  destruct operator, v; try (split; reflexivity); try apply parses_invalid.
  cbn [validateOperand valid_operand]. destruct (isFinite n); [done|apply parses_invalid].
Qed.

Lemma parses_operator entry :
  parses
    (match omap_get SUPPORTED_OPERATORS entry.1, entry.2 with
     | Some operator, VDoc ((_ :: _) as operands) =>
         forallb (λ kv, valid_update_path kv.1 && valid_operand operator kv.2) operands
     | _, _ => false
     end)
    (match omap_get SUPPORTED_OPERATORS entry.1, entry.2 with
     | Some operator, VDoc operands => map (instruction_of operator) operands
     | _, _ => []
     end)
    (parseOperator entry).
Proof.
  unfold parseOperator. destruct (omap_get _ _) as [operator|]; [|apply parses_invalid].
  destruct entry.2 as [| | | | | | | | |[|kv operands]]; try apply parses_invalid.
  apply parses_mapM. intros kv' _. apply parses_operand.
Qed.

Lemma parses_update update :
  parses (valid_update update) (instructions_of update) (parseUpdate update).
Proof.
  destruct update as [| | | | | | | | |[|entry operators]]; try apply parses_invalid.
  unfold parseUpdate, valid_update. remember (entry :: operators) as l eqn:El.
  pose proof (parses_mapM _ _ _ l (λ x _, parses_operator x)) as H.
  destruct (mapM parseOperator l) as [parsed|e]; cbn [mbind res_bind].
  - destruct H as [-> ->]. cbn [instructions_of andb]. rewrite flat_map_concat_map.
    destruct (conflicts _); [apply parses_invalid|done].
  - destruct H as [-> H]. done.
Qed.

Lemma split_dot_units s : Forall is_unit s → Forall (Forall is_unit) (split_dot s).
Proof.
  induction 1 as [|u s Hu Hs IH]; simpl; [by repeat constructor|].
  destruct (u =? 46); [by constructor|].
  destruct (split_dot s) as [|x l]; [by apply Forall_singleton, Forall_singleton|].
  apply Forall_cons in IH as [Hx Hl]. constructor; [by constructor|done].
Qed.

Lemma wf_entry fs kv :
  wf_value (VDoc fs) = true → kv ∈ fs → Forall is_unit kv.1 ∧ wf_value kv.2 = true.
Proof. intros [H _]%wf_doc Hin. rewrite Forall_forall in H. by apply H. Qed.

Lemma instructions_wf update :
  wf_value update = true → Forall wf_instruction (instructions_of update).
Proof.
  intros Hw. destruct update; try constructor. apply Forall_forall. intros i Hi.
  cbn [instructions_of] in Hi. apply list_elem_of_In, in_flat_map in Hi as (entry & Hin & Hi).
  apply list_elem_of_In in Hin. destruct (wf_entry _ _ Hw Hin) as [_ Hv].
  destruct (omap_get _ _) as [operator|]; [|done]. destruct entry.2; try done.
  apply in_map_iff in Hi as (kv & <- & Hkv). apply list_elem_of_In in Hkv.
  destruct (wf_entry _ _ Hv Hkv) as [Hk Hkw].
  split; [by apply split_dot_units|]. split; [apply split_dot_nonempty|done].
Qed.

Lemma valid_update_conflicts update :
  valid_update update = true → conflicts (instructions_of update) = false.
Proof.
  destruct update as [| | | | | | | | |[|entry operators]]; try done.
  unfold valid_update. intros [_ H]%andb_true_iff. by apply negb_true_iff in H.
Qed.

(** ** Arrays *)
Lemma decides_valuesEqual v w : encodable v → encodable w → decides (valuesEqual v w) (v ≡ w).
Proof.
  intros Hv Hw. unfold valuesEqual.
  rewrite (fits_encode v), (fits_encode w) by first [apply Hv | apply Hw]. cbn [mbind res_bind].
  apply decides_ok. unfold Filter.bytesEqual. rewrite bool_decide_eq_true. by apply enc_eq_equiv.
Qed.

Lemma filterM_decides {A} (f : A → result bool) (P : A → Prop) l :
  Forall (λ x, decides (f x) (P x)) l →
  ∃ keep, filterM f l = Ok (List.filter keep l) ∧ ∀ x, x ∈ l → keep x = true ↔ P x.
Proof.
  intros H. exists (λ x, match f x with Ok b => b | Throw _ => false end). split.
  - induction H as [|x l (b & Hb & _) _ IH]; [done|].
    cbn [filterM List.filter]. rewrite Hb, IH. cbn [mbind res_bind]. by destruct b.
  - intros x Hx. rewrite Forall_forall in H. destruct (H x Hx) as (b & -> & Hb). done.
Qed.

Lemma pull_effect array v :
  Forall encodable array → encodable v →
  ∃ keep, effect Pull v (Some (VArray array)) = Ok (Some (VArray (List.filter keep array))) ∧
    ∀ x, x ∈ array → keep x = true ↔ ¬ x ≡ v.
Proof.
  intros Ha Hv.
  destruct (filterM_decides (λ element, b ← valuesEqual element v; Ok (negb b))
    (λ x, ¬ x ≡ v) array) as (keep & E & Hk).
  { eapply Forall_impl; [exact Ha|]. intros x Hx. by apply decides_neg, decides_valuesEqual. }
  exists keep. split; [|exact Hk]. cbn [effect]. by rewrite E.
Qed.

Lemma addToSet_effect array v :
  Forall encodable array → encodable v →
  ∃ array', effect AddToSet v (Some (VArray array)) = Ok (Some (VArray array')) ∧
    (Exists (λ x, x ≡ v) array ∧ array' = array ∨
     ¬ Exists (λ x, x ≡ v) array ∧ array' = array ++ [v]).
Proof.
  intros Ha Hv.
  destruct (decides_some (λ element, valuesEqual element v) (λ x, x ≡ v) array)
    as (found & E & Hf).
  { eapply Forall_impl; [exact Ha|]. intros x Hx. by apply decides_valuesEqual. }
  cbn [effect]. rewrite E. cbn [mbind res_bind]. eexists. split; [reflexivity|].
  destruct found; [left|right]; naive_solver.
Qed.

Lemma blocked_lookup d p v : lookup_path d p = Some v → blocked d p = false.
Proof.
  revert d. induction p as [|x p IH]; intros d; [done|]. destruct p as [|y p]; [done|].
  rewrite lookup_path_cons, blocked_cons by done. repeat case_match; try done. apply IH.
Qed.

(** ** Seeds *)

(** The equality conditions that a filter states, with their paths. *)
Definition equalities (filter : Document) : list (list jsstring * DocumentValue) :=
  omap (λ kv : jsstring * DocumentValue,
    if starts_dollar kv.1 then None
    else match extractEquality kv.2 with
         | Some v => Some (split_dot kv.1, v)
         | None => None
         end) filter.

(** The paths of the conditions can be assigned one after the other. *)
Fixpoint seedable (assigned : list (list jsstring)) (eqs : list (list jsstring * DocumentValue))
    : bool :=
  match eqs with
  | [] => true
  | (p, _) :: eqs =>
      negb (existsb reserved p) && negb (existsb (λ other, overlaps other p) assigned)
      && seedable (assigned ++ [p]) eqs
  end.

(** [seed] holds the conditions and nothing else. *)
Record seeded (seed : Document) (eqs : list (list jsstring * DocumentValue)) : Prop := {
  seeded_wf : wf_document seed;
  seeded_lookup : Forall (λ e, lookup_path seed e.1 = Some e.2) eqs;
  seeded_only : ∀ q, Forall (λ e, overlaps q e.1 = false) eqs →
    lookup_path seed q = None ∧ blocked seed q = false;
}.

Lemma extractEquality_wf v e : wf_value v = true → extractEquality v = Some e → wf_value e = true.
Proof.
  intros Hv. destruct v; simpl extractEquality; try (by intros [= <-]).
  destruct (negb _); [by intros [= <-]|].
  destruct fields as [|[k w] [|? ?]]; try done. case_decide; [|done]. intros [= <-].
  by apply (wf_entry _ (k, w) Hv), list_elem_of_here.
Qed.

(** An equality condition holds of the value it states. *)
Lemma extractEquality_holds value e :
  extractEquality value = Some e → field_holds value (Some e).
Proof.
  unfold field_holds. destruct value as [| | | | | | | | |fs]; simpl extractEquality;
    try (intros [= <-]; by eexists).
  unfold Filter.isOperatorDocument. destruct (existsb _ fs); cbn [negb].
  - destruct fs as [|[k w] [|? ?]]; try done. case_decide; [|done]. intros [= <-]. subst.
    cbn [operators_hold all_entries]. rewrite decide_True by done. split; [|done]. by eexists.
  - intros [= <-]. by eexists.
Qed.

Lemma seeded_step seed eqs p v :
  seeded seed eqs → Forall (Forall is_unit) p → p ≠ [] → wf_value v = true →
  existsb (λ other, overlaps other p) (map fst eqs) = false →
  ∃ parent put, resolveParent seed p true = Ok (Some (parent, put)) ∧
    seeded (put (obj_set parent (last_segment p) v)) (eqs ++ [(p, v)]).
Proof.
  intros [Hw Hl Ho] Hu Hne Hv Hdis.
  assert (Forall (λ e : list jsstring * DocumentValue, overlaps e.1 p = false) eqs) as Hdis'.
  { apply Forall_forall. intros e He. apply not_true_is_false. intros Ht.
    apply not_true_iff_false in Hdis. apply Hdis, existsb_exists. exists e.1.
    split; [|done]. apply in_map. by apply list_elem_of_In. }
  destruct (Ho p) as [Hnone Hopen].
  { eapply Forall_impl; [exact Hdis'|]. intros e. by rewrite overlaps_sym. }
  pose proof (resolveParent_outcome seed p true Hw Hu Hne) as H.
  destruct (resolveParent seed p true) as [[[parent put]|]|e];
    [|by destruct H|destruct H as (_ & Hb & _); congruence].
  exists parent, put. split; [done|]. destruct H as [Hp Hg _ Hput].
  assert (Forall is_unit (last_segment p)) as Hk.
  { rewrite Forall_forall in Hu. by apply Hu, last_segment_in. }
  destruct (written_set parent _ v Hp Hk Hv) as (Hpw & Hpv & Hother).
  destruct (Hput _ Hpw Hother) as (H1 & H2 & H3). split; [done| |].
  - apply Forall_app_2; [|constructor; [cbn [fst snd]; by rewrite H2|done]].
    rewrite Forall_forall in Hl, Hdis' |- *. intros e He.
    destruct (H3 e.1 (Hdis' e He)) as [-> _]. by apply Hl.
  - intros q [Hq Hqp]%Forall_app. apply Forall_cons in Hqp as [Hqp _].
    destruct (H3 q Hqp) as [-> ->]. by apply Ho.
Qed.

Lemma seed_loop filter seed eqs :
  wf_value (VDoc filter) = true → seeded seed eqs →
  match foldM seedField filter (seed, map fst eqs) with
  | Ok (seed', _) => seedable (map fst eqs) (equalities filter) = true ∧
      seeded seed' (eqs ++ equalities filter)
  | Throw e => seedable (map fst eqs) (equalities filter) = false ∧ e = StorageError InvalidUpdate
  end.
Proof.
  intros [Hw _]%wf_doc. revert seed eqs.
  induction Hw as [|[key v] filter [Hk Hv] _ IH]; intros seed eqs Hs.
  { cbn. by rewrite app_nil_r. }
  cbn [foldM seedField]. unfold equalities. cbn [omap list_omap fst snd] in *.
  fold (equalities filter). destruct (starts_dollar key); [by apply IH|].
  destruct (extractEquality v) as [e|] eqn:E; [|by apply IH].
  pose proof (extractEquality_wf _ _ Hv E) as He. cbn [seedable]. cbn zeta.
  destruct (existsb reserved _); [done|]. destruct (existsb _ (map fst eqs)) eqn:Ho; [done|].
  destruct (seeded_step seed eqs (split_dot key) e Hs (split_dot_units _ Hk)
    (split_dot_nonempty key) He Ho) as (parent & put & -> & Hs').
  cbn [mbind res_bind negb orb andb]. specialize (IH _ _ Hs'). rewrite map_app in IH.
  cbn [map fst] in IH. by rewrite <- app_assoc in IH.
Qed.

Lemma valid_update_paths update i :
  valid_update update = true → i ∈ instructions_of update →
  head (segments i) ≠ Some (js "_id").
Proof.
  destruct update as [| | | | | | | | |[|entry operators]]; try done.
  unfold valid_update. remember (entry :: operators) as l. intros [H _]%andb_true_iff Hi.
  rewrite forallb_forall in H. apply list_elem_of_In, in_flat_map in Hi as (e & He & Hi).
  specialize (H e He). destruct (omap_get _ _) as [operator|]; [|done].
  destruct e.2 as [| | | | | | | | |[|kv operands]]; try done.
  rewrite forallb_forall in H. apply in_map_iff in Hi as (kv' & <- & Hkv).
  specialize (H kv' Hkv). apply andb_true_iff in H as [H _].
  apply andb_true_iff in H as [_ H]. apply negb_true_iff in H.
  by apply bool_decide_eq_false in H.
Qed.

Lemma compile_apply update apply :
  compileUpdate update = Ok apply →
  valid_update update = true ∧ apply = foldM applyInstruction (instructions_of update).
Proof.
  unfold compileUpdate. pose proof (parses_update update) as H.
  destruct (parseUpdate update); [|done]. destruct H as [? ->].
  cbn [mbind res_bind]. by intros ?%Ok_inj.
Qed.

(** * Theorems *)

(** An update document compiles exactly when it is valid (supported
    operators only, each with a non-empty document of valid paths and operands,
    no path empty, reserved or under _id, no two paths overlapping); it then
    performs its instructions in order, and otherwise it is rejected with one
    of the two update errors. *)
Lemma compileUpdate_total (update : DocumentValue) :
  (valid_update update = true ∧
   compileUpdate update = Ok (foldM applyInstruction (instructions_of update))) ∨
  (valid_update update = false ∧
   ∃ code, compileUpdate update = Throw (StorageError code) ∧
     (code = InvalidUpdate ∨ code = ImmutableId)).
Proof.
  unfold compileUpdate. pose proof (parses_update update) as H.
  destruct (parseUpdate update) as [il|e]; [left|right]; destruct H as [-> H].
  - by subst.
  - split; [done|]. destruct H as [-> | ->]; eauto.
Qed.

(** C39: A valid update applied to a document either gives every path it names
    exactly the value that its operator makes of the original value there,
    leaves every other path alone and keeps the document well formed, or throws
    the error of one of its instructions on the original document: a path
    blocked by a value that is not a document, or the operator's own error. *)
Theorem update_correct (update : DocumentValue) (document : Document) :
  valid_update update = true → wf_value update = true → wf_document document →
  ∃ apply, compileUpdate update = Ok apply ∧
    match apply document with
    | Ok document' =>
        wf_document document' ∧
        Forall (λ i,
          (creates (operator i) = true → blocked document (segments i) = false) ∧
          effect (operator i) (operand i) (lookup_path document (segments i))
            = Ok (lookup_path document' (segments i))) (instructions_of update) ∧
        ∀ q, Forall (λ i, overlaps q (segments i) = false) (instructions_of update) →
          lookup_path document' q = lookup_path document q
    | Throw e => ∃ i, i ∈ instructions_of update ∧
        (creates (operator i) = true ∧ blocked document (segments i) = true ∧
           e = StorageError InvalidUpdate ∨
         effect (operator i) (operand i) (lookup_path document (segments i)) = Throw e)
    end.
Proof.
  intros Hv Hu Hd. unfold compileUpdate. pose proof (parses_update update) as H.
  destruct (parseUpdate update) as [il|e]; [|by rewrite Hv in H; destruct H].
  destruct H as [_ ->]. eexists. split; [reflexivity|].
  apply instructions_outcome; [done|by apply instructions_wf|by apply valid_update_conflicts].
Qed.

Definition sample_update : DocumentValue :=
  VDoc [(js "$inc", VDoc [(js "a.n", VNumber (number_of_Z 2))]);
        (js "$push", VDoc [(js "tags", VString (js "x"))]);
        (js "$unset", VDoc [(js "old", VNull)])].

Definition sample_document : Document :=
  [(js "_id", VId (repeat 7 16)); (js "a", VDoc [(js "n", VNumber (number_of_Z 40))]);
   (js "old", VBool true)].

Lemma update_correct_witness :
  ∃ apply, compileUpdate sample_update = Ok apply ∧
    apply sample_document =
      Ok [(js "_id", VId (repeat 7 16)); (js "a", VDoc [(js "n", VNumber (number_of_Z 42))]);
          (js "tags", VArray [VString (js "x")])] ∧
    ∀ d', apply sample_document = Ok d' → wf_document d'.
Proof.
  destruct (update_correct sample_update sample_document eq_refl eq_refl eq_refl)
    as (apply & Hc & H).
  exists apply. split; [exact Hc|]. split.
  - injection Hc as <-. vm_compute. reflexivity.
  - intros d' E. rewrite E in H. apply H.
Defined.

Lemma update_id_kept update apply document document' q :
  wf_value update = true → wf_document document →
  compileUpdate update = Ok apply → apply document = Ok document' →
  lookup_path document' (js "_id" :: q) = lookup_path document (js "_id" :: q).
Proof.
  intros Hu Hd [Hv ->]%compile_apply Ha.
  pose proof (instructions_outcome _ _ Hd (instructions_wf _ Hu) (valid_update_conflicts _ Hv)) as H.
  rewrite Ha in H. apply H. apply Forall_forall. intros i Hi.
  pose proof (valid_update_paths _ i Hv Hi) as Hid.
  pose proof (instructions_wf _ Hu) as Hw. rewrite Forall_forall in Hw.
  destruct (Hw i Hi) as (_ & Hne & _). destruct (segments i) as [|x p]; [done|].
  cbn [overlaps]. rewrite bool_decide_eq_false_2; [done|]. intros <-. by apply Hid.
Qed.

(** No update changes the _id of a document, or anything under it. *)
Lemma update_id_immutable (update : DocumentValue) (apply : CompiledUpdate)
    (document document' : Document) (q : list jsstring) :
  wf_value update = true → wf_document document →
  compileUpdate update = Ok apply → apply document = Ok document' →
  lookup_path document' (js "_id" :: q) = lookup_path document (js "_id" :: q).
Proof. apply update_id_kept. Qed.

Lemma update_id_immutable_witness :
  let d' := [(js "_id", VId (repeat 7 16)); (js "a", VDoc [(js "n", VNumber (number_of_Z 42))]);
             (js "tags", VArray [VString (js "x")])] in
  foldM applyInstruction (instructions_of sample_update) sample_document = Ok d' ∧
  lookup_path d' [js "_id"] = Some (VId (repeat 7 16)).
Proof.
  intros d'.
  assert (foldM applyInstruction (instructions_of sample_update) sample_document = Ok d') as H
    by (vm_compute; reflexivity).
  split; [exact H|].
  exact (update_id_immutable sample_update _ sample_document d' [] eq_refl eq_refl eq_refl H).
Defined.

(** On a field that holds an array of storable values, $pull removes exactly
    the elements equal to its operand (up to field order) and keeps the order of
    the others, and $addToSet appends its operand exactly when no element is
    equal to it; neither can throw. *)
Lemma array_operators (document : Document) (i : Instruction) (array : list DocumentValue) :
  encodable (VDoc document) → wf_instruction i → encodable (operand i) →
  lookup_path document (segments i) = Some (VArray array) →
  (operator i = Pull → ∃ document' keep, applyInstruction i document = Ok document' ∧
     lookup_path document' (segments i) = Some (VArray (List.filter keep array)) ∧
     ∀ x, x ∈ array → keep x = true ↔ ¬ x ≡ operand i) ∧
  (operator i = AddToSet → ∃ document' array', applyInstruction i document = Ok document' ∧
     lookup_path document' (segments i) = Some (VArray array') ∧
     (Exists (λ x, x ≡ operand i) array ∧ array' = array ∨
      ¬ Exists (λ x, x ≡ operand i) array ∧ array' = array ++ [operand i])).
Proof.
  intros Hd Hi Hv Hl. pose proof (applyInstruction_outcome document i (proj1 Hd) Hi) as H.
  assert (Forall encodable array) as Ha.
  { apply Forall_forall. intros x. apply encodable_elem. by eapply resolveField_encodable. }
  pose proof (blocked_lookup _ _ _ Hl) as Hb. unfold instruction_outcome in H.
  rewrite Hl, Hb in H. split; intros Ho; rewrite Ho in H.
  - destruct (pull_effect array (operand i) Ha Hv) as (keep & E & Hk). rewrite E in H.
    destruct (applyInstruction i document) as [d'|e]; [|naive_solver].
    exists d', keep. destruct H as (_ & _ & <-%Ok_inj & _). done.
  - destruct (addToSet_effect array (operand i) Ha Hv) as (array' & E & Hk). rewrite E in H.
    destruct (applyInstruction i document) as [d'|e]; [|naive_solver].
    exists d', array'. destruct H as (_ & _ & <-%Ok_inj & _). done.
Qed.

Lemma array_operators_witness :
  let doc := [(js "t", VArray [VNull; VBool true; VNull])] in
  let i := instruction_of Pull (js "t", VNull) in
  ∃ d' keep, applyInstruction i doc = Ok d' ∧
    lookup_path d' [js "t"] = Some (VArray (List.filter keep [VNull; VBool true; VNull])).
Proof.
  intros doc i.
  destruct (array_operators doc i [VNull; VBool true; VNull]) as [H _].
  - split; [reflexivity|]. split; [vm_compute; reflexivity|]. vm_compute. discriminate.
  - split; [|split; [vm_compute; discriminate|reflexivity]].
    apply (split_dot_units (js "t")). repeat constructor; vm_compute; congruence.
  - split; [reflexivity|]. split; [vm_compute; reflexivity|]. vm_compute. discriminate.
  - reflexivity.
  - destruct (H eq_refl) as (d' & keep & H1 & H2 & _). exists d', keep. split; [exact H1|exact H2].
Defined.

(** The document an upsert starts from holds every equality condition of the
    filter and nothing else, so every condition of that kind holds of it; it is
    rejected exactly when two of the paths overlap or one has an empty or
    reserved segment. *)
Lemma seed_correct (filter : Document) :
  wf_value (VDoc filter) = true →
  match seedDocumentFromFilter filter with
  | Ok seed =>
      seedable [] (equalities filter) = true ∧ seeded seed (equalities filter) ∧
      ∀ key value e, (key, value) ∈ filter → starts_dollar key = false →
        extractEquality value = Some e →
        field_holds value (lookup_path seed (split_dot key))
  | Throw e => seedable [] (equalities filter) = false ∧ e = StorageError InvalidUpdate
  end.
Proof.
  intros Hw. assert (seeded [] []) as Hs.
  { split; [apply wf_empty|constructor|].
    intros q _. split; [apply lookup_path_empty|apply blocked_empty]. }
  pose proof (seed_loop filter [] [] Hw Hs) as H. unfold seedDocumentFromFilter.
  cbn [map app] in H. destruct (foldM seedField filter ([], [])) as [[seed assigned]|e];
    cbn [mbind res_bind]; [|exact H].
  destruct H as [H1 H2]. split; [exact H1|]. split; [exact H2|].
  intros key value e Hin Hk He. assert (lookup_path seed (split_dot key) = Some e) as ->.
  { destruct H2 as [_ H2 _]. rewrite Forall_forall in H2. apply (H2 (split_dot key, e)).
    apply list_elem_of_omap. exists (key, value). cbn [fst snd]. by rewrite Hk, He. }
  apply extractEquality_holds; done.
Qed.

Lemma seed_correct_witness :
  seedDocumentFromFilter
    [(js "a.b", VDoc [(js "$eq", VNull)]); (js "n", VDoc [(js "$gt", VNull)]); (js "a.c", VBool true)]
  = Ok [(js "a", VDoc [(js "b", VNull); (js "c", VBool true)])] ∧
  seedable [] (equalities [(js "a.b", VDoc [(js "$eq", VNull)]);
    (js "n", VDoc [(js "$gt", VNull)]); (js "a.c", VBool true)]) = true.
Proof.
  split; [reflexivity|].
  apply (seed_correct [(js "a.b", VDoc [(js "$eq", VNull)]);
    (js "n", VDoc [(js "$gt", VNull)]); (js "a.c", VBool true)] eq_refl).
Defined.
