(* ===== verification/IndexSpec.v ===== *)
(** * Index definitions

    packages/storage/src/indexing/spec.ts: what an index is defined by, and the
    normalisation of the definitions that callers and recovered files give. *)

From S2P Require Import Prelude Errors JsNumber JsString JsValue Update.

Module Spec.
Definition ID_INDEX_NAME : jsstring := js "_id_".
Definition MAX_INDEXES_PER_COLLECTION : Z := 32.
Definition MAX_INDEX_NAME_LENGTH : Z := 127.

Record IndexSpec := {
  name : jsstring;
  field : jsstring;
  direction : Z;
  unique : bool;
  sparse : bool;
}.

#[export] Instance IndexSpec_eq_dec : EqDecision IndexSpec.
Proof. solve_decision. Defined.

(** The properties of the definition given by the caller, [None] for
    [undefined]; their types are not trusted. *)
Record CreateIndexInput := {
  input_field : option DocumentValue;
  input_direction : option DocumentValue;
  input_unique : option DocumentValue;
  input_sparse : option DocumentValue;
  input_name : option DocumentValue;
}.

Definition invalidIndex {A} : result A := Throw (StorageError InvalidIndex).

(** [value ?? default]. *)
Definition coalesce (value : option DocumentValue) (default : DocumentValue) : DocumentValue :=
  match value with None | Some VNull => default | Some v => v end.

Definition readFlag (value : option DocumentValue) : result bool :=
  match value with
  | None => Ok false
  | Some (VBool b) => Ok b
  | Some _ => invalidIndex
  end.

(** [direction !== 1 && direction !== -1]. *)
Definition readDirection (value : option DocumentValue) : result Z :=
  match coalesce value (VNumber (number_of_Z 1)) with
  | VNumber direction =>
      if decide (direction = number_of_Z 1) then Ok 1
      else if decide (direction = number_of_Z (-1)) then Ok (-1)
      else invalidIndex
  | _ => invalidIndex
  end.

(** [`${field}_${direction}`]. *)
Definition default_name (field : jsstring) (direction : Z) : jsstring :=
  field ++ (if direction =? 1 then js "_1" else js "_-1").

Definition valid_name (name : jsstring) : bool :=
  negb ((len name =? 0)
        || (MAX_INDEX_NAME_LENGTH <? len name)
        || bool_decide (name = ID_INDEX_NAME)
        || existsb (λ unit, unit <? 32) name).

Definition normalizeIndexSpec (input : CreateIndexInput) : result IndexSpec :=
  match input_field input with
  | Some (VString field) =>
      if len field =? 0 then invalidIndex
      else if existsb Update.reserved (split_dot field) then invalidIndex
      else if bool_decide (field = js "_id") || starts_with (js "_id.") field then invalidIndex
      else
        direction ← readDirection (input_direction input);
        unique ← readFlag (input_unique input);
        sparse ← readFlag (input_sparse input);
        match coalesce (input_name input) (VString (default_name field direction)) with
        | VString name =>
            if negb (valid_name name) then invalidIndex
            else Ok {| name := name; field := field; direction := direction;
                       unique := unique; sparse := sparse |}
        | _ => invalidIndex
        end
  | _ => invalidIndex
  end.

Definition sameDefinition (left right : IndexSpec) : bool :=
  bool_decide (field left = field right) && (direction left =? direction right)
  && eqb (unique left) (unique right) && eqb (sparse left) (sparse right).

Definition idIndexSpec : IndexSpec :=
  {| name := ID_INDEX_NAME; field := js "_id"; direction := 1; unique := true; sparse := false |}.
End Spec.
Abbreviation IndexSpec := Spec.IndexSpec.
Import Spec.

(** A definition as the input that defines it, as written to the log. *)
Definition input_of (spec : IndexSpec) : CreateIndexInput := {|
  input_field := Some (VString (field spec));
  input_direction := Some (VNumber (number_of_Z (direction spec)));
  input_unique := Some (VBool (unique spec));
  input_sparse := Some (VBool (sparse spec));
  input_name := Some (VString (name spec));
|}.

(** The definitions that a collection can hold. *)
Definition valid_spec (spec : IndexSpec) : bool :=
  negb (len (field spec) =? 0)
  && negb (existsb Update.reserved (split_dot (field spec)))
  && negb (bool_decide (field spec = js "_id") || starts_with (js "_id.") (field spec))
  && ((direction spec =? 1) || (direction spec =? -1))
  && valid_name (name spec).

(** An index definition that is read back as it was written. *)
Definition plain_spec (spec : IndexSpec) : Prop :=
  valid_spec spec = true ∧ plain (name spec) ∧ plain (field spec).

Lemma readDirection_Ok v d : readDirection v = Ok d → d = 1 ∨ d = -1.
Proof.
  unfold readDirection. destruct (coalesce _ _); try done.
  repeat case_decide; naive_solver.
Qed.

Lemma normalize_valid input spec : normalizeIndexSpec input = Ok spec → valid_spec spec = true.
Proof.
  unfold normalizeIndexSpec, valid_spec. intros H.
  destruct (input_field input) as [[]|]; try done.
  destruct (len s =? 0) eqn:E1; [done|]. destruct (existsb _ _) eqn:E2; [done|].
  destruct (bool_decide _ || _) eqn:E3; [done|]. inv_ok H.
  destruct (coalesce _ _); try done. destruct (valid_name s0) eqn:E4; [|done].
  injection H as <-. cbn [field direction name]. rewrite E1, E2, E3, E4.
  apply readDirection_Ok in H0 as [-> | ->]; done.
Qed.

Lemma normalize_input_of spec : valid_spec spec = true → normalizeIndexSpec (input_of spec) = Ok spec.
Proof.
  destruct spec as [n f d u s]. unfold valid_spec. cbn [field direction name].
  rewrite !andb_true_iff, !negb_true_iff. intros [[[[H1 H2] H3] H4] H5].
  unfold normalizeIndexSpec. cbn [input_of input_field input_direction input_unique input_sparse
    input_name field direction name unique sparse].
  rewrite H1, H2, H3. assert (readDirection (Some (VNumber (number_of_Z d))) = Ok d) as ->.
  { apply orb_true_iff in H4 as [->%Z.eqb_eq | ->%Z.eqb_eq]; reflexivity. }
  cbn [mbind res_bind readFlag coalesce]. by rewrite H5.
Qed.

(** Normalising an index definition gives a definition that the collection
    can hold or the one error of an invalid index, and a normalised definition
    written out and read back is accepted and unchanged. *)
Lemma index_spec_roundtrip (input : CreateIndexInput) :
  match normalizeIndexSpec input with
  | Ok spec => valid_spec spec = true ∧ normalizeIndexSpec (input_of spec) = Ok spec
  | Throw e => e = StorageError InvalidIndex
  end.
Proof.
  destruct (normalizeIndexSpec input) as [spec|e] eqn:E.
  - pose proof (normalize_valid _ _ E). split; [done|]. by apply normalize_input_of.
  - assert (∀ v, match readFlag v with Ok _ => True | Throw e => e = StorageError InvalidIndex end)
      as Hflag by (by intros [[]|]).
    unfold normalizeIndexSpec in E.
    destruct (input_field input) as [[]|]; try (by injection E).
    destruct (len s =? 0); [by injection E|]. destruct (existsb _ _); [by injection E|].
    destruct (bool_decide _ || _); [by injection E|].
    apply bind_Throw_inv in E as [E|(d & Ed & E)].
    { unfold readDirection in E. destruct (coalesce _ _); try (by injection E).
      repeat case_decide; try done; by injection E. }
    apply bind_Throw_inv in E as [E|(u & Eu & E)].
    { specialize (Hflag (input_unique input)). by rewrite E in Hflag. }
    apply bind_Throw_inv in E as [E|(sp & Es & E)].
    { specialize (Hflag (input_sparse input)). by rewrite E in Hflag. }
    destruct (coalesce _ _); try (by injection E).
    destruct (negb _); [by injection E|done].
Qed.
