(* ===== verification/FieldIndex.v ===== *)
(** * Field indexes

    packages/storage/src/indexing/values.ts and field-index.ts: the index of one
    field, its documents by canonical value and the comparable values of each
    class in order. A [Map] is an association list in insertion order, a [Set]
    a list without duplicates. *)

From S2P Require Import Prelude Errors JsNumber JsString JsValue Binary Codec Filter IndexSpec.

(** * Indexed values *)
Inductive ValueClass := ClassString | ClassNumber | ClassBigint | ClassDate | ClassBinary | ClassId.

#[export] Instance ValueClass_eq_dec : EqDecision ValueClass.
Proof. solve_decision. Defined.

(** The latin1 string of the canonical bytes: one unit per byte. *)
Definition canonicalKey (value : DocumentValue) : result bytes := encodeDocumentValue value.

Definition valueClassOf (value : DocumentValue) : option ValueClass :=
  if negb (Filter.isComparableValue value) then None
  else
    match value with
    | VString _ => Some ClassString
    | VNumber _ => Some ClassNumber
    | VBigInt _ => Some ClassBigint
    | VDate _ => Some ClassDate
    | VId _ => Some ClassId
    | _ => Some ClassBinary
    end.

(** [None] is the [undefined] that the cast to [number] hides. *)
Definition compareSameClass (left right : DocumentValue) : option Z :=
  Filter.compareValues left right.

Module FieldIndex.
Record IndexBound := { bound_value : DocumentValue; inclusive : bool }.

Record OrderedEntry := { value : DocumentValue; key : bytes }.

(** The description of the conflict is part of an error message. *)
Record IndexConflict := { index : jsstring; field : jsstring }.

Record FieldIndex := {
  spec : Spec.IndexSpec;
  byValue : list (bytes * list jsstring);
  missing : list jsstring;
  ordered : list (ValueClass * list OrderedEntry);
  unsorted : list ValueClass;
  arrayValues : Z;
  indexedDocuments : Z;
}.

Definition new (spec : Spec.IndexSpec) : FieldIndex :=
  {| spec := spec; byValue := []; missing := []; ordered := []; unsorted := [];
     arrayValues := 0; indexedDocuments := 0 |}.

Definition segments (ix : FieldIndex) : list jsstring := split_dot (Spec.field (spec ix)).

Definition hasArrayValues (ix : FieldIndex) : bool := 0 <? arrayValues ix.
Definition documentCount (ix : FieldIndex) : Z := indexedDocuments ix.
Definition distinctValues (ix : FieldIndex) : Z := len (byValue ix).

Definition set_values (ix : FieldIndex) (m : list (bytes * list jsstring)) : FieldIndex :=
  {| spec := spec ix; byValue := m; missing := missing ix; ordered := ordered ix;
     unsorted := unsorted ix; arrayValues := arrayValues ix;
     indexedDocuments := indexedDocuments ix |}.

Definition set_missing (ix : FieldIndex) (s : list jsstring) : FieldIndex :=
  {| spec := spec ix; byValue := byValue ix; missing := s; ordered := ordered ix;
     unsorted := unsorted ix; arrayValues := arrayValues ix;
     indexedDocuments := indexedDocuments ix |}.

Definition set_ordered (ix : FieldIndex) (m : list (ValueClass * list OrderedEntry))
    (u : list ValueClass) : FieldIndex :=
  {| spec := spec ix; byValue := byValue ix; missing := missing ix; ordered := m;
     unsorted := u; arrayValues := arrayValues ix;
     indexedDocuments := indexedDocuments ix |}.

(** [arrayValues += a; indexedDocuments += d]. *)
Definition count (ix : FieldIndex) (a d : Z) : FieldIndex :=
  {| spec := spec ix; byValue := byValue ix; missing := missing ix; ordered := ordered ix;
     unsorted := unsorted ix; arrayValues := arrayValues ix + a;
     indexedDocuments := indexedDocuments ix + d |}.

Definition entries_of (ix : FieldIndex) (valueClass : ValueClass) : list OrderedEntry :=
  default [] (omap_get (ordered ix) valueClass).

(** ** Binary search

    The loop of [lowerBound] and [upperBound], [test] the comparison of the
    middle entry. The interval shrinks at every turn, so its length is enough
    fuel; the middle is computed on 32 bits. *)
Fixpoint bound_loop (test : OrderedEntry → bool) (entries : list OrderedEntry)
    (fuel : nat) (low high : Z) : Z :=
  match fuel with
  | O => low
  | S fuel =>
      if negb (low <? high) then low
      else
        let middle := ((low + high) mod 2 ^ 32) / 2 in
        match entries !! Z.to_nat middle with
        | None => low
        | Some entry =>
            if test entry then bound_loop test entries fuel (middle + 1) high
            else bound_loop test entries fuel low middle
        end
  end.

Definition lowerBound (entries : list OrderedEntry) (v : DocumentValue) : Z :=
  bound_loop (λ entry,
    match compareSameClass (value entry) v with Some c => c <? 0 | None => false end)
    entries (S (length entries)) 0 (len entries).

Definition upperBound (entries : list OrderedEntry) (v : DocumentValue) : Z :=
  bound_loop (λ entry,
    match compareSameClass (value entry) v with Some c => c <=? 0 | None => false end)
    entries (S (length entries)) 0 (len entries).

(** ** Ordered entries *)
Definition insertOrdered (ix : FieldIndex) (v : DocumentValue) (k : bytes) (bulk : bool)
    : FieldIndex :=
  match valueClassOf v with
  | None => ix
  | Some valueClass =>
      let entries := entries_of ix valueClass in
      let entry := {| value := v; key := k |} in
      if bulk then
        set_ordered ix (omap_set (ordered ix) valueClass (entries ++ [entry]))
          (oset_add (unsorted ix) valueClass)
      else
        let position := Z.to_nat (lowerBound entries v) in
        set_ordered ix
          (omap_set (ordered ix) valueClass (take position entries ++ entry :: drop position entries))
          (unsorted ix)
  end.

(** The loop of [removeOrdered] over the entries from the lower bound on. *)
Fixpoint remove_entry (entries : list OrderedEntry) (v : DocumentValue) (k : bytes)
    : list OrderedEntry :=
  match entries with
  | [] => []
  | entry :: rest =>
      match compareSameClass (value entry) v with
      | Some 0 =>
          if decide (key entry = k) then rest else entry :: remove_entry rest v k
      | _ => entries
      end
  end.

Definition removeOrdered (ix : FieldIndex) (v : DocumentValue) (k : bytes) : FieldIndex :=
  match valueClassOf v with
  | None => ix
  | Some valueClass =>
      match omap_get (ordered ix) valueClass with
      | None => ix
      | Some entries =>
          let position := Z.to_nat (lowerBound entries v) in
          set_ordered ix
            (omap_set (ordered ix) valueClass
               (take position entries ++ remove_entry (drop position entries) v k))
            (unsorted ix)
      end
  end.

Definition is_array (v : DocumentValue) : bool :=
  match v with VArray _ => true | _ => false end.

(** ** Documents *)
Definition add (ix : FieldIndex) (docKey : jsstring) (document : Document) (bulk : bool)
    : result FieldIndex :=
  match Filter.resolveField document (segments ix) with
  | None =>
      Ok (if negb (Spec.sparse (spec ix))
          then count (set_missing ix (oset_add (missing ix) docKey)) 0 1
          else ix)
  | Some v =>
      key ← canonicalKey v;
      let '(keys, ix) :=
        match omap_get (byValue ix) key with
        | Some keys => (keys, ix)
        | None => ([], insertOrdered (set_values ix (omap_set (byValue ix) key [])) v key bulk)
        end in
      let ix := set_values ix (omap_set (byValue ix) key (oset_add keys docKey)) in
      Ok (count ix (if is_array v then 1 else 0) 1)
  end.

(** The comparison function that sorts the entries of a class; [undefined] and
    NaN count as equal. *)
Definition entry_cmp (left right : OrderedEntry) : Z :=
  default 0 (compareSameClass (value left) (value right)).

Definition finishBulk (ix : FieldIndex) : FieldIndex :=
  set_ordered ix
    (fold_left (λ ordered valueClass,
       omap_set ordered valueClass (sort_by entry_cmp (default [] (omap_get ordered valueClass))))
      (unsorted ix) (ordered ix))
    [].

Definition remove (ix : FieldIndex) (docKey : jsstring) (document : Document)
    : result FieldIndex :=
  match Filter.resolveField document (segments ix) with
  | None =>
      Ok (if negb (Spec.sparse (spec ix)) && bool_decide (docKey ∈ missing ix)
          then count (set_missing ix (oset_delete (missing ix) docKey)) 0 (-1)
          else ix)
  | Some v =>
      key ← canonicalKey v;
      match omap_get (byValue ix) key with
      | None => Ok ix
      | Some keys =>
          if negb (bool_decide (docKey ∈ keys)) then Ok ix
          else
            let keys := oset_delete keys docKey in
            let ix :=
              match keys with
              | [] => removeOrdered (set_values ix (omap_delete (byValue ix) key)) v key
              | _ => set_values ix (omap_set (byValue ix) key keys)
              end in
            Ok (count ix (if is_array v then -1 else 0) (-1))
      end
  end.

Definition conflict (ix : FieldIndex) : IndexConflict :=
  {| index := Spec.name (spec ix); field := Spec.field (spec ix) |}.

Definition conflictFor (ix : FieldIndex) (docKey : jsstring) (document : Document)
    : result (option IndexConflict) :=
  if negb (Spec.unique (spec ix)) then Ok None
  else
    match Filter.resolveField document (segments ix) with
    | None =>
        if Spec.sparse (spec ix) then Ok None
        else
          let others := filter (λ other, other ≠ docKey) (missing ix) in
          Ok (if len others =? 0 then None else Some (conflict ix))
    | Some v =>
        key ← canonicalKey v;
        match omap_get (byValue ix) key with
        | None => Ok None
        | Some keys =>
            Ok (if existsb (λ other, negb (bool_decide (other = docKey))) keys
                then Some (conflict ix) else None)
        end
    end.

(** ** Lookups *)
Definition lookupEqual (ix : FieldIndex) (v : DocumentValue) : result (option (list jsstring)) :=
  key ← canonicalKey v;
  Ok (omap_get (byValue ix) key).

Definition estimateEqual (ix : FieldIndex) (v : DocumentValue) : result Z :=
  key ← canonicalKey v;
  Ok (match omap_get (byValue ix) key with Some keys => len keys | None => 0 end).

Definition rangeEntries (ix : FieldIndex) (valueClass : ValueClass)
    (lower upper : option IndexBound) : Z * Z :=
  let entries := entries_of ix valueClass in
  let start :=
    match lower with
    | None => 0
    | Some b =>
        if inclusive b then lowerBound entries (bound_value b)
        else upperBound entries (bound_value b)
    end in
  let last :=
    match upper with
    | None => len entries
    | Some b =>
        if inclusive b then upperBound entries (bound_value b)
        else lowerBound entries (bound_value b)
    end in
  (start, Z.max start last).

(** [Math.ceil]. *)
Definition number_ceil (n : number) : number :=
  match n with
  | S754_finite s m e =>
      if 0 <=? e then n
      else if s then
        (if Zpos m / 2 ^ (- e) =? 0 then S754_zero true else number_of_Z (- (Zpos m / 2 ^ (- e))))
      else number_of_Z ((Zpos m + 2 ^ (- e) - 1) / 2 ^ (- e))
  | _ => n
  end.

(** An estimate is a number, computed with the division and multiplication of
    numbers. *)
Definition estimateRange (ix : FieldIndex) (valueClass : ValueClass)
    (lower upper : option IndexBound) : number :=
  let '(start, last) := rangeEntries ix valueClass lower upper in
  let average :=
    if len (byValue ix) =? 0 then number_of_Z 0
    else SFdiv 53 1024 (number_of_Z (indexedDocuments ix)) (number_of_Z (len (byValue ix))) in
  number_ceil (SFmul 53 1024 (number_of_Z (last - start)) average).

Definition lookupRange (ix : FieldIndex) (valueClass : ValueClass)
    (lower upper : option IndexBound) : list jsstring :=
  let entries := entries_of ix valueClass in
  let '(start, last) := rangeEntries ix valueClass lower upper in
  fold_left (λ result entry,
    fold_left oset_add (default [] (omap_get (byValue ix) (key entry))) result)
    (take (Z.to_nat (last - start)) (drop (Z.to_nat start) entries)) [].

(** ** Consistency *)
Inductive orderedProblem := NoDocuments (valueClass : ValueClass) | OutOfOrder (valueClass : ValueClass) | EmptyEntry.

(** Strings in the order of their units, as [Array.prototype.sort] puts them. *)
Definition sort_strings (l : list jsstring) : list jsstring :=
  sort_by (λ a b, sign_of (lex_cmp a b)) l.

Record Contents := {
  values : list (bytes * list jsstring);
  contents_missing : list jsstring;
  orderedProblems : list orderedProblem;
}.

(** The problems of the entries of one class, [previous] the entry before. *)
Fixpoint entry_problems (ix : FieldIndex) (valueClass : ValueClass)
    (previous : option OrderedEntry) (entries : list OrderedEntry) : list orderedProblem :=
  match entries with
  | [] => []
  | entry :: entries =>
      (if omap_has (byValue ix) (key entry) then [] else [NoDocuments valueClass]) ++
      (match previous with
       | Some p =>
           match compareSameClass (value p) (value entry) with
           | Some c => if 0 <? c then [OutOfOrder valueClass] else []
           | None => []
           end
       | None => []
       end) ++
      entry_problems ix valueClass (Some entry) entries
  end.

Definition contents (ix : FieldIndex) : Contents := {|
  values :=
    sort_by (λ l r, sign_of (lex_cmp l.1 r.1))
      (map (λ kv, (kv.1, sort_strings kv.2)) (byValue ix));
  contents_missing := sort_strings (missing ix);
  orderedProblems :=
    flat_map (λ ce, entry_problems ix ce.1 None ce.2) (ordered ix) ++
    flat_map (λ kv, match kv.2 with [] => [EmptyEntry] | _ => [] end) (byValue ix);
|}.

Definition orderedKeyCount (ix : FieldIndex) : Z :=
  fold_left (λ total ce, total + len ce.2) (ordered ix) 0.
End FieldIndex.
Import FieldIndex.
