(* ===== verification/IndexLemmas.v ===== *)
(** * Field indexes: what they hold

    The invariant of a field index against the fields of the documents it
    indexes, and that adding, removing and looking up keep to it. *)

From stdpp Require Import gmap.
From S2P Require Import Prelude Errors JsNumber JsString JsValue Binary Codec Roundtrip Filter FilterSpec Sort IndexSpec FieldIndex.

Import FieldIndex.FieldIndex.

(** * Values of one class *)
Abbreviation value_cmp := Sort.compareDocumentValues.

#[export] Instance value_cmp_order : CmpOrder value_cmp.
Proof. exact (sort_value_order Some). Qed.

Lemma bigint_cmp a b : extZ_cmp (bigint_value a) (bigint_value b) = (a ?= b).
Proof. symmetry. apply Zmult_compare_compat_r. apply Z.lt_gt, Z.pow_pos_nonneg; lia. Qed.

Lemma filter_compareBytes a b : Filter.compareBytes a b = Sort.compareBytes a b.
Proof.
  rewrite compareBytes_lex. revert b.
  induction a as [|x a IH]; intros [|y b]; cbn [Filter.compareBytes lex_cmp]; try done.
  rewrite IH. destruct (Z.compare_spec x y); simpl; destruct (Z.ltb_spec x y); try lia; try done;
    destruct (Z.ltb_spec y x); lia || done.
Qed.

Lemma compareSameClass_cmp a b c :
  valueClassOf a = Some c → valueClassOf b = Some c →
  compareSameClass a b = Some (value_cmp a b).
Proof.
  unfold valueClassOf, compareSameClass, value_cmp. intros Ha Hb.
  destruct (Filter.isComparableValue a) eqn:Ca; [|done].
  destruct (Filter.isComparableValue b) eqn:Cb; [|done]. cbn [negb] in *.
  unfold Sort.compareDocumentValues, Sort.compareSortValues, Sort.sort_value.
  destruct a; simpl in Ca; try discriminate; destruct b; simpl in Cb; try discriminate;
    try congruence; cbn -[bigint_value string_cmp].
  - rewrite Ca, Cb. cbn. by destruct n, n0.
  - by rewrite bigint_cmp.
  - done.
  - destruct ms, ms0; try discriminate. cbn -[bigint_value]. by rewrite bigint_cmp.
  - by rewrite filter_compareBytes.
  - by rewrite filter_compareBytes.
Qed.

(** Values with the same canonical bytes are of the same class, and equal when
    they are comparable. *)
Lemma equiv_scalar v w : v ≡ w → valueClassOf v = valueClassOf w ∧ is_array v = is_array w.
Proof. unfold equiv, value_equiv. by destruct v, w; intros [=]; subst. Qed.

Lemma equiv_comparable v w c : v ≡ w → valueClassOf v = Some c → v = w.
Proof. unfold equiv, value_equiv. by destruct v, w; intros [=]; subst. Qed.

Lemma enc_class v w :
  encodable v → encodable w → enc v = enc w →
  valueClassOf v = valueClassOf w ∧ is_array v = is_array w.
Proof. intros Hv Hw E. by apply equiv_scalar, enc_eq_equiv. Qed.

Lemma enc_comparable v w c :
  encodable v → encodable w → enc v = enc w → valueClassOf v = Some c → v = w.
Proof. intros Hv Hw E. by apply equiv_comparable, enc_eq_equiv. Qed.

(** * Binary search *)
Section Bound.
Context (test : OrderedEntry → bool) (entries : list OrderedEntry).
Context (Hlen : len entries ≤ 2 ^ 31).
Context (Hmono : ∀ i j a b, (i ≤ j)%nat → entries !! i = Some a → entries !! j = Some b →
  test b = true → test a = true).

(** [low] and [high] bracket the boundary. *)
Definition brackets (low high : Z) : Prop :=
  0 ≤ low ≤ high ∧ high ≤ len entries ∧
  (∀ i a, entries !! i = Some a → Z.of_nat i < low → test a = true) ∧
  (∀ i a, entries !! i = Some a → high ≤ Z.of_nat i → test a = false).

Lemma bound_loop_spec fuel low high :
  brackets low high → (Z.to_nat (high - low) < fuel)%nat →
  brackets (bound_loop test entries fuel low high) (bound_loop test entries fuel low high).
Proof.
  revert low high. induction fuel as [|fuel IH]; intros low high Hb Hf; [lia|].
  cbn [bound_loop]. pose proof Hb as (H1 & H2 & H3 & H4).
  destruct (Z.ltb_spec low high) as [Hlt|Hge]; cbn [negb]; cbv zeta.
  - rewrite (Z.mod_small (low + high)) by lia.
    pose proof (Z.div_mod (low + high) 2 ltac:(lia)). pose proof (Z.mod_pos_bound (low + high) 2 ltac:(lia)).
    set (middle := (low + high) / 2) in *.
    destruct (entries !! Z.to_nat middle) as [entry|] eqn:E.
    + destruct (test entry) eqn:Et; apply IH; try lia.
      * split; [lia|]. split; [lia|]. split; [|done]. intros i a Hi Hil.
        eapply (Hmono i (Z.to_nat middle)); [lia|done..].
      * split; [lia|]. split; [lia|]. split; [done|]. intros i a Hi Hil.
        apply not_true_is_false. intros Ha.
        pose proof (Hmono (Z.to_nat middle) i entry a ltac:(lia) E Hi Ha). congruence.
    + apply lookup_ge_None in E. unfold len in H2. lia.
  - assert (low = high) as -> by lia. done.
Qed.

Lemma bound_spec :
  brackets (bound_loop test entries (S (length entries)) 0 (len entries))
    (bound_loop test entries (S (length entries)) 0 (len entries)).
Proof.
  apply bound_loop_spec; unfold brackets, len in *; [|lia]. split; [lia|]. split; [lia|].
  split; [lia|]. intros i a Hi Hl. apply lookup_lt_Some in Hi. lia.
Qed.

(** The entries before the boundary pass the test, the others do not. *)
Lemma bound_split :
  let n := Z.to_nat (bound_loop test entries (S (length entries)) 0 (len entries)) in
  Forall (λ e, test e = true) (take n entries) ∧ Forall (λ e, test e = false) (drop n entries).
Proof.
  destruct bound_spec as (H1 & H2 & H3 & H4). cbv zeta.
  split; apply Forall_lookup_2; intros i a Hi.
  - apply lookup_take_Some in Hi as [Hi Hl]. apply (H3 i); [done|lia].
  - rewrite lookup_drop in Hi. apply (H4 (Z.to_nat (bound_loop test entries (S (length entries)) 0 (len entries)) + i)%nat); [done|lia].
Qed.
End Bound.

(** * Ordered entries *)
Definition entry_le (a b : OrderedEntry) : Prop := value_cmp (value a) (value b) ≤ 0.

Definition sorted : list OrderedEntry → Prop := StronglySorted entry_le.

(** The entries of a class: distinct keys, each the canonical bytes of its
    value. *)
Definition entries_ok (c : ValueClass) (es : list OrderedEntry) : Prop :=
  NoDup (map key es) ∧
  Forall (λ e, valueClassOf (value e) = Some c ∧ encodable (value e) ∧ enc (value e) = key e) es.

Lemma sorted_lookup es i j a b :
  sorted es → (i ≤ j)%nat → es !! i = Some a → es !! j = Some b → entry_le a b.
Proof.
  intros Hs. revert i j. induction Hs as [|x es Hs IH Hx]; intros i j Hij Ha Hb; [done|].
  destruct i as [|i], j as [|j]; simplify_eq/=.
  - unfold entry_le. rewrite cmp_refl; lia || apply _.
  - rewrite Forall_forall in Hx. eapply Hx, list_elem_of_lookup_2, Hb.
  - lia.
  - eapply IH; [|done..]. lia.
Qed.

Lemma sorted_app es1 es2 :
  sorted (es1 ++ es2) ↔
  sorted es1 ∧ sorted es2 ∧ ∀ a b, a ∈ es1 → b ∈ es2 → entry_le a b.
Proof.
  induction es1 as [|x es1 IH]; cbn [app].
  - split; [intros H; split; [constructor|]; split; [done|]; by intros a b ?%not_elem_of_nil|by intros (_ & ? & _)].
  - split.
    + inversion_clear 1 as [|? ? Hs Hx]. apply IH in Hs as (H1 & H2 & H3).
      apply Forall_app in Hx as [Hx1 Hx2]. rewrite Forall_forall in Hx2.
      split; [by constructor|]. split; [done|]. intros a b [->|Ha]%elem_of_cons Hb; eauto.
    + intros (H1 & H2 & H3). inversion_clear H1 as [|? ? Hs Hx]. constructor.
      * apply IH. split; [done|]. split; [done|]. intros a b Ha Hb. apply H3; [by right|done].
      * apply Forall_app. split; [done|]. apply Forall_forall. intros b Hb. apply H3; [left|done].
Qed.

Lemma elem_of_take_sub {A} n (l : list A) x : x ∈ take n l → x ∈ l.
Proof. intros H. rewrite <- (take_drop n l). apply elem_of_app. by left. Qed.

Lemma elem_of_drop_sub {A} n (l : list A) x : x ∈ drop n l → x ∈ l.
Proof. intros H. rewrite <- (take_drop n l). apply elem_of_app. by right. Qed.

Section Search.
Context (c : ValueClass) (v : DocumentValue) (Hv : valueClassOf v = Some c).

(** A search by a test on how an entry compares with [v]. *)
Lemma search_split (f : Z → bool) es :
  (∀ a b, entry_le a b → f (value_cmp (value b) v) = true → f (value_cmp (value a) v) = true) →
  entries_ok c es → sorted es → len es ≤ 2 ^ 31 →
  let test e := match compareSameClass (value e) v with Some c => f c | None => false end in
  let n := Z.to_nat (bound_loop test es (S (length es)) 0 (len es)) in
  Forall (λ e, f (value_cmp (value e) v) = true) (take n es) ∧
  Forall (λ e, f (value_cmp (value e) v) = false) (drop n es).
Proof.
  intros Hf [_ Hok] Hs Hlen test n.
  assert (∀ e, e ∈ es → test e = f (value_cmp (value e) v)) as Ht.
  { intros e He. rewrite Forall_forall in Hok. destruct (Hok e He) as [Hc _].
    unfold test. by rewrite (compareSameClass_cmp _ _ c). }
  destruct (bound_split test es Hlen) as [H1 H2].
  { intros i j a b Hij Ha Hb Htb. rewrite Ht in Htb |- * by (by eapply list_elem_of_lookup_2).
    eapply Hf; [|done]. by eapply sorted_lookup. }
  rewrite Forall_forall in H1, H2 |- *. rewrite Forall_forall.
  split; intros e He.
  - rewrite <- Ht; [by apply H1|]. by eapply elem_of_take_sub.
  - rewrite <- Ht; [by apply H2|]. by eapply elem_of_drop_sub.
Qed.

Lemma lowerBound_split es :
  entries_ok c es → sorted es → len es ≤ 2 ^ 31 →
  Forall (λ e, value_cmp (value e) v < 0) (take (Z.to_nat (lowerBound es v)) es) ∧
  Forall (λ e, 0 ≤ value_cmp (value e) v) (drop (Z.to_nat (lowerBound es v)) es).
Proof.
  intros Hok Hs Hlen. destruct (search_split (λ c, c <? 0) es) as [H1 H2]; [|done..|].
  - intros a b Hab. rewrite !Z.ltb_lt. rewrite !(cmp_lt_gt value_cmp).
    pose proof (cmp_flip value_cmp v (value a)). pose proof (cmp_flip value_cmp v (value b)).
    destruct (Z.le_gt_cases (value_cmp v (value a)) 0); [|lia].
    pose proof (cmp_le_trans value_cmp v (value a) (value b)). unfold entry_le in Hab. lia.
  - split; eapply Forall_impl; [exact H1| |exact H2|]; cbv beta; lia.
Qed.

Lemma upperBound_split es :
  entries_ok c es → sorted es → len es ≤ 2 ^ 31 →
  Forall (λ e, value_cmp (value e) v ≤ 0) (take (Z.to_nat (upperBound es v)) es) ∧
  Forall (λ e, 0 < value_cmp (value e) v) (drop (Z.to_nat (upperBound es v)) es).
Proof.
  intros Hok Hs Hlen. destruct (search_split (λ c, c <=? 0) es) as [H1 H2]; [|done..|].
  - intros a b Hab. rewrite !Z.leb_le. intros Hb. by apply (cmp_le_trans value_cmp _ (value b)).
  - split; eapply Forall_impl; [exact H1| |exact H2|]; cbv beta; lia.
Qed.
End Search.

Lemma entries_ok_perm c es es' : es ≡ₚ es' → entries_ok c es → entries_ok c es'.
Proof. intros Hp [H1 H2]. split; by rewrite <- Hp. Qed.

Lemma entries_ok_cons c e es :
  entries_ok c (e :: es) ↔
  (key e ∉ map key es) ∧
  (valueClassOf (value e) = Some c ∧ encodable (value e) ∧ enc (value e) = key e) ∧
  entries_ok c es.
Proof. unfold entries_ok. cbn [map]. rewrite NoDup_cons, Forall_cons. naive_solver. Qed.

Lemma insert_entries c e es :
  entries_ok c (e :: es) → sorted es → len es ≤ 2 ^ 31 →
  let n := Z.to_nat (lowerBound es (value e)) in
  (take n es ++ e :: drop n es) ≡ₚ e :: es ∧ sorted (take n es ++ e :: drop n es).
Proof.
  intros (_ & (Hc & _) & Hok)%entries_ok_cons Hs Hlen n. split.
  - rewrite <- Permutation_middle. by rewrite take_drop.
  - destruct (lowerBound_split c (value e) Hc es Hok Hs Hlen) as [H1 H2]. fold n in H1, H2.
    pose proof Hs as Hs'. rewrite <- (take_drop n es) in Hs'.
    apply sorted_app in Hs' as (Ht & Hd & Htd). rewrite Forall_forall in H1, H2.
    apply sorted_app. split; [done|]. split.
    + constructor; [done|]. apply Forall_forall. intros a Ha. unfold entry_le.
      by apply (cmp_flip value_cmp), H2.
    + intros a b Ha [->|Hb]%elem_of_cons; [|by apply Htd].
      unfold entry_le. specialize (H1 a Ha). cbv beta in H1. lia.
Qed.

Lemma remove_entry_split c e es :
  entries_ok c es → sorted es → Forall (λ a, 0 ≤ value_cmp (value a) (value e)) es → e ∈ es →
  ∃ es1 es2, es = es1 ++ e :: es2 ∧ remove_entry es (value e) (key e) = es1 ++ es2.
Proof.
  intros Hok Hs Hge Hin. induction es as [|x es IH]; [by apply not_elem_of_nil in Hin|].
  pose proof Hok as (Hx & (Hxc & Hxe) & Hok')%entries_ok_cons.
  inversion_clear Hs as [|? ? Hs' Hle]. apply Forall_cons in Hge as [Hgx Hge].
  assert (valueClassOf (value e) = Some c) as Hc.
  { destruct Hok as [_ Hok]. rewrite Forall_forall in Hok. by apply Hok. }
  cbn [remove_entry]. rewrite (compareSameClass_cmp _ _ c) by done.
  apply elem_of_cons in Hin as [->|Hin].
  - rewrite (cmp_refl value_cmp), decide_True by done. by exists [], es.
  - assert (value_cmp (value x) (value e) = 0) as ->.
    { rewrite Forall_forall in Hle. specialize (Hle e Hin). unfold entry_le in Hle. lia. }
    rewrite decide_False.
    + destruct (IH Hok' Hs' Hge Hin) as (es1 & es2 & -> & ->). by exists (x :: es1), es2.
    + intros E. apply Hx. rewrite E. by apply (list_elem_of_fmap_2 key).
Qed.

Lemma remove_entries c e es :
  entries_ok c es → sorted es → len es ≤ 2 ^ 31 → e ∈ es →
  let n := Z.to_nat (lowerBound es (value e)) in
  let es' := take n es ++ remove_entry (drop n es) (value e) (key e) in
  es ≡ₚ e :: es' ∧ sorted es'.
Proof.
  intros Hok Hs Hlen Hin n es'.
  assert (valueClassOf (value e) = Some c) as Hc.
  { destruct Hok as [_ Hf]. rewrite Forall_forall in Hf. by apply Hf. }
  destruct (lowerBound_split c (value e) Hc es Hok Hs Hlen) as [H1 H2]. fold n in H1, H2.
  pose proof Hs as Hs'. rewrite <- (take_drop n es) in Hs'.
  apply sorted_app in Hs' as (Ht & Hd & Htd).
  assert (e ∈ drop n es) as Hin'.
  { rewrite <- (take_drop n es) in Hin. apply elem_of_app in Hin as [Hin|]; [|done].
    rewrite Forall_forall in H1. specialize (H1 e Hin). cbv beta in H1.
    rewrite (cmp_refl value_cmp) in H1. lia. }
  assert (entries_ok c (drop n es)) as Hokd.
  { destruct Hok as [Hn Hf]. split.
    - rewrite <- (take_drop n es), map_app in Hn. by apply NoDup_app in Hn as (_ & _ & ?).
    - rewrite Forall_forall in Hf |- *. intros a Ha. by apply Hf, (elem_of_drop_sub n). }
  destruct (remove_entry_split c e _ Hokd Hd H2 Hin') as (es1 & es2 & E & Er).
  unfold es'. rewrite Er. rewrite E in Hd, Htd. split.
  - rewrite <- (take_drop n es) at 1. rewrite E.
    by rewrite !Permutation_middle.
  - apply sorted_app in Hd as (Hd1 & Hd2 & Hd12). inversion_clear Hd2 as [|? ? Hd2' _].
    apply sorted_app. split; [done|]. split.
    + apply sorted_app. split; [done|]. split; [done|].
      intros a b Ha Hb. apply Hd12; [done|by right].
    + intros a b Ha Hb. apply Htd; [done|]. rewrite elem_of_app in Hb |- *.
      destruct Hb; [by left|right; by right].
Qed.

(** * The fields of the indexed documents

    For every indexed document, by its key, the value of the field; [None] when
    the document lacks it. *)
Abbreviation fields := (gmap jsstring (option DocumentValue)).

(** A document holds the value of the canonical bytes [k]. *)
Definition holds (M : fields) (k : bytes) (dk : jsstring) : Prop :=
  ∃ v, M !! dk = Some (Some v) ∧ enc v = k.

(** Some document holds the value of the bytes [k], of class [c]. *)
Definition class_holds (M : fields) (c : ValueClass) (k : bytes) : Prop :=
  ∃ dk v, M !! dk = Some (Some v) ∧ enc v = k ∧ valueClassOf v = Some c.

Definition fields_ok (M : fields) : Prop := ∀ dk v, M !! dk = Some (Some v) → encodable v.

Definition count_where (P : option DocumentValue → bool) (M : fields) : Z :=
  Z.of_nat (size (filter (λ kv, P kv.2 = true) M)).

Definition is_array_field (f : option DocumentValue) : bool :=
  match f with Some v => is_array v | None => false end.

Definition is_indexed (sparse : bool) (f : option DocumentValue) : bool :=
  match f with Some _ => true | None => negb sparse end.

Lemma count_insert P M dk f :
  M !! dk = None → count_where P (<[dk := f]> M) = count_where P M + (if P f then 1 else 0).
Proof.
  intros H. unfold count_where. destruct (P f) eqn:E.
  - rewrite map_filter_insert_True by done. rewrite map_size_insert_None; [lia|].
    apply map_lookup_filter_None. by left.
  - rewrite map_filter_insert_False by (simpl; congruence).
    rewrite delete_id by done. lia.
Qed.

Lemma holds_insert M dk v k dk' :
  M !! dk = None →
  holds (<[dk := Some v]> M) k dk' ↔ (dk' = dk ∧ enc v = k) ∨ holds M k dk'.
Proof.
  intros H. unfold holds. destruct (decide (dk = dk')) as [->|Hne].
  - rewrite lookup_insert_eq, H. naive_solver.
  - rewrite lookup_insert_ne by done. naive_solver.
Qed.

Lemma holds_insert_missing M dk k dk' :
  M !! dk = None → holds (<[dk := None]> M) k dk' ↔ holds M k dk'.
Proof.
  intros H. unfold holds. destruct (decide (dk = dk')) as [->|Hne].
  - rewrite lookup_insert_eq, H. naive_solver.
  - by rewrite lookup_insert_ne by done.
Qed.

Lemma class_holds_insert M dk v c k :
  M !! dk = None →
  class_holds (<[dk := Some v]> M) c k ↔
    (enc v = k ∧ valueClassOf v = Some c) ∨ class_holds M c k.
Proof.
  intros H. unfold class_holds. split.
  - intros (dk' & w & Hl & Hw). destruct (decide (dk = dk')) as [->|Hne].
    + rewrite lookup_insert_eq in Hl. naive_solver.
    + rewrite lookup_insert_ne in Hl by done. right. eauto.
  - intros [Hv|(dk' & w & Hl & Hw)].
    + exists dk, v. by rewrite lookup_insert_eq.
    + exists dk', w. rewrite lookup_insert_ne by congruence. done.
Qed.

Lemma class_holds_insert_missing M dk c k :
  M !! dk = None → class_holds (<[dk := None]> M) c k ↔ class_holds M c k.
Proof.
  intros H. unfold class_holds. split; intros (dk' & w & Hl & Hw); exists dk', w.
  - destruct (decide (dk = dk')) as [->|Hne]; [by rewrite lookup_insert_eq in Hl|].
    by rewrite lookup_insert_ne in Hl by done.
  - rewrite lookup_insert_ne by congruence. done.
Qed.

Lemma class_holds_holds M c k : class_holds M c k → ∃ dk, holds M k dk.
Proof. intros (dk & v & Hl & E & _). exists dk, v. done. Qed.

(** ** Documents by value *)
Record values_inv (m : list (bytes * list jsstring)) (M : fields) : Prop := {
  values_NoDup : NoDup (omap_keys m);
  values_sets : ∀ k ks, omap_get m k = Some ks → NoDup ks ∧ ks ≠ [];
  values_in : ∀ k dk, dk ∈ default [] (omap_get m k) ↔ holds M k dk;
}.

Lemma values_ext m M M' :
  (∀ k dk, holds M k dk ↔ holds M' k dk) → values_inv m M → values_inv m M'.
Proof. intros H [H1 H2 H3]. split; [done..|]. intros k dk. by rewrite H3. Qed.

Lemma values_add m M dk v :
  values_inv m M → M !! dk = None →
  values_inv (omap_set m (enc v) (oset_add (default [] (omap_get m (enc v))) dk))
    (<[dk := Some v]> M).
Proof.
  intros [H1 H2 H3] Hdk. split; [by apply omap_set_NoDup| |].
  - intros k ks. destruct (decide (enc v = k)) as [<-|Hne].
    + rewrite omap_get_set. intros [= <-]. split.
      * apply oset_add_NoDup. destruct (omap_get m (enc v)) eqn:E; [by eapply H2|constructor].
      * intros E. assert (dk ∈ @nil jsstring) as Hin by (rewrite <- E; apply oset_add_elem; by right).
        by apply not_elem_of_nil in Hin.
    + rewrite omap_get_set_ne by done. apply H2.
  - intros k dk'. rewrite holds_insert by done. destruct (decide (enc v = k)) as [<-|Hne].
    + rewrite omap_get_set. cbn [from_option id]. rewrite oset_add_elem, H3. naive_solver.
    + rewrite omap_get_set_ne by done. rewrite H3. naive_solver.
Qed.

Lemma values_remove m M dk v :
  values_inv m (<[dk := Some v]> M) → M !! dk = None →
  ∃ ks, omap_get m (enc v) = Some ks ∧ dk ∈ ks ∧
    values_inv
      (match oset_delete ks dk with
       | [] => omap_delete m (enc v)
       | ks => omap_set m (enc v) ks
       end) M ∧
    (oset_delete ks dk = [] ↔ ∀ dk', ¬ holds M (enc v) dk').
Proof.
  intros [H1 H2 H3] Hdk. assert (dk ∈ default [] (omap_get m (enc v))) as Hin.
  { apply H3, holds_insert; auto. }
  destruct (omap_get m (enc v)) as [ks|] eqn:E; [|by apply not_elem_of_nil in Hin].
  destruct (H2 _ _ E) as [Hnd Hne]. exists ks. split; [done|]. split; [done|].
  assert (∀ dk', dk' ∈ oset_delete ks dk ↔ holds M (enc v) dk') as Hd.
  { intros dk'. rewrite oset_delete_elem by done. specialize (H3 (enc v) dk').
    rewrite E in H3. cbn [from_option id] in H3. rewrite H3, holds_insert by done. split.
    - intros [[[-> _]|?] ?]; done.
    - intros Hh. split; [by right|]. intros ->. destruct Hh as (w & Hw & _). congruence. }
  assert (oset_delete ks dk = [] ↔ ∀ dk', ¬ holds M (enc v) dk') as Hempty.
  { split.
    - intros El dk' Hh. apply Hd in Hh. rewrite El in Hh. by apply not_elem_of_nil in Hh.
    - intros Hn. destruct (oset_delete ks dk) as [|x l] eqn:El; [done|].
      exfalso. apply (Hn x), Hd. left. }
  split; [|done]. pose proof (oset_delete_NoDup ks dk Hnd) as Hnd'.
  assert (∀ k dk', k ≠ enc v → dk' ∈ default [] (omap_get m k) ↔ holds M k dk') as Hother.
  { intros k dk' Hk. rewrite H3, holds_insert by done. naive_solver. }
  destruct (oset_delete ks dk) as [|x l]; split.
  - by apply omap_delete_NoDup.
  - intros k ks' Hk. destruct (decide (enc v = k)) as [<-|Hne'].
    + by rewrite omap_get_delete in Hk.
    + rewrite omap_get_delete_ne in Hk by done. by eapply H2.
  - intros k dk'. destruct (decide (enc v = k)) as [<-|Hne'].
    + rewrite omap_get_delete by done. cbn [from_option id]. apply Hd.
    + rewrite omap_get_delete_ne by done. by apply Hother.
  - by apply omap_set_NoDup.
  - intros k ks'. destruct (decide (enc v = k)) as [<-|Hne'].
    + rewrite omap_get_set. by intros [= <-].
    + rewrite omap_get_set_ne by done. apply H2.
  - intros k dk'. destruct (decide (enc v = k)) as [<-|Hne'].
    + rewrite omap_get_set. apply Hd.
    + rewrite omap_get_set_ne by done. by apply Hother.
Qed.

(** ** Ordered entries of every class *)
Definition entries_inv (es : ValueClass → list OrderedEntry) (M : fields) : Prop :=
  ∀ c, entries_ok c (es c) ∧ ∀ k, k ∈ map key (es c) ↔ class_holds M c k.

Lemma entries_ext es M M' :
  (∀ c k, class_holds M c k ↔ class_holds M' c k) → entries_inv es M → entries_inv es M'.
Proof. intros H Hes c. destruct (Hes c) as [H1 H2]. split; [done|]. intros k. by rewrite H2. Qed.

Lemma entries_len es M c : entries_inv es M → len (es c) ≤ Z.of_nat (size M).
Proof.
  intros Hes. destruct (Hes c) as [[Hn _] Hk].
  set (ks := omap (λ p : jsstring * option DocumentValue, enc <$> p.2) (map_to_list M)).
  assert (map key (es c) ⊆+ ks) as Hs%submseteq_length.
  { apply NoDup_submseteq; [done|]. intros k (dk & v & Hl & Hv & _)%Hk.
    apply list_elem_of_omap. exists (dk, Some v). split; [by apply elem_of_map_to_list|].
    cbn. by rewrite Hv. }
  assert (length ks ≤ length (map_to_list M))%nat as Hl.
  { unfold ks. clear. induction (map_to_list M) as [|[? [|]] l IH]; cbn; lia. }
  rewrite length_map in Hs. unfold len. rewrite length_map_to_list in Hl. lia.
Qed.

(** The entries after [insertOrdered] or [removeOrdered] of one class. *)
Definition with_entries (es : ValueClass → list OrderedEntry) (c : ValueClass)
    (l : list OrderedEntry) : ValueClass → list OrderedEntry :=
  λ c', if decide (c = c') then l else es c'.

Lemma entries_of_set ix c l u c' :
  entries_of (set_ordered ix (omap_set (ordered ix) c l) u) c' = with_entries (entries_of ix) c l c'.
Proof.
  unfold entries_of, with_entries, set_ordered. cbn [ordered].
  case_decide; [subst; by rewrite omap_get_set | by rewrite omap_get_set_ne].
Qed.

Lemma class_of_enc M dk v c w :
  fields_ok (<[dk := Some v]> M) → M !! dk = None → class_holds M c (enc v) →
  valueClassOf v = Some w → c = w.
Proof.
  intros Hok Hdk (dk' & v' & Hl & E & Hc) Hv.
  assert (encodable v) by (apply (Hok dk); by rewrite lookup_insert_eq).
  assert (encodable v').
  { apply (Hok dk'). rewrite lookup_insert_ne; [done|]. congruence. }
  destruct (enc_class v' v) as [H1 _]; [done..|]. congruence.
Qed.

(** A value no other document holds enters, or leaves, the entries of its class. *)
Lemma entries_add es M dk v c l :
  entries_inv es M → fields_ok (<[dk := Some v]> M) → M !! dk = None →
  valueClassOf v = Some c →
  l ≡ₚ {| value := v; key := enc v |} :: es c → (∀ dk', ¬ holds M (enc v) dk') →
  entries_inv (with_entries es c l) (<[dk := Some v]> M).
Proof.
  intros Hes Hok Hdk Hc Hl Hnew c'. unfold with_entries.
  assert (encodable v) as Hv by (apply (Hok dk); by rewrite lookup_insert_eq).
  destruct (Hes c') as [H1 H2]. case_decide as Hcc.
  - subst c'. split.
    + apply (entries_ok_perm _ _ _ (symmetry Hl)). apply entries_ok_cons. split; [|done].
      cbn [key]. rewrite H2. intros [dk' Hh]%class_holds_holds. by eapply Hnew.
    + intros k. rewrite Hl. cbn [map key]. rewrite elem_of_cons, H2, class_holds_insert by done.
      naive_solver.
  - split; [done|]. intros k. rewrite H2, class_holds_insert by done. naive_solver.
Qed.

Lemma entries_remove es M dk v c l :
  entries_inv es (<[dk := Some v]> M) → fields_ok (<[dk := Some v]> M) → M !! dk = None →
  valueClassOf v = Some c →
  es c ≡ₚ {| value := v; key := enc v |} :: l → (∀ dk', ¬ holds M (enc v) dk') →
  entries_inv (with_entries es c l) M.
Proof.
  intros Hes Hok Hdk Hc Hl Hnew c'. unfold with_entries.
  destruct (Hes c') as [H1 H2]. case_decide as Hcc.
  - subst c'. apply (entries_ok_perm _ _ _ Hl) in H1.
    apply entries_ok_cons in H1 as (Hn & _ & Hl').
    split; [done|]. intros k. specialize (H2 k). rewrite Hl in H2. cbn [map key] in H2.
    rewrite elem_of_cons, class_holds_insert in H2 by done.
    destruct (decide (k = enc v)) as [->|Hk]; [|naive_solver].
    split; [done|]. intros [dk' Hh]%class_holds_holds. by apply Hnew in Hh.
  - split; [done|]. intros k. rewrite H2, class_holds_insert by done. naive_solver.
Qed.

(** The value is still held by another document, or has no class. *)
Lemma entries_same es M dk v :
  fields_ok (<[dk := Some v]> M) → M !! dk = None →
  (valueClassOf v = None ∨ ∃ dk', holds M (enc v) dk') →
  entries_inv es M ↔ entries_inv es (<[dk := Some v]> M).
Proof.
  intros Hok Hdk Hv.
  assert (∀ c k, class_holds M c k ↔ class_holds (<[dk := Some v]> M) c k) as H.
  { intros c k. rewrite class_holds_insert by done. split; [by right|].
    intros [[<- Hc]|]; [|done]. destruct Hv as [|(dk' & w & Hl & E)]; [congruence|].
    exists dk', w. split; [done|]. split; [done|].
    assert (encodable v) by (apply (Hok dk); by rewrite lookup_insert_eq).
    assert (encodable w).
    { apply (Hok dk'). rewrite lookup_insert_ne; [done|]. congruence. }
    destruct (enc_class w v) as [-> _]; done. }
  split; apply entries_ext; intros c k; by rewrite H.
Qed.

Record sorted_inv (ix : FieldIndex) : Prop := {
  sorted_classes : NoDup (omap_keys (ordered ix));
  sorted_each : ∀ c, c ∉ unsorted ix → sorted (entries_of ix c);
}.

Lemma insertOrdered_frame ix v k bulk :
  insertOrdered ix v k bulk =
    set_ordered ix (ordered (insertOrdered ix v k bulk)) (unsorted (insertOrdered ix v k bulk)).
Proof. unfold insertOrdered. destruct (valueClassOf v), bulk, ix; reflexivity. Qed.

Lemma insertOrdered_inv ix M dk v bulk :
  entries_inv (entries_of ix) M → sorted_inv ix →
  fields_ok (<[dk := Some v]> M) → M !! dk = None → (∀ dk', ¬ holds M (enc v) dk') →
  Z.of_nat (size M) ≤ 2 ^ 31 → (bulk = false → unsorted ix = []) →
  entries_inv (entries_of (insertOrdered ix v (enc v) bulk)) (<[dk := Some v]> M) ∧
  sorted_inv (insertOrdered ix v (enc v) bulk) ∧
  (bulk = false → unsorted (insertOrdered ix v (enc v) bulk) = []).
Proof.
  intros Hes Hs Hok Hdk Hnew Hsize Hu. unfold insertOrdered.
  destruct (valueClassOf v) as [c|] eqn:Hc.
  2:{ split; [|done]. apply (entries_same _ M dk v); auto. }
  assert (encodable v) as Hv by (apply (Hok dk); by rewrite lookup_insert_eq).
  destruct (Hes c) as [Hc1 Hc2]. set (e := {| value := v; key := enc v |}).
  assert (entries_ok c (e :: entries_of ix c)) as Hcons.
  { apply entries_ok_cons. split; [|done]. cbn [key]. rewrite Hc2.
    intros [dk' Hh]%class_holds_holds. by eapply Hnew. }
  assert (∀ c' l u, entries_of (set_ordered ix (omap_set (ordered ix) c l) u) c'
    = with_entries (entries_of ix) c l c') as Hset by (intros; apply entries_of_set).
  destruct bulk; cbv zeta.
  - split; [|split; [|done]].
    + intros c'. rewrite Hset. apply (entries_add (entries_of ix) M dk v c); try done.
      by rewrite Permutation_app_comm.
    + split; [apply omap_set_NoDup, Hs|].
      intros c' Hc'. cbn [set_ordered unsorted] in Hc'. rewrite oset_add_elem in Hc'.
      rewrite Hset. unfold with_entries. rewrite decide_False by naive_solver.
      apply (sorted_each _ Hs). naive_solver.
  - assert (sorted (entries_of ix c)) as Hsc
      by (apply (sorted_each _ Hs); rewrite Hu by done; apply not_elem_of_nil).
    destruct (insert_entries c e _ Hcons Hsc) as [Hp Hs'].
    { pose proof (entries_len _ _ c Hes). lia. }
    split; [|split; [|by rewrite Hu by done]].
    + intros c'. rewrite Hset. by apply (entries_add (entries_of ix) M dk v c).
    + split; [apply omap_set_NoDup, Hs|].
      intros c' Hc'. rewrite Hset. unfold with_entries. case_decide; [done|]. by apply (sorted_each _ Hs).
Qed.

Lemma removeOrdered_frame ix v k :
  removeOrdered ix v k =
    set_ordered ix (ordered (removeOrdered ix v k)) (unsorted ix).
Proof.
  unfold removeOrdered. destruct (valueClassOf v); [|by destruct ix].
  destruct (omap_get _ _); by destruct ix.
Qed.

Lemma removeOrdered_inv ix M dk v :
  entries_inv (entries_of ix) (<[dk := Some v]> M) → sorted_inv ix → unsorted ix = [] →
  fields_ok (<[dk := Some v]> M) → M !! dk = None → (∀ dk', ¬ holds M (enc v) dk') →
  Z.of_nat (size M) < 2 ^ 31 →
  entries_inv (entries_of (removeOrdered ix v (enc v))) M ∧
  sorted_inv (removeOrdered ix v (enc v)).
Proof.
  intros Hes Hs Hu Hok Hdk Hnew Hsize. unfold removeOrdered.
  destruct (valueClassOf v) as [c|] eqn:Hc.
  2:{ split; [|done]. apply (entries_same _ M dk v); auto. }
  assert (encodable v) as Hv by (apply (Hok dk); by rewrite lookup_insert_eq).
  destruct (Hes c) as [Hc1 Hc2]. set (e := {| value := v; key := enc v |}).
  assert (e ∈ entries_of ix c) as He.
  { assert (enc v ∈ map key (entries_of ix c)) as Hk.
    { apply Hc2, class_holds_insert; auto. }
    apply list_elem_of_fmap in Hk as (e' & Hk & He'). destruct Hc1 as [_ Hf].
    rewrite Forall_forall in Hf. destruct (Hf e' He') as (H1 & H2 & H3).
    assert (value e' = v) as Hval by (apply (enc_comparable _ _ c); congruence).
    destruct e' as [v' k']. cbn in *. subst. done. }
  assert (omap_get (ordered ix) c = Some (entries_of ix c)) as Hget.
  { unfold entries_of in *. destruct (omap_get (ordered ix) c); [done|].
    by apply not_elem_of_nil in He. }
  rewrite Hget.
  assert (sorted (entries_of ix c)) as Hsc
    by (apply (sorted_each _ Hs); rewrite Hu; apply not_elem_of_nil).
  destruct (remove_entries c e _ Hc1 Hsc) as [Hp Hs']; [|done|].
  { pose proof (entries_len _ _ c Hes) as Hl. rewrite map_size_insert_None in Hl by done. lia. }
  cbv zeta. cbn [value key e] in *.
  assert (∀ c' l u, entries_of (set_ordered ix (omap_set (ordered ix) c l) u) c'
    = with_entries (entries_of ix) c l c') as Hset by (intros; apply entries_of_set).
  split.
  - intros c'. rewrite Hset. by apply (entries_remove (entries_of ix) M dk v c).
  - split; [apply omap_set_NoDup, Hs|].
    intros c' Hc'. rewrite Hset. unfold with_entries. case_decide; [done|]. by apply (sorted_each _ Hs).
Qed.

(** * The invariant *)
Record index_inv (ix : FieldIndex) (M : fields) : Prop := {
  index_values : values_inv (byValue ix) M;
  index_missing : NoDup (missing ix) ∧
    ∀ dk, dk ∈ missing ix ↔ Spec.sparse (spec ix) = false ∧ M !! dk = Some None;
  index_entries : entries_inv (entries_of ix) M;
  index_sorted : sorted_inv ix;
  index_arrays : arrayValues ix = count_where is_array_field M;
  index_count : indexedDocuments ix = count_where (is_indexed (Spec.sparse (spec ix))) M;
}.
