(* ===== verification/FieldIndexSpec.v ===== *)
(** * Field indexes: correctness

    A field index built and changed by [add], [finishBulk] and [remove] always
    holds exactly the fields of its documents, and its lookups and conflict
    checks answer from them. *)

From stdpp Require Import gmap.
From S2P Require Import Prelude Errors JsNumber JsString JsValue Binary Codec Roundtrip Filter FilterSpec Sort IndexSpec FieldIndex IndexLemmas.
Import FieldIndex.FieldIndex.

Lemma canonicalKey_enc v : encodable v → canonicalKey v = Ok (enc v).
Proof. intros [_ H]. by apply fits_encode. Qed.

(** The field that an index looks at in a document. *)
Definition field_of (spec : IndexSpec) (document : Document) : option DocumentValue :=
  Filter.resolveField document (split_dot (Spec.field spec)).

Lemma new_inv spec : index_inv (new spec) ∅ ∧ unsorted (new spec) = [].
Proof.
  assert (∀ k dk, ¬ holds ∅ k dk) as Hno.
  { intros k dk (v & Hv & _). by rewrite lookup_empty in Hv. }
  split; [|done]. split; cbn; try done.
  - split; [constructor|done|]. intros k dk. cbn. split; [by intros ?%not_elem_of_nil|].
    intros H. by apply Hno in H.
  - split; [constructor|]. intros dk. rewrite lookup_empty. split; [by intros ?%not_elem_of_nil|naive_solver].
  - intros c. split; [by split; constructor|]. intros k. cbn. split; [by intros ?%not_elem_of_nil|].
    intros [dk H]%class_holds_holds. by apply Hno in H.
  - split; [constructor|intros c _; constructor].
Qed.

Lemma missing_insert (s : bool) (l : list jsstring) (M : fields) dk v :
  M !! dk = None →
  (∀ dk', dk' ∈ l ↔ s = false ∧ M !! dk' = Some None) ↔
  (∀ dk', dk' ∈ l ↔ s = false ∧ <[dk := Some v]> M !! dk' = Some (@None DocumentValue)).
Proof.
  intros Hdk. split; intros H dk'; rewrite H; (destruct (decide (dk = dk')) as [->|];
    [rewrite lookup_insert_eq, Hdk; naive_solver | by rewrite lookup_insert_ne]).
Qed.

(** A document without the field. *)
Lemma missing_add_inv ix M dk :
  index_inv ix M → M !! dk = None →
  index_inv
    (if negb (Spec.sparse (spec ix))
     then count (set_missing ix (oset_add (missing ix) dk)) 0 1
     else ix) (<[dk := None]> M).
Proof.
  intros [H1 [H2 H2'] H3 H4 H5 H6] Hdk.
  assert (values_inv (byValue ix) (<[dk := None]> M)) as H1'.
  { apply (values_ext _ M); [|done]. intros k dk'. by rewrite holds_insert_missing. }
  assert (entries_inv (entries_of ix) (<[dk := None]> M)) as H3'.
  { apply (entries_ext _ M); [|done]. intros c k. by rewrite class_holds_insert_missing. }
  assert (arrayValues ix = count_where is_array_field (<[dk := None]> M)) as H5'.
  { rewrite count_insert by done. cbn [is_array_field]. lia. }
  assert (∀ dk', <[dk := None]> M !! dk' = Some None ↔ dk' = dk ∨ M !! dk' = Some None) as Hl.
  { intros dk'. destruct (decide (dk = dk')) as [->|];
      [rewrite lookup_insert_eq; naive_solver | rewrite lookup_insert_ne by done; naive_solver]. }
  destruct (Spec.sparse (spec ix)) eqn:Hsp; cbn [negb]; split; try done.
  - split; [done|]. intros dk'. rewrite H2', Hsp. naive_solver.
  - rewrite count_insert by done. rewrite Hsp. cbn. rewrite H6. lia.
  - split; [by apply oset_add_NoDup|]. intros dk'. cbn [missing set_missing count].
    rewrite oset_add_elem, H2'. cbn [spec set_missing count]. rewrite Hl, Hsp. naive_solver.
  - by destruct H4.
  - cbn. rewrite H5'. lia.
  - cbn [indexedDocuments set_missing count spec]. rewrite count_insert by done.
    rewrite Hsp. cbn. rewrite H6. done.
Qed.

Definition values_of (ix : FieldIndex) : list (bytes * list jsstring) := byValue ix.

(** What [add] does to the documents of a value, once its entry exists. *)
Lemma value_add_inv ix M dk v ordered' unsorted' :
  index_inv ix M → M !! dk = None →
  let ix' :=
    count (set_values (set_ordered ix ordered' unsorted')
      (omap_set (byValue ix) (enc v) (oset_add (default [] (omap_get (byValue ix) (enc v))) dk)))
      (if is_array v then 1 else 0) 1 in
  entries_inv (entries_of (set_ordered ix ordered' unsorted')) (<[dk := Some v]> M) →
  sorted_inv (set_ordered ix ordered' unsorted') →
  index_inv ix' (<[dk := Some v]> M).
Proof.
  intros [H1 [H2 H2'] H3 H4 H5 H6] Hdk ix' Hes Hs. split.
  - by apply values_add.
  - split; [done|]. cbn [ix' spec set_values set_ordered count missing].
    by apply missing_insert.
  - exact Hes.
  - by destruct Hs.
  - cbn. rewrite count_insert, H5 by done. done.
  - cbn. rewrite count_insert, H6 by done. done.
Qed.

Lemma sorted_set_same ix : sorted_inv ix → sorted_inv (set_ordered ix (ordered ix) (unsorted ix)).
Proof. by intros []. Qed.

Lemma add_inv ix M dk document bulk :
  index_inv ix M → M !! dk = None → Z.of_nat (size M) < 2 ^ 31 →
  fields_ok (<[dk := field_of (spec ix) document]> M) → (bulk = false → unsorted ix = []) →
  ∃ ix', add ix dk document bulk = Ok ix' ∧ spec ix' = spec ix ∧
    (bulk = false → unsorted ix' = []) ∧
    index_inv ix' (<[dk := field_of (spec ix) document]> M).
Proof.
  intros Hix Hdk Hsize Hok Hu. unfold add, field_of in *. change (segments ix) with (split_dot (Spec.field (spec ix))).
  destruct (Filter.resolveField document _) as [v|].
  2:{ eexists. split; [reflexivity|]. split; [by destruct (Spec.sparse _)|].
      split; [by destruct (Spec.sparse _)|]. by apply missing_add_inv. }
  assert (encodable v) as Hv by (apply (Hok dk); by rewrite lookup_insert_eq).
  rewrite canonicalKey_enc by done. cbn [mbind res_bind]. pose proof Hix as [H1 _ H3 H4 _ _].
  destruct (omap_get (byValue ix) (enc v)) as [ks|] eqn:E.
  - eexists. split; [reflexivity|]. split; [done|]. split; [done|].
    pose proof (value_add_inv ix M dk v (ordered ix) (unsorted ix) Hix Hdk) as Hadd.
    cbv zeta in Hadd. rewrite E in Hadd.
    assert (entries_inv (entries_of ix) (<[dk := Some v]> M)) as Hes.
    { apply (entries_same _ M dk v); try done. right.
      destruct H1 as [_ Hsets Hin]. destruct (Hsets _ _ E) as [_ Hne].
      destruct ks as [|dk' ks]; [done|]. exists dk'. apply Hin. rewrite E. left. }
    specialize (Hadd Hes (sorted_set_same ix H4)). by destruct ix.
  - assert (∀ dk', ¬ holds M (enc v) dk') as Hnew.
    { intros dk' Hh. destruct H1 as [_ _ Hin]. apply Hin in Hh. rewrite E in Hh.
      by apply not_elem_of_nil in Hh. }
    set (ix1 := set_values ix (omap_set (byValue ix) (enc v) [])).
    destruct (insertOrdered_inv ix1 M dk v bulk) as (He1 & He2 & He3); try done; [by destruct H4|lia|].
    eexists. split; [reflexivity|]. rewrite (insertOrdered_frame ix1) in *.
    split; [done|]. split; [exact He3|].
    assert (sorted_inv (set_ordered ix (ordered (insertOrdered ix1 v (enc v) bulk))
      (unsorted (insertOrdered ix1 v (enc v) bulk)))) as He2' by (by destruct He2).
    pose proof (value_add_inv ix M dk v _ _ Hix Hdk He1 He2') as Hadd. cbv zeta in Hadd.
    rewrite E in Hadd. cbn [from_option id] in Hadd.
    cbn [byValue set_ordered ix1 set_values] in *. rewrite omap_set_set. exact Hadd.
Qed.

Lemma missing_remove_inv ix M dk :
  index_inv ix (<[dk := None]> M) → M !! dk = None →
  index_inv
    (if negb (Spec.sparse (spec ix)) && bool_decide (dk ∈ missing ix)
     then count (set_missing ix (oset_delete (missing ix) dk)) 0 (-1)
     else ix) M.
Proof.
  intros [H1 [H2 H2'] H3 H4 H5 H6] Hdk.
  assert (values_inv (byValue ix) M) as H1'.
  { apply (values_ext _ (<[dk := None]> M)); [|done]. intros k dk'. by rewrite holds_insert_missing. }
  assert (entries_inv (entries_of ix) M) as H3'.
  { apply (entries_ext _ (<[dk := None]> M)); [|done]. intros c k. by rewrite class_holds_insert_missing. }
  rewrite count_insert in H5, H6 by done. cbn [is_array_field is_indexed] in H5, H6.
  assert (∀ dk', <[dk := None]> M !! dk' = Some None ↔ dk' = dk ∨ M !! dk' = Some None) as Hl.
  { intros dk'. destruct (decide (dk = dk')) as [->|];
      [rewrite lookup_insert_eq; naive_solver | rewrite lookup_insert_ne by done; naive_solver]. }
  destruct (Spec.sparse (spec ix)) eqn:Hsp; cbn [negb andb] in *.
  - split; try done.
    + split; [done|]. intros dk'. rewrite H2', Hsp. naive_solver.
    + lia.
    + rewrite Hsp. lia.
  - rewrite bool_decide_eq_true_2 by (apply H2'; split; [done|]; apply Hl; by left).
    split; try done.
    + split; [by apply oset_delete_NoDup|]. intros dk'. cbn [missing set_missing count spec].
      rewrite oset_delete_elem, H2', Hl, Hsp by done. split; [naive_solver|].
      intros [_ Hm]. split; [naive_solver|]. congruence.
    + by destruct H4.
    + cbn. lia.
    + cbn [indexedDocuments set_missing count spec]. rewrite Hsp. lia.
Qed.

Lemma remove_inv ix M dk document :
  index_inv ix (<[dk := field_of (spec ix) document]> M) → M !! dk = None →
  Z.of_nat (size M) < 2 ^ 31 →
  fields_ok (<[dk := field_of (spec ix) document]> M) → unsorted ix = [] →
  ∃ ix', remove ix dk document = Ok ix' ∧ spec ix' = spec ix ∧ unsorted ix' = [] ∧
    index_inv ix' M.
Proof.
  intros Hix Hdk Hsize Hok Hu. unfold remove, field_of in *.
  change (segments ix) with (split_dot (Spec.field (spec ix))).
  destruct (Filter.resolveField document _) as [v|].
  2:{ eexists. split; [reflexivity|]. split; [by destruct (_ && _)|].
      split; [by destruct (_ && _)|]. by apply missing_remove_inv. }
  assert (encodable v) as Hv by (apply (Hok dk); by rewrite lookup_insert_eq).
  rewrite canonicalKey_enc by done. cbn [mbind res_bind].
  pose proof Hix as [H1 [H2 H2'] H3 H4 H5 H6].
  destruct (values_remove (byValue ix) M dk v H1 Hdk) as (ks & -> & Hin & Hvals & Hempty).
  rewrite bool_decide_eq_true_2 by done. cbn [negb].
  rewrite count_insert in H5, H6 by done. cbn [is_array_field is_indexed] in H5, H6.
  assert (NoDup (missing ix) ∧ ∀ dk', dk' ∈ missing ix ↔
    Spec.sparse (spec ix) = false ∧ M !! dk' = Some None) as Hmiss.
  { split; [done|]. by apply (missing_insert (Spec.sparse (spec ix)) (missing ix) M dk v). }
  assert (arrayValues ix + (if is_array v then -1 else 0) = count_where is_array_field M) as Ha
    by (destruct (is_array v); lia).
  assert (indexedDocuments ix + -1 = count_where (is_indexed (Spec.sparse (spec ix))) M) as Hc by lia.
  destruct (oset_delete ks dk) as [|dk1 ks1] eqn:Ek; (eexists; split; [reflexivity|]).
  - set (ix1 := set_values ix (omap_delete (byValue ix) (enc v))).
    assert (sorted_inv ix1) as H4' by (by destruct H4).
    destruct (removeOrdered_inv ix1 M dk v H3 H4' Hu Hok Hdk) as [He1 He2]; [by apply Hempty|done|].
    rewrite (removeOrdered_frame ix1) in *. split; [done|]. split; [exact Hu|].
    split; try done. by destruct He2.
  - split; [done|]. split; [exact Hu|]. split; try done; [|by destruct H4].
    apply (entries_same _ M dk v); try done. right. exists dk1.
    destruct Hvals as [_ _ Hd]. apply Hd. rewrite omap_get_set. left.
Qed.

(** ** Bulk building *)
Lemma entry_cmp_class c es a b :
  entries_ok c es → a ∈ es → b ∈ es → entry_cmp a b = value_cmp (value a) (value b).
Proof.
  intros [_ Hf] Ha Hb. rewrite Forall_forall in Hf. unfold entry_cmp.
  rewrite (compareSameClass_cmp _ _ c); [done|by apply Hf..].
Qed.

Lemma insert_by_ext {A} (f g : A → A → Z) x l :
  (∀ b, b ∈ l → f x b = g x b) → insert_by f x l = insert_by g x l.
Proof.
  intros H. induction l as [|y l IH]; [done|]. cbn [insert_by].
  rewrite H by left. case_match; [done|]. rewrite IH; [done|]. intros b Hb. apply H. by right.
Qed.

Lemma sort_by_ext {A} (f g : A → A → Z) l :
  (∀ a b, a ∈ l → b ∈ l → f a b = g a b) → sort_by f l = sort_by g l.
Proof.
  induction l as [|x l IH]; intros H; [done|]. unfold sort_by. cbn [foldr].
  change (insert_by f x (sort_by f l) = insert_by g x (sort_by g l)).
  rewrite IH by (intros; apply H; by right). apply insert_by_ext.
  intros b Hb. apply H; [left|right]. by rewrite <- (sort_by_perm g l).
Qed.

#[export] Instance value_key_order : CmpOrder (λ a b : OrderedEntry, value_cmp (value a) (value b)).
Proof. apply (cmp_order_key value value_cmp), _. Qed.

Lemma sort_entries c es :
  entries_ok c es → sort_by entry_cmp es ≡ₚ es ∧ sorted (sort_by entry_cmp es).
Proof.
  intros Hok. split; [apply sort_by_perm|].
  rewrite (sort_by_ext _ (λ a b, value_cmp (value a) (value b))).
  - exact (sort_by_sorted (λ a b, value_cmp (value a) (value b)) es).
  - intros a b Ha Hb. by apply (entry_cmp_class c es).
Qed.

Lemma finishBulk_inv ix M :
  index_inv ix M →
  spec (finishBulk ix) = spec ix ∧ unsorted (finishBulk ix) = [] ∧ index_inv (finishBulk ix) M.
Proof.
  intros [H1 H2 H3 H4 H5 H6]. split; [done|]. split; [done|].
  assert (∀ u l, let l' := fold_left (λ ordered valueClass,
       omap_set ordered valueClass (sort_by entry_cmp (default [] (omap_get ordered valueClass)))) u l in
     (∀ c, entries_ok c (default [] (omap_get l c))) →
     (∀ c, c ∉ u → sorted (default [] (omap_get l c))) →
     (∀ c, sorted (default [] (omap_get l' c)) ∧
        default [] (omap_get l' c) ≡ₚ default [] (omap_get l c))) as Hfold.
  { induction u as [|c0 u IH]; intros l l' Hok Hs c.
    - split; [apply Hs, not_elem_of_nil|done].
    - unfold l'. cbn [fold_left].
      set (l1 := omap_set l c0 (sort_by entry_cmp (default [] (omap_get l c0)))).
      destruct (sort_entries c0 _ (Hok c0)) as [Hp Hss].
      assert (∀ c, default [] (omap_get l1 c) ≡ₚ default [] (omap_get l c)) as Hl1.
      { intros c'. unfold l1. destruct (decide (c0 = c')) as [<-|Hne].
        - by rewrite omap_get_set.
        - by rewrite omap_get_set_ne. }
      destruct (IH l1) with (c := c) as [Ha Hb].
      + intros c'. by apply (entries_ok_perm _ _ _ (symmetry (Hl1 c'))).
      + intros c' Hc'. unfold l1. destruct (decide (c0 = c')) as [<-|Hne].
        * by rewrite omap_get_set.
        * rewrite omap_get_set_ne by done. apply Hs. rewrite elem_of_cons. naive_solver.
      + split; [done|]. by rewrite Hb. }
  specialize (Hfold (unsorted ix) (ordered ix) (λ c, proj1 (H3 c)) (sorted_each _ H4)).
  split; try done.
  - intros c. destruct (Hfold c) as [_ Hp]. destruct (H3 c) as [Hc1 Hc2].
    split; [by apply (entries_ok_perm _ _ _ (symmetry Hp))|].
    intros k. rewrite <- Hc2. by apply (elem_of_Permutation_proper _), Permutation_map.
  - split; [|intros c _; apply Hfold].
    unfold finishBulk. cbn [ordered set_ordered]. generalize (sorted_classes _ H4).
    generalize (ordered ix). clear. induction (unsorted ix) as [|c u IH]; intros l Hl; [done|].
    cbn [fold_left]. by apply IH, omap_set_NoDup.
Qed.

(** ** Lookups *)
Lemma holds_equiv M v dk :
  fields_ok M → encodable v →
  holds M (enc v) dk ↔ ∃ w, M !! dk = Some (Some w) ∧ w ≡ v.
Proof.
  intros Hok Hv. split; intros (w & Hl & E); exists w; (split; [done|]).
  - apply enc_eq_equiv; [by eapply Hok|done|done].
  - apply enc_eq_equiv; [by eapply Hok|done|done].
Qed.

Lemma lookupEqual_inv ix M v :
  index_inv ix M → fields_ok M → encodable v →
  ∃ r, lookupEqual ix v = Ok r ∧
    ∀ dk, dk ∈ default [] r ↔ ∃ w, M !! dk = Some (Some w) ∧ w ≡ v.
Proof.
  intros [[_ _ Hin] _ _ _ _ _] Hok Hv. unfold lookupEqual. rewrite canonicalKey_enc by done.
  eexists. split; [reflexivity|]. intros dk. by rewrite Hin, holds_equiv.
Qed.

(** A value is within a bound. *)
Definition above (lower : option IndexBound) (w : DocumentValue) : Prop :=
  match lower with
  | None => True
  | Some b => if inclusive b then 0 ≤ value_cmp w (bound_value b) else 0 < value_cmp w (bound_value b)
  end.

Definition below (upper : option IndexBound) (w : DocumentValue) : Prop :=
  match upper with
  | None => True
  | Some b => if inclusive b then value_cmp w (bound_value b) ≤ 0 else value_cmp w (bound_value b) < 0
  end.

Definition bound_in (c : ValueClass) (b : option IndexBound) : Prop :=
  match b with None => True | Some b => valueClassOf (bound_value b) = Some c end.

Lemma split_index {A} (P : A → Prop) n (l : list A) i x :
  Forall P (take n l) → Forall (λ x, ¬ P x) (drop n l) → l !! i = Some x → P x ↔ (i < n)%nat.
Proof.
  intros H1 H2 Hi. rewrite Forall_lookup in H1, H2. destruct (decide (i < n)%nat) as [Hlt|Hge].
  - split; [done|]. intros _. apply (H1 i). by rewrite lookup_take_lt.
  - split; [|done]. intros Hp. exfalso. apply (H2 (i - n)%nat x); [|done].
    rewrite lookup_drop. by replace (n + (i - n))%nat with i by lia.
Qed.

Lemma rangeEntries_spec ix M c lower upper i e :
  index_inv ix M → unsorted ix = [] → Z.of_nat (size M) ≤ 2 ^ 31 →
  bound_in c lower → bound_in c upper → entries_of ix c !! i = Some e →
  let '(start, last) := rangeEntries ix c lower upper in
  (Z.to_nat start ≤ i < Z.to_nat last)%nat ↔ above lower (value e) ∧ below upper (value e).
Proof.
  intros [_ _ Hes Hs _ _] Hu Hsize Hlo Hup Hi. unfold rangeEntries. cbv zeta.
  destruct (Hes c) as [Hok _]. pose proof (entries_len _ _ c Hes).
  assert (sorted (entries_of ix c)) as Hsc by (apply (sorted_each _ Hs); rewrite Hu; apply not_elem_of_nil).
  assert (len (entries_of ix c) ≤ 2 ^ 31) as Hlen by lia.
  match goal with |- context [Z.max ?s ?l] => set (start := s); set (last := l) end.
  assert (above lower (value e) ↔ (Z.to_nat start ≤ i)%nat) as Ha.
  { unfold above, start. destruct lower as [[b []]|]; cbn [inclusive bound_value bound_in] in *; [| |split; [lia|done]].
    - destruct (lowerBound_split c b Hlo _ Hok Hsc Hlen) as [H1 H2].
      assert (value_cmp (value e) b < 0 ↔ (i < Z.to_nat (lowerBound (entries_of ix c) b))%nat) as Hsp; [|lia].
      apply (split_index (λ e, value_cmp (value e) b < 0) _ _ i e H1); [|done].
      eapply Forall_impl; [exact H2|]. cbv beta. lia.
    - destruct (upperBound_split c b Hlo _ Hok Hsc Hlen) as [H1 H2].
      assert (value_cmp (value e) b ≤ 0 ↔ (i < Z.to_nat (upperBound (entries_of ix c) b))%nat) as Hsp; [|lia].
      apply (split_index (λ e, value_cmp (value e) b ≤ 0) _ _ i e H1); [|done].
      eapply Forall_impl; [exact H2|]. cbv beta. lia. }
  assert (below upper (value e) ↔ (i < Z.to_nat last)%nat) as Hb.
  { unfold below, last. destruct upper as [[b []]|]; cbn [inclusive bound_value bound_in] in *.
    - destruct (upperBound_split c b Hup _ Hok Hsc Hlen) as [H1 H2].
      apply (split_index (λ e, value_cmp (value e) b ≤ 0) _ _ i e H1); [|done].
      eapply Forall_impl; [exact H2|]. cbv beta. lia.
    - destruct (lowerBound_split c b Hup _ Hok Hsc Hlen) as [H1 H2].
      apply (split_index (λ e, value_cmp (value e) b < 0) _ _ i e H1); [|done].
      eapply Forall_impl; [exact H2|]. cbv beta. lia.
    - split; [|done]. intros _. apply lookup_lt_Some in Hi. rewrite to_nat_len. done. }
  rewrite Ha, Hb. lia.
Qed.

Lemma bound_loop_nonneg test es fuel low high : 0 ≤ low → 0 ≤ bound_loop test es fuel low high.
Proof.
  revert low high. induction fuel as [|fuel IH]; intros low high Hl; [done|]. cbn [bound_loop].
  destruct (negb _); [done|]. cbv zeta. destruct (_ !! _); [|done].
  destruct (test _); apply IH; [|done].
  pose proof (Z.mod_pos_bound (low + high) (2 ^ 32) ltac:(lia)).
  pose proof (Z.div_pos ((low + high) mod 2 ^ 32) 2). lia.
Qed.

Lemma rangeEntries_nonneg ix c lower upper : 0 ≤ (rangeEntries ix c lower upper).1.
Proof.
  unfold rangeEntries. cbn [fst]. destruct lower as [b|]; [|done].
  by destruct (inclusive b); apply bound_loop_nonneg.
Qed.

Lemma fold_oset_add (l acc : list jsstring) x : x ∈ fold_left oset_add l acc ↔ x ∈ acc ∨ x ∈ l.
Proof.
  revert acc. induction l as [|y l IH]; intros acc; cbn [fold_left].
  - split; [by left|]. intros [?|[]%not_elem_of_nil]; done.
  - rewrite IH, oset_add_elem, elem_of_cons. naive_solver.
Qed.

Lemma fold_oset_adds {A} (f : A → list jsstring) (l : list A) acc x :
  x ∈ fold_left (λ r e, fold_left oset_add (f e) r) l acc ↔ x ∈ acc ∨ ∃ e, e ∈ l ∧ x ∈ f e.
Proof.
  revert acc. induction l as [|y l IH]; intros acc; cbn [fold_left].
  - split; [by left|]. intros [?|(e & []%not_elem_of_nil & _)]; done.
  - rewrite IH, fold_oset_add. split.
    + intros [[?|?]|(e & ? & ?)]; [by left|right; exists y; split; [left|done]|].
      right. exists e. split; [by right|done].
    + intros [?|(e & [->|He]%elem_of_cons & ?)]; [auto..|]. right. eauto.
Qed.

Lemma lookupRange_inv ix M c lower upper dk :
  index_inv ix M → fields_ok M → unsorted ix = [] → Z.of_nat (size M) ≤ 2 ^ 31 →
  bound_in c lower → bound_in c upper →
  dk ∈ lookupRange ix c lower upper ↔
    ∃ w, M !! dk = Some (Some w) ∧ valueClassOf w = Some c ∧ above lower w ∧ below upper w.
Proof.
  intros Hix Hok Hu Hsize Hlo Hup. unfold lookupRange. cbv zeta.
  pose proof (rangeEntries_spec ix M c lower upper) as Hr.
  pose proof (rangeEntries_nonneg ix c lower upper) as Hstart.
  destruct (rangeEntries ix c lower upper) as [start last].
  cbn [fst] in Hstart. rewrite (fold_oset_adds (λ e, default [] (omap_get (byValue ix) (key e)))).
  pose proof Hix as [[_ _ Hin] _ Hes _ _ _]. destruct (Hes c) as [[_ Hf] Hk].
  rewrite Forall_forall in Hf. split.
  - intros [[]%not_elem_of_nil|(e & He & Hdk)]. apply Hin in Hdk as (w & Hl & E).
    apply list_elem_of_lookup_1 in He as [j Hj]. apply lookup_take_Some in Hj as [Hj Hjl].
    rewrite lookup_drop in Hj.
    destruct (Hf e) as (Hc & Hv & Ee); [by eapply list_elem_of_lookup_2|].
    assert (value e = w) as <-.
    { apply (enc_comparable _ _ c); [done|by eapply Hok|congruence|done]. }
    exists (value e). split; [done|]. split; [done|]. eapply Hr; [done..|exact Hj|]. lia.
  - intros (w & Hl & Hc & Hab). right.
    assert (enc w ∈ map key (entries_of ix c)) as Hkw by (apply Hk; by exists dk, w).
    apply list_elem_of_fmap in Hkw as (e & Ee & He).
    destruct (Hf e He) as (Hce & Hv & Ev).
    assert (value e = w) as Hw.
    { apply (enc_comparable _ _ c); [done|by eapply Hok|congruence|done]. }
    apply list_elem_of_lookup_1 in He as [i Hi]. exists e. split.
    + specialize (Hr i e Hix Hu Hsize Hlo Hup Hi). rewrite Hw in Hr. apply Hr in Hab.
      apply (list_elem_of_lookup_2 _ (i - Z.to_nat start)%nat).
      rewrite lookup_take_lt by lia. rewrite lookup_drop.
      by replace (Z.to_nat start + (i - Z.to_nat start))%nat with i by lia.
    + apply Hin. exists w. by rewrite <- Ee.
Qed.

(** ** Conflicts *)

(** Another document already has the field of [f], which a unique index forbids. *)
Definition clashes (spec : IndexSpec) (M : fields) (f : option DocumentValue) : Prop :=
  Spec.unique spec = true ∧
  match f with
  | Some v => ∃ dk w, M !! dk = Some (Some w) ∧ w ≡ v
  | None => Spec.sparse spec = false ∧ ∃ dk, M !! dk = Some None
  end.

Lemma conflictFor_inv ix M dk document :
  index_inv ix M → M !! dk = None → fields_ok (<[dk := field_of (spec ix) document]> M) →
  ∃ r, conflictFor ix dk document = Ok r ∧
    (is_Some r ↔ clashes (spec ix) M (field_of (spec ix) document)).
Proof.
  intros [[_ Hsets Hin] [_ Hmiss] _ _ _ _] Hdk Hok. unfold conflictFor, clashes, field_of in *.
  change (segments ix) with (split_dot (Spec.field (spec ix))).
  destruct (Spec.unique (spec ix)); cbn [negb].
  2:{ eexists. split; [reflexivity|]. split; [by intros []|naive_solver]. }
  destruct (Filter.resolveField document _) as [v|].
  - assert (encodable v) as Hv by (apply (Hok dk); by rewrite lookup_insert_eq).
    assert (fields_ok M) as HokM.
    { intros dk' w Hw. apply (Hok dk'). rewrite lookup_insert_ne; [done|]. congruence. }
    rewrite canonicalKey_enc by done. cbn [mbind res_bind].
    assert (∀ dk', dk' ∈ default [] (omap_get (byValue ix) (enc v)) ↔ ∃ w, M !! dk' = Some (Some w) ∧ w ≡ v)
      as Hh by (intros dk'; by rewrite Hin, holds_equiv).
    destruct (omap_get (byValue ix) (enc v)) as [ks|] eqn:E; (eexists; split; [reflexivity|]).
    + cbn [from_option id] in Hh. destruct (Hsets _ _ E) as [_ Hne].
      destruct ks as [|dk' ks]; [done|]. destruct (proj1 (Hh dk') (list_elem_of_here _ _)) as (w & Hw & Ew).
      cbn [existsb]. rewrite bool_decide_eq_false_2 by congruence. cbn [negb orb].
      split; [intros _; split; [done|by exists dk', w]|by eexists].
    + split; [by intros []|]. intros (_ & dk' & w & Hw & Ew). exfalso.
      assert (dk' ∈ @nil jsstring) as []%not_elem_of_nil. apply Hh. by exists w.
  - destruct (Spec.sparse (spec ix)) eqn:Hsp; (eexists; split; [reflexivity|]).
    { split; [by intros []|naive_solver]. }
    assert (filter (λ other, other ≠ dk) (missing ix) = missing ix) as ->.
    { apply filter_id, Forall_forall. intros dk' [_ Hm]%Hmiss ->. congruence. }
    destruct (Z.eqb_spec (len (missing ix)) 0) as [E%len_0_inv|Hne].
    + split; [by intros []|]. intros (_ & _ & dk' & Hm). exfalso.
      assert (dk' ∈ missing ix) as Hi by (by apply Hmiss). rewrite E in Hi.
      by apply not_elem_of_nil in Hi.
    + split; [intros _|by eexists]. destruct (missing ix) as [|dk' l]; [done|].
      split; [done|]. split; [done|]. exists dk'. apply Hmiss. left.
Qed.

(** * Theorems *)
Lemma fields_ok_empty : fields_ok ∅.
Proof. intros dk v H. by rewrite lookup_empty in H. Qed.

Lemma fields_ok_insert M dk f :
  fields_ok M → (∀ v, f = Some v → encodable v) → fields_ok (<[dk := f]> M).
Proof.
  intros HM Hf dk' v. destruct (decide (dk = dk')) as [->|Hne].
  - rewrite lookup_insert_eq. intros [= ->]. by apply Hf.
  - rewrite lookup_insert_ne by done. apply HM.
Qed.

Definition sample_spec : IndexSpec :=
  {| Spec.name := js "n_1"; Spec.field := js "n"; Spec.direction := 1;
     Spec.unique := true; Spec.sparse := false |}.

Lemma sample_encodable z : Z.abs z < 100 → encodable (VNumber (number_of_Z z)).
Proof.
  intros Hz. split; [apply number_of_Z_valid|]. split; [reflexivity|].
  cbn [enc]. unfold enc_number. repeat case_match; vm_compute; discriminate.
Qed.

(** Adding a document to an index, whose entries then list exactly the
    fields of its documents, never throws, and removing the document again
    gives an index that lists exactly the documents before. *)
Lemma index_maintained (ix : FieldIndex) (M : fields) (docKey : jsstring) (document : Document) :
  index_inv ix M → unsorted ix = [] → M !! docKey = None → Z.of_nat (size M) < 2 ^ 31 →
  fields_ok (<[docKey := field_of (spec ix) document]> M) →
  ∃ ix', add ix docKey document false = Ok ix' ∧
    index_inv ix' (<[docKey := field_of (spec ix) document]> M) ∧
    ∃ ix'', remove ix' docKey document = Ok ix'' ∧ index_inv ix'' M.
Proof.
  intros Hix Hu Hk Hsize Hok.
  destruct (add_inv ix M docKey document false Hix Hk Hsize Hok (λ _, Hu)) as (ix' & Ha & Hs & Hu' & Hi).
  exists ix'. split; [exact Ha|]. split; [exact Hi|]. rewrite <- Hs in Hi, Hok.
  destruct (remove_inv ix' M docKey document Hi Hk Hsize Hok (Hu' eq_refl)) as (ix'' & Hr & _ & _ & Hi'').
  by exists ix''.
Qed.

Lemma index_maintained_witness :
  let doc := [(js "n", VNumber (number_of_Z 7))] in
  ∃ ix', add (new sample_spec) (js "00") doc false = Ok ix' ∧
    ∃ ix'', remove ix' (js "00") doc = Ok ix'' ∧ index_inv ix'' ∅.
Proof.
  intros doc.
  destruct (index_maintained (new sample_spec) ∅ (js "00") doc) as (ix' & H1 & _ & H2).
  - apply new_inv.
  - reflexivity.
  - reflexivity.
  - reflexivity.
  - apply fields_ok_insert; [apply fields_ok_empty|]. intros v [= <-].
    apply (sample_encodable 7). reflexivity.
  - exists ix'. split; [exact H1|exact H2].
Defined.

(** An index lookup returns exactly the documents it should: by value, those
    whose field equals the value up to field order; by range, those whose field
    is of the class of the bounds and within both of them. *)
Lemma index_lookup (ix : FieldIndex) (M : fields) :
  index_inv ix M → fields_ok M → unsorted ix = [] → Z.of_nat (size M) ≤ 2 ^ 31 →
  (∀ v, encodable v → ∃ r, lookupEqual ix v = Ok r ∧
     ∀ docKey, docKey ∈ default [] r ↔ ∃ w, M !! docKey = Some (Some w) ∧ w ≡ v) ∧
  (∀ c lower upper, bound_in c lower → bound_in c upper →
     ∀ docKey, docKey ∈ lookupRange ix c lower upper ↔
       ∃ w, M !! docKey = Some (Some w) ∧ valueClassOf w = Some c ∧ above lower w ∧ below upper w).
Proof.
  intros Hix Hok Hu Hsize. split; [intros v Hv; by apply lookupEqual_inv|].
  intros c lower upper Hlo Hup docKey. by apply lookupRange_inv.
Qed.

Lemma index_lookup_witness :
  ∃ r, lookupEqual (new sample_spec) (VNumber (number_of_Z 7)) = Ok r ∧
    ∀ docKey, docKey ∈ default [] r ↔
      ∃ w, (∅ : fields) !! docKey = Some (Some w) ∧ w ≡ VNumber (number_of_Z 7).
Proof.
  apply (index_lookup (new sample_spec) ∅).
  - apply new_inv.
  - apply fields_ok_empty.
  - reflexivity.
  - discriminate.
  - apply (sample_encodable 7). reflexivity.
Defined.

(** A unique index reports a conflict for a document exactly when another
    document has an equal value of the field or, unless the index is sparse,
    both lack it; an index that is not unique reports none. *)
Lemma index_conflict (ix : FieldIndex) (M : fields) (docKey : jsstring) (document : Document) :
  index_inv ix M → M !! docKey = None →
  fields_ok (<[docKey := field_of (spec ix) document]> M) →
  ∃ r, conflictFor ix docKey document = Ok r ∧
    (is_Some r ↔ clashes (spec ix) M (field_of (spec ix) document)).
Proof. apply conflictFor_inv. Qed.

Lemma index_conflict_witness :
  let doc := [(js "n", VNumber (number_of_Z 7))] in
  conflictFor (new sample_spec) (js "00") doc = Ok None ∧
  ∃ r, conflictFor (new sample_spec) (js "00") doc = Ok r ∧
    (is_Some r ↔ clashes sample_spec ∅ (field_of sample_spec doc)).
Proof.
  intros doc. split; [reflexivity|]. apply (index_conflict (new sample_spec) ∅ (js "00") doc).
  - apply new_inv.
  - reflexivity.
  - apply fields_ok_insert; [apply fields_ok_empty|]. intros v [= <-].
    apply (sample_encodable 7). reflexivity.
Defined.

(** Binary searches on a real index: three values in order. *)
Example range_ex :
  let n z := [(js "n", VNumber (number_of_Z z))] in
  let b z := Some {| bound_value := VNumber (number_of_Z z); inclusive := true |} in
  (ix ← add (new sample_spec) (js "a") (n 5) false;
   ix ← add ix (js "b") (n 1) false;
   ix ← add ix (js "c") (n 9) false;
   Ok (lookupRange ix ClassNumber (b 2) (b 9), lookupRange ix ClassNumber None (b 5)))
  = Ok ([js "a"; js "c"], [js "b"; js "a"]).
Proof. vm_compute. reflexivity. Qed.
