(* ===== verification/IndexSet.v ===== *)
(** * The indexes of a collection

    packages/storage/src/indexing/index-set.ts: the indexes by name, built and
    dropped one at a time, and changed together as one unit. *)

From S2P Require Import Prelude Errors JsNumber JsString JsValue FieldIndex IndexSpec.
Import FieldIndex.FieldIndex.

Module IndexSet.
(** The [Map] of the indexes by name. *)
Abbreviation IndexSet := (list (jsstring * FieldIndex)).
Abbreviation action := (ST IndexSet exn).

Record DocumentChange := {
  key : jsstring;
  before : option Document;
  after : option Document;
}.

Definition isEmpty (indexes : IndexSet) : bool := len indexes =? 0.
Definition all (indexes : IndexSet) : list FieldIndex := map snd indexes.
Definition specs (indexes : IndexSet) : list IndexSpec := map spec (all indexes).
Definition get (indexes : IndexSet) (name : jsstring) : option FieldIndex := omap_get indexes name.
Definition has (indexes : IndexSet) (name : jsstring) : bool := omap_has indexes name.
Definition clear : action () := st_update (λ _, []).

Definition storageError {A} (code : StorageErrorCode) : action A := st_throw (StorageError code).

(** ** Creating and dropping *)
Inductive CreateResult := created | exists_.

(** The index of a spec over documents, which are decoded one at a time. *)
Definition build (spec : IndexSpec) (documents : list (jsstring * result Document))
    : result FieldIndex :=
  index ← foldM (λ entry index,
      document ← entry.2;
      conflict ← conflictFor index entry.1 document;
      match conflict with
      | Some _ => Throw (StorageError DuplicateKey)
      | None => add index entry.1 document true
      end) documents (new spec);
  Ok (finishBulk index).

Definition create (spec : IndexSpec) (documents : list (jsstring * result Document))
    : action CreateResult :=
  existing ← st_get (λ indexes, omap_get indexes (Spec.name spec));
  match existing with
  | Some existing =>
      if Spec.sameDefinition (FieldIndex.FieldIndex.spec existing) spec then mret exists_
      else storageError Errors.IndexConflict
  | None =>
      indexes ← st_get id;
      if existsb (λ other, bool_decide (Spec.field (FieldIndex.FieldIndex.spec other) = Spec.field spec))
           (all indexes)
      then storageError Errors.IndexConflict
      else if Spec.MAX_INDEXES_PER_COLLECTION <=? len indexes
      then storageError Errors.IndexConflict
      else
        index ← st_lift (build spec documents);
        _ ← st_update (λ indexes, omap_set indexes (Spec.name spec) index);
        mret created
  end.

Definition drop (name : jsstring) : action () := st_update (λ indexes, omap_delete indexes name).

(** ** Changing the indexes as one unit *)

(** One entry of [undo]: the closure that adds a document back to an index, or
    removes it again. *)
Inductive Undo :=
  | UndoRemove (name : jsstring) (key : jsstring) (document : Document)
  | UndoAdd (name : jsstring) (key : jsstring) (document : Document).

(** An operation on one of the indexes, changed in place. *)
Definition on_index (name : jsstring) (f : FieldIndex → result FieldIndex) : action () :=
  λ indexes,
    match omap_get indexes name with
    | None => (Throw TypeError, indexes)
    | Some index =>
        match f index with
        | Ok index' => (Ok (), omap_set indexes name index')
        | Throw e => (Throw e, indexes)
        end
    end.

Definition undo_one (u : Undo) : action () :=
  match u with
  | UndoRemove name key document => on_index name (λ index, add index key document false)
  | UndoAdd name key document => on_index name (λ index, remove index key document)
  end.

(** [rollback]: the entries of [undo] from the last to the first. *)
Definition rollback (undo : list Undo) : action () := st_each undo_one (rev undo).

(** The body of the loop over the indexes that removes [change.before]. *)
Definition remove_before (key : jsstring) (before : Document) (name : jsstring)
    (undo : list Undo) : action (list Undo) :=
  _ ← on_index name (λ index, remove index key before);
  mret (undo ++ [UndoRemove name key before]).

(** The body of the loop over the indexes that adds [change.after]. *)
Definition add_after (key : jsstring) (after : Document) (name : jsstring)
    (undo : list Undo) : action (list Undo) :=
  index ← st_get (λ indexes, omap_get indexes name);
  match index with
  | None => st_throw TypeError
  | Some index =>
      conflict ← st_lift (conflictFor index key after);
      match conflict with
      | Some _ => _ ← rollback undo; storageError DuplicateKey
      | None =>
          _ ← on_index name (λ index, add index key after false);
          mret (undo ++ [UndoAdd name key after])
      end
  end.

(** The undo entries stand for the function returned, [[]] for [noop]. *)
Definition applyChanges (changes : list DocumentChange) : action (list Undo) :=
  names ← st_get omap_keys;
  if len names =? 0 then mret []
  else
    undo ← st_fold (λ change undo,
        match before change with
        | None => mret undo
        | Some before => st_fold (remove_before (key change) before) names undo
        end) changes [];
    st_fold (λ change undo,
      match after change with
      | None => mret undo
      | Some after => st_fold (add_after (key change) after) names undo
      end) changes undo.

(** ** Validation *)
Inductive Problem :=
  | Ordering | DocumentCount | ArrayFlag | MissingEntry | WrongDocuments | UnexpectedEntry
  | MissingFieldEntries | DuplicateKeyProblem.

(** [IndexIssue]; the detail is text. *)
Record IndexIssue := { issue_index : jsstring; problem : Problem }.

(** [l.join(",")]. *)
Fixpoint join_comma (l : list jsstring) : jsstring :=
  match l with
  | [] => []
  | [s] => s
  | s :: l => s ++ 44 :: join_comma l
  end.

(** The problems of one index, given one rebuilt from the documents. *)
Definition index_problems (live fresh : FieldIndex) : list Problem :=
  let expected := contents fresh in
  let actual := contents live in
  map (λ _, Ordering) (orderedProblems actual) ++
  (if negb (documentCount live =? documentCount fresh) then [DocumentCount] else []) ++
  (if negb (eqb (hasArrayValues live) (hasArrayValues fresh)) then [ArrayFlag] else []) ++
  flat_map (λ kv,
    match omap_get (values actual) kv.1 with
    | None => [MissingEntry]
    | Some found =>
        if decide (join_comma found = join_comma kv.2) then [] else [WrongDocuments]
    end) (values expected) ++
  flat_map (λ kv : bytes * list jsstring, if omap_has (values expected) kv.1 then [] else [UnexpectedEntry])
    (values actual) ++
  (if decide (join_comma (contents_missing actual) = join_comma (contents_missing expected))
   then [] else [MissingFieldEntries]) ++
  (if Spec.unique (spec live) then
     flat_map (λ kv : bytes * list jsstring, if 1 <? len kv.2 then [DuplicateKeyProblem] else []) (values expected) ++
     (if negb (Spec.sparse (spec live)) && (1 <? len (contents_missing expected))
      then [DuplicateKeyProblem] else [])
   else []).

Definition validate (indexes : IndexSet) (documents : list (jsstring * result Document))
    : result (list IndexIssue) :=
  issues ← mapM (λ entry : jsstring * FieldIndex,
      let live := entry.2 in
      fresh ← foldM (λ doc fresh, document ← doc.2; add fresh doc.1 document true)
                documents (new (spec live));
      Ok (map (λ problem, {| issue_index := Spec.name (spec live); problem := problem |})
            (index_problems live (finishBulk fresh)))) indexes;
  Ok (take 50 (concat issues)).
End IndexSet.
