(* ===== verification/IndexSetSpec.v ===== *)
(** * The indexes of a collection: correctness

    The indexes always agree with the documents, and a batch of changes is
    applied to all of them or to none. *)

From stdpp Require Import gmap.
From S2P Require Import Prelude Errors JsNumber JsString JsValue Binary Codec Roundtrip Filter FilterSpec Sort FieldIndex IndexSpec IndexLemmas FieldIndexSpec IndexSet.
Import FieldIndex.FieldIndex IndexSet.IndexSet.

Abbreviation documents := (gmap jsstring Document).

(** The fields of the documents that an index of [spec] sees. *)
Definition fields_in (spec : IndexSpec) (docs : documents) : fields := field_of spec <$> docs.

(** No two documents have equal fields, nor, unless the index is sparse, lack
    the field. *)
Definition unique_ok (spec : IndexSpec) (M : fields) : Prop :=
  Spec.unique spec = true →
  (∀ d1 d2 v w, M !! d1 = Some (Some v) → M !! d2 = Some (Some w) → v ≡ w → d1 = d2) ∧
  (Spec.sparse spec = false →
   ∀ d1 d2, M !! d1 = Some None → M !! d2 = Some None → d1 = d2).

Definition docs_ok (docs : documents) : Prop :=
  map_Forall (λ _ d, encodable (VDoc d)) docs ∧ Z.of_nat (size docs) < 2 ^ 31.

(** ** Indexes with different documents

    While a batch is applied the indexes are not in step: [F] gives the fields
    that the index of each name holds, [sp] the definitions. *)
Record indexes_hold (sp : jsstring → option IndexSpec) (F : jsstring → fields)
    (s : IndexSet) : Prop := {
  hold_keys : NoDup (omap_keys s);
  hold_specs : ∀ name, spec <$> omap_get s name = sp name;
  hold_index : ∀ name ix, omap_get s name = Some ix → unsorted ix = [] ∧ index_inv ix (F name);
}.

Definition upd (F : jsstring → fields) (name : jsstring) (M : fields) : jsstring → fields :=
  λ name', if decide (name = name') then M else F name'.

(** Changing the fields of a name and changing them back. *)
Lemma upd_back (F : jsstring → fields) (name : jsstring) (M : fields) (g : fields → fields) (name' : jsstring) :
  F name = g M → F name' = upd (upd F name M) name (g (upd F name M name)) name'.
Proof.
  unfold upd. intros E. destruct (decide (name = name)); [|done]. case_decide; by subst.
Qed.

Lemma hold_ext sp F F' s :
  (∀ name, F name = F' name) → indexes_hold sp F s → indexes_hold sp F' s.
Proof. intros E [H1 H2 H3]. split; [done..|]. intros name ix. rewrite <- E. apply H3. Qed.

Lemma on_index_hold sp F s name ix f M :
  indexes_hold sp F s → omap_get s name = Some ix →
  (∃ ix', f ix = Ok ix' ∧ spec ix' = spec ix ∧ unsorted ix' = [] ∧ index_inv ix' M) →
  ∃ s', on_index name f s = (Ok (), s') ∧ omap_keys s' = omap_keys s ∧
    indexes_hold sp (upd F name M) s'.
Proof.
  intros [H1 H2 H3] E (ix' & Hf & Hs & Hu & Hi). unfold on_index. rewrite E, Hf.
  eexists. split; [reflexivity|]. split; [by apply omap_set_keys_Some|]. split.
  - by apply omap_set_NoDup.
  - intros name'. rewrite <- H2. destruct (decide (name = name')) as [<-|Hne].
    + rewrite omap_get_set, E. cbn. by rewrite Hs.
    + by rewrite omap_get_set_ne.
  - intros name' ix1. unfold upd. case_decide as Hn.
    + subst name'. rewrite omap_get_set. by intros [= <-].
    + rewrite omap_get_set_ne by done. apply H3.
Qed.

(** The fields of a name have room for one more document. *)
Definition room (M : fields) : Prop := Z.of_nat (size M) < 2 ^ 31.

Lemma remove_hold sp F s name spec k d :
  indexes_hold sp F s → sp name = Some spec → F name !! k = Some (field_of spec d) →
  fields_ok (F name) → room (delete k (F name)) →
  ∃ s', on_index name (λ ix, remove ix k d) s = (Ok (), s') ∧ omap_keys s' = omap_keys s ∧
    indexes_hold sp (upd F name (delete k (F name))) s'.
Proof.
  intros H Hsp Hk Hok Hroom. pose proof H as [_ H2 H3]. specialize (H2 name).
  destruct (omap_get s name) as [ix|] eqn:E; [|cbn in H2; congruence].
  assert (FieldIndex.FieldIndex.spec ix = spec) as <- by (cbn in H2; congruence).
  destruct (H3 _ _ E) as [Hu Hi]. apply (on_index_hold _ _ _ _ ix); [done..|].
  assert (<[k := field_of (FieldIndex.FieldIndex.spec ix) d]> (delete k (F name)) = F name) as Hins
    by (by apply insert_delete_id).
  apply remove_inv; rewrite ?Hins; try done. apply lookup_delete_eq.
Qed.

Lemma add_hold sp F s name spec k d :
  indexes_hold sp F s → sp name = Some spec → F name !! k = None →
  fields_ok (<[k := field_of spec d]> (F name)) → room (F name) →
  ∃ s', on_index name (λ ix, add ix k d false) s = (Ok (), s') ∧ omap_keys s' = omap_keys s ∧
    indexes_hold sp (upd F name (<[k := field_of spec d]> (F name))) s'.
Proof.
  intros H Hsp Hk Hok Hroom. pose proof H as [_ H2 H3]. specialize (H2 name).
  destruct (omap_get s name) as [ix|] eqn:E; [|cbn in H2; congruence].
  assert (FieldIndex.FieldIndex.spec ix = spec) as <- by (cbn in H2; congruence).
  destruct (H3 _ _ E) as [Hu Hi]. apply (on_index_hold _ _ _ _ ix); [done..|].
  destruct (add_inv ix (F name) k d false) as (ix' & ? & ? & Hu' & ?); try done.
  exists ix'. by rewrite Hu'.
Qed.

(** ** Undoing *)

(** The entries, in the order in which they run, lead from the fields [F] back
    to [F0]. *)
Fixpoint undoes (sp : jsstring → option IndexSpec) (us : list Undo) (F F0 : jsstring → fields)
    : Prop :=
  match us with
  | [] => ∀ name, F name = F0 name
  | u :: us =>
      match u with
      | UndoRemove name k d =>
          ∃ spec, sp name = Some spec ∧ F name !! k = None ∧
            fields_ok (<[k := field_of spec d]> (F name)) ∧ room (F name) ∧
            undoes sp us (upd F name (<[k := field_of spec d]> (F name))) F0
      | UndoAdd name k d =>
          ∃ spec, sp name = Some spec ∧ F name !! k = Some (field_of spec d) ∧
            fields_ok (F name) ∧ room (delete k (F name)) ∧
            undoes sp us (upd F name (delete k (F name))) F0
      end
  end.

Lemma undoes_run sp us F F0 s :
  indexes_hold sp F s → undoes sp us F F0 →
  ∃ s', st_each undo_one us s = (Ok (), s') ∧ omap_keys s' = omap_keys s ∧ indexes_hold sp F0 s'.
Proof.
  revert F s. induction us as [|u us IH]; intros F s Hs Hu.
  - exists s. split; [done|]. split; [done|]. by apply (hold_ext _ F).
  - cbn [undoes] in Hu. cbn [st_each].
    destruct u as [name k d|name k d]; destruct Hu as (spec & Hsp & Hk & Hok & Hroom & Hu).
    + destruct (add_hold _ _ _ _ _ _ d Hs Hsp Hk Hok Hroom) as (s1 & E1 & K1 & H1).
      destruct (IH _ _ H1 Hu) as (s' & E' & K' & H'). exists s'.
      split; [|by rewrite K', K1]. unfold mbind, st_bind. cbn [undo_one]. by rewrite E1.
    + destruct (remove_hold _ _ _ _ _ _ _ Hs Hsp Hk Hok Hroom) as (s1 & E1 & K1 & H1).
      destruct (IH _ _ H1 Hu) as (s' & E' & K' & H'). exists s'.
      split; [|by rewrite K', K1]. unfold mbind, st_bind. cbn [undo_one]. by rewrite E1.
Qed.

Lemma undoes_ext sp us F F' F0 :
  (∀ name, F name = F' name) → undoes sp us F F0 → undoes sp us F' F0.
Proof.
  revert F F'. induction us as [|u us IH]; intros F F' E H.
  - intros name. by rewrite <- E.
  - cbn [undoes] in *. destruct u as [name k d|name k d]; destruct H as (spec & H1 & H2 & H3 & H4 & H5);
      exists spec; rewrite <- E; (do 4 (split; [done|]));
      (eapply IH; [|exact H5]); intros name'; unfold upd; by case_decide.
Qed.

(** ** Loops that undo themselves *)
Section Loop.
Context {A X : Type} (body : A → list Undo → action (list Undo)).
Context (next : A → X → X) (pre clash : A → X → Prop).
Context (inv : X → list Undo → IndexSet → Prop) (failed : IndexSet → Prop).

Fixpoint pre_all (l : list A) (x : X) : Prop :=
  match l with [] => True | a :: l => pre a x ∧ pre_all l (next a x) end.

Fixpoint no_clash (l : list A) (x : X) : Prop :=
  match l with [] => True | a :: l => ¬ clash a x ∧ no_clash l (next a x) end.

Fixpoint some_clash (l : list A) (x : X) : Prop :=
  match l with [] => False | a :: l => clash a x ∨ some_clash l (next a x) end.

Definition turn_outcome (a : A) (x : X) (r : result (list Undo) * IndexSet) : Prop :=
  match r with
  | (Ok undo, s) => inv (next a x) undo s ∧ ¬ clash a x
  | (Throw e, s) => e = StorageError DuplicateKey ∧ failed s ∧ clash a x
  end.

Lemma loop_outcome l x undo s :
  (∀ a x undo s, a ∈ l → pre a x → inv x undo s → turn_outcome a x (body a undo s)) →
  pre_all l x → inv x undo s →
  match st_fold body l undo s with
  | (Ok undo', s') => inv (fold_left (λ x a, next a x) l x) undo' s' ∧ no_clash l x
  | (Throw e, s') => e = StorageError DuplicateKey ∧ failed s' ∧ some_clash l x
  end.
Proof.
  revert x undo s. induction l as [|a l IH]; intros x undo s Hb Hp Hi; [done|].
  destruct Hp as [Hpa Hp]. cbn [st_fold fold_left no_clash some_clash].
  unfold mbind, st_bind. specialize (Hb a x undo s (list_elem_of_here _ _) Hpa Hi) as Ha.
  unfold turn_outcome in Ha. destruct (body a undo s) as [[undo1|e] s1].
  - destruct Ha as [Hi1 Hc]. specialize (IH (next a x) undo1 s1
      (λ b y u t Hin, Hb b y u t (list_elem_of_further _ _ _ Hin)) Hp Hi1).
    destruct (st_fold body l undo1 s1) as [[undo'|e] s'].
    + destruct IH as [IH1 IH2]. done.
    + destruct IH as (IH1 & IH2 & IH3). auto.
  - destruct Ha as (? & ? & ?). auto.
Qed.
End Loop.

(** ** The loops over the indexes *)
Section Batch.
Context (sp : jsstring → option IndexSpec) (names : list jsstring) (F0 : jsstring → fields).
Context (Hnd : NoDup names) (Hnames : ∀ name, name ∈ names ↔ is_Some (sp name)).

Definition batch_inv (F : jsstring → fields) (undo : list Undo) (s : IndexSet) : Prop :=
  omap_keys s = names ∧ indexes_hold sp F s ∧ undoes sp (rev undo) F F0.

Definition batch_failed (s : IndexSet) : Prop := omap_keys s = names ∧ indexes_hold sp F0 s.

Definition removing (k : jsstring) (name : jsstring) (F : jsstring → fields) : jsstring → fields :=
  upd F name (delete k (F name)).

Definition adding (k : jsstring) (d : Document) (name : jsstring) (F : jsstring → fields)
    : jsstring → fields :=
  upd F name (match sp name with
              | Some spec => <[k := field_of spec d]> (F name)
              | None => F name
              end).

Lemma remove_before_outcome k d name F undo s :
  (∃ spec, sp name = Some spec ∧ F name !! k = Some (field_of spec d)) ∧
    fields_ok (F name) ∧ room (F name) →
  batch_inv F undo s →
  turn_outcome (removing k) (λ _ _, False) batch_inv batch_failed name F
    (remove_before k d name undo s).
Proof.
  intros ((spec & Hsp & Hk) & Hok & Hroom) (Hn & Hs & Hu).
  assert (room (delete k (F name))) as Hroom'.
  { unfold room in *. pose proof (map_size_delete_Some k (F name)).
    rewrite H by eauto. lia. }
  destruct (remove_hold _ _ _ _ _ _ _ Hs Hsp Hk Hok Hroom') as (s1 & E1 & K1 & H1).
  unfold remove_before, mbind, st_bind. rewrite E1. split; [|by intros []].
  split; [by rewrite K1|]. split; [done|]. rewrite rev_app_distr. cbn [rev app undoes].
  exists spec. unfold removing at 1 2 3, upd at 1 2 3. rewrite !decide_True by done.
  rewrite insert_delete_id by done. split; [done|]. split; [apply lookup_delete_eq|].
  split; [done|]. split; [done|]. eapply undoes_ext; [|exact Hu].
  intros name'. apply (upd_back F name (delete k (F name)) (<[k := field_of spec d]>)).
  by rewrite insert_delete_id.
Qed.

Lemma rollback_outcome F undo s :
  batch_inv F undo s → ∃ s', rollback undo s = (Ok (), s') ∧ batch_failed s'.
Proof.
  intros (Hn & Hs & Hu). destruct (undoes_run _ _ _ _ _ Hs Hu) as (s' & E & K & H).
  exists s'. split; [done|]. split; [by rewrite K|done].
Qed.

Definition clash_at (d : Document) (name : jsstring) (F : jsstring → fields) : Prop :=
  ∃ spec, sp name = Some spec ∧ clashes spec (F name) (field_of spec d).

Lemma add_after_outcome k d name F undo s :
  (∃ spec, sp name = Some spec ∧ fields_ok (<[k := field_of spec d]> (F name))) ∧
    F name !! k = None ∧ room (F name) →
  batch_inv F undo s →
  turn_outcome (adding k d) (clash_at d) batch_inv batch_failed name F (add_after k d name undo s).
Proof.
  intros ((spec & Hsp & Hok) & Hk & Hroom) Hinv. pose proof Hinv as (Hn & Hs & Hu).
  pose proof Hs as [_ H2 H3]. specialize (H2 name).
  unfold add_after, st_get, mbind, st_bind. destruct (omap_get s name) as [ix|] eqn:E;
    [|cbn in H2; congruence].
  assert (FieldIndex.FieldIndex.spec ix = spec) as Es by (cbn in H2; congruence).
  destruct (H3 _ _ E) as [_ Hi].
  destruct (conflictFor_inv ix (F name) k d Hi Hk) as (r & Hr & Hclash); [by rewrite Es|].
  rewrite Es in Hclash. unfold st_lift. rewrite Hr. destruct r as [c|].
  - destruct (rollback_outcome F undo s Hinv) as (s' & -> & Hf).
    split; [done|]. split; [done|]. exists spec. split; [done|]. apply Hclash. by eexists.
  - destruct (add_hold _ _ _ _ _ _ d Hs Hsp Hk Hok Hroom) as (s1 & -> & K1 & H1).
    assert (adding k d name F = upd F name (<[k := field_of spec d]> (F name))) as Ea
      by (unfold adding; by rewrite Hsp).
    unfold turn_outcome. rewrite Ea. split.
    + split; [by rewrite K1|]. split; [done|]. rewrite rev_app_distr. cbn [rev app undoes].
      exists spec. unfold upd at 1 2 3. rewrite !decide_True by done.
      rewrite delete_insert_id by done. split; [done|]. split; [apply lookup_insert_eq|].
      split; [done|]. split; [done|]. eapply undoes_ext; [|exact Hu].
      intros name'. apply (upd_back F name (<[k := field_of spec d]> (F name)) (delete k)).
      by rewrite delete_insert_id.
    + intros (spec' & Hsp' & Hc). assert (spec' = spec) as -> by congruence.
      apply Hclash in Hc. by destruct Hc.
Qed.

(** *** Over all the names *)
Section Names.
Context (g : jsstring → fields → fields).

Lemma fold_upd l F name :
  NoDup l →
  fold_left (λ F name, upd F name (g name (F name))) l F name =
    if decide (name ∈ l) then g name (F name) else F name.
Proof.
  intros Hl. revert F. induction Hl as [|x l Hx Hl IH]; intros F; cbn [fold_left].
  - by rewrite decide_False by apply not_elem_of_nil.
  - rewrite IH. unfold upd. destruct (decide (x = name)) as [->|Hne].
    + rewrite decide_False by done. by rewrite decide_True by left.
    + destruct (decide (name ∈ l)) as [Hin|Hn].
      * by rewrite decide_True by (by right).
      * rewrite decide_False; [done|]. rewrite elem_of_cons. naive_solver.
Qed.

Lemma pre_all_upd (P : jsstring → fields → Prop) l F :
  NoDup l → (∀ name, name ∈ l → P name (F name)) →
  pre_all (λ name F, upd F name (g name (F name))) (λ name F, P name (F name)) l F.
Proof.
  intros Hl. revert F. induction Hl as [|x l Hx Hl IH]; intros F H; [done|].
  split; [apply H; left|]. apply IH. intros name Hn. unfold upd. case_decide; [by subst|].
  apply H. by right.
Qed.

Lemma no_clash_upd (C : jsstring → fields → Prop) l F :
  NoDup l →
  no_clash (λ name F, upd F name (g name (F name))) (λ name F, C name (F name)) l F →
  ∀ name, name ∈ l → ¬ C name (F name).
Proof.
  intros Hl. revert F. induction Hl as [|x l Hx Hl IH]; intros F H name Hn;
    [by apply not_elem_of_nil in Hn|].
  destruct H as [Hc H]. apply elem_of_cons in Hn as [->|Hn]; [done|].
  specialize (IH _ H name Hn). unfold upd in IH. case_decide; [by subst|done].
Qed.

Lemma some_clash_upd (C : jsstring → fields → Prop) l F :
  NoDup l →
  some_clash (λ name F, upd F name (g name (F name))) (λ name F, C name (F name)) l F →
  ∃ name, name ∈ l ∧ C name (F name).
Proof.
  intros Hl. revert F. induction Hl as [|x l Hx Hl IH]; intros F H; [done|].
  destruct H as [Hc|H]; [exists x; split; [left|done]|].
  destruct (IH _ H) as (name & Hn & Hc). exists name. split; [by right|].
  unfold upd in Hc. case_decide; [by subst|done].
Qed.
End Names.

(** *** Over the changes *)
Definition all_fields (docs : documents) (name : jsstring) : fields :=
  match sp name with Some spec => fields_in spec docs | None => ∅ end.

Definition docs_inv (docs : documents) (undo : list Undo) (s : IndexSet) : Prop :=
  docs_ok docs ∧ batch_inv (all_fields docs) undo s.

Lemma fields_in_ok spec docs : docs_ok docs → fields_ok (fields_in spec docs) ∧ room (fields_in spec docs).
Proof.
  intros [Hd Hs]. split.
  - intros k v. unfold fields_in. rewrite lookup_fmap. destruct (docs !! k) as [d|] eqn:E; [|done].
    intros [= Hv]. by eapply resolveField_encodable, Hv; eapply Hd.
  - unfold room, fields_in. by rewrite map_size_fmap.
Qed.

Lemma batch_ext F F' undo s :
  (∀ name, F name = F' name) → batch_inv F undo s → batch_inv F' undo s.
Proof.
  intros E (H1 & H2 & H3). split; [done|]. split; [by eapply hold_ext|by eapply undoes_ext].
Qed.

Definition remove_change (c : DocumentChange) (docs : documents) : documents :=
  match before c with Some _ => delete (key c) docs | None => docs end.

Definition add_change (c : DocumentChange) (docs : documents) : documents :=
  match after c with Some d => <[key c := d]> docs | None => docs end.

Definition remove_body (c : DocumentChange) (undo : list Undo) : action (list Undo) :=
  match before c with
  | None => mret undo
  | Some d => st_fold (remove_before (key c) d) names undo
  end.

Definition add_body (c : DocumentChange) (undo : list Undo) : action (list Undo) :=
  match after c with
  | None => mret undo
  | Some d => st_fold (add_after (key c) d) names undo
  end.

Lemma docs_ok_delete k docs : docs_ok docs → docs_ok (delete k docs).
Proof.
  intros [H1 H2]. split; [by apply map_Forall_delete|].
  rewrite map_size_delete. destruct (docs !! k); unfold id; lia.
Qed.

Lemma remove_body_outcome c docs undo s :
  (∀ d, before c = Some d → docs !! key c = Some d) → docs_inv docs undo s →
  turn_outcome remove_change (λ _ _, False) docs_inv batch_failed c docs (remove_body c undo s).
Proof.
  intros Hb [Hok Hi]. unfold remove_body, turn_outcome, remove_change.
  destruct (before c) as [d|]; [|by split; [|intros []]]. specialize (Hb d eq_refl).
  pose proof (loop_outcome (remove_before (key c) d) (removing (key c))
    (λ name F, (∃ spec, sp name = Some spec ∧ F name !! key c = Some (field_of spec d)) ∧
      fields_ok (F name) ∧ room (F name))
    (λ _ _, False) batch_inv batch_failed names (all_fields docs) undo s) as Hloop.
  specialize (Hloop (λ name F undo s _ Hp Hv, remove_before_outcome _ _ _ _ _ _ Hp Hv)).
  assert (pre_all (removing (key c)) (λ name F,
    (∃ spec, sp name = Some spec ∧ F name !! key c = Some (field_of spec d)) ∧
    fields_ok (F name) ∧ room (F name)) names (all_fields docs)) as Hpre.
  { apply (pre_all_upd (λ _ M, delete (key c) M) (λ name M,
      (∃ spec, sp name = Some spec ∧ M !! key c = Some (field_of spec d)) ∧ fields_ok M ∧ room M)
      names); [done|]. intros name [spec Hsp]%Hnames. unfold all_fields. rewrite Hsp.
    split; [|by apply fields_in_ok]. exists spec. split; [done|].
    unfold fields_in. by rewrite lookup_fmap, Hb. }
  specialize (Hloop Hpre Hi). destruct (st_fold _ names undo s) as [[undo'|e] s'].
  - destruct Hloop as [Hi' _]. split; [|by intros []]. split; [by apply docs_ok_delete|].
    eapply batch_ext; [|exact Hi']. intros name.
    etrans; [exact (fold_upd (λ _ M, delete (key c) M) names (all_fields docs) name Hnd)|].
    unfold all_fields.
    destruct (sp name) as [spec|] eqn:Hsp.
    + rewrite decide_True by (apply Hnames; by eexists). unfold fields_in. by rewrite fmap_delete.
    + rewrite decide_False; [done|]. intros [spec' ?]%Hnames. congruence.
  - exfalso. destruct Hloop as (_ & _ & Hc).
    by apply (some_clash_upd (λ _ M, delete (key c) M) (λ _ _, False) names (all_fields docs))
      in Hc as (_ & _ & []).
Qed.

(** Some index rejects a document among the others. *)
Definition rejected (d : Document) (docs : documents) : Prop :=
  ∃ name spec, sp name = Some spec ∧ clashes spec (fields_in spec docs) (field_of spec d).

Definition clash_change (c : DocumentChange) (docs : documents) : Prop :=
  ∃ d, after c = Some d ∧ rejected d docs.

Lemma add_body_outcome c docs undo s :
  (∀ d, after c = Some d → docs !! key c = None) → docs_ok (add_change c docs) →
  docs_inv docs undo s →
  turn_outcome add_change clash_change docs_inv batch_failed c docs (add_body c undo s).
Proof.
  unfold turn_outcome, add_change, clash_change. intros Ha Hok' [Hok Hi]. unfold add_body.
  destruct (after c) as [d|]; [|split; [done|naive_solver]]. specialize (Ha d eq_refl).
  set (P := λ (name : jsstring) (M : fields),
    (∃ spec, sp name = Some spec ∧ fields_ok (<[key c := field_of spec d]> M)) ∧
    M !! key c = None ∧ room M).
  set (C := λ (name : jsstring) (M : fields),
    ∃ spec, sp name = Some spec ∧ clashes spec M (field_of spec d)).
  set (g := λ (name : jsstring) (M : fields),
    match sp name with Some spec => <[key c := field_of spec d]> M | None => M end).
  pose proof (loop_outcome (add_after (key c) d) (adding (key c) d) (λ name F, P name (F name))
    (clash_at d) batch_inv batch_failed names (all_fields docs) undo s
    (λ name F undo s _ Hp Hv, add_after_outcome _ _ _ _ _ _ Hp Hv)) as Hloop.
  assert (∀ name, name ∈ names → ∃ spec, sp name = Some spec ∧
    all_fields docs name = fields_in spec docs) as Hin.
  { intros name [spec Hsp]%Hnames. exists spec. unfold all_fields. by rewrite Hsp. }
  specialize (Hloop (pre_all_upd g P names (all_fields docs) Hnd
    ltac:(intros name Hn; destruct (Hin name Hn) as (spec & Hsp & ->);
      split; [exists spec; split; [done|]; unfold fields_in; rewrite <- fmap_insert;
              by apply fields_in_ok
             |split; [unfold fields_in; by rewrite lookup_fmap, Ha|by apply fields_in_ok]])) Hi).
  destruct (st_fold _ names undo s) as [[undo'|e] s'].
  - destruct Hloop as [Hi' Hc]. split; [split; [done|]|].
    + eapply batch_ext; [|exact Hi']. intros name.
      etrans; [exact (fold_upd g names (all_fields docs) name Hnd)|]. unfold all_fields, g.
      destruct (sp name) as [spec|] eqn:Hsp.
      * rewrite decide_True by (apply Hnames; by eexists). unfold fields_in. by rewrite fmap_insert.
      * rewrite decide_False; [done|]. intros [spec' ?]%Hnames. congruence.
    + intros (d' & [= <-] & name & spec & Hsp & Hcl).
      apply (no_clash_upd g C names (all_fields docs) Hnd Hc name); [apply Hnames; by eexists|].
      exists spec. split; [done|]. unfold all_fields. by rewrite Hsp.
  - destruct Hloop as (-> & Hf & Hc). split; [done|]. split; [done|].
    apply (some_clash_upd g C names (all_fields docs) Hnd) in Hc as (name & Hn & spec & Hsp & Hcl).
    exists d. split; [done|]. exists name, spec. split; [done|].
    unfold all_fields in Hcl. by rewrite Hsp in Hcl.
Qed.
End Batch.

(** ** Uniqueness *)
Lemma unique_insert spec M k f :
  unique_ok spec M → M !! k = None → ¬ clashes spec M f → unique_ok spec (<[k := f]> M).
Proof.
  intros Hu Hk Hc Hun. specialize (Hu Hun) as [H1 H2]. unfold clashes in Hc. split.
  - intros d1 d2 v w. rewrite !lookup_insert_Some.
    intros [[<- ->]|[Hn1 Hv]] [[<- [= ->]]|[Hn2 Hw]] E; [done|..].
    + exfalso. apply Hc. split; [done|]. exists d2, w. by rewrite E.
    + exfalso. apply Hc. split; [done|]. by exists d1, v.
    + by eapply H1.
  - intros Hs d1 d2. rewrite !lookup_insert_Some. specialize (H2 Hs).
    intros [[<- ->]|[Hn1 Hv]] [[<- E]|[Hn2 Hw]]; [done|..].
    + exfalso. apply Hc. split; [done|]. split; [done|]. by exists d2.
    + exfalso. apply Hc. subst f. split; [done|]. split; [done|]. by exists d1.
    + by eapply H2.
Qed.

Lemma unique_sub spec M M' : M ⊆ M' → unique_ok spec M' → unique_ok spec M.
Proof.
  intros Hsub Hu Hun. specialize (Hu Hun) as [H1 H2]. split.
  - intros d1 d2 v w Hv Hw. eapply H1; by eapply lookup_weaken.
  - intros Hs d1 d2 Hv Hw. eapply H2; [done|by eapply lookup_weaken..].
Qed.

Lemma clashes_not_unique spec M k f :
  M !! k = None → clashes spec M f → ¬ unique_ok spec (<[k := f]> M).
Proof.
  intros Hk [Hun Hc] Hu. specialize (Hu Hun) as [H1 H2]. destruct f as [v|].
  - destruct Hc as (dk & w & Hw & E). assert (dk ≠ k) as Hne by congruence.
    apply Hne. eapply (H1 dk k w v); [by rewrite lookup_insert_ne|apply lookup_insert_eq|done].
  - destruct Hc as (Hs & dk & Hw). assert (dk ≠ k) as Hne by congruence.
    apply Hne. apply (H2 Hs); [by rewrite lookup_insert_ne|apply lookup_insert_eq].
Qed.

Lemma fields_in_sub spec docs docs' : docs ⊆ docs' → fields_in spec docs ⊆ fields_in spec docs'.
Proof. apply map_fmap_mono. Qed.

Lemma docs_ok_sub docs docs' : docs ⊆ docs' → docs_ok docs' → docs_ok docs.
Proof.
  intros Hsub [H1 H2]. split.
  - intros k d Hk. eapply H1, lookup_weaken; done.
  - pose proof (map_subseteq_size _ _ Hsub). lia.
Qed.

(** ** The whole batch *)

(** The documents after a batch of changes. *)
Definition after_changes (changes : list DocumentChange) (docs : documents) : documents :=
  fold_left (λ docs c, add_change c docs) changes
    (fold_left (λ docs c, remove_change c docs) changes docs).

(** The changes are of different documents, and say how they were before. *)
Definition changes_ok (changes : list DocumentChange) (docs : documents) : Prop :=
  NoDup (map key changes) ∧ Forall (λ c, before c = docs !! key c) changes ∧
  docs_ok (after_changes changes docs).

(** The indexes of the definitions [sp] agree with the documents. *)
Record set_inv (sp : jsstring → option IndexSpec) (s : IndexSet) (docs : documents) : Prop := {
  set_docs : docs_ok docs;
  set_hold : indexes_hold sp (all_fields sp docs) s;
  set_unique : ∀ name spec, sp name = Some spec → unique_ok spec (fields_in spec docs);
}.

Lemma removes_lookup changes docs k :
  fold_left (λ docs c, remove_change c docs) changes docs !! k =
    if existsb (λ c, bool_decide (key c = k) && (if before c is Some _ then true else false)) changes
    then None else docs !! k.
Proof.
  revert docs. induction changes as [|c changes IH]; intros docs; [done|].
  cbn [fold_left existsb]. rewrite IH. unfold remove_change.
  destruct (before c); [|by rewrite andb_false_r]. case_bool_decide as Hk; cbn [andb orb].
  - subst. rewrite lookup_delete_eq. by case_match.
  - by rewrite lookup_delete_ne.
Qed.

Lemma adds_extend changes docs :
  NoDup (map key changes) → (∀ c, c ∈ changes → docs !! key c = None) →
  docs ⊆ fold_left (λ docs c, add_change c docs) changes docs ∧
  (docs_ok (fold_left (λ docs c, add_change c docs) changes docs) →
   pre_all add_change (λ c docs, (∀ d, after c = Some d → docs !! key c = None) ∧
     docs_ok (add_change c docs)) changes docs).
Proof.
  revert docs. induction changes as [|c changes IH]; intros docs Hnd Hno; [done|].
  cbn [map] in Hnd. apply NoDup_cons in Hnd as [Hc Hnd]. cbn [fold_left pre_all].
  assert (docs !! key c = None) as Hk by (apply Hno; left).
  assert (docs ⊆ add_change c docs) as Hsub.
  { unfold add_change. destruct (after c); [by apply insert_subseteq|done]. }
  destruct (IH (add_change c docs)) as [IH1 IH2]; [done| |].
  { intros c' Hc'. unfold add_change. destruct (after c); [|apply Hno; by right].
    rewrite lookup_insert_ne; [apply Hno; by right|]. intros E. apply Hc. rewrite E.
    by apply (list_elem_of_fmap_2 key). }
  split; [by transitivity (add_change c docs)|]. intros Hok. split; [|by apply IH2].
  split; [done|]. by eapply docs_ok_sub.
Qed.

Lemma removes_pre changes docs :
  NoDup (map key changes) → Forall (λ c, before c = docs !! key c) changes →
  pre_all remove_change (λ c docs, ∀ d, before c = Some d → docs !! key c = Some d) changes docs.
Proof.
  revert docs. induction changes as [|c changes IH]; intros docs Hnd Hb; [done|].
  cbn [map] in Hnd. apply NoDup_cons in Hnd as [Hc Hnd]. apply Forall_cons in Hb as [Hb1 Hb].
  split; [by intros d <-|]. apply IH; [done|]. rewrite Forall_forall in Hb |- *.
  intros c' Hc'. rewrite Hb by done. unfold remove_change. destruct (before c); [|done].
  rewrite lookup_delete_ne; [done|]. intros E. apply Hc. rewrite E. by apply (list_elem_of_fmap_2 key).
Qed.

Lemma hold_names sp F s name : indexes_hold sp F s → name ∈ omap_keys s ↔ is_Some (sp name).
Proof.
  intros [_ H _]. rewrite <- H, fmap_is_Some, <- not_eq_None_Some, omap_get_None.
  split; [by intros ? ?|]. intros Hn. destruct (decide (name ∈ omap_keys s)); tauto.
Qed.

Section Outcome.
Context (sp : jsstring → option IndexSpec) (docs : documents) (changes : list DocumentChange).
Context (Hok : changes_ok changes docs).

Let docs1 := fold_left (λ docs c, remove_change c docs) changes docs.

Lemma changes_absent c : c ∈ changes → docs1 !! key c = None.
Proof.
  intros Hc. unfold docs1. rewrite removes_lookup. destruct (existsb _ changes) eqn:E; [done|].
  destruct Hok as (_ & Hb & _). rewrite Forall_forall in Hb. rewrite <- Hb by done.
  destruct (before c) eqn:Eb; [|done]. exfalso. apply not_true_iff_false in E. apply E.
  apply existsb_exists. exists c. split; [by apply list_elem_of_In|].
  by rewrite bool_decide_eq_true_2, Eb.
Qed.

Lemma unique_after :
  (∀ name spec, sp name = Some spec → unique_ok spec (fields_in spec docs)) →
  no_clash add_change (clash_change sp) changes docs1 →
  ∀ name spec, sp name = Some spec → unique_ok spec (fields_in spec (after_changes changes docs)).
Proof.
  intros Hu Hno name spec Hsp.
  assert (unique_ok spec (fields_in spec docs1)) as Hu1.
  { eapply unique_sub; [|by eapply Hu]. apply fields_in_sub, map_subseteq_spec.
    intros k d. unfold docs1. rewrite removes_lookup. by case_match. }
  assert (∀ c, c ∈ changes → docs1 !! key c = None) as Habs by apply changes_absent.
  unfold after_changes. fold docs1. destruct Hok as (Hnd & _ & _). clearbody docs1. clear Hok Hu.
  revert docs1 Hno Hu1 Habs. induction changes as [|c l IH]; intros docs1 Hno Hu1 Habs; [done|].
  destruct Hno as [Hc Hno]. cbn [map] in Hnd. apply NoDup_cons in Hnd as [Hn Hnd].
  cbn [fold_left]. apply IH; try done.
  - unfold add_change, clash_change in *. destruct (after c) as [d|]; [|done].
    unfold fields_in. rewrite fmap_insert. apply unique_insert; [done| |].
    + rewrite lookup_fmap, Habs; [done|left].
    + intros Hcl. apply Hc. exists d. split; [done|]. by exists name, spec.
  - intros c' Hc'. unfold add_change. destruct (after c); [|apply Habs; by right].
    rewrite lookup_insert_ne; [apply Habs; by right|]. intros E. apply Hn. rewrite E.
    by apply (list_elem_of_fmap_2 key).
Qed.

Lemma clash_after :
  some_clash add_change (clash_change sp) changes docs1 →
  ∃ name spec, sp name = Some spec ∧
    ¬ unique_ok spec (fields_in spec (after_changes changes docs)).
Proof.
  assert (∀ c, c ∈ changes → docs1 !! key c = None) as Habs by apply changes_absent.
  unfold after_changes. fold docs1. destruct Hok as (Hnd & _ & _). clearbody docs1. clear Hok.
  revert docs1 Habs. induction changes as [|c l IH]; intros docs1 Habs Hs; [done|].
  cbn [map] in Hnd. apply NoDup_cons in Hnd as [Hn Hnd]. cbn [fold_left].
  assert (∀ c', c' ∈ l → add_change c docs1 !! key c' = None) as Habs'.
  { intros c' Hc'. unfold add_change. destruct (after c); [|apply Habs; by right].
    rewrite lookup_insert_ne; [apply Habs; by right|]. intros E. apply Hn. rewrite E.
    by apply (list_elem_of_fmap_2 key). }
  destruct Hs as [(d & Hd & name & spec & Hsp & Hcl)|Hs]; [|by apply IH].
  exists name, spec. split; [done|]. intros Hu.
  eapply (clashes_not_unique spec _ (key c)); [|exact Hcl|].
  - unfold fields_in. rewrite lookup_fmap, Habs; [done|left].
  - eapply unique_sub; [|exact Hu]. unfold fields_in. rewrite <- fmap_insert.
    apply map_fmap_mono. assert (<[key c := d]> docs1 = add_change c docs1) as ->
      by (unfold add_change; by rewrite Hd).
    by apply adds_extend.
Qed.

Lemma applyChanges_outcome s :
  set_inv sp s docs →
  match applyChanges changes s with
  | (Ok undo, s') =>
      omap_keys s' = omap_keys s ∧ set_inv sp s' (after_changes changes docs) ∧
      ∀ s1, omap_keys s1 = omap_keys s → set_inv sp s1 (after_changes changes docs) →
        ∃ s'', rollback undo s1 = (Ok (), s'') ∧ omap_keys s'' = omap_keys s ∧ set_inv sp s'' docs
  | (Throw e, s') =>
      e = StorageError DuplicateKey ∧ omap_keys s' = omap_keys s ∧ set_inv sp s' docs ∧
      ∃ name spec, sp name = Some spec ∧
        ¬ unique_ok spec (fields_in spec (after_changes changes docs))
  end.
Proof.
  intros [Hd Hh Hu]. unfold applyChanges, mbind, st_bind, st_get.
  pose proof Hok as (Hnd & Hb & Hok').
  destruct (Z.eqb_spec (len (omap_keys s)) 0) as [E%len_0_inv|_].
  { destruct s as [|[? ?] ?]; [|done]. cbn -[after_changes].
    assert (∀ name, sp name = None) as Hnone by (intros name; by rewrite <- (hold_specs _ _ _ Hh)).
    assert (∀ docs', docs_ok docs' → set_inv sp [] docs') as Hset.
    { intros docs' Hd'. split; [done| |intros ? ? H; by rewrite Hnone in H].
      split; [constructor| |done]. intros name. by rewrite Hnone. }
    split; [done|]. split; [by apply Hset|]. intros [|? ?] E1 _; [|by destruct p].
    exists []. split; [done|]. split; [done|by apply Hset]. }
  set (F0 := all_fields sp docs) in *. set (names := omap_keys s).
  assert (NoDup names) as Hnn by apply Hh.
  assert (∀ name, name ∈ names ↔ is_Some (sp name)) as Hnames by (intros; by eapply hold_names).
  assert (docs_inv sp names F0 docs [] s) as Hinv.
  { split; [done|]. split; [done|]. by split. }
  assert (∀ s', batch_failed sp names F0 s' → omap_keys s' = names ∧ set_inv sp s' docs) as Hfailed.
  { intros s' [Hk Hs']. split; [done|]. by split. }
  pose proof (loop_outcome (remove_body names) remove_change
    (λ c docs, ∀ d, before c = Some d → docs !! key c = Some d) (λ _ _, False)
    (docs_inv sp names F0) (batch_failed sp names F0) changes docs [] s
    (λ c x u t _ Hp Hi, remove_body_outcome sp names F0 Hnn Hnames c x u t Hp Hi)
    (removes_pre _ _ Hnd Hb) Hinv) as H1.
  fold (remove_body names). change (fold_left _ changes docs) with docs1 in H1.
  destruct (st_fold (remove_body names) changes [] s) as [[undo1|e] s1].
  2:{ exfalso. destruct H1 as (_ & _ & H1). clear -H1. revert H1. generalize docs.
      induction changes as [|c l IH]; intros docs'; [done|]. intros [[]|H]. by eapply IH. }
  destruct H1 as [Hinv1 _].
  destruct (adds_extend changes docs1 Hnd changes_absent) as [_ Hpre].
  pose proof (loop_outcome (add_body names) add_change _ (clash_change sp)
    (docs_inv sp names F0) (batch_failed sp names F0) changes docs1 undo1 s1
    (λ c x u t _ Hp Hi, add_body_outcome sp names F0 Hnn Hnames c x u t (proj1 Hp) (proj2 Hp) Hi)
    (Hpre Hok') Hinv1) as H2.
  fold (add_body names). destruct (st_fold (add_body names) changes undo1 s1) as [[undo2|e] s2].
  - destruct H2 as [[Hd2 Hi2] Hno]. pose proof Hi2 as (Hk2 & Hs2 & _). split; [done|]. split.
    + split; [done|exact Hs2|]. by apply unique_after.
    + intros s3 Hk3 [_ Hh3 _]. pose proof Hi2 as (_ & _ & Hun).
      destruct (rollback_outcome sp names F0 (all_fields sp (after_changes changes docs)) undo2 s3)
        as (s' & Hr & Hf); [by split|]. exists s'. auto.
  - destruct H2 as (-> & Hf & Hc). destruct (Hfailed _ Hf). split; [done|]. split; [done|].
    split; [done|]. by apply clash_after.
Qed.
End Outcome.

(** ** Building an index *)
Definition decoded (entries : list (jsstring * Document)) : list (jsstring * result Document) :=
  map (λ kv, (kv.1, Ok kv.2)) entries.

Definition insert_entries (docs : documents) (entries : list (jsstring * Document)) : documents :=
  fold_left (λ docs kv, <[kv.1 := kv.2]> docs) entries docs.

Lemma insert_entries_sub docs entries :
  NoDup (omap_keys entries) → (∀ k, k ∈ omap_keys entries → docs !! k = None) →
  docs ⊆ insert_entries docs entries.
Proof.
  revert docs. induction entries as [|[k d] entries IH]; intros docs Hnd Hno; [done|].
  cbn [omap_keys map fst] in *. apply NoDup_cons in Hnd as [Hk Hnd].
  unfold insert_entries. cbn [fold_left fst snd].
  transitivity (<[k := d]> docs); [by apply insert_subseteq, Hno; left|].
  apply IH; [done|]. intros k' Hk'. rewrite lookup_insert_ne by (by intros ->).
  apply Hno. by right.
Qed.

Lemma build_loop spec entries ix docs :
  NoDup (omap_keys entries) → (∀ k, k ∈ omap_keys entries → docs !! k = None) →
  docs_ok (insert_entries docs entries) → FieldIndex.FieldIndex.spec ix = spec →
  index_inv ix (fields_in spec docs) → unique_ok spec (fields_in spec docs) →
  match foldM (λ (entry : jsstring * result Document) index,
      document ← entry.2;
      conflict ← conflictFor index entry.1 document;
      match conflict with
      | Some _ => Throw (StorageError DuplicateKey)
      | None => add index entry.1 document true
      end) (decoded entries) ix with
  | Ok ix' => FieldIndex.FieldIndex.spec ix' = spec ∧
      index_inv ix' (fields_in spec (insert_entries docs entries)) ∧
      unique_ok spec (fields_in spec (insert_entries docs entries))
  | Throw e => e = StorageError DuplicateKey ∧
      ¬ unique_ok spec (fields_in spec (insert_entries docs entries))
  end.
Proof.
  revert ix docs. induction entries as [|[k d] entries IH]; intros ix docs Hnd Hno Hok Hs Hi Hu; [done|].
  cbn [omap_keys map fst] in Hnd. apply NoDup_cons in Hnd as [Hk Hnd].
  assert (docs !! k = None) as Hdk by (apply Hno; left).
  assert (∀ k', k' ∈ omap_keys entries → <[k := d]> docs !! k' = None) as Hno'.
  { intros k' Hk'. rewrite lookup_insert_ne by (by intros ->). apply Hno. by right. }
  change (insert_entries docs ((k, d) :: entries)) with (insert_entries (<[k := d]> docs) entries) in *.
  pose proof (insert_entries_sub (<[k := d]> docs) entries Hnd Hno') as Hsub.
  pose proof (docs_ok_sub _ _ Hsub Hok) as Hok1.
  destruct (fields_in_ok spec _ Hok1) as [Hf1 _]. unfold fields_in in Hf1. rewrite fmap_insert in Hf1.
  fold (fields_in spec docs) in Hf1.
  assert (fields_in spec docs !! k = None) as Hfk by (unfold fields_in; by rewrite lookup_fmap, Hdk).
  assert (room (fields_in spec docs)) as Hroom.
  { apply fields_in_ok. eapply docs_ok_sub; [|exact Hok1]. by apply insert_subseteq. }
  cbn [decoded map foldM fst snd mbind res_bind]. fold (decoded entries).
  destruct (conflictFor_inv ix (fields_in spec docs) k d Hi Hfk) as (r & -> & Hc); [by rewrite Hs|].
  rewrite Hs in Hc. cbn [mbind res_bind]. destruct r as [c|].
  - cbn [mbind res_bind]. split; [done|]. intros Hun.
    apply (clashes_not_unique spec (fields_in spec docs) k (field_of spec d) Hfk); [by apply Hc|].
    eapply unique_sub; [|exact Hun]. unfold fields_in. rewrite <- fmap_insert.
    by apply map_fmap_mono.
  - destruct (add_inv ix (fields_in spec docs) k d true) as (ix' & -> & Hs' & _ & Hi'); try done;
      [by rewrite Hs|]. cbn [mbind res_bind]. rewrite Hs in Hi'.
    apply IH; try done; [congruence| |].
    + unfold fields_in. by rewrite fmap_insert.
    + unfold fields_in. rewrite fmap_insert. apply unique_insert; [done|done|].
      intros Hcl. apply Hc in Hcl. by destruct Hcl.
Qed.

Lemma build_outcome spec entries :
  NoDup (omap_keys entries) → docs_ok (insert_entries ∅ entries) →
  match build spec (decoded entries) with
  | Ok ix => FieldIndex.FieldIndex.spec ix = spec ∧ unsorted ix = [] ∧
      index_inv ix (fields_in spec (insert_entries ∅ entries)) ∧
      unique_ok spec (fields_in spec (insert_entries ∅ entries))
  | Throw e => e = StorageError DuplicateKey ∧
      ¬ unique_ok spec (fields_in spec (insert_entries ∅ entries))
  end.
Proof.
  intros Hnd Hok. unfold build.
  assert (fields_in spec ∅ = ∅) as He by (apply fmap_empty).
  pose proof (build_loop spec entries (new spec) ∅ Hnd (λ _ _, lookup_empty _) Hok eq_refl) as H.
  rewrite He in H. specialize (H (proj1 (new_inv spec))).
  assert (unique_ok spec ∅) as Hu.
  { intros _. split; [intros d1 d2 v w Hv|intros _ d1 d2 Hv]; by rewrite lookup_empty in Hv. }
  specialize (H Hu). destruct (foldM _ (decoded entries) (new spec)) as [ix|e];
    cbn [mbind res_bind]; [|done].
  destruct H as (Hs & Hi & Hu'). destruct (finishBulk_inv ix _ Hi) as (Hs' & Hun & Hi').
  split; [by rewrite Hs'|done].
Qed.

(** The definitions with one more, or one less. *)
Definition with_spec (sp : jsstring → option IndexSpec) (name : jsstring) (o : option IndexSpec)
    : jsstring → option IndexSpec :=
  λ name', if decide (name = name') then o else sp name'.

Lemma create_outcome sp s docs spec entries :
  set_inv sp s docs → NoDup (omap_keys entries) → docs = insert_entries ∅ entries →
  match create spec (decoded entries) s with
  | (Ok created, s') =>
      sp (Spec.name spec) = None ∧ omap_keys s' = omap_keys s ++ [Spec.name spec] ∧
      set_inv (with_spec sp (Spec.name spec) (Some spec)) s' docs
  | (Ok exists_, s') =>
      s' = s ∧ ∃ other, sp (Spec.name spec) = Some other ∧ Spec.sameDefinition other spec = true
  | (Throw e, s') =>
      s' = s ∧ (e = StorageError Errors.IndexConflict ∨
                e = StorageError DuplicateKey ∧ ¬ unique_ok spec (fields_in spec docs))
  end.
Proof.
  intros [Hd Hh Hu] Hnd Hdocs. unfold create, mbind, st_bind, st_get, st_lift, storageError, st_throw.
  pose proof Hh as [H1 H2 H3]. pose proof (H2 (Spec.name spec)) as Hsp.
  destruct (omap_get s (Spec.name spec)) as [existing|] eqn:E.
  - destruct (Spec.sameDefinition _ _) eqn:Es; cbn; [|auto]. split; [done|].
    eexists. split; [by rewrite <- Hsp|done].
  - destruct (existsb _ (all (id s))); [auto|]. destruct (_ <=? _); [auto|].
    pose proof (build_outcome spec entries Hnd) as Hb. rewrite <- Hdocs in Hb. specialize (Hb Hd).
    destruct (build spec (decoded entries)) as [ix|e]; [|destruct Hb; auto].
    destruct Hb as (Hs & Hun & Hi & Huq). cbn.
    split; [by rewrite <- Hsp|]. rewrite omap_set_None by done.
    split; [exact (omap_keys_app s [(Spec.name spec, ix)])|]. split; [done| |].
    + split; [rewrite <- omap_set_None by done; by apply omap_set_NoDup| |];
        intros name'; rewrite <- omap_set_None by done; unfold with_spec.
      * case_decide as Hn; [subst; by rewrite omap_get_set|]. by rewrite omap_get_set_ne.
      * intros ix'. unfold all_fields. case_decide as Hn.
        -- subst name'. rewrite omap_get_set. by intros [= <-].
        -- rewrite omap_get_set_ne by done. apply H3.
    + intros name' spec'. unfold with_spec. case_decide; [by intros [= <-]|]. apply Hu.
Qed.

Lemma drop_outcome sp s docs name :
  set_inv sp s docs →
  ∃ s', drop name s = (Ok (), s') ∧ omap_keys s' = oset_delete (omap_keys s) name ∧
    set_inv (with_spec sp name None) s' docs.
Proof.
  intros [Hd [H1 H2 H3] Hu]. eexists. split; [reflexivity|]. split; [apply omap_delete_keys|].
  split; [done| |].
  - split; [by apply omap_delete_NoDup| |]; intros name'; unfold with_spec.
    + case_decide; [subst; by rewrite omap_get_delete|]. by rewrite omap_get_delete_ne.
    + intros ix. unfold all_fields. case_decide.
      * subst. by rewrite omap_get_delete.
      * rewrite omap_get_delete_ne by done. apply H3.
  - intros name' spec. unfold with_spec. case_decide; [done|]. apply Hu.
Qed.

(** * Theorems *)
Definition sample_docs : documents := {[ js "0a" := [(js "n", VNumber (number_of_Z 7))] ]}.

Lemma sample_docs_ok : docs_ok sample_docs.
Proof.
  split; [|done]. apply map_Forall_singleton. split; [reflexivity|]. split; [reflexivity|].
  vm_compute. discriminate.
Qed.

Lemma sample_set_inv :
  set_inv (with_spec (λ _, None) (js "n_1") (Some sample_spec)) [(js "n_1", new sample_spec)] ∅.
Proof.
  split; [split; [apply map_Forall_empty|done]| |].
  - split; [apply NoDup_singleton| |].
    + intros name. unfold with_spec. cbn [omap_get]. destruct (decide (js "n_1" = name)) as [<-|Hne].
      * by rewrite decide_True.
      * by rewrite decide_False.
    + intros name ix. cbn [omap_get]. case_decide; [|done]. intros [= <-]. split; [done|].
      unfold all_fields, with_spec. rewrite decide_True by done. unfold fields_in.
      rewrite fmap_empty. apply new_inv.
  - intros name spec _ _. unfold fields_in. rewrite fmap_empty.
    split; [intros d1 d2 v w H|intros _ d1 d2 H]; by rewrite lookup_empty in H.
Qed.

(** A batch of document changes is applied to every index or to none. If it
    succeeds the indexes agree with the documents after the batch, no unique
    index holds a value twice, and the function it returns undoes it; if it
    throws, the error is a duplicate key, the indexes agree with the documents
    before, and the batch would have broken a unique index. *)
Lemma batch_atomic (sp : jsstring → option IndexSpec) (s : IndexSet) (docs : documents)
    (changes : list DocumentChange) :
  changes_ok changes docs → set_inv sp s docs →
  match applyChanges changes s with
  | (Ok undo, s') =>
      set_inv sp s' (after_changes changes docs) ∧
      ∃ s'', rollback undo s' = (Ok (), s'') ∧ set_inv sp s'' docs
  | (Throw e, s') =>
      e = StorageError DuplicateKey ∧ set_inv sp s' docs ∧
      ∃ name spec, sp name = Some spec ∧
        ¬ unique_ok spec (fields_in spec (after_changes changes docs))
  end.
Proof.
  intros Hc Hs. pose proof (applyChanges_outcome sp docs changes Hc s Hs) as H.
  destruct (applyChanges changes s) as [[undo|e] s'].
  - destruct H as (Hk & Hs' & Hr). split; [done|].
    destruct (Hr s' Hk Hs') as (s'' & ? & _ & ?). by exists s''.
  - destruct H as (-> & _ & H). done.
Qed.

Lemma batch_atomic_witness :
  let change := {| key := js "0a"; before := None; after := Some [(js "n", VNumber (number_of_Z 7))] |} in
  let sp := with_spec (λ _, None) (js "n_1") (Some sample_spec) in
  ∃ undo s', applyChanges [change] [(js "n_1", new sample_spec)] = (Ok undo, s') ∧
    set_inv sp s' sample_docs.
Proof.
  intros change sp.
  pose proof (batch_atomic sp [(js "n_1", new sample_spec)] ∅ [change]) as H.
  destruct (applyChanges [change] [(js "n_1", new sample_spec)]) as [[undo|e] s'] eqn:E;
    [|vm_compute in E; discriminate].
  exists undo, s'. split; [reflexivity|]. apply H.
  - split; [apply NoDup_singleton|]. split; [by constructor|]. apply sample_docs_ok.
  - apply sample_set_inv.
Defined.

(** Creating an index over the documents either adds an index that agrees
    with them, without repetitions if it is unique, or changes nothing: because
    an identical index exists, or with an error that says that the definition
    conflicts with an existing one or the documents break its uniqueness. *)
Lemma create_index (sp : jsstring → option IndexSpec) (s : IndexSet) (docs : documents)
    (spec : IndexSpec) (entries : list (jsstring * Document)) :
  set_inv sp s docs → NoDup (omap_keys entries) → docs = insert_entries ∅ entries →
  match create spec (decoded entries) s with
  | (Ok created, s') =>
      sp (Spec.name spec) = None ∧ omap_keys s' = omap_keys s ++ [Spec.name spec] ∧
      set_inv (with_spec sp (Spec.name spec) (Some spec)) s' docs
  | (Ok exists_, s') =>
      s' = s ∧ ∃ other, sp (Spec.name spec) = Some other ∧ Spec.sameDefinition other spec = true
  | (Throw e, s') =>
      s' = s ∧ (e = StorageError Errors.IndexConflict ∨
                e = StorageError DuplicateKey ∧ ¬ unique_ok spec (fields_in spec docs))
  end.
Proof. apply create_outcome. Qed.

Lemma create_index_witness :
  let entries := [(js "0a", [(js "n", VNumber (number_of_Z 7))])] in
  ∃ s', create sample_spec (decoded entries) [] = (Ok created, s') ∧
    set_inv (with_spec (λ _, None) (js "n_1") (Some sample_spec)) s' sample_docs.
Proof.
  intros entries.
  assert (set_inv (λ _, None) [] sample_docs) as Hset.
  { split; [apply sample_docs_ok|split; [constructor|done|done]|done]. }
  pose proof (create_index (λ _, None) [] sample_docs sample_spec entries Hset
    (NoDup_singleton _) eq_refl) as H.
  destruct (create sample_spec (decoded entries) []) as [[[|]|e] s'] eqn:E;
    [|vm_compute in E; discriminate..].
  exists s'. split; [reflexivity|]. apply H.
Defined.
