(* ===== verification/Planner.v ===== *)
(** * Query plans

    packages/storage/src/indexing/planner.ts: the choice between a scan and an
    index lookup, and the documents that a lookup leaves to look at. *)

From S2P Require Import Prelude Errors JsNumber JsString JsValue CustomId Filter FieldIndex IndexSpec.
Import FieldIndex.FieldIndex.

Module Planner.
Inductive IndexAccess :=
  | AccessEqual (values : list DocumentValue)
  | AccessRange (valueClass : ValueClass) (lower upper : option IndexBound).

Inductive QueryPlan :=
  | COLLSCAN (estimated : number)
  | IDLOOKUP (keys : list jsstring) (estimated : number)
  | IXSCAN (index : FieldIndex) (access : IndexAccess) (viaMembership : bool) (estimated : number).

Definition estimated (plan : QueryPlan) : number :=
  match plan with
  | COLLSCAN estimated | IDLOOKUP _ estimated | IXSCAN _ _ _ estimated => estimated
  end.

Inductive Constraint :=
  | ConstraintEqual (value : DocumentValue)
  | ConstraintIn (values : list DocumentValue)
  | ConstraintLower (value : DocumentValue) (inclusive : bool)
  | ConstraintUpper (value : DocumentValue) (inclusive : bool).

Abbreviation Constraints := (list (jsstring * list Constraint)).

(** ** Constraints *)

(** The [switch] on one operator of a field. *)
Definition operator_constraint (operator : jsstring) (operand : DocumentValue) : list Constraint :=
  if decide (operator = js "$eq") then [ConstraintEqual operand]
  else if decide (operator = js "$in") then
    match operand with VArray values => [ConstraintIn values] | _ => [] end
  else if decide (operator = js "$gt") then [ConstraintLower operand false]
  else if decide (operator = js "$gte") then [ConstraintLower operand true]
  else if decide (operator = js "$lt") then [ConstraintUpper operand false]
  else if decide (operator = js "$lte") then [ConstraintUpper operand true]
  else [].

(** The constraints that the condition on a field adds to its list. *)
Definition field_constraints (value : DocumentValue) : list Constraint :=
  if negb (Filter.isOperatorDocument value) then [ConstraintEqual value]
  else
    match value with
    | VDoc operators => flat_map (λ kv, operator_constraint kv.1 kv.2) operators
    | _ => []
    end.

Fixpoint collect (filter : DocumentValue) (out : Constraints) : Constraints :=
  match filter with
  | VDoc entries =>
      fold_left (λ out (kv : jsstring * DocumentValue), let (field, value) := kv in
        if decide (field = js "$and") then
          match value with
          | VArray clauses =>
              fold_left (λ out clause,
                if isPlainDocument clause then collect clause out else out) clauses out
          | _ => out
          end
        else if starts_dollar field then out
        else omap_set out field (default [] (omap_get out field) ++ field_constraints value))
        entries out
  | _ => out
  end.

(** ** Plans by _id *)
Definition id_keys (constraint : Constraint) : option (list jsstring) :=
  match constraint with
  | ConstraintEqual (VId id) => Some [CustomId.toHexString id]
  | ConstraintEqual _ => Some []
  | ConstraintIn values =>
      Some (fold_left oset_add
        (omap (λ value, match value with VId id => Some (CustomId.toHexString id) | _ => None end)
          values) [])
  | _ => None
  end.

Definition planId (constraints : option (list Constraint)) : option QueryPlan :=
  match constraints with
  | None => None
  | Some constraints =>
      let best := fold_left (λ best constraint,
          match id_keys constraint with
          | None => best
          | Some keys =>
              match best with
              | None => Some keys
              | Some b => if len keys <? len b then Some keys else best
              end
          end) constraints None in
      match best with
      | None => None
      | Some keys => Some (IDLOOKUP keys (number_of_Z (len keys)))
      end
  end.

(** ** Plans by index *)
Inductive Side := Lower | Upper.

Definition tighter (current : option IndexBound) (next : IndexBound) (side : Side) : IndexBound :=
  match current with
  | None => next
  | Some current =>
      match compareSameClass (bound_value next) (bound_value current) with
      | None => current
      | Some comparison =>
          if comparison =? 0 then (if inclusive next then current else next)
          else
            let nextIsTighter :=
              match side with Lower => 0 <? comparison | Upper => comparison <? 0 end in
            if nextIsTighter then next else current
      end
  end.

(** The loop of [planRange], on the class and the bounds so far; [None] is its
    early [return undefined]. *)
Fixpoint range_loop (constraints : list Constraint) (valueClass : option ValueClass)
    (lower upper : option IndexBound)
    : option (option ValueClass * option IndexBound * option IndexBound) :=
  match constraints with
  | [] => Some (valueClass, lower, upper)
  | constraint :: constraints =>
      match constraint with
      | ConstraintLower value inclusive | ConstraintUpper value inclusive =>
          match valueClassOf value with
          | None => None
          | Some operandClass =>
              if (match valueClass with
                  | Some valueClass => negb (bool_decide (valueClass = operandClass))
                  | None => false
                  end)
              then None
              else
                let bound := {| bound_value := value; inclusive := inclusive |} in
                match constraint with
                | ConstraintLower _ _ =>
                    range_loop constraints (Some operandClass)
                      (Some (tighter lower bound Lower)) upper
                | _ =>
                    range_loop constraints (Some operandClass)
                      lower (Some (tighter upper bound Upper))
                end
          end
      | _ => range_loop constraints valueClass lower upper
      end
  end.

Definition planRange (index : FieldIndex) (constraints : list Constraint) : option QueryPlan :=
  match range_loop constraints None None None with
  | None | Some (None, _, _) => None
  | Some (Some valueClass, lower, upper) =>
      Some (IXSCAN index (AccessRange valueClass lower upper) false
        (estimateRange index valueClass lower upper))
  end.

(** The values of an [$in] without repetitions of canonical bytes. *)
Definition distinct_values (values : list DocumentValue) : result (list DocumentValue) :=
  distinct ← foldM (λ value distinct, key ← canonicalKey value; Ok (omap_set distinct key value))
    values [];
  Ok (map snd distinct).

Definition constraint_plan (index : FieldIndex) (constraint : Constraint)
    : result (list QueryPlan) :=
  match constraint with
  | ConstraintEqual value =>
      n ← estimateEqual index value;
      Ok [IXSCAN index (AccessEqual [value]) false (number_of_Z n)]
  | ConstraintIn values =>
      if hasArrayValues index then Ok []
      else
        values ← distinct_values values;
        total ← foldM (λ value total, n ← estimateEqual index value;
                         Ok (number_add total (number_of_Z n))) values (number_of_Z 0);
        Ok [IXSCAN index (AccessEqual values) true total]
  | _ => Ok []
  end.

Definition planIndex (index : FieldIndex) (constraints : list Constraint)
    : result (list QueryPlan) :=
  plans ← mapM (constraint_plan index) constraints;
  Ok (concat plans ++ (match planRange index constraints with Some range => [range] | None => [] end)).

(** The test that makes a candidate the best plan so far. *)
Definition better (candidate best : QueryPlan) : bool :=
  SFltb (estimated candidate) (estimated best) ||
  (SFeqb (estimated candidate) (estimated best) &&
   match best, candidate with
   | IXSCAN _ (AccessRange _ _ _) _ _, IXSCAN _ (AccessEqual _) _ _ => true
   | _, _ => false
   end).

Definition planQuery (filter : Document) (indexes : list FieldIndex) (totalDocuments : Z)
    : result QueryPlan :=
  let scan := COLLSCAN (number_of_Z totalDocuments) in
  if totalDocuments =? 0 then Ok scan
  else
    let constraints := collect (VDoc filter) [] in
    match planId (omap_get constraints (js "_id")) with
    | Some idPlan => Ok idPlan
    | None =>
        foldM (λ index best,
          match omap_get constraints (Spec.field (spec index)) with
          | None => Ok best
          | Some fieldConstraints =>
              candidates ← planIndex index fieldConstraints;
              Ok (fold_left (λ best candidate, if better candidate best then candidate else best)
                    candidates best)
          end) indexes scan
    end.

Definition candidateKeys (plan : QueryPlan) : result (list jsstring) :=
  match plan with
  | IDLOOKUP keys _ => Ok (fold_left oset_add keys [])
  | COLLSCAN _ => Throw JsError
  | IXSCAN index (AccessRange valueClass lower upper) _ _ =>
      Ok (lookupRange index valueClass lower upper)
  | IXSCAN index (AccessEqual values) _ _ =>
      foldM (λ value result,
        keys ← lookupEqual index value;
        Ok (fold_left oset_add (default [] keys) result)) values []
  end.
End Planner.
