(* ===== verification/PlannerSpec.v ===== *)
(** * Query plans: soundness

    Whatever plan is chosen, every document that matches the filter is among the
    documents the plan looks at, so that applying the filter to those gives the
    result of a scan. *)

From stdpp Require Import gmap.
From S2P Require Import Prelude Errors JsNumber JsString JsValue Binary CustomId Codec Roundtrip Filter FilterSpec Sort FieldIndex IndexSpec IndexLemmas FieldIndexSpec IndexSet IndexSetSpec Planner.
Import FieldIndex.FieldIndex Planner.Planner.

(** ** Constraints *)

(** What a constraint says of the field of a document. *)
Definition constraint_holds (c : Constraint) (field : option DocumentValue) : Prop :=
  match c with
  | ConstraintEqual v => equals_value field v
  | ConstraintIn vs => member_of field vs
  | ConstraintLower v incl => compares (λ z, if incl : bool then 0 ≤ z else 0 < z) field v
  | ConstraintUpper v incl => compares (λ z, if incl : bool then z ≤ 0 else z < 0) field v
  end.

Definition constraint_ok (c : Constraint) : Prop :=
  match c with
  | ConstraintEqual v | ConstraintLower v _ | ConstraintUpper v _ => encodable v
  | ConstraintIn vs => Forall encodable vs
  end.

Lemma operator_constraints_hold operators field :
  encodable (VDoc operators) → operators_hold (VDoc operators) field →
  Forall (λ c, constraint_ok c ∧ constraint_holds c field)
    (flat_map (λ kv, operator_constraint kv.1 kv.2) operators).
Proof.
  intros Henc H. cbn [operators_hold] in H.
  assert (∀ k v, (k, v) ∈ operators → encodable v) as Hv by (intros; by eapply encodable_field).
  clear Henc. induction operators as [|[name operand] operators IH]; [constructor|].
  destruct H as [H Hs]. cbn [flat_map fst snd]. apply Forall_app_2.
  2:{ apply IH; [done|]. intros k v Hin. apply (Hv k). by right. }
  specialize (Hv name operand (list_elem_of_here _ _)). unfold operator_constraint.
  clear IH Hs. repeat case_decide; subst; try discriminate; try constructor; try constructor; try done.
  all: try (destruct operand as [| | | | | | | |vs|]; constructor; [|constructor]).
  split; [|exact H]. apply Forall_forall. intros v Hin. by eapply encodable_elem.
Qed.

Lemma field_constraints_hold value field :
  encodable value → field_holds value field →
  Forall (λ c, constraint_ok c ∧ constraint_holds c field) (field_constraints value).
Proof.
  intros Hv H. unfold field_constraints, field_holds in *.
  destruct (Filter.isOperatorDocument value) eqn:E; cbn [negb].
  - destruct value; try done. by apply operator_constraints_hold.
  - by constructor.
Qed.

(** Every constraint collected satisfies [R]. *)
Definition collected (R : jsstring → Constraint → Prop) (cs : Constraints) : Prop :=
  ∀ field l, omap_get cs field = Some l → Forall (R field) l.

Lemma collected_nil R : collected R [].
Proof. by intros field l [=]. Qed.

Lemma collected_add R out field l :
  collected R out → Forall (R field) l →
  collected R (omap_set out field (default [] (omap_get out field) ++ l)).
Proof.
  intros Hout Hl field' l'. destruct (decide (field = field')) as [<-|Hne].
  - rewrite omap_get_set. intros [= <-]. apply Forall_app_2; [|done].
    destruct (omap_get out field) eqn:E; [by apply Hout|constructor].
  - rewrite omap_get_set_ne by done. apply Hout.
Qed.

(** [H] is a property of filters that their clauses inherit. *)
Section Collect.
Context (R : jsstring → Constraint → Prop) (H : DocumentValue → Prop).
Context (Hand : ∀ entries clauses c, H (VDoc entries) → (js "$and", VArray clauses) ∈ entries →
  c ∈ clauses → H c).
Context (Hfield : ∀ entries key value, H (VDoc entries) → (key, value) ∈ entries →
  starts_dollar key = false → Forall (R key) (field_constraints value)).

Lemma collect_collected filter out : H filter → collected R out → collected R (collect filter out).
Proof.
  revert out. induction filter as [v Hv|entries _ IH] using clause_ind; intros out HH Hout.
  { destruct v; try done. by destruct (Hv fields). }
  cbn [collect]. specialize (Hand entries). specialize (Hfield entries).
  assert (∀ clauses c, (js "$and", VArray clauses) ∈ entries → c ∈ clauses → H c) as Hand' by eauto.
  assert (∀ key value, (key, value) ∈ entries → starts_dollar key = false →
    Forall (R key) (field_constraints value)) as Hfield' by eauto.
  clear HH Hand Hfield. revert out Hout.
  induction entries as [|[key value] entries IHe]; intros out Hout; [done|].
  cbn [fold_left]. apply IHe.
  - intros k l Hin. apply (IH k l). by right.
  - intros cl c Hin. apply (Hand' cl). by right.
  - intros k v Hin. apply Hfield'. by right.
  - clear IHe. case_decide as Hk.
    + subst key. destruct value as [| | | | | | | |clauses|]; try done.
      specialize (IH _ _ (list_elem_of_here _ _)).
      assert (∀ c, c ∈ clauses → H c) as Hc by (intros c; apply Hand'; left).
      clear Hand' Hfield'. revert out Hout. induction clauses as [|c clauses IHc]; intros out Hout; [done|].
      apply Forall_cons in IH as [IH1 IHs]. cbn [fold_left].
      apply IHc; [done|intros c' Hin; apply Hc; by right|].
      destruct (isPlainDocument c); [|done]. apply IH1; [apply Hc; left|done].
    + destruct (starts_dollar key) eqn:Hd; [done|]. apply collected_add; [done|].
      apply Hfield'; [left|done].
Qed.
End Collect.

Lemma all_entries_in P (fs : Document) k v : all_entries P fs → (k, v) ∈ fs → P k v.
Proof.
  induction fs as [|[k' v'] fs IH]; [by intros _ []%not_elem_of_nil|].
  intros [Hp Hs] [[= -> ->]|Hin]%elem_of_cons; eauto.
Qed.

Lemma all_of_in P l v : all_of P l → v ∈ l → P v.
Proof.
  induction l as [|w l IH]; [by intros _ []%not_elem_of_nil|].
  intros [Hp Hs] [->|Hin]%elem_of_cons; eauto.
Qed.

Lemma collect_holds d filter :
  encodable filter → filter_holds filter d →
  collected (λ field c, constraint_ok c ∧
    constraint_holds c (Filter.resolveField d (split_dot field))) (collect filter []).
Proof.
  intros He Hf. apply (collect_collected _ (λ filter, encodable filter ∧ filter_holds filter d));
    [| |done|apply collected_nil].
  - intros entries clauses c [Henc H] Hin Hc. cbn [filter_holds] in H.
    apply (all_entries_in _ _ _ _ H) in Hin as Hx. cbv beta in Hx.
    change (starts_dollar (js "$and")) with true in Hx. cbv iota in Hx.
    rewrite decide_True in Hx by done. split; [|exact (all_of_in _ _ _ Hx Hc)]. eapply encodable_elem; [|done]. by eapply encodable_field.
  - intros entries key value [Henc H] Hin Hd. cbn [filter_holds] in H.
    apply (all_entries_in _ _ _ _ H) in Hin as Hx. cbn beta in Hx. rewrite Hd in Hx.
    apply field_constraints_hold; [|done]. by eapply encodable_field.
Qed.

(** The values of the constraints are parts of the filter. *)
Lemma field_constraints_ok value : encodable value → Forall constraint_ok (field_constraints value).
Proof.
  intros Hv. unfold field_constraints. destruct (negb _); [by constructor|].
  destruct value; try constructor. apply Forall_forall. intros c Hc.
  apply list_elem_of_In, in_flat_map in Hc as ([k v] & Hin & Hc). apply list_elem_of_In in Hin, Hc.
  pose proof (encodable_field _ _ _ Hv Hin) as He. cbn [fst snd] in Hc. unfold operator_constraint in Hc.
  repeat case_decide; repeat case_match; try (by apply not_elem_of_nil in Hc);
    apply list_elem_of_singleton in Hc as ->; try done.
  subst. apply Forall_forall. intros w Hw. by eapply encodable_elem.
Qed.

Lemma collect_ok filter :
  encodable filter → collected (λ _, constraint_ok) (collect filter []).
Proof.
  intros He. apply (collect_collected _ encodable); [| |done|apply collected_nil].
  - intros entries clauses c Henc Hin Hc. eapply encodable_elem; [|done]. by eapply encodable_field.
  - intros entries key value Henc Hin _. apply field_constraints_ok. by eapply encodable_field.
Qed.

(** ** Comparisons *)
Lemma compareValues_class x e r c :
  Filter.compareValues x e = Some r → valueClassOf e = Some c →
  valueClassOf x = Some c ∧ r = value_cmp x e.
Proof.
  intros Hr He. assert (valueClassOf x = Some c) as Hx.
  { unfold valueClassOf in *. destruct e, x; simpl in *; try discriminate; try done.
    - destruct (isFinite n0), (isFinite n); simpl in *; congruence.
    - destruct ms, ms0; simpl in *; congruence. }
  split; [done|]. pose proof (compareSameClass_cmp _ _ _ Hx He) as H.
  unfold compareSameClass in H. congruence.
Qed.

(** A plan looks at a document. *)
Definition plan_covers (plan : QueryPlan) (k : jsstring) : Prop :=
  match plan with
  | COLLSCAN _ => True
  | _ => ∃ keys, candidateKeys plan = Ok keys ∧ k ∈ keys
  end.

(** ** Plans by _id *)
Lemma id_keys_hold c id keys :
  constraint_holds c (Some (VId id)) → id_keys c = Some keys → CustomId.toHexString id ∈ keys.
Proof.
  assert (∀ v, VId id ≡ v → v = VId id) as Hid.
  { intros v E. unfold equiv, value_equiv in E. by destruct v. }
  destruct c as [v|vs| |]; cbn; try done.
  - intros (x & [= <-] & ->%Hid) [= <-]. left.
  - intros (x & [= <-] & H) [= <-]. apply fold_oset_add. right.
    destruct H as [(c & Hc & ->%Hid)|(l & e & c & [=] & _)].
    apply list_elem_of_omap. by exists (VId id).
Qed.

Lemma planId_covers cs id plan :
  Forall (λ c, constraint_ok c ∧ constraint_holds c (Some (VId id))) cs →
  planId (Some cs) = Some plan → plan_covers plan (CustomId.toHexString id).
Proof.
  intros Hcs. unfold planId.
  assert (∀ best, (∀ keys, best = Some keys → CustomId.toHexString id ∈ keys) →
    ∀ keys, fold_left (λ best constraint,
        match id_keys constraint with
        | None => best
        | Some keys =>
            match best with
            | None => Some keys
            | Some b => if len keys <? len b then Some keys else best
            end
        end) cs best = Some keys → CustomId.toHexString id ∈ keys) as Hfold.
  { induction Hcs as [|c cs [_ Hc] _ IH]; intros best Hbest keys; [apply Hbest|].
    cbn [fold_left]. apply IH. intros keys'. destruct (id_keys c) as [ks|] eqn:E; [|apply Hbest].
    pose proof (id_keys_hold _ _ _ Hc E). destruct best as [b|]; [|by intros [= <-]].
    destruct (_ <? _); [by intros [= <-]|apply Hbest]. }
  destruct (fold_left _ cs None) as [keys|] eqn:E; [|done]. intros [= <-].
  eexists. split; [reflexivity|]. apply fold_oset_add. right. by apply (Hfold None).
Qed.

(** ** Plans by index *)
Section Index.
Context (ix : FieldIndex) (M : fields) (Hix : index_inv ix M) (HM : fields_ok M).
Context (Hu : unsorted ix = []) (Hsize : Z.of_nat (size M) ≤ 2 ^ 31).
Context (k : jsstring) (field : option DocumentValue) (Hk : M !! k = Some field).

Lemma candidates_equal vs b est :
  Forall encodable vs →
  ∃ keys, candidateKeys (IXSCAN ix (AccessEqual vs) b est) = Ok keys ∧
    ∀ dk, dk ∈ keys ↔ ∃ v w, v ∈ vs ∧ M !! dk = Some (Some w) ∧ w ≡ v.
Proof.
  intros Hvs. cbn [candidateKeys].
  cut (∀ acc, ∃ keys, foldM (λ value result,
      keys ← lookupEqual ix value;
      Ok (fold_left oset_add (default [] keys) result)) vs acc = Ok keys ∧
    ∀ dk, dk ∈ keys ↔ dk ∈ acc ∨ ∃ v w, v ∈ vs ∧ M !! dk = Some (Some w) ∧ w ≡ v).
  { intros H. destruct (H []) as (keys & -> & Hkeys). exists keys. split; [done|].
    intros dk. rewrite Hkeys. split; [intros [[]%not_elem_of_nil|]; done|by right]. }
  induction Hvs as [|v vs Hv _ IH]; intros acc.
  - exists acc. split; [done|]. intros dk. split; [by left|].
    intros [|(v & w & []%not_elem_of_nil & _)]; done.
  - cbn [foldM]. destruct (lookupEqual_inv ix M v Hix HM Hv) as (r & -> & Hr).
    cbn [mbind res_bind]. destruct (IH (fold_left oset_add (default [] r) acc)) as (keys & -> & Hkeys).
    exists keys. split; [done|]. intros dk. rewrite Hkeys, fold_oset_add, Hr. split.
    + intros [[?|(w & Hw)]|(v' & w & Hin & Hw)]; [by left|right..].
      * exists v, w. split; [left|done].
      * exists v', w. split; [by right|done].
    + intros [?|(v' & w & [->|Hin]%elem_of_cons & Hw)]; [by left; left| |].
      * left. right. by exists w.
      * right. eauto.
Qed.

Lemma estimateEqual_Ok v : encodable v → ∃ n, estimateEqual ix v = Ok n.
Proof. intros Hv. unfold estimateEqual. rewrite canonicalKey_enc by done. by eexists. Qed.

Lemma distinct_values_Ok vs :
  Forall encodable vs →
  ∃ vs', distinct_values vs = Ok vs' ∧ Forall encodable vs' ∧
    ∀ v, v ∈ vs → ∃ v', v' ∈ vs' ∧ v' ≡ v.
Proof.
  intros Hvs. unfold distinct_values.
  cut (∀ acc : list (bytes * DocumentValue), Forall (λ kv, encodable kv.2 ∧ enc kv.2 = kv.1) acc →
    ∃ acc', foldM (λ value distinct, key ← canonicalKey value; Ok (omap_set distinct key value))
        vs acc = Ok acc' ∧ Forall (λ kv, encodable kv.2 ∧ enc kv.2 = kv.1) acc' ∧
      (∀ key, is_Some (omap_get acc key) → is_Some (omap_get acc' key)) ∧
      ∀ v, v ∈ vs → is_Some (omap_get acc' (enc v))).
  { intros H. destruct (H []) as (acc' & -> & Hok & _ & Hin); [constructor|].
    cbn [mbind res_bind]. eexists. split; [reflexivity|]. split.
    - apply Forall_map. eapply Forall_impl; [exact Hok|]. by intros kv [].
    - intros v Hv. destruct (Hin v Hv) as [v' Hv']. apply omap_get_Some_in in Hv'.
      rewrite Forall_forall in Hok. rewrite Forall_forall in Hvs. destruct (Hok _ Hv') as [He E]. cbn in He, E.
      exists v'. split; [by apply (list_elem_of_fmap_2 snd) in Hv'|].
      apply enc_eq_equiv; [done|by apply Hvs|done]. }
  induction Hvs as [|v vs Hv _ IH]; intros acc Hacc.
  - exists acc. split; [done|]. split; [done|]. split; [done|]. by intros v []%not_elem_of_nil.
  - cbn [foldM]. rewrite canonicalKey_enc by done. cbn [mbind res_bind].
    assert (Forall (λ kv, encodable kv.2 ∧ enc kv.2 = kv.1) (omap_set acc (enc v) v)) as Hacc'.
    { clear -Hacc Hv. induction Hacc as [|[k' v'] acc Hk Hacc IH]; cbn; [by constructor|].
      case_decide; constructor; try done. }
    destruct (IH _ Hacc') as (acc' & -> & Hok & Hmono & Hin). exists acc'.
    split; [done|]. split; [done|].
    assert (∀ key, is_Some (omap_get acc key) → is_Some (omap_get (omap_set acc (enc v) v) key)) as Hset.
    { intros key Hkey. destruct (decide (enc v = key)) as [<-|Hne].
      - rewrite omap_get_set. by eexists.
      - by rewrite omap_get_set_ne. }
    split; [intros key Hkey; by apply Hmono, Hset|].
    intros v' [->|Hv']%elem_of_cons; [|by apply Hin].
    apply Hmono. rewrite omap_get_set. by eexists.
Qed.

Lemma no_arrays w : hasArrayValues ix = false → field = Some w → is_array w = false.
Proof.
  intros Ha ->. destruct Hix as [_ _ _ _ Harr _]. unfold hasArrayValues in Ha.
  apply Z.ltb_ge in Ha. rewrite Harr in Ha. destruct (is_array w) eqn:E; [|done]. exfalso.
  rewrite <- (insert_delete_id M k (Some w) Hk) in Ha.
  rewrite count_insert in Ha by apply lookup_delete_eq. cbn [is_array_field] in Ha.
  rewrite E in Ha. unfold count_where in Ha. lia.
Qed.

Lemma constraint_plan_covers c :
  constraint_ok c → constraint_holds c field →
  ∃ plans, constraint_plan ix c = Ok plans ∧ Forall (λ p, plan_covers p k) plans.
Proof.
  intros Hok Hc. destruct c as [v|vs|v i|v i]; cbn [constraint_plan];
    [| |exists []; split; [done|constructor]..].
  - cbn in Hok. destruct (estimateEqual_Ok v Hok) as [n ->]. cbn [mbind res_bind].
    eexists. split; [reflexivity|]. constructor; [|constructor].
    destruct (candidates_equal [v] false (number_of_Z n)) as (keys & E & Hkeys); [by constructor|].
    exists keys. split; [exact E|]. apply Hkeys. destruct Hc as (x & -> & Ex).
    exists v, x. split; [left|done].
  - destruct (hasArrayValues ix) eqn:Ha; [exists []; split; [done|constructor]|].
    destruct (distinct_values_Ok vs Hok) as (vs' & -> & Hvs' & Hin). cbn [mbind res_bind].
    assert (∀ total, ∃ t, foldM (λ value total, n ← estimateEqual ix value;
        Ok (number_add total (number_of_Z n))) vs' total = Ok t) as Htot.
    { clear -Hvs'. induction Hvs' as [|v vs Hv _ IH]; intros total; [by eexists|].
      cbn [foldM]. destruct (estimateEqual_Ok v Hv) as [n ->]. apply IH. }
    destruct (Htot (number_of_Z 0)) as [t ->]. cbn [mbind res_bind].
    eexists. split; [reflexivity|]. constructor; [|constructor].
    destruct (candidates_equal vs' true t Hvs') as (keys & E & Hkeys). exists keys.
    split; [exact E|]. apply Hkeys. destruct Hc as (x & Hx & [(c & Hc & Ec)|(l & e & c & -> & _)]).
    + destruct (Hin c Hc) as (v' & Hv' & Ev'). exists v', x. split; [done|].
      split; [by rewrite Hk, Hx|]. etrans; [exact Ec|by symmetry].
    + by pose proof (no_arrays _ Ha Hx).
Qed.

(** The class and the bounds collected so far. *)
Definition range_holds (valueClass : option ValueClass) (lower upper : option IndexBound) : Prop :=
  match valueClass with
  | None => lower = None ∧ upper = None
  | Some c => bound_in c lower ∧ bound_in c upper ∧
      ∃ w, field = Some w ∧ valueClassOf w = Some c ∧ above lower w ∧ below upper w
  end.

Lemma tighter_one current next side :
  tighter current next side = next ∨ current = Some (tighter current next side).
Proof. unfold tighter. destruct current; [|by left]. repeat case_match; auto. Qed.

Lemma range_loop_holds cs vc lower upper vc' lower' upper' :
  Forall (λ c, constraint_holds c field) cs → range_holds vc lower upper →
  range_loop cs vc lower upper = Some (vc', lower', upper') → range_holds vc' lower' upper'.
Proof.
  intros Hcs. revert vc lower upper. induction Hcs as [|c cs Hc _ IH]; intros vc lower upper Hr E.
  { by injection E as <- <- <-. }
  destruct c as [v|vs|v i|v i]; cbn [range_loop] in E; [by eapply IH..| |].
  all: destruct (valueClassOf v) as [c|] eqn:Hv; [|done].
  all: destruct Hc as (x & r & Hf & Hcmp & Htest);
    destruct (compareValues_class _ _ _ _ Hcmp Hv) as [Hx ->].
  all: assert (bound_in c lower ∧ bound_in c upper ∧ above lower x ∧ below upper x) as (H1 & H2 & H3 & H4)
    by (destruct vc as [c0|]; [|destruct Hr as [-> ->]; done];
        destruct Hr as (? & ? & w & Hf' & ? & ? & ?); assert (w = x) as -> by congruence;
        simplify_eq; done).
  all: assert (match vc with Some c0 => negb (bool_decide (c0 = c)) | None => false end = false) as Hneg
    by (destruct vc as [c0|]; [|done]; destruct Hr as (_ & _ & w & Hf' & Hw & _);
        assert (w = x) as -> by congruence; simplify_eq; by rewrite bool_decide_eq_true_2).
  all: rewrite Hneg in E; eapply IH; [|exact E].
  - destruct (tighter_one lower {| bound_value := v; inclusive := i |} Lower) as [-> | <-].
    + split; [exact Hv|]. split; [done|]. exists x. split; [done|]. split; [done|]. split; [exact Htest|done].
    + split; [done|]. split; [done|]. by exists x.
  - destruct (tighter_one upper {| bound_value := v; inclusive := i |} Upper) as [-> | <-].
    + split; [done|]. split; [exact Hv|]. exists x. split; [done|]. split; [done|]. split; [done|].
      exact Htest.
    + split; [done|]. split; [done|]. by exists x.
Qed.

Lemma planRange_covers cs plan :
  Forall (λ c, constraint_holds c field) cs → planRange ix cs = Some plan → plan_covers plan k.
Proof.
  intros Hcs. unfold planRange.
  destruct (range_loop cs None None None) as [[[[c|] lower] upper]|] eqn:E; try done.
  intros [= <-]. eexists. split; [reflexivity|].
  destruct (range_loop_holds cs None None None _ _ _ Hcs (conj eq_refl eq_refl) E)
    as (Hlo & Hup & w & -> & Hw & Ha & Hb).
  apply (lookupRange_inv ix M c); [done..|]. by exists w.
Qed.

Lemma planIndex_covers cs :
  Forall (λ c, constraint_ok c ∧ constraint_holds c field) cs →
  ∃ plans, planIndex ix cs = Ok plans ∧ Forall (λ p, plan_covers p k) plans.
Proof.
  intros Hcs. unfold planIndex.
  assert (∃ plans, mapM (constraint_plan ix) cs = Ok plans ∧
    Forall (Forall (λ p, plan_covers p k)) plans) as (plans & -> & Hplans).
  { induction Hcs as [|c cs [Hok Hc] _ IH]; [by exists []|]. cbn [mapM].
    destruct (constraint_plan_covers c Hok Hc) as (p & -> & Hp).
    destruct IH as (ps & -> & Hps). cbn [mbind res_bind]. eexists. split; [reflexivity|].
    by constructor. }
  cbn [mbind res_bind]. eexists. split; [reflexivity|]. apply Forall_app_2.
  - apply Forall_concat. done.
  - destruct (planRange ix cs) as [range|] eqn:E; [|constructor]. constructor; [|constructor].
    eapply planRange_covers; [|exact E]. eapply Forall_impl; [exact Hcs|]. by intros c [].
Qed.
End Index.

(** ** No plan throws *)
Definition plan_ok (plan : QueryPlan) : Prop :=
  match plan with IXSCAN _ (AccessEqual vs) _ _ => Forall encodable vs | _ => True end.

Lemma constraint_plan_ok ix c :
  constraint_ok c → ∃ plans, constraint_plan ix c = Ok plans ∧ Forall plan_ok plans.
Proof.
  intros Hok. destruct c as [v|vs|v i|v i]; cbn [constraint_plan];
    [| |exists []; split; [done|constructor]..].
  - destruct (estimateEqual_Ok ix v Hok) as [n ->]. cbn [mbind res_bind].
    eexists. split; [reflexivity|]. repeat constructor; apply Hok.
  - destruct (hasArrayValues ix); [exists []; split; [done|constructor]|].
    destruct (distinct_values_Ok vs Hok) as (vs' & -> & Hvs' & _). cbn [mbind res_bind].
    assert (∀ total, ∃ t, foldM (λ value total, n ← estimateEqual ix value;
        Ok (number_add total (number_of_Z n))) vs' total = Ok t) as Htot.
    { clear -Hvs'. induction Hvs' as [|v vs Hv _ IH]; intros total; [by eexists|].
      cbn [foldM]. destruct (estimateEqual_Ok ix v Hv) as [n ->]. apply IH. }
    destruct (Htot (number_of_Z 0)) as [t ->]. cbn [mbind res_bind].
    eexists. split; [reflexivity|]. by constructor.
Qed.

Lemma planIndex_ok ix cs :
  Forall constraint_ok cs → ∃ plans, planIndex ix cs = Ok plans ∧ Forall plan_ok plans.
Proof.
  intros Hcs. unfold planIndex.
  assert (∃ plans, mapM (constraint_plan ix) cs = Ok plans ∧ Forall (Forall plan_ok) plans)
    as (plans & -> & Hplans).
  { induction Hcs as [|c cs Hok _ IH]; [by exists []|]. cbn [mapM].
    destruct (constraint_plan_ok ix c Hok) as (p & -> & Hp). destruct IH as (ps & -> & Hps).
    cbn [mbind res_bind]. eexists. split; [reflexivity|]. by constructor. }
  cbn [mbind res_bind]. eexists. split; [reflexivity|]. apply Forall_app_2.
  - by apply Forall_concat.
  - unfold planRange. destruct (range_loop cs None None None) as [[[[c|] lo] up]|]; by constructor.
Qed.

Lemma candidateKeys_Ok plan :
  plan_ok plan →
  match plan with COLLSCAN _ => True | _ => ∃ keys, candidateKeys plan = Ok keys end.
Proof.
  destruct plan as [|keys e|ix [vs|c lo up] b e]; [done|by eexists| |by eexists].
  cbn [plan_ok candidateKeys]. intros Hvs.
  cut (∀ acc, ∃ keys, foldM (λ value result,
    keys ← lookupEqual ix value;
    Ok (fold_left oset_add (default [] keys) result)) vs acc = Ok keys); [by intros H; apply H|].
  induction Hvs as [|v vs Hv _ IH]; intros acc; [by eexists|]. cbn [foldM]. unfold lookupEqual.
  rewrite canonicalKey_enc by done. apply IH.
Qed.

(** The loop that chooses the best plan keeps any property of the candidates. *)
Lemma best_plan (Q : QueryPlan → Prop) constraints indexes best :
  (∀ ix cs, ix ∈ indexes → omap_get constraints (Spec.field (spec ix)) = Some cs →
     ∃ plans, planIndex ix cs = Ok plans ∧ Forall Q plans) →
  Q best →
  ∃ plan, foldM (λ index best,
      match omap_get constraints (Spec.field (spec index)) with
      | None => Ok best
      | Some fieldConstraints =>
          candidates ← planIndex index fieldConstraints;
          Ok (fold_left (λ best candidate, if better candidate best then candidate else best)
                candidates best)
      end) indexes best = Ok plan ∧ Q plan.
Proof.
  revert best. induction indexes as [|ix indexes IH]; intros best Hix Hb; [by eexists|].
  cbn [foldM].
  assert (∃ best', match omap_get constraints (Spec.field (spec ix)) with
      | None => Ok best
      | Some fieldConstraints =>
          candidates ← planIndex ix fieldConstraints;
          Ok (fold_left (λ best candidate, if better candidate best then candidate else best)
                candidates best)
      end = Ok best' ∧ Q best') as (best' & -> & Hb').
  { destruct (omap_get _ _) as [cs|] eqn:E; [|by eexists].
    destruct (Hix ix cs (list_elem_of_here _ _) E) as (plans & -> & Hplans). cbn [mbind res_bind].
    eexists. split; [reflexivity|]. clear -Hplans Hb. revert best Hb.
    induction Hplans as [|p plans Hp _ IH]; intros best Hb; [done|]. cbn [fold_left]. apply IH.
    by case_match. }
  cbn [mbind res_bind]. apply IH; [|done]. intros ix' cs Hin. apply Hix. by right.
Qed.

Lemma planQuery_Ok filter indexes total :
  encodable (VDoc filter) → ∃ plan, planQuery filter indexes total = Ok plan ∧ plan_ok plan.
Proof.
  intros He. unfold planQuery. destruct (total =? 0); [by eexists|]. cbv zeta.
  destruct (planId _) as [plan|] eqn:E.
  - eexists. split; [reflexivity|]. unfold planId in E. destruct (omap_get _ _); [|done].
    destruct (fold_left _ _ _); [|done]. by injection E as <-.
  - apply best_plan; [|done]. intros ix cs _ Hcs. apply planIndex_ok. by eapply (collect_ok _ He).
Qed.

(** The key of a stored document is its _id in hexadecimal. *)
Definition keyed (docs : documents) : Prop :=
  ∀ k d, docs !! k = Some d → ∃ id, obj_get d (js "_id") = Some (VId id) ∧ k = CustomId.toHexString id.

Definition consistent (docs : documents) (indexes : list FieldIndex) : Prop :=
  Forall (λ ix, unsorted ix = [] ∧ index_inv ix (fields_in (spec ix) docs)) indexes.

Lemma planQuery_covers filter indexes docs total k d plan :
  docs_ok docs → keyed docs → consistent docs indexes → encodable (VDoc filter) →
  docs !! k = Some d → filter_holds (VDoc filter) d →
  planQuery filter indexes total = Ok plan → plan_covers plan k.
Proof.
  intros Hok Hkey Hix He Hk Hf. unfold planQuery. destruct (total =? 0); [by intros [= <-]|].
  cbv zeta. pose proof (collect_holds d _ He Hf) as Hc.
  destruct (Hkey _ _ Hk) as (id & Hid & ->).
  destruct (planId _) as [idPlan|] eqn:E.
  - intros [= <-]. destruct (omap_get (collect (VDoc filter) []) (js "_id")) as [cs|] eqn:Ecs; [|done].
    apply (planId_covers cs); [|done]. specialize (Hc _ _ Ecs).
    assert (Filter.resolveField d (split_dot (js "_id")) = Some (VId id)) as Hr.
    { change (split_dot (js "_id")) with [js "_id"]. cbn [Filter.resolveField]. by rewrite Hid. }
    cbv beta in Hc. by rewrite Hr in Hc.
  - edestruct (best_plan (λ p, plan_covers p (CustomId.toHexString id))) as (p & -> & Hp);
      [|done|by intros [= <-]].
    intros ix cs Hin Ecs. unfold consistent in Hix. rewrite Forall_forall in Hix. destruct (Hix ix Hin) as [Hu Hi].
    destruct (fields_in_ok (spec ix) docs Hok) as [Hfo Hroom].
    eapply (planIndex_covers ix _ Hi Hfo Hu); [unfold room in Hroom; lia| |].
    + unfold fields_in. by rewrite lookup_fmap, Hk.
    + unfold field_of. by apply Hc.
Qed.

(** ** Bounds *)
Lemma tighter_exact c current next side w :
  bound_in c current → bound_in c (Some next) →
  match side with
  | Lower => above (Some (tighter current next side)) w ↔ above current w ∧ above (Some next) w
  | Upper => below (Some (tighter current next side)) w ↔ below current w ∧ below (Some next) w
  end.
Proof.
  intros Hc Hn. destruct current as [current|]; [|destruct side; cbn; tauto].
  cbn [bound_in] in Hc, Hn. unfold tighter.
  rewrite (compareSameClass_cmp _ _ c) by done.
  pose proof (cmp_flip value_cmp (bound_value current) (bound_value next)) as Hflip.
  pose proof (λ a b, cmp_le_trans value_cmp w a b) as Htr.
  pose proof (λ a b, cmp_le_trans value_cmp a b w) as Htr'.
  pose proof (λ a, cmp_flip value_cmp w a) as Hfw. pose proof (λ a, cmp_flip value_cmp a w) as Hfw'.
  pose proof (cmp_flip value_cmp (bound_value next) (bound_value current)) as Hflip'.
  pose proof (Htr (bound_value next) (bound_value current)).
  pose proof (Htr (bound_value current) (bound_value next)).
  pose proof (Htr' (bound_value next) (bound_value current)).
  pose proof (Htr' (bound_value current) (bound_value next)).
  pose proof (Hfw (bound_value current)). pose proof (Hfw (bound_value next)).
  pose proof (Hfw' (bound_value current)). pose proof (Hfw' (bound_value next)).
  pose proof (cmp_le_trans value_cmp (bound_value next) w (bound_value current)).
  pose proof (cmp_le_trans value_cmp (bound_value current) w (bound_value next)).
  clear Htr Htr' Hfw Hfw'.
  destruct (Z.eqb_spec (value_cmp (bound_value next) (bound_value current)) 0);
    destruct side, (inclusive next) eqn:En, (inclusive current) eqn:Ec;
    unfold above, below; rewrite ?En, ?Ec; try lia;
    try (destruct (Z.ltb_spec 0 (value_cmp (bound_value next) (bound_value current))); rewrite ?En, ?Ec; cbv iota; lia);
    try (destruct (Z.ltb_spec (value_cmp (bound_value next) (bound_value current)) 0); rewrite ?En, ?Ec; cbv iota; lia).
Qed.

(** * Theorems *)

(** C40: Planning a query on documents that the indexes agree with never throws,
    and the plan, whichever it is, looks at every document that matches the
    filter: an index lookup leaves out none. *)
Theorem plan_sound (filter : Document) (indexes : list FieldIndex) (docs : documents) (total : Z) :
  docs_ok docs → keyed docs → consistent docs indexes → encodable (VDoc filter) →
  ∃ plan, planQuery filter indexes total = Ok plan ∧
    match plan with COLLSCAN _ => True | _ => ∃ keys, candidateKeys plan = Ok keys end ∧
    ∀ k d, docs !! k = Some d → filter_holds (VDoc filter) d → plan_covers plan k.
Proof.
  intros Hok Hkey Hix He. destruct (planQuery_Ok filter indexes total He) as (plan & E & Hp).
  exists plan. split; [done|]. split; [by apply candidateKeys_Ok|].
  intros k d Hk Hf. by eapply planQuery_covers.
Qed.

Definition sample_id : bytes := repeat 7 16.
Definition sample_key : jsstring := CustomId.toHexString sample_id.
Definition sample_doc : Document := [(js "_id", VId sample_id); (js "n", VNumber (number_of_Z 7))].
Definition sample_query : Document := [(js "n", VDoc [(js "$gte", VNumber (number_of_Z 3))])].

Lemma sample_doc_encodable : encodable (VDoc sample_doc) ∧ encodable (VDoc sample_query).
Proof. repeat split; try reflexivity; vm_compute; discriminate. Qed.

Lemma sample_indexed :
  ∃ ix, add (new sample_spec) sample_key sample_doc false = Ok ix ∧
    consistent {[ sample_key := sample_doc ]} [ix].
Proof.
  destruct (add_inv (new sample_spec) ∅ sample_key sample_doc false) as (ix & E & Hs & Hu & Hi);
    [apply new_inv|reflexivity|reflexivity| |reflexivity|].
  - apply fields_ok_insert; [apply fields_ok_empty|]. intros v [= <-].
    apply (sample_encodable 7). reflexivity.
  - exists ix. split; [done|]. constructor; [|constructor]. split; [by apply Hu|].
    rewrite Hs. unfold fields_in. by rewrite map_fmap_singleton.
Qed.

Lemma plan_sound_witness :
  ∃ ix plan, planQuery sample_query [ix] 1 = Ok plan ∧ plan_covers plan sample_key.
Proof.
  destruct sample_indexed as (ix & _ & Hc). destruct sample_doc_encodable as [Hd Hq].
  destruct (plan_sound sample_query [ix] {[ sample_key := sample_doc ]} 1) as (plan & E & _ & H).
  - split; [by apply map_Forall_singleton|reflexivity].
  - intros k d [<- <-]%lookup_singleton_Some. by exists sample_id.
  - exact Hc.
  - exact Hq.
  - exists ix, plan. split; [exact E|]. apply (H sample_key sample_doc).
    + apply lookup_singleton_eq.
    + cbn. split; [|exact I]. unfold field_holds. cbn. split; [|exact I].
      eexists _, _. split; [reflexivity|]. split; [vm_compute; reflexivity|]. done.
Defined.

(** Two bounds on the same side of a range combine into the tighter one: a
    value is within it exactly when it is within both. *)
Lemma bounds_combine (c : ValueClass) (current next : IndexBound) (w : DocumentValue) :
  valueClassOf (bound_value current) = Some c → valueClassOf (bound_value next) = Some c →
  (above (Some (tighter (Some current) next Lower)) w ↔ above (Some current) w ∧ above (Some next) w) ∧
  (below (Some (tighter (Some current) next Upper)) w ↔ below (Some current) w ∧ below (Some next) w).
Proof.
  intros Hc Hn.
  split; [exact (tighter_exact c (Some current) next Lower w Hc Hn)
         |exact (tighter_exact c (Some current) next Upper w Hc Hn)].
Qed.

Lemma bounds_combine_witness :
  let b z i := {| bound_value := VBigInt z; inclusive := i |} in
  tighter (Some (b 3 true)) (b 3 false) Lower = b 3 false ∧
  (above (Some (b 3 false)) (VBigInt 3) ↔
    above (Some (b 3 true)) (VBigInt 3) ∧ above (Some (b 3 false)) (VBigInt 3)).
Proof.
  intros b. split; [vm_compute; reflexivity|].
  exact (proj1 (bounds_combine ClassBigint (b 3 true) (b 3 false) (VBigInt 3) eq_refl eq_refl)).
Defined.
