(* ===== verification/IndexValidation.v ===== *)
(** * Validating indexes

    [validate] rebuilds every index from the documents and compares. Indexes that
    agree with the documents have no problem to report. *)

From stdpp Require Import gmap.
From S2P Require Import Prelude Errors JsNumber JsString JsValue Binary Codec Roundtrip Filter FieldIndex IndexSpec IndexLemmas FieldIndexSpec IndexSet IndexSetSpec.
Import IndexSet.IndexSet FieldIndex.FieldIndex.

Lemma flat_map_nil {A B} (f : A → list B) l : (∀ x, x ∈ l → f x = []) → flat_map f l = [].
Proof.
  induction l as [|x l IH]; intros H; [done|]. cbn. rewrite H by left. apply IH.
  intros y Hy. apply H. by right.
Qed.

Lemma sort_strings_perm l l' : l ≡ₚ l' → sort_strings l = sort_strings l'.
Proof.
  intros H. apply sort_by_perm_eq; [apply _|done|]. intros x y _ _ E.
  apply lex_cmp_eq. by destruct (lex_cmp x y).
Qed.

(** *** Two indexes of the same fields have the same contents *)
Lemma values_inv_get m m' M k ks :
  values_inv m M → values_inv m' M → omap_get m k = Some ks →
  ∃ ks', omap_get m' k = Some ks' ∧ ks ≡ₚ ks'.
Proof.
  intros [_ H2 H3] [_ H2' H3'] E. destruct (H2 _ _ E) as [Hn Hne].
  assert (∀ dk, dk ∈ ks ↔ dk ∈ default [] (omap_get m' k)) as Hin.
  { intros dk. rewrite H3', <- H3, E. done. }
  destruct (omap_get m' k) as [ks'|] eqn:E'.
  - exists ks'. split; [done|]. apply NoDup_Permutation; [done|apply (H2' _ _ E')|exact Hin].
  - destruct ks as [|dk ks]; [done|]. specialize (Hin dk). cbn in Hin.
    exfalso. apply (not_elem_of_nil dk), Hin. left.
Qed.

Definition sorted_values (m : list (bytes * list jsstring)) : list (bytes * list jsstring) :=
  map (λ kv, (kv.1, sort_strings kv.2)) m.

Lemma sorted_values_keys m : omap_keys (sorted_values m) = omap_keys m.
Proof. unfold omap_keys, sorted_values. by rewrite map_map. Qed.

Lemma sorted_values_in m m' M kv :
  values_inv m M → values_inv m' M → kv ∈ sorted_values m → kv ∈ sorted_values m'.
Proof.
  intros Hm Hm' Hin. apply list_elem_of_fmap in Hin as ([k ks] & -> & Hin). cbn [fst snd].
  apply omap_get_in in Hin; [|apply Hm].
  destruct (values_inv_get m m' M k ks Hm Hm' Hin) as (ks' & E' & Hp).
  rewrite (sort_strings_perm _ _ Hp). apply omap_get_Some_in in E'.
  by apply (list_elem_of_fmap_2 (λ kv : bytes * list jsstring, (kv.1, sort_strings kv.2))) in E'.
Qed.

Lemma values_unique m m' M :
  values_inv m M → values_inv m' M →
  sort_by (λ l r, sign_of (lex_cmp l.1 r.1)) (sorted_values m) =
  sort_by (λ l r, sign_of (lex_cmp l.1 r.1)) (sorted_values m').
Proof.
  intros Hm Hm'.
  assert (∀ m, values_inv m M → NoDup (omap_keys (sorted_values m))) as Hnd
    by (intros ? []; by rewrite sorted_values_keys).
  apply sort_by_perm_eq.
  - apply (cmp_order_key fst (λ a b, sign_of (lex_cmp a b))), _.
  - apply NoDup_Permutation; [by eapply NoDup_fmap_1, Hnd..|].
    intros kv. split; [by eapply sorted_values_in|by eapply sorted_values_in].
  - intros [k s] [k' s'] Hx Hy E. cbn [fst] in E.
    assert (k = k') as <- by (apply lex_cmp_eq; by destruct (lex_cmp k k')).
    apply omap_get_in in Hx; [|by apply Hnd]. apply omap_get_in in Hy; [|by apply Hnd]. congruence.
Qed.

Lemma missing_unique ix ix' M :
  index_inv ix M → index_inv ix' M → spec ix = spec ix' →
  contents_missing (contents ix) = contents_missing (contents ix').
Proof.
  intros Hi Hi' E. cbn. apply sort_strings_perm. destruct (index_missing _ _ Hi) as [Hn H].
  destruct (index_missing _ _ Hi') as [Hn' H']. apply NoDup_Permutation; [done|done|].
  intros dk. by rewrite H, H', E.
Qed.

(** *** No problems of order *)
Lemma entry_problems_nil ix c previous es :
  (∀ e, e ∈ es → omap_has (byValue ix) (key e) = true ∧ valueClassOf (value e) = Some c) →
  sorted es → (∀ p e, previous = Some p → e ∈ es → valueClassOf (value p) = Some c ∧ entry_le p e) →
  entry_problems ix c previous es = [].
Proof.
  revert previous. induction es as [|e es IH]; intros previous Hes Hs Hp; [done|].
  cbn [entry_problems]. destruct (Hes e (list_elem_of_here _ _)) as [-> Hc].
  apply StronglySorted_inv in Hs as [Hs Hle]. rewrite Forall_forall in Hle. cbn [app].
  assert (entry_problems ix c (Some e) es = []) as ->.
  { apply IH; [|done|].
    - intros e' He'. apply Hes. by right.
    - intros p e' [= <-] He'. split; [done|by apply Hle]. }
  rewrite app_nil_r. destruct previous as [p|]; [|done].
  destruct (Hp p e eq_refl (list_elem_of_here _ _)) as [Hpc Hpe].
  rewrite (compareSameClass_cmp _ _ c) by done. unfold entry_le in Hpe.
  destruct (Z.ltb_spec 0 (value_cmp (value p) (value e))); [lia|done].
Qed.

Lemma no_ordered_problems ix M :
  index_inv ix M → unsorted ix = [] → orderedProblems (contents ix) = [].
Proof.
  intros [Hv _ He [Hn Hs] _ _] Hu. cbn. rewrite (flat_map_nil (λ ce, _)).
  2: { intros [c es] Hin. cbn [fst snd]. apply omap_get_in in Hin; [|done].
    assert (entries_of ix c = es) as E by (unfold entries_of; by rewrite Hin).
    destruct (He c) as [[_ Hok] Hk]. specialize (Hs c). rewrite Hu in Hs.
    specialize (Hs (not_elem_of_nil c)). rewrite E in Hok, Hk, Hs. rewrite Forall_forall in Hok.
    apply entry_problems_nil; [|done|done]. intros e Hin'. split; [|by apply Hok].
    destruct (class_holds_holds M c (key e)) as [dk Hh].
    { apply Hk. by apply list_elem_of_fmap_2. }
    apply (values_in _ _ Hv) in Hh. unfold omap_has. destruct (omap_get (byValue ix) (key e)); [done|].
    by apply not_elem_of_nil in Hh. }
  cbn [app]. apply flat_map_nil. intros [k ks] Hin. cbn [snd]. apply omap_get_in in Hin; [|apply Hv].
  by destruct (values_sets _ _ Hv _ _ Hin) as [_ Hne], ks.
Qed.

(** *** Uniqueness *)
Lemma NoDup_le_one {A} (l : list A) : NoDup l → (∀ x y, x ∈ l → y ∈ l → x = y) → len l ≤ 1.
Proof.
  intros Hn H. destruct l as [|x [|y l]]; unfold len; cbn [length]; try lia.
  apply NoDup_cons in Hn as [Hx _]. destruct Hx. rewrite (H x y); [left|left|right; left].
Qed.

Lemma unique_values m M spec ks k :
  values_inv m M → fields_ok M → unique_ok spec M → Spec.unique spec = true →
  omap_get m k = Some ks → len ks ≤ 1.
Proof.
  intros Hv Hok Hu Hs E. destruct (Hu Hs) as [Hd _]. apply NoDup_le_one.
  - by eapply values_sets.
  - assert (∀ dk, dk ∈ ks → holds M k dk) as Hh.
    { intros dk Hin. apply (values_in _ _ Hv). by rewrite E. }
    intros x y (v & Hx & Ev)%Hh (w & Hy & Ew)%Hh. apply (Hd x y v w Hx Hy).
    destruct (Hok _ _ Hx) as (W1 & S1 & L1). destruct (Hok _ _ Hy) as (W2 & S2 & L2).
    apply enc_inj; congruence.
Qed.

(** An index in step with the documents has no problems. *)
Lemma healthy_index live fresh M :
  index_inv live M → unsorted live = [] → index_inv fresh M → unsorted fresh = [] →
  spec fresh = spec live → fields_ok M → unique_ok (spec live) M →
  index_problems live fresh = [].
Proof.
  intros Hl Hlu Hf Hfu Hs Hok Hu. unfold index_problems. cbv zeta.
  rewrite (no_ordered_problems live M Hl Hlu). cbn [map app].
  assert (documentCount live = documentCount fresh) as ->
    by (unfold documentCount; destruct Hl, Hf; congruence).
  rewrite Z.eqb_refl. cbn [negb app].
  assert (hasArrayValues live = hasArrayValues fresh) as ->
    by (unfold hasArrayValues; destruct Hl, Hf; congruence).
  rewrite eqb_reflx. cbn [negb app].
  assert (values (contents live) = values (contents fresh)) as Ev
    by (apply (values_unique _ _ M); [apply Hl|apply Hf]).
  rewrite Ev, (missing_unique live fresh M Hl Hf (eq_sym Hs)).
  assert (NoDup (omap_keys (values (contents fresh)))) as Hn.
  { cbn. unfold omap_keys. rewrite sort_by_perm. fold (sorted_values (byValue fresh)).
    change (NoDup (omap_keys (sorted_values (byValue fresh)))). rewrite sorted_values_keys. apply Hf. }
  assert (∀ kv, kv ∈ values (contents fresh) → omap_get (values (contents fresh)) kv.1 = Some kv.2) as Hget.
  { intros [k ks] Hin. by apply omap_get_in. }
  rewrite flat_map_nil; [|intros kv Hin; rewrite (Hget _ Hin); by rewrite decide_True].
  rewrite flat_map_nil; [|intros kv Hin; unfold omap_has; by rewrite (Hget _ Hin)].
  rewrite decide_True by done. cbn [app]. destruct (Spec.unique (spec live)) eqn:Huq; [|done].
  rewrite flat_map_nil.
  - cbn [app]. destruct (Spec.sparse (spec live)) eqn:Hsp; [done|]. cbn [negb andb].
    assert (len (contents_missing (contents fresh)) ≤ 1) as Hle.
    { cbn. unfold sort_strings, len. rewrite sort_by_perm. destruct (index_missing _ _ Hf) as [Hmn Hm].
      apply (NoDup_le_one (missing fresh) Hmn). intros x y [_ Hx]%Hm [_ Hy]%Hm.
      destruct (Hu Huq) as [_ Hd]. by apply (Hd Hsp). }
    destruct (Z.ltb_spec 1 (len (contents_missing (contents fresh)))); [lia|done].
  - intros [k ss] Hin. cbn [snd]. cbn in Hin. rewrite sort_by_perm in Hin.
    apply list_elem_of_fmap in Hin as ([k' ks] & [= -> ->] & Hin). cbn [fst snd].
    apply omap_get_in in Hin; [|apply Hf].
    pose proof (unique_values _ _ _ _ _ (index_values _ _ Hf) Hok Hu Huq Hin) as Hle.
    unfold sort_strings, len. rewrite sort_by_perm. fold (len ks).
    destruct (Z.ltb_spec 1 (len ks)); [lia|done].
Qed.

(** ** The indexes of a collection *)
Lemma rebuild_loop spec entries ix docs :
  NoDup (omap_keys entries) → (∀ k, k ∈ omap_keys entries → docs !! k = None) →
  docs_ok (insert_entries docs entries) → FieldIndex.FieldIndex.spec ix = spec →
  index_inv ix (fields_in spec docs) →
  ∃ ix', foldM (λ (doc : jsstring * result Document) fresh,
      document ← doc.2; add fresh doc.1 document true) (decoded entries) ix = Ok ix' ∧
    FieldIndex.FieldIndex.spec ix' = spec ∧
    index_inv ix' (fields_in spec (insert_entries docs entries)).
Proof.
  revert ix docs. induction entries as [|[k d] entries IH]; intros ix docs Hnd Hno Hok Hs Hi.
  { by exists ix. }
  cbn [omap_keys map fst] in Hnd. apply NoDup_cons in Hnd as [Hk Hnd].
  assert (docs !! k = None) as Hdk by (apply Hno; left).
  assert (∀ k', k' ∈ omap_keys entries → <[k := d]> docs !! k' = None) as Hno'.
  { intros k' Hk'. rewrite lookup_insert_ne by (by intros ->). apply Hno. by right. }
  change (insert_entries docs ((k, d) :: entries)) with (insert_entries (<[k := d]> docs) entries) in *.
  pose proof (docs_ok_sub _ _ (insert_entries_sub (<[k := d]> docs) entries Hnd Hno') Hok) as Hok1.
  destruct (fields_in_ok spec _ Hok1) as [Hf1 _]. unfold fields_in in Hf1. rewrite fmap_insert in Hf1.
  fold (fields_in spec docs) in Hf1.
  assert (fields_in spec docs !! k = None) as Hfk by (unfold fields_in; by rewrite lookup_fmap, Hdk).
  assert (Z.of_nat (size (fields_in spec docs)) < 2 ^ 31) as Hroom.
  { apply fields_in_ok. eapply docs_ok_sub; [|exact Hok1]. by apply insert_subseteq. }
  cbn [decoded map foldM fst snd mbind res_bind]. fold (decoded entries).
  destruct (add_inv ix (fields_in spec docs) k d true) as (ix' & -> & Hs' & _ & Hi'); try done;
    [by rewrite Hs|]. cbn [mbind res_bind]. rewrite Hs in Hi'.
  apply (IH ix' (<[k := d]> docs)); try done; [congruence|]. unfold fields_in. by rewrite fmap_insert.
Qed.

Lemma healthy_set s entries :
  set_inv (λ name, FieldIndex.FieldIndex.spec <$> omap_get s name) s (insert_entries ∅ entries) →
  NoDup (omap_keys entries) → validate s (decoded entries) = Ok [].
Proof.
  intros [Hd [Hk _ Hi] Hu] Hn. unfold validate.
  assert (∀ entry, entry ∈ s → (fresh ← foldM (λ (doc : jsstring * result Document) fresh,
        document ← doc.2; add fresh doc.1 document true) (decoded entries) (new (spec entry.2));
      Ok (map (λ problem, {| issue_index := Spec.name (spec entry.2); problem := problem |})
            (index_problems entry.2 (finishBulk fresh)))) = Ok []) as Heach.
  { intros [name live] Hin. cbn [snd]. apply omap_get_in in Hin; [|done].
    destruct (Hi _ _ Hin) as [Hlu Hl]. unfold all_fields in Hl. rewrite Hin in Hl. cbn in Hl.
    specialize (Hu name (spec live)). rewrite Hin in Hu. specialize (Hu eq_refl).
    assert (fields_in (spec live) ∅ = ∅) as He by (apply fmap_empty).
    destruct (rebuild_loop (spec live) entries (new (spec live)) ∅ Hn (λ _ _, lookup_empty _) Hd eq_refl)
      as (fresh & -> & Hs & Hf); [rewrite He; apply new_inv|]. cbn [mbind res_bind].
    destruct (finishBulk_inv fresh _ Hf) as (Hs' & Hfu & Hf').
    rewrite (healthy_index live (finishBulk fresh) _ Hl Hlu Hf' Hfu); [done|congruence| |done].
    by apply fields_in_ok. }
  assert (mapM (λ entry : jsstring * FieldIndex, fresh ← foldM (λ (doc : jsstring * result Document) fresh,
        document ← doc.2; add fresh doc.1 document true) (decoded entries) (new (spec entry.2));
      Ok (map (λ problem, {| issue_index := Spec.name (spec entry.2); problem := problem |})
            (index_problems entry.2 (finishBulk fresh)))) s = Ok (map (λ _, []) s)) as ->.
  { apply mapM_Ok_Forall2, Forall2_fmap_r, Forall_Forall2_diag, Forall_forall, Heach. }
  cbn [mbind res_bind]. f_equal. clear. induction s as [|x s IH]; [done|]. exact IH.
Qed.
