(* ===== verification/Stored.v ===== *)
(** * Documents as they are stored

    The decoder drops a byte order mark at the start of a string (finding of
    Roundtrip.v), so a document survives being stored when no string, key or
    segment of a path in it has one. Here: text without byte order marks, which
    updates and upserts keep, and the form a document has once it is stored. *)

From S2P Require Import Prelude Errors JsNumber JsString JsValue Binary CustomId Codec Roundtrip Decoded Filter FilterSpec Sort Update.
Import Update.

Definition no_bom (s : jsstring) : bool := forallb (λ u, negb (u =? 0xFEFF)) s.

Definition cleanb (v : DocumentValue) : bool := text_all no_bom v.

(** ** Clean values *)
Abbreviation clean v := (cleanb v = true).
Abbreviation clean_document d := (cleanb (VDoc d) = true).

Lemma clean_doc fs :
  clean_document fs ↔ Forall (λ kv, no_bom kv.1 = true ∧ clean kv.2) fs.
Proof.
  unfold cleanb. cbn [text_all]. apply forallb_Forall_iff. intros [k v]. by rewrite andb_true_iff.
Qed.

Lemma clean_array l : clean (VArray l) ↔ Forall (λ v, clean v) l.
Proof. unfold cleanb. cbn [text_all]. by apply forallb_Forall_iff. Qed.

Lemma text_all_mono (p q : jsstring → bool) v :
  (∀ s, p s = true → q s = true) → text_all p v = true → text_all q v = true.
Proof.
  intros Hpq. induction v as [| b | n | z | s | d | bs | bs | l IH | fs IH] using value_ind';
    cbn [text_all]; auto.
  - rewrite !(forallb_Forall_iff _ _ _ (λ x, iff_refl _)), !Forall_forall. rewrite Forall_forall in IH.
    intros H x Hx. by apply IH, H.
  - rewrite !(forallb_Forall_iff _ _ _ (λ x, iff_refl _)), !Forall_forall. rewrite Forall_forall in IH.
    intros H [k v] Hx. specialize (H _ Hx). specialize (IH _ Hx). cbn in *.
    apply andb_true_iff in H as [H1 H2]. apply andb_true_iff. auto.
Qed.

Lemma clean_bom_free v : clean v → bom_free v = true.
Proof.
  apply text_all_mono. intros [|u s] H; [done|]. unfold no_bom in H. cbn [forallb] in H.
  apply andb_true_iff in H as [H _]. unfold starts_bom. by destruct (u =? 0xFEFF).
Qed.

Lemma clean_get d k v : clean_document d → obj_get d k = Some v → clean v.
Proof.
  intros H%clean_doc Hg%omap_get_Some_in. rewrite Forall_forall in H. by apply (H (k, v)).
Qed.

Lemma clean_perm d d' : d ≡ₚ d' → clean_document d → clean_document d'.
Proof. rewrite !clean_doc. by intros ->. Qed.

Lemma clean_set d k v :
  clean_document d → no_bom k = true → clean v → clean_document (obj_set d k v).
Proof.
  intros Hd Hk Hv. destruct (obj_get d k) eqn:E.
  - rewrite obj_set_old by done. apply clean_doc in Hd. apply clean_doc. clear E.
    induction Hd as [|[k' w] d Hw Hd IH]; simpl; [by repeat constructor|].
    case_decide; constructor; [|done|done|done]. split; [apply Hw|done].
  - eapply clean_perm; [symmetry; by apply obj_set_new_perm|]. apply clean_doc.
    constructor; [done|by apply clean_doc].
Qed.

Lemma clean_delete d k : clean_document d → clean_document (obj_delete d k).
Proof.
  rewrite !clean_doc. unfold obj_delete. induction 1 as [|[k' w] d Hw Hd IH]; [constructor|].
  cbn [omap_delete]. case_decide; [done|by constructor].
Qed.

Lemma clean_snoc l v : clean (VArray l) → clean v → clean (VArray (l ++ [v])).
Proof. rewrite !clean_array. intros. apply Forall_app_2; [done|]. by constructor. Qed.

Lemma clean_filterM f l k : clean (VArray l) → filterM f l = Ok k → clean (VArray k).
Proof.
  rewrite !clean_array, !Forall_forall. intros H Hk x Hx. eapply H, filterM_sub; done.
Qed.

(** Rebuilding a value in canonical order. *)
Lemma clean_norm v : wf_value v = true → clean v → clean (norm v).
Proof.
  induction v as [| b | n | z | s | d | bs | bs | l IH | fs IH] using value_ind'; try done.
  - rewrite wf_array. intros Hw Hc%clean_array. cbn [norm]. apply clean_array, Forall_map.
    rewrite Forall_forall in Hw, Hc, IH |- *. intros x Hx. by apply IH; [|apply Hw|apply Hc].
  - intros [Hw Hd]%wf_doc Hc%clean_doc. destruct (norm_doc_perm fs Hd) as (fs' & -> & Hp).
    eapply clean_perm; [by symmetry|]. apply clean_doc. unfold norm_fields. apply Forall_map.
    rewrite Forall_forall in Hw, Hc, IH |- *. intros kv Hx. cbn. split; [by apply Hc|].
    by apply IH; [|apply Hw|apply Hc].
Qed.

Lemma no_bom_split s : no_bom s = true → Forall (λ x, no_bom x = true) (split_dot s).
Proof.
  unfold no_bom. induction s as [|u s IH]; [by repeat constructor|]. cbn [forallb split_dot].
  intros [Hu Hs]%andb_true_iff. specialize (IH Hs). destruct (u =? 46); [by constructor|].
  destruct (split_dot s) as [|x l].
  - repeat constructor. cbn [forallb]. by rewrite Hu.
  - apply Forall_cons in IH as [Hx Hl]. constructor; [|done]. cbn [forallb]. by rewrite Hu.
Qed.

(** ** Updates keep documents clean *)
Abbreviation clean_path segments := (Forall (λ x, no_bom x = true) segments).

Lemma resolveParent_clean d segments create parent put :
  clean_document d → clean_path segments →
  resolveParent d segments create = Ok (Some (parent, put)) →
  clean_document parent ∧ ∀ parent', clean_document parent' → clean_document (put parent').
Proof.
  intros Hd Hs. revert d Hd parent put. induction Hs as [|k rest Hk Hs IH]; intros d Hd parent put.
  { by intros [= <- <-]. }
  destruct rest as [|k2 rest']; [by intros [= <- <-]|]. remember (k2 :: rest') as rest eqn:Er.
  assert (∀ child, clean_document child → (r ← resolveParent child rest create;
      Ok (match r with
          | Some (parent, put) => Some (parent, λ parent', obj_set d k (VDoc (put parent')))
          | None => None
          end)) = Ok (Some (parent, put)) →
    clean_document parent ∧ ∀ parent', clean_document parent' → clean_document (put parent')) as Hin.
  { intros child Hc H. apply bind_Ok_inv in H as (r & Hr & H). destruct r as [[p q]|]; [|done].
    injection H as <- <-. destruct (IH child Hc p q Hr) as [H1 H2]. split; [done|].
    intros p' Hp'. apply clean_set; [done|done|by apply H2]. }
  subst rest. cbn [resolveParent]. destruct (obj_get d k) as [v|] eqn:E.
  - destruct v; try (by destruct create). apply Hin. by eapply clean_get.
  - destruct create; [|done]. by apply Hin.
Qed.

Lemma getArray_clean parent key create array parent' :
  clean_document parent → no_bom key = true →
  getArray parent key create = Ok (array, parent') →
  clean (VArray array) ∧ clean_document parent'.
Proof.
  intros Hp Hk. unfold getArray. destruct (obj_get parent key) as [v|] eqn:E.
  - destruct v; try done. intros [= <- <-]. split; [by eapply clean_get|done].
  - intros [= <- <-]. split; [done|]. destruct create; [|done]. by apply clean_set.
Qed.

Lemma applyToParent_clean parent key i parent' :
  clean_document parent → no_bom key = true → clean (operand i) →
  applyToParent parent key i = Ok parent' → clean_document parent'.
Proof.
  intros Hp Hk Ho. unfold applyToParent. destruct (operator i).
  - intros [= <-]. by apply clean_set.
  - intros [= <-]. destruct (obj_has parent key); [by apply clean_delete|done].
  - unfold applyInc. destruct (obj_get parent key) as [v|] eqn:E; [|intros [= <-]; by apply clean_set].
    destruct v; try done; destruct (operand i); try done; [case_match; [done|]|];
      intros [= <-]; by apply clean_set.
  - intros [= <-]. unfold applyExtremum. destruct (obj_get parent key); [|by apply clean_set].
    cbv zeta. destruct (_ <? 0); [by apply clean_set|done].
  - intros [= <-]. unfold applyExtremum. destruct (obj_get parent key); [|by apply clean_set].
    cbv zeta. destruct (0 <? _); [by apply clean_set|done].
  - intros H. apply bind_Ok_inv in H as ([array p'] & Ha & H). injection H as <-.
    destruct (getArray_clean _ _ _ _ _ Hp Hk Ha). apply clean_set; [done|done|by apply clean_snoc].
  - intros H. apply bind_Ok_inv in H as ([array p'] & Ha & H).
    destruct (getArray_clean _ _ _ _ _ Hp Hk Ha). destruct (len array =? 0); [by injection H as <-|].
    apply bind_Ok_inv in H as (kept & Hf & H). injection H as <-.
    apply clean_set; [done|done|by eapply clean_filterM].
  - intros H. apply bind_Ok_inv in H as ([array p'] & Ha & H).
    destruct (getArray_clean _ _ _ _ _ Hp Hk Ha). apply bind_Ok_inv in H as (found & Hf & H).
    injection H as <-. destruct found; [done|]. apply clean_set; [done|done|by apply clean_snoc].
Qed.

Lemma last_segment_clean segments : clean_path segments → no_bom (last_segment segments) = true.
Proof.
  intros H. destruct (decide (segments = [])) as [->|Hne]; [done|].
  rewrite Forall_forall in H. by apply H, last_segment_in.
Qed.

Lemma applyInstruction_clean i d d' :
  clean_document d → clean_path (segments i) → clean (operand i) →
  applyInstruction i d = Ok d' → clean_document d'.
Proof.
  intros Hd Hs Ho H. unfold applyInstruction in H. apply bind_Ok_inv in H as ([[parent put]|] & Hr & H);
    [|by injection H as <-].
  destruct (resolveParent_clean _ _ _ _ _ Hd Hs Hr) as [Hp Hput].
  apply bind_Ok_inv in H as (parent' & Ha & H). injection H as <-.
  apply Hput. eapply applyToParent_clean; [exact Hp| |exact Ho|exact Ha]. by apply last_segment_clean.
Qed.

Lemma instructions_clean update :
  clean update → Forall (λ i, clean_path (segments i) ∧ clean (operand i)) (instructions_of update).
Proof.
  destruct update as [| | | | | | | | |fs]; try constructor. intros H%clean_doc.
  apply Forall_forall. intros i Hi. cbn [instructions_of] in Hi.
  apply list_elem_of_In, in_flat_map in Hi as (entry & Hin & Hi). apply list_elem_of_In in Hin.
  rewrite Forall_forall in H. destruct (H _ Hin) as [_ Hv]. destruct (omap_get _ _) as [o|]; [|done].
  destruct entry.2 as [| | | | | | | | |operands]; try done. apply in_map_iff in Hi as ([k v] & <- & Hkv).
  apply clean_doc in Hv. rewrite Forall_forall in Hv. apply list_elem_of_In in Hkv.
  destruct (Hv _ Hkv) as [Hk Hw]. cbn in *. split; [by apply no_bom_split|done].
Qed.

(** A compiled update keeps documents clean. *)
Lemma update_clean update apply d d' :
  clean update → compileUpdate update = Ok apply → clean_document d → apply d = Ok d' →
  clean_document d'.
Proof.
  intros Hu [_ ->]%compile_apply Hd Ha. pose proof (instructions_clean _ Hu) as H.
  refine (foldM_inv (λ d, clean_document d) applyInstruction _ _ _ _ Hd Ha).
  intros i s s' Hi Hs Hs'. rewrite Forall_forall in H. destruct (H _ Hi).
  by eapply applyInstruction_clean.
Qed.

(** And well-formed. *)
Lemma update_wf update apply d d' :
  wf_value update = true → compileUpdate update = Ok apply → wf_document d → apply d = Ok d' →
  wf_document d'.
Proof.
  intros Hu [Hv ->]%compile_apply Hd Ha.
  pose proof (instructions_outcome _ _ Hd (instructions_wf _ Hu) (valid_update_conflicts _ Hv)) as H.
  rewrite Ha in H. apply H.
Qed.

(** The document an upsert starts from. *)
Lemma extractEquality_clean v e : clean v → extractEquality v = Some e → clean e.
Proof.
  intros Hv. destruct v; simpl extractEquality; try (by intros [= <-]).
  destruct (negb _); [by intros [= <-]|].
  destruct fields as [|[k w] [|? ?]]; try done. case_decide; [|done]. intros [= <-].
  apply clean_doc in Hv. apply Forall_cons in Hv as [[_ Hw] _]. done.
Qed.

Lemma seed_clean filter seed :
  clean_document filter → seedDocumentFromFilter filter = Ok seed → clean_document seed.
Proof.
  intros Hf%clean_doc H. unfold seedDocumentFromFilter in H.
  apply bind_Ok_inv in H as ([seed' assigned] & H & [= <-]).
  refine (foldM_inv (λ state : Document * list (list jsstring), clean_document state.1)
    seedField filter ([], []) (seed', assigned) _ _ H); [|done].
  intros [key value] [s a] [s' a'] Hin Hs. cbn [fst] in Hs |- *. unfold seedField.
  rewrite Forall_forall in Hf. destruct (Hf _ Hin) as [Hk Hv]. cbn [fst snd] in Hk, Hv.
  destruct (starts_dollar key); [by intros [= <- <-]|].
  destruct (extractEquality value) as [e|] eqn:Ee; [|by intros [= <- <-]].
  cbv zeta. destruct (_ || _); [done|]. intros H'. apply bind_Ok_inv in H' as ([[parent put]|] & Hr & H');
    [|done]. injection H' as <- <-. pose proof (no_bom_split _ Hk) as Hseg.
  destruct (resolveParent_clean _ _ _ _ _ Hs Hseg Hr) as [Hp Hput]. apply Hput.
  apply clean_set; [done|by apply last_segment_clean|]. exact (extractEquality_clean _ _ Hv Ee).
Qed.

Lemma seed_wf filter seed :
  wf_document filter → seedDocumentFromFilter filter = Ok seed → wf_document seed.
Proof.
  intros Hf H. unfold seedDocumentFromFilter in H.
  apply bind_Ok_inv in H as ([seed' assigned] & H & [= <-]).
  assert (seeded [] []) as Hs.
  { split; [apply wf_empty|constructor|].
    intros q _. split; [apply lookup_path_empty|apply blocked_empty]. }
  pose proof (seed_loop filter [] [] Hf Hs) as Hl. cbn [map] in Hl. rewrite H in Hl.
  apply Hl.
Qed.

(** ** The form of a stored document *)
Definition stored_form (d : Document) : Document :=
  match norm (VDoc d) with VDoc d' => d' | _ => [] end.

(** The bytes [b] are those of a document in the form [d]. *)
Record stored (b : bytes) (d : Document) : Prop := {
  stored_bytes : b = enc (VDoc d);
  stored_decode : decodeDocument b = Ok d;
  stored_encodable : encodable (VDoc d);
  stored_clean : clean_document d;
}.

Lemma stored_form_norm d : norm (VDoc d) = VDoc (stored_form d).
Proof. unfold stored_form. by rewrite norm_doc. Qed.

Lemma stored_form_perm d : wf_document d → stored_form d ≡ₚ norm_fields d.
Proof.
  intros [_ Hd]%wf_doc. destruct (norm_doc_perm d Hd) as (d' & E & Hp).
  unfold stored_form. by rewrite E.
Qed.

Lemma stored_form_equiv d : wf_document d → fits (VDoc d) → VDoc (stored_form d) ≡ VDoc d.
Proof. intros Hw [Hs _]. rewrite <- stored_form_norm. by eapply norm_equiv. Qed.

(** What the decoder gives back is well-formed and can be encoded. *)
Lemma decodeDocument_encodable b d :
  Forall is_byte b → decodeDocument b = Ok d → encodable (VDoc d).
Proof.
  intros Hb H. unfold decodeDocument in H. apply bind_Ok_inv in H as (v & Hv & H).
  destruct v; try done. injection H as <-. pose proof (decode_outcome b Hb) as Hd. rewrite Hv in Hd.
  destruct Hd as (Hw & b' & (Hs & -> & Hl)%encode_Ok & _). done.
Qed.

(** Encoding succeeds on the documents that fit, and what is stored is their
    stored form. *)
Lemma encode_stored d :
  wf_document d → clean_document d →
  match encodeDocument d with
  | Ok b => stored b (stored_form d) ∧ fits (VDoc d)
  | Throw _ => ¬ fits (VDoc d)
  end.
Proof.
  intros Hw Hc. unfold encodeDocument. destruct (encodeDocumentValue (VDoc d)) as [b|e] eqn:E.
  - pose proof E as E'. apply encode_Ok in E' as (Hs & Hb & Hl).
    assert (fits (VDoc d)) as Hf by (split; [done|by rewrite <- Hb]). split; [|done].
    destruct (encode_decode _ _ Hw (clean_bom_free _ Hc) E) as [Hd He].
    rewrite stored_form_norm in Hd, He.
    assert (decodeDocument b = Ok (stored_form d)) as Hdec by (unfold decodeDocument; by rewrite Hd).
    assert (b = enc (VDoc (stored_form d))) as Hbytes.
    { rewrite Hb. symmetry. rewrite <- enc_canon, He. by rewrite enc_canon. }
    split; [done|done| |].
    + eapply decodeDocument_encodable; [|exact Hdec]. rewrite Hb. by eapply enc_is_bytes.
    + rewrite <- stored_form_norm. by apply clean_norm.
  - intros Hf. rewrite fits_encode in E by done. done.
Qed.
