(* ===== verification/Collection.v ===== *)
(** * Collections

    packages/storage/src/in-memory-collection.ts: the documents of a collection,
    their encoded bytes by key, kept in step with the indexes and with a journal
    that records every change before it is made.

    The journal is what the caller supplies: [commit] records a list of
    operations, in a state [J] of its own, or throws. Ids that [CustomId.generate]
    would make are arguments, as are the clock and the random source there. The
    iterators that [find] and [candidates] return are consumed to their end. *)

From S2P Require Import Prelude Errors JsNumber JsString JsValue CustomId Codec Filter Sort Update IndexSpec FieldIndex IndexSet Planner.
Import IndexSet.IndexSet.

Module Collection.
Record StorageUpdateResult := {
  matchedCount : Z;
  modifiedCount : Z;
  upsertedId : option bytes;
}.

(** [StorageFindOptions]; [None] for [undefined]. *)
Record StorageFindOptions := {
  find_sort : option Sort.SortSpecification;
  find_skip : option number;
  find_limit : option number;
}.

(** [JournalOperation]. *)
Inductive JournalOperation :=
  | OpPut (key : jsstring) (document : bytes)
  | OpDelete (key : jsstring)
  | OpCreateIndex (spec : IndexSpec)
  | OpDropIndex (name : jsstring).

Inductive Stage := STAGE_COLLSCAN | STAGE_IDLOOKUP | STAGE_IXSCAN.
Inductive Access := ACCESS_EQUALITY | ACCESS_IN | ACCESS_RANGE.

Record ExplainResult := {
  stage : Stage;
  explain_index : option jsstring;
  explain_field : option jsstring;
  access : option Access;
  explain_lower : option FieldIndex.FieldIndex.IndexBound;
  explain_upper : option FieldIndex.FieldIndex.IndexBound;
  estimatedCandidates : number;
  documents_examined : Z;
}.

Record IndexValidationReport := {
  valid : bool;
  report_indexes : Z;
  report_documents : Z;
  issues : list IndexIssue;
}.

Record PreparedInsert := { id : bytes; insert_key : jsstring; insert_encoded : bytes }.

Record LocatedDocument := {
  located_key : jsstring;
  located_encoded : bytes;
  located_document : Document;
}.

(** ** Helpers *)

Definition collectionError {A} (code : StorageErrorCode) : result A := Throw (StorageError code).

Definition encodeStoredDocument (document : Document) : result bytes :=
  catch (encodeDocument document) (λ _, collectionError InvalidDocument).

(** [{ ...document, _id: id }]. *)
Definition with_id (document : Document) (id : bytes) : Document :=
  obj_set document (js "_id") (VId id).

Definition validateReplacement (replacement : DocumentValue) : result Document :=
  match replacement with
  | VDoc fields =>
      if existsb (λ kv, starts_dollar kv.1) fields then collectionError InvalidDocument
      else Ok fields
  | _ => collectionError InvalidDocument
  end.

Definition validateUpsert (upsert : option DocumentValue) : result bool :=
  match upsert with
  | None => Ok false
  | Some (VBool b) => Ok b
  | Some _ => collectionError InvalidUpdate
  end.

Definition immutableId {A} : result A := collectionError ImmutableId.

Definition validateSkip (skip : option number) : result Z :=
  match skip with
  | None => Ok 0
  | Some n =>
      if negb (isSafeInteger n) || (Z_of_number n <? 0) then collectionError InvalidFindOptions
      else Ok (Z_of_number n)
  end.

Definition validateLimit (limit : option number) : result (option Z) :=
  match limit with
  | None => Ok None
  | Some n =>
      if negb (isSafeInteger n) || (Z_of_number n <? 1) then collectionError InvalidFindOptions
      else Ok (Some (Z_of_number n))
  end.

(** [generated] is what [CustomId.generate] would return. *)
Definition resolveDocumentId (document : Document) (generated : result bytes) : result bytes :=
  match obj_get document (js "_id") with
  | None => generated
  | Some (VId id) => Ok id
  | Some _ => collectionError InvalidDocumentId
  end.

Definition describePlan (plan : Planner.QueryPlan) (documents : Z) : ExplainResult :=
  match plan with
  | Planner.COLLSCAN estimated =>
      {| stage := STAGE_COLLSCAN; explain_index := None; explain_field := None; access := None;
         explain_lower := None; explain_upper := None;
         estimatedCandidates := estimated; documents_examined := documents |}
  | Planner.IDLOOKUP _ estimated =>
      {| stage := STAGE_IDLOOKUP; explain_index := Some Spec.ID_INDEX_NAME;
         explain_field := Some (js "_id"); access := Some ACCESS_EQUALITY;
         explain_lower := None; explain_upper := None;
         estimatedCandidates := estimated; documents_examined := documents |}
  | Planner.IXSCAN index plan_access viaMembership estimated =>
      let base acc lower upper :=
        {| stage := STAGE_IXSCAN;
           explain_index := Some (Spec.name (FieldIndex.FieldIndex.spec index));
           explain_field := Some (Spec.field (FieldIndex.FieldIndex.spec index));
           access := Some acc; explain_lower := lower; explain_upper := upper;
           estimatedCandidates := estimated; documents_examined := documents |} in
      match plan_access with
      | Planner.AccessRange _ lower upper => base ACCESS_RANGE lower upper
      | Planner.AccessEqual _ =>
          base (if viaMembership : bool then ACCESS_IN else ACCESS_EQUALITY) None None
      end
  end.

(** ** The collection *)

(** The documents are a [Map] from key to bytes; [sequence] numbers them in the
    order they were inserted, and is there while there are indexes. *)
Record InMemoryCollection {J : Type} := {
  documents : list (jsstring * bytes);
  journalState : J;
  indexes : IndexSet;
  sequence : option (list (jsstring * Z));
  nextSequence : Z;
}.
Arguments InMemoryCollection : clear implicits.

Section Collection.
Context {J : Type}.

(** [CollectionJournal.commit], [None] when the collection has no journal. *)
Context (journal : option (list JournalOperation → ST J exn ())).

Abbreviation action := (ST (InMemoryCollection J) exn).

Definition set_documents (c : InMemoryCollection J) documents sequence nextSequence : InMemoryCollection J :=
  {| documents := documents; journalState := journalState c; indexes := indexes c;
     sequence := sequence; nextSequence := nextSequence |}.

Definition set_indexes (c : InMemoryCollection J) indexes : InMemoryCollection J :=
  {| documents := documents c; journalState := journalState c; indexes := indexes;
     sequence := sequence c; nextSequence := nextSequence c |}.

Definition set_journal (c : InMemoryCollection J) (journalState : J) : InMemoryCollection J :=
  {| documents := documents c; journalState := journalState; indexes := indexes c;
     sequence := sequence c; nextSequence := nextSequence c |}.

(** An operation of the index set, changed in place. *)
Definition on_indexes {A} (m : ST IndexSet exn A) : action A :=
  λ c, let (r, s) := m (indexes c) in (r, set_indexes c s).

Definition commit (operations : list JournalOperation) : action () :=
  match journal with
  | None => mret ()
  | Some journal => λ c, let (r, s) := journal operations (journalState c) in (r, set_journal c s)
  end.

(** [try { this.commit(...) } catch (error) { undo(); throw error }]. *)
Definition commit_or (operations : list JournalOperation) (undo : action ()) : action () :=
  st_catch (commit operations) (λ error, _ ← undo; st_throw error).

Definition documentCount (c : InMemoryCollection J) : Z := len (documents c).
Definition entries (c : InMemoryCollection J) : list (jsstring * bytes) := documents c.

Definition decodedEntries (c : InMemoryCollection J) : list (jsstring * result Document) :=
  map (λ kv, (kv.1, decodeDocument kv.2)) (documents c).

(** ** Documents and their numbers *)

Definition put (key : jsstring) (encoded : bytes) : action () :=
  st_update (λ c,
    match sequence c with
    | Some s =>
        if omap_has (documents c) key
        then set_documents c (omap_set (documents c) key encoded) (sequence c) (nextSequence c)
        else set_documents c (omap_set (documents c) key encoded)
               (Some (omap_set s key (nextSequence c))) (nextSequence c + 1)
    | None => set_documents c (omap_set (documents c) key encoded) None (nextSequence c)
    end).

Definition remove (key : jsstring) : action () :=
  st_update (λ c,
    set_documents c (omap_delete (documents c) key)
      (match sequence c with Some s => Some (omap_delete s key) | None => None end)
      (nextSequence c)).

(** The loop that numbers the documents there are. *)
Definition number_documents (c : InMemoryCollection J) : InMemoryCollection J :=
  let '(s, n) := fold_left (λ '(s, n) key, (omap_set s key n, n + 1))
                   (omap_keys (documents c)) ([], nextSequence c) in
  set_documents c (documents c) (Some s) n.

Definition buildIndex (spec : IndexSpec) : action bool :=
  c ← st_get (λ c, c);
  result ← on_indexes (create spec (decodedEntries c));
  match result with
  | created =>
      _ ← st_update (λ c, match sequence c with None => number_documents c | Some _ => c end);
      mret true
  | exists_ => mret false
  end.

Definition removeIndex (name : jsstring) : action () :=
  _ ← on_indexes (drop name);
  st_update (λ c,
    if isEmpty (indexes c) then set_documents c (documents c) None (nextSequence c) else c).

(** The constructor: recovered documents, and the indexes to build over them. *)
Definition new (journalState : J) (documents : list (jsstring * bytes)) (specs : list IndexSpec)
    : res exn () * InMemoryCollection J :=
  st_each (λ spec, _ ← buildIndex spec; mret ()) specs
    {| documents := documents; journalState := journalState; indexes := [];
       sequence := None; nextSequence := 1 |}.

Definition trackInsert (prepared : PreparedInsert) : action (list Undo) :=
  c ← st_get (λ c, c);
  if isEmpty (indexes c) then mret []
  else
    after ← st_lift (decodeDocument (insert_encoded prepared));
    on_indexes (applyChanges
      [{| IndexSet.IndexSet.key := insert_key prepared; before := None; after := Some after |}]).

Definition trackChanges (changes : list DocumentChange) : action (list Undo) :=
  on_indexes (applyChanges changes).

(** ** Queries *)

Definition plan (filter : Document) (c : InMemoryCollection J) : result Planner.QueryPlan :=
  Planner.planQuery filter (all (indexes c)) (documentCount c).

(** The comparison of two keys by their numbers; comparing with [NaN], the
    difference from a number that is missing, counts as a tie. *)
Definition sequence_cmp (s : list (jsstring * Z)) (left right : jsstring) : Z :=
  match omap_get s left, omap_get s right with
  | Some l, Some r => l - r
  | _, _ => 0
  end.

Definition candidates (filter : Document) (c : InMemoryCollection J)
    : result (list (jsstring * bytes)) :=
  chosen ← (if isEmpty (indexes c) then Ok None else p ← plan filter c; Ok (Some p));
  match chosen with
  | None | Some (Planner.COLLSCAN _) => Ok (documents c)
  | Some p =>
      keys ← Planner.candidateKeys p;
      match sequence c with
      | None => Throw TypeError
      | Some s =>
          let keys := sort_by (sequence_cmp s)
                        (List.filter (λ key, omap_has (documents c) key) keys) in
          Ok (omap (λ key, encoded ← omap_get (documents c) key; Some (key, encoded)) keys)
      end
  end.

Definition findById (id : bytes) (c : InMemoryCollection J) : result (option Document) :=
  match omap_get (documents c) (CustomId.toHexString id) with
  | None => Ok None
  | Some encoded => document ← decodeDocument encoded; Ok (Some document)
  end.

Definition has (id : bytes) (c : InMemoryCollection J) : bool :=
  omap_has (documents c) (CustomId.toHexString id).

(** The loop that looks for the first match. *)
Fixpoint first_match (matches : CompiledFilter) (l : list (jsstring * bytes))
    : result (option LocatedDocument) :=
  match l with
  | [] => Ok None
  | (key, encoded) :: l =>
      document ← decodeDocument encoded;
      b ← matches document;
      if b : bool
      then Ok (Some {| located_key := key; located_encoded := encoded; located_document := document |})
      else first_match matches l
  end.

Definition findOne (filter : DocumentValue) (c : InMemoryCollection J) : result (option Document) :=
  matches ← Filter.compileFilter filter;
  match filter with
  | VDoc fields =>
      match obj_get fields (js "_id") with
      | Some (VId id) =>
          found ← findById id c;
          match found with
          | None => Ok None
          | Some document => b ← matches document; Ok (if b : bool then Some document else None)
          end
      | _ =>
          l ← candidates fields c;
          found ← first_match matches l;
          Ok (match found with Some l => Some (located_document l) | None => None end)
      end
  | _ => Throw TypeError
  end.

Definition locate (filter : Document) (matches : CompiledFilter) (c : InMemoryCollection J)
    : result (option LocatedDocument) :=
  match obj_get filter (js "_id") with
  | Some (VId id) =>
      let key := CustomId.toHexString id in
      match omap_get (documents c) key with
      | None => Ok None
      | Some encoded =>
          document ← decodeDocument encoded;
          b ← matches document;
          Ok (if b : bool
              then Some {| located_key := key; located_encoded := encoded;
                           located_document := document |}
              else None)
      end
  | _ => l ← candidates filter c; first_match matches l
  end.

(** The loop of [scan] without a sorter, [skipped] and [yielded] so far. *)
Fixpoint scan_loop (matches : CompiledFilter) (skip : Z) (limit : option Z)
    (l : list (jsstring * bytes)) (skipped yielded : Z) : result (list Document) :=
  match l with
  | [] => Ok []
  | (_, encoded) :: l =>
      if (match limit with Some limit => limit <=? yielded | None => false end) then Ok []
      else
        document ← decodeDocument encoded;
        b ← matches document;
        if negb b then scan_loop matches skip limit l skipped yielded
        else if skipped <? skip then scan_loop matches skip limit l (skipped + 1) yielded
        else
          rest ← scan_loop matches skip limit l skipped (yielded + 1);
          Ok (document :: rest)
  end.

(** The documents of [l] that match, with their keys and bytes. *)
Fixpoint matching (matches : CompiledFilter) (l : list (jsstring * bytes))
    : result (list LocatedDocument) :=
  match l with
  | [] => Ok []
  | (key, encoded) :: l =>
      document ← decodeDocument encoded;
      b ← matches document;
      rest ← matching matches l;
      Ok (if b : bool
          then {| located_key := key; located_encoded := encoded; located_document := document |} :: rest
          else rest)
  end.

(** [array.slice(skip, skip + limit)]; the sum of two safe integers, rounded
    when it is no safe integer, is past the end of any array. *)
Definition slice (l : list Document) (skip : Z) (limit : option Z) : list Document :=
  let l := skipn (Z.to_nat (Z.min skip (len l))) l in
  match limit with
  | None => l
  | Some limit => firstn (Z.to_nat (Z.min limit (len l))) l
  end.

Definition scan (filter : Document) (matches : CompiledFilter)
    (sorter : option (list Document → list Document)) (skip : Z) (limit : option Z)
    (c : InMemoryCollection J) : result (list Document) :=
  l ← candidates filter c;
  match sorter with
  | None => scan_loop matches skip limit l 0 0
  | Some sorter =>
      matched ← matching matches l;
      Ok (slice (sorter (map located_document matched)) skip limit)
  end.

Definition find (filter : DocumentValue) (options : StorageFindOptions) (c : InMemoryCollection J)
    : result (list Document) :=
  matches ← Filter.compileFilter filter;
  sorter ← (match find_sort options with
            | None => Ok None
            | Some specification => s ← Sort.compileSort specification; Ok (Some s)
            end);
  skip ← validateSkip (find_skip options);
  limit ← validateLimit (find_limit options);
  match filter with
  | VDoc fields => scan fields matches sorter skip limit c
  | _ => Throw TypeError
  end.

Definition explain (filter : DocumentValue) (c : InMemoryCollection J) : result ExplainResult :=
  _ ← Filter.compileFilter filter;
  match filter with
  | VDoc fields => p ← plan fields c; Ok (describePlan p (documentCount c))
  | _ => Throw TypeError
  end.

Definition indexSpec (c : InMemoryCollection J) : list IndexSpec := specs (indexes c).
Definition listIndexes (c : InMemoryCollection J) : list IndexSpec :=
  Spec.idIndexSpec :: specs (indexes c).

Definition validateIndexes (c : InMemoryCollection J) : result IndexValidationReport :=
  issues ← validate (indexes c) (decodedEntries c);
  Ok {| valid := len issues =? 0; report_indexes := len (all (indexes c));
        report_documents := documentCount c; issues := issues |}.

(** ** Inserting *)

(** [pending]: the keys of the batch so far, [None] for [undefined]. *)
Definition prepareInsert (document : DocumentValue) (generated : result bytes)
    (pending : option (list jsstring)) (c : InMemoryCollection J) : result PreparedInsert :=
  match document with
  | VDoc fields =>
      id ← resolveDocumentId fields generated;
      let key := CustomId.toHexString id in
      if omap_has (documents c) key
         || (match pending with Some pending => bool_decide (key ∈ pending) | None => false end)
      then collectionError DuplicateId
      else
        encoded ← catch (encodeDocument (with_id fields id)) (λ _, collectionError InvalidDocument);
        Ok {| id := id; insert_key := key; insert_encoded := encoded |}
  | _ => collectionError InvalidDocument
  end.

Definition insertOne (document : DocumentValue) (generated : result bytes) : action bytes :=
  c ← st_get (λ c, c);
  prepared ← st_lift (prepareInsert document generated None c);
  undo ← trackInsert prepared;
  _ ← commit_or [OpPut (insert_key prepared) (insert_encoded prepared)] (on_indexes (rollback undo));
  _ ← put (insert_key prepared) (insert_encoded prepared);
  mret (id prepared).

(** What the loop of [insertMany] has done: the inserts accepted, their undo
    functions, the keys, and the index and error of the first that failed. *)
Record Batch := {
  accepted : list PreparedInsert;
  rollbacks : list (list Undo);
  pending : list jsstring;
  failure : option (Z * exn);
}.

(** The body of the [try]: one document of the batch. *)
Definition insert_turn (document : DocumentValue) (generated : result bytes) (batch : Batch)
    : action Batch :=
  c ← st_get (λ c, c);
  prepared ← st_lift (prepareInsert document generated (Some (pending batch)) c);
  undo ← trackInsert prepared;
  mret {| accepted := accepted batch ++ [prepared]; rollbacks := rollbacks batch ++ [undo];
          pending := oset_add (pending batch) (insert_key prepared); failure := None |}.

Fixpoint insert_loop (documents : list (DocumentValue * result bytes)) (index : Z) (batch : Batch)
    : action Batch :=
  match documents with
  | [] => mret batch
  | (document, generated) :: documents =>
      turn ← st_catch (batch ← insert_turn document generated batch; mret (Some batch, None))
               (λ error,
                 if isStorageError error
                 then mret (None, Some (index, error))
                 else st_throw error);
      match turn with
      | (Some batch, _) => insert_loop documents (index + 1) batch
      | (None, failure) =>
          mret {| accepted := accepted batch; rollbacks := rollbacks batch;
                  pending := pending batch; failure := failure |}
      end
  end.

(** [documents]: the documents of the batch, each with the id it would get;
    [None] for a value that is no array. *)
Definition insertMany (documents : option (list (DocumentValue * result bytes)))
    : action (list bytes) :=
  match documents with
  | Some ((_ :: _) as documents) =>
      batch ← insert_loop documents 0
                {| accepted := []; rollbacks := []; pending := []; failure := None |};
      _ ← (if 0 <? len (accepted batch) then
             _ ← commit_or (map (λ e, OpPut (insert_key e) (insert_encoded e)) (accepted batch))
                   (st_each (λ undo, on_indexes (rollback undo)) (rev (rollbacks batch)));
             st_each (λ e, put (insert_key e) (insert_encoded e)) (accepted batch)
           else mret ());
      match failure batch with
      | Some (index, error) =>
          match storageCode error with
          | Some code => st_throw (InsertManyError index (map id (accepted batch)) code)
          | None => st_throw TypeError
          end
      | None => mret (map id (accepted batch))
      end
  | _ => st_throw (StorageError InvalidBatch)
  end.

(** ** Deleting *)
Definition compile (filter : DocumentValue) : result (Document * CompiledFilter) :=
  matches ← Filter.compileFilter filter;
  match filter with
  | VDoc fields => Ok (fields, matches)
  | _ => Throw TypeError
  end.

Definition change (key : jsstring) (before after : option Document) : DocumentChange :=
  {| IndexSet.IndexSet.key := key; before := before; after := after |}.

Definition deleteOne (filter : DocumentValue) : action Z :=
  '(fields, matches) ← st_lift (compile filter);
  c ← st_get (λ c, c);
  located ← st_lift (locate fields matches c);
  match located with
  | None => mret 0
  | Some located =>
      undo ← trackChanges [change (located_key located) (Some (located_document located)) None];
      _ ← commit_or [OpDelete (located_key located)] (on_indexes (rollback undo));
      _ ← remove (located_key located);
      mret 1
  end.

Definition deleteMany (filter : DocumentValue) : action Z :=
  '(fields, matches) ← st_lift (compile filter);
  c ← st_get (λ c, c);
  found ← st_lift (l ← candidates fields c; matching matches l);
  let changes :=
    if isEmpty (indexes c) then []
    else map (λ l, change (located_key l) (Some (located_document l)) None) found in
  let keys := map located_key found in
  undo ← trackChanges changes;
  _ ← (if 0 <? len keys then commit_or (map OpDelete keys) (on_indexes (rollback undo))
       else mret ());
  _ ← st_each remove keys;
  mret (len keys).

(** ** Replacing and updating *)
Definition prepareUpdate (located : LocatedDocument) (apply : Update.CompiledUpdate)
    : result (option bytes) :=
  document ← apply (located_document located);
  encoded ← encodeStoredDocument document;
  Ok (if Filter.bytesEqual encoded (located_encoded located) then None else Some encoded).

(** [requested instanceof CustomId && requested.equals(id)]. *)
Definition same_id (requested : option DocumentValue) (id : bytes) : bool :=
  match requested with Some (VId r) => CustomId.equals r id | _ => false end.

Definition replaceOne (filter replacement : DocumentValue) (upsert : option DocumentValue)
    (generated : result bytes) : action StorageUpdateResult :=
  '(fields, matches) ← st_lift (compile filter);
  upsert ← st_lift (validateUpsert upsert);
  replacement ← st_lift (validateReplacement replacement);
  c ← st_get (λ c, c);
  located ← st_lift (locate fields matches c);
  let requested := obj_get replacement (js "_id") in
  match located with
  | None =>
      if negb upsert
      then mret {| matchedCount := 0; modifiedCount := 0; upsertedId := None |}
      else
        document ←
          match obj_get fields (js "_id") with
          | Some (VId filterId) =>
              if omap_has replacement (js "_id")
              then (if same_id requested filterId then mret replacement else st_lift immutableId)
              else mret (with_id replacement filterId)
          | _ => mret replacement
          end;
        insertedId ← insertOne (VDoc document) generated;
        mret {| matchedCount := 0; modifiedCount := 0; upsertedId := Some insertedId |}
  | Some located =>
      match obj_get (located_document located) (js "_id") with
      | Some (VId existingId) =>
          if omap_has replacement (js "_id") && negb (same_id requested existingId)
          then st_lift immutableId
          else
            encoded ← st_lift (encodeStoredDocument (with_id replacement existingId));
            if Filter.bytesEqual encoded (located_encoded located)
            then mret {| matchedCount := 1; modifiedCount := 0; upsertedId := None |}
            else
              after ← st_lift (decodeDocument encoded);
              undo ← trackChanges
                [change (located_key located) (Some (located_document located)) (Some after)];
              _ ← commit_or [OpPut (located_key located) encoded] (on_indexes (rollback undo));
              _ ← put (located_key located) encoded;
              mret {| matchedCount := 1; modifiedCount := 1; upsertedId := None |}
      | _ => st_throw TypeError
      end
  end.

Definition upsertFromUpdate (filter : Document) (apply : Update.CompiledUpdate) (upsert : bool)
    (generated : result bytes) : action StorageUpdateResult :=
  if negb upsert
  then mret {| matchedCount := 0; modifiedCount := 0; upsertedId := None |}
  else
    seed ← st_lift (Update.seedDocumentFromFilter filter);
    document ← st_lift (apply seed);
    insertedId ← insertOne (VDoc document) generated;
    mret {| matchedCount := 0; modifiedCount := 0; upsertedId := Some insertedId |}.

Definition updateOne (filter update : DocumentValue) (upsert : option DocumentValue)
    (generated : result bytes) : action StorageUpdateResult :=
  '(fields, matches) ← st_lift (compile filter);
  apply ← st_lift (Update.compileUpdate update);
  upsert ← st_lift (validateUpsert upsert);
  c ← st_get (λ c, c);
  located ← st_lift (locate fields matches c);
  match located with
  | None => upsertFromUpdate fields apply upsert generated
  | Some located =>
      before ← st_lift (if isEmpty (indexes c) then Ok None
                        else d ← decodeDocument (located_encoded located); Ok (Some d));
      pending ← st_lift (prepareUpdate located apply);
      match pending with
      | None => mret {| matchedCount := 1; modifiedCount := 0; upsertedId := None |}
      | Some encoded =>
          after ← st_lift (decodeDocument encoded);
          undo ← trackChanges [change (located_key located) before (Some after)];
          _ ← commit_or [OpPut (located_key located) encoded] (on_indexes (rollback undo));
          _ ← put (located_key located) encoded;
          mret {| matchedCount := 1; modifiedCount := 1; upsertedId := None |}
      end
  end.

(** One turn of the loop of [updateMany] on a document that may match: how many
    matched, the documents to write and the changes of the indexes. *)
Definition update_turn (matches : CompiledFilter) (apply : Update.CompiledUpdate) (indexed : bool)
    (entry : jsstring * bytes) (state : Z * list (jsstring * bytes) * list DocumentChange)
    : result (Z * list (jsstring * bytes) * list DocumentChange) :=
  let '(key, encoded) := entry in
  let '(matched, pending, changes) := state in
  document ← decodeDocument encoded;
  b ← matches document;
  if negb b then Ok state
  else
    before ← (if indexed then d ← decodeDocument encoded; Ok (Some d) else Ok None);
    prepared ← prepareUpdate {| located_key := key; located_encoded := encoded;
                                located_document := document |} apply;
    match prepared with
    | None => Ok (matched + 1, pending, changes)
    | Some bytes =>
        changes' ←
          match before with
          | None => Ok changes
          | Some before => after ← decodeDocument bytes; Ok (changes ++ [change key (Some before) (Some after)])
          end;
        Ok (matched + 1, pending ++ [(key, bytes)], changes')
    end.

Definition updateMany (filter update : DocumentValue) (upsert : option DocumentValue)
    (generated : result bytes) : action StorageUpdateResult :=
  '(fields, matches) ← st_lift (compile filter);
  apply ← st_lift (Update.compileUpdate update);
  upsert ← st_lift (validateUpsert upsert);
  c ← st_get (λ c, c);
  l ← st_lift (candidates fields c);
  '(matched, pending, changes) ←
    st_lift (foldM (update_turn matches apply (negb (isEmpty (indexes c)))) l (0, [], []));
  if matched =? 0 then upsertFromUpdate fields apply upsert generated
  else
    undo ← trackChanges changes;
    _ ← (if 0 <? len pending
         then commit_or (map (λ e, OpPut e.1 e.2) pending) (on_indexes (rollback undo))
         else mret ());
    _ ← st_each (λ e, put e.1 e.2) pending;
    mret {| matchedCount := matched; modifiedCount := len pending; upsertedId := None |}.

(** ** Indexes *)
Definition createIndex (input : Spec.CreateIndexInput) : action (jsstring * bool) :=
  spec ← st_lift (Spec.normalizeIndexSpec input);
  created ← buildIndex spec;
  _ ← (if created : bool then commit_or [OpCreateIndex spec] (removeIndex (Spec.name spec))
       else mret ());
  mret (Spec.name spec, created).

Definition dropIndex (name : jsstring) : action () :=
  if decide (name = Spec.ID_INDEX_NAME) then st_throw (StorageError InvalidIndex)
  else
    c ← st_get (λ c, c);
    if negb (IndexSet.IndexSet.has (indexes c) name) then st_throw (StorageError IndexNotFound)
    else
      _ ← commit [OpDropIndex name];
      removeIndex name.

Definition clear : action () :=
  match journal with
  | Some _ => st_throw JsError
  | None =>
      _ ← on_indexes IndexSet.IndexSet.clear;
      st_update (λ c, set_documents c [] None (nextSequence c))
  end.
End Collection.
End Collection.
