(* ===== verification/CollectionLemmas.v ===== *)
(** * Collections: the invariant and queries

    A collection stands for its documents in the order they were inserted, its
    view; the stored bytes, the indexes and the numbers of the documents follow
    from the view, and what the journal holds is the contents of the collection.
    With the invariant every query looks at the documents it should. *)

From stdpp Require Import gmap.
From S2P Require Import Prelude Errors JsNumber JsString JsValue Binary CustomId Codec Roundtrip Filter FilterSpec Sort Update FieldIndex IndexSpec IndexLemmas FieldIndexSpec IndexSet IndexSetSpec Planner PlannerSpec Stored Collection.
Import IndexSet.IndexSet Collection.Collection.

(** ** Generic lemmas *)
Lemma fold_oset_add_NoDup {A} `{EqDecision A} (l acc : list A) :
  NoDup acc → NoDup (fold_left oset_add l acc).
Proof.
  revert acc. induction l as [|x l IH]; intros acc Hacc; [done|]. cbn [fold_left].
  by apply IH, oset_add_NoDup.
Qed.

Lemma omap_get_keys {K V} `{EqDecision K} (m l : list (K * V)) :
  (∀ kv, kv ∈ l → omap_get m kv.1 = Some kv.2) →
  omap (λ key, v ← omap_get m key; Some (key, v)) (omap_keys l) = l.
Proof.
  induction l as [|[k v] l IH]; intros H; [done|]. cbn [omap_keys map omap list_omap fst].
  pose proof (H (k, v) (list_elem_of_here _ _)) as E. cbn in E. rewrite E. cbn. f_equal.
  apply IH. intros kv Hin. apply H. by right.
Qed.

Lemma filter_map {A B} (P : B → bool) (f : A → B) l :
  List.filter P (map f l) = map f (List.filter (λ x, P (f x)) l).
Proof. induction l as [|x l IH]; [done|]. cbn. rewrite IH. by destruct (P (f x)). Qed.

Lemma elem_of_filter_bool {A} (P : A → bool) l x : x ∈ List.filter P l ↔ x ∈ l ∧ P x = true.
Proof. by rewrite !list_elem_of_In, filter_In. Qed.

Lemma filter_NoDup {A} (P : A → bool) (l : list A) : NoDup l → NoDup (List.filter P l).
Proof.
  induction 1 as [|x l Hx Hl IH]; [constructor|]. cbn. destruct (P x); [|done].
  constructor; [|done]. by rewrite elem_of_filter_bool; intros [].
Qed.

Lemma filter_all {A} (P : A → bool) (l : list A) : (∀ x, x ∈ l → P x = true) → List.filter P l = l.
Proof.
  induction l as [|x l IH]; intros H; [done|]. cbn. rewrite H by left. f_equal.
  apply IH. intros y Hy. apply H. by right.
Qed.

Lemma filter_ext_elem {A} (P Q : A → bool) (l : list A) :
  (∀ x, x ∈ l → P x = Q x) → List.filter P l = List.filter Q l.
Proof.
  induction l as [|x l IH]; intros H; [done|]. cbn. rewrite H by left.
  rewrite IH; [done|]. intros y Hy. apply H. by right.
Qed.

Lemma StronglySorted_filter {A} (R : A → A → Prop) (P : A → bool) (l : list A) :
  StronglySorted R l → StronglySorted R (List.filter P l).
Proof.
  induction 1 as [|x l Hl IH Hx]; [constructor|]. cbn. destruct (P x); [|done].
  constructor; [done|]. rewrite Forall_forall in Hx |- *. intros y [Hy _]%elem_of_filter_bool. auto.
Qed.

(** ** Views *)
Abbreviation view := (list (jsstring * Document)).

Definition docs_of (v : view) : gmap jsstring Document := insert_entries ∅ v.

(** The [Map] of the stored bytes. *)
Definition image (v : view) : list (jsstring * bytes) := map (λ kd, (kd.1, enc (VDoc kd.2))) v.

Lemma insert_entries_lookup docs (v : view) k :
  NoDup (omap_keys v) →
  insert_entries docs v !! k = match omap_get v k with Some d => Some d | None => docs !! k end.
Proof.
  revert docs. induction v as [|[k' d] v IH]; intros docs; [done|].
  cbn [omap_keys map fst omap_get]. intros [Hk Hd]%NoDup_cons.
  change (insert_entries docs ((k', d) :: v)) with (insert_entries (<[k' := d]> docs) v).
  rewrite IH by done. case_decide as E; [|destruct (omap_get v k); [done|by rewrite lookup_insert_ne]].
  subst k'. assert (omap_get v k = None) as -> by (by apply omap_get_None). by rewrite lookup_insert_eq.
Qed.

Lemma docs_of_lookup (v : view) k : NoDup (omap_keys v) → docs_of v !! k = omap_get v k.
Proof.
  intros H. unfold docs_of. rewrite insert_entries_lookup by done. rewrite lookup_empty.
  by destruct (omap_get v k).
Qed.

Lemma docs_of_set (v : view) k d :
  NoDup (omap_keys v) → docs_of (omap_set v k d) = <[k := d]> (docs_of v).
Proof.
  intros H. apply map_eq. intros k'. rewrite docs_of_lookup by (by apply omap_set_NoDup).
  destruct (decide (k = k')) as [<-|Hne].
  - by rewrite omap_get_set, lookup_insert_eq.
  - by rewrite omap_get_set_ne, lookup_insert_ne, docs_of_lookup.
Qed.

Lemma docs_of_delete (v : view) k :
  NoDup (omap_keys v) → docs_of (omap_delete v k) = delete k (docs_of v).
Proof.
  intros H. apply map_eq. intros k'. rewrite docs_of_lookup by (by apply omap_delete_NoDup).
  destruct (decide (k = k')) as [<-|Hne].
  - by rewrite omap_get_delete, lookup_delete_eq.
  - by rewrite omap_get_delete_ne, lookup_delete_ne, docs_of_lookup.
Qed.

Lemma docs_of_size (v : view) : NoDup (omap_keys v) → size (docs_of v) = length v.
Proof.
  intros H. assert (docs_of v = list_to_map v) as ->.
  { apply map_eq. intros k. rewrite docs_of_lookup by done.
    destruct (omap_get v k) as [d|] eqn:E; symmetry.
    - apply elem_of_list_to_map_1; [exact H|]. by apply omap_get_Some_in.
    - apply not_elem_of_list_to_map_1. by apply omap_get_None. }
  rewrite <- length_map_to_list. by rewrite map_to_list_to_map by exact H.
Qed.

Lemma image_keys v : omap_keys (image v) = omap_keys v.
Proof. unfold omap_keys, image. by rewrite map_map. Qed.

Lemma image_get v k : omap_get (image v) k = (λ d, enc (VDoc d)) <$> omap_get v k.
Proof. induction v as [|[k' d] v IH]; [done|]. cbn. by case_decide. Qed.

Lemma image_set v k d : image (omap_set v k d) = omap_set (image v) k (enc (VDoc d)).
Proof. induction v as [|[k' d'] v IH]; [done|]. cbn. case_decide; [done|]. cbn. f_equal. exact IH. Qed.

Lemma image_delete v k : image (omap_delete v k) = omap_delete (image v) k.
Proof. induction v as [|[k' d'] v IH]; [done|]. cbn. case_decide; [done|]. cbn. f_equal. exact IH. Qed.

(** ** The journal *)

(** The contents of a collection, and what an operation of the journal makes of
    them when it is replayed. *)
Abbreviation contents := (list (jsstring * bytes) * list IndexSpec)%type.

Definition replay_one (a : contents) (operation : JournalOperation) : contents :=
  match operation with
  | OpPut key document => (omap_set a.1 key document, a.2)
  | OpDelete key => (omap_delete a.1 key, a.2)
  | OpCreateIndex spec => (a.1, a.2 ++ [spec])
  | OpDropIndex name => (a.1, List.filter (λ spec, negb (bool_decide (Spec.name spec = name))) a.2)
  end.

Definition replay (a : contents) (operations : list JournalOperation) : contents :=
  fold_left replay_one operations a.

(** There is room for one more index, and its name and field are free. *)
Definition index_free (spec : IndexSpec) (l : list IndexSpec) : Prop :=
  (Spec.name spec ∉ map Spec.name l) ∧ (Spec.field spec ∉ map Spec.field l) ∧ len l < Spec.MAX_INDEXES_PER_COLLECTION.

Definition entry_ok (kd : jsstring * Document) : Prop :=
  stored (enc (VDoc kd.2)) kd.2 ∧
  ∃ id, obj_get kd.2 (js "_id") = Some (VId id) ∧ kd.1 = CustomId.toHexString id.

Definition view_ok (v : view) : Prop :=
  NoDup (omap_keys v) ∧ Forall entry_ok v.

(** An operation that a collection with the contents [a] can ask to record. *)
Definition operation_ok (a : contents) (operation : JournalOperation) : Prop :=
  match operation with
  | OpPut key document => ∃ d, entry_ok (key, d) ∧ document = enc (VDoc d)
  | OpDelete key => ∃ i, wf_value (VId i) = true ∧ key = CustomId.toHexString i
  | OpCreateIndex spec => index_free spec a.2 ∧ plain_spec spec
  | OpDropIndex name => name ∈ map Spec.name a.2
  end.

Fixpoint operations_ok (a : contents) (operations : list JournalOperation) : Prop :=
  match operations with
  | [] => True
  | operation :: operations =>
      operation_ok a operation ∧ operations_ok (replay_one a operation) operations
  end.

(** Contents that a collection can be opened with. *)
Definition openable (a : contents) : Prop :=
  ∃ v, a.1 = image v ∧ view_ok v ∧ len v < 2 ^ 31 ∧
    Forall (λ spec, unique_ok spec (fields_in spec (docs_of v))) a.2.

(** What a collection asks of its journal: operations that make sense, and lead to
    contents that it can be opened with. *)
Record proper (a : contents) (operations : list JournalOperation) : Prop := {
  proper_operations : operations_ok a operations;
  proper_openable : openable (replay a operations);
}.

Definition creates (operations : list JournalOperation) : Prop :=
  ∃ spec, OpCreateIndex spec ∈ operations.

(** What a journal promises: [durable s a] says that its state [s] holds the
    contents [a]. A commit that returns has recorded its operations as one unit,
    one that throws has recorded none. It may promise so only for what is [calm]:
    in the states in which a collection calls it, and for what it records then. *)
Class JournalLaws {J} (journal : option (list JournalOperation → ST J exn ()))
    (durable : J → contents → Prop) (calm : J → contents → list JournalOperation → Prop) : Prop := {
  commit_records : ∀ s s' a operations,
    durable s a → proper a operations → calm s a operations →
    match journal with Some j => j operations s = (Ok (), s') | None => s' = s end →
    durable s' (replay a operations);
  commit_fails : ∀ j s s' a operations e,
    durable s a → proper a operations → calm s a operations →
    journal = Some j → j operations s = (Throw e, s') → durable s' a;
}.

(** ** The invariant *)
Definition defs (s : IndexSet) : jsstring → option IndexSpec :=
  λ name, FieldIndex.FieldIndex.spec <$> omap_get s name.

(** The indexes agree with the documents, and each has its own name. *)
Record indexed (s : IndexSet) (docs : gmap jsstring Document) : Prop := {
  indexed_set : set_inv (defs s) s docs;
  indexed_names : omap_keys s = map Spec.name (specs s);
}.

Definition contents_of {J} (c : InMemoryCollection J) : contents :=
  (documents c, specs (indexes c)).

(** The collection may record its changes now, and create an index. *)
Class MayCommit {J} (calm : J → contents → list JournalOperation → Prop) (c : InMemoryCollection J) : Prop :=
  may_commit operations : ¬ creates operations → calm (journalState c) (contents_of c) operations.

Class MayCreate {J} (calm : J → contents → list JournalOperation → Prop) (c : InMemoryCollection J) : Prop :=
  may_create spec : calm (journalState c) (contents_of c) [OpCreateIndex spec].

(** The documents are numbered in the order they are in. *)
Definition seq_inv (keys : list jsstring) (s : list (jsstring * Z)) (next : Z) : Prop :=
  StronglySorted (λ a b, sequence_cmp s a b < 0) keys ∧
  Forall (λ k, ∃ n, omap_get s k = Some n ∧ n < next) keys.

Record coll_inv {J} (durable : J → contents → Prop) (c : InMemoryCollection J) (v : view) : Prop := {
  inv_documents : documents c = image v;
  inv_view : view_ok v;
  inv_indexed : indexed (indexes c) (docs_of v);
  inv_sequence : match sequence c with
                 | None => isEmpty (indexes c) = true
                 | Some s => seq_inv (omap_keys v) s (nextSequence c)
                 end;
  inv_durable : durable (journalState c) (contents_of c);
}.

(** ** Candidates *)
Lemma set_inv_consistent s docs : set_inv (defs s) s docs → consistent docs (all s).
Proof.
  intros [_ [Hn Hs Hi] _]. apply Forall_forall. intros ix Hin. unfold all in Hin.
  apply list_elem_of_fmap in Hin as ([name ix'] & -> & Hin). cbn.
  apply omap_get_in in Hin; [|done]. destruct (Hi _ _ Hin) as [Hu H]. split; [done|].
  unfold all_fields, defs in H. by rewrite Hin in H.
Qed.

Lemma view_keyed v : view_ok v → keyed (docs_of v).
Proof.
  intros [Hn Hv] k d. rewrite docs_of_lookup by done. intros H%omap_get_Some_in.
  rewrite Forall_forall in Hv. by destruct (Hv _ H) as [_ ?].
Qed.

Lemma candidateKeys_NoDup p keys : Planner.candidateKeys p = Ok keys → NoDup keys.
Proof.
  destruct p as [|ks e|ix [vs|vc lo up] b e]; cbn [Planner.candidateKeys]; [done|..].
  - intros [= <-]. apply fold_oset_add_NoDup. constructor.
  - apply (foldM_inv NoDup); [|constructor]. intros v s s' _ Hs H.
    apply bind_Ok_inv in H as (ks & _ & H). injection H as <-. by apply fold_oset_add_NoDup.
  - intros [= <-]. unfold FieldIndex.FieldIndex.lookupRange. cbv zeta.
    destruct (FieldIndex.FieldIndex.rangeEntries ix vc lo up) as [start last].
    match goal with |- NoDup (fold_left ?f ?es []) =>
      cut (∀ acc, NoDup acc → NoDup (fold_left f es acc)); [intros H; by apply H, NoDup_nil_2|];
      induction es as [|x l IH]; intros acc Hacc; [done|]; cbn [fold_left]; apply IH end.
    by apply fold_oset_add_NoDup.
Qed.

(** Keys sorted by their numbers are in the order of the documents. *)
Lemma sorted_by_number docs_keys s next keys :
  NoDup docs_keys → seq_inv docs_keys s next → NoDup keys →
  (∀ k, k ∈ keys → k ∈ docs_keys) →
  sort_by (sequence_cmp s) keys = List.filter (λ k, bool_decide (k ∈ keys)) docs_keys.
Proof.
  intros Hnd [Hs Hn] Hk Hin.
  set (cmp := λ a b : jsstring, default 0 (omap_get s a) - default 0 (omap_get s b)).
  assert (CmpOrder cmp) as Ho by (unfold cmp; split; lia).
  assert (∀ a b, a ∈ docs_keys → b ∈ docs_keys → sequence_cmp s a b = cmp a b) as E.
  { rewrite Forall_forall in Hn. intros a b Ha Hb. destruct (Hn a Ha) as (n & En & _).
    destruct (Hn b Hb) as (m & Em & _). unfold sequence_cmp, cmp. by rewrite En, Em. }
  rewrite (sort_by_ext _ cmp) by (intros a b Ha Hb; apply E; by apply Hin).
  assert (StronglySorted (λ a b, cmp a b < 0) docs_keys) as Hs'.
  { clear -Hs E. induction Hs as [|x l Hl IH Hx]; [constructor|]. constructor.
    - apply IH. intros a b Ha Hb. apply E; by right.
    - rewrite Forall_forall in Hx |- *. intros y Hy. rewrite <- E; [by apply Hx|left|by right]. }
  apply (sorted_unique cmp).
  - rewrite sort_by_perm. apply NoDup_Permutation; [done|by apply filter_NoDup|].
    intros k. rewrite elem_of_filter_bool, bool_decide_eq_true. naive_solver.
  - assert (∀ x y, x ∈ docs_keys → y ∈ docs_keys → cmp x y = 0 → x = y) as Hsep.
    { clear -Hs' Ho. induction Hs' as [|z l Hl IH Hz]; [by intros x y ?%not_elem_of_nil|].
      rewrite Forall_forall in Hz. intros x y [->|Hx]%elem_of_cons [->|Hy]%elem_of_cons Exy; auto.
      - specialize (Hz _ Hy). lia.
      - specialize (Hz _ Hx). apply (cmp_eq_sym cmp) in Exy. lia. }
    intros x y. rewrite !sort_by_perm. auto.
  - by apply sort_by_sorted.
  - apply StronglySorted_filter. clear -Hs'. induction Hs' as [|z l Hl IH Hz]; [constructor|].
    constructor; [done|]. eapply Forall_impl; [exact Hz|]. unfold cmp_le. intros; lia.
Qed.

Section Queries.
Context {J : Type} {durable : J → contents → Prop}.
Implicit Types c : InMemoryCollection J.

(** The candidates are some of the documents, in order, with every document that
    matches the filter. *)
Lemma candidates_spec c v filter :
  coll_inv durable c v → encodable (VDoc filter) →
  ∃ P : jsstring → bool,
    candidates filter c = Ok (List.filter (λ kb, P kb.1) (image v)) ∧
    ∀ kd, kd ∈ v → filter_holds (VDoc filter) kd.2 → P kd.1 = true.
Proof.
  intros [Hd Hv [Hset _] Hseq _] He. unfold candidates.
  assert (Ok (documents c) = Ok (E:=exn) (List.filter (λ _, true) (image v))) as Hall.
  { rewrite Hd. by rewrite filter_all. }
  destruct (isEmpty (indexes c)) eqn:Em; cbn [mbind res_bind].
  { exists (λ _, true). by split. }
  destruct (planQuery_Ok filter (all (indexes c)) (documentCount c) He) as (p & Ep & Hp).
  unfold plan. rewrite Ep. cbn [mbind res_bind].
  assert (∀ kd, kd ∈ v → filter_holds (VDoc filter) kd.2 → plan_covers p kd.1) as Hcov.
  { intros [k d] Hin Hf. pose proof Hv as [Hn _].
    apply (planQuery_covers filter (all (indexes c)) (docs_of v) (documentCount c) k d p);
      [| | |exact He| |exact Hf|exact Ep].
    - apply Hset.
    - by apply view_keyed.
    - by apply set_inv_consistent.
    - rewrite docs_of_lookup by done. by apply omap_get_in. }
  destruct (sequence c) as [s|]; [|congruence].
  assert (∀ keys, Planner.candidateKeys p = Ok keys →
    (∀ kd, kd ∈ v → filter_holds (VDoc filter) kd.2 → kd.1 ∈ keys) →
    ∃ P : jsstring → bool,
      Ok (E:=exn) (omap (λ key, encoded ← omap_get (documents c) key; Some (key, encoded))
           (sort_by (sequence_cmp s) (List.filter (λ key, omap_has (documents c) key) keys)))
        = Ok (List.filter (λ kb, P kb.1) (image v)) ∧
      ∀ kd, kd ∈ v → filter_holds (VDoc filter) kd.2 → P kd.1 = true) as Hkeys.
  { intros keys Ek Hin. pose proof Hv as [Hn _].
    set (present := List.filter (λ key, omap_has (documents c) key) keys).
    assert (∀ k, k ∈ present ↔ k ∈ keys ∧ k ∈ omap_keys v) as Hpres.
    { intros k. unfold present. rewrite elem_of_filter_bool. unfold omap_has. rewrite Hd, image_get.
      destruct (omap_get v k) as [d|] eqn:E; cbn.
      - apply omap_get_Some_in, (list_elem_of_fmap_2 fst) in E. naive_solver.
      - apply omap_get_None in E. naive_solver. }
    exists (λ k, bool_decide (k ∈ present)). split.
    - rewrite (sorted_by_number (omap_keys v) s (nextSequence c)); [|done|done| |by intros k [_ ?]%Hpres].
      2: { apply filter_NoDup. by eapply candidateKeys_NoDup. }
      f_equal. rewrite <- image_keys. unfold omap_keys. rewrite filter_map, Hd. apply omap_get_keys.
      intros [k b] [Hkb _]%elem_of_filter_bool. apply omap_get_in; [by rewrite image_keys|done].
    - intros [k d] Hkd Hf. apply bool_decide_eq_true, Hpres. split; [by apply (Hin (k, d))|].
      by apply (list_elem_of_fmap_2 fst) in Hkd. }
  pose proof (candidateKeys_Ok p Hp) as Hok.
  destruct p as [est|ks est|ix acc b est]; [exists (λ _, true); by split|..];
    destruct Hok as [keys Ek]; rewrite Ek; cbn [mbind res_bind]; (apply Hkeys; [done|]);
    intros kd Hin Hf; destruct (Hcov kd Hin Hf) as (keys' & Ek' & Hk); congruence.
Qed.

(** ** Loops over candidates *)

(** What a compiled filter answers, [false] if it throws. *)
Definition matched (m : CompiledFilter) (d : Document) : bool :=
  match m d with Ok b => b | Throw _ => false end.

Definition located (kd : jsstring * Document) : LocatedDocument :=
  {| located_key := kd.1; located_encoded := enc (VDoc kd.2); located_document := kd.2 |}.

Section Loops.
Context (m : CompiledFilter) (P : jsstring → bool) (v : view).
Context (Hv : Forall entry_ok v) (Hm : ∀ d, encodable (VDoc d) → m d = Ok (matched m d)).
Context (HP : ∀ kd, kd ∈ v → matched m kd.2 = true → P kd.1 = true).

Let found := List.filter (λ kd : jsstring * Document, matched m kd.2) v.

Lemma first_match_spec :
  first_match m (List.filter (λ kb, P kb.1) (image v)) = Ok (located <$> head found).
Proof.
  unfold found. clear found. induction Hv as [|[k d] l [Hs _] Hl IH]; [done|]. cbn [image map List.filter fst snd].
  fold (image l). specialize (IH Hl (λ kd Hin, HP kd (list_elem_of_further _ _ _ Hin))).
  pose proof (HP (k, d) (list_elem_of_here _ _)) as Hk. cbn [fst snd] in Hk, Hs.
  destruct (matched m d) eqn:E.
  - rewrite Hk by done. cbn [first_match]. rewrite (stored_decode _ _ Hs). cbn [mbind res_bind].
    by rewrite (Hm d (stored_encodable _ _ Hs)), E.
  - destruct (P k); [|done]. cbn [first_match]. rewrite (stored_decode _ _ Hs). cbn [mbind res_bind].
    rewrite (Hm d (stored_encodable _ _ Hs)), E. exact IH.
Qed.

Lemma matching_spec :
  matching m (List.filter (λ kb, P kb.1) (image v)) = Ok (map located found).
Proof.
  unfold found. clear found. induction Hv as [|[k d] l [Hs _] Hl IH]; [done|]. cbn [image map List.filter fst snd].
  fold (image l). specialize (IH Hl (λ kd Hin, HP kd (list_elem_of_further _ _ _ Hin))).
  pose proof (HP (k, d) (list_elem_of_here _ _)) as Hk. cbn [fst snd] in Hk, Hs.
  destruct (P k).
  - cbn [matching]. rewrite (stored_decode _ _ Hs). cbn [mbind res_bind].
    rewrite (Hm d (stored_encodable _ _ Hs)). cbn [mbind res_bind]. rewrite IH. cbn [mbind res_bind].
    by destruct (matched m d).
  - destruct (matched m d); [by specialize (Hk eq_refl)|exact IH].
Qed.

Lemma scan_loop_spec skip limit skipped yielded :
  0 ≤ skipped ≤ skip → 0 ≤ yielded →
  scan_loop m skip limit (List.filter (λ kb, P kb.1) (image v)) skipped yielded =
  Ok (let rest := skipn (Z.to_nat (skip - skipped)) (map snd found) in
      match limit with None => rest | Some limit => firstn (Z.to_nat (limit - yielded)) rest end).
Proof.
  unfold found. clear found. revert skipped yielded.
  induction Hv as [|[k d] l [Hs _] Hl IH]; intros skipped yielded Hsk Hy.
  { cbn. rewrite drop_nil. destruct limit; [by rewrite take_nil|done]. }
  cbn [image map List.filter fst snd].
  fold (image l). specialize (IH Hl (λ kd Hin, HP kd (list_elem_of_further _ _ _ Hin))).
  pose proof (HP (k, d) (list_elem_of_here _ _)) as Hk. cbn [fst snd] in Hk, Hs.
  assert (∀ rest : list Document, match limit with Some limit => limit <=? yielded | None => false end = true →
    match limit with None => rest | Some limit => firstn (Z.to_nat (limit - yielded)) rest end = []) as Hlim.
  { intros rest. destruct limit as [n|]; [|done]. intros ?%Z.leb_le.
    by replace (Z.to_nat (n - yielded)) with 0%nat by lia. }
  destruct (P k) eqn:EP.
  2: { destruct (matched m d); [by specialize (Hk eq_refl)|by apply IH]. }
  cbn [scan_loop]. destruct (match limit with Some _ => _ | None => false end) eqn:El.
  { by rewrite Hlim. }
  rewrite (stored_decode _ _ Hs). cbn [mbind res_bind].
  rewrite (Hm d (stored_encodable _ _ Hs)). cbn [mbind res_bind].
  destruct (matched m d); cbn [negb map snd]; [|by apply IH].
  destruct (Z.ltb_spec skipped skip).
  - rewrite IH by lia. f_equal. cbv zeta.
    replace (Z.to_nat (skip - skipped)) with (S (Z.to_nat (skip - (skipped + 1)))) by lia. done.
  - rewrite IH by lia. cbn [mbind res_bind]. f_equal. cbv zeta.
    replace (skip - skipped) with 0 by lia. cbn [Z.to_nat skipn].
    destruct limit as [n|]; [|done]. apply Z.leb_gt in El.
    by replace (Z.to_nat (n - yielded)) with (S (Z.to_nat (n - (yielded + 1)))) by lia.
Qed.
End Loops.

Lemma slice_spec l skip limit :
  0 ≤ skip →
  slice l skip limit =
  let rest := skipn (Z.to_nat skip) l in
  match limit with None => rest | Some limit => firstn (Z.to_nat limit) rest end.
Proof.
  intros Hs. unfold slice. cbv zeta.
  assert (∀ (k : list Document) z, 0 ≤ z → skipn (Z.to_nat (Z.min z (len k))) k = skipn (Z.to_nat z) k) as H1.
  { intros k z Hz. destruct (Z.le_gt_cases z (len k)); [by rewrite Z.min_l|].
    rewrite Z.min_r by lia. unfold len in *. rewrite !drop_ge; [done|lia|lia]. }
  assert (∀ (k : list Document) z, firstn (Z.to_nat (Z.min z (len k))) k = firstn (Z.to_nat z) k) as H2.
  { intros k z. destruct (Z.le_gt_cases z (len k)); [by rewrite Z.min_l|].
    rewrite Z.min_r by lia. unfold len in *. rewrite !take_ge; [done|lia|lia]. }
  rewrite H1 by done. destruct limit; [by rewrite H2|done].
Qed.
End Queries.
