(* ===== verification/CollectionQueries.v ===== *)
(** * Collections: queries

    Queries return what a scan of all the documents would: the indexes change
    how many documents are looked at, and nothing else. *)

From stdpp Require Import gmap.
From S2P Require Import Prelude Errors JsNumber JsString JsValue Binary CustomId Codec Roundtrip Filter FilterSpec Sort Update FieldIndex IndexSpec IndexLemmas FieldIndexSpec IndexSet IndexSetSpec Planner PlannerSpec Stored Collection CollectionLemmas.
Import IndexSet.IndexSet Collection.Collection.

(** ** Filters *)
Lemma compile_spec filter fields m :
  compile filter = Ok (fields, m) → wf_value filter = true →
  filter = VDoc fields ∧ encodable filter ∧ Filter.compileFilter filter = Ok m ∧
  ∀ d, encodable (VDoc d) → m d = Ok (matched m d) ∧ (matched m d = true ↔ filter_holds filter d).
Proof.
  intros H Hw. unfold compile in H. apply bind_Ok_inv in H as (m' & Hm & H).
  destruct filter; try done. injection H as <- <-.
  pose proof (compileFilter_yields (VDoc fields0)) as Hy. rewrite Hm in Hy.
  destruct Hy as (_ & Hf & _). split; [done|]. split; [done|]. split; [done|]. intros d Hd.
  destruct (compileFilter_decides _ _ _ Hm Hw Hd) as (b & E & Hb). unfold matched. by rewrite E.
Qed.

(** The documents of a view that a filter selects. *)
Definition selected (m : CompiledFilter) (v : view) : view :=
  List.filter (λ kd, matched m kd.2) v.

Lemma selected_docs m v : map snd (selected m v) = List.filter (matched m) (map snd v).
Proof. unfold selected. by rewrite filter_map. Qed.

(** A condition on _id leaves one document to look at. *)
Lemma filter_id_key fields id kd :
  filter_holds (VDoc fields) kd.2 → obj_get fields (js "_id") = Some (VId id) →
  entry_ok kd → kd.1 = CustomId.toHexString id.
Proof.
  intros H Hid (_ & did & Hd & ->). cbn [filter_holds] in H.
  apply omap_get_Some_in in Hid. apply (all_entries_in _ _ _ _ H) in Hid. cbv beta in Hid.
  change (starts_dollar (js "_id")) with false in Hid. cbv iota in Hid.
  unfold field_holds in Hid. cbn [Filter.isOperatorDocument] in Hid.
  change (split_dot (js "_id")) with [js "_id"] in Hid. cbn [Filter.resolveField] in Hid.
  rewrite Hd in Hid. destruct Hid as (x & [= <-] & E). unfold equiv, value_equiv in E.
  cbn [canon] in E. by injection E as <-.
Qed.

Lemma selected_key m (v : view) key :
  NoDup (omap_keys v) → (∀ kd, kd ∈ v → matched m kd.2 = true → kd.1 = key) →
  head (selected m v) =
    match omap_get v key with
    | Some d => if matched m d then Some (key, d) else None
    | None => None
    end.
Proof.
  induction v as [|[k d] v IH]; intros Hn Hk; [done|]. cbn [omap_keys map fst] in Hn.
  apply NoDup_cons in Hn as [Hk1 Hn]. cbn [selected List.filter omap_get snd]. fold (selected m v).
  specialize (IH Hn (λ kd Hin, Hk kd (list_elem_of_further _ _ _ Hin))).
  pose proof (Hk (k, d) (list_elem_of_here _ _)) as E. cbn in E. case_decide as Hkey.
  - subst k. destruct (matched m d); [done|]. rewrite IH.
    assert (omap_get v key = None) as -> by (by apply omap_get_None). done.
  - destruct (matched m d); [by destruct Hkey; rewrite E|]. apply IH.
Qed.

(** ** Queries *)
(** What [find] returns, looking at every document. *)
Definition find_reference (filter : DocumentValue) (options : StorageFindOptions)
    (docs : list Document) : result (list Document) :=
  matches ← Filter.compileFilter filter;
  sorter ← (match find_sort options with
            | None => Ok (λ docs, docs)
            | Some specification => Sort.compileSort specification
            end);
  skip ← validateSkip (find_skip options);
  limit ← validateLimit (find_limit options);
  Ok (slice (sorter (List.filter (matched matches) docs)) skip limit).

Definition findOne_reference (filter : DocumentValue) (docs : list Document)
    : result (option Document) :=
  matches ← Filter.compileFilter filter;
  Ok (head (List.filter (matched matches) docs)).

Section Spec.
Context {J : Type} (journal : option (list JournalOperation → ST J exn ())).
Context (durable : J → contents → Prop).
Implicit Types c : InMemoryCollection J.

Lemma view_entry_ok c v : coll_inv durable c v → Forall entry_ok v.
Proof. intros [_ [_ H] _ _ _]. exact H. Qed.

Lemma entry_encodable kd : entry_ok kd → encodable (VDoc kd.2).
Proof. intros [H _]. apply H. Qed.

(** The candidates of a query, ready for the loops over them. *)
Lemma query_candidates c v filter fields m :
  coll_inv durable c v → compile filter = Ok (fields, m) → wf_value filter = true →
  ∃ P : jsstring → bool, candidates fields c = Ok (List.filter (λ kb, P kb.1) (image v)) ∧
    ∀ kd, kd ∈ v → matched m kd.2 = true → P kd.1 = true.
Proof.
  intros Hc Hm Hw. destruct (compile_spec _ _ _ Hm Hw) as (-> & He & _ & Hdec).
  destruct (candidates_spec c v fields Hc He) as (P & E & HP). exists P. split; [done|].
  intros kd Hin Hk. apply HP; [done|]. pose proof (view_entry_ok _ _ Hc) as Hv.
  rewrite Forall_forall in Hv. by apply Hdec; [apply entry_encodable, Hv|].
Qed.

Lemma locate_spec c v filter fields m :
  coll_inv durable c v → compile filter = Ok (fields, m) → wf_value filter = true →
  locate fields m c = Ok (located <$> head (selected m v)).
Proof.
  intros Hc Hm Hw. pose proof (view_entry_ok _ _ Hc) as Hv.
  destruct (query_candidates _ _ _ _ _ Hc Hm Hw) as (P & EP & HP).
  destruct (compile_spec _ _ _ Hm Hw) as (-> & He & _ & Hdec).
  assert (∀ d, encodable (VDoc d) → m d = Ok (matched m d)) as Hm' by (intros; by apply Hdec).
  assert ((l ← candidates fields c; first_match m l) = Ok (located <$> head (selected m v))) as Hall.
  { rewrite EP. cbn [mbind res_bind]. by apply first_match_spec. }
  unfold locate. destruct (obj_get fields (js "_id")) as [w|] eqn:Eid; [|exact Hall].
  destruct w; try exact Hall. clear Hall.
  pose proof Hc as [Hdoc [Hn _] _ _ _].
  rewrite (selected_key m v (CustomId.toHexString bs) Hn).
  2: { intros kd Hin Hk. rewrite Forall_forall in Hv. pose proof (Hv _ Hin) as Hok.
       eapply filter_id_key; [|exact Eid|exact Hok]. apply Hdec; [by apply entry_encodable|done]. }
  rewrite Hdoc, image_get. destruct (omap_get v (CustomId.toHexString bs)) as [d|] eqn:Ed; [|done].
  cbn [fmap option_fmap option_map]. apply omap_get_Some_in in Ed. rewrite Forall_forall in Hv.
  destruct (Hv _ Ed) as [Hs _]. cbn [snd] in Hs. rewrite (stored_decode _ _ Hs). cbn [mbind res_bind].
  rewrite (Hm' d) by apply Hs. cbn [mbind res_bind]. by destruct (matched m d).
Qed.

Lemma compile_doc fields m :
  Filter.compileFilter (VDoc fields) = Ok m → compile (VDoc fields) = Ok (fields, m).
Proof. intros E. unfold compile. by rewrite E. Qed.

Lemma findOne_spec c v filter :
  coll_inv durable c v → wf_value filter = true →
  findOne filter c = findOne_reference filter (map snd v).
Proof.
  intros Hc Hw. unfold findOne, findOne_reference.
  destruct (Filter.compileFilter filter) as [m|e] eqn:Em; [|done]. cbn [mbind res_bind].
  destruct filter as [| | | | | | | | |fields]; try done. pose proof (compile_doc _ _ Em) as Hm.
  pose proof (locate_spec _ _ _ _ _ Hc Hm Hw) as Hl. rewrite <- selected_docs.
  assert (head (map snd (selected m v)) = located_document <$> (located <$> head (selected m v))) as ->
    by (by destruct (selected m v) as [|[? ?] ?]).
  assert ((l ← candidates fields c; first_match m l) = Ok (located <$> head (selected m v)) →
    (l ← candidates fields c; found ← first_match m l;
     Ok (match found with Some l => Some (located_document l) | None => None end)) =
    Ok (located_document <$> (located <$> head (selected m v)))) as Hscan.
  { destruct (candidates fields c); [|done]. cbn [mbind res_bind]. intros ->. cbn [mbind res_bind].
    by destruct (head (selected m v)). }
  unfold locate in Hl. unfold findById. destruct (obj_get fields (js "_id")) as [w|]; [|by apply Hscan].
  destruct w; try (by apply Hscan).
  cbv zeta in Hl. destruct (omap_get _ _) as [b|]; cbn [mbind res_bind] in *; [|by injection Hl as <-].
  destruct (decodeDocument b) as [d|]; cbn [mbind res_bind] in *; [|done].
  destruct (m d) as [[]|]; cbn [mbind res_bind] in *; [by injection Hl as <-..|done].
Qed.

Lemma validateSkip_nonneg skip n : validateSkip skip = Ok n → 0 ≤ n.
Proof.
  unfold validateSkip. destruct skip as [x|]; [|by intros [= <-]].
  destruct (_ || _) eqn:E; [done|]. intros [= <-]. apply orb_false_iff in E as [_ ?%Z.ltb_ge]. done.
Qed.

Lemma find_spec c v filter options :
  coll_inv durable c v → wf_value filter = true →
  find filter options c = find_reference filter options (map snd v).
Proof.
  intros Hc Hw. unfold find, find_reference. pose proof (view_entry_ok _ _ Hc) as Hv.
  destruct (Filter.compileFilter filter) as [m|e] eqn:Em; [|done]. cbn [mbind res_bind].
  destruct filter as [| | | | | | | | |fields]; try done. pose proof (compile_doc _ _ Em) as Hm.
  destruct (query_candidates _ _ _ _ _ Hc Hm Hw) as (P & EP & HP).
  destruct (compile_spec _ _ _ Hm Hw) as (_ & He & _ & Hdec).
  assert (∀ d, encodable (VDoc d) → m d = Ok (matched m d)) as Hm' by (intros; by apply Hdec).
  rewrite <- selected_docs. unfold scan. rewrite EP. cbn [mbind res_bind].
  destruct (find_sort options) as [specification|].
  - destruct (Sort.compileSort specification) as [sorter|]; [|done]. cbn [mbind res_bind].
    destruct (validateSkip (find_skip options)) as [skip|]; [|done]. cbn [mbind res_bind].
    destruct (validateLimit (find_limit options)) as [limit|]; [|done]. cbn [mbind res_bind].
    rewrite (matching_spec m P v Hv Hm' HP). cbn [mbind res_bind]. rewrite map_map. done.
  - cbn [mbind res_bind]. destruct (validateSkip (find_skip options)) as [skip|] eqn:Es; [|done].
    cbn [mbind res_bind]. destruct (validateLimit (find_limit options)) as [limit|]; [|done].
    cbn [mbind res_bind]. apply validateSkip_nonneg in Es.
    rewrite (scan_loop_spec m P v Hv Hm' HP) by lia. rewrite slice_spec, Z.sub_0_r by done.
    cbv zeta. f_equal. destruct limit; [by rewrite Z.sub_0_r|done].
Qed.
End Spec.
