(* ===== verification/CollectionChanges.v ===== *)
(** * Collections: changes

    Every change of a collection goes through the same steps: the indexes are
    changed, the journal records the operations, the documents are written; if a
    step throws the indexes are changed back. Here: what each of the steps does,
    and what they do together. *)

From stdpp Require Import gmap.
From S2P Require Import Prelude Errors JsNumber JsString JsValue Binary CustomId Codec Roundtrip Filter FilterSpec Sort Update FieldIndex IndexSpec IndexLemmas FieldIndexSpec IndexSet IndexSetSpec Planner PlannerSpec Stored Collection CollectionLemmas.
Import IndexSet.IndexSet Collection.Collection.

(** ** Index sets *)
Lemma set_inv_defs sp s docs :
  set_inv sp s docs → set_inv (defs s) s docs ∧ ∀ name, defs s name = sp name.
Proof.
  intros [Hd [Hn Hs Hi] Hu]. assert (∀ name, defs s name = sp name) as E by apply Hs.
  split; [|done]. split; [done| |].
  - split; [done|done|]. intros name ix Hix. unfold all_fields. rewrite E. by apply Hi.
  - intros name spec. rewrite E. apply Hu.
Qed.

Lemma specs_eq s s' :
  NoDup (omap_keys s) → omap_keys s = omap_keys s' → (∀ name, defs s name = defs s' name) →
  specs s = specs s'.
Proof.
  revert s'. induction s as [|[k ix] s IH]; intros [|[k' ix'] s'] Hn Hk Hd; try done.
  cbn [omap_keys map fst] in Hk, Hn. injection Hk as <- Hk. apply NoDup_cons in Hn as [Hin Hn].
  unfold specs, all. cbn [map snd]. f_equal.
  - specialize (Hd k). unfold defs in Hd. cbn in Hd. rewrite !decide_True in Hd by done.
    by injection Hd.
  - apply IH; [done|done|]. intros name. destruct (decide (name = k)) as [->|Hne].
    + unfold defs. assert (omap_get s k = None) as -> by (by apply omap_get_None).
      assert (omap_get s' k = None) as -> by (apply omap_get_None; unfold omap_keys; congruence). done.
    + specialize (Hd name). unfold defs in Hd. cbn [omap_get] in Hd. by rewrite !decide_False in Hd.
Qed.

Lemma defs_eq s s' :
  omap_keys s = omap_keys s' → specs s = specs s' → ∀ name, defs s name = defs s' name.
Proof.
  revert s'. induction s as [|[k ix] s IH]; intros [|[k' ix'] s'] Hk Hs name; try done.
  cbn [omap_keys map fst] in Hk. injection Hk as <- Hk. unfold specs, all in Hs. cbn [map snd] in Hs.
  injection Hs as E Hs. unfold defs. cbn [omap_get]. case_decide; [cbn; by rewrite E|].
  by apply IH.
Qed.

Lemma isEmpty_specs s : isEmpty s = (len (specs s) =? 0).
Proof. unfold isEmpty, specs, all, len. by rewrite !length_map. Qed.

(** The same indexes, with the fields of other documents. *)
Lemma indexed_specs s s' docs docs' :
  indexed s docs → omap_keys s' = omap_keys s → set_inv (defs s) s' docs' →
  specs s' = specs s ∧ indexed s' docs'.
Proof.
  intros [Hs Hn] Hk Hs'. destruct (set_inv_defs _ _ _ Hs') as [Hs'' Hd].
  assert (specs s' = specs s) as E.
  { apply specs_eq; [apply Hs'|done|]. intros name. by rewrite Hd. }
  split; [done|]. split; [done|]. by rewrite Hk, E.
Qed.

Lemma indexed_keys s s' docs docs' :
  indexed s docs → indexed s' docs' → specs s' = specs s → omap_keys s' = omap_keys s.
Proof. intros [_ H] [_ H'] E. by rewrite H, H', E. Qed.

(** Some unique index could not hold the documents. *)
Definition violates (specs : list IndexSpec) (docs : gmap jsstring Document) : Prop :=
  ∃ spec, spec ∈ specs ∧ ¬ unique_ok spec (fields_in spec docs).

Lemma defs_in s name spec : defs s name = Some spec → spec ∈ specs s.
Proof.
  unfold defs, specs, all. destruct (omap_get s name) as [ix|] eqn:E; [|done]. intros [= <-].
  apply omap_get_Some_in in E. apply (list_elem_of_fmap_2 snd), (list_elem_of_fmap_2 FieldIndex.FieldIndex.spec) in E.
  done.
Qed.

Lemma applyChanges_indexed s docs changes :
  indexed s docs → changes_ok changes docs →
  match applyChanges changes s with
  | (Ok undo, s') =>
      specs s' = specs s ∧ indexed s' (after_changes changes docs) ∧
      ∀ s1, specs s1 = specs s → indexed s1 (after_changes changes docs) →
        ∃ s2, rollback undo s1 = (Ok (), s2) ∧ specs s2 = specs s ∧ indexed s2 docs
  | (Throw e, s') =>
      e = StorageError DuplicateKey ∧ specs s' = specs s ∧ indexed s' docs ∧
      violates (specs s) (after_changes changes docs)
  end.
Proof.
  intros Hi Hc. pose proof (applyChanges_outcome _ docs changes Hc s (indexed_set _ _ Hi)) as H.
  destruct (applyChanges changes s) as [[undo|e] s'].
  - destruct H as (Hk & Hs' & Hr). destruct (indexed_specs _ _ _ _ Hi Hk Hs') as [Es Hi'].
    split; [done|]. split; [done|]. intros s1 E1 H1.
    pose proof (indexed_keys _ _ _ _ Hi H1 E1) as Hk1.
    destruct (Hr s1 Hk1) as (s2 & Er & Hk2 & H2).
    { destruct H1 as [[H1a [H1b H1c H1d] H1e] _].
      pose proof (defs_eq s s1 (eq_sym Hk1) (eq_sym E1)) as Ed. split; [done| |].
      - split; [done|intros name; symmetry; apply Ed|]. intros name ix Hix. unfold all_fields.
        rewrite Ed. by apply H1d.
      - intros name spec. rewrite Ed. apply H1e. }
    exists s2. split; [done|]. exact (indexed_specs s s2 docs docs Hi Hk2 H2).
  - destruct H as (-> & Hk & Hs' & name & spec & Hsp & Hu).
    destruct (indexed_specs _ _ _ _ Hi Hk Hs') as [Es Hi']. split; [done|]. split; [done|].
    split; [done|]. exists spec. split; [by eapply defs_in|done].
Qed.

(** The documents keep the unique indexes. *)
Lemma indexed_unique s docs :
  indexed s docs → Forall (λ spec, unique_ok spec (fields_in spec docs)) (specs s).
Proof.
  intros [[_ [Hk _ _] Hu] _]. apply Forall_forall. intros spec Hin.
  unfold specs, all in Hin. apply list_elem_of_fmap in Hin as (ix & -> & Hin).
  apply list_elem_of_fmap in Hin as ([name ix'] & E & Hin). cbn in E. subst ix'.
  apply omap_get_in in Hin; [|done]. apply (Hu name). unfold defs. by rewrite Hin.
Qed.

Lemma view_length s v : NoDup (omap_keys v) → indexed s (docs_of v) → len v < 2 ^ 31.
Proof. intros Hn [[[_ Hs] _ _] _]. rewrite docs_of_size in Hs by done. exact Hs. Qed.

(** Operations that lead to documents which the indexes hold. *)
Lemma indexed_proper a operations s v :
  operations_ok a operations → replay a operations = (image v, specs s) → view_ok v →
  indexed s (docs_of v) → proper a operations.
Proof.
  intros Ho Hr Hv Hs. split; [done|]. exists v. rewrite Hr. split; [done|]. split; [done|].
  split; [eapply view_length; [apply Hv|done]|by apply indexed_unique].
Qed.

Lemma puts_ok a (l : view) :
  Forall entry_ok l → operations_ok a (map (λ e, OpPut e.1 e.2) (image l)).
Proof.
  revert a. induction l as [|[k d] l IH]; intros a; [done|]. intros [H Hl]%Forall_cons.
  split; [by exists d|]. by apply IH.
Qed.

Lemma deletes_ok a (v : view) :
  Forall entry_ok v → operations_ok a (map OpDelete (omap_keys v)).
Proof.
  revert a. induction v as [|[k d] v IH]; intros a; [done|]. intros [(Hs & i & Hi & Hk) Hv]%Forall_cons.
  split; [|by apply IH]. exists i. split; [|exact Hk]. cbn [snd] in *.
  eapply wf_document_get; [|exact Hi]. apply Hs.
Qed.

Lemma creates_cons operation operations :
  (∀ spec, operation ≠ OpCreateIndex spec) → ¬ creates operations → ¬ creates (operation :: operations).
Proof.
  intros H1 H2 (spec & [E|Hin]%elem_of_cons); [by apply (H1 spec)|]. apply H2. by exists spec.
Qed.

Lemma puts_create (l : list (jsstring * bytes)) : ¬ creates (map (λ e, OpPut e.1 e.2) l).
Proof. intros (spec & (e & E & _)%list_elem_of_fmap). done. Qed.

Lemma deletes_create (l : list jsstring) : ¬ creates (map OpDelete l).
Proof. intros (spec & (e & E & _)%list_elem_of_fmap). done. Qed.

Section Changes.
Context {J : Type} (journal : option (list JournalOperation → ST J exn ())).
Context (durable : J → contents → Prop) {calm : J → contents → list JournalOperation → Prop} `{!JournalLaws journal durable calm}.
Implicit Types c : InMemoryCollection J.

Abbreviation coll_inv := (coll_inv durable).

(** The documents of [c'] are those of [c], with their numbers. *)
Record same_documents c c' : Prop := {
  same_docs : documents c' = documents c;
  same_sequence : sequence c' = sequence c;
  same_next : nextSequence c' = nextSequence c;
}.

Lemma same_refl c : same_documents c c.
Proof. done. Qed.

Lemma same_trans c1 c2 c3 : same_documents c1 c2 → same_documents c2 c3 → same_documents c1 c3.
Proof. intros [] []. split; congruence. Qed.

(** A collection with the same documents, indexes as good, and a journal that
    holds the same contents, is as good. *)
Lemma coll_inv_same c c' v :
  coll_inv c v → same_documents c c' → specs (indexes c') = specs (indexes c) →
  indexed (indexes c') (docs_of v) → durable (journalState c') (contents_of c) → coll_inv c' v.
Proof.
  intros [H1 H2 H3 H4 H5] [E1 E2 E3] Es Hi Hd. split; [congruence|done|done| |].
  - rewrite E2, E3. destruct (sequence c); [done|]. by rewrite isEmpty_specs, Es, <- isEmpty_specs.
  - unfold contents_of in *. by rewrite E1, Es.
Qed.

(** The journal threw [e] instead of recording the operations. *)
Definition journal_threw (operations : list JournalOperation) c (e : exn) : Prop :=
  ∃ j s, journal = Some j ∧ j operations (journalState c) = (Throw e, s).

(** An undo function: whatever the journal holds, it brings the indexes back to
    the documents [docs]. *)
Definition undoes_to (undo : ST (InMemoryCollection J) exn ()) c docs : Prop :=
  ∀ j, ∃ s, undo (set_journal c j) = (Ok (), set_indexes (set_journal c j) s) ∧
    specs s = specs (indexes c) ∧ indexed s docs.

Lemma commit_or_outcome c a docs operations undo :
  durable (journalState c) a → proper a operations → calm (journalState c) a operations → undoes_to undo c docs →
  match commit_or journal operations undo c with
  | (Ok _, c') => c' = set_journal c (journalState c') ∧
      durable (journalState c') (replay a operations)
  | (Throw e, c') => journal_threw operations c e ∧ durable (journalState c') a ∧
      same_documents c c' ∧ specs (indexes c') = specs (indexes c) ∧ indexed (indexes c') docs
  end.
Proof.
  intros Hd Hp Hcr Hu. unfold commit_or, st_catch, commit. destruct journal as [j|] eqn:Ej.
  - destruct (j operations (journalState c)) as [[[]|e] s'] eqn:E.
    + split; [done|]. cbn. by eapply commit_records; [exact Hd|exact Hp| |].
    + unfold mbind, st_bind. destruct (Hu s') as (s & -> & Es & Hs). cbn.
      split; [by eexists _, _|]. split; [|done]. eapply commit_fails; [exact Hd|exact Hp| | |exact E]; done.
  - cbn. split; [by destruct c|]. by eapply commit_records; [exact Hd|exact Hp| |].
Qed.

(** *** Changing the indexes and recording the operations *)

(** Ready for the documents to be written. *)
Record ready c (operations : list JournalOperation) docs c' : Prop := {
  ready_same : same_documents c c';
  ready_specs : specs (indexes c') = specs (indexes c);
  ready_indexed : indexed (indexes c') docs;
  ready_durable : durable (journalState c') (replay (contents_of c) operations);
}.

(** The collection is as it was, and why. *)
Definition refused c v (operations : list JournalOperation) docs (e : exn) c' : Prop :=
  coll_inv c' v ∧ contents_of c' = contents_of c ∧
  (e = StorageError DuplicateKey ∧ violates (specs (indexes c)) docs ∨
   journal_threw operations c e).

Lemma track_outcome c docs changes :
  indexed (indexes c) docs → changes_ok changes docs →
  match trackChanges changes c with
  | (Ok undo, c') =>
      c' = set_indexes c (indexes c') ∧ specs (indexes c') = specs (indexes c) ∧
      indexed (indexes c') (after_changes changes docs) ∧
      (∀ s1, specs s1 = specs (indexes c) → indexed s1 (after_changes changes docs) →
        ∃ s2, rollback undo s1 = (Ok (), s2) ∧ specs s2 = specs (indexes c) ∧ indexed s2 docs)
  | (Throw e, c') =>
      c' = set_indexes c (indexes c') ∧ e = StorageError DuplicateKey ∧
      specs (indexes c') = specs (indexes c) ∧ indexed (indexes c') docs ∧
      violates (specs (indexes c)) (after_changes changes docs)
  end.
Proof.
  intros Hi Hc. pose proof (applyChanges_indexed _ _ _ Hi Hc) as H.
  unfold trackChanges, on_indexes. destruct (applyChanges changes (indexes c)) as [[undo|e] s'].
  - destruct H as (Es & Hi' & Hr). done.
  - destruct H as (-> & Es & Hi' & Hv). done.
Qed.

Lemma rollback_undoes c c1 docs docs' undo :
  specs (indexes c1) = specs (indexes c) → indexed (indexes c1) docs' →
  (∀ s1, specs s1 = specs (indexes c) → indexed s1 docs' →
    ∃ s2, rollback undo s1 = (Ok (), s2) ∧ specs s2 = specs (indexes c) ∧ indexed s2 docs) →
  undoes_to (on_indexes (rollback undo)) c1 docs.
Proof.
  intros E Hi Hr j. destruct (Hr (indexes c1) E Hi) as (s2 & Er & Es & Hs).
  exists s2. unfold on_indexes. cbn [indexes set_journal]. rewrite Er. split; [done|].
  by rewrite E.
Qed.

Lemma tracked_outcome {A} c `{!MayCommit calm c} v v' changes operations (k : ST (InMemoryCollection J) exn A) :
  coll_inv c v → changes_ok changes (docs_of v) → after_changes changes (docs_of v) = docs_of v' →
  view_ok v' → replay (contents_of c) operations = (image v', specs (indexes c)) →
  operations_ok (contents_of c) operations → ¬ creates operations →
  let docs' := docs_of v' in
  (∃ c', ready c operations docs' c' ∧
    (undo ← trackChanges changes; _ ← commit_or journal operations (on_indexes (rollback undo)); k) c
    = k c') ∨
  (∃ e c', refused c v operations docs' e c' ∧
    (undo ← trackChanges changes; _ ← commit_or journal operations (on_indexes (rollback undo)); k) c
    = (Throw e, c')).
Proof.
  intros Hc Hok Hafter Hv' Hr Hops Hcr docs'. pose proof Hc as [_ _ Hi _ Hd].
  pose proof (track_outcome c _ changes Hi Hok) as Ht. rewrite Hafter in Ht. fold docs' in Ht.
  unfold mbind, st_bind.
  destruct (trackChanges changes c) as [[undo|e] c1] eqn:E.
  - destruct Ht as (E1 & Es & Hi1 & Hrb).
    assert (same_documents c c1 ∧ journalState c1 = journalState c) as [Hs1 Ej]
      by (rewrite E1; done).
    pose proof (commit_or_outcome c1 (contents_of c) (docs_of v) operations
      (on_indexes (rollback undo))) as Hcm. rewrite Ej in Hcm.
    rewrite <- Es in Hr.
    specialize (Hcm Hd (indexed_proper _ _ _ v' Hops Hr Hv' Hi1) (may_commit _ Hcr) (rollback_undoes c c1 _ _ _ Es Hi1 Hrb)).
    destruct (commit_or journal operations (on_indexes (rollback undo)) c1) as [[u|e] c2].
    + left. exists c2. split; [|done]. destruct Hcm as [E2 Hd2].
      split; [|rewrite E2; exact Es|rewrite E2; exact Hi1|done].
      eapply same_trans; [exact Hs1|]. by rewrite E2.
    + right. exists e, c2. split; [|done]. destruct Hcm as (Hj & Hd2 & Hs2 & Es2 & Hi2).
      assert (same_documents c c2) as Hs by (by eapply same_trans).
      split; [eapply coll_inv_same; try done; congruence|]. split.
      * unfold contents_of. destruct Hs as [-> _ _]. by rewrite Es2, Es.
      * right. unfold journal_threw in Hj. by rewrite Ej in Hj.
  - right. destruct Ht as (E1 & -> & Es & Hi1 & Hv). eexists _, c1. split; [|done].
    assert (same_documents c c1 ∧ journalState c1 = journalState c) as [Hs1 Ej]
      by (rewrite E1; done).
    split; [eapply coll_inv_same; try done; by rewrite Ej|]. split; [|by left].
    unfold contents_of. destruct Hs1 as [-> _ _]. by rewrite Es.
Qed.
(** *** Writing the documents *)
Definition seq_ok c : Prop :=
  match sequence c with
  | None => isEmpty (indexes c) = true
  | Some s => seq_inv (omap_keys (documents c)) s (nextSequence c)
  end.

(** Only the documents and their numbers have changed. *)
Record written c docs c' : Prop := {
  written_docs : documents c' = docs;
  written_indexes : indexes c' = indexes c;
  written_journal : journalState c' = journalState c;
  written_seq : seq_ok c';
}.

Lemma seq_inv_ext keys s s' next next' :
  (∀ k, k ∈ keys → omap_get s' k = omap_get s k) → next ≤ next' →
  seq_inv keys s next → seq_inv keys s' next'.
Proof.
  intros E Hle [H1 H2]. rewrite Forall_forall in H2. split.
  - clear H2. induction H1 as [|k keys Hk IH Hx]; [constructor|]. constructor.
    + apply IH. intros k' Hk'. apply E. by right.
    + rewrite Forall_forall in Hx |- *. intros k' Hk'. specialize (Hx k' Hk').
      unfold sequence_cmp in *. by rewrite !E by (by first [left|right]).
  - apply Forall_forall. intros k Hk. destruct (H2 k Hk) as (n & En & Hn). exists n.
    rewrite E by done. split; [done|lia].
Qed.

Lemma seq_inv_snoc keys s next k :
  k ∉ keys → seq_inv keys s next → seq_inv (keys ++ [k]) (omap_set s k next) (next + 1).
Proof.
  intros Hk H. assert (seq_inv keys (omap_set s k next) (next + 1)) as [H1 H2].
  { apply (seq_inv_ext keys s _ next); [|lia|exact H]. intros k' Hk'. apply omap_get_set_ne. by intros ->. }
  destruct H as [_ H]. split.
  - clear H2. induction H1 as [|x keys Hx IH Hxs]; [repeat constructor|].
    apply not_elem_of_cons in Hk as [Hne Hk]. apply Forall_cons in H as [(n & En & Hn) H].
    cbn [app]. constructor; [by apply IH|]. apply Forall_app_2; [done|]. constructor; [|constructor].
    unfold sequence_cmp. rewrite omap_get_set, omap_get_set_ne, En by done. lia.
  - apply Forall_app_2; [done|]. constructor; [|constructor]. exists next. rewrite omap_get_set.
    split; [done|lia].
Qed.

Lemma seq_inv_sublist keys keys' s next :
  keys' `sublist_of` keys → seq_inv keys s next → seq_inv keys' s next.
Proof.
  intros Hs [H1 H2]. split.
  - clear H2. revert keys' Hs. induction H1 as [|k keys Hk IH Hx]; intros keys' Hs.
    + apply sublist_nil_r in Hs as ->. constructor.
    + apply sublist_cons_r in Hs as [Hs|(l & -> & Hs)]; [by apply IH|]. constructor; [by apply IH|].
      rewrite Forall_forall in Hx |- *. intros k' Hk'. apply Hx. by eapply elem_of_sublist.
  - rewrite Forall_forall in H2 |- *. intros k Hk. apply H2. by eapply elem_of_sublist.
Qed.

Lemma put_written c k b :
  seq_ok c →
  ∃ c', put k b c = (Ok (), c') ∧ written c (omap_set (documents c) k b) c'.
Proof.
  intros Hs. unfold put, st_update. eexists. split; [reflexivity|]. unfold seq_ok in Hs.
  destruct (sequence c) as [s|] eqn:Es; [|done]. unfold omap_has.
  destruct (omap_get (documents c) k) as [b'|] eqn:Eg; (split; [done..|]); unfold seq_ok; cbn -[omap_keys].
  - rewrite omap_set_keys_Some by (by eexists). done.
  - rewrite omap_set_None, omap_keys_app by done. apply seq_inv_snoc; [by apply omap_get_None|done].
Qed.

Lemma puts_written c (l : list (jsstring * bytes)) :
  seq_ok c →
  ∃ c', st_each (λ e, put e.1 e.2) l c = (Ok (), c') ∧
    written c (fold_left (λ m e, omap_set m e.1 e.2) l (documents c)) c'.
Proof.
  revert c. induction l as [|[k b] l IH]; intros c Hs; [by exists c|]. cbn [st_each fold_left fst snd].
  destruct (put_written c k b Hs) as (c1 & E1 & [D1 I1 J1 S1]). unfold mbind, st_bind. rewrite E1.
  destruct (IH c1 S1) as (c2 & E2 & [D2 I2 J2 S2]). exists c2. split; [exact E2|].
  split; [by rewrite D2, D1|congruence..|done].
Qed.

Lemma remove_written c k :
  NoDup (omap_keys (documents c)) → seq_ok c →
  ∃ c', remove k c = (Ok (), c') ∧ written c (omap_delete (documents c) k) c'.
Proof.
  intros Hn Hs. unfold remove, st_update. eexists. split; [reflexivity|]. split; [done..|].
  unfold seq_ok in *. cbn -[omap_keys]. destruct (sequence c) as [s|]; [|done]. rewrite omap_delete_keys.
  eapply (seq_inv_ext _ s); [|reflexivity|].
  - intros k'. rewrite oset_delete_elem by done. intros [_ Hne]. by apply omap_get_delete_ne.
  - eapply seq_inv_sublist; [|exact Hs]. apply oset_delete_sublist.
Qed.

Lemma removes_written c (l : list jsstring) :
  NoDup (omap_keys (documents c)) → seq_ok c →
  ∃ c', st_each remove l c = (Ok (), c') ∧ written c (fold_left omap_delete l (documents c)) c'.
Proof.
  revert c. induction l as [|k l IH]; intros c Hn Hs; [by exists c|]. cbn [st_each fold_left].
  destruct (remove_written c k Hn Hs) as (c1 & E1 & [D1 I1 J1 S1]). unfold mbind, st_bind. rewrite E1.
  destruct (IH c1) as (c2 & E2 & [D2 I2 J2 S2]); [rewrite D1; by apply omap_delete_NoDup|done|].
  exists c2. split; [exact E2|]. split; [by rewrite D2, D1|congruence..|done].
Qed.

Lemma coll_inv_seq c v : coll_inv c v → seq_ok c ∧ NoDup (omap_keys (documents c)).
Proof.
  intros [Hd [Hn _] _ Hs _]. unfold seq_ok. rewrite Hd, image_keys. split; [|done]. done.
Qed.

Lemma ready_seq c v ops docs c' :
  coll_inv c v → ready c ops docs c' → seq_ok c' ∧ NoDup (omap_keys (documents c')).
Proof.
  intros [Hs Hn]%coll_inv_seq [[E1 E2 E3] Es _ _]. unfold seq_ok in *. rewrite E1, E2, E3.
  split; [|done]. destruct (sequence c); [done|]. by rewrite isEmpty_specs, Es, <- isEmpty_specs.
Qed.

(** The journal has recorded what the documents are now. *)
Lemma finish c v' ops c1 c2 :
  ready c ops (docs_of v') c1 → written c1 (image v') c2 → view_ok v' →
  replay (contents_of c) ops = (image v', specs (indexes c)) →
  coll_inv c2 v' ∧ specs (indexes c2) = specs (indexes c).
Proof.
  intros [Hsame Hspecs Hidx Hdur] [Hdoc Hi Hj Hseq] Hv Hr. rewrite Hi. split; [|done]. split.
  - done.
  - done.
  - by rewrite Hi.
  - unfold seq_ok in Hseq. by rewrite Hdoc, image_keys in Hseq.
  - rewrite Hj. unfold contents_of. rewrite Hdoc, Hi, Hspecs, <- Hr. done.
Qed.
End Changes.
