(* ===== verification/CollectionSpec.v ===== *)
(** * Collections: correctness of the changes

    Every operation that changes a collection either makes exactly the change it
    should, recorded by the journal first, or leaves the documents and the
    indexes as they were. *)

From stdpp Require Import gmap.
From S2P Require Import Prelude Errors JsNumber JsString JsValue Binary CustomId Codec Roundtrip Filter FilterSpec Sort Update FieldIndex IndexSpec IndexLemmas FieldIndexSpec IndexSet IndexSetSpec Planner PlannerSpec Stored Collection CollectionLemmas CollectionQueries CollectionChanges.
Import IndexSet.IndexSet Collection.Collection.

(** What a caller may pass: any value without a byte order mark. *)
Definition good_value (v : DocumentValue) : Prop := wf_value v = true ∧ clean v.

(** [CustomId.generate] returned an id. *)
Definition generated_ok (generated : result bytes) : Prop :=
  ∃ id, generated = Ok id ∧ wf_value (VId id) = true.

(** ** Views *)
Lemma view_ok_set v k d : view_ok v → entry_ok (k, d) → view_ok (omap_set v k d).
Proof.
  intros [Hn Hv] He. split; [by apply omap_set_NoDup|].
  clear Hn. induction Hv as [|[k' d'] v Hv' Hv IH]; cbn; [by apply Forall_singleton|].
  case_decide; [subst; by constructor|by constructor].
Qed.

Lemma view_ok_filter (P : jsstring * Document → bool) v : view_ok v → view_ok (List.filter P v).
Proof.
  intros [Hn Hv]. split.
  - induction v as [|kd v IH]; [done|]. cbn [omap_keys map] in Hn. apply NoDup_cons in Hn as [Hk Hn].
    apply Forall_cons in Hv as [_ Hv]. specialize (IH Hn Hv). cbn. destruct (P kd); [|done].
    cbn [omap_keys map]. apply NoDup_cons. split; [|done]. intros Hin.
    apply list_elem_of_fmap in Hin as (kd' & E & [Hin _]%elem_of_filter_bool). apply Hk. rewrite E.
    by apply (list_elem_of_fmap_2 fst).
  - rewrite Forall_forall in Hv |- *. intros kd [Hin _]%elem_of_filter_bool. auto.
Qed.

Lemma omap_delete_keep (v : view) k :
  NoDup (omap_keys v) → omap_delete v k = List.filter (λ kd, negb (bool_decide (kd.1 = k))) v.
Proof.
  induction v as [|[k' d] v IH]; [done|]. cbn [omap_keys map fst omap_delete List.filter].
  intros [Hk Hn]%NoDup_cons. destruct (decide (k = k')) as [<-|Hne].
  - cbn [fst]. rewrite bool_decide_eq_true_2 by done. cbn [negb]. symmetry. apply filter_all.
    intros [k' d'] Hin. apply negb_true_iff, bool_decide_eq_false_2. cbn [fst]. intros ->. apply Hk.
    by apply (list_elem_of_fmap_2 fst) in Hin.
  - cbn [fst]. rewrite bool_decide_eq_false_2 by (by intros E; apply Hne). cbn [negb]. f_equal. by apply IH.
Qed.

Lemma omap_delete_fold (v : view) keys :
  NoDup (omap_keys v) →
  fold_left omap_delete keys v = List.filter (λ kd, negb (bool_decide (kd.1 ∈ keys))) v.
Proof.
  revert v. induction keys as [|k keys IH]; intros v Hn; cbn [fold_left].
  - symmetry. apply filter_all. intros kd _. apply negb_true_iff, bool_decide_eq_false_2, not_elem_of_nil.
  - rewrite IH by (by apply omap_delete_NoDup). rewrite omap_delete_keep by done. clear IH Hn.
    induction v as [|kd v IH]; [done|]. cbn [List.filter].
    destruct (decide (kd.1 = k)) as [->|Hne].
    + rewrite bool_decide_eq_true_2 by done. rewrite bool_decide_eq_true_2 by (by left). exact IH.
    + rewrite (bool_decide_eq_false_2 (kd.1 = k)) by done. cbn [negb List.filter].
      destruct (decide (kd.1 ∈ keys)) as [Hin|Hni].
      * rewrite !bool_decide_eq_true_2 by first [done|by right]. exact IH.
      * rewrite !bool_decide_eq_false_2 by first [done|set_solver]. cbn [negb]. by rewrite IH.
Qed.

Lemma docs_ok_view v : view_ok v → len v < 2 ^ 31 → docs_ok (docs_of v).
Proof.
  intros [Hn Hv] Hl. split.
  - intros k d. rewrite docs_of_lookup by done. intros H%omap_get_Some_in.
    rewrite Forall_forall in Hv. exact (entry_encodable _ (Hv _ H)).
  - by rewrite docs_of_size.
Qed.

Lemma omap_set_same {V} (m : list (jsstring * V)) k v : omap_get m k = Some v → omap_set m k v = m.
Proof.
  induction m as [|[k' v'] m IH]; [done|]. cbn. case_decide; [by intros [= ->]|].
  intros Hg. by rewrite IH.
Qed.

Lemma len_omap_set {V} (m : list (jsstring * V)) k v :
  is_Some (omap_get m k) → len (omap_set m k v) = len m.
Proof.
  intros H. assert (length (omap_keys (omap_set m k v)) = length (omap_keys m)) as E
    by (by rewrite omap_set_keys_Some).
  unfold omap_keys in E. rewrite !length_map in E. unfold len. by rewrite E.
Qed.

Lemma len_filter {A} (P : A → bool) (l : list A) : len (List.filter P l) ≤ len l.
Proof. unfold len. pose proof (filter_length_le P l). lia. Qed.

(** ** Documents to be stored *)
Lemma stored_form_get d k :
  wf_document d → obj_get (stored_form d) k = norm <$> obj_get d k.
Proof.
  intros Hw. pose proof (stored_form_perm _ Hw) as Hp. apply wf_doc in Hw as [_ Hn].
  assert (omap_keys (norm_fields d) = omap_keys d) as Ek by (unfold omap_keys, norm_fields; by rewrite map_map).
  rewrite <- (omap_get_perm (norm_fields d)) by first [by rewrite Ek|by symmetry].
  clear. induction d as [|[k' v] d IH]; [done|]. cbn. by case_decide.
Qed.

Lemma id_key_wf : Forall is_unit (js "_id").
Proof. by apply units_wf. Qed.

Lemma with_id_wf d i : wf_document d → wf_value (VId i) = true → wf_document (with_id d i).
Proof. intros. apply wf_document_set; [done|apply id_key_wf|done]. Qed.

Lemma with_id_clean d i : clean_document d → clean_document (with_id d i).
Proof. intros. by apply clean_set. Qed.

Lemma with_id_get d i : wf_document d → obj_get (with_id d i) (js "_id") = Some (VId i).
Proof.
  intros Hw%wf_document_keys. unfold with_id. rewrite obj_get_set by done. by rewrite decide_True.
Qed.

(** A document that has the id of its key and can be encoded makes an entry. *)
Lemma entry_stored d i :
  wf_document d → clean_document d → obj_get d (js "_id") = Some (VId i) →
  match encodeDocument d with
  | Ok b => fits (VDoc d) ∧ b = enc (VDoc (stored_form d)) ∧
            entry_ok (CustomId.toHexString i, stored_form d)
  | Throw _ => ¬ fits (VDoc d)
  end.
Proof.
  intros Hw Hc Hi. pose proof (encode_stored d Hw Hc) as H.
  destruct (encodeDocument d) as [b|e]; [|done]. destruct H as [Hs Hf]. split; [done|].
  split; [apply Hs|]. split.
  - cbn [fst snd]. pose proof (stored_bytes _ _ Hs) as E. by rewrite <- E.
  - exists i. split; [|done]. cbn [snd]. rewrite stored_form_get by done. by rewrite Hi.
Qed.

Section Spec.
Context {J : Type} (journal : option (list JournalOperation → ST J exn ())).
Context (durable : J → contents → Prop) {calm : J → contents → list JournalOperation → Prop} `{!JournalLaws journal durable calm}.
Implicit Types c : InMemoryCollection J.

Abbreviation coll_inv := (coll_inv durable).

Lemma coll_inv_len c v : coll_inv c v → len v < 2 ^ 31.
Proof.
  intros [_ [Hn _] Hi _ _]. by eapply view_length.
Qed.

(** The collection is unchanged. *)
Definition unchanged c v c' : Prop := coll_inv c' v ∧ contents_of c' = contents_of c.

(** The collection has the view [v'] now, and the indexes it had. *)
Definition changed c v' c' : Prop :=
  coll_inv c' v' ∧ specs (indexes c') = specs (indexes c).

Lemma unchanged_refl c v : coll_inv c v → unchanged c v c.
Proof. done. Qed.

Lemma unchanged_changed c v c' : unchanged c v c' → changed c v c'.
Proof. intros [H [= _ E]]. by split. Qed.

Lemma st_bind_eq {S E A B} (m m' : ST S E A) (f : A → ST S E B) (s : S) :
  m s = m' s → (m ≫= f) s = (m' ≫= f) s.
Proof. unfold mbind, st_bind. by intros ->. Qed.

(** The steps of every change: the indexes, the journal, the documents. *)
Lemma tracked_write {A} c `{!MayCommit calm c} v v' changes operations
    (write : ST (InMemoryCollection J) exn ()) (k : ST (InMemoryCollection J) exn A) :
  coll_inv c v → changes_ok changes (docs_of v) → after_changes changes (docs_of v) = docs_of v' →
  view_ok v' → replay (contents_of c) operations = (image v', specs (indexes c)) →
  operations_ok (contents_of c) operations → ¬ creates operations →
  (∀ c1, documents c1 = image v → seq_ok c1 →
     ∃ c2, write c1 = (Ok (), c2) ∧ written c1 (image v') c2) →
  let m := (undo ← trackChanges changes; _ ← commit_or journal operations (on_indexes (rollback undo));
            _ ← write; k) in
  (∃ c', changed c v' c' ∧ m c = k c') ∨
  (∃ e c', refused journal durable c v operations (docs_of v') e c' ∧ m c = (Throw e, c')).
Proof.
  intros Hc Hch Hafter Hv Hr Hops Hcr Hw m. unfold m.
  destruct (tracked_outcome journal durable c v v' changes operations (_ ← write; k) Hc Hch Hafter Hv Hr Hops Hcr)
    as [(c1 & H1 & ->)|(e & c1 & H1 & ->)].
  - left. destruct (Hw c1) as (c2 & E & Hwr).
    + rewrite (same_docs _ _ (ready_same _ _ _ _ _ H1)). apply Hc.
    + by eapply ready_seq.
    + exists c2. split; [by eapply finish|]. unfold mbind at 1, st_bind at 1. by rewrite E.
  - right. by exists e, c1.
Qed.

(** ** Inserting *)

(** What inserting [document] adds: an id and the document in its stored form. *)
Definition inserts (document : DocumentValue) (generated : result bytes) (i : bytes)
    (d : Document) : Prop :=
  ∃ fields, document = VDoc fields ∧ resolveDocumentId fields generated = Ok i ∧
    fits (VDoc (with_id fields i)) ∧ d = stored_form (with_id fields i).

(** Why a document cannot be inserted, among documents with the keys [taken]. *)
Definition not_insertable (document : DocumentValue) (generated : result bytes)
    (taken : list jsstring) (e : exn) : Prop :=
  e = StorageError InvalidDocument ∧
    (∀ fields i, document = VDoc fields → resolveDocumentId fields generated = Ok i →
       ¬ fits (VDoc (with_id fields i))) ∨
  e = StorageError InvalidDocumentId ∧
    (∃ fields w, document = VDoc fields ∧ obj_get fields (js "_id") = Some w ∧ ∀ i, w ≠ VId i) ∨
  e = StorageError DuplicateId ∧
    (∃ fields i, document = VDoc fields ∧ resolveDocumentId fields generated = Ok i ∧
       CustomId.toHexString i ∈ taken).

Lemma resolveDocumentId_outcome fields generated :
  wf_document fields → generated_ok generated →
  match resolveDocumentId fields generated with
  | Ok i => wf_value (VId i) = true
  | Throw e => e = StorageError InvalidDocumentId ∧
      ∃ w, obj_get fields (js "_id") = Some w ∧ ∀ i, w ≠ VId i
  end.
Proof.
  intros Hw (g & -> & Hg). unfold resolveDocumentId.
  destruct (obj_get fields (js "_id")) as [w|] eqn:E; [|done].
  destruct w; try (split; [done|]; eexists; split; [reflexivity|done]).
  by eapply wf_document_get.
Qed.

Lemma prepareInsert_outcome c v document generated pending :
  documents c = image v → good_value document → generated_ok generated →
  match prepareInsert document generated pending c with
  | Ok p => ∃ d, inserts document generated (id p) d ∧
      insert_key p = CustomId.toHexString (id p) ∧ insert_encoded p = enc (VDoc d) ∧
      entry_ok (insert_key p, d) ∧ insert_key p ∉ omap_keys v ++ default [] pending
  | Throw e => not_insertable document generated (omap_keys v ++ default [] pending) e
  end.
Proof.
  intros Hdoc [Hw Hcl] Hg. unfold prepareInsert.
  destruct document as [| | | | | | | | |fields]; try (by left; split; [|by intros]).
  pose proof (resolveDocumentId_outcome fields generated Hw Hg) as Hr.
  destruct (resolveDocumentId fields generated) as [i|e] eqn:Er; cbn [mbind res_bind].
  2: { destruct Hr as (-> & w & Hid & Hne). right; left. split; [done|]. by exists fields, w. }
  set (key := CustomId.toHexString i).
  assert ((omap_has (documents c) key ||
    match pending with Some pending => bool_decide (key ∈ pending) | None => false end) = true ↔
    key ∈ omap_keys v ++ default [] pending) as Htaken.
  { assert (omap_has (documents c) key = true ↔ key ∈ omap_keys v) as H1.
    { rewrite Hdoc. unfold omap_has. rewrite image_get.
      destruct (omap_get v key) as [d|] eqn:E; cbn [fmap option_fmap option_map].
      - apply omap_get_Some_in, (list_elem_of_fmap_2 fst) in E. done.
      - apply omap_get_None in E. done. }
    assert (match pending with Some pending => bool_decide (key ∈ pending) | None => false end = true ↔
      key ∈ default [] pending) as H2.
    { destruct pending; [apply bool_decide_eq_true|]. cbn. by rewrite elem_of_nil. }
    by rewrite elem_of_app, orb_true_iff, H1, H2. }
  destruct (_ || _) eqn:Et.
  { right; right. split; [done|]. exists fields, i. split; [done|]. split; [done|]. by apply Htaken. }
  assert (key ∉ omap_keys v ++ default [] pending) as Hfree by (intros ?%Htaken; congruence).
  pose proof (entry_stored (with_id fields i) i (with_id_wf _ _ Hw Hr) (with_id_clean _ _ Hcl)
    (with_id_get _ _ Hw)) as He.
  destruct (encodeDocument (with_id fields i)) as [b|e]; cbn [catch mbind res_bind].
  - destruct He as (Hf & -> & He). exists (stored_form (with_id fields i)). cbn. split; [|done].
    by exists fields.
  - left. split; [done|]. intros fields' i' [= <-] E. rewrite Er in E. by injection E as <-.
Qed.

(** Adding a document to the indexes is one change of them. *)
Lemma trackInsert_change c p d :
  entry_ok (insert_key p, d) → insert_encoded p = enc (VDoc d) →
  trackInsert p c = trackChanges [change (insert_key p) None (Some d)] c.
Proof.
  intros [Hs _] E. unfold trackInsert, trackChanges, mbind, st_bind, st_get.
  destruct (isEmpty (indexes c)) eqn:Em.
  - apply Z.eqb_eq, len_0_inv in Em. unfold on_indexes. unfold applyChanges, mbind, st_bind, st_get. rewrite Em. destruct c; cbn in *; by subst.
  - rewrite E. unfold st_lift. by rewrite (stored_decode _ _ Hs : decodeDocument (enc (VDoc d)) = Ok d).
Qed.

Lemma view_ok_snoc v k d : view_ok v → k ∉ omap_keys v → entry_ok (k, d) → view_ok (v ++ [(k, d)]).
Proof.
  intros Hv Hk He. rewrite <- omap_set_None by (by apply omap_get_None). by apply view_ok_set.
Qed.

Lemma docs_of_snoc v k d : docs_of (v ++ [(k, d)]) = <[k := d]> (docs_of v).
Proof. unfold docs_of, insert_entries. by rewrite fold_left_app. Qed.

Lemma insert_change_ok v k d :
  view_ok v → k ∉ omap_keys v → entry_ok (k, d) → len v + 1 < 2 ^ 31 →
  changes_ok [change k None (Some d)] (docs_of v) ∧
  after_changes [change k None (Some d)] (docs_of v) = docs_of (v ++ [(k, d)]).
Proof.
  intros Hv Hk He Hl.
  assert (after_changes [change k None (Some d)] (docs_of v) = docs_of (v ++ [(k, d)])) as E
    by (by rewrite docs_of_snoc).
  split; [|done]. split; [apply NoDup_singleton|]. rewrite E. split.
  - constructor; [|constructor]. cbn [before change key]. destruct Hv as [Hn _].
    rewrite docs_of_lookup by done. symmetry. by apply omap_get_None.
  - apply docs_ok_view; [by apply view_ok_snoc|]. by rewrite len_app.
Qed.

(** The indexes or the journal refused a change. *)
Definition write_failed c (operations : list JournalOperation) (v' : view) (e : exn) : Prop :=
  e = StorageError DuplicateKey ∧ violates (specs (indexes c)) (docs_of v') ∨
  journal_threw journal operations c e.

(** Why inserting a document failed. *)
Definition insert_failed c v (document : DocumentValue) (generated : result bytes) (e : exn) : Prop :=
  not_insertable document generated (omap_keys v) e ∨
  ∃ i d, inserts document generated i d ∧
    write_failed c [OpPut (CustomId.toHexString i) (enc (VDoc d))]
      (v ++ [(CustomId.toHexString i, d)]) e.

Lemma insertOne_outcome c `{!MayCommit calm c} v document generated :
  coll_inv c v → good_value document → generated_ok generated → len v + 1 < 2 ^ 31 →
  match insertOne journal document generated c with
  | (Ok i, c') => ∃ d, inserts document generated i d ∧
      (CustomId.toHexString i ∉ omap_keys v) ∧ changed c (v ++ [(CustomId.toHexString i, d)]) c'
  | (Throw e, c') => unchanged c v c' ∧ insert_failed c v document generated e
  end.
Proof.
  intros Hc Hd Hg Hl. unfold insertOne. unfold mbind at 1, st_bind at 1, st_get.
  pose proof (prepareInsert_outcome c v document generated None (inv_documents _ _ _ Hc) Hd Hg) as Hp.
  cbn [default] in Hp. rewrite app_nil_r in Hp.
  unfold mbind at 1, st_bind at 1, st_lift.
  destruct (prepareInsert document generated None c) as [p|e]; [|by split; [|left]].
  destruct Hp as (d & Hins & Hkey & Henc & He & Hfree).
  destruct (insert_change_ok v _ d (inv_view _ _ _ Hc) Hfree He Hl) as [Hch Hafter].
  rewrite (st_bind_eq _ (trackChanges [change (insert_key p) None (Some d)]))
    by (by apply trackInsert_change).
  assert (view_ok (v ++ [(insert_key p, d)])) as Hv'
    by (apply view_ok_snoc; [apply Hc|done|done]).
  assert (image (v ++ [(insert_key p, d)]) = omap_set (image v) (insert_key p) (insert_encoded p)) as Himg.
  { rewrite Henc, <- image_set. f_equal. symmetry. by apply omap_set_None, omap_get_None. }
  destruct (tracked_write c v (v ++ [(insert_key p, d)]) [change (insert_key p) None (Some d)]
    [OpPut (insert_key p) (insert_encoded p)] (put (insert_key p) (insert_encoded p)) (mret (id p))
    Hc Hch Hafter Hv') as [(c' & Hch' & ->)|(e & c' & (H1 & H2 & H3) & ->)].
  - cbn. rewrite Himg. by destruct Hc as [-> _ _ _ _].
  - split; [|done]. exists d. by rewrite Henc.
  - apply (puts_create [(insert_key p, insert_encoded p)]).
  - intros c1 Hd1 Hs1. rewrite Himg, <- Hd1. by apply put_written.
  - cbn. exists d. rewrite <- Hkey. done.
  - split; [done|]. right. exists (id p), d. cbv zeta. rewrite <- Hkey, <- Henc. done.
Qed.

(** ** Deleting *)
Lemma selected_head m v kd :
  head (selected m v) = Some kd → kd ∈ v ∧ matched m kd.2 = true.
Proof.
  intros H. assert (kd ∈ selected m v) as Hin by (destruct (selected m v); [done|]; injection H as ->; left).
  by apply elem_of_filter_bool in Hin.
Qed.

Lemma view_entry_get v kd : view_ok v → kd ∈ v → omap_get v kd.1 = Some kd.2 ∧ entry_ok kd.
Proof.
  intros [Hn Hv] Hin. rewrite Forall_forall in Hv. split; [|by apply Hv].
  apply omap_get_in; [done|]. by destruct kd.
Qed.

Lemma trackChanges_empty c changes :
  isEmpty (indexes c) = true → trackChanges changes c = (Ok [], c).
Proof.
  intros H%Z.eqb_eq%len_0_inv. unfold trackChanges, on_indexes, applyChanges, mbind, st_bind, st_get.
  rewrite H. destruct c; cbn in *. by subst.
Qed.

(** The changes that remove the documents [sel]. *)
Definition removals (sel : view) : list DocumentChange :=
  map (λ kd, change kd.1 (Some kd.2) None) sel.

Lemma docs_of_deletes (keys : list jsstring) (v : view) :
  NoDup (omap_keys v) →
  docs_of (fold_left omap_delete keys v) = fold_left (λ docs k, delete k docs) keys (docs_of v).
Proof.
  revert v. induction keys as [|k keys IH]; intros v Hn; [done|]. cbn [fold_left].
  rewrite IH by (by apply omap_delete_NoDup). by rewrite docs_of_delete.
Qed.

Lemma image_deletes (keys : list jsstring) (v : view) :
  image (fold_left omap_delete keys v) = fold_left omap_delete keys (image v).
Proof.
  revert v. induction keys as [|k keys IH]; intros v; [done|]. cbn [fold_left].
  by rewrite IH, image_delete.
Qed.

Lemma replay_deletes (keys : list jsstring) (a : contents) : replay a (map OpDelete keys) = (fold_left omap_delete keys a.1, a.2).
Proof.
  revert a. induction keys as [|k keys IH]; intros a; [by destruct a|]. cbn. unfold replay in IH.
  by rewrite IH.
Qed.

Lemma view_ok_deletes (keys : list jsstring) (v : view) : view_ok v → view_ok (fold_left omap_delete keys v).
Proof.
  intros Hv. rewrite omap_delete_fold by apply Hv. by apply view_ok_filter.
Qed.

Lemma len_deletes (keys : list jsstring) (v : view) : NoDup (omap_keys v) → len (fold_left omap_delete keys v) ≤ len v.
Proof. intros Hn. rewrite omap_delete_fold by done. apply len_filter. Qed.

Lemma removals_ok sel v :
  view_ok v → NoDup (omap_keys sel) → (∀ kd, kd ∈ sel → kd ∈ v) → len v < 2 ^ 31 →
  changes_ok (removals sel) (docs_of v) ∧
  after_changes (removals sel) (docs_of v) = docs_of (fold_left omap_delete (omap_keys sel) v).
Proof.
  intros Hv Hn Hin Hl.
  assert (after_changes (removals sel) (docs_of v) = docs_of (fold_left omap_delete (omap_keys sel) v)) as E.
  { rewrite docs_of_deletes by apply Hv. unfold after_changes. clear -J.
    assert (∀ docs, fold_left (λ docs ch, add_change ch docs) (removals sel) docs = docs) as ->.
    { induction sel as [|kd sel IH]; intros docs; [done|]. apply IH. }
    generalize (docs_of v). induction sel as [|kd sel IH]; intros docs; [done|]. apply IH. }
  split; [|done]. split; [|split].
  - unfold removals. rewrite map_map. exact Hn.
  - apply Forall_map, Forall_forall. intros kd Hkd. cbn.
    rewrite docs_of_lookup by apply Hv. symmetry. by apply view_entry_get, Hin.
  - rewrite E. apply docs_ok_view; [by apply view_ok_deletes|].
    pose proof (len_deletes (omap_keys sel) v (proj1 Hv)). lia.
Qed.

Lemma filter_keys_sublist (P : jsstring * Document → bool) v :
  NoDup (omap_keys v) → NoDup (omap_keys (List.filter P v)).
Proof.
  induction v as [|kd v IH]; [done|]. cbn [omap_keys map]. intros [Hk Hn]%NoDup_cons. cbn.
  destruct (P kd); [|by apply IH]. cbn [omap_keys map]. apply NoDup_cons. split; [|by apply IH].
  intros Hin. apply list_elem_of_fmap in Hin as (kd' & E & [Hin _]%elem_of_filter_bool).
  apply Hk. rewrite E. by apply (list_elem_of_fmap_2 fst).
Qed.

(** Removing documents breaks no unique index. *)
Lemma deletes_keep_unique c v (keys : list jsstring) :
  coll_inv c v → ¬ violates (specs (indexes c)) (docs_of (fold_left omap_delete keys v)).
Proof.
  intros [_ [Hn _] [[_ [Hd _ _] Hu] _] _ _] (spec & Hin & Hv). apply Hv.
  unfold specs, all in Hin. apply list_elem_of_fmap in Hin as (ix & -> & Hin).
  apply list_elem_of_fmap in Hin as ([name ix'] & E & Hin). cbn in E. subst ix'.
  apply omap_get_in in Hin; [|done].
  eapply unique_sub; [|apply (Hu name); unfold defs; by rewrite Hin].
  apply fields_in_sub. rewrite docs_of_deletes by done. clear -J.
  generalize (docs_of v). induction keys as [|k keys IH]; intros docs; [done|]. cbn [fold_left].
  etrans; [apply IH|]. apply delete_subseteq.
Qed.

Lemma deleteOne_outcome c `{!MayCommit calm c} v filter :
  coll_inv c v → wf_value filter = true →
  match deleteOne journal filter c with
  | (Ok n, c') => ∃ fields m, compile filter = Ok (fields, m) ∧
      match head (selected m v) with
      | None => n = 0 ∧ c' = c
      | Some kd => n = 1 ∧ changed c (omap_delete v kd.1) c'
      end
  | (Throw e, c') => unchanged c v c' ∧
      (compile filter = Throw e ∨
       ∃ k, k ∈ omap_keys v ∧ journal_threw journal [OpDelete k] c e)
  end.
Proof.
  intros Hc Hw. unfold deleteOne, st_lift, st_get. unfold mbind at 1, st_bind at 1.
  destruct (compile filter) as [[fields m]|e] eqn:Em; [|by split; [|left]].
  unfold mbind at 1, st_bind at 1. unfold mbind at 1, st_bind at 1.
  rewrite (locate_spec durable c v filter fields m Hc Em Hw).
  destruct (head (selected m v)) as [kd|] eqn:Eh; cbn [fmap option_fmap option_map].
  2: { exists fields, m. by rewrite Eh. }
  destruct (selected_head _ _ _ Eh) as [Hin _].
  destruct (removals_ok [kd] v (inv_view _ _ _ Hc) (NoDup_singleton _)) as [Hch Hafter].
  { by intros kd' ->%list_elem_of_singleton. }
  { by eapply coll_inv_len. }
  cbn [removals map omap_keys fold_left] in Hch, Hafter.
  destruct (tracked_write c v (omap_delete v kd.1) [change kd.1 (Some kd.2) None]
    [OpDelete kd.1] (remove kd.1) (mret 1) Hc Hch Hafter) as [(c' & Hch' & E)|(e & c' & (H1 & H2 & H3) & E)].
  - by apply (view_ok_deletes [kd.1]), Hc.
  - cbn. rewrite image_delete. by destruct Hc as [-> _ _ _ _].
  - apply (deletes_ok _ [kd]). constructor; [|done]. by apply (view_entry_get v kd (inv_view _ _ _ Hc)).
  - apply (deletes_create [kd.1]).
  - intros c1 Hd1 Hs1. rewrite image_delete, <- Hd1. apply remove_written; [|done].
    rewrite Hd1, image_keys. apply Hc.
  - cbn [located located_key located_document]. rewrite E. cbn. exists fields, m. rewrite Eh. done.
  - cbn [located located_key located_document]. rewrite E. split; [done|]. right. exists kd.1.
    split; [by apply (list_elem_of_fmap_2 fst)|]. destruct H3 as [[-> Hvi]|H3]; [|done].
    exfalso. by apply (deletes_keep_unique c v [kd.1] Hc) in Hvi.
Qed.

(** The documents of a view that a filter does not select. *)
Definition unselected (m : CompiledFilter) (v : view) : view :=
  List.filter (λ kd, negb (matched m kd.2)) v.

Lemma delete_selected m v :
  NoDup (omap_keys v) → fold_left omap_delete (omap_keys (selected m v)) v = unselected m v.
Proof.
  intros Hn. rewrite omap_delete_fold by done. apply filter_ext_elem. intros kd Hin. f_equal.
  destruct (matched m kd.2) eqn:E.
  - apply bool_decide_eq_true_2. apply (list_elem_of_fmap_2 fst). by apply elem_of_filter_bool.
  - apply bool_decide_eq_false_2. intros Hk.
    apply list_elem_of_fmap in Hk as ([k d] & Ek & [Hkd Em]%elem_of_filter_bool).
    destruct kd as [k' d']. cbn [fst snd] in *. subst k'.
    apply (omap_get_in v) in Hkd, Hin; [|done..]. congruence.
Qed.

Lemma selected_ok m v kd : kd ∈ selected m v → kd ∈ v.
Proof. by intros [? _]%elem_of_filter_bool. Qed.

(** The candidates that match, ready to be changed. *)
Lemma candidates_matching c v filter fields m :
  coll_inv c v → compile filter = Ok (fields, m) → wf_value filter = true →
  (l ← candidates fields c; matching m l) = Ok (map located (selected m v)).
Proof.
  intros Hc Hm Hw. destruct (query_candidates _ _ _ _ _ _ Hc Hm Hw) as (P & -> & HP).
  destruct (compile_spec _ _ _ Hm Hw) as (_ & _ & _ & Hdec). cbn [mbind res_bind].
  apply matching_spec; [by eapply view_entry_ok|intros; by apply Hdec|done].
Qed.

Lemma keys_located (l : view) : map located_key (map located l) = omap_keys l.
Proof. by rewrite map_map. Qed.

Lemma deleteMany_outcome c `{!MayCommit calm c} v filter :
  coll_inv c v → wf_value filter = true →
  match deleteMany journal filter c with
  | (Ok n, c') => ∃ fields m, compile filter = Ok (fields, m) ∧
      n = len (selected m v) ∧ changed c (unselected m v) c'
  | (Throw e, c') => unchanged c v c' ∧
      (compile filter = Throw e ∨
       ∃ keys, (∀ k, k ∈ keys → k ∈ omap_keys v) ∧ journal_threw journal (map OpDelete keys) c e)
  end.
Proof.
  intros Hc Hw. unfold deleteMany, st_lift, st_get. unfold mbind at 1, st_bind at 1.
  destruct (compile filter) as [[fields m]|e] eqn:Em; [|by split; [|left]].
  unfold mbind at 1, st_bind at 1. unfold mbind at 1, st_bind at 1.
  rewrite (candidates_matching c v filter fields m Hc Em Hw). cbv zeta. rewrite keys_located.
  assert (∀ changes, trackChanges (if isEmpty (indexes c) then [] else changes) c = trackChanges changes c)
    as Htrack.
  { intros changes. destruct (isEmpty (indexes c)) eqn:Ei; [|done]. by rewrite !trackChanges_empty. }
  rewrite (st_bind_eq _ (trackChanges (removals (selected m v)))).
  2: { rewrite Htrack. unfold removals. by rewrite map_map. }
  assert (len (omap_keys (selected m v)) = len (selected m v)) as Elen
    by (unfold len, omap_keys; by rewrite length_map).
  pose proof Hc as [Hdoc Hv Hi Hs Hd].
  destruct (removals_ok (selected m v) v Hv (filter_keys_sublist _ _ (proj1 Hv)) (selected_ok m v)
    (coll_inv_len _ _ Hc)) as [Hch Hafter].
  destruct (Z.ltb_spec 0 (len (omap_keys (selected m v)))) as [Hpos|Hnone].
  - destruct (tracked_write c v (fold_left omap_delete (omap_keys (selected m v)) v)
      (removals (selected m v)) (map OpDelete (omap_keys (selected m v)))
      (st_each remove (omap_keys (selected m v))) (mret (len (omap_keys (selected m v)))) Hc Hch Hafter)
      as [(c' & Hch' & E)|(e & c' & (H1 & H2 & H3) & E)].
    + by apply view_ok_deletes.
    + rewrite replay_deletes, image_deletes. unfold contents_of. by rewrite Hdoc.
    + apply deletes_ok, Forall_forall. intros kd Hkd. by eapply view_entry_get, selected_ok.
    + apply deletes_create.
    + intros c1 Hd1 Hs1. rewrite image_deletes, <- Hd1. apply removes_written; [|done].
      rewrite Hd1, image_keys. apply Hv.
    + rewrite E. cbn. exists fields, m. rewrite <- delete_selected by apply Hv. done.
    + rewrite E. split; [done|]. right. exists (omap_keys (selected m v)). split.
      * intros k Hk. apply list_elem_of_fmap in Hk as (kd & -> & Hk).
        apply (list_elem_of_fmap_2 fst). by eapply selected_ok.
      * destruct H3 as [[-> Hvi]|H3]; [|done]. exfalso. by apply (deletes_keep_unique c v _ Hc) in Hvi.
  - assert (selected m v = []) as E by (apply len_0_inv; pose proof (len_nonneg (selected m v)); lia).
    assert (unselected m v = v) as Eu.
    { rewrite <- delete_selected by apply Hv. by rewrite E. }
    rewrite E. cbn. unfold trackChanges, on_indexes, applyChanges, mbind, st_bind, st_get.
    assert (set_indexes c (indexes c) = c) as Eid by (by destruct c).
    destruct (len (omap_keys (indexes c)) =? 0); cbn; exists fields, m; rewrite E, Eu, Eid; done.
Qed.
End Spec.
