(* ===== verification/CollectionUpdates.v ===== *)
(** * Collections: replacing and updating

    An update rewrites the documents the filter selects, all of them or none,
    keeps their ids, and writes those that the update changes. *)

From stdpp Require Import gmap.
From S2P Require Import Prelude Errors JsNumber JsString JsValue Binary CustomId Codec Roundtrip Filter FilterSpec Sort Update IndexSpec FieldIndex IndexLemmas FieldIndexSpec IndexSet IndexSetSpec Planner PlannerSpec Stored Collection CollectionLemmas CollectionQueries CollectionChanges CollectionSpec.
Import IndexSet.IndexSet Collection.Collection.

(** ** Writing several documents *)
Definition writes (l : view) (v : view) : view := fold_left (λ v kd, omap_set v kd.1 kd.2) l v.

Lemma writes_keys (l v : view) :
  (∀ k, k ∈ omap_keys l → k ∈ omap_keys v) → omap_keys (writes l v) = omap_keys v.
Proof.
  revert v. induction l as [|[k d] l IH]; intros v Hin; [done|]. unfold writes. cbn [fold_left fst snd].
  fold (writes l (omap_set v k d)).
  assert (omap_keys (omap_set v k d) = omap_keys v) as E.
  { apply omap_set_keys_Some. rewrite <- not_eq_None_Some, omap_get_None.
    intros Hn. apply Hn, Hin. left. }
  rewrite IH, E; [done|]. intros k' Hk'. rewrite E. apply Hin. by right.
Qed.

Lemma view_ok_writes (l v : view) : view_ok v → Forall entry_ok l → view_ok (writes l v).
Proof.
  intros Hv Hl. revert v Hv. induction Hl as [|[k d] l He _ IH]; intros v Hv; [done|].
  apply IH. by apply view_ok_set.
Qed.

Lemma docs_of_writes (l v : view) :
  NoDup (omap_keys v) → docs_of (writes l v) = insert_entries (docs_of v) l.
Proof.
  revert v. induction l as [|[k d] l IH]; intros v Hn; [done|]. unfold writes. cbn [fold_left fst snd].
  fold (writes l (omap_set v k d)). rewrite IH by (by apply omap_set_NoDup).
  by rewrite docs_of_set.
Qed.

Lemma image_writes (l v : view) :
  image (writes l v) = fold_left (λ m e, omap_set m e.1 e.2) (image l) (image v).
Proof.
  revert v. induction l as [|[k d] l IH]; intros v; [done|]. unfold writes.
  cbn [fold_left fst snd image map]. fold (image l). fold (writes l (omap_set v k d)).
  by rewrite IH, image_set.
Qed.

Lemma replay_puts (l : list (jsstring * bytes)) (a : contents) :
  replay a (map (λ e, OpPut e.1 e.2) l) = (fold_left (λ m e, omap_set m e.1 e.2) l a.1, a.2).
Proof.
  revert a. induction l as [|e l IH]; intros a; [by destruct a|]. cbn. unfold replay in IH.
  by rewrite IH.
Qed.

Lemma omap_set_map (v : view) k d :
  NoDup (omap_keys v) → k ∈ omap_keys v →
  omap_set v k d = map (λ kd, if decide (kd.1 = k) then (k, d) else kd) v.
Proof.
  induction v as [|[k' d'] v IH]; [by intros _ ?%not_elem_of_nil|]. cbn [omap_keys map fst omap_set].
  intros [Hk Hn]%NoDup_cons Hin. destruct (decide (k = k')) as [<-|Hne].
  - rewrite decide_True by done. f_equal. symmetry.
    rewrite <- (map_id v) at 2. apply map_ext_in. intros [k1 d1] H1%list_elem_of_In. cbn.
    rewrite decide_False; [done|]. intros ->. apply Hk. by apply (list_elem_of_fmap_2 fst) in H1.
  - rewrite decide_False by congruence. f_equal. apply IH; [done|].
    by apply elem_of_cons in Hin as [|].
Qed.

(** The documents with the keys of [l] become those of [l]. *)
Lemma writes_map (l v : view) :
  NoDup (omap_keys v) → NoDup (omap_keys l) → (∀ k, k ∈ omap_keys l → k ∈ omap_keys v) →
  writes l v = map (λ kd, match omap_get l kd.1 with Some d => (kd.1, d) | None => kd end) v.
Proof.
  revert v. induction l as [|[k d] l IH]; intros v Hn Hl Hin; [by rewrite map_id|].
  cbn [omap_keys map fst] in Hl. apply NoDup_cons in Hl as [Hk Hl].
  unfold writes. cbn [fold_left fst snd]. fold (writes l (omap_set v k d)).
  assert (k ∈ omap_keys v) as Hkv by (apply Hin; left).
  assert (omap_keys (omap_set v k d) = omap_keys v) as E.
  { apply omap_set_keys_Some. rewrite <- not_eq_None_Some, omap_get_None. tauto. }
  rewrite IH; [|by rewrite E|done|intros k' Hk'; rewrite E; apply Hin; by right].
  rewrite omap_set_map by done. rewrite map_map. apply map_ext. intros [k' d']. cbn [fst omap_get].
  destruct (decide (k' = k)) as [->|Hne]; cbn [fst].
  - assert (omap_get l k = None) as -> by (by apply omap_get_None). done.
  - done.
Qed.

(** The changes of the indexes that a write makes. *)
Definition rewrites (v l : view) : list DocumentChange :=
  map (λ kd, change kd.1 (omap_get v kd.1) (Some kd.2)) l.

Lemma insert_entries_delete (l : view) (docs : gmap jsstring Document) keys :
  NoDup (omap_keys l) → (∀ k, k ∈ keys → k ∈ omap_keys l) →
  insert_entries (fold_left (λ docs k, delete k docs) keys docs) l = insert_entries docs l.
Proof.
  intros Hn Hin. apply map_eq. intros k. rewrite !insert_entries_lookup by done.
  destruct (omap_get l k) as [d|] eqn:E; [done|]. apply omap_get_None in E.
  assert (k ∉ keys) as Hk by (intros ?; by apply E, Hin). clear -Hk.
  revert docs. induction keys as [|k' keys IH]; intros docs; [done|]. cbn [fold_left].
  apply not_elem_of_cons in Hk as [Hne Hk]. rewrite IH by done. by apply lookup_delete_ne.
Qed.

Lemma rewrites_ok (l v : view) :
  view_ok v → Forall entry_ok l → NoDup (omap_keys l) → (∀ k, k ∈ omap_keys l → k ∈ omap_keys v) →
  len v < 2 ^ 31 →
  changes_ok (rewrites v l) (docs_of v) ∧
  after_changes (rewrites v l) (docs_of v) = docs_of (writes l v).
Proof.
  intros Hv He Hl Hin Hlen.
  assert (after_changes (rewrites v l) (docs_of v) = docs_of (writes l v)) as E.
  { rewrite docs_of_writes by apply Hv. rewrite <- (insert_entries_delete l (docs_of v) (omap_keys l)) by done.
    assert (∀ docs, fold_left (λ docs ch, remove_change ch docs) (rewrites v l) docs =
      fold_left (λ docs k, delete k docs) (omap_keys l) docs) as Hrm.
    { clear -Hin. induction l as [|[k d] l IH]; intros docs; [done|]. cbn [rewrites map omap_keys fold_left fst].
      fold (rewrites v l). rewrite IH by (intros k' Hk'; apply Hin; by right). f_equal.
      unfold remove_change. cbn [before change fst key].
      destruct (omap_get v k) eqn:E; [done|]. apply omap_get_None in E. destruct E. apply Hin. left. }
    unfold after_changes. rewrite Hrm. unfold insert_entries, rewrites.
    generalize (fold_left (λ docs k, delete k docs) (omap_keys l) (docs_of v)). clear.
    induction l as [|kd l IH]; intros docs; [done|]. apply IH. }
  split; [|done]. split; [|split].
  - unfold rewrites. rewrite map_map. exact Hl.
  - apply Forall_map, Forall_forall. intros kd Hkd. cbn. by rewrite docs_of_lookup by apply Hv.
  - rewrite E. apply docs_ok_view; [by apply view_ok_writes|].
    assert (length (omap_keys (writes l v)) = length (omap_keys v)) as El by (by rewrite writes_keys).
    unfold omap_keys in El. rewrite !length_map in El. unfold len in *. lia.
Qed.

(** ** What an update makes of a document *)
Lemma bytesEqual_spec a b : Filter.bytesEqual a b = bool_decide (a = b).
Proof. done. Qed.

Section Updates.
Context (update : DocumentValue) (apply : Update.CompiledUpdate).
Context (Hupdate : good_value update) (Hcompile : Update.compileUpdate update = Ok apply).

Lemma updated_entry kd u :
  entry_ok kd → apply kd.2 = Ok u →
  match encodeStoredDocument u with
  | Ok b => fits (VDoc u) ∧ b = enc (VDoc (stored_form u)) ∧ entry_ok (kd.1, stored_form u)
  | Throw e => ¬ fits (VDoc u) ∧ e = StorageError InvalidDocument
  end.
Proof.
  intros He Ha. destruct (entry_encodable _ He) as [Hw _]. destruct He as [Hs (i & Hi & Hk)].
  pose proof (update_wf _ _ _ _ (proj1 Hupdate) Hcompile Hw Ha) as Hwu.
  pose proof (update_clean _ _ _ _ (proj2 Hupdate) Hcompile (stored_clean _ _ Hs) Ha) as Hcu.
  assert (obj_get u (js "_id") = Some (VId i)) as Hiu.
  { pose proof (update_id_kept _ _ _ _ [] (proj1 Hupdate) Hw Hcompile Ha) as H.
    cbn [Filter.resolveField] in H. rewrite Hi in H. by destruct (obj_get u (js "_id")). }
  pose proof (entry_stored u i Hwu Hcu Hiu) as H. rewrite <- Hk in H.
  unfold encodeStoredDocument. by destruct (encodeDocument u).
Qed.

(** The bytes are new exactly when the document is. *)
Lemma bytes_new (k : jsstring) d d' :
  entry_ok (k, d) → entry_ok (k, d') → enc (VDoc d') = enc (VDoc d) ↔ d' = d.
Proof.
  intros [H _] [H' _]. split; [|by intros ->]. intros E.
  pose proof (stored_decode _ _ H) as D. pose proof (stored_decode _ _ H') as D'.
  cbn [snd] in D, D'. rewrite E in D'. congruence.
Qed.

(** What becomes of a document of the view, if it can be updated. *)
Definition rewrite_entry (m : CompiledFilter) (kd : jsstring * Document) : jsstring * Document :=
  if matched m kd.2 then
    match apply kd.2 with Ok u => (kd.1, stored_form u) | Throw _ => kd end
  else kd.

(** The documents that it changes. *)
Definition modified (m : CompiledFilter) (kd : jsstring * Document) : bool :=
  negb (bool_decide (enc (VDoc (rewrite_entry m kd).2) = enc (VDoc kd.2))).

Definition modifications (m : CompiledFilter) (v : view) : view :=
  map (rewrite_entry m) (List.filter (modified m) v).

(** The update can be applied to a document. *)
Definition updatable (d : Document) : Prop := ∃ u, apply d = Ok u ∧ fits (VDoc u).

(** Why not. *)
Definition not_updatable (d : Document) (e : exn) : Prop :=
  apply d = Throw e ∨ ∃ u, apply d = Ok u ∧ ¬ fits (VDoc u) ∧ e = StorageError InvalidDocument.

Lemma prepareUpdate_outcome m kd :
  entry_ok kd → matched m kd.2 = true →
  match prepareUpdate (located kd) apply with
  | Ok b => updatable kd.2 ∧ entry_ok (rewrite_entry m kd) ∧
      b = if modified m kd then Some (enc (VDoc (rewrite_entry m kd).2)) else None
  | Throw e => not_updatable kd.2 e
  end.
Proof.
  intros He Hm. unfold prepareUpdate. cbn [located located_document located_encoded].
  unfold modified, rewrite_entry. rewrite Hm.
  destruct (apply kd.2) as [u|e] eqn:Ea; cbn [mbind res_bind]; [|by left].
  pose proof (updated_entry kd u He Ea) as H.
  destruct (encodeStoredDocument u) as [b|e]; cbn [mbind res_bind].
  - destruct H as (Hf & -> & He'). split; [by exists u|]. split; [done|]. cbn [snd].
    rewrite bytesEqual_spec. by destruct (bool_decide _).
  - destruct H as [Hf ->]. right. by exists u.
Qed.

Lemma rewrite_key m kd : (rewrite_entry m kd).1 = kd.1.
Proof. unfold rewrite_entry. destruct (matched m kd.2); [|done]. by destruct (apply kd.2). Qed.

Lemma modifications_keys m v :
  omap_keys (modifications m v) = omap_keys (List.filter (modified m) v).
Proof.
  unfold modifications, omap_keys. rewrite map_map. apply map_ext. apply rewrite_key.
Qed.

(** One turn, on a document that decodes. *)
Lemma update_turn_skip m indexed k b d state :
  decodeDocument b = Ok d → m d = Ok false →
  update_turn m apply indexed (k, b) state = Ok state.
Proof. intros Hd Hm. destruct state as [[n pend] chs]. unfold update_turn. rewrite Hd. cbn. by rewrite Hm. Qed.

Lemma update_turn_match m (indexed : bool) k b d n pend chs :
  decodeDocument b = Ok d → m d = Ok true →
  update_turn m apply indexed (k, b) (n, pend, chs) =
    prepared ← prepareUpdate {| located_key := k; located_encoded := b; located_document := d |} apply;
    match prepared with
    | None => Ok (n + 1, pend, chs)
    | Some bytes =>
        chs' ← (if indexed
                then after ← decodeDocument bytes; Ok (chs ++ [change k (Some d) (Some after)])
                else Ok chs);
        Ok (n + 1, pend ++ [(k, bytes)], chs')
    end.
Proof.
  intros Hd Hm. unfold update_turn. rewrite Hd. cbn [mbind res_bind]. rewrite Hm. cbn [mbind res_bind negb].
  by destruct indexed.
Qed.

(** The loop of [updateMany] over the documents that match. *)
Lemma update_loop m (v0 v : view) (P : jsstring → bool) n pend chs :
  view_ok v0 → (∀ kd, kd ∈ v → kd ∈ v0) →
  (∀ d, encodable (VDoc d) → m d = Ok (matched m d)) →
  (∀ kd, kd ∈ v → matched m kd.2 = true → P kd.1 = true) → ∀ indexed : bool,
  match foldM (update_turn m apply indexed) (List.filter (λ kb, P kb.1) (image v)) (n, pend, chs) with
  | Ok (n', pend', chs') =>
      n' = n + len (selected m v) ∧ pend' = pend ++ image (modifications m v) ∧
      (chs' = if indexed then chs ++ rewrites v0 (modifications m v) else chs) ∧
      Forall (λ kd, updatable kd.2) (selected m v) ∧ Forall entry_ok (modifications m v)
  | Throw e => ∃ kd, kd ∈ selected m v ∧ not_updatable kd.2 e
  end.
Proof.
  intros Hv0 Hin Hm HP indexed. revert n pend chs.
  induction v as [|kd v IH]; intros n pend chs.
  { cbn. split; [by rewrite Z.add_0_r|]. split; [by rewrite app_nil_r|].
    split; [destruct indexed; by rewrite ?app_nil_r|by split]. }
  destruct (view_entry_get v0 kd Hv0 (Hin kd (list_elem_of_here _ _))) as [Hget He].
  specialize (IH (λ kd' H, Hin kd' (list_elem_of_further _ _ _ H))
    (λ kd' H, HP kd' (list_elem_of_further _ _ _ H))).
  pose proof (HP kd (list_elem_of_here _ _)) as Hk. clear Hin HP.
  assert (decodeDocument (enc (VDoc kd.2)) = Ok kd.2) as Hdec by apply He.
  cbn [image map List.filter fst snd]. fold (image v). unfold selected, modifications.
  cbn [List.filter]. fold (selected m v).
  destruct (matched m kd.2) eqn:Em.
  2: { assert (modified m kd = false) as ->.
       { unfold modified, rewrite_entry. rewrite Em. by rewrite bool_decide_eq_true_2. }
       fold (modifications m v). destruct (P kd.1); [|apply IH]. cbn [foldM].
       rewrite (update_turn_skip m indexed kd.1 _ kd.2); [|exact Hdec|].
       2: { by rewrite (Hm kd.2 (entry_encodable _ He)), Em. }
       apply IH. }
  rewrite Hk by done. cbn [foldM].
  rewrite (update_turn_match m indexed kd.1 _ kd.2); [|exact Hdec|].
  2: { by rewrite (Hm kd.2 (entry_encodable _ He)), Em. }
  fold (located kd). pose proof (prepareUpdate_outcome m kd He Em) as Hp.
  destruct (prepareUpdate (located kd) apply) as [b|e]; cbn [mbind res_bind].
  2: { exists kd. split; [left|done]. }
  destruct Hp as (Hu & He' & ->). destruct (modified m kd) eqn:Emod.
  - assert (decodeDocument (enc (VDoc (rewrite_entry m kd).2)) = Ok (rewrite_entry m kd).2) as Hdec'
      by apply He'.
    assert ((if indexed then
          after ← decodeDocument (enc (VDoc (rewrite_entry m kd).2));
          Ok (chs ++ [change kd.1 (Some kd.2) (Some after)])
      else Ok chs)
      = Ok (E:=exn) (if indexed then chs ++ rewrites v0 [rewrite_entry m kd] else chs)) as ->.
    { destruct indexed; [|done]. rewrite Hdec'. cbn [mbind res_bind rewrites map].
      by rewrite rewrite_key, Hget. }
    cbn [mbind res_bind]. specialize (IH (n + 1) (pend ++ [(kd.1, enc (VDoc (rewrite_entry m kd).2))])
      (if indexed then chs ++ rewrites v0 [rewrite_entry m kd] else chs)).
    destruct (foldM _ _ (n + 1, _, _)) as [[[n' pend'] chs']|e].
    + destruct IH as (-> & -> & -> & H4 & H5). rewrite len_cons. split; [lia|]. cbn [map].
      fold (modifications m v). split.
      { rewrite <- app_assoc. cbn [image map app]. by rewrite rewrite_key. }
      split; [destruct indexed; [by rewrite <- app_assoc|done]|].
      split; by constructor.
    + destruct IH as (kd' & H1 & H2). exists kd'. split; [by right|done].
  - cbn [mbind res_bind]. specialize (IH (n + 1) pend chs). destruct (foldM _ _ (n + 1, _, _)) as [[[n' pend'] chs']|e].
    + destruct IH as (-> & -> & -> & H4 & H5). rewrite len_cons. split; [lia|].
      split; [done|]. split; [done|]. split; [by constructor|done].
    + destruct IH as (kd' & H1 & H2). exists kd'. split; [by right|done].
Qed.

(** Writing the modifications rewrites every document. *)
Lemma writes_modifications m v :
  view_ok v → Forall (λ kd, updatable kd.2) (selected m v) → Forall entry_ok (modifications m v) →
  writes (modifications m v) v = map (rewrite_entry m) v.
Proof.
  intros Hv Hu He. rewrite writes_map; [|apply Hv| |].
  2: { rewrite modifications_keys. apply filter_keys_sublist, Hv. }
  2: { intros k. rewrite modifications_keys. intros Hk.
       apply list_elem_of_fmap in Hk as (kd & -> & [Hk _]%elem_of_filter_bool).
       by apply (list_elem_of_fmap_2 fst). }
  apply map_ext_in. intros kd Hkd%list_elem_of_In.
  destruct (view_entry_get v kd Hv Hkd) as [Hg Hok].
  destruct (modified m kd) eqn:Em.
  - assert (rewrite_entry m kd ∈ modifications m v) as Hin.
    { apply (list_elem_of_fmap_2 (rewrite_entry m)). by apply elem_of_filter_bool. }
    rewrite (omap_get_in _ kd.1 (rewrite_entry m kd).2).
    + rewrite <- (rewrite_key m kd) at 1. by destruct (rewrite_entry m kd).
    + rewrite modifications_keys. apply filter_keys_sublist, Hv.
    + rewrite <- (rewrite_key m kd). by destruct (rewrite_entry m kd).
  - assert (omap_get (modifications m v) kd.1 = None) as ->.
    { apply omap_get_None. rewrite modifications_keys. intros Hk.
      apply list_elem_of_fmap in Hk as ([k' d'] & Ek & [Hk Hmod]%elem_of_filter_bool).
      destruct kd as [k d]. cbn [fst] in Ek. subst k'.
      destruct (view_entry_get v _ Hv Hk) as [Hg' _]. cbn [fst snd] in *. congruence. }
    unfold modified in Em. apply negb_false_iff, bool_decide_eq_true in Em.
    unfold rewrite_entry in *. destruct (matched m kd.2) eqn:Ema; [|done].
    assert (kd ∈ selected m v) as Hsel by (by apply elem_of_filter_bool).
    rewrite Forall_forall in Hu. destruct (Hu _ Hsel) as (u & Ea & Hf). rewrite Ea in Em |- *.
    pose proof (updated_entry kd u Hok Ea) as Hue. unfold encodeStoredDocument in Hue.
    assert (encodeDocument u = Ok (enc (VDoc u))) as Eu by (unfold encodeDocument; by apply fits_encode).
    rewrite Eu in Hue. cbn [catch] in Hue. destruct Hue as (_ & _ & He').
    cbn [snd] in Em. destruct kd as [k d]. cbn [fst snd] in *.
    apply (bytes_new k) in Em; [|done|done]. by rewrite Em.
Qed.
End Updates.

(** ** The operations *)
Section Operations.
Context {J : Type} (journal : option (list JournalOperation → ST J exn ())).
Context (durable : J → contents → Prop) {calm : J → contents → list JournalOperation → Prop} `{!JournalLaws journal durable calm}.
Implicit Types c : InMemoryCollection J.

Abbreviation coll_inv := (coll_inv durable).
Abbreviation changed := (changed durable).
Abbreviation unchanged := (unchanged durable).

Lemma writes_one v k d : writes [(k, d)] v = omap_set v k d.
Proof. done. Qed.

(** Writing documents that are there. *)
Lemma tracked_writes {A} c `{!MayCommit calm c} v (l : view) (k : ST (InMemoryCollection J) exn A)
    (write : ST (InMemoryCollection J) exn ()) operations :
  coll_inv c v → Forall entry_ok l → NoDup (omap_keys l) → (∀ k, k ∈ omap_keys l → k ∈ omap_keys v) →
  operations = map (λ e, OpPut e.1 e.2) (image l) →
  (∀ c1, seq_ok c1 → ∃ c2, write c1 = (Ok (), c2) ∧
     written c1 (fold_left (λ m e, omap_set m e.1 e.2) (image l) (documents c1)) c2) →
  let m := (undo ← trackChanges (rewrites v l);
            _ ← commit_or journal operations (on_indexes (rollback undo)); _ ← write; k) in
  (∃ c', changed c (writes l v) c' ∧ m c = k c') ∨
  (∃ e c', unchanged c v c' ∧ write_failed journal c operations (writes l v) e ∧ m c = (Throw e, c')).
Proof.
  intros Hc He Hn Hin -> Hw m. pose proof Hc as [Hdoc Hv _ _ _].
  destruct (rewrites_ok l v Hv He Hn Hin (coll_inv_len durable c v Hc)) as [Hch Hafter].
  destruct (tracked_write journal durable c v (writes l v) (rewrites v l)
    (map (λ e, OpPut e.1 e.2) (image l)) write k Hc Hch Hafter)
    as [(c' & Hch' & E)|(e & c' & (H1 & H2 & H3) & E)].
  - by apply view_ok_writes.
  - rewrite replay_puts, image_writes. unfold contents_of. by rewrite Hdoc.
  - by apply puts_ok.
  - apply puts_create.
  - intros c1 Hd1 Hs1. rewrite image_writes, <- Hd1. by apply Hw.
  - left. by exists c'.
  - right. exists e, c'. done.
Qed.

(** Writing one document. *)
Lemma write_one {A} c `{!MayCommit calm c} v kd d' (k : ST (InMemoryCollection J) exn A) :
  coll_inv c v → kd ∈ v → entry_ok (kd.1, d') →
  let m := (undo ← trackChanges [change kd.1 (Some kd.2) (Some d')];
            _ ← commit_or journal [OpPut kd.1 (enc (VDoc d'))] (on_indexes (rollback undo));
            _ ← put kd.1 (enc (VDoc d')); k) in
  (∃ c', changed c (omap_set v kd.1 d') c' ∧ m c = k c') ∨
  (∃ e c', unchanged c v c' ∧
     write_failed journal c [OpPut kd.1 (enc (VDoc d'))] (omap_set v kd.1 d') e ∧ m c = (Throw e, c')).
Proof.
  intros Hc Hin He.
  destruct (view_entry_get v kd (inv_view _ _ _ Hc) Hin) as [Hg _].
  assert ([change kd.1 (Some kd.2) (Some d')] = rewrites v [(kd.1, d')]) as ->
    by (cbn; by rewrite Hg).
  apply (tracked_writes c v [(kd.1, d')]); [done|by apply Forall_singleton|apply NoDup_singleton| |done|].
  - intros k' ->%list_elem_of_singleton. exact (list_elem_of_fmap_2 fst v kd Hin).
  - intros c1 Hs. by apply put_written.
Qed.

(** An upsert inserts the document that the filter and the update describe. *)
Definition upserted (fields : Document) (apply : Update.CompiledUpdate) (upsert : bool)
    (generated : result bytes) c v (r : StorageUpdateResult) c' : Prop :=
  matchedCount r = 0 ∧ modifiedCount r = 0 ∧
  if upsert then
    ∃ seed document i d, Update.seedDocumentFromFilter fields = Ok seed ∧
      apply seed = Ok document ∧ inserts (VDoc document) generated i d ∧ upsertedId r = Some i ∧
      (CustomId.toHexString i ∉ omap_keys v) ∧ changed c (v ++ [(CustomId.toHexString i, d)]) c'
  else upsertedId r = None ∧ c' = c.

Definition upsert_failed (fields : Document) (apply : Update.CompiledUpdate)
    (generated : result bytes) c v (e : exn) : Prop :=
  Update.seedDocumentFromFilter fields = Throw e ∨
  ∃ seed, Update.seedDocumentFromFilter fields = Ok seed ∧
    (apply seed = Throw e ∨
     ∃ document, apply seed = Ok document ∧ insert_failed journal c v (VDoc document) generated e).

Lemma upsertFromUpdate_outcome c `{!MayCommit calm c} v fields update apply upsert generated :
  coll_inv c v → good_value (VDoc fields) → good_value update →
  Update.compileUpdate update = Ok apply → generated_ok generated → len v + 1 < 2 ^ 31 →
  match upsertFromUpdate journal fields apply upsert generated c with
  | (Ok r, c') => upserted fields apply upsert generated c v r c'
  | (Throw e, c') => unchanged c v c' ∧ upsert = true ∧ upsert_failed fields apply generated c v e
  end.
Proof.
  intros Hc [Hfw Hfc] [Huw Huc] Hu Hg Hl. unfold upsertFromUpdate.
  destruct upsert; [|done]. cbn [negb]. unfold st_lift. unfold mbind at 1, st_bind at 1.
  destruct (Update.seedDocumentFromFilter fields) as [seed|e] eqn:Es.
  2: { split; [done|]. split; [done|]. by left. }
  pose proof (seed_wf _ _ Hfw Es) as Hsw. pose proof (seed_clean _ _ Hfc Es) as Hsc.
  unfold mbind at 1, st_bind at 1. destruct (apply seed) as [document|e] eqn:Ea.
  2: { split; [done|]. split; [done|]. right. exists seed. split; [done|by left]. }
  assert (good_value (VDoc document)) as Hd.
  { split; [exact (update_wf update apply seed document Huw Hu Hsw Ea)
    |exact (update_clean update apply seed document Huc Hu Hsc Ea)]. }
  pose proof (insertOne_outcome journal durable c v (VDoc document) generated Hc Hd Hg Hl) as H.
  unfold mbind, st_bind. destruct (insertOne journal (VDoc document) generated c) as [[i|e] c'].
  - destruct H as (d & H1 & H2 & H3). split; [done|]. split; [done|]. by exists seed, document, i, d.
  - destruct H as [H1 H2]. split; [done|]. split; [done|]. right. exists seed. split; [done|].
    right. by exists document.
Qed.

(** The arguments that an update compiles first. *)
Definition update_compiled (filter update : DocumentValue) (upsert : option DocumentValue)
    (fields : Document) (m : CompiledFilter) (apply : Update.CompiledUpdate) (b : bool) : Prop :=
  compile filter = Ok (fields, m) ∧ Update.compileUpdate update = Ok apply ∧
  validateUpsert upsert = Ok b.

Definition update_invalid (filter update : DocumentValue) (upsert : option DocumentValue)
    (e : exn) : Prop :=
  compile filter = Throw e ∨ Update.compileUpdate update = Throw e ∨ validateUpsert upsert = Throw e.

Lemma good_fields filter fields m :
  compile filter = Ok (fields, m) → good_value filter → good_value (VDoc fields).
Proof. intros Hm [Hw Hcl]. by destruct (compile_spec _ _ _ Hm Hw) as (-> & _). Qed.

Lemma updateMany_outcome c `{!MayCommit calm c} v filter update upsert generated :
  coll_inv c v → good_value filter → good_value update → generated_ok generated →
  len v + 1 < 2 ^ 31 →
  match updateMany journal filter update upsert generated c with
  | (Ok r, c') => ∃ fields m apply b, update_compiled filter update upsert fields m apply b ∧
      if len (selected m v) =? 0 then upserted fields apply b generated c v r c'
      else r = {| matchedCount := len (selected m v);
                  modifiedCount := len (modifications apply m v); upsertedId := None |} ∧
           Forall (λ kd, updatable apply kd.2) (selected m v) ∧
           changed c (map (rewrite_entry apply m) v) c'
  | (Throw e, c') => unchanged c v c' ∧
      (update_invalid filter update upsert e ∨
       ∃ fields m apply b, update_compiled filter update upsert fields m apply b ∧
         if len (selected m v) =? 0 then b = true ∧ upsert_failed fields apply generated c v e
         else (∃ kd, kd ∈ selected m v ∧ not_updatable apply kd.2 e) ∨
              ∃ operations, write_failed journal c operations (map (rewrite_entry apply m) v) e)
  end.
Proof.
  intros Hc Hf Hu Hg Hl. unfold updateMany, st_lift, st_get. unfold mbind at 1, st_bind at 1.
  destruct (compile filter) as [[fields m]|e] eqn:Em; [|by split; [|left; left]].
  unfold mbind at 1, st_bind at 1.
  destruct (Update.compileUpdate update) as [apply|e] eqn:Eu; [|by split; [|left; right; left]].
  unfold mbind at 1, st_bind at 1.
  destruct (validateUpsert upsert) as [b|e] eqn:Eb; [|by split; [|left; right; right]].
  assert (update_compiled filter update upsert fields m apply b) as Hcomp by done.
  destruct (query_candidates durable c v filter fields m Hc Em (proj1 Hf)) as (P & EP & HP).
  destruct (compile_spec _ _ _ Em (proj1 Hf)) as (_ & _ & _ & Hdec).
  pose proof Hc as [Hdoc Hv _ _ _].
  unfold mbind at 1, st_bind at 1. unfold mbind at 1, st_bind at 1. rewrite EP.
  unfold mbind at 1, st_bind at 1.
  pose proof (update_loop update apply Hu Eu m v v P 0 [] [] Hv (λ _ H, H)
    (λ d Hd, proj1 (Hdec d Hd)) HP (negb (isEmpty (indexes c)))) as Hloop.
  destruct (foldM _ _ (0, [], [])) as [[[matched pend] chs]|e].
  2: { split; [done|]. right. exists fields, m, apply, b. split; [done|].
       destruct Hloop as (kd & Hin & Hne). destruct (Z.eqb_spec (len (selected m v)) 0) as [E|_].
       - apply len_0_inv in E. rewrite E in Hin. by apply not_elem_of_nil in Hin.
       - left. by exists kd. }
  destruct Hloop as (-> & -> & -> & Hupd & Hent). rewrite Z.add_0_l, app_nil_l.
  destruct (Z.eqb_spec (len (selected m v)) 0) as [E0|Hne].
  { pose proof (upsertFromUpdate_outcome c v fields update apply b generated Hc
      (good_fields _ _ _ Em Hf) Hu Eu Hg Hl) as H.
    destruct (upsertFromUpdate journal fields apply b generated c) as [[r|e] c'].
    - exists fields, m, apply, b. by rewrite E0.
    - destruct H as (H1 & H2 & H3). split; [done|]. right. exists fields, m, apply, b. by rewrite E0. }
  apply Z.eqb_neq in Hne.
  pose proof (writes_modifications update apply Hu Eu m v Hv Hupd Hent) as Hwm.
  set (mods := modifications apply m v) in *.
  rewrite (st_bind_eq _ (trackChanges (rewrites v mods))).
  2: { destruct (isEmpty (indexes c)) eqn:Ei; [|done]. by rewrite !trackChanges_empty. }
  assert (len (image mods) = len mods) as Elen by (unfold len, image; by rewrite length_map).
  rewrite Elen. destruct (Z.ltb_spec 0 (len mods)) as [Hpos|Hnone].
  - destruct (tracked_writes c v mods (mret {| matchedCount := len (selected m v);
        modifiedCount := len mods; upsertedId := None |})
      (st_each (λ e, put e.1 e.2) (image mods)) (map (λ e, OpPut e.1 e.2) (image mods)) Hc Hent)
      as [(c' & Hch & E)|(e & c' & H1 & H2 & E)].
    + unfold mods. rewrite modifications_keys. apply filter_keys_sublist, Hv.
    + unfold mods. intros k. rewrite modifications_keys. intros Hk.
      apply list_elem_of_fmap in Hk as (kd & -> & [Hk _]%elem_of_filter_bool).
      by apply (list_elem_of_fmap_2 fst).
    + done.
    + intros c1 Hs. by apply puts_written.
    + rewrite E. cbn. exists fields, m, apply, b. rewrite Hne, <- Hwm. done.
    + rewrite E. split; [done|]. right. exists fields, m, apply, b. rewrite Hne. split; [done|].
      right. eexists. by rewrite <- Hwm.
  - assert (mods = []) as Emods by (apply len_0_inv; pose proof (len_nonneg mods); lia).
    rewrite Emods. cbn. unfold trackChanges, on_indexes, applyChanges, mbind, st_bind, st_get.
    assert (set_indexes c (indexes c) = c) as Eid by (by destruct c).
    destruct (len (omap_keys (indexes c)) =? 0); cbn; exists fields, m, apply, b;
      fold mods; rewrite Hne, Emods, <- Hwm, Emods, Eid; done.
Qed.
Lemma unmodified_set apply m v kd update :
  good_value update → Update.compileUpdate update = Ok apply → view_ok v → kd ∈ v →
  entry_ok (rewrite_entry apply m kd) → modified apply m kd = false →
  omap_set v kd.1 (rewrite_entry apply m kd).2 = v.
Proof.
  intros Hu Ec Hv Hin He Hm. destruct (view_entry_get v kd Hv Hin) as [Hg Hok].
  unfold modified in Hm. apply negb_false_iff, bool_decide_eq_true in Hm.
  pose proof (rewrite_key apply m kd) as Hk. destruct (rewrite_entry apply m kd) as [k d'], kd as [k0 d].
  cbn [fst snd] in *. subst k0. apply (bytes_new k) in Hm as ->; [|done|done].
  by apply omap_set_same.
Qed.

Lemma updateOne_outcome c `{!MayCommit calm c} v filter update upsert generated :
  coll_inv c v → good_value filter → good_value update → generated_ok generated →
  len v + 1 < 2 ^ 31 →
  match updateOne journal filter update upsert generated c with
  | (Ok r, c') => ∃ fields m apply b, update_compiled filter update upsert fields m apply b ∧
      match head (selected m v) with
      | None => upserted fields apply b generated c v r c'
      | Some kd =>
          r = {| matchedCount := 1; modifiedCount := if modified apply m kd then 1 else 0;
                 upsertedId := None |} ∧
          updatable apply kd.2 ∧ changed c (omap_set v kd.1 (rewrite_entry apply m kd).2) c'
      end
  | (Throw e, c') => unchanged c v c' ∧
      (update_invalid filter update upsert e ∨
       ∃ fields m apply b, update_compiled filter update upsert fields m apply b ∧
         match head (selected m v) with
         | None => b = true ∧ upsert_failed fields apply generated c v e
         | Some kd => not_updatable apply kd.2 e ∨
             write_failed journal c [OpPut kd.1 (enc (VDoc (rewrite_entry apply m kd).2))]
               (omap_set v kd.1 (rewrite_entry apply m kd).2) e
         end)
  end.
Proof.
  intros Hc Hf Hu Hg Hl. unfold updateOne, st_lift, st_get. unfold mbind at 1, st_bind at 1.
  destruct (compile filter) as [[fields m]|e] eqn:Em; [|by split; [|left; left]].
  unfold mbind at 1, st_bind at 1.
  destruct (Update.compileUpdate update) as [apply|e] eqn:Eu; [|by split; [|left; right; left]].
  unfold mbind at 1, st_bind at 1.
  destruct (validateUpsert upsert) as [b|e] eqn:Eb; [|by split; [|left; right; right]].
  assert (update_compiled filter update upsert fields m apply b) as Hcomp by done.
  unfold mbind at 1, st_bind at 1. unfold mbind at 1, st_bind at 1.
  rewrite (locate_spec durable c v filter fields m Hc Em (proj1 Hf)).
  destruct (head (selected m v)) as [kd|] eqn:Eh; cbn [fmap option_fmap option_map].
  2: { pose proof (upsertFromUpdate_outcome c v fields update apply b generated Hc
         (good_fields _ _ _ Em Hf) Hu Eu Hg Hl) as H.
       destruct (upsertFromUpdate journal fields apply b generated c) as [[r|e] c'].
       - exists fields, m, apply, b. by rewrite Eh.
       - destruct H as (H1 & H2 & H3). split; [done|]. right. exists fields, m, apply, b. by rewrite Eh. }
  destruct (selected_head _ _ _ Eh) as [Hin Hmatch]. pose proof Hc as [_ Hv _ _ _].
  destruct (view_entry_get v kd Hv Hin) as [Hget He].
  assert (decodeDocument (enc (VDoc kd.2)) = Ok kd.2) as Hdec by apply He.
  assert ((if isEmpty (indexes c) then Ok None
           else d ← decodeDocument (located_encoded (located kd)); Ok (Some d)) =
    Ok (E:=exn) (if isEmpty (indexes c) then None else Some kd.2)) as ->.
  { cbn [located located_encoded]. rewrite Hdec. by destruct (isEmpty (indexes c)). }
  unfold mbind at 1, st_bind at 1. unfold mbind at 1, st_bind at 1.
  pose proof (prepareUpdate_outcome update apply Hu Eu m kd He Hmatch) as Hp.
  destruct (prepareUpdate (located kd) apply) as [bs|e].
  2: { split; [done|]. right. exists fields, m, apply, b. rewrite Eh. split; [done|]. by left. }
  destruct Hp as (Hupd & He' & ->). destruct (modified apply m kd) eqn:Emod.
  2: { exists fields, m, apply, b. rewrite Eh, Emod. split; [done|]. split; [done|]. split; [done|].
       rewrite (unmodified_set apply m v kd update) by done. done. }
  pose proof (rewrite_key apply m kd) as Hk. set (d' := (rewrite_entry apply m kd).2) in *.
  assert (entry_ok (kd.1, d')) as Hed by (rewrite <- Hk; unfold d'; by destruct (rewrite_entry apply m kd)).
  assert (decodeDocument (enc (VDoc d')) = Ok d') as -> by apply Hed.
  unfold mbind at 1, st_bind at 1. cbn [located located_key].
  rewrite (st_bind_eq _ (trackChanges [change kd.1 (Some kd.2) (Some d')])).
  2: { destruct (isEmpty (indexes c)) eqn:Ei; [|done]. by rewrite !trackChanges_empty. }
  destruct (write_one c v kd d' (mret {| matchedCount := 1; modifiedCount := 1; upsertedId := None |})
    Hc Hin Hed) as [(c' & Hch & ->)|(e & c' & H1 & H2 & ->)].
  - cbn. exists fields, m, apply, b. by rewrite Eh, Emod.
  - split; [done|]. right. exists fields, m, apply, b. rewrite Eh. split; [done|]. by right.
Qed.

(** *** Replacing *)
Definition replace_compiled (filter replacement : DocumentValue) (upsert : option DocumentValue)
    (fields : Document) (m : CompiledFilter) (r : Document) (b : bool) : Prop :=
  compile filter = Ok (fields, m) ∧ validateUpsert upsert = Ok b ∧ validateReplacement replacement = Ok r.

Definition replace_invalid (filter replacement : DocumentValue) (upsert : option DocumentValue)
    (e : exn) : Prop :=
  compile filter = Throw e ∨ validateUpsert upsert = Throw e ∨ validateReplacement replacement = Throw e.

(** The id that the replacement asks for is not [id]. *)
Definition other_id (replacement : Document) (id : bytes) : Prop :=
  ∃ w, obj_get replacement (js "_id") = Some w ∧ w ≠ VId id.

(** The document that a replacement inserts when nothing matches. *)
Definition upsert_document (fields replacement : Document) : result Document :=
  match obj_get fields (js "_id") with
  | Some (VId id) =>
      match obj_get replacement (js "_id") with
      | None => Ok (with_id replacement id)
      | Some (VId r) => if decide (r = id) then Ok replacement else immutableId
      | Some _ => immutableId
      end
  | _ => Ok replacement
  end.

Lemma equals_spec a b : length a = length b → CustomId.equals a b = bool_decide (a = b).
Proof.
  intros Hl. apply eq_bool_prop_intro. rewrite bool_decide_spec, Is_true_true. unfold CustomId.equals.
  rewrite forallb_forall. split.
  - intros H. apply list_eq_same_length with (n := length a); [done|done|].
    intros i x y Hi Hx Hy. assert ((i, x) ∈ imap (λ i x, (i, x)) a) as Hin.
    { apply list_elem_of_lookup. exists i. by rewrite list_lookup_imap, Hx. }
    specialize (H (i, x) (proj1 (list_elem_of_In _ _) Hin)). cbn in H.
    apply bool_decide_eq_true in H. congruence.
  - intros -> [i x] Hin%list_elem_of_In. apply list_elem_of_lookup in Hin as (j & Hj).
    rewrite list_lookup_imap in Hj. destruct (b !! j) eqn:E; [|done]. injection Hj as <- <-.
    by apply bool_decide_eq_true.
Qed.

Lemma same_id_spec (r : Document) i :
  wf_document r → wf_value (VId i) = true →
  same_id (obj_get r (js "_id")) i = true ↔ obj_get r (js "_id") = Some (VId i).
Proof.
  intros Hr Hi. destruct (obj_get r (js "_id")) as [w|] eqn:E; [|done]. destruct w; try done.
  pose proof (wf_document_get _ _ _ Hr E) as Hw. cbn [same_id]. cbn [wf_value] in Hw, Hi.
  apply andb_true_iff in Hw as [_ Hw%Z.eqb_eq]. apply andb_true_iff in Hi as [_ Hi%Z.eqb_eq].
  rewrite equals_spec by (unfold len in *; lia). rewrite bool_decide_eq_true. naive_solver.
Qed.

Lemma validateReplacement_good replacement r :
  good_value replacement → validateReplacement replacement = Ok r → good_value (VDoc r).
Proof.
  intros H. destruct replacement; try done. cbn. destruct (existsb _ _); [done|]. by intros [= <-].
Qed.

(** Where the upserted document of [replaceOne] comes from. *)
Lemma upsert_document_spec fields r :
  wf_document fields → good_value (VDoc r) →
  (match obj_get fields (js "_id") with
   | Some (VId filterId) =>
       if omap_has r (js "_id")
       then (if same_id (obj_get r (js "_id")) filterId then Ok r else immutableId)
       else Ok (with_id r filterId)
   | _ => Ok r
   end) = upsert_document fields r ∧
  ∀ document, upsert_document fields r = Ok document → good_value (VDoc document).
Proof.
  intros Hf [Hw Hcl]. unfold upsert_document.
  destruct (obj_get fields (js "_id")) as [w|] eqn:Ef; [|split; [done|by intros ? [= <-]]].
  destruct w; try (split; [done|by intros ? [= <-]]).
  pose proof (wf_document_get _ _ _ Hf Ef) as Hi. pose proof (same_id_spec r bs Hw Hi) as Hs.
  unfold omap_has. destruct (obj_get r (js "_id")) as [w|].
  - destruct (same_id (Some w) bs) eqn:Es.
    + pose proof (proj1 Hs eq_refl) as E. injection E as ->. rewrite decide_True by done.
      split; [done|by intros ? [= <-]].
    + destruct w; try (split; [done|by intros ?]). rewrite decide_False.
      * split; [done|by intros ?].
      * intros ->. by specialize (proj2 Hs eq_refl).
  - split; [done|]. intros ? [= <-]. split; [by apply with_id_wf|by apply with_id_clean].
Qed.

Lemma replaceOne_outcome c `{!MayCommit calm c} v filter replacement upsert generated :
  coll_inv c v → good_value filter → good_value replacement → generated_ok generated →
  len v + 1 < 2 ^ 31 →
  match replaceOne journal filter replacement upsert generated c with
  | (Ok res, c') => ∃ fields m r b, replace_compiled filter replacement upsert fields m r b ∧
      match head (selected m v) with
      | None => matchedCount res = 0 ∧ modifiedCount res = 0 ∧
          if b : bool then
            ∃ document i d, upsert_document fields r = Ok document ∧
              inserts (VDoc document) generated i d ∧ upsertedId res = Some i ∧
              (CustomId.toHexString i ∉ omap_keys v) ∧ changed c (v ++ [(CustomId.toHexString i, d)]) c'
          else upsertedId res = None ∧ c' = c
      | Some kd => ∃ i, obj_get kd.2 (js "_id") = Some (VId i) ∧ ¬ other_id r i ∧
          fits (VDoc (with_id r i)) ∧ upsertedId res = None ∧ matchedCount res = 1 ∧
          (modifiedCount res = 0 ∧ stored_form (with_id r i) = kd.2 ∨
           modifiedCount res = 1 ∧ stored_form (with_id r i) ≠ kd.2) ∧
          changed c (omap_set v kd.1 (stored_form (with_id r i))) c'
      end
  | (Throw e, c') => unchanged c v c' ∧
      (replace_invalid filter replacement upsert e ∨
       ∃ fields m r b, replace_compiled filter replacement upsert fields m r b ∧
         match head (selected m v) with
         | None => b = true ∧
             (upsert_document fields r = Throw e ∨
              ∃ document, upsert_document fields r = Ok document ∧
                insert_failed journal c v (VDoc document) generated e)
         | Some kd => ∃ i, obj_get kd.2 (js "_id") = Some (VId i) ∧
             (e = StorageError ImmutableId ∧ other_id r i ∨
              e = StorageError InvalidDocument ∧ ¬ fits (VDoc (with_id r i)) ∨
              write_failed journal c [OpPut kd.1 (enc (VDoc (stored_form (with_id r i))))]
                (omap_set v kd.1 (stored_form (with_id r i))) e)
         end)
  end.
Proof.
  intros Hc Hf Hr Hg Hl. unfold replaceOne, st_lift, st_get. unfold mbind at 1, st_bind at 1.
  destruct (compile filter) as [[fields m]|e] eqn:Em; [|by split; [|left; left]].
  unfold mbind at 1, st_bind at 1.
  destruct (validateUpsert upsert) as [b|e] eqn:Eb; [|by split; [|left; right; left]].
  unfold mbind at 1, st_bind at 1.
  destruct (validateReplacement replacement) as [r|e] eqn:Er; [|by split; [|left; right; right]].
  assert (replace_compiled filter replacement upsert fields m r b) as Hcomp by done.
  pose proof (validateReplacement_good _ _ Hr Er) as Hrg. pose proof Hrg as [Hrw Hrc].
  unfold mbind at 1, st_bind at 1. unfold mbind at 1, st_bind at 1.
  rewrite (locate_spec durable c v filter fields m Hc Em (proj1 Hf)). cbv zeta.
  destruct (head (selected m v)) as [kd|] eqn:Eh; cbn [fmap option_fmap option_map].
  - destruct (selected_head _ _ _ Eh) as [Hin _]. pose proof Hc as [_ Hv _ _ _].
    destruct (view_entry_get v kd Hv Hin) as [Hget He].
    cbn [located located_document located_key located_encoded].
    pose proof He as [_ (i & Hi & Hk)]. rewrite Hi.
    pose proof (entry_encodable _ He) as [Hkw _]. pose proof (wf_document_get _ _ _ Hkw Hi) as Hiw.
    assert (∃ P, (omap_has r (js "_id") && negb (same_id (obj_get r (js "_id")) i)) = P ∧
      (P = true ↔ other_id r i)) as (P & -> & HP).
    { eexists. split; [reflexivity|]. unfold omap_has, other_id.
      pose proof (same_id_spec r i Hrw Hiw) as Hs. destruct (obj_get r (js "_id")) as [w|]; [|naive_solver].
      destruct (same_id (Some w) i); cbn; [|split; [|done]; intros _; exists w; naive_solver].
      split; [done|]. intros (w' & [= <-] & Hne). destruct Hne.
      specialize (proj1 Hs eq_refl). by intros [= ->]. }
    destruct P.
    { split; [done|]. right. exists fields, m, r, b. rewrite Eh. split; [done|]. exists i.
      split; [done|]. left. split; [done|]. by apply HP. }
    unfold mbind at 1, st_bind at 1. unfold encodeStoredDocument.
    pose proof (entry_stored (with_id r i) i (with_id_wf _ _ Hrw Hiw) (with_id_clean _ _ Hrc)
      (with_id_get _ _ Hrw)) as Hen. rewrite <- Hk in Hen.
    set (d' := stored_form (with_id r i)) in *.
    destruct (encodeDocument (with_id r i)) as [bs|e]; cbn [catch].
    2: { split; [done|]. right. exists fields, m, r, b. rewrite Eh. split; [done|]. exists i.
         split; [done|]. right. by left. }
    destruct Hen as (Hfits & -> & Hed). rewrite bytesEqual_spec.
    assert (entry_ok (kd.1, kd.2)) as Hekd by (by destruct kd).
    case_bool_decide as Eq.
    + apply (bytes_new kd.1) in Eq; [|done|done]. exists fields, m, r, b. rewrite Eh. split; [done|].
      exists i. split; [done|]. split; [by intros ?%HP|]. split; [done|]. split; [done|].
      split; [done|]. split; [by left|]. fold d'. rewrite Eq, omap_set_same by done. done.
    + assert (decodeDocument (enc (VDoc d')) = Ok d') as -> by apply Hed.
      unfold mbind at 1, st_bind at 1.
      destruct (write_one c v kd d' (mret {| matchedCount := 1; modifiedCount := 1; upsertedId := None |})
        Hc Hin Hed) as [(c' & Hch & ->)|(e & c' & H1 & H2 & ->)].
      * cbn. exists fields, m, r, b. rewrite Eh. split; [done|]. exists i. split; [done|].
        split; [by intros ?%HP|]. split; [done|]. split; [done|]. split; [done|]. split; [|done].
        right. split; [done|]. intros E. apply Eq. by rewrite <- E.
      * split; [done|]. right. exists fields, m, r, b. rewrite Eh. split; [done|]. exists i.
        split; [done|]. right. by right.
  - destruct b; cbn [negb].
    2: { exists fields, m, r, false. by rewrite Eh. }
    destruct (good_fields _ _ _ Em Hf) as [Hfw _].
    destruct (upsert_document_spec fields r Hfw Hrg) as [Eu Hgood].
    assert (∀ k : Document → ST (InMemoryCollection J) exn StorageUpdateResult,
      (document ← (match obj_get fields (js "_id") with
        | Some (VId filterId) =>
            if omap_has r (js "_id")
            then (if same_id (obj_get r (js "_id")) filterId then mret r else st_lift immutableId)
            else mret (with_id r filterId)
        | _ => mret r
        end); k document) c = match upsert_document fields r with
                              | Ok document => k document c | Throw e => (Throw e, c) end) as Hdoc.
    { intros k. rewrite <- Eu. destruct (obj_get fields (js "_id")) as [w|]; [|done].
      destruct w; try done. destruct (omap_has r (js "_id")); [|done]. by destruct (same_id _ _). }
    unfold st_lift in Hdoc. rewrite Hdoc. clear Hdoc.
    destruct (upsert_document fields r) as [document|e] eqn:Ed.
    2: { split; [done|]. right. exists fields, m, r, true. rewrite Eh. split; [done|]. split; [done|].
         by left. }
    pose proof (insertOne_outcome journal durable c v (VDoc document) generated Hc
      (Hgood _ eq_refl) Hg Hl) as H.
    unfold mbind, st_bind. destruct (insertOne journal (VDoc document) generated c) as [[i|e] c'].
    + destruct H as (d & H1 & H2 & H3). exists fields, m, r, true. rewrite Eh. split; [done|].
      split; [done|]. split; [done|]. by exists document, i, d.
    + destruct H as [H1 H2]. split; [done|]. right. exists fields, m, r, true. rewrite Eh.
      split; [done|]. split; [done|]. right. by exists document.
Qed.
End Operations.

(** * Collections: inserting a batch

    [insertMany] accepts the documents in order up to the first that cannot be
    inserted, records and stores those as one unit, and then reports the failure
    with the ids that were inserted. *)
Import IndexSet.IndexSet Collection.Collection.

(** A document that was accepted, and its entry. *)
Definition entry_of (x : bytes * Document) : jsstring * Document := (CustomId.toHexString x.1, x.2).

(** The documents of a batch, with the ids they would get, and what is stored of
    them. *)
Abbreviation batch_inserts :=
  (Forall2 (λ (doc : DocumentValue * result bytes) (x : bytes * Document), inserts doc.1 doc.2 x.1 x.2)).

Section Batch.
Context {J : Type} (journal : option (list JournalOperation → ST J exn ())).
Context (durable : J → contents → Prop) {calm : J → contents → list JournalOperation → Prop} `{!JournalLaws journal durable calm}.
Implicit Types c : InMemoryCollection J.

Abbreviation coll_inv := (coll_inv durable).
Abbreviation changed := (changed durable).
Abbreviation unchanged := (unchanged durable).

Context (c0 : InMemoryCollection J) (v : view).

Definition undone (rollbacks : list (list Undo)) (docs : gmap jsstring Document) : Prop :=
  ∀ c1, specs (indexes c1) = specs (indexes c0) → indexed (indexes c1) docs →
    ∃ s, st_each (λ undo, on_indexes (rollback undo)) (rev rollbacks) c1 = (Ok (), set_indexes c1 s) ∧
      specs s = specs (indexes c0) ∧ indexed s (docs_of v).

(** After the documents [acc] were accepted. *)
Record batch_inv (acc : list (bytes * Document)) (batch : Batch) c : Prop := {
  batch_same : same_documents c0 c;
  batch_journal : journalState c = journalState c0;
  batch_specs : specs (indexes c) = specs (indexes c0);
  batch_indexed : indexed (indexes c) (docs_of (v ++ map entry_of acc));
  batch_view : view_ok (v ++ map entry_of acc);
  batch_pending : ∀ k, k ∈ pending batch ↔ k ∈ omap_keys (map entry_of acc);
  batch_accepted : map (λ e, (insert_key e, insert_encoded e)) (accepted batch) = image (map entry_of acc);
  batch_ids : map id (accepted batch) = map fst acc;
  batch_undone : undone (rollbacks batch) (docs_of (v ++ map entry_of acc));
  batch_failure : failure batch = None;
}.

(** Why the document after [acc] was not accepted. *)
Definition turn_failed (document : DocumentValue) (generated : result bytes)
    (acc : list (bytes * Document)) (e : exn) : Prop :=
  not_insertable document generated (omap_keys (v ++ map entry_of acc)) e ∨
  ∃ i d, inserts document generated i d ∧ e = StorageError DuplicateKey ∧
    violates (specs (indexes c0)) (docs_of (v ++ map entry_of (acc ++ [(i, d)]))).

Lemma turn_failed_code document generated acc e :
  turn_failed document generated acc e → ∃ code, e = StorageError code.
Proof. intros [[[-> _]|[[-> _]|[-> _]]]|(i & d & _ & -> & _)]; by eexists. Qed.

Lemma not_insertable_ext document generated l l' e :
  (∀ k, k ∈ l ↔ k ∈ l') → not_insertable document generated l e → not_insertable document generated l' e.
Proof.
  intros E [H|[H|(-> & fields & i & H1 & H2 & H3)]]; [by left|by right; left|].
  right; right. split; [done|]. exists fields, i. by rewrite <- E.
Qed.

Lemma insert_turn_outcome acc batch c document generated :
  documents c0 = image v → batch_inv acc batch c → good_value document → generated_ok generated →
  len (v ++ map entry_of acc) + 1 < 2 ^ 31 →
  match insert_turn document generated batch c with
  | (Ok batch', c') => ∃ i d, inserts document generated i d ∧ batch_inv (acc ++ [(i, d)]) batch' c'
  | (Throw e, c') => turn_failed document generated acc e ∧ batch_inv acc batch c'
  end.
Proof.
  intros Hdoc [Hsame Hj Hs Hi Hv Hp Ha Hids Hun Hfail] Hd Hg Hl. unfold insert_turn.
  unfold mbind at 1, st_bind at 1, st_get. unfold mbind at 1, st_bind at 1, st_lift.
  assert (documents c = image v) as Hdc by (rewrite (same_docs _ _ Hsame); done).
  pose proof (prepareInsert_outcome c v document generated (Some (pending batch)) Hdc Hd Hg) as H.
  cbn [default] in H.
  assert (∀ k, k ∈ omap_keys v ++ pending batch ↔ k ∈ omap_keys (v ++ map entry_of acc)) as Hk.
  { intros k. by rewrite omap_keys_app, !elem_of_app, Hp. }
  destruct (prepareInsert document generated (Some (pending batch)) c) as [p|e].
  2: { split; [left; by eapply not_insertable_ext|]. by split. }
  destruct H as (d & Hins & Hkey & Henc & He & Hfree). rewrite Hk in Hfree.
  destruct (insert_change_ok (v ++ map entry_of acc) (insert_key p) d Hv Hfree He Hl) as [Hch Hafter].
  unfold mbind, st_bind. rewrite (trackInsert_change c p d He Henc).
  pose proof (track_outcome c _ [change (insert_key p) None (Some d)] Hi Hch) as Ht.
  rewrite Hafter in Ht.
  assert ((v ++ map entry_of acc) ++ [(insert_key p, d)] = v ++ map entry_of (acc ++ [(id p, d)])) as Eacc.
  { rewrite map_app, app_assoc. cbn. by rewrite Hkey. }
  rewrite Eacc in Ht.
  destruct (trackChanges [change (insert_key p) None (Some d)] c) as [[undo|e] c'].
  - destruct Ht as (Ec & Es & Hi' & Hr). exists (id p), d. split; [done|].
    assert (same_documents c c' ∧ journalState c' = journalState c) as [Hsame' Hj'] by (by rewrite Ec).
    split; cbn.
    + by eapply same_trans.
    + by rewrite Hj'.
    + by rewrite Es.
    + done.
    + rewrite <- Eacc. by apply view_ok_snoc.
    + intros k. rewrite oset_add_elem, Hp, map_app, omap_keys_app, elem_of_app. cbn.
      rewrite list_elem_of_singleton. by rewrite Hkey.
    + rewrite map_app, Ha. unfold image. rewrite (map_app entry_of), (map_app _ (map entry_of acc)). cbn.
      by rewrite Henc, Hkey.
    + by rewrite !map_app, Hids.
    + intros c1 E1 H1. rewrite rev_app_distr. cbn [rev app st_each]. unfold mbind, st_bind.
      destruct (Hr (indexes c1)) as (s2 & Er & Es2 & Hs2); [by rewrite E1|done|].
      unfold on_indexes at 1. rewrite Er.
      destruct (Hun (set_indexes c1 s2)) as (s3 & E3 & Es3 & Hs3); [exact (eq_trans Es2 Hs)|done|].
      exists s3. rewrite E3. done.
    + done.
  - destruct Ht as (Ec & -> & Es & Hi' & Hvi).
    assert (same_documents c c' ∧ journalState c' = journalState c) as [Hsame' Hj'] by (by rewrite Ec).
    split; [right; exists (id p), d; by rewrite <- Hs|].
    split; try done; [by eapply same_trans|by rewrite Hj'|by rewrite Es].
Qed.

(** The loop: what was accepted, and what failed. *)
Lemma insert_loop_outcome documents0 acc batch c :
  documents c0 = image v → batch_inv acc batch c →
  Forall (λ x, good_value x.1 ∧ generated_ok x.2) documents0 →
  len v + len acc + len documents0 < 2 ^ 31 →
  ∃ batch' c' acc', insert_loop documents0 (len acc) batch c = (Ok batch', c') ∧
    batch_inserts (firstn (length acc') documents0) acc' ∧
    let batch'' := {| accepted := accepted batch'; rollbacks := rollbacks batch';
                      pending := pending batch'; failure := None |} in
    batch_inv (acc ++ acc') batch'' c' ∧
    match failure batch' with
    | None => length acc' = length documents0
    | Some (index, e) => index = len acc + len acc' ∧
        ∃ x, documents0 !! length acc' = Some x ∧ turn_failed x.1 x.2 (acc ++ acc') e
    end.
Proof.
  intros Hdoc. revert acc batch c.
  induction documents0 as [|[document generated] l IH]; intros acc batch c Hi Hgood Hl.
  { exists batch, c, []. rewrite app_nil_r. cbn. split; [done|]. split; [constructor|].
    pose proof (batch_failure _ _ _ Hi) as Hf. rewrite Hf. split; [|done]. by destruct Hi, batch. }
  apply Forall_cons in Hgood as [[Hd Hg] Hgood]. cbn [fst snd] in Hd, Hg. rewrite len_cons in Hl.
  cbn [insert_loop]. unfold mbind at 1, st_bind at 1, st_catch. unfold mbind at 1, st_bind at 1.
  pose proof (insert_turn_outcome acc batch c document generated Hdoc Hi Hd Hg) as Ht.
  assert (len (v ++ map entry_of acc) + 1 < 2 ^ 31) as Hroom.
  { rewrite len_app. unfold len at 2. rewrite length_map. fold (len acc). pose proof (len_nonneg l). lia. }
  specialize (Ht Hroom).
  destruct (insert_turn document generated batch c) as [[batch1|e] c1].
  - destruct Ht as (i & d & Hins & Hi1). cbn.
    destruct (IH (acc ++ [(i, d)]) batch1 c1 Hi1 Hgood) as (batch' & c' & acc' & E & H1 & H2 & H3).
    { rewrite len_app, len_cons, len_nil. lia. }
    rewrite len_app, len_cons, len_nil in E. replace (len acc + (0 + 1)) with (len acc + 1) in E by lia.
    exists batch', c', ((i, d) :: acc'). rewrite E. rewrite <- app_assoc in H2, H3. cbn [app] in H2, H3.
    split; [done|]. split; [cbn; by constructor|]. split; [done|].
    destruct (failure batch') as [[index e]|]; [|cbn; by rewrite H3].
    destruct H3 as (-> & H3). rewrite len_app, !len_cons, len_nil. split; [lia|exact H3].
  - destruct Ht as [Hf Hi1]. destruct (turn_failed_code _ _ _ _ Hf) as (code & ->). cbn.
    exists {| accepted := accepted batch; rollbacks := rollbacks batch; pending := pending batch;
              failure := Some (len acc, StorageError code) |}, c1, [].
    rewrite app_nil_r. cbn. split; [done|]. split; [constructor|].
    split; [by destruct Hi1|]. split; [rewrite len_nil; lia|]. by exists (document, generated).
Qed.
End Batch.

Section Many.
Context {J : Type} (journal : option (list JournalOperation → ST J exn ())).
Context (durable : J → contents → Prop) {calm : J → contents → list JournalOperation → Prop} `{!JournalLaws journal durable calm}.
Implicit Types c : InMemoryCollection J.

Lemma map_puts_accepted (l : list PreparedInsert) (v : view) :
  map (λ e, (insert_key e, insert_encoded e)) l = image v →
  map (λ e, OpPut (insert_key e) (insert_encoded e)) l = map (λ e, OpPut e.1 e.2) (image v).
Proof. intros <-. by rewrite map_map. Qed.

Lemma st_each_map {S A B} (f : B → ST S exn ()) (g : A → B) l s :
  st_each (λ x, f (g x)) l s = st_each f (map g l) s.
Proof.
  revert s. induction l as [|x l IH]; intros s; [done|]. cbn [st_each map]. unfold mbind, st_bind.
  destruct (f (g x) s) as [[]]; [apply IH|done].
Qed.

(** Writing documents that are not there puts them at the end. *)
Lemma puts_new (v l : view) :
  NoDup (omap_keys (v ++ l)) →
  fold_left (λ m e, omap_set m e.1 e.2) (image l) (image v) = image (v ++ l).
Proof.
  revert v. induction l as [|[k d] l IH]; intros v Hn; [by rewrite app_nil_r|].
  cbn [image map fold_left fst snd]. fold (image l) (image v).
  assert (k ∉ omap_keys v) as Hk.
  { rewrite omap_keys_app in Hn. apply NoDup_app in Hn as (_ & H & _). intros Hin.
    apply (H k Hin). left. }
  rewrite <- image_set, omap_set_None by (by apply omap_get_None).
  rewrite IH; rewrite <- app_assoc; done.
Qed.

Lemma insertMany_outcome c `{!MayCommit calm c} v documents0 :
  coll_inv durable c v →
  Forall (λ x, good_value x.1 ∧ generated_ok x.2) (default [] documents0) →
  len v + len (default [] documents0) < 2 ^ 31 →
  match insertMany journal documents0 c with
  | (Ok ids, c') => ∃ docs acc, documents0 = Some docs ∧ docs ≠ [] ∧ batch_inserts docs acc ∧
      ids = map fst acc ∧ changed durable c (v ++ map entry_of acc) c'
  | (Throw e, c') =>
      (documents0 = None ∨ documents0 = Some []) ∧ e = StorageError InvalidBatch ∧ c' = c ∨
      (∃ docs acc, documents0 = Some docs ∧ batch_inserts (firstn (length acc) docs) acc ∧
         unchanged durable c v c' ∧
         journal_threw journal (map (λ e, OpPut e.1 e.2) (image (map entry_of acc))) c e) ∨
      (∃ docs acc x code, documents0 = Some docs ∧ batch_inserts (firstn (length acc) docs) acc ∧
         docs !! length acc = Some x ∧ turn_failed c v x.1 x.2 acc (StorageError code) ∧
         e = InsertManyError (len acc) (map fst acc) code ∧
         changed durable c (v ++ map entry_of acc) c')
  end.
Proof.
  intros Hc Hgood Hl. unfold insertMany.
  destruct documents0 as [[|x docs]|]; [left; split; [by right|done]| |left; split; [by left|done]].
  change (default [] (Some (x :: docs))) with (x :: docs) in Hgood, Hl. set (l := x :: docs) in *.
  pose proof Hc as [Hdoc Hv Hi Hs Hd].
  assert (batch_inv c v [] {| accepted := []; rollbacks := []; pending := []; failure := None |} c) as Hb.
  { split; cbn; rewrite ?app_nil_r; try done.
    intros c1 E1 H1. exists (indexes c1). cbn. split; [by destruct c1|done]. }
  destruct (insert_loop_outcome c v l [] _ c Hdoc Hb Hgood) as (batch & c1 & acc & E & Hins & Hinv & Hfail).
  { rewrite len_nil. lia. }
  unfold mbind at 1, st_bind at 1. change (len []) with 0 in E. rewrite E. cbn [app] in Hinv, Hfail.
  destruct Hinv as [Hsame Hj Hspec Hidx Hview _ Hacc Hids Hun _]. cbn in Hacc, Hids, Hun.
  assert (len (accepted batch) = len acc) as Elen.
  { unfold len. f_equal. rewrite <- (length_map Collection.Collection.id), Hids. apply length_map. }
  set (tail := match failure batch with
           | Some (index, error) =>
               match storageCode error with
               | Some code => st_throw (InsertManyError index (map Collection.Collection.id (accepted batch)) code)
               | None => st_throw TypeError
               end
           | None => (mret (map Collection.Collection.id (accepted batch)) : ST (InMemoryCollection J) exn (list bytes))
           end).
  assert (∀ c', changed durable c (v ++ map entry_of acc) c' →
    match tail c' with
    | (Ok ids, c'') => c'' = c' ∧ batch_inserts l acc ∧ ids = map fst acc
    | (Throw e, c'') => c'' = c' ∧ ∃ y code, l !! length acc = Some y ∧
        turn_failed c v y.1 y.2 acc (StorageError code) ∧ e = InsertManyError (len acc) (map fst acc) code
    end) as Hend.
  { intros c' Hc'. unfold tail. rewrite Hids. destruct (failure batch) as [[index e]|].
    - destruct Hfail as (-> & y & Hy & Ht). destruct (turn_failed_code _ _ _ _ _ _ Ht) as (code & ->).
      cbn. split; [done|]. exists y, code. rewrite len_nil. done.
    - cbn. split; [done|]. split; [|done]. by rewrite Hfail, firstn_all in Hins. }
  rewrite Elen. destruct (Z.ltb_spec 0 (len acc)) as [Hpos|Hnone].
  - unfold mbind at 1, st_bind at 1. unfold mbind at 1, st_bind at 1.
    rewrite (map_puts_accepted _ _ Hacc).
    pose proof (commit_or_outcome journal durable c1 (contents_of c) (docs_of v)
      (map (λ e, OpPut e.1 e.2) (image (map entry_of acc)))
      (st_each (λ undo, on_indexes (rollback undo)) (rev (rollbacks batch)))) as Hcm.
    rewrite Hj in Hcm.
    assert (proper (contents_of c) (map (λ e, OpPut e.1 e.2) (image (map entry_of acc)))) as Hproper.
    { apply (indexed_proper _ _ (indexes c1) (v ++ map entry_of acc)); [apply puts_ok| |exact Hview|exact Hidx].
      - destruct Hview as [_ Hf]. by apply Forall_app in Hf as [_ Hf].
      - rewrite replay_puts. unfold contents_of. cbn. by rewrite Hdoc, puts_new, Hspec by apply Hview. }
    specialize (Hcm Hd Hproper (may_commit _ (puts_create _))).
    assert (undoes_to (st_each (λ undo, on_indexes (rollback undo)) (rev (rollbacks batch))) c1 (docs_of v))
      as Hundo.
    { intros j. destruct (Hun (set_journal c1 j)) as (s & Es & Hsp & Hs'); [done|done|].
      exists s. split; [done|]. by rewrite Hspec. }
    specialize (Hcm Hundo).
    destruct (commit_or journal _ _ c1) as [[u|e] c2].
    + destruct Hcm as [Ec2 Hd2].
      assert (ready durable c (map (λ e, OpPut e.1 e.2) (image (map entry_of acc)))
        (docs_of (v ++ map entry_of acc)) c2) as Hready.
      { split; [|rewrite Ec2; exact Hspec|rewrite Ec2; exact Hidx|exact Hd2].
        eapply same_trans; [exact Hsame|]. by rewrite Ec2. }
      destruct (ready_seq durable c v _ _ c2 Hc Hready) as [Hseq _].
      pose proof (st_each_map (λ e : jsstring * bytes, put (J:=J) e.1 e.2)
        (λ e, (insert_key e, insert_encoded e)) (accepted batch) c2) as Heach.
      cbn [fst snd] in Heach. rewrite Heach, Hacc. clear Heach.
      destruct (puts_written c2 (image (map entry_of acc)) Hseq) as (c3 & -> & Hw).
      rewrite (same_docs _ _ (ready_same _ _ _ _ _ Hready)), Hdoc, puts_new in Hw by apply Hview.
      assert (changed durable c (v ++ map entry_of acc) c3) as Hch.
      { apply (finish durable c _ _ c2 c3 Hready Hw Hview). rewrite replay_puts. unfold contents_of. cbn.
        by rewrite Hdoc, puts_new by apply Hview. }
      specialize (Hend c3 Hch). destruct (tail c3) as [[ids|e] c'].
      * destruct Hend as (-> & H1 & H2). exists l, acc. done.
      * destruct Hend as (-> & y & code & H1 & H2 & H3). right; right. by exists l, acc, y, code.
    + right; left. destruct Hcm as (Hth & Hd2 & Hs2 & Es2 & Hi2). exists l, acc. split; [done|].
      split; [done|].
      assert (same_documents c c2) as Hsm by (by eapply same_trans).
      split; [|unfold journal_threw in *; by rewrite Hj in Hth].
      split; [eapply coll_inv_same; try done; congruence|]. unfold contents_of.
      destruct Hsm as [-> _ _]. by rewrite Es2, Hspec.
  - assert (acc = []) as -> by (apply len_0_inv; pose proof (len_nonneg acc); lia).
    unfold mbind at 1, st_bind at 1. cbn [mret st_ret].
    assert (changed durable c (v ++ map entry_of []) c1) as Hch.
    { cbn [map] in *. rewrite app_nil_r in *. split; [|done].
      eapply coll_inv_same; try done. by rewrite Hj. }
    specialize (Hend c1 Hch). destruct (tail c1) as [[ids|e] c'].
    + destruct Hend as (-> & H1 & H2). exists l, []. done.
    + destruct Hend as (-> & y & code & H1 & H2 & H3). right; right. by exists l, [], y, code.
Qed.
End Many.
