(* ===== verification/CollectionIndexes.v ===== *)
(** * Collections: creating and dropping indexes, reopening

    An index is built over the documents, then recorded in the journal, and
    taken away again if that throws. The contents that a journal holds are
    enough to make the collection again. *)

From stdpp Require Import gmap.
From S2P Require Import Prelude Errors JsNumber JsString JsValue Binary CustomId Codec Roundtrip Filter FilterSpec Sort Update FieldIndex IndexSpec IndexLemmas FieldIndexSpec IndexSet IndexSetSpec Planner PlannerSpec Stored Collection CollectionLemmas CollectionQueries CollectionChanges CollectionSpec.
Import IndexSet.IndexSet Collection.Collection.

(** ** Definitions of indexes *)

(** The definitions that a collection may have. *)
Record specs_ok (l : list IndexSpec) : Prop := {
  ok_names : NoDup (map Spec.name l);
  ok_fields : NoDup (map Spec.field l);
  ok_count : len l ≤ Spec.MAX_INDEXES_PER_COLLECTION;
}.

Definition without_index (name : jsstring) (l : list IndexSpec) : list IndexSpec :=
  List.filter (λ spec, negb (bool_decide (Spec.name spec = name))) l.

Lemma specs_ok_snoc l spec : specs_ok l → index_free spec l → specs_ok (l ++ [spec]).
Proof.
  intros [H1 H2 H3] (F1 & F2 & F3). split; rewrite ?map_app, ?len_app.
  - apply NoDup_app. split; [done|]. split; [|apply NoDup_singleton].
    intros x Hx ->%list_elem_of_singleton. done.
  - apply NoDup_app. split; [done|]. split; [|apply NoDup_singleton].
    intros x Hx ->%list_elem_of_singleton. done.
  - change (len [spec]) with 1. lia.
Qed.

Lemma specs_ok_prefix l spec l' : specs_ok (l ++ spec :: l') → specs_ok l ∧ index_free spec l.
Proof.
  intros [H1 H2 H3]. rewrite map_app in H1, H2. rewrite len_app in H3. cbn [map] in *.
  change (spec :: l') with ([spec] ++ l') in H3. rewrite len_app in H3. change (len [spec]) with 1 in H3.
  pose proof (len_nonneg l').
  apply NoDup_app in H1 as (N1 & D1 & _). apply NoDup_app in H2 as (N2 & D2 & _).
  split; [split; [done|done|lia]|]. split; [intros Hin; apply (D1 _ Hin); left|].
  split; [intros Hin; apply (D2 _ Hin); left|lia].
Qed.

Lemma map_filter_NoDup {A B} (f : A → B) (P : A → bool) (l : list A) :
  NoDup (map f l) → NoDup (map f (List.filter P l)).
Proof.
  induction l as [|x l IH]; [done|]. cbn [map]. intros [Hx Hl]%NoDup_cons. cbn [List.filter].
  destruct (P x); [|by apply IH]. cbn [map]. apply NoDup_cons. split; [|by apply IH].
  intros Hin. apply Hx. apply list_elem_of_fmap in Hin as (y & -> & [Hy _]%elem_of_filter_bool).
  by apply list_elem_of_fmap_2.
Qed.

Lemma specs_ok_without name l : specs_ok l → specs_ok (without_index name l).
Proof.
  intros [H1 H2 H3]. split; [by apply map_filter_NoDup..|].
  pose proof (len_filter (λ spec, negb (bool_decide (Spec.name spec = name))) l) as H.
  unfold without_index. lia.
Qed.

Lemma without_index_snoc l spec :
  Spec.name spec ∉ map Spec.name l → without_index (Spec.name spec) (l ++ [spec]) = l.
Proof.
  intros Hn. unfold without_index. rewrite List.filter_app. cbn [List.filter].
  rewrite bool_decide_eq_true_2 by done. cbn [negb]. rewrite app_nil_r. apply filter_all.
  intros x Hx. apply negb_true_iff, bool_decide_eq_false_2. intros E. apply Hn. rewrite <- E.
  by apply list_elem_of_fmap_2.
Qed.

(** ** Creating and dropping in the index set *)
Lemma existsb_elem {A B} `{EqDecision B} (f : A → B) y (l : list A) :
  existsb (λ x, bool_decide (f x = y)) l = bool_decide (y ∈ map f l).
Proof.
  apply eq_bool_prop_intro. rewrite bool_decide_spec, Is_true_true, existsb_exists. split.
  - intros (x & Hx%list_elem_of_In & <-%bool_decide_eq_true). by apply list_elem_of_fmap_2.
  - intros (x & -> & Hx%list_elem_of_In)%list_elem_of_fmap. exists x. by rewrite bool_decide_eq_true_2.
Qed.

Lemma create_cases spec documents s :
  create spec documents s =
  match omap_get s (Spec.name spec) with
  | Some other =>
      (if Spec.sameDefinition (FieldIndex.FieldIndex.spec other) spec then Ok exists_
       else Throw (StorageError Errors.IndexConflict), s)
  | None =>
      if bool_decide (Spec.field spec ∈ map Spec.field (specs s)) ||
         (Spec.MAX_INDEXES_PER_COLLECTION <=? len s)
      then (Throw (StorageError Errors.IndexConflict), s)
      else match build spec documents with
           | Ok ix => (Ok created, s ++ [(Spec.name spec, ix)])
           | Throw e => (Throw e, s)
           end
  end.
Proof.
  unfold create, mbind, st_bind, st_get, st_lift, storageError, st_throw.
  destruct (omap_get s (Spec.name spec)) as [other|] eqn:E; [by destruct (Spec.sameDefinition _ _)|].
  change (@Datatypes.id IndexSet s) with s. assert (existsb (λ other, bool_decide
      (Spec.field (FieldIndex.FieldIndex.spec other) = Spec.field spec)) (all s) =
    bool_decide (Spec.field spec ∈ map Spec.field (specs s))) as ->.
  { rewrite existsb_elem. unfold specs. by rewrite map_map. }
  destruct (bool_decide _); [done|]. cbn [orb]. destruct (_ <=? _); [done|].
  destruct (build spec documents) as [ix|e]; [|done]. unfold st_update. by rewrite omap_set_None.
Qed.

(** The index set with one index more. *)
Lemma indexed_snoc s docs spec ix :
  indexed s docs → Spec.name spec ∉ omap_keys s → FieldIndex.FieldIndex.spec ix = spec →
  FieldIndex.FieldIndex.unsorted ix = [] → index_inv ix (fields_in spec docs) →
  unique_ok spec (fields_in spec docs) →
  indexed (s ++ [(Spec.name spec, ix)]) docs ∧
  specs (s ++ [(Spec.name spec, ix)]) = specs s ++ [spec].
Proof.
  intros [[Hd [Hk Hs Hi] Hu] Hn] Hname Hspec Huns Hinv Huq.
  assert (specs (s ++ [(Spec.name spec, ix)]) = specs s ++ [spec]) as E
    by (unfold specs, all; rewrite !map_app; cbn; by rewrite Hspec).
  split; [|done]. rewrite <- omap_set_None in E |- * by (by apply omap_get_None).
  assert (∀ name ix', omap_get (omap_set s (Spec.name spec) ix) name = Some ix' →
    name = Spec.name spec ∧ ix' = ix ∨ omap_get s name = Some ix') as Hget.
  { intros name ix'. destruct (decide (Spec.name spec = name)) as [<-|Hne].
    - rewrite omap_get_set. intros [= <-]. by left.
    - rewrite omap_get_set_ne by done. by right. }
  split; [split; [done|split; [by apply omap_set_NoDup|done|]|]|].
  - intros name ix' [[-> ->]|H]%Hget; unfold all_fields, defs.
    + rewrite omap_get_set. cbn [fmap option_fmap option_map]. by rewrite Hspec.
    + rewrite omap_get_set_ne by (intros <-; apply omap_get_None in Hname; congruence).
      apply Hi in H as H'. unfold all_fields, defs in H'. by rewrite H in H' |- *.
  - intros name spec'. unfold defs. destruct (omap_get (omap_set _ _ _) name) as [ix'|] eqn:Eg; [|done].
    cbn [fmap option_fmap option_map]. intros [= <-]. apply Hget in Eg as [[-> ->]|H].
    + by rewrite Hspec.
    + apply (Hu name). unfold defs. by rewrite H.
  - rewrite omap_set_None, omap_keys_app by (by apply omap_get_None).
    rewrite omap_set_None in E by (by apply omap_get_None). rewrite E, map_app, Hn. done.
Qed.

Lemma delete_named (s : IndexSet) name :
  NoDup (omap_keys s) → omap_keys s = map Spec.name (specs s) →
  specs (omap_delete s name) = without_index name (specs s) ∧
  omap_keys (omap_delete s name) = map Spec.name (specs (omap_delete s name)).
Proof.
  unfold specs, all, without_index. induction s as [|[k ix] s IH]; [done|].
  cbn [omap_keys map fst snd omap_delete List.filter]. intros [Hk Hnd]%NoDup_cons [= Ek Hn].
  destruct (decide _) as [->|Hne].
  - rewrite bool_decide_eq_true_2 by congruence. cbn [negb]. split; [|done]. symmetry.
    apply filter_all. intros x Hx. apply negb_true_iff, bool_decide_eq_false_2. intros Ex.
    apply Hk. rewrite Hn, <- Ex. by apply list_elem_of_fmap_2.
  - rewrite bool_decide_eq_false_2 by congruence. cbn [negb map fst snd].
    destruct (IH Hnd Hn) as [E1 E2]. split; f_equal; [exact E1|done|exact E2].
Qed.

Lemma indexed_without s docs name :
  indexed s docs →
  indexed (omap_delete s name) docs ∧ specs (omap_delete s name) = without_index name (specs s).
Proof.
  intros [[Hd [Hk Hs Hi] Hu] Hn]. destruct (delete_named s name Hk Hn) as [E1 E2].
  split; [|done].
  assert (∀ name' ix, omap_get (omap_delete s name) name' = Some ix → omap_get s name' = Some ix) as Hget.
  { intros name' ix. destruct (decide (name = name')) as [<-|Hne].
    - by rewrite omap_get_delete.
    - by rewrite omap_get_delete_ne. }
  split; [split; [done|split; [by apply omap_delete_NoDup|done|]|]|done].
  - intros name' ix H. apply Hget in H as H'. pose proof (Hi _ _ H') as Hix.
    unfold all_fields, defs in *. by rewrite H' in Hix; rewrite H.
  - intros name' spec. unfold defs. destruct (omap_get (omap_delete s name) name') as [ix|] eqn:Eg; [|done].
    intros [= <-]. apply Hget in Eg. apply (Hu name'). unfold defs. by rewrite Eg.
Qed.

(** ** The collection in memory *)
Definition in_memory {J} : J → contents → Prop := λ _ _, True.

Lemma coll_inv_memory {J} (durable : J → contents → Prop) c v :
  coll_inv durable c v ↔ coll_inv in_memory c v ∧ durable (journalState c) (contents_of c).
Proof. split; [intros [H1 H2 H3 H4 H5]; done|intros [[H1 H2 H3 H4 _] H5]; done]. Qed.

Lemma decodedEntries_view {J} (durable : J → contents → Prop) c v :
  coll_inv durable c v → decodedEntries c = decoded v.
Proof.
  intros [Hd [_ Hv] _ _ _]. unfold decodedEntries, decoded. rewrite Hd. unfold image.
  rewrite map_map. apply map_ext_in. intros kd Hin%list_elem_of_In.
  rewrite Forall_forall in Hv. destruct (Hv _ Hin) as [Hs _]. cbn [fst snd].
  by rewrite (stored_decode _ _ Hs : decodeDocument (enc (VDoc kd.2)) = Ok kd.2).
Qed.

(** Numbering the documents from [next] on. *)
Lemma number_keys keys0 (s : list (jsstring * Z)) next keys :
  NoDup (keys0 ++ keys) → seq_inv keys0 s next →
  ∃ s' next',
    fold_left (λ '(s, n) key, (omap_set s key n, n + 1)) keys (s, next) = (s', next') ∧
    seq_inv (keys0 ++ keys) s' next'.
Proof.
  revert keys0 s next. induction keys as [|k keys IH]; intros keys0 s next Hn Hs.
  { exists s, next. by rewrite app_nil_r. }
  cbn [fold_left]. assert (k ∉ keys0) as Hk.
  { apply NoDup_app in Hn as (_ & Hd & _). intros Hin. apply (Hd _ Hin). left. }
  destruct (IH (keys0 ++ [k]) (omap_set s k next) (next + 1)) as (s' & next' & E & H).
  - by rewrite <- app_assoc.
  - by apply seq_inv_snoc.
  - exists s', next'. split; [exact E|]. by rewrite <- app_assoc in H.
Qed.

Lemma number_documents_spec {J} (c : InMemoryCollection J) :
  NoDup (omap_keys (documents c)) →
  ∃ s next, number_documents c = set_documents c (documents c) (Some s) next ∧
    seq_inv (omap_keys (documents c)) s next.
Proof.
  intros Hn. destruct (number_keys [] [] (nextSequence c) (omap_keys (documents c))) as (s & n & E & H).
  - done.
  - split; [constructor|done].
  - exists s, n. split; [|done]. unfold number_documents. by rewrite E.
Qed.

(** The indexes are those of [c] and [specs'] now, the documents as they were. *)
Record reindexed {J} (c : InMemoryCollection J) (v : view) specs' c' : Prop := {
  reindexed_inv : coll_inv in_memory c' v;
  reindexed_docs : documents c' = documents c;
  reindexed_journal : journalState c' = journalState c;
  reindexed_specs : specs (indexes c') = specs';
}.

Section Indexes.
Context {J : Type} (journal : option (list JournalOperation → ST J exn ())).
Context (durable : J → contents → Prop) {calm : J → contents → list JournalOperation → Prop} `{!JournalLaws journal durable calm}.
Implicit Types c : InMemoryCollection J.

Abbreviation coll_inv := (coll_inv durable).

Lemma buildIndex_outcome c v spec :
  CollectionLemmas.coll_inv in_memory c v →
  match buildIndex spec c with
  | (Ok true, c') => reindexed c v (specs (indexes c) ++ [spec]) c' ∧
      index_free spec (specs (indexes c)) ∧ unique_ok spec (fields_in spec (docs_of v))
  | (Ok false, c') => c' = c ∧ ∃ other, other ∈ specs (indexes c) ∧
      Spec.name other = Spec.name spec ∧ Spec.sameDefinition other spec = true
  | (Throw e, c') => c' = c ∧
      (e = StorageError Errors.IndexConflict ∧ ¬ index_free spec (specs (indexes c)) ∨
       e = StorageError DuplicateKey ∧ ¬ unique_ok spec (fields_in spec (docs_of v)))
  end.
Proof.
  intros Hc. pose proof Hc as [Hd Hv Hidx Hseq _]. pose proof Hidx as [[_ [Hk _ _] _] Hnames].
  unfold buildIndex, mbind at 1, st_bind at 1, st_get. unfold mbind at 1, st_bind at 1, on_indexes.
  rewrite create_cases, (decodedEntries_view _ c v Hc).
  assert (set_indexes c (indexes c) = c) as Eid by (by destruct c).
  destruct (omap_get (indexes c) (Spec.name spec)) as [other|] eqn:Eo.
  - apply omap_get_Some_in in Eo as Hin.
    assert (FieldIndex.FieldIndex.spec other ∈ specs (indexes c) ∧
      Spec.name (FieldIndex.FieldIndex.spec other) = Spec.name spec) as [Hos Hon].
    { split; [by apply (list_elem_of_fmap_2 snd), (list_elem_of_fmap_2 FieldIndex.FieldIndex.spec) in Hin|].
      clear -Hin Hnames. revert Hin Hnames. unfold specs, all. induction (indexes c) as [|[k ix] s IH].
      { by intros ?%not_elem_of_nil. }
      intros [[= <- <-]|Hin]%elem_of_cons [= Ek Hn]; [done|]. by apply IH. }
    destruct (Spec.sameDefinition _ _) eqn:Es; cbn.
    + rewrite Eid. split; [done|]. by eexists.
    + rewrite Eid. split; [done|]. left. split; [done|]. intros (Hn & _ & _). apply Hn.
      rewrite <- Hon. by apply list_elem_of_fmap_2.
  - destruct (bool_decide _ || _) eqn:Efree.
    { cbn. rewrite Eid. split; [done|]. left. split; [done|]. intros (_ & Hf & Hl).
      apply orb_true_iff in Efree as [E%bool_decide_eq_true|E%Z.leb_le]; [done|].
      unfold specs, all in Hl. unfold len in *. rewrite !length_map in Hl. lia. }
    apply orb_false_iff in Efree as [Ef%bool_decide_eq_false El%Z.leb_gt].
    assert (index_free spec (specs (indexes c))) as Hfree.
    { split; [|split; [done|]].
      - rewrite <- Hnames. by apply omap_get_None.
      - unfold specs, all. unfold len in *. by rewrite !length_map. }
    pose proof (build_outcome spec v (proj1 Hv) (set_docs _ _ _ (indexed_set _ _ Hidx))) as Hb.
    destruct (build spec (decoded v)) as [ix|e]; cbn.
    2: { rewrite Eid. split; [done|]. by right. }
    destruct Hb as (Hs & Hun & Hinv & Huq).
    assert (Spec.name spec ∉ omap_keys (indexes c)) as Hname by (by apply omap_get_None).
    destruct (indexed_snoc (indexes c) (docs_of v) spec ix Hidx Hname Hs Hun Hinv Huq) as [Hi' Es'].
    assert (isEmpty (indexes c ++ [(Spec.name spec, ix)]) = false) as Hne.
    { unfold isEmpty. rewrite len_app. apply Z.eqb_neq. pose proof (len_nonneg (indexes c)).
      change (len [(Spec.name spec, ix)]) with 1. lia. }
    split; [|done].
    cbn. destruct (sequence c) as [s|] eqn:Esq.
    + split; [|done|done|exact Es']. split; [done|done|exact Hi'| |done]. cbn [sequence set_indexes]. by rewrite Esq.
    + destruct (number_documents_spec (set_indexes c (indexes c ++ [(Spec.name spec, ix)])))
        as (s & n & -> & Hsq).
      { cbn [documents set_indexes]. rewrite Hd, image_keys. apply Hv. }
      split; [|done|done|exact Es']. split; [done|done|exact Hi'| |done]. cbn [sequence set_documents nextSequence].
      cbn [documents set_indexes] in Hsq. by rewrite Hd, image_keys in Hsq.
Qed.

Lemma removeIndex_outcome c v name :
  CollectionLemmas.coll_inv in_memory c v →
  ∃ c', removeIndex name c = (Ok (), c') ∧
    reindexed c v (without_index name (specs (indexes c))) c'.
Proof.
  intros [Hd Hv Hidx Hseq _]. destruct (indexed_without _ _ name Hidx) as [Hi' Es'].
  eexists. split; [reflexivity|]. cbn [drop st_update snd].
  destruct (isEmpty (indexes (set_indexes c (omap_delete (indexes c) name)))) eqn:Em.
  - split; [|done|done|exact Es']. by split.
  - split; [|done|done|exact Es']. split; [done|done|exact Hi'| |done]. cbn [sequence set_indexes nextSequence].
    destruct (sequence c); [done|]. cbn [indexes set_indexes] in Em. rewrite isEmpty_specs in Hseq, Em.
    rewrite Es' in Em. apply Z.eqb_eq, len_0_inv in Hseq. by rewrite Hseq in Em.
Qed.

(** ** Creating and dropping *)

(** The name and the path of the index are text that the journal reads back. *)
Definition plain_input (input : Spec.CreateIndexInput) : Prop :=
  ∀ spec, Spec.normalizeIndexSpec input = Ok spec → plain (Spec.name spec) ∧ plain (Spec.field spec).

Lemma reindexed_ready c v l c' operations :
  coll_inv c v → reindexed c v l c' → replay (contents_of c) operations = (documents c, l) →
  ∀ s, durable s (replay (contents_of c) operations) → coll_inv (set_journal c' s) v ∧
    contents_of (set_journal c' s) = (documents c, l).
Proof.
  intros Hc [[H1 H2 H3 H4 _] Hd Hj Hs] Hr s Hdur.
  assert (contents_of (set_journal c' s) = (documents c, l)) as E
    by (unfold contents_of; cbn [documents indexes set_journal]; by rewrite Hd, Hs).
  split; [|done]. split; try done. cbn [journalState set_journal]. by rewrite E, <- Hr.
Qed.

Lemma createIndex_outcome c `{!MayCreate calm c} v input :
  coll_inv c v → plain_input input →
  match createIndex journal input c with
  | (Ok (name, made), c') => ∃ spec, Spec.normalizeIndexSpec input = Ok spec ∧ name = Spec.name spec ∧
      if made : bool then
        index_free spec (specs (indexes c)) ∧ unique_ok spec (fields_in spec (docs_of v)) ∧
        coll_inv c' v ∧ contents_of c' = (documents c, specs (indexes c) ++ [spec])
      else c' = c ∧ ∃ other, other ∈ specs (indexes c) ∧ Spec.name other = Spec.name spec ∧
        Spec.sameDefinition other spec = true
  | (Throw e, c') => unchanged durable c v c' ∧
      (Spec.normalizeIndexSpec input = Throw e ∨
       ∃ spec, Spec.normalizeIndexSpec input = Ok spec ∧
         (e = StorageError Errors.IndexConflict ∧ ¬ index_free spec (specs (indexes c)) ∨
          e = StorageError DuplicateKey ∧ ¬ unique_ok spec (fields_in spec (docs_of v)) ∨
          journal_threw journal [OpCreateIndex spec] c e))
  end.
Proof.
  intros Hc Hplain. pose proof (proj1 (coll_inv_memory _ _ _) Hc) as [Hm Hdur].
  unfold createIndex, st_lift. unfold mbind at 1, st_bind at 1.
  destruct (Spec.normalizeIndexSpec input) as [spec|e] eqn:En; [|by split; [|left]].
  unfold mbind at 1, st_bind at 1. pose proof (buildIndex_outcome c v spec Hm) as Hb.
  destruct (buildIndex spec c) as [[[|]|e] c1].
  - destruct Hb as (Hre & Hfree & Huq).
    assert (proper (contents_of c) [OpCreateIndex spec]) as Hproper.
    { pose proof Hre as [Hm1 _ _ Hs1].
      apply (indexed_proper _ _ (indexes c1) v); [|cbn|apply Hm1|apply Hm1].
      - split; [|done]. split; [exact Hfree|]. split; [by eapply normalize_valid|by apply Hplain].
      - rewrite Hs1. by destruct Hm as [-> _ _ _ _]. }
    unfold mbind at 1, st_bind at 1, commit_or, st_catch, commit.
    pose proof (reindexed_ready c v _ c1 [OpCreateIndex spec] Hc Hre eq_refl) as Hready.
    destruct journal as [j|] eqn:Ej.
    + pose proof Hre as [Hm1 Hd1 Hj1 Hs1]. rewrite Hj1.
      destruct (j [OpCreateIndex spec] (journalState c)) as [[[]|e] s'] eqn:E; cbn.
      * exists spec. split; [done|]. split; [done|]. split; [done|]. split; [done|].
        apply Hready. by eapply commit_records; [exact Hdur|exact Hproper|apply may_create|].
      * unfold mbind at 1, st_bind at 1.
        assert (CollectionLemmas.coll_inv in_memory (set_journal c1 s') v) as Hm1'
          by (by destruct Hm1).
        destruct (removeIndex_outcome (set_journal c1 s') v (Spec.name spec) Hm1') as (c2 & -> & [Hm2 Hd2 Hj2 Hs2]).
        cbn [st_throw]. cbn [documents indexes journalState set_journal] in *.
        rewrite Hs1, without_index_snoc in Hs2 by apply Hfree.
        assert (contents_of c2 = contents_of c) as E2 by (unfold contents_of; congruence).
        split; [split; [|done]|].
        -- apply coll_inv_memory. split; [done|]. rewrite E2, Hj2.
           eapply commit_fails; [exact Hdur|exact Hproper|apply may_create|done|exact E].
        -- right. exists spec. split; [done|]. right; right. by exists j, s'.
    + cbn. exists spec. split; [done|]. split; [done|]. split; [done|]. split; [done|].
      assert (set_journal c1 (journalState c) = c1) as Eid.
      { destruct Hre as [_ _ Hj1 _]. rewrite <- Hj1. by destruct c1. }
      rewrite <- Eid. apply Hready. by eapply commit_records; [exact Hdur|exact Hproper|apply may_create|].
  - destruct Hb as (-> & other & H). cbn. exists spec. split; [done|]. split; [done|]. split; [done|].
    by exists other.
  - destruct Hb as [-> Hb]. split; [done|]. right. exists spec. split; [done|]. tauto.
Qed.

Lemma has_index c v name :
  CollectionLemmas.coll_inv in_memory c v →
  IndexSet.IndexSet.has (indexes c) name = bool_decide (name ∈ map Spec.name (specs (indexes c))).
Proof.
  intros [_ _ [_ Hn] _ _]. rewrite <- Hn. unfold IndexSet.IndexSet.has, omap_has.
  destruct (omap_get (indexes c) name) eqn:E; symmetry.
  - apply bool_decide_eq_true_2. apply omap_get_Some_in in E. by apply (list_elem_of_fmap_2 fst) in E.
  - apply bool_decide_eq_false_2. by apply omap_get_None.
Qed.

Lemma dropIndex_outcome c `{!MayCommit calm c} v name :
  coll_inv c v →
  match dropIndex journal name c with
  | (Ok _, c') => name ≠ Spec.ID_INDEX_NAME ∧ name ∈ map Spec.name (specs (indexes c)) ∧
      coll_inv c' v ∧ contents_of c' = (documents c, without_index name (specs (indexes c)))
  | (Throw e, c') => unchanged durable c v c' ∧
      (e = StorageError InvalidIndex ∧ name = Spec.ID_INDEX_NAME ∨
       e = StorageError IndexNotFound ∧ name ≠ Spec.ID_INDEX_NAME ∧
         (name ∉ map Spec.name (specs (indexes c))) ∨
       journal_threw journal [OpDropIndex name] c e)
  end.
Proof.
  intros Hc. pose proof (proj1 (coll_inv_memory _ _ _) Hc) as [Hm Hdur].
  unfold dropIndex. case_decide as Hid; [split; [done|]; by left|].
  unfold mbind at 1, st_bind at 1, st_get. rewrite (has_index c v name Hm).
  case_bool_decide as Hin; cbn [negb]; [|split; [done|]; by right; left].
  unfold mbind at 1, st_bind at 1, commit.
  assert (proper (contents_of c) [OpDropIndex name]) as Hproper.
  { destruct (indexed_without _ _ name (inv_indexed _ _ _ Hc)) as [Hi' Es'].
    apply (indexed_proper _ _ (omap_delete (indexes c) name) v); [by split| |apply Hc|exact Hi'].
    rewrite Es'. cbn. by rewrite (inv_documents _ _ _ Hm). }
  assert (¬ creates [OpDropIndex name]) as Hcr
    by (intros (spec & Hs%list_elem_of_singleton); done).
  assert (∀ s, durable s (replay (contents_of c) [OpDropIndex name]) →
    match removeIndex name (set_journal c s) with
    | (Ok _, c') => name ≠ Spec.ID_INDEX_NAME ∧ name ∈ map Spec.name (specs (indexes c)) ∧
        coll_inv c' v ∧ contents_of c' = (documents c, without_index name (specs (indexes c)))
    | (Throw e, c') => False
    end) as Hrm.
  { intros s Hs. assert (CollectionLemmas.coll_inv in_memory (set_journal c s) v) as Hm'
      by (by destruct Hm).
    destruct (removeIndex_outcome (set_journal c s) v name Hm') as (c2 & -> & [Hm2 Hd2 Hj2 Hs2]).
    cbn [documents indexes journalState set_journal] in *.
    assert (contents_of c2 = (documents c, without_index name (specs (indexes c)))) as E2
      by (unfold contents_of; congruence).
    split; [done|]. split; [done|]. split; [|done]. apply coll_inv_memory. split; [done|].
    by rewrite E2, Hj2. }
  destruct journal as [j|] eqn:Ej.
  - destruct (j [OpDropIndex name] (journalState c)) as [[[]|e] s'] eqn:E.
    + specialize (Hrm s'). destruct (removeIndex name (set_journal c s')) as [[u|e] c2].
      * apply Hrm. by eapply commit_records; [exact Hdur|exact Hproper|by apply may_commit|].
      * exfalso. apply Hrm. by eapply commit_records; [exact Hdur|exact Hproper|by apply may_commit|].
    + split; [split; [|done]|by right; right; exists j, s'].
      apply coll_inv_memory. split; [by destruct Hm|]. cbn [journalState set_journal].
      eapply commit_fails; [exact Hdur|exact Hproper|exact (may_commit _ Hcr)|done|exact E].
  - specialize (Hrm (journalState c)). cbn [mret st_ret].
    assert (set_journal c (journalState c) = c) as Eid by (by destruct c). rewrite Eid in Hrm.
    destruct (removeIndex name c) as [[u|e] c2].
    + apply Hrm. by eapply commit_records; [exact Hdur|exact Hproper|by apply may_commit|].
    + exfalso. apply Hrm. by eapply commit_records; [exact Hdur|exact Hproper|by apply may_commit|].
Qed.

(** ** Reopening *)
Lemma buildIndexes_outcome c v l :
  CollectionLemmas.coll_inv in_memory c v → specs_ok (specs (indexes c) ++ l) →
  Forall (λ spec, unique_ok spec (fields_in spec (docs_of v))) l →
  ∃ c', st_each (λ spec, _ ← buildIndex spec; mret ()) l c = (Ok (), c') ∧
    reindexed c v (specs (indexes c) ++ l) c'.
Proof.
  revert c. induction l as [|spec l IH]; intros c Hc Hl Hu.
  { exists c. split; [done|]. rewrite app_nil_r. by split. }
  apply Forall_cons in Hu as [Hu Hus]. destruct (specs_ok_prefix _ _ _ Hl) as [_ Hfree].
  cbn [st_each]. unfold mbind at 1, st_bind at 1. unfold mbind at 1, st_bind at 1.
  pose proof (buildIndex_outcome c v spec Hc) as Hb.
  destruct (buildIndex spec c) as [[[|]|e] c1].
  - destruct Hb as ([Hm1 Hd1 Hj1 Hs1] & _ & _). destruct (IH c1) as (c2 & E2 & [Hm2 Hd2 Hj2 Hs2]).
    + done.
    + by rewrite Hs1, <- app_assoc.
    + done.
    + exists c2. split; [exact E2|]. split; [done|congruence|congruence|].
      by rewrite Hs2, Hs1, <- app_assoc.
  - exfalso. destruct Hb as (_ & other & Hin & Hn & _). apply (proj1 Hfree). rewrite <- Hn.
    by apply list_elem_of_fmap_2.
  - exfalso. destruct Hb as [_ [[_ H]|[_ H]]]; by apply H.
Qed.

Lemma new_outcome s v l :
  view_ok v → len v < 2 ^ 31 → specs_ok l →
  Forall (λ spec, unique_ok spec (fields_in spec (docs_of v))) l →
  ∃ c, new s (image v) l = (Ok (), c) ∧ CollectionLemmas.coll_inv in_memory c v ∧
    journalState c = s ∧ contents_of c = (image v, l).
Proof.
  intros Hv Hlen Hl Hu. unfold new.
  set (c0 := {| documents := image v; journalState := s; indexes := []; sequence := None;
                nextSequence := 1 |}).
  assert (CollectionLemmas.coll_inv in_memory c0 v) as Hc0.
  { split; [done|done| |done|done]. split; [|done]. split; [by apply docs_ok_view| |done].
    by split; [constructor|done|]. }
  destruct (buildIndexes_outcome c0 v l Hc0 Hl Hu) as (c & E & [H1 H2 H3 H4]).
  exists c. split; [exact E|]. split; [done|]. split; [done|]. unfold contents_of. by rewrite H2, H4.
Qed.

(** The definitions of the indexes of a collection hold for its documents. *)
Lemma specs_unique c v :
  coll_inv c v → Forall (λ spec, unique_ok spec (fields_in spec (docs_of v))) (specs (indexes c)).
Proof.
  intros [_ _ Hi _ _]. by apply indexed_unique.
Qed.

Lemma reopen c v s :
  coll_inv c v → specs_ok (specs (indexes c)) →
  ∃ c', new s (documents c) (specs (indexes c)) = (Ok (), c') ∧
    CollectionLemmas.coll_inv in_memory c' v ∧ journalState c' = s ∧ contents_of c' = contents_of c.
Proof.
  intros Hc Hs. pose proof (specs_unique c v Hc) as Hu. pose proof (coll_inv_len durable c v Hc) as Hl.
  destruct Hc as [Hd Hv _ _ _]. unfold contents_of. rewrite Hd. by apply new_outcome.
Qed.
End Indexes.
