(* ===== verification/CollectionModel.v ===== *)
(** * Collections: an abstract model

    What a collection promises, without bytes, indexes, numbers or a journal: a
    collection is the documents in the order they were inserted, by key, and the
    definitions of its indexes; a command is accepted with an answer or rejected
    with an error, and [accepts] and [rejects] say when and what becomes of the
    documents and the definitions. [run] of the code refines the model. *)

From stdpp Require Import gmap.
From S2P Require Import Prelude Errors JsNumber JsString JsValue Binary CustomId Codec Roundtrip Filter FilterSpec Sort Update IndexSpec FieldIndex IndexLemmas FieldIndexSpec IndexSet IndexSetSpec Planner PlannerSpec Stored Collection CollectionLemmas CollectionQueries CollectionChanges CollectionSpec CollectionUpdates CollectionIndexes.
Import IndexSet.IndexSet Collection.Collection.

(** ** Commands and answers *)

(** The changes of a collection, with the ids that would be generated. *)
Inductive Command :=
  | InsertOne (document : DocumentValue) (generated : result bytes)
  | InsertMany (documents : option (list (DocumentValue * result bytes)))
  | DeleteOne (filter : DocumentValue)
  | DeleteMany (filter : DocumentValue)
  | ReplaceOne (filter replacement : DocumentValue) (upsert : option DocumentValue)
      (generated : result bytes)
  | UpdateOne (filter update : DocumentValue) (upsert : option DocumentValue)
      (generated : result bytes)
  | UpdateMany (filter update : DocumentValue) (upsert : option DocumentValue)
      (generated : result bytes)
  | CreateIndex (input : Spec.CreateIndexInput)
  | DropIndex (name : jsstring).

Inductive Answer :=
  | Inserted (ids : list bytes)
  | Deleted (count : Z)
  | Updated (result : StorageUpdateResult)
  | Indexed (name : jsstring) (made : bool)
  | Dropped.

Definition run {J} (journal : option (list JournalOperation → ST J exn ())) (command : Command)
    : ST (InMemoryCollection J) exn Answer :=
  match command with
  | InsertOne document generated => i ← insertOne journal document generated; mret (Inserted [i])
  | InsertMany documents => ids ← insertMany journal documents; mret (Inserted ids)
  | DeleteOne filter => n ← deleteOne journal filter; mret (Deleted n)
  | DeleteMany filter => n ← deleteMany journal filter; mret (Deleted n)
  | ReplaceOne filter replacement upsert generated =>
      r ← replaceOne journal filter replacement upsert generated; mret (Updated r)
  | UpdateOne filter update upsert generated =>
      r ← updateOne journal filter update upsert generated; mret (Updated r)
  | UpdateMany filter update upsert generated =>
      r ← updateMany journal filter update upsert generated; mret (Updated r)
  | CreateIndex input => r ← createIndex journal input; mret (Indexed r.1 r.2)
  | DropIndex name => _ ← dropIndex journal name; mret Dropped
  end.

(** What a caller must respect: values and index definitions without byte order
    marks, ids that are generated, and fewer than 2^31 documents, [count] of them there. *)
Definition admissible (count : Z) (command : Command) : Prop :=
  match command with
  | InsertOne document generated =>
      good_value document ∧ generated_ok generated ∧ count + 1 < 2 ^ 31
  | InsertMany documents =>
      Forall (λ x, good_value x.1 ∧ generated_ok x.2) (default [] documents) ∧
      count + len (default [] documents) < 2 ^ 31
  | DeleteOne filter | DeleteMany filter => wf_value filter = true
  | ReplaceOne filter value _ generated | UpdateOne filter value _ generated
  | UpdateMany filter value _ generated =>
      good_value filter ∧ good_value value ∧ generated_ok generated ∧ count + 1 < 2 ^ 31
  | CreateIndex input => plain_input input
  | DropIndex _ => True
  end.

(** ** The model *)
Section Model.
(** The errors that the journal throws. *)
Context (threw : exn → Prop).

Abbreviation model := (view * list IndexSpec)%type.

Definition one_more (v : view) (i : bytes) (d : Document) : view :=
  v ++ [(CustomId.toHexString i, d)].

(** A unique index or the journal refuses the documents [v']. *)
Definition write_refused (l : list IndexSpec) (v' : view) (e : exn) : Prop :=
  e = StorageError DuplicateKey ∧ violates l (docs_of v') ∨ threw e.

Definition insert_refused (m : model) (document : DocumentValue) (generated : result bytes)
    (e : exn) : Prop :=
  not_insertable document generated (omap_keys m.1) e ∨
  ∃ i d, inserts document generated i d ∧ write_refused m.2 (one_more m.1 i d) e.

(** Why the document of a batch after [acc] is not accepted. *)
Definition turn_refused (m : model) (document : DocumentValue) (generated : result bytes)
    (acc : list (bytes * Document)) (e : exn) : Prop :=
  not_insertable document generated (omap_keys (m.1 ++ map entry_of acc)) e ∨
  ∃ i d, inserts document generated i d ∧ e = StorageError DuplicateKey ∧
    violates m.2 (docs_of (m.1 ++ map entry_of (acc ++ [(i, d)]))).

(** The result of an update of documents that are there. *)
Definition matched_result (n m : Z) : StorageUpdateResult :=
  {| matchedCount := n; modifiedCount := m; upsertedId := None |}.

(** An update that matches nothing. *)
Inductive upserts (fields : Document) (apply : Update.CompiledUpdate) (generated : result bytes)
    (v : view) : bool → StorageUpdateResult → view → Prop :=
  | upserts_not : upserts fields apply generated v false (matched_result 0 0) v
  | upserts_one seed document i d :
      Update.seedDocumentFromFilter fields = Ok seed → apply seed = Ok document →
      inserts (VDoc document) generated i d → CustomId.toHexString i ∉ omap_keys v →
      upserts fields apply generated v true
        {| matchedCount := 0; modifiedCount := 0; upsertedId := Some i |} (one_more v i d).

Definition upsert_refused (fields : Document) (apply : Update.CompiledUpdate)
    (generated : result bytes) (m : model) (e : exn) : Prop :=
  Update.seedDocumentFromFilter fields = Throw e ∨
  ∃ seed, Update.seedDocumentFromFilter fields = Ok seed ∧
    (apply seed = Throw e ∨
     ∃ document, apply seed = Ok document ∧ insert_refused m (VDoc document) generated e).

(** When a command is accepted, its answer, and the collection after it. *)
Inductive accepts (v : view) (l : list IndexSpec) : Command → Answer → model → Prop :=
  | accepts_insertOne document generated i d :
      inserts document generated i d → CustomId.toHexString i ∉ omap_keys v →
      accepts v l (InsertOne document generated) (Inserted [i]) (one_more v i d, l)
  | accepts_insertMany docs acc :
      docs ≠ [] → batch_inserts docs acc →
      accepts v l (InsertMany (Some docs)) (Inserted (map fst acc)) (v ++ map entry_of acc, l)
  | accepts_deleteOne filter fields m :
      compile filter = Ok (fields, m) →
      accepts v l (DeleteOne filter) (Deleted (if head (selected m v) is Some _ then 1 else 0))
        (match head (selected m v) with Some kd => omap_delete v kd.1 | None => v end, l)
  | accepts_deleteMany filter fields m :
      compile filter = Ok (fields, m) →
      accepts v l (DeleteMany filter) (Deleted (len (selected m v))) (unselected m v, l)
  | accepts_replaceOne filter replacement upsert generated fields m r b kd i n :
      replace_compiled filter replacement upsert fields m r b → head (selected m v) = Some kd →
      obj_get kd.2 (js "_id") = Some (VId i) → ¬ other_id r i → fits (VDoc (with_id r i)) →
      n = 0 ∧ stored_form (with_id r i) = kd.2 ∨ n = 1 ∧ stored_form (with_id r i) ≠ kd.2 →
      accepts v l (ReplaceOne filter replacement upsert generated) (Updated (matched_result 1 n))
        (omap_set v kd.1 (stored_form (with_id r i)), l)
  | accepts_replaceOne_not filter replacement upsert generated fields m r :
      replace_compiled filter replacement upsert fields m r false → selected m v = [] →
      accepts v l (ReplaceOne filter replacement upsert generated) (Updated (matched_result 0 0)) (v, l)
  | accepts_replaceOne_upsert filter replacement upsert generated fields m r document i d :
      replace_compiled filter replacement upsert fields m r true → selected m v = [] →
      upsert_document fields r = Ok document → inserts (VDoc document) generated i d →
      CustomId.toHexString i ∉ omap_keys v →
      accepts v l (ReplaceOne filter replacement upsert generated)
        (Updated {| matchedCount := 0; modifiedCount := 0; upsertedId := Some i |}) (one_more v i d, l)
  | accepts_updateOne filter update upsert generated fields m apply b kd :
      update_compiled filter update upsert fields m apply b → head (selected m v) = Some kd →
      updatable apply kd.2 →
      accepts v l (UpdateOne filter update upsert generated)
        (Updated (matched_result 1 (if modified apply m kd then 1 else 0)))
        (omap_set v kd.1 (rewrite_entry apply m kd).2, l)
  | accepts_updateOne_upsert filter update upsert generated fields m apply b result v' :
      update_compiled filter update upsert fields m apply b → selected m v = [] →
      upserts fields apply generated v b result v' →
      accepts v l (UpdateOne filter update upsert generated) (Updated result) (v', l)
  | accepts_updateMany filter update upsert generated fields m apply b :
      update_compiled filter update upsert fields m apply b → selected m v ≠ [] →
      Forall (λ kd, updatable apply kd.2) (selected m v) →
      accepts v l (UpdateMany filter update upsert generated)
        (Updated (matched_result (len (selected m v)) (len (List.filter (modified apply m) v))))
        (map (rewrite_entry apply m) v, l)
  | accepts_updateMany_upsert filter update upsert generated fields m apply b result v' :
      update_compiled filter update upsert fields m apply b → selected m v = [] →
      upserts fields apply generated v b result v' →
      accepts v l (UpdateMany filter update upsert generated) (Updated result) (v', l)
  | accepts_createIndex input spec :
      Spec.normalizeIndexSpec input = Ok spec → index_free spec l →
      unique_ok spec (fields_in spec (docs_of v)) →
      accepts v l (CreateIndex input) (Indexed (Spec.name spec) true) (v, l ++ [spec])
  | accepts_createIndex_exists input spec other :
      Spec.normalizeIndexSpec input = Ok spec → other ∈ l → Spec.name other = Spec.name spec →
      Spec.sameDefinition other spec = true →
      accepts v l (CreateIndex input) (Indexed (Spec.name spec) false) (v, l)
  | accepts_dropIndex name :
      name ≠ Spec.ID_INDEX_NAME → name ∈ map Spec.name l →
      accepts v l (DropIndex name) Dropped (v, without_index name l).

(** When a command is rejected, and the collection after it: only a batch that
    stops in the middle changes it. *)
Inductive rejects (v : view) (l : list IndexSpec) : Command → exn → model → Prop :=
  | rejects_insertOne document generated e :
      insert_refused (v, l) document generated e →
      rejects v l (InsertOne document generated) e (v, l)
  | rejects_insertMany_empty documents :
      documents = None ∨ documents = Some [] →
      rejects v l (InsertMany documents) (StorageError InvalidBatch) (v, l)
  | rejects_insertMany docs acc e :
      batch_inserts (firstn (length acc) docs) acc → threw e →
      rejects v l (InsertMany (Some docs)) e (v, l)
  | rejects_insertMany_stops docs acc x code :
      batch_inserts (firstn (length acc) docs) acc → docs !! length acc = Some x →
      turn_refused (v, l) x.1 x.2 acc (StorageError code) →
      rejects v l (InsertMany (Some docs)) (InsertManyError (len acc) (map fst acc) code)
        (v ++ map entry_of acc, l)
  | rejects_deleteOne filter e :
      compile filter = Throw e ∨ threw e → rejects v l (DeleteOne filter) e (v, l)
  | rejects_deleteMany filter e :
      compile filter = Throw e ∨ threw e → rejects v l (DeleteMany filter) e (v, l)
  | rejects_replaceOne_invalid filter replacement upsert generated e :
      replace_invalid filter replacement upsert e →
      rejects v l (ReplaceOne filter replacement upsert generated) e (v, l)
  | rejects_replaceOne filter replacement upsert generated fields m r b kd i e :
      replace_compiled filter replacement upsert fields m r b → head (selected m v) = Some kd →
      obj_get kd.2 (js "_id") = Some (VId i) →
      e = StorageError ImmutableId ∧ other_id r i ∨
      e = StorageError InvalidDocument ∧ ¬ fits (VDoc (with_id r i)) ∨
      write_refused l (omap_set v kd.1 (stored_form (with_id r i))) e →
      rejects v l (ReplaceOne filter replacement upsert generated) e (v, l)
  | rejects_replaceOne_upsert filter replacement upsert generated fields m r e :
      replace_compiled filter replacement upsert fields m r true → selected m v = [] →
      upsert_document fields r = Throw e ∨
      (∃ document, upsert_document fields r = Ok document ∧
         insert_refused (v, l) (VDoc document) generated e) →
      rejects v l (ReplaceOne filter replacement upsert generated) e (v, l)
  | rejects_updateOne_invalid filter update upsert generated e :
      update_invalid filter update upsert e →
      rejects v l (UpdateOne filter update upsert generated) e (v, l)
  | rejects_updateOne filter update upsert generated fields m apply b kd e :
      update_compiled filter update upsert fields m apply b → head (selected m v) = Some kd →
      not_updatable apply kd.2 e ∨ write_refused l (omap_set v kd.1 (rewrite_entry apply m kd).2) e →
      rejects v l (UpdateOne filter update upsert generated) e (v, l)
  | rejects_updateOne_upsert filter update upsert generated fields m apply e :
      update_compiled filter update upsert fields m apply true → selected m v = [] →
      upsert_refused fields apply generated (v, l) e →
      rejects v l (UpdateOne filter update upsert generated) e (v, l)
  | rejects_updateMany_invalid filter update upsert generated e :
      update_invalid filter update upsert e →
      rejects v l (UpdateMany filter update upsert generated) e (v, l)
  | rejects_updateMany filter update upsert generated fields m apply b e :
      update_compiled filter update upsert fields m apply b → selected m v ≠ [] →
      (∃ kd, kd ∈ selected m v ∧ not_updatable apply kd.2 e) ∨
      write_refused l (map (rewrite_entry apply m) v) e →
      rejects v l (UpdateMany filter update upsert generated) e (v, l)
  | rejects_updateMany_upsert filter update upsert generated fields m apply e :
      update_compiled filter update upsert fields m apply true → selected m v = [] →
      upsert_refused fields apply generated (v, l) e →
      rejects v l (UpdateMany filter update upsert generated) e (v, l)
  | rejects_createIndex_invalid input e :
      Spec.normalizeIndexSpec input = Throw e → rejects v l (CreateIndex input) e (v, l)
  | rejects_createIndex input spec e :
      Spec.normalizeIndexSpec input = Ok spec →
      e = StorageError Errors.IndexConflict ∧ ¬ index_free spec l ∨
      e = StorageError DuplicateKey ∧ ¬ unique_ok spec (fields_in spec (docs_of v)) ∨ threw e →
      rejects v l (CreateIndex input) e (v, l)
  | rejects_dropIndex name e :
      e = StorageError InvalidIndex ∧ name = Spec.ID_INDEX_NAME ∨
      e = StorageError IndexNotFound ∧ name ≠ Spec.ID_INDEX_NAME ∧ (name ∉ map Spec.name l) ∨ threw e →
      rejects v l (DropIndex name) e (v, l).

Lemma accepts_specs v l command answer v' l' :
  accepts v l command answer (v', l') → specs_ok l → specs_ok l'.
Proof.
  intros H Hl. inversion H; subst; try done; [by apply specs_ok_snoc|by apply specs_ok_without].
Qed.

Lemma rejects_specs v l command e v' l' :
  rejects v l command e (v', l') → l' = l.
Proof. by inversion 1. Qed.
End Model.

(** ** The code refines the model *)
Section Refinement.
Context {J : Type} (journal : option (list JournalOperation → ST J exn ())).
Context (durable : J → contents → Prop) {calm : J → contents → list JournalOperation → Prop} `{!JournalLaws journal durable calm}.
Implicit Types c : InMemoryCollection J.

(** What the journal throws in the state [s]. *)
Definition journal_throws (s : J) (e : exn) : Prop :=
  ∃ j operations s', journal = Some j ∧ j operations s = (Throw e, s').

Lemma threw_throws operations c e : journal_threw journal operations c e → journal_throws (journalState c) e.
Proof. intros (j & s' & Hj & E). by exists j, operations, s'. Qed.

Lemma write_failed_refused c operations v' e :
  CollectionSpec.write_failed journal c operations v' e →
  write_refused (journal_throws (journalState c)) (specs (indexes c)) v' e.
Proof. intros [H|H]; [by left|right; by eapply threw_throws]. Qed.

Lemma insert_failed_refused c v document generated e :
  CollectionSpec.insert_failed journal c v document generated e →
  insert_refused (journal_throws (journalState c)) (v, specs (indexes c)) document generated e.
Proof.
  intros [H|(i & d & Hi & H)]; [by left|right]. exists i, d. split; [done|].
  by eapply write_failed_refused.
Qed.

Lemma upsert_failed_refused c v fields apply generated e :
  upsert_failed journal fields apply generated c v e →
  upsert_refused (journal_throws (journalState c)) fields apply generated (v, specs (indexes c)) e.
Proof.
  intros [H|(seed & Es & [H|(d & Ed & H)])]; [by left|right..]; exists seed; split; try done.
  - by left.
  - right. exists d. split; [done|]. by apply insert_failed_refused.
Qed.

(** The outcome of a command: the code and the model go the same way. *)
Definition refines c v (command : Command) (o : res exn Answer * InMemoryCollection J) : Prop :=
  ∃ v', coll_inv durable o.2 v' ∧
    match o.1 with
    | Ok answer => accepts v (specs (indexes c)) command answer (v', specs (indexes o.2))
    | Throw e => rejects (journal_throws (journalState c)) v (specs (indexes c)) command e (v', specs (indexes o.2))
    end.

Lemma refines_changed c v command answer v' c' :
  changed durable c v' c' →
  accepts v (specs (indexes c)) command answer (v', specs (indexes c)) →
  refines c v command (Ok answer, c').
Proof. intros [Hc Hs] Ha. exists v'. split; [done|]. cbn [fst snd]. by rewrite Hs. Qed.

Lemma refines_unchanged c v command e c' :
  unchanged durable c v c' →
  rejects (journal_throws (journalState c)) v (specs (indexes c)) command e (v, specs (indexes c)) →
  refines c v command (Throw e, c').
Proof. intros [Hc [= _ Hs]] Ha. exists v. split; [done|]. cbn [fst snd]. by rewrite Hs. Qed.

(** An operation whose answer is changed by [f]. *)
Lemma refines_map {A} c v command (m : ST (InMemoryCollection J) exn A) (f : A → Answer) :
  match m c with
  | (Ok x, c') => refines c v command (Ok (f x), c')
  | (Throw e, c') => refines c v command (Throw e, c')
  end → refines c v command ((x ← m; mret (f x)) c).
Proof. unfold mbind, st_bind. by destruct (m c) as [[]]. Qed.

Lemma insertOne_refines c `{!MayCommit calm c} v document generated :
  coll_inv durable c v → admissible (len v) (InsertOne document generated) →
  refines c v (InsertOne document generated) (run journal (InsertOne document generated) c).
Proof.
  intros Hc (Hd & Hg & Hl). apply refines_map.
  pose proof (insertOne_outcome journal durable c v document generated Hc Hd Hg Hl) as Ho.
  destruct (insertOne _ _ _ c) as [[i|e] c'].
  - destruct Ho as (d & Hi & Hn & Hch). eapply refines_changed; [exact Hch|]. by constructor.
  - destruct Ho as [Hun Hf]. apply refines_unchanged; [done|]. constructor.
    by apply insert_failed_refused.
Qed.

Lemma insertMany_refines c `{!MayCommit calm c} v documents :
  coll_inv durable c v → admissible (len v) (InsertMany documents) →
  refines c v (InsertMany documents) (run journal (InsertMany documents) c).
Proof.
  intros Hc (Hd & Hl). apply refines_map.
  pose proof (insertMany_outcome journal durable c v documents Hc Hd Hl) as Ho.
  destruct (insertMany _ _ c) as [[ids|e] c'].
  - destruct Ho as (docs & acc & -> & Hne & Hi & -> & Hch). eapply refines_changed; [exact Hch|].
    by constructor.
  - destruct Ho as [(He & -> & ->)|[(docs & acc & -> & Hi & Hun & Ht)|(docs & acc & x & code & -> & Hi & Hx & Ht & -> & Hch)]].
    + apply refines_unchanged; [done|]. by constructor.
    + apply refines_unchanged; [done|]. apply (rejects_insertMany _ _ _ docs acc); [done|].
      by eapply threw_throws.
    + destruct Hch as [Hc' Hs]. exists (v ++ map entry_of acc). split; [done|]. cbn [fst snd].
      rewrite Hs. by apply (rejects_insertMany_stops _ _ _ docs acc x code).
Qed.

Lemma deleteOne_refines c `{!MayCommit calm c} v filter :
  coll_inv durable c v → admissible (len v) (DeleteOne filter) →
  refines c v (DeleteOne filter) (run journal (DeleteOne filter) c).
Proof.
  intros Hc Hw. apply refines_map.
  pose proof (deleteOne_outcome journal durable c v filter Hc Hw) as Ho.
  destruct (deleteOne _ _ c) as [[n|e] c'].
  - destruct Ho as (fields & m & Hm & Ho). pose proof (accepts_deleteOne v (specs (indexes c)) filter fields m Hm) as Ha.
    destruct (head (selected m v)) as [kd|].
    + destruct Ho as [-> Hch]. by eapply refines_changed.
    + destruct Ho as [-> ->]. by eapply refines_changed.
  - destruct Ho as [Hun Hf]. apply refines_unchanged; [done|]. constructor.
    destruct Hf as [Hf|(k & _ & Ht)]; [by left|right]. by eapply threw_throws.
Qed.

Lemma deleteMany_refines c `{!MayCommit calm c} v filter :
  coll_inv durable c v → admissible (len v) (DeleteMany filter) →
  refines c v (DeleteMany filter) (run journal (DeleteMany filter) c).
Proof.
  intros Hc Hw. apply refines_map.
  pose proof (deleteMany_outcome journal durable c v filter Hc Hw) as Ho.
  destruct (deleteMany _ _ c) as [[n|e] c'].
  - destruct Ho as (fields & m & Hm & -> & Hch). eapply refines_changed; [exact Hch|].
    by apply accepts_deleteMany with fields.
  - destruct Ho as [Hun Hf]. apply refines_unchanged; [done|]. constructor.
    destruct Hf as [Hf|(k & _ & Ht)]; [by left|right]. by eapply threw_throws.
Qed.

Lemma selected_nil m (v : view) : head (selected m v) = None → selected m v = [].
Proof. by destruct (selected m v). Qed.

Lemma replaceOne_refines c `{!MayCommit calm c} v filter replacement upsert generated :
  coll_inv durable c v → admissible (len v) (ReplaceOne filter replacement upsert generated) →
  refines c v (ReplaceOne filter replacement upsert generated)
    (run journal (ReplaceOne filter replacement upsert generated) c).
Proof.
  intros Hc (Hf & Hr & Hg & Hl). apply refines_map.
  pose proof (replaceOne_outcome journal durable c v filter replacement upsert generated Hc Hf Hr Hg Hl) as Ho.
  destruct (replaceOne _ _ _ _ _ c) as [[res|e] c'].
  - destruct Ho as (fields & m & r & b & Hcomp & Ho). destruct (head (selected m v)) as [kd|] eqn:Eh.
    + destruct Ho as (i & Hi & Hno & Hfit & Hup & Hmat & Hmod & Hch). eapply refines_changed; [exact Hch|].
      destruct res as [nm nn up]. cbn [matchedCount modifiedCount upsertedId] in *. subst.
      by apply accepts_replaceOne with fields m b.
    + destruct Ho as (Hmat & Hmod & Ho). destruct res as [nm nn up].
      cbn [matchedCount modifiedCount upsertedId] in *. subst. apply selected_nil in Eh. destruct b.
      * destruct Ho as (document & i & d & Hd & Hi & -> & Hn & Hch). eapply refines_changed; [exact Hch|].
        by apply accepts_replaceOne_upsert with fields m r document.
      * destruct Ho as [-> ->]. eapply refines_changed; [by split|].
        by apply (accepts_replaceOne_not v _ _ _ _ _ fields m r).
  - destruct Ho as [Hun Hfail]. apply refines_unchanged; [done|].
    destruct Hfail as [Hinv|(fields & m & r & b & Hcomp & Ho)]; [by constructor|].
    destruct (head (selected m v)) as [kd|] eqn:Eh.
    + destruct Ho as (i & Hi & Ho). apply (rejects_replaceOne _ v _ _ _ _ _ fields m r b kd i); try done.
      destruct Ho as [?|[?|Hw]]; [by left|by right; left|right; right]. by eapply write_failed_refused.
    + destruct Ho as [-> Ho]. apply (rejects_replaceOne_upsert _ v _ _ _ _ _ fields m r); [done|by apply selected_nil|].
      destruct Ho as [Ho|(document & Hd & Ho)]; [by left|right]. exists document. split; [done|].
      by apply insert_failed_refused.
Qed.

(** An update that matches nothing. *)
Lemma upserted_upserts fields apply b generated c v r c' :
  upserted durable fields apply b generated c v r c' → coll_inv durable c v →
  ∃ v', changed durable c v' c' ∧ upserts fields apply generated v b r v'.
Proof.
  intros (Hm & Hmod & Ho) Hc. destruct r as [nm nn up].
  cbn [matchedCount modifiedCount upsertedId] in *. subst. destruct b.
  - destruct Ho as (seed & document & i & d & Es & Ea & Hi & -> & Hn & Hch). eexists. split; [exact Hch|].
    by apply upserts_one with seed document.
  - destruct Ho as [-> ->]. exists v. split; [done|constructor].
Qed.

Lemma updateOne_refines c `{!MayCommit calm c} v filter update upsert generated :
  coll_inv durable c v → admissible (len v) (UpdateOne filter update upsert generated) →
  refines c v (UpdateOne filter update upsert generated)
    (run journal (UpdateOne filter update upsert generated) c).
Proof.
  intros Hc (Hf & Hu & Hg & Hl). apply refines_map.
  pose proof (updateOne_outcome journal durable c v filter update upsert generated Hc Hf Hu Hg Hl) as Ho.
  destruct (updateOne _ _ _ _ _ c) as [[res|e] c'].
  - destruct Ho as (fields & m & apply & b & Hcomp & Ho). destruct (head (selected m v)) as [kd|] eqn:Eh.
    + destruct Ho as (-> & Hup & Hch). eapply refines_changed; [exact Hch|].
      by apply (accepts_updateOne v _ _ _ _ _ fields m apply b kd).
    + destruct (upserted_upserts _ _ _ _ _ _ _ _ Ho Hc) as (v' & Hch & Hups).
      eapply refines_changed; [exact Hch|].
      apply (accepts_updateOne_upsert v _ _ _ _ _ fields m apply b); [done|by apply selected_nil|done].
  - destruct Ho as [Hun Hfail]. apply refines_unchanged; [done|].
    destruct Hfail as [Hinv|(fields & m & apply & b & Hcomp & Ho)]; [by constructor|].
    destruct (head (selected m v)) as [kd|] eqn:Eh.
    + apply (rejects_updateOne _ v _ _ _ _ _ fields m apply b kd); try done.
      destruct Ho as [?|Hw]; [by left|right]. by eapply write_failed_refused.
    + destruct Ho as [-> Ho].
      apply (rejects_updateOne_upsert _ v _ _ _ _ _ fields m apply); [done|by apply selected_nil|].
      by apply upsert_failed_refused.
Qed.

Lemma updateMany_refines c `{!MayCommit calm c} v filter update upsert generated :
  coll_inv durable c v → admissible (len v) (UpdateMany filter update upsert generated) →
  refines c v (UpdateMany filter update upsert generated)
    (run journal (UpdateMany filter update upsert generated) c).
Proof.
  intros Hc (Hf & Hu & Hg & Hl). apply refines_map.
  pose proof (updateMany_outcome journal durable c v filter update upsert generated Hc Hf Hu Hg Hl) as Ho.
  assert (∀ m, if len (selected m v) =? 0 then selected m v = [] else selected m v ≠ []) as Hsel.
  { intros m. destruct (Z.eqb_spec (len (selected m v)) 0) as [E|E]; [by apply len_0_inv|].
    intros Hs. by rewrite Hs in E. }
  destruct (updateMany _ _ _ _ _ c) as [[res|e] c'].
  - destruct Ho as (fields & m & apply & b & Hcomp & Ho). specialize (Hsel m). destruct (_ =? _).
    + destruct (upserted_upserts _ _ _ _ _ _ _ _ Ho Hc) as (v' & Hch & Hups).
      eapply refines_changed; [exact Hch|].
      by apply (accepts_updateMany_upsert v _ _ _ _ _ fields m apply b).
    + destruct Ho as (-> & Hup & Hch). eapply refines_changed; [exact Hch|].
      assert (len (modifications apply m v) = len (List.filter (modified apply m) v)) as ->
        by (unfold len, modifications; by rewrite length_map).
      by apply (accepts_updateMany v _ _ _ _ _ fields m apply b).
  - destruct Ho as [Hun Hfail]. apply refines_unchanged; [done|].
    destruct Hfail as [Hinv|(fields & m & apply & b & Hcomp & Ho)]; [by constructor|].
    specialize (Hsel m). destruct (_ =? _).
    + destruct Ho as [-> Ho]. apply (rejects_updateMany_upsert _ v _ _ _ _ _ fields m apply); [done|done|].
      by apply upsert_failed_refused.
    + apply (rejects_updateMany _ v _ _ _ _ _ fields m apply b); [done|done|].
      destruct Ho as [?|[ops Hw]]; [by left|right]. by eapply write_failed_refused.
Qed.

Lemma createIndex_refines c `{!MayCreate calm c} v input :
  coll_inv durable c v → plain_input input →
  refines c v (CreateIndex input) (run journal (CreateIndex input) c).
Proof.
  intros Hc Hp. apply refines_map.
  pose proof (createIndex_outcome journal durable c v input Hc Hp) as Ho.
  destruct (createIndex _ _ c) as [[[name made]|e] c'].
  - destruct Ho as (spec & Hn & -> & Ho). destruct made.
    + destruct Ho as (Hfree & Hu & Hc' & [= Ed Es]). exists v. split; [done|]. cbn [fst snd].
      rewrite Es. by constructor.
    + destruct Ho as (-> & other & Hin & Hon & Hs). exists v. split; [done|]. cbn [fst snd].
      by apply accepts_createIndex_exists with other.
  - destruct Ho as [Hun [Hn|(spec & Hn & Ho)]]; (apply refines_unchanged; [done|]); [by constructor|].
    apply (rejects_createIndex _ v _ _ spec); [done|].
    destruct Ho as [?|[?|Ht]]; [by left|by right; left|right; right]. by eapply threw_throws.
Qed.

Lemma dropIndex_refines c `{!MayCommit calm c} v name :
  coll_inv durable c v → refines c v (DropIndex name) (run journal (DropIndex name) c).
Proof.
  intros Hc. apply refines_map.
  pose proof (dropIndex_outcome journal durable c v name Hc) as Ho.
  destruct (dropIndex _ _ c) as [[u|e] c'].
  - destruct Ho as (Hid & Hin & Hc' & [= Ed Es]). exists v. split; [done|]. cbn [fst snd].
    rewrite Es. by constructor.
  - destruct Ho as [Hun Ho]. apply refines_unchanged; [done|]. constructor.
    destruct Ho as [?|[?|Ht]]; [by left|by right; left|right; right]. by eapply threw_throws.
Qed.

Definition makes_index (command : Command) : bool :=
  match command with CreateIndex _ => true | _ => false end.

Lemma run_refines c v command :
  coll_inv durable c v → admissible (len v) command →
  (∀ operations, (creates operations → makes_index command = true) →
     calm (journalState c) (contents_of c) operations) →
  refines c v command (run journal command c).
Proof.
  intros Hc Ha Hcalm.
  assert (MayCommit calm c) by (intros operations Ho; by apply Hcalm).
  assert (makes_index command = true → MayCreate calm c) by (intros Hm spec; by apply Hcalm).
  destruct command; cbn [admissible] in Ha; destruct_and?.
  - by apply insertOne_refines.
  - by apply insertMany_refines.
  - by apply deleteOne_refines.
  - by apply deleteMany_refines.
  - by apply replaceOne_refines.
  - by apply updateOne_refines.
  - by apply updateMany_refines.
  - apply createIndex_refines; auto.
  - by apply dropIndex_refines.
Qed.
End Refinement.

(** * Collections: errors

    A command on a collection of documents that were stored, with arguments that a
    message can hold, is rejected with an error of the storage package, if the
    journal throws no other. *)
Import Update Collection.Collection.

Definition storage_failure (e : exn) : Prop := is_Some (storageCode e).

(** ** Updates *)

(** The arrays of a document have elements that can be compared. *)
Definition arrays_ok (d : Document) : Prop := ∀ p l, lookup_path d p = Some (VArray l) → Forall encodable l.

Lemma encodable_arrays v l : encodable v → v = VArray l → Forall encodable l.
Proof. intros Hv ->. apply Forall_forall. intros x Hx. by eapply encodable_elem. Qed.

Lemma document_arrays d : encodable (VDoc d) → arrays_ok d.
Proof. intros Hd p l Hp. eapply encodable_arrays; [|done]. by eapply resolveField_encodable. Qed.

Lemma effect_throws operator operand field e :
  encodable operand → (∀ l, field = Some (VArray l) → Forall encodable l) →
  effect operator operand field = Throw e → e = StorageError InvalidUpdate.
Proof.
  intros Ho Hf. destruct operator; cbn [effect]; try discriminate.
  - destruct field as [[]|]; try discriminate; try (by intros [= <-]);
      (destruct operand; try (by intros [= <-]); try discriminate).
    destruct (isFinite _); [discriminate|by intros [= <-]].
  - by destruct field.
  - by destruct field.
  - destruct field as [[]|]; try discriminate; by intros [= <-].
  - destruct field as [[| | | | | | | |l|]|]; try discriminate; try (by intros [= <-]).
    destruct (pull_effect l operand (Hf l eq_refl) Ho) as (keep & E & _). cbn [effect] in E. by rewrite E.
  - destruct field as [[| | | | | | | |l|]|]; try discriminate; try (by intros [= <-]).
    destruct (addToSet_effect l operand (Hf l eq_refl) Ho) as (l' & E & _). cbn [effect] in E. by rewrite E.
Qed.

Lemma operand_encodable update i : encodable update → i ∈ instructions_of update → encodable (operand i).
Proof.
  intros Hu Hi. destruct update as [| | | | | | | | |operators]; try by apply not_elem_of_nil in Hi.
  apply list_elem_of_In, in_flat_map in Hi as ([name operands] & Hin & Hi). cbn [fst snd] in Hi. apply list_elem_of_In in Hin.
  destruct (omap_get _ name) as [operator|]; [|done]. destruct operands as [| | | | | | | | |operands]; try done.
  apply in_map_iff in Hi as ([path v] & <- & Hv). apply list_elem_of_In in Hv. cbn.
  by eapply encodable_field; [eapply encodable_field|].
Qed.

(** A compiled update on a document. *)
Lemma apply_throws update apply d e :
  compileUpdate update = Ok apply → encodable update → wf_document d → arrays_ok d → apply d = Throw e →
  e = StorageError InvalidUpdate.
Proof.
  intros Hc Hu Hd Ha He. apply compile_apply in Hc as [Hv ->].
  pose proof (instructions_outcome (instructions_of update) d Hd (instructions_wf _ (proj1 Hu)) (valid_update_conflicts _ Hv)) as Ho.
  rewrite He in Ho. destruct Ho as (i & Hi & [(_ & _ & ->)|Ho]); [done|].
  eapply effect_throws; [by eapply operand_encodable| |exact Ho]. intros l. apply Ha.
Qed.

Lemma compileUpdate_throws update e : compileUpdate update = Throw e → storage_failure e.
Proof.
  unfold compileUpdate. pose proof (parses_update update) as H. destruct (parseUpdate update) as [il|x]; [discriminate|].
  destruct H as [_ H]. intros [= <-]. destruct H as [-> | ->]; by eexists.
Qed.

(** ** Seeds *)
Lemma lookup_document d p q v : p ≠ [] → q ≠ [] → lookup_path d (p ++ q) = Some v →
  ∃ child, lookup_path d p = Some (VDoc child) ∧ lookup_path child q = Some v.
Proof.
  revert d. induction p as [|x p IH]; intros d Hp Hq; [done|]. cbn [app].
  rewrite (lookup_path_cons d x (p ++ q)) by (by destruct p). destruct p as [|y p].
  - cbn [app Filter.resolveField]. destruct (obj_get d x) as [[]|]; try done. intros H. by eexists.
  - rewrite lookup_path_cons by done. destruct (obj_get d x) as [[]|]; try done. by apply IH.
Qed.

Lemma overlaps_prefix p q : overlaps p q = true → (∃ r, q = p ++ r) ∨ ∃ r, p = q ++ r.
Proof.
  revert q. induction p as [|x p IH]; intros [|y q]; cbn [overlaps]; [by left; exists []|by left; eexists|by right; eexists|].
  intros [->%bool_decide_eq_true H]%andb_true_iff. destruct (IH q H) as [[r ->]|[r ->]]; [left|right]; by exists r.
Qed.

(** A document of values that can be compared, at paths. *)
Lemma seeded_arrays d eqs :
  seeded d eqs → Forall (λ e : list jsstring * DocumentValue, encodable e.2 ∧ e.1 ≠ []) eqs → arrays_ok d.
Proof.
  intros [_ Hl Ho] He p l Hp. rewrite Forall_forall in Hl, He.
  destruct (decide (Forall (λ e : list jsstring * DocumentValue, overlaps p e.1 = false) eqs)) as [Hf|Hf].
  { destruct (Ho p Hf) as [E _]. congruence. }
  apply not_Forall_Exists in Hf; [|solve_decision]. apply Exists_exists in Hf as ([q v] & Hin & Hov).
  cbn [fst] in Hov. apply not_false_is_true in Hov. specialize (Hl _ Hin). destruct (He _ Hin) as [Hv Hq]. cbn [fst snd] in *.
  apply overlaps_prefix in Hov as [[r ->]|[r ->]].
  - destruct r as [|x r]; [rewrite app_nil_r in Hl; rewrite Hl in Hp; injection Hp as ->; by eapply encodable_arrays|].
    destruct p as [|y p]; [done|].
    destruct (lookup_document d (y :: p) (x :: r) v ltac:(done) ltac:(done) Hl) as (child & E & _). congruence.
  - destruct r as [|x r]; [rewrite app_nil_r in Hp; rewrite Hl in Hp; injection Hp as ->; by eapply encodable_arrays|].
    destruct (lookup_document d q (x :: r) _ Hq ltac:(done) Hp) as (child & E & E'). rewrite Hl in E. injection E as ->.
    by apply (document_arrays child Hv (x :: r)).
Qed.

Lemma extractEquality_encodable v e : encodable v → extractEquality v = Some e → encodable e.
Proof.
  intros Hv. destruct v as [| | | | | | | | |fields]; cbn [extractEquality]; try (by intros [= <-]).
  destruct (negb _); [by intros [= <-]|]. destruct fields as [|[k w] [|]]; try done.
  case_decide; [|done]. intros [= <-]. by apply (encodable_field [(k, w)] k w Hv), list_elem_of_here.
Qed.

Lemma equalities_ok fields :
  encodable (VDoc fields) → Forall (λ e : list jsstring * DocumentValue, encodable e.2 ∧ e.1 ≠ []) (equalities fields).
Proof.
  intros Hf. apply Forall_forall. intros [p v] Hin. apply list_elem_of_omap in Hin as ([k w] & Hin & E). cbn [fst snd] in E.
  destruct (starts_dollar k); [done|]. destruct (extractEquality w) as [e|] eqn:Ee; [|done]. injection E as <- <-. cbn [fst snd].
  split; [eapply extractEquality_encodable; [by eapply encodable_field|exact Ee]|by apply split_dot_nonempty].
Qed.

Lemma seed_arrays fields seed :
  encodable (VDoc fields) → seedDocumentFromFilter fields = Ok seed → wf_document seed ∧ arrays_ok seed.
Proof.
  intros Hf Hs. assert (seeded [] []) as H0.
  { split; [apply wf_empty|constructor|]. intros q _. split; [apply lookup_path_empty|apply blocked_empty]. }
  pose proof (seed_loop fields [] [] (proj1 Hf) H0) as H. unfold seedDocumentFromFilter in Hs. cbn [map app] in H.
  destruct (foldM seedField fields ([], [])) as [[seed' assigned]|e]; [|discriminate]. injection Hs as ->.
  destruct H as [_ Hseed]. split; [apply Hseed|]. by apply (seeded_arrays _ _ Hseed), equalities_ok.
Qed.

Lemma seed_throws fields e : wf_value (VDoc fields) = true → seedDocumentFromFilter fields = Throw e → e = StorageError InvalidUpdate.
Proof.
  intros Hf Hs. assert (seeded [] []) as H0.
  { split; [apply wf_empty|constructor|]. intros q _. split; [apply lookup_path_empty|apply blocked_empty]. }
  pose proof (seed_loop fields [] [] Hf H0) as H. unfold seedDocumentFromFilter in Hs. cbn [map app] in H.
  destruct (foldM seedField fields ([], [])) as [[seed' assigned]|x]; [discriminate|]. injection Hs as <-. by destruct H.
Qed.

(** ** Rejections *)

(** The update of a command is a value that a message can hold. *)
Definition fits_command (command : Command) : Prop :=
  match command with
  | UpdateOne _ update _ _ | UpdateMany _ update _ _ => fits update
  | _ => True
  end.

Lemma compile_throws filter e : compile filter = Throw e → storage_failure e.
Proof.
  intros [H|(m & Hm & H)]%bind_Throw_inv.
  - pose proof (Filter.compileFilter filter) as _. pose proof (compileFilter_yields filter) as Hy. rewrite H in Hy.
    destruct Hy as [-> _]. by eexists.
  - pose proof (compileFilter_yields filter) as Hy. rewrite Hm in Hy. destruct Hy as (Hp & _). by destruct filter.
Qed.

Lemma validateUpsert_throws upsert e : validateUpsert upsert = Throw e → storage_failure e.
Proof. destruct upsert as [[]|]; try discriminate; intros [= <-]; by eexists. Qed.

Lemma normalize_throws input e : Spec.normalizeIndexSpec input = Throw e → storage_failure e.
Proof. pose proof (index_spec_roundtrip input) as H. intros E. rewrite E in H. subst e. by eexists. Qed.

Section Rejections.
Context (threw : exn → Prop) (threw_storage : ∀ e, threw e → storage_failure e).

Lemma not_insertable_storage document generated taken e : not_insertable document generated taken e → storage_failure e.
Proof using. intros [[-> _]|[[-> _]|[-> _]]]; by eexists. Qed.

Lemma write_refused_storage l v e : write_refused threw l v e → storage_failure e.
Proof using threw_storage. intros [[-> _]|H]; [by eexists|by apply threw_storage]. Qed.

Lemma insert_refused_storage m document generated e : insert_refused threw m document generated e → storage_failure e.
Proof using threw_storage.
  intros [H|(i & d & _ & H)]; [by eapply not_insertable_storage|by eapply write_refused_storage].
Qed.

Lemma upsert_refused_storage update apply fields generated m e :
  compileUpdate update = Ok apply → encodable update → encodable (VDoc fields) →
  upsert_refused threw fields apply generated m e → storage_failure e.
Proof using threw_storage.
  intros Ha Hu Hf [H|(seed & Es & [H|(d & _ & H)])].
  - rewrite (seed_throws _ _ (proj1 Hf) H). by eexists.
  - destruct (seed_arrays _ _ Hf Es) as [Hw Har]. rewrite (apply_throws _ _ _ _ Ha Hu Hw Har H). by eexists.
  - by eapply insert_refused_storage.
Qed.

Lemma not_updatable_storage update apply d e :
  compileUpdate update = Ok apply → encodable update → encodable (VDoc d) → not_updatable apply d e → storage_failure e.
Proof using.
  intros Ha Hu Hd [H|(u & _ & _ & ->)]; [|by eexists].
  rewrite (apply_throws update apply d e Ha Hu (proj1 Hd) (document_arrays d Hd) H). by eexists.
Qed.

Lemma selected_encodable m v kd : Forall entry_ok v → kd ∈ selected m v → encodable (VDoc kd.2).
Proof using.
  intros Hv [Hin _]%elem_of_filter_bool. rewrite Forall_forall in Hv. destruct (Hv _ Hin) as [Hs _]. apply Hs.
Qed.

Lemma compiled_encodable filter fields m : compile filter = Ok (fields, m) → wf_value filter = true → encodable (VDoc fields).
Proof using.
  intros Hm Hw. destruct (compile_spec _ _ _ Hm Hw) as (-> & _). split; [done|].
  apply bind_Ok_inv in Hm as (m' & Hm & _). pose proof (compileFilter_yields (VDoc fields)) as Hy. rewrite Hm in Hy. by destruct Hy as (_ & Hf & _).
Qed.

Lemma update_invalid_storage filter update upsert e : update_invalid filter update upsert e → storage_failure e.
Proof using. intros [H|[H|H]]; [by eapply compile_throws|by eapply compileUpdate_throws|by eapply validateUpsert_throws]. Qed.

Lemma replace_invalid_storage filter replacement upsert e : replace_invalid filter replacement upsert e → storage_failure e.
Proof using.
  intros [H|[H|H]]; [by eapply compile_throws|by eapply validateUpsert_throws|].
  unfold validateReplacement in H. destruct replacement; [..|destruct (existsb _ _); [|done]]; injection H as <-; by eexists.
Qed.

Lemma upsert_document_throws fields r e : upsert_document fields r = Throw e → storage_failure e.
Proof using.
  unfold upsert_document. destruct (obj_get fields _) as [[]|]; try done.
  destruct (obj_get r _) as [[]|]; try done; try (by intros [= <-]; eexists).
  case_decide; [done|]. intros [= <-]. by eexists.
Qed.

Lemma head_selected m v kd : head (selected m v) = Some kd → kd ∈ selected m v.
Proof using. apply head_Some_elem_of. Qed.

Local Hint Resolve insert_refused_storage write_refused_storage compile_throws replace_invalid_storage
  update_invalid_storage normalize_throws : core.

Lemma rejects_storage n v l command e m :
  Forall entry_ok v → admissible n command → fits_command command → rejects threw v l command e m → storage_failure e.
Proof using threw_storage.
  intros Hv Ha Hfit H.
  assert (∀ filter update upsert fields m apply b, wf_value filter = true → wf_value update = true → fits update →
    update_compiled filter update upsert fields m apply b →
    compileUpdate update = Ok apply ∧ encodable update ∧ encodable (VDoc fields)) as Hc.
  { intros filter update upsert fields m0 apply b Hf Hw Hu (H1 & H2 & _). split; [done|]. split; [done|].
    by eapply compiled_encodable. }
  destruct H; cbn [admissible fits_command] in Ha, Hfit; eauto.
  - by eexists.
  - by eexists.
  - destruct H; eauto.
  - destruct H; eauto.
  - destruct H2 as [[-> _]|[[-> _]|H2]]; [by eexists|by eexists|eauto].
  - destruct H1 as [H1|(document & _ & H1)]; [by eapply upsert_document_throws|eauto].
  - destruct Ha as ([Hwf _] & [Hwu _] & _). destruct (Hc _ _ _ _ _ _ _ Hwf Hwu Hfit H) as (Hu & He & _).
    destruct H1; [|eauto]. eapply not_updatable_storage; [done..| |done]. by eapply selected_encodable, head_selected.
  - destruct Ha as ([Hwf _] & [Hwu _] & _). destruct (Hc _ _ _ _ _ _ _ Hwf Hwu Hfit H) as (Hu & He & Hf).
    by eapply upsert_refused_storage.
  - destruct Ha as ([Hwf _] & [Hwu _] & _). destruct (Hc _ _ _ _ _ _ _ Hwf Hwu Hfit H) as (Hu & He & _).
    destruct H1 as [(kd & Hin & H1)|H1]; [|eauto]. eapply not_updatable_storage; [done..| |done]. by eapply selected_encodable.
  - destruct Ha as ([Hwf _] & [Hwu _] & _). destruct (Hc _ _ _ _ _ _ _ Hwf Hwu Hfit H) as (Hu & He & Hf).
    by eapply upsert_refused_storage.
  - destruct H0 as [[-> _]|[[-> _]|H0]]; [by eexists|by eexists|eauto].
  - destruct H as [[-> _]|[[-> _]|H]]; [by eexists|by eexists|eauto].
Qed.
End Rejections.
