(* ===== verification/CollectionProperties.v ===== *)
(** * Collections: properties

    A collection over a journal, from the empty one on, through any commands,
    accepted or rejected, and through reopening it from what the journal holds:
    [reachable]. What holds of every collection that can be reached. *)

From stdpp Require Import gmap.
From S2P Require Import Prelude Errors JsNumber JsString JsValue Binary CustomId Codec Roundtrip Filter FilterSpec Sort Update FieldIndex IndexSpec IndexLemmas FieldIndexSpec IndexSet IndexSetSpec Planner PlannerSpec IndexValidation Stored Collection CollectionLemmas CollectionQueries CollectionChanges CollectionSpec CollectionUpdates CollectionIndexes CollectionModel.
Import IndexSet.IndexSet Collection.Collection.

(** What [recover] reads from a journal is what was committed. *)
Abbreviation Recovers j recover := (JournalLaws (Some j) (λ s a, recover s = a) (λ _ _ _, True)).

Section Reachable.
Context {J : Type} (j : list JournalOperation → ST J exn ()) (recover : J → contents).
Context `{!Recovers j recover}.
Implicit Types c : InMemoryCollection J.

(** Opening a collection on a journal: the documents and indexes recovered. *)
Definition open (s : J) : res exn () * InMemoryCollection J :=
  new s (recover s).1 (recover s).2.

Inductive reachable : InMemoryCollection J → Prop :=
  | reachable_new s : recover s = ([], []) → reachable (open s).2
  | reachable_run c command :
      reachable c → admissible (documentCount c) command → reachable (run (Some j) command c).2
  | reachable_reopen c : reachable c → reachable (open (journalState c)).2.

(** A collection with the documents [v], in memory and in the journal. *)
Definition sound c (v : view) : Prop :=
  coll_inv (λ s a, recover s = a) c v ∧ specs_ok (specs (indexes c)).

Lemma sound_recover c v : sound c v → recover (journalState c) = contents_of c.
Proof. intros [[_ _ _ _ H] _]. exact H. Qed.

Lemma sound_count c v : sound c v → documentCount c = len v.
Proof. intros [[H _ _ _ _] _]. unfold documentCount, len. rewrite H. unfold image. by rewrite length_map. Qed.

Lemma reopen_sound c v :
  sound c v → ∃ c', open (journalState c) = (Ok (), c') ∧ sound c' v ∧
    contents_of c' = contents_of c ∧ journalState c' = journalState c.
Proof.
  intros Hc. pose proof (sound_recover _ _ Hc) as Er. destruct Hc as [Hc Hs].
  destruct (reopen _ c v (journalState c) Hc Hs) as (c' & E & Hm & Hj & Ec).
  exists c'. unfold open. rewrite Er. split; [exact E|]. split; [|done]. split.
  - apply coll_inv_memory. split; [done|]. by rewrite Hj, Ec.
  - unfold contents_of in Ec. injection Ec as _ ->. done.
Qed.

Lemma run_sound c v command :
  sound c v → admissible (documentCount c) command → ∃ v', sound (run (Some j) command c).2 v'.
Proof.
  intros Hc Ha. rewrite (sound_count c v Hc) in Ha. destruct Hc as [Hc Hs].
  destruct (run_refines (Some j) _ c v command Hc Ha (λ _ _, I)) as (v' & Hc' & Ho). exists v'. split; [done|].
  destruct (run (Some j) command c) as [[answer|e] c']; cbn [fst snd] in *.
  - by eapply accepts_specs.
  - by rewrite (rejects_specs _ _ _ _ _ _ _ Ho).
Qed.

Lemma reachable_sound c : reachable c → ∃ v, sound c v.
Proof.
  induction 1 as [s Hs|c command Hc [v IH] Ha|c Hc [v IH]].
  - exists []. unfold open. rewrite Hs. cbn [fst snd].
    assert (specs_ok []) as Hok by (by split; [constructor|constructor|]).
    assert (view_ok []) as Hv by (by split; constructor).
    destruct (new_outcome s [] [] Hv ltac:(done) Hok ltac:(constructor)) as (c & E & Hm & Hj & Ec).
    change (image []) with (@nil (jsstring * bytes)) in E. rewrite E. cbn [snd]. split.
    + apply coll_inv_memory. split; [done|]. by rewrite Hj, Ec.
    + unfold contents_of in Ec. injection Ec as _ ->. done.
  - by eapply run_sound.
  - destruct (reopen_sound c v IH) as (c' & -> & Hs & _). by exists v.
Qed.

(** *** Queries *)
Lemma decoded_view c v :
  sound c v → mapM (λ kb : jsstring * bytes, decodeDocument kb.2) (documents c) = Ok (map snd v).
Proof.
  intros [[Hd [_ Hv] _ _ _] _]. rewrite Hd. clear Hd. unfold image.
  induction v as [|kd v IH]; [done|]. apply Forall_cons in Hv as [[Hs _] Hv].
  cbn [map mapM fst snd].
  rewrite (stored_decode _ _ Hs : decodeDocument (enc (VDoc kd.2)) = Ok kd.2). cbn [mbind res_bind].
  by rewrite (IH Hv).
Qed.

Lemma explain_outcome c v filter :
  sound c v → wf_value filter = true →
  match Filter.compileFilter filter with
  | Ok _ => ∃ r, explain filter c = Ok r ∧ documents_examined r = len v
  | Throw e => explain filter c = Throw e
  end.
Proof.
  intros Hs Hw. pose proof (sound_count c v Hs) as Hn. unfold explain.
  destruct (Filter.compileFilter filter) as [m|e] eqn:Em; [|done]. cbn [mbind res_bind].
  destruct filter as [| | | | | | | | |fields]; try done. pose proof (compile_doc _ _ Em) as Hm.
  destruct (compile_spec _ _ _ Hm Hw) as (_ & He & _).
  destruct (planQuery_Ok fields (all (indexes c)) (documentCount c) He) as (p & Ep & _).
  unfold plan. rewrite Ep. cbn [mbind res_bind]. eexists. split; [done|]. rewrite Hn.
  by destruct p as [| |? []].
Qed.

(** *** Validation *)
Lemma sound_healthy c v :
  sound c v →
  validateIndexes c = Ok {| valid := true; report_indexes := len (specs (indexes c));
                            report_documents := documentCount c; issues := [] |}.
Proof.
  intros [Hc _]. unfold validateIndexes. rewrite (decodedEntries_view _ _ _ Hc).
  destruct Hc as [_ [Hn _] [Hset _] _ _].
  rewrite (healthy_set (indexes c) v Hset Hn). cbn [mbind res_bind].
  unfold specs, len. by rewrite length_map.
Qed.
End Reachable.

(** ** A sample journal

    A list of batches; it refuses to grow beyond six. *)
Definition log_journal : list JournalOperation → ST (list (list JournalOperation)) exn () :=
  λ operations log,
    if 6 <=? len log then (Throw (StorageError Io), log) else (Ok (), log ++ [operations]).

Definition log_recover (log : list (list JournalOperation)) : contents := replay ([], []) (concat log).

#[export] Instance log_recovers : Recovers log_journal log_recover.
Proof.
  split.
  - intros s s' a operations <- _ _. unfold log_journal. destruct (6 <=? len s); [done|]. intros [= <-].
    unfold log_recover. rewrite concat_app. cbn [concat]. rewrite app_nil_r. apply fold_left_app.
  - intros j s s' a operations e <- _ _ [= <-]. unfold log_journal. destruct (6 <=? len s); [|done].
    by intros [= _ <-].
Qed.

Definition sample_number (z : Z) : DocumentValue := VNumber (number_of_Z z).
Definition sample_document (z : Z) : DocumentValue := VDoc [(js "n", sample_number z)].
Definition sample_id (z : Z) : result bytes := Ok (repeat z 16).

(** A unique index; two documents, one after the other; a batch of which the
    second document repeats the first; an update of all documents; a deletion. *)
Definition sample_commands : list Command := [
  CreateIndex (input_of sample_spec);
  InsertOne (sample_document 1) (sample_id 1);
  InsertMany (Some [(sample_document 3, sample_id 2); (sample_document 3, sample_id 3)]);
  UpdateMany (VDoc []) (VDoc [(js "$inc", VDoc [(js "n", sample_number 1)])]) None (sample_id 4);
  DeleteOne (VDoc [(js "n", VDoc [(js "$lt", sample_number 3)])])].

Definition run_all {J} (j : list JournalOperation → ST J exn ()) (commands : list Command)
    (c : InMemoryCollection J) : InMemoryCollection J :=
  fold_left (λ c command, (run (Some j) command c).2) commands c.

Definition sample_collection (n : nat) : InMemoryCollection (list (list JournalOperation)) :=
  run_all log_journal (firstn n sample_commands) (open log_recover []).2.

(** [admissible], decided. *)
Definition goodb (v : DocumentValue) : bool := wf_value v && cleanb v.

Definition generatedb (generated : result bytes) : bool :=
  match generated with Ok id => wf_value (VId id) | Throw _ => false end.

Definition admissibleb (count : Z) (command : Command) : bool :=
  match command with
  | InsertOne document generated => goodb document && generatedb generated && (count + 1 <? 2 ^ 31)
  | InsertMany documents =>
      forallb (λ x, goodb x.1 && generatedb x.2) (default [] documents) &&
      (count + len (default [] documents) <? 2 ^ 31)
  | DeleteOne filter | DeleteMany filter => wf_value filter
  | ReplaceOne filter value _ generated | UpdateOne filter value _ generated
  | UpdateMany filter value _ generated =>
      goodb filter && goodb value && generatedb generated && (count + 1 <? 2 ^ 31)
  | CreateIndex input =>
      match Spec.normalizeIndexSpec input with
      | Ok spec => plainb (Spec.name spec) && plainb (Spec.field spec)
      | Throw _ => true
      end
  | DropIndex _ => true
  end.

Lemma goodb_good v : goodb v = true → good_value v.
Proof. by intros [H1 H2]%andb_true_iff. Qed.

Lemma generatedb_ok generated : generatedb generated = true → generated_ok generated.
Proof. destruct generated as [i|]; [|done]. intros H. by exists i. Qed.

Lemma admissibleb_admissible count command : admissibleb count command = true → admissible count command.
Proof.
  destruct command; cbn [admissibleb admissible]; rewrite ?andb_true_iff, ?Z.ltb_lt; try done;
    intros H; destruct_and?; split_and?; try (by eauto using goodb_good, generatedb_ok).
  - apply Forall_forall. intros x Hx%list_elem_of_In.
    rewrite forallb_forall in H0. apply H0, andb_true_iff in Hx as [Hg Hi].
    eauto using goodb_good, generatedb_ok.
  - intros spec E. rewrite E in H. apply andb_true_iff in H as [? ?]. eauto using plainb_plain.
Qed.

(** Every command of a list can be issued. *)
Fixpoint all_admissible {J} (j : list JournalOperation → ST J exn ()) (commands : list Command)
    (c : InMemoryCollection J) : bool :=
  match commands with
  | [] => true
  | command :: commands =>
      admissibleb (documentCount c) command && all_admissible j commands (run (Some j) command c).2
  end.

Lemma reachable_run_all {J} (j : list JournalOperation → ST J exn ()) recover commands c :
  reachable j recover c → all_admissible j commands c = true →
  reachable j recover (run_all j commands c).
Proof.
  revert c. induction commands as [|command commands IH]; intros c Hc Ha; [done|].
  cbn [all_admissible] in Ha. apply andb_true_iff in Ha as [Ha Hr]. cbn [run_all fold_left].
  apply IH; [|done]. constructor; [done|by apply admissibleb_admissible].
Qed.

Lemma all_admissible_firstn {J} (j : list JournalOperation → ST J exn ()) commands c n :
  all_admissible j commands c = true → all_admissible j (firstn n commands) c = true.
Proof.
  revert c n. induction commands as [|command commands IH]; intros c [|n]; [done..|].
  cbn [firstn all_admissible]. intros [-> Hr]%andb_true_iff. by apply IH.
Qed.

Lemma sample_reachable n : reachable log_journal log_recover (sample_collection n).
Proof.
  apply reachable_run_all; [by constructor|]. apply all_admissible_firstn. vm_compute. reflexivity.
Qed.

(** ** Properties *)

(** C13: Every query of a reachable collection answers what a scan of all its
    documents, in the order they were inserted, would: [find] the documents that
    match, sorted, after the first [skip], at most [limit] of them; [findOne] the
    first that matches; and both throw what the scan would throw. *)
Theorem find_correct {J : Type} (j : list JournalOperation → ST J exn ()) (recover : J → contents)
    `{!Recovers j recover} (c : InMemoryCollection J) (filter : DocumentValue)
    (options : StorageFindOptions) :
  reachable j recover c → wf_value filter = true →
  ∃ docs, mapM (λ kb : jsstring * bytes, decodeDocument kb.2) (documents c) = Ok docs ∧
    find filter options c = find_reference filter options docs ∧
    findOne filter c = findOne_reference filter docs.
Proof.
  intros Hc Hw. destruct (reachable_sound j recover c Hc) as [v Hs]. exists (map snd v).
  split; [by eapply decoded_view|]. destruct Hs as [Hc' _].
  split; [by eapply find_spec|by eapply findOne_spec].
Qed.

Lemma find_correct_witness :
  let filter := VDoc [(js "n", VDoc [(js "$gte", sample_number 2)])] in
  let options := {| find_sort := None; find_skip := None; find_limit := None |} in
  ∃ docs, mapM (λ kb : jsstring * bytes, decodeDocument kb.2) (documents (sample_collection 4)) = Ok docs ∧
    find filter options (sample_collection 4) = find_reference filter options docs ∧
    findOne filter (sample_collection 4) = findOne_reference filter docs.
Proof.
  intros filter options.
  exact (find_correct log_journal log_recover (sample_collection 4) filter options
    (sample_reachable 4) eq_refl).
Defined.

(** C14: A command on a reachable collection does what the abstract model of a
    collection allows: it is accepted with the model's answer, or rejected with
    an error for one of the model's reasons, and the documents and indexes are
    those of the model afterwards. In particular no error but that of a batch
    which stops in the middle changes anything. *)
Theorem collection_refines {J : Type} (j : list JournalOperation → ST J exn ())
    (recover : J → contents) `{!Recovers j recover} (c : InMemoryCollection J) (command : Command) :
  reachable j recover c → admissible (documentCount c) command →
  ∃ v v', documents c = image v ∧ documents (run (Some j) command c).2 = image v' ∧
    let l := specs (indexes c) in
    let m' := (v', specs (indexes (run (Some j) command c).2)) in
    match (run (Some j) command c).1 with
    | Ok answer => accepts v l command answer m'
    | Throw e => rejects (journal_throws (Some j) (journalState c)) v l command e m'
    end.
Proof.
  intros Hc Ha. destruct (reachable_sound j recover c Hc) as [v Hs].
  rewrite (sound_count recover c v Hs) in Ha. destruct Hs as [Hc' _].
  destruct (run_refines (Some j) _ c v command Hc' Ha (λ _ _, I)) as (v' & Hr & Ho). exists v, v'.
  split; [apply Hc'|]. split; [apply Hr|exact Ho].
Qed.

Lemma collection_refines_witness :
  let command := InsertOne (sample_document 5) (sample_id 9) in
  ∃ v v', documents (sample_collection 5) = image v ∧
    documents (run (Some log_journal) command (sample_collection 5)).2 = image v' ∧
    (run (Some log_journal) command (sample_collection 5)).1 = Ok (Inserted [repeat 9 16]) ∧
    accepts v (specs (indexes (sample_collection 5))) command (Inserted [repeat 9 16])
      (v', specs (indexes (run (Some log_journal) command (sample_collection 5)).2)).
Proof.
  intros command.
  assert ((run (Some log_journal) command (sample_collection 5)).1 = Ok (Inserted [repeat 9 16])) as E
    by (vm_compute; reflexivity).
  assert (admissible (documentCount (sample_collection 5)) command) as Ha
    by (apply admissibleb_admissible; vm_compute; reflexivity).
  destruct (collection_refines log_journal log_recover (sample_collection 5) command
    (sample_reachable 5) Ha) as (v & v' & H1 & H2 & H3).
  exists v, v'. cbv zeta in H3. rewrite E in H3. by split_and!.
Defined.

(** C15: After any commands, accepted or rejected, and any restarts, the journal
    holds exactly the documents and indexes of the collection; every document is
    stored once, under its own [_id], in bytes that decode to it and are its
    encoding; the indexes have distinct names and fields, and no unique index is
    violated. *)
Theorem collection_durable {J : Type} (j : list JournalOperation → ST J exn ())
    (recover : J → contents) `{!Recovers j recover} (c : InMemoryCollection J) :
  reachable j recover c →
  recover (journalState c) = (documents c, specs (indexes c)) ∧
  NoDup (omap_keys (documents c)) ∧
  Forall (λ kb, ∃ d id, decodeDocument kb.2 = Ok d ∧ encodeDocument d = Ok kb.2 ∧
    obj_get d (js "_id") = Some (VId id) ∧ kb.1 = CustomId.toHexString id) (documents c) ∧
  specs_ok (specs (indexes c)) ∧
  ∃ v, documents c = image v ∧ ¬ violates (specs (indexes c)) (docs_of v).
Proof.
  intros Hc. destruct (reachable_sound j recover c Hc) as [v Hs].
  pose proof (sound_recover recover _ _ Hs) as Hr. destruct Hs as [Hc' Hs].
  pose proof (specs_unique _ _ _ Hc') as Hu. destruct Hc' as [Hd [Hn Hv] _ _ _].
  split; [exact Hr|]. rewrite Hd, image_keys. split; [done|]. split; [|split; [done|]].
  - unfold image. apply Forall_map. eapply Forall_impl; [exact Hv|].
    intros kd [Hst (i & Hi & Hk)]. exists kd.2, i. cbn [fst snd].
    split; [apply Hst|]. split; [apply fits_encode, Hst|done].
  - exists v. split; [done|]. intros (spec & Hin & Hnu). rewrite Forall_forall in Hu. by apply Hnu, Hu.
Qed.

Lemma collection_durable_witness :
  log_recover (journalState (sample_collection 5)) =
    (documents (sample_collection 5), specs (indexes (sample_collection 5))) ∧
  len (documents (sample_collection 5)) = 1.
Proof.
  split; [|vm_compute; reflexivity].
  exact (proj1 (collection_durable log_journal log_recover (sample_collection 5) (sample_reachable 5))).
Defined.

(** C16: Opening a collection on what the journal of a reachable collection holds
    succeeds, and gives a collection with the same documents and indexes that
    answers every query as before. *)
Theorem reopen_correct {J : Type} (j : list JournalOperation → ST J exn ()) (recover : J → contents)
    `{!Recovers j recover} (c : InMemoryCollection J) :
  reachable j recover c →
  ∃ c', open recover (journalState c) = (Ok (), c') ∧
    documents c' = documents c ∧ listIndexes c' = listIndexes c ∧
    ∀ filter options, wf_value filter = true →
      find filter options c' = find filter options c ∧ findOne filter c' = findOne filter c.
Proof.
  intros Hc. destruct (reachable_sound j recover c Hc) as [v Hs].
  destruct (reopen_sound recover c v Hs) as (c' & E & [Hc2 _] & [= Ed Es] & _).
  destruct Hs as [Hc1 _]. exists c'. split; [done|]. split; [done|].
  split; [unfold listIndexes; by rewrite Es|]. intros filter options Hw.
  rewrite (find_spec _ c v), (find_spec _ c' v), (findOne_spec _ c v), (findOne_spec _ c' v) by done.
  done.
Qed.

Lemma reopen_correct_witness :
  ∃ c', open log_recover (journalState (sample_collection 4)) = (Ok (), c') ∧
    documents c' = documents (sample_collection 4) ∧ len (documents c') = 2.
Proof.
  destruct (reopen_correct log_journal log_recover (sample_collection 4) (sample_reachable 4))
    as (c' & E & Ed & _).
  exists c'. split; [exact E|]. split; [exact Ed|]. rewrite Ed. vm_compute. reflexivity.
Defined.

(** C17: Validating the indexes of a reachable collection finds nothing wrong
    with them. *)
Theorem validate_healthy {J : Type} (j : list JournalOperation → ST J exn ()) (recover : J → contents)
    `{!Recovers j recover} (c : InMemoryCollection J) :
  reachable j recover c →
  validateIndexes c = Ok {| valid := true; report_indexes := len (specs (indexes c));
                            report_documents := documentCount c; issues := [] |}.
Proof. intros Hc. destruct (reachable_sound j recover c Hc) as [v Hs]. by eapply sound_healthy. Qed.

Lemma validate_healthy_witness :
  validateIndexes (sample_collection 4) =
    Ok {| valid := true; report_indexes := len (specs (indexes (sample_collection 4)));
          report_documents := documentCount (sample_collection 4); issues := [] |}.
Proof. exact (validate_healthy log_journal log_recover (sample_collection 4) (sample_reachable 4)). Defined.

(** When generating an id throws in the middle of a batch, [insertMany] passes
    the error on without undoing what it did to the indexes: no document was
    inserted, but the index has an entry of the first one, and refuses it. *)
Lemma insertMany_phantom :
  let c := sample_collection 1 in
  let batch := InsertMany (Some [(sample_document 7, sample_id 1); (sample_document 8, Throw RangeError)]) in
  let c' := (run (Some log_journal) batch c).2 in
  (run (Some log_journal) batch c).1 = Throw RangeError ∧ documents c' = [] ∧
  (valid <$> validateIndexes c') = Ok false ∧
  (run (Some log_journal) (InsertOne (sample_document 7) (sample_id 2)) c').1 =
    Throw (StorageError DuplicateKey).
Proof. vm_compute. repeat split. Qed.
