(* ===== verification/WalFormat.v ===== *)
(** * The format of the write-ahead log

    packages/storage/src/wal/format.ts: the header of a segment, the records
    after it, and the scan that reads a record back and tells a log that was cut
    short from one that is damaged. [crc32] is that of node:zlib. *)

From S2P Require Import Prelude Errors JsNumber JsString JsValue Binary.

(** ** The checksum

    The CRC-32 of IEEE 802.3, bit by bit. *)
Definition crc_bit (c : Z) : Z :=
  if Z.odd c then Z.lxor (Z.shiftr c 1) 0xEDB88320 else Z.shiftr c 1.

Definition crc_byte (c b : Z) : Z := Nat.iter 8 crc_bit (Z.lxor c b).

Definition crc32 (bs : bytes) : Z := Z.lxor (fold_left crc_byte bs 0xFFFFFFFF) 0xFFFFFFFF.

Module WalFormat.
Definition WAL_FORMAT_VERSION : Z := 1.
Definition SEGMENT_MAGIC : bytes := [83; 73; 78; 84; 87; 65; 76; 0].
Definition SEGMENT_HEADER_SIZE : Z := 24.
Definition RECORD_HEADER_SIZE : Z := 21.
Definition MAX_RECORD_PAYLOAD_SIZE : Z := 256 * 1024 * 1024.

(** The reasons for refusing are texts; they are told apart here. *)
Inductive HeaderError := HeaderIncomplete | HeaderMagic | HeaderChecksum | HeaderVersion (version : Z).

Inductive SegmentHeaderResult :=
  | HeaderOk (firstLsn : Z)
  | HeaderBad (reason : HeaderError).

Inductive RecordScanResult :=
  | ScanRecord (lsn type : Z) (payload : bytes) (last : Z)
  | ScanEnd
  | ScanTorn
  | ScanCorrupt.

(** [buffer.writeBigUInt64BE]: a value outside 64 bits is refused. *)
Definition uint64 (z : Z) : result bytes :=
  if (0 <=? z) && (z <? 2 ^ 64) then Ok (be 8 z) else Throw RangeError.

(** [buffer.subarray(first, last)], and the readers of a [Buffer]. *)
Definition subarray (data : bytes) (first last : Z) : bytes :=
  take (Z.to_nat (last - first)) (drop (Z.to_nat first) data).

Definition readUInt32BE (data : bytes) (offset : Z) : Z := from_be (subarray data offset (offset + 4)).
Definition readBigUInt64BE (data : bytes) (offset : Z) : Z := from_be (subarray data offset (offset + 8)).
Definition readUInt8 (data : bytes) (offset : Z) : Z := from_be (subarray data offset (offset + 1)).

Definition encodeSegmentHeader (firstLsn : Z) : result bytes :=
  lsn ← uint64 firstLsn;
  let header := SEGMENT_MAGIC ++ be 4 WAL_FORMAT_VERSION ++ lsn in
  Ok (header ++ be 4 (crc32 header)).

Definition decodeSegmentHeader (data : bytes) : SegmentHeaderResult :=
  if len data <? SEGMENT_HEADER_SIZE then HeaderBad HeaderIncomplete
  else
    let header := subarray data 0 SEGMENT_HEADER_SIZE in
    if negb (bool_decide (subarray header 0 8 = SEGMENT_MAGIC)) then HeaderBad HeaderMagic
    else if negb (readUInt32BE header 20 =? crc32 (subarray header 0 20)) then HeaderBad HeaderChecksum
    else
      let version := readUInt32BE header 8 in
      if negb (version =? WAL_FORMAT_VERSION) then HeaderBad (HeaderVersion version)
      else HeaderOk (readBigUInt64BE header 12).

(** The record: the checksum of the next 13 bytes, the length of the payload,
    the sequence number, the type, the checksum of the payload, the payload. *)
Definition encodeRecord (lsn type : Z) (payload : bytes) : result bytes :=
  if (type <? 0) || (255 <? type) then Throw RangeError
  else if MAX_RECORD_PAYLOAD_SIZE <? len payload then Throw RangeError
  else
    lsn ← uint64 lsn;
    let header := be 4 (len payload) ++ lsn ++ be 1 type in
    Ok (be 4 (crc32 header) ++ header ++ be 4 (crc32 payload) ++ payload).

Definition isZeroFilled (data : bytes) (first last : Z) : bool :=
  forallb (λ b, b =? 0) (subarray data first last).

Definition scanRecord (data : bytes) (offset expectedLsn : Z) : RecordScanResult :=
  let size := len data in
  if offset =? size then ScanEnd
  else if size - offset <? RECORD_HEADER_SIZE then ScanTorn
  else if isZeroFilled data offset size then ScanTorn
  else if negb (readUInt32BE data offset =? crc32 (subarray data (offset + 4) (offset + 17)))
  then ScanCorrupt
  else
    let length := readUInt32BE data (offset + 4) in
    let lsn := readBigUInt64BE data (offset + 8) in
    let type := readUInt8 data (offset + 16) in
    if negb (lsn =? expectedLsn) then ScanCorrupt
    else if MAX_RECORD_PAYLOAD_SIZE <? length then ScanCorrupt
    else
      let last := offset + RECORD_HEADER_SIZE + length in
      if size <? last then ScanTorn
      else
        let payload := subarray data (offset + RECORD_HEADER_SIZE) last in
        if negb (readUInt32BE data (offset + 17) =? crc32 payload)
        then (if last =? size then ScanTorn else ScanCorrupt)
        else ScanRecord lsn type payload last.
End WalFormat.
Import WalFormat.

Example crc32_check : crc32 [49; 50; 51; 52; 53; 54; 55; 56; 57] = 0xCBF43926.
Proof. reflexivity. Qed.

(** ** The checksum is 32 bits *)
Lemma lxor_range n a b : 0 ≤ n → 0 ≤ a < 2 ^ n → 0 ≤ b < 2 ^ n → 0 ≤ Z.lxor a b < 2 ^ n.
Proof.
  intros Hn Ha Hb. assert (0 < 2 ^ n) by (apply Z.pow_pos_nonneg; lia).
  assert (Z.lxor a b = Z.lxor a b mod 2 ^ n) as ->; [|by apply Z.mod_pos_bound].
  apply Z.bits_inj'. intros i Hi. destruct (Z.ltb_spec i n).
  - by rewrite Z.mod_pow2_bits_low.
  - rewrite Z.mod_pow2_bits_high, Z.lxor_spec by lia.
    rewrite <- (Z.mod_small a (2 ^ n)), <- (Z.mod_small b (2 ^ n)) by done.
    by rewrite !Z.mod_pow2_bits_high by lia.
Qed.

Lemma crc_bit_range c : 0 ≤ c < 2 ^ 32 → 0 ≤ crc_bit c < 2 ^ 32.
Proof.
  intros Hc. assert (0 ≤ Z.shiftr c 1 < 2 ^ 32) as Hs.
  { rewrite Z.shiftr_div_pow2 by lia. change (2 ^ 1) with 2. split; [apply Z.div_pos; lia|].
    apply Z.div_lt_upper_bound; lia. }
  unfold crc_bit. destruct (Z.odd c); [|lia]. by apply lxor_range.
Qed.

Lemma crc32_range bs : Forall is_byte bs → 0 ≤ crc32 bs < 2 ^ 32.
Proof.
  intros Hb. apply lxor_range; [lia| |lia].
  assert (∀ c, 0 ≤ c < 2 ^ 32 → 0 ≤ fold_left crc_byte bs c < 2 ^ 32) as H; [|apply H; lia].
  induction Hb as [|b bs Hb _ IH]; intros c Hc; [done|]. cbn [fold_left]. apply IH.
  assert (0 ≤ Z.lxor c b < 2 ^ 32) as Hx by (apply lxor_range; unfold is_byte in Hb; lia).
  unfold crc_byte. revert Hx. generalize (Z.lxor c b). intros x Hx.
  repeat (apply crc_bit_range). exact Hx.
Qed.

(** ** Slices *)
Lemma subarray_length data a b :
  0 ≤ a ≤ b → b ≤ len data → len (subarray data a b) = b - a.
Proof. unfold subarray, len. intros. rewrite length_take, length_drop. lia. Qed.

Lemma subarray_app pre data a b :
  0 ≤ a → subarray (pre ++ data) (len pre + a) (len pre + b) = subarray data a b.
Proof.
  intros Ha. unfold subarray, len. replace (Z.of_nat (length pre) + b - _) with (b - a) by lia.
  rewrite Z2Nat.inj_add, Nat2Z.id by lia. by rewrite <- drop_drop, drop_app_length.
Qed.

(** A slice that begins where [x] does. *)
Lemma subarray_here x rest : subarray (x ++ rest) 0 (len x) = x.
Proof.
  unfold subarray, len. rewrite Z.sub_0_r, Nat2Z.id, drop_0. by rewrite take_app_length.
Qed.

Lemma subarray_at pre x rest a :
  a = len pre → subarray (pre ++ x ++ rest) a (a + len x) = x.
Proof.
  intros ->. replace (len pre) with (len pre + 0) at 1 by lia. rewrite subarray_app by lia.
  apply subarray_here.
Qed.

(** A number read where it was written. *)
Lemma read_at pre n z rest a w :
  a = len pre → w = Z.of_nat n → 0 ≤ z < 256 ^ w →
  from_be (subarray (pre ++ be n z ++ rest) a (a + w)) = z.
Proof.
  intros Ha -> Hz. assert (Z.of_nat n = len (be n z)) as En by (by rewrite be_len).
  rewrite En at 1. rewrite subarray_at by done. rewrite from_be_be. by apply Z.mod_small.
Qed.

(** ** The header of a segment *)
Lemma segment_header lsn header :
  encodeSegmentHeader lsn = Ok header →
  0 ≤ lsn < 2 ^ 64 ∧ len header = SEGMENT_HEADER_SIZE ∧ Forall is_byte header ∧
  ∀ rest, decodeSegmentHeader (header ++ rest) = HeaderOk lsn.
Proof.
  unfold encodeSegmentHeader, uint64. destruct ((0 <=? lsn) && (lsn <? 2 ^ 64)) eqn:E; [|done].
  cbn [mbind res_bind]. set (h := SEGMENT_MAGIC ++ be 4 WAL_FORMAT_VERSION ++ be 8 lsn). intros Heq.
  assert (header = h ++ be 4 (crc32 h)) as -> by congruence. clear Heq.
  assert (0 ≤ lsn < 2 ^ 64) as Hl by lia. clear E.
  assert (len h = 20) as Hh by (unfold h; rewrite !len_app, !be_len; done).
  assert (Forall is_byte h) as Hhb.
  { unfold h. rewrite !Forall_app. split; [by repeat constructor|]. split; apply be_bytes. }
  pose proof (crc32_range h Hhb) as Hc.
  split; [done|]. split; [by rewrite len_app, be_len, Hh|].
  split; [rewrite Forall_app; split; [done|apply be_bytes]|].
  intros rest. unfold decodeSegmentHeader.
  assert (len (h ++ be 4 (crc32 h)) = 24) as Hlen by (by rewrite len_app, be_len, Hh).
  pose proof (len_nonneg rest).
  destruct (Z.ltb_spec (len ((h ++ be 4 (crc32 h)) ++ rest)) SEGMENT_HEADER_SIZE) as [Hlt|_].
  { rewrite len_app, Hlen in Hlt. unfold SEGMENT_HEADER_SIZE in Hlt. lia. }
  assert (subarray ((h ++ be 4 (crc32 h)) ++ rest) 0 SEGMENT_HEADER_SIZE = h ++ be 4 (crc32 h)) as ->.
  { change SEGMENT_HEADER_SIZE with 24. rewrite <- Hlen. apply subarray_here. }
  assert (subarray (h ++ be 4 (crc32 h)) 0 8 = SEGMENT_MAGIC) as ->.
  { unfold h. rewrite <- app_assoc. change 8 with (len SEGMENT_MAGIC). apply subarray_here. }
  rewrite bool_decide_eq_true_2 by done. cbn [negb].
  assert (subarray (h ++ be 4 (crc32 h)) 0 20 = h) as -> by (rewrite <- Hh; apply subarray_here).
  unfold readUInt32BE at 1. rewrite <- (app_nil_r (be 4 _)).
  rewrite (read_at h 4 (crc32 h) [] 20 4) by done. rewrite Z.eqb_refl. cbn [negb].
  unfold readUInt32BE, readBigUInt64BE. rewrite app_nil_r. unfold h at 1. rewrite <- !app_assoc.
  rewrite (read_at SEGMENT_MAGIC 4 WAL_FORMAT_VERSION _ 8 4) by done. rewrite Z.eqb_refl. cbn [negb].
  unfold h at 1. rewrite <- !app_assoc. f_equal.
  rewrite (app_assoc SEGMENT_MAGIC). by rewrite (read_at _ 8 lsn _ 12 8).
Qed.

(** ** Records *)

(** A record that can be written, and its bytes. *)
Definition record_ok (lsn type : Z) (payload : bytes) : Prop :=
  0 ≤ lsn < 2 ^ 64 ∧ 0 ≤ type ≤ 255 ∧ len payload ≤ MAX_RECORD_PAYLOAD_SIZE ∧ Forall is_byte payload.

Definition record_body (lsn type : Z) (payload : bytes) : bytes :=
  be 4 (len payload) ++ be 8 lsn ++ be 1 type.

Definition record_head (lsn type : Z) (payload : bytes) : bytes :=
  be 4 (crc32 (record_body lsn type payload)) ++ record_body lsn type payload ++ be 4 (crc32 payload).

Definition record_bytes (lsn type : Z) (payload : bytes) : bytes :=
  record_head lsn type payload ++ payload.

Lemma encodeRecord_spec lsn type payload :
  Forall is_byte payload →
  match encodeRecord lsn type payload with
  | Ok bs => record_ok lsn type payload ∧ bs = record_bytes lsn type payload
  | Throw e => e = RangeError ∧ ¬ record_ok lsn type payload
  end.
Proof.
  intros Hb. unfold encodeRecord, record_ok, uint64.
  destruct ((type <? 0) || (255 <? type)) eqn:Et; [split; [done|]; intros (_ & Ht & _); lia|].
  destruct (Z.ltb_spec MAX_RECORD_PAYLOAD_SIZE (len payload)); [split; [done|]; intros (_ & _ & Hp & _); lia|].
  destruct ((0 <=? lsn) && (lsn <? 2 ^ 64)) eqn:El; cbn [mbind res_bind].
  - split; [split_and!; try done; lia|]. unfold record_bytes, record_head, record_body.
    by rewrite <- !app_assoc.
  - split; [done|]. intros (Hl & _). lia.
Qed.

Lemma record_body_len lsn type payload : len (record_body lsn type payload) = 13.
Proof. unfold record_body. by rewrite !len_app, !be_len. Qed.

Lemma record_body_bytes lsn type payload : Forall is_byte (record_body lsn type payload).
Proof. unfold record_body. rewrite !Forall_app. split_and!; apply be_bytes. Qed.

Lemma record_head_len lsn type payload : len (record_head lsn type payload) = RECORD_HEADER_SIZE.
Proof. unfold record_head. by rewrite !len_app, !be_len, record_body_len. Qed.

Lemma record_bytes_len lsn type payload :
  len (record_bytes lsn type payload) = RECORD_HEADER_SIZE + len payload.
Proof. unfold record_bytes. by rewrite len_app, record_head_len. Qed.

Lemma record_bytes_bytes lsn type payload :
  Forall is_byte payload → Forall is_byte (record_bytes lsn type payload).
Proof.
  intros Hp. unfold record_bytes, record_head. rewrite !Forall_app.
  split_and!; auto using be_bytes, record_body_bytes.
Qed.

Lemma read_app pre data a :
  0 ≤ a → readUInt32BE (pre ++ data) (len pre + a) = readUInt32BE data a ∧
  readBigUInt64BE (pre ++ data) (len pre + a) = readBigUInt64BE data a ∧
  readUInt8 (pre ++ data) (len pre + a) = readUInt8 data a.
Proof.
  intros Ha. unfold readUInt32BE, readBigUInt64BE, readUInt8. rewrite <- !Z.add_assoc.
  by rewrite !subarray_app.
Qed.

(** The scan looks only at what comes after [offset]. *)
Lemma scan_shift pre data expected :
  scanRecord (pre ++ data) (len pre) expected =
  match scanRecord data 0 expected with
  | ScanRecord lsn type payload last => ScanRecord lsn type payload (len pre + last)
  | r => r
  end.
Proof.
  unfold scanRecord. rewrite len_app.
  assert (∀ a, 0 ≤ a → readUInt32BE (pre ++ data) (len pre + a) = readUInt32BE data a) as R4
    by (intros; by apply read_app).
  assert (∀ a b, 0 ≤ a → subarray (pre ++ data) (len pre + a) (len pre + b) = subarray data a b) as Hs
    by (intros; by apply subarray_app).
  replace (len pre =? len pre + len data) with (0 =? len data) by (destruct (Z.eqb_spec 0 (len data)), (Z.eqb_spec (len pre) (len pre + len data)); lia).
  destruct (0 =? len data); [done|].
  replace (len pre + len data - len pre) with (len data - 0) by lia.
  destruct (len data - 0 <? RECORD_HEADER_SIZE); [done|].
  unfold isZeroFilled. replace (subarray (pre ++ data) (len pre) (len pre + len data)) with (subarray data 0 (len data))
    by (rewrite <- (Hs 0 (len data)) by lia; by rewrite Z.add_0_r).
  destruct (forallb _ _); [done|].
  replace (readUInt32BE (pre ++ data) (len pre)) with (readUInt32BE data 0)
    by (rewrite <- (R4 0) by lia; by rewrite Z.add_0_r).
  rewrite Hs by lia. destruct (negb (_ =? crc32 _)); [done|].
  rewrite !R4 by lia. destruct (read_app pre data 8 ltac:(lia)) as (_ & -> & _).
  destruct (read_app pre data 16 ltac:(lia)) as (_ & _ & ->).
  rewrite !Z.add_0_l. destruct (negb _); [done|]. destruct (_ <? _); [done|].
  rewrite <- Z.add_assoc. rewrite !Hs by (unfold RECORD_HEADER_SIZE; lia).
  set (last := RECORD_HEADER_SIZE + readUInt32BE data 4).
  replace (len pre + len data <? len pre + last) with (len data <? last)
    by (destruct (Z.ltb_spec (len data) last), (Z.ltb_spec (len pre + len data) (len pre + last)); lia).
  destruct (len data <? last); [done|].
  replace (len pre + last =? len pre + len data) with (last =? len data)
    by (destruct (Z.eqb_spec last (len data)), (Z.eqb_spec (len pre + last) (len pre + len data)); lia).
  destruct (negb _); [by destruct (_ =? _)|done].
Qed.

(** No record begins with zeros only: thirteen zeros have another checksum. *)
Lemma record_head_not_zero lsn type payload :
  forallb (λ b, b =? 0) (record_head lsn type payload) = false.
Proof.
  apply not_true_iff_false. unfold record_head. rewrite !forallb_app, !andb_true_iff.
  intros (Hc & Hb & _).
  assert (∀ l, forallb (λ b, b =? 0) l = true → l = repeat 0 (length l)) as Hz.
  { induction l as [|b l IH]; [done|]. cbn. intros [->%Z.eqb_eq Hl]%andb_true_iff. by rewrite <- IH. }
  pose proof (record_body_len lsn type payload) as Hl.
  pose proof (crc32_range _ (record_body_bytes lsn type payload)) as Hr.
  apply Hz in Hb. apply Hz in Hc. rewrite be_length in Hc.
  assert (length (record_body lsn type payload) = 13%nat) as El by (unfold len in Hl; lia).
  rewrite El in Hb. apply (f_equal from_be) in Hc. rewrite from_be_be, Hb in Hc. by vm_compute in Hc.
Qed.

Lemma isZeroFilled_all data : isZeroFilled data 0 (len data) = forallb (λ b, b =? 0) data.
Proof. unfold isZeroFilled. rewrite <- (app_nil_r data) at 1. by rewrite subarray_here. Qed.

(** What the scan makes of a whole header, whatever follows it. *)
Lemma scan_head lsn type payload tail :
  record_ok lsn type payload →
  scanRecord (record_head lsn type payload ++ tail) 0 lsn =
    if len tail <? len payload then ScanTorn
    else
      let found := take (length payload) tail in
      if crc32 payload =? crc32 found
      then ScanRecord lsn type found (RECORD_HEADER_SIZE + len payload)
      else if len payload =? len tail then ScanTorn else ScanCorrupt.
Proof.
  intros (Hl & Ht & Hp & Hpb). pose proof (record_head_len lsn type payload) as Hh.
  pose proof (crc32_range _ (record_body_bytes lsn type payload)) as Hc.
  pose proof (crc32_range _ Hpb) as Hcp. pose proof (len_nonneg payload) as Hpl.
  pose proof (len_nonneg tail) as Htl. pose proof (record_body_len lsn type payload) as Hbl.
  set (data := record_head lsn type payload ++ tail).
  assert (len data = RECORD_HEADER_SIZE + len tail) as Hd by (unfold data; by rewrite len_app, Hh).
  unfold RECORD_HEADER_SIZE, MAX_RECORD_PAYLOAD_SIZE in *.
  unfold scanRecord, RECORD_HEADER_SIZE, MAX_RECORD_PAYLOAD_SIZE. rewrite isZeroFilled_all, Hd.
  destruct (Z.eqb_spec 0 (21 + len tail)); [lia|].
  destruct (Z.ltb_spec (21 + len tail - 0) 21); [lia|].
  assert (forallb (λ b, b =? 0) data = false) as ->
    by (unfold data; by rewrite forallb_app, record_head_not_zero).
  assert (readUInt32BE data 0 = crc32 (record_body lsn type payload)) as ->.
  { unfold readUInt32BE, data, record_head. rewrite <- !app_assoc. by apply (read_at [] 4 _ _ 0 4). }
  assert (subarray data (0 + 4) (0 + 17) = record_body lsn type payload) as ->.
  { unfold data, record_head. rewrite <- !app_assoc. change (0 + 17) with (4 + 13). rewrite <- Hbl.
    by apply subarray_at. }
  rewrite Z.eqb_refl. cbn [negb].
  assert (readBigUInt64BE data (0 + 8) = lsn) as ->.
  { unfold readBigUInt64BE, data, record_head, record_body. rewrite <- !app_assoc.
    rewrite (app_assoc (be 4 _)). by apply (read_at _ 8 lsn _ 8 8). }
  assert (readUInt32BE data (0 + 4) = len payload) as ->.
  { unfold readUInt32BE, data, record_head, record_body. rewrite <- !app_assoc.
    apply (read_at _ 4 (len payload) _ 4 4); [done|done|]. lia. }
  assert (readUInt8 data (0 + 16) = type) as ->.
  { unfold readUInt8, data, record_head, record_body. rewrite <- !app_assoc.
    rewrite (app_assoc (be 4 _)), (app_assoc (be 4 _ ++ _)).
    apply (read_at _ 1 type _ 16 1); [done|done|lia]. }
  assert (readUInt32BE data (0 + 17) = crc32 payload) as ->.
  { unfold readUInt32BE, data, record_head. rewrite <- !app_assoc. rewrite (app_assoc (be 4 _)).
    apply (read_at _ 4 _ _ 17 4); [by rewrite len_app, be_len, Hbl|done|done]. }
  rewrite Z.eqb_refl. cbn [negb]. destruct (Z.ltb_spec (256 * 1024 * 1024) (len payload)); [lia|].
  rewrite !Z.add_0_l.
  replace (21 + len tail <? 21 + len payload) with (len tail <? len payload)
    by (destruct (Z.ltb_spec (len tail) (len payload)), (Z.ltb_spec (21 + len tail) (21 + len payload)); lia).
  destruct (Z.ltb_spec (len tail) (len payload)) as [|Hle]; [done|].
  assert (subarray data 21 (21 + len payload) = take (length payload) tail) as ->.
  { unfold subarray, data. replace (21 + len payload - 21) with (len payload) by lia.
    assert (Z.to_nat 21 = length (record_head lsn type payload)) as -> by (unfold len in Hh; lia).
    rewrite drop_app_length. unfold len. by rewrite Nat2Z.id. }
  replace (21 + len payload =? 21 + len tail) with (len payload =? len tail)
    by (destruct (Z.eqb_spec (len payload) (len tail)), (Z.eqb_spec (21 + len payload) (21 + len tail)); lia).
  cbv zeta. by destruct (_ =? crc32 _).
Qed.

(** A record is read back, whatever comes before and after it. *)
Lemma scan_record pre lsn type payload rest :
  record_ok lsn type payload →
  scanRecord (pre ++ record_bytes lsn type payload ++ rest) (len pre) lsn =
    ScanRecord lsn type payload (len pre + len (record_bytes lsn type payload)).
Proof.
  intros Hok. rewrite scan_shift. unfold record_bytes at 1. rewrite <- app_assoc.
  rewrite scan_head by done. pose proof (len_nonneg rest). rewrite len_app.
  destruct (Z.ltb_spec (len payload + len rest) (len payload)); [lia|].
  rewrite take_app_length. cbv zeta. by rewrite Z.eqb_refl, record_bytes_len.
Qed.

Lemma scan_end pre expected : scanRecord pre (len pre) expected = ScanEnd.
Proof. unfold scanRecord. by rewrite Z.eqb_refl. Qed.

Lemma scan_short pre tail expected :
  0 < len tail < RECORD_HEADER_SIZE → scanRecord (pre ++ tail) (len pre) expected = ScanTorn.
Proof.
  intros Ht. unfold scanRecord. rewrite len_app.
  destruct (Z.eqb_spec (len pre) (len pre + len tail)); [lia|].
  by destruct (Z.ltb_spec (len pre + len tail - len pre) RECORD_HEADER_SIZE); [|lia].
Qed.

(** A record that was cut short ends the log. *)
Lemma scan_cut pre lsn type payload n :
  record_ok lsn type payload → (n < length (record_bytes lsn type payload))%nat →
  scanRecord (pre ++ take n (record_bytes lsn type payload)) (len pre) lsn =
    if (n =? 0)%nat then ScanEnd else ScanTorn.
Proof.
  intros Hok Hn. destruct (Nat.eqb_spec n 0) as [->|Hn0].
  { rewrite take_0, app_nil_r. apply scan_end. }
  pose proof (record_head_len lsn type payload) as Hh. pose proof (record_bytes_len lsn type payload) as Hb.
  set (h := record_head lsn type payload) in *.
  destruct (Z.ltb_spec (Z.of_nat n) RECORD_HEADER_SIZE) as [Hlt|Hge].
  - apply scan_short. unfold len. rewrite length_take. lia.
  - rewrite scan_shift. unfold record_bytes. fold h. rewrite take_app_ge by (unfold len in Hh; lia).
    unfold h. rewrite scan_head by done.
    assert (len (take (n - length h) payload) < len payload) as Hlt.
    { unfold len in *. rewrite length_take. lia. }
    unfold h in Hlt. destruct (Z.ltb_spec (len (take (n - length (record_head lsn type payload)) payload)) (len payload)); [done|lia].
Qed.

(** Zeros that were never written end the log. *)
Lemma scan_zeros pre n expected :
  n ≠ O → scanRecord (pre ++ repeat 0 n) (len pre) expected = ScanTorn.
Proof.
  intros Hn. destruct (Z.ltb_spec (Z.of_nat n) RECORD_HEADER_SIZE) as [Hlt|Hge].
  { apply scan_short. unfold len. rewrite repeat_length. lia. }
  rewrite scan_shift. unfold scanRecord.
  assert (len (repeat 0 n) = Z.of_nat n) as El by (unfold len; by rewrite repeat_length).
  rewrite El. destruct (Z.eqb_spec 0 (Z.of_nat n)); [lia|].
  destruct (Z.ltb_spec (Z.of_nat n - 0) RECORD_HEADER_SIZE); [lia|].
  rewrite <- El, isZeroFilled_all. assert (forallb (λ b, b =? 0) (repeat 0 n) = true) as ->; [|done].
  clear. induction n; [done|]. exact IHn.
Qed.

Lemma split_len {A} (l : list A) n :
  0 ≤ n ≤ len l → ∃ a b, l = a ++ b ∧ len a = n.
Proof.
  intros Hn. exists (take (Z.to_nat n) l), (drop (Z.to_nat n) l). rewrite take_drop. split; [done|].
  unfold len in *. rewrite length_take. lia.
Qed.

Lemma read_slice data x pre rest a w n :
  data = pre ++ x ++ rest → a = len pre → w = len x → Forall is_byte x → n = length x →
  be n (from_be (subarray data a (a + w))) = x ∧ 0 ≤ from_be (subarray data a (a + w)) < 256 ^ w.
Proof.
  intros -> -> -> Hx ->. rewrite subarray_at by done. split; [by apply be_from_be|by apply from_be_range].
Qed.

(** An accepted record is the encoding of what was read, byte for byte. *)
Lemma scan_inv data expected lsn type payload last :
  Forall is_byte data → 0 ≤ expected →
  scanRecord data 0 expected = ScanRecord lsn type payload last →
  lsn = expected ∧ record_ok lsn type payload ∧ last = len (record_bytes lsn type payload) ∧
  ∃ rest, data = record_bytes lsn type payload ++ rest.
Proof.
  intros Hb Hex. unfold scanRecord. destruct (_ =? _); [done|].
  destruct (Z.ltb_spec (len data - 0) RECORD_HEADER_SIZE) as [|Hsize]; [done|].
  unfold RECORD_HEADER_SIZE in Hsize. destruct (isZeroFilled _ _ _); [done|].
  destruct (split_len data 4) as (c & d1 & -> & Hc); [lia|]. rewrite len_app in Hsize.
  destruct (split_len d1 4) as (l & d2 & -> & Hl); [lia|]. rewrite len_app in Hsize.
  destruct (split_len d2 8) as (n & d3 & -> & Hn); [lia|]. rewrite len_app in Hsize.
  destruct (split_len d3 1) as (t & d4 & -> & Ht); [lia|]. rewrite len_app in Hsize.
  destruct (split_len d4 4) as (p & d5 & -> & Hp); [lia|].
  rewrite !Forall_app in Hb. destruct Hb as (Bc & Bl & Bn & Bt & Bp & Bd).
  set (data := c ++ l ++ n ++ t ++ p ++ d5).
  assert (subarray data (0 + 4) (0 + 17) = l ++ n ++ t) as Ebody.
  { unfold data. replace (c ++ l ++ n ++ t ++ p ++ d5) with (c ++ (l ++ n ++ t) ++ p ++ d5)
      by (by rewrite <- !app_assoc).
    replace (0 + 17) with (0 + 4 + len (l ++ n ++ t)) by (rewrite !len_app; lia).
    apply subarray_at. lia. }
  assert (∀ x : bytes, len x = 4 → length x = 4%nat) as E4 by (unfold len; lia).
  assert (∀ x pre rest a w n, data = pre ++ x ++ rest → a = len pre → w = len x → Forall is_byte x →
    n = length x → be n (from_be (subarray data a (a + w))) = x ∧
    0 ≤ from_be (subarray data a (a + w)) < 256 ^ w) as Hread by (intros; by eapply read_slice).
  destruct (Hread c [] (l ++ n ++ t ++ p ++ d5) 0 4 4%nat) as [Rc _]; [done..|by rewrite E4|].
  destruct (Hread l c (n ++ t ++ p ++ d5) (0 + 4) 4 4%nat) as [Rl Rl']; [done|lia|lia|done|by rewrite E4|].
  destruct (Hread n (c ++ l) (t ++ p ++ d5) (0 + 8) 8 8%nat) as [Rn Rn'];
    [by rewrite <- !app_assoc|rewrite len_app; lia|lia|done|unfold len in Hn; lia|].
  destruct (Hread t (c ++ l ++ n) (p ++ d5) (0 + 16) 1 1%nat) as [Rt Rt'];
    [by rewrite <- !app_assoc|rewrite !len_app; lia|lia|done|unfold len in Ht; lia|].
  destruct (Hread p (c ++ l ++ n ++ t) d5 (0 + 17) 4 4%nat) as [Rp _];
    [by rewrite <- !app_assoc|rewrite !len_app; lia|lia|done|by rewrite E4|].
  rewrite Ebody.
  unfold readUInt32BE, readBigUInt64BE, readUInt8.
  set (vc := from_be (subarray data 0 (0 + 4))) in *. set (vl := from_be (subarray data (0 + 4) (0 + 4 + 4))) in *.
  set (vn := from_be (subarray data (0 + 8) (0 + 8 + 8))) in *. set (vt := from_be (subarray data (0 + 16) (0 + 16 + 1))) in *.
  set (vp := from_be (subarray data (0 + 17) (0 + 17 + 4))) in *.
  destruct (Z.eqb_spec vc (crc32 (l ++ n ++ t))) as [Ec|]; [|done]. cbn [negb].
  destruct (Z.eqb_spec vn expected) as [En|]; [|done]. cbn [negb].
  destruct (Z.ltb_spec MAX_RECORD_PAYLOAD_SIZE vl) as [|Hmax]; [done|].
  destruct (Z.ltb_spec (len data) (0 + RECORD_HEADER_SIZE + vl)) as [|Hfit]; [done|].
  unfold RECORD_HEADER_SIZE in *.
  assert (len data = 21 + len d5) as Ed by (unfold data; rewrite !len_app; lia).
  destruct (split_len d5 vl) as (pl & rest & -> & Hpl); [lia|].
  assert (subarray data (0 + 21) (0 + 21 + vl) = pl) as ->.
  { unfold data. rewrite <- Hpl.
    replace (c ++ l ++ n ++ t ++ p ++ pl ++ rest) with ((c ++ l ++ n ++ t ++ p) ++ pl ++ rest)
      by (by rewrite <- !app_assoc).
    apply subarray_at. rewrite !len_app. lia. }
  apply Forall_app in Bd as [Bpl _].
  destruct (Z.eqb_spec vp (crc32 pl)) as [Epc|]; cbn [negb]; [|by destruct (_ =? _)].
  intros [= <- <- <- <-]. split; [done|].
  assert (record_bytes vn vt pl = c ++ l ++ n ++ t ++ p ++ pl) as Erec.
  { unfold record_bytes, record_head, record_body. rewrite Hpl, Rl, Rn, Rt, <- Ec, Rc, <- Epc, Rp.
    by rewrite <- !app_assoc. }
  split; [unfold record_ok; rewrite Hpl; split_and!; (done || lia)|].
  split; [rewrite record_bytes_len; unfold RECORD_HEADER_SIZE; lia|].
  exists rest. unfold data. rewrite Erec. by rewrite <- !app_assoc.
Qed.
