(* ===== verification/Disk.v ===== *)
(** * Files

    What the code uses of node:fs: the files of the disk by directory and name,
    their bytes, and how many of the bytes are on stable storage. The operating
    system is a parameter: [os] decides of every call, in the order they are
    made, whether it succeeds, writes only a part, or fails and with what error.
    A call that fails changes nothing; what was written before it stays. *)

From S2P Require Import Prelude Errors JsNumber JsString.

(** [join(directory, name)]. *)
Abbreviation path := (jsstring * jsstring)%type.

Record File := {
  contents : bytes;
  flushed : Z;
}.

Inductive Call :=
  | Mkdir (directory : jsstring)
  | Readdir (directory : jsstring)
  | ReadFile (file : path)
  | Stat (file : path)
  | Open (file : path)
  | Create (file : path)
  | OpenWrite (file : path)
  | Write (file : path)
  | Fsync (file : path)
  | Truncate (file : path)
  | Close (file : path)
  | Unlink (file : path)
  | Rename (from to : path)
  | OpenDirectory (directory : jsstring)
  | FsyncDirectory (directory : jsstring)
  | CloseDirectory (directory : jsstring).

Inductive Outcome :=
  | Done
  | Short (count : Z)
  | Fails (code : Errno).

Record Disk := {
  files : list (path * File);
  calls : Z;
}.

Section Calls.
Context (os : Z → Call → Outcome).

Definition set_files (d : Disk) (files : list (path * File)) : Disk :=
  {| files := files; calls := calls d |}.

(** One call: counted, then what the operating system makes of it. *)
Definition syscall {A} (call : Call) (act : Outcome → ST Disk exn A) : ST Disk exn A :=
  λ d, let d := {| files := files d; calls := calls d + 1 |} in
       match os (calls d) call with
       | Fails code => (Throw (SystemError code), d)
       | outcome => act outcome d
       end.

(** A call on a file that is there. *)
Definition on_file {A} (file : path) (act : File → A * File) : ST Disk exn A :=
  λ d, match omap_get (files d) file with
       | None => (Throw (SystemError ENOENT), d)
       | Some f => let (a, f) := act f in (Ok a, set_files d (omap_set (files d) file f))
       end.

Definition mkdirSync (directory : jsstring) : ST Disk exn () :=
  syscall (Mkdir directory) (λ _, mret ()).

Definition readdirSync (directory : jsstring) : ST Disk exn (list jsstring) :=
  syscall (Readdir directory) (λ _,
    st_get (λ d, omap (λ f : path * File, if decide (f.1.1 = directory) then Some f.1.2 else None) (files d))).

Definition readFileSync (file : path) : ST Disk exn bytes :=
  syscall (ReadFile file) (λ _, on_file file (λ f, (contents f, f))).

Definition statSize (file : path) : ST Disk exn Z :=
  syscall (Stat file) (λ _, on_file file (λ f, (len (contents f), f))).

(** [openSync(path, "r+")] and [openSync(path, "wx")]; a descriptor is the file. *)
Definition openSync (file : path) : ST Disk exn path :=
  syscall (Open file) (λ _, on_file file (λ f, (file, f))).

Definition createSync (file : path) : ST Disk exn path :=
  syscall (Create file) (λ _ d,
    if omap_has (files d) file then (Throw (SystemError EEXIST), d)
    else (Ok file, set_files d (omap_set (files d) file {| contents := []; flushed := 0 |}))).

(** [openSync(path, "w")]: the file is made, or emptied. *)
Definition openWriteSync (file : path) : ST Disk exn path :=
  syscall (OpenWrite file) (λ _ d,
    (Ok file, set_files d (omap_set (files d) file {| contents := []; flushed := 0 |}))).

(** Bytes written at a position, zeros before it if the file was shorter. *)
Definition write_at (f : File) (data : bytes) (position : Z) : File := {|
  contents :=
    take (Z.to_nat position) (contents f)
    ++ repeat 0 (Z.to_nat (position - len (contents f)))
    ++ data ++ drop (Z.to_nat (position + len data)) (contents f);
  flushed := Z.min (flushed f) position;
|}.

(** The number of bytes written: all, or fewer, but some. *)
Definition writeSync (file : path) (data : bytes) (position : Z) : ST Disk exn Z :=
  syscall (Write file) (λ outcome,
    let n := match outcome with
             | Short count => Z.min (Z.max 1 count) (len data)
             | _ => len data
             end in
    on_file file (λ f, (n, write_at f (take (Z.to_nat n) data) position))).

Definition fsyncSync (file : path) : ST Disk exn () :=
  syscall (Fsync file) (λ _, on_file file (λ f,
    ((), {| contents := contents f; flushed := len (contents f) |}))).

Definition ftruncateSync (file : path) (size : Z) : ST Disk exn () :=
  syscall (Truncate file) (λ _, on_file file (λ f,
    ((), {| contents := take (Z.to_nat size) (contents f)
                        ++ repeat 0 (Z.to_nat (size - len (contents f)));
            flushed := Z.min (flushed f) size |}))).

Definition closeSync (file : path) : ST Disk exn () := syscall (Close file) (λ _, mret ()).

Definition unlinkSync (file : path) : ST Disk exn () :=
  syscall (Unlink file) (λ _ d,
    if omap_has (files d) file then (Ok (), set_files d (omap_delete (files d) file))
    else (Throw (SystemError ENOENT), d)).

Definition renameSync (from to : path) : ST Disk exn () :=
  syscall (Rename from to) (λ _ d,
    match omap_get (files d) from with
    | None => (Throw (SystemError ENOENT), d)
    | Some f => (Ok (), set_files d (omap_set (omap_delete (files d) from) to f))
    end).

(** [try { m } finally { f }]: what [f] throws replaces the outcome of [m]. *)
Definition st_finally {S E A} (m : ST S E A) (f : ST S E ()) : ST S E A :=
  λ s, let (r, s) := m s in
       match f s with (Ok _, s) => (r, s) | (Throw e, s) => (Throw e, s) end.

(** ** Loops over these calls *)

(** [writeFully]: every turn writes some of what is left, so that as many turns
    as there are bytes are enough. *)
Fixpoint writeFully (fuel : nat) (file : path) (data : bytes) (position : Z) : ST Disk exn () :=
  match fuel, data with
  | _, [] => mret ()
  | O, _ => st_throw JsError
  | S fuel, _ =>
      n ← writeSync file data position;
      writeFully fuel file (drop (Z.to_nat n) data) (position + n)
  end.

(** [syncDirectory]; the errors of the operating systems on which a directory
    cannot be opened or flushed are left aside. *)
Definition syncDirectory (directory : jsstring) : ST Disk exn () :=
  opened ← st_catch
    (_ ← syscall (OpenDirectory directory) (λ _, mret ()); mret (inl ()))
    (λ error, mret (inr error));
  let handle (error : exn) : ST Disk exn () :=
    match errnoOf error with
    | Some code =>
        if bool_decide (code ∈ [EISDIR; EPERM; EINVAL]) then mret ()
        else st_throw (ioError error false)
    | None => st_throw (ioError error false)
    end in
  match opened with
  | inr error => handle error
  | inl _ =>
      st_finally
        (st_catch (syscall (FsyncDirectory directory) (λ _, mret ())) handle)
        (syscall (CloseDirectory directory) (λ _, mret ()))
  end.
End Calls.
