(* ===== verification/DiskLemmas.v ===== *)
(** * Files: what the calls do

    The outcome of every call and of the loops over them, for any behaviour of
    the operating system. *)

From S2P Require Import Prelude Errors JsNumber JsString Disk.

(** The bytes of a file, and how many are flushed. *)
Definition holds (d : Disk) (file : path) (c : bytes) (fl : Z) : Prop :=
  omap_get (files d) file = Some {| contents := c; flushed := fl |}.

(** Only [file] may have changed. *)
Record frame (file : path) (d d' : Disk) : Prop := {
  frame_keys : omap_keys (files d') = omap_keys (files d);
  frame_others : ∀ p, p ≠ file → omap_get (files d') p = omap_get (files d) p;
}.

Lemma frame_refl file d : frame file d d.
Proof. done. Qed.

Lemma frame_trans file d1 d2 d3 : frame file d1 d2 → frame file d2 d3 → frame file d1 d3.
Proof. intros [H1 H2] [H3 H4]. split; [congruence|]. intros p Hp. by rewrite H4, H2. Qed.

Lemma frame_same file d d' : files d' = files d → frame file d d'.
Proof. intros E. split; [by rewrite E|]. intros. by rewrite E. Qed.

Lemma frame_set file d f :
  is_Some (omap_get (files d) file) → frame file d (set_files d (omap_set (files d) file f)).
Proof.
  intros Hs. split; cbn [files set_files]; [by rewrite omap_set_keys_Some|].
  intros p Hp. by rewrite omap_get_set_ne.
Qed.

(** An error of the operating system. *)
Definition system_error (e : exn) : Prop := ∃ code, e = SystemError code.

Section Calls.
Context (os : Z → Call → Outcome).

Lemma syscall_outcome {A} call (act : Outcome → ST Disk exn A) d :
  let d1 := {| files := files d; calls := calls d + 1 |} in
  (∃ code, os (calls d + 1) call = Fails code ∧ syscall os call act d = (Throw (SystemError code), d1)) ∨
  (∃ o, (∀ code, o ≠ Fails code) ∧ syscall os call act d = act o d1).
Proof.
  intros d1. unfold syscall. cbn [calls]. destruct (os (calls d + 1) call) as [|n|code] eqn:E.
  - right. by exists Done.
  - right. by exists (Short n).
  - left. by exists code.
Qed.

Lemma on_file_get {A} file (act : File → A * File) d c fl :
  holds d file c fl →
  on_file file act d = (Ok (act {| contents := c; flushed := fl |}).1,
                        set_files d (omap_set (files d) file (act {| contents := c; flushed := fl |}).2)).
Proof. intros H. unfold on_file. rewrite H. by destruct (act _). Qed.

Lemma write_at_end c fl data :
  fl ≤ len c → write_at {| contents := c; flushed := fl |} data (len c) =
    {| contents := c ++ data; flushed := fl |}.
Proof.
  intros Hfl. pose proof (len_nonneg data). unfold write_at. cbn [contents flushed]. f_equal; [|lia].
  rewrite Z.sub_diag. cbn [Z.to_nat repeat app].
  rewrite take_ge by (unfold len; lia). rewrite (drop_ge c) by (unfold len in *; lia).
  by rewrite app_nil_r.
Qed.

Lemma writeFully_outcome fuel file data position d c fl :
  holds d file c fl → position = len c → fl ≤ len c → (length data ≤ fuel)%nat →
  match writeFully os fuel file data position d with
  | (Ok _, d') => frame file d d' ∧ holds d' file (c ++ data) fl
  | (Throw e, d') => system_error e ∧ frame file d d' ∧
      ∃ n, (n < length data)%nat ∧ holds d' file (c ++ take n data) fl
  end.
Proof.
  revert data position d c. induction fuel as [|fuel IH]; intros data position d c Hh -> Hfl Hl.
  { destruct data; [|cbn in Hl; lia]. cbn. by rewrite app_nil_r. }
  destruct data as [|b data]; [cbn; by rewrite app_nil_r|]. cbn [writeFully].
  set (l := b :: data) in *. unfold mbind, st_bind, writeSync.
  match goal with |- context [syscall os ?call ?act d] =>
    destruct (syscall_outcome call act d) as [(code & _ & ->)|(o & Ho & ->)] end.
  { split; [by eexists|]. split; [done|]. exists O. split; [cbn; lia|]. by rewrite take_0, app_nil_r. }
  set (n := match o with Short count => Z.min (Z.max 1 count) (len l) | _ => len l end).
  assert (1 ≤ n ≤ len l) as Hn.
  { assert (1 ≤ len l) by (unfold l, len; cbn; lia). unfold n. destruct o; lia. }
  set (d1 := {| files := files d; calls := calls d + 1 |}).
  rewrite (on_file_get _ _ d1 c fl) by exact Hh. cbn [fst snd]. rewrite write_at_end by done.
  set (chunk := take (Z.to_nat n) l).
  assert (len chunk = n) as Hc by (unfold chunk, len in *; rewrite length_take; lia).
  set (d2 := set_files d1 _).
  assert (holds d2 file (c ++ chunk) fl) as Hh2 by (unfold holds, d2; cbn; by rewrite omap_get_set).
  assert (frame file d d2) as Hf2.
  { eapply frame_trans; [by apply (frame_same _ d d1)|]. apply frame_set. unfold holds in Hh. cbn.
    by rewrite Hh. }
  specialize (IH (drop (Z.to_nat n) l) (len c + n) d2 (c ++ chunk) Hh2).
  assert (c ++ l = (c ++ chunk) ++ drop (Z.to_nat n) l) as El
    by (unfold chunk; by rewrite <- app_assoc, take_drop).
  destruct (writeFully os fuel file (drop (Z.to_nat n) l) (len c + n) d2) as [[u|e] d3].
  - destruct IH as [H1 H2]; [by rewrite len_app, Hc|rewrite len_app; pose proof (len_nonneg chunk); lia|
      rewrite length_drop; unfold len in Hn; lia|].
    split; [by eapply frame_trans|]. by rewrite El.
  - destruct IH as (He & H1 & k & Hk & H2); [by rewrite len_app, Hc|rewrite len_app; pose proof (len_nonneg chunk); lia|
      rewrite length_drop; unfold len in Hn; lia|].
    split; [done|]. split; [by eapply frame_trans|]. rewrite length_drop in Hk.
    exists (Z.to_nat n + k)%nat. split; [lia|]. rewrite <- app_assoc in H2.
    assert (take (Z.to_nat n + k) l = chunk ++ take k (drop (Z.to_nat n) l)) as ->; [|done].
    unfold chunk. rewrite <- (take_drop (Z.to_nat n) (take (Z.to_nat n + k) l)), take_take.
    rewrite take_drop_commute. f_equal. f_equal. lia.
Qed.

Lemma fsync_outcome file d c fl :
  holds d file c fl →
  match fsyncSync os file d with
  | (Ok _, d') => frame file d d' ∧ holds d' file c (len c)
  | (Throw e, d') => system_error e ∧ files d' = files d
  end.
Proof.
  intros Hh. unfold fsyncSync.
  match goal with |- context [syscall os ?call ?act d] =>
    destruct (syscall_outcome call act d) as [(code & _ & ->)|(o & Ho & ->)] end.
  { split; [by eexists|done]. }
  set (d1 := {| files := files d; calls := calls d + 1 |}).
  rewrite (on_file_get _ _ d1 c fl) by exact Hh. cbn [fst snd contents]. split.
  - eapply frame_trans; [by apply (frame_same _ d d1)|]. apply frame_set. unfold holds in Hh. cbn.
    by rewrite Hh.
  - unfold holds. cbn. by rewrite omap_get_set.
Qed.

Lemma truncate_outcome file size d c fl :
  holds d file c fl → 0 ≤ size ≤ len c →
  match ftruncateSync os file size d with
  | (Ok _, d') => frame file d d' ∧ holds d' file (take (Z.to_nat size) c) (Z.min fl size)
  | (Throw e, d') => system_error e ∧ files d' = files d
  end.
Proof.
  intros Hh Hs. unfold ftruncateSync.
  match goal with |- context [syscall os ?call ?act d] =>
    destruct (syscall_outcome call act d) as [(code & _ & ->)|(o & Ho & ->)] end.
  { split; [by eexists|done]. }
  set (d1 := {| files := files d; calls := calls d + 1 |}).
  rewrite (on_file_get _ _ d1 c fl) by exact Hh. cbn [fst snd contents flushed]. split.
  - eapply frame_trans; [by apply (frame_same _ d d1)|]. apply frame_set. unfold holds in Hh. cbn.
    by rewrite Hh.
  - unfold holds. cbn. rewrite omap_get_set. replace (Z.to_nat (size - len c)) with O by lia.
    by rewrite app_nil_r.
Qed.

(** A call that only looks, or changes nothing that is modelled. *)
Lemma quiet_outcome {A} call (x : Disk → A) d :
  (∀ d', files d' = files d → x d' = x d) →
  match syscall os call (λ _, st_get x) d with
  | (Ok a, d') => a = x d ∧ files d' = files d
  | (Throw e, d') => system_error e ∧ files d' = files d
  end.
Proof.
  intros Hx. destruct (syscall_outcome call (λ _, st_get x) d) as [(code & _ & ->)|(o & Ho & ->)].
  - split; [by eexists|done].
  - cbn. by split; [apply Hx|].
Qed.

Lemma quiet_unit call d :
  match syscall os call (λ _, mret ()) d with
  | (Ok a, d') => files d' = files d
  | (Throw e, d') => system_error e ∧ files d' = files d
  end.
Proof.
  destruct (syscall_outcome call (λ _, mret ()) d) as [(code & _ & ->)|(o & Ho & ->)].
  - split; [by eexists|done].
  - done.
Qed.

Lemma set_same_get (d : Disk) file f :
  omap_get (files d) file = Some f → omap_set (files d) file f = files d.
Proof.
  generalize (files d). intros m. induction m as [|[k v] m IH]; [done|]. cbn.
  case_decide; [by intros [= ->]|]. intros H'. by rewrite IH.
Qed.

(** Reading something of a file. *)
Lemma look_outcome {A} call file (x : File → A) d c fl :
  holds d file c fl →
  match syscall os call (λ _, on_file file (λ f, (x f, f))) d with
  | (Ok a, d') => a = x {| contents := c; flushed := fl |} ∧ files d' = files d
  | (Throw e, d') => system_error e ∧ files d' = files d
  end.
Proof.
  intros Hh. destruct (syscall_outcome call (λ _, on_file file (λ f, (x f, f))) d) as [(code & _ & ->)|(o & Ho & ->)].
  - split; [by eexists|done].
  - set (d1 := {| files := files d; calls := calls d + 1 |}).
    rewrite (on_file_get _ _ d1 c fl) by exact Hh. cbn [fst snd]. split; [done|]. cbn [files set_files d1].
    by apply set_same_get.
Qed.

Lemma syncDirectory_outcome directory d :
  match syncDirectory os directory d with
  | (Ok _, d') => files d' = files d
  | (Throw e, d') => files d' = files d
  end.
Proof.
  unfold syncDirectory, st_catch, mbind, st_bind.
  pose proof (quiet_unit (OpenDirectory directory) d) as H1.
  destruct (syscall os (OpenDirectory directory) _ d) as [[u|e] d1]; cbn [mret st_ret].
  - pose proof (quiet_unit (FsyncDirectory directory) d1) as H2. unfold st_finally.
    destruct (syscall os (FsyncDirectory directory) _ d1) as [[u'|e] d2].
    + pose proof (quiet_unit (CloseDirectory directory) d2) as H3.
      destruct (syscall os (CloseDirectory directory) _ d2) as [[]]; destruct_and?; congruence.
    + destruct H2 as [_ H2].
      assert (∀ r : res exn () * Disk, r.2 = d2 →
        match (let (r, s) := r in match syscall os (CloseDirectory directory) (λ _, mret ()) s with
               | (Ok _, s) => (r, s) | (Throw e, s) => (Throw e, s) end) with
        | (Ok _, d') | (Throw _, d') => files d' = files d end) as Hfin.
      { intros [r s] E. cbn in E. subst s. pose proof (quiet_unit (CloseDirectory directory) d2) as H3.
        destruct (syscall os (CloseDirectory directory) _ d2) as [[] d3]; destruct_and?; [destruct r|]; congruence. }
      apply Hfin. destruct (errnoOf e) as [code|]; [|done]. by destruct (bool_decide _).
  - destruct H1 as [_ H1]. destruct (errnoOf e) as [code|]; [|done]. by destruct (bool_decide _).
Qed.

Lemma unlink_outcome file d :
  match unlinkSync os file d with
  | (Ok _, d') => files d' = omap_delete (files d) file
  | (Throw e, d') => system_error e ∧ files d' = files d
  end.
Proof.
  unfold unlinkSync.
  match goal with |- context [syscall os ?call ?act d] =>
    destruct (syscall_outcome call act d) as [(code & _ & ->)|(o & Ho & ->)] end.
  { split; [by eexists|done]. }
  cbn. destruct (omap_has (files d) file); cbn; [done|]. split; [by eexists|done].
Qed.
End Calls.
