(* ===== verification/WriteAheadLog.v ===== *)
(** * The write-ahead log

    packages/storage/src/wal/write-ahead-log.ts: records appended to the last of
    a list of segment files, kept in memory, written or flushed as the write
    concern asks; and the recovery that reads the segments when the log is opened
    and cuts off what a crash left half written. *)

From S2P Require Import Prelude Errors JsNumber JsString Binary WalFormat Disk.
Import WalFormat.

Module WriteAheadLog.
Inductive WriteConcern := Memory | Journaled | Flushed.

#[export] Instance WriteConcern_eq_dec : EqDecision WriteConcern.
Proof. solve_decision. Defined.

Definition DEFAULT_SEGMENT_SIZE_BYTES : Z := 64 * 1024 * 1024.
Definition MEMORY_FLUSH_BYTES : Z := 64 * 1024.

(** The options, checked by the types: [None] for [undefined]. *)
Record WriteAheadLogOptions := {
  opt_directory : jsstring;
  opt_writeConcern : option WriteConcern;
  opt_groupCommit : option bool;
  opt_segmentSizeBytes : option number;
}.

Record WalRecord := { lsn : Z; type : Z; payload : bytes }.

Record SegmentInfo := { segment_path : path; firstLsn : Z }.

Record WriteAheadLog := {
  directory : jsstring;
  mode : WriteConcern;
  groupCommit : bool;
  segmentSizeBytes : Z;
  segments : list SegmentInfo;
  fd : option path;
  position : Z;
  nextLsn : Z;
  pending : list bytes;
  pendingBytes : Z;
  unsynced : bool;
  broken : bool;
  closed : bool;
}.

(** ** The names of segments

    [firstLsn.toString().padStart(20, "0") + ".wal"], for numbers of 64 bits. *)
Fixpoint decimal (n : nat) (z : Z) : jsstring :=
  match n with
  | O => []
  | S n => decimal n (z / 10) ++ [48 + z mod 10]
  end.

Definition segment_name (firstLsn : Z) : jsstring := decimal 20 firstLsn ++ js ".wal".

(** [SEGMENT_NAME] and the number it captures. *)
Definition is_digit (unit : Z) : bool := (48 <=? unit) && (unit <=? 57).

Definition from_decimal (digits : jsstring) : Z :=
  fold_left (λ n unit, n * 10 + (unit - 48)) digits 0.

Definition segment_lsn (name : jsstring) : option Z :=
  let digits := take 20 name in
  if (len digits =? 20) && forallb is_digit digits && bool_decide (drop 20 name = js ".wal")
  then Some (from_decimal digits)
  else None.

(** ** Reading a segment *)
Inductive ScanStop := StopEnd | StopTorn | StopCorrupt | StopFuel.

(** The loop over [scanRecord] of [recoverSegments] and of [records]: the records,
    why it stopped, where, and the number expected there. Every record is some
    bytes long, so that as many turns as there are bytes are enough. *)
Fixpoint scan_loop (fuel : nat) (data : bytes) (offset expected : Z)
    : list WalRecord * ScanStop * Z * Z :=
  match fuel with
  | O => ([], StopFuel, offset, expected)
  | S fuel =>
      match scanRecord data offset expected with
      | ScanEnd => ([], StopEnd, offset, expected)
      | ScanTorn => ([], StopTorn, offset, expected)
      | ScanCorrupt => ([], StopCorrupt, offset, expected)
      | ScanRecord l t p last =>
          let '(records, stop, offset, expected) := scan_loop fuel data last (l + 1) in
          ({| lsn := l; type := t; payload := p |} :: records, stop, offset, expected)
      end
  end.

Definition scan_segment (data : bytes) (firstLsn : Z) : list WalRecord * ScanStop * Z * Z :=
  scan_loop (S (length data)) data SEGMENT_HEADER_SIZE firstLsn.

Definition corruption {A} : ST Disk exn A := st_throw (StorageError Corruption).

Definition isIncompleteHeader (data : bytes) : bool :=
  if len data <? SEGMENT_HEADER_SIZE then true else forallb (λ b, b =? 0) data.

Section Log.
Context (os : Z → Call → Outcome).

(** [catch (error) { throw ioError(...) }] around a call. *)
Definition or_ioError {A} (m : ST Disk exn A) (classify : bool) : ST Disk exn A :=
  st_catch m (λ error, st_throw (ioError error classify)).

Definition readSegment (file : path) : ST Disk exn bytes := or_ioError (readFileSync os file) true.

Record RecoveredSegments := {
  found : list SegmentInfo;
  validEnd : Z;
  lastLsn : Z;
}.

(** The body of the loop of [recoverSegments]; [None] for its [break]. *)
Definition recover_one (dir name : jsstring) (isLast : bool) (state : RecoveredSegments)
    : ST Disk exn (option RecoveredSegments) :=
  match segment_lsn name with
  | None => st_throw TypeError
  | Some nameLsn =>
      data ← readSegment (dir, name);
      match decodeSegmentHeader data with
      | HeaderBad _ =>
          if isLast && isIncompleteHeader data then
            _ ← unlinkSync os (dir, name);
            _ ← syncDirectory os dir;
            mret None
          else corruption
      | HeaderOk first =>
          if negb (first =? nameLsn) then corruption
          else if (0 <? len (found state)) && negb (first =? lastLsn state + 1) then corruption
          else
            let '(_, stop, offset, expected) := scan_segment data first in
            match stop with
            | StopFuel => st_throw JsError
            | StopCorrupt => corruption
            | StopTorn | StopEnd =>
                if (match stop with StopTorn => negb isLast | _ => false end) then corruption
                else mret (Some {|
                  found := found state ++ [{| segment_path := (dir, name); firstLsn := first |}];
                  validEnd := offset;
                  lastLsn := expected - 1 |})
            end
      end
  end.

Fixpoint recover_loop (dir : jsstring) (names : list jsstring) (state : RecoveredSegments)
    : ST Disk exn RecoveredSegments :=
  match names with
  | [] => mret state
  | name :: names =>
      next ← recover_one dir name (bool_decide (names = [])) state;
      match next with
      | None => mret state
      | Some state => recover_loop dir names state
      end
  end.

(** [readdirSync(directory).filter(...).sort()]. *)
Definition segment_names (names : list jsstring) : list jsstring :=
  sort_by (λ a b, sign_of (string_cmp a b))
    (List.filter (λ name, match segment_lsn name with Some _ => true | None => false end) names).

Definition recoverSegments (dir : jsstring) : ST Disk exn RecoveredSegments :=
  names ← or_ioError (readdirSync os dir) true;
  recover_loop dir (segment_names names) {| found := []; validEnd := SEGMENT_HEADER_SIZE; lastLsn := 0 |}.

Definition createSegment (dir : jsstring) (first : Z) (durable : bool)
    : ST Disk exn (SegmentInfo * path) :=
  let file := (dir, segment_name first) in
  opened ← st_catch (fd ← createSync os file; mret fd)
             (λ error, st_throw (translateIo error));
  st_catch
    (header ← st_lift (encodeSegmentHeader first);
     _ ← writeFully os (length header) opened header 0;
     _ ← (if durable then _ ← fsyncSync os opened; syncDirectory os dir else mret ());
     mret ({| segment_path := file; firstLsn := first |}, opened))
    (λ error,
      _ ← st_catch (_ ← closeSync os opened; unlinkSync os file) (λ _, mret ());
      st_throw (translateIo error)).

(** [WriteAheadLog.open]. *)
Definition open (options : WriteAheadLogOptions) : ST Disk exn WriteAheadLog :=
  let mode := default Flushed (opt_writeConcern options) in
  let size := default (number_of_Z DEFAULT_SEGMENT_SIZE_BYTES) (opt_segmentSizeBytes options) in
  let segmentSize := Z_of_number size in
  let group := default false (opt_groupCommit options) in
  let dir := opt_directory options in
  let log segments fd position nextLsn :=
    {| directory := dir; mode := mode; groupCommit := group; segmentSizeBytes := segmentSize;
       segments := segments; fd := Some fd; position := position; nextLsn := nextLsn;
       pending := []; pendingBytes := 0; unsynced := false; broken := false; closed := false |} in
  if group && negb (bool_decide (mode = Flushed)) then st_throw TypeError
  else if negb (isSafeInteger size) || (segmentSize <? SEGMENT_HEADER_SIZE + 64)
  then st_throw TypeError
  else
    _ ← or_ioError (mkdirSync os dir) true;
    recovered ← recoverSegments dir;
    match last (found recovered) with
    | None =>
        '(info, fd) ← createSegment dir 1 (bool_decide (mode = Flushed));
        mret (log [info] fd SEGMENT_HEADER_SIZE 1)
    | Some last =>
        fd ← or_ioError
          (fd ← openSync os (segment_path last);
           size ← statSize os (segment_path last);
           _ ← (if validEnd recovered <? size then
                  _ ← ftruncateSync os fd (validEnd recovered);
                  fsyncSync os fd
                else mret ());
           mret fd) true;
        mret (log (found recovered) fd (validEnd recovered) (lastLsn recovered + 1))
    end.

(** ** An open log: its fields, and the disk *)
Abbreviation action := (ST (Disk * WriteAheadLog) exn).

Definition on_disk {A} (m : ST Disk exn A) : action A :=
  λ s, let (r, d) := m s.1 in (r, (d, s.2)).

Definition update (f : WriteAheadLog → WriteAheadLog) : action () := st_update (λ s, (s.1, f s.2)).
Definition this {A} (f : WriteAheadLog → A) : action A := st_get (λ s, f s.2).

Definition set_broken (w : WriteAheadLog) : WriteAheadLog :=
  {| directory := directory w; mode := mode w; groupCommit := groupCommit w;
     segmentSizeBytes := segmentSizeBytes w; segments := segments w; fd := fd w;
     position := position w; nextLsn := nextLsn w; pending := pending w;
     pendingBytes := pendingBytes w; unsynced := unsynced w; broken := true; closed := closed w |}.

Definition set_unsynced (b : bool) (w : WriteAheadLog) : WriteAheadLog :=
  {| directory := directory w; mode := mode w; groupCommit := groupCommit w;
     segmentSizeBytes := segmentSizeBytes w; segments := segments w; fd := fd w;
     position := position w; nextLsn := nextLsn w; pending := pending w;
     pendingBytes := pendingBytes w; unsynced := b; broken := broken w; closed := closed w |}.

Definition set_pending (p : list bytes) (n : Z) (w : WriteAheadLog) : WriteAheadLog :=
  {| directory := directory w; mode := mode w; groupCommit := groupCommit w;
     segmentSizeBytes := segmentSizeBytes w; segments := segments w; fd := fd w;
     position := position w; nextLsn := nextLsn w; pending := p;
     pendingBytes := n; unsynced := unsynced w; broken := broken w; closed := closed w |}.

Definition set_position (p next : Z) (w : WriteAheadLog) : WriteAheadLog :=
  {| directory := directory w; mode := mode w; groupCommit := groupCommit w;
     segmentSizeBytes := segmentSizeBytes w; segments := segments w; fd := fd w;
     position := p; nextLsn := next; pending := pending w;
     pendingBytes := pendingBytes w; unsynced := unsynced w; broken := broken w; closed := closed w |}.

Definition set_segments (l : list SegmentInfo) (f : option path) (p : Z) (w : WriteAheadLog)
    : WriteAheadLog :=
  {| directory := directory w; mode := mode w; groupCommit := groupCommit w;
     segmentSizeBytes := segmentSizeBytes w; segments := l; fd := f;
     position := p; nextLsn := nextLsn w; pending := pending w;
     pendingBytes := pendingBytes w; unsynced := unsynced w; broken := broken w; closed := closed w |}.

Definition set_closed (w : WriteAheadLog) : WriteAheadLog :=
  {| directory := directory w; mode := mode w; groupCommit := groupCommit w;
     segmentSizeBytes := segmentSizeBytes w; segments := segments w; fd := None;
     position := position w; nextLsn := nextLsn w; pending := pending w;
     pendingBytes := pendingBytes w; unsynced := unsynced w; broken := broken w; closed := true |}.

Definition hasUncommittedWrites (w : WriteAheadLog) : bool := unsynced w.
Definition pendingByteCount (w : WriteAheadLog) : Z := pendingBytes w.
Definition last_lsn (w : WriteAheadLog) : Z := nextLsn w - 1.
Definition first_lsn (w : WriteAheadLog) : option Z := firstLsn <$> head (segments w).
Definition segmentCount (w : WriteAheadLog) : Z := len (segments w).

Definition assertOpen : action () :=
  b ← this closed; if b : bool then st_throw (StorageError Closed) else mret ().

Definition assertWritable : action () :=
  _ ← assertOpen;
  b ← this broken; if b : bool then st_throw (StorageError Io) else mret ().

(** The descriptor, a number while the log is open. *)
Definition descriptor : action path :=
  f ← this fd; match f with Some file => mret file | None => st_throw TypeError end.

(** [abandonWrite]: the error to throw. *)
Definition abandonWrite (error : exn) (goodEnd : Z) : action exn :=
  if isDiskFull error then
    st_catch
      (file ← descriptor; _ ← on_disk (ftruncateSync os file goodEnd); mret (ioError error true))
      (λ _, _ ← update set_broken; mret (ioError error true))
  else
    _ ← update set_broken;
    mret (ioError error true).

(** An [fsyncSync] of the log whose failure breaks it. *)
Definition fsync_or_break : action () :=
  st_catch (file ← descriptor; on_disk (fsyncSync os file))
    (λ error, _ ← update set_broken; st_throw (ioError error false)).

Definition flush : action () :=
  _ ← assertWritable;
  n ← this pendingBytes;
  if n =? 0 then mret ()
  else
    data ← this (λ w, concat (pending w));
    p ← this position;
    _ ← st_catch (file ← descriptor; on_disk (writeFully os (length data) file data (p - n)))
          (λ error, e ← abandonWrite error (p - n); st_throw e);
    update (set_pending [] 0).

Definition commit : action () :=
  skip ← this (λ w, negb (unsynced w) || closed w);
  if skip : bool then mret ()
  else
    _ ← assertWritable;
    _ ← fsync_or_break;
    update (set_unsynced false).

Definition sync : action () :=
  _ ← flush;
  st_catch
    (file ← descriptor;
     _ ← on_disk (fsyncSync os file);
     update (set_unsynced false))
    (λ error, _ ← update set_broken; st_throw (ioError error false)).

Definition rotate : action () :=
  durable ← this (λ w, bool_decide (mode w = Flushed));
  _ ← flush;
  _ ← (if durable : bool then _ ← fsync_or_break; update (set_unsynced false) else mret ());
  w ← this (λ w, w);
  '(info, file) ← on_disk (createSegment (directory w) (nextLsn w) durable);
  previous ← descriptor;
  _ ← update (λ w, set_segments (segments w ++ [info]) (Some file) SEGMENT_HEADER_SIZE w);
  st_catch (on_disk (closeSync os previous))
    (λ error, _ ← update set_broken; st_throw (ioError error false)).

Definition append (type : Z) (payload : bytes) : action Z :=
  _ ← assertWritable;
  lsn ← this nextLsn;
  record ← st_lift (encodeRecord lsn type payload);
  w ← this (λ w, w);
  _ ← (if (SEGMENT_HEADER_SIZE <? position w) && (segmentSizeBytes w <? position w + len record)
       then rotate else mret ());
  w ← this (λ w, w);
  if bool_decide (mode w = Memory) then
    _ ← update (λ w, set_position (position w + len record) (lsn + 1)
                       (set_pending (pending w ++ [record]) (pendingBytes w + len record) w));
    n ← this pendingBytes;
    _ ← (if MEMORY_FLUSH_BYTES <=? n then
           st_catch flush (λ error,
             b ← this broken;
             _ ← (if b : bool then mret ()
                  else update (λ w, set_position (position w - len record) lsn
                                      (set_pending (removelast (pending w)) (pendingBytes w - len record) w)));
             st_throw error)
         else mret ());
    mret lsn
  else
    _ ← st_catch (file ← descriptor; on_disk (writeFully os (length record) file record (position w)))
          (λ error, e ← abandonWrite error (position w); st_throw e);
    _ ← (if bool_decide (mode w = Flushed) then
           if groupCommit w then update (set_unsynced true) else fsync_or_break
         else mret ());
    _ ← update (λ w, set_position (position w + len record) (lsn + 1) w);
    mret lsn.

(** [records(afterLsn)], to its end: the body of the loop over the segments. *)
Definition read_one (afterLsn : Z) (segment : SegmentInfo) (next : option SegmentInfo)
    : ST Disk exn (list WalRecord) :=
  if (match next with Some next => firstLsn next <=? afterLsn + 1 | None => false end) then mret []
  else
    data ← readSegment (segment_path segment);
    match decodeSegmentHeader data with
    | HeaderOk first =>
        if negb (first =? firstLsn segment) then corruption
        else
          let '(records, stop, _, _) := scan_segment data (firstLsn segment) in
          match stop with
          | StopFuel => st_throw JsError
          | StopCorrupt => corruption
          | _ => mret (List.filter (λ r, afterLsn <? lsn r) records)
          end
    | HeaderBad _ => corruption
    end.

Fixpoint read_all (afterLsn : Z) (segments : list SegmentInfo) : ST Disk exn (list WalRecord) :=
  match segments with
  | [] => mret []
  | segment :: rest =>
      l ← read_one afterLsn segment (head rest);
      l' ← read_all afterLsn rest;
      mret (l ++ l')
  end.

Definition records (afterLsn : Z) : action (list WalRecord) :=
  _ ← assertOpen;
  b ← this broken;
  _ ← (if b : bool then mret () else flush);
  l ← this segments;
  on_disk (read_all afterLsn l).

(** [truncateThrough]: the loop over the segments, the number removed so far. *)
Fixpoint truncate_loop (fuel : nat) (lsn removed : Z) : action Z :=
  match fuel with
  | O => mret removed
  | S fuel =>
      l ← this segments;
      match l with
      | oldest :: ((next :: _) as rest) =>
          if lsn + 1 <? firstLsn next then mret removed
          else
            _ ← update (λ w, set_segments rest (fd w) (position w) w);
            _ ← st_catch (on_disk (unlinkSync os (segment_path oldest)))
                  (λ error,
                    _ ← update (λ w, set_segments (oldest :: segments w) (fd w) (position w) w);
                    st_throw (ioError error true));
            truncate_loop fuel lsn (removed + 1)
      | _ => mret removed
      end
  end.

Definition truncateThrough (lsn : Z) : action Z :=
  _ ← assertWritable;
  n ← this (λ w, length (segments w));
  removed ← truncate_loop n lsn 0;
  w ← this (λ w, w);
  _ ← (if (0 <? removed) && bool_decide (mode w = Flushed)
       then on_disk (syncDirectory os (directory w)) else mret ());
  mret removed.

Definition close : action () :=
  b ← this closed;
  if b : bool then mret ()
  else
    b ← this broken;
    pendingError ←
      (if b : bool then mret None
       else st_catch (_ ← flush; _ ← commit; mret None) (λ error, mret (Some error)));
    file ← this fd;
    _ ← update set_closed;
    _ ← (match file with
         | Some file => on_disk (or_ioError (closeSync os file) true)
         | None => mret ()
         end);
    match pendingError with Some error => st_throw error | None => mret () end.
End Log.
End WriteAheadLog.
