(* ===== verification/WalLemmas.v ===== *)
(** * The write-ahead log: segments

    What scanning a segment finds, whole or cut short, and the names of the
    segment files. *)

From S2P Require Import Prelude Errors JsNumber JsString Binary WalFormat Disk WriteAheadLog.
Import WalFormat WriteAheadLog.

(** ** Records in a row *)

(** The type and the payload of a record; its number is its place. *)
Abbreviation entry := (Z * bytes)%type.

Fixpoint enc_records (first : Z) (l : list entry) : bytes :=
  match l with
  | [] => []
  | (t, p) :: l => record_bytes first t p ++ enc_records (first + 1) l
  end.

Fixpoint numbered (first : Z) (l : list entry) : list WalRecord :=
  match l with
  | [] => []
  | (t, p) :: l => {| lsn := first; type := t; payload := p |} :: numbered (first + 1) l
  end.

Definition entry_ok (x : entry) : Prop :=
  0 ≤ x.1 ≤ 255 ∧ len x.2 ≤ MAX_RECORD_PAYLOAD_SIZE ∧ Forall is_byte x.2.

Definition entries_ok (first : Z) (l : list entry) : Prop :=
  0 ≤ first ∧ first + len l ≤ 2 ^ 64 ∧ Forall entry_ok l.

Lemma entries_ok_head first x l :
  entries_ok first (x :: l) ↔ 0 ≤ first ∧ record_ok first x.1 x.2 ∧ entries_ok (first + 1) l.
Proof.
  unfold entries_ok, record_ok, entry_ok. rewrite Forall_cons.
  change (x :: l) with ([x] ++ l). rewrite len_app. change (len [x]) with 1.
  pose proof (len_nonneg l). split; intros H'; destruct_and?; split_and!; try done; lia.
Qed.

Lemma entries_ok_app first l l' :
  entries_ok first (l ++ l') ↔ entries_ok first l ∧ entries_ok (first + len l) l'.
Proof.
  unfold entries_ok. rewrite Forall_app, len_app. pose proof (len_nonneg l). pose proof (len_nonneg l').
  split; intros H'; destruct_and?; split_and!; try done; lia.
Qed.

Lemma enc_records_app first l l' :
  enc_records first (l ++ l') = enc_records first l ++ enc_records (first + len l) l'.
Proof.
  revert first. induction l as [|[t p] l IH]; intros first.
  - by rewrite Z.add_0_r.
  - cbn [app enc_records]. rewrite IH, <- app_assoc. do 3 f_equal. unfold len. cbn [length]. lia.
Qed.

Lemma numbered_app first l l' :
  numbered first (l ++ l') = numbered first l ++ numbered (first + len l) l'.
Proof.
  revert first. induction l as [|[t p] l IH]; intros first.
  - by rewrite Z.add_0_r.
  - cbn [app numbered]. rewrite IH. do 3 f_equal. unfold len. cbn [length]. lia.
Qed.

Lemma numbered_inj first l l' : numbered first l = numbered first l' → l = l'.
Proof.
  revert first l'. induction l as [|[t p] l IH]; intros first [|[t' p'] l'] H; try done.
  cbn in H. injection H as -> -> H. f_equal. by eapply IH.
Qed.

Lemma enc_records_bytes first l : Forall entry_ok l → Forall is_byte (enc_records first l).
Proof.
  intros H. revert first. induction H as [|[t p] l (_ & _ & Hp) _ IH]; intros first; [constructor|].
  apply Forall_app. split; [by apply record_bytes_bytes|apply IH].
Qed.

(** How many whole records are in the first [n] bytes. *)
Fixpoint whole (l : list entry) (n : Z) : nat :=
  match l with
  | [] => O
  | x :: l => if RECORD_HEADER_SIZE + len x.2 <=? n then S (whole l (n - (RECORD_HEADER_SIZE + len x.2))) else O
  end.

Lemma whole_length l n : (whole l n ≤ length l)%nat.
Proof. revert n. induction l as [|x l IH]; intros n; [done|]. cbn. case_match; [specialize (IH (n - (RECORD_HEADER_SIZE + len x.2))); lia|lia]. Qed.

Lemma whole_app first l l' n :
  0 ≤ n → whole (l ++ l') (len (enc_records first l) + n) = (length l + whole l' n)%nat.
Proof.
  intros Hn. revert first. induction l as [|[t p] l IH]; intros first.
  - by rewrite Z.add_0_l.
  - cbn [app whole enc_records length snd]. rewrite len_app, record_bytes_len.
    pose proof (len_nonneg (enc_records (first + 1) l)).
    destruct (Z.leb_spec (RECORD_HEADER_SIZE + len p) (RECORD_HEADER_SIZE + len p + len (enc_records (first + 1) l) + n)); [|lia].
    replace (_ - _) with (len (enc_records (first + 1) l) + n) by lia. by rewrite IH.
Qed.

Lemma whole_0 l : whole l 0 = O.
Proof.
  destruct l as [|x l]; [done|]. cbn. pose proof (len_nonneg x.2). unfold RECORD_HEADER_SIZE.
  by destruct (Z.leb_spec (21 + len x.2) 0); [lia|].
Qed.

(** ** Scanning *)
Lemma readUInt32BE_nonneg data offset : Forall is_byte data → 0 ≤ readUInt32BE data offset.
Proof. intros H. apply from_be_range. unfold subarray. by apply Forall_take, Forall_drop. Qed.

Lemma scanRecord_next data offset expected l t p last :
  Forall is_byte data → scanRecord data offset expected = ScanRecord l t p last →
  offset < last ≤ len data ∧ l = expected.
Proof.
  intros Hb. unfold scanRecord. destruct (_ =? _); [done|]. destruct (_ <? _); [done|].
  destruct (isZeroFilled _ _ _); [done|]. destruct (negb _); [done|].
  destruct (Z.eqb_spec (readBigUInt64BE data (offset + 8)) expected) as [E|]; [|done]. cbn [negb].
  destruct (_ <? _); [done|]. pose proof (readUInt32BE_nonneg data (offset + 4) Hb).
  destruct (Z.ltb_spec (len data) (offset + RECORD_HEADER_SIZE + readUInt32BE data (offset + 4))) as [|Hle]; [done|].
  destruct (negb _); [by destruct (_ =? _)|]. intros [= <- <- <- <-]. split; [|done].
  unfold RECORD_HEADER_SIZE in *. lia.
Qed.

(** Enough fuel is enough. *)
Lemma scan_loop_fuel data fuel fuel' offset expected :
  Forall is_byte data → len data - offset < Z.of_nat fuel → len data - offset < Z.of_nat fuel' →
  offset ≤ len data →
  scan_loop fuel data offset expected = scan_loop fuel' data offset expected.
Proof.
  intros Hb. revert fuel' offset expected. induction fuel as [|fuel IH]; intros fuel' offset expected H1 H2 Ho; [lia|].
  destruct fuel' as [|fuel']; [lia|]. cbn [scan_loop].
  destruct (scanRecord data offset expected) as [l t p last| | |] eqn:E; [|done..].
  apply scanRecord_next in E as [Hlt _]; [|done]. by rewrite (IH fuel' last (l + 1)) by lia.
Qed.

Lemma scan_loop_stops data fuel offset expected :
  Forall is_byte data → len data - offset < Z.of_nat fuel → offset ≤ len data →
  (scan_loop fuel data offset expected).1.1.2 ≠ StopFuel.
Proof.
  intros Hb. revert offset expected. induction fuel as [|fuel IH]; intros offset expected H1 Ho; [lia|].
  cbn [scan_loop]. destruct (scanRecord data offset expected) as [l t p last| | |] eqn:E; [|done..].
  apply scanRecord_next in E as [Hlt _]; [|done]. specialize (IH last (l + 1)).
  destruct (scan_loop fuel data last (l + 1)) as [[[rs stop] off] ex]. apply IH; lia.
Qed.

(** Records, cut after [n] bytes: the whole ones are found, the rest is torn. *)
Lemma scan_prefix l : ∀ pre first n fuel,
  entries_ok first l → 0 ≤ n ≤ len (enc_records first l) → n < Z.of_nat fuel →
  ∃ stop, (stop = StopEnd ∨ stop = StopTorn) ∧ (n = len (enc_records first l) → stop = StopEnd) ∧
    scan_loop fuel (pre ++ take (Z.to_nat n) (enc_records first l)) (len pre) first =
      (numbered first (take (whole l n) l), stop,
       len pre + len (enc_records first (take (whole l n) l)), first + Z.of_nat (whole l n)).
Proof.
  induction l as [|[t p] l IH]; intros pre first n fuel Hok Hn Hf; (destruct fuel as [|fuel]; [lia|]).
  { exists StopEnd. split; [by left|]. split; [done|]. cbn [enc_records whole take numbered].
    rewrite take_nil, app_nil_r. cbn [scan_loop]. rewrite scan_end.
    by rewrite len_nil, !Z.add_0_r. }
  apply entries_ok_head in Hok as (Hf0 & Hr & Hok). cbn [fst snd] in Hr.
  cbn [enc_records whole snd scan_loop]. cbn [enc_records] in Hn. rewrite len_app in Hn.
  pose proof (record_bytes_len first t p) as Hrl. pose proof (len_nonneg p).
  destruct (Z.leb_spec (RECORD_HEADER_SIZE + len p) n) as [Hle|Hlt].
  - set (R := record_bytes first t p) in *. set (n' := n - (RECORD_HEADER_SIZE + len p)).
    assert (take (Z.to_nat n) (R ++ enc_records (first + 1) l) = R ++ take (Z.to_nat n') (enc_records (first + 1) l)) as ->.
    { rewrite take_app_ge by (unfold len in *; lia). do 2 f_equal. unfold n', len in *. lia. }
    pose proof (scan_record pre first t p (take (Z.to_nat n') (enc_records (first + 1) l)) Hr) as Hscan.
    fold R in Hscan. rewrite Hscan.
    destruct (IH (pre ++ R) (first + 1) n' fuel) as (stop & Hs & Hend & E); [done|lia|unfold RECORD_HEADER_SIZE in *; lia|].
    rewrite <- app_assoc in E. rewrite len_app in E. rewrite E. exists stop. split; [done|].
    split; [intros En; apply Hend; unfold n'; rewrite En, len_app; lia|].
    cbn [take numbered enc_records]. fold R. rewrite len_app.
    rewrite Z.add_assoc, Nat2Z.inj_succ. f_equal. lia.
  - exists (if (Z.to_nat n =? 0)%nat then StopEnd else StopTorn).
    split; [case_match; [by left|by right]|].
    split; [intros En; pose proof (len_nonneg (enc_records (first + 1) l)); rewrite En, len_app in Hlt; lia|].
    assert (take (Z.to_nat n) (record_bytes first t p ++ enc_records (first + 1) l) = take (Z.to_nat n) (record_bytes first t p)) as ->.
    { rewrite take_app_le; [done|]. unfold len in *. lia. }
    rewrite scan_cut by (done || (unfold len in *; lia)). cbn [take numbered enc_records].
    rewrite len_nil, !Z.add_0_r. by destruct (Z.to_nat n =? 0)%nat.
Qed.

(** ** Segments *)
Definition segment_header_of (first : Z) : bytes :=
  let header := SEGMENT_MAGIC ++ be 4 WAL_FORMAT_VERSION ++ be 8 first in
  header ++ be 4 (crc32 header).

Definition segment_bytes (first : Z) (l : list entry) : bytes :=
  segment_header_of first ++ enc_records first l.

#[global] Arguments segment_header_of : simpl never.
#[global] Arguments segment_bytes : simpl never.

Lemma encode_header first :
  0 ≤ first < 2 ^ 64 → encodeSegmentHeader first = Ok (segment_header_of first).
Proof.
  intros H. unfold encodeSegmentHeader, uint64.
  destruct (Z.leb_spec 0 first); [|lia]. by destruct (Z.ltb_spec first (2 ^ 64)); [|lia].
Qed.

Lemma header_of first :
  0 ≤ first < 2 ^ 64 → len (segment_header_of first) = SEGMENT_HEADER_SIZE ∧
  Forall is_byte (segment_header_of first) ∧
  ∀ rest, decodeSegmentHeader (segment_header_of first ++ rest) = HeaderOk first.
Proof.
  intros H. destruct (segment_header _ _ (encode_header first H)) as (_ & H1 & H2 & H3). done.
Qed.

(** What is found in a segment that ends in a cut record. *)
Lemma scan_segment_prefix first l n :
  entries_ok first l → first < 2 ^ 64 → 0 ≤ n ≤ len (enc_records first l) →
  ∃ stop, (stop = StopEnd ∨ stop = StopTorn) ∧ (n = len (enc_records first l) → stop = StopEnd) ∧
    scan_segment (segment_header_of first ++ take (Z.to_nat n) (enc_records first l)) first =
      (numbered first (take (whole l n) l), stop, len (segment_bytes first (take (whole l n) l)),
       first + Z.of_nat (whole l n)).
Proof.
  intros Hok Hf Hn. pose proof Hok as (H0 & _ & _).
  destruct (header_of first) as (Hl & _ & _); [lia|].
  unfold scan_segment. rewrite <- Hl.
  destruct (scan_prefix l (segment_header_of first) first n
    (S (length (segment_header_of first ++ take (Z.to_nat n) (enc_records first l)))) Hok Hn)
    as (stop & Hs & He & E).
  { unfold len in *. rewrite length_app, length_take. lia. }
  exists stop. split; [done|]. split; [done|]. rewrite E. unfold segment_bytes. by rewrite len_app.
Qed.

(** ** Names *)
Lemma decimal_length n z : length (decimal n z) = n.
Proof. revert z. induction n as [|n IH]; intros z; [done|]. cbn. rewrite length_app, IH. cbn. lia. Qed.

Lemma decimal_digits n z : forallb is_digit (decimal n z) = true.
Proof.
  revert z. induction n as [|n IH]; intros z; [done|]. cbn [decimal]. rewrite forallb_app, IH. cbn.
  unfold is_digit. pose proof (Z.mod_pos_bound z 10). lia.
Qed.

Lemma from_decimal_app digits unit :
  from_decimal (digits ++ [unit]) = from_decimal digits * 10 + (unit - 48).
Proof. unfold from_decimal. by rewrite fold_left_app. Qed.

Lemma from_decimal_decimal n z : from_decimal (decimal n z) = z mod 10 ^ Z.of_nat n.
Proof.
  revert z. induction n as [|n IH]; intros z; [by rewrite Z.mod_1_r|].
  cbn [decimal]. rewrite from_decimal_app, IH, Nat2Z.inj_succ, Z.pow_succ_r by lia.
  assert (0 < 10 ^ Z.of_nat n) by (apply Z.pow_pos_nonneg; lia).
  rewrite Z.rem_mul_r by lia. lia.
Qed.

Lemma decimal_from_decimal digits :
  forallb is_digit digits = true → decimal (length digits) (from_decimal digits) = digits.
Proof.
  induction digits as [|unit digits IH] using rev_ind; [done|].
  rewrite forallb_app, andb_true_iff. intros [Hd Hu]. cbn in Hu. unfold is_digit in Hu.
  rewrite length_app, Nat.add_comm. cbn [length Nat.add decimal]. rewrite from_decimal_app.
  rewrite Z.div_add_l by lia. rewrite (Z.div_small (unit - 48)), Z.add_0_r by lia.
  rewrite IH by done. f_equal. f_equal.
  rewrite <- (Z.mod_unique _ 10 (from_decimal digits) (unit - 48)) by lia. lia.
Qed.

Lemma segment_lsn_name z : 0 ≤ z < 10 ^ 20 → segment_lsn (segment_name z) = Some z.
Proof.
  intros Hz. unfold segment_lsn, segment_name. pose proof (decimal_length 20 z) as Hl.
  rewrite take_app_length', drop_app_length' by done. unfold len. rewrite Hl, decimal_digits.
  rewrite bool_decide_eq_true_2 by done. rewrite from_decimal_decimal.
  change (Z.of_nat 20) with 20. rewrite Z.mod_small by done. done.
Qed.

Lemma segment_name_lsn name z : segment_lsn name = Some z → name = segment_name z ∧ 0 ≤ z.
Proof.
  unfold segment_lsn, segment_name. destruct (_ && bool_decide _) eqn:E; [|done].
  rewrite !andb_true_iff, bool_decide_eq_true in E. destruct E as [[Hl%Z.eqb_eq Hd] Hs].
  intros [= Ez].
  assert (length (take 20 name) = 20%nat) as El by (unfold len in Hl; lia). split.
  - pose proof (decimal_from_decimal (take 20 name) Hd) as Hdec. rewrite El in Hdec.
    by rewrite <- Ez, Hdec, <- Hs, take_drop.
  - rewrite <- Ez. clear -Hd. induction (take 20 name) as [|u l IH] using rev_ind; [done|].
    rewrite forallb_app, andb_true_iff in Hd. destruct Hd as [Hd Hu]. cbn in Hu. unfold is_digit in Hu.
    rewrite from_decimal_app. specialize (IH Hd). lia.
Qed.

(** The order of the names is the order of the numbers. *)
Lemma lex_cmp_app a b c d :
  length a = length b →
  lex_cmp (a ++ c) (b ++ d) = match lex_cmp a b with Eq => lex_cmp c d | o => o end.
Proof.
  revert b. induction a as [|x a IH]; intros [|y b] Hl; try done. cbn in *.
  injection Hl as Hl. destruct (x ?= y); [by apply IH|done..].
Qed.

Lemma decimal_cmp n a b :
  0 ≤ a < 10 ^ Z.of_nat n → 0 ≤ b < 10 ^ Z.of_nat n →
  lex_cmp (decimal n a) (decimal n b) = (a ?= b).
Proof.
  revert a b. induction n as [|n IH]; intros a b Ha Hb.
  { cbn in *. symmetry. apply Z.compare_eq_iff. lia. }
  rewrite Nat2Z.inj_succ, Z.pow_succ_r in Ha, Hb by lia.
  pose proof (Z.div_mod a 10). pose proof (Z.div_mod b 10).
  pose proof (Z.mod_pos_bound a 10). pose proof (Z.mod_pos_bound b 10).
  cbn [decimal]. rewrite lex_cmp_app by (by rewrite !decimal_length). rewrite IH by lia.
  cbn [lex_cmp]. destruct (Z.compare_spec (a / 10) (b / 10)) as [E|Hlt|Hgt]; symmetry.
  - destruct (Z.compare_spec (48 + a mod 10) (48 + b mod 10)) as [E'|H'|H'].
    + apply Z.compare_eq_iff. lia.
    + apply Z.compare_lt_iff. lia.
    + apply Z.compare_gt_iff. lia.
  - apply Z.compare_lt_iff. lia.
  - apply Z.compare_gt_iff. lia.
Qed.

Lemma segment_name_cmp a b :
  0 ≤ a < 10 ^ 20 → 0 ≤ b < 10 ^ 20 → string_cmp (segment_name a) (segment_name b) = (a ?= b).
Proof.
  intros Ha Hb. unfold string_cmp, segment_name. rewrite lex_cmp_app by (by rewrite !decimal_length).
  rewrite decimal_cmp by done. rewrite lex_cmp_refl. by destruct (a ?= b).
Qed.

Lemma segment_name_inj a b :
  0 ≤ a < 10 ^ 20 → 0 ≤ b < 10 ^ 20 → segment_name a = segment_name b → a = b.
Proof.
  intros Ha Hb E. apply Z.compare_eq_iff. rewrite <- segment_name_cmp, E by done. apply lex_cmp_refl.
Qed.

(** Listing and sorting the directory finds the segments in order. *)
Lemma segment_names_sorted names firsts :
  NoDup names → StronglySorted Z.lt firsts → Forall (λ z, 0 ≤ z < 10 ^ 20) firsts →
  (∀ name, name ∈ names ∧ is_Some (segment_lsn name) ↔ name ∈ map segment_name firsts) →
  segment_names names = map segment_name firsts.
Proof.
  intros Hn Hs Hr Hin. unfold segment_names. rewrite Forall_forall in Hr.
  assert (StronglySorted (cmp_le (λ a b, sign_of (string_cmp a b))) (map segment_name firsts)) as Hsorted.
  { clear -Hs Hr. induction Hs as [|z l Hl IH Hz]; [constructor|]. cbn [map].
    constructor; [apply IH; intros x Hx; apply Hr; by right|].
    apply Forall_forall. intros name (y & -> & Hy)%list_elem_of_fmap. unfold cmp_le.
    rewrite segment_name_cmp by (apply Hr; by first [left|right]).
    pose proof (proj1 (Forall_forall (Z.lt z) l) Hz y Hy) as Hzy. apply Z.compare_lt_iff in Hzy.
    by rewrite Hzy. }
  assert (NoDup (map segment_name firsts)) as Hnf.
  { clear -Hs Hr. induction Hs as [|z l Hl IH Hz]; [constructor|]. cbn [map]. apply NoDup_cons.
    split; [|apply IH; intros x Hx; apply Hr; by right].
    intros (y & E & Hy)%list_elem_of_fmap. pose proof (proj1 (Forall_forall (Z.lt z) l) Hz y Hy) as Hzy.
    apply segment_name_inj in E; [lia|apply Hr; by left|apply Hr; by right]. }
  apply (sorted_unique (λ a b, sign_of (string_cmp a b))); [| |apply sort_by_sorted, lex_cmp_order|done].
  - rewrite sort_by_perm. apply NoDup_Permutation; [by apply NoDup_ListNoDup, List.NoDup_filter, NoDup_ListNoDup|done|].
    intros name. rewrite <- Hin, !list_elem_of_In, filter_In. split; intros [H1 H2]; split; try done.
    + by destruct (segment_lsn name).
    + by destruct H2 as [? ->].
  - intros x y _ _ E. apply lex_cmp_eq. unfold string_cmp in E. by destruct (lex_cmp x y).
Qed.

#[global] Opaque segment_header_of segment_name record_bytes.
