(* ===== verification/WalInvariant.v ===== *)
(** * The write-ahead log: its invariant

    What the segment files hold while a log is open: the records appended, the
    last of them perhaps still in memory, and after a failure perhaps a part of
    one more. Every operation keeps it so, whatever calls to the operating system
    fail, but for closing and removing a file. *)

From S2P Require Import Prelude Errors JsNumber JsString Binary WalFormat Disk DiskLemmas WriteAheadLog WalLemmas.
Import WalFormat WriteAheadLog.

(** The bytes of the records one by one. *)
Fixpoint enc_list (first : Z) (l : list entry) : list bytes :=
  match l with
  | [] => []
  | (t, p) :: l => record_bytes first t p :: enc_list (first + 1) l
  end.

Lemma enc_list_concat first l : concat (enc_list first l) = enc_records first l.
Proof. revert first. induction l as [|[t p] l IH]; intros first; [done|]. cbn. by rewrite IH. Qed.

Lemma enc_list_snoc first l t p :
  enc_list first (l ++ [(t, p)]) = enc_list first l ++ [record_bytes (first + len l) t p].
Proof.
  revert first. induction l as [|[t' p'] l IH]; intros first.
  - by rewrite Z.add_0_r.
  - cbn [app enc_list]. rewrite IH. do 3 f_equal. unfold len. cbn [length]. f_equal. lia.
Qed.

Lemma enc_list_length first l : length (enc_list first l) = length l.
Proof. revert first. induction l as [|[t p] l IH]; intros first; [done|]. cbn. by rewrite IH. Qed.

Lemma removelast_snoc {A} (l : list A) x : removelast (l ++ [x]) = l.
Proof. induction l as [|y l IH]; [done|]. cbn. rewrite IH. by destruct l. Qed.

(** Segments in a row, each but the last with a record at least. *)
Fixpoint chain (base : Z) (old : list (Z * list entry)) (first : Z) : Prop :=
  match old with
  | [] => base = first
  | (f, l) :: old => f = base ∧ l ≠ [] ∧ chain (base + len l) old first
  end.

Definition old_entries (old : list (Z * list entry)) : list entry := concat (map snd old).

Definition segment_file (dir : jsstring) (first : Z) : path := (dir, segment_name first).

(** A segment with all its records, as far as the file goes. *)
Definition whole_file (d : Disk) (dir : jsstring) (s : Z * list entry) : Prop :=
  ∃ fl, holds d (segment_file dir s.1) (segment_bytes s.1 s.2) fl ∧ fl ≤ len (segment_bytes s.1 s.2).

Lemma whole_file_mono d d' dir s :
  omap_get (files d') (segment_file dir s.1) = omap_get (files d) (segment_file dir s.1) →
  whole_file d dir s → whole_file d' dir s.
Proof. intros E (fl & Hs & Hfl). exists fl. unfold holds in *. by rewrite E. Qed.

(** The segments of a directory: [old] whole, the last with the records [written]
    and the first [n] bytes of the records [attempted]. *)
Record segments_hold (d : Disk) (dir : jsstring) (base : Z) (old : list (Z * list entry))
    (first : Z) (written attempted : list entry) (n : nat) (fl : Z) : Prop := {
  hold_names : NoDup (omap_keys (files d));
  hold_only : ∀ name, is_Some (omap_get (files d) (dir, name)) → is_Some (segment_lsn name) →
    name ∈ map segment_name (map fst old ++ [first]);
  hold_old : Forall (whole_file d dir) old;
  hold_active : holds d (segment_file dir first)
    (segment_bytes first written ++ take n (enc_records (first + len written) attempted)) fl;
  hold_flushed : fl ≤ len (segment_bytes first written ++ take n (enc_records (first + len written) attempted));
  hold_chain : chain base old first;
  hold_entries : entries_ok base (old_entries old ++ written ++ attempted);
  hold_first : first < 2 ^ 64;
}.

(** An open log: [waiting] are the records still in memory. Up to the number
    [durable] the records are on stable storage, if the log promises that. *)
Record log_inv (d : Disk) (w : WriteAheadLog) (base : Z) (old : list (Z * list entry))
    (first : Z) (written waiting attempted : list entry) (n : nat) (fl durable : Z) : Prop := {
  inv_hold : segments_hold d (directory w) base old first written attempted n fl;
  inv_segments : segments w =
    map (λ f, {| segment_path := segment_file (directory w) f; firstLsn := f |}) (map fst old ++ [first]);
  inv_fd : closed w = false → fd w = Some (segment_file (directory w) first);
  inv_next : nextLsn w = first + len written + len waiting;
  inv_pending : pending w = enc_list (first + len written) waiting;
  inv_pendingBytes : pendingBytes w = len (enc_records (first + len written) waiting);
  inv_open : broken w = false → attempted = waiting ∧ n = O ∧
    position w = len (segment_bytes first (written ++ waiting));
  inv_memory : mode w = Memory → attempted = waiting;
  inv_written : mode w ≠ Memory → waiting = [] ∧ (length attempted ≤ 1)%nat;
  inv_durable : mode w = Flushed →
    Forall (λ s, holds d (segment_file (directory w) s.1) (segment_bytes s.1 s.2)
                   (len (segment_bytes s.1 s.2))) old ∧
    ∃ m, (m ≤ length written)%nat ∧ durable ≤ first + Z.of_nat m ∧
      len (segment_bytes first (take m written)) ≤ fl ∧
      (unsynced w = false → m = length written);
  inv_unsynced : unsynced w = true → mode w = Flushed;
}.

(** What a log holds: the records from the number [base] on; up to [kept] they
    are in the files, and up to [durable] on stable storage. [tried] is a record whose
    append failed and that may be in the files nevertheless. *)
Record Log := {
  log_base : Z;
  log_entries : list entry;
  log_kept : Z;
  log_durable : Z;
  log_tried : list entry;
}.

Definition log_next (a : Log) : Z := log_base a + len (log_entries a).

Definition log_at (d : Disk) (w : WriteAheadLog) (a : Log) : Prop :=
  ∃ old first written waiting attempted n fl,
    log_inv d w (log_base a) old first written waiting attempted n fl (log_durable a) ∧
    log_entries a = old_entries old ++ written ++ waiting ∧
    log_kept a ≤ first + len written ∧
    (attempted = waiting ∨ attempted = log_tried a).

(** The settings do not change. *)
Record same_settings (w w' : WriteAheadLog) : Prop := {
  same_directory : directory w' = directory w;
  same_mode : mode w' = mode w;
  same_group : groupCommit w' = groupCommit w;
  same_size : segmentSizeBytes w' = segmentSizeBytes w;
  same_closed : closed w' = closed w;
}.

Lemma chain_first base old first : chain base old first → first = base + len (old_entries old).
Proof.
  revert base. induction old as [|[f l] old IH]; intros base.
  - intros <-. unfold old_entries. cbn. by rewrite len_nil, Z.add_0_r.
  - intros (-> & _ & Hc). unfold old_entries. cbn [map concat snd]. rewrite len_app.
    rewrite (IH _ Hc). unfold old_entries. lia.
Qed.

Lemma chain_snoc base old first l :
  chain base old first → l ≠ [] → chain base (old ++ [(first, l)]) (first + len l).
Proof.
  revert base. induction old as [|[f l'] old IH]; intros base; cbn [app chain].
  - by intros ->.
  - intros (-> & Hne & Hc) Hl. split; [done|]. split; [done|]. by apply IH.
Qed.

Lemma chain_sorted base old first :
  chain base old first → StronglySorted Z.lt (map fst old ++ [first]) ∧
  Forall (λ f, base ≤ f ≤ first) (map fst old ++ [first]).
Proof.
  revert base. induction old as [|[f l] old IH]; intros base.
  - intros ->. split; [repeat constructor|]. constructor; [lia|constructor].
  - intros (-> & Hne & Hc). destruct (IH _ Hc) as [Hs Hf].
    assert (0 < len l) by (destruct l; [done|unfold len; cbn; lia]).
    cbn [map fst app]. pose proof (chain_first _ _ _ Hc) as Ef. pose proof (len_nonneg (old_entries old)).
    split; (constructor; [try done; lia|]).
    + eapply Forall_impl; [exact Hf|]. intros x Hx. cbn in Hx. lia.
    + eapply Forall_impl; [exact Hf|]. intros x Hx. cbn in Hx. lia.
Qed.

Lemma hold_range d dir base old first written attempted n fl :
  segments_hold d dir base old first written attempted n fl →
  0 ≤ base ∧ Forall (λ f, 0 ≤ f < 10 ^ 20) (map fst old ++ [first]).
Proof.
  intros [_ _ _ _ _ Hc (H0 & _) Hf]. split; [done|]. destruct (chain_sorted _ _ _ Hc) as [_ Hr].
  eapply Forall_impl; [exact Hr|]. cbn. assert (2 ^ 64 < 10 ^ 20) by done. lia.
Qed.

Lemma segment_file_inj dir a b :
  0 ≤ a < 10 ^ 20 → 0 ≤ b < 10 ^ 20 → segment_file dir a = segment_file dir b → a = b.
Proof. intros Ha Hb E%(f_equal snd). by apply segment_name_inj. Qed.

(** The old segments are other files than the active one. *)
Lemma old_not_active d dir base old first written attempted n fl s :
  segments_hold d dir base old first written attempted n fl → s ∈ old →
  segment_file dir s.1 ≠ segment_file dir first.
Proof.
  intros Hh Hs E. destruct (hold_range _ _ _ _ _ _ _ _ _ Hh) as [_ Hr].
  apply Forall_app in Hr as [Hr Hf]. apply Forall_cons in Hf as [Hf _].
  assert (s.1 ∈ map fst old) as Hin by (by apply list_elem_of_fmap_2).
  pose proof (proj1 (Forall_forall _ _) Hr _ Hin) as Hsr.
  apply segment_file_inj in E; [|done|done].
  destruct (chain_sorted _ _ _ (hold_chain _ _ _ _ _ _ _ _ _ Hh)) as [Hso _].
  clear -Hso Hin E. induction (map fst old) as [|f l IH]; [by apply not_elem_of_nil in Hin|].
  cbn [app] in Hso. apply StronglySorted_inv in Hso as [Hso Hf].
  apply elem_of_cons in Hin as [Ef|Hin]; [|by apply IH].
  apply Forall_app in Hf as [_ Hf]. apply Forall_cons in Hf as [Hf _]. lia.
Qed.

(** Changing the active file only. *)
Lemma hold_change d d' dir base old first written attempted n fl written' attempted' n' fl' :
  segments_hold d dir base old first written attempted n fl →
  frame (segment_file dir first) d d' →
  holds d' (segment_file dir first)
    (segment_bytes first written' ++ take n' (enc_records (first + len written') attempted')) fl' →
  fl' ≤ len (segment_bytes first written' ++ take n' (enc_records (first + len written') attempted')) →
  entries_ok base (old_entries old ++ written' ++ attempted') →
  segments_hold d' dir base old first written' attempted' n' fl'.
Proof.
  intros Hh [Hk Ho] Ha Hfl He. pose proof Hh as [H1 H2 H3 H4 H5 H6 H7 H8].
  assert (∀ p, is_Some (omap_get (files d') p) → is_Some (omap_get (files d) p)) as Hsome.
  { intros p Hp. destruct (omap_get (files d) p) eqn:E; [by eexists|]. apply omap_get_None in E. rewrite <- Hk in E.
    apply omap_get_None in E. rewrite E in Hp. by destruct Hp. }
  split; try done.
  - by rewrite Hk.
  - intros name Hn. apply H2. by apply Hsome.
  - apply Forall_forall. intros s Hs. pose proof (proj1 (Forall_forall _ _) H3 s Hs) as Hf.
    apply (whole_file_mono d); [|exact Hf]. apply Ho. by eapply old_not_active.
Qed.

Lemma old_flushed_frame d d' dir base old first written attempted n fl :
  segments_hold d dir base old first written attempted n fl →
  frame (segment_file dir first) d d' →
  Forall (λ s, holds d (segment_file dir s.1) (segment_bytes s.1 s.2) (len (segment_bytes s.1 s.2))) old →
  Forall (λ s, holds d' (segment_file dir s.1) (segment_bytes s.1 s.2) (len (segment_bytes s.1 s.2))) old.
Proof.
  intros Hh [_ Ho] H. apply Forall_forall. intros s Hs. pose proof (proj1 (Forall_forall _ _) H s Hs) as Hf.
  cbn beta in Hf. unfold holds. rewrite Ho; [exact Hf|]. by eapply old_not_active.
Qed.

(** ** Writing to the active segment *)
Abbreviation action := (ST (Disk * WriteAheadLog) exn).

Section Log.
Context (os : Z → Call → Outcome).

Lemma this_bind {A B} (f : WriteAheadLog → A) (k : A → action B) d w :
  (x ← this f; k x) (d, w) = k (f w) (d, w).
Proof. done. Qed.

Lemma update_bind {B} (f : WriteAheadLog → WriteAheadLog) (k : () → action B) d w :
  (x ← update f; k x) (d, w) = k () (d, f w).
Proof. done. Qed.

Lemma bind_ok {A B} (m : action A) (k : A → action B) s a s' :
  m s = (Ok a, s') → (x ← m; k x) s = k a s'.
Proof. intros E. unfold mbind, st_bind. by rewrite E. Qed.

Lemma bind_throw {A B} (m : action A) (k : A → action B) s e s' :
  m s = (Throw e, s') → (x ← m; k x) s = (Throw e, s').
Proof. intros E. unfold mbind, st_bind. by rewrite E. Qed.

Lemma descriptor_file d w file : fd w = Some file → descriptor (d, w) = (Ok file, (d, w)).
Proof. intros E. unfold descriptor, mbind, st_bind, this, st_get. cbn [snd]. by rewrite E. Qed.

Lemma with_descriptor {A} (m : path → ST Disk exn A) d w file :
  fd w = Some file →
  (f ← descriptor; on_disk (m f)) (d, w) = (let (r, d') := m file d in (r, (d', w))).
Proof. intros E. unfold mbind, st_bind. by rewrite (descriptor_file d w file E). Qed.

Lemma hold_extend d dir base old first written attempted attempted' n fl :
  segments_hold d dir base old first written attempted 0 fl →
  entries_ok base (old_entries old ++ written ++ attempted') → n = O →
  segments_hold d dir base old first written attempted' n fl.
Proof.
  intros [H1 H2 H3 H4 H5 H6 H7 H8] He ->. split; try done; by rewrite take_0 in *.
Qed.

Lemma hold_prefix_ok d dir base old first written attempted n fl :
  segments_hold d dir base old first written attempted n fl →
  entries_ok first written ∧ entries_ok (first + len written) attempted.
Proof.
  intros [_ _ _ _ _ Hc He _]. rewrite !entries_ok_app in He. destruct He as (_ & H1 & H2).
  pose proof (chain_first _ _ _ Hc) as ->. by rewrite <- Z.add_assoc in H2 |- *.
Qed.

Lemma segment_bytes_app first l l' :
  segment_bytes first (l ++ l') = segment_bytes first l ++ enc_records (first + len l) l'.
Proof. unfold segment_bytes. by rewrite enc_records_app, app_assoc. Qed.

Lemma abandon_outcome d w dir base old first written attempted n fl error :
  segments_hold d dir base old first written attempted n fl →
  fl ≤ len (segment_bytes first written) → fd w = Some (segment_file dir first) →
  ∃ e n' d' w', abandonWrite os error (len (segment_bytes first written)) (d, w) = (Ok e, (d', w')) ∧
    segments_hold d' dir base old first written attempted n' fl ∧
    frame (segment_file dir first) d d' ∧ (w' = w ∧ n' = O ∨ w' = set_broken w).
Proof.
  intros Hh Hfl Hfd. unfold abandonWrite. destruct (isDiskFull error).
  2: { eexists _, n, d, (set_broken w). split; [reflexivity|]. split; [done|]. split; [done|]. by right. }
  unfold st_catch, mbind, st_bind. rewrite (descriptor_file d w _ Hfd).
  unfold on_disk. cbn [fst snd].
  set (goodEnd := len (segment_bytes first written)).
  assert (0 ≤ goodEnd ≤ len (segment_bytes first written ++ take n (enc_records (first + len written) attempted))) as Hg.
  { rewrite len_app. pose proof (len_nonneg (segment_bytes first written)).
    pose proof (len_nonneg (take n (enc_records (first + len written) attempted))). unfold goodEnd. lia. }
  pose proof (truncate_outcome os (segment_file dir first) goodEnd d _ fl (hold_active _ _ _ _ _ _ _ _ _ Hh) Hg) as Ht.
  destruct (ftruncateSync os (segment_file dir first) goodEnd d) as [[u|e] d'].
  - destruct Ht as [Hf Ha]. eexists _, O, d', w. split; [reflexivity|]. split; [|split; [done|by left]].
    apply (hold_change d d' dir base old first written attempted n fl); [done|done| | |apply Hh].
    + rewrite take_0, app_nil_r. unfold goodEnd in Ha. rewrite Z.min_l in Ha by done.
      unfold len in Ha. by rewrite Nat2Z.id, take_app_length in Ha.
    + by rewrite take_0, app_nil_r.
  - destruct Ht as [_ Hf]. eexists _, n, d', (set_broken w). split; [reflexivity|].
    split; [|split; [by apply frame_same|by right]].
    eapply hold_change; [exact Hh|by apply frame_same| |apply Hh|apply Hh].
    unfold holds. rewrite Hf. apply Hh.
Qed.

Lemma write_active d w dir base old first written attempted fl :
  segments_hold d dir base old first written attempted 0 fl →
  fd w = Some (segment_file dir first) →
  let data := enc_records (first + len written) attempted in
  let p := len (segment_bytes first written) in
  match st_catch (file ← descriptor; on_disk (writeFully os (length data) file data p))
          (λ error, e ← abandonWrite os error p; st_throw e) (d, w) with
  | (Ok _, (d', w')) => w' = w ∧ frame (segment_file dir first) d d' ∧
      segments_hold d' dir base old first (written ++ attempted) [] 0 fl
  | (Throw e, (d', w')) => frame (segment_file dir first) d d' ∧
      ∃ n, segments_hold d' dir base old first written attempted n fl ∧
        (w' = w ∧ n = O ∨ w' = set_broken w)
  end.
Proof.
  intros Hh Hfd data p. unfold st_catch. rewrite (with_descriptor _ d w _ Hfd).
  pose proof (hold_active _ _ _ _ _ _ _ _ _ Hh) as Ha. rewrite take_0, app_nil_r in Ha.
  pose proof (hold_flushed _ _ _ _ _ _ _ _ _ Hh) as Hfl. rewrite take_0, app_nil_r in Hfl.
  pose proof (writeFully_outcome os (length data) _ data p d _ fl Ha eq_refl Hfl (le_n _)) as Hw.
  destruct (writeFully os (length data) (segment_file dir first) data p d) as [[u|e] d'].
  - destruct Hw as [Hf Hh']. split; [done|]. split; [done|].
    apply (hold_change d d' dir base old first written attempted 0 fl); [done|done| | |].
    + rewrite take_0, app_nil_r, segment_bytes_app. exact Hh'.
    + rewrite take_0, app_nil_r, segment_bytes_app, len_app. pose proof (len_nonneg (enc_records (first + len written) attempted)). lia.
    + rewrite app_nil_r. apply Hh.
  - destruct Hw as (He & Hf & k & Hk & Hh').
    assert (segments_hold d' dir base old first written attempted k fl) as Hh2.
    { apply (hold_change d d' dir base old first written attempted 0 fl); [done|done|exact Hh'| |apply Hh].
      rewrite len_app. pose proof (len_nonneg (take k (enc_records (first + len written) attempted))). lia. }
    destruct (abandon_outcome d' w dir base old first written attempted k fl e Hh2 Hfl Hfd)
      as (e' & n' & d2 & w2 & E & Hh3 & Hf3 & Hcase).
    fold p in E. unfold mbind, st_bind. rewrite E. cbn [st_throw]. split; [by eapply frame_trans|]. by exists n'.
Qed.

Lemma assertWritable_open d w :
  closed w = false → broken w = false → assertWritable (d, w) = (Ok (), (d, w)).
Proof.
  intros Hc Hb. unfold assertWritable, assertOpen.
  rewrite (bind_ok _ _ _ () (d, w)); rewrite this_bind; [by rewrite Hb|by rewrite Hc].
Qed.

Lemma assertWritable_refuses d w :
  closed w || broken w = true → ∃ e, assertWritable (d, w) = (Throw e, (d, w)).
Proof.
  unfold assertWritable, assertOpen. destruct (closed w) eqn:Hc; intros Hb.
  - eexists. erewrite bind_throw; [done|]. rewrite this_bind, Hc. done.
  - eexists. erewrite bind_ok; [|rewrite this_bind, Hc; done]. rewrite this_bind.
    rewrite orb_false_l in Hb. by rewrite Hb.
Qed.

Lemma enc_records_nil first l : len (enc_records first l) = 0 → l = [].
Proof.
  destruct l as [|[t p] l]; [done|]. cbn [enc_records]. rewrite len_app, record_bytes_len.
  pose proof (len_nonneg p). pose proof (len_nonneg (enc_records (first + 1) l)). unfold RECORD_HEADER_SIZE. lia.
Qed.

(** *** [flush] *)
Lemma flush_outcome d w base old first written waiting attempted n fl durable :
  log_inv d w base old first written waiting attempted n fl durable →
  closed w = false → broken w = false →
  match flush os (d, w) with
  | (Ok _, (d', w')) => same_settings w w' ∧ broken w' = false ∧ unsynced w' = unsynced w ∧
      position w' = position w ∧ nextLsn w' = nextLsn w ∧ segments w' = segments w ∧ pending w' = [] ∧
      log_inv d' w' base old first (written ++ waiting) [] [] 0 fl durable
  | (Throw e, (d', w')) => same_settings w w' ∧ unsynced w' = unsynced w ∧
      (broken w' = false → w' = w) ∧
      ∃ n', log_inv d' w' base old first written waiting attempted n' fl durable
  end.
Proof.
  intros Hi Hc Hb. pose proof Hi as [Hh Hseg Hfd Hnext Hp Hpb Hopen Hmem Hwr Hdur Hgr].
  destruct (Hopen Hb) as (-> & -> & Hpos). specialize (Hfd Hc).
  assert (mode w = Memory ∨ waiting = []) as Hm.
  { destruct (decide (mode w = Memory)) as [|Hnm]; [by left|right]. by destruct (Hwr Hnm). }
  unfold flush. rewrite (bind_ok _ _ _ () (d, w)) by (by apply assertWritable_open).
  rewrite this_bind. destruct (Z.eqb_spec (pendingBytes w) 0) as [E0|Hne].
  { rewrite Hpb in E0. apply enc_records_nil in E0 as ->. cbn. split; [done|].
    rewrite app_nil_r. split_and!; done. }
  rewrite !this_bind.
  assert (position w - pendingBytes w = len (segment_bytes first written)) as ->
    by (rewrite Hpos, Hpb, segment_bytes_app, len_app; lia).
  rewrite Hp, enc_list_concat.
  pose proof (write_active d w (directory w) base old first written waiting fl Hh Hfd) as Hw. cbv zeta in Hw.
  unfold mbind at 1, st_bind at 1. destruct (st_catch _ _ (d, w)) as [[u|e] [d' w']].
  - destruct Hw as (-> & Hf & Hh'). cbn. split; [done|]. split_and!; try done.
    split; cbn; try done.
    + rewrite len_app, len_nil. lia.
    + intros _. split; [done|]. split; [done|]. by rewrite app_nil_r.
    + intros. split; [done|cbn; lia].
    + intros Hfl. destruct Hm as [Hm| ->]; [by rewrite Hm in Hfl|]. done.
  - destruct Hw as (Hf & n' & Hh' & Hcase).
    assert (same_settings w w' ∧ unsynced w' = unsynced w) as [Hs Hu] by (destruct Hcase as [[-> _]| ->]; done).
    split; [done|]. split; [done|].
    split; [by destruct Hcase as [[-> _]| ->]|]. exists n'.
    destruct Hm as [Hm| ->]; [|done].
    destruct Hcase as [[-> ->]| ->]; split; try done; intros; cbn in *; congruence.
Qed.
End Log.
