(* ===== verification/WalOperations.v ===== *)
(** * The write-ahead log: its operations

    What each operation of an open log does to its invariant, for any behaviour
    of the operating system. *)

From S2P Require Import Prelude Errors JsNumber JsString Binary WalFormat Disk DiskLemmas WriteAheadLog WalLemmas WalInvariant.
Import WalFormat WriteAheadLog.

(** ** The invariant where little changes *)
Lemma hold_same d d' dir base old first written attempted n fl :
  NoDup (omap_keys (files d')) → (∀ p, omap_get (files d') p = omap_get (files d) p) →
  segments_hold d dir base old first written attempted n fl →
  segments_hold d' dir base old first written attempted n fl.
Proof.
  intros Hn Hg [H1 H2 H3 H4 H5 H6 H7 H8]. unfold holds in *. split; try done.
  - intros name. rewrite Hg. apply H2.
  - eapply Forall_impl; [exact H3|]. intros s. apply whole_file_mono, Hg.
  - unfold holds. by rewrite Hg.
Qed.

Lemma inv_same d d' w base old first written waiting attempted n fl durable :
  NoDup (omap_keys (files d')) → (∀ p, omap_get (files d') p = omap_get (files d) p) →
  log_inv d w base old first written waiting attempted n fl durable →
  log_inv d' w base old first written waiting attempted n fl durable.
Proof.
  intros Hn Hg [H1 H2 H3 H4 H5 H6 H7 H8 H9 H10 H11]. split; try done; [by eapply hold_same|].
  intros Hm. destruct (H10 Hm) as [Ho Hr]. split; [|done]. eapply Forall_impl; [exact Ho|].
  intros s Hs. unfold holds in *. by rewrite Hg.
Qed.

Lemma inv_files d d' w base old first written waiting attempted n fl durable :
  files d' = files d →
  log_inv d w base old first written waiting attempted n fl durable →
  log_inv d' w base old first written waiting attempted n fl durable.
Proof.
  intros E Hi. eapply inv_same; [|by intros; rewrite E|exact Hi]. rewrite E. apply Hi.
Qed.

Lemma inv_broken d w base old first written waiting attempted n fl durable :
  log_inv d w base old first written waiting attempted n fl durable →
  log_inv d (set_broken w) base old first written waiting attempted n fl durable.
Proof. by intros [H1 H2 H3 H4 H5 H6 H7 H8 H9 H10 H11]; split. Qed.

(** Everything written and flushed. *)
Lemma inv_flushed d d' w w' base old first written durable fl fl' :
  log_inv d w base old first written [] [] 0 fl durable →
  frame (segment_file (directory w) first) d d' →
  segments_hold d' (directory w) base old first written [] 0 fl' →
  len (segment_bytes first written) ≤ fl' →
  same_settings w w' → segments w' = segments w → fd w' = fd w → nextLsn w' = nextLsn w →
  pending w' = pending w → pendingBytes w' = pendingBytes w → position w' = position w →
  (unsynced w' = true → mode w = Flushed) → broken w' = false → broken w = false →
  log_inv d' w' base old first written [] [] 0 fl' (nextLsn w).
Proof.
  intros [H1 H2 H3 H4 H5 H6 H7 H8 H9 H10 H11] Hf Hh Hfl [S1 S2 S3 S4 S5] E1 E2 E3 E4 E5 E6 Hu Hb Hb'.
  split; rewrite ?S1, ?S2, ?S3, ?S5, ?E1, ?E2, ?E3, ?E4, ?E5, ?E6; try done.
  - intros _. by apply H7.
  - intros Hm. destruct (H10 Hm) as [Ho _]. split; [exact (old_flushed_frame _ _ _ _ _ _ _ _ _ _ H1 Hf Ho)|].
    exists (length written). split; [done|]. split; [unfold len in H4; cbn in H4; lia|].
    by rewrite firstn_all.
Qed.

Section Log.
Context (os : Z → Call → Outcome).

(** ** [fsyncSync], [commit], [sync] *)
Lemma fsync_or_break_outcome d w base old first written fl :
  segments_hold d (directory w) base old first written [] 0 fl →
  fd w = Some (segment_file (directory w) first) →
  match fsync_or_break os (d, w) with
  | (Ok _, (d', w')) => w' = w ∧ frame (segment_file (directory w) first) d d' ∧
      segments_hold d' (directory w) base old first written [] 0 (len (segment_bytes first written))
  | (Throw e, (d', w')) => w' = set_broken w ∧ files d' = files d
  end.
Proof.
  intros Hh Hfd. unfold fsync_or_break, st_catch. rewrite (with_descriptor _ d w _ Hfd).
  pose proof (hold_active _ _ _ _ _ _ _ _ _ Hh) as Ha. rewrite take_0, app_nil_r in Ha.
  pose proof (fsync_outcome os _ d _ fl Ha) as Hs.
  destruct (fsyncSync os (segment_file (directory w) first) d) as [[u|e] d'].
  - destruct Hs as [Hf Hh']. split; [done|]. split; [done|].
    apply (hold_change d d' _ base old first written [] 0 fl); [done|done| | |apply Hh];
      by rewrite take_0, app_nil_r.
  - by destruct Hs as [_ Hs].
Qed.

Lemma commit_outcome d w base old first written waiting attempted n fl durable :
  log_inv d w base old first written waiting attempted n fl durable → closed w = false →
  match commit os (d, w) with
  | (Ok _, (d', w')) => same_settings w w' ∧ nextLsn w' = nextLsn w ∧ unsynced w' = false ∧
      broken w' = broken w ∧
      ∃ fl', log_inv d' w' base old first written waiting attempted n fl' (if bool_decide (mode w = Flushed) then nextLsn w else durable)
  | (Throw e, (d', w')) => same_settings w w' ∧ broken w' = true ∧ nextLsn w' = nextLsn w ∧
      log_inv d' w' base old first written waiting attempted n fl durable
  end.
Proof.
  intros Hi Hc. pose proof Hi as [Hh Hseg Hfd Hnext Hp Hpb Hopen Hmem Hwr Hdur Hun].
  unfold commit. rewrite this_bind, Hc, orb_false_r.
  destruct (unsynced w) eqn:Eu; cbn [negb].
  2: { cbn. split; [done|]. split_and!; try done. exists fl. case_bool_decide as Hm; [|done].
    split; try done. intros _. destruct (Hdur Hm) as [Ho (m & Hm1 & Hm2 & Hm3 & Hm4)].
    specialize (Hm4 eq_refl) as ->. split; [done|]. exists (length written). split_and!; try done.
    destruct Hwr as [-> _]; [by rewrite Hm|]. rewrite Hnext. unfold len. cbn. lia. }
  specialize (Hun eq_refl). destruct Hwr as [-> _]; [by rewrite Hun|].
  rewrite bool_decide_eq_true_2 by done.
  destruct (broken w) eqn:Eb.
  { destruct (assertWritable_refuses d w) as (e & E); [by rewrite Eb, orb_true_r|].
    rewrite (bind_throw _ _ _ _ _ E). done. }
  rewrite (bind_ok _ _ _ () (d, w)) by (by apply assertWritable_open).
  destruct (Hopen eq_refl) as (-> & -> & Hpos).
  pose proof (fsync_or_break_outcome d w base old first written fl Hh (Hfd Hc)) as Hf.
  unfold mbind at 1, st_bind at 1. destruct (fsync_or_break os (d, w)) as [[u|e] [d' w']].
  - destruct Hf as (-> & Hf & Hh'). cbn. split; [done|]. split_and!; try done. eexists.
    eapply (inv_flushed d d' w); try done.
  - destruct Hf as (-> & Hf). split; [done|]. split; [done|]. split; [done|].
    apply inv_broken. by eapply inv_files.
Qed.

(** [flush] on a log that may be closed or broken changes nothing. *)
Lemma flush_refuses d w :
  closed w || broken w = true → ∃ e, flush os (d, w) = (Throw e, (d, w)).
Proof.
  intros Hcb. destruct (assertWritable_refuses d w Hcb) as (e & E). exists e.
  unfold flush. by rewrite (bind_throw _ _ _ _ _ E).
Qed.

Lemma sync_outcome d w base old first written waiting attempted n fl durable :
  log_inv d w base old first written waiting attempted n fl durable → closed w = false → broken w = false →
  match sync os (d, w) with
  | (Ok _, (d', w')) => same_settings w w' ∧ nextLsn w' = nextLsn w ∧ broken w' = false ∧
      log_inv d' w' base old first (written ++ waiting) [] [] 0
        (len (segment_bytes first (written ++ waiting))) (nextLsn w)
  | (Throw e, (d', w')) => same_settings w w' ∧ nextLsn w' = nextLsn w ∧
      ∃ written' waiting' n', log_inv d' w' base old first written' waiting' waiting' n' fl durable ∧
        written' ++ waiting' = written ++ waiting ∧ written `prefix_of` written'
  end.
Proof.
  intros Hi Hc Hb. pose proof (flush_outcome os d w _ _ _ _ _ _ _ _ _ Hi Hc Hb) as Hf. unfold sync.
  unfold mbind at 1, st_bind at 1. destruct (flush os (d, w)) as [[u|e] [d1 w1]].
  2: { destruct Hf as (Hs & Hu & Hw & n' & Hi'). split; [done|].
    split; [by rewrite (inv_next _ _ _ _ _ _ _ _ _ _ _ Hi), (inv_next _ _ _ _ _ _ _ _ _ _ _ Hi')|].
    destruct (inv_open _ _ _ _ _ _ _ _ _ _ _ Hi Hb) as (-> & _).
    exists written, waiting, n'. by split_and!. }
  destruct Hf as (Hs & Hb1 & Hu1 & Hp1 & Hn1 & Hseg1 & Hpend & Hi1).
  pose proof Hs as [Hd Hm Hg Hsz Hc1]. rewrite Hc in Hc1.
  pose proof Hi1 as [Hh Hseg Hfd Hnext Hp Hpb Hopen Hmem Hwr Hdur Hun]. specialize (Hfd Hc1).
  pose proof (hold_active _ _ _ _ _ _ _ _ _ Hh) as Ha. rewrite take_0, app_nil_r in Ha.
  unfold st_catch. unfold mbind at 1, st_bind at 1. rewrite (descriptor_file d1 w1 _ Hfd).
  unfold mbind at 1, st_bind at 1, on_disk. cbn [fst snd].
  pose proof (fsync_outcome os _ d1 _ fl Ha) as Hf.
  destruct (fsyncSync os (segment_file (directory w1) first) d1) as [[u'|e] d2].
  - destruct Hf as [Hf Hh2]. unfold update, st_update. cbn [fst snd]. split; [split; cbn; congruence|]. split; [done|]. split; [done|].
    rewrite <- Hn1. eapply (inv_flushed d1 d2 w1); try done.
    apply (hold_change d1 d2 _ base old first (written ++ waiting) [] 0 fl); [done|done| | |apply Hh];
      by rewrite take_0, app_nil_r.
  - destruct Hf as [_ Hf]. unfold update, st_update, mbind, st_bind. cbn [fst snd]. split; [split; cbn; congruence|]. split; [done|].
    exists (written ++ waiting), [], O. split; [|by rewrite app_nil_r; split; [|apply prefix_app_r]].
    apply inv_broken. by eapply inv_files.
Qed.
End Log.

(** ** [createSegment] and [rotate]

    A failed clean-up can leave a whole empty segment behind. In the theorems
    below closing a file and removing it do not fail. *)
Definition cleans (os : Z → Call → Outcome) : Prop :=
  ∀ i file code, os i (Close file) ≠ Fails code ∧ os i (Unlink file) ≠ Fails code.

Section Create.
Context (os : Z → Call → Outcome) (os_cleans : cleans os).

Lemma close_done file d : ∃ d', closeSync os file d = (Ok (), d') ∧ files d' = files d.
Proof using os_cleans.
  unfold closeSync. destruct (syscall_outcome os (Close file) (λ _, mret ()) d) as [(code & E & _)|(o & _ & ->)].
  - by destruct (os_cleans (calls d + 1) file code).
  - by eexists.
Qed.

Lemma unlink_done file d f :
  omap_get (files d) file = Some f →
  ∃ d', unlinkSync os file d = (Ok (), d') ∧ files d' = omap_delete (files d) file.
Proof using os_cleans.
  intros Hf. unfold unlinkSync.
  match goal with |- context [syscall os ?call ?act d] =>
    destruct (syscall_outcome os call act d) as [(code & E & _)|(o & _ & ->)] end.
  - by destruct (os_cleans (calls d + 1) file code).
  - cbn [files]. unfold omap_has. rewrite Hf. by eexists.
Qed.

(** The new file removed again. *)
Lemma cleanup_outcome file d d1 e :
  NoDup (omap_keys (files d1)) → is_Some (omap_get (files d1) file) → omap_get (files d) file = None →
  (∀ p, p ≠ file → omap_get (files d1) p = omap_get (files d) p) →
  ∃ d2, (_ ← st_catch (_ ← closeSync os file; unlinkSync os file) (λ _, mret ());
         st_throw (A:=SegmentInfo * path) (translateIo e)) d1 = (Throw (translateIo e), d2) ∧
    NoDup (omap_keys (files d2)) ∧ ∀ p, omap_get (files d2) p = omap_get (files d) p.
Proof using os_cleans.
  intros Hn [f Hf] Hnone Ho. destruct (close_done file d1) as (d2 & E2 & Hf2).
  destruct (unlink_done file d2 f) as (d3 & E3 & Hf3); [by rewrite Hf2|].
  exists d3. split; [|split].
  - unfold mbind, st_bind, st_catch. rewrite E2, E3. done.
  - rewrite Hf3, Hf2. by apply omap_delete_NoDup.
  - intros p. rewrite Hf3, Hf2. destruct (decide (p = file)) as [->|Hp].
    + by rewrite omap_get_delete, Hnone.
    + rewrite omap_get_delete_ne by done. by apply Ho.
Qed.

Lemma createSegment_outcome dir first durable d :
  0 ≤ first < 2 ^ 64 → NoDup (omap_keys (files d)) →
  match createSegment os dir first durable d with
  | (Ok (info, fd), d') =>
      info = {| segment_path := segment_file dir first; firstLsn := first |} ∧
      fd = segment_file dir first ∧ omap_get (files d) fd = None ∧ NoDup (omap_keys (files d')) ∧
      (∀ p, p ≠ fd → omap_get (files d') p = omap_get (files d) p) ∧
      ∃ f, holds d' fd (segment_header_of first) f ∧ f ≤ SEGMENT_HEADER_SIZE ∧
        (durable = true → f = SEGMENT_HEADER_SIZE)
  | (Throw e, d') => NoDup (omap_keys (files d')) ∧ ∀ p, omap_get (files d') p = omap_get (files d) p
  end.
Proof using os_cleans.
  intros Hfirst Hn. unfold createSegment. set (file := segment_file dir first).
  change (dir, segment_name first) with file.
  unfold mbind at 1, st_bind at 1, st_catch at 1. unfold mbind at 1, st_bind at 1.
  unfold createSync. match goal with |- context [syscall os ?call ?act d] =>
    destruct (syscall_outcome os call act d) as [(code & _ & ->)|(o & _ & ->)] end; [done|].
  cbn [files]. unfold omap_has. destruct (omap_get (files d) file) as [f0|] eqn:Hnone; [done|]. cbn [mret st_ret].
  set (d1 := set_files _ _).
  assert (holds d1 file [] 0) as Hh1 by (unfold holds; apply omap_get_set).
  assert (NoDup (omap_keys (files d1))) as Hn1 by (by apply omap_set_NoDup).
  assert (∀ p, p ≠ file → omap_get (files d1) p = omap_get (files d) p) as Ho1
    by (intros p Hp; by apply omap_get_set_ne).
  clearbody d1.
  assert (∀ d2 e, frame file d1 d2 →
    ∃ d3, (_ ← st_catch (_ ← closeSync os file; unlinkSync os file) (λ _, mret ());
         st_throw (A:=SegmentInfo * path) (translateIo e)) d2 = (Throw (translateIo e), d3) ∧
      NoDup (omap_keys (files d3)) ∧ ∀ p, omap_get (files d3) p = omap_get (files d) p) as Hclean.
  { intros d2 e [Hk Ho]. apply cleanup_outcome; [by rewrite Hk| |done|intros p Hp; by rewrite Ho, Ho1].
    destruct (omap_get (files d2) file) eqn:E; [by eexists|]. apply omap_get_None in E. rewrite Hk in E.
    apply omap_get_None in E. unfold holds in Hh1. by rewrite E in Hh1. }
  unfold st_catch at 1. rewrite encode_header by done. unfold mbind at 1, st_bind at 1, st_lift.
  destruct (header_of first Hfirst) as (Hl & _ & _).
  pose proof (writeFully_outcome os (length (segment_header_of first)) file (segment_header_of first) 0 d1 [] 0
    Hh1 eq_refl (Z.le_refl 0) (le_n _)) as Hw.
  unfold mbind at 1, st_bind at 1. destruct (writeFully os _ file _ 0 d1) as [[u|e] d2].
  2: { destruct Hw as (_ & Hf & _). by destruct (Hclean d2 e Hf) as (d3 & -> & H3). }
  destruct Hw as [Hf Hh2]. cbn [app] in Hh2.
  assert (∀ d3 fl, frame file d1 d3 → holds d3 file (segment_header_of first) fl → fl ≤ SEGMENT_HEADER_SIZE →
    (durable = true → fl = SEGMENT_HEADER_SIZE) →
    NoDup (omap_keys (files d3)) ∧ (∀ p, p ≠ file → omap_get (files d3) p = omap_get (files d) p) ∧
    ∃ f, holds d3 file (segment_header_of first) f ∧ f ≤ SEGMENT_HEADER_SIZE ∧
      (durable = true → f = SEGMENT_HEADER_SIZE)) as Hok.
  { intros d3 fl [Hk Ho] Hh3 Hle Hd. split; [by rewrite Hk|]. split; [intros p Hp; by rewrite Ho, Ho1|].
    by exists fl. }
  unfold mbind at 1, st_bind at 1. destruct durable.
  2: { cbn. split; [done|]. split; [done|]. split; [done|]. by apply (Hok d2 0). }
  unfold mbind at 1, st_bind at 1. pose proof (fsync_outcome os file d2 _ _ Hh2) as Hs.
  destruct (fsyncSync os file d2) as [[u'|e] d3].
  2: { destruct Hs as [_ Hs]. destruct (Hclean d3 e) as (d4 & -> & H4); [|done].
    eapply frame_trans; [done|by apply frame_same]. }
  destruct Hs as [Hf3 Hh3]. rewrite Hl in Hh3.
  pose proof (syncDirectory_outcome os dir d3) as Hd. destruct (syncDirectory os dir d3) as [[u''|e] d4].
  2: { destruct (Hclean d4 e) as (d5 & -> & H5); [|done].
    do 2 (eapply frame_trans; [done|]). by apply frame_same. }
  cbn. split; [done|]. split; [done|]. split; [done|]. apply (Hok d4 SEGMENT_HEADER_SIZE); [|by unfold holds; rewrite Hd|done|done].
  do 2 (eapply frame_trans; [done|]). by apply frame_same.
Qed.

(** The segment left behind, the new one active. *)
Lemma rotated d d' w w' base old first written fl f durable :
  log_inv d w base old first written [] [] 0 fl durable → broken w = false → written ≠ [] →
  nextLsn w < 2 ^ 64 → NoDup (omap_keys (files d')) →
  let file := segment_file (directory w) (nextLsn w) in
  omap_get (files d) file = None → (∀ p, p ≠ file → omap_get (files d') p = omap_get (files d) p) →
  holds d' file (segment_header_of (nextLsn w)) f → f ≤ SEGMENT_HEADER_SIZE →
  (mode w = Flushed → f = SEGMENT_HEADER_SIZE ∧ fl = len (segment_bytes first written)) →
  w' = set_segments (segments w ++ [{| segment_path := file; firstLsn := nextLsn w |}]) (Some file) SEGMENT_HEADER_SIZE w →
  log_inv d' w' base (old ++ [(first, written)]) (nextLsn w) [] [] [] 0 f durable.
Proof.
  intros [Hh Hseg Hfd Hnext Hp Hpb Hopen Hmem Hwr Hdur Hun] Hb Hw Hmax Hn file Hnone Ho Hf Hle Hfl ->.
  pose proof Hh as [G1 G2 G3 G4 G5 G6 G7 G8]. rewrite take_0, app_nil_r in G4, G5. rewrite len_nil, Z.add_0_r in Hnext.
  assert (old_entries (old ++ [(first, written)]) = old_entries old ++ written) as Eo
    by (unfold old_entries; rewrite map_app, concat_app; cbn; by rewrite app_nil_r).
  assert (chain base (old ++ [(first, written)]) (nextLsn w)) as Hc by (rewrite Hnext; by apply chain_snoc).
  assert (0 ≤ nextLsn w) as H0.
  { destruct G7 as (G7 & _). apply chain_first in Hc. pose proof (len_nonneg (old_entries (old ++ [(first, written)]))). lia. }
  destruct (header_of (nextLsn w)) as (Hl & _ & _); [done|].
  assert (segment_bytes (nextLsn w) [] = segment_header_of (nextLsn w)) as Eb by (unfold segment_bytes; apply app_nil_r).
  assert (∀ c fl, holds d (segment_file (directory w) first) c fl → holds d' (segment_file (directory w) first) c fl) as Hact.
  { intros c fl' H. unfold holds in *. rewrite Ho; [done|]. intros E. rewrite <- E, H in Hnone. discriminate Hnone. }
  assert (∀ s c fl, s ∈ old → holds d (segment_file (directory w) s.1) c fl →
    holds d' (segment_file (directory w) s.1) c fl) as Hold.
  { intros s c fl' _ H. unfold holds in *. rewrite Ho; [done|]. intros E. rewrite <- E, H in Hnone. discriminate Hnone. }
  assert (segments_hold d' (directory w) base (old ++ [(first, written)]) (nextLsn w) [] [] 0 f) as Hh'.
  { split.
    - exact Hn.
    - intros name. rewrite (map_app fst), <- app_assoc. destruct (decide (name = segment_name (nextLsn w))) as [->|Hne].
      { intros _ _. rewrite !map_app, !elem_of_app. do 2 right. by left. }
      rewrite Ho by (intros E; apply Hne; exact (f_equal snd E)). intros Hs Hm. specialize (G2 name Hs Hm).
      rewrite map_app, elem_of_app in G2. rewrite !map_app, !elem_of_app. destruct G2 as [G2|G2]; [by left|].
      right. left. done.
    - apply Forall_app. split; [|constructor; [|done]].
      + apply Forall_forall. intros s Hs. pose proof (proj1 (Forall_forall _ _) G3 s Hs) as (f' & Hf' & Hle').
        exists f'. split; [by apply Hold|exact Hle'].
      + exists fl. split; [by apply Hact|exact G5].
    - rewrite Eb, take_0, app_nil_r. exact Hf.
    - by rewrite Eb, take_0, app_nil_r, Hl.
    - exact Hc.
    - rewrite Eo, !app_nil_r. by rewrite app_nil_r in G7.
    - exact Hmax. }
  split; cbn [set_segments directory mode groupCommit segmentSizeBytes segments WriteAheadLog.fd position nextLsn pending pendingBytes unsynced broken closed].
  - exact Hh'.
  - rewrite Hseg, !map_app, <- !app_assoc. reflexivity.
  - done.
  - rewrite !len_nil. lia.
  - exact Hp.
  - exact Hpb.
  - intros _. split; [done|]. split; [done|]. cbn [app]. by rewrite Eb, Hl.
  - done.
  - intros _. split; [done|cbn; lia].
  - intros Hm. destruct (Hfl Hm) as [-> Hfl']. destruct (Hdur Hm) as [Hd (m & Hm1 & Hm2 & _)]. split.
    + apply Forall_app. split; [|constructor; [|done]].
      * apply Forall_forall. intros s Hs. apply Hold; [done|]. exact (proj1 (Forall_forall _ _) Hd s Hs).
      * cbn [fst snd]. rewrite <- Hfl'. apply Hact. exact G4.
    + exists O. split; [done|]. split; [unfold len in *; lia|]. cbn [take]. rewrite Eb, Hl.
      split; [apply Z.le_refl|reflexivity].
  - exact Hun.
Qed.

Lemma inv_weaken d w base old first written waiting attempted n fl durable durable' :
  log_inv d w base old first written waiting attempted n fl durable → (mode w = Flushed → durable' ≤ durable) →
  log_inv d w base old first written waiting attempted n fl durable'.
Proof.
  intros [H1 H2 H3 H4 H5 H6 H7 H8 H9 H10 H11] Hle. split; try assumption. intros Hm.
  destruct (H10 Hm) as [Ho (m & Hm1 & Hm2 & Hm3)]. split; [done|]. exists m. split; [done|].
  specialize (Hle Hm). split; [lia|done].
Qed.

Lemma durable_le d w base old first written waiting attempted n fl durable :
  log_inv d w base old first written waiting attempted n fl durable → mode w = Flushed → durable ≤ nextLsn w.
Proof.
  intros Hi Hm. destruct (inv_durable _ _ _ _ _ _ _ _ _ _ _ Hi Hm) as [_ (m & Hm1 & Hm2 & _)].
  rewrite (inv_next _ _ _ _ _ _ _ _ _ _ _ Hi). pose proof (len_nonneg waiting). unfold len in *. lia.
Qed.

(** What [rotate] does first: everything written, and flushed if need be. *)
Lemma settle_outcome d w base old first written waiting attempted n fl durable :
  log_inv d w base old first written waiting attempted n fl durable → closed w = false → broken w = false →
  let settle : action () :=
    _ ← flush os;
    if bool_decide (mode w = Flushed) then _ ← fsync_or_break os; update (set_unsynced false) else mret () in
  match settle (d, w) with
  | (Ok _, (d', w')) => same_settings w w' ∧ broken w' = false ∧ nextLsn w' = nextLsn w ∧
      ∃ fl', log_inv d' w' base old first (written ++ waiting) [] [] 0 fl' durable ∧
        (mode w = Flushed → fl' = len (segment_bytes first (written ++ waiting)))
  | (Throw e, (d', w')) => same_settings w w' ∧ nextLsn w' = nextLsn w ∧
      ∃ written' waiting' n', log_inv d' w' base old first written' waiting' waiting' n' fl durable ∧
        written' ++ waiting' = written ++ waiting ∧ written `prefix_of` written'
  end.
Proof using Type.
  intros Hi Hc Hb settle. pose proof (flush_outcome os d w _ _ _ _ _ _ _ _ _ Hi Hc Hb) as Hf. unfold settle.
  unfold mbind at 1, st_bind at 1. destruct (flush os (d, w)) as [[u|e] [d1 w1]].
  2: { destruct Hf as (Hs & Hu & Hw & n' & Hi'). split; [done|].
    split; [by rewrite (inv_next _ _ _ _ _ _ _ _ _ _ _ Hi), (inv_next _ _ _ _ _ _ _ _ _ _ _ Hi')|].
    destruct (inv_open _ _ _ _ _ _ _ _ _ _ _ Hi Hb) as (-> & _).
    exists written, waiting, n'. by split_and!. }
  destruct Hf as (Hs & Hb1 & Hu1 & Hp1 & Hn1 & Hseg1 & Hpend & Hi1).
  case_bool_decide as Hm.
  2: { cbn. split; [done|]. split; [done|]. split; [done|]. by exists fl. }
  pose proof Hs as [Sd Sm _ _ Sc]. rewrite Hc in Sc.
  pose proof (fsync_or_break_outcome os d1 w1 base old first (written ++ waiting) fl
    (inv_hold _ _ _ _ _ _ _ _ _ _ _ Hi1) (inv_fd _ _ _ _ _ _ _ _ _ _ _ Hi1 Sc)) as Hf.
  unfold mbind, st_bind. destruct (fsync_or_break os (d1, w1)) as [[u'|e] [d2 w2]].
  - destruct Hf as (-> & Hf & Hh). unfold update, st_update. cbn [fst snd].
    split; [by destruct Hs; split|]. split; [done|]. split; [done|]. eexists. split; [|intros _; reflexivity].
    apply inv_weaken with (nextLsn w1); [|intros Hm1; eapply durable_le; [exact Hi1|congruence]].
    eapply (inv_flushed d1 d2 w1); try done.
  - destruct Hf as (-> & Hf). split; [by destruct Hs; split|]. split; [done|].
    exists (written ++ waiting), [], O. split; [|by rewrite app_nil_r; split; [|apply prefix_app_r]].
    apply inv_broken. by eapply inv_files.
Qed.

Lemma rotate_outcome d w base old first written waiting attempted n fl durable :
  log_inv d w base old first written waiting attempted n fl durable → closed w = false → broken w = false →
  written ++ waiting ≠ [] → nextLsn w < 2 ^ 64 →
  match rotate os (d, w) with
  | (Ok _, (d', w')) => same_settings w w' ∧ broken w' = false ∧ nextLsn w' = nextLsn w ∧
      ∃ fl', log_inv d' w' base (old ++ [(first, written ++ waiting)]) (nextLsn w) [] [] [] 0 fl' durable
  | (Throw e, (d', w')) => same_settings w w' ∧ nextLsn w' = nextLsn w ∧
      ∃ written' waiting' n' fl', log_inv d' w' base old first written' waiting' waiting' n' fl' durable ∧
        written' ++ waiting' = written ++ waiting ∧ written `prefix_of` written'
  end.
Proof using os_cleans.
  intros Hi Hc Hb Hne Hmax. pose proof (settle_outcome d w _ _ _ _ _ _ _ _ _ Hi Hc Hb) as Hset. cbv zeta in Hset.
  assert (∀ (k : action ()), (_ ← flush os; _ ← (if bool_decide (mode w = Flushed) then _ ← fsync_or_break os; update (set_unsynced false) else mret ()); k) (d, w)
    = (_ ← (_ ← flush os; if bool_decide (mode w = Flushed) then _ ← fsync_or_break os; update (set_unsynced false) else mret ()); k) (d, w)) as Eassoc.
  { intros k. unfold mbind, st_bind. by destruct (flush os (d, w)) as [[] ?]. }
  unfold rotate. rewrite this_bind, Eassoc. clear Eassoc. unfold mbind at 1, st_bind at 1.
  destruct ((_ ← flush os; _) (d, w)) as [[u|e] [d1 w1]].
  2: { destruct Hset as (Hs & Hn & wr & wa & n' & Hi' & E). split; [done|]. split; [done|].
    by exists wr, wa, n', fl. }
  destruct Hset as (Hs & Hb1 & Hn1 & fl1 & Hi1 & Hfl1). pose proof Hs as [Sd Sm _ _ Sc]. rewrite Hc in Sc.
  rewrite this_bind. pose proof Hi1 as [Hh1 _ Hfd1 Hnext1 _ _ _ _ _ _ _]. specialize (Hfd1 Sc).
  assert (0 ≤ nextLsn w1 < 2 ^ 64) as Hrange.
  { destruct (hold_entries _ _ _ _ _ _ _ _ _ Hh1) as (H0 & _). pose proof (hold_chain _ _ _ _ _ _ _ _ _ Hh1) as Hch.
    apply chain_first in Hch. pose proof (len_nonneg (old_entries old)). pose proof (len_nonneg (written ++ waiting)).
    rewrite len_nil in Hnext1. lia. }
  pose proof (createSegment_outcome (directory w1) (nextLsn w1) (bool_decide (mode w = Flushed)) d1 Hrange
    (hold_names _ _ _ _ _ _ _ _ _ Hh1)) as Hcr.
  unfold mbind at 1, st_bind at 1, on_disk at 1. cbn [fst snd].
  destruct (createSegment os (directory w1) (nextLsn w1) _ d1) as [[[info file]|e] d2].
  2: { destruct Hcr as [Hnd Hg]. split; [done|]. split; [done|].
    exists (written ++ waiting), [], O, fl1.
    split; [|by rewrite app_nil_r; split; [|apply prefix_app_r]]. by eapply inv_same. }
  destruct Hcr as (-> & -> & Hnone & Hnd & Ho & f & Hf & Hle & Hfl).
  unfold mbind at 1, st_bind at 1. rewrite (descriptor_file d2 w1 _ Hfd1). rewrite update_bind.
  destruct (close_done (segment_file (directory w1) first) d2) as (d3 & Hcl & Hf3).
  unfold st_catch, on_disk. cbn [fst snd]. rewrite Hcl.
  split; [by destruct Hs; split|]. split; [done|]. split; [done|]. exists f. rewrite <- Hn1.
  eapply inv_files; [exact Hf3|].
  eapply (rotated d1 d2 w1); try done; [by rewrite Hn1|].
  intros Hm. rewrite Sm in Hm. split; [apply Hfl; by rewrite bool_decide_eq_true_2|by apply Hfl1].
Qed.
End Create.

(** ** [append] *)

(** The record itself, once there is room for it in the segment. *)
Definition append_tail (os : Z → Call → Outcome) (lsn : Z) (record : bytes) (w : WriteAheadLog) : action Z :=
  if bool_decide (mode w = Memory) then
    _ ← update (λ w, set_position (position w + len record) (lsn + 1)
                       (set_pending (pending w ++ [record]) (pendingBytes w + len record) w));
    n ← this pendingBytes;
    _ ← (if MEMORY_FLUSH_BYTES <=? n then
           st_catch (flush os) (λ error,
             b ← this broken;
             _ ← (if b : bool then mret ()
                  else update (λ w, set_position (position w - len record) lsn
                                      (set_pending (removelast (pending w)) (pendingBytes w - len record) w)));
             st_throw error)
         else mret ());
    mret lsn
  else
    _ ← st_catch (file ← descriptor; on_disk (writeFully os (length record) file record (position w)))
          (λ error, e ← abandonWrite os error (position w); st_throw e);
    _ ← (if bool_decide (mode w = Flushed) then
           if groupCommit w then update (set_unsynced true) else fsync_or_break os
         else mret ());
    _ ← update (λ w, set_position (position w + len record) (lsn + 1) w);
    mret lsn.

(** How far the records are on stable storage once one more is appended. *)
Definition durable_after (m : WriteConcern) (group : bool) (lsn durable : Z) : Z :=
  if bool_decide (m = Flushed) && negb group then lsn + 1 else durable.

Section Append.
Context (os : Z → Call → Outcome).

Lemma enc_one first x : enc_records first [x] = record_bytes first x.1 x.2.
Proof. destruct x as [t p]. cbn [enc_records fst snd]. apply app_nil_r. Qed.

Lemma tail_memory d w base old first written waiting fl durable x :
  log_inv d w base old first written waiting waiting 0 fl durable →
  closed w = false → broken w = false → mode w = Memory →
  entries_ok base (old_entries old ++ written ++ waiting ++ [x]) →
  match append_tail os (nextLsn w) (record_bytes (nextLsn w) x.1 x.2) w (d, w) with
  | (Ok r, (d', w')) => r = nextLsn w ∧ same_settings w w' ∧ broken w' = false ∧
      ∃ written' waiting', log_inv d' w' base old first written' waiting' waiting' 0 fl durable ∧
        written' ++ waiting' = written ++ waiting ++ [x] ∧ written `prefix_of` written'
  | (Throw e, (d', w')) => same_settings w w' ∧
      ∃ waiting' n, log_inv d' w' base old first written waiting' waiting' n fl durable ∧
        (waiting' = waiting ∨ broken w' = true ∧ waiting' = waiting ++ [x])
  end.
Proof.
  intros Hi Hc Hb Hm He. pose proof Hi as [Hh Hseg Hfd Hnext Hp Hpb Hopen Hmem Hwr Hdur Hun].
  destruct (Hopen Hb) as (_ & _ & Hpos). unfold append_tail. rewrite bool_decide_eq_true_2 by done.
  rewrite update_bind, this_bind.
  set (record := record_bytes (nextLsn w) x.1 x.2).
  set (w2 := set_position _ _ _). cbn [pendingBytes w2 set_position set_pending].
  assert (enc_records (first + len written) (waiting ++ [x]) = enc_records (first + len written) waiting ++ record) as Erec
    by (by rewrite enc_records_app, enc_one, <- Hnext).
  assert (log_inv d w2 base old first written (waiting ++ [x]) (waiting ++ [x]) 0 fl durable) as Hi2.
  { split; cbn [w2 set_position set_pending directory mode groupCommit segmentSizeBytes segments WriteAheadLog.fd position nextLsn pending pendingBytes unsynced broken closed].
    - by apply (hold_extend d _ base old first written waiting).
    - exact Hseg.
    - exact Hfd.
    - rewrite Hnext, len_app. unfold len. cbn. lia.
    - destruct x as [t p]. rewrite enc_list_snoc, Hp. unfold record. cbn [fst snd]. by rewrite Hnext.
    - by rewrite Hpb, Erec, len_app.
    - intros _. split; [done|]. split; [done|].
      rewrite Hpos, (app_assoc written), (segment_bytes_app first (written ++ waiting) [x]), enc_one, (len_app (segment_bytes _ _)).
      unfold record. rewrite len_app, Hnext. by rewrite Z.add_assoc.
    - done.
    - by rewrite Hm.
    - by rewrite Hm.
    - exact Hun. }
  unfold mbind at 1, st_bind at 1. destruct (MEMORY_FLUSH_BYTES <=? pendingBytes w + len record).
  2: { cbn [mret st_ret]. split; [done|]. split; [done|]. split; [done|].
    exists written, (waiting ++ [x]). by split_and!. }
  pose proof (flush_outcome os d w2 _ _ _ _ _ _ _ _ _ Hi2 Hc Hb) as Hf. unfold st_catch.
  destruct (flush os (d, w2)) as [[u|e] [d1 w1]].
  - destruct Hf as (Hs & Hb1 & _ & _ & _ & _ & _ & Hi1). split; [done|]. split; [by destruct Hs|].
    split; [done|]. exists (written ++ waiting ++ [x]), [].
    rewrite app_nil_r. split; [done|]. split; [done|by apply prefix_app_r].
  - destruct Hf as (Hs & Hu & Hw1 & n' & Hi1). rewrite this_bind. destruct (broken w1) eqn:Hb1.
    + cbn. split; [by destruct Hs|]. exists (waiting ++ [x]), n'. split; [done|by right].
    + rewrite (Hw1 eq_refl) in *. rewrite update_bind. cbn. split; [done|].
      exists waiting, O. split; [|by left].
      destruct (inv_open _ _ _ _ _ _ _ _ _ _ _ Hi1 Hb) as (_ & -> & _).
      split; cbn [w2 set_position set_pending directory mode groupCommit segmentSizeBytes segments WriteAheadLog.fd position nextLsn pending pendingBytes unsynced broken closed].
      * apply (hold_extend d1 _ base old first written (waiting ++ [x])); [apply Hi1| |done].
        rewrite !app_assoc in He. rewrite !app_assoc. apply entries_ok_app in He as [He _]. exact He.
      * exact Hseg.
      * exact Hfd.
      * exact Hnext.
      * by rewrite removelast_snoc.
      * lia.
      * intros _. split; [done|]. split; [done|lia].
      * done.
      * by rewrite Hm.
      * by rewrite Hm.
      * exact Hun.
Qed.

(** A record that is there but was not acknowledged. *)
Lemma hold_attempt d dir base old first written x fl :
  segments_hold d dir base old first (written ++ [x]) [] 0 fl →
  segments_hold d dir base old first written [x] (length (enc_records (first + len written) [x])) fl.
Proof.
  intros [H1 H2 H3 H4 H5 H6 H7 H8]. rewrite take_0, app_nil_r, segment_bytes_app in *.
  split; try assumption; by rewrite ?firstn_all, ?app_assoc in *.
Qed.

Lemma tail_written d w base old first written fl durable x :
  log_inv d w base old first written [] [] 0 fl durable →
  closed w = false → broken w = false → mode w ≠ Memory →
  entries_ok base (old_entries old ++ written ++ [x]) →
  match append_tail os (nextLsn w) (record_bytes (nextLsn w) x.1 x.2) w (d, w) with
  | (Ok r, (d', w')) => r = nextLsn w ∧ same_settings w w' ∧ broken w' = false ∧
      ∃ fl', log_inv d' w' base old first (written ++ [x]) [] [] 0 fl' (durable_after (mode w) (groupCommit w) (nextLsn w) durable)
  | (Throw e, (d', w')) => same_settings w w' ∧
      ∃ attempted n, log_inv d' w' base old first written [] attempted n fl durable ∧
        (attempted = [] ∨ attempted = [x])
  end.
Proof.
  intros Hi Hc Hb Hm He. pose proof Hi as [Hh Hseg Hfd Hnext Hp Hpb Hopen Hmem Hwr Hdur Hun]. specialize (Hfd Hc).
  destruct (Hopen Hb) as (_ & _ & Hpos). rewrite app_nil_r in Hpos. rewrite len_nil, Z.add_0_r in Hnext.
  unfold append_tail. rewrite bool_decide_eq_false_2 by done.
  pose proof (write_active os d w (directory w) base old first written [x] fl) as Hw. cbv zeta in Hw.
  rewrite enc_one, <- Hnext, <- Hpos in Hw.
  set (record := record_bytes (nextLsn w) x.1 x.2) in *.
  specialize (Hw (hold_extend d _ base old first written [] [x] 0 fl Hh He eq_refl) Hfd).
  unfold mbind at 1, st_bind at 1. destruct (st_catch _ _ (d, w)) as [[u|e] [d1 w1]].
  2: { destruct Hw as (Hf & n & Hh1 & Hcase).
    assert (Forall (λ s, holds d1 (segment_file (directory w) s.1) (segment_bytes s.1 s.2) (len (segment_bytes s.1 s.2))) old ∨ mode w ≠ Flushed) as Ho.
    { destruct (decide (mode w = Flushed)) as [Hfl|]; [left|by right].
      destruct (Hdur Hfl) as [Ho _]. exact (old_flushed_frame _ _ _ _ _ _ _ _ _ _ Hh Hf Ho). }
    split; [destruct Hcase as [[-> _]| ->]; done|].
    destruct Hcase as [[-> ->]| ->].
    - exists [], O. split; [|by left]. split; try done.
      + apply (hold_extend d1 _ base old first written [x]); [done|apply Hh|done].
      + by rewrite len_nil, Z.add_0_r.
      + intros Hfl. destruct Ho as [Ho|]; [|done]. split; [done|]. by destruct (Hdur Hfl).
    - exists [x], n. split; [|by right]. split; try done.
      + cbn. by rewrite len_nil, Z.add_0_r.
      + intros Hfl. destruct Ho as [Ho|]; [|done]. split; [done|]. by destruct (Hdur Hfl). }
  destruct Hw as (-> & Hf & Hh1).
  set (w3 := λ w, set_position (position w + len record) (nextLsn w + 1) w).
  assert (∀ d' w' fl' durable', segments_hold d' (directory w) base old first (written ++ [x]) [] 0 fl' →
    (w' = w ∨ w' = set_unsynced true w ∧ mode w = Flushed) →
    (mode w = Flushed → Forall (λ s, holds d' (segment_file (directory w) s.1) (segment_bytes s.1 s.2)
                   (len (segment_bytes s.1 s.2))) old ∧
      ∃ m, (m ≤ length (written ++ [x]))%nat ∧ durable' ≤ first + Z.of_nat m ∧
        len (segment_bytes first (take m (written ++ [x]))) ≤ fl' ∧
        (unsynced w' = false → m = length (written ++ [x]))) →
    log_inv d' (w3 w') base old first (written ++ [x]) [] [] 0 fl' durable') as Hdone.
  { intros d' w' fl' durable' Hh' Hw' Hd.
    assert (position w' = position w ∧ nextLsn w' = nextLsn w ∧ segments w' = segments w ∧ directory w' = directory w ∧
      WriteAheadLog.fd w' = WriteAheadLog.fd w ∧ mode w' = mode w ∧ pending w' = pending w ∧
      pendingBytes w' = pendingBytes w ∧ (unsynced w' = true → mode w = Flushed)) as (E1 & E2 & E3 & E4 & E5 & E6 & E7 & E8 & E9)
      by (destruct Hw' as [->|[-> ?]]; done).
    split; cbn [w3 set_position directory mode groupCommit segmentSizeBytes segments WriteAheadLog.fd position nextLsn pending pendingBytes unsynced broken closed];
      rewrite ?E1, ?E2, ?E3, ?E4, ?E5, ?E6, ?E7, ?E8; try done.
    - rewrite Hnext, len_app. unfold len. cbn. lia.
    - intros _. split; [done|]. split; [done|]. rewrite app_nil_r, segment_bytes_app, enc_one, len_app, Hpos.
      unfold record. by rewrite Hnext. }
  pose proof (fsync_or_break_outcome os d1 w base old first (written ++ [x]) fl Hh1 Hfd) as Hs.
  assert (mode w = Flushed → Forall (λ s, holds d1 (segment_file (directory w) s.1) (segment_bytes s.1 s.2)
                   (len (segment_bytes s.1 s.2))) old) as Hold1.
  { intros Hfl. destruct (Hdur Hfl) as [Ho _]. exact (old_flushed_frame _ _ _ _ _ _ _ _ _ _ Hh Hf Ho). }
  unfold mbind at 1, st_bind at 1. unfold durable_after. case_bool_decide as Hfl; [destruct (groupCommit w)|]; cbn [andb negb].
  - cbn. split; [done|]. split; [done|]. split; [done|]. exists fl.
    apply (Hdone d1 (set_unsynced true w)); [done|by right|]. intros _. split; [by apply Hold1|].
    destruct (Hdur Hfl) as [_ (m & Hm1 & Hm2 & Hm3 & _)]. exists m. rewrite length_app, take_app_le by done.
    split_and!; try done. lia.
  - destruct (fsync_or_break os (d1, w)) as [[u'|e] [d2 w2]].
    + destruct Hs as (-> & Hf2 & Hh2). cbn. split; [done|]. split; [done|]. split; [done|]. eexists.
      apply (Hdone d2 w); [exact Hh2|by left|]. intros _.
      split; [exact (old_flushed_frame _ _ _ _ _ _ _ _ _ _ Hh1 Hf2 (Hold1 Hfl))|].
      exists (length (written ++ [x])). rewrite firstn_all. split_and!; try done.
      rewrite Hnext, length_app. unfold len. cbn. lia.
    + destruct Hs as (-> & Hf2). split; [done|]. exists [x], (length (enc_records (first + len written) [x])). split; [|by right].
      apply (inv_files d1); [exact Hf2|].
      split; try done; [by apply hold_attempt|cbn; rewrite len_nil; lia|].
      intros _. split; [by apply Hold1|]. by destruct (Hdur Hfl).
  - cbn. split; [done|]. split; [done|]. split; [done|]. exists fl. apply (Hdone d1 w); [done|by left|done].
Qed.

(** One record more. *)
Definition appended (m : WriteConcern) (group : bool) (a : Log) (x : entry) : Log := {|
  log_base := log_base a;
  log_entries := log_entries a ++ [x];
  log_kept := if bool_decide (m = Memory) then log_kept a else log_next a + 1;
  log_durable := durable_after m group (log_next a) (log_durable a);
  log_tried := [];
|}.

(** A record that is only waiting. *)
Definition queued (a : Log) (x : entry) : Log := {|
  log_base := log_base a;
  log_entries := log_entries a ++ [x];
  log_kept := log_kept a;
  log_durable := log_durable a;
  log_tried := [];
|}.

(** A record that was not appended, but may be in the files. *)
Definition attempt (a : Log) (x : entry) : Log := {|
  log_base := log_base a;
  log_entries := log_entries a;
  log_kept := log_kept a;
  log_durable := log_durable a;
  log_tried := [x];
|}.

Lemma log_at_next d w a : log_at d w a → nextLsn w = log_next a.
Proof.
  intros (old & first & written & waiting & attempted & n & fl & Hi & El & _).
  pose proof (hold_chain _ _ _ _ _ _ _ _ _ (inv_hold _ _ _ _ _ _ _ _ _ _ _ Hi)) as Hch.
  apply chain_first in Hch. unfold log_next. rewrite El, (inv_next _ _ _ _ _ _ _ _ _ _ _ Hi), !len_app. lia.
Qed.

(** Both kinds of log. *)
Lemma tail_outcome d w a x :
  log_at d w a → closed w = false → broken w = false → entries_ok (log_base a) (log_entries a ++ [x]) →
  match append_tail os (nextLsn w) (record_bytes (nextLsn w) x.1 x.2) w (d, w) with
  | (Ok r, (d', w')) => r = nextLsn w ∧ same_settings w w' ∧ broken w' = false ∧ log_at d' w' (appended (mode w) (groupCommit w) a x)
  | (Throw e, (d', w')) => same_settings w w' ∧
      (log_at d' w' a ∨ log_at d' w' (attempt a x) ∨
       mode w = Memory ∧ broken w' = true ∧ log_at d' w' (queued a x))
  end.
Proof.
  intros Hlog Hc Hb He. pose proof (log_at_next _ _ _ Hlog) as Hn.
  destruct Hlog as (old & first & written & waiting & attempted & n & fl & Hi & El & Hk & _).
  destruct (inv_open _ _ _ _ _ _ _ _ _ _ _ Hi Hb) as (-> & -> & _).
  rewrite El, <- !app_assoc in He. unfold appended, queued, attempt, log_at. rewrite El.
  destruct (decide (mode w = Memory)) as [Hm|Hm].
  - pose proof (tail_memory d w (log_base a) old first written waiting fl (log_durable a) x Hi Hc Hb Hm He) as Ht.
    destruct (append_tail os _ _ w (d, w)) as [[r|e] [d' w']].
    + destruct Ht as (-> & Hs & Hb' & wr & wa & Hi' & E & Hpre). split_and!; try done.
      exists old, first, wr, wa, wa, O, fl. cbn. unfold durable_after. rewrite Hm.
      rewrite (bool_decide_eq_true_2 (Memory = Memory)) by done.
      split; [done|]. rewrite <- !app_assoc, E. split; [done|].
      split; [|by left]. apply prefix_length in Hpre. unfold len in *. lia.
    + destruct Ht as (Hs & wa & n & Hi' & [->|[Hb' ->]]); (split; [done|]).
      * left. exists old, first, written, waiting, waiting, n, fl. by split_and!; [..|left].
      * right; right. split; [done|]. split; [done|].
        exists old, first, written, (waiting ++ [x]), (waiting ++ [x]), n, fl.
        cbn. rewrite <- !app_assoc. by split_and!; [..|left].
  - destruct (inv_written _ _ _ _ _ _ _ _ _ _ _ Hi Hm) as [-> _]. cbn [app] in *.
    pose proof (tail_written d w (log_base a) old first written fl (log_durable a) x Hi Hc Hb Hm He) as Ht.
    destruct (append_tail os _ _ w (d, w)) as [[r|e] [d' w']].
    + destruct Ht as (-> & Hs & Hb' & fl' & Hi'). split_and!; try done.
      exists old, first, (written ++ [x]), [], [], O, fl'. cbn. rewrite bool_decide_eq_false_2 by done.
      rewrite <- Hn, !app_nil_r, <- app_assoc. split; [done|]. split; [done|].
      split; [|by left]. rewrite (inv_next _ _ _ _ _ _ _ _ _ _ _ Hi), len_app. unfold len. cbn. lia.
    + destruct Ht as (Hs & at' & n & Hi' & [->| ->]); (split; [done|]).
      * left. exists old, first, written, [], [], n, fl. by split_and!; [..|left].
      * right; left. exists old, first, written, [], [x], n, fl. by split_and!; [..|right].
Qed.

(** [rotate], of which only a log with room in its segment is left. *)
Lemma rotate_keeps d w a :
  cleans os → log_at d w a → closed w = false → broken w = false →
  SEGMENT_HEADER_SIZE < position w → nextLsn w < 2 ^ 64 →
  match rotate os (d, w) with
  | (Ok _, (d', w')) => same_settings w w' ∧ broken w' = false ∧ nextLsn w' = nextLsn w ∧ log_at d' w' a
  | (Throw e, (d', w')) => same_settings w w' ∧ log_at d' w' a
  end.
Proof.
  intros Hclean (old & first & written & waiting & attempted & n & fl & Hi & El & Hk & _) Hc Hb Hpos Hmax.
  assert (written ++ waiting ≠ []) as Hne.
  { intros E. destruct (inv_open _ _ _ _ _ _ _ _ _ _ _ Hi Hb) as (_ & _ & Hp). rewrite E in Hp.
    destruct (header_of first) as (Hl & _ & _).
    { split; [|apply (hold_first _ _ _ _ _ _ _ _ _ (inv_hold _ _ _ _ _ _ _ _ _ _ _ Hi))].
      destruct (hold_range _ _ _ _ _ _ _ _ _ (inv_hold _ _ _ _ _ _ _ _ _ _ _ Hi)) as [_ Hr].
      apply Forall_app in Hr as [_ Hr]. apply Forall_cons in Hr as [Hr _]. apply Hr. }
    unfold segment_bytes in Hp. cbn [enc_records] in Hp. rewrite app_nil_r, Hl in Hp. lia. }
  pose proof (rotate_outcome os Hclean d w _ _ _ _ _ _ _ _ _ Hi Hc Hb Hne Hmax) as Hr.
  destruct (rotate os (d, w)) as [[u|e] [d1 w1]].
  - destruct Hr as (Hs & Hb1 & Hn1 & fl1 & Hi1). split_and!; try done.
    do 7 eexists. split; [exact Hi1|]. cbn [app]. rewrite app_nil_r, El. unfold old_entries.
    rewrite map_app, concat_app. cbn. rewrite app_nil_r. split; [done|].
    split; [|by left]. rewrite len_nil, (inv_next _ _ _ _ _ _ _ _ _ _ _ Hi). pose proof (len_nonneg waiting). lia.
  - destruct Hr as (Hs & Hn1 & wr & wa & n1 & fl1 & Hi1 & E & Hpre). split; [done|].
    exists old, first, wr, wa, wa, n1, fl1. split; [done|]. rewrite E, El. split; [done|]. split; [|by left].
    apply prefix_length in Hpre. unfold len in *. lia.
Qed.

Lemma append_outcome d w a t p :
  cleans os → log_at d w a → Forall is_byte p →
  match append os t p (d, w) with
  | (Ok lsn, (d', w')) => lsn = log_next a ∧ same_settings w w' ∧ broken w' = false ∧
      log_at d' w' (appended (mode w) (groupCommit w) a (t, p))
  | (Throw e, (d', w')) => same_settings w w' ∧
      (log_at d' w' a ∨ log_at d' w' (attempt a (t, p)) ∨
       mode w = Memory ∧ broken w' = true ∧ log_at d' w' (queued a (t, p)))
  end.
Proof.
  intros Hclean Hlog Hp. unfold append.
  destruct (closed w || broken w) eqn:Ecb.
  { destruct (assertWritable_refuses d w Ecb) as (e & E). rewrite (bind_throw _ _ _ _ _ E). split; [done|by left]. }
  apply orb_false_iff in Ecb as [Hc Hb].
  rewrite (bind_ok _ _ _ () (d, w)) by (by apply assertWritable_open). rewrite this_bind.
  pose proof (encodeRecord_spec (nextLsn w) t p Hp) as Henc. unfold mbind at 1, st_bind at 1, st_lift.
  destruct (encodeRecord (nextLsn w) t p) as [record|e]; [|by split; [|left]].
  destruct Henc as [Hok ->]. rewrite this_bind. pose proof (log_at_next _ _ _ Hlog) as Hnl.
  assert (entries_ok (log_base a) (log_entries a ++ [(t, p)])) as He.
  { destruct Hlog as (old & first & written & waiting & attempted & n & fl & Hi & El & _).
    destruct (inv_open _ _ _ _ _ _ _ _ _ _ _ Hi Hb) as (Ea & _ & _). subst attempted.
    pose proof (hold_entries _ _ _ _ _ _ _ _ _ (inv_hold _ _ _ _ _ _ _ _ _ _ _ Hi)) as He. rewrite <- El in He.
    apply entries_ok_app. split; [done|]. fold (log_next a). rewrite <- Hnl. apply entries_ok_head. split; [apply Hok|].
    split; [done|]. destruct Hok as ((H1 & H2) & _). split; [lia|]. split; [rewrite len_nil; lia|constructor]. }
  assert (∀ d1 w1, same_settings w w1 → broken w1 = false → nextLsn w1 = nextLsn w → log_at d1 w1 a →
    match append_tail os (nextLsn w) (record_bytes (nextLsn w) t p) w1 (d1, w1) with
    | (Ok lsn, (d', w')) => lsn = log_next a ∧ same_settings w w' ∧ broken w' = false ∧
        log_at d' w' (appended (mode w) (groupCommit w) a (t, p))
    | (Throw e, (d', w')) => same_settings w w' ∧
        (log_at d' w' a ∨ log_at d' w' (attempt a (t, p)) ∨
         mode w = Memory ∧ broken w' = true ∧ log_at d' w' (queued a (t, p)))
    end) as Htail.
  { intros d1 w1 Hs Hb1 Hn1 Hlog1. pose proof Hs as [Sd Sm Sg Ss Sc].
    pose proof (tail_outcome d1 w1 a (t, p) Hlog1 ltac:(congruence) Hb1 He) as Ht. rewrite Hn1 in Ht.
    cbn [fst snd] in Ht. destruct (append_tail os (nextLsn w) _ w1 (d1, w1)) as [[r|e] [d' w']].
    - destruct Ht as (-> & Hs' & Hb' & Hl). split; [done|]. split; [by destruct Hs'; split; congruence|].
      split; [done|]. unfold appended, durable_after in *. by rewrite Sm, Sg in Hl.
    - destruct Ht as (Hs' & Hl). split; [by destruct Hs'; split; congruence|]. by rewrite Sm in Hl. }
  destruct ((SEGMENT_HEADER_SIZE <? position w) && _) eqn:Erot.
  2: { unfold mbind at 1, st_bind at 1. cbn [mret st_ret]. rewrite this_bind. by apply Htail. }
  apply andb_true_iff in Erot as [Hlt%Z.ltb_lt _].
  pose proof (rotate_keeps d w a Hclean Hlog Hc Hb Hlt (proj2 (proj1 Hok))) as Hr.
  unfold mbind at 1, st_bind at 1. destruct (rotate os (d, w)) as [[u|e] [d1 w1]].
  - destruct Hr as (Hs & Hb1 & Hn1 & Hl1). rewrite this_bind. by apply Htail.
  - destruct Hr as (Hs & Hl1). split; [done|by left].
Qed.
End Append.
