(* ===== verification/WalUpkeep.v ===== *)
(** * The write-ahead log: flushing, removing old segments, closing

    The operations that append nothing, on the log as a list of records. *)

From S2P Require Import Prelude Errors JsNumber JsString Binary WalFormat Disk DiskLemmas WriteAheadLog WalLemmas WalInvariant WalOperations.
Import WalFormat WriteAheadLog.

(** Everything in the files; on stable storage too, in a log that promises it. *)
Definition kept_all (a : Log) : Log := {|
  log_base := log_base a; log_entries := log_entries a;
  log_kept := log_next a; log_durable := log_durable a; log_tried := log_tried a |}.

Definition durable_all (m : WriteConcern) (a : Log) : Log := {|
  log_base := log_base a; log_entries := log_entries a; log_kept := log_kept a;
  log_durable := if bool_decide (m = Flushed) then log_next a else log_durable a;
  log_tried := log_tried a |}.

(** The first [n] records removed. *)
Definition trimmed (a : Log) (n : nat) : Log := {|
  log_base := log_base a + Z.of_nat n; log_entries := drop n (log_entries a);
  log_kept := log_kept a; log_durable := log_durable a; log_tried := log_tried a |}.

(** Which records a truncation through [lsn] can remove. *)
Definition removable (a : Log) (lsn : Z) (n : nat) : Prop :=
  n = O ∨ (n ≤ length (log_entries a))%nat ∧ log_base a + Z.of_nat n ≤ lsn + 1.

Section Log.
Context (os : Z → Call → Outcome).

Lemma flush_keeps d w a :
  log_at d w a → closed w = false → broken w = false →
  match flush os (d, w) with
  | (Ok _, (d', w')) => same_settings w w' ∧ broken w' = false ∧ log_at d' w' (kept_all a)
  | (Throw e, (d', w')) => same_settings w w' ∧ log_at d' w' a
  end.
Proof.
  intros Hlog Hc Hb. pose proof (log_at_next _ _ _ Hlog) as Hnext.
  destruct Hlog as (old & first & written & waiting & attempted & n & fl & Hi & El & Hk & Ha).
  pose proof (flush_outcome os d w _ _ _ _ _ _ _ _ _ Hi Hc Hb) as Hf.
  destruct (flush os (d, w)) as [[u|e] [d' w']].
  - destruct Hf as (Hs & Hb' & _ & _ & _ & _ & _ & Hi'). split; [done|]. split; [done|].
    exists old, first, (written ++ waiting), [], [], O, fl. cbn. split; [done|].
    rewrite app_nil_r. split; [done|]. split; [|by left].
    rewrite <- Hnext, (inv_next _ _ _ _ _ _ _ _ _ _ _ Hi), len_app. lia.
  - destruct Hf as (Hs & _ & _ & n' & Hi'). split; [done|].
    by exists old, first, written, waiting, attempted, n', fl.
Qed.

Lemma commit_keeps d w a :
  log_at d w a → closed w = false →
  match commit os (d, w) with
  | (Ok _, (d', w')) => same_settings w w' ∧ broken w' = broken w ∧ log_at d' w' (durable_all (mode w) a)
  | (Throw e, (d', w')) => same_settings w w' ∧ log_at d' w' a
  end.
Proof.
  intros Hlog Hc. pose proof (log_at_next _ _ _ Hlog) as Hnext.
  destruct Hlog as (old & first & written & waiting & attempted & n & fl & Hi & El & Hk).
  pose proof (commit_outcome os d w _ _ _ _ _ _ _ _ _ Hi Hc) as Hf.
  destruct (commit os (d, w)) as [[u|e] [d' w']].
  - destruct Hf as (Hs & _ & _ & Hb & fl' & Hi'). split; [done|]. split; [done|].
    exists old, first, written, waiting, attempted, n, fl'. cbn. by rewrite <- Hnext.
  - destruct Hf as (Hs & _ & _ & Hi'). split; [done|].
    by exists old, first, written, waiting, attempted, n, fl.
Qed.

Lemma sync_keeps d w a :
  log_at d w a →
  match sync os (d, w) with
  | (Ok _, (d', w')) => same_settings w w' ∧ closed w = false ∧ broken w = false ∧ broken w' = false ∧
      log_at d' w' (durable_all (mode w) (kept_all a))
  | (Throw e, (d', w')) => same_settings w w' ∧ log_at d' w' a
  end.
Proof.
  intros Hlog. destruct (closed w || broken w) eqn:Ecb.
  { destruct (flush_refuses os d w Ecb) as (e & E). unfold sync. by rewrite (bind_throw _ _ _ _ _ E). }
  apply orb_false_iff in Ecb as [Hc Hb]. pose proof (log_at_next _ _ _ Hlog) as Hnext.
  destruct Hlog as (old & first & written & waiting & attempted & n & fl & Hi & El & Hk).
  pose proof (sync_outcome os d w _ _ _ _ _ _ _ _ _ Hi Hc Hb) as Hf.
  destruct (sync os (d, w)) as [[u|e] [d' w']].
  - destruct Hf as (Hs & _ & Hb' & Hi'). split_and!; try done.
    eexists old, first, (written ++ waiting), [], [], O, _. cbn. unfold log_next. cbn. fold (log_next a).
    rewrite <- Hnext, app_nil_r. split; [|split; [done|split; [|by left]]].
    + eapply inv_weaken; [exact Hi'|]. intros Hm'. destruct Hs as [_ Hm _ _ _]. rewrite Hm in Hm'.
      rewrite bool_decide_eq_true_2 by done. lia.
    + rewrite (inv_next _ _ _ _ _ _ _ _ _ _ _ Hi), len_app. lia.
  - destruct Hf as (Hs & _ & wr & wa & n' & Hi' & E & Hpre). split; [done|].
    exists old, first, wr, wa, wa, n', fl. split; [done|]. rewrite E. split; [done|]. split; [|by left].
    apply prefix_length in Hpre. unfold len in *. lia.
Qed.

(** ** [truncateThrough] *)
(** The oldest segment removed. *)
Lemma hold_tail d d' dir base f l old first written attempted n fl :
  segments_hold d dir base ((f, l) :: old) first written attempted n fl →
  files d' = omap_delete (files d) (segment_file dir f) →
  segments_hold d' dir (base + len l) old first written attempted n fl ∧
  ∀ g c fl, g ∈ map fst old ++ [first] → holds d (segment_file dir g) c fl → holds d' (segment_file dir g) c fl.
Proof.
  intros Hh Hd. pose proof Hh as [H1 H2 H3 H4 H5 H6 H7 H8].
  pose proof (chain_sorted _ _ _ H6) as [Hso _]. cbn [map fst app] in Hso.
  apply StronglySorted_inv in Hso as [_ Hlt].
  destruct (hold_range _ _ _ _ _ _ _ _ _ Hh) as [H0 Hr]. cbn [map fst app] in Hr.
  apply Forall_cons in Hr as [Hf Hr].
  assert (∀ g, g ∈ map fst old ++ [first] → segment_file dir g ≠ segment_file dir f) as Hne.
  { intros g Hg E. apply segment_file_inj in E; [|exact (proj1 (Forall_forall _ _) Hr g Hg)|done].
    pose proof (proj1 (Forall_forall _ _) Hlt g Hg) as Hg'. cbn beta in Hg'. lia. }
  assert (∀ g c fl, g ∈ map fst old ++ [first] → holds d (segment_file dir g) c fl → holds d' (segment_file dir g) c fl) as Hkeep.
  { intros g c fl' Hg H. unfold holds in *. rewrite Hd, omap_get_delete_ne; [done|]. intros E. exact (Hne g Hg (eq_sym E)). }
  split; [|exact Hkeep]. apply Forall_cons in H3 as [_ H3]. destruct H6 as (-> & _ & H6).
  split; try done.
  - rewrite Hd. by apply omap_delete_NoDup.
  - intros name. rewrite Hd. destruct (decide (name = segment_name base)) as [->|Hn].
    { fold (segment_file dir base). rewrite omap_get_delete by done. intros [? ?]. done. }
    rewrite omap_get_delete_ne by (intros E; apply Hn; exact (f_equal snd (eq_sym E))).
    intros Hs Hl. specialize (H2 name Hs Hl). cbn [map fst app] in H2. apply elem_of_cons in H2 as [H2|H2]; done.
  - apply Forall_forall. intros s Hs. pose proof (proj1 (Forall_forall _ _) H3 s Hs) as (f' & Hf' & Hle'). exists f'.
    split; [|exact Hle']. apply Hkeep; [|done]. apply elem_of_app. left. by apply list_elem_of_fmap_2.
  - apply Hkeep; [|done]. apply elem_of_app. right. by left.
  - unfold old_entries in *. cbn [map snd concat] in H7. rewrite <- app_assoc in H7.
    apply entries_ok_app in H7 as [_ H7]. exact H7.
Qed.

Lemma truncate_step d w base f l old first written waiting attempted n fl durable g :
  log_inv d w base ((f, l) :: old) first written waiting attempted n fl durable →
  map fst old ++ [first] = g →
  let rest := map (λ f, {| segment_path := segment_file (directory w) f; firstLsn := f |}) g in
  ∀ d', files d' = omap_delete (files d) (segment_file (directory w) f) →
  log_inv d' (set_segments rest (WriteAheadLog.fd w) (position w) w) (base + len l) old first written waiting attempted n fl durable.
Proof.
  intros [H1 H2 H3 H4 H5 H6 H7 H8 H9 H10 H11] <- rest d' Hd. destruct (hold_tail _ _ _ _ _ _ _ _ _ _ _ _ H1 Hd) as [Hh Hkeep].
  split; try done. intros Hm. destruct (H10 Hm) as [Ho Hr]. split; [|done].
  apply Forall_cons in Ho as [_ Ho]. apply Forall_forall. intros s Hs. pose proof (proj1 (Forall_forall _ _) Ho s Hs) as Hs'.
  apply Hkeep; [|done]. apply elem_of_app. left. by apply list_elem_of_fmap_2.
Qed.

Lemma trimmed_0 a : trimmed a 0 = a.
Proof. destruct a. unfold trimmed. cbn. by rewrite Z.add_0_r. Qed.

Lemma trimmed_trimmed a n m : trimmed (trimmed a n) m = trimmed a (n + m).
Proof. unfold trimmed. cbn. rewrite drop_drop. f_equal. lia. Qed.

Lemma set_segments_same w : set_segments (segments w) (WriteAheadLog.fd w) (position w) w = w.
Proof. by destruct w. Qed.

Lemma settings_refl w : same_settings w w.
Proof. done. Qed.

Lemma settings_trans w1 w2 w3 : same_settings w1 w2 → same_settings w2 w3 → same_settings w1 w3.
Proof. intros [] []. split; congruence. Qed.

Lemma truncate_loop_keeps fuel lsn removed d w a :
  log_at d w a →
  match truncate_loop os fuel lsn removed (d, w) with
  | (_, (d', w')) => same_settings w w' ∧ broken w' = broken w ∧
      ∃ m, log_at d' w' (trimmed a m) ∧ removable a lsn m
  end.
Proof.
  revert removed d w a. induction fuel as [|fuel IH]; intros removed d w a Hlog.
  - cbn. split; [done|]. split; [done|]. exists O. rewrite trimmed_0. split; [done|by left].
  - cbn [truncate_loop]. rewrite this_bind.
    assert (∀ r, r = (Ok (E:=exn) removed, (d, w)) ∨ (∃ e d', r = (Throw e, (d', w)) ∧ files d' = files d) →
      match r with
      | (_, (d', w')) => same_settings w w' ∧ broken w' = broken w ∧
        ∃ m, log_at d' w' (trimmed a m) ∧ removable a lsn m end) as Hstop.
    { intros r [->|(e & d' & -> & Hd)]; (split; [done|]; split; [done|]; exists O; rewrite trimmed_0; split; [|by left]); [done|].
      destruct Hlog as (old & first & written & waiting & attempted & n & fl & Hi & El & Hk).
      exists old, first, written, waiting, attempted, n, fl. split; [by eapply inv_files|done]. }
    pose proof Hlog as (old & first & written & waiting & attempted & n & fl & Hi & El & Hk).
    pose proof (inv_segments _ _ _ _ _ _ _ _ _ _ _ Hi) as Hseg.
    destruct old as [|[f l] old]; cbn [map fst app] in Hseg; rewrite Hseg; [apply Hstop; by left|].
    set (g := map fst old ++ [first]) in *.
    set (F := λ f, {| segment_path := segment_file (directory w) f; firstLsn := f |}) in *.
    destruct (map F g) as [|next rest] eqn:Eg; [unfold g in Eg; rewrite map_app in Eg; by destruct (map F _)|].
    destruct (Z.ltb_spec (lsn + 1) (firstLsn next)) as [|Hle]; [apply Hstop; by left|].
    rewrite update_bind. set (w1 := set_segments _ _ _ w).
    assert (firstLsn next = log_base a + len l) as Enext.
    { pose proof (hold_chain _ _ _ _ _ _ _ _ _ (inv_hold _ _ _ _ _ _ _ _ _ _ _ Hi)) as (_ & _ & Hch).
      unfold g in Eg. destruct old as [|[f2 l2] old]; cbn in Eg; injection Eg as <- _; cbn.
      - by rewrite <- Hch.
      - by destruct Hch as [-> _]. }
    pose proof (inv_hold _ _ _ _ _ _ _ _ _ _ _ Hi) as Hh.
    pose proof (hold_old _ _ _ _ _ _ _ _ _ Hh) as Hold. apply Forall_cons in Hold as [(fl0 & Hfile & _) _].
    cbn [fst] in Hfile. cbn [F segment_path].
    pose proof (unlink_outcome os (segment_file (directory w) f) d) as Hu.
    unfold mbind at 1, st_bind at 1, st_catch, on_disk at 1. cbn [fst snd].
    destruct (unlinkSync os (segment_file (directory w) f) d) as [[u|e] d1].
    + specialize (IH (removed + 1) d1 w1 (trimmed a (length l))).
      destruct (truncate_loop os fuel lsn (removed + 1) (d1, w1)) as [r [d' w']].
      destruct IH as (Hs & Hb & m & Hl & Hm).
      * exists old, first, written, waiting, attempted, n, fl. cbn.
        pose proof (truncate_step d w _ _ _ _ _ _ _ _ _ _ _ g Hi eq_refl d1 Hu) as Hi1. fold F in Hi1.
        cbv zeta in Hi1. rewrite Eg in Hi1. split; [exact Hi1|]. split; [|done].
        rewrite El. unfold old_entries. cbn [map snd concat]. rewrite <- app_assoc. by rewrite drop_app_length.
      * split; [eapply settings_trans; [|exact Hs]; done|]. split; [done|]. rewrite trimmed_trimmed in Hl.
        eexists. split; [exact Hl|]. right. unfold removable in Hm. cbn [trimmed log_base log_entries] in Hm.
        rewrite length_drop in Hm. assert (length l ≤ length (log_entries a))%nat as Hlen
          by (rewrite El; unfold old_entries; cbn [map snd concat]; rewrite !length_app; lia).
        unfold len in *. destruct Hm as [->|]; lia.
    + destruct Hu as [_ Hd]. rewrite update_bind. apply Hstop. right. do 2 eexists. split; [|exact Hd].
      unfold st_throw. do 2 f_equal. rewrite <- (set_segments_same w) at 2. rewrite Hseg. by destruct w.
Qed.

Lemma truncateThrough_keeps lsn d w a :
  log_at d w a →
  match truncateThrough os lsn (d, w) with
  | (_, (d', w')) => same_settings w w' ∧ broken w' = broken w ∧
      ∃ m, log_at d' w' (trimmed a m) ∧ removable a lsn m
  end.
Proof.
  intros Hlog. unfold truncateThrough. destruct (closed w || broken w) eqn:Ecb.
  { destruct (assertWritable_refuses d w Ecb) as (e & E). rewrite (bind_throw _ _ _ _ _ E).
    split; [done|]. split; [done|]. exists O. rewrite trimmed_0. split; [done|by left]. }
  apply orb_false_iff in Ecb as [Hc Hb].
  rewrite (bind_ok _ _ _ () (d, w)) by (by apply assertWritable_open). rewrite this_bind.
  pose proof (truncate_loop_keeps (length (segments w)) lsn 0 d w a Hlog) as Hl.
  unfold mbind at 1, st_bind at 1. destruct (truncate_loop os _ lsn 0 (d, w)) as [[removed|e] [d1 w1]]; [|done].
  rewrite this_bind. unfold mbind at 1, st_bind at 1. destruct ((0 <? removed) && _); [|exact Hl].
  unfold on_disk. cbn [fst snd]. pose proof (syncDirectory_outcome os (directory w1) d1) as Hs.
  assert (∀ d2, files d2 = files d1 → ∀ a, log_at d1 w1 a → log_at d2 w1 a) as Hf.
  { intros d2 Hd a' (old & first & written & waiting & attempted & n & fl & Hi & El & Hk).
    exists old, first, written, waiting, attempted, n, fl. split; [by eapply inv_files|done]. }
  destruct Hl as (Hs1 & Hb1 & m & Hlog1 & Hm).
  destruct (syncDirectory os (directory w1) d1) as [[u|e] d2]; (split; [done|]; split; [done|]; exists m; split; [by apply (Hf d2)|done]).
Qed.

(** ** [close] *)
Lemma log_at_lower d w a a' :
  log_at d w a → log_base a' = log_base a → log_entries a' = log_entries a → log_kept a' ≤ log_kept a →
  (mode w = Flushed → log_durable a' ≤ log_durable a) → log_tried a' = log_tried a → log_at d w a'.
Proof.
  intros (old & first & written & waiting & attempted & n & fl & Hi & El & Hk & Ha) E1 E2 Hk' Hd Et.
  exists old, first, written, waiting, attempted, n, fl. rewrite E1, E2, Et. split; [by eapply inv_weaken|].
  split; [done|]. split; [lia|done].
Qed.

Lemma log_at_bounds d w a :
  log_at d w a → log_kept a ≤ log_next a ∧ (mode w = Flushed → log_durable a ≤ log_next a).
Proof.
  intros Hlog. pose proof (log_at_next _ _ _ Hlog) as Hnext.
  destruct Hlog as (old & first & written & waiting & attempted & n & fl & Hi & El & Hk & _). rewrite <- Hnext. split.
  - rewrite (inv_next _ _ _ _ _ _ _ _ _ _ _ Hi). pose proof (len_nonneg waiting). lia.
  - by apply (durable_le _ _ _ _ _ _ _ _ _ _ _ Hi).
Qed.

Lemma log_at_closed d d' w a : log_at d w a → files d' = files d → log_at d' (set_closed w) a.
Proof.
  intros (old & first & written & waiting & attempted & n & fl & Hi & Hr) Hd.
  exists old, first, written, waiting, attempted, n, fl. split; [|exact Hr].
  apply (inv_files d d'); [exact Hd|]. destruct Hi as [H1 H2 H3 H4 H5 H6 H7 H8 H9 H10 H11]. by split.
Qed.

(** The last step of [close]. *)
Definition close_rest (pendingError : option exn) : action () :=
  file ← this WriteAheadLog.fd;
  _ ← update set_closed;
  _ ← (match file with
       | Some file => on_disk (or_ioError (closeSync os file) true)
       | None => mret ()
       end);
  match pendingError with Some error => st_throw error | None => mret () end.

Lemma close_tail d w a pendingError :
  log_at d w a →
  match close_rest pendingError (d, w) with
  | (r, (d', w')) => w' = set_closed w ∧ log_at d' w' a ∧ (r = Ok () → pendingError = None)
  end.
Proof.
  intros Hlog. unfold close_rest. rewrite this_bind, update_bind. unfold mbind, st_bind.
  destruct (WriteAheadLog.fd w) as [file|].
  - unfold on_disk, or_ioError, st_catch. cbn [fst snd]. pose proof (quiet_unit os (Close file) d) as Hq.
    fold (closeSync os file) in Hq. destruct (closeSync os file d) as [[u|e] d'].
    + assert (log_at d' (set_closed w) a) by (by eapply log_at_closed). by destruct pendingError.
    + destruct Hq as [_ Hq]. split; [done|]. split; [by eapply log_at_closed|done].
  - cbn. assert (log_at d (set_closed w) a) by (by eapply log_at_closed). by destruct pendingError.
Qed.

Lemma close_keeps d w a :
  log_at d w a →
  match close os (d, w) with
  | (r, (d', w')) => directory w' = directory w ∧ mode w' = mode w ∧ closed w' = true ∧ log_at d' w' a ∧
      (r = Ok () → closed w = false → broken w = false → log_at d' w' (durable_all (mode w) (kept_all a))) ∧
      (r = Ok () → broken w' = broken w) ∧ groupCommit w' = groupCommit w
  end.
Proof.
  intros Hlog. unfold close. rewrite this_bind. destruct (closed w) eqn:Hc; [done|].
  rewrite this_bind. destruct (broken w) eqn:Hb.
  { unfold mbind at 1, st_bind at 1. cbn [mret st_ret]. pose proof (close_tail d w a None Hlog) as Ht.
    match goal with |- match ?m with _ => _ end => change m with (close_rest None (d, w)) end.
    destruct (close_rest None (d, w)) as [r [d' w']]. by destruct Ht as (-> & Ht & _). }
  set (m := _ ← flush os; _ ← commit os; mret None).
  pose proof (flush_keeps d w a Hlog Hc Hb) as Hf.
  assert (match st_catch m (λ error, mret (Some error)) (d, w) with
    | (Ok None, (d', w')) => same_settings w w' ∧ broken w' = false ∧ log_at d' w' (durable_all (mode w) (kept_all a))
    | (Ok (Some _), (d', w')) => same_settings w w' ∧ log_at d' w' a
    | (Throw _, _) => False end) as Hm.
  { unfold m, st_catch. unfold mbind at 1, st_bind at 1. destruct (flush os (d, w)) as [[u|e] [d1 w1]]; [|exact Hf].
    destruct Hf as (Hs & Hb1 & Hl1). pose proof Hs as [_ Sm _ _ Sc]. rewrite Hc in Sc.
    pose proof (commit_keeps d1 w1 _ Hl1 Sc) as Hcm. unfold mbind, st_bind.
    destruct (commit os (d1, w1)) as [[u'|e] [d2 w2]]; destruct Hcm as [Hs2 Hl2].
    - cbn. split; [by eapply settings_trans|]. destruct Hl2 as [Hb2 Hl2]. split; [congruence|].
      unfold durable_all in *. by rewrite Sm in Hl2.
    - cbn. split; [by eapply settings_trans|]. apply (log_at_lower _ _ _ a Hl2); try done.
      cbn. by destruct (log_at_bounds d w a Hlog). }
  unfold mbind at 1, st_bind at 1. destruct (st_catch m _ (d, w)) as [[pendingError|e] [d1 w1]]; [|done].
  assert (same_settings w w1 ∧ (pendingError = None → broken w1 = false) ∧
    log_at d1 w1 (match pendingError with None => durable_all (mode w) (kept_all a) | _ => a end)) as (Hs & Hb1 & Hl)
    by (destruct pendingError; naive_solver).
  pose proof (close_tail d1 w1 _ pendingError Hl) as Ht. pose proof Hs as [Sd Sm Sg _ _].
  match goal with |- match ?m with _ => _ end => change m with (close_rest pendingError (d1, w1)) end.
  destruct (close_rest pendingError (d1, w1)) as [r [d' w']]. destruct Ht as (-> & Hl' & Hr). cbn. split_and!; try done.
  - destruct pendingError; [done|]. apply (log_at_lower _ _ _ a Hl'); try done; cbn; destruct (log_at_bounds d w a Hlog) as [H1 H2]; [done|].
    intros Hm1. cbn in Hm1. rewrite bool_decide_eq_true_2 by congruence. apply H2. congruence.
  - intros E _ _. by rewrite (Hr E) in Hl'.
  - intros E. exact (Hb1 (Hr E)).
Qed.
End Log.
