(* ===== verification/WalOpen.v ===== *)
(** * The write-ahead log: recovery

    What opening the log finds in the segments that a crash has left, and that it
    cuts off no more than the record that was being written. *)

From S2P Require Import Prelude Errors JsNumber JsString Binary WalFormat Disk DiskLemmas WriteAheadLog WalLemmas WalInvariant WalOperations WalUpkeep.
Import WalFormat WriteAheadLog.

(** ** Reading, which changes no file *)
Definition not_corruption (e : exn) : Prop := e ≠ StorageError Corruption.

Lemma ioError_kind e b : not_corruption (ioError e b).
Proof. unfold not_corruption, ioError. by destruct (if b then _ else _) as [c|]; [case_bool_decide; [|case_bool_decide]|]. Qed.

Definition quietly {A} (m : ST Disk exn A) (d : Disk) (Q : A → Prop) : Prop :=
  match m d with
  | (Ok a, d') => files d' = files d ∧ Q a
  | (Throw e, d') => files d' = files d ∧ not_corruption e
  end.

Lemma quietly_bind {A B} (m : ST Disk exn A) (k : A → ST Disk exn B) d Q Q' :
  quietly m d Q → (∀ a d', files d' = files d → Q a → quietly (k a) d' Q') → quietly (m ≫= k) d Q'.
Proof.
  unfold quietly, mbind, st_bind. destruct (m d) as [[a|e] d']; [|done].
  intros [Hf Ha] Hk. specialize (Hk a d' Hf Ha). rewrite <- Hf. exact Hk.
Qed.

Lemma quietly_ret {A} (a : A) d (Q : A → Prop) : Q a → quietly (mret a) d Q.
Proof. done. Qed.

Section Log.
Context (os : Z → Call → Outcome).

Lemma quietly_read file d c fl :
  holds d file c fl → quietly (readSegment os file) d (λ data, data = c).
Proof.
  intros Hh. unfold quietly, readSegment, or_ioError, st_catch, readFileSync.
  pose proof (look_outcome os (ReadFile file) file contents d c fl Hh) as Hl.
  destruct (syscall os (ReadFile file) _ d) as [[data|e] d']; [by destruct Hl|].
  destruct Hl as [_ Hl]. split; [done|]. apply ioError_kind.
Qed.

(** ** One segment *)

(** How many records [n] bytes hold, if there are so many. *)
Definition count_whole (first : Z) (l : list entry) (n : nat) : nat :=
  whole l (Z.min (Z.of_nat n) (len (enc_records first l))).

Lemma take_min {A} (l : list A) n : take n l = take (Z.to_nat (Z.min (Z.of_nat n) (len l))) l.
Proof.
  destruct (Z.min_spec (Z.of_nat n) (len l)) as [[_ ->]|[H ->]]; [by rewrite Nat2Z.id|].
  unfold len in *. rewrite Nat2Z.id, firstn_all. apply take_ge. lia.
Qed.

Lemma scan_hold first l n :
  entries_ok first l → first < 2 ^ 64 →
  ∃ stop, (stop = StopEnd ∨ stop = StopTorn) ∧ (len (enc_records first l) ≤ Z.of_nat n → stop = StopEnd) ∧
    scan_segment (segment_header_of first ++ take n (enc_records first l)) first =
      (numbered first (take (count_whole first l n) l), stop,
       len (segment_bytes first (take (count_whole first l n) l)), first + Z.of_nat (count_whole first l n)).
Proof.
  intros He Hf. rewrite (take_min _ n).
  destruct (scan_segment_prefix first l (Z.min (Z.of_nat n) (len (enc_records first l))) He Hf) as (stop & H1 & H2 & H3).
  { pose proof (len_nonneg (enc_records first l)). lia. }
  exists stop. split; [done|]. split; [|exact H3]. intros Hn. apply H2. lia.
Qed.

Lemma count_all first l n : len (enc_records first l) ≤ Z.of_nat n → count_whole first l n = length l.
Proof.
  intros H. unfold count_whole. rewrite Z.min_r by done.
  rewrite <- (app_nil_r l) at 1. rewrite <- (Z.add_0_r (len _)), whole_app by lia. cbn. lia.
Qed.

Definition info_of (dir : jsstring) (f : Z) : SegmentInfo :=
  {| segment_path := segment_file dir f; firstLsn := f |}.

Lemma recover_one_hold dir f l n isLast state d fl :
  holds d (segment_file dir f) (segment_header_of f ++ take n (enc_records f l)) fl →
  entries_ok f l → f < 2 ^ 64 →
  found state = [] ∨ f = lastLsn state + 1 →
  isLast = true ∨ len (enc_records f l) ≤ Z.of_nat n →
  quietly (recover_one os dir (segment_name f) isLast state) d (λ r, r = Some {|
    found := found state ++ [info_of dir f];
    validEnd := len (segment_bytes f (take (count_whole f l n) l));
    lastLsn := f + Z.of_nat (count_whole f l n) - 1 |}).
Proof.
  intros Hh He Hf Hst Hlast. pose proof He as (H0 & _). unfold recover_one.
  assert (2 ^ 64 < 10 ^ 20) by done. rewrite segment_lsn_name by lia.
  eapply quietly_bind; [exact (quietly_read _ _ _ _ Hh)|]. intros data d' Hd ->.
  destruct (header_of f) as (_ & _ & Hdec); [lia|]. rewrite Hdec, Z.eqb_refl. cbn [negb].
  assert ((0 <? len (found state)) && negb (f =? lastLsn state + 1) = false) as ->.
  { destruct Hst as [->| ->]; [done|]. rewrite Z.eqb_refl. apply andb_false_r. }
  destruct (scan_hold f l n He Hf) as (stop & Hs & Hend & ->).
  destruct Hs as [->| ->]; [by apply quietly_ret|].
  destruct Hlast as [->|Hl]; [by apply quietly_ret|]. by specialize (Hend Hl).
Qed.

(** ** All segments *)
Lemma quietly_weaken {A} (m : ST Disk exn A) d (Q Q' : A → Prop) :
  quietly m d Q → (∀ a, Q a → Q' a) → quietly m d Q'.
Proof. unfold quietly. destruct (m d) as [[a|e] d']; [|done]. naive_solver. Qed.

Lemma holds_files d d' file c fl : files d' = files d → holds d file c fl → holds d' file c fl.
Proof. unfold holds. by intros ->. Qed.

Lemma quietly_files {A B} (m : ST Disk exn A) (k : A → ST Disk exn B) d Q (R : res exn B * Disk → Prop) :
  quietly m d Q →
  (∀ a d', files d' = files d → Q a → R (k a d')) →
  (∀ e d', files d' = files d → not_corruption e → R (Throw e, d')) →
  R ((m ≫= k) d).
Proof.
  unfold quietly, mbind, st_bind. destruct (m d) as [[a|e] d'].
  - intros [Hd Ha] Hk _. by apply Hk.
  - intros [Hd He] _ Ht. by apply Ht.
Qed.

(** The segments before the last are read; what follows them decides. *)
Definition after_segments (dir : jsstring) (segs : list (Z * list entry)) (state : RecoveredSegments)
    : RecoveredSegments :=
  fold_left (λ state s, {|
    found := found state ++ [info_of dir s.1];
    validEnd := len (segment_bytes s.1 s.2);
    lastLsn := s.1 + len s.2 - 1 |}) segs state.

Lemma after_segments_found dir segs state :
  found (after_segments dir segs state) = found state ++ map (info_of dir) (map fst segs).
Proof.
  revert state. induction segs as [|s segs IH]; intros state; cbn [map]; [by rewrite app_nil_r|].
  unfold after_segments in *. cbn [fold_left]. rewrite IH. cbn [found]. by rewrite <- app_assoc.
Qed.

Lemma recover_old dir old : ∀ base rest state d (R : res exn RecoveredSegments * Disk → Prop) first,
  rest ≠ [] → chain base old first → entries_ok base (old_entries old) → first < 2 ^ 64 →
  Forall (whole_file d dir) old →
  found state = [] ∨ base = lastLsn state + 1 →
  (∀ d', files d' = files d →
    (found (after_segments dir old state) = [] ∨ first = lastLsn (after_segments dir old state) + 1) →
    R (recover_loop os dir rest (after_segments dir old state) d')) →
  (∀ e d', files d' = files d → not_corruption e → R (Throw e, d')) →
  R (recover_loop os dir (map segment_name (map fst old) ++ rest) state d).
Proof.
  induction old as [|[f l] old IH]; intros base rest state d R first Hr Hc He Hf Ho Hs Hk Ht.
  { cbn in *. subst first. by apply Hk. }
  destruct Hc as (-> & Hne & Hc). apply Forall_cons in Ho as [(fl & Hh & _) Ho]. cbn [fst snd] in Hh.
  unfold old_entries in He. cbn [map snd concat] in He. apply entries_ok_app in He as [He1 He2].
  cbn [map fst app recover_loop].
  assert (base < 2 ^ 64) as Hb.
  { apply chain_first in Hc. pose proof (len_nonneg l). pose proof (len_nonneg (old_entries old)). lia. }
  unfold segment_bytes in Hh. rewrite <- (firstn_all (enc_records base l)) in Hh.
  assert (len (enc_records base l) ≤ Z.of_nat (length (enc_records base l))) as Hn by (unfold len; lia).
  pose proof (recover_one_hold dir base l _ (bool_decide (map segment_name (map fst old) ++ rest = [])) state d fl Hh He1 Hb Hs (or_intror Hn)) as Hq.
  rewrite (count_all _ _ _ Hn) in Hq. rewrite (firstn_all l) in Hq.
  eapply quietly_files; [exact Hq| |exact Ht]. intros a d' Hd ->.
  apply (IH (base + len l) rest _ d' R first); try done.
  - eapply Forall_impl; [exact Ho|]. intros s. apply whole_file_mono. by rewrite Hd.
  - right. cbn. unfold len. lia.
  - intros d2 Hd2 Hlast. apply Hk; [exact (eq_trans Hd2 Hd)|exact Hlast].
  - intros e d2 Hd2 Hnc. apply Ht; [exact (eq_trans Hd2 Hd)|exact Hnc].
Qed.

(** The names of the segments, in the order of their numbers. *)
Lemma listed (m : list (path * File)) dir :
  NoDup (omap_keys m) →
  let names := omap (λ f : path * File, if decide (f.1.1 = dir) then Some f.1.2 else None) m in
  NoDup names ∧ ∀ name, name ∈ names ↔ is_Some (omap_get m (dir, name)).
Proof.
  induction m as [|[[dir' name'] f] m IH]; cbn [omap_keys map omap list_omap fst snd].
  { intros _. split; [constructor|]. intros name. cbn. split; [intros H%not_elem_of_nil; done|by intros []]. }
  intros [Hn Hm]%NoDup_cons. destruct (IH Hm) as [H1 H2]. cbn [omap_get].
  assert (dir' = dir → name' ∉ omap (λ f : path * File, if decide (f.1.1 = dir) then Some f.1.2 else None) m) as Hnew.
  { intros -> H%H2. apply Hn. destruct (omap_get m (dir, name')) eqn:E; [|by destruct H].
    apply omap_get_Some_in in E. by apply (list_elem_of_fmap_2 fst) in E. }
  destruct (decide (dir' = dir)) as [->|Hd].
  - split; [apply NoDup_cons; split; [by apply Hnew|done]|]. intros name. rewrite elem_of_cons, H2.
    destruct (decide ((dir, name) = (dir, name'))) as [E|E].
    + split; [by eexists|]. intros _. left. by injection E.
    + split; [|by right]. intros [->|H]; [by destruct E|done].
  - split; [done|]. intros name. rewrite H2. destruct (decide ((dir, name) = (dir', name'))) as [E|E]; [|done].
    injection E as -> _. done.
Qed.

Lemma quietly_names dir d firsts :
  NoDup (omap_keys (files d)) → StronglySorted Z.lt firsts → Forall (λ z, 0 ≤ z < 10 ^ 20) firsts →
  (∀ name, is_Some (omap_get (files d) (dir, name)) → is_Some (segment_lsn name) → name ∈ map segment_name firsts) →
  (∀ f, f ∈ firsts → is_Some (omap_get (files d) (segment_file dir f))) →
  quietly (or_ioError (readdirSync os dir) true) d (λ names, segment_names names = map segment_name firsts).
Proof.
  intros Hn Hs Hr Honly Hall. unfold quietly, or_ioError, st_catch, readdirSync.
  match goal with |- context [syscall os ?call (λ _, st_get ?x) d] =>
    pose proof (quiet_outcome os call x d) as Hq; cbn beta in Hq;
    destruct (syscall os call (λ _, st_get x) d) as [[names|e] d'] end.
  2: { destruct Hq as [_ Hq]; [by intros d'' ->|]. split; [done|]. apply ioError_kind. }
  destruct Hq as [-> Hq]; [by intros d'' ->|]. split; [done|].
  destruct (listed (files d) dir Hn) as [Hnd Hin].
  apply segment_names_sorted; try done. intros name. rewrite Hin. split.
  - intros [H1 H2]. by apply Honly.
  - intros (f & -> & Hf)%list_elem_of_fmap. split; [by apply Hall|].
    rewrite segment_lsn_name; [by eexists|]. exact (proj1 (Forall_forall _ _) Hr f Hf).
Qed.

Lemma hold_listing d dir base old first written attempted n fl :
  segments_hold d dir base old first written attempted n fl →
  StronglySorted Z.lt (map fst old ++ [first]) ∧ Forall (λ z, 0 ≤ z < 10 ^ 20) (map fst old ++ [first]) ∧
  ∀ f, f ∈ map fst old ++ [first] → is_Some (omap_get (files d) (segment_file dir f)).
Proof.
  intros Hh. destruct (hold_range _ _ _ _ _ _ _ _ _ Hh) as [_ Hr].
  destruct (chain_sorted _ _ _ (hold_chain _ _ _ _ _ _ _ _ _ Hh)) as [Hso _].
  split; [done|]. split; [done|]. intros f [Hf|Hf]%elem_of_app.
  - apply list_elem_of_fmap in Hf as (s & -> & Hs).
    destruct (proj1 (Forall_forall _ _) (hold_old _ _ _ _ _ _ _ _ _ Hh) s Hs) as (fl' & Hf & _). rewrite Hf. by eexists.
  - apply list_elem_of_singleton in Hf as ->. pose proof (hold_active _ _ _ _ _ _ _ _ _ Hh) as Ha. rewrite Ha. by eexists.
Qed.

Lemma recoverSegments_hold d dir base old first l n fl :
  segments_hold d dir base old first [] l n fl →
  quietly (recoverSegments os dir) d (λ r, r = {|
    found := map (info_of dir) (map fst old ++ [first]);
    validEnd := len (segment_bytes first (take (count_whole first l n) l));
    lastLsn := first + Z.of_nat (count_whole first l n) - 1 |}).
Proof.
  intros Hh. pose proof Hh as [H1 H2 H3 H4 _ H6 H7 H8]. destruct (hold_listing _ _ _ _ _ _ _ _ _ Hh) as (Hso & Hr & Hall).
  unfold recoverSegments. eapply quietly_bind; [by apply (quietly_names dir d (map fst old ++ [first]))|].
  intros names d1 Hd1 ->. rewrite map_app. cbn [map].
  pose proof (chain_first _ _ _ H6) as Ef. cbn [app] in H7. apply entries_ok_app in H7 as [He1 He2]. rewrite <- Ef in He2.
  apply (recover_old dir old base [segment_name first] _ d1 (λ r, match r with
    | (Ok a, d') => files d' = files d1 ∧ a = _ | (Throw e, d') => files d' = files d1 ∧ not_corruption e end) first); try done.
  - eapply Forall_impl; [exact H3|]. intros s. apply whole_file_mono. by rewrite Hd1.
  - by left.
  - intros d2 Hd2 Hlast. set (state := after_segments _ _ _) in *. cbn [recover_loop app] in *.
    rewrite len_nil, Z.add_0_r in H4. unfold segment_bytes in H4. cbn [enc_records] in H4. rewrite app_nil_r in H4.
    pose proof (recover_one_hold dir first l n true state d2 fl) as Hq.
    assert (holds d2 (segment_file dir first) (segment_header_of first ++ take n (enc_records first l)) fl) as Hh2
      by exact (holds_files _ _ _ _ _ (eq_trans Hd2 Hd1) H4).
    specialize (Hq Hh2 He2 H8 Hlast (or_introl eq_refl)). rewrite bool_decide_eq_true_2 by done.
    eapply quietly_files; [exact Hq| |].
    + intros a d3 Hd3 ->. cbn [recover_loop mret st_ret]. split; [exact (eq_trans Hd3 Hd2)|].
      unfold state. rewrite after_segments_found, map_app. reflexivity.
    + intros e d3 Hd3 He. split; [exact (eq_trans Hd3 Hd2)|exact He].
Qed.
End Log.

(** * The write-ahead log: opening

    [open] on what a crash can have left behind: whole segments, the last with a
    record cut short, and perhaps the beginning of one more segment. *)
Import WalFormat WriteAheadLog.

(** ** Directories *)
Record whole_segments (d : Disk) (dir : jsstring) (base : Z) (segs : list (Z * list entry)) (next : Z) : Prop := {
  whole_names : NoDup (omap_keys (files d));
  whole_only : ∀ name, is_Some (omap_get (files d) (dir, name)) → is_Some (segment_lsn name) →
    name ∈ map segment_name (map fst segs);
  whole_files : Forall (whole_file d dir) segs;
  whole_chain : chain base segs next;
  whole_entries : entries_ok base (old_entries segs);
  whole_next : next < 2 ^ 64;
}.

(** A segment of which not even the header was written; the rest is [d0]. *)
Record stray (d0 d : Disk) (dir : jsstring) (next : Z) : Prop := {
  stray_names : NoDup (omap_keys (files d));
  stray_others : ∀ p, p ≠ segment_file dir next → omap_get (files d) p = omap_get (files d0) p;
  stray_new : omap_get (files d0) (segment_file dir next) = None;
  stray_file : ∃ k fl, holds d (segment_file dir next) (take k (segment_header_of next)) fl ∧
    (k < length (segment_header_of next))%nat;
}.

(** The records [l] from the number [base] on, as a crash may leave them. *)
Inductive image (d : Disk) (dir : jsstring) (base : Z) (l : list entry) : Prop :=
  | image_hold old first l' n fl :
      segments_hold d dir base old first [] l' n fl →
      l = old_entries old ++ take (count_whole first l' n) l' → image d dir base l
  | image_none :
      whole_segments d dir base [] 1 → base = 1 → l = [] → image d dir base l
  | image_stray d0 segs next :
      whole_segments d0 dir base segs next → stray d0 d dir next →
      (segs = [] → base = 1) → l = old_entries segs → image d dir base l.

Definition all_flushed (d : Disk) : Prop :=
  ∀ p f, omap_get (files d) p = Some f → flushed f = len (contents f).

(** The same files. *)
Record same_files (d d' : Disk) : Prop := {
  same_names : NoDup (omap_keys (files d'));
  same_get : ∀ p, omap_get (files d') p = omap_get (files d) p;
}.

Lemma same_files_eq d d' : NoDup (omap_keys (files d)) → files d' = files d → same_files d d'.
Proof. intros H E. split; [by rewrite E|]. intros p. by rewrite E. Qed.

Lemma same_files_trans d1 d2 d3 : same_files d1 d2 → same_files d2 d3 → same_files d1 d3.
Proof. intros [_ H2] [H3 H4]. split; [done|]. intros p. by rewrite H4, H2. Qed.

Lemma whole_same d d' dir base segs next :
  same_files d d' → whole_segments d dir base segs next → whole_segments d' dir base segs next.
Proof.
  intros [Hn Hg] [H1 H2 H3 H4 H5 H6]. split; try assumption.
  - intros name. rewrite Hg. apply H2.
  - eapply Forall_impl; [exact H3|]. intros s. apply whole_file_mono, Hg.
Qed.

Lemma image_same d d' dir base l : same_files d d' → image d dir base l → image d' dir base l.
Proof.
  intros Hs [old first l' n fl Hh ->|Hw Hb Hl|d0 segs next Hw [H1 H2 H3 (k & fl & H4 & H5)] Hb Hl].
  - eapply image_hold; [|reflexivity]. destruct Hs as [Hn Hg]. exact (hold_same _ _ _ _ _ _ _ _ _ _ Hn Hg Hh).
  - apply image_none; [|done|done]. by eapply whole_same.
  - destruct Hs as [Hn Hg]. eapply image_stray; [exact Hw| |done|done]. split; [done| |done|].
    + intros p Hp. rewrite Hg. by apply H2.
    + exists k, fl. unfold holds. by rewrite Hg.
Qed.

Lemma flushed_same d d' : same_files d d' → all_flushed d → all_flushed d'.
Proof. intros [_ Hg] H p f. rewrite Hg. apply H. Qed.

(** Whole records are a beginning of the bytes. *)
Lemma whole_prefix l : ∀ first m, 0 ≤ m →
  len (enc_records first (take (whole l m) l)) ≤ m.
Proof.
  induction l as [|[t p] l IH]; intros first m Hm; [by cbn|]. cbn [whole snd].
  destruct (Z.leb_spec (RECORD_HEADER_SIZE + len p) m) as [Hle|]; [|by cbn].
  cbn [take enc_records]. rewrite len_app, record_bytes_len.
  specialize (IH (first + 1) (m - (RECORD_HEADER_SIZE + len p))). lia.
Qed.

Lemma take_whole first l n :
  let k := count_whole first l n in
  (length (enc_records first (take k l)) ≤ length (take n (enc_records first l)))%nat ∧
  take (length (enc_records first (take k l))) (take n (enc_records first l)) = enc_records first (take k l).
Proof.
  intros k. pose proof (len_nonneg (enc_records first l)).
  pose proof (whole_prefix l first (Z.min (Z.of_nat n) (len (enc_records first l)))) as Hp.
  fold (count_whole first l n) in Hp. fold k in Hp.
  assert (length (enc_records first (take k l)) ≤ n)%nat as Hn by (unfold len in *; lia).
  assert (enc_records first l = enc_records first (take k l) ++ enc_records (first + len (take k l)) (drop k l)) as E
    by (by rewrite <- enc_records_app, take_drop).
  split.
  - rewrite E, length_take, length_app. lia.
  - rewrite take_take, Nat.min_l by done. rewrite E at 1. by rewrite take_app_length.
Qed.

Lemma after_segments_snoc dir segs s state :
  after_segments dir (segs ++ [s]) state = {|
    found := map (info_of dir) (map fst (segs ++ [s])) ;
    validEnd := len (segment_bytes s.1 s.2);
    lastLsn := s.1 + len s.2 - 1 |} ∨ found state ≠ [].
Proof.
  destruct (found state) eqn:E; [left|by right]. unfold after_segments. rewrite fold_left_app. cbn.
  fold (after_segments dir segs state). rewrite after_segments_found, E, !map_app. done.
Qed.

(** The last whole segment is the active one. *)
Lemma whole_last d dir base old f l next :
  whole_segments d dir base (old ++ [(f, l)]) next →
  ∃ fl, segments_hold d dir base old f [] l (length (enc_records f l)) fl.
Proof.
  intros [H1 H2 H3 H4 H5 H6]. apply Forall_app in H3 as [H3 H7]. apply Forall_cons in H7 as [(fl & Hf & Hle) _].
  cbn [fst snd] in *. exists fl.
  assert (chain base old f ∧ f ≤ next) as [Hc Hfn].
  { clear -H4. revert base H4. induction old as [|[f' l'] old IH]; intros base; cbn [app chain].
    - intros (-> & _ & <-). split; [done|]. pose proof (len_nonneg l). lia.
    - intros (-> & Hne & Hc). destruct (IH _ Hc). done. }
  assert (segment_bytes f [] ++ take (length (enc_records f l)) (enc_records (f + len ([] : list entry)) l) = segment_bytes f l) as E.
  { rewrite len_nil, Z.add_0_r, firstn_all. unfold segment_bytes. cbn [enc_records]. by rewrite app_nil_r. }
  split; [exact H1| |exact H3|by rewrite E|by rewrite E|exact Hc| |lia].
  - intros name Hs Hl. specialize (H2 name Hs Hl). by rewrite map_app in H2.
  - cbn [app]. unfold old_entries in *. rewrite map_app, concat_app in H5. cbn in H5. by rewrite app_nil_r in H5.
Qed.

Section Open.
Context (os : Z → Call → Outcome).

(** What reading finds, in a state where the segments are as they should be. *)
Inductive found_state (d : Disk) (dir : jsstring) (base : Z) (l : list entry) : RecoveredSegments → Prop :=
  | found_hold old first l' n fl :
      segments_hold d dir base old first [] l' n fl →
      l = old_entries old ++ take (count_whole first l' n) l' →
      found_state d dir base l {|
        found := map (info_of dir) (map fst old ++ [first]);
        validEnd := len (segment_bytes first (take (count_whole first l' n) l'));
        lastLsn := first + Z.of_nat (count_whole first l' n) - 1 |}
  | found_none r :
      whole_segments d dir base [] 1 → base = 1 → l = [] → found r = [] → found_state d dir base l r.

Lemma found_same d d' dir base l r : same_files d d' → found_state d dir base l r → found_state d' dir base l r.
Proof.
  intros Hs [old first l' n fl Hh ->|Hw Hb Hl].
  - eapply found_hold; [|reflexivity]. destruct Hs as [Hn Hg]. exact (hold_same _ _ _ _ _ _ _ _ _ _ Hn Hg Hh).
  - apply found_none; try done. by eapply whole_same.
Qed.

Lemma found_image d dir base l r : found_state d dir base l r → image d dir base l.
Proof. intros [old first l' n fl Hh ->|Hw Hb Hl]; [by eapply image_hold|by apply image_none]. Qed.

Definition start : RecoveredSegments := {| found := []; validEnd := SEGMENT_HEADER_SIZE; lastLsn := 0 |}.

(** Segments whole, found. *)
Lemma found_whole d dir base segs next :
  whole_segments d dir base segs next → (segs = [] → base = 1) →
  found_state d dir base (old_entries segs) (after_segments dir segs start).
Proof.
  intros Hw Hb. destruct segs as [|[f l] old _] using rev_ind.
  - specialize (Hb eq_refl) as ->. apply found_none; try done. pose proof (whole_chain _ _ _ _ _ Hw) as Hc.
    cbn in Hc. by subst next.
  - destruct (after_segments_snoc dir old (f, l) start) as [->|]; [|done].
    destruct (whole_last _ _ _ _ _ _ _ Hw) as (fl & Hh).
    assert (count_whole f l (length (enc_records f l)) = length l) as Ek by (apply count_all; unfold len; lia).
    pose proof (found_hold d dir base (old_entries (old ++ [(f, l)])) old f l _ fl Hh) as Hf.
    rewrite Ek, firstn_all in Hf. rewrite map_app. apply Hf.
    unfold old_entries. rewrite map_app, concat_app. cbn. by rewrite app_nil_r.
Qed.

Lemma stray_header next k :
  (k < length (segment_header_of next))%nat → 0 ≤ next < 2 ^ 64 →
  decodeSegmentHeader (take k (segment_header_of next)) = HeaderBad HeaderIncomplete ∧
  isIncompleteHeader (take k (segment_header_of next)) = true.
Proof.
  intros Hk Hn. destruct (header_of next Hn) as (Hl & _ & _). unfold decodeSegmentHeader, isIncompleteHeader.
  assert (len (take k (segment_header_of next)) < SEGMENT_HEADER_SIZE) as H by (unfold len in *; rewrite length_take; lia).
  apply Z.ltb_lt in H. by rewrite H.
Qed.

Lemma syncDirectory_error dir d :
  match syncDirectory os dir d with (Throw e, _) => not_corruption e | _ => True end.
Proof.
  assert (∀ e, not_corruption (ioError e false)) as Hio by (intros; apply ioError_kind).
  assert (∀ call d, match syscall os call (λ _, mret ()) d with (Throw e, _) => not_corruption e | _ => True end) as Hsys.
  { intros call d1. pose proof (quiet_unit os call d1) as Hq. destruct (syscall os call _ d1) as [[u|e] d2]; [done|].
    by destruct Hq as [[code ->] _]. }
  unfold syncDirectory, st_catch, mbind, st_bind.
  destruct (syscall os (OpenDirectory dir) _ d) as [[u|e] d1]; cbn [mret st_ret].
  - unfold st_finally.
    assert (∀ r : res exn () * Disk, (∀ e, r.1 = Throw e → not_corruption e) →
      match (let (r, s) := r in match syscall os (CloseDirectory dir) (λ _, mret ()) s with
             | (Ok _, s) => (r, s) | (Throw e, s) => (Throw e, s) end) with
      | (Throw e, _) => not_corruption e | _ => True end) as Hfin.
    { intros [r s] Hr. specialize (Hsys (CloseDirectory dir) s).
      destruct (syscall os (CloseDirectory dir) _ s) as [[u'|e] s']; [|done]. destruct r as [|e]; [done|]. by apply Hr. }
    apply Hfin. destruct (syscall os (FsyncDirectory dir) _ d1) as [[u'|e] d2]; [done|].
    destruct (errnoOf e) as [code|]; [destruct (bool_decide _)|]; cbn; [done| |]; intros e' [= <-]; exact (Hio e).
  - destruct (errnoOf e) as [code|]; [|apply Hio]. destruct (bool_decide _); [done|apply Hio].
Qed.

(** The beginning of a segment removed. *)
Lemma recover_stray d0 d dir base segs next :
  whole_segments d0 dir base segs next → stray d0 d dir next →
  match recover_one os dir (segment_name next) true (after_segments dir segs start) d with
  | (Ok r, d') => r = None ∧ same_files d0 d'
  | (Throw e, d') => not_corruption e ∧ (files d' = files d ∨ same_files d0 d')
  end.
Proof.
  intros Hw [H1 H2 H3 (k & fl & H4 & H5)]. pose proof Hw as [W1 W2 W3 W4 W5 W6].
  assert (0 ≤ next) as H0.
  { apply chain_first in W4. destruct W5 as (W5 & _). pose proof (len_nonneg (old_entries segs)). lia. }
  destruct (stray_header next k H5 (conj H0 W6)) as [Ed Ei].
  unfold recover_one. assert (2 ^ 64 < 10 ^ 20) by done. rewrite segment_lsn_name by lia.
  pose proof (quietly_read os (segment_file dir next) d _ fl H4) as Hq. unfold quietly in Hq.
  unfold mbind at 1, st_bind at 1. fold (segment_file dir next).
  destruct (readSegment os (segment_file dir next) d) as [[data|e] d1].
  2: { destruct Hq as [Hd Hq]. split; [exact Hq|by left]. }
  destruct Hq as [Hd ->]. rewrite Ed. rewrite Ei. cbn [andb].
  assert (omap_get (files d1) (segment_file dir next) = Some {| contents := take k (segment_header_of next); flushed := fl |}) as Hg
    by (rewrite Hd; exact H4).
  pose proof (unlink_outcome os (segment_file dir next) d1) as Hu. unfold mbind at 1, st_bind at 1.
  destruct (unlinkSync os (segment_file dir next) d1) as [[u|e] d2].
  2: { destruct Hu as [[code ->] Hu]. split; [done|]. left. by rewrite Hu. }
  assert (same_files d0 d2) as Hs.
  { rewrite Hd in Hu. split.
    - rewrite Hu. by apply omap_delete_NoDup.
    - intros p. rewrite Hu. destruct (decide (p = segment_file dir next)) as [->|Hp].
      + by rewrite omap_get_delete.
      + rewrite omap_get_delete_ne by (intros E; apply Hp; exact (eq_sym E)). by apply H2. }
  pose proof (syncDirectory_outcome os dir d2) as Hsy. unfold mbind at 1, st_bind at 1.
  pose proof (syncDirectory_error dir d2) as He. pose proof (whole_names _ _ _ _ _ Hw) as Hn0.
  destruct (syncDirectory os dir d2) as [[u'|e] d3].
  - split; [done|]. eapply same_files_trans; [exact Hs|]. apply same_files_eq; [apply Hs|exact Hsy].
  - split; [exact He|]. right. eapply same_files_trans; [exact Hs|]. apply same_files_eq; [apply Hs|exact Hsy].
Qed.

Lemma flushed_stray d0 d dir next : stray d0 d dir next → all_flushed d → all_flushed d0.
Proof.
  intros [_ H2 H3 _] H p f Hp. destruct (decide (p = segment_file dir next)) as [->|Hne]; [by rewrite H3 in Hp|].
  apply (H p). by rewrite H2.
Qed.

Lemma stray_listing d0 d dir base segs next :
  whole_segments d0 dir base segs next → stray d0 d dir next →
  Forall (whole_file d dir) segs ∧
  quietly (or_ioError (readdirSync os dir) true) d
    (λ names, segment_names names = map segment_name (map fst segs ++ [next])).
Proof.
  intros [W1 W2 W3 W4 W5 W6] [H1 H2 H3 (k & fl & H4 & _)].
  assert (Forall (whole_file d dir) segs) as Hw.
  { eapply Forall_impl; [exact W3|]. intros s Hs. apply (whole_file_mono d0); [|exact Hs].
    apply H2. intros E. destruct Hs as (fl' & Hs & _). unfold holds in Hs. rewrite E, H3 in Hs. discriminate Hs. }
  split; [exact Hw|]. destruct (chain_sorted _ _ _ W4) as [Hso Hr].
  apply quietly_names; [exact H1|exact Hso| | |].
  - destruct W5 as (W5 & _). eapply Forall_impl; [exact Hr|]. intros z Hz. cbn in Hz.
    assert (2 ^ 64 < 10 ^ 20) by done. lia.
  - intros name Hs Hl. rewrite map_app, elem_of_app. destruct (decide (name = segment_name next)) as [->|Hne].
    + right. by left.
    + left. apply W2; [|exact Hl]. rewrite H2 in Hs; [exact Hs|]. intros E. apply Hne. exact (f_equal snd E).
  - intros f [Hf|Hf]%elem_of_app.
    + apply list_elem_of_fmap in Hf as (s & -> & Hs).
      destruct (proj1 (Forall_forall _ _) Hw s Hs) as (fl' & Hf & _). rewrite Hf. by eexists.
    + apply list_elem_of_singleton in Hf as ->. rewrite H4. by eexists.
Qed.

Definition recovered (d : Disk) (dir : jsstring) (base : Z) (l : list entry)
    (r : res exn RecoveredSegments * Disk) : Prop :=
  match r with
  | (Ok r, d') => found_state d' dir base l r ∧ (all_flushed d → all_flushed d')
  | (Throw e, d') => not_corruption e ∧ image d' dir base l ∧ (all_flushed d → all_flushed d')
  end.

Lemma recover_image d dir base l :
  image d dir base l → recovered d dir base l (recoverSegments os dir d).
Proof.
  intros Him. assert (NoDup (omap_keys (files d))) as Hn.
  { destruct Him as [? ? ? ? ? Hh _|Hw _ _|d0 segs next _ Hs _ _]; [apply Hh|apply Hw|apply Hs]. }
  assert (∀ d', files d' = files d → image d' dir base l ∧ (all_flushed d → all_flushed d')) as Hsame.
  { intros d' E. pose proof (same_files_eq d d' Hn E) as Hs.
    split; [by apply (image_same d)|by apply flushed_same]. }
  pose proof Him as [old first l' n fl Hh El|Hw Hb El|d0 segs next Hw Hs Hb El].
  - unfold recovered. pose proof (recoverSegments_hold os d dir base old first l' n fl Hh) as Hq. unfold quietly in Hq.
    destruct (recoverSegments os dir d) as [[r|e] d'].
    + destruct Hq as [Hd ->]. split; [|by apply Hsame]. apply (found_same d); [by apply same_files_eq|].
      by apply (found_hold _ _ _ _ old first l' n fl).
    + destruct Hq as [Hd Hq]. split; [exact Hq|by apply Hsame].
  - unfold recoverSegments. pose proof Hw as [W1 W2 _ _ _ _].
    pose proof (quietly_names os dir d [] W1 ltac:(constructor) ltac:(constructor) W2) as Hq.
    eapply (quietly_files _ _ d _ (recovered d dir base l)).
    + apply Hq. by intros f Hf%not_elem_of_nil.
    + intros names d' Hd ->. cbn. split; [|by apply Hsame]. apply (found_same d); [by apply same_files_eq|].
      by apply found_none.
    + intros e d' Hd He. split; [exact He|by apply Hsame].
  - unfold recoverSegments. destruct (stray_listing _ _ _ _ _ _ Hw Hs) as [Hfiles Hq].
    eapply (quietly_files _ _ d _ (recovered d dir base l)); [exact Hq| |].
    2: { intros e d' Hd He. split; [exact He|by apply Hsame]. }
    intros names d1 Hd1 ->. rewrite map_app. fold start.
    apply (recover_old os dir segs base [segment_name next] start d1 (recovered d dir base l) next); try done.
    + apply Hw.
    + apply Hw.
    + apply Hw.
    + eapply Forall_impl; [exact Hfiles|]. intros s. apply whole_file_mono. by rewrite Hd1.
    + by left.
    + intros d2 Hd2 _. cbn [recover_loop]. rewrite bool_decide_eq_true_2 by done.
      pose proof (same_files_eq d d2 Hn (eq_trans Hd2 Hd1)) as Hsf.
      assert (stray d0 d2 dir next) as Hs2.
      { destruct Hs as [S1 S2 S3 (k & fl & S4 & S5)], Hsf as [F1 F2]. split; [done| |done|].
        - intros p Hp. rewrite F2. by apply S2.
        - exists k, fl. unfold holds. by rewrite F2. }
      pose proof (recover_stray d0 d2 dir base segs next Hw Hs2) as Hr. unfold recovered, mbind, st_bind.
      assert (∀ d3, same_files d0 d3 → all_flushed d → all_flushed d3) as Hfl0.
      { intros d3 H Hfl. eapply flushed_same; [exact H|]. exact (flushed_stray _ _ _ _ Hs Hfl). }
      destruct (recover_one os dir (segment_name next) true (after_segments dir segs start) d2) as [[r|e] d3].
      * destruct Hr as [-> Hr]. cbn. split; [|by apply Hfl0]. subst l. eapply found_same; [exact Hr|].
        by apply (found_whole d0 dir base segs next).
      * destruct Hr as [He [Hr|Hr]]; (split; [exact He|]).
        -- apply Hsame. exact (eq_trans Hr (eq_trans Hd2 Hd1)).
        -- split; [|by apply Hfl0]. subst l. eapply image_same; [exact Hr|]. eapply found_image.
           by apply (found_whole d0 dir base segs next).
    + intros e d' Hd He. split; [exact He|]. apply Hsame. exact (eq_trans Hd Hd1).
Qed.

(** ** The active segment *)
Lemma hold_bytes first l n :
  segment_bytes first [] ++ take n (enc_records (first + len ([] : list entry)) l) =
  segment_header_of first ++ take n (enc_records first l).
Proof. rewrite len_nil, Z.add_0_r. unfold segment_bytes. cbn [enc_records]. by rewrite app_nil_r. Qed.

Lemma cut_bytes first l n :
  let k := count_whole first l n in
  let data := segment_header_of first ++ take n (enc_records first l) in
  0 ≤ len (segment_bytes first (take k l)) ≤ len data ∧
  take (Z.to_nat (len (segment_bytes first (take k l)))) data = segment_bytes first (take k l).
Proof.
  intros k data. destruct (take_whole first l n) as [Hl Ht]. fold k in Hl, Ht. unfold segment_bytes, data. split.
  - split; [apply len_nonneg|]. rewrite !len_app. unfold len. lia.
  - rewrite len_app. unfold len at 1 2. rewrite <- Nat2Z.inj_add, Nat2Z.id.
    rewrite take_app_ge by lia. rewrite Nat.add_comm, Nat.add_sub. by rewrite Ht.
Qed.

Lemma count_cut first l n :
  let k := count_whole first l n in
  count_whole first l (length (enc_records first (take k l))) = k.
Proof.
  intros k. unfold count_whole. assert (k ≤ length l)%nat as Hk by apply whole_length.
  assert (enc_records first l = enc_records first (take k l) ++ enc_records (first + len (take k l)) (drop k l)) as E
    by (by rewrite <- enc_records_app, take_drop).
  rewrite Z.min_l by (rewrite E, len_app; unfold len; lia).
  rewrite <- (take_drop k l) at 1. change (Z.of_nat (length ?x)) with (len x).
  rewrite <- (Z.add_0_r (len _)), whole_app, whole_0 by done. rewrite length_take. lia.
Qed.

(** Only one file changed, and it is flushed. *)
Lemma flushed_frame d d' file c :
  frame file d d' → holds d' file c (len c) → all_flushed d → all_flushed d'.
Proof.
  intros [_ Ho] Hh H p f Hp. destruct (decide (p = file)) as [->|Hne].
  - unfold holds in Hh. rewrite Hh in Hp. injection Hp as <-. done.
  - apply (H p). by rewrite <- Ho.
Qed.

Lemma frame_names file d d' : frame file d d' → NoDup (omap_keys (files d)) → NoDup (omap_keys (files d')).
Proof. intros [-> _]. done. Qed.

Lemma open_active d dir base old first l n fl :
  segments_hold d dir base old first [] l n fl →
  let k := count_whole first l n in
  let validEnd := len (segment_bytes first (take k l)) in
  let file := segment_file dir first in
  match or_ioError (fd ← openSync os file; size ← statSize os file;
          _ ← (if validEnd <? size then _ ← ftruncateSync os fd validEnd; fsyncSync os fd else mret ());
          mret fd) true d with
  | (Ok fd, d') => fd = file ∧ (∃ fl', segments_hold d' dir base old first (take k l) [] 0 fl') ∧
      (all_flushed d → all_flushed d')
  | (Throw e, d') => not_corruption e ∧
      (∃ n' fl', segments_hold d' dir base old first [] l n' fl' ∧ count_whole first l n' = k) ∧
      (all_flushed d → all_flushed d')
  end.
Proof.
  intros Hh k validEnd file. pose proof (hold_active _ _ _ _ _ _ _ _ _ Hh) as Ha. rewrite hold_bytes in Ha. fold file in Ha.
  pose proof (hold_flushed _ _ _ _ _ _ _ _ _ Hh) as Hfl. rewrite hold_bytes in Hfl.
  pose proof (hold_names _ _ _ _ _ _ _ _ _ Hh) as Hn.
  destruct (cut_bytes first l n) as [Hlen Hcut]. fold k in Hlen, Hcut. fold validEnd in Hlen, Hcut.
  set (data := segment_header_of first ++ take n (enc_records first l)) in *.
  (* the same files *)
  assert (∀ d', files d' = files d →
    (∃ n' fl', segments_hold d' dir base old first [] l n' fl' ∧ count_whole first l n' = k) ∧
    (all_flushed d → all_flushed d')) as Hsame.
  { intros d' E. pose proof (same_files_eq d d' Hn E) as Hs. split; [|by apply flushed_same].
    exists n, fl. split; [|done]. destruct Hs as [Hn' Hg]. exact (hold_same _ _ _ _ _ _ _ _ _ _ Hn' Hg Hh). }
  (* the file ends with its last whole record *)
  assert (entries_ok base (old_entries old ++ take k l ++ [])) as Hok.
  { pose proof (hold_entries _ _ _ _ _ _ _ _ _ Hh) as He. cbn [app] in He.
    rewrite app_nil_r. rewrite <- (take_drop k l), app_assoc in He. by apply entries_ok_app in He as [He _]. }
  assert (∀ d' fl', frame file d d' → holds d' file (segment_bytes first (take k l)) fl' → fl' ≤ validEnd →
    segments_hold d' dir base old first (take k l) [] 0 fl' ∧
    segments_hold d' dir base old first [] l (length (enc_records first (take k l))) fl') as Hdone.
  { intros d' fl' Hf Hc Hle. destruct (take_whole first l n) as [_ Ht]. fold k in Ht.
    assert (enc_records first l = enc_records first (take k l) ++ enc_records (first + len (take k l)) (drop k l)) as E
      by (by rewrite <- enc_records_app, take_drop).
    assert (segment_header_of first ++ take (length (enc_records first (take k l))) (enc_records first l) = segment_bytes first (take k l)) as Eb
      by (unfold segment_bytes; rewrite E, take_app_length; done).
    split.
    - refine (hold_change d d' dir base old first [] l n fl _ _ _ _ Hh Hf _ _ Hok); rewrite take_0, app_nil_r; [exact Hc|exact Hle].
    - refine (hold_change d d' dir base old first [] l n fl _ _ _ _ Hh Hf _ _ (hold_entries _ _ _ _ _ _ _ _ _ Hh));
        rewrite hold_bytes, Eb; [exact Hc|exact Hle]. }
  unfold or_ioError, st_catch. unfold mbind at 1, st_bind at 1.
  pose proof (look_outcome os (Open file) file (λ _, file) d data fl Ha) as Ho. cbn beta in Ho.
  unfold openSync at 1. destruct (syscall os (Open file) _ d) as [[fd|e] d1].
  2: { destruct Ho as [_ Ho]. split; [apply ioError_kind|by apply Hsame]. }
  destruct Ho as [-> Hd1]. unfold mbind at 1, st_bind at 1.
  pose proof (look_outcome os (Stat file) file (λ f, len (contents f)) d1 data fl) as Hst. cbn beta in Hst.
  specialize (Hst (holds_files _ _ _ _ _ Hd1 Ha)). cbn [contents] in Hst.
  unfold statSize at 1. destruct (syscall os (Stat file) _ d1) as [[size|e] d2].
  2: { destruct Hst as [_ Hst]. split; [apply ioError_kind|apply Hsame; exact (eq_trans Hst Hd1)]. }
  destruct Hst as [-> Hd2]. pose proof (eq_trans Hd2 Hd1) as Hd. clear Hd1 Hd2.
  pose proof (holds_files _ _ _ _ _ Hd Ha) as Ha2.
  unfold mbind at 1, st_bind at 1. destruct (Z.ltb_spec validEnd (len data)) as [Hlt|Hge].
  2: { cbn [mret st_ret]. split; [done|]. split; [|by apply Hsame]. exists fl.
    assert (segment_bytes first (take k l) = data) as Eb.
    { rewrite <- Hcut. apply take_ge. unfold len in *. lia. }
    apply (Hdone d2 fl); [by apply frame_same|by rewrite Eb|]. unfold validEnd. by rewrite Eb. }
  unfold mbind at 1, st_bind at 1.
  pose proof (truncate_outcome os file validEnd d2 data fl Ha2 Hlen) as Htr. rewrite Hcut in Htr.
  destruct (ftruncateSync os file validEnd d2) as [[u|e] d3].
  2: { destruct Htr as [_ Htr]. split; [apply ioError_kind|apply Hsame; exact (eq_trans Htr Hd)]. }
  destruct Htr as [Hf3 Hh3]. assert (frame file d d3) as Hf by (eapply frame_trans; [by apply frame_same|exact Hf3]).
  assert (all_flushed d → all_flushed d3) as Hfl3.
  { intros H. eapply (flushed_frame d d3 file); [done| |done]. pose proof (H file _ Ha) as Hflen. cbn in Hflen.
    rewrite Z.min_r in Hh3 by lia. exact Hh3. }
  pose proof (fsync_outcome os file d3 _ _ Hh3) as Hs.
  destruct (fsyncSync os file d3) as [[u'|e] d4].
  - destruct Hs as [Hf4 Hh4]. cbn [mret st_ret]. assert (frame file d d4) as Hf5 by (by eapply frame_trans).
    split; [done|]. split; [|by eapply flushed_frame]. eexists. apply (Hdone d4 _ Hf5 Hh4). done.
  - destruct Hs as [_ Hs]. split; [apply ioError_kind|]. split.
    + exists (length (enc_records first (take k l))), (Z.min fl validEnd). split; [|by apply count_cut].
      apply (Hdone d4); [eapply frame_trans; [exact Hf|by apply frame_same]|by eapply holds_files|lia].
    + intros H. eapply flushed_same; [|by apply Hfl3]. apply same_files_eq; [by eapply frame_names|done].
Qed.

(** ** [open] *)
Definition concern (options : WriteAheadLogOptions) : WriteConcern := default Flushed (opt_writeConcern options).

(** The log after opening: all that was found. *)
Definition reopened (base : Z) (l : list entry) : Log :=
  {| log_base := base; log_entries := l; log_kept := base + len l; log_durable := base + len l; log_tried := [] |}.

Record opened (options : WriteAheadLogOptions) (w : WriteAheadLog) : Prop := {
  opened_directory : directory w = opt_directory options;
  opened_mode : mode w = concern options;
  opened_group : groupCommit w = default false (opt_groupCommit options);
  opened_closed : closed w = false;
  opened_broken : broken w = false;
}.

(** A new log. *)
Lemma open_new d dir f durable :
  cleans os → whole_segments d dir 1 [] 1 → durable = bool_decide (f = Flushed) →
  match createSegment os dir 1 durable d with
  | (Ok (info, fd), d') => info = info_of dir 1 ∧ fd = segment_file dir 1 ∧
      (∃ fl, segments_hold d' dir 1 [] 1 [] [] 0 fl) ∧ (f = Flushed → all_flushed d → all_flushed d')
  | (Throw e, d') => same_files d d'
  end.
Proof.
  intros Hclean [W1 W2 _ _ _ _] Hdur.
  pose proof (createSegment_outcome os Hclean dir 1 durable d ltac:(lia) W1) as Hc.
  destruct (createSegment os dir 1 durable d) as [[[info fd]|e] d'].
  2: { by destruct Hc as [H1 H2]. }
  destruct Hc as (-> & -> & Hnone & Hn & Ho & fl & Hh & Hle & Hfl). split; [done|]. split; [done|].
  destruct (header_of 1) as (Hl & _ & _); [lia|].
  assert (segment_bytes 1 [] = segment_header_of 1) as Eb by (unfold segment_bytes; apply app_nil_r).
  split.
  2: { intros -> Hall p g Hg. destruct (decide (p = segment_file dir 1)) as [->|Hp]; [|apply (Hall p); by rewrite <- Ho].
    unfold holds in Hh. rewrite Hh in Hg. injection Hg as <-. cbn. rewrite Hl. apply Hfl. by rewrite Hdur. }
  exists fl. split; rewrite ?take_0, ?app_nil_r, ?Eb; [exact Hn| |constructor|exact Hh|rewrite Hl; exact Hle|reflexivity| |lia].
  - intros name Hs Hln. destruct (decide (name = segment_name 1)) as [->|Hne]; [by left|].
    rewrite Ho in Hs by (intros E; apply Hne; exact (f_equal snd E)).
    destruct (not_elem_of_nil _ (W2 name Hs Hln)).
  - split; [lia|]. split; [cbn; rewrite len_nil; lia|constructor].
Qed.

(** A log just opened: nothing waits, and the files hold all of it. *)
Record found_log (d : Disk) (w : WriteAheadLog) (base : Z) (l : list entry) (old : list (Z * list entry))
    (first : Z) (written : list entry) (fl : Z) : Prop := {
  fl_hold : segments_hold d (directory w) base old first written [] 0 fl;
  fl_segments : segments w = map (info_of (directory w)) (map fst old ++ [first]);
  fl_fd : WriteAheadLog.fd w = Some (segment_file (directory w) first);
  fl_next : nextLsn w = first + len written;
  fl_position : position w = len (segment_bytes first written);
  fl_pending : pending w = [];
  fl_pendingBytes : pendingBytes w = 0;
  fl_unsynced : unsynced w = false;
  fl_entries : l = old_entries old ++ written;
}.

Lemma flushed_hold d dir base old first written fl :
  segments_hold d dir base old first written [] 0 fl → all_flushed d →
  Forall (λ s, holds d (segment_file dir s.1) (segment_bytes s.1 s.2) (len (segment_bytes s.1 s.2))) old ∧
  fl = len (segment_bytes first written).
Proof.
  intros Hh Hfl. split.
  - eapply Forall_impl; [apply Hh|]. intros s (f & Hs & _). pose proof (Hfl _ _ Hs) as E. cbn in E. by subst f.
  - pose proof (Hfl _ _ (hold_active _ _ _ _ _ _ _ _ _ Hh)) as E. cbn [flushed contents] in E.
    by rewrite take_0, app_nil_r in E.
Qed.

Lemma found_log_at d w base l old first written fl :
  found_log d w base l old first written fl → (mode w = Flushed → all_flushed d) → log_at d w (reopened base l).
Proof.
  intros [Hh E2 E3 E4 E5 E6 E7 E8 ->] Hfl.
  pose proof (chain_first _ _ _ (hold_chain _ _ _ _ _ _ _ _ _ Hh)) as Ef.
  exists old, first, written, [], [], O, fl. unfold reopened.
  cbn [log_base log_entries log_kept log_durable]. rewrite app_nil_r, len_app. split; [|split; [done|split; [lia|by left]]].
  rewrite Z.add_assoc, <- Ef. split.
  - exact Hh.
  - exact E2.
  - intros _. exact E3.
  - rewrite E4, len_nil. lia.
  - exact E6.
  - exact E7.
  - intros _. rewrite app_nil_r. done.
  - done.
  - intros _. split; [done|cbn; lia].
  - intros Hm. destruct (flushed_hold _ _ _ _ _ _ _ Hh (Hfl Hm)) as [Ho Hf]. split; [exact Ho|].
    exists (length written). rewrite firstn_all. split; [done|]. split; [unfold len; lia|].
    split; [rewrite Hf; apply Z.le_refl|done].
  - by rewrite E8.
Qed.

Lemma create_error dir first durable d :
  cleans os → 0 ≤ first < 2 ^ 64 →
  match createSegment os dir first durable d with (Throw e, _) => not_corruption e | _ => True end.
Proof.
  intros Hclean Hfirst. unfold createSegment. set (file := (dir, segment_name first)).
  assert (∀ e, not_corruption e → not_corruption (translateIo e)) as Htr.
  { intros e He. unfold translateIo. destruct (isStorageError e); [done|].
    destruct (errnoOf e); [apply ioError_kind|done]. }
  assert (∀ (e : exn) d2, not_corruption e →
    match (_ ← st_catch (_ ← closeSync os file; unlinkSync os file) (λ _, mret ());
           st_throw (A:=SegmentInfo * path) (translateIo e)) d2 with
    | (Throw e, _) => not_corruption e | _ => True end) as Hclean'.
  { intros e d2 He. unfold mbind at 1, st_bind at 1, st_catch at 1.
    destruct ((_ ← closeSync os file; unlinkSync os file) d2) as [[u|e'] d3]; cbn; by apply Htr. }
  unfold mbind at 1, st_bind at 1, st_catch at 1. unfold mbind at 1, st_bind at 1.
  unfold createSync. match goal with |- context [syscall os ?call ?act d] =>
    destruct (syscall_outcome os call act d) as [(code & _ & ->)|(o & _ & ->)] end; [by apply Htr|].
  cbn [files]. destruct (omap_has (files d) file); [by apply Htr|]. cbn [mret st_ret].
  set (d1 := set_files _ _).
  assert (holds d1 file [] 0) as Hh1 by (unfold holds; apply omap_get_set). clearbody d1.
  unfold st_catch at 1. rewrite encode_header by done. unfold mbind at 1, st_bind at 1, st_lift.
  pose proof (writeFully_outcome os (length (segment_header_of first)) file (segment_header_of first) 0 d1 [] 0
    Hh1 eq_refl (Z.le_refl 0) (le_n _)) as Hw.
  unfold mbind at 1, st_bind at 1. destruct (writeFully os _ file _ 0 d1) as [[u|e] d2].
  2: { destruct Hw as ([code ->] & _). by apply Hclean'. }
  destruct Hw as [_ Hh2]. unfold mbind at 1, st_bind at 1. destruct durable; [|done].
  unfold mbind at 1, st_bind at 1. pose proof (fsync_outcome os file d2 _ _ Hh2) as Hs.
  destruct (fsyncSync os file d2) as [[u'|e] d3].
  2: { destruct Hs as [[code ->] _]. by apply Hclean'. }
  pose proof (syncDirectory_error dir d3) as He.
  destruct (syncDirectory os dir d3) as [[u''|e] d4]; [done|]. by apply Hclean'.
Qed.

Lemma open_outcome options d base l :
  cleans os → image d (opt_directory options) base l →
  match open os options d with
  | (Ok w, d') => opened options w ∧ (∃ old first written fl, found_log d' w base l old first written fl) ∧
      (concern options = Flushed → all_flushed d → all_flushed d')
  | (Throw e, d') => not_corruption e ∧ image d' (opt_directory options) base l ∧ (all_flushed d → all_flushed d')
  end.
Proof.
  intros Hclean Him. set (dir := opt_directory options) in *.
  assert (NoDup (omap_keys (files d))) as Hn.
  { destruct Him as [? ? ? ? ? Hh _|Hw _ _|d0 segs next _ Hs _ _]; [apply Hh|apply Hw|apply Hs]. }
  unfold open. fold (concern options). destruct (_ && negb _); [done|].
  destruct (negb _ || _); [done|]. unfold mbind at 1, st_bind at 1, or_ioError at 1, st_catch at 1.
  pose proof (quiet_unit os (Mkdir dir) d) as Hq. fold (mkdirSync os dir) in Hq. fold dir.
  assert (∀ d', files d' = files d → image d' dir base l ∧ (all_flushed d → all_flushed d')) as Hsame.
  { intros d' E. pose proof (same_files_eq d d' Hn E) as Hs. split; [by apply (image_same d)|by apply flushed_same]. }
  destruct (mkdirSync os dir d) as [[u|e] d1].
  2: { destruct Hq as [_ Hq]. split; [apply ioError_kind|]. by apply Hsame. }
  destruct (Hsame d1 Hq) as [Him1 Hfl1]. clear Hsame.
  pose proof (recover_image d1 dir base l Him1) as Hr. unfold recovered in Hr. unfold mbind at 1, st_bind at 1.
  destruct (recoverSegments os dir d1) as [[r|e] d2].
  2: { destruct Hr as (He & Hr & Hf). split; [exact He|]. split; [exact Hr|]. intros H. by apply Hf, Hfl1. }
  destruct Hr as [Hst Hfl2]. destruct Hst as [old first l' n fl Hh El|r Hw -> -> Hnone]; cbn [found validEnd lastLsn].
  - rewrite map_app. cbn [map]. rewrite last_snoc.
    set (k := count_whole first l' n) in *. pose proof (open_active d2 dir base old first l' n fl Hh) as Ha.
    cbv zeta in Ha. fold k in Ha. cbn [segment_path info_of].
    unfold mbind at 1, st_bind at 1.
    match type of Ha with match ?m with _ => _ end => match goal with |- match (let (_, _) := ?m' in _) with _ => _ end =>
      change m' with m; destruct m as [[fd|e] d3] end end.
    2: { destruct Ha as (He & (n' & fl' & Ha & Ek) & Hf3). split; [exact He|]. split.
      - apply (image_hold _ _ _ _ old first l' n' fl'); [exact Ha|]. rewrite Ek. exact El.
      - intros H. by apply Hf3, Hfl2, Hfl1. }
    destruct Ha as (-> & (fl' & Ha) & Hf3). cbn [mret st_ret]. split; [by split|].
    assert (k ≤ length l')%nat as Hk by apply whole_length.
    split; [|intros _ H; by apply Hf3, Hfl2, Hfl1]. exists old, first, (take k l'), fl'. split.
    + exact Ha.
    + cbn [segments directory]. rewrite map_app. reflexivity.
    + reflexivity.
    + cbn [nextLsn]. unfold len. rewrite length_take. lia.
    + reflexivity.
    + reflexivity.
    + reflexivity.
    + reflexivity.
    + exact El.
  - rewrite Hnone. cbn [last]. pose proof (open_new d2 dir (concern options) _ Hclean Hw eq_refl) as Hc.
    pose proof (create_error dir 1 (bool_decide (concern options = Flushed)) d2 Hclean ltac:(lia)) as He.
    unfold mbind at 1, st_bind at 1.
    destruct (createSegment os dir 1 _ d2) as [[[info fd]|e] d3].
    2: { split; [exact He|]. split; [|intros H; eapply flushed_same; [exact Hc|]; by apply Hfl2, Hfl1].
      eapply image_same; [exact Hc|]. by apply image_none. }
    destruct Hc as (-> & -> & (fl & Hh) & Hfl3). cbn [mret st_ret]. split; [by split|].
    split; [|intros Hm H; by apply Hfl3, Hfl2, Hfl1].
    destruct (header_of 1) as (Hl & _ & _); [lia|].
    assert (segment_bytes 1 [] = segment_header_of 1) as Eb by (unfold segment_bytes; apply app_nil_r).
    exists [], 1, [], fl. split; [exact Hh|reflexivity|reflexivity|reflexivity| |reflexivity..].
    cbn [position]. rewrite Eb, Hl. reflexivity.
Qed.
End Open.
