(* ===== verification/WalCrash.v ===== *)
(** * The write-ahead log: crashes

    Reading a log back, and what is left of it when the process dies or the
    power fails. *)

From S2P Require Import Prelude Errors JsNumber JsString Binary WalFormat Disk DiskLemmas WriteAheadLog WalLemmas WalInvariant WalOperations WalUpkeep WalOpen.
Import WalFormat WriteAheadLog.

(** ** Reading *)
Definition after (n : Z) (l : list WalRecord) : list WalRecord := List.filter (λ r, n <? lsn r) l.

Lemma after_app n l l' : after n (l ++ l') = after n l ++ after n l'.
Proof. apply List.filter_app. Qed.

Lemma after_none n first l : first + len l ≤ n + 1 → after n (numbered first l) = [].
Proof.
  revert first. induction l as [|[t p] l IH]; intros first H; [done|]. cbn.
  assert (len ((t, p) :: l) = 1 + len l) as E by (unfold len; cbn [length]; lia). rewrite E in H. pose proof (len_nonneg l).
  destruct (Z.ltb_spec n first); [lia|]. apply IH. lia.
Qed.

Section Read.
Context (os : Z → Call → Outcome).

Lemma read_one_whole d dir n f l next fl :
  holds d (segment_file dir f) (segment_bytes f l) fl → entries_ok f l → f < 2 ^ 64 →
  (∀ s, next = Some s → firstLsn s = f + len l) →
  quietly (read_one os n (info_of dir f) next) d (λ rs, rs = after n (numbered f l)).
Proof.
  intros Hh He Hf Hnext. unfold read_one.
  destruct (match next with Some next => firstLsn next <=? n + 1 | None => false end) eqn:E.
  { apply quietly_ret. destruct next as [s|]; [|done]. rewrite after_none; [done|].
    rewrite <- (Hnext s eq_refl). lia. }
  cbn [segment_path firstLsn info_of].
  eapply quietly_bind; [exact (quietly_read os _ _ _ _ Hh)|]. intros data d' Hd ->. unfold segment_bytes.
  pose proof He as (H0 & _). destruct (header_of f) as (_ & _ & Hdec); [lia|]. rewrite Hdec, Z.eqb_refl. cbn [negb].
  destruct (scan_hold f l (length (enc_records f l)) He Hf) as (stop & Hs & Hend & Escan).
  rewrite firstn_all in Escan. rewrite Escan.
  rewrite count_all, firstn_all by (unfold len; lia). rewrite Hend by (unfold len; lia). by apply quietly_ret.
Qed.

(** The numbers of the segments follow from their records. *)
Fixpoint rows (base : Z) (segs : list (Z * list entry)) : Prop :=
  match segs with
  | [] => True
  | (f, l) :: segs => f = base ∧ base < 2 ^ 64 ∧ rows (base + len l) segs
  end.

Lemma read_all_whole dir n segs : ∀ base d,
  Forall (whole_file d dir) segs → rows base segs → entries_ok base (old_entries segs) →
  quietly (read_all os n (map (info_of dir) (map fst segs))) d (λ rs, rs = after n (numbered base (old_entries segs))).
Proof.
  induction segs as [|[f l] segs IH]; intros base d Hf Hc He; [by apply quietly_ret|].
  apply Forall_cons in Hf as [(fl & Hh & _) Hf]. destruct Hc as (-> & Hb & Hc). cbn [fst snd] in Hh.
  assert (old_entries ((base, l) :: segs) = l ++ old_entries segs) as Eo by done.
  rewrite Eo in He. apply entries_ok_app in He as [He1 He2].
  rewrite Eo, numbered_app, after_app. cbn [map fst read_all].
  eapply quietly_bind.
  { apply (read_one_whole d dir n base l _ fl Hh He1 Hb). intros s Hs. destruct segs as [|[f2 l2] segs]; [done|].
    destruct Hc as [-> _]. cbn in Hs. by injection Hs as <-. }
  intros rs d1 Hd1 ->. eapply quietly_bind.
  - apply (IH (base + len l)); [|done|done].
    eapply Forall_impl; [exact Hf|]. intros s. apply whole_file_mono. by rewrite Hd1.
  - intros rs' d2 Hd2 ->. by apply quietly_ret.
Qed.

Lemma chain_rows base old first l :
  chain base old first → first < 2 ^ 64 → rows base (old ++ [(first, l)]).
Proof.
  revert base. induction old as [|[f l'] old IH]; intros base; cbn [app chain rows].
  - by intros ->.
  - intros (-> & _ & Hc) Hf. split; [done|]. split; [|by apply IH].
    apply chain_first in Hc. pose proof (len_nonneg l'). pose proof (len_nonneg (old_entries old)). lia.
Qed.

(** The segments of a log, the active one among them. *)
Lemma hold_whole d dir base old first written fl :
  segments_hold d dir base old first written [] 0 fl →
  Forall (whole_file d dir) (old ++ [(first, written)]) ∧ old_entries (old ++ [(first, written)]) = old_entries old ++ written.
Proof.
  intros [H1 H2 H3 H4 H5 H6 H7 H8]. rewrite take_0, app_nil_r in H4, H5. split.
  - apply Forall_app. split; [done|]. constructor; [|done]. by exists fl.
  - unfold old_entries. rewrite map_app, concat_app. cbn. by rewrite app_nil_r.
Qed.

Lemma read_hold d dir base old first written fl n :
  segments_hold d dir base old first written [] 0 fl →
  quietly (read_all os n (map (info_of dir) (map fst old ++ [first]))) d
    (λ rs, rs = after n (numbered base (old_entries old ++ written))).
Proof.
  intros Hh. destruct (hold_whole _ _ _ _ _ _ _ Hh) as [Hw Eo]. pose proof Hh as [_ _ _ _ _ H6 H7 H8].
  rewrite app_nil_r in H7.
  replace (map fst old ++ [first]) with (map fst (old ++ [(first, written)])) by (by rewrite map_app).
  rewrite <- Eo in H7 |- *. by apply read_all_whole; [|apply chain_rows|].
Qed.


Lemma on_disk_quietly {A} (m : ST Disk exn A) d w (Q : A → Prop) (R : res exn A * (Disk * WriteAheadLog) → Prop) :
  quietly m d Q → (∀ a d', files d' = files d → Q a → R (Ok a, (d', w))) →
  (∀ e d', files d' = files d → not_corruption e → R (Throw e, (d', w))) → R (on_disk m (d, w)).
Proof.
  unfold quietly, on_disk. cbn [fst snd]. destruct (m d) as [[a|e] d'].
  - intros [Hd Ha] Hk _. by apply Hk.
  - intros [Hd He] _ Hk. by apply Hk.
Qed.

Lemma log_at_files d d' w a : files d' = files d → log_at d w a → log_at d' w a.
Proof.
  intros Hd (old & first & written & waiting & attempted & n & fl & Hi & Hr).
  exists old, first, written, waiting, attempted, n, fl. split; [by eapply inv_files|exact Hr].
Qed.

Definition records_answer (w : WriteAheadLog) (a : Log) (n : Z)
    (r : res exn (list WalRecord) * (Disk * WriteAheadLog)) : Prop :=
  match r with
  | (Ok rs, (d', w')) => rs = after n (numbered (log_base a) (log_entries a)) ∧ same_settings w w' ∧
      broken w' = false ∧ log_at d' w' (kept_all a)
  | (Throw e, (d', w')) => same_settings w w' ∧ log_at d' w' a
  end.

Lemma records_outcome d w a n :
  log_at d w a → closed w = false → broken w = false → records_answer w a n (records os n (d, w)).
Proof.
  intros Hlog Hc Hb. unfold records, assertOpen.
  rewrite (bind_ok _ _ _ () (d, w)) by (rewrite this_bind, Hc; done). rewrite this_bind, Hb.
  pose proof Hlog as (old & first & written & waiting & attempted & k & fl & Hi & El & Hk).
  pose proof (flush_outcome os d w _ _ _ _ _ _ _ _ _ Hi Hc Hb) as Hf.
  pose proof (flush_keeps os d w a Hlog Hc Hb) as Hkeep.
  unfold mbind at 1, st_bind at 1. destruct (flush os (d, w)) as [[u|e] [d1 w1]]; [|exact Hkeep].
  destruct Hf as (Hs & Hb1 & _ & _ & _ & _ & _ & Hi1). destruct Hkeep as (_ & _ & Hl1).
  rewrite this_bind. pose proof (inv_segments _ _ _ _ _ _ _ _ _ _ _ Hi1) as Hseg. rewrite Hseg.
  eapply (on_disk_quietly _ d1 w1 _ (records_answer w a n)).
  - exact (read_hold d1 _ _ _ _ _ _ n (inv_hold _ _ _ _ _ _ _ _ _ _ _ Hi1)).
  - intros rs d' Hd ->. unfold records_answer. rewrite El. split; [done|]. split; [done|]. split; [done|].
    by apply (log_at_files d1).
  - intros e d' Hd _. split; [done|]. apply (log_at_files d1); [done|].
    apply (log_at_lower _ _ _ a Hl1); try done. cbn. by destruct (log_at_bounds d w a Hlog).
Qed.
End Read.

(** ** What a crash leaves *)

(** Each file is cut somewhere after what was flushed. *)
Record power_loss (d d' : Disk) : Prop := {
  loss_keys : omap_keys (files d') = omap_keys (files d);
  loss_files : ∀ p f, omap_get (files d) p = Some f →
    ∃ n : nat, flushed f ≤ Z.of_nat n ∧ (n ≤ length (contents f))%nat ∧
      omap_get (files d') p = Some {| contents := take n (contents f); flushed := Z.of_nat n |};
}.

(** All the records with numbers below [bound], in their order, and at most one
    more than the log has acknowledged: the one whose append failed. *)
Record survives (a : Log) (bound : Z) (l : list entry) : Prop := {
  survives_prefix : ∃ more, (more = [] ∨ more = log_tried a) ∧ (length more ≤ 1)%nat ∧ l `prefix_of` log_entries a ++ more;
  survives_bound : bound ≤ log_base a + len l;
}.

(** The bytes of the active segment, cut after [m]. *)
Lemma cut_active first written attempted n m :
  let data := segment_bytes first written ++ take n (enc_records (first + len written) attempted) in
  0 ≤ first < 2 ^ 64 → (length (segment_header_of first) ≤ m)%nat →
  ∃ j : nat, take m data = segment_header_of first ++ take j (enc_records first (written ++ attempted)) ∧
    ∀ k : nat, (k ≤ length written)%nat → len (segment_bytes first (take k written)) ≤ Z.of_nat m →
      (k ≤ count_whole first (written ++ attempted) j)%nat.
Proof.
  intros data Hf Hm. set (h := segment_header_of first) in *.
  set (A := enc_records first written) in *. set (B := enc_records (first + len written) attempted) in *.
  assert (enc_records first (written ++ attempted) = A ++ B) as E by apply enc_records_app. rewrite E.
  exists ((m - length h) `min` (length A + n))%nat. split.
  - unfold data, segment_bytes. rewrite <- app_assoc, take_app_ge by done. f_equal.
    rewrite <- take_take. f_equal. rewrite take_app_ge by lia. do 2 f_equal. lia.
  - intros k Hk Hle. unfold segment_bytes in Hle. fold h in Hle. rewrite len_app in Hle.
    set (P := enc_records first (take k written)) in *.
    assert (enc_records first (written ++ attempted) = P ++ enc_records (first + len (take k written)) (drop k written ++ attempted)) as E2
      by (unfold P; rewrite <- enc_records_app, app_assoc, take_drop; reflexivity).
    assert (len P ≤ len A) as HPA.
    { unfold A, P. rewrite <- (take_drop k written) at 2. rewrite enc_records_app, len_app.
      pose proof (len_nonneg (enc_records (first + len (take k written)) (drop k written))). lia. }
    unfold count_whole. set (c := Z.min _ _).
    assert (len P ≤ c) as Hc.
    { unfold c. rewrite E2, len_app. pose proof (len_nonneg (enc_records (first + len (take k written)) (drop k written ++ attempted))).
      unfold len in *. lia. }
    rewrite <- (take_drop k written), <- app_assoc.
    replace c with (len P + (c - len P)) by lia. unfold P. rewrite whole_app by (fold P; lia).
    rewrite length_take. lia.
Qed.

Lemma image_written d d' dir base old first written attempted n fl fl' m :
  segments_hold d dir base old first written attempted n fl →
  let data := segment_bytes first written ++ take n (enc_records (first + len written) attempted) in
  omap_keys (files d') = omap_keys (files d) → Forall (whole_file d' dir) old →
  holds d' (segment_file dir first) (take m data) fl' → fl' ≤ len (take m data) →
  SEGMENT_HEADER_SIZE ≤ Z.of_nat m →
  ∃ l, image d' dir base (old_entries old ++ l) ∧ l `prefix_of` written ++ attempted ∧
    ∀ k : nat, (k ≤ length written)%nat → len (segment_bytes first (take k written)) ≤ Z.of_nat m → (k ≤ length l)%nat.
Proof.
  intros Hh data Hkeys Hold Ha Hfl Hm. pose proof Hh as [H1 H2 H3 H4 H5 H6 H7 H8].
  assert (0 ≤ first) as H0.
  { destruct (hold_range _ _ _ _ _ _ _ _ _ Hh) as [_ Hr].
    apply Forall_app in Hr as [_ Hr]. apply Forall_cons in Hr as [Hr _]. apply Hr. }
  destruct (header_of first (conj H0 H8)) as (Hl & _ & _).
  destruct (cut_active first written attempted n m (conj H0 H8)) as (j & Ej & Hk); [unfold len in Hl; lia|].
  fold data in Ej. exists (take (count_whole first (written ++ attempted) j) (written ++ attempted)).
  split; [|split; [apply prefix_take|]].
  - eapply (image_hold d' dir base _ old first (written ++ attempted) j fl'); [|reflexivity].
    split; [by rewrite Hkeys| |exact Hold|rewrite hold_bytes, <- Ej; exact Ha|rewrite hold_bytes, <- Ej; exact Hfl|exact H6| |exact H8].
    + intros name Hs Hn. apply H2; [|exact Hn]. destruct (omap_get (files d) (dir, name)) eqn:E; [by eexists|].
      apply omap_get_None in E. rewrite <- Hkeys in E. apply omap_get_None in E. by rewrite E in Hs.
    + exact H7.
  - intros k Hkw Hle. rewrite length_take. specialize (Hk k Hkw Hle).
    assert (count_whole first (written ++ attempted) j ≤ length (written ++ attempted))%nat by apply whole_length. lia.
Qed.

Lemma whole_data first written attempted n :
  len (segment_bytes first written) ≤ len (segment_bytes first written ++ take n (enc_records (first + len written) attempted)).
Proof. rewrite len_app. pose proof (len_nonneg (take n (enc_records (first + len written) attempted))). lia. Qed.

Lemma header_fits d dir base old first written attempted n fl l :
  segments_hold d dir base old first written attempted n fl → SEGMENT_HEADER_SIZE ≤ len (segment_bytes first l).
Proof.
  intros Hh. destruct (hold_range _ _ _ _ _ _ _ _ _ Hh) as [_ Hr].
  apply Forall_app in Hr as [_ Hr]. apply Forall_cons in Hr as [Hr _].
  destruct (header_of first (conj (proj1 Hr) (hold_first _ _ _ _ _ _ _ _ _ Hh))) as (Hl & _ & _).
  unfold segment_bytes. rewrite len_app, Hl. pose proof (len_nonneg (enc_records first l)). lia.
Qed.

(** The records that were being written are one, or those waiting in memory. *)
Lemma attempted_more d w base old first written waiting attempted tried n fl durable l :
  log_inv d w base old first written waiting attempted n fl durable → attempted = waiting ∨ attempted = tried →
  l `prefix_of` written ++ attempted →
  ∃ more, (more = [] ∨ more = tried) ∧ (length more ≤ 1)%nat ∧ old_entries old ++ l `prefix_of` (old_entries old ++ written ++ waiting) ++ more.
Proof.
  intros Hi Ht Hl. destruct (decide (mode w = Memory)) as [Hm|Hm].
  - rewrite (inv_memory _ _ _ _ _ _ _ _ _ _ _ Hi Hm) in Hl. exists []. split; [by left|]. split; [cbn; lia|].
    rewrite app_nil_r. by apply prefix_app.
  - destruct (inv_written _ _ _ _ _ _ _ _ _ _ _ Hi Hm) as [-> Ha]. exists attempted. split; [exact Ht|]. split; [exact Ha|].
    rewrite app_nil_r, <- app_assoc. by apply prefix_app.
Qed.

Lemma process_image d d' w a :
  log_at d w a → files d' = files d → ∃ l, image d' (directory w) (log_base a) l ∧ survives a (log_kept a) l.
Proof.
  intros (old & first & written & waiting & attempted & n & fl & Hi & El & Hk & Ht) Hd.
  pose proof (inv_hold _ _ _ _ _ _ _ _ _ _ _ Hi) as Hh.
  set (data := segment_bytes first written ++ take n (enc_records (first + len written) attempted)) in *.
  destruct (image_written d d' _ _ _ _ _ _ _ _ fl (length data) Hh) as (l & Him & Hpre & Hb).
  - by rewrite Hd.
  - eapply Forall_impl; [apply Hh|]. intros s. apply whole_file_mono. by rewrite Hd.
  - rewrite firstn_all. exact (holds_files _ _ _ _ _ Hd (hold_active _ _ _ _ _ _ _ _ _ Hh)).
  - rewrite firstn_all. apply Hh.
  - pose proof (header_fits _ _ _ _ _ _ _ _ _ written Hh). pose proof (whole_data first written attempted n).
    fold data in H0. unfold len in *. lia.
  - exists (old_entries old ++ l). split; [exact Him|].
    destruct (attempted_more _ _ _ _ _ _ _ _ _ _ _ _ l Hi Ht Hpre) as (more & Hm0 & Hm & Hp). rewrite <- El in Hp.
    split; [by exists more|].
    specialize (Hb (length written) (le_n _)). rewrite firstn_all in Hb.
    pose proof (whole_data first written attempted n) as Hw. fold data in Hw.
    assert (length written ≤ length l)%nat by (apply Hb; unfold len in *; lia).
    rewrite len_app, Z.add_assoc. pose proof (chain_first _ _ _ (hold_chain _ _ _ _ _ _ _ _ _ Hh)) as <-.
    unfold len in *. lia.
Qed.

Lemma loss_whole d d' dir s :
  power_loss d d' → holds d (segment_file dir s.1) (segment_bytes s.1 s.2) (len (segment_bytes s.1 s.2)) →
  holds d' (segment_file dir s.1) (segment_bytes s.1 s.2) (len (segment_bytes s.1 s.2)).
Proof.
  intros [_ Hl] Hs. destruct (Hl _ _ Hs) as (n & H1 & H2 & H3). cbn [flushed contents] in *.
  assert (n = length (segment_bytes s.1 s.2)) as -> by (unfold len in *; lia). unfold holds.
  by rewrite firstn_all in H3.
Qed.

Lemma holds_whole d dir s :
  holds d (segment_file dir s.1) (segment_bytes s.1 s.2) (len (segment_bytes s.1 s.2)) → whole_file d dir s.
Proof. intros Hs. exists (len (segment_bytes s.1 s.2)). split; [exact Hs|apply Z.le_refl]. Qed.

Lemma loss_flushed d d' : power_loss d d' → all_flushed d'.
Proof.
  intros [Hk Hl] p f Hp. destruct (omap_get (files d) p) as [g|] eqn:E.
  - destruct (Hl _ _ E) as (n & H1 & H2 & H3). rewrite H3 in Hp. injection Hp as <-. cbn.
    unfold len. rewrite length_take. lia.
  - apply omap_get_None in E. rewrite <- Hk in E. apply omap_get_None in E. by rewrite E in Hp.
Qed.

Lemma power_image d d' w a :
  log_at d w a → mode w = Flushed → power_loss d d' →
  ∃ l, image d' (directory w) (log_base a) l ∧ survives a (log_durable a) l.
Proof.
  intros (old & first & written & waiting & attempted & n & fl & Hi & El & Hk & Ht) Hm Hloss.
  pose proof (inv_hold _ _ _ _ _ _ _ _ _ _ _ Hi) as Hh.
  destruct (inv_durable _ _ _ _ _ _ _ _ _ _ _ Hi Hm) as [Ho (k & Hk1 & Hk2 & Hk3 & _)].
  set (data := segment_bytes first written ++ take n (enc_records (first + len written) attempted)) in *.
  pose proof Hloss as [Hkeys Hfiles].
  destruct (Hfiles _ _ (hold_active _ _ _ _ _ _ _ _ _ Hh)) as (m & Hm1 & Hm2 & Hm3). cbn [flushed contents] in *. fold data in Hm2, Hm3.
  destruct (image_written d d' _ _ _ _ _ _ _ _ (Z.of_nat m) m Hh) as (l & Him & Hpre & Hb).
  - exact Hkeys.
  - eapply Forall_impl; [exact Ho|]. intros s Hs. apply holds_whole. by apply (loss_whole d).
  - exact Hm3.
  - fold data. unfold len. rewrite length_take. lia.
  - pose proof (header_fits _ _ _ _ _ _ _ _ _ (take k written) Hh). lia.
  - exists (old_entries old ++ l). split; [exact Him|].
    destruct (attempted_more _ _ _ _ _ _ _ _ _ _ _ _ l Hi Ht Hpre) as (more & Hm0 & Hmo & Hp). rewrite <- El in Hp.
    split; [by exists more|].
    assert (k ≤ length l)%nat by (apply Hb; [done|lia]).
    rewrite len_app, Z.add_assoc. pose proof (chain_first _ _ _ (hold_chain _ _ _ _ _ _ _ _ _ Hh)) as <-.
    unfold len. lia.
Qed.

(** Everything written, and room made for a new segment. *)
Lemma whole_log d w a :
  log_at d w a → broken w = false → log_kept a = log_next a → nextLsn w < 2 ^ 64 →
  omap_get (files d) (segment_file (directory w) (nextLsn w)) = None →
  ∃ segs, whole_segments d (directory w) (log_base a) segs (nextLsn w) ∧ old_entries segs = log_entries a ∧ segs ≠ [] ∧
    (mode w = Flushed → log_durable a = log_next a →
     Forall (λ s, holds d (segment_file (directory w) s.1) (segment_bytes s.1 s.2) (len (segment_bytes s.1 s.2))) segs).
Proof.
  intros Hlog Hb Hkn Hmax Hnone. pose proof (log_at_next _ _ _ Hlog) as Hnext.
  destruct Hlog as (old & first & written & waiting & attempted & n & fl & Hi & El & Hk & _).
  destruct (inv_open _ _ _ _ _ _ _ _ _ _ _ Hi Hb) as (-> & -> & _).
  pose proof (inv_next _ _ _ _ _ _ _ _ _ _ _ Hi) as Hn.
  assert (waiting = []) as ->.
  { destruct waiting; [done|]. rewrite Hkn, <- Hnext, Hn in Hk. unfold len in Hk. cbn in Hk. lia. }
  rewrite app_nil_r in El. rewrite len_nil, Z.add_0_r in Hn.
  pose proof (inv_hold _ _ _ _ _ _ _ _ _ _ _ Hi) as Hh. destruct (hold_whole _ _ _ _ _ _ _ Hh) as [Hw Eo].
  pose proof Hh as [H1 H2 H3 H4 H5 H6 H7 H8].
  assert (written ≠ []) as Hne.
  { intros ->. rewrite len_nil, Z.add_0_r in Hn. rewrite Hn in Hnone. unfold holds in H4. by rewrite H4 in Hnone. }
  exists (old ++ [(first, written)]). split; [|split; [by rewrite Eo, El|split; [by destruct old|]]].
  - split; [exact H1| |exact Hw|rewrite Hn; by apply chain_snoc|rewrite Eo; by rewrite app_nil_r in H7|exact Hmax].
    intros name Hs Hl. specialize (H2 name Hs Hl). by rewrite map_app.
  - intros Hm Hd. destruct (inv_durable _ _ _ _ _ _ _ _ _ _ _ Hi Hm) as [Ho (k & Hk1 & Hk2 & Hk3 & _)].
    assert (k = length written) as -> by (rewrite Hd, <- Hnext, Hn in Hk2; unfold len in *; lia).
    rewrite firstn_all in Hk3. rewrite take_0, app_nil_r in H4, H5.
    apply Forall_app. split; [exact Ho|]. constructor; [|done]. cbn [fst snd].
    assert (len (segment_bytes first written) = fl) as -> by lia. exact H4.
Qed.

Lemma loss_segments d d' dir base segs next :
  power_loss d d' → whole_segments d dir base segs next →
  Forall (λ s, holds d (segment_file dir s.1) (segment_bytes s.1 s.2) (len (segment_bytes s.1 s.2))) segs →
  whole_segments d' dir base segs next.
Proof.
  intros Hl [H1 H2 H3 H4 H5 H6] Hs. pose proof Hl as [Hk _]. split; try assumption.
  - by rewrite Hk.
  - intros name Hn. apply H2. destruct (omap_get (files d) (dir, name)) eqn:E; [by eexists|].
    apply omap_get_None in E. rewrite <- Hk in E. apply omap_get_None in E. by rewrite E in Hn.
  - eapply Forall_impl; [exact Hs|]. intros s Hf. apply holds_whole. by apply (loss_whole d).
Qed.

(** The disk after a crash, and the number up to which no record is lost: the
    process dies, or the power fails; between two operations, or while the next
    segment is being created. *)
Inductive crash (w : WriteAheadLog) (a : Log) (d : Disk) : Disk → Z → Prop :=
  | process_dies d' :
      files d' = files d → crash w a d d' (log_kept a)
  | power_fails d' :
      mode w = Flushed → power_loss d d' → crash w a d d' (log_durable a)
  | process_dies_rotating d' :
      broken w = false → log_kept a = log_next a → nextLsn w < 2 ^ 64 →
      stray d d' (directory w) (nextLsn w) → crash w a d d' (log_next a)
  | power_fails_rotating d1 d' :
      mode w = Flushed → broken w = false → log_kept a = log_next a → log_durable a = log_next a →
      nextLsn w < 2 ^ 64 → power_loss d d1 → stray d1 d' (directory w) (nextLsn w) →
      crash w a d d' (log_next a).

Lemma survives_all a : survives a (log_next a) (log_entries a).
Proof. split; [exists []; rewrite app_nil_r; split; [by left|split; [cbn; lia|done]]|apply Z.le_refl]. Qed.

Lemma crash_image d d' w a bound :
  log_at d w a → crash w a d d' bound →
  ∃ l, image d' (directory w) (log_base a) l ∧ survives a bound l.
Proof.
  intros Hlog [d1 Hd|d1 Hm Hl|d1 Hb Hk Hmax Hs|d1 d2 Hm Hb Hk Hdu Hmax Hl Hs].
  - by apply (process_image d).
  - by apply (power_image d).
  - destruct (whole_log d w a Hlog Hb Hk Hmax (stray_new _ _ _ _ Hs)) as (segs & Hw & Ee & Hne & _).
    exists (log_entries a). split; [|apply survives_all].
    by apply (image_stray d1 _ _ _ d segs (nextLsn w)).
  - assert (omap_get (files d) (segment_file (directory w) (nextLsn w)) = None) as Hnone.
    { pose proof (stray_new _ _ _ _ Hs) as Hn. apply omap_get_None in Hn. rewrite (loss_keys _ _ Hl) in Hn.
      by apply omap_get_None in Hn. }
    destruct (whole_log d w a Hlog Hb Hk Hmax Hnone) as (segs & Hw & Ee & Hne & Hf).
    exists (log_entries a). split; [|apply survives_all].
    apply (image_stray d2 _ _ _ d1 segs (nextLsn w)); try done. apply (loss_segments d); try done. by apply Hf.
Qed.
