(* ===== verification/WalModel.v ===== *)
(** * The write-ahead log: its specification

    A log is a list of numbered records: appending adds one and answers its
    number, removing old segments drops some of the oldest, reading answers all
    of them. [kept] and [durable] say how far a crash cannot reach. Every
    operation of the implementation is a step of this specification. *)

From S2P Require Import Prelude Errors JsNumber JsString Binary WalFormat Disk DiskLemmas WriteAheadLog WalLemmas WalInvariant WalOperations WalUpkeep WalOpen WalCrash.
Import WalFormat WriteAheadLog.

Inductive Command :=
  | Append (type : Z) (payload : bytes)
  | Flush
  | Commit
  | Sync
  | Records (afterLsn : Z)
  | TruncateThrough (lsn : Z)
  | CloseLog.

Inductive Answer :=
  | Nothing
  | Number (z : Z)
  | Listed (l : list WalRecord).

(** The payload of a command is bytes. *)
Definition command_ok (c : Command) : Prop :=
  match c with Append _ payload => Forall is_byte payload | _ => True end.

Definition answer {A} (f : A → Answer) (m : action A) : action Answer := x ← m; mret (f x).

Definition run (os : Z → Call → Outcome) (c : Command) : action Answer :=
  match c with
  | Append type payload => answer Number (append os type payload)
  | Flush => answer (λ _, Nothing) (flush os)
  | Commit => answer (λ _, Nothing) (commit os)
  | Sync => answer (λ _, Nothing) (sync os)
  | Records afterLsn => answer Listed (records os afterLsn)
  | TruncateThrough lsn => answer Number (truncateThrough os lsn)
  | CloseLog => answer (λ _, Nothing) (close os)
  end.

(** The commands one after the other, and their results. *)
Fixpoint run_all (os : Z → Call → Outcome) (cs : list Command) (s : Disk * WriteAheadLog)
    : list (Command * res exn Answer) * (Disk * WriteAheadLog) :=
  match cs with
  | [] => ([], s)
  | c :: cs =>
      let (r, s) := run os c s in
      let (rs, s) := run_all os cs s in ((c, r) :: rs, s)
  end.

(** ** The specification *)
Record Spec := {
  content : Log;
  is_closed : bool;
  is_broken : bool;
}.

Section Spec.
Context (m : WriteConcern) (group : bool).

(** What a command that answers does to the records. *)
Definition effect (s : Spec) (c : Command) (v : Answer) (a : Log) : Prop :=
  match c with
  | Append t p => is_closed s = false ∧ is_broken s = false ∧
      v = Number (log_next (content s)) ∧ a = appended m group (content s) (t, p)
  | Flush => is_closed s = false ∧ is_broken s = false ∧ v = Nothing ∧ a = kept_all (content s)
  | Commit => v = Nothing ∧ a = if is_closed s then content s else durable_all m (content s)
  | Sync => is_closed s = false ∧ is_broken s = false ∧ v = Nothing ∧
      a = durable_all m (kept_all (content s))
  | Records n => is_closed s = false ∧
      if is_broken s then a = content s
      else v = Listed (after n (numbered (log_base (content s)) (log_entries (content s)))) ∧
           a = kept_all (content s)
  | TruncateThrough lsn => is_closed s = false ∧ is_broken s = false ∧ (∃ z, v = Number z) ∧
      ∃ k, a = trimmed (content s) k ∧ removable (content s) lsn k
  | CloseLog => v = Nothing ∧
      a = if is_closed s || is_broken s then content s else durable_all m (kept_all (content s))
  end.

(** What a command that throws can have done: records that cannot be read any
    more may be gone; a record appended in memory may stay when the log
    breaks; one that was not appended may still be found after a crash. *)
Definition effect_throw (s : Spec) (c : Command) (s' : Spec) : Prop :=
  match c with
  | Append t p => content s' = content s ∨ content s' = attempt (content s) (t, p) ∨
      m = Memory ∧ is_broken s' = true ∧ content s' = queued (content s) (t, p)
  | TruncateThrough lsn =>
      ∃ k, content s' = trimmed (content s) k ∧ removable (content s) lsn k
  | _ => content s' = content s
  end.

Inductive allowed (s : Spec) (c : Command) : res exn Answer → Spec → Prop :=
  | allowed_ok v s' :
      effect s c v (content s') →
      is_closed s' = (match c with CloseLog => true | _ => is_closed s end) →
      is_broken s' = is_broken s → allowed s c (Ok v) s'
  | allowed_throw e s' :
      effect_throw s c s' →
      is_closed s' = (match c with CloseLog => true | _ => is_closed s end) →
      allowed s c (Throw e) s'.

Inductive trace : Spec → list (Command * res exn Answer) → Spec → Prop :=
  | trace_nil s : trace s [] s
  | trace_cons s c r s' cs s'' : allowed s c r s' → trace s' cs s'' → trace s ((c, r) :: cs) s''.
End Spec.

(** ** The simulation *)
Record models (m : WriteConcern) (group : bool) (dir : jsstring) (d : Disk) (w : WriteAheadLog) (s : Spec) : Prop := {
  models_log : log_at d w (content s);
  models_mode : mode w = m;
  models_group : groupCommit w = group;
  models_directory : directory w = dir;
  models_closed : closed w = is_closed s;
  models_broken : broken w = is_broken s;
}.

Section Steps.
Context (os : Z → Call → Outcome) (m : WriteConcern) (group : bool) (dir : jsstring).

(** The outcome of a command is a step of the specification. *)
Definition simulates (s : Spec) (c : Command) (r : res exn Answer * (Disk * WriteAheadLog)) : Prop :=
  match r with
  | (r, (d', w')) => ∃ s', allowed m group s c r s' ∧ models m group dir d' w' s'
  end.

Lemma step_ok s c v d w d' w' a :
  models m group dir d w s → same_settings w w' → broken w' = broken w → log_at d' w' a →
  effect m group s c v a → c ≠ CloseLog → simulates s c (Ok v, (d', w')).
Proof.
  intros [M1 M2 M3 M4 M5 M6] [S1 S2 S3 S4 S5] Hb Hl He Hc.
  exists {| content := a; is_closed := is_closed s; is_broken := is_broken s |}. split.
  - apply allowed_ok; [done| |done]. by destruct c.
  - split; cbn; congruence.
Qed.

Lemma step_throw s c e d w d' w' a :
  models m group dir d w s → same_settings w w' → log_at d' w' a →
  effect_throw m s c {| content := a; is_closed := is_closed s; is_broken := broken w' |} →
  c ≠ CloseLog → simulates s c (Throw e, (d', w')).
Proof.
  intros [M1 M2 M3 M4 M5 M6] [S1 S2 S3 S4 S5] Hl He Hc.
  eexists. split; [apply allowed_throw; [exact He|by destruct c]|]. split; cbn; congruence.
Qed.

(** A log that is closed or broken refuses. *)
Lemma step_refused s c e d w :
  models m group dir d w s → c ≠ CloseLog → simulates s c (Throw e, (d, w)).
Proof.
  intros Hm Hc. eapply step_throw; [exact Hm|done|apply Hm| |done].
  destruct c; try done; [by left|]. exists O. rewrite trimmed_0. split; [done|by left].
Qed.

Lemma answer_throw {A} (f : A → Answer) (x : action A) st e st' :
  x st = (Throw e, st') → answer f x st = (Throw e, st').
Proof. intros E. unfold answer, mbind, st_bind. by rewrite E. Qed.

Lemma answer_run {A} (f : A → Answer) (x : action A) st :
  answer f x st = match x st with (Ok a, st') => (Ok (f a), st') | (Throw e, st') => (Throw e, st') end.
Proof. unfold answer, mbind, st_bind. by destruct (x st) as [[] ?]. Qed.

Lemma append_step d w s t p :
  cleans os → models m group dir d w s → Forall is_byte p →
  simulates s (Append t p) (run os (Append t p) (d, w)).
Proof.
  intros Hclean Hm Hp. pose proof Hm as [M1 M2 M3 M4 M5 M6]. cbn [run]. rewrite answer_run.
  pose proof (append_outcome os d w (content s) t p Hclean M1 Hp) as Ho.
  destruct (closed w || broken w) eqn:Ecb.
  { destruct (assertWritable_refuses d w Ecb) as (e & E).
    assert (append os t p (d, w) = (Throw e, (d, w))) as -> by (unfold append; by rewrite (bind_throw _ _ _ _ _ E)).
    by apply step_refused. }
  apply orb_false_iff in Ecb as [Hc Hb].
  destruct (append os t p (d, w)) as [[z|e] [d' w']].
  - destruct Ho as (-> & Hs & Hb' & Hl). rewrite M2, M3 in Hl. eapply step_ok; [exact Hm|exact Hs|congruence|exact Hl| |done].
    split; [congruence|]. split; [congruence|done].
  - destruct Ho as (Hs & [Hl|[Hl|(Hmem & Hb' & Hl)]]); (eapply step_throw; [exact Hm|exact Hs|exact Hl| |done]).
    + by left.
    + by right; left.
    + right; right. split; [congruence|done].
Qed.

Lemma flush_step d w s : models m group dir d w s → simulates s Flush (run os Flush (d, w)).
Proof.
  intros Hm. pose proof Hm as [M1 M2 M3 M4 M5 M6]. cbn [run]. rewrite answer_run.
  destruct (closed w || broken w) eqn:Ecb.
  { destruct (flush_refuses os d w Ecb) as (e & ->). by apply step_refused. }
  apply orb_false_iff in Ecb as [Hc Hb]. pose proof (flush_keeps os d w (content s) M1 Hc Hb) as Ho.
  destruct (flush os (d, w)) as [[u|e] [d' w']].
  - destruct Ho as (Hs & Hb' & Hl). eapply step_ok; [exact Hm|exact Hs|congruence|exact Hl| |done].
    split; [congruence|]. split; [congruence|done].
  - destruct Ho as (Hs & Hl). by eapply step_throw.
Qed.

Lemma commit_step d w s : models m group dir d w s → simulates s Commit (run os Commit (d, w)).
Proof.
  intros Hm. pose proof Hm as [M1 M2 M3 M4 M5 M6]. cbn [run]. rewrite answer_run.
  destruct (closed w) eqn:Hc.
  { assert (commit os (d, w) = (Ok (), (d, w))) as -> by (unfold commit; by rewrite this_bind, Hc, orb_true_r).
    eapply step_ok; [exact Hm|done|done|exact M1| |done]. split; [done|]. by rewrite <- M5. }
  pose proof (commit_keeps os d w (content s) M1 Hc) as Ho.
  destruct (commit os (d, w)) as [[u|e] [d' w']].
  - destruct Ho as (Hs & Hb' & Hl). rewrite M2 in Hl. eapply step_ok; [exact Hm|exact Hs|done|exact Hl| |done].
    split; [done|]. by rewrite <- M5.
  - destruct Ho as (Hs & Hl). by eapply step_throw.
Qed.

Lemma sync_step d w s : models m group dir d w s → simulates s Sync (run os Sync (d, w)).
Proof.
  intros Hm. pose proof Hm as [M1 M2 M3 M4 M5 M6]. cbn [run]. rewrite answer_run.
  pose proof (sync_keeps os d w (content s) M1) as Ho.
  destruct (sync os (d, w)) as [[u|e] [d' w']].
  - destruct Ho as (Hs & Hc & Hb & Hb' & Hl). rewrite M2 in Hl.
    eapply step_ok; [exact Hm|exact Hs|congruence|exact Hl| |done].
    split; [congruence|]. split; [congruence|done].
  - destruct Ho as (Hs & Hl). by eapply step_throw.
Qed.

Lemma truncate_step_models d w s lsn :
  models m group dir d w s → simulates s (TruncateThrough lsn) (run os (TruncateThrough lsn) (d, w)).
Proof.
  intros Hm. pose proof Hm as [M1 M2 M3 M4 M5 M6]. cbn [run]. rewrite answer_run.
  destruct (closed w || broken w) eqn:Ecb.
  { destruct (assertWritable_refuses d w Ecb) as (e & E).
    assert (truncateThrough os lsn (d, w) = (Throw e, (d, w))) as -> by (unfold truncateThrough; by rewrite (bind_throw _ _ _ _ _ E)).
    by apply step_refused. }
  apply orb_false_iff in Ecb as [Hc Hb]. pose proof (truncateThrough_keeps os lsn d w (content s) M1) as Ho.
  destruct (truncateThrough os lsn (d, w)) as [[z|e] [d' w']]; destruct Ho as (Hs & Hb' & k & Hl & Hk).
  - eapply step_ok; [exact Hm|exact Hs|exact Hb'|exact Hl| |done].
    split; [congruence|]. split; [congruence|]. split; [by eexists|by exists k].
  - eapply step_throw; [exact Hm|exact Hs|exact Hl| |done]. by exists k.
Qed.

Lemma close_step d w s : models m group dir d w s → simulates s CloseLog (run os CloseLog (d, w)).
Proof.
  intros Hm. pose proof Hm as [M1 M2 M3 M4 M5 M6]. cbn [run]. rewrite answer_run.
  pose proof (close_keeps os d w (content s) M1) as Ho.
  destruct (close os (d, w)) as [r [d' w']]. destruct Ho as (E1 & E2 & E3 & Hl & Hok & Hb & Eg).
  destruct r as [u|e].
  - destruct u. exists {| content := if is_closed s || is_broken s then content s else durable_all m (kept_all (content s));
      is_closed := true; is_broken := is_broken s |}. split; [by apply allowed_ok|].
    split; cbn; [|congruence..|rewrite <- M6; by apply Hb].
    rewrite <- M5, <- M6. destruct (closed w) eqn:Hc; [done|]. destruct (broken w) eqn:Hb'; [done|].
    cbn. rewrite <- M2. by apply Hok.
  - exists {| content := content s; is_closed := true; is_broken := broken w' |}. split; [by apply allowed_throw|].
    split; cbn; done || congruence.
Qed.

(** Reading changes nothing, whatever it finds. *)
Definition read_only {A} (x : ST Disk exn A) : Prop := ∀ d, files (x d).2 = files d.

Lemma read_only_bind {A B} (x : ST Disk exn A) (k : A → ST Disk exn B) :
  read_only x → (∀ a, read_only (k a)) → read_only (x ≫= k).
Proof.
  intros Hx Hk d. specialize (Hx d). unfold mbind, st_bind. destruct (x d) as [[a|e] d']; [|done].
  cbn in Hx. by rewrite Hk.
Qed.

Lemma read_only_segment file : read_only (readSegment os file).
Proof.
  intros d. unfold readSegment, or_ioError, st_catch, readFileSync, syscall. cbn [calls files].
  assert (∀ d', files d' = files d → files (on_file file (λ f, (contents f, f)) d').2 = files d ∧
    ∀ e d'', on_file file (λ f, (contents f, f)) d' = (Throw e, d'') → files d'' = files d) as Hon.
  { intros d' E. unfold on_file. destruct (omap_get (files d') file) as [f|] eqn:Ef; [|split; [done|by intros e d'' [= _ <-]]].
    cbn. split; [|done]. rewrite <- E. by apply set_same_get. }
  specialize (Hon {| files := files d; calls := calls d + 1 |} eq_refl) as [H1 H2].
  destruct (os (calls d + 1) (ReadFile file)); try done;
    (destruct (on_file _ _ _) as [[a|e] d'']; [exact H1|]; cbn; by eapply H2).
Qed.

Lemma read_only_all n segs : read_only (read_all os n segs).
Proof.
  induction segs as [|s segs IH]; [by intros d|]. cbn [read_all].
  apply read_only_bind; [|intros a; apply read_only_bind; [exact IH|by intros a' d]].
  unfold read_one. destruct (match head segs with Some next => _ | None => _ end); [by intros d|].
  apply read_only_bind; [apply read_only_segment|]. intros data.
  destruct (decodeSegmentHeader data) as [first|]; [|by intros d]. destruct (negb _); [by intros d|].
  destruct (scan_segment data (firstLsn s)) as [[[rs stop] ?] ?]. by destruct stop; intros d.
Qed.

Lemma records_step d w s n : models m group dir d w s → simulates s (Records n) (run os (Records n) (d, w)).
Proof.
  intros Hm. pose proof Hm as [M1 M2 M3 M4 M5 M6]. cbn [run]. rewrite answer_run.
  destruct (closed w) eqn:Hc.
  { assert (records os n (d, w) = (Throw (StorageError Closed), (d, w))) as ->; [|by apply step_refused].
    unfold records, assertOpen. by rewrite (bind_throw _ _ _ (StorageError Closed) (d, w)) by (by rewrite this_bind, Hc). }
  destruct (broken w) eqn:Hb.
  - unfold records, assertOpen. rewrite (bind_ok _ _ _ () (d, w)) by (by rewrite this_bind, Hc).
    rewrite this_bind, Hb. rewrite (bind_ok _ _ _ () (d, w)) by done. rewrite this_bind.
    pose proof (read_only_all n (segments w) d) as Hr. unfold on_disk. cbn [fst snd].
    destruct (read_all os n (segments w) d) as [[rs|e] d']; cbn in Hr.
    + eapply step_ok; [exact Hm|done|done|by apply (log_at_files d)| |done].
      split; [congruence|]. by rewrite <- M6.
    + eapply step_throw; [exact Hm|done|by apply (log_at_files d)|done|done].
  - pose proof (records_outcome os d w (content s) n M1 Hc Hb) as Ho. unfold records_answer in Ho.
    destruct (records os n (d, w)) as [[rs|e] [d' w']].
    + destruct Ho as (-> & Hs & Hb' & Hl). eapply step_ok; [exact Hm|exact Hs|congruence|exact Hl| |done].
      split; [congruence|]. by rewrite <- M6.
    + destruct Ho as (Hs & Hl). by eapply step_throw.
Qed.

Lemma run_step d w s c :
  cleans os → models m group dir d w s → command_ok c → simulates s c (run os c (d, w)).
Proof.
  intros Hclean Hm Hc. destruct c.
  - by apply append_step.
  - by apply flush_step.
  - by apply commit_step.
  - by apply sync_step.
  - by apply records_step.
  - by apply truncate_step_models.
  - by apply close_step.
Qed.

Lemma run_all_trace cs : ∀ d w s,
  cleans os → models m group dir d w s → Forall command_ok cs →
  match run_all os cs (d, w) with
  | (rs, (d', w')) => map fst rs = cs ∧ ∃ s', trace m group s rs s' ∧ models m group dir d' w' s'
  end.
Proof.
  induction cs as [|c cs IH]; intros d w s Hclean Hm Hok.
  { cbn. split; [done|]. exists s. split; [constructor|done]. }
  apply Forall_cons in Hok as [Hc Hok]. cbn [run_all].
  pose proof (run_step d w s c Hclean Hm Hc) as Hs. unfold simulates in Hs.
  destruct (run os c (d, w)) as [r [d1 w1]]. destruct Hs as (s1 & Ha & Hm1).
  specialize (IH d1 w1 s1 Hclean Hm1 Hok). destruct (run_all os cs (d1, w1)) as [rs [d2 w2]].
  destruct IH as (E & s2 & Ht & Hm2). split; [cbn; by rewrite E|]. exists s2. split; [by econstructor|done].
Qed.
End Steps.
