(* ===== verification/WalProperties.v ===== *)
(** * The write-ahead log: its promises

    A log is an implementation of a list of numbered records; what a crash leaves
    of it is read back, and no acknowledged record that was promised is lost. *)

From S2P Require Import Prelude Errors JsNumber JsString Binary WalFormat Disk DiskLemmas WriteAheadLog WalLemmas WalInvariant WalOperations WalUpkeep WalOpen WalCrash WalModel.
Import WalFormat WriteAheadLog.

(** ** Opening and reading *)

(** The records of the log of a directory, opened anew. *)
Definition read_back (os : Z → Call → Outcome) (w : WriteAheadLog) : ST Disk exn (list WalRecord) :=
  λ d, let (r, s) := records os 0 (d, w) in (r, s.1).

Definition reread (os : Z → Call → Outcome) (options : WriteAheadLogOptions) : ST Disk exn (list WalRecord) :=
  w ← open os options; read_back os w.

Lemma after_0 base l : 1 ≤ base → after 0 (numbered base l) = numbered base l.
Proof.
  revert base. induction l as [|[t p] l IH]; intros base H; [done|]. cbn.
  destruct (Z.ltb_spec 0 base); [|lia]. f_equal. apply IH. lia.
Qed.

Section Reread.
Context (os : Z → Call → Outcome).

Lemma records_found d w base l old first written fl n :
  found_log d w base l old first written fl → closed w = false → broken w = false →
  match records os n (d, w) with
  | (Ok rs, _) => rs = after n (numbered base l)
  | (Throw e, _) => not_corruption e
  end.
Proof.
  intros [Hh E2 E3 E4 E5 E6 E7 E8 ->] Hc Hb. unfold records, assertOpen.
  rewrite (bind_ok _ _ _ () (d, w)) by (rewrite this_bind, Hc; done). rewrite this_bind, Hb.
  assert (flush os (d, w) = (Ok (), (d, w))) as Ef.
  { unfold flush. rewrite (bind_ok _ _ _ () (d, w)) by (by apply assertWritable_open). by rewrite this_bind, E7. }
  rewrite (bind_ok _ _ _ () (d, w)) by exact Ef. rewrite this_bind, E2.
  apply (on_disk_quietly _ d w _ (λ r, match r with (Ok rs, _) => rs = _ | (Throw e, _) => not_corruption e end)
    (read_hold os d _ _ _ _ _ _ n Hh)); done.
Qed.

Lemma reread_image options d base l :
  cleans os → image d (opt_directory options) base l → 1 ≤ base →
  match reread os options d with
  | (Ok rs, _) => rs = numbered base l
  | (Throw e, _) => not_corruption e
  end.
Proof.
  intros Hclean Him Hb. pose proof (open_outcome os options d base l Hclean Him) as Ho.
  unfold reread, read_back, mbind, st_bind. destruct (open os options d) as [[w|e] d1]; [|by destruct Ho].
  destruct Ho as ([_ _ _ Hc Hbr] & (old & first & written & fl & Hf) & _).
  pose proof (records_found d1 w base l _ _ _ _ 0 Hf Hc Hbr) as Hr.
  destruct (records os 0 (d1, w)) as [[rs|e] s]; [|exact Hr]. cbn. rewrite Hr. by apply after_0.
Qed.
End Reread.

(** ** What the specification keeps *)
Section Trace.
Context (m : WriteConcern) (group : bool).

(** All of it in the files, and on stable storage if every append waits for that. *)
Definition tight (a : Log) : Prop :=
  (m ≠ Memory → log_kept a = log_next a) ∧
  (m = Flushed → group = false → log_durable a = log_next a).

Definition later (a a' : Log) : Prop := log_base a ≤ log_base a' ∧ (tight a → tight a').

Lemma later_refl a : later a a.
Proof. split; [lia|done]. Qed.

Lemma later_trans a b c : later a b → later b c → later a c.
Proof. intros [H1 H2] [H3 H4]. split; [lia|auto]. Qed.

Lemma later_appended a x : later a (appended m group a x).
Proof.
  split; [cbn; lia|]. intros [H1 H2]. unfold appended, tight, log_next, durable_after in *.
  cbn [log_base log_entries log_kept log_durable]. rewrite len_app. change (len [x]) with 1. split.
  - intros Hm. rewrite bool_decide_eq_false_2 by done. lia.
  - intros Hm Hg. rewrite bool_decide_eq_true_2, Hg by done. cbn [negb andb]. lia.
Qed.

Lemma later_kept a : later a (kept_all a).
Proof. split; [cbn; lia|]. intros [H1 H2]. by split. Qed.

Lemma later_durable a : later a (durable_all m a).
Proof.
  split; [cbn; lia|]. intros [H1 H2]. split; [exact H1|]. intros Hm _. cbn. by rewrite bool_decide_eq_true_2.
Qed.

Lemma later_trimmed a lsn k : removable a lsn k → later a (trimmed a k).
Proof.
  intros Hk. split; [cbn; lia|]. assert (log_next (trimmed a k) = log_next a) as E.
  { unfold log_next. cbn. unfold len. rewrite length_drop. destruct Hk as [->|]; lia. }
  intros [H1 H2]. unfold tight. rewrite E. by split.
Qed.

Lemma later_queued a x : m = Memory → later a (queued a x).
Proof. intros Hm. split; [cbn; lia|]. intros _. split; intros H; congruence. Qed.

Lemma later_attempt a x : later a (attempt a x).
Proof. split; [cbn; lia|]. intros [H1 H2]. by split. Qed.

Lemma effect_later s c v a : effect m group s c v a → later (content s) a.
Proof.
  destruct c; cbn [effect].
  - intros (_ & _ & _ & ->). apply later_appended.
  - intros (_ & _ & _ & ->). apply later_kept.
  - intros (_ & ->). destruct (is_closed s); [apply later_refl|apply later_durable].
  - intros (_ & _ & _ & ->). eapply later_trans; [apply later_kept|apply later_durable].
  - intros (_ & H). destruct (is_broken s); [subst a; apply later_refl|]. destruct H as (_ & ->). apply later_kept.
  - intros (_ & _ & _ & k & -> & Hk). by eapply later_trimmed.
  - intros (_ & ->). destruct (is_closed s || is_broken s); [apply later_refl|].
    eapply later_trans; [apply later_kept|apply later_durable].
Qed.

Lemma allowed_later s c r s' : allowed m group s c r s' → later (content s) (content s').
Proof.
  intros [v s1 He _ _|e s1 He _]; [by eapply effect_later|].
  destruct c; cbn [effect_throw] in He; try (rewrite He; apply later_refl).
  - destruct He as [->|[->|(Hm & _ & ->)]]; [apply later_refl|apply later_attempt|by apply later_queued].
  - destruct He as (k & -> & Hk). by eapply later_trimmed.
Qed.

Lemma trace_later s rs s' : trace m group s rs s' → later (content s) (content s').
Proof.
  induction 1 as [|s c r s1 cs s2 Ha _ IH]; [apply later_refl|]. eapply later_trans; [by eapply allowed_later|done].
Qed.

Lemma tight_reopened base l : tight (reopened base l).
Proof. by split. Qed.
End Trace.

(** The specification of a log just opened. *)
Definition spec_of (base : Z) (l : list entry) : Spec :=
  {| content := reopened base l; is_closed := false; is_broken := false |}.

Section Life.
Context (os : Z → Call → Outcome) (options : WriteAheadLogOptions).

Definition group_of : bool := default false (opt_groupCommit options).

(** A log opened on what is there, and any operations on it. *)
Lemma life d base l cs :
  cleans os → image d (opt_directory options) base l → (concern options = Flushed → all_flushed d) →
  Forall command_ok cs →
  match open os options d with
  | (Throw e, _) => not_corruption e
  | (Ok w, d1) =>
      let (rs, s) := run_all os cs (d1, w) in
      map fst rs = cs ∧
      ∃ s', trace (concern options) group_of (spec_of base l) rs s' ∧
        models (concern options) group_of (opt_directory options) s.1 s.2 s'
  end.
Proof.
  intros Hclean Him Hfl Hcs. pose proof (open_outcome os options d base l Hclean Him) as Ho.
  destruct (open os options d) as [[w|e] d1]; [|by destruct Ho].
  destruct Ho as ([O1 O2 O3 O4 O5] & (old & first & written & fl & Hf) & Hfl1).
  assert (models (concern options) group_of (opt_directory options) d1 w (spec_of base l)) as Hm.
  { split; try done. eapply found_log_at; [exact Hf|]. rewrite O2. intros Hm. apply Hfl1; [done|by apply Hfl]. }
  pose proof (run_all_trace os _ _ _ cs d1 w _ Hclean Hm Hcs) as Hr.
  destruct (run_all os cs (d1, w)) as [rs [d2 w2]]. exact Hr.
Qed.
End Life.

(** ** Acknowledged records *)
Definition has (a : Log) (z : Z) (x : entry) : Prop :=
  log_base a ≤ z ∧ log_entries a !! Z.to_nat (z - log_base a) = Some x.

(** Removed on demand. *)
Definition removed_by (c : Command) (z : Z) : Prop :=
  match c with TruncateThrough n => z ≤ n | _ => False end.

Lemma has_entries a a' z x :
  log_base a' = log_base a → (∃ more, log_entries a' = log_entries a ++ more) → has a z x → has a' z x.
Proof. intros E1 (more & E2) [H1 H2]. unfold has. rewrite E1, E2. split; [done|]. by apply lookup_app_l_Some. Qed.

Lemma has_same a a' z x : log_base a' = log_base a → log_entries a' = log_entries a → has a z x → has a' z x.
Proof. intros E1 E2. apply has_entries; [done|]. exists []. by rewrite app_nil_r. Qed.

Lemma has_trimmed a lsn k z x : removable a lsn k → has a z x → has (trimmed a k) z x ∨ z ≤ lsn.
Proof.
  intros Hk [H1 H2]. destruct (Z.le_gt_cases (log_base a + Z.of_nat k) z) as [Hle|Hgt].
  - left. split; [done|]. cbn. rewrite lookup_drop. rewrite <- H2. f_equal. lia.
  - right. destruct Hk as [->|[_ Hk]]; lia.
Qed.

Section Acknowledged.
Context (m : WriteConcern) (group : bool).

Lemma allowed_has s c r s' z x :
  allowed m group s c r s' → has (content s) z x → has (content s') z x ∨ removed_by c z.
Proof.
  intros [v s1 He _ _|e s1 He _] Hz; destruct c; cbn [effect effect_throw removed_by] in *.
  - destruct He as (_ & _ & _ & ->). left. eapply has_entries; [|by eexists|exact Hz]. done.
  - destruct He as (_ & _ & _ & ->). by left.
  - destruct He as (_ & ->). left. by destruct (is_closed s).
  - destruct He as (_ & _ & _ & ->). by left.
  - destruct He as (_ & He). left. destruct (is_broken s); [by rewrite He|]. by destruct He as (_ & ->).
  - destruct He as (_ & _ & _ & k & -> & Hk). by apply has_trimmed.
  - destruct He as (_ & ->). left. by destruct (is_closed s || is_broken s).
  - left. destruct He as [->|[->|(_ & _ & ->)]]; [done|by eapply has_same, Hz|]. eapply has_entries; [|by eexists|exact Hz]. done.
  - left. by rewrite He.
  - left. by rewrite He.
  - left. by rewrite He.
  - left. by rewrite He.
  - destruct He as (k & -> & Hk). by apply has_trimmed.
  - left. by rewrite He.
Qed.

Lemma trace_has s rs s' z x :
  trace m group s rs s' → has (content s) z x →
  has (content s') z x ∨ ∃ c r, (c, r) ∈ rs ∧ removed_by c z.
Proof.
  induction 1 as [|s c r s1 cs s2 Ha _ IH]; intros Hz; [by left|].
  destruct (allowed_has _ _ _ _ _ _ Ha Hz) as [H1|H1].
  - destruct (IH H1) as [H2|(c' & r' & H2 & H3)]; [by left|]. right. exists c', r'. split; [by right|done].
  - right. exists c, r. split; [by left|done].
Qed.

Lemma append_has s t p z s' :
  allowed m group s (Append t p) (Ok (Number z)) s' → has (content s') z (t, p).
Proof.
  intros Ha. inversion Ha as [v s1 He _ _|]; subst. cbn in He. destruct He as (_ & _ & [= ->] & ->).
  unfold has, appended, log_next. cbn. pose proof (len_nonneg (log_entries (content s))). split; [lia|].
  rewrite lookup_app_r by (unfold len; lia).
  replace (Z.to_nat _ - _)%nat with O by (unfold len; lia). done.
Qed.

Lemma trace_acknowledged s rs s' t p z :
  trace m group s rs s' → (Append t p, Ok (Number z)) ∈ rs →
  has (content s') z (t, p) ∨ ∃ c r, (c, r) ∈ rs ∧ removed_by c z.
Proof.
  induction 1 as [|s c r s1 cs s2 Ha Ht IH]; intros Hin; [by apply not_elem_of_nil in Hin|].
  apply elem_of_cons in Hin as [[= <- <-]|Hin].
  - destruct (trace_has _ _ _ _ _ Ht (append_has _ _ _ _ _ Ha)) as [H1|(c & r & H1 & H2)]; [by left|].
    right. exists c, r. split; [by right|done].
  - destruct (IH Hin) as [H1|(c' & r' & H1 & H2)]; [by left|]. right. exists c', r'. split; [by right|done].
Qed.
End Acknowledged.

Lemma numbered_lookup base l z t p :
  base ≤ z → l !! Z.to_nat (z - base) = Some (t, p) →
  {| lsn := z; type := t; payload := p |} ∈ numbered base l.
Proof.
  revert base. induction l as [|[t' p'] l IH]; intros base Hz Hl; [done|]. cbn [numbered].
  destruct (decide (z = base)) as [->|Hne].
  - rewrite Z.sub_diag in Hl. injection Hl as -> ->. by left.
  - right. apply IH; [lia|]. replace (Z.to_nat (z - base)) with (S (Z.to_nat (z - (base + 1)))) in Hl by lia. exact Hl.
Qed.

(** What survives with all the promised records is all of them. *)
Lemma survives_has a l z t p :
  survives a (log_next a) l → has a z (t, p) →
  {| lsn := z; type := t; payload := p |} ∈ numbered (log_base a) l.
Proof.
  intros [(more & _ & Hm & Hp) Hb] [H1 H2]. apply numbered_lookup; [done|].
  assert (Z.to_nat (z - log_base a) < length l)%nat as Hlt.
  { apply lookup_lt_Some in H2. unfold log_next, len in Hb. lia. }
  destruct Hp as [rest E]. apply (lookup_app_l_Some _ more) in H2. rewrite E in H2.
  by rewrite lookup_app_l in H2.
Qed.

(** A directory without segments. *)
Lemma image_fresh d dir :
  NoDup (omap_keys (files d)) →
  (∀ name, is_Some (omap_get (files d) (dir, name)) → segment_lsn name = None) → image d dir 1 [].
Proof.
  intros Hn Hno. apply image_none; [|reflexivity|reflexivity]. split.
  - exact Hn.
  - intros name Hs [z Hz]. by rewrite (Hno name Hs) in Hz.
  - constructor.
  - reflexivity.
  - split; [lia|]. split; [unfold old_entries, len; cbn; lia|constructor].
  - lia.
Qed.

(** ** The promises *)

(** C28: An open write-ahead log implements its specification, a list of numbered
    records, over an operating system that never fails to close or to remove a file
    ([cleans]); every other call may fail, or write a part only. Every command that
    the log runs and every result it gives is a step of that specification, the
    files and the memory of the log go on representing the list, and opening never
    reports corruption. Without [cleans] it can: [leftover_segment]. *)
Theorem wal_refines os options d base l cs :
  cleans os → image d (opt_directory options) base l → (concern options = Flushed → all_flushed d) →
  Forall command_ok cs →
  match open os options d with
  | (Throw e, _) => e ≠ StorageError Corruption
  | (Ok w, d1) =>
      let (rs, s) := run_all os cs (d1, w) in
      map fst rs = cs ∧
      ∃ s', trace (concern options) (group_of options) (spec_of base l) rs s' ∧ log_at s.1 s.2 (content s') ∧
        closed s.2 = is_closed s' ∧ broken s.2 = is_broken s'
  end.
Proof.
  intros Hclean Him Hfl Hcs. pose proof (life os options d base l cs Hclean Him Hfl Hcs) as Hlife.
  destruct (open os options d) as [[w|e] d1]; [|exact Hlife].
  destruct (run_all os cs (d1, w)) as [rs s]. destruct Hlife as (E & s' & Ht & [M1 M2 M3 M4 M5 M6]).
  split; [exact E|]. by exists s'.
Qed.

(** C19: After a crash at any point of the life of a log, between two operations or
    while a new segment is created, opening it again does not report corruption,
    and reads back the records in their order: all those whose numbers are below
    the bound that the specification promises for that kind of crash, and at most
    one that was never acknowledged. *)
Theorem wal_recovers os options d base l cs :
  cleans os → image d (opt_directory options) base l → (concern options = Flushed → all_flushed d) →
  Forall command_ok cs → 1 ≤ base →
  match open os options d with
  | (Throw e, _) => e ≠ StorageError Corruption
  | (Ok w, d1) =>
      let (rs, s) := run_all os cs (d1, w) in
      ∃ s', trace (concern options) (group_of options) (spec_of base l) rs s' ∧
        ∀ d3 bound os' options', crash s.2 (content s') s.1 d3 bound →
        cleans os' → opt_directory options' = opt_directory options →
        match reread os' options' d3 with
        | (Ok rs', _) => ∃ l', rs' = numbered (log_base (content s')) l' ∧ survives (content s') bound l'
        | (Throw e, _) => e ≠ StorageError Corruption
        end
  end.
Proof.
  intros Hclean Him Hfl Hcs Hb. pose proof (life os options d base l cs Hclean Him Hfl Hcs) as Hlife.
  destruct (open os options d) as [[w|e] d1]; [|exact Hlife].
  destruct (run_all os cs (d1, w)) as [rs s]. destruct Hlife as (_ & s' & Ht & Hm). exists s'. split; [exact Ht|].
  intros d3 bound os' options' Hcrash Hclean' Hdir.
  destruct (crash_image _ _ _ _ _ (models_log _ _ _ _ _ _ Hm) Hcrash) as (l' & Him' & Hs).
  rewrite (models_directory _ _ _ _ _ _ Hm), <- Hdir in Him'.
  destruct (trace_later _ _ _ _ _ Ht) as [Hbase _].
  pose proof (reread_image os' options' d3 _ l' Hclean' Him' ltac:(cbn in Hbase; lia)) as Hr.
  destruct (reread os' options' d3) as [[rs'|e] d4]; [|exact Hr]. by exists l'.
Qed.

(** C18: No acknowledged record is lost: if an append was acknowledged with a
    number, then after the process dies (for a log that is not kept in memory) or
    the power fails (for a log flushed at every append) the log that is opened
    again holds that record under that number, unless the log was truncated
    through it. *)
Theorem wal_acknowledged os options d base l cs d3 os' options' :
  cleans os → image d (opt_directory options) base l → (concern options = Flushed → all_flushed d) →
  Forall command_ok cs → 1 ≤ base → cleans os' → opt_directory options' = opt_directory options →
  match open os options d with
  | (Throw e, _) => e ≠ StorageError Corruption
  | (Ok w, d1) =>
      let (rs, s) := run_all os cs (d1, w) in
      (concern options ≠ Memory ∧ files d3 = files s.1) ∨
      (concern options = Flushed ∧ group_of options = false ∧ power_loss s.1 d3) →
      match reread os' options' d3 with
      | (Throw e, _) => e ≠ StorageError Corruption
      | (Ok rs', _) =>
          ∀ t p z, (Append t p, Ok (Number z)) ∈ rs →
            {| lsn := z; type := t; payload := p |} ∈ rs' ∨
            ∃ n r, (TruncateThrough n, r) ∈ rs ∧ z ≤ n
      end
  end.
Proof.
  intros Hclean Him Hfl Hcs Hb Hclean' Hdir. pose proof (life os options d base l cs Hclean Him Hfl Hcs) as Hlife.
  destruct (open os options d) as [[w|e] d1]; [|exact Hlife].
  destruct (run_all os cs (d1, w)) as [rs s]. destruct Hlife as (_ & s' & Ht & Hm). intros Hcrash.
  destruct (trace_later _ _ _ _ _ Ht) as [Hbase Htight].
  destruct (Htight (tight_reopened _ _ base l)) as [Hk Hd].
  assert (crash s.2 (content s') s.1 d3 (log_next (content s'))) as Hc.
  { destruct Hcrash as [[Hmem Hf]|(Hfm & Hg & Hl)].
    - rewrite <- (Hk Hmem). by apply process_dies.
    - rewrite <- (Hd Hfm Hg). apply power_fails; [|done]. by rewrite (models_mode _ _ _ _ _ _ Hm). }
  destruct (crash_image _ _ _ _ _ (models_log _ _ _ _ _ _ Hm) Hc) as (l' & Him' & Hs).
  rewrite (models_directory _ _ _ _ _ _ Hm), <- Hdir in Him'.
  pose proof (reread_image os' options' d3 _ l' Hclean' Him' ltac:(cbn in Hbase; lia)) as Hr.
  destruct (reread os' options' d3) as [[rs'|e] d4]; [|exact Hr]. subst rs'. intros t p z Hin.
  destruct (trace_acknowledged _ _ _ _ _ _ _ _ Ht Hin) as [Hz|(c & r & H1 & H2)].
  - left. by apply survives_has.
  - right. destruct c; try done. by eexists _, r.
Qed.

(** Reading a segment ends: after a valid header, the loop over its records
    never runs out of turns, on any bytes. *)
Lemma wal_scan_terminates data first firstLsn :
  Forall is_byte data → decodeSegmentHeader data = HeaderOk firstLsn →
  (scan_segment data first).1.1.2 ≠ StopFuel.
Proof.
  intros Hb Hh. apply scan_loop_stops; [done| |].
  - unfold SEGMENT_HEADER_SIZE, len. lia.
  - unfold decodeSegmentHeader in Hh. destruct (Z.ltb_spec (len data) SEGMENT_HEADER_SIZE); [done|lia].
Qed.

(** The record format round trips: an encoded record, followed by anything, is
    read back with its number, type and payload; cut anywhere it is torn, never
    taken for another record; and what is accepted as a record is the encoding of
    what is read. *)
Lemma wal_record_roundtrip lsn type payload bs pre :
  Forall is_byte payload → encodeRecord lsn type payload = Ok bs →
  (∀ rest, scanRecord (pre ++ bs ++ rest) (len pre) lsn = ScanRecord lsn type payload (len pre + len bs)) ∧
  (∀ n, (0 < n < length bs)%nat → scanRecord (pre ++ take n bs) (len pre) lsn = ScanTorn) ∧
  (∀ data t p last, Forall is_byte data → scanRecord data 0 lsn = ScanRecord lsn t p last →
     ∃ rest, data = (match encodeRecord lsn t p with Ok b => b | Throw _ => [] end) ++ rest ∧
       last = len data - len rest).
Proof.
  intros Hp He. pose proof (encodeRecord_spec lsn type payload Hp) as Hs. rewrite He in Hs. destruct Hs as [Hok ->].
  split; [|split].
  - intros rest. by apply scan_record.
  - intros n Hn. rewrite scan_cut by (done || lia). by destruct (Nat.eqb_spec n 0); [lia|].
  - intros data t p last Hd Hscan. destruct Hok as ((H0 & _) & _).
    destruct (scan_inv _ _ _ _ _ _ Hd H0 Hscan) as (_ & Hok & -> & rest & ->). exists rest.
    pose proof (encodeRecord_spec lsn t p (proj2 (proj2 (proj2 Hok)))) as Hs.
    destruct (encodeRecord lsn t p) as [b|e]; [|by destruct Hs]. destruct Hs as [_ ->]. split; [done|].
    rewrite len_app. lia.
Qed.

(** ** A small log *)
Definition sample_os (i : Z) (call : Call) : Outcome :=
  match call with
  | Write _ => if i =? 8 then Short 3 else Done
  | Fsync _ => if i =? 22 then Fails EIO else Done
  | _ => Done
  end.

Definition steady_os (i : Z) (call : Call) : Outcome := Done.

Definition sample_options : WriteAheadLogOptions := {|
  opt_directory := js "wal";
  opt_writeConcern := None;
  opt_groupCommit := None;
  opt_segmentSizeBytes := Some (number_of_Z 88);
|}.

Definition no_files : Disk := {| files := []; calls := 0 |}.

Definition sample_commands : list Command := [Append 1 [7; 8]; Append 2 []; Append 3 [9]; Flush; CloseLog].

(** The disk after these commands. *)
Definition sample_disk : Disk :=
  match open sample_os sample_options no_files with
  | (Ok w, d) => (run_all sample_os sample_commands (d, w)).2.1
  | (Throw _, d) => d
  end.

Lemma sample_cleans : cleans sample_os.
Proof. intros i file code. done. Qed.

Lemma steady_cleans : cleans steady_os.
Proof. intros i file code. done. Qed.

Lemma no_files_image : image no_files (js "wal") 1 [].
Proof. apply image_fresh; [constructor|]. intros name []. done. Qed.

Lemma sample_commands_ok : Forall command_ok sample_commands.
Proof. repeat (constructor; try done). Qed.

(** The last append fails when it is flushed; its record is there all the same. *)
Example sample_reread :
  (reread steady_os sample_options sample_disk).1 =
  Ok [{| lsn := 1; type := 1; payload := [7; 8] |}; {| lsn := 2; type := 2; payload := [] |};
      {| lsn := 3; type := 3; payload := [9] |}].
Proof. vm_compute. reflexivity. Qed.

Lemma wal_refines_witness :
  ∃ w d1 s', open sample_os sample_options no_files = (Ok w, d1) ∧
    trace Flushed false (spec_of 1 []) (run_all sample_os sample_commands (d1, w)).1 s' ∧
    is_broken s' = true ∧ is_closed s' = true.
Proof.
  pose proof (wal_refines sample_os sample_options no_files 1 [] sample_commands sample_cleans no_files_image
    ltac:(intros _ p f; done) sample_commands_ok) as H.
  destruct (open sample_os sample_options no_files) as [[w|e] d1] eqn:E; [|vm_compute in E; discriminate].
  exists w, d1. destruct (run_all sample_os sample_commands (d1, w)) as [rs s] eqn:E2.
  destruct H as (_ & s' & Ht & _ & Hc & Hb). exists s'. split; [reflexivity|]. split; [exact Ht|].
  assert (closed s.2 = true ∧ broken s.2 = true) as [E3 E4].
  { assert (match open sample_os sample_options no_files with
      | (Ok w, d1) => let s := (run_all sample_os sample_commands (d1, w)).2 in closed s.2 = true ∧ broken s.2 = true
      | _ => False end) as Hx by (vm_compute; split; reflexivity).
    rewrite E, E2 in Hx. exact Hx. }
  split; congruence.
Defined.

Lemma wal_recovers_witness :
  ∃ w d1 s', open sample_os sample_options no_files = (Ok w, d1) ∧
    trace Flushed false (spec_of 1 []) (run_all sample_os sample_commands (d1, w)).1 s' ∧
    ∃ rs l, (reread steady_os sample_options (run_all sample_os sample_commands (d1, w)).2.1).1 = Ok rs ∧
      rs = numbered (log_base (content s')) l ∧ survives (content s') (log_kept (content s')) l.
Proof.
  pose proof (wal_recovers sample_os sample_options no_files 1 [] sample_commands sample_cleans no_files_image
    ltac:(intros _ p f; done) sample_commands_ok ltac:(lia)) as H.
  destruct (open sample_os sample_options no_files) as [[w|e] d1] eqn:E; [|vm_compute in E; discriminate].
  exists w, d1. destruct (run_all sample_os sample_commands (d1, w)) as [rs s] eqn:E2.
  destruct H as (s' & Ht & H). exists s'. split; [reflexivity|]. split; [exact Ht|].
  specialize (H s.1 _ steady_os sample_options (process_dies _ _ _ _ eq_refl) steady_cleans eq_refl).
  assert (s.1 = sample_disk) as Ed by (unfold sample_disk; by rewrite E, E2).
  pose proof sample_reread as Hr. cbn [snd]. rewrite Ed in *.
  destruct (reread steady_os sample_options sample_disk) as [[rs'|e] d4]; [|discriminate Hr].
  destruct H as (l & H1 & H2). exists rs', l. split; [reflexivity|]. split; [exact H1|exact H2].
Defined.

Lemma wal_acknowledged_witness :
  ∃ rs, (reread steady_os sample_options sample_disk).1 = Ok rs ∧
    {| lsn := 2; type := 2; payload := [] |} ∈ rs.
Proof.
  pose proof (wal_acknowledged sample_os sample_options no_files 1 [] sample_commands sample_disk steady_os sample_options
    sample_cleans no_files_image ltac:(intros _ p f; done) sample_commands_ok ltac:(lia) steady_cleans eq_refl) as H.
  destruct (open sample_os sample_options no_files) as [[w|e] d1] eqn:E; [|vm_compute in E; discriminate].
  destruct (run_all sample_os sample_commands (d1, w)) as [rs s] eqn:E2.
  assert (files sample_disk = files s.1) as Ed by (unfold sample_disk; by rewrite E, E2).
  assert ((Append 2 [], Ok (Number 2)) ∈ rs) as Hin.
  { assert (match open sample_os sample_options no_files with
      | (Ok w, d1) => nth_error (run_all sample_os sample_commands (d1, w)).1 1 = Some (Append 2 [], Ok (Number 2))
      | _ => False end) as Hx by (vm_compute; reflexivity).
    rewrite E, E2 in Hx. cbn [fst] in Hx. apply nth_error_In in Hx. by apply list_elem_of_In. }
  specialize (H ltac:(left; split; [discriminate|exact Ed])).
  pose proof sample_reread as Hr.
  destruct (reread steady_os sample_options sample_disk) as [[rs'|e] d4]; [|discriminate Hr].
  exists rs'. split; [reflexivity|]. destruct (H 2 [] 2 Hin) as [Hl|(n & r & Hn & _)]; [exact Hl|].
  assert (match open sample_os sample_options no_files with
    | (Ok w, d1) => map fst (run_all sample_os sample_commands (d1, w)).1 = sample_commands
    | _ => False end) as Hx by (vm_compute; reflexivity).
  rewrite E, E2 in Hx. cbn [fst] in Hx. apply (list_elem_of_fmap_2 fst) in Hn.
  change (map fst rs) with (fst <$> rs) in Hx. rewrite Hx in Hn. cbn [fst] in Hn.
  unfold sample_commands in Hn. apply list_elem_of_In in Hn. clear -Hn. cbn in Hn. naive_solver.
Defined.

Lemma wal_scan_terminates_witness :
  (scan_segment (segment_header_of 5 ++ repeat 1 40) 5).1.1.2 ≠ StopFuel.
Proof.
  apply (wal_scan_terminates _ _ 5).
  - vm_compute. repeat (constructor; try done).
  - vm_compute. reflexivity.
Defined.

Lemma wal_record_roundtrip_witness :
  ∃ bs, encodeRecord 7 3 [1; 2; 255] = Ok bs ∧ scanRecord ([0; 0] ++ take 20 bs) 2 7 = ScanTorn.
Proof.
  destruct (encodeRecord 7 3 [1; 2; 255]) as [bs|e] eqn:E; [|vm_compute in E; discriminate].
  exists bs. split; [reflexivity|].
  destruct (wal_record_roundtrip 7 3 [1; 2; 255] bs [0; 0] ltac:(repeat (constructor; try done)) E) as (_ & H & _).
  apply H. vm_compute in E. injection E as <-. cbn. lia.
Defined.

(** Why [cleans] is assumed: a new segment that can neither be flushed nor closed
    is left behind whole, the log goes on with the old one, and the records that
    were acknowledged after that cannot be read again. *)
Definition faulty_os (i : Z) (call : Call) : Outcome :=
  match call with
  | Fsync (_, name) | Close (_, name) =>
      if bool_decide (name = segment_name 2) then Fails EIO else Done
  | _ => Done
  end.

Example leftover_segment :
  match open faulty_os sample_options no_files with
  | (Ok w, d) =>
      let (rs, s) := run_all faulty_os [Append 1 [7; 8]; Append 1 (repeat 1 30); Append 2 []; CloseLog] (d, w) in
      map snd rs = [Ok (Number 1); Throw (StorageError Io); Ok (Number 2); Ok Nothing] ∧
      (reread steady_os sample_options s.1).1 = Throw (StorageError Corruption)
  | (Throw _, _) => False
  end.
Proof. vm_compute. split; reflexivity. Qed.
