(* ===== verification/Operations.v ===== *)
(** * The operations in the log

    packages/storage/src/engine/operations.ts: a transaction of the log as
    bytes, and the reader that takes it apart again; index definitions in the
    form that the log and the snapshots share. *)

From S2P Require Import Prelude Errors JsNumber JsString JsValue Binary CustomId IndexSpec WalFormat.
Import Spec WalFormat.

Module Operations.
Definition RecordType_Transaction : Z := 1.
Definition ID_BYTE_LENGTH : Z := 16.
Definition MAX_NAME_BYTE_LENGTH : Z := 65535.

Module OperationKind.
Definition CreateCollection : Z := 1.
Definition Put : Z := 2.
Definition Delete : Z := 3.
Definition CreateIndex : Z := 4.
Definition DropIndex : Z := 5.
End OperationKind.

Inductive Operation :=
  | OpCreateCollection (database collection : jsstring)
  | OpPutDocument (database collection : jsstring) (id document : bytes)
  | OpDeleteDocument (database collection : jsstring) (id : bytes)
  | OpCreateIndexOn (database collection : jsstring) (index : IndexSpec)
  | OpDropIndexOn (database collection name : jsstring).

(** ** Encoding *)

(** [writeUInt32BE], which throws when the number does not fit. *)
Definition uint32 (n : Z) : result bytes :=
  if (0 <=? n) && (n <=? 0xffffffff) then Ok (be 4 n) else Throw RangeError.

Definition encodeName (name : jsstring) : result bytes :=
  let bytes := utf8_encode name in
  if (len bytes =? 0) || (MAX_NAME_BYTE_LENGTH <? len bytes) then Throw RangeError
  else Ok (be 2 (len bytes) ++ bytes).

Definition encodeId (id : bytes) : result bytes :=
  if negb (len id =? ID_BYTE_LENGTH) then Throw RangeError else Ok id.

Definition encodeBytes (bytes : bytes) : result (list Z) :=
  length ← uint32 (len bytes); Ok (length ++ bytes).

Definition UNIQUE_FLAG : Z := 1.
Definition SPARSE_FLAG : Z := 2.
Definition DESCENDING_FLAG : Z := 4.

Definition index_flags (spec : IndexSpec) : Z :=
  Z.lor (Z.lor (if unique spec then UNIQUE_FLAG else 0) (if sparse spec then SPARSE_FLAG else 0))
        (if direction spec =? -1 then DESCENDING_FLAG else 0).

Definition encodeIndexSpec (spec : IndexSpec) : result bytes :=
  name ← encodeName (name spec);
  field ← encodeName (field spec);
  Ok (name ++ field ++ [index_flags spec]).

(** The kind and the names that every operation starts with. *)
Definition encodeHead (kind : Z) (database collection : jsstring) : result bytes :=
  database ← encodeName database;
  collection ← encodeName collection;
  Ok (kind :: database ++ collection).

(** The body of the loop of [encodeOperations]. *)
Definition encodeOperation (operation : Operation) : result bytes :=
  match operation with
  | OpCreateCollection database collection =>
      encodeHead OperationKind.CreateCollection database collection
  | OpPutDocument database collection id document =>
      head ← encodeHead OperationKind.Put database collection;
      id ← encodeId id;
      document ← encodeBytes document;
      Ok (head ++ id ++ document)
  | OpDeleteDocument database collection id =>
      head ← encodeHead OperationKind.Delete database collection;
      id ← encodeId id;
      Ok (head ++ id)
  | OpCreateIndexOn database collection index =>
      head ← encodeHead OperationKind.CreateIndex database collection;
      index ← encodeIndexSpec index;
      Ok (head ++ index)
  | OpDropIndexOn database collection name =>
      head ← encodeHead OperationKind.DropIndex database collection;
      name ← encodeName name;
      Ok (head ++ name)
  end.

Definition encodeOperations (operations : list Operation) : result bytes :=
  header ← uint32 (len operations);
  parts ← mapM encodeOperation operations;
  Ok (header ++ concat parts).

(** ** Reading *)

(** [Reader]; [last] is [buffer.byteLength] here, and the start of the footer in
    the reader of snapshots, which is the same otherwise. *)
Record reader := { buffer : bytes; last : Z; offset : Z }.

Definition malformed : exn := StorageError Corruption.

(** [require], then the bytes at [offset]. *)
Definition bytes_at (damaged : exn) (length : Z) (r : reader) : result (bytes * reader) :=
  if last r <? offset r + length then Throw damaged
  else Ok (subarray (buffer r) (offset r) (offset r + length),
           {| buffer := buffer r; last := last r; offset := offset r + length |}).

Module Reader.
Definition new (payload : bytes) : reader := {| buffer := payload; last := len payload; offset := 0 |}.

Definition u8 (r : reader) : result (Z * reader) :=
  '(b, r) ← bytes_at malformed 1 r; Ok (default 0 (b !! 0%nat), r).

Definition u16 (r : reader) : result (Z * reader) :=
  '(b, r) ← bytes_at malformed 2 r;
  Ok (Z.lor (Z.shiftl (default 0 (b !! 0%nat)) 8) (default 0 (b !! 1%nat)), r).

Definition u32 (r : reader) : result (Z * reader) :=
  '(b, r) ← bytes_at malformed 4 r; Ok (from_be b, r).

Definition bytes (length : Z) (r : reader) : result (bytes * reader) := bytes_at malformed length r.

Definition name (r : reader) : result (jsstring * reader) :=
  '(length, r) ← u16 r;
  if length =? 0 then Throw malformed
  else
    '(raw, r) ← bytes_at malformed length r;
    match text_decode raw with Some name => Ok (name, r) | None => Throw malformed end.

Definition finish (r : reader) : result () :=
  if negb (offset r =? last r) then Throw malformed else Ok ().
End Reader.

(** The definition that the flags of an index stand for. *)
Definition flagged (name field : jsstring) (flags : Z) : CreateIndexInput := {|
  input_field := Some (VString field);
  input_direction := Some (VNumber (number_of_Z (if Z.land flags DESCENDING_FLAG =? 0 then 1 else -1)));
  input_unique := Some (VBool (negb (Z.land flags UNIQUE_FLAG =? 0)));
  input_sparse := Some (VBool (negb (Z.land flags SPARSE_FLAG =? 0)));
  input_name := Some (VString name);
|}.

(** [readIndexSpec], over a reader of the caller. *)
Definition readIndexSpec (readName : reader → result (jsstring * reader))
    (readU8 : reader → result (Z * reader)) (r : reader) : result (IndexSpec * reader) :=
  '(name, r) ← readName r;
  '(field, r) ← readName r;
  '(flags, r) ← readU8 r;
  spec ← catch (normalizeIndexSpec (flagged name field flags)) (λ _, Throw malformed);
  Ok (spec, r).

(** The [switch] on the kind of an operation. *)
Definition decodeOperation (r : reader) : result (Operation * reader) :=
  '(kind, r) ← Reader.u8 r;
  if kind =? OperationKind.CreateCollection then
    '(database, r) ← Reader.name r;
    '(collection, r) ← Reader.name r;
    Ok (OpCreateCollection database collection, r)
  else if kind =? OperationKind.Put then
    '(database, r) ← Reader.name r;
    '(collection, r) ← Reader.name r;
    '(id, r) ← Reader.bytes ID_BYTE_LENGTH r;
    '(length, r) ← Reader.u32 r;
    '(document, r) ← Reader.bytes length r;
    Ok (OpPutDocument database collection id document, r)
  else if kind =? OperationKind.Delete then
    '(database, r) ← Reader.name r;
    '(collection, r) ← Reader.name r;
    '(id, r) ← Reader.bytes ID_BYTE_LENGTH r;
    Ok (OpDeleteDocument database collection id, r)
  else if kind =? OperationKind.CreateIndex then
    '(database, r) ← Reader.name r;
    '(collection, r) ← Reader.name r;
    '(index, r) ← readIndexSpec Reader.name Reader.u8 r;
    Ok (OpCreateIndexOn database collection index, r)
  else if kind =? OperationKind.DropIndex then
    '(database, r) ← Reader.name r;
    '(collection, r) ← Reader.name r;
    '(name, r) ← Reader.name r;
    Ok (OpDropIndexOn database collection name, r)
  else Throw malformed.

Definition decodeOperations (payload : bytes) : result (list Operation) :=
  '(count, r) ← Reader.u32 (Reader.new payload);
  '(operations, r) ← loopZ
    (λ '(operations, r), '(operation, r) ← decodeOperation r; Ok (operations ++ [operation], r))
    count ([], r);
  _ ← Reader.finish r;
  Ok operations.
End Operations.
Import Operations.

(** * Lemmas *)

(** ** Reading what was written

    [scans f bs a]: wherever the bytes [bs] come next, [f] reads them as [a]. *)
Definition at_bytes (r : reader) (bs tl : bytes) : Prop :=
  ∃ pre, buffer r = pre ++ bs ++ tl ∧ offset r = len pre ∧ len pre + len bs ≤ last r.

Definition past (r : reader) (n : Z) : reader :=
  {| buffer := buffer r; last := last r; offset := offset r + n |}.

Definition scans {A} (f : reader → result (A * reader)) (bs : bytes) (a : A) : Prop :=
  ∀ r tl, at_bytes r bs tl → f r = Ok (a, past r (len bs)).

Lemma past_0 r : past r 0 = r.
Proof. unfold past. rewrite Z.add_0_r. by destruct r. Qed.

Lemma past_past r n m : past (past r n) m = past r (n + m).
Proof. unfold past. cbn. f_equal. lia. Qed.

Lemma at_past r bs1 bs2 tl : at_bytes r (bs1 ++ bs2) tl → at_bytes r bs1 (bs2 ++ tl) ∧ at_bytes (past r (len bs1)) bs2 tl.
Proof.
  intros (pre & Eb & Eo & Hl). rewrite len_app in Hl. pose proof (len_nonneg bs2). split.
  - exists pre. rewrite Eb, <- app_assoc. split_and!; [done|done|lia].
  - exists (pre ++ bs1). cbn. rewrite Eb, Eo, len_app, <- !app_assoc. split_and!; [done|done|lia].
Qed.

Lemma scans_bytes damaged bs : scans (bytes_at damaged (len bs)) bs bs.
Proof.
  intros r tl (pre & Eb & Eo & Hl). unfold bytes_at. rewrite Eo.
  destruct (Z.ltb_spec (last r) (len pre + len bs)); [lia|].
  rewrite Eb, subarray_at by done. unfold past. by rewrite Eb, Eo.
Qed.

Lemma scans_ret {A} (a : A) : scans (λ r, Ok (a, r)) [] a.
Proof. intros r tl _. change (len (@nil Z)) with 0. by rewrite past_0. Qed.

Lemma scans_bind {A B} (f : reader → result (A * reader)) (g : A → reader → result (B * reader)) bs1 bs2 a b :
  scans f bs1 a → scans (g a) bs2 b → scans (λ r, '(a, r) ← f r; g a r) (bs1 ++ bs2) b.
Proof.
  intros Hf Hg r tl [H1 H2]%at_past. cbn beta. rewrite (Hf _ _ H1). cbn [mbind res_bind].
  rewrite (Hg _ _ H2), past_past, len_app. done.
Qed.

(** The last part of a bind, which reads nothing. *)
Lemma scans_map {A B} (f : reader → result (A * reader)) (g : A → B) bs a :
  scans f bs a → scans (λ r, '(a, r) ← f r; Ok (g a, r)) bs (g a).
Proof.
  intros Hf. rewrite <- (app_nil_r bs). eapply (scans_bind f (λ a r, Ok (g a, r))); [exact Hf|].
  apply scans_ret.
Qed.

Lemma scans_ext {A} (f g : reader → result (A * reader)) bs a :
  (∀ r, f r = g r) → scans f bs a → scans g bs a.
Proof. intros E H r tl Hr. rewrite <- E. by eapply H. Qed.

Lemma scans_u8 z : scans Reader.u8 [z] z.
Proof.
  intros r tl H. unfold Reader.u8. change 1 with (len [z]) at 1.
  rewrite (scans_bytes malformed [z] r tl H). done.
Qed.

Lemma be_2 z : 0 ≤ z < 65536 → be 2 z = [z / 256; z mod 256].
Proof.
  intros Hz. cbn [be app]. f_equal. apply Z.mod_small. split; [apply Z.div_pos; lia|].
  apply Z.div_lt_upper_bound; lia.
Qed.

Lemma scans_u16 z : 0 ≤ z < 65536 → scans Reader.u16 (be 2 z) z.
Proof.
  intros Hz. assert (len (be 2 z) = 2) as E by apply be_len.
  pose proof (scans_map _ (λ b : bytes, Z.lor (Z.shiftl (default 0 (b !! 0%nat)) 8) (default 0 (b !! 1%nat)))
    _ _ (scans_bytes malformed (be 2 z))) as H. cbn beta in H. rewrite E in H.
  rewrite be_2 in H at 2 3 by done. cbn in H.
  rewrite lor_shiftl_byte in H by (apply Z.div_pos || apply Z.mod_pos_bound; lia).
  replace (z / 256 * 256 + z mod 256) with z in H by (pose proof (Z.div_mod z 256); lia). exact H.
Qed.

Lemma scans_u32 z : 0 ≤ z ≤ 0xffffffff → scans Reader.u32 (be 4 z) z.
Proof.
  intros Hz. pose proof (scans_map _ from_be _ _ (scans_bytes malformed (be 4 z))) as H. cbn beta in H.
  rewrite be_len, from_be_be in H. change (256 ^ Z.of_nat 4) with (0xffffffff + 1) in H.
  rewrite Z.mod_small in H by lia. exact H.
Qed.

(** ** Names and index definitions *)

Lemma encodeName_inv name bs :
  encodeName name = Ok bs →
  bs = be 2 (len (utf8_encode name)) ++ utf8_encode name ∧ 0 < len (utf8_encode name) < 65536.
Proof.
  unfold encodeName, MAX_NAME_BYTE_LENGTH. destruct (Z.eqb_spec (len (utf8_encode name)) 0); [done|].
  destruct (Z.ltb_spec 65535 (len (utf8_encode name))); [done|]. intros [= <-].
  pose proof (len_nonneg (utf8_encode name)). split; [done|lia].
Qed.

Lemma scans_name name bs : encodeName name = Ok bs → plain name → scans Reader.name bs name.
Proof.
  intros [-> Hl]%encodeName_inv [Hw Hb]. unfold Reader.name.
  eapply scans_bind; [apply scans_u16; lia|]. destruct (Z.eqb_spec (len (utf8_encode name)) 0); [lia|].
  rewrite <- (app_nil_r (utf8_encode name)).
  eapply (scans_bind _ (λ raw r, match text_decode raw with Some name => Ok (name, r) | None => Throw malformed end)).
  - rewrite app_nil_r. apply scans_bytes.
  - cbn beta. rewrite text_decode_encode by done. apply scans_ret.
Qed.

Lemma flags_back spec :
  valid_spec spec = true →
  flagged (name spec) (field spec) (index_flags spec) = input_of spec ∧ 0 ≤ index_flags spec < 256.
Proof.
  destruct spec as [n f d u s]. unfold valid_spec. rewrite !andb_true_iff. intros [[[[_ _] _] Hd] _].
  cbn [direction] in Hd. apply orb_true_iff in Hd as [->%Z.eqb_eq | ->%Z.eqb_eq];
    destruct u, s; (split; [reflexivity|by split]).
Qed.

Lemma scans_spec readName readU8 spec bs :
  (∀ n bs, encodeName n = Ok bs → plain n → scans readName bs n) → (∀ z, scans readU8 [z] z) →
  encodeIndexSpec spec = Ok bs → plain_spec spec → scans (readIndexSpec readName readU8) bs spec.
Proof.
  intros Hn Hu He (Hv & Hp1 & Hp2). unfold encodeIndexSpec in He.
  apply bind_Ok_inv in He as (b1 & E1 & He). apply bind_Ok_inv in He as (b2 & E2 & He).
  injection He as <-. unfold readIndexSpec.
  eapply scans_bind; [by apply Hn|]. eapply scans_bind; [by apply Hn|].
  eapply (scans_ext (λ r, '(flags, r) ← readU8 r;
    match catch (normalizeIndexSpec (flagged (name spec) (field spec) flags)) (λ _, Throw malformed) with
    | Ok spec => Ok (spec, r) | Throw e => Throw e end)); [done|].
  rewrite <- (app_nil_r [index_flags spec]).
  eapply (scans_bind readU8 (λ flags r, match catch (normalizeIndexSpec (flagged (name spec) (field spec) flags)) (λ _, Throw malformed) with
    | Ok spec => Ok (spec, r) | Throw e => Throw e end)); [apply Hu|].
  cbn beta. destruct (flags_back spec Hv) as [-> _]. rewrite (normalize_input_of _ Hv). apply scans_ret.
Qed.

(** ** Operations *)

(** An operation that is read back as it was written. *)
Definition plain_operation (operation : Operation) : Prop :=
  match operation with
  | OpCreateCollection database collection
  | OpPutDocument database collection _ _
  | OpDeleteDocument database collection _ => plain database ∧ plain collection
  | OpCreateIndexOn database collection index =>
      plain database ∧ plain collection ∧ plain_spec index
  | OpDropIndexOn database collection name => plain database ∧ plain collection ∧ plain name
  end.

Lemma uint32_inv n bs : uint32 n = Ok bs → bs = be 4 n ∧ 0 ≤ n ≤ 0xffffffff.
Proof.
  unfold uint32. destruct (Z.leb_spec 0 n), (Z.leb_spec n 0xffffffff); try done. intros [= <-]. split; [done|lia].
Qed.

Lemma encodeId_inv id bs : encodeId id = Ok bs → bs = id ∧ len id = ID_BYTE_LENGTH.
Proof. unfold encodeId. destruct (Z.eqb_spec (len id) ID_BYTE_LENGTH); [|done]. by intros [= <-]. Qed.

Lemma scans_id id bs : encodeId id = Ok bs → scans (Reader.bytes ID_BYTE_LENGTH) bs id.
Proof. intros [-> <-]%encodeId_inv. apply scans_bytes. Qed.

Lemma encodeHead_inv kind db coll bs :
  encodeHead kind db coll = Ok bs →
  ∃ b1 b2, encodeName db = Ok b1 ∧ encodeName coll = Ok b2 ∧ bs = [kind] ++ b1 ++ b2.
Proof.
  unfold encodeHead. intros H. apply bind_Ok_inv in H as (b1 & E1 & H). apply bind_Ok_inv in H as (b2 & E2 & H).
  injection H as <-. by exists b1, b2.
Qed.

Lemma scans_tag {A} (g : Z → reader → result (A * reader)) kind bs a :
  scans (g kind) bs a → scans (λ r, '(kind, r) ← Reader.u8 r; g kind r) (kind :: bs) a.
Proof. apply (scans_bind Reader.u8 g [kind]), scans_u8. Qed.

Ltac scan_kind := apply scans_tag; cbn [Z.eqb Pos.eqb OperationKind.CreateCollection OperationKind.Put OperationKind.Delete
      OperationKind.CreateIndex OperationKind.DropIndex].

Lemma scans_operation operation bs :
  encodeOperation operation = Ok bs → plain_operation operation → scans decodeOperation bs operation.
Proof.
  intros He Hp. unfold decodeOperation.
  destruct operation as [db coll|db coll id doc|db coll id|db coll ix|db coll n]; cbn [encodeOperation plain_operation] in *;
    [|apply bind_Ok_inv in He as (hd & Eh & He)..].
  1: rename He into Eh.
  all: apply encodeHead_inv in Eh as (b1 & b2 & E1 & E2 & ->).
  - destruct Hp as [P1 P2]. scan_kind.
    eapply scans_bind; [by apply scans_name|]. apply (scans_map Reader.name (λ c, OpCreateCollection db c)). by apply scans_name.
  - destruct Hp as [P1 P2]. apply bind_Ok_inv in He as (b3 & E3 & He). apply bind_Ok_inv in He as (b4 & E4 & He).
    injection He as <-. unfold encodeBytes in E4. apply bind_Ok_inv in E4 as (b5 & E5 & E4). injection E4 as <-.
    apply uint32_inv in E5 as [-> H5]. rewrite <- !app_assoc.
    scan_kind. eapply scans_bind; [by apply scans_name|].
    eapply scans_bind; [by apply scans_name|]. eapply scans_bind; [by apply scans_id|].
    eapply scans_bind; [by apply scans_u32|].
    apply (scans_map _ (λ d, OpPutDocument db coll id d)). apply scans_bytes.
  - destruct Hp as [P1 P2]. apply bind_Ok_inv in He as (b3 & E3 & He). injection He as <-. rewrite <- !app_assoc.
    scan_kind. eapply scans_bind; [by apply scans_name|].
    eapply scans_bind; [by apply scans_name|].
    apply (scans_map _ (λ i, OpDeleteDocument db coll i)). by apply scans_id.
  - destruct Hp as (P1 & P2 & P3). apply bind_Ok_inv in He as (b3 & E3 & He). injection He as <-. rewrite <- !app_assoc.
    scan_kind. eapply scans_bind; [by apply scans_name|].
    eapply scans_bind; [by apply scans_name|]. apply (scans_map _ (λ i, OpCreateIndexOn db coll i)).
    apply scans_spec; try done; [apply scans_name|apply scans_u8].
  - destruct Hp as (P1 & P2 & P3). apply bind_Ok_inv in He as (b3 & E3 & He). injection He as <-. rewrite <- !app_assoc.
    scan_kind. eapply scans_bind; [by apply scans_name|].
    eapply scans_bind; [by apply scans_name|]. apply (scans_map _ (λ i, OpDropIndexOn db coll i)).
    by apply scans_name.
Qed.

(** What the items of a list are encoded as. *)
Definition encoded {A} (f : A → result bytes) (x : A) : bytes :=
  match f x with Ok b => b | Throw _ => [] end.

Lemma encoded_items {A} (f : A → result bytes) l parts :
  Forall2 (λ x b, f x = Ok b) l parts →
  concat parts = flat_map (encoded f) l ∧ ∀ x, x ∈ l → f x = Ok (encoded f x).
Proof.
  induction 1 as [|x b l parts E _ [IH1 IH2]]; [split; [done|by intros x ?%not_elem_of_nil]|].
  assert (encoded f x = b) as Ex by (unfold encoded; by rewrite E). split.
  - cbn. by rewrite Ex, IH1.
  - intros y [->|Hy]%elem_of_cons; [by rewrite Ex|auto].
Qed.

(** A loop that reads a list of items. *)
Lemma scans_items {A B} (body : B * reader → result (B * reader)) (e : A → bytes) (g : B → A → B) l acc res :
  (∀ a acc, a ∈ l → scans (λ r, body (acc, r)) (e a) (g acc a)) → fold_left g l acc = res →
  scans (λ r, loopZ body (len l) (acc, r)) (flat_map e l) res.
Proof.
  intros Hl <-. revert acc. induction l as [|a l IH]; intros acc r tl H.
  - rewrite loopZ_0. cbn. by rewrite past_0.
  - cbn [flat_map] in *. rewrite loopZ_len_cons. apply at_past in H as [H1 H2].
    rewrite (Hl a acc ltac:(left) _ _ H1). cbn [mbind res_bind fold_left].
    rewrite (IH ltac:(intros a' acc' Hin; apply Hl; by right) _ _ _ H2), past_past, len_app. done.
Qed.

Lemma append_all {A} (l acc : list A) : fold_left (λ acc x, acc ++ [x]) l acc = acc ++ l.
Proof.
  revert acc. induction l as [|x l IH]; intros acc; [by rewrite app_nil_r|]. cbn. by rewrite IH, <- app_assoc.
Qed.

Lemma scans_loop operations bss acc :
  Forall2 (λ op bs, encodeOperation op = Ok bs) operations bss → Forall plain_operation operations →
  scans (λ r, loopZ (λ '(operations, r), '(operation, r) ← decodeOperation r; Ok (operations ++ [operation], r))
           (len operations) (acc, r)) (concat bss) (acc ++ operations).
Proof.
  intros [-> He]%encoded_items Hp.
  eapply scans_items; [|apply append_all]. intros op l Hin. rewrite Forall_forall in Hp.
  apply (scans_map decodeOperation (λ op, l ++ [op])). apply scans_operation; auto.
Qed.

(** *** Errors *)
Definition throws_only {A} (e : exn) (m : result A) : Prop :=
  match m with Ok _ => True | Throw e' => e' = e end.

Lemma throws_bind {A B} e (m : result A) (k : A → result B) :
  throws_only e m → (∀ a, throws_only e (k a)) → throws_only e (m ≫= k).
Proof. intros Hm Hk. destruct m as [a|e']; [apply Hk|exact Hm]. Qed.

Lemma throws_mapM {A B} e (f : A → result B) l : (∀ x, throws_only e (f x)) → throws_only e (mapM f l).
Proof.
  intros Hf. induction l as [|x l IH]; [done|]. cbn [mapM]. apply throws_bind; [apply Hf|]. intros y.
  by apply throws_bind.
Qed.

Lemma throws_loop {S} e (body : S → result S) n s :
  (∀ s, throws_only e (body s)) → throws_only e (loopZ body n s).
Proof.
  intros Hb. rewrite loopZ_nat. revert s. induction (Z.to_nat n) as [|k IH]; intros s; [done|].
  cbn [loop_nat]. by apply throws_bind.
Qed.

Ltac throws :=
  repeat match goal with
  | |- throws_only _ (_ ≫= _) => apply throws_bind; [|intros]
  | |- throws_only _ (match ?x with _ => _ end) => destruct x
  | |- throws_only _ _ => assumption || exact I || reflexivity
  end.

Lemma uint32_throws n : throws_only RangeError (uint32 n).
Proof. unfold uint32. throws. Qed.

Lemma encodeName_throws n : throws_only RangeError (encodeName n).
Proof. unfold encodeName. throws. Qed.

Lemma encodeId_throws i : throws_only RangeError (encodeId i).
Proof. unfold encodeId. throws. Qed.

Create HintDb throws.
#[export] Hint Resolve uint32_throws encodeName_throws encodeId_throws : throws.

Lemma encodeOperation_throws op : throws_only RangeError (encodeOperation op).
Proof. destruct op; unfold encodeOperation, encodeHead, encodeBytes, encodeIndexSpec; throws; auto with throws. Qed.

Lemma bytes_at_throws e n r : throws_only e (bytes_at e n r).
Proof. unfold bytes_at. throws. Qed.

Lemma reader_throws r n :
  throws_only malformed (Reader.u8 r) ∧ throws_only malformed (Reader.u16 r) ∧
  throws_only malformed (Reader.u32 r) ∧ throws_only malformed (Reader.bytes n r) ∧
  throws_only malformed (Reader.name r).
Proof.
  unfold Reader.u8, Reader.name, Reader.u16, Reader.u32, Reader.bytes.
  split_and!; throws; apply bytes_at_throws.
Qed.

Lemma decodeOperation_throws r : throws_only malformed (decodeOperation r).
Proof.
  unfold decodeOperation, readIndexSpec. throws; try (by apply (reader_throws _ 0)).
  all: try (apply (reader_throws _ _)). unfold catch. throws.
Qed.

Lemma encodeOperations_inv operations bs :
  encodeOperations operations = Ok bs →
  ∃ bss, Forall2 (λ op b, encodeOperation op = Ok b) operations bss ∧
    bs = be 4 (len operations) ++ concat bss ∧ len operations ≤ 0xffffffff.
Proof.
  unfold encodeOperations. intros H. apply bind_Ok_inv in H as (h & Eh & H).
  apply bind_Ok_inv in H as (bss & Em & H). injection H as <-. apply uint32_inv in Eh as [-> Hl].
  exists bss. split; [by apply mapM_Ok_Forall2|]. split; [done|lia].
Qed.

Lemma decode_encoded operations bs :
  encodeOperations operations = Ok bs → Forall plain_operation operations →
  decodeOperations bs = Ok operations.
Proof.
  intros (bss & Hf & -> & Hl)%encodeOperations_inv Hp. unfold decodeOperations.
  assert (at_bytes (Reader.new (be 4 (len operations) ++ concat bss)) (be 4 (len operations) ++ concat bss) []) as Ha.
  { exists []. cbn [Reader.new buffer offset last app]. rewrite app_nil_r. split_and!; [done|done|change (len (@nil Z)) with 0; lia]. }
  apply at_past in Ha as [H1 H2].
  rewrite (scans_u32 (len operations) ltac:(pose proof (len_nonneg operations); lia) _ _ H1). cbn [mbind res_bind].
  rewrite (scans_loop _ _ [] Hf Hp _ _ H2). cbn [mbind res_bind app].
  unfold Reader.finish. rewrite past_past. cbn [past offset last Reader.new].
  rewrite len_app, Z.add_0_l, Z.eqb_refl. done.
Qed.

(** * The round trip *)

(** C30: A transaction written to the log is read back as the same operations when
    its names are well-formed text without a byte order mark; what cannot be
    written is refused with a range error; and whatever bytes a record holds,
    reading them gives operations or the error of a damaged log. *)
Theorem operations_roundtrip (operations : list Operation) (payload : bytes) :
  match encodeOperations operations with
  | Ok bs => Forall plain_operation operations → decodeOperations bs = Ok operations
  | Throw e => e = RangeError
  end ∧
  match decodeOperations payload with Ok _ => True | Throw e => e = StorageError Corruption end.
Proof.
  split.
  - destruct (encodeOperations operations) as [bs|e] eqn:E; [intros Hp; by apply decode_encoded|].
    pose proof (throws_bind RangeError (uint32 (len operations))
      (λ header, parts ← mapM encodeOperation operations; Ok (header ++ concat parts)) (uint32_throws _)) as H.
    unfold encodeOperations in E. rewrite E in H. apply H. intros h.
    apply throws_bind; [by apply throws_mapM, encodeOperation_throws|done].
  - change (throws_only malformed (decodeOperations payload)). unfold decodeOperations.
    apply throws_bind; [by apply (reader_throws _ 0)|]. intros [count r].
    apply throws_bind; [|intros [ops r']; apply throws_bind; [unfold Reader.finish; throws|done]].
    apply throws_loop. intros [ops r']. apply throws_bind; [apply decodeOperation_throws|by intros []].
Qed.

Definition sample_operations : list Operation :=
  let spec := {| name := js "by_n"; field := js "n.m"; direction := -1; unique := true; sparse := false |} in
  [OpCreateCollection (js "shop") (js "items"); OpPutDocument (js "shop") (js "items") (repeat 7 16) [1; 2; 3];
   OpCreateIndexOn (js "shop") (js "items") spec; OpDeleteDocument (js "shop") (js "items") (repeat 7 16);
   OpDropIndexOn (js "shop") (js "items") (js "by_n")].

Lemma operations_roundtrip_witness :
  ∃ bs, encodeOperations sample_operations = Ok bs ∧ decodeOperations bs = Ok sample_operations.
Proof.
  pose proof (operations_roundtrip sample_operations []) as [H _].
  destruct (encodeOperations sample_operations) as [bs|e] eqn:E; [|vm_compute in E; discriminate].
  exists bs. split; [reflexivity|]. apply H.
  repeat (constructor; [cbn; unfold plain_spec; repeat match goal with |- _ ∧ _ => split end;
    try (by apply plainb_plain); reflexivity|]). constructor.
Defined.

(** A name that starts with a byte order mark loses it on the way. *)
Example name_bom :
  (encodeOperations [OpCreateCollection (js "shop") (0xFEFF :: js "items")] ≫= decodeOperations) =
  Ok [OpCreateCollection (js "shop") (js "items")].
Proof. vm_compute. reflexivity. Qed.
