(* ===== verification/Checkpoint.v ===== *)
(** * Snapshots

    packages/storage/src/engine/checkpoint.ts: a snapshot of every collection as
    a file, written in steps to a temporary file that takes its name when it is
    complete, and read back; the snapshots of a directory.

    The generator [writeCheckpointSteps] is a state machine: [next] runs it to
    its next pause or to its end, [return_] stops it where it is. *)

From S2P Require Import Prelude Errors JsNumber JsString JsValue Binary CustomId IndexSpec WalFormat Disk WriteAheadLog Operations.
Import Spec WalFormat Operations.

Module Checkpoint.
Definition CHECKPOINT_FORMAT_VERSION : Z := 2.
Definition OLDEST_READABLE_VERSION : Z := 1.
Definition MAGIC : bytes := [83; 73; 78; 84; 83; 78; 80; 0].
Definition END_MAGIC : bytes := [83; 73; 78; 84; 69; 78; 68; 0].
Definition HEADER_SIZE : Z := 24.
Definition FOOTER_SIZE : Z := 12.
Definition FLUSH_THRESHOLD : Z := 1024 * 1024.
Definition SNAPSHOT_SUFFIX : jsstring := js ".snap".
Definition TEMPORARY_SUFFIX : jsstring := js ".snap.tmp".

Inductive CheckpointStage := SnapshotWritten | SnapshotRenamed | SnapshotsPruned | LogTruncated.

Record CheckpointCollection := {
  database : jsstring;
  collection : jsstring;
  documents : list (jsstring * bytes);
  documentCount : Z;
  indexes : list IndexSpec;
}.

Record RecoveredCollection := {
  recovered_database : jsstring;
  recovered_collection : jsstring;
  recovered_documents : list (jsstring * bytes);
  recovered_indexes : list IndexSpec;
}.

Record ReadCheckpoint := { checkpoint_lsn : Z; collections : list RecoveredCollection }.

Record CheckpointFile := { file_lsn : Z; file_name : jsstring; file_path : path }.

Definition damaged : exn := CheckpointDamaged.

(** ** The files of a directory *)
Definition checkpointFileName (lsn : Z) : jsstring := WriteAheadLog.decimal 20 lsn ++ SNAPSHOT_SUFFIX.

(** [`${file.slice(0, -5)}${TEMPORARY_SUFFIX}`]. *)
Definition temporaryFileName (lsn : Z) : jsstring := WriteAheadLog.decimal 20 lsn ++ TEMPORARY_SUFFIX.

(** [FILE_NAME] and the number it captures. *)
Definition checkpoint_file_lsn (name : jsstring) : option Z :=
  let digits := take 20 name in
  if (len digits =? 20) && forallb WriteAheadLog.is_digit digits && bool_decide (drop 20 name = SNAPSHOT_SUFFIX)
  then Some (WriteAheadLog.from_decimal digits)
  else None.

(** [name.endsWith(suffix)]. *)
Definition ends_with (suffix name : jsstring) : bool :=
  bool_decide (drop (length name - length suffix) name = suffix).

Section Files.
Context (os : Z → Call → Outcome).

Definition listCheckpoints (directory : jsstring) : ST Disk exn (list CheckpointFile) :=
  names ← readdirSync os directory;
  mret (sort_by (λ left right, sign_of (file_lsn right ?= file_lsn left))
    (omap (λ name, (λ lsn, {| file_lsn := lsn; file_name := name; file_path := (directory, name) |})
                     <$> checkpoint_file_lsn name) names)).

Definition removeTemporaryCheckpoints (directory : jsstring) : ST Disk exn Z :=
  names ← readdirSync os directory;
  removed ← st_fold (λ name removed,
    if ends_with TEMPORARY_SUFFIX name then _ ← unlinkSync os (directory, name); mret (removed + 1)
    else mret removed) names 0;
  _ ← (if 0 <? removed then syncDirectory os directory else mret ());
  mret removed.
End Files.

(** ** Writing *)

(** [crc32(bytes, value)] of node:zlib: a checksum carried on. *)
Definition crc32_from (value : Z) (bytes : bytes) : Z :=
  Z.lxor (fold_left crc_byte bytes (Z.lxor value 0xFFFFFFFF)) 0xFFFFFFFF.

(** [Buffer.from(key, "hex")]: up to the first pair that is not two digits. *)
Fixpoint from_hex (s : jsstring) : bytes :=
  match s with
  | u :: v :: s =>
      match CustomId.hex_digit u, CustomId.hex_digit v with
      | Some a, Some b => (a * 16 + b) :: from_hex s
      | _, _ => []
      end
  | _ => []
  end.

Definition uint16 (n : Z) : result bytes :=
  if (0 <=? n) && (n <=? 0xffff) then Ok (be 2 n) else Throw RangeError.

Definition encodeHeader (lsn count : Z) : result bytes :=
  lsn ← uint64 lsn;
  count ← uint32 count;
  Ok (MAGIC ++ be 4 CHECKPOINT_FORMAT_VERSION ++ lsn ++ count).

(** What is added for a collection, before its documents. *)
Definition encodeCollection (collection : CheckpointCollection) : result (list bytes) :=
  database ← encodeName (database collection);
  name ← encodeName (Checkpoint.collection collection);
  indexCount ← uint16 (len (indexes collection));
  specs ← mapM encodeIndexSpec (indexes collection);
  count ← uint32 (documentCount collection);
  Ok ([database; name; indexCount] ++ specs ++ [count]).

(** [entry]: the id, cut or filled up to sixteen bytes, and the length. *)
Definition encodeEntry (key : jsstring) (document : bytes) : result bytes :=
  length ← uint32 (len document);
  Ok (take 16 (from_hex key ++ repeat 0 16) ++ length).

(** The variables of the generator, with the position in the file. *)
Record Writer := {
  fd : path;
  position : Z;
  checksum : Z;
  pending : list bytes;
  pendingBytes : Z;
}.

Definition add (bytes : bytes) (w : Writer) : Writer := {|
  fd := fd w; position := position w; checksum := checksum w;
  pending := pending w ++ [bytes]; pendingBytes := pendingBytes w + len bytes |}.

Definition add_all (parts : list bytes) (w : Writer) : Writer := fold_left (λ w bytes, add bytes w) parts w.

(** Where the generator stands: not begun, at its [yield] with the documents and
    the collections that are left, or at its end. *)
Inductive Steps :=
  | NotBegun (directory : jsstring) (lsn : Z) (collections : list CheckpointCollection)
  | Paused (directory : jsstring) (lsn : Z) (w : Writer)
      (documents : list (jsstring * bytes)) (collections : list CheckpointCollection)
  | Ended.

Section Steps.
Context (os : Z → Call → Outcome) (onStage : CheckpointStage → result ()).

Definition writeAll (fd : path) (bytes : bytes) (position : Z) : ST Disk exn () :=
  writeFully os (length bytes) fd bytes position.

Definition flush (w : Writer) : ST Disk exn Writer :=
  if pendingBytes w =? 0 then mret w
  else
    let chunk := concat (pending w) in
    _ ← writeAll (fd w) chunk (position w);
    mret {| fd := fd w; position := position w + len chunk; checksum := crc32_from (checksum w) chunk;
            pending := []; pendingBytes := 0 |}.

(** The loop over the documents of a collection; the documents that are left when
    it pauses. *)
Fixpoint write_documents (documents : list (jsstring * bytes)) (w : Writer)
    : ST Disk exn (Writer * option (list (jsstring * bytes))) :=
  match documents with
  | [] => mret (w, None)
  | (key, document) :: documents =>
      entry ← st_lift (encodeEntry key document);
      let w := add document (add entry w) in
      if FLUSH_THRESHOLD <=? pendingBytes w then w ← flush w; mret (w, Some documents)
      else write_documents documents w
  end.

(** The loop over the collections. *)
Fixpoint write_collections (collections : list CheckpointCollection) (w : Writer)
    : ST Disk exn (Writer * option (list (jsstring * bytes) * list CheckpointCollection)) :=
  match collections with
  | [] => mret (w, None)
  | collection :: collections =>
      parts ← st_lift (encodeCollection collection);
      '(w, rest) ← write_documents (documents collection) (add_all parts w);
      match rest with
      | Some documents => mret (w, Some (documents, collections))
      | None => write_collections collections w
      end
  end.

(** The rest of a collection, and the collections after it. *)
Definition write_rest (documents : list (jsstring * bytes)) (collections : list CheckpointCollection) (w : Writer)
    : ST Disk exn (Writer * option (list (jsstring * bytes) * list CheckpointCollection)) :=
  '(w, rest) ← write_documents documents w;
  match rest with
  | Some documents => mret (w, Some (documents, collections))
  | None => write_collections collections w
  end.

Definition unlinkQuietly (file : path) : ST Disk exn () := st_catch (unlinkSync os file) (λ _, mret ()).

(** The [finally] of the generator when it is not done. *)
Definition clean_up (fdOpen : bool) (file : path) : ST Disk exn () :=
  _ ← (if fdOpen then st_catch (closeSync os file) (λ _, mret ()) else mret ());
  unlinkQuietly file.

Definition or_clean_up {A} (fdOpen : bool) (file : path) (m : ST Disk exn A) : ST Disk exn A :=
  st_catch m (λ error, _ ← clean_up fdOpen file; st_throw error).

(** After the last collection: up to the flush of the file. *)
Definition write_footer (w : Writer) : ST Disk exn () :=
  w ← flush w;
  checksum ← st_lift (uint32 (checksum w));
  _ ← writeAll (fd w) (checksum ++ END_MAGIC) (position w);
  fsyncSync os (fd w).

(** After the flush: the file takes its name. *)
Definition publish (directory : jsstring) (lsn : Z) (temporary : path) : ST Disk exn jsstring :=
  _ ← or_clean_up false temporary
    (_ ← closeSync os temporary;
     _ ← st_lift (onStage SnapshotWritten);
     _ ← renameSync os temporary (directory, checkpointFileName lsn);
     syncDirectory os directory);
  _ ← st_lift (onStage SnapshotRenamed);
  mret (checkpointFileName lsn).

(** On to the next pause, or to the end. *)
Definition resume (directory : jsstring) (lsn : Z)
    (written : ST Disk exn (Writer * option (list (jsstring * bytes) * list CheckpointCollection)))
    : ST Disk exn (Steps + jsstring) :=
  let temporary := (directory, temporaryFileName lsn) in
  rest ← or_clean_up true temporary
    ('(w, rest) ← written;
     match rest with
     | Some rest => mret (Some (w, rest))
     | None => _ ← write_footer w; mret None
     end);
  match rest with
  | Some (w, (documents, collections)) => mret (inl (Paused directory lsn w documents collections))
  | None => file ← publish directory lsn temporary; mret (inr file)
  end.

(** [steps.next()]; the steps are [Ended] when it throws or returns a file. *)
Definition next (steps : Steps) : ST Disk exn (Steps + jsstring) :=
  match steps with
  | NotBegun directory lsn collections =>
      fd ← openWriteSync os (directory, temporaryFileName lsn);
      resume directory lsn
        (header ← st_lift (encodeHeader lsn (len collections));
         write_collections collections
           (add header {| fd := fd; position := 0; checksum := 0; pending := []; pendingBytes := 0 |}))
  | Paused directory lsn w documents collections =>
      resume directory lsn (write_rest documents collections w)
  | Ended => mret (inl Ended)
  end.

(** [steps.return("")]. *)
Definition return_ (steps : Steps) : ST Disk exn () :=
  match steps with
  | Paused directory lsn w _ _ => clean_up true (directory, temporaryFileName lsn)
  | _ => mret ()
  end.

(** Every turn but the last writes the documents up to a pause; there are no more
    pauses than documents. *)
Fixpoint write_steps (fuel : nat) (steps : Steps) : ST Disk exn jsstring :=
  match fuel with
  | O => st_throw JsError
  | S fuel =>
      step ← next steps;
      match step with
      | inl steps => write_steps fuel steps
      | inr file => mret file
      end
  end.

Definition writeCheckpoint (directory : jsstring) (lsn : Z) (collections : list CheckpointCollection)
    : ST Disk exn jsstring :=
  write_steps (S (length (flat_map documents collections))) (NotBegun directory lsn collections).
End Steps.

(** ** Reading *)
Module SnapshotReader.
Definition u8 (r : reader) : result (Z * reader) :=
  '(b, r) ← bytes_at damaged 1 r; Ok (from_be b, r).
Definition u16 (r : reader) : result (Z * reader) :=
  '(b, r) ← bytes_at damaged 2 r; Ok (from_be b, r).
Definition u32 (r : reader) : result (Z * reader) :=
  '(b, r) ← bytes_at damaged 4 r; Ok (from_be b, r).
Definition bytes (length : Z) (r : reader) : result (bytes * reader) := bytes_at damaged length r.

Definition name (r : reader) : result (jsstring * reader) :=
  '(length, r) ← u16 r;
  if length =? 0 then Throw damaged
  else
    '(raw, r) ← bytes length r;
    match text_decode raw with Some name => Ok (name, r) | None => Throw damaged end.
End SnapshotReader.

(** The loops over the indexes and over the documents of a collection. *)
Definition read_indexes (version : Z) (r : reader) : result (list IndexSpec * reader) :=
  if 2 <=? version then
    '(count, r) ← SnapshotReader.u16 r;
    loopZ (λ '(indexes, r),
      '(index, r) ← catch (readIndexSpec SnapshotReader.name SnapshotReader.u8 r) (λ _, Throw damaged);
      Ok (indexes ++ [index], r)) count ([], r)
  else Ok ([], r).

Definition read_documents (r : reader) : result (list (jsstring * bytes) * reader) :=
  '(count, r) ← SnapshotReader.u32 r;
  loopZ (λ '(documents, r),
    '(id, r) ← SnapshotReader.bytes ID_BYTE_LENGTH r;
    '(length, r) ← SnapshotReader.u32 r;
    '(document, r) ← SnapshotReader.bytes length r;
    Ok (omap_set documents (CustomId.toHexString id) document, r)) count ([], r).

Definition read_collection (version : Z) (r : reader) : result (RecoveredCollection * reader) :=
  '(database, r) ← SnapshotReader.name r;
  '(collection, r) ← SnapshotReader.name r;
  '(indexes, r) ← read_indexes version r;
  '(documents, r) ← read_documents r;
  Ok ({| recovered_database := database; recovered_collection := collection;
         recovered_documents := documents; recovered_indexes := indexes |}, r).

(** [readCheckpoint], after the file is read. *)
Definition decodeCheckpoint (data : bytes) : result ReadCheckpoint :=
  if len data <? HEADER_SIZE + FOOTER_SIZE then Throw damaged
  else
    let footerStart := len data - FOOTER_SIZE in
    if negb (bool_decide (subarray data (footerStart + 4) (len data) = END_MAGIC)) then Throw damaged
    else if negb (readUInt32BE data footerStart =? crc32 (subarray data 0 footerStart)) then Throw damaged
    else if negb (bool_decide (subarray data 0 8 = MAGIC)) then Throw damaged
    else
      let version := readUInt32BE data 8 in
      if (version <? OLDEST_READABLE_VERSION) || (CHECKPOINT_FORMAT_VERSION <? version) then Throw damaged
      else
        let lsn := readBigUInt64BE data 12 in
        let count := readUInt32BE data 20 in
        '(collections, r) ← loopZ
          (λ '(collections, r), '(collection, r) ← read_collection version r; Ok (collections ++ [collection], r))
          count ([], {| buffer := data; last := footerStart; offset := HEADER_SIZE |});
        if negb (offset r =? footerStart) then Throw damaged
        else Ok {| checkpoint_lsn := lsn; collections := collections |}.

Definition readCheckpoint (os : Z → Call → Outcome) (file : path) : ST Disk exn ReadCheckpoint :=
  data ← readFileSync os file;
  st_lift (decodeCheckpoint data).
End Checkpoint.
