(* ===== verification/CheckpointWrite.v ===== *)
(** * Snapshots: writing

    What the bytes of a snapshot are, and that writing it, in however many steps
    and whatever the operating system does, leaves the directory without the
    snapshot or with all of it. *)

From S2P Require Import Prelude Errors JsNumber JsString JsValue Binary CustomId IndexSpec WalFormat Disk DiskLemmas WriteAheadLog WalLemmas Operations Checkpoint.
Import Spec WalFormat Operations Checkpoint.

(** ** The bytes of a snapshot *)
Definition document_bytes (kd : jsstring * bytes) : result bytes :=
  entry ← encodeEntry kd.1 kd.2; Ok (entry ++ kd.2).

Definition documents_bytes (docs : list (jsstring * bytes)) : result bytes :=
  parts ← mapM document_bytes docs; Ok (concat parts).

Definition collection_bytes (c : CheckpointCollection) : result bytes :=
  parts ← encodeCollection c;
  docs ← documents_bytes (documents c);
  Ok (concat parts ++ docs).

Definition collections_bytes (cs : list CheckpointCollection) : result bytes :=
  parts ← mapM collection_bytes cs; Ok (concat parts).

(** Without the footer. *)
Definition snapshot_body (lsn : Z) (cs : list CheckpointCollection) : result bytes :=
  header ← encodeHeader lsn (len cs);
  body ← collections_bytes cs;
  Ok (header ++ body).

Definition with_footer (body : bytes) : bytes := body ++ be 4 (crc32 body) ++ END_MAGIC.

Definition snapshot_bytes (lsn : Z) (cs : list CheckpointCollection) : result bytes :=
  with_footer <$> snapshot_body lsn cs.

(** [m] is what [n] gives after the bytes [front]. *)
Definition after_bytes (front : bytes) (n : result bytes) : result bytes :=
  bs ← n; Ok (front ++ bs).

Lemma after_after a b n : after_bytes a (after_bytes b n) = after_bytes (a ++ b) n.
Proof. unfold after_bytes. destruct n; [|done]. cbn. by rewrite app_assoc. Qed.

Lemma after_nil n : after_bytes [] n = n.
Proof. by destruct n. Qed.

Lemma documents_bytes_cons kd docs :
  documents_bytes (kd :: docs) =
  (entry ← encodeEntry kd.1 kd.2; after_bytes (entry ++ kd.2) (documents_bytes docs)).
Proof.
  unfold documents_bytes, document_bytes, after_bytes. cbn [mapM].
  destruct (encodeEntry kd.1 kd.2); [|done]. cbn [mbind res_bind].
  by destruct (mapM _ docs).
Qed.

Lemma documents_bytes_app docs docs' :
  documents_bytes (docs ++ docs') =
  (bs ← documents_bytes docs; after_bytes bs (documents_bytes docs')).
Proof.
  induction docs as [|kd docs IH]; [symmetry; apply after_nil|].
  rewrite <- app_comm_cons, !documents_bytes_cons, IH. destruct (encodeEntry _ _); [|done]. cbn [mbind res_bind].
  destruct (documents_bytes docs); [|done]. exact (after_after _ _ _).
Qed.

Lemma collections_bytes_cons c cs :
  collections_bytes (c :: cs) =
  (parts ← encodeCollection c; docs ← documents_bytes (documents c);
   after_bytes (concat parts ++ docs) (collections_bytes cs)).
Proof.
  unfold collections_bytes, collection_bytes, after_bytes. cbn [mapM].
  destruct (encodeCollection c); [|done]. cbn [mbind res_bind].
  destruct (documents_bytes (documents c)); [|done]. cbn [mbind res_bind].
  by destruct (mapM _ cs).
Qed.

(** The rest of a collection and the collections after it. *)
Definition rest_bytes (docs : list (jsstring * bytes)) (cs : list CheckpointCollection) : result bytes :=
  bs ← documents_bytes docs; after_bytes bs (collections_bytes cs).

(** ** The checksum *)
Lemma crc32_from_0 bs : crc32_from 0 bs = crc32 bs.
Proof. reflexivity. Qed.

Lemma crc32_from_app bs bs' : crc32_from (crc32 bs) bs' = crc32 (bs ++ bs').
Proof.
  unfold crc32_from, crc32. rewrite fold_left_app, Z.lxor_assoc, Z.lxor_nilpotent, Z.lxor_0_r. done.
Qed.

(** ** The state of the writer *)
Record writing (w : Writer) (d : Disk) (done_ : bytes) : Prop := {
  writing_file : ∃ c, holds d (fd w) c 0 ∧ position w = len c ∧ checksum w = crc32 c ∧
    done_ = c ++ concat (pending w);
  writing_bytes : pendingBytes w = len (concat (pending w));
}.

Lemma writing_add w d done_ bs : writing w d done_ → writing (add bs w) d (done_ ++ bs).
Proof.
  intros [(c & H1 & H2 & H3 & ->) Hb]. unfold add. split; cbn.
  - exists c. rewrite concat_app. cbn. rewrite app_nil_r, app_assoc. done.
  - rewrite concat_app, len_app, Hb. cbn. by rewrite app_nil_r.
Qed.

Lemma writing_add_all parts w d done_ :
  writing w d done_ → writing (add_all parts w) d (done_ ++ concat parts) ∧ fd (add_all parts w) = fd w.
Proof.
  revert w done_. induction parts as [|p parts IH]; intros w done_ Hw; [by rewrite app_nil_r|].
  cbn [add_all fold_left concat]. rewrite app_assoc. apply (IH (add p w)). by apply writing_add.
Qed.

Section Writing.
Context (os : Z → Call → Outcome) (onStage : CheckpointStage → result ()).

(** What the code may throw: an error of a call, of flushing the directory, of a
    number or name that does not fit, or of the caller's own function. *)
Definition write_error (e : exn) : Prop :=
  system_error e ∨ e = StorageError Io ∨ e = RangeError ∨ ∃ stage, onStage stage = Throw e.

Lemma writeAll_outcome file bs p d c :
  holds d file c 0 → p = len c →
  match writeAll os file bs p d with
  | (Ok _, d') => frame file d d' ∧ holds d' file (c ++ bs) 0
  | (Throw e, d') => system_error e ∧ frame file d d'
  end.
Proof.
  intros Hh Hp. unfold writeAll. pose proof (len_nonneg c).
  pose proof (writeFully_outcome os (length bs) file bs p d c 0 Hh Hp ltac:(lia) (le_n _)) as Hw.
  destruct (writeFully os (length bs) file bs p d) as [[u|e] d']; [done|]. by destruct Hw as (? & ? & _).
Qed.

Lemma flush_writing w d done_ :
  writing w d done_ →
  match flush os w d with
  | (Ok w', d') => frame (fd w) d d' ∧ writing w' d' done_ ∧ fd w' = fd w ∧ concat (pending w') = []
  | (Throw e, d') => frame (fd w) d d' ∧ system_error e
  end.
Proof.
  intros [(c & H1 & H2 & H3 & ->) Hb]. unfold flush. destruct (Z.eqb_spec (pendingBytes w) 0) as [E|E].
  - cbn. split; [done|]. rewrite Hb in E. split; [|split; [done|by apply len_0_inv]].
    split; [|done]. by exists c.
  - pose proof (writeAll_outcome (fd w) (concat (pending w)) (position w) d c H1 H2) as Hw.
    unfold mbind, st_bind. destruct (writeAll os _ _ _ d) as [[u|e] d']; [|by destruct Hw].
    destruct Hw as [Hf Hh]. cbn. split; [done|]. split; [|done]. split; [|done]. cbn.
    exists (c ++ concat (pending w)). rewrite app_nil_r, len_app, H2, H3, crc32_from_app. done.
Qed.

Lemma encode_throws e (m : result bytes) : throws_only RangeError m → m = Throw e → e = RangeError.
Proof. intros H ->. exact H. Qed.

(** The documents of a collection, up to a pause. *)
Definition documents_written (docs : list (jsstring * bytes)) (w : Writer) (d : Disk) (done_ : bytes)
    (r : res exn (Writer * option (list (jsstring * bytes))) * Disk) : Prop :=
  match r with
  | (Ok (w', rest), d') => frame (fd w) d d' ∧ fd w' = fd w ∧
      ∃ written bs, docs = written ++ default [] rest ∧ documents_bytes written = Ok bs ∧
        writing w' d' (done_ ++ bs) ∧ (is_Some rest → written ≠ [])
  | (Throw e, d') => frame (fd w) d d' ∧
      (system_error e ∨ e = RangeError ∧ documents_bytes docs = Throw RangeError)
  end.

Lemma uint_throws n :
  throws_only RangeError (uint16 n) ∧ throws_only RangeError (uint64 n) ∧ throws_only RangeError (uint32 n).
Proof. unfold uint16, uint64, uint32. split_and!; throws. Qed.

Lemma encodeEntry_throws key document : throws_only RangeError (encodeEntry key document).
Proof. unfold encodeEntry. throws. apply uint_throws. Qed.

Lemma write_documents_outcome docs : ∀ w d done_,
  writing w d done_ → documents_written docs w d done_ (write_documents os docs w d).
Proof.
  induction docs as [|[key document] docs IH]; intros w d done_ Hw.
  { cbn. split; [done|]. split; [done|]. exists [], []. split; [done|]. split; [done|]. split; [by rewrite app_nil_r|by intros []]. }
  cbn [write_documents]. unfold mbind at 1, st_bind at 1, st_lift.
  destruct (encodeEntry key document) as [entry|e] eqn:Ee.
  2: { pose proof (encode_throws _ _ (encodeEntry_throws key document) Ee) as ->.
       split; [done|]. right. split; [done|]. rewrite documents_bytes_cons. cbn [fst snd]. by rewrite Ee. }
  pose proof (writing_add _ _ _ document (writing_add _ _ _ entry Hw)) as Hw1. rewrite <- app_assoc in Hw1.
  set (w1 := add document (add entry w)) in *.
  assert (documents_bytes [(key, document)] = Ok (entry ++ document)) as E1.
  { rewrite documents_bytes_cons. cbn [fst snd]. rewrite Ee. cbn. by rewrite app_nil_r. }
  destruct (FLUSH_THRESHOLD <=? pendingBytes w1).
  - pose proof (flush_writing w1 d _ Hw1) as Hf. unfold mbind, st_bind.
    destruct (flush os w1 d) as [[w2|e] d2]; cbn.
    + destruct Hf as (Hf & Hw2 & Efd & _). split; [exact Hf|]. split; [exact Efd|].
      exists [(key, document)], (entry ++ document). done.
    + destruct Hf as [Hf He]. split; [exact Hf|by left].
  - specialize (IH w1 d _ Hw1). unfold documents_written in *.
    destruct (write_documents os docs w1 d) as [[[w2 rest]|e] d2].
    + destruct IH as (Hf & Efd & written & bs & -> & Eb & Hw2 & _).
      split; [exact Hf|]. split; [exact Efd|]. exists ((key, document) :: written), (entry ++ document ++ bs).
      split; [done|]. split.
      { change ((key, document) :: written) with ([(key, document)] ++ written).
        rewrite documents_bytes_app, E1. cbn [mbind res_bind]. rewrite Eb. cbn. by rewrite <- app_assoc. }
      rewrite <- !app_assoc in Hw2. split; [exact Hw2|done].
    + destruct IH as [Hf He]. split; [exact Hf|]. destruct He as [He|[-> He]]; [by left|right].
      split; [done|]. change ((key, document) :: docs) with ([(key, document)] ++ docs).
      rewrite documents_bytes_app, E1. cbn [mbind res_bind]. by rewrite He.
Qed.
(** The documents that are left. *)
Definition left_count (docs : list (jsstring * bytes)) (cs : list CheckpointCollection) : nat :=
  length docs + length (flat_map documents cs).

(** A part of what is [total] in all, up to a pause; [n] documents were left. *)
Definition part_written (total : result bytes) (n : nat) (w : Writer) (d : Disk) (done_ : bytes)
    (r : res exn (Writer * option (list (jsstring * bytes) * list CheckpointCollection)) * Disk) : Prop :=
  match r with
  | (Ok (w', None), d') => frame (fd w) d d' ∧ fd w' = fd w ∧ ∃ bs, total = Ok bs ∧ writing w' d' (done_ ++ bs)
  | (Ok (w', Some (docs, cs)), d') => frame (fd w) d d' ∧ fd w' = fd w ∧ (left_count docs cs < n)%nat ∧
      ∃ bs, total = after_bytes bs (rest_bytes docs cs) ∧ writing w' d' (done_ ++ bs)
  | (Throw e, d') => frame (fd w) d d' ∧ (system_error e ∨ e = RangeError ∧ total = Throw RangeError)
  end.

(** A first part, then the rest. *)
Lemma part_after front total total' n n' w w' d d' done_ r :
  total = after_bytes front total' → (n' ≤ n)%nat → frame (fd w) d d' → fd w' = fd w →
  part_written total' n' w' d' (done_ ++ front) r → part_written total n w d done_ r.
Proof.
  intros -> Hn Hf Efd. unfold part_written. destruct r as [[[w2 [[docs cs]|]]|e] d2]; rewrite Efd.
  - intros (Hf2 & -> & Hl & bs & -> & Hw). split; [by eapply frame_trans|]. split; [done|]. split; [lia|].
    exists (front ++ bs). rewrite after_after, app_assoc. done.
  - intros (Hf2 & -> & bs & -> & Hw). split; [by eapply frame_trans|]. split; [done|].
    exists (front ++ bs). rewrite app_assoc. done.
  - intros (Hf2 & He). split; [by eapply frame_trans|]. destruct He as [He|[-> ->]]; [by left|by right].
Qed.

(** The documents of a collection, then [more]. *)
Lemma part_documents docs cs total n w d done_
    (more : Writer → ST Disk exn (Writer * option (list (jsstring * bytes) * list CheckpointCollection))) :
  writing w d done_ → total = rest_bytes docs cs → (left_count docs cs ≤ n)%nat →
  (∀ w' d' done', writing w' d' done' →
     part_written (collections_bytes cs) (left_count [] cs) w' d' done' (more w' d')) →
  part_written total n w d done_
    (('(w, rest) ← write_documents os docs w;
      match rest with Some docs => mret (w, Some (docs, cs)) | None => more w end) d).
Proof.
  intros Hw -> Hn Hmore. unfold mbind, st_bind.
  pose proof (write_documents_outcome docs w d done_ Hw) as Hd. unfold documents_written in Hd.
  destruct (write_documents os docs w d) as [[[w1 [rest|]]|e] d1].
  - destruct Hd as (Hf & Efd & written & bs & -> & Eb & Hw1 & Hne). cbn [default from_option id] in *.
    cbn [mret st_ret]. split; [done|]. split; [done|]. split.
    { destruct written as [|x written]; [by destruct (Hne ltac:(by eexists))|].
      unfold left_count in *. rewrite length_app in Hn. cbn [length] in Hn. lia. }
    exists bs. split; [|done]. unfold rest_bytes. rewrite documents_bytes_app, Eb. cbn [mbind res_bind].
    destruct (documents_bytes rest); [|done]. cbn [mbind res_bind after_bytes]. symmetry. exact (after_after _ _ _).
  - destruct Hd as (Hf & Efd & written & bs & -> & Eb & Hw1 & _). cbn [default from_option id] in *.
    rewrite app_nil_r in *. eapply (part_after bs _ (collections_bytes cs) n (left_count [] cs)); try done.
    + unfold rest_bytes. by rewrite Eb.
    + unfold left_count in *. cbn [length]. lia.
    + by apply Hmore.
  - destruct Hd as [Hf He]. split; [done|]. destruct He as [He|[-> He]]; [by left|right]. split; [done|].
    unfold rest_bytes. by rewrite He.
Qed.

Lemma encodeCollection_throws c : throws_only RangeError (encodeCollection c).
Proof.
  unfold encodeCollection. throws; auto with throws; try apply uint_throws. apply throws_mapM. intros spec.
  unfold encodeIndexSpec. throws; auto with throws.
Qed.

Lemma write_collections_outcome cs : ∀ w d done_,
  writing w d done_ →
  part_written (collections_bytes cs) (left_count [] cs) w d done_ (write_collections os cs w d).
Proof.
  induction cs as [|c cs IH]; intros w d done_ Hw.
  { split; [done|]. split; [done|]. exists []. split; [done|]. by rewrite app_nil_r. }
  cbn [write_collections]. unfold mbind at 1, st_bind at 1, st_lift.
  destruct (encodeCollection c) as [parts|e] eqn:Ec.
  2: { split; [done|]. right. pose proof (encodeCollection_throws c) as Ht. rewrite Ec in Ht. cbn in Ht. subst e.
       split; [done|]. rewrite collections_bytes_cons. by rewrite Ec. }
  destruct (writing_add_all parts w d done_ Hw) as [Hw1 Efd].
  apply (part_after (concat parts) _ (rest_bytes (documents c) cs) _ (left_count (documents c) cs) w (add_all parts w) d d); try done.
  - rewrite collections_bytes_cons, Ec. cbn [mbind res_bind]. unfold rest_bytes.
    destruct (documents_bytes (documents c)); [|done]. cbn [mbind res_bind]. symmetry. exact (after_after _ _ _).
  - unfold left_count. cbn [flat_map length]. rewrite length_app. lia.
  - by eapply part_documents; [exact Hw1|done|done|].
Qed.

Lemma write_rest_outcome docs cs w d done_ :
  writing w d done_ →
  part_written (rest_bytes docs cs) (left_count docs cs) w d done_ (write_rest os docs cs w d).
Proof. intros Hw. eapply part_documents; [exact Hw|done|done|]. intros. by apply write_collections_outcome. Qed.
End Writing.

(** ** The files of the directory *)
Record elsewhere (ps : list path) (d d' : Disk) : Prop := {
  elsewhere_names : NoDup (omap_keys (files d)) → NoDup (omap_keys (files d'));
  elsewhere_get : ∀ p, p ∉ ps → omap_get (files d') p = omap_get (files d) p;
}.

Lemma elsewhere_refl ps d : elsewhere ps d d.
Proof. done. Qed.

Lemma elsewhere_same ps d d' : files d' = files d → elsewhere ps d d'.
Proof. intros E. split; [by rewrite E|]. intros p _. by rewrite E. Qed.

Lemma elsewhere_trans ps d1 d2 d3 : elsewhere ps d1 d2 → elsewhere ps d2 d3 → elsewhere ps d1 d3.
Proof. intros [H1 H2] [H3 H4]. split; [auto|]. intros p Hp. by rewrite H4, H2. Qed.

Lemma elsewhere_more ps ps' d d' : (∀ p, p ∈ ps → p ∈ ps') → elsewhere ps d d' → elsewhere ps' d d'.
Proof. intros Hs [H1 H2]. split; [done|]. intros p Hp. apply H2. intros Hin. by apply Hp, Hs. Qed.

Lemma elsewhere_frame file d d' : frame file d d' → elsewhere [file] d d'.
Proof.
  intros [H1 H2]. split; [by rewrite H1|]. intros p Hp. apply H2. intros ->. apply Hp. by left.
Qed.

Lemma elsewhere_set file d f : elsewhere [file] d (set_files d (omap_set (files d) file f)).
Proof.
  split; cbn; [by intros; apply omap_set_NoDup|]. intros p Hp. apply omap_get_set_ne. intros ->. apply Hp. by left.
Qed.

Lemma elsewhere_delete file d : elsewhere [file] d (set_files d (omap_delete (files d) file)).
Proof.
  split; cbn; [by intros; apply omap_delete_NoDup|]. intros p Hp. apply omap_get_delete_ne.
  intros ->. apply Hp. by left.
Qed.

(** ** Names *)
Lemma checkpoint_name_lsn z : 0 ≤ z < 10 ^ 20 → checkpoint_file_lsn (checkpointFileName z) = Some z.
Proof.
  intros Hz. unfold checkpoint_file_lsn, checkpointFileName. pose proof (decimal_length 20 z) as Hl.
  rewrite take_app_length', drop_app_length' by done. unfold len. rewrite Hl, decimal_digits.
  rewrite bool_decide_eq_true_2 by done. rewrite from_decimal_decimal.
  rewrite Z.mod_small by done. reflexivity.
Qed.

Lemma checkpoint_lsn_name name z : checkpoint_file_lsn name = Some z → name = checkpointFileName z.
Proof.
  unfold checkpoint_file_lsn, checkpointFileName. destruct (_ && bool_decide _) eqn:E; [|done].
  rewrite !andb_true_iff in E. destruct E as [[El%Z.eqb_eq Hd] Hs%bool_decide_eq_true_1]. intros [= <-].
  pose proof (decimal_from_decimal (take 20 name) Hd) as Hdec. unfold len in El.
  replace (length (take 20 name)) with 20%nat in Hdec by lia. rewrite Hdec, <- Hs. symmetry. apply take_drop.
Qed.

Lemma temporary_lsn z : checkpoint_file_lsn (temporaryFileName z) = None.
Proof.
  unfold checkpoint_file_lsn, temporaryFileName. pose proof (decimal_length 20 z) as Hl.
  rewrite take_app_length', drop_app_length' by done. by rewrite andb_false_r.
Qed.

Lemma temporary_not_final z z' : temporaryFileName z ≠ checkpointFileName z'.
Proof.
  intros E. apply (f_equal length) in E. unfold temporaryFileName, checkpointFileName in E.
  rewrite !length_app, !decimal_length in E. done.
Qed.

Lemma temporary_ends z : ends_with TEMPORARY_SUFFIX (temporaryFileName z) = true.
Proof.
  unfold ends_with, temporaryFileName. apply bool_decide_eq_true_2. rewrite length_app, Nat.add_sub.
  by rewrite drop_app_length.
Qed.

Lemma checkpoint_not_temporary name z : checkpoint_file_lsn name = Some z → ends_with TEMPORARY_SUFFIX name = false.
Proof.
  intros ->%checkpoint_lsn_name. unfold ends_with, checkpointFileName. apply bool_decide_eq_false_2.
  rewrite length_app, decimal_length. intros E. apply (f_equal (λ l, l !! 4%nat)) in E. cbv beta in E.
  rewrite lookup_drop, lookup_app_r in E by (rewrite decimal_length; cbn; lia).
  rewrite decimal_length in E. done.
Qed.

(** ** Steps *)
Section Publishing.
Context (os : Z → Call → Outcome) (onStage : CheckpointStage → result ()).
Abbreviation write_error := (write_error onStage).

Lemma openWrite_outcome file d :
  match openWriteSync os file d with
  | (Ok fd, d') => fd = file ∧ elsewhere [file] d d' ∧ holds d' file [] 0
  | (Throw e, d') => system_error e ∧ files d' = files d
  end.
Proof.
  unfold openWriteSync.
  match goal with |- context [syscall os ?call ?act d] =>
    destruct (syscall_outcome os call act d) as [(code & _ & ->)|(o & Ho & ->)] end.
  { split; [by eexists|done]. }
  split; [done|]. split; [by eapply elsewhere_trans; [|apply elsewhere_set]|]. unfold holds. cbn. by rewrite omap_get_set.
Qed.

Lemma rename_outcome from to d f :
  omap_get (files d) from = Some f →
  match renameSync os from to d with
  | (Ok _, d') => files d' = omap_set (omap_delete (files d) from) to f
  | (Throw e, d') => system_error e ∧ files d' = files d
  end.
Proof.
  intros Hf. unfold renameSync.
  match goal with |- context [syscall os ?call ?act d] =>
    destruct (syscall_outcome os call act d) as [(code & _ & ->)|(o & Ho & ->)] end.
  { split; [by eexists|done]. }
  cbn. by rewrite Hf.
Qed.

Lemma clean_up_outcome fdOpen file d :
  ∃ d', clean_up os fdOpen file d = (Ok (), d') ∧ elsewhere [file] d d'.
Proof.
  assert (∀ d, ∃ d', unlinkQuietly os file d = (Ok (), d') ∧ elsewhere [file] d d') as Hu.
  { intros d0. unfold unlinkQuietly, st_catch. pose proof (unlink_outcome os file d0) as H.
    destruct (unlinkSync os file d0) as [[[]|e] d'].
    - exists d'. split; [done|]. eapply elsewhere_trans; [apply (elsewhere_delete file)|]. by apply elsewhere_same.
    - destruct H as [_ H]. exists d'. split; [done|]. by apply elsewhere_same. }
  unfold clean_up. destruct fdOpen; [|exact (Hu d)].
  unfold mbind, st_bind, st_catch. pose proof (quiet_unit os (Close file) d) as Hc. unfold closeSync.
  destruct (syscall os (Close file) _ d) as [[u|e] d1]; cbn.
  - destruct (Hu d1) as (d2 & -> & H). exists d2. split; [done|]. eapply elsewhere_trans; [|exact H]. by apply elsewhere_same.
  - destruct Hc as [_ Hc]. destruct (Hu d1) as (d2 & -> & H). exists d2. split; [done|].
    eapply elsewhere_trans; [|exact H]. by apply elsewhere_same.
Qed.

Lemma or_clean_up_outcome {A} fdOpen file (m : ST Disk exn A) d :
  match m d with
  | (Ok a, d') => or_clean_up os fdOpen file m d = (Ok a, d')
  | (Throw e, d') => ∃ d'', or_clean_up os fdOpen file m d = (Throw e, d'') ∧ elsewhere [file] d' d''
  end.
Proof.
  unfold or_clean_up, st_catch. destruct (m d) as [[a|e] d']; [done|].
  destruct (clean_up_outcome fdOpen file d') as (d'' & E & H). exists d''. split; [|done].
  unfold mbind, st_bind. by rewrite E.
Qed.

Context (directory : jsstring) (lsn : Z) (cs : list CheckpointCollection).
Let temporary : path := (directory, temporaryFileName lsn).
Let final : path := (directory, checkpointFileName lsn).

(** The snapshot is there, all of it, and on stable storage. *)
Definition published (d : Disk) : Prop :=
  ∃ bs, snapshot_bytes lsn cs = Ok bs ∧ holds d final bs (len bs).

(** Only this snapshot and its temporary file may have changed, and if there is a
    new snapshot it is whole. *)
Record republished (d d' : Disk) : Prop := {
  republished_elsewhere : elsewhere [temporary; final] d d';
  republished_final : omap_get (files d') final = omap_get (files d) final ∨ published d';
}.

Lemma final_not_temporary : final ≠ temporary.
Proof. intros E. apply (f_equal snd) in E. by apply (temporary_not_final lsn lsn). Qed.

Lemma republished_temporary d d' : elsewhere [temporary] d d' → republished d d'.
Proof.
  intros H. split; [eapply elsewhere_more; [|exact H]; intros p Hp; apply elem_of_cons; left; by apply list_elem_of_singleton|].
  left. apply H. intros Hin%list_elem_of_singleton. by apply final_not_temporary.
Qed.

Lemma republished_then d d1 d2 : republished d d1 → elsewhere [temporary] d1 d2 → republished d d2.
Proof.
  intros [H1 H2] H3. pose proof (republished_temporary _ _ H3) as [H4 _].
  assert (omap_get (files d2) final = omap_get (files d1) final) as E.
  { apply H3. intros Hin%list_elem_of_singleton. by apply final_not_temporary. }
  split; [by eapply elsewhere_trans|]. unfold published, holds in *. by rewrite E.
Qed.

Lemma republished_after d d1 d2 : elsewhere [temporary] d d1 → republished d1 d2 → republished d d2.
Proof.
  intros H1 [H2 H3]. pose proof (republished_temporary _ _ H1) as [H4 _].
  assert (omap_get (files d1) final = omap_get (files d) final) as E.
  { apply H1. intros Hin%list_elem_of_singleton. by apply final_not_temporary. }
  split; [by eapply elsewhere_trans|]. by rewrite <- E.
Qed.

Lemma write_footer_outcome w d body :
  fd w = temporary → writing w d body → snapshot_body lsn cs = Ok body →
  match write_footer os w d with
  | (Ok _, d') => elsewhere [temporary] d d' ∧
      ∃ bs, snapshot_bytes lsn cs = Ok bs ∧ holds d' temporary bs (len bs)
  | (Throw e, d') => elsewhere [temporary] d d' ∧ write_error e
  end.
Proof.
  intros Efd Hw Hb. unfold write_footer. unfold mbind at 1, st_bind at 1.
  pose proof (flush_writing os w d body Hw) as Hf. rewrite Efd in Hf.
  destruct (flush os w d) as [[w1|e] d1].
  2: { destruct Hf as [Hf He]. split; [by apply elsewhere_frame|]. by left. }
  destruct Hf as (Hf & [(c & H1 & H2 & H3 & E) _] & Efd1 & Ep). rewrite Ep, app_nil_r in E. subst c.
  unfold mbind at 1, st_bind at 1, st_lift. rewrite H3.
  destruct (uint32 (crc32 body)) as [sum|e] eqn:Es.
  2: { split; [by apply elsewhere_frame|]. do 2 right. left. pose proof (uint32_throws (crc32 body)) as Ht.
       by rewrite Es in Ht. }
  apply uint32_inv in Es as [-> _]. unfold mbind, st_bind. rewrite Efd1 in *.
  pose proof (writeAll_outcome os temporary (be 4 (crc32 body) ++ END_MAGIC) (position w1) d1 body H1 H2) as Hwr.
  destruct (writeAll os _ _ _ d1) as [[u|e] d2].
  2: { destruct Hwr as [He Hwr]. split; [|by left]. apply elsewhere_frame. by eapply frame_trans. }
  destruct Hwr as [Hf2 Hh]. fold (with_footer body) in Hh.
  pose proof (fsync_outcome os temporary d2 _ 0 Hh) as Hs.
  destruct (fsyncSync os temporary d2) as [[u'|e] d3].
  - destruct Hs as [Hf3 Hh3]. split; [apply elsewhere_frame; eauto using frame_trans|].
    exists (with_footer body). split; [|done]. unfold snapshot_bytes. by rewrite Hb.
  - destruct Hs as [He Hs]. split; [|by left]. apply elsewhere_frame.
    eapply frame_trans; [exact Hf|]. eapply frame_trans; [exact Hf2|]. by apply frame_same.
Qed.
Lemma stage_outcome {S} stage (d : S) :
  match st_lift (onStage stage) d with
  | (Ok _, d') => d' = d
  | (Throw e, d') => d' = d ∧ write_error e
  end.
Proof. unfold st_lift. destruct (onStage stage) as [u|e] eqn:E; [done|]. split; [done|]. do 3 right. by eexists. Qed.

Lemma syncDirectory_write_error dir d e d' : syncDirectory os dir d = (Throw e, d') → files d' = files d ∧ write_error e.
Proof.
  intros E. pose proof (syncDirectory_outcome os dir d) as H. rewrite E in H. split; [done|].
  unfold syncDirectory, st_catch, mbind, st_bind in E.
  pose proof (quiet_unit os (OpenDirectory dir) d) as H1.
  assert (∀ e, system_error e → ∀ s : Disk, match (match errnoOf e with
     | Some code => if bool_decide (code ∈ [EISDIR; EPERM; EINVAL]) then mret () else st_throw (ioError e false)
     | None => st_throw (ioError e false) end : ST Disk exn ()) s with (Throw e', _) => write_error e' | _ => True end) as Hh.
  { intros e1 (code & ->) s. cbn. case_bool_decide; [done|]. right. by left. }
  destruct (syscall os (OpenDirectory dir) _ d) as [[u|e1] d1]; cbn [mret st_ret] in E.
  - unfold st_finally in E. pose proof (quiet_unit os (FsyncDirectory dir) d1) as H2.
    destruct (syscall os (FsyncDirectory dir) _ d1) as [[u2|e2] d2].
    + pose proof (quiet_unit os (CloseDirectory dir) d2) as H3.
      destruct (syscall os (CloseDirectory dir) _ d2) as [[u3|e3] d3]; [done|]. injection E as <- <-. left. apply H3.
    + destruct H2 as [He2 H2]. specialize (Hh e2 He2 d2).
      destruct (_ d2) as [r d3] eqn:Er in E.
      pose proof (quiet_unit os (CloseDirectory dir) d3) as H3.
      destruct (syscall os (CloseDirectory dir) _ d3) as [[u4|e4] d4].
      * injection E as -> <-. rewrite Er in Hh. exact Hh.
      * injection E as <- <-. left. apply H3.
  - destruct H1 as [He1 H1]. specialize (Hh e1 He1 d1). rewrite E in Hh. exact Hh.
Qed.

Lemma publish_outcome d bs :
  NoDup (omap_keys (files d)) →
  snapshot_bytes lsn cs = Ok bs → holds d temporary bs (len bs) →
  match publish os onStage directory lsn temporary d with
  | (Ok file, d') => file = checkpointFileName lsn ∧ republished d d' ∧ published d' ∧ omap_get (files d') temporary = None
  | (Throw e, d') => republished d d' ∧ write_error e
  end.
Proof.
  intros Hn Hb Hh. unfold publish. unfold mbind at 1, st_bind at 1.
  set (m := _ ← closeSync os temporary; _).
  assert (match m d with
    | (Ok _, d') => republished d d' ∧ published d' ∧ omap_get (files d') temporary = None
    | (Throw e, d') => republished d d' ∧ write_error e end) as Hm.
  { unfold m. clear m. unfold mbind at 1, st_bind at 1, closeSync. pose proof (quiet_unit os (Close temporary) d) as Hc.
    destruct (syscall os (Close temporary) _ d) as [[u|e] d1].
    2: { destruct Hc as [He Hc]. split; [by apply republished_temporary, elsewhere_same|by left]. }
    unfold mbind at 1, st_bind at 1. pose proof (stage_outcome SnapshotWritten d1) as Hs.
    destruct (st_lift (onStage SnapshotWritten) d1) as [[u1|e] d2].
    2: { destruct Hs as [-> He]. split; [by apply republished_temporary, elsewhere_same|done]. }
    subst d2. unfold mbind, st_bind. assert (omap_get (files d1) temporary = Some {| contents := bs; flushed := len bs |}) as Hg
      by (rewrite Hc; exact Hh).
    pose proof (rename_outcome temporary final d1 _ Hg) as Hr. fold final.
    destruct (renameSync os temporary final d1) as [[u2|e] d2].
    2: { destruct Hr as [He Hr]. split; [apply republished_temporary, elsewhere_same; congruence|by left]. }
    rewrite Hc in Hr.
    assert (republished d d2 ∧ published d2 ∧ omap_get (files d2) temporary = None) as (H1 & H2 & H3).
    { assert (published d2) as Hp by (exists bs; split; [done|]; unfold holds; by rewrite Hr, omap_get_set).
      split; [split; [split|by right]|split; [done|]].
      - intros _. rewrite Hr. by apply omap_set_NoDup, omap_delete_NoDup.
      - intros p Hp'. rewrite !not_elem_of_cons in Hp'. destruct Hp' as (Hp1 & Hp2 & _).
        rewrite Hr, omap_get_set_ne, omap_get_delete_ne by done. done.
      - rewrite Hr, omap_get_set_ne by apply final_not_temporary. by apply omap_get_delete. }
    destruct (syncDirectory os directory d2) as [[u3|e] d3] eqn:E.
    - pose proof (syncDirectory_outcome os directory d2) as Hy. rewrite E in Hy. rewrite Hy.
      split; [|split; [destruct H2 as (b & Hb' & H2); exists b; split; [done|]; unfold holds; by rewrite Hy|done]].
      apply (republished_then d d2); [done|by apply elsewhere_same].
    - apply syncDirectory_write_error in E as [Hy He]. split; [|done].
      apply (republished_then d d2); [done|by apply elsewhere_same]. }
  pose proof (or_clean_up_outcome false temporary m d) as Ho.
  destruct (m d) as [[u|e] d1].
  - rewrite Ho. unfold mbind, st_bind. pose proof (stage_outcome SnapshotRenamed d1) as Hs.
    destruct (st_lift (onStage SnapshotRenamed) d1) as [[u1|e] d2].
    + subst d2. cbn. by destruct Hm as (H1 & H2 & H3).
    + destruct Hs as [-> He]. split; [apply Hm|done].
  - destruct Ho as (d2 & -> & H). split; [|apply Hm]. eapply republished_then; [apply Hm|exact H].
Qed.
(** The steps have written a first part of the snapshot. *)
Definition steps_inv (d : Disk) (steps : Steps) : Prop :=
  match steps with
  | NotBegun dir l cs' => dir = directory ∧ l = lsn ∧ cs' = cs
  | Paused dir l w docs cs' => dir = directory ∧ l = lsn ∧ fd w = temporary ∧
      ∃ done_, writing w d done_ ∧ snapshot_body lsn cs = after_bytes done_ (rest_bytes docs cs')
  | Ended => False
  end.

(** The documents that they have not written. *)
Definition steps_left (steps : Steps) : nat :=
  match steps with
  | NotBegun _ _ cs' => left_count [] cs'
  | Paused _ _ _ docs cs' => left_count docs cs'
  | Ended => O
  end.

Definition stepped (n : nat) (d : Disk) (r : res exn (Steps + jsstring) * Disk) : Prop :=
  match r with
  | (Ok (inl steps), d') => steps_inv d' steps ∧ elsewhere [temporary] d d' ∧ (steps_left steps < n)%nat
  | (Ok (inr file), d') => file = checkpointFileName lsn ∧ republished d d' ∧ published d' ∧
      omap_get (files d') temporary = None
  | (Throw e, d') => republished d d' ∧ write_error e
  end.

Lemma resume_outcome n total done_ w d written :
  NoDup (omap_keys (files d)) → fd w = temporary → writing w d done_ →
  snapshot_body lsn cs = after_bytes done_ total →
  part_written total n w d done_ (written d) →
  stepped n d (resume os onStage directory lsn written d).
Proof.
  intros Hn Efd Hw Hbody Hpart. unfold resume. fold temporary. unfold mbind at 1, st_bind at 1.
  match goal with |- context [or_clean_up os true temporary ?x d] => set (m := x) end.
  assert (match m d with
    | (Ok (Some (w', (docs, cs'))), d') => steps_inv d' (Paused directory lsn w' docs cs') ∧
        elsewhere [temporary] d d' ∧ (left_count docs cs' < n)%nat
    | (Ok None, d') => elsewhere [temporary] d d' ∧ ∃ bs, snapshot_bytes lsn cs = Ok bs ∧ holds d' temporary bs (len bs)
    | (Throw e, d') => elsewhere [temporary] d d' ∧ write_error e end) as Hm.
  { unfold m. clear m. unfold mbind at 1, st_bind at 1. unfold part_written in Hpart. rewrite Efd in Hpart.
    destruct (written d) as [[[w1 [[docs cs']|]]|e] d1].
    - destruct Hpart as (Hf & Efd1 & Hl & bs & -> & Hw1). cbn [mret st_ret].
      split; [|split; [by apply elsewhere_frame|done]]. split; [done|]. split; [done|]. split; [done|].
      exists (done_ ++ bs). split; [done|]. by rewrite Hbody, after_after.
    - destruct Hpart as (Hf & Efd1 & bs & -> & Hw1).
      pose proof (write_footer_outcome w1 d1 (done_ ++ bs) Efd1 Hw1 Hbody) as Hfo.
      unfold mbind, st_bind. destruct (write_footer os w1 d1) as [[u|e] d2]; cbn [mret st_ret].
      + destruct Hfo as [Hf2 Hb]. split; [|done]. eapply elsewhere_trans; [by apply elsewhere_frame|done].
      + destruct Hfo as [Hf2 He]. split; [|done]. eapply elsewhere_trans; [by apply elsewhere_frame|done].
    - destruct Hpart as [Hf He]. split; [by apply elsewhere_frame|].
      destruct He as [He|[-> _]]; [by left|]. by do 2 right; left. }
  pose proof (or_clean_up_outcome true temporary m d) as Ho.
  destruct (m d) as [[[[w1 [docs cs']]|]|e] d1].
  - rewrite Ho. cbn. destruct Hm as (H1 & H2 & H3). done.
  - rewrite Ho. destruct Hm as (H1 & bs & H2 & H3).
    pose proof (publish_outcome d1 bs (elsewhere_names _ _ _ H1 Hn) H2 H3) as Hp.
    unfold mbind, st_bind. destruct (publish os onStage directory lsn temporary d1) as [[file|e] d2]; cbn.
    + destruct Hp as (-> & H4 & H5 & H6). split; [done|]. split; [by eapply republished_after|done].
    + destruct Hp as [H4 H5]. split; [by eapply republished_after|done].
  - destruct Ho as (d2 & -> & H). destruct Hm as [H1 H2]. split; [|done].
    eapply republished_then; [by apply republished_temporary|exact H].
Qed.

Lemma encodeHeader_throws n m : throws_only RangeError (encodeHeader n m).
Proof. unfold encodeHeader. throws; apply uint_throws. Qed.

Lemma next_outcome steps d :
  NoDup (omap_keys (files d)) → steps_inv d steps → stepped (steps_left steps) d (next os onStage steps d).
Proof.
  intros Hn. destruct steps as [dir l cs'|dir l w docs cs'|]; [|intros (-> & -> & Efd & done_ & Hw & Hb)|done].
  - intros (-> & -> & ->). cbn [next]. fold temporary. unfold mbind at 1, st_bind at 1.
    pose proof (openWrite_outcome temporary d) as Ho.
    destruct (openWriteSync os temporary d) as [[fd0|e] d1].
    2: { destruct Ho as [He Ho]. split; [by apply republished_temporary, elsewhere_same|by left]. }
    destruct Ho as (-> & Hel & Hh).
    assert (stepped (steps_left (NotBegun directory lsn cs)) d1 (resume os onStage directory lsn
        (header ← st_lift (encodeHeader lsn (len cs));
         write_collections os cs
           (add header {| fd := temporary; position := 0; checksum := 0; pending := []; pendingBytes := 0 |})) d1)) as Hs.
    { assert (writing {| fd := temporary; position := 0; checksum := 0; pending := []; pendingBytes := 0 |} d1 []) as Hw0.
      { split; [|done]. by exists []. }
      eapply (resume_outcome _ (snapshot_body lsn cs) []); [by apply (elsewhere_names _ _ _ Hel)|..| |];
        [|exact Hw0|by rewrite after_nil|]; [done|].
      unfold mbind, st_bind, st_lift. destruct (encodeHeader lsn (len cs)) as [header|e] eqn:Eh.
      - eapply (part_after header _ (collections_bytes cs) _ (left_count [] cs)
          {| fd := temporary; position := 0; checksum := 0; pending := []; pendingBytes := 0 |}
          (add header {| fd := temporary; position := 0; checksum := 0; pending := []; pendingBytes := 0 |}) d1 d1).
        + unfold snapshot_body. rewrite Eh. reflexivity.
        + cbn [steps_left]. lia.
        + done.
        + done.
        + apply write_collections_outcome. rewrite app_nil_l. by apply (writing_add _ _ [] header).
      - split; [done|]. right. pose proof (encodeHeader_throws lsn (len cs)) as Ht. rewrite Eh in Ht.
        cbn in Ht. subst e. split; [done|]. unfold snapshot_body. by rewrite Eh. }
    unfold stepped in *. destruct (resume os onStage directory lsn _ d1) as [[[steps|file]|e] d2].
    + destruct Hs as (H1 & H2 & H3). split; [done|]. split; [by eapply elsewhere_trans|done].
    + destruct Hs as (-> & H2 & H3). split; [done|]. split; [by eapply republished_after|done].
    + destruct Hs as (H2 & H3). split; [by eapply republished_after|done].
  - cbn [next]. eapply resume_outcome; [done|exact Efd|exact Hw|exact Hb|]. by apply write_rest_outcome.
Qed.

Lemma return_outcome steps d :
  steps_inv d steps → ∃ d', return_ os steps d = (Ok (), d') ∧ elsewhere [temporary] d d'.
Proof.
  destruct steps as [dir l cs'|dir l w docs cs'|]; [by exists d|intros (-> & -> & _)|done]. apply clean_up_outcome.
Qed.

Definition written (d : Disk) (r : res exn jsstring * Disk) : Prop :=
  match r with
  | (Ok file, d') => file = checkpointFileName lsn ∧ republished d d' ∧ published d' ∧
      omap_get (files d') temporary = None
  | (Throw e, d') => republished d d' ∧ write_error e
  end.

Lemma write_steps_outcome fuel : ∀ steps d,
  NoDup (omap_keys (files d)) → steps_inv d steps → (steps_left steps < fuel)%nat →
  written d (write_steps os onStage fuel steps d).
Proof.
  induction fuel as [|fuel IH]; intros steps d Hn Hs Hl; [lia|]. cbn [write_steps].
  unfold mbind, st_bind. pose proof (next_outcome steps d Hn Hs) as Ho. unfold stepped in Ho.
  destruct (next os onStage steps d) as [[[steps'|file]|e] d1].
  - destruct Ho as (H1 & H2 & H3).
    assert (written d1 (write_steps os onStage fuel steps' d1)) as Hw
      by (apply IH; [by apply (elsewhere_names _ _ _ H2)|done|lia]).
    unfold written in *. destruct (write_steps os onStage fuel steps' d1) as [[file|e] d2].
    + destruct Hw as (-> & H4 & H5). split; [done|]. split; [by eapply republished_after|done].
    + destruct Hw as [H4 H5]. split; [by eapply republished_after|done].
  - exact Ho.
  - exact Ho.
Qed.

Lemma writeCheckpoint_outcome d :
  NoDup (omap_keys (files d)) → written d (writeCheckpoint os onStage directory lsn cs d).
Proof.
  intros Hn. apply write_steps_outcome; [done|done|]. unfold steps_left, left_count. cbn. lia.
Qed.
End Publishing.
