(* ===== verification/CheckpointRead.v ===== *)
(** * Snapshots: reading

    A snapshot that was written is read back as the collections it was made of. *)

From S2P Require Import Prelude Errors JsNumber JsString JsValue Binary CustomId IndexSpec WalFormat Disk DiskLemmas WriteAheadLog WalLemmas Operations Checkpoint CheckpointWrite.
Import Spec WalFormat Operations Checkpoint.

(** ** Items *)
Lemma snapshot_u8 z : scans SnapshotReader.u8 [z] z.
Proof.
  intros r tl H. unfold SnapshotReader.u8. change 1 with (len [z]) at 1.
  rewrite (scans_bytes damaged [z] r tl H). cbn [mbind res_bind]. done.
Qed.

Lemma snapshot_be n z :
  0 ≤ z < 256 ^ Z.of_nat n →
  scans (λ r, '(b, r) ← bytes_at damaged (Z.of_nat n) r; Ok (from_be b, r)) (be n z) z.
Proof.
  intros Hz. pose proof (scans_map _ from_be _ _ (scans_bytes damaged (be n z))) as H. cbn beta in H.
  by rewrite be_len, from_be_be, Z.mod_small in H.
Qed.

Lemma snapshot_u16 z : 0 ≤ z < 65536 → scans SnapshotReader.u16 (be 2 z) z.
Proof. intros Hz. by apply (snapshot_be 2 z). Qed.

Lemma snapshot_u32 z : 0 ≤ z ≤ 0xffffffff → scans SnapshotReader.u32 (be 4 z) z.
Proof. intros Hz. apply (snapshot_be 4 z). change (256 ^ Z.of_nat 4) with (0xffffffff + 1). lia. Qed.

Lemma snapshot_name name bs : encodeName name = Ok bs → plain name → scans SnapshotReader.name bs name.
Proof.
  intros [-> Hl]%encodeName_inv [Hw Hb]. unfold SnapshotReader.name.
  eapply scans_bind; [apply snapshot_u16; lia|]. destruct (Z.eqb_spec (len (utf8_encode name)) 0); [lia|].
  rewrite <- (app_nil_r (utf8_encode name)).
  eapply (scans_bind _ (λ raw r, match text_decode raw with Some name => Ok (name, r) | None => Throw damaged end)).
  - rewrite app_nil_r. apply scans_bytes.
  - cbn beta. rewrite text_decode_encode by done. apply scans_ret.
Qed.

(** ** What a snapshot is read back as *)
Definition recovered_of (c : CheckpointCollection) : RecoveredCollection := {|
  recovered_database := database c; recovered_collection := collection c;
  recovered_documents := documents c; recovered_indexes := indexes c |}.

(** The key of a stored document. *)
Definition hex_key (key : jsstring) : Prop :=
  ∃ id, key = CustomId.toHexString id ∧ len id = ID_BYTE_LENGTH ∧ Forall is_byte id.

(** A collection that is read back as it was written. *)
Record plain_collection (c : CheckpointCollection) : Prop := {
  plain_database : plain (database c);
  plain_name : plain (collection c);
  plain_keys : Forall hex_key (omap_keys (documents c));
  plain_nodup : NoDup (omap_keys (documents c));
  plain_count : documentCount c = len (documents c);
  plain_indexes : Forall plain_spec (indexes c);
  plain_bytes : Forall (λ kd, Forall is_byte kd.2) (documents c);
}.

Lemma from_hex_key id : Forall is_byte id → from_hex (CustomId.toHexString id) = id.
Proof.
  induction 1 as [|b id Hb _ IH]; [done|]. rewrite toHexString_cons.
  destruct (hex_byte_digits b Hb) as [D1 D2]. cbn [from_hex]. rewrite D1, D2, IH. f_equal.
  pose proof (Z_div_mod_eq_full b 16). lia.
Qed.

Lemma encodeEntry_key key document entry :
  hex_key key → encodeEntry key document = Ok entry →
  ∃ id, key = CustomId.toHexString id ∧ len id = ID_BYTE_LENGTH ∧
    entry = id ++ be 4 (len document) ∧ 0 ≤ len document ≤ 0xffffffff.
Proof.
  intros (id & -> & Hl & Hb) H. exists id. unfold encodeEntry in H.
  apply bind_Ok_inv in H as (l & El & H). apply uint32_inv in El as [-> Hd].
  rewrite from_hex_key in H by done. rewrite take_app_length' in H by (unfold len, ID_BYTE_LENGTH in Hl; lia).
  injection H as <-. done.
Qed.

(** Setting new keys one after the other lists them. *)
Lemma set_all_new {A} (docs : list (jsstring * A)) :
  NoDup (omap_keys docs) → fold_left (λ m kd, omap_set m kd.1 kd.2) docs [] = docs.
Proof.
  intros Hnd. enough (∀ m, NoDup (omap_keys (m ++ docs)) → fold_left (λ m kd, omap_set m kd.1 kd.2) docs m = m ++ docs) as H
    by (by apply (H [])).
  clear Hnd. induction docs as [|[k d] docs IH]; intros m Hn; [by rewrite app_nil_r|]. cbn [fold_left fst snd].
  rewrite omap_set_None.
  - rewrite IH by (by rewrite <- app_assoc). by rewrite <- app_assoc.
  - apply omap_get_None. rewrite omap_keys_app in Hn. apply NoDup_app in Hn as (_ & Hn & _).
    intros Hin. apply (Hn k Hin). left.
Qed.

(** *** The parts of a collection *)
Lemma read_documents_scans docs n bs :
  documents_bytes docs = Ok bs → uint32 (len docs) = Ok n → Forall hex_key (omap_keys docs) →
  NoDup (omap_keys docs) → scans read_documents (n ++ bs) docs.
Proof.
  intros Hd [-> Hn]%uint32_inv Hk Hnd. unfold documents_bytes in Hd.
  apply bind_Ok_inv in Hd as (parts & Hp & Hd). injection Hd as <-.
  apply mapM_Ok_Forall2, encoded_items in Hp as [-> Hp]. unfold read_documents.
  eapply scans_bind; [by apply snapshot_u32|].
  eapply (scans_items _ _ (λ m kd, omap_set m kd.1 kd.2)); [|by apply set_all_new].
  intros [key document] acc Hin.
  specialize (Hp _ Hin) as Eb. unfold document_bytes at 1 in Eb.
  apply bind_Ok_inv in Eb as (entry & Ee & <-%Ok_inj).
  rewrite Forall_forall in Hk. specialize (Hk key (list_elem_of_fmap_2 fst _ _ Hin)).
  destruct (encodeEntry_key _ _ _ Hk Ee) as (id & -> & Hl & -> & Hd). cbn [fst snd]. rewrite <- app_assoc.
  eapply scans_bind; [rewrite <- Hl; apply scans_bytes|]. eapply scans_bind; [by apply snapshot_u32|].
  apply (scans_map _ (λ d, omap_set acc (CustomId.toHexString id) d)). apply scans_bytes.
Qed.

Lemma uint16_inv n bs : uint16 n = Ok bs → bs = be 2 n ∧ 0 ≤ n < 65536.
Proof.
  unfold uint16. destruct (Z.leb_spec 0 n), (Z.leb_spec n 0xffff); try done. intros [= <-]. split; [done|lia].
Qed.

Lemma scans_catch {A} (f : reader → result (A * reader)) h bs a :
  scans f bs a → scans (λ r, catch (f r) h) bs a.
Proof. intros Hf r tl H. by rewrite (Hf r tl H). Qed.

Lemma read_indexes_scans specs n parts :
  uint16 (len specs) = Ok n → mapM encodeIndexSpec specs = Ok parts → Forall plain_spec specs →
  scans (read_indexes CHECKPOINT_FORMAT_VERSION) (n ++ concat parts) specs.
Proof.
  intros [-> Hn]%uint16_inv [-> He]%mapM_Ok_Forall2%encoded_items Hp. unfold read_indexes.
  change (2 <=? CHECKPOINT_FORMAT_VERSION) with true. cbn iota.
  eapply scans_bind; [by apply snapshot_u16|].
  eapply scans_items; [|apply (append_all specs [])]. intros spec acc Hin.
  apply (scans_map _ (λ spec, acc ++ [spec])). apply scans_catch.
  rewrite Forall_forall in Hp. specialize (Hp spec Hin). pose proof (He spec Hin) as Es.
  apply (scans_spec SnapshotReader.name SnapshotReader.u8); [apply snapshot_name|apply snapshot_u8|exact Es|exact Hp].
Qed.

Lemma read_collection_scans c bs :
  collection_bytes c = Ok bs → plain_collection c →
  scans (read_collection CHECKPOINT_FORMAT_VERSION) bs (recovered_of c).
Proof.
  intros Hb [P1 P2 P3 P4 P5 P6 _]. unfold collection_bytes, encodeCollection in Hb.
  apply bind_Ok_inv in Hb as (parts & He & Hb). apply bind_Ok_inv in Hb as (docs & Hd & <-%Ok_inj).
  apply bind_Ok_inv in He as (b1 & E1 & He). apply bind_Ok_inv in He as (b2 & E2 & He).
  apply bind_Ok_inv in He as (b3 & E3 & He). apply bind_Ok_inv in He as (specs & E4 & He).
  apply bind_Ok_inv in He as (b5 & E5 & <-%Ok_inj). rewrite P5 in E5.
  assert (concat ([b1; b2; b3] ++ specs ++ [b5]) ++ docs = b1 ++ b2 ++ (b3 ++ concat specs) ++ b5 ++ docs) as ->.
  { rewrite !concat_app. cbn [concat]. by rewrite !app_nil_r, <- !app_assoc. }
  unfold read_collection. eapply scans_bind; [by apply snapshot_name|].
  eapply scans_bind; [by apply snapshot_name|]. eapply scans_bind; [by apply read_indexes_scans|].
  apply (scans_map read_documents (λ docs, {| recovered_database := database c; recovered_collection := collection c;
    recovered_documents := docs; recovered_indexes := indexes c |})).
  by apply read_documents_scans.
Qed.

(** ** The whole file *)
Lemma header_fields lsn count header rest :
  encodeHeader lsn count = Ok header →
  let data := header ++ rest in
  len header = HEADER_SIZE ∧ subarray data 0 8 = MAGIC ∧ readUInt32BE data 8 = CHECKPOINT_FORMAT_VERSION ∧
  readBigUInt64BE data 12 = lsn ∧ readUInt32BE data 20 = count ∧ 0 ≤ count ≤ 0xffffffff.
Proof.
  unfold encodeHeader. intros H. apply bind_Ok_inv in H as (l & El & H). apply bind_Ok_inv in H as (c & Ec & <-%Ok_inj).
  apply uint32_inv in Ec as [-> Hc]. unfold uint64 in El.
  destruct (Z.leb_spec 0 lsn) as [H0|]; [|done]. cbn [andb] in El.
  destruct (lsn <? 2 ^ 64) eqn:E64; [|done]. apply Z.ltb_lt in E64. apply Ok_inj in El as <-.
  set (data := (MAGIC ++ be 4 CHECKPOINT_FORMAT_VERSION ++ be 8 lsn ++ be 4 count) ++ rest).
  assert (data = MAGIC ++ be 4 CHECKPOINT_FORMAT_VERSION ++ be 8 lsn ++ be 4 count ++ rest) as Ed
    by (unfold data; by rewrite <- !app_assoc).
  split; [by rewrite !len_app, !be_len|]. split.
  { rewrite Ed. apply (subarray_here MAGIC). }
  unfold readUInt32BE, readBigUInt64BE. split; [|split; [|split; [|done]]].
  - rewrite Ed. by apply (read_at MAGIC 4).
  - assert (data = (MAGIC ++ be 4 CHECKPOINT_FORMAT_VERSION) ++ be 8 lsn ++ be 4 count ++ rest) as ->
      by (rewrite Ed; by rewrite <- !app_assoc).
    apply (read_at (MAGIC ++ be 4 CHECKPOINT_FORMAT_VERSION) 8); [by rewrite len_app, be_len|done|done].
  - assert (data = (MAGIC ++ be 4 CHECKPOINT_FORMAT_VERSION ++ be 8 lsn) ++ be 4 count ++ rest) as ->
      by (rewrite Ed; by rewrite <- !app_assoc).
    apply (read_at (MAGIC ++ be 4 CHECKPOINT_FORMAT_VERSION ++ be 8 lsn) 4); [by rewrite !len_app, !be_len|done|].
    change (256 ^ 4) with (0xffffffff + 1). lia.
Qed.

Lemma footer_fields body :
  0 ≤ crc32 body < 2 ^ 32 →
  let data := with_footer body in
  len data - FOOTER_SIZE = len body ∧ subarray data (len body + 4) (len data) = END_MAGIC ∧
  readUInt32BE data (len body) = crc32 body ∧ subarray data 0 (len body) = body.
Proof.
  intros Hc data. assert (len data = len body + FOOTER_SIZE) as El by (unfold data, with_footer; by rewrite !len_app, be_len).
  split; [lia|]. split; [|split].
  - assert (data = (body ++ be 4 (crc32 body)) ++ END_MAGIC ++ []) as Ed
      by (unfold data, with_footer; by rewrite app_nil_r, <- app_assoc).
    rewrite El. replace (len body + FOOTER_SIZE) with (len body + 4 + len END_MAGIC) by (unfold FOOTER_SIZE, len; cbn; lia).
    rewrite Ed. apply subarray_at. by rewrite len_app, be_len.
  - unfold readUInt32BE, data, with_footer. by apply (read_at body 4).
  - unfold data, with_footer. apply subarray_here.
Qed.

(** *** Bytes *)
Lemma encodeName_bytes n bs : encodeName n = Ok bs → plain n → Forall is_byte bs.
Proof.
  intros [-> _]%encodeName_inv [Hw _]. apply Forall_app. split; [apply be_bytes|by apply utf8_encode_bytes].
Qed.

Lemma encodeIndexSpec_bytes spec bs : encodeIndexSpec spec = Ok bs → plain_spec spec → Forall is_byte bs.
Proof.
  intros H (Hv & P1 & P2). unfold encodeIndexSpec in H. apply bind_Ok_inv in H as (b1 & E1 & H).
  apply bind_Ok_inv in H as (b2 & E2 & <-%Ok_inj). rewrite !Forall_app.
  split; [by eapply encodeName_bytes|]. split; [by eapply encodeName_bytes|]. constructor; [|done].
  by apply flags_back.
Qed.

Lemma concat_bytes {A} (f : A → result bytes) l parts (P : A → Prop) :
  mapM f l = Ok parts → Forall P l → (∀ x b, f x = Ok b → P x → Forall is_byte b) → Forall is_byte (concat parts).
Proof.
  intros H%mapM_Ok_Forall2 HP Hf. induction H as [|x b l parts E _ IH]; [constructor|].
  apply Forall_cons in HP as [Hx HP]. cbn. apply Forall_app. split; [by eapply Hf|by apply IH].
Qed.

Lemma collection_bytes_bytes c bs : collection_bytes c = Ok bs → plain_collection c → Forall is_byte bs.
Proof.
  intros Hb [P1 P2 P3 P4 P5 P6 P7]. unfold collection_bytes, encodeCollection in Hb.
  apply bind_Ok_inv in Hb as (parts & He & Hb). apply bind_Ok_inv in Hb as (docs & Hd & <-%Ok_inj).
  apply bind_Ok_inv in He as (b1 & E1 & He). apply bind_Ok_inv in He as (b2 & E2 & He).
  apply bind_Ok_inv in He as (b3 & E3 & He). apply bind_Ok_inv in He as (specs & E4 & He).
  apply bind_Ok_inv in He as (b5 & E5 & <-%Ok_inj). apply uint16_inv in E3 as [-> _]. apply uint32_inv in E5 as [-> _].
  rewrite !concat_app, !Forall_app. cbn [concat]. rewrite !app_nil_r, !Forall_app. split_and!.
  - by eapply encodeName_bytes.
  - by eapply encodeName_bytes.
  - apply be_bytes.
  - eapply concat_bytes; [exact E4|exact P6|]. apply encodeIndexSpec_bytes.
  - apply be_bytes.
  - unfold documents_bytes in Hd. apply bind_Ok_inv in Hd as (ds & Hd & <-%Ok_inj).
    eapply (concat_bytes _ _ _ (λ kd, hex_key kd.1 ∧ Forall is_byte kd.2)); [exact Hd| |].
    + apply Forall_and. split; [|exact P7]. unfold omap_keys in P3; rewrite Forall_map in P3; exact P3.
    + intros kd b E [Hk Hbs]. unfold document_bytes in E. apply bind_Ok_inv in E as (entry & Ee & <-%Ok_inj).
      destruct Hk as (id & Ek & Hl & Hi). pose proof (ex_intro _ id (conj Ek (conj Hl Hi)) : hex_key kd.1) as Hk.
      destruct (encodeEntry_key _ _ _ Hk Ee) as (id' & Ek' & _ & -> & _). rewrite !Forall_app.
      split; [|done]. split; [|apply be_bytes].
      rewrite <- (from_hex_key id Hi), <- Ek in Hi. unfold encodeEntry in Ee.
      apply bind_Ok_inv in Ee as (l & El & Ee). apply Ok_inj in Ee.
      assert (Forall is_byte (take 16 (from_hex kd.1 ++ repeat 0 16) ++ l)) as Hall.
      { apply uint32_inv in El as [-> _]. rewrite Forall_app. split; [|apply be_bytes]. apply Forall_take.
        rewrite Forall_app. split; [exact Hi|]. apply Forall_forall. intros x Hx%list_elem_of_In%repeat_spec. subst x. done. }
      rewrite Ee in Hall. apply Forall_app in Hall as [Hx _]. exact Hx.
Qed.

Lemma snapshot_is_bytes lsn cs bs :
  snapshot_bytes lsn cs = Ok bs → Forall plain_collection cs → Forall is_byte bs.
Proof.
  intros Hs Hp. unfold snapshot_bytes in Hs. destruct (snapshot_body lsn cs) as [body|] eqn:Eb; [|done].
  apply Ok_inj in Hs as <-. unfold snapshot_body, encodeHeader in Eb. apply bind_Ok_inv in Eb as (header & Eh & Eb).
  apply bind_Ok_inv in Eb as (rest & Er & <-%Ok_inj). unfold collections_bytes in Er.
  apply bind_Ok_inv in Er as (parts & Em & <-%Ok_inj).
  apply bind_Ok_inv in Eh as (l & El & Eh). apply bind_Ok_inv in Eh as (c & Ec & <-%Ok_inj).
  apply uint32_inv in Ec as [-> _]. unfold uint64 in El. destruct (_ && _); [|done]. apply Ok_inj in El as <-.
  unfold with_footer. rewrite !Forall_app.
  assert (∀ m, m = MAGIC ∨ m = END_MAGIC → Forall is_byte m) as Hm
    by (intros m [-> | ->]; repeat (constructor; [done|]); constructor).
  split_and!; try apply be_bytes; try (apply Hm; tauto).
  eapply concat_bytes; [exact Em|exact Hp|]. apply collection_bytes_bytes.
Qed.

Lemma decode_snapshot lsn cs bs :
  snapshot_bytes lsn cs = Ok bs → Forall plain_collection cs →
  decodeCheckpoint bs = Ok {| checkpoint_lsn := lsn; collections := map recovered_of cs |}.
Proof.
  intros Hs Hp. pose proof (snapshot_is_bytes _ _ _ Hs Hp) as Hbytes. unfold snapshot_bytes in Hs. destruct (snapshot_body lsn cs) as [body|] eqn:Eb; [|done].
  injection Hs as <-. unfold snapshot_body in Eb. apply bind_Ok_inv in Eb as (header & Eh & Eb).
  apply bind_Ok_inv in Eb as (rest & Er & <-%Ok_inj). unfold collections_bytes in Er.
  apply bind_Ok_inv in Er as (parts & Em & <-%Ok_inj).
  apply mapM_Ok_Forall2, encoded_items in Em as [Ep He]. rewrite Ep in Hbytes |- *. clear Ep.
  set (items := flat_map (encoded collection_bytes) cs) in *.
  assert (0 ≤ crc32 (header ++ items) < 2 ^ 32) as Hc.
  { apply crc32_range. unfold with_footer in Hbytes. apply Forall_app in Hbytes as [Hb _]; exact Hb. }
  pose proof (header_fields _ _ _ (items ++ be 4 (crc32 (header ++ items)) ++ END_MAGIC) Eh) as (Hl & F1 & F2 & F3 & F4 & Hn).
  pose proof (footer_fields (header ++ items) Hc) as (G1 & G2 & G3 & G4).
  assert (with_footer (header ++ items) = header ++ items ++ be 4 (crc32 (header ++ items)) ++ END_MAGIC) as Ed
    by (unfold with_footer; by rewrite <- app_assoc).
  rewrite <- Ed in F1, F2, F3, F4. set (data := with_footer (header ++ items)) in *.
  assert (len (header ++ items) = HEADER_SIZE + len items) as El by (by rewrite len_app, Hl).
  unfold decodeCheckpoint. cbv zeta. rewrite !G1.
  destruct (Z.ltb_spec (len data) (HEADER_SIZE + FOOTER_SIZE)) as [Hlt|_]; [pose proof (len_nonneg items); lia|].
  rewrite G2, G3, G4, Z.eqb_refl, F1. rewrite !bool_decide_eq_true_2 by done. cbn [negb]. rewrite F2.
  change ((_ <? _) || (_ <? _)) with false at 1. cbn iota. rewrite F3, F4.
  assert (at_bytes {| buffer := data; last := len (header ++ items); offset := HEADER_SIZE |} items
    (be 4 (crc32 (header ++ items)) ++ END_MAGIC)) as Hat.
  { exists header. cbn [buffer last offset]. rewrite Hl. split; [exact Ed|]. split; [done|lia]. }
  assert (scans (λ r, loopZ (λ '(collections, r), '(collection, r) ← read_collection CHECKPOINT_FORMAT_VERSION r;
      Ok (collections ++ [collection], r)) (len cs) ([], r)) items (map recovered_of cs)) as Hscan.
  { apply (scans_items _ _ (λ l c, l ++ [recovered_of c])).
    - intros c acc Hin. apply (scans_map _ (λ c, acc ++ [c])). rewrite Forall_forall in Hp.
      apply read_collection_scans; auto.
    - clear. enough (∀ acc, fold_left (λ l c, l ++ [recovered_of c]) cs acc = acc ++ map recovered_of cs) as H by apply H.
      induction cs as [|c cs IH]; intros acc; [by rewrite app_nil_r|]. cbn. by rewrite IH, <- app_assoc. }
  rewrite (Hscan _ _ Hat). cbn [mbind res_bind past offset]. by rewrite <- El, Z.eqb_refl.
Qed.

Lemma read_published os dir lsn cs d :
  published dir lsn cs d → Forall plain_collection cs →
  match readCheckpoint os (dir, checkpointFileName lsn) d with
  | (Ok c, d') => c = {| checkpoint_lsn := lsn; collections := map recovered_of cs |} ∧ files d' = files d
  | (Throw e, d') => system_error e ∧ files d' = files d
  end.
Proof.
  intros (bs & Hs & Hh) Hp. unfold readCheckpoint, mbind, st_bind.
  pose proof (look_outcome os (ReadFile (dir, checkpointFileName lsn)) _ contents d bs _ Hh) as Hl.
  unfold readFileSync. destruct (syscall os _ _ d) as [[data|e] d']; [|done].
  destruct Hl as [-> Hl]. unfold st_lift. cbn [contents]. by rewrite (decode_snapshot _ _ _ Hs Hp).
Qed.

(** * The property *)

(** The snapshot is on stable storage, and reading it gives the collections. *)
Definition reads_back (os : Z → Call → Outcome) (dir : jsstring) (lsn : Z) (cs : list CheckpointCollection) (d : Disk) : Prop :=
  (∃ bs, holds d (dir, checkpointFileName lsn) bs (len bs)) ∧
  match readCheckpoint os (dir, checkpointFileName lsn) d with
  | (Ok c, _) => c = {| checkpoint_lsn := lsn; collections := map recovered_of cs |}
  | (Throw e, _) => system_error e
  end.

(** C29: Writing a snapshot touches only its own file and its temporary file,
    whatever the operating system does; when it returns, the snapshot is flushed,
    reads back as the same collections, documents and index definitions in the
    same order, and the temporary file is gone; when it throws, with an error of
    a call, of what does not fit or of the caller's function, the file of that
    name is as it was or reads back so. *)
Theorem checkpoint_roundtrip os os' onStage dir lsn cs d :
  Forall plain_collection cs → NoDup (omap_keys (files d)) →
  match writeCheckpoint os onStage dir lsn cs d with
  | (r, d') =>
      (∀ p, p ≠ (dir, temporaryFileName lsn) → p ≠ (dir, checkpointFileName lsn) →
         omap_get (files d') p = omap_get (files d) p) ∧
      match r with
      | Ok file => file = checkpointFileName lsn ∧ omap_get (files d') (dir, temporaryFileName lsn) = None ∧
          reads_back os' dir lsn cs d'
      | Throw e => write_error onStage e ∧
          (omap_get (files d') (dir, checkpointFileName lsn) = omap_get (files d) (dir, checkpointFileName lsn) ∨
           reads_back os' dir lsn cs d')
      end
  end.
Proof.
  intros Hp Hn. pose proof (writeCheckpoint_outcome os onStage dir lsn cs d Hn) as Hw. unfold written in Hw.
  assert (∀ d', published dir lsn cs d' → reads_back os' dir lsn cs d') as Hr.
  { intros d' Hpub. pose proof (read_published os' dir lsn cs d' Hpub Hp) as H. unfold reads_back.
    destruct Hpub as (bs & _ & Hh). split; [by exists bs|]. by destruct (readCheckpoint os' _ d') as [[]]; destruct H. }
  destruct (writeCheckpoint os onStage dir lsn cs d) as [[file|e] d'].
  - destruct Hw as (-> & [[_ Hel] _] & Hpub & Ht). split; [|split; [done|split; [done|by apply Hr]]].
    intros p H1 H2. apply Hel. rewrite !not_elem_of_cons. split_and!; [done|done|apply not_elem_of_nil].
  - destruct Hw as ([[_ Hel] Hf] & He). split; [|split; [done|destruct Hf; [by left|right; by apply Hr]]].
    intros p H1 H2. apply Hel. rewrite !not_elem_of_cons. split_and!; [done|done|apply not_elem_of_nil].
Qed.

Definition sample_collections : list CheckpointCollection :=
  let spec := {| name := js "n_1"; field := js "n"; direction := 1; unique := false; sparse := true |} in
  [{| database := js "shop"; collection := js "items"; documentCount := 2; indexes := [spec];
      documents := [(CustomId.toHexString (repeat 9 16), [1; 2; 3]); (CustomId.toHexString (repeat 10 16), [4])] |}].

Lemma checkpoint_roundtrip_witness :
  ∃ d', writeCheckpoint (λ _ _, Done) (λ _, Ok ()) (js "checkpoints") 12 sample_collections {| files := []; calls := 0 |}
    = (Ok (checkpointFileName 12), d') ∧
    reads_back (λ _ _, Done) (js "checkpoints") 12 sample_collections d'.
Proof.
  assert (Forall plain_collection sample_collections) as Hp.
  { constructor; [|constructor]. split; try (by apply plainb_plain); try reflexivity.
    - repeat (constructor; [eexists; split; [reflexivity|split; [reflexivity|repeat (constructor; [done|]); constructor]]|]). constructor.
    - match goal with |- ?P => apply (bool_decide_eq_true_1 P) end. vm_compute. reflexivity.
    - constructor; [|constructor]. split; [reflexivity|split; by apply plainb_plain].
    - repeat (constructor; [repeat (constructor; [done|]); constructor|]). constructor. }
  pose proof (checkpoint_roundtrip (λ _ _, Done) (λ _ _, Done) (λ _, Ok ()) (js "checkpoints") 12 sample_collections
    {| files := []; calls := 0 |} Hp NoDup_nil_2) as H.
  destruct (writeCheckpoint _ _ _ _ _ _) as [r d'] eqn:E. exists d'.
  assert (r = Ok (checkpointFileName 12)) as ->.
  { apply (f_equal fst) in E. cbn [fst] in E. rewrite <- E. vm_compute. reflexivity. }
  split; [reflexivity|]. apply H.
Defined.
