(* ===== verification/Triples.v ===== *)
(** * Triples

    Code that changes a state and returns or throws, from states that satisfy a
    condition: what then holds of the value and the state, and what if it throws. *)

From S2P Require Import Prelude.

Section Triples.
Context {S E : Type}.
Implicit Types (P R : S → Prop).

Definition triple {A} P (m : ST S E A) (Q : A → S → Prop) R : Prop :=
  ∀ s, P s → match m s with (Ok a, s') => Q a s' | (Throw _, s') => R s' end.

Lemma triple_weaken {A} P P' (m : ST S E A) (Q Q' : A → S → Prop) R R' :
  triple P' m Q' R' → (∀ s, P s → P' s) → (∀ a s, Q' a s → Q a s) → (∀ s, R' s → R s) → triple P m Q R.
Proof. intros Hm H1 H2 H3 s Hs. specialize (Hm s (H1 s Hs)). destruct (m s) as [[a|e] s']; auto. Qed.

Lemma triple_and {A} P P' (m : ST S E A) (Q Q' : A → S → Prop) R R' :
  triple P m Q R → triple P' m Q' R' →
  triple (λ s, P s ∧ P' s) m (λ a s, Q a s ∧ Q' a s) (λ s, R s ∧ R' s).
Proof. intros H H' s [Hs Hs']. specialize (H s Hs). specialize (H' s Hs'). by destruct (m s) as [[a|e] s']. Qed.

Lemma triple_ret {A} (a : A) P (Q : A → S → Prop) R : (∀ s, P s → Q a s) → triple P (mret a) Q R.
Proof. intros H s. apply H. Qed.

Lemma triple_throw {A} e P (Q : A → S → Prop) R : (∀ s, P s → R s) → triple P (st_throw e) Q R.
Proof. intros H s. apply H. Qed.

Lemma triple_bind {A B} P (m : ST S E A) (k : A → ST S E B) (Q : A → S → Prop) (Q' : B → S → Prop) R :
  triple P m Q R → (∀ a, triple (Q a) (k a) Q' R) → triple P (x ← m; k x) Q' R.
Proof.
  intros Hm Hk s Hs. specialize (Hm s Hs). unfold mbind, st_bind. destruct (m s) as [[a|e] s']; [|done].
  by apply Hk.
Qed.

Lemma triple_get {A B} P (f : S → A) (k : A → ST S E B) (Q : B → S → Prop) R :
  (∀ a, triple (λ s, P s ∧ f s = a) (k a) Q R) → triple P (x ← st_get f; k x) Q R.
Proof. intros Hk s Hs. by apply Hk. Qed.

Lemma triple_update P (f : S → S) (Q : () → S → Prop) R : (∀ s, P s → Q () (f s)) → triple P (st_update f) Q R.
Proof. intros H s. apply H. Qed.

Lemma triple_lift {A} (m : res E A) P (Q : A → S → Prop) R :
  (∀ s, P s → match m with Ok a => Q a s | Throw _ => R s end) → triple P (st_lift m) Q R.
Proof. intros H s Hs. specialize (H s Hs). unfold st_lift. by destruct m. Qed.

Lemma triple_catch {A} P (m : ST S E A) h (Q : A → S → Prop) R R' :
  triple P m Q R' → (∀ e, triple R' (h e) Q R) → triple P (st_catch m h) Q R.
Proof.
  intros Hm Hh s Hs. specialize (Hm s Hs). unfold st_catch. destruct (m s) as [[a|e] s']; [done|]. by apply Hh.
Qed.

Lemma triple_fold {A B} P (f : A → B → ST S E B) l b R :
  (∀ x b, x ∈ l → triple P (f x b) (λ _, P) R) → triple P (st_fold f l b) (λ _, P) R.
Proof.
  revert b. induction l as [|x l IH]; intros b Hf; cbn [st_fold]; [by apply triple_ret|].
  eapply triple_bind; [apply Hf; left|]. intros b'. apply IH. intros y b2 Hy. apply Hf. by right.
Qed.

Lemma triple_each {A} P (f : A → ST S E ()) l R :
  (∀ x, x ∈ l → triple P (f x) (λ _, P) R) → triple P (st_each f l) (λ _, P) R.
Proof.
  induction l as [|x l IH]; intros Hf; cbn [st_each]; [by apply triple_ret|].
  eapply triple_bind; [apply Hf; left|]. intros u. apply IH. intros y Hy. apply Hf. by right.
Qed.
End Triples.

(** Code that keeps a condition, whether it returns or throws. *)
Abbreviation preserves P m := (triple P m (λ _, P) P).

(** ** Triples with the error that is thrown *)
Section Outcomes.
Context {S E : Type}.
Implicit Types (P : S → Prop) (X : E → S → Prop).

Definition outcomes {A} P (m : ST S E A) (Q : A → S → Prop) X : Prop :=
  ∀ s, P s → match m s with (Ok a, s') => Q a s' | (Throw e, s') => X e s' end.

Lemma outcomes_weaken {A} P P' (m : ST S E A) (Q Q' : A → S → Prop) X X' :
  outcomes P' m Q' X' → (∀ s, P s → P' s) → (∀ a s, Q' a s → Q a s) → (∀ e s, X' e s → X e s) → outcomes P m Q X.
Proof. intros Hm H1 H2 H3 s Hs. specialize (Hm s (H1 s Hs)). destruct (m s) as [[a|e] s']; auto. Qed.

Lemma outcomes_ret {A} (a : A) P (Q : A → S → Prop) X : (∀ s, P s → Q a s) → outcomes P (mret a) Q X.
Proof. intros H s. apply H. Qed.

Lemma outcomes_throw {A} e P (Q : A → S → Prop) X : (∀ s, P s → X e s) → outcomes P (st_throw e) Q X.
Proof. intros H s. apply H. Qed.

Lemma outcomes_bind {A B} P (m : ST S E A) (k : A → ST S E B) (Q : A → S → Prop) (Q' : B → S → Prop) X :
  outcomes P m Q X → (∀ a, outcomes (Q a) (k a) Q' X) → outcomes P (x ← m; k x) Q' X.
Proof.
  intros Hm Hk s Hs. specialize (Hm s Hs). unfold mbind, st_bind. destruct (m s) as [[a|e] s']; [|done].
  by apply Hk.
Qed.

(** What a value satisfies whatever the state. *)
Lemma outcomes_lift {A B} (m : res E A) (k : A → ST S E B) P Q X :
  (∀ e s, m = Throw e → P s → X e s) → (∀ a, m = Ok a → outcomes P (k a) Q X) → outcomes P (x ← st_lift m; k x) Q X.
Proof.
  intros Ht Hk s Hs. unfold mbind, st_bind, st_lift. destruct m as [a|e]; [by apply (Hk a)|by apply Ht].
Qed.


Lemma outcomes_get {A B} P (f : S → A) (k : A → ST S E B) (Q : B → S → Prop) X :
  (∀ a, outcomes (λ s, P s ∧ f s = a) (k a) Q X) → outcomes P (x ← st_get f; k x) Q X.
Proof. intros Hk s Hs. by apply Hk. Qed.

Lemma outcomes_update P (f : S → S) (Q : () → S → Prop) X : (∀ s, P s → Q () (f s)) → outcomes P (st_update f) Q X.
Proof. intros H s. apply H. Qed.

Lemma outcomes_catch {A} P (m : ST S E A) h (Q : A → S → Prop) X X' :
  outcomes P m Q X' → (∀ e, outcomes (X' e) (h e) Q X) → outcomes P (st_catch m h) Q X.
Proof.
  intros Hm Hh s Hs. specialize (Hm s Hs). unfold st_catch. destruct (m s) as [[a|e] s']; [done|]. by apply Hh.
Qed.

Lemma outcomes_each {A} P (f : A → ST S E ()) l X :
  (∀ x, x ∈ l → outcomes P (f x) (λ _, P) X) → outcomes P (st_each f l) (λ _, P) X.
Proof.
  induction l as [|x l IH]; intros Hf; cbn [st_each]; [by apply outcomes_ret|].
  eapply outcomes_bind; [apply Hf; left|]. intros u. apply IH. intros y Hy. apply Hf. by right.
Qed.
End Outcomes.
