(* ===== verification/Engine.v ===== *)
(** * The storage engine

    packages/storage/src/engine/storage-engine.ts: the collections of a
    directory, the log that records their changes, the snapshots of them, and the
    recovery of all three when the directory is opened.

    The directories of the log and of the snapshots are two disks, each with the
    behaviour of the operating system on it. A collection is created with a
    journal that appends to the log of the engine; here it is kept without it, and
    is given the engine as the state of its journal when a command runs. What
    [setInterval] and [setImmediate] call, and what is called when a promise is
    rejected, are operations of their own ([flushTimer], [checkpointTimer], [tick],
    [settle]). *)

From S2P Require Import Prelude Errors JsNumber JsString JsValue Binary CustomId FieldIndex IndexSpec IndexSet WalFormat Disk WriteAheadLog Operations Checkpoint Collection CollectionModel.
Import Spec.

Module Engine.
Import Operations.Operations.
Module Wal := WriteAheadLog.WriteAheadLog.
Module Snapshot := Checkpoint.Checkpoint.
Module Coll := Collection.Collection.
Abbreviation InMemoryCollection := Coll.InMemoryCollection.
Abbreviation JournalOperation := Coll.JournalOperation.

Definition DEFAULT_CHECKPOINT_THRESHOLD_BYTES : Z := 64 * 1024 * 1024.
Definition DEFAULT_MEMORY_FLUSH_INTERVAL_MS : Z := 100.
Definition DEFAULT_CHECKPOINT_RETENTION : Z := 2.

Record StorageEngineOptions := {
  opt_log : Wal.WriteAheadLogOptions;
  opt_checkpoints : jsstring;
  opt_memoryFlushIntervalMs : option number;
  opt_checkpointThresholdBytes : option number;
  opt_checkpointIntervalMs : option number;
  opt_checkpointRetention : option number;
  opt_checkpointOnClose : option bool;
  opt_backgroundCheckpoints : option bool;
  opt_onCheckpointStage : option (Snapshot.CheckpointStage → result ());
}.

Record Settings := {
  checkpointThresholdBytes : Z;
  checkpointRetention : Z;
  checkpointOnClose : bool;
  backgroundCheckpoints : bool;
  onCheckpointStage : Snapshot.CheckpointStage → result ();
}.

Record CheckpointResult := {
  result_lsn : Z;
  result_file : jsstring;
  result_collections : Z;
  result_documents : Z;
  removedSnapshots : Z;
  removedSegments : Z;
}.

Record RecoveryReport := {
  checkpointLsn : Z;
  checkpointFile : option jsstring;
  skippedCheckpoints : list jsstring;
  replayedRecords : Z;
  rebuiltIndexes : Z;
  report_lastLsn : Z;
}.

Record RecoveredState := {
  recovered_documents : list (jsstring * bytes);
  recovered_indexes : list IndexSpec;
}.

(** A [Map] of the databases, of [Map]s of their collections. *)
Abbreviation Databases A := (list (jsstring * list (jsstring * A))).

Record BegunCheckpoint := {
  begun_lsn : Z;
  begun_collections : list Snapshot.CheckpointCollection;
  begun_documents : Z;
  begun_bytes : Z;
}.

(** Who asked for a checkpoint in the background, and so what happens when its
    promise is rejected. *)
Inductive Origin := Automatic | Timer | Caller.

(** A checkpoint in the background: its generator, and [aborted] of its closure. *)
Record ActiveCheckpoint := {
  active_begun : BegunCheckpoint;
  active_steps : Snapshot.Steps;
  active_origin : Origin;
  aborted : bool;
}.

Record StorageEngine := {
  log_disk : Disk;
  log : Wal.WriteAheadLog;
  checkpoint_disk : Disk;
  checkpoints : jsstring;
  settings : Settings;
  databases : Databases (InMemoryCollection ());
  closed : bool;
  lastCheckpoint : Z;
  bytesSinceCheckpoint : Z;
  nextCheckpointAt : Z;
  checkpointFailure : option exn;
  activeCheckpoint : option ActiveCheckpoint;
  rejections : list (Origin * exn);
  report : RecoveryReport;
}.

Abbreviation action A := (ST StorageEngine exn A).

(** ** Setting the fields *)
Definition set_log (d : Disk) (w : Wal.WriteAheadLog) (e : StorageEngine) : StorageEngine := {|
  log_disk := d; log := w; checkpoint_disk := checkpoint_disk e; checkpoints := checkpoints e;
  settings := settings e; databases := databases e; closed := closed e; lastCheckpoint := lastCheckpoint e;
  bytesSinceCheckpoint := bytesSinceCheckpoint e; nextCheckpointAt := nextCheckpointAt e;
  checkpointFailure := checkpointFailure e; activeCheckpoint := activeCheckpoint e;
  rejections := rejections e; report := report e |}.

Definition set_checkpoint_disk (d : Disk) (e : StorageEngine) : StorageEngine := {|
  log_disk := log_disk e; log := log e; checkpoint_disk := d; checkpoints := checkpoints e;
  settings := settings e; databases := databases e; closed := closed e; lastCheckpoint := lastCheckpoint e;
  bytesSinceCheckpoint := bytesSinceCheckpoint e; nextCheckpointAt := nextCheckpointAt e;
  checkpointFailure := checkpointFailure e; activeCheckpoint := activeCheckpoint e;
  rejections := rejections e; report := report e |}.

Definition set_databases (l : Databases (InMemoryCollection ())) (e : StorageEngine) : StorageEngine := {|
  log_disk := log_disk e; log := log e; checkpoint_disk := checkpoint_disk e; checkpoints := checkpoints e;
  settings := settings e; databases := l; closed := closed e; lastCheckpoint := lastCheckpoint e;
  bytesSinceCheckpoint := bytesSinceCheckpoint e; nextCheckpointAt := nextCheckpointAt e;
  checkpointFailure := checkpointFailure e; activeCheckpoint := activeCheckpoint e;
  rejections := rejections e; report := report e |}.

Definition set_closed (e : StorageEngine) : StorageEngine := {|
  log_disk := log_disk e; log := log e; checkpoint_disk := checkpoint_disk e; checkpoints := checkpoints e;
  settings := settings e; databases := databases e; closed := true; lastCheckpoint := lastCheckpoint e;
  bytesSinceCheckpoint := bytesSinceCheckpoint e; nextCheckpointAt := nextCheckpointAt e;
  checkpointFailure := checkpointFailure e; activeCheckpoint := activeCheckpoint e;
  rejections := rejections e; report := report e |}.

(** The fields that say when the next checkpoint is due. *)
Definition set_schedule (last bytes next : Z) (failure : option exn) (e : StorageEngine) : StorageEngine := {|
  log_disk := log_disk e; log := log e; checkpoint_disk := checkpoint_disk e; checkpoints := checkpoints e;
  settings := settings e; databases := databases e; closed := closed e; lastCheckpoint := last;
  bytesSinceCheckpoint := bytes; nextCheckpointAt := next;
  checkpointFailure := failure; activeCheckpoint := activeCheckpoint e;
  rejections := rejections e; report := report e |}.

Definition set_active (active : option ActiveCheckpoint) (e : StorageEngine) : StorageEngine := {|
  log_disk := log_disk e; log := log e; checkpoint_disk := checkpoint_disk e; checkpoints := checkpoints e;
  settings := settings e; databases := databases e; closed := closed e; lastCheckpoint := lastCheckpoint e;
  bytesSinceCheckpoint := bytesSinceCheckpoint e; nextCheckpointAt := nextCheckpointAt e;
  checkpointFailure := checkpointFailure e; activeCheckpoint := active;
  rejections := rejections e; report := report e |}.

Definition set_rejections (l : list (Origin * exn)) (e : StorageEngine) : StorageEngine := {|
  log_disk := log_disk e; log := log e; checkpoint_disk := checkpoint_disk e; checkpoints := checkpoints e;
  settings := settings e; databases := databases e; closed := closed e; lastCheckpoint := lastCheckpoint e;
  bytesSinceCheckpoint := bytesSinceCheckpoint e; nextCheckpointAt := nextCheckpointAt e;
  checkpointFailure := checkpointFailure e; activeCheckpoint := activeCheckpoint e;
  rejections := l; report := report e |}.

Definition set_report (r : RecoveryReport) (e : StorageEngine) : StorageEngine := {|
  log_disk := log_disk e; log := log e; checkpoint_disk := checkpoint_disk e; checkpoints := checkpoints e;
  settings := settings e; databases := databases e; closed := closed e; lastCheckpoint := lastCheckpoint e;
  bytesSinceCheckpoint := bytesSinceCheckpoint e; nextCheckpointAt := nextCheckpointAt e;
  checkpointFailure := checkpointFailure e; activeCheckpoint := activeCheckpoint e;
  rejections := rejections e; report := r |}.

(** What the log does, and what is done with the snapshots. *)
Definition on_log {A} (m : ST (Disk * Wal.WriteAheadLog) exn A) : action A :=
  λ e, match m (log_disk e, log e) with (r, (d, w)) => (r, set_log d w e) end.

Definition on_checkpoints {A} (m : ST Disk exn A) : action A :=
  λ e, let (r, d) := m (checkpoint_disk e) in (r, set_checkpoint_disk d e).

Definition this {A} (f : StorageEngine → A) : action A := st_get f.
Definition update (f : StorageEngine → StorageEngine) : action () := st_update f.

Definition lastLsn (e : StorageEngine) : Z := Wal.nextLsn (log e) - 1.

(** ** Operations of the log, from those of a collection *)
Definition toOperation (database collection : jsstring) (operation : JournalOperation) : Operation :=
  match operation with
  | Coll.OpPut key document => OpPutDocument database collection (Snapshot.from_hex key) document
  | Coll.OpDelete key => OpDeleteDocument database collection (Snapshot.from_hex key)
  | Coll.OpCreateIndex spec => OpCreateIndexOn database collection spec
  | Coll.OpDropIndex name => OpDropIndexOn database collection name
  end.

(** ** Looking up *)
Definition lookup {A} (l : Databases A) (database collection : jsstring) : option A :=
  match omap_get l database with Some collections => omap_get collections collection | None => None end.

(** [databases.get(database)], made when it is not there, and [set(collection, a)]. *)
Definition insert {A} (l : Databases A) (database collection : jsstring) (a : A) : Databases A :=
  omap_set l database (omap_set (default [] (omap_get l database)) collection a).

Definition listDatabases (e : StorageEngine) : list jsstring :=
  sort_by (λ a b, sign_of (string_cmp a b)) (omap_keys (databases e)).

Definition listCollections (database : jsstring) (e : StorageEngine) : list jsstring :=
  sort_by (λ a b, sign_of (string_cmp a b)) (omap_keys (default [] (omap_get (databases e) database))).

Definition getCollection (e : StorageEngine) (database collection : jsstring)
    : option (InMemoryCollection ()) :=
  lookup (databases e) database collection.

Definition each {A B} (f : jsstring → jsstring → A → B) (l : Databases A) : list B :=
  flat_map (λ d : jsstring * list (jsstring * A), map (λ c : jsstring * A, f d.1 c.1 c.2) d.2) l.

(** What a snapshot of the engine must contain. [building] is an index that
    [createIndex] has built and not recorded yet: the collection has it already
    when the journal of its creation is called. *)
Definition snapshot_collection (building : option (jsstring * jsstring * IndexSpec))
    (database collection : jsstring) (store : InMemoryCollection ()) : Snapshot.CheckpointCollection := {|
  Snapshot.database := database;
  Snapshot.collection := collection;
  Snapshot.documents := Coll.documents store;
  Snapshot.documentCount := Coll.documentCount store;
  Snapshot.indexes := IndexSet.specs (Coll.indexes store)
    ++ match building with
       | Some (d, c, spec) => if decide (d = database ∧ c = collection) then [spec] else []
       | None => []
       end;
|}.

Section Engine.
Context (osL osC : Z → Call → Outcome).

(** ** Checkpoints *)
Definition assertOpen : action () :=
  b ← this closed; if b : bool then st_throw (StorageError Closed) else mret ().

(** [abort] of the active checkpoint, if there is one. *)
Definition abort : action () :=
  active ← this activeCheckpoint;
  match active with
  | None => mret ()
  | Some a =>
      _ ← update (set_active (Some {| active_begun := active_begun a; active_steps := Snapshot.Ended;
                                      active_origin := active_origin a; aborted := true |}));
      on_checkpoints (Snapshot.return_ osC (active_steps a))
  end.

Definition beginCheckpoint (building : option (jsstring * jsstring * IndexSpec)) : action (option BegunCheckpoint) :=
  lsn ← this lastLsn;
  last ← this lastCheckpoint;
  if (lsn =? 0) || (lsn =? last) then mret None
  else
    _ ← on_log (Wal.sync osL);
    collections ← this (λ e, each (snapshot_collection building) (databases e));
    bytes ← this bytesSinceCheckpoint;
    mret (Some {| begun_lsn := lsn; begun_collections := collections;
                  begun_documents := fold_left (λ n c, n + Snapshot.documentCount c) collections 0;
                  begun_bytes := bytes |}).

Definition stage (s : Snapshot.CheckpointStage) : action () :=
  f ← this (λ e, onCheckpointStage (settings e)); st_lift (f s).

(** [throw translateIo(...)]. *)
Definition or_translateIo {A} (m : action A) : action A :=
  st_catch m (λ error, st_throw (translateIo error)).

Definition finishCheckpoint (begun : BegunCheckpoint) (file : jsstring) : action (option CheckpointResult) :=
  b ← this closed;
  if b : bool then mret None
  else
    directory ← this checkpoints;
    retention ← this (λ e, checkpointRetention (settings e));
    snapshots ← on_checkpoints (Snapshot.listCheckpoints osC directory);
    removedSnapshots ← st_fold (λ old removed,
      _ ← or_translateIo (on_checkpoints (unlinkSync osC (Snapshot.file_path old)));
      mret (removed + 1)) (drop (Z.to_nat retention) snapshots) 0;
    _ ← stage Snapshot.SnapshotsPruned;
    removedSegments ←
      match snapshots !! Z.to_nat (retention - 1) with
      | None => mret 0
      | Some oldestKept => on_log (Wal.truncateThrough osL (Snapshot.file_lsn oldestKept))
      end;
    _ ← stage Snapshot.LogTruncated;
    _ ← update (λ e, set_schedule (begun_lsn begun) (Z.max 0 (bytesSinceCheckpoint e - begun_bytes begun))
                       (checkpointThresholdBytes (settings e)) None e);
    mret (Some {| result_lsn := begun_lsn begun; result_file := file;
                  result_collections := len (begun_collections begun);
                  result_documents := begun_documents begun;
                  removedSnapshots := removedSnapshots; removedSegments := removedSegments |}).

Definition checkpoint_with (building : option (jsstring * jsstring * IndexSpec))
    : action (option CheckpointResult) :=
  _ ← assertOpen;
  _ ← abort;
  begun ← beginCheckpoint building;
  match begun with
  | None => mret None
  | Some begun =>
      directory ← this checkpoints;
      onStage ← this (λ e, onCheckpointStage (settings e));
      file ← or_translateIo (on_checkpoints
        (Snapshot.writeCheckpoint osC onStage directory (begun_lsn begun) (begun_collections begun)));
      finishCheckpoint begun file
  end.

Definition checkpoint : action (option CheckpointResult) := checkpoint_with None.

(** One turn of the loop of [run]: to the next pause of the generator, to the end,
    or to the rejection of the promise. *)
Definition turn (a : ActiveCheckpoint) : action () :=
  onStage ← this (λ e, onCheckpointStage (settings e));
  st_catch
    (step ← or_translateIo (on_checkpoints (Snapshot.next osC onStage (active_steps a)));
     match step with
     | inl steps =>
         update (set_active (Some {| active_begun := active_begun a; active_steps := steps;
                                     active_origin := active_origin a; aborted := aborted a |}))
     | inr file => _ ← finishCheckpoint (active_begun a) file; update (set_active None)
     end)
    (λ error, update (λ e, set_active None (set_rejections (rejections e ++ [(active_origin a, error)]) e))).

(** The promise that it returns is the active checkpoint; here it returns whether
    that is a new one. *)
Definition checkpointAsync_with (building : option (jsstring * jsstring * IndexSpec)) (origin : Origin)
    : action bool :=
  _ ← assertOpen;
  active ← this activeCheckpoint;
  match active with
  | Some _ => mret false
  | None =>
      begun ← beginCheckpoint building;
      match begun with
      | None => mret false
      | Some begun =>
          directory ← this checkpoints;
          let a := {| active_begun := begun;
                      active_steps := Snapshot.NotBegun directory (begun_lsn begun) (begun_collections begun);
                      active_origin := origin; aborted := false |} in
          _ ← update (set_active (Some a));
          _ ← turn a;
          mret true
      end
  end.

Definition checkpointAsync : action bool := checkpointAsync_with None Caller.

(** The callback of [setImmediate], and what follows it in [run]. *)
Definition tick : action () :=
  active ← this activeCheckpoint;
  match active with
  | None => mret ()
  | Some a => if aborted a then update (set_active None) else turn a
  end.

(** The [failed] of [runAutomaticCheckpoint]. *)
Definition failed (error : exn) : action () :=
  update (λ e, set_schedule (lastCheckpoint e) (bytesSinceCheckpoint e)
                 (bytesSinceCheckpoint e + checkpointThresholdBytes (settings e)) (Some error) e).

(** The handlers of the promises that were rejected. *)
Definition settle : action () :=
  l ← this rejections;
  _ ← update (set_rejections []);
  st_each (λ r : Origin * exn,
    match r.1 with
    | Automatic => failed r.2
    | Timer => update (λ e, set_schedule (lastCheckpoint e) (bytesSinceCheckpoint e) (nextCheckpointAt e) (Some r.2) e)
    | Caller => mret ()
    end) l.

Definition runAutomaticCheckpoint (building : option (jsstring * jsstring * IndexSpec)) : action () :=
  background ← this (λ e, backgroundCheckpoints (settings e));
  st_catch
    (if background : bool then _ ← checkpointAsync_with building Automatic; mret ()
     else _ ← checkpoint_with building; mret ())
    failed.

Definition runDueCheckpoint (building : option (jsstring * jsstring * IndexSpec)) : action () :=
  bytes ← this bytesSinceCheckpoint;
  next ← this nextCheckpointAt;
  active ← this activeCheckpoint;
  match active with
  | Some _ => mret ()
  | None => if bytes <? next then mret () else runAutomaticCheckpoint building
  end.

(** ** Appending *)
Definition append (building : option (jsstring * jsstring * IndexSpec)) (operations : list Operation) : action () :=
  _ ← assertOpen;
  _ ← runDueCheckpoint building;
  st_catch
    (payload ← st_lift (encodeOperations operations);
     _ ← on_log (Wal.append osL RecordType_Transaction payload);
     update (λ e, set_schedule (lastCheckpoint e)
                    (bytesSinceCheckpoint e + (WalFormat.RECORD_HEADER_SIZE + len payload))
                    (nextCheckpointAt e) (checkpointFailure e) e))
    (λ error, match error with
              | RangeError => st_throw (StorageError InvalidBatch)
              | error => st_throw error
              end).

(** The journal that [register] gives to a collection. *)
Definition journal (database collection : jsstring) (operations : list JournalOperation) : action () :=
  let building :=
    match operations with
    | [Coll.OpCreateIndex spec] => Some (database, collection, spec)
    | _ => None
    end in
  append building (map (toOperation database collection) operations).

(** A collection with another state of its journal. *)
Definition with_journal {J J'} (s : J') (c : InMemoryCollection J) : InMemoryCollection J' := {|
  Coll.documents := Coll.documents c; Coll.journalState := s; Coll.indexes := Coll.indexes c;
  Coll.sequence := Coll.sequence c; Coll.nextSequence := Coll.nextSequence c |}.

Definition register (database collection : jsstring) (documents : list (jsstring * bytes))
    (indexes : list IndexSpec) : action () :=
  let (r, created) := Coll.new () documents indexes in
  _ ← st_lift r;
  update (λ e, set_databases (insert (databases e) database collection created) e).

Definition openCollection (database collection : jsstring) : action () :=
  existing ← this (λ e, getCollection e database collection);
  match existing with
  | Some _ => mret ()
  | None =>
      _ ← append None [OpCreateCollection database collection];
      register database collection [] []
  end.

(** A command on a collection that [getCollection] or [openCollection] returned. *)
Definition run (database collection : jsstring) (command : Command) : action Answer := λ e,
  match getCollection e database collection with
  | None => (Throw TypeError, e)
  | Some c =>
      let (r, c') := CollectionModel.run (Some (journal database collection)) command (with_journal e c) in
      let e' := Coll.journalState c' in
      (r, set_databases (insert (databases e') database collection (with_journal () c')) e')
  end.

Definition validateIndexes (e : StorageEngine) : result (list (jsstring * jsstring * Coll.IndexValidationReport)) :=
  mapM (λ entry : jsstring * jsstring * InMemoryCollection (),
    r ← Coll.validateIndexes entry.2; Ok (entry.1, r))
    (each (λ d c store, (d, c, store)) (databases e)).

(** ** Timers, committing and closing *)
Definition commit : action () :=
  b ← this closed; if b : bool then mret () else on_log (Wal.commit osL).

(** The callbacks of the two timers; closing the engine stops them. *)
Definition flushTimer : action () :=
  b ← this closed;
  if b : bool then mret () else st_catch (on_log (Wal.flush osL)) (λ _, mret ()).

Definition checkpointTimer : action () :=
  b ← this closed;
  active ← this activeCheckpoint;
  match (b : bool), active with
  | false, None =>
      background ← this (λ e, backgroundCheckpoints (settings e));
      st_catch
        (if background : bool then _ ← checkpointAsync_with None Timer; mret ()
         else _ ← checkpoint; mret ())
        (λ error, update (λ e, set_schedule (lastCheckpoint e) (bytesSinceCheckpoint e) (nextCheckpointAt e) (Some error) e))
  | _, _ => mret ()
  end.

Definition hasUncommittedWrites (e : StorageEngine) : bool := negb (closed e) && Wal.unsynced (log e).

Definition close : action () :=
  b ← this closed;
  if b : bool then mret ()
  else
    _ ← abort;
    due ← this (λ e, checkpointOnClose (settings e) && (lastCheckpoint e <? lastLsn e));
    failure ← (if due : bool then st_catch (_ ← checkpoint; mret None) (λ error, mret (Some error)) else mret None);
    _ ← update set_closed;
    failure ← st_catch (_ ← on_log (Wal.close osL); mret failure)
                (λ error, mret (Some (default error failure)));
    match failure with Some error => st_throw error | None => mret () end.

(** ** Recovery *)
Definition corrupt : exn := StorageError Corruption.

Definition find_index (name : jsstring) (l : list IndexSpec) : option IndexSpec :=
  head (List.filter (λ index, bool_decide (Spec.name index = name)) l).

(** [state.indexes.splice(position, 1)] at the first index of that name. *)
Fixpoint splice_index (name : jsstring) (l : list IndexSpec) : list IndexSpec :=
  match l with
  | [] => []
  | index :: l => if decide (Spec.name index = name) then l else index :: splice_index name l
  end.

(** What an operation other than [createCollection] does to a collection. *)
Definition applyOperation (operation : Operation) (state : RecoveredState) : result RecoveredState :=
  match operation with
  | OpCreateCollection _ _ => Ok state
  | OpCreateIndexOn _ _ index =>
      match find_index (Spec.name index) (recovered_indexes state) with
      | None => Ok {| recovered_documents := recovered_documents state;
                      recovered_indexes := recovered_indexes state ++ [index] |}
      | Some existing => if sameDefinition existing index then Ok state else Throw corrupt
      end
  | OpDropIndexOn _ _ name =>
      match find_index name (recovered_indexes state) with
      | None => Throw corrupt
      | Some _ => Ok {| recovered_documents := recovered_documents state;
                        recovered_indexes := splice_index name (recovered_indexes state) |}
      end
  | OpPutDocument _ _ i document =>
      Ok {| recovered_documents := omap_set (recovered_documents state) (CustomId.toHexString i) document;
            recovered_indexes := recovered_indexes state |}
  | OpDeleteDocument _ _ i =>
      Ok {| recovered_documents := omap_delete (recovered_documents state) (CustomId.toHexString i);
            recovered_indexes := recovered_indexes state |}
  end.

Definition target (operation : Operation) : jsstring * jsstring :=
  match operation with
  | OpCreateCollection d c | OpPutDocument d c _ _ | OpDeleteDocument d c _
  | OpCreateIndexOn d c _ | OpDropIndexOn d c _ => (d, c)
  end.

Definition applyRecovered (recovered : Databases RecoveredState) (operation : Operation)
    : result (Databases RecoveredState) :=
  let (database, collection) := target operation in
  match operation, lookup recovered database collection with
  | OpCreateCollection _ _, Some _ => Ok recovered
  | OpCreateCollection _ _, None =>
      Ok (insert recovered database collection {| recovered_documents := []; recovered_indexes := [] |})
  | _, None => Throw corrupt
  | _, Some state =>
      state ← applyOperation operation state;
      Ok (insert recovered database collection state)
  end.

(** A record of the log. *)
Definition applyRecord (recovered : Databases RecoveredState) (record : Wal.WalRecord)
    : result (Databases RecoveredState) :=
  if negb (Wal.type record =? RecordType_Transaction) then Throw corrupt
  else
    operations ← catch (decodeOperations (Wal.payload record)) (λ _, Throw corrupt);
    foldM (λ operation recovered, applyRecovered recovered operation) operations recovered.

(** The newest snapshot that can be used, its file name, and those that were
    skipped before it. *)
Fixpoint find_base (candidates : list Snapshot.CheckpointFile) (skipped : list jsstring)
    : ST Disk exn (option (Snapshot.ReadCheckpoint * jsstring) * list jsstring) :=
  match candidates with
  | [] => mret (None, skipped)
  | candidate :: candidates =>
      base ← st_catch
        (base ← Snapshot.readCheckpoint osC (Snapshot.file_path candidate);
         if negb (Snapshot.checkpoint_lsn base =? Snapshot.file_lsn candidate)
         then st_throw CheckpointDamaged else mret (Some base))
        (λ _, mret None);
      match base with
      | Some base => mret (Some (base, Snapshot.file_name candidate), skipped)
      | None => find_base candidates (skipped ++ [Snapshot.file_name candidate])
      end
  end.

Definition recovered_base (base : option Snapshot.ReadCheckpoint) : Databases RecoveredState :=
  fold_left (λ recovered entry,
    insert recovered (Snapshot.recovered_database entry) (Snapshot.recovered_collection entry)
      {| recovered_documents := Snapshot.recovered_documents entry;
         recovered_indexes := Snapshot.recovered_indexes entry |})
    (match base with Some base => Snapshot.collections base | None => [] end) [].

Definition recover : action () :=
  directory ← this checkpoints;
  _ ← on_checkpoints (Snapshot.removeTemporaryCheckpoints osC directory);
  candidates ← on_checkpoints (Snapshot.listCheckpoints osC directory);
  '(base, skipped) ← on_checkpoints (find_base candidates []);
  let baseLsn := match base with Some (base, _) => Snapshot.checkpoint_lsn base | None => 0 end in
  first ← this (λ e, default 0 (Wal.first_lsn (log e)));
  last ← this lastLsn;
  if baseLsn + 1 <? first then st_throw (StorageError Corruption)
  else if last <? baseLsn then st_throw (StorageError Corruption)
  else
    records ← on_log (Wal.records osL baseLsn);
    _ ← update (λ e, set_schedule (lastCheckpoint e)
      (fold_left (λ n record, n + (WalFormat.RECORD_HEADER_SIZE + len (Wal.payload record))) records
         (bytesSinceCheckpoint e)) (nextCheckpointAt e) (checkpointFailure e) e);
    recovered ← st_lift (foldM (λ record recovered, applyRecord recovered record) records
      (recovered_base (fst <$> base)));
    let entries := each (λ d c state, (d, c, state)) recovered in
    _ ← st_each (λ entry : jsstring * jsstring * RecoveredState,
      let '(database, collection, state) := entry in
      st_catch (register database collection (recovered_documents state) (recovered_indexes state))
        (λ error, if isStorageError error then st_throw (StorageError Corruption) else st_throw error))
      entries;
    _ ← update (λ e, set_schedule baseLsn (bytesSinceCheckpoint e) (nextCheckpointAt e) (checkpointFailure e) e);
    update (λ e, set_report {|
      checkpointLsn := baseLsn; checkpointFile := snd <$> base; skippedCheckpoints := skipped;
      replayedRecords := len records;
      rebuiltIndexes := fold_left (λ n (entry : jsstring * jsstring * RecoveredState),
        n + len (recovered_indexes entry.2)) entries 0;
      report_lastLsn := last |} e).

(** ** Opening *)
Definition no_report : RecoveryReport := {|
  checkpointLsn := 0; checkpointFile := None; skippedCheckpoints := []; replayedRecords := 0;
  rebuiltIndexes := 0; report_lastLsn := 0 |}.

(** The checks of the options. *)
Definition read_settings (options : StorageEngineOptions) : result Settings :=
  let threshold := default (number_of_Z DEFAULT_CHECKPOINT_THRESHOLD_BYTES) (opt_checkpointThresholdBytes options) in
  let flushInterval := default (number_of_Z DEFAULT_MEMORY_FLUSH_INTERVAL_MS) (opt_memoryFlushIntervalMs options) in
  let retention := default (number_of_Z DEFAULT_CHECKPOINT_RETENTION) (opt_checkpointRetention options) in
  let outside (least : Z) (value : number) := negb (isSafeInteger value) || (Z_of_number value <? least) in
  if outside 1 threshold then Throw TypeError
  else if outside 1 flushInterval then Throw TypeError
  else if outside 2 retention then Throw TypeError
  else if match opt_checkpointIntervalMs options with Some interval => outside 1 interval | None => false end
  then Throw TypeError
  else Ok {|
    checkpointThresholdBytes := Z_of_number threshold;
    checkpointRetention := Z_of_number retention;
    checkpointOnClose := default true (opt_checkpointOnClose options);
    backgroundCheckpoints := default false (opt_backgroundCheckpoints options);
    onCheckpointStage := default (λ _, Ok ()) (opt_onCheckpointStage options) |}.

(** The constructor. *)
Definition new_engine (d : Disk) (w : Wal.WriteAheadLog) (dc : Disk) (directory : jsstring) (s : Settings)
    : StorageEngine := {|
  log_disk := d; log := w; checkpoint_disk := dc; checkpoints := directory; settings := s; databases := [];
  closed := false; lastCheckpoint := 0; bytesSinceCheckpoint := 0;
  nextCheckpointAt := checkpointThresholdBytes s; checkpointFailure := None; activeCheckpoint := None;
  rejections := []; report := no_report |}.

(** [open], without the lock of the directory and its manifest: the engine, or the
    error and the disks. *)
Definition open (options : StorageEngineOptions) (d dc : Disk) : StorageEngine + exn * (Disk * Disk) :=
  match read_settings options with
  | Throw error => inr (error, (d, dc))
  | Ok settings =>
      match Wal.open osL (opt_log options) d with
      | (Throw error, d) => inr (error, (d, dc))
      | (Ok w, d) =>
          match recover (new_engine d w dc (opt_checkpoints options) settings) with
          | (Ok _, e) => inl e
          | (Throw error, e) =>
              let (r, s) := Wal.close osL (log_disk e, log e) in
              inr (match r with Ok _ => error | Throw error' => error' end, (s.1, checkpoint_disk e))
          end
      end
  end.
End Engine.
End Engine.
