(* ===== verification/EngineReplay.v ===== *)
(** * The storage engine: replaying the log

    What the transactions of a log make of the collections of an engine, and that
    a transaction which a collection records does to it, when it is replayed, what
    the collection promises. *)

From stdpp Require Import gmap.
From S2P Require Import Prelude Errors JsNumber JsString JsValue Binary CustomId Codec Roundtrip FilterSpec Update FieldIndex IndexSpec IndexSet IndexSetSpec WalFormat Disk WriteAheadLog Operations Checkpoint CheckpointWrite CheckpointRead Stored Collection CollectionLemmas CollectionChanges CollectionSpec CollectionIndexes CollectionModel Engine.
Import Spec Operations.Operations Engine.Engine.

Abbreviation State := (Databases RecoveredState).

Definition of_contents (a : contents) : RecoveredState :=
  {| recovered_documents := a.1; recovered_indexes := a.2 |}.

Definition to_contents (s : RecoveredState) : contents := (recovered_documents s, recovered_indexes s).

Lemma of_to_contents s : of_contents (to_contents s) = s.
Proof. by destruct s. Qed.

(** A transaction, and the transactions of a log. *)
Definition apply_all (operations : list Operation) (s : State) : result State :=
  foldM (λ operation s, applyRecovered s operation) operations s.

Definition replay_all (history : list (list Operation)) (s : State) : result State :=
  foldM apply_all history s.

Lemma replay_snoc history t s :
  replay_all (history ++ [t]) s = (s ← replay_all history s; apply_all t s).
Proof.
  unfold replay_all. rewrite foldM_app. apply bind_ext. intros s'. cbn. by destruct (apply_all t s').
Qed.

(** ** Databases *)
Section Databases.
Context {A : Type}.
Implicit Types l : Databases A.

Lemma lookup_insert l d c a : lookup (insert l d c a) d c = Some a.
Proof. unfold lookup, insert. by rewrite !omap_get_set. Qed.

Lemma lookup_insert_ne l d c a d' c' : (d, c) ≠ (d', c') → lookup (insert l d c a) d' c' = lookup l d' c'.
Proof.
  intros Hne. unfold lookup, insert. destruct (decide (d = d')) as [<-|Hd].
  - rewrite omap_get_set. rewrite omap_get_set_ne by congruence. by destruct (omap_get l d).
  - by rewrite omap_get_set_ne.
Qed.

Lemma insert_same l d c a : lookup l d c = Some a → insert l d c a = l.
Proof.
  unfold lookup, insert. destruct (omap_get l d) as [cs|] eqn:E; [|done]. cbn. intros H.
  rewrite (omap_set_same cs c a H). by apply omap_set_same.
Qed.

Lemma insert_insert l d c a b : insert (insert l d c a) d c b = insert l d c b.
Proof. unfold insert. rewrite omap_get_set. cbn. by rewrite !omap_set_set. Qed.
End Databases.

(** A value in place of each. *)
Definition map_databases {A B} (f : A → B) (l : Databases A) : Databases B :=
  map (λ d : jsstring * list (jsstring * A), (d.1, map (λ c : jsstring * A, (c.1, f c.2)) d.2)) l.

Lemma omap_get_map {A B} (f : A → B) (m : list (jsstring * A)) k :
  omap_get (map (λ c : jsstring * A, (c.1, f c.2)) m) k = f <$> omap_get m k.
Proof. induction m as [|[k' a] m IH]; [done|]. cbn. by case_decide. Qed.

Lemma omap_map_set {A B} (f : A → B) (m : list (jsstring * A)) k a :
  map (λ c : jsstring * A, (c.1, f c.2)) (omap_set m k a) = omap_set (map (λ c : jsstring * A, (c.1, f c.2)) m) k (f a).
Proof. induction m as [|[k' b] m IH]; [done|]. cbn. case_decide; [done|]. cbn. by rewrite IH. Qed.

Lemma lookup_map {A B} (f : A → B) l d c : lookup (map_databases f l) d c = f <$> lookup l d c.
Proof.
  unfold lookup, map_databases.
  rewrite (omap_get_map (λ cs, map (λ c : jsstring * A, (c.1, f c.2)) cs)).
  destruct (omap_get l d) as [cs|]; [|done]. apply omap_get_map.
Qed.

Lemma insert_map {A B} (f : A → B) l d c a :
  map_databases f (insert l d c a) = insert (map_databases f l) d c (f a).
Proof.
  unfold insert, map_databases. rewrite (omap_map_set (λ cs, map (λ c : jsstring * A, (c.1, f c.2)) cs)).
  rewrite (omap_get_map (λ cs, map (λ c : jsstring * A, (c.1, f c.2)) cs)), omap_map_set.
  by destruct (omap_get l d).
Qed.

(** ** Good states *)

(** Contents that a collection can be opened with, and that the files hold. *)
Record good_contents (a : contents) : Prop := {
  good_openable : openable a;
  good_specs : specs_ok a.2;
  good_plain : Forall plain_spec a.2;
}.

Record good_collections (cs : list (jsstring * RecoveredState)) : Prop := {
  collections_some : cs ≠ [];
  collections_nodup : NoDup (omap_keys cs);
  collections_good : Forall (λ c, plain c.1 ∧ good_contents (to_contents c.2)) cs;
}.

Record good (s : State) : Prop := {
  good_nodup : NoDup (omap_keys s);
  good_databases : Forall (λ d, plain d.1 ∧ good_collections d.2) s;
}.

Lemma good_nil : good [].
Proof. split; constructor. Qed.

Lemma good_empty : good_contents ([], []).
Proof.
  split; [|by split; [constructor..|]|constructor]. exists []. split; [done|]. split; [by split; constructor|].
  split; [done|constructor].
Qed.

Lemma Forall_set {B} (P : jsstring * B → Prop) (m : list (jsstring * B)) k b :
  Forall P m → P (k, b) → Forall P (omap_set m k b).
Proof.
  intros Hm Hb. induction Hm as [|[k' b'] m Hx Hm IH]; cbn; [by constructor|]. case_decide; [|by constructor].
  subst. by constructor.
Qed.

Lemma good_insert s d c a :
  good s → plain d → plain c → good_contents (to_contents a) → good (insert s d c a).
Proof.
  intros [Hn Hs] Hd Hc Ha. unfold insert. split; [by apply omap_set_NoDup|].
  apply Forall_set; [done|]. split; [done|]. cbn [snd].
  destruct (omap_get s d) as [cs|] eqn:E; cbn [default].
  - apply omap_get_Some_in in E. rewrite Forall_forall in Hs. destruct (Hs _ E) as [_ [_ Hcn Hcg]].
    split; [|by apply omap_set_NoDup|by apply Forall_set]. destruct cs as [|[]]; [done|]. cbn. by case_decide.
  - cbn. split; [done|apply NoDup_singleton|]. by constructor.
Qed.

Lemma good_lookup s d c a :
  good s → lookup s d c = Some a → plain d ∧ plain c ∧ good_contents (to_contents a).
Proof.
  intros [_ Hs]. unfold lookup. destruct (omap_get s d) as [cs|] eqn:E; [|done].
  intros Ea%omap_get_Some_in. apply omap_get_Some_in in E. rewrite Forall_forall in Hs.
  destruct (Hs _ E) as [Hd [_ _ Hg]]. rewrite Forall_forall in Hg. by destruct (Hg _ Ea).
Qed.

(** ** Transactions of a collection *)
Lemma hex_back i : wf_value (VId i) = true → Snapshot.from_hex (CustomId.toHexString i) = i.
Proof. cbn [wf_value]. intros [Hb%bytes_wf _]%andb_true_iff. by apply from_hex_key. Qed.

Lemma entry_id kd : entry_ok kd → ∃ i, wf_value (VId i) = true ∧ kd.1 = CustomId.toHexString i.
Proof.
  intros (Hs & i & Hi & Hk). exists i. split; [|exact Hk].
  eapply wf_document_get; [|exact Hi]. apply Hs.
Qed.

Lemma find_index_none name (l : list IndexSpec) : (name ∉ map Spec.name l) → find_index name l = None.
Proof.
  unfold find_index. induction l as [|x l IH]; [done|]. cbn [map List.filter]. intros [H1 H2]%not_elem_of_cons.
  rewrite bool_decide_eq_false_2 by done. by apply IH.
Qed.

Lemma find_index_some name (l : list IndexSpec) : name ∈ map Spec.name l → is_Some (find_index name l).
Proof.
  unfold find_index. induction l as [|x l IH]; [by intros ?%not_elem_of_nil|]. cbn [map List.filter].
  case_bool_decide as E; [by eexists|]. intros [->|Hin]%elem_of_cons; [done|]. by apply IH.
Qed.

Lemma splice_without name (l : list IndexSpec) :
  NoDup (map Spec.name l) → splice_index name l = without_index name l.
Proof.
  induction l as [|x l IH]; [done|]. cbn [map splice_index without_index List.filter]. intros [Hx Hl]%NoDup_cons.
  unfold without_index. cbn [List.filter]. case_decide as E.
  - rewrite bool_decide_eq_true_2 by done. cbn. symmetry. apply filter_all. intros y Hy.
    apply negb_true_iff, bool_decide_eq_false. intros Ey. apply Hx. rewrite E, <- Ey. by apply list_elem_of_fmap_2.
  - rewrite bool_decide_eq_false_2 by done. cbn. f_equal. by apply IH.
Qed.

Lemma applyRecovered_found s op db coll st :
  target op = (db, coll) → lookup s db coll = Some st → (∀ d c, op ≠ OpCreateCollection d c) →
  applyRecovered s op = (st ← applyOperation op st; Ok (insert s db coll st)).
Proof. intros Et Hl Hne. unfold applyRecovered. rewrite Et, Hl. destruct op; try done. exfalso. by eapply Hne. Qed.

(** The ids and documents of an operation are bytes. *)
Definition byte_operation (operation : Operation) : Prop :=
  match operation with
  | OpPutDocument _ _ i document => Forall is_byte i ∧ Forall is_byte document
  | OpDeleteDocument _ _ i => Forall is_byte i
  | _ => True
  end.

Definition recordable (operation : Operation) : Prop := plain_operation operation ∧ byte_operation operation.

Lemma encodeOperation_bytes operation bs :
  encodeOperation operation = Ok bs → recordable operation → Forall is_byte bs.
Proof.
  intros He [Hp Hb].
  assert (∀ kind db coll head, encodeHead kind db coll = Ok head → plain db → plain coll → is_byte kind →
    Forall is_byte head) as Hhead.
  { intros kind db coll head (b1 & b2 & E1 & E2 & ->)%encodeHead_inv P1 P2 Hk. constructor; [done|].
    apply Forall_app. split; by eapply encodeName_bytes. }
  destruct operation as [db coll|db coll i document|db coll i|db coll index|db coll name]; cbn [encodeOperation] in He;
    cbn [plain_operation byte_operation] in Hp, Hb.
  - destruct Hp. by eapply Hhead.
  - apply bind_Ok_inv in He as (head & Eh & He). apply bind_Ok_inv in He as (b & [-> _]%encodeId_inv & He).
    apply bind_Ok_inv in He as (b' & Eb & He). apply Ok_inj in He as <-. unfold encodeBytes in Eb.
    apply bind_Ok_inv in Eb as (l & [-> _]%uint32_inv & <-%Ok_inj). destruct Hp, Hb.
    rewrite !Forall_app. split; [by eapply Hhead|]. split; [done|]. split; [apply be_bytes|done].
  - apply bind_Ok_inv in He as (head & Eh & He). apply bind_Ok_inv in He as (b & [-> _]%encodeId_inv & He).
    apply Ok_inj in He as <-. destruct Hp. rewrite Forall_app. split; [by eapply Hhead|done].
  - apply bind_Ok_inv in He as (head & Eh & He). apply bind_Ok_inv in He as (b & Eb & He). apply Ok_inj in He as <-.
    destruct Hp as (P1 & P2 & P3). rewrite Forall_app. split; [by eapply Hhead|]. by eapply encodeIndexSpec_bytes.
  - apply bind_Ok_inv in He as (head & Eh & He). apply bind_Ok_inv in He as (b & Eb & He). apply Ok_inj in He as <-.
    destruct Hp as (P1 & P2 & P3). rewrite Forall_app. split; [by eapply Hhead|]. by eapply encodeName_bytes.
Qed.

Lemma encodeOperations_bytes operations bs :
  encodeOperations operations = Ok bs → Forall recordable operations → Forall is_byte bs.
Proof.
  intros (bss & Hf & -> & _)%encodeOperations_inv Hr. apply Forall_app. split; [apply be_bytes|].
  induction Hf as [|op b ops bss E _ IH]; [constructor|]. apply Forall_cons in Hr as [Hop Hr]. cbn.
  apply Forall_app. split; [by eapply encodeOperation_bytes|by apply IH].
Qed.

Lemma entry_bytes kd : entry_ok kd → Forall is_byte (enc (VDoc kd.2)).
Proof. intros [[_ _ [Hw [Hf _]] _] _]. eapply enc_is_bytes; [exact Hw|exact Hf]. Qed.

Section Transaction.
Context (db coll : jsstring) (Hdb : plain db) (Hcoll : plain coll).

(** The indexes of a collection as they are recorded. *)
Definition definitions_ok (l : list IndexSpec) : Prop := specs_ok l ∧ Forall plain_spec l.

Lemma operation_applies a op :
  definitions_ok a.2 → operation_ok a op →
  applyOperation (toOperation db coll op) (of_contents a) = Ok (of_contents (replay_one a op)) ∧
  definitions_ok (replay_one a op).2 ∧ recordable (toOperation db coll op) ∧
  target (toOperation db coll op) = (db, coll) ∧ ∀ d c, toOperation db coll op ≠ OpCreateCollection d c.
Proof using Hdb Hcoll.
  destruct a as [docs l]. intros [Hs Hp] Ho. cbn [snd] in *. destruct op as [key document|key|spec|name].
  - destruct Ho as (d & He & ->). destruct (entry_id _ He) as (i & Hi & Hk). cbn [fst] in Hk. subst key.
    cbn. rewrite hex_back by done. split; [done|]. split; [done|]. split; [|done]. split; [done|]. cbn [wf_value] in Hi.
    apply andb_true_iff in Hi as [Hb%bytes_wf _]. split; [done|]. by apply (entry_bytes (CustomId.toHexString i, d)).
  - destruct Ho as (i & Hi & ->). cbn. rewrite hex_back by done. split; [done|]. split; [done|]. split; [|done]. split; [done|].
    cbn [wf_value] in Hi. by apply andb_true_iff in Hi as [Hb%bytes_wf _].
  - destruct Ho as [(Hf & Hf2 & Hf3) Hsp]. cbn [snd] in *. cbn. rewrite find_index_none by done. split; [done|].
    split; [|done]. split; [by apply specs_ok_snoc|]. apply Forall_app. by split; [|constructor].
  - cbn [operation_ok snd] in Ho. cbn. destruct (find_index_some _ _ Ho) as [x ->].
    rewrite splice_without by apply Hs. split; [done|]. split; [|split; [|done]].
    + split; [by apply (specs_ok_without name)|]. apply Forall_forall. intros y [Hy _]%elem_of_filter_bool.
      rewrite Forall_forall in Hp. by apply Hp.
    + split; [|done]. split; [done|]. split; [done|]. apply list_elem_of_fmap in Ho as (y & -> & Hy).
      rewrite Forall_forall in Hp. by destruct (Hp _ Hy) as (_ & ? & _).
Qed.

Lemma operations_apply s a ops :
  lookup s db coll = Some (of_contents a) → definitions_ok a.2 → operations_ok a ops →
  apply_all (map (toOperation db coll) ops) s = Ok (insert s db coll (of_contents (replay a ops))) ∧
  definitions_ok (replay a ops).2 ∧ Forall recordable (map (toOperation db coll) ops).
Proof using Hdb Hcoll.
  revert s a. induction ops as [|op ops IH]; intros s a Hl Hd Ho.
  - cbn. by rewrite insert_same.
  - destruct Ho as [H1 Ho]. destruct (operation_applies a op Hd H1) as (E & Hd' & Hp & Ht & Hne).
    destruct (IH (insert s db coll (of_contents (replay_one a op))) (replay_one a op)) as (E2 & Hd2 & Hp2);
      [by rewrite lookup_insert|done|done|].
    split; [|split; [done|by constructor]]. unfold apply_all in *. cbn [map foldM].
    rewrite (applyRecovered_found _ _ _ _ _ Ht Hl Hne), E. cbn [mbind res_bind]. rewrite E2.
    cbn [replay fold_left]. by rewrite insert_insert.
Qed.

(** What a collection asks its journal to record makes, when it is replayed, the
    contents that it should, from which it can be opened. *)
Lemma proper_applies s a ops :
  good s → lookup s db coll = Some (of_contents a) → proper a ops →
  apply_all (map (toOperation db coll) ops) s = Ok (insert s db coll (of_contents (replay a ops))) ∧
  good (insert s db coll (of_contents (replay a ops))) ∧
  Forall recordable (map (toOperation db coll) ops).
Proof using Hdb Hcoll.
  intros Hg Hl [Hops Hopen]. destruct (good_lookup _ _ _ _ Hg Hl) as (_ & _ & Ha). 
  destruct (operations_apply s a ops Hl) as (E & [Hs Hp] & Hpl).
  - by destruct a, Ha.
  - done.
  - split; [done|]. split; [|done]. apply good_insert; [done..|]. by destruct (replay a ops).
Qed.
End Transaction.

Lemma create_applies s db coll :
  good s → plain db → plain coll → lookup s db coll = None →
  apply_all [OpCreateCollection db coll] s = Ok (insert s db coll (of_contents ([], []))) ∧
  good (insert s db coll (of_contents ([], []))).
Proof.
  intros Hg Hd Hc Hl. split; [|by apply good_insert, good_empty].
  unfold apply_all. cbn. unfold applyRecovered. cbn [target]. by rewrite Hl.
Qed.

(** ** Snapshots *)

(** The contents of the collections in memory. *)
Definition view_of (l : Databases (InMemoryCollection ())) : State :=
  map_databases (λ c, of_contents (contents_of c)) l.

(** The collections [cs] are those of the state [s]. *)
Definition snapshot_of (s : State) (cs : list Snapshot.CheckpointCollection) : Prop :=
  Forall plain_collection cs ∧
  ∀ n, recovered_base (Some {| Snapshot.checkpoint_lsn := n; Snapshot.collections := map recovered_of cs |}) = s.

Lemma omap_set_last {B} (m : list (jsstring * B)) k x y :
  omap_get m k = None → omap_set (m ++ [(k, x)]) k y = m ++ [(k, y)] ∧ omap_get (m ++ [(k, x)]) k = Some x.
Proof.
  induction m as [|[k' b] m IH]; cbn; [by rewrite !decide_True|]. case_decide as Hk; [done|]. intros Hm.
  destruct (IH Hm) as [-> ->]. done.
Qed.

Section Listing.
Context {A : Type}.

(** The databases that a list of collections makes. *)
Definition listed (l : list (jsstring * jsstring * A)) (s : Databases A) : Databases A :=
  fold_left (λ s e, insert s e.1.1 e.1.2 e.2) l s.

Lemma listed_collections acc d (done_ cs : list (jsstring * A)) :
  omap_get acc d = None → NoDup (omap_keys (done_ ++ cs)) →
  listed (map (λ c : jsstring * A, (d, c.1, c.2)) cs) (acc ++ [(d, done_)]) = acc ++ [(d, done_ ++ cs)].
Proof.
  intros Hd. revert done_. induction cs as [|[c a] cs IH]; intros done_ Hn; [by rewrite app_nil_r|].
  unfold listed. cbn [map fold_left fst snd]. unfold insert at 2.
  destruct (omap_set_last acc d done_ (omap_set done_ c a) Hd) as [_ ->]. cbn [default from_option Datatypes.id].
  destruct (omap_set_last acc d done_ (omap_set done_ c a) Hd) as [-> _].
  rewrite omap_set_None.
  - change ((c, a) :: cs) with ([(c, a)] ++ cs) in *. rewrite app_assoc in *. by apply (IH (done_ ++ [(c, a)])).
  - apply omap_get_None. rewrite omap_keys_app in Hn. apply NoDup_app in Hn as (_ & H & _). intros Hc.
    apply (H c Hc). left.
Qed.

Lemma listed_each acc (s : Databases A) :
  NoDup (omap_keys (acc ++ s)) → Forall (λ d, d.2 ≠ [] ∧ NoDup (omap_keys d.2)) s →
  listed (each (λ d c a, (d, c, a)) s) acc = acc ++ s.
Proof.
  revert acc. induction s as [|[d cs] s IH]; intros acc Hn Hs; [by rewrite app_nil_r|].
  apply Forall_cons in Hs as [[Hne Hcs] Hs]. cbn [snd] in *. unfold each. cbn [flat_map fst snd].
  unfold listed. rewrite fold_left_app.
  assert (omap_get acc d = None) as Hd.
  { apply omap_get_None. rewrite omap_keys_app in Hn. apply NoDup_app in Hn as (_ & Hdis & _). intros Hin.
    apply (Hdis d Hin). left. }
  assert (listed (map (λ c : jsstring * A, (d, c.1, c.2)) cs) acc = acc ++ [(d, cs)]) as E.
  { destruct cs as [|[c a] cs]; [done|]. unfold listed. cbn [map fold_left fst snd]. unfold insert at 2.
    rewrite Hd. cbn [default]. rewrite (omap_set_None acc) by done. by apply (listed_collections acc d [(c, a)]). }
  fold (listed (map (λ c : jsstring * A, (d, c.1, c.2)) cs) acc). rewrite E.
  change ((d, cs) :: s) with ([(d, cs)] ++ s) in *. rewrite app_assoc in *. by apply IH.
Qed.
End Listing.

Lemma good_listed s : good s → listed (each (λ d c a, (d, c, a)) s) [] = s.
Proof.
  intros [Hn Hs]. apply listed_each; [done|]. eapply Forall_impl; [exact Hs|]. by intros d [_ [? ? _]].
Qed.

Lemma each_map {A B C} (f : A → B) (g : jsstring → jsstring → B → C) (l : Databases A) :
  each g (map_databases f l) = each (λ d c a, g d c (f a)) l.
Proof.
  unfold each, map_databases. induction l as [|[d cs] l IH]; [done|]. cbn [map flat_map fst snd].
  rewrite IH. f_equal. by rewrite map_map.
Qed.

Lemma map_each {A B C} (f : B → C) (g : jsstring → jsstring → A → B) (l : Databases A) :
  map f (each g l) = each (λ d c a, f (g d c a)) l.
Proof.
  unfold each. induction l as [|[d cs] l IH]; [done|]. cbn [flat_map]. rewrite map_app, IH. f_equal.
  by rewrite map_map.
Qed.

Lemma Forall_each {A B} (P : B → Prop) (f : jsstring → jsstring → A → B) (l : Databases A) :
  Forall (λ d, Forall (λ c, P (f d.1 c.1 c.2)) d.2) l → Forall P (each f l).
Proof.
  intros H. unfold each. apply Forall_flat_map. eapply Forall_impl; [exact H|]. intros d Hd. by apply Forall_map.
Qed.

Lemma openable_plain a : openable a → Forall hex_key (omap_keys a.1) ∧ NoDup (omap_keys a.1) ∧
  Forall (λ kd, Forall is_byte kd.2) a.1.
Proof.
  intros (v & -> & [Hn Hv] & _). rewrite image_keys. split; [|split; [done|]].
  - unfold omap_keys. rewrite Forall_map. eapply Forall_impl; [exact Hv|]. intros kd Hkd.
    destruct (entry_id _ Hkd) as (i & Hi & ->). cbn [wf_value] in Hi.
    apply andb_true_iff in Hi as [Hb%bytes_wf Hl%Z.eqb_eq]. by exists i.
  - unfold image. rewrite Forall_map. eapply Forall_impl; [exact Hv|]. intros kd [[_ _ [Hw [Hf _]] _] _].
    cbn [snd]. eapply enc_is_bytes; [exact Hw|exact Hf].
Qed.

Lemma view_snapshot l : good (view_of l) → snapshot_of (view_of l) (each (snapshot_collection None) l).
Proof.
  intros Hg. split.
  - destruct Hg as [_ Hs]. unfold view_of, map_databases in Hs. rewrite Forall_map in Hs.
    apply Forall_each. eapply Forall_impl; [exact Hs|]. intros d [Hd [_ _ Hc]]. cbn [fst snd] in *.
    rewrite Forall_map in Hc. eapply Forall_impl; [exact Hc|]. intros c [Hn [Ho _ Hp]]. cbn [fst snd] in *.
    destruct (openable_plain _ Ho) as (H1 & H2 & H3). split; try done.
    cbn. rewrite app_nil_r. exact Hp.
  - intros n. rewrite <- (good_listed (view_of l) Hg) at 1. unfold view_of. rewrite each_map.
    unfold recovered_base. cbn [Snapshot.collections]. rewrite map_each. clear Hg.
    assert (each (λ d c a, recovered_of (snapshot_collection None d c a)) l =
      map (λ e : jsstring * jsstring * RecoveredState,
        {| Snapshot.recovered_database := e.1.1; Snapshot.recovered_collection := e.1.2;
           Snapshot.recovered_documents := recovered_documents e.2; Snapshot.recovered_indexes := recovered_indexes e.2 |})
        (each (λ d c a, (d, c, of_contents (contents_of a))) l)) as ->.
    { rewrite map_each. unfold each. apply flat_map_ext. intros d. apply map_ext. intros c.
      unfold recovered_of. cbn. by rewrite app_nil_r. }
    unfold listed. generalize (each (λ d c a, (d, c, of_contents (contents_of a))) l).
    generalize (@nil (jsstring * list (jsstring * RecoveredState))).
    intros s es. revert s. induction es as [|[[d c] st] es IH]; intros s; [done|]. cbn. rewrite IH. by destruct st.
Qed.
