(* ===== verification/EngineInvariant.v ===== *)
(** * The storage engine: its snapshots

    The snapshots in a directory: listing them, reading the newest that can be
    read, removing old ones and files that were left behind. *)

From stdpp Require Import gmap.
From S2P Require Import Prelude Errors JsNumber JsString JsValue Binary CustomId Codec Roundtrip FilterSpec Update IndexSpec FieldIndex IndexSet IndexSetSpec Stored Collection CollectionLemmas CollectionChanges CollectionSpec CollectionIndexes CollectionModel WalFormat Disk DiskLemmas WriteAheadLog WalLemmas WalInvariant WalOperations WalUpkeep WalOpen WalCrash Operations Checkpoint CheckpointWrite CheckpointRead Engine EngineReplay.
Import Engine.Engine Checkpoint.

(** The numbers of the snapshots of a directory. *)
Definition snapshot_numbers (dir : jsstring) (d : Disk) : list Z :=
  omap (λ f : path * File, if decide (f.1.1 = dir) then checkpoint_file_lsn f.1.2 else None) (files d).

(** Each of them is whole, of collections that satisfy [P]. *)
Record snapshots_hold (dir : jsstring) (P : Z → list CheckpointCollection → Prop) (d : Disk) : Prop := {
  hold_nodup : NoDup (omap_keys (files d));
  hold_each : ∀ n, n ∈ snapshot_numbers dir d → ∃ cs, P n cs ∧ published dir n cs d;
}.

(** The snapshots of [d'] are those of [d]. *)
Record same_snapshots (dir : jsstring) (d d' : Disk) : Prop := {
  same_nodup : NoDup (omap_keys (files d)) → NoDup (omap_keys (files d'));
  same_get : ∀ name, is_Some (checkpoint_file_lsn name) →
    omap_get (files d') (dir, name) = omap_get (files d) (dir, name);
}.

Definition snapshot_file (dir : jsstring) (n : Z) : CheckpointFile :=
  {| file_lsn := n; file_name := checkpointFileName n; file_path := (dir, checkpointFileName n) |}.

Lemma in_numbers dir d n :
  NoDup (omap_keys (files d)) →
  n ∈ snapshot_numbers dir d ↔
  is_Some (omap_get (files d) (dir, checkpointFileName n)) ∧ checkpoint_file_lsn (checkpointFileName n) = Some n.
Proof.
  intros Hn. unfold snapshot_numbers. rewrite list_elem_of_omap. split.
  - intros ([[dir' name] f] & Hin & E). cbn [fst snd] in E. case_decide as Ed; [|done]. subst dir'.
    pose proof (checkpoint_lsn_name _ _ E) as ->. split; [|done]. apply omap_get_in in Hin; [|done]. by exists f.
  - intros [[f Hf] E]. exists ((dir, checkpointFileName n), f). split; [by apply omap_get_Some_in|].
    cbn [fst snd]. by rewrite decide_True.
Qed.

Lemma numbers_nodup dir d : NoDup (omap_keys (files d)) → NoDup (snapshot_numbers dir d).
Proof.
  unfold snapshot_numbers. induction (files d) as [|[[dir' name] f] l IH]; [constructor|].
  cbn [omap_keys map fst]. intros [Hx Hn]%NoDup_cons. cbn [omap list_omap fst snd].
  case_decide as Ed; [|by apply IH]. destruct (checkpoint_file_lsn name) as [n|] eqn:E; [|by apply IH].
  apply NoDup_cons. split; [|by apply IH]. intros ([[dir2 name2] f2] & Hin & E2)%list_elem_of_omap.
  cbn [fst snd] in E2. case_decide; [|done]. apply Hx. subst.
  rewrite (checkpoint_lsn_name _ _ E), <- (checkpoint_lsn_name _ _ E2).
  by apply (list_elem_of_fmap_2 fst) in Hin.
Qed.

Lemma same_snapshots_refl dir d d' : files d' = files d → same_snapshots dir d d'.
Proof. intros E. split; [by rewrite E|]. intros. by rewrite E. Qed.

Lemma same_snapshots_trans dir d1 d2 d3 :
  same_snapshots dir d1 d2 → same_snapshots dir d2 d3 → same_snapshots dir d1 d3.
Proof. intros [H1 H2] [H3 H4]. split; [auto|]. intros name Hn. by rewrite H4, H2. Qed.

Lemma same_numbers dir d d' n :
  NoDup (omap_keys (files d)) → same_snapshots dir d d' →
  n ∈ snapshot_numbers dir d' ↔ n ∈ snapshot_numbers dir d.
Proof.
  intros Hn [H1 H2]. rewrite !in_numbers by auto. split; intros [Hs E]; (split; [|done]).
  - by rewrite <- H2 by (by eexists).
  - by rewrite H2 by (by eexists).
Qed.

Lemma same_published dir d d' n cs :
  is_Some (checkpoint_file_lsn (checkpointFileName n)) → same_snapshots dir d d' →
  published dir n cs d → published dir n cs d'.
Proof. intros Hs [_ H] (bs & E & Hh). exists bs. split; [done|]. unfold holds in *. by rewrite H. Qed.

Lemma same_hold dir P d d' : same_snapshots dir d d' → snapshots_hold dir P d → snapshots_hold dir P d'.
Proof.
  intros Hs [Hn He]. split; [by apply Hs|]. intros n Hin.
  apply (same_numbers dir d d' n Hn Hs) in Hin as Hin'. destruct (He n Hin') as (cs & Hp & Hpub).
  exists cs. split; [done|]. eapply same_published; [|exact Hs|exact Hpub].
  apply in_numbers in Hin' as [_ E]; [|done]. by eexists.
Qed.

Lemma same_elsewhere dir d d' n :
  elsewhere [(dir, temporaryFileName n)] d d' → same_snapshots dir d d'.
Proof.
  intros [H1 H2]. split; [done|]. intros name [z Hz]. apply H2. intros E%list_elem_of_singleton.
  injection E as ->. by rewrite temporary_lsn in Hz.
Qed.

(** Numbers from the greatest on. *)
Definition newest_first (left right : Z) : Z := sign_of (right ?= left).

#[export] Instance newest_first_order : CmpOrder newest_first.
Proof.
  split; unfold newest_first.
  - intros x y. destruct (Z.compare_spec y x), (Z.compare_spec x y); cbn; lia.
  - intros x y z. destruct (Z.compare_spec y x), (Z.compare_spec z y), (Z.compare_spec z x); cbn; lia.
Qed.

Lemma newest_first_sorted l : NoDup l → StronglySorted (cmp_le newest_first) l → StronglySorted Z.gt l.
Proof.
  intros Hn. induction 1 as [|x l Hl IH Hx]; [constructor|]. apply NoDup_cons in Hn as [Hin Hn].
  constructor; [by apply IH|]. rewrite Forall_forall in Hx |- *. intros y Hy. specialize (Hx y Hy).
  unfold cmp_le, newest_first in Hx. assert (x ≠ y) by (by intros ->).
  destruct (Z.compare_spec y x); cbn in Hx; lia.
Qed.

Section Calls.
Context (os : Z → Call → Outcome) (dir : jsstring).

(** Listing: the newest first. *)
Lemma list_outcome d :
  NoDup (omap_keys (files d)) →
  match listCheckpoints os dir d with
  | (Ok l, d') => files d' = files d ∧ ∃ ns, l = map (snapshot_file dir) ns ∧ StronglySorted Z.gt ns ∧
      ns ≡ₚ snapshot_numbers dir d
  | (Throw e, d') => files d' = files d ∧ system_error e
  end.
Proof.
  intros Hn. unfold listCheckpoints. unfold mbind at 1, st_bind at 1.
  pose proof (quiet_outcome os (Readdir dir)
    (λ d, omap (λ f : path * File, if decide (f.1.1 = dir) then Some f.1.2 else None) (files d)) d) as Hq.
  unfold readdirSync. destruct (syscall os (Readdir dir) _ d) as [[names|e] d'].
  2: by destruct Hq as [He ->]; [intros ? ->|].
  destruct Hq as [-> Hf]; [by intros ? ->|]. cbn [mret st_ret]. split; [exact Hf|].
  assert (omap (λ name, (λ lsn, {| file_lsn := lsn; file_name := name; file_path := (dir, name) |}) <$> checkpoint_file_lsn name)
    (omap (λ f : path * File, if decide (f.1.1 = dir) then Some f.1.2 else None) (files d)) =
    map (snapshot_file dir) (snapshot_numbers dir d)) as ->.
  { unfold snapshot_numbers. clear. induction (files d) as [|[[dir' name] f] l IH]; [done|].
    cbn [omap list_omap fst snd]. case_decide; [|exact IH]. cbn [omap list_omap].
    destruct (checkpoint_file_lsn name) as [n|] eqn:E; [|exact IH]. cbn. rewrite IH. unfold snapshot_file.
    by rewrite (checkpoint_lsn_name _ _ E). }
  exists (sort_by newest_first (snapshot_numbers dir d)).
  pose proof (sort_by_perm newest_first (snapshot_numbers dir d)) as Hperm.
  split; [by apply sort_by_map|]. split; [|exact Hperm]. apply newest_first_sorted; [|apply sort_by_sorted, _].
  rewrite Hperm. by apply numbers_nodup.
Qed.

(** Reading the newest that can be read. *)
Lemma find_base_outcome P ns : ∀ skipped d,
  Forall (λ n, ∃ cs, P n cs ∧ Forall plain_collection cs ∧ published dir n cs d) ns →
  match find_base os (map (snapshot_file dir) ns) skipped d with
  | (Ok (base, _), d') => files d' = files d ∧
      match base with
      | Some (c, _) => ∃ n cs, n ∈ ns ∧ P n cs ∧
          c = {| checkpoint_lsn := n; collections := map recovered_of cs |}
      | None => True
      end
  | (Throw _, _) => False
  end.
Proof.
  induction ns as [|n ns IH]; intros skipped d Hns; [done|].
  apply Forall_cons in Hns as [(cs & HP & Hpl & Hpub) Hns]. cbn [map find_base]. unfold mbind at 1, st_bind at 1.
  pose proof (read_published os dir n cs d Hpub Hpl) as Hr. unfold st_catch. unfold mbind at 1, st_bind at 1.
  cbn [file_path snapshot_file file_lsn].
  destruct (readCheckpoint os (dir, checkpointFileName n) d) as [[c|e] d1].
  - destruct Hr as [-> Hd]. cbn [checkpoint_lsn]. rewrite Z.eqb_refl. cbn [negb mret st_ret]. split; [done|].
    exists n, cs. split; [by left|done].
  - destruct Hr as [_ Hd]. cbn [mret st_ret].
    specialize (IH (skipped ++ [file_name (snapshot_file dir n)]) d1).
    destruct (find_base os _ _ d1) as [[[base l]|e2] d2].
    + destruct IH as [Hd2 Hb].
      { eapply Forall_impl; [exact Hns|]. intros m (cs' & H1 & H2 & bs & H3 & H4). exists cs'. split; [done|].
        split; [done|]. exists bs. split; [done|]. unfold holds in *. by rewrite Hd. }
      split; [congruence|]. destruct base as [[c name]|]; [|done]. destruct Hb as (m & cs' & Hm & Hb).
      exists m, cs'. split; [by right|done].
    + apply IH. eapply Forall_impl; [exact Hns|]. intros m (cs' & H1 & H2 & bs & H3 & H4). exists cs'. split; [done|].
      split; [done|]. exists bs. split; [done|]. unfold holds in *. by rewrite Hd.
Qed.

(** Files that were left behind. *)
Definition tidied {A} (d : Disk) (r : res exn A * Disk) : Prop :=
  same_snapshots dir d r.2 ∧ ∀ e, r.1 = Throw e → not_corruption e.

Lemma tidied_bind {A B} (m : ST Disk exn A) (k : A → ST Disk exn B) d :
  tidied d (m d) → (∀ a d, tidied d (k a d)) → tidied d ((x ← m; k x) d).
Proof.
  intros [Hs He] Hk. unfold mbind, st_bind. destruct (m d) as [[a|e] d1]; cbn [fst snd] in *.
  - destruct (Hk a d1) as [Hs' He']. split; [by eapply same_snapshots_trans|done].
  - split; [done|]. intros e' [= <-]. by apply He.
Qed.

Lemma tidied_ret {A} (a : A) d : tidied d (mret (M:=ST Disk exn) a d).
Proof. split; [by apply same_snapshots_refl|done]. Qed.

Lemma system_not_corruption e : system_error e → not_corruption e.
Proof. by intros [code ->]. Qed.

Lemma unlink_temporary name d : ends_with TEMPORARY_SUFFIX name = true → tidied d (unlinkSync os (dir, name) d).
Proof.
  intros Ht. pose proof (unlink_outcome os (dir, name) d) as Hu.
  destruct (unlinkSync os (dir, name) d) as [[u|e] d']; (split; cbn [fst snd]; [|]).
  - split; rewrite Hu; [intros; by apply omap_delete_NoDup|]. intros name' [z Hz]. apply omap_get_delete_ne.
    intros [= ->]. by rewrite (checkpoint_not_temporary _ _ Hz) in Ht.
  - done.
  - by apply same_snapshots_refl; destruct Hu.
  - intros e' [= <-]. apply system_not_corruption, Hu.
Qed.

Lemma remove_temporary_outcome d : tidied d (removeTemporaryCheckpoints os dir d).
Proof.
  unfold removeTemporaryCheckpoints. apply tidied_bind.
  { pose proof (quiet_outcome os (Readdir dir)
      (λ d, omap (λ f : path * File, if decide (f.1.1 = dir) then Some f.1.2 else None) (files d)) d) as Hq.
    unfold readdirSync. destruct (syscall os (Readdir dir) _ d) as [[names|e] d1];
      (destruct Hq as [He Hq]; [by intros ? ->|]); (split; [by apply same_snapshots_refl|]); [done|].
    intros e' [= <-]. by apply system_not_corruption. }
  intros names d1. apply tidied_bind.
  { generalize 0 as removed. revert d1. induction names as [|name names IH]; intros d1 removed; [apply tidied_ret|].
    cbn [st_fold]. apply tidied_bind; [|intros b d2; apply IH].
    destruct (ends_with TEMPORARY_SUFFIX name) eqn:Et; [|apply tidied_ret].
    apply tidied_bind; [by apply unlink_temporary|]. intros u d2. apply tidied_ret. }
  intros removed d2. apply tidied_bind; [|intros u d3; apply tidied_ret].
  destruct (0 <? removed); [|apply tidied_ret].
  pose proof (syncDirectory_outcome os dir d2) as Hs. pose proof (syncDirectory_error os dir d2) as He.
  destruct (syncDirectory os dir d2) as [[u|e] d3]; (split; [by apply same_snapshots_refl|]); [done|]. by intros e' [= <-].
Qed.

(** Calls that read a file do not fail. *)
Definition reads : Prop := ∀ i file code, os i (ReadFile file) ≠ Fails code.

Lemma read_base n cs d :
  reads → published dir n cs d → Forall plain_collection cs →
  ∃ c d', readCheckpoint os (dir, checkpointFileName n) d = (Ok c, d') ∧ checkpoint_lsn c = n.
Proof.
  intros Hr Hpub Hpl. pose proof (read_published os dir n cs d Hpub Hpl) as Hread.
  destruct (readCheckpoint os (dir, checkpointFileName n) d) as [[c|e] d'] eqn:E.
  - exists c, d'. split; [done|]. by destruct Hread as [-> _].
  - exfalso. destruct Hpub as (bs & Hs & Hh). revert E. unfold readCheckpoint, mbind, st_bind, readFileSync.
    match goal with |- context [syscall os ?call ?act d] =>
      destruct (syscall_outcome os call act d) as [(code & E & _)|(o & _ & ->)] end.
    + intros _. by destruct (Hr _ _ _ E).
    + rewrite (on_file_get _ _ _ bs (len bs)) by exact Hh. unfold st_lift. cbn [fst snd contents].
      by rewrite (decode_snapshot _ _ _ Hs Hpl).
Qed.

Lemma find_base_reads (P : Z → list CheckpointCollection → Prop) ns skipped d :
  reads → ns ≠ [] → Forall (λ n, ∃ cs, P n cs ∧ Forall plain_collection cs ∧ published dir n cs d) ns →
  ∃ base l d', find_base os (map (snapshot_file dir) ns) skipped d = (Ok (Some base, l), d').
Proof.
  intros Hr Hne Hns. destruct ns as [|n ns]; [done|]. apply Forall_cons in Hns as [(cs & _ & Hpl & Hpub) _].
  destruct (read_base n cs d Hr Hpub Hpl) as (c & d' & E & Ec). do 3 eexists. cbn [map find_base].
  unfold mbind at 1, st_bind at 1, st_catch. unfold mbind at 1, st_bind at 1. cbn [file_path snapshot_file file_lsn].
  rewrite E, Ec, Z.eqb_refl. reflexivity.
Qed.
End Calls.

(** ** Removing old snapshots *)

(** The snapshots with the numbers [gone] are not there any more. *)
Record pruned (dir : jsstring) (gone : list Z) (d d' : Disk) : Prop := {
  pruned_nodup : NoDup (omap_keys (files d)) → NoDup (omap_keys (files d'));
  pruned_get : ∀ n, checkpoint_file_lsn (checkpointFileName n) = Some n →
    omap_get (files d') (dir, checkpointFileName n) =
      if decide (n ∈ gone) then None else omap_get (files d) (dir, checkpointFileName n);
}.

Lemma pruned_same dir d d' : files d' = files d → pruned dir [] d d'.
Proof.
  intros E. split; [by rewrite E|]. intros n _. rewrite decide_False by apply not_elem_of_nil. by rewrite E.
Qed.

Lemma pruned_trans dir g1 g2 d1 d2 d3 :
  pruned dir g1 d1 d2 → pruned dir g2 d2 d3 → pruned dir (g1 ++ g2) d1 d3.
Proof.
  intros [H1 H2] [H3 H4]. split; [auto|]. intros n Hn. rewrite H4, H2 by done.
  destruct (decide (n ∈ g2)), (decide (n ∈ g1)), (decide (n ∈ g1 ++ g2)) as [Hin|Hin]; try done;
    rewrite elem_of_app in Hin; tauto.
Qed.

Lemma pruned_numbers dir gone d d' n :
  NoDup (omap_keys (files d)) → pruned dir gone d d' →
  n ∈ snapshot_numbers dir d' ↔ n ∈ snapshot_numbers dir d ∧ n ∉ gone.
Proof.
  intros Hn [H1 H2]. rewrite !in_numbers by auto. split.
  - intros [Hs E]. rewrite H2 in Hs by done. destruct (decide (n ∈ gone)); [by destruct Hs|]. done.
  - intros [[Hs E] Hg]. rewrite H2 by done. by rewrite decide_False.
Qed.

Lemma pruned_hold dir P gone d d' :
  pruned dir gone d d' → snapshots_hold dir P d →
  snapshots_hold dir (λ n cs, P n cs ∧ n ∉ gone) d'.
Proof.
  intros Hp [Hn He]. split; [by apply Hp|]. intros n Hin.
  apply (pruned_numbers dir gone d d' n Hn Hp) in Hin as [Hin Hg].
  destruct (He n Hin) as (cs & HP & bs & Hs & Hh). exists cs. split; [done|]. exists bs. split; [done|].
  apply in_numbers in Hin as [_ E]; [|done]. unfold holds in *. destruct Hp as [_ Hp].
  by rewrite Hp, decide_False.
Qed.

(** The loop of [finishCheckpoint] over the old snapshots, on their directory. *)
Lemma unlink_old os dir n d :
  NoDup (omap_keys (files d)) → checkpoint_file_lsn (checkpointFileName n) = Some n →
  match unlinkSync os (dir, checkpointFileName n) d with
  | (Ok _, d') => pruned dir [n] d d'
  | (Throw e, d') => files d' = files d
  end.
Proof.
  intros Hn En. pose proof (unlink_outcome os (dir, checkpointFileName n) d) as Hu.
  destruct (unlinkSync os (dir, checkpointFileName n) d) as [[u|e] d']; [|apply Hu].
  split; rewrite Hu; [intros; by apply omap_delete_NoDup|]. intros m Em.
  destruct (decide (m ∈ [n])) as [->%list_elem_of_singleton|Hne]; [by apply omap_get_delete|].
  apply omap_get_delete_ne. intros E. apply Hne, list_elem_of_singleton.
  assert (checkpointFileName n = checkpointFileName m) as E2 by congruence. rewrite E2 in En. congruence.
Qed.

(** * The storage engine: its invariant

    The log of an engine holds the transactions of its history, from some number
    on; each snapshot holds what the history up to its number makes of the empty
    engine; together they are enough to make the collections again, whatever a
    crash leaves. *)
Import Operations.Operations Engine.Engine Engine.Engine.Wal(WriteConcern,Memory,Journaled,Flushed).

Abbreviation history := (list (list Operation)).

(** A transaction as a record of the log. *)
Definition recorded (t : list Operation) (x : Z * bytes) : Prop :=
  x.1 = RecordType_Transaction ∧ encodeOperations t = Ok x.2 ∧ Forall recordable t.

(** What the first [n] transactions make. *)
Definition state_at (H : history) (n : Z) (s : State) : Prop :=
  replay_all (take (Z.to_nat n) H) [] = Ok s.

(** Whatever part of the history is left, it can be replayed. *)
Definition sound (H : history) : Prop := ∀ n, ∃ s, state_at H n s ∧ good s.

(** The records of the log are the transactions of the history; [more] is one that
    was not acknowledged, and is in the memory of a log that has failed; [tried]
    one that may be in the files. *)
Definition logged (failed : bool) (a : Log) (H : history) : Prop :=
  1 ≤ log_base a ≤ len H + 1 ∧
  ∃ more tried, Forall2 recorded (drop (Z.to_nat (log_base a - 1)) (H ++ more)) (log_entries a) ∧
    Forall2 recorded tried (log_tried a) ∧ (length (more ++ tried) ≤ 1)%nat ∧
    sound (H ++ more ++ tried) ∧ (failed = false → more = []).

(** A snapshot with the number [n] is of use: the log goes on from there, and has
    not less than it, after a crash too. *)
Definition safe (m : WriteConcern) (a : Log) (n : Z) : Prop :=
  log_base a ≤ n + 1 ∧ n + 1 ≤ log_kept a ∧ (m = Flushed → n + 1 ≤ log_durable a).

(** A snapshot of the history. *)
Record covers (m : WriteConcern) (a : Log) (H : history) (n : Z) (cs : list Snapshot.CheckpointCollection) : Prop := {
  covers_range : 0 ≤ n ≤ len H ∧ n < 10 ^ 20;
  covers_safe : safe m a n;
  covers_state : ∃ s, state_at H n s ∧ snapshot_of s cs;
}.

(** The snapshots of a directory. *)
Record kept_snapshots (m : WriteConcern) (a : Log) (H : history) (dir : jsstring) (d : Disk) : Prop := {
  kept_hold : snapshots_hold dir (covers m a H) d;
  kept_enough : 1 < log_base a → (2 ≤ length (snapshot_numbers dir d))%nat;
}.

(** What has been acknowledged is kept, as the write concern of the log says. *)
Definition acknowledged (m : WriteConcern) (group : bool) (a : Log) (H : history) : Prop :=
  (m ≠ Memory → len H + 1 ≤ log_kept a) ∧ (m = Flushed → group = false → len H + 1 ≤ log_durable a).

(** An engine whose history is [H], [s] what that makes, and [a] its log. *)
Record core (H : history) (s : State) (a : Log) (e : StorageEngine) : Prop := {
  core_log : log_at (log_disk e) (log e) a;
  core_logged : logged (Wal.broken (log e)) a H;
  core_acknowledged : acknowledged (Wal.mode (log e)) (Wal.groupCommit (log e)) a H;
  core_state : replay_all H [] = Ok s;
  core_retention : 2 ≤ checkpointRetention (settings e);
  core_snapshots : kept_snapshots (Wal.mode (log e)) a H (checkpoints e) (checkpoint_disk e);
}.

(** The checkpoint in the background goes on as it should. *)
Definition active_ok (m : WriteConcern) (a : Log) (H : history) (dir : jsstring) (d : Disk)
    (active : option ActiveCheckpoint) : Prop :=
  match active with
  | None => True
  | Some c =>
      if aborted c then active_steps c = Snapshot.Ended
      else let b := active_begun c in
           covers m a H (begun_lsn b) (begun_collections b) ∧
           steps_inv dir (begun_lsn b) (begun_collections b) d (active_steps c)
  end.

(** What no checkpoint changes. *)
Definition env (e : StorageEngine) :=
  (settings e, checkpoints e, databases e, Wal.mode (log e), Wal.groupCommit (log e), Wal.directory (log e)).

Abbreviation Env := (Settings * jsstring * Databases (InMemoryCollection ()) * WriteConcern * bool * jsstring)%type.

Definition env_mode (c : Env) : WriteConcern := let '(_, _, _, m, _, _) := c in m.
Definition env_directory (c : Env) : jsstring := let '(_, dir, _, _, _, _) := c in dir.
Definition env_databases (c : Env) : Databases (InMemoryCollection ()) := let '(_, _, l, _, _, _) := c in l.

(** An engine with the checkpoint [act] in the background, whatever has become of
    it; its log satisfies [P]. *)
Definition running (c : Env) (act : option ActiveCheckpoint) (P : Log → Prop) (H : history) (s : State)
    (e : StorageEngine) : Prop :=
  env e = c ∧ activeCheckpoint e = act ∧ ∃ a, core H s a e ∧ P a.

(** And with one that goes on as it should. *)
Definition steady (c : Env) (H : history) (s : State) (e : StorageEngine) : Prop :=
  running c (activeCheckpoint e)
    (λ a, active_ok (env_mode c) a H (env_directory c) (checkpoint_disk e) (activeCheckpoint e)) H s e.

(** ** Histories *)
Lemma state_at_full H s : replay_all H [] = Ok s ↔ state_at H (len H) s.
Proof. unfold state_at. by rewrite to_nat_len, firstn_all. Qed.

Lemma state_at_app H H' n s : n ≤ len H → state_at (H ++ H') n s ↔ state_at H n s.
Proof. intros Hn. unfold state_at. rewrite take_app_le; [done|]. unfold len in Hn. lia. Qed.

Lemma sound_app H H' : sound (H ++ H') → sound H.
Proof.
  intros Hs n. destruct (Z.le_gt_cases n (len H)) as [Hle|Hgt].
  - destruct (Hs n) as (s & E & Hg). exists s. by rewrite state_at_app in E.
  - destruct (Hs (len H)) as (s & E & Hg). exists s. split; [|done]. rewrite state_at_app in E by lia.
    unfold state_at in *. rewrite to_nat_len in E. rewrite take_ge in E by lia.
    rewrite take_ge by (unfold len in Hgt; lia). done.
Qed.

Lemma sound_good H s : sound H → replay_all H [] = Ok s → good s.
Proof.
  intros Hs E%state_at_full. destruct (Hs (len H)) as (s' & E' & Hg). unfold state_at in *. congruence.
Qed.

Lemma sound_take H n : sound H → sound (take n H).
Proof. intros Hs. rewrite <- (take_drop n H) in Hs. by eapply sound_app. Qed.

Lemma sound_snoc H s t s' :
  sound H → replay_all H [] = Ok s → apply_all t s = Ok s' → good s' → sound (H ++ [t]).
Proof.
  intros Hs E Et Hg n. destruct (Z.le_gt_cases n (len H)) as [Hle|Hgt].
  - destruct (Hs n) as (s1 & E1 & Hg1). exists s1. by rewrite state_at_app.
  - exists s'. split; [|done]. unfold state_at. rewrite take_ge by (rewrite length_app; unfold len in *; cbn; lia).
    rewrite replay_snoc, E. exact Et.
Qed.

Lemma sound_nil : sound [].
Proof. intros n. exists []. split; [unfold state_at; by rewrite take_nil|apply good_nil]. Qed.

(** The next number. *)
Lemma logged_next failed a H : logged failed a H → failed = false → log_next a = len H + 1.
Proof.
  intros (Hb & more & tried & He & _ & _ & _ & Hm) ->. rewrite (Hm eq_refl), app_nil_r in He.
  apply Forall2_length in He. rewrite length_drop in He. unfold log_next, len in *. lia.
Qed.

Lemma logged_sound failed a H : logged failed a H → sound H.
Proof. intros (_ & more & tried & _ & _ & _ & Hs & _). by eapply sound_app. Qed.

(** Less may be in the memory of a log that fails, and more of it kept. *)
Record grown (m : WriteConcern) (a a' : Log) : Prop := {
  grown_base : log_base a' = log_base a;
  grown_entries : log_entries a' = log_entries a;
  grown_tried : log_tried a' = log_tried a;
  grown_kept : log_kept a ≤ log_kept a';
  grown_durable : m = Flushed → log_durable a ≤ log_durable a';
}.

Lemma grown_refl m a : grown m a a.
Proof. by split. Qed.

Lemma grown_logged m failed failed' a a' H :
  grown m a a' → (failed = true → failed' = true) → logged failed a H → logged failed' a' H.
Proof.
  intros [E1 E2 E3 _ _] Hf (Hb & more & tried & He & Ht & Hl & Hs & Hm). unfold logged. rewrite E1, E2, E3.
  split; [done|]. exists more, tried. split_and!; try done. intros ->. apply Hm.
  destruct failed; [|done]. by specialize (Hf eq_refl).
Qed.

Lemma safe_grown m a a' n : grown m a a' → safe m a n → safe m a' n.
Proof.
  intros [E1 _ _ E4 E5] (H1 & H2 & H3). split_and!; [lia|lia|]. intros Hm. specialize (E5 Hm). specialize (H3 Hm). lia.
Qed.

Lemma covers_mono m a a' H H' n cs :
  (safe m a n → safe m a' n) → covers m a H n cs → covers m a' (H ++ H') n cs.
Proof.
  intros Hs [Hr Hsafe (s & E & Hsn)]. split; [|by apply Hs|].
  - rewrite len_app. pose proof (len_nonneg H'). lia.
  - exists s. by rewrite state_at_app by lia.
Qed.
