(* ===== verification/EngineCheckpoint.v ===== *)
(** * The storage engine: operations of its log

    What the engine does with its log keeps its invariant: nothing is lost from
    the log, but what the snapshots have. *)

From stdpp Require Import gmap.
From S2P Require Import Prelude Errors JsNumber JsString JsValue Binary CustomId Codec Roundtrip FilterSpec Update IndexSpec FieldIndex IndexSet IndexSetSpec Stored Collection CollectionLemmas CollectionChanges CollectionSpec CollectionIndexes CollectionModel WalFormat Disk DiskLemmas WriteAheadLog WalLemmas WalInvariant WalOperations WalUpkeep WalOpen WalCrash Operations Checkpoint CheckpointWrite CheckpointRead Triples Engine EngineReplay EngineInvariant.
Import Operations.Operations Engine.Engine Engine.Engine.Wal(WriteConcern,Memory,Journaled,Flushed).

(** Where less of a log is in memory only, more cannot be lost. *)
Definition upward (m : WriteConcern) (P : Log → Prop) : Prop := ∀ a a', grown m a a' → P a → P a'.

(** What the engine relies on of the settings of its log. *)
Record same_log (w w' : Wal.WriteAheadLog) : Prop := {
  same_log_directory : Wal.directory w' = Wal.directory w;
  same_log_mode : Wal.mode w' = Wal.mode w;
  same_log_group : Wal.groupCommit w' = Wal.groupCommit w;
  same_log_broken : Wal.broken w = true → Wal.broken w' = true;
}.

Lemma same_log_settings w w' : same_settings w w' → (Wal.broken w = true → Wal.broken w' = true) → same_log w w'.
Proof. by intros [H1 H2 H3 _ _] Hb. Qed.

Lemma same_log_refl w : same_log w w.
Proof. done. Qed.

Lemma covers_grown m a a' H n cs : grown m a a' → covers m a H n cs → covers m a' H n cs.
Proof. intros Hg Hc. rewrite <- (app_nil_r H). apply (covers_mono m a); [|done]. by apply safe_grown. Qed.

Lemma active_grown m H dir d act : upward m (λ a, active_ok m a H dir d act).
Proof.
  intros a a' Hg. destruct act as [c|]; [|done]. cbn. destruct (aborted c); [done|].
  intros [Hc Hs]. split; [by eapply covers_grown|done].
Qed.

Lemma hold_impl dir (P Q : Z → list Snapshot.CheckpointCollection → Prop) d :
  (∀ n cs, n ∈ snapshot_numbers dir d → P n cs → Q n cs) → snapshots_hold dir P d → snapshots_hold dir Q d.
Proof.
  intros HPQ [Hn He]. split; [done|]. intros n Hin. destruct (He n Hin) as (cs & HP & Hp). exists cs. by split; [apply HPQ|].
Qed.

Lemma kept_grown m a a' H dir d : grown m a a' → kept_snapshots m a H dir d → kept_snapshots m a' H dir d.
Proof.
  intros Hg [Hh He]. split; [|rewrite (grown_base _ _ _ Hg); exact He].
  eapply hold_impl; [|exact Hh]. intros n cs _. by apply covers_grown.
Qed.

Lemma acknowledged_grown m group a a' H : grown m a a' → acknowledged m group a H → acknowledged m group a' H.
Proof.
  intros [_ _ _ E4 E5] [H1 H2]. split.
  - intros Hm. specialize (H1 Hm). lia.
  - intros Hm Hg. specialize (H2 Hm Hg). specialize (E5 Hm). lia.
Qed.

Lemma core_log_step H s a a' d w e :
  core H s a e → log_at d w a' → grown (Wal.mode (log e)) a a' → same_log (log e) w → core H s a' (set_log d w e).
Proof.
  intros [C1 C2 C3 C4 C5 C6] Hl Hg [S1 S2 S3 S4]. split; cbn; rewrite ?S2, ?S3; try done.
  - by eapply grown_logged.
  - by eapply acknowledged_grown.
  - by eapply kept_grown.
Qed.

Lemma env_set_log d w e : same_log (log e) w → env (set_log d w e) = env e.
Proof. intros [S1 S2 S3 _]. unfold env. cbn. by rewrite S1, S2, S3. Qed.

Lemma env_mode_eq c e : env e = c → env_mode c = Wal.mode (log e).
Proof. by intros <-. Qed.

(** An operation that appends nothing and removes nothing. *)
Definition log_kept_by {A} (m : ST (Disk * Wal.WriteAheadLog) exn A) : Prop :=
  ∀ d w a, log_at d w a →
  match m (d, w) with
  | (r, (d', w')) => same_log w w' ∧ ∃ a', log_at d' w' a' ∧ grown (Wal.mode w) a a'
  end.

Section Log.
Context (os : Z → Call → Outcome).

Lemma grown_kept m d w a : log_at d w a → grown m a (kept_all a).
Proof. intros Hl. destruct (log_at_bounds _ _ _ Hl) as [H1 _]. by split. Qed.

Lemma grown_durable d w a : log_at d w a → grown (Wal.mode w) a (durable_all (Wal.mode w) a).
Proof.
  intros Hl. destruct (log_at_bounds _ _ _ Hl) as [_ H2]. split; try done. intros Hm. cbn.
  rewrite bool_decide_eq_true_2 by done. by apply H2.
Qed.

Lemma grown_trans m a1 a2 a3 : grown m a1 a2 → grown m a2 a3 → grown m a1 a3.
Proof.
  intros [A1 A2 A3 A4 A5] [B1 B2 B3 B4 B5]. split; try congruence; [lia|]. intros Hm. specialize (A5 Hm). specialize (B5 Hm). lia.
Qed.

Lemma grown_all d w a : log_at d w a → grown (Wal.mode w) a (durable_all (Wal.mode w) (kept_all a)).
Proof.
  intros Hl. destruct (log_at_bounds _ _ _ Hl) as [H1 H2]. split; try done. intros Hm. cbn.
  rewrite bool_decide_eq_true_2 by done. by apply H2.
Qed.

Lemma flush_kept : log_kept_by (Wal.flush os).
Proof.
  intros d w a Hl. destruct (Wal.closed w || Wal.broken w) eqn:Ecb.
  { destruct (flush_refuses os d w Ecb) as (e & ->). split; [done|]. exists a. split; [done|apply grown_refl]. }
  apply orb_false_iff in Ecb as [Hc Hb]. pose proof (flush_keeps os d w a Hl Hc Hb) as Hf.
  destruct (Wal.flush os (d, w)) as [[u|e] [d' w']].
  - destruct Hf as (Hs & _ & Hl'). split; [by apply same_log_settings; [|rewrite Hb]|]. exists (kept_all a). split; [done|].
    by eapply grown_kept.
  - destruct Hf as [Hs Hl']. split; [by apply same_log_settings; [|rewrite Hb]|]. exists a. split; [done|apply grown_refl].
Qed.

Lemma commit_broken d w :
  Wal.closed w = false → Wal.broken w = true → ∃ r, Wal.commit os (d, w) = (r, (d, w)).
Proof.
  intros Hc Hb. unfold Wal.commit. rewrite this_bind, Hc, orb_false_r. destruct (negb (Wal.unsynced w)); [by eexists|].
  destruct (assertWritable_refuses d w) as (e & E); [by rewrite Hb, orb_true_r|]. rewrite (bind_throw _ _ _ _ _ E). by eexists.
Qed.

Lemma commit_closed d w : Wal.closed w = true → Wal.commit os (d, w) = (Ok (), (d, w)).
Proof. intros Hc. unfold Wal.commit. by rewrite this_bind, Hc, orb_true_r. Qed.

Lemma commit_kept : log_kept_by (Wal.commit os).
Proof.
  intros d w a Hl. destruct (Wal.closed w) eqn:Hc.
  { rewrite commit_closed by done. split; [done|]. exists a. split; [done|apply grown_refl]. }
  destruct (Wal.broken w) eqn:Hb.
  { destruct (commit_broken d w Hc Hb) as (r & ->). split; [done|]. exists a. split; [done|apply grown_refl]. }
  pose proof (commit_keeps os d w a Hl Hc) as Hf.
  destruct (Wal.commit os (d, w)) as [[u|e] [d' w']].
  - destruct Hf as (Hs & _ & Hl'). split; [by apply same_log_settings; [|rewrite Hb]|].
    exists (durable_all (Wal.mode w) a). split; [done|]. by eapply grown_durable.
  - destruct Hf as [Hs Hl']. split; [by apply same_log_settings; [|rewrite Hb]|]. exists a. split; [done|apply grown_refl].
Qed.

Lemma close_kept : log_kept_by (Wal.close os).
Proof.
  intros d w a Hl. pose proof (close_keeps os d w a Hl) as Hc.
  assert (Wal.broken w = true → Wal.broken (Wal.close os (d, w)).2.2 = true) as Hb.
  { intros Hb. unfold Wal.close. rewrite this_bind. destruct (Wal.closed w); [done|]. rewrite this_bind, Hb.
    unfold mbind at 1, st_bind at 1. cbn [mret st_ret]. pose proof (close_tail os d w a None Hl) as Ht.
    match goal with |- context [?m (d, w)] => change m with (close_rest os None) end.
    destruct (close_rest os None (d, w)) as [r [d' w']]. by destruct Ht as (-> & _). }
  destruct (Wal.close os (d, w)) as [r [d' w']]. destruct Hc as (H1 & H2 & _ & Hl' & _ & _ & H3). split; [by split|].
  exists a. split; [done|apply grown_refl].
Qed.

(** In the engine. *)
Lemma on_log_kept {A} (m : ST (Disk * Wal.WriteAheadLog) exn A) c act P H s :
  log_kept_by m → upward (env_mode c) P → preserves (running c act P H s) (on_log m).
Proof.
  intros Hm HP e (He & Ha & a & Hc & Hp). unfold on_log. specialize (Hm _ _ _ (core_log _ _ _ _ Hc)).
  destruct (m (log_disk e, log e)) as [r [d w]]. destruct Hm as (Hs & a' & Hl & Hg).
  assert (running c act P H s (set_log d w e)) as Hr.
  { split; [by rewrite env_set_log|]. split; [done|]. exists a'. split; [by eapply core_log_step|].
    eapply HP; [|exact Hp]. by rewrite (env_mode_eq c e He). }
  by destruct r.
Qed.

(** Everything is in the files, and on stable storage in a log that promises it. *)
Record full (m : WriteConcern) (H : history) (a : Log) : Prop := {
  full_base : 1 ≤ log_base a ≤ len H + 1;
  full_kept : log_kept a = len H + 1;
  full_durable : m = Flushed → log_durable a = len H + 1;
  full_small : len H < 10 ^ 20;
}.

Lemma logged_small d w a H failed : log_at d w a → logged failed a H → len H < 10 ^ 20.
Proof.
  intros (old & first & written & waiting & attempted & n & fl & Hi & El & _) (Hb & more & tried & He & _).
  apply Forall2_length in He. rewrite length_drop, length_app in He.
  pose proof (hold_entries _ _ _ _ _ _ _ _ _ (inv_hold _ _ _ _ _ _ _ _ _ _ _ Hi)) as (_ & Hle & _).
  assert (2 ^ 64 < 10 ^ 20) by done. destruct (Wal.WriteConcern_eq_dec (Wal.mode w) Memory) as [Hm|Hm].
  - rewrite (inv_memory _ _ _ _ _ _ _ _ _ _ _ Hi Hm), <- El in Hle. unfold len in *. lia.
  - destruct (inv_written _ _ _ _ _ _ _ _ _ _ _ Hi Hm) as [-> _]. rewrite app_nil_r in El.
    rewrite El in He. unfold len in *. rewrite !length_app in *. lia.
Qed.

Lemma sync_full c act P H s lsn :
  upward (env_mode c) P →
  triple (λ e, running c act P H s e ∧ lastLsn e = lsn) (on_log (Wal.sync os))
    (λ _, running c act (λ a, P a ∧ full (env_mode c) H a ∧ lsn = len H) H s) (running c act P H s).
Proof.
  intros HP e ((He & Ha & a & Hc & Hp) & El). unfold on_log. pose proof (core_log _ _ _ _ Hc) as Hl.
  pose proof (sync_keeps os _ _ _ Hl) as Hk. pose proof (env_mode_eq c e He) as Em.
  destruct (decide (Wal.closed (log e) || Wal.broken (log e) = true)) as [Ecb|Ecb].
  { destruct (flush_refuses os (log_disk e) (log e) Ecb) as (x & E). unfold Wal.sync.
    rewrite (bind_throw _ _ _ _ _ E). split; [by rewrite env_set_log|]. split; [done|]. exists a. split; [|done].
    eapply core_log_step; [exact Hc|exact Hl|apply grown_refl|done]. }
  destruct (Wal.sync os (log_disk e, log e)) as [[u|x] [d w]].
  - destruct Hk as (Hs & _ & Hb & Hb' & Hl'). assert (same_log (log e) w) as Hs' by (by apply same_log_settings; [|rewrite Hb]).
    split; [by rewrite env_set_log|]. split; [done|]. eexists. pose proof (grown_all _ _ _ Hl) as Hg.
    split; [eapply core_log_step; [exact Hc|exact Hl'|exact Hg|exact Hs']|].
    split; [eapply HP; [by rewrite Em|exact Hp]|]. pose proof (logged_next _ _ _ (core_logged _ _ _ _ Hc) Hb) as Hn.
    pose proof (logged_small _ _ _ _ _ Hl (core_logged _ _ _ _ Hc)) as Hsm. rewrite Em.
    split; [|rewrite <- El; unfold lastLsn; rewrite (log_at_next _ _ _ Hl), Hn; lia].
    split; [apply (core_logged _ _ _ _ Hc)|exact Hn| |exact Hsm]. intros Hm. cbn. by rewrite bool_decide_eq_true_2.
  - destruct Hk as (Hs & Hl'). apply not_true_is_false, orb_false_iff in Ecb as [_ Hb].
    assert (same_log (log e) w) as Hs' by (by apply same_log_settings; [|rewrite Hb]).
    split; [by rewrite env_set_log|]. split; [done|]. exists a. split; [|done].
    eapply core_log_step; [exact Hc|exact Hl'|apply grown_refl|done].
Qed.
End Log.

(** * The storage engine: checkpoints

    A checkpoint, at once or in the background, adds a snapshot of the history and
    removes old ones, and from the log what the snapshots that are left have. *)
Import Operations.Operations Engine.Engine Engine.Engine.Wal(WriteConcern,Memory,Journaled,Flushed).
Import Engine.Engine.Snapshot(checkpoint_file_lsn,checkpointFileName,temporaryFileName,file_path,file_lsn).

(** ** The directory of the snapshots *)
Lemma numbers_more dir d d' :
  NoDup (omap_keys (files d)) → (∀ n, n ∈ snapshot_numbers dir d → n ∈ snapshot_numbers dir d') →
  (length (snapshot_numbers dir d) ≤ length (snapshot_numbers dir d'))%nat.
Proof. intros Hn Hin. apply submseteq_length, NoDup_submseteq; [by apply numbers_nodup|exact Hin]. Qed.

Lemma kept_same m a H dir d d' :
  same_snapshots dir d d' → kept_snapshots m a H dir d → kept_snapshots m a H dir d'.
Proof.
  intros Hs [Hh He]. split; [by eapply same_hold|]. intros Hb. specialize (He Hb).
  pose proof (numbers_more dir d d' (hold_nodup _ _ _ Hh)) as Hl. etrans; [exact He|]. apply Hl.
  intros n. by apply same_numbers; [apply Hh|].
Qed.

Lemma republished_get dir n cs d d' k :
  republished dir n cs d d' → checkpoint_file_lsn (checkpointFileName n) = Some n →
  checkpoint_file_lsn (checkpointFileName k) = Some k → k ≠ n →
  omap_get (files d') (dir, checkpointFileName k) = omap_get (files d) (dir, checkpointFileName k).
Proof.
  intros [[_ He] _] En Ek Hne. apply He. rewrite !not_elem_of_cons. split_and!; [| |apply not_elem_of_nil]; intros E; apply (f_equal snd) in E; cbn [snd] in E.
  - by apply (temporary_not_final n k).
  - rewrite E, En in Ek. by injection Ek as ->.
Qed.

Lemma republished_kept m a H dir d d' n cs :
  covers m a H n cs → republished dir n cs d d' → kept_snapshots m a H dir d → kept_snapshots m a H dir d'.
Proof.
  intros Hc Hr [[Hn Hh] He].
  assert (checkpoint_file_lsn (checkpointFileName n) = Some n) as En.
  { destruct (covers_range _ _ _ _ _ Hc) as [[H0 _] H1]. by apply checkpoint_name_lsn. }
  assert (NoDup (omap_keys (files d'))) as Hn' by (by apply (republished_elsewhere _ _ _ _ _ Hr)).
  split; [split; [exact Hn'|]|].
  - intros k Hk. apply in_numbers in Hk as [Hs Ek]; [|exact Hn']. destruct (decide (k = n)) as [->|Hne].
    + destruct (republished_final _ _ _ _ _ Hr) as [E|Hp]; [|by exists cs]. rewrite E in Hs.
      destruct (Hh n) as (cs' & Hc' & bs & Hbs & Hh'); [by apply in_numbers|]. exists cs'. split; [done|].
      exists bs. split; [done|]. unfold holds in *. by rewrite E.
    + pose proof (republished_get _ _ _ _ _ _ Hr En Ek Hne) as E. rewrite E in Hs.
      destruct (Hh k) as (cs' & Hc' & bs & Hbs & Hh'); [by apply in_numbers|]. exists cs'. split; [done|].
      exists bs. split; [done|]. unfold holds in *. by rewrite E.
  - intros Hb. etrans; [by apply He|]. apply numbers_more; [done|]. intros k. rewrite !in_numbers by done.
    intros [Hs Ek]. split; [|done]. destruct (decide (k = n)) as [->|Hne].
    + destruct (republished_final _ _ _ _ _ Hr) as [E|(bs & _ & Hp)]; [by rewrite E|]. unfold holds in Hp. by eexists.
    + by rewrite (republished_get _ _ _ _ _ _ Hr En Ek Hne).
Qed.

(** ** The engine and its snapshots *)
Lemma core_disk H s a d e :
  core H s a e → kept_snapshots (Wal.mode (log e)) a H (checkpoints e) d → core H s a (set_checkpoint_disk d e).
Proof. by intros [C1 C2 C3 C4 C5 C6] Hk; split. Qed.

Lemma core_schedule H s a e last bytes next failure : core H s a e → core H s a (set_schedule last bytes next failure e).
Proof. by intros [C1 C2 C3 C4 C5 C6]; split. Qed.

Lemma core_active H s a e act : core H s a e → core H s a (set_active act e).
Proof. by intros [C1 C2 C3 C4 C5 C6]; split. Qed.

Lemma core_rejections H s a e l : core H s a e → core H s a (set_rejections l e).
Proof. by intros [C1 C2 C3 C4 C5 C6]; split. Qed.

Lemma core_closed H s a e : core H s a e → core H s a (set_closed e).
Proof. by intros [C1 C2 C3 C4 C5 C6]; split. Qed.

(** No checkpoint in the background, or one that was stopped. *)
Definition idle (act : option ActiveCheckpoint) : Prop :=
  match act with Some c => aborted c = true ∧ active_steps c = Snapshot.Ended | None => True end.

Abbreviation any := (λ _ : Log, True).

Lemma running_any c act P H s e : running c act P H s e → running c act any H s e.
Proof. intros (He & Ha & a & Hc & _). split; [done|]. split; [done|]. by exists a. Qed.

Lemma idle_steady c act P H s e : idle act → running c act P H s e → steady c H s e.
Proof.
  intros Hi (He & Ha & a & Hc & _). split; [done|]. split; [done|]. exists a. split; [done|]. rewrite Ha.
  destruct act as [b|]; [|done]. destruct Hi as [Hb Hs]. cbn. by rewrite Hb.
Qed.

Lemma env_eqs c e : env e = c → Wal.mode (log e) = env_mode c ∧ checkpoints e = env_directory c ∧ databases e = env_databases c.
Proof. by intros <-. Qed.

(** Something done with the snapshots. *)
Lemma on_checkpoints_triple {A} (m : ST Disk exn A) c act P H s (D : Disk → Prop) (Q : A → Disk → Prop) :
  (∀ a d, P a → D d → kept_snapshots (env_mode c) a H (env_directory c) d →
     match m d with
     | (Ok x, d') => kept_snapshots (env_mode c) a H (env_directory c) d' ∧ Q x d'
     | (Throw _, d') => kept_snapshots (env_mode c) a H (env_directory c) d'
     end) →
  triple (λ e, running c act P H s e ∧ D (checkpoint_disk e)) (on_checkpoints m)
    (λ x e, running c act P H s e ∧ Q x (checkpoint_disk e)) (running c act P H s).
Proof.
  intros Hm e ((He & Ha & a & Hc & Hp) & Hd). destruct (env_eqs _ _ He) as (Em & Ed & _).
  pose proof (core_snapshots _ _ _ _ Hc) as Hk. rewrite Em, Ed in Hk. specialize (Hm a _ Hp Hd Hk).
  unfold on_checkpoints. destruct (m (checkpoint_disk e)) as [[x|x] d'].
  - destruct Hm as [Hk' Hq]. split; [|done]. split; [done|]. split; [done|]. exists a. split; [|done].
    apply core_disk; [done|]. by rewrite Em, Ed.
  - split; [done|]. split; [done|]. exists a. split; [|done]. apply core_disk; [done|]. by rewrite Em, Ed.
Qed.

Lemma translate_triple {A} P (m : Engine.Engine.action A) (Q : A → StorageEngine → Prop) R :
  triple P m Q R → triple P (or_translateIo m) Q R.
Proof. intros Hm. eapply triple_catch; [exact Hm|]. intros e. by apply triple_throw. Qed.

(** ** Removing what is not needed any more *)
Lemma grown_trim_safe m a k n lsn :
  removable a lsn k → lsn ≤ n → safe m a n → safe m (trimmed a k) n.
Proof.
  intros Hr Hn (H1 & H2 & H3). split_and!; [|done|done]. cbn. destruct Hr as [->|[_ Hr]]; lia.
Qed.

Lemma logged_trim failed a H lsn k :
  removable a lsn k → lsn ≤ len H → logged failed a H → logged failed (trimmed a k) H.
Proof.
  intros Hr Hl (Hb & more & tried & He & Ht & Hlen & Hs & Hf). split.
  - cbn. destruct Hr as [->|[_ Hr]]; lia.
  - exists more, tried. cbn. split_and!; try done.
    replace (Z.to_nat (log_base a + Z.of_nat k - 1)) with (Z.to_nat (log_base a - 1) + k)%nat by lia.
    rewrite <- drop_drop. by apply Forall2_drop.
Qed.

Lemma core_trim H s a e d w lsn k :
  core H s a e → log_at d w (trimmed a k) → removable a lsn k → same_log (log e) w → lsn ≤ len H →
  (∀ n, n ∈ snapshot_numbers (checkpoints e) (checkpoint_disk e) → lsn ≤ n) →
  (2 ≤ length (snapshot_numbers (checkpoints e) (checkpoint_disk e)))%nat →
  core H s (trimmed a k) (set_log d w e).
Proof.
  intros [C1 C2 C3 C4 C5 [K1 K2]] Hl Hr [S1 S2 S3 S4] HlH Hn H2. split; cbn; rewrite ?S2, ?S3; try done.
  - eapply logged_trim; [exact Hr|exact HlH|]. destruct C2 as (Hb & more & tried & He & Ht & Hlen & Hs & Hf).
    split; [done|]. exists more, tried. split_and!; try done. intros E. apply Hf.
    destruct (Wal.broken (log e)) eqn:Eb; [|done]. by rewrite S4 in E.
  - split; [|done]. eapply hold_impl; [|exact K1]. intros n cs Hin [R1 R2 R3]. split; [done| |done].
    eapply grown_trim_safe; [exact Hr|by apply Hn|done].
Qed.

(** The snapshots that are left. *)
Definition left (dir : jsstring) (ns : list Z) (d : Disk) : Prop := ∀ n, n ∈ snapshot_numbers dir d ↔ n ∈ ns.

Lemma left_length dir ns d : NoDup (omap_keys (files d)) → NoDup ns → left dir ns d → length (snapshot_numbers dir d) = length ns.
Proof.
  intros Hd Hn Hl. apply Permutation_length, NoDup_Permutation; [by apply numbers_nodup|done|exact Hl].
Qed.

Lemma descending_nodup ns : StronglySorted Z.gt ns → NoDup ns.
Proof.
  induction 1 as [|n ns Hs IH Hn]; constructor; [|done]. intros Hin. rewrite Forall_forall in Hn.
  specialize (Hn n Hin). lia.
Qed.

(** The last of a descending list is the least. *)
Lemma descending_least ns k n : StronglySorted Z.gt ns → ns !! k = Some n → Forall (λ x, n ≤ x) (take (S k) ns).
Proof.
  intros Hs. revert k. induction Hs as [|y ns Hs IH Hy]; intros k Hk; [done|]. destruct k as [|k].
  - injection Hk as ->. cbn. rewrite take_0. constructor; [lia|constructor].
  - change (ns !! k = Some n) in Hk. cbn [take]. constructor; [|by apply IH].
    rewrite Forall_forall in Hy. specialize (Hy n (list_elem_of_lookup_2 _ _ _ Hk)). lia.
Qed.

Section Finish.
Context (osL osC : Z → Call → Outcome) (c : Env) (act : option ActiveCheckpoint) (H : history) (s : State).
Abbreviation go := (running c act any H s).
Let dir : jsstring := env_directory c.

Lemma stage_same (P : StorageEngine → Prop) st : preserves P (stage st).
Proof. apply triple_get. intros f. apply triple_lift. intros e [Hg _]. by destruct (f st). Qed.

Lemma go_schedule last bytes next failure : ∀ e, go e → go (set_schedule last bytes next failure e).
Proof.
  intros e (He & Ha & a & Hc & _). split; [exact He|]. split; [exact Ha|]. exists a. split; [by apply core_schedule|done].
Qed.

Lemma unlink_left kept n rest d :
  NoDup (kept ++ n :: rest) → (2 ≤ length kept)%nat → NoDup (omap_keys (files d)) →
  left dir (kept ++ n :: rest) d →
  match unlinkSync osC (dir, checkpointFileName n) d with
  | (Ok _, d') => pruned dir [n] d d' ∧ left dir (kept ++ rest) d'
  | (Throw _, d') => files d' = files d
  end.
Proof.
  intros Hnd H2 Hd Hl. assert (n ∈ snapshot_numbers dir d) as Hin by (apply Hl, elem_of_app; right; left).
  apply in_numbers in Hin as [_ En]; [|done]. pose proof (unlink_old osC dir n d Hd En) as Hu.
  destruct (unlinkSync osC (dir, checkpointFileName n) d) as [[u|e] d']; [|done]. split; [done|].
  intros k. rewrite (pruned_numbers dir [n] d d' k Hd Hu), (Hl k), list_elem_of_singleton, !elem_of_app, elem_of_cons.
  apply NoDup_app in Hnd as (_ & Hdis & [Hn _]%NoDup_cons).
  split; [naive_solver|]. intros [Hk|Hk]; split; try tauto.
  - intros ->. apply (Hdis n Hk). left.
  - by intros ->.
Qed.

Lemma kept_pruned m a n d d' ns :
  kept_snapshots m a H dir d → pruned dir [n] d d' → left dir ns d' → NoDup ns → (2 ≤ length ns)%nat →
  kept_snapshots m a H dir d'.
Proof.
  intros [Hh He] Hp Hl Hn H2. pose proof (pruned_hold _ _ _ _ _ Hp Hh) as Hh'. split.
  - eapply hold_impl; [|exact Hh']. by intros k cs _ [Hc _].
  - intros _. rewrite (left_length dir ns d'); [done|apply Hh'|done|done].
Qed.

Lemma prune_go kept : (2 ≤ length kept)%nat → ∀ rest removed, NoDup (kept ++ rest) →
  triple (λ e, go e ∧ left dir (kept ++ rest) (checkpoint_disk e))
    (st_fold (λ old removed,
      _ ← or_translateIo (on_checkpoints (unlinkSync osC (file_path old)));
      mret (removed + 1)) (map (snapshot_file dir) rest) removed)
    (λ _ e, go e ∧ left dir kept (checkpoint_disk e)) go.
Proof.
  intros H2. induction rest as [|n rest IH]; intros removed Hnd; cbn [map st_fold].
  { apply triple_ret. intros e. by rewrite app_nil_r. }
  eapply triple_bind; [|intros b; apply IH; by apply NoDup_app in Hnd as (? & Hdis & [_ ?]%NoDup_cons);
    apply NoDup_app; split_and!; [done| |done]; intros x Hx Hx'; apply (Hdis x Hx); right].
  eapply triple_bind; [|intros u; apply triple_ret; intros e He; exact He].
  apply translate_triple. apply (on_checkpoints_triple _ c act any H s (left dir (kept ++ n :: rest))
    (λ _, left dir (kept ++ rest))). intros a d _ Hl Hk.
  pose proof (unlink_left kept n rest d Hnd H2 (hold_nodup _ _ _ (kept_hold _ _ _ _ _ Hk)) Hl) as Hu.
  cbn [file_path snapshot_file]. destruct (unlinkSync osC (dir, checkpointFileName n) d) as [[u|x] d'].
  - destruct Hu as [Hp Hl']. split; [|done]. eapply kept_pruned; [exact Hk|exact Hp|exact Hl'| |].
    + apply NoDup_app in Hnd as (? & Hdis & [_ ?]%NoDup_cons). apply NoDup_app. split_and!; [done| |done].
      intros x Hx Hx'. apply (Hdis x Hx). by right.
    + rewrite length_app. lia.
  - eapply kept_same; [by apply same_snapshots_refl|done].
Qed.

Lemma list_go N :
  triple (λ e, go e ∧ left dir N (checkpoint_disk e)) (on_checkpoints (Snapshot.listCheckpoints osC dir))
    (λ l e, go e ∧ ∃ ns, l = map (snapshot_file dir) ns ∧ StronglySorted Z.gt ns ∧ (∀ n, n ∈ ns ↔ n ∈ N) ∧
       left dir ns (checkpoint_disk e)) go.
Proof.
  apply (on_checkpoints_triple (Snapshot.listCheckpoints osC dir) c act any H s (left dir N)
    (λ l d, ∃ ns, l = map (snapshot_file dir) ns ∧ StronglySorted Z.gt ns ∧ (∀ n, n ∈ ns ↔ n ∈ N) ∧ left dir ns d)).
  intros a d _ HN Hk. pose proof (list_outcome osC dir d (hold_nodup _ _ _ (kept_hold _ _ _ _ _ Hk))) as Hl.
  destruct (Snapshot.listCheckpoints osC dir d) as [[l|x] d'].
  - destruct Hl as (Hf & ns & -> & Hs & Hp). split; [by eapply kept_same; [apply same_snapshots_refl|]|].
    assert (left dir ns d) as Hl by (intros n; by rewrite Hp). exists ns. split; [done|]. split; [done|].
    split; [intros n; by rewrite <- (Hl n), (HN n)|]. intros n. unfold snapshot_numbers. rewrite Hf. apply Hl.
  - destruct Hl as [Hf _]. by eapply kept_same; [apply same_snapshots_refl|].
Qed.

Lemma truncate_go ns k n :
  StronglySorted Z.gt ns → ns !! k = Some n → (1 ≤ k)%nat →
  triple (λ e, go e ∧ left dir (take (S k) ns) (checkpoint_disk e)) (on_log (Wal.truncateThrough osL n))
    (λ _ e, go e ∧ left dir (take (S k) ns) (checkpoint_disk e)) go.
Proof.
  intros Hs Hk H1 e ((He & Ha & a & Hc & _) & Hl). destruct (env_eqs _ _ He) as (Em & Ed & _).
  pose proof (truncateThrough_keeps osL n _ _ _ (core_log _ _ _ _ Hc)) as Ht. unfold on_log.
  destruct (Wal.truncateThrough osL n (log_disk e, log e)) as [r [d w]]. destruct Ht as (Hst & Hb & m & Hm & Hr).
  assert (same_log (log e) w) as Hsl by (by apply same_log_settings; [|rewrite Hb]).
  pose proof (core_snapshots _ _ _ _ Hc) as [Hh _]. pose proof (hold_nodup _ _ _ Hh) as Hnd.
  pose proof (lookup_lt_Some _ _ _ Hk) as Hlt.
  assert (NoDup (take (S k) ns)) as Hn.
  { apply descending_nodup in Hs. rewrite <- (take_drop (S k) ns) in Hs. by apply NoDup_app in Hs as [? _]. }
  assert (go (set_log d w e)) as Hgo; [|by destruct r; [split|]].
  split; [by rewrite env_set_log|]. split; [done|]. exists (trimmed a m). split; [|done].
  apply (core_trim H s a e d w n m Hc Hm Hr Hsl); rewrite ?Ed; fold dir.
  - assert (n ∈ snapshot_numbers dir (checkpoint_disk e)) as Hin.
    { apply Hl. apply list_elem_of_lookup. exists k. rewrite lookup_take_lt by lia. exact Hk. }
    unfold dir in Hin. rewrite <- Ed in Hin. destruct (hold_each _ _ _ Hh n Hin) as (cs & Hcov & _). apply Hcov.
  - intros x Hx%Hl. pose proof (descending_least ns k n Hs Hk) as Hle. rewrite Forall_forall in Hle. by apply Hle.
  - rewrite (left_length dir _ _ Hnd Hn Hl), length_take. lia.
Qed.

(** The loops of [finishCheckpoint] over the snapshots [ns]. *)
Lemma prune_list ns retention removed :
  StronglySorted Z.gt ns → 2 ≤ retention →
  triple (λ e, go e ∧ left dir ns (checkpoint_disk e))
    (st_fold (λ old removed,
      _ ← or_translateIo (on_checkpoints (unlinkSync osC (file_path old)));
      mret (removed + 1)) (drop (Z.to_nat retention) (map (snapshot_file dir) ns)) removed)
    (λ _ e, go e ∧ left dir (take (Z.to_nat retention) ns) (checkpoint_disk e)) go.
Proof.
  intros Hs H2. rewrite <- fmap_drop. destruct (decide (drop (Z.to_nat retention) ns = [])) as [E|E].
  - rewrite E. apply triple_ret. intros e Hg. rewrite <- (take_drop (Z.to_nat retention) ns), E, app_nil_r in Hg. exact Hg.
  - assert (Z.to_nat retention < length ns)%nat.
    { destruct (decide (Z.to_nat retention < length ns)%nat); [done|]. exfalso. apply E, drop_ge. lia. }
    eapply triple_weaken; [apply (prune_go (take (Z.to_nat retention) ns) ltac:(rewrite length_take; lia)
      (drop (Z.to_nat retention) ns))| |by intros a e He|done]; rewrite take_drop; [by apply descending_nodup|done].
Qed.

Lemma truncate_list ns retention :
  StronglySorted Z.gt ns → 2 ≤ retention →
  triple (λ e, go e ∧ left dir (take (Z.to_nat retention) ns) (checkpoint_disk e))
    (match map (snapshot_file dir) ns !! Z.to_nat (retention - 1) with
     | None => mret 0
     | Some oldestKept => on_log (Wal.truncateThrough osL (file_lsn oldestKept))
     end) (λ _ e, go e ∧ left dir (take (Z.to_nat retention) ns) (checkpoint_disk e)) go.
Proof.
  intros Hs H2. replace (map (snapshot_file dir) ns !! Z.to_nat (retention - 1))
    with (snapshot_file dir <$> ns !! Z.to_nat (retention - 1)) by (symmetry; apply list_lookup_fmap).
  destruct (ns !! Z.to_nat (retention - 1)) as [n|] eqn:Ek; cbn [fmap option_fmap option_map]; [|by apply triple_ret].
  replace (Z.to_nat retention) with (S (Z.to_nat (retention - 1))) by lia. by apply (truncate_go ns _ n); [..|lia].
Qed.

Lemma newest_kept ns k n :
  StronglySorted Z.gt ns → (1 ≤ k)%nat → n ∈ ns → (∀ x, x ∈ ns → x ≤ n) → n ∈ take k ns.
Proof.
  intros Hs Hk Hn Hmax. destruct ns as [|y ns]; [by apply not_elem_of_nil in Hn|]. destruct k as [|k]; [lia|]. cbn [take].
  apply elem_of_cons in Hn as [->|Hn]; [left|]. exfalso. apply StronglySorted_inv in Hs as [_ Hy].
  rewrite Forall_forall in Hy. specialize (Hy n Hn). specialize (Hmax y ltac:(left)). lia.
Qed.

(** What a finished checkpoint answers; the newest of the snapshots [N] is left. *)
Definition finished (begun : BegunCheckpoint) (file : jsstring) (N : list Z) (r : option CheckpointResult)
    (e : StorageEngine) : Prop :=
  match r with
  | None => closed e = true
  | Some x => result_lsn x = begun_lsn begun ∧ result_file x = file ∧ lastCheckpoint e = begun_lsn begun ∧
      ∀ n, n ∈ N → (∀ k, k ∈ N → k ≤ n) → n ∈ snapshot_numbers dir (checkpoint_disk e)
  end.

Lemma finish_list begun file N :
  triple (λ e, go e ∧ left dir N (checkpoint_disk e)) (finishCheckpoint osL osC begun file)
    (λ r e, go e ∧ finished begun file N r e) go.
Proof.
  unfold finishCheckpoint. apply triple_get. intros b. destruct b; [by apply triple_ret; intros e [[Hg _] Hb]|].
  apply triple_get. intros directory. apply triple_get. intros retention.
  eapply (triple_bind _ _ _ (λ l e, (go e ∧ ∃ ns, l = map (snapshot_file dir) ns ∧ StronglySorted Z.gt ns ∧
    (∀ n, n ∈ ns ↔ n ∈ N) ∧ left dir ns (checkpoint_disk e)) ∧ 2 ≤ retention)).
  { intros e [[[Hg _] Ed] Er]. assert (2 ≤ retention) as H2.
    { destruct Hg as ((_ & _ & a & Hc & _) & _). rewrite <- Er. apply Hc. }
    assert (directory = dir) as -> by (destruct Hg as ((He & _) & _); rewrite <- Ed; apply (env_eqs _ _ He)).
    pose proof (list_go N e Hg) as Hl. by destruct (on_checkpoints _ e) as [[l|x] e']. }
  intros l. intros e [[Hg (ns & -> & Hs & HN & Hl)] H2]. generalize (conj Hg Hl). clear Hg Hl. revert e.
  pose (kept := λ e, go e ∧ left dir (take (Z.to_nat retention) ns) (checkpoint_disk e)).
  eapply (triple_bind _ _ _ (λ _, kept) (λ r e, go e ∧ finished begun file N r e)); [by apply prune_list|].
  intros removedSnapshots. eapply (triple_bind _ _ _ (λ _, kept)).
  { eapply triple_weaken; [apply stage_same|intros e He; exact He|done|by intros e [Hg _]]. }
  intros _. eapply (triple_bind _ _ _ (λ _, kept)); [by apply truncate_list|].
  intros removedSegments. eapply (triple_bind _ _ _ (λ _, kept)).
  { eapply triple_weaken; [apply stage_same|intros e He; exact He|done|by intros e [Hg _]]. }
  intros u1. eapply (triple_bind _ _ _ (λ _ e, kept e ∧ lastCheckpoint e = begun_lsn begun)).
  { apply triple_update. intros e [Hg Hl]. split; [|done]. split; [by apply go_schedule|done]. }
  intros u2. apply triple_ret. intros e [[Hg Hl] Hlast]. split; [done|]. split; [done|]. split; [done|]. split; [done|].
  intros n Hn Hmax. apply Hl, newest_kept; [done|lia|by apply HN|]. intros x Hx. by apply Hmax, HN.
Qed.

Lemma finish_go begun file : preserves go (finishCheckpoint osL osC begun file).
Proof.
  intros e Hg. pose proof (finish_list begun file (snapshot_numbers dir (checkpoint_disk e)) e) as Hf.
  assert (left dir (snapshot_numbers dir (checkpoint_disk e)) (checkpoint_disk e)) as Hl by done.
  specialize (Hf (conj Hg Hl)). by destruct (finishCheckpoint osL osC begun file e) as [[r|x] e']; [destruct Hf|].
Qed.
End Finish.
