(* ===== verification/EngineSteps.v ===== *)
(** * The storage engine: what runs beside the commands

    Checkpoints from their beginning to their end, at once and in the background,
    the timers, and closing the engine: none of them changes the history or the
    collections. *)

From stdpp Require Import gmap.
From S2P Require Import Prelude Errors JsNumber JsString JsValue Binary CustomId Codec Roundtrip FilterSpec Update FieldIndex IndexSpec IndexSet IndexSetSpec WalFormat Disk DiskLemmas WriteAheadLog WalLemmas WalInvariant WalOperations WalUpkeep WalOpen WalCrash Operations Checkpoint CheckpointWrite CheckpointRead Triples Stored Collection CollectionLemmas CollectionChanges CollectionSpec CollectionIndexes CollectionModel Engine EngineReplay EngineInvariant EngineCheckpoint.
Import Operations.Operations Engine.Engine Engine.Engine.Wal(WriteConcern,Memory,Journaled,Flushed).

Section Steps.
Context (osL osC : Z → Call → Outcome) (c : Env) (H : history) (s : State).
Context (in_memory : view_of (env_databases c) = s).
Let dir : jsstring := env_directory c.

(** What a checkpoint that has begun is to write. *)
Definition begun_covers (b : BegunCheckpoint) (a : Log) : Prop :=
  covers (env_mode c) a H (begun_lsn b) (begun_collections b).

Lemma covers_upward b : upward (env_mode c) (begun_covers b).
Proof. intros a a' Hg. by apply covers_grown. Qed.

Lemma any_upward m : upward m any.
Proof. done. Qed.

Lemma assertOpen_steady P : preserves P assertOpen.
Proof. apply triple_get. intros b. destruct b; [apply triple_throw|apply triple_ret]; by intros e [He _]. Qed.

Lemma steady_idle e : steady c H s e → match activeCheckpoint e with Some a => aborted a = true | None => True end →
  idle (activeCheckpoint e) ∧ running c (activeCheckpoint e) any H s e.
Proof.
  intros (He & Ha & a & Hc & Hok) Hb. split.
  - destruct (activeCheckpoint e) as [b|]; [|done]. cbn in *. rewrite Hb in Hok. done.
  - split; [done|]. split; [done|]. by exists a.
Qed.

Lemma abort_steady :
  triple (steady c H s) (abort osC) (λ _ e, idle (activeCheckpoint e) ∧ running c (activeCheckpoint e) any H s e) (λ _, False).
Proof.
  apply triple_get. intros act e [Hs Ea]. destruct act as [b|].
  2: { cbn. apply steady_idle; [done|]. by rewrite Ea. }
  unfold update, st_update, mbind, st_bind, on_checkpoints. cbn [checkpoint_disk set_active].
  pose proof Hs as (He & _ & a & Hc & Hok). rewrite Ea in Hok. cbn in Hok.
  assert (∃ d', Snapshot.return_ osC (active_steps b) (checkpoint_disk e) = (Ok (), d') ∧
    same_snapshots dir (checkpoint_disk e) d') as (d' & -> & Hd).
  { destruct (aborted b).
    - rewrite Hok. eexists. split; [reflexivity|]. by apply same_snapshots_refl.
    - destruct Hok as [_ Hst]. destruct (return_outcome osC dir _ _ _ _ Hst) as (d' & -> & Hel).
      exists d'. split; [done|]. by eapply same_elsewhere. }
  cbn. split; [done|]. split; [done|]. split; [done|]. exists a. split; [|done].
  destruct (env_eqs _ _ He) as (_ & Ed & _). apply core_disk; [by apply core_active|].
  eapply kept_same; [cbn; rewrite Ed; exact Hd|]. apply Hc.
Qed.

(** *** Beginning a checkpoint *)
Definition begun_state act P (r : option BegunCheckpoint) : StorageEngine → Prop :=
  match r with
  | None => running c act P H s
  | Some b => running c act (λ a, P a ∧ begun_covers b a) H s
  end.

Lemma full_covers l a :
  core H s a l → full (env_mode c) H a → env l = c →
  covers (env_mode c) a H (len H) (each (snapshot_collection None) (databases l)).
Proof using in_memory.
  intros Hc [F1 F2 F3 F4] He. split.
  - pose proof (len_nonneg H). lia.
  - split_and!; [lia|lia|]. intros Hm. specialize (F3 Hm). lia.
  - exists s. split; [by apply (proj1 (state_at_full H s)), Hc|]. destruct (env_eqs _ _ He) as (_ & _ & ->). rewrite <- in_memory.
    apply view_snapshot. rewrite in_memory. eapply sound_good; [by eapply logged_sound, Hc|apply Hc].
Qed.

Lemma begin_covers act P lsn :
  upward (env_mode c) P →
  triple (λ e, running c act P H s e ∧ lastLsn e = lsn) (beginCheckpoint osL None)
    (λ r e, begun_state act P r e ∧
       match r with Some b => begun_lsn b = lsn ∧ lsn = len H | None => lsn = 0 ∨ lsn = lastCheckpoint e end)
    (running c act P H s).
Proof using in_memory.
  intros HP. apply triple_get. intros lsn'. apply triple_get. intros last.
  destruct ((lsn' =? 0) || (lsn' =? last)) eqn:El.
  { apply triple_ret. intros e [[[Hr <-] <-] Hlast]. split; [exact Hr|].
    apply orb_true_iff in El as [El|El]; apply Z.eqb_eq in El; [by left|right; congruence]. }
  eapply (triple_bind _ _ _ (λ _ e, running c act (λ a, P a ∧ full (env_mode c) H a ∧ lsn = len H) H s e ∧ lsn' = lsn)).
  { intros e [[[Hr <-] <-] _]. pose proof (sync_full osL c act P H s (lastLsn e) HP e (conj Hr eq_refl)) as Hs.
    by destruct (on_log _ e) as [[u|x] e']. }
  intros u. apply triple_get. intros collections. apply triple_get. intros bytes. apply triple_ret.
  intros e [[[(He & Ha & a & Hc & Hp & Hf & ->) ->] <-] _]. cbn. split; [|done]. split; [done|]. split; [done|].
  exists a. split; [done|]. split; [done|]. unfold begun_covers. cbn. by apply full_covers.
Qed.

Lemma begin_any act P :
  upward (env_mode c) P → triple (running c act P H s) (beginCheckpoint osL None) (begun_state act P) (running c act P H s).
Proof using in_memory.
  intros HP e Hr. pose proof (begin_covers act P (lastLsn e) HP e (conj Hr eq_refl)) as Hb.
  by destruct (beginCheckpoint osL None e) as [[r|x] e']; [destruct Hb|].
Qed.

(** *** A checkpoint at once *)
Lemma write_go onStage act P b :
  triple (running c act (λ a, P a ∧ begun_covers b a) H s)
    (or_translateIo (on_checkpoints (Snapshot.writeCheckpoint osC onStage dir (begun_lsn b) (begun_collections b))))
    (λ _ e, running c act any H s e ∧ begun_lsn b ∈ snapshot_numbers dir (checkpoint_disk e)) (running c act any H s).
Proof.
  apply translate_triple. eapply triple_weaken;
    [apply (on_checkpoints_triple _ c act (λ a, P a ∧ begun_covers b a) H s (λ _, True)
      (λ _ d, begun_lsn b ∈ snapshot_numbers dir d))| | |].
  - intros a d [_ Hcov] _ Hk.
    pose proof (writeCheckpoint_outcome osC onStage dir (begun_lsn b) (begun_collections b) d
      (hold_nodup _ _ _ (kept_hold _ _ _ _ _ Hk))) as Hw. unfold CheckpointWrite.written in Hw.
    destruct (Snapshot.writeCheckpoint _ _ _ _ _ d) as [[file|x] d'].
    + destruct Hw as (_ & Hr & (bs & _ & Hh) & _). pose proof (republished_kept _ _ _ _ _ _ _ _ Hcov Hr Hk) as Hk'.
      split; [exact Hk'|]. apply in_numbers; [apply Hk'|]. split; [unfold holds in Hh; by eexists|].
      destruct (covers_range _ _ _ _ _ Hcov) as [[H0 _] H1]. by apply checkpoint_name_lsn.
    + destruct Hw as (Hr & _). by eapply republished_kept.
  - by intros e He.
  - intros u e [Hr Hn]. split; [by eapply running_any|done].
  - intros e Hr. by eapply running_any.
Qed.

(** The snapshot with the last number is the newest, and so it is kept. *)
Lemma finish_newest act b file :
  begun_lsn b = len H →
  triple (λ e, running c act any H s e ∧ begun_lsn b ∈ snapshot_numbers dir (checkpoint_disk e))
    (finishCheckpoint osL osC b file)
    (λ r e, running c act any H s e ∧
       match r with
       | Some x => result_lsn x = len H ∧ lastCheckpoint e = len H ∧ len H ∈ snapshot_numbers dir (checkpoint_disk e)
       | None => closed e = true
       end) (running c act any H s).
Proof.
  intros Eb e [Hr Hn]. set (N := snapshot_numbers dir (checkpoint_disk e)) in *.
  assert (left dir N (checkpoint_disk e)) as Hl by done.
  assert (∀ k, k ∈ N → k ≤ begun_lsn b) as Hmax.
  { intros k Hk. rewrite Eb. destruct Hr as (He & _ & a & [_ _ _ _ _ [Hh _]] & _). destruct (env_eqs _ _ He) as (_ & Ed & _).
    rewrite Ed in Hh. destruct (hold_each _ _ _ Hh k Hk) as (cs & Hcov & _). apply Hcov. }
  pose proof (finish_list osL osC c act H s b file N e (conj Hr Hl)) as Hf.
  destruct (finishCheckpoint osL osC b file e) as [[[x|]|x] e']; [|done|done].
  destruct Hf as (Hr' & E1 & _ & E2 & Hkeep). split; [done|]. split; [congruence|]. split; [congruence|].
  rewrite <- Eb. by apply Hkeep.
Qed.

Definition checkpointed (lsn : Z) (r : option CheckpointResult) (e : StorageEngine) : Prop :=
  match r with
  | Some x => lsn = len H ∧ result_lsn x = lsn ∧ lastCheckpoint e = lsn ∧ lsn ∈ snapshot_numbers dir (checkpoint_disk e)
  | None => lsn = 0 ∨ lsn = lastCheckpoint e ∨ closed e = true
  end.

Lemma checkpoint_go act lsn :
  triple (λ e, running c act any H s e ∧ lastLsn e = lsn)
    (begun ← beginCheckpoint osL None;
     match begun with
     | None => mret None
     | Some begun =>
         directory ← this checkpoints;
         onStage ← this (λ e, onCheckpointStage (settings e));
         file ← or_translateIo (on_checkpoints
           (Snapshot.writeCheckpoint osC onStage directory (begun_lsn begun) (begun_collections begun)));
         finishCheckpoint osL osC begun file
     end) (λ r e, running c act any H s e ∧ checkpointed lsn r e) (running c act any H s).
Proof using in_memory.
  eapply triple_bind; [apply begin_covers, any_upward|].
  intros [b|]; [|apply triple_ret; intros e [Hr [Hz|Hz]]; (split; [exact Hr|]); [by left|by right; left]].
  apply triple_get. intros directory. apply triple_get. intros onStage.
  intros e [[[Hr [<- El]] Ed] _]. assert (directory = dir) as -> by (destruct Hr as (He & _); rewrite <- Ed; apply (env_eqs _ _ He)).
  revert e Hr Ed. enough (triple (running c act (λ a, any a ∧ begun_covers b a) H s)
    (file ← or_translateIo (on_checkpoints (Snapshot.writeCheckpoint osC onStage dir (begun_lsn b) (begun_collections b)));
     finishCheckpoint osL osC b file) (λ r e, running c act any H s e ∧ checkpointed (begun_lsn b) r e)
    (running c act any H s)) as Ht by (intros e Hr _; by apply Ht).
  eapply triple_bind; [by apply write_go|]. intros file.
  eapply triple_weaken; [by apply (finish_newest act b file)|done| |done].
  intros [x|] e [Hr Hf]; (split; [done|]); [rewrite El; by destruct Hf as (? & ? & ?)|by right; right].
Qed.

Lemma checkpoint_outcome lsn :
  triple (λ e, steady c H s e ∧ lastLsn e = lsn) (checkpoint_with osL osC None)
    (λ r e, steady c H s e ∧ checkpointed lsn r e) (steady c H s).
Proof using in_memory.
  eapply triple_bind.
  { eapply triple_weaken; [apply assertOpen_steady|intros e He; exact He|intros u e He; exact He|by intros e [He _]]. }
  intros u e [He El]. pose proof (abort_steady e He) as Ha. unfold mbind at 1, st_bind at 1.
  assert (log (abort osC e).2 = log e) as Ew.
  { unfold abort, this, st_get, mbind, st_bind. destruct (activeCheckpoint e) as [b|]; [|done].
    unfold update, st_update, on_checkpoints. by destruct (Snapshot.return_ _ _ _) as [[]]. }
  destruct (abort osC e) as [[u'|x] e1]; [|done]. destruct Ha as [Hi Hr]. cbn [snd] in Ew.
  assert (lastLsn e1 = lsn) as El1 by (unfold lastLsn; by rewrite Ew).
  pose proof (checkpoint_go (activeCheckpoint e1) lsn e1 (conj Hr El1)) as Hg.
  match goal with |- match ?m e1 with _ => _ end => destruct (m e1) as [[r|x] e2] end.
  - destruct Hg as [Hg Hc]. split; [by eapply idle_steady|done].
  - by eapply idle_steady.
Qed.

Lemma checkpoint_steady : preserves (steady c H s) (checkpoint_with osL osC None).
Proof using in_memory.
  intros e He. pose proof (checkpoint_outcome (lastLsn e) e (conj He eq_refl)) as Hc.
  by destruct (checkpoint_with osL osC None e) as [[r|x] e']; [destruct Hc|].
Qed.

(** *** In the background *)
Lemma next_go onStage b n :
  let a0 := {| active_begun := b; active_steps := n; active_origin := Automatic; aborted := false |} in
  ∀ act, triple (λ e, running c act (begun_covers b) H s e ∧
    steps_inv dir (begun_lsn b) (begun_collections b) (checkpoint_disk e) n)
    (or_translateIo (on_checkpoints (Snapshot.next osC onStage n)))
    (λ r e, running c act (begun_covers b) H s e ∧
       match r with
       | inl n' => steps_inv dir (begun_lsn b) (begun_collections b) (checkpoint_disk e) n'
       | inr _ => True
       end) (running c act (begun_covers b) H s).
Proof.
  intros a0 act. apply translate_triple.
  apply (on_checkpoints_triple _ c act (begun_covers b) H s
    (λ d, steps_inv dir (begun_lsn b) (begun_collections b) d n)
    (λ r d, match r with inl n' => steps_inv dir (begun_lsn b) (begun_collections b) d n' | inr _ => True end)).
  intros a d Hcov Hst Hk.
  pose proof (next_outcome osC onStage dir (begun_lsn b) (begun_collections b) n d
    (hold_nodup _ _ _ (kept_hold _ _ _ _ _ Hk)) Hst) as Hn. unfold stepped in Hn.
  destruct (Snapshot.next osC onStage n d) as [[[n'|file]|x] d'].
  - destruct Hn as (Hst' & Hel & _). split; [|done]. eapply kept_same; [by eapply same_elsewhere|done].
  - destruct Hn as (_ & Hr & _). split; [|done]. by eapply republished_kept.
  - destruct Hn as (Hr & _). by eapply republished_kept.
Qed.

Lemma turn_steady b :
  aborted b = false →
  triple (λ e, steady c H s e ∧ activeCheckpoint e = Some b) (turn osL osC b) (λ _, steady c H s) (steady c H s).
Proof.
  intros Hb. apply triple_get. intros onStage.
  eapply (triple_catch _ _ _ _ _ (running c (Some b) any H s)).
  2: { intros x. apply triple_update. intros e (He & Ha & a & Hc & _). split; [done|]. split; [done|].
    exists a. split; [by apply core_active, core_rejections|done]. }
  eapply triple_bind.
  { eapply triple_weaken; [apply (next_go onStage (active_begun b) (active_steps b) (Some b))| |intros r e He; exact He|].
    - intros e [[(He & _ & a & Hc & Hok) Ea] _]. rewrite Ea in Hok. cbn in Hok. rewrite Hb in Hok.
      destruct Hok as [Hcov Hst]. split; [|done]. split; [done|]. split; [done|]. by exists a.
    - intros e. apply running_any. }
  intros [n'|file].
  - apply triple_update. intros e [(He & Ha & a & Hc & Hcov) Hst]. split; [done|]. split; [done|].
    exists a. split; [by apply core_active|]. cbn. by rewrite Hb.
  - eapply triple_bind.
    { eapply triple_weaken; [apply (finish_go osL osC c (Some b) H s)| |intros r e He; exact He|done].
      intros e [Hr _]. by eapply running_any. }
    intros r. apply triple_update. intros e (He & Ha & a & Hc & _). split; [done|]. split; [done|].
    exists a. split; [by apply core_active|done].
Qed.

Lemma async_steady origin : preserves (steady c H s) (checkpointAsync_with osL osC None origin).
Proof using in_memory.
  eapply triple_bind; [apply assertOpen_steady|]. intros u. apply triple_get. intros act.
  destruct act as [b|]; [apply triple_ret; by intros e [Hs _]|].
  eapply (triple_bind _ _ _ (begun_state None any)).
  { eapply triple_weaken; [apply (begin_any None any), any_upward| |intros a e He; exact He|].
    - intros e [Hs Ea]. destruct (steady_idle e Hs) as [_ Hr]; [by rewrite Ea|]. by rewrite Ea in Hr.
    - intros e. by apply idle_steady. }
  intros [b|]; [|apply triple_ret; intros e Hr; by apply (idle_steady c None any)].
  apply triple_get. intros directory. set (a0 := {| active_begun := b |}).
  eapply (triple_bind _ _ _ (λ _ e, steady c H s e ∧ activeCheckpoint e = Some a0)).
  { apply triple_update. intros e [(He & _ & a & Hc & _ & Hcov) Ed]. split; [|done]. split; [done|]. split; [done|].
    exists a. split; [by apply core_active|]. cbn. split; [done|]. split; [|done]. rewrite <- Ed. apply (env_eqs _ _ He). }
  intros u'. eapply triple_bind; [by apply turn_steady|]. intros u2. by apply triple_ret.
Qed.

Lemma steady_core e e' :
  steady c H s e → env e' = env e → activeCheckpoint e' = activeCheckpoint e → checkpoint_disk e' = checkpoint_disk e →
  (∀ a, core H s a e → core H s a e') → steady c H s e'.
Proof.
  intros (He & _ & a & Hc & Hok) E1 E2 E3 Hcore. split; [congruence|]. split; [done|]. exists a.
  split; [by apply Hcore|]. by rewrite E2, E3.
Qed.

Lemma tick_steady : preserves (steady c H s) (tick osL osC).
Proof.
  apply triple_get. intros [b|]; [|apply triple_ret; by intros e [Hs _]].
  destruct (aborted b) eqn:Eb; [|by apply turn_steady].
  apply triple_update. intros e [(He & _ & a & Hc & _) _]. split; [done|]. split; [done|].
  exists a. split; [by apply core_active|done].
Qed.

Lemma schedule_steady (f : StorageEngine → StorageEngine) R :
  (∀ e, ∃ last bytes next failure, f e = set_schedule last bytes next failure e) →
  triple (steady c H s) (update f) (λ _, steady c H s) R.
Proof.
  intros Hf. apply triple_update. intros e Hs. destruct (Hf e) as (last & bytes & next & failure & ->).
  apply (steady_core e); try done. intros a. apply core_schedule.
Qed.

Lemma failed_steady x : preserves (steady c H s) (failed x).
Proof. apply schedule_steady. intros e. by do 4 eexists. Qed.

Lemma settle_steady : preserves (steady c H s) settle.
Proof.
  apply triple_get. intros l. eapply (triple_bind _ _ _ (λ _, steady c H s)).
  - apply triple_update. intros e [Hs _]. apply (steady_core e); try done. intros a. apply core_rejections.
  - intros u. apply triple_each. intros [[] x] _; cbn; [apply failed_steady| |by apply triple_ret].
    apply schedule_steady. intros e. by do 4 eexists.
Qed.

(** The automatic checkpoint, and the timer: what they throw is kept for later. *)
Lemma start_steady origin (background : bool) h :
  (∀ x, preserves (steady c H s) (h x)) →
  preserves (steady c H s)
    (st_catch (if background then _ ← checkpointAsync_with osL osC None origin; mret ()
               else _ ← checkpoint_with osL osC None; mret ()) h).
Proof using in_memory.
  intros Hh. eapply triple_catch; [|exact Hh]. destruct background.
  - eapply triple_bind; [apply async_steady|]. intros u. by apply triple_ret.
  - eapply triple_bind; [apply checkpoint_steady|]. intros u. by apply triple_ret.
Qed.

Lemma due_steady : preserves (steady c H s) (runDueCheckpoint osL osC None).
Proof using in_memory.
  apply triple_get. intros bytes. apply triple_get. intros next. apply triple_get. intros act.
  destruct act; [apply triple_ret; by intros e [[[Hs _] _] _]|].
  destruct (bytes <? next); [apply triple_ret; by intros e [[[Hs _] _] _]|].
  eapply triple_weaken; [|intros e [[[Hs _] _] _]; exact Hs|intros u e He; exact He|intros e He; exact He].
  apply triple_get. intros background. eapply triple_weaken;
    [apply (start_steady Automatic background failed), failed_steady|by intros e [Hs _]|done|done].
Qed.

Lemma timer_steady : preserves (steady c H s) (checkpointTimer osL osC).
Proof using in_memory.
  apply triple_get. intros b. apply triple_get. intros act.
  destruct b, act; try (apply triple_ret; by intros e [[Hs _] _]).
  apply triple_get. intros background. eapply triple_weaken;
    [apply (start_steady Timer background)|by intros e [[[Hs _] _] _]|done|done].
  intros x. apply schedule_steady. intros e. by do 4 eexists.
Qed.

(** *** The log *)
Lemma log_steady {A} (m : ST (Disk * Wal.WriteAheadLog) exn A) : log_kept_by m → preserves (steady c H s) (on_log m).
Proof.
  intros Hm e Hs.
  pose proof (on_log_kept m c (activeCheckpoint e)
    (λ a, active_ok (env_mode c) a H (env_directory c) (checkpoint_disk e) (activeCheckpoint e)) H s Hm
    (active_grown _ _ _ _ _) e Hs) as Hr.
  unfold on_log in *. destruct (m (log_disk e, log e)) as [[r|x] [d w]]; exact Hr.
Qed.

Lemma commit_steady : preserves (steady c H s) (Engine.Engine.commit osL).
Proof.
  apply triple_get. intros b. destruct b; [apply triple_ret; by intros e [Hs _]|].
  eapply triple_weaken; [apply log_steady, commit_kept|by intros e [Hs _]|done|done].
Qed.

Lemma flush_timer_steady : preserves (steady c H s) (flushTimer osL).
Proof.
  apply triple_get. intros b. destruct b; [apply triple_ret; by intros e [Hs _]|].
  eapply triple_catch; [|intros x; by apply triple_ret].
  eapply triple_weaken; [apply log_steady, flush_kept|by intros e [Hs _]|done|done].
Qed.

Lemma close_steady : preserves (steady c H s) (Engine.Engine.close osL osC).
Proof using in_memory.
  apply triple_get. intros b. destruct b; [apply triple_ret; by intros e [Hs _]|].
  eapply triple_weaken; [|intros e [Hs _]; exact Hs|intros u e He; exact He|intros e He; exact He].
  eapply (triple_bind _ _ _ (λ _, steady c H s)).
  { eapply triple_weaken; [apply abort_steady|done| |done]. intros u e [Hi Hr]. by eapply idle_steady. }
  intros u. apply triple_get. intros due. eapply (triple_bind _ _ _ (λ _, steady c H s)).
  { eapply triple_weaken; [|intros e [Hs _]; exact Hs|intros v e He; exact He|intros e He; exact He].
    destruct due; [|by apply triple_ret].
    eapply (triple_catch _ _ _ _ _ (steady c H s)); [|intros x; by apply triple_ret].
    eapply triple_bind; [apply checkpoint_steady|]. intros v. by apply triple_ret. }
  intros failure. eapply (triple_bind _ _ _ (λ _, steady c H s)).
  { apply triple_update. intros e Hs. apply (steady_core e); try done. intros a. apply core_closed. }
  intros v. eapply (triple_bind _ _ _ (λ _, steady c H s)).
  { eapply (triple_catch _ _ _ _ _ (steady c H s)); [|intros x; by apply triple_ret].
    eapply triple_bind; [apply log_steady, close_kept|]. intros v'. by apply triple_ret. }
  intros [x|]; [by apply triple_throw|by apply triple_ret].
Qed.
End Steps.
