(* ===== verification/EngineCommands.v ===== *)
(** * The storage engine: the journal of its collections

    Appending a transaction adds it to the history or, when it throws, leaves the
    history as it was; so the journal that the engine gives to a collection keeps
    the promises that the collection relies on. *)

From stdpp Require Import gmap.
From S2P Require Import Prelude Errors JsNumber JsString JsValue Binary CustomId Codec Roundtrip FilterSpec Update FieldIndex IndexSpec IndexSet IndexSetSpec WalFormat Disk DiskLemmas WriteAheadLog WalLemmas WalInvariant WalOperations WalUpkeep WalOpen WalCrash Operations Checkpoint CheckpointWrite CheckpointRead Triples Stored Collection CollectionLemmas CollectionChanges CollectionSpec CollectionIndexes CollectionModel Engine EngineReplay EngineInvariant EngineCheckpoint EngineSteps.
Import Operations.Operations Engine.Engine Engine.Engine.Wal(WriteConcern,Memory,Journaled,Flushed).

(** ** A longer history *)
Definition safer (m : WriteConcern) (a a' : Log) : Prop := ∀ n, safe m a n → safe m a' n.

Lemma steady_history c H s H' s' a a' d w e :
  env e = c → core H s a e →
  active_ok (env_mode c) a H (env_directory c) (checkpoint_disk e) (activeCheckpoint e) →
  log_at d w a' → same_log (log e) w → logged (Wal.broken w) a' (H ++ H') →
  acknowledged (Wal.mode (log e)) (Wal.groupCommit (log e)) a' (H ++ H') → replay_all (H ++ H') [] = Ok s' →
  log_base a' = log_base a → safer (Wal.mode (log e)) a a' →
  steady c (H ++ H') s' (set_log d w e).
Proof.
  intros He Hc Hok Hl Hsl Hlog Hack Hr Hb Hs. destruct (env_eqs _ _ He) as (Em & _ & _). pose proof Hsl as [S1 S2 S3 _].
  split; [by rewrite env_set_log|]. split; [done|]. exists a'. split.
  - destruct Hc as [C1 C2 C3 C4 C5 [K1 K2]]. split; cbn; rewrite ?S2, ?S3; try done.
    split; [|by rewrite Hb]. eapply hold_impl; [|exact K1]. intros n cs _. apply covers_mono. apply Hs.
  - cbn. destruct (activeCheckpoint e) as [b|]; [|done]. cbn in *. destruct (aborted b); [done|].
    destruct Hok as [Hcov Hst]. split; [|done]. revert Hcov. apply covers_mono. rewrite <- Em. apply Hs.
Qed.

Section Append.
Context (osL osC : Z → Call → Outcome) (os_cleans : cleans osL).

Lemma append_refuses t p d w :
  Wal.closed w || Wal.broken w = true → ∃ x, Wal.append osL t p (d, w) = (Throw x, (d, w)).
Proof.
  intros Hcb. destruct (assertWritable_refuses d w Hcb) as (x & E). exists x. unfold Wal.append.
  by rewrite (bind_throw _ _ _ _ _ E).
Qed.

Lemma same_safer m a a' :
  log_base a' = log_base a → log_kept a' = log_kept a → log_durable a' = log_durable a → safer m a a'.
Proof. intros E1 E2 E3 n. unfold safe. by rewrite E1, E2, E3. Qed.

(** The log of an engine whose history is [H], with one transaction more. *)
Lemma logged_appended m group a H s t s' payload :
  logged false a H → replay_all H [] = Ok s → apply_all t s = Ok s' → good s' →
  encodeOperations t = Ok payload → Forall recordable t →
  let x := (RecordType_Transaction, payload) in
  logged false (appended m group a x) (H ++ [t]) ∧ (∀ failed, logged failed (attempt a x) H) ∧ logged true (queued a x) H.
Proof.
  intros (Hb & more & tried & He & Ht & Hl & Hs & Hm) Hr Et Hg Ep Hrec x. rewrite (Hm eq_refl) in *. clear Hm.
  cbn [app] in *. rewrite app_nil_r in He.
  assert (recorded t x) as Hx by done. assert (sound (H ++ [t])) as Hsn.
  { eapply sound_snoc; [by eapply sound_app|done..]. }
  assert (Forall2 recorded (drop (Z.to_nat (log_base a - 1)) (H ++ [t])) (log_entries a ++ [x])) as He'.
  { rewrite drop_app_le by (unfold len in Hb; lia). apply Forall2_app; [done|]. by constructor. }
  split; [|split; [intros failed|]].
  - split; [cbn; rewrite len_app; unfold len in *; cbn; lia|]. exists [], []. cbn. rewrite !app_nil_r. split_and!; try done; lia.
  - split; [done|]. exists [], [t]. cbn. rewrite app_nil_r. split_and!; try done; [by constructor].
  - split; [done|]. exists [t], []. cbn. split_and!; try done; lia.
Qed.

Lemma append_log c H s t s' payload :
  apply_all t s = Ok s' → good s' → encodeOperations t = Ok payload → Forall recordable t →
  triple (steady c H s) (on_log (Wal.append osL RecordType_Transaction payload))
    (λ _, steady c (H ++ [t]) s') (steady c H s).
Proof using os_cleans.
  intros Et Hg Ep Hrec e (He & _ & a & Hc & Hok). unfold on_log.
  pose proof Hc as [Hl Hlog Hack Hr _ _]. set (m := Wal.mode (log e)) in *.
  assert (∀ a' d w, log_at d w a' → same_log (log e) w → logged (Wal.broken w) a' H → log_base a' = log_base a →
    acknowledged m (Wal.groupCommit (log e)) a' H → safer m a a' → steady c H s (set_log d w e)) as Hsame.
  { intros a' d w. pose proof (steady_history c H s [] s a a' d w e) as Hh. rewrite app_nil_r in Hh. intros. by apply Hh. }
  destruct (Wal.broken (log e)) eqn:Hb.
  { destruct (append_refuses RecordType_Transaction payload (log_disk e) (log e)) as (x & ->); [by rewrite Hb, orb_true_r|].
    apply (Hsame a); [done|done|by rewrite Hb|done|done|by intros n]. }
  destruct (logged_appended m (Wal.groupCommit (log e)) a H s t s' payload Hlog Hr Et Hg Ep Hrec) as (L1 & L2 & L3).
  pose proof (logged_next _ _ _ Hlog eq_refl) as Hn. destruct (log_at_bounds _ _ _ Hl) as [B1 B2].
  pose proof (append_outcome osL _ _ a RecordType_Transaction payload os_cleans Hl
    (encodeOperations_bytes _ _ Ep Hrec)) as Ho.
  destruct (Wal.append osL RecordType_Transaction payload (log_disk e, log e)) as [[lsn|x] [d w]].
  - destruct Ho as (_ & Hs & Hb' & Hl'). fold m in Hl'.
    eapply steady_history; [exact He|exact Hc|exact Hok|exact Hl'|by apply same_log_settings; [|rewrite Hb]|by rewrite Hb'| | |done|].
    + unfold acknowledged. assert (len (H ++ [t]) = log_next a) as -> by (rewrite len_app, Hn; done). split; cbn.
      * intros Hm. rewrite bool_decide_eq_false_2 by done. lia.
      * intros Hm Hgr. unfold durable_after. fold m in Hm. rewrite Hm, Hgr. rewrite bool_decide_eq_true_2 by done. cbn. lia.
    + by rewrite replay_snoc, Hr.
    + intros n (H1 & H2 & H3). split_and!; cbn; [done| |].
      * case_bool_decide; lia.
      * intros Hm. specialize (H3 Hm). specialize (B2 Hm). unfold durable_after. case_match; lia.
  - destruct Ho as (Hs & Ho). assert (same_log (log e) w) as Hsl by (by apply same_log_settings; [|rewrite Hb]).
    destruct Ho as [Hl'|[Hl'|(Hm & Hb' & Hl')]].
    + apply (Hsame a); [done|done| |done|done|by intros n]. by eapply (grown_logged m); [apply grown_refl| |exact Hlog].
    + by apply (Hsame _ _ _ Hl' Hsl); [..|intros n].
    + apply (Hsame _ _ _ Hl'); [done|by rewrite Hb'|done| |by intros n]. fold m in Hm. split; rewrite Hm; done.
Qed.

(** No checkpoint starts before the next transaction is appended. *)
Definition not_due (e : StorageEngine) : Prop :=
  activeCheckpoint e ≠ None ∨ bytesSinceCheckpoint e < nextCheckpointAt e.

Lemma due_not P building : preserves (λ e, P e ∧ not_due e) (runDueCheckpoint osL osC building).
Proof.
  apply triple_get. intros bytes. apply triple_get. intros next. apply triple_get. intros act.
  destruct act as [b|]; [apply triple_ret; by intros e [[[He _] _] _]|].
  destruct (Z.ltb_spec bytes next); [apply triple_ret; by intros e [[[He _] _] _]|].
  by intros e [[[[_ [Hn|Hn]] <-] <-] Ea]; [|lia].
Qed.

Lemma append_steady c H s building t s' :
  view_of (env_databases c) = s → apply_all t s = Ok s' → good s' → Forall recordable t →
  triple (λ e, steady c H s e ∧ (building = None ∨ not_due e)) (append osL osC building t)
    (λ _, steady c (H ++ [t]) s') (steady c H s).
Proof using os_cleans.
  intros Hv Et Hg Hrec.
  eapply triple_bind.
  { eapply triple_weaken; [apply assertOpen_steady|intros e He; exact He|intros u e He; exact He|by intros e [He _]]. }
  intros u. eapply (triple_bind _ _ _ (λ _, steady c H s)).
  { intros e [He [->|Hd]].
    - by apply (due_steady osL osC c H s Hv).
    - pose proof (due_not (steady c H s) building e (conj He Hd)) as Hr.
      destruct (runDueCheckpoint osL osC building e) as [[v|x] e']; by destruct Hr. }
  intros v. eapply (triple_catch _ _ _ _ _ (steady c H s)).
  2: { intros x. destruct x; by apply triple_throw. }
  destruct (encodeOperations t) as [payload|x] eqn:Ep.
  2: { eapply (triple_bind _ _ _ (λ _ _, False)); [apply triple_lift; by intros e He|]. by intros a e. }
  eapply (triple_bind _ _ _ (λ p e, steady c H s e ∧ p = payload)); [apply triple_lift; by intros e He|]. intros p.
  intros e [He ->]. revert e He.
  enough (triple (steady c H s) (_ ← on_log (Wal.append osL RecordType_Transaction payload);
     update (λ e, set_schedule (lastCheckpoint e)
       (bytesSinceCheckpoint e + (WalFormat.RECORD_HEADER_SIZE + len payload)) (nextCheckpointAt e) (checkpointFailure e) e))
    (λ _, steady c (H ++ [t]) s') (steady c H s)) as Ht by exact Ht.
  eapply triple_bind; [by apply append_log|]. intros lsn. apply schedule_steady. intros e. by do 4 eexists.
Qed.
End Append.

(** * The storage engine: its commands

    The collections of an engine over its journal, and what each command does to
    the history: it appends to it, or leaves it as it was. *)

Import Operations.Operations Engine.Engine Engine.Engine.Wal(WriteConcern,Memory,Journaled,Flushed).
Import Engine.Engine.Coll(documentCount,indexes).
Import IndexSet.IndexSet(specs).

Section Laws.
Context (osL osC : Z → Call → Outcome) (os_cleans : cleans osL).
Context (c : Env) (H : history) (db coll : jsstring) (Hdb : plain db) (Hcoll : plain coll).

(** The engine has recorded the contents [a] of the collection, with one
    transaction at most. *)
Definition carries (e : StorageEngine) (a : contents) : Prop :=
  ∃ ts, (length ts ≤ 1)%nat ∧ steady c (H ++ ts) (insert (view_of (env_databases c)) db coll (of_contents a)) e.

(** What a collection records then: the changes of one command, before it changes
    the collection in memory; and an index when no checkpoint is due, which would
    have it in its snapshot already. *)
Definition may_record (e : StorageEngine) (a : contents) (ops : list JournalOperation) : Prop :=
  steady c H (view_of (env_databases c)) e ∧
  lookup (view_of (env_databases c)) db coll = Some (of_contents a) ∧ (creates ops → not_due e).

Lemma carries_append e a ops :
  proper a ops → may_record e a ops →
  match journal osL osC db coll ops e with
  | (Ok _, e') => carries e' (replay a ops)
  | (Throw _, e') => carries e' a
  end.
Proof using os_cleans Hdb Hcoll.
  intros Hp (Hs & Hl & Hd).
  set (s := view_of (env_databases c)) in *.
  assert (good s) as Hg.
  { destruct Hs as (_ & _ & l & Hc & _). eapply sound_good; [by eapply logged_sound, Hc|apply Hc]. }
  destruct (proper_applies db coll Hdb Hcoll s a ops Hg Hl Hp) as (Et & Hg' & Hrec).
  pose proof (append_steady osL osC os_cleans c H s
    (match ops with [Coll.OpCreateIndex spec] => Some (db, coll, spec) | _ => None end)
    _ _ eq_refl Et Hg' Hrec e) as Ha.
  unfold journal. destruct (append osL osC _ _ e) as [[u|x] e'].
  - exists [map (toOperation db coll) ops]. split; [done|]. apply Ha. split; [done|].
    destruct ops as [|[] []]; try by left. right. apply Hd. eexists. by left.
  - exists []. split; [cbn; lia|]. fold s. rewrite (insert_same _ _ _ _ Hl), app_nil_r. apply Ha. split; [done|].
    destruct ops as [|[] []]; try by left. right. apply Hd. eexists. by left.
Qed.

#[export] Instance engine_laws : JournalLaws (Some (journal osL osC db coll)) carries may_record.
Proof using os_cleans Hdb Hcoll.
  split.
  - intros e e' a ops _ Hp Hm E. pose proof (carries_append e a ops Hp Hm) as Ha. by rewrite E in Ha.
  - intros j e e' a ops x _ Hp Hm [= <-] E. pose proof (carries_append e a ops Hp Hm) as Ha. by rewrite E in Ha.
Qed.
End Laws.

(** ** The engine *)
Record engine_ok (H : history) (e : StorageEngine) : Prop := {
  ok_steady : steady (env e) H (view_of (databases e)) e;
  ok_collections : ∀ db coll c, getCollection e db coll = Some c → ∃ v, coll_inv in_memory c v;
}.

Lemma ok_good H e : engine_ok H e → good (view_of (databases e)).
Proof.
  intros [(_ & _ & a & Hc & _) _]. eapply sound_good; [by eapply logged_sound, Hc|apply Hc].
Qed.

Lemma ok_lookup H e db coll c :
  engine_ok H e → getCollection e db coll = Some c →
  plain db ∧ plain coll ∧ good_contents (contents_of c) ∧
  lookup (view_of (databases e)) db coll = Some (of_contents (contents_of c)).
Proof.
  intros He Hc. assert (lookup (view_of (databases e)) db coll = Some (of_contents (contents_of c))) as Hl.
  { unfold view_of. rewrite lookup_map. unfold getCollection in Hc. by rewrite Hc. }
  destruct (good_lookup _ _ _ _ (ok_good _ _ He) Hl) as (H1 & H2 & H3). done.
Qed.

Lemma steady_databases c H s e l :
  steady c H s e → steady (env (set_databases l e)) H s (set_databases l e).
Proof.
  intros (He & _ & a & Hc & Hok). destruct (env_eqs _ _ He) as (Em & Ed & _).
  split; [done|]. split; [done|]. exists a. split; [by destruct Hc as [C1 C2 C3 C4 C5 C6]; split|].
  rewrite <- Em, <- Ed in Hok. exact Hok.
Qed.

Lemma with_journal_inv {J J'} (s : J') (c : Coll.InMemoryCollection J) v :
  coll_inv in_memory c v → coll_inv in_memory (with_journal s c) v.
Proof. by intros [H1 H2 H3 H4 _]; split. Qed.

Lemma ok_insert c H e db coll x v :
  steady c H (insert (view_of (env_databases c)) db coll (of_contents (contents_of x))) e →
  databases e = env_databases c → coll_inv in_memory x v →
  (∀ db coll c', lookup (env_databases c) db coll = Some c' → ∃ v, coll_inv in_memory c' v) →
  engine_ok H (set_databases (insert (databases e) db coll x) e).
Proof.
  intros Hs Hd Hx Ho. split.
  - cbn [databases set_databases]. unfold view_of. rewrite insert_map, Hd. fold (view_of (env_databases c)).
    by eapply steady_databases.
  - intros db' coll' c'. unfold getCollection. cbn [databases set_databases]. rewrite Hd.
    destruct (decide ((db, coll) = (db', coll'))) as [[= <- <-]|Hne].
    + rewrite lookup_insert. intros [= <-]. by exists v.
    + rewrite lookup_insert_ne by done. apply Ho.
Qed.

Section Commands.
Context (osL osC : Z → Call → Outcome) (os_cleans : cleans osL).

(** A command on a collection refines the model of collections. *)
Lemma run_ok H e db coll c0 command :
  engine_ok H e → getCollection e db coll = Some c0 → admissible (documentCount c0) command →
  (makes_index command = true → not_due e) →
  let (r, e') := run osL osC db coll command e in
  ∃ ts c' v v', (length ts ≤ 1)%nat ∧ engine_ok (H ++ ts) e' ∧ databases e' = insert (databases e) db coll c' ∧
    coll_inv in_memory c0 v ∧ coll_inv in_memory c' v' ∧
    match r with
    | Ok answer => accepts v (specs (indexes c0)) command answer (v', specs (indexes c'))
    | Throw x => rejects (journal_throws (Some (journal osL osC db coll)) e) v (specs (indexes c0)) command x
                   (v', specs (indexes c'))
    end.
Proof using os_cleans.
  intros Hok Hget Hadm Hidx. pose proof Hok as [Hst Hcs]. destruct (Hcs _ _ _ Hget) as [v Hv].
  destruct (ok_lookup _ _ _ _ _ Hok Hget) as (Hdb & Hcoll & _ & Hl).
  pose proof (engine_laws osL osC os_cleans (env e) H db coll Hdb Hcoll) as Hlaws.
  assert (coll_inv (carries (env e) H db coll) (with_journal e c0) v) as Hcarry.
  { apply coll_inv_memory. split; [by apply with_journal_inv|]. exists []. split; [cbn; lia|]. rewrite app_nil_r.
    change (contents_of (with_journal e c0)) with (contents_of c0). change (env_databases (env e)) with (databases e).
    by rewrite (insert_same _ _ _ _ Hl). }
  assert (documentCount c0 = len v) as Hcount.
  { unfold documentCount. rewrite (inv_documents _ _ _ Hv). unfold image, len. by rewrite length_map. }
  rewrite Hcount in Hadm.
  destruct (run_refines (Some (journal osL osC db coll)) _ (with_journal e c0) v command Hcarry Hadm) as (v' & Hc' & Ho).
  { intros ops Hcr. split; [exact Hst|]. split; [exact Hl|]. intros Hop. by apply Hidx, Hcr. }
  unfold run. rewrite Hget. destruct (CollectionModel.run _ command (with_journal e c0)) as [r c'].
  cbn [fst snd] in *. apply coll_inv_memory in Hc' as [Hm' (ts & Hts & Hs')].
  exists ts, (with_journal () c'), v, v'.
  assert (databases (Coll.journalState c') = databases e) as Ed by (destruct Hs' as (He' & _); apply (env_eqs _ _ He')).
  split; [done|]. split; [|split; [by rewrite Ed|split; [done|split; [by apply with_journal_inv|done]]]].
  eapply (ok_insert (env e)); [exact Hs'|exact Ed|by apply with_journal_inv|exact Hcs].
Qed.

Lemma steady_ok c H e e' :
  steady c H (view_of (databases e)) e' → env e = c → (∀ db coll c, getCollection e db coll = Some c → ∃ v, coll_inv in_memory c v) →
  engine_ok H e'.
Proof.
  intros Hs <- Hcs. assert (env e' = env e) as E by apply Hs. assert (databases e' = databases e) as Ed by apply (env_eqs _ _ E).
  split; [by rewrite Ed, E|]. unfold getCollection in *. by rewrite Ed.
Qed.

Lemma register_empty db coll e :
  ∃ x v, register db coll [] [] e = (Ok (), set_databases (insert (databases e) db coll x) e) ∧
    coll_inv in_memory x v ∧ contents_of x = ([], []).
Proof.
  assert (view_ok []) as Hv by (by split; constructor). assert (specs_ok []) as Hs by (by split; [constructor|constructor|]).
  destruct (new_outcome () [] [] Hv ltac:(done) Hs ltac:(constructor)) as (x & E & Hm & _ & Ec).
  change (image []) with (@nil (jsstring * bytes)) in E. exists x, []. unfold register. rewrite E. done.
Qed.

Lemma openCollection_ok H e db coll :
  engine_ok H e → plain db → plain coll →
  let (r, e') := openCollection osL osC db coll e in
  ∃ ts, (length ts ≤ 1)%nat ∧ engine_ok (H ++ ts) e' ∧
    match r with
    | Ok _ =>
        match getCollection e db coll with
        | Some _ => e' = e ∧ ts = []
        | None => ∃ x, contents_of x = ([], []) ∧ databases e' = insert (databases e) db coll x
        end
    | Throw _ => databases e' = databases e ∧ ts = []
    end.
Proof using os_cleans.
  intros Hok Hdb Hcoll. unfold openCollection, this, st_get. unfold mbind at 1, st_bind at 1.
  destruct (getCollection e db coll) as [c0|] eqn:Hget.
  { exists []. rewrite app_nil_r. split; [cbn; lia|done]. }
  pose proof Hok as [Hst Hcs].
  assert (lookup (view_of (databases e)) db coll = None) as Hl.
  { unfold view_of. rewrite lookup_map. unfold getCollection in Hget. by rewrite Hget. }
  destruct (create_applies _ db coll (ok_good _ _ Hok) Hdb Hcoll Hl) as [Et Hg].
  pose proof (append_steady osL osC os_cleans (env e) H _ None [OpCreateCollection db coll] _ eq_refl Et Hg) as Ha.
  specialize (Ha ltac:(by constructor) e (conj Hst (or_introl eq_refl))).
  unfold mbind at 1, st_bind at 1. destruct (append osL osC None _ e) as [[u|x] e1].
  - destruct (register_empty db coll e1) as (x & v & -> & Hx & Ec). exists [[OpCreateCollection db coll]].
    assert (databases e1 = databases e) as Ed by (destruct Ha as (He' & _); apply (env_eqs _ _ He')).
    split; [done|]. split; [|exists x; split; [done|]; by rewrite Ed].
    eapply (ok_insert (env e)); [by rewrite Ec|exact Ed|exact Hx|exact Hcs].
  - exists []. rewrite app_nil_r. split; [cbn; lia|]. split; [by apply (steady_ok (env e) H e)|]. split; [|done].
    destruct Ha as (He' & _). apply (env_eqs _ _ He').
Qed.
End Commands.
