(* ===== verification/EngineReopen.v ===== *)
(** * The storage engine: recovery

    Opening the directories of an engine: the newest snapshot that can be read, and
    after it the records of the log, make the collections of a history again. *)

From stdpp Require Import gmap.
From S2P Require Import Prelude Errors JsNumber JsString JsValue Binary CustomId Codec Roundtrip FilterSpec Update IndexSpec FieldIndex IndexSet IndexSetSpec Stored Collection CollectionLemmas CollectionChanges CollectionSpec CollectionIndexes CollectionModel WalFormat Disk DiskLemmas WriteAheadLog WalLemmas WalInvariant WalOperations WalUpkeep WalOpen WalCrash WalModel WalProperties Operations Checkpoint CheckpointWrite CheckpointRead Triples Engine EngineReplay EngineInvariant EngineCheckpoint EngineSteps EngineCommands.
Import Operations.Operations Engine.Engine Engine.Engine.Wal(WriteConcern,Memory,Journaled,Flushed).
Import Engine.Engine.Coll(documentCount,indexes).
Import IndexSet.IndexSet(specs).

(** ** Replaying *)
Lemma apply_recorded t x z s :
  recorded t x → applyRecord s {| Wal.lsn := z; Wal.type := x.1; Wal.payload := x.2 |} = apply_all t s.
Proof.
  intros (Et & Ep & Hr). unfold applyRecord. cbn [Wal.type Wal.payload]. rewrite Et, Z.eqb_refl. cbn [negb].
  rewrite (decode_encoded _ _ Ep); [done|]. eapply Forall_impl; [exact Hr|]. by intros op [Hp _].
Qed.

Lemma replay_numbered ts l first s :
  Forall2 recorded ts l →
  foldM (λ record recovered, applyRecord recovered record) (numbered first l) s = replay_all ts s.
Proof.
  intros Hl. revert first s. induction Hl as [|t [ty p] ts l Hx _ IH]; intros first s; [done|].
  unfold replay_all. cbn [numbered foldM]. rewrite (apply_recorded t (ty, p)) by done.
  destruct (apply_all t s); [apply IH|done].
Qed.

Lemma after_all n first l : n < first → after n (numbered first l) = numbered first l.
Proof.
  revert first. induction l as [|[t p] l IH]; intros first Hf; [done|]. cbn. destruct (Z.ltb_spec n first); [|lia].
  f_equal. apply IH. lia.
Qed.

Lemma after_numbered n base l :
  base ≤ n + 1 → after n (numbered base l) = numbered (n + 1) (drop (Z.to_nat (n + 1 - base)) l).
Proof.
  revert base. induction l as [|[t p] l IH]; intros base Hb; [by rewrite drop_nil|].
  destruct (Z.eq_dec base (n + 1)) as [->|Hne].
  - rewrite Z.sub_diag. apply after_all. lia.
  - cbn [numbered]. unfold after. cbn [List.filter Wal.lsn]. destruct (Z.ltb_spec n base); [lia|].
    fold (after n (numbered (base + 1) l)). rewrite IH by lia.
    by replace (Z.to_nat (n + 1 - base)) with (S (Z.to_nat (n + 1 - (base + 1)))) by lia.
Qed.

Lemma replay_app H1 H2 s : replay_all (H1 ++ H2) s = (s ← replay_all H1 s; replay_all H2 s).
Proof. apply foldM_app. Qed.

(** What follows the state at [n]. *)
Lemma replay_from H n s s' :
  0 ≤ n → state_at H n s → replay_all H [] = Ok s' → replay_all (drop (Z.to_nat n) H) s = Ok s'.
Proof.
  intros Hn Hs Hr. rewrite <- (take_drop (Z.to_nat n) H), replay_app in Hr. unfold state_at in Hs. by rewrite Hs in Hr.
Qed.

(** ** What is found *)

(** The files of an engine from which the history [H] can be recovered: the log
    holds it from the number [base] on. *)
Record recoverable (dir : jsstring) (base : Z) (l : list entry) (H : history) (d : Disk) : Prop := {
  rec_base : 1 ≤ base;
  rec_length : len H = base - 1 + len l;
  rec_records : Forall2 recorded (drop (Z.to_nat (base - 1)) H) l;
  rec_sound : sound H;
  rec_hold : snapshots_hold dir (λ n cs, 0 ≤ n ≤ len H ∧ n < 10 ^ 20 ∧ base ≤ n + 1 ∧
    ∃ s, state_at H n s ∧ snapshot_of s cs) d;
  rec_enough : 1 < base → (2 ≤ length (snapshot_numbers dir d))%nat;
}.

Lemma recoverable_same dir base l H d d' :
  same_snapshots dir d d' → recoverable dir base l H d → recoverable dir base l H d'.
Proof.
  intros Hs [R1 R2 R3 R4 R5 R6]. split; try done; [by eapply same_hold|]. intros Hb. etrans; [by apply R6|].
  apply numbers_more; [apply R5|]. intros n. by apply same_numbers; [apply R5|].
Qed.

(** After a crash: the log that is left and the snapshots. *)
Lemma recoverable_crash m failed group a H s dir d d' bound l :
  logged failed a H → replay_all H [] = Ok s → kept_snapshots m a H dir d → acknowledged m group a H →
  survives a bound l → (∀ n, safe m a n → n + 1 ≤ bound) → same_snapshots dir d d' →
  ∃ H', recoverable dir (log_base a) l H' d' ∧ (H' `prefix_of` H ∨ ∃ t, H' = H ++ [t]) ∧
    (len H + 1 ≤ bound → H `prefix_of` H') ∧ (failed = false → log_tried a = [] → H' `prefix_of` H).
Proof.
  intros (Hb & more & tried & He & Ht & Hlen & Hs & Hfailed) Hr Hk Hack [(more' & Hm' & _ & Hpre) Hbound] Hsafe Hsame.
  set (n := (Z.to_nat (log_base a - 1) + length l)%nat).
  assert (∃ HH, HH = H ++ take (length HH - length H) (more ++ tried) ∧ sound HH ∧ (length H ≤ length HH ≤ length H + 1)%nat ∧
    Forall2 recorded (drop (Z.to_nat (log_base a - 1)) HH) (log_entries a ++ more')) as (HH & EHH & HsHH & HlHH & HrHH).
  { destruct Hm' as [->| ->].
    - exists (H ++ more). rewrite app_nil_r, length_app. replace (length H + length more - length H)%nat with (length more) by lia.
      rewrite take_app_length. split; [done|]. split; [by rewrite app_assoc in Hs; apply sound_app in Hs|].
      rewrite length_app in Hlen. split; [lia|done].
    - exists (H ++ more ++ tried). rewrite !length_app in *.
      replace (length H + (length more + length tried) - length H)%nat with (length (more ++ tried)) by (rewrite length_app; lia).
      rewrite firstn_all. split; [done|]. split; [done|]. split; [lia|]. rewrite app_assoc, drop_app_le.
      + by apply Forall2_app.
      + rewrite length_app. unfold len in Hb. lia. }
  pose proof (Forall2_length _ _ _ HrHH) as HlenHH. rewrite length_drop in HlenHH.
  pose proof (prefix_length _ _ Hpre) as Hll.
  assert (n ≤ length HH)%nat as Hn by (unfold n; unfold len in Hb; lia).
  exists (take n HH).
  assert (len (take n HH) = log_base a - 1 + len l) as El by (unfold len; rewrite length_take; unfold n in *; lia).
  assert (∀ k s, k ≤ len (take n HH) → k ≤ len H → state_at H k s → state_at (take n HH) k s) as Hst.
  { intros k s0 H1 H2 H3. rewrite <- (state_at_app (take n HH) (drop n HH)) by done. rewrite take_drop, EHH. by apply state_at_app. }
  split; [split; try done|split; [|split]].
  - lia.
  - unfold n. rewrite <- take_drop_commute. destruct Hpre as [k Ek]. rewrite Ek in HrHH.
    apply Forall2_app_inv_r in HrHH as (h1 & h2 & H1 & _ & ->). by rewrite <- (Forall2_length _ _ _ H1), take_app_length.
  - by apply sound_take.
  - destruct Hk as [Hh _]. eapply hold_impl; [|eapply same_hold; [exact Hsame|exact Hh]].
    intros k cs _ [[C1 C2] C3 (s0 & C4 & C5)]. specialize (Hsafe k C3). destruct C3 as (C3 & _).
    rewrite El. split; [lia|]. split; [done|]. split; [done|]. exists s0. split; [|done]. apply Hst; [lia|lia|done].
  - intros Hbase. destruct Hk as [Hh Hk]. etrans; [by apply Hk|]. apply numbers_more; [apply Hh|]. intros k.
    by apply same_numbers; [apply Hh|].
  - destruct (decide (n ≤ length H)%nat) as [Hle|Hgt].
    + left. rewrite EHH, take_app_le by done. apply prefix_take.
    + right. assert (length HH = S (length H)) as Hl1 by lia. rewrite EHH in Hl1. rewrite EHH.
      rewrite length_app in Hl1. rewrite take_ge by (rewrite length_app; lia).
      destruct (take (length HH - length H) (more ++ tried)) as [|t [|]]; cbn in Hl1; try lia. by exists t.
  - intros Hfull. rewrite EHH. exists (take (n - length H) (take (length HH - length H) (more ++ tried))).
    rewrite take_app_ge; [done|]. unfold n, len in *. lia.
  - intros Hf Ht0. rewrite (Hfailed Hf), Ht0 in *. apply Forall2_nil_inv_r in Ht as ->. cbn in EHH.
    rewrite take_nil, app_nil_r in EHH. rewrite EHH. apply prefix_take.
Qed.

(** * The storage engine: opening

    [open] on files from which a history can be recovered: the engine it returns
    has that history, or it throws, and then not because the files are damaged. *)
Import Operations.Operations Engine.Engine Engine.Engine.Wal(WriteConcern,Memory,Journaled,Flushed).
Import Engine.Engine.Coll(documentCount,indexes).
Import IndexSet.IndexSet(specs).

(** *** The log of an engine that is opening *)
Lemma found_first d w base l old first written fl :
  found_log d w base l old first written fl → default 0 (Wal.first_lsn w) = base ∧ Wal.nextLsn w = base + len l.
Proof.
  intros [Hh E2 E3 E4 _ _ _ _ ->]. pose proof (hold_chain _ _ _ _ _ _ _ _ _ Hh) as Hc. split.
  - unfold Wal.first_lsn. rewrite E2. destruct old as [|[f l] old]; cbn in *; [done|]. by destruct Hc as [-> _].
  - rewrite E4, len_app, Z.add_assoc. by rewrite (chain_first _ _ _ Hc).
Qed.

Section Opened.
Context (os : Z → Call → Outcome).

Lemma records_opened d w base l old first written fl n :
  found_log d w base l old first written fl → Wal.closed w = false → Wal.broken w = false →
  match Wal.records os n (d, w) with
  | (Ok rs, (d', w')) => rs = after n (numbered base l) ∧ w' = w ∧ files d' = files d
  | (Throw e, (d', w')) => not_corruption e ∧ w' = w ∧ files d' = files d
  end.
Proof.
  intros [Hh E2 E3 E4 E5 E6 E7 E8 ->] Hc Hb. unfold Wal.records, Wal.assertOpen.
  rewrite (bind_ok _ _ _ () (d, w)) by (rewrite this_bind, Hc; done). rewrite this_bind, Hb.
  assert (Wal.flush os (d, w) = (Ok (), (d, w))) as Ef.
  { unfold Wal.flush. rewrite (bind_ok _ _ _ () (d, w)) by (by apply assertWritable_open). by rewrite this_bind, E7. }
  rewrite (bind_ok _ _ _ () (d, w)) by exact Ef. rewrite this_bind, E2.
  apply (on_disk_quietly _ d w _ (λ r, match r with
    | (Ok rs, (d', w')) => rs = _ ∧ w' = w ∧ files d' = files d
    | (Throw e, (d', w')) => not_corruption e ∧ w' = w ∧ files d' = files d end)
    (read_hold os d _ _ _ _ _ _ n Hh)); done.
Qed.

(** Closing a log to which nothing was written. *)
Lemma close_opened d w base l old first written fl d' :
  cleans os → found_log d w base l old first written fl → Wal.closed w = false → Wal.broken w = false →
  ∃ s, Wal.close os (d', w) = (Ok (), s) ∧ files s.1 = files d'.
Proof.
  intros Hclean [Hh E2 E3 E4 E5 E6 E7 E8 ->] Hc Hb.
  assert (Wal.flush os (d', w) = (Ok (), (d', w))) as Ef.
  { unfold Wal.flush. rewrite (bind_ok _ _ _ () (d', w)) by (by apply assertWritable_open). by rewrite this_bind, E7. }
  assert (Wal.commit os (d', w) = (Ok (), (d', w))) as Ec by (unfold Wal.commit; by rewrite this_bind, E8).
  destruct (close_done os Hclean (segment_file (Wal.directory w) first) d') as (d2 & Ecl & Hf).
  unfold Wal.close. rewrite !this_bind, Hc, this_bind, Hb. unfold st_catch, mbind, st_bind. rewrite Ef, Ec.
  cbn [mret st_ret]. unfold Wal.this, Wal.update, st_get, st_update. cbn [fst snd]. rewrite E3.
  unfold Wal.on_disk, Wal.or_ioError, st_catch. cbn [fst snd]. rewrite Ecl. by eexists.
Qed.
End Opened.

(** *** Collections *)
Definition entry_good (en : jsstring * jsstring * RecoveredState) : Prop := good_contents (to_contents en.2).

Definition all_collections (l : Databases (InMemoryCollection ())) : Prop :=
  ∀ db coll c, lookup l db coll = Some c → ∃ v, coll_inv in_memory c v.

Lemma all_insert l db coll x v : all_collections l → coll_inv in_memory x v → all_collections (insert l db coll x).
Proof.
  intros Hl Hx db' coll' c'. destruct (decide ((db, coll) = (db', coll'))) as [[= <- <-]|Hne].
  - rewrite lookup_insert. intros [= <-]. by exists v.
  - rewrite lookup_insert_ne by done. apply Hl.
Qed.

Lemma register_good db coll st e :
  good_contents (to_contents st) →
  ∃ x v, register db coll (recovered_documents st) (recovered_indexes st) e =
      (Ok (), set_databases (insert (databases e) db coll x) e) ∧
    coll_inv in_memory x v ∧ of_contents (contents_of x) = st.
Proof.
  intros [(v & Ev & Hv & Hlen & Hu) Hs _]. cbn [to_contents fst snd] in *.
  destruct (new_outcome () v _ Hv Hlen Hs Hu) as (x & E & Hm & _ & Ec). exists x, v. unfold register. rewrite Ev, E.
  split; [done|]. split; [done|]. rewrite Ec, <- Ev. by destruct st.
Qed.

Lemma set_databases_same e : set_databases (databases e) e = e.
Proof. by destruct e. Qed.

Lemma register_all entries e :
  Forall entry_good entries → all_collections (databases e) →
  ∃ l, st_each (λ entry : jsstring * jsstring * RecoveredState,
      let '(database, collection, state) := entry in
      st_catch (register database collection (recovered_documents state) (recovered_indexes state))
        (λ error, if isStorageError error then st_throw (StorageError Corruption) else st_throw error)) entries e
    = (Ok (), set_databases l e) ∧ view_of l = listed entries (view_of (databases e)) ∧ all_collections l.
Proof.
  intros Hg. revert e. induction Hg as [|[[db coll] st] entries Hen _ IH]; intros e Hall; cbn [st_each].
  { exists (databases e). by rewrite set_databases_same. }
  destruct (register_good db coll st e Hen) as (x & v & E & Hx & Es). unfold mbind at 1, st_bind at 1, st_catch at 1. rewrite E.
  destruct (IH (set_databases (insert (databases e) db coll x) e)) as (l & -> & Hl & Hall').
  { cbn. by eapply all_insert. }
  exists l. split; [done|]. split; [|done]. rewrite Hl. cbn [databases set_databases]. unfold listed. cbn [fold_left fst snd].
  unfold view_of. by rewrite insert_map, Es.
Qed.

(** *** The snapshot to begin with *)
Definition base_of (H : history) (base : Z) (b : option Snapshot.ReadCheckpoint) : Prop :=
  match b with
  | Some c => 0 ≤ Snapshot.checkpoint_lsn c ≤ len H ∧ base ≤ Snapshot.checkpoint_lsn c + 1 ∧
      state_at H (Snapshot.checkpoint_lsn c) (recovered_base (Some c))
  | None => True
  end.

Definition base_lsn (b : option Snapshot.ReadCheckpoint) : Z :=
  match b with Some c => Snapshot.checkpoint_lsn c | None => 0 end.

Lemma find_base_recoverable os dir base l H d ns skipped :
  recoverable dir base l H d → ns ≡ₚ snapshot_numbers dir d →
  match find_base os (map (snapshot_file dir) ns) skipped d with
  | (Ok (b, _), d') => files d' = files d ∧ base_of H base (fst <$> b) ∧
      (reads os → 1 < base → is_Some b)
  | (Throw _, _) => False
  end.
Proof.
  intros Hr Hns. set (P := λ n cs, 0 ≤ n ≤ len H ∧ base ≤ n + 1 ∧ ∃ s, state_at H n s ∧ snapshot_of s cs).
  assert (Forall (λ n, ∃ cs, P n cs ∧ Forall plain_collection cs ∧ published dir n cs d) ns) as Hall.
  { apply Forall_forall. intros n Hn. rewrite Hns in Hn.
    destruct (hold_each _ _ _ (rec_hold _ _ _ _ _ Hr) n Hn) as (cs & (H1 & _ & H2 & s & H3 & H4) & Hpub).
    exists cs. split; [|split; [apply H4|done]]. split; [done|]. split; [done|]. by exists s. }
  pose proof (find_base_outcome os dir P ns skipped d Hall) as Ho.
  assert (reads os → 1 < base → ∃ x, (find_base os (map (snapshot_file dir) ns) skipped d).1 = Ok x ∧ is_Some x.1) as Hreads.
  { intros Hrd Hb. destruct (find_base_reads os dir P ns skipped d Hrd) as (b & sk & d' & ->); [|done|by eexists (Some b, sk)].
    intros ->. apply (rec_enough _ _ _ _ _ Hr) in Hb. apply Permutation_length in Hns. rewrite <- Hns in Hb. cbn in Hb. lia. }
  destruct (find_base os _ skipped d) as [[[b sk]|x] d']; [|done]. destruct Ho as [Hd Hb]. split; [done|]. split.
  - destruct b as [[c name]|]; [|done]. destruct Hb as (n & cs & _ & (H1 & H2 & s & H3 & H4) & ->).
    cbn [fmap option_fmap option_map fst base_of Snapshot.checkpoint_lsn].
    split; [done|]. split; [done|]. destruct H4 as [_ H4]. by rewrite H4.
  - intros Hrd Hbase. destruct (Hreads Hrd Hbase) as (y & [= <-] & Hs). exact Hs.
Qed.

(** The collections that the snapshot and the log make. *)
Lemma replay_found dir base l H d b s' :
  recoverable dir base l H d → base_of H base b → base ≤ base_lsn b + 1 → replay_all H [] = Ok s' →
  foldM (λ record recovered, applyRecord recovered record) (after (base_lsn b) (numbered base l)) (recovered_base b) = Ok s'.
Proof.
  intros [R1 R2 R3 R4 _ _] Hb Hle Hs. rewrite after_numbered by done. set (n := base_lsn b) in *.
  assert (0 ≤ n ≤ len H ∧ state_at H n (recovered_base b)) as [Hn Hst].
  { unfold n. destruct b as [c|]; [by destruct Hb as (? & _ & ?)|]. cbn. pose proof (len_nonneg H). split; [lia|done]. }
  rewrite (replay_numbered (drop (Z.to_nat n) H)).
  - apply replay_from; [lia|done|done].
  - replace (drop (Z.to_nat n) H) with (drop (Z.to_nat (n + 1 - base)) (drop (Z.to_nat (base - 1)) H)).
    + by apply Forall2_drop.
    + rewrite drop_drop. f_equal. lia.
Qed.

(** ** [recover] *)

(** An engine of which the log was opened, and nothing else. *)
Record opening (H : history) (base : Z) (l : list entry) (e : StorageEngine) : Prop := {
  opening_found : ∃ old first written fl, found_log (log_disk e) (log e) base l old first written fl;
  opening_flushed : Wal.mode (log e) = Flushed → all_flushed (log_disk e);
  opening_closed : Wal.closed (log e) = false;
  opening_broken : Wal.broken (log e) = false;
  opening_files : recoverable (checkpoints e) base l H (checkpoint_disk e);
  opening_retention : 2 ≤ checkpointRetention (settings e);
  opening_databases : databases e = [];
  opening_active : activeCheckpoint e = None;
}.

Lemma opening_disk H base l e d :
  opening H base l e → same_snapshots (checkpoints e) (checkpoint_disk e) d → opening H base l (set_checkpoint_disk d e).
Proof. intros [O1 O2 O3 O4 O5 O6 O7 O8] Hd. split; try done. by eapply recoverable_same. Qed.

Lemma found_log_files d d' w base l old first written fl :
  files d' = files d → found_log d w base l old first written fl → found_log d' w base l old first written fl.
Proof.
  intros E [Hh E2 E3 E4 E5 E6 E7 E8 E9]. split; try done. eapply hold_same; [|by intros p; rewrite E|exact Hh].
  rewrite E. apply Hh.
Qed.

Lemma opening_records H base l e d last bytes next failure :
  opening H base l e → files d = files (log_disk e) →
  opening H base l (set_schedule last bytes next failure (set_log d (log e) e)).
Proof.
  intros [(old & first & written & fl & O1) O2 O3 O4 O5 O6 O7 O8] Hd. split; try done.
  - exists old, first, written, fl. by eapply found_log_files.
  - intros Hm p f. cbn. rewrite Hd. by apply O2.
Qed.

(** It is an engine with that history once its collections are there. *)
Lemma opening_core H base l e s :
  opening H base l e → replay_all H [] = Ok s → core H s (reopened base l) e.
Proof.
  intros [(old & first & written & fl & O1) O2 O3 O4 O5 O6 O7 O8] Hs. pose proof O5 as [R1 R2 R3 R4 R5 R6].
  assert (∀ n, 0 ≤ n ≤ len H → base ≤ n + 1 → safe (Wal.mode (log e)) (reopened base l) n) as Hsafe.
  { intros n Hn Hb. split_and!; cbn; [done|lia|intros _; lia]. }
  split; [by eapply found_log_at| | |done|done|].
  - split; [cbn; pose proof (len_nonneg l); lia|]. exists [], []. cbn. rewrite !app_nil_r. split_and!; try done. lia.
  - split; cbn; lia.
  - split; [|exact R6]. eapply hold_impl; [|exact R5]. intros n cs _ (H1 & H2 & H3 & s0 & H4).
    split; [done|by apply Hsafe|by exists s0].
Qed.

Section Recover.
Context (osL osC : Z → Call → Outcome).

(** How opening can end. *)
Definition reopens (H : history) (e0 : StorageEngine) (r : res exn () * StorageEngine) : Prop :=
  match r with
  | (Ok _, e) => engine_ok H e ∧ activeCheckpoint e = None ∧ checkpoints e = checkpoints e0 ∧ log e = log e0
  | (Throw x, e) => (reads osC → not_corruption x) ∧ log e = log e0 ∧ files (log_disk e) = files (log_disk e0) ∧
      same_snapshots (checkpoints e0) (checkpoint_disk e0) (checkpoint_disk e)
  end.

(** The last part: the collections are made. *)
Lemma recover_collections H base l e0 e s' (finish : StorageEngine → StorageEngine) rest :
  opening H base l e → replay_all H [] = Ok s' → good s' →
  (∀ e, env (finish e) = env e ∧ activeCheckpoint (finish e) = activeCheckpoint e ∧ log (finish e) = log e ∧
     ∀ s a, core H s a e → core H s a (finish e)) → checkpoints e = checkpoints e0 → log e = log e0 →
  (∀ e, rest e = (Ok (), finish e)) →
  reopens H e0 ((_ ← st_each (λ entry : jsstring * jsstring * RecoveredState,
      let '(database, collection, state) := entry in
      st_catch (register database collection (recovered_documents state) (recovered_indexes state))
        (λ error, if isStorageError error then st_throw (StorageError Corruption) else st_throw error))
      (each (λ d c state, (d, c, state)) s'); rest) e).
Proof.
  intros Ho Hs Hg Hfin Ech Elog Hrest. unfold mbind, st_bind.
  destruct (register_all (each (λ d c state, (d, c, state)) s') e) as (dbs & -> & Hl & Hall).
  { apply Forall_each. eapply Forall_impl; [apply Hg|]. intros d [_ [_ _ Hd]]. eapply Forall_impl; [exact Hd|].
    by intros x [_ Hx]. }
  { intros db coll c0. by rewrite (opening_databases _ _ _ _ Ho). }
  rewrite (opening_databases _ _ _ _ Ho) in Hl. change (view_of []) with (@nil (jsstring * list (jsstring * RecoveredState))) in Hl.
  rewrite good_listed in Hl by done. rewrite Hrest. destruct (Hfin (set_databases dbs e)) as (E1 & E2 & E4 & E3).
  assert (databases (finish (set_databases dbs e)) = dbs) as Ed by (apply (env_eqs _ _ E1)).
  split; [|split; [rewrite E2; apply (opening_active _ _ _ _ Ho)|split; [|by rewrite E4]]].
  2: { rewrite <- Ech. apply (env_eqs _ _ E1). }
  assert (core H s' (reopened base l) (finish (set_databases dbs e))) as Hc.
  { apply E3. destruct (opening_core _ _ _ _ _ Ho Hs) as [C1 C2 C3 C4 C5 C6]. by split. }
  split; [|unfold getCollection; by rewrite Ed].
  rewrite Ed, Hl. split; [done|]. split; [done|]. exists (reopened base l). split; [done|].
  rewrite E2. cbn. by rewrite (opening_active _ _ _ _ Ho).
Qed.

Lemma recover_outcome H base l e0 : opening H base l e0 → reopens H e0 (recover osL osC e0).
Proof.
  intros Ho. unfold recover. set (dir := checkpoints e0).
  pose proof (rec_sound _ _ _ _ _ (opening_files _ _ _ _ Ho)) as Hsound.
  destruct (Hsound (len H)) as (s' & Hs%state_at_full & Hg).
  unfold mbind at 1, st_bind at 1, this, st_get. fold dir. unfold mbind at 1, st_bind at 1, on_checkpoints at 1.
  destruct (remove_temporary_outcome osC dir (checkpoint_disk e0)) as [Hs1 He1].
  destruct (Snapshot.removeTemporaryCheckpoints osC dir (checkpoint_disk e0)) as [[u|x] d1]; cbn [fst snd] in Hs1, He1.
  2: { split; [intros _; by apply He1|done]. }
  pose proof (opening_disk _ _ _ _ _ Ho Hs1) as Ho1. set (e1 := set_checkpoint_disk d1 e0) in *.
  unfold mbind at 1, st_bind at 1, on_checkpoints at 1. cbn [checkpoint_disk e1 set_checkpoint_disk].
  pose proof (list_outcome osC dir d1 (hold_nodup _ _ _ (rec_hold _ _ _ _ _ (opening_files _ _ _ _ Ho1)))) as Hl.
  destruct (Snapshot.listCheckpoints osC dir d1) as [[candidates|x] d2].
  2: { destruct Hl as [Hd2 Hx]. split; [intros _; by apply system_not_corruption|]. split; [done|]. split; [done|].
    eapply same_snapshots_trans; [exact Hs1|by apply same_snapshots_refl]. }
  destruct Hl as (Hd2 & ns & -> & _ & Hns).
  assert (opening H base l (set_checkpoint_disk d2 e1)) as Ho2 by (apply opening_disk; [done|by apply same_snapshots_refl]).
  set (e2 := set_checkpoint_disk d2 e1) in *.
  unfold mbind at 1, st_bind at 1, on_checkpoints at 1. cbn [checkpoint_disk e2 set_checkpoint_disk].
  pose proof (find_base_recoverable osC dir base l H d2 ns [] (opening_files _ _ _ _ Ho2)) as Hb.
  unfold snapshot_numbers in Hb. rewrite Hd2 in Hb. specialize (Hb Hns).
  destruct (find_base osC (map (snapshot_file dir) ns) [] d2) as [[[b skipped]|x] d3]; [|done].
  destruct Hb as (Hd3 & Hb & Hreads).
  assert (opening H base l (set_checkpoint_disk d3 e2)) as Ho3.
  { apply opening_disk; [done|]. apply same_snapshots_refl. cbn. by rewrite Hd3. }
  set (e3 := set_checkpoint_disk d3 e2) in *. cbv zeta.
  set (n := match b with Some (base, _) => Snapshot.checkpoint_lsn base | None => 0 end).
  assert (n = base_lsn (fst <$> b)) as En by (unfold n; destruct b as [[c0 name]|]; reflexivity).
  assert (same_snapshots dir (checkpoint_disk e0) d3) as Hd.
  { eapply same_snapshots_trans; [exact Hs1|]. apply same_snapshots_refl. congruence. }
  pose proof Ho3 as [(old & first & written & fl & Hfound) _ Hcl Hbr Hfiles _ _ _].
  destruct (found_first _ _ _ _ _ _ _ _ Hfound) as [Ef El].
  unfold mbind at 1, st_bind at 1. unfold mbind at 1, st_bind at 1. unfold lastLsn. rewrite Ef, El.
  pose proof Hfiles as [R1 R2 _ _ _ _].
  assert (reads osC → base ≤ n + 1) as Hle.
  { intros Hr. rewrite En. destruct b as [[c0 name]|]; [apply Hb|]. destruct (Z.eq_dec base 1) as [->|]; [done|].
    destruct (Hreads Hr) as [y [= ]]. lia. }
  destruct (Z.ltb_spec (n + 1) base) as [Hlt|Hge].
  { split; [|done]. intros Hr. specialize (Hle Hr). lia. }
  destruct (Z.ltb_spec (base + len l - 1) n) as [Hlt|Hge2].
  { exfalso. rewrite En in Hlt. destruct b as [[c0 name]|]; [destruct Hb as ((_ & Hb) & _)|]; cbn in *; [lia|].
    pose proof (len_nonneg H). lia. }
  unfold mbind at 1, st_bind at 1, on_log.
  pose proof (records_opened osL _ _ _ _ _ _ _ _ n Hfound Hcl Hbr) as Hrec.
  destruct (Wal.records osL n (log_disk e3, log e3)) as [[rs|x] [d4 w4]].
  2: { destruct Hrec as (Hx & -> & Hd4). by split. }
  destruct Hrec as (-> & -> & Hd4). unfold mbind at 1, st_bind at 1, update, st_update.
  unfold mbind at 1, st_bind at 1, st_lift. rewrite En in Hge |- *.
  rewrite (replay_found dir base l H _ _ s' Hfiles Hb Hge Hs).
  eapply recover_collections; [by apply opening_records|exact Hs|exact Hg| |done|done|intros e; reflexivity].
  intros e. split; [done|]. split; [done|]. split; [done|]. intros s a [C1 C2 C3 C4 C5 C6]. by split.
Qed.
End Recover.

(** ** [open] *)
Lemma found_log_image d w base l old first written fl :
  found_log d w base l old first written fl → WalOpen.image d (Wal.directory w) base l.
Proof.
  intros [[H1 H2 H3 H4 H5 H6 H7 H8] _ _ _ _ _ _ _ ->]. rewrite take_0, app_nil_r in H4, H5. rewrite app_nil_r in H7.
  assert (segment_bytes first [] ++ take (length (enc_records first written)) (enc_records (first + len ([] : list entry)) written)
    = segment_bytes first written) as E.
  { rewrite len_nil, Z.add_0_r, firstn_all. unfold segment_bytes. cbn [enc_records]. by rewrite app_nil_r. }
  apply (image_hold _ _ _ _ old first written (length (enc_records first written)) fl).
  - split; [exact H1|exact H2|exact H3|rewrite E; exact H4|rewrite E; exact H5|exact H6|exact H7|exact H8].
  - by rewrite count_all, firstn_all by (unfold len; lia).
Qed.

Definition directories (options : StorageEngineOptions) : jsstring * jsstring :=
  (Wal.opt_directory (opt_log options), opt_checkpoints options).

(** The files of the two directories, of an engine with the history [H]. *)
Record on_disk (options : StorageEngineOptions) (H : history) (base : Z) (l : list entry) (d dc : Disk) : Prop := {
  disk_log : WalOpen.image d (Wal.opt_directory (opt_log options)) base l;
  disk_flushed : concern (opt_log options) = Flushed → all_flushed d;
  disk_snapshots : recoverable (opt_checkpoints options) base l H dc;
}.

Lemma read_settings_retention options s : read_settings options = Ok s → 2 ≤ checkpointRetention s.
Proof.
  unfold read_settings. cbv zeta. do 2 (destruct (_ || _); [done|]). destruct (negb _ || _) eqn:E; [done|].
  apply orb_false_iff in E as [_ E%Z.ltb_ge].
  destruct (opt_checkpointIntervalMs options) as [i|]; [destruct (_ || _); [done|]|]; intros [= <-]; exact E.
Qed.

Lemma read_settings_error options x : read_settings options = Throw x → x = TypeError.
Proof.
  unfold read_settings. cbv zeta. do 3 (destruct (_ || _); [by intros [= <-]|]).
  destruct (opt_checkpointIntervalMs options) as [i|]; [|done]. destruct (_ || _); [by intros [= <-]|done].
Qed.

Lemma open_engine osL osC options H base l d dc :
  cleans osL → on_disk options H base l d dc →
  match open osL osC options d dc with
  | inl e => engine_ok H e ∧ checkpoints e = opt_checkpoints options ∧ opened (opt_log options) (log e)
  | inr (x, (d', dc')) => (reads osC → not_corruption x) ∧ on_disk options H base l d' dc'
  end.
Proof.
  intros Hclean [Him Hfl Hrec]. unfold open. destruct (read_settings options) as [st|x] eqn:Est.
  2: { split; [|done]. intros _. by rewrite (read_settings_error _ _ Est). }
  pose proof (open_outcome osL (opt_log options) d base l Hclean Him) as Ho.
  destruct (Wal.open osL (opt_log options) d) as [[w|x] d1].
  2: { destruct Ho as (Hx & Him' & Hfl'). split; [done|]. split; [done|auto|done]. }
  destruct Ho as ([O1 O2 O3 O4 O5] & (old & first & written & fl & Hf) & Hfl').
  set (e0 := new_engine d1 w dc (opt_checkpoints options) st).
  assert (opening H base l e0) as Hop.
  { split; try done; [by exists old, first, written, fl|cbn; rewrite O2; auto|by eapply read_settings_retention]. }
  pose proof (recover_outcome osL osC H base l e0 Hop) as Hr. unfold reopens in Hr.
  destruct (recover osL osC e0) as [[u|x] e] eqn:Er.
  - destruct Hr as (Hok & _ & Hch & Hlog). split; [done|]. split; [done|]. by rewrite Hlog.
  - destruct Hr as (Hx & Hw & Hd & Hs).
    destruct (close_opened osL d1 w base l old first written fl (log_disk e) Hclean Hf O4 O5) as (s & Ec & Hd').
    change (log e0) with w in Hw. rewrite Hw, Ec. split; [done|].
    change (log_disk e0) with d1 in Hd. assert (files s.1 = files d1) as Hds by congruence.
    assert (same_files d1 s.1) as Hsf.
    { apply same_files_eq; [|done]. apply (hold_names _ _ _ _ _ _ _ _ _ (fl_hold _ _ _ _ _ _ _ _ Hf)). }
    split.
    + eapply image_same; [exact Hsf|]. rewrite <- O1. by eapply found_log_image.
    + intros Hm. eapply flushed_same; [exact Hsf|]. auto.
    + by eapply recoverable_same.
Qed.
