(* ===== verification/EngineLife.v ===== *)
(** * The storage engine: its life

    From empty directories through commands, checkpoints, crashes and opening
    again: what every engine that can be reached has in memory and on its disks. *)

From stdpp Require Import gmap.
From S2P Require Import Prelude Errors JsNumber JsString JsValue Binary CustomId Codec Roundtrip FilterSpec Update FieldIndex IndexSpec IndexSet IndexSetSpec WalFormat Disk DiskLemmas WriteAheadLog WalLemmas WalInvariant WalOperations WalUpkeep WalOpen WalCrash WalModel WalProperties Operations Checkpoint CheckpointWrite CheckpointRead Triples Stored Collection CollectionLemmas CollectionChanges CollectionSpec CollectionIndexes CollectionModel Engine EngineReplay EngineInvariant EngineCheckpoint EngineSteps EngineCommands EngineReopen.
Import Operations.Operations Engine.Engine Engine.Engine.Wal(WriteConcern,Memory,Journaled,Flushed).
Import Engine.Engine.Coll(documentCount,indexes).
Import IndexSet.IndexSet(specs).

(** ** Commands *)
Inductive EngineCommand :=
  | OpenCollection (database collection : jsstring)
  | OnCollection (database collection : jsstring) (command : Command)
  | CheckpointNow
  | CheckpointInBackground
  | Tick
  | Settle
  | FlushTimer
  | CheckpointTimer
  | CommitLog
  | CloseEngine.

Definition exec (osL osC : Z → Call → Outcome) (command : EngineCommand) : Engine.Engine.action () :=
  match command with
  | OpenCollection database collection => openCollection osL osC database collection
  | OnCollection database collection command => _ ← run osL osC database collection command; mret ()
  | CheckpointNow => _ ← checkpoint osL osC; mret ()
  | CheckpointInBackground => _ ← checkpointAsync osL osC; mret ()
  | Tick => tick osL osC
  | Settle => settle
  | FlushTimer => flushTimer osL
  | CheckpointTimer => checkpointTimer osL osC
  | CommitLog => Engine.Engine.commit osL
  | CloseEngine => Engine.Engine.close osL osC
  end.

(** What a caller must respect: names that the files hold, a collection that is
    there, values that it can take, and no index while a checkpoint is due. *)
Definition command_ok (e : StorageEngine) (command : EngineCommand) : Prop :=
  match command with
  | OpenCollection database collection => plain database ∧ plain collection
  | OnCollection database collection command =>
      match getCollection e database collection with
      | Some c => admissible (documentCount c) command ∧ (makes_index command = true → not_due e)
      | None => False
      end
  | _ => True
  end.

(** ** Crashes *)
Inductive Crash := ProcessDies | PowerFails.

(** The two disks after a crash between two commands; the power may fail only
    where the log promises something then. *)
Definition crashed (k : Crash) (e : StorageEngine) (d dc : Disk) : Prop :=
  match k with
  | ProcessDies => files d = files (log_disk e) ∧ files dc = files (checkpoint_disk e)
  | PowerFails => Wal.mode (log e) = Flushed ∧ power_loss (log_disk e) d ∧ power_loss (checkpoint_disk e) dc
  end.

(** Crashes that no acknowledged command is lost in. *)
Definition keeps (k : Crash) (e : StorageEngine) : Prop :=
  match k with
  | ProcessDies => Wal.mode (log e) ≠ Memory
  | PowerFails => Wal.groupCommit (log e) = false
  end.

(** Opening the same directories; a log that promises to flush relies on what it
    finds being on stable storage. *)
Record reopening (options : StorageEngineOptions) (e : StorageEngine) (d : Disk) : Prop := {
  reopening_log : Wal.opt_directory (opt_log options) = Wal.directory (log e);
  reopening_checkpoints : opt_checkpoints options = checkpoints e;
  reopening_flushed : concern (opt_log options) = Flushed → all_flushed d;
}.

(** The documents and indexes of an engine, collection by collection. *)
Definition view (e : StorageEngine) : State := view_of (databases e).

Definition empty_disk (d : Disk) : Prop := files d = [].

Section Life.
Context (osL osC : Z → Call → Outcome).

(** An engine, and what its collections have been. *)
Inductive reached : list State → StorageEngine → Prop :=
  | reached_new options d dc e :
      empty_disk d → empty_disk dc → open osL osC options d dc = inl e → reached [view e] e
  | reached_exec states e command :
      reached states e → command_ok e command →
      reached (states ++ [view (exec osL osC command e).2]) (exec osL osC command e).2
  | reached_reopen states e k d dc options e' :
      reached states e → crashed k e d dc → reopening options e d →
      open osL osC options d dc = inl e' → reached (states ++ [view e']) e'.
End Life.

(** ** Every command keeps the invariant *)
Section Commands.
Context (osL osC : Z → Call → Outcome) (os_cleans : cleans osL).

Lemma steady_command {A} H e (m : Engine.Engine.action A) :
  engine_ok H e → preserves (steady (env e) H (view e)) m → engine_ok H (m e).2 ∧ view (m e).2 = view e.
Proof.
  intros [Hs Hc] Hm. specialize (Hm e Hs).
  assert (steady (env e) H (view e) (m e).2) as Hs' by (by destruct (m e) as [[a|x] e']).
  split; [by apply (steady_ok (env e) H e)|]. unfold view. f_equal. destruct Hs' as (He' & _). apply (env_eqs _ _ He').
Qed.

Lemma ignore_result {A} P (m : Engine.Engine.action A) : preserves P m → preserves P (_ ← m; mret ()).
Proof. intros Hm. eapply triple_bind; [exact Hm|]. intros a. by apply triple_ret. Qed.

Lemma exec_ok H e command :
  engine_ok H e → command_ok e command →
  ∃ ts, (length ts ≤ 1)%nat ∧ engine_ok (H ++ ts) (exec osL osC command e).2.
Proof using os_cleans.
  intros Hok Hcmd.
  assert (∀ {A} (m : Engine.Engine.action A), preserves (steady (env e) H (view e)) m →
    ∃ ts, (length ts ≤ 1)%nat ∧ engine_ok (H ++ ts) (m e).2) as Hsteady.
  { intros A m Hm. exists []. rewrite app_nil_r. split; [cbn; lia|]. by apply steady_command. }
  destruct command as [db coll|db coll command| | | | | | | |]; cbn [exec].
  - destruct Hcmd as [Hdb Hcoll]. pose proof (openCollection_ok osL osC os_cleans H e db coll Hok Hdb Hcoll) as Ho.
    destruct (openCollection osL osC db coll e) as [r e']. destruct Ho as (ts & H1 & H2 & _). by exists ts.
  - cbn in Hcmd. destruct (getCollection e db coll) as [c0|] eqn:Hget; [|done]. destruct Hcmd as [Ha Hi].
    pose proof (run_ok osL osC os_cleans H e db coll c0 command Hok Hget Ha Hi) as Hr. unfold mbind, st_bind.
    destruct (run osL osC db coll command e) as [r e']. destruct Hr as (ts & c' & v & v' & H1 & H2 & _). exists ts.
    by destruct r.
  - apply Hsteady, ignore_result. exact (checkpoint_steady osL osC (env e) H (view e) eq_refl).
  - apply Hsteady, ignore_result. exact (async_steady osL osC (env e) H (view e) eq_refl Caller).
  - apply Hsteady, tick_steady.
  - apply Hsteady, settle_steady.
  - apply Hsteady, flush_timer_steady.
  - apply Hsteady. exact (timer_steady osL osC (env e) H (view e) eq_refl).
  - apply Hsteady, commit_steady.
  - apply Hsteady. exact (close_steady osL osC (env e) H (view e) eq_refl).
Qed.
End Commands.

(** ** Crashing and opening again *)
Lemma loss_snapshots dir P d d' : snapshots_hold dir P d → power_loss d d' → same_snapshots dir d d'.
Proof.
  intros [Hn He] [Hk Hl]. split; [by rewrite Hk|]. intros name [z Hz].
  destruct (omap_get (files d) (dir, name)) as [f|] eqn:E.
  - pose proof (checkpoint_lsn_name _ _ Hz) as ->. destruct (He z) as (cs & _ & bs & _ & Hh).
    { apply in_numbers; [done|]. split; [by exists f|done]. }
    unfold holds in Hh. rewrite Hh in E. injection E as <-. destruct (Hl _ _ Hh) as (n & H1 & H2 & H3). cbn [flushed Disk.contents] in H1, H2, H3.
    rewrite H3. f_equal. assert (n = length bs) as -> by (unfold len in H1; lia). by rewrite firstn_all.
  - apply omap_get_None. apply omap_get_None in E. by rewrite Hk.
Qed.

(** A log that is not broken has nothing in its files that was not appended. *)
Definition untried (a : Log) : Log := {|
  log_base := log_base a; log_entries := log_entries a; log_kept := log_kept a; log_durable := log_durable a;
  log_tried := [] |}.

Lemma log_at_untried d w a : log_at d w a → Wal.broken w = false → log_at d w (untried a).
Proof.
  intros (old & first & written & waiting & attempted & n & fl & Hi & El & Hk & _) Hb.
  destruct (inv_open _ _ _ _ _ _ _ _ _ _ _ Hi Hb) as (Ea & _).
  exists old, first, written, waiting, attempted, n, fl. split; [exact Hi|]. split; [exact El|]. split; [exact Hk|by left].
Qed.

Lemma core_untried H s a e : core H s a e → Wal.broken (log e) = false → core H s (untried a) e.
Proof.
  intros [C1 (Hb & more & tried & He & Ht & Hlen & Hs & Hf) C3 C4 C5 C6] Hbr.
  split; [by apply log_at_untried| |exact C3|exact C4|exact C5|].
  - split; [done|]. exists more, []. rewrite (Hf Hbr) in *. cbn in *. split; [exact He|]. split; [constructor|].
    split; [lia|]. split; [|done]. rewrite app_nil_r. by eapply sound_app.
  - destruct C6 as [K1 K2]. split; [|exact K2]. eapply hold_impl; [|exact K1]. intros n cs _ [R1 R2 R3]. by split.
Qed.

Lemma reopen_crashed H e k d dc options :
  engine_ok H e → crashed k e d dc → reopening options e d →
  ∃ H' base l, on_disk options H' base l d dc ∧ (H' `prefix_of` H ∨ Wal.broken (log e) = true ∧ ∃ t, H' = H ++ [t]) ∧
    (keeps k e → H `prefix_of` H').
Proof.
  intros [(_ & _ & a0 & Hc0 & _) _] Hk [Ho1 Ho2 Ho3].
  assert (∃ a, core H (view e) a e ∧ (Wal.broken (log e) = false → log_tried a = [])) as (a & Hc & Hu).
  { destruct (Wal.broken (log e)) eqn:Eb; [by exists a0|]. exists (untried a0). split; [by apply core_untried|done]. }
  clear a0 Hc0. pose proof Hc as [Hl Hlog [Hack1 Hack2] Hs Hret Hsnap]. set (m := Wal.mode (log e)) in *.
  assert (∃ bound l, WalOpen.image d (Wal.directory (log e)) (log_base a) l ∧ survives a bound l ∧
    (∀ n, safe m a n → n + 1 ≤ bound) ∧ same_snapshots (checkpoints e) (checkpoint_disk e) dc ∧
    (keeps k e → len H + 1 ≤ bound)) as (bound & l & Him & Hsur & Hsafe & Hsame & Hkeep).
  { destruct k.
    - destruct Hk as [Hd Hdc]. destruct (process_image _ d _ a Hl Hd) as (l & Him & Hsur). exists (log_kept a), l.
      split; [done|]. split; [done|]. split; [by intros n (_ & H2 & _)|]. split; [by apply same_snapshots_refl|]. exact Hack1.
    - destruct Hk as (Hm & Hd & Hdc). destruct (power_image _ d _ a Hl Hm Hd) as (l & Him & Hsur). exists (log_durable a), l.
      split; [done|]. split; [done|]. split; [intros n (_ & _ & H3); by apply H3|].
      split; [by eapply loss_snapshots; [apply Hsnap|]|]. intros Hg. by apply Hack2. }
  destruct (recoverable_crash m _ (Wal.groupCommit (log e)) a H _ _ _ dc bound l Hlog Hs Hsnap (conj Hack1 Hack2) Hsur Hsafe Hsame)
    as (H' & Hrec & Hpre & Hfull & Hclean).
  exists H', (log_base a), l. split; [split; [by rewrite Ho1|exact Ho3|by rewrite Ho2]|]. split; [|auto].
  destruct (Wal.broken (log e)) eqn:Eb; [|left; auto]. destruct Hpre as [Hpre|Hpre]; [by left|by right].
Qed.

(** An empty directory holds the empty history. *)
Lemma on_disk_new options d dc : empty_disk d → empty_disk dc → on_disk options [] 1 [] d dc.
Proof.
  intros Hd Hdc. unfold empty_disk in *. split.
  - apply image_none; [|done|done]. split; [rewrite Hd; constructor|rewrite Hd; by intros name [? ?]|constructor|done| |lia].
    split; [lia|]. split; [change (1 + 0 ≤ 2 ^ 64); lia|constructor].
  - intros _ p f. by rewrite Hd.
  - split; [lia|done|constructor|apply sound_nil| |lia]. split; [rewrite Hdc; constructor|].
    unfold snapshot_numbers. rewrite Hdc. by intros n ?%not_elem_of_nil.
Qed.

(** *** Every engine that can be reached *)

(** The states on the way of the history [H]. *)
Definition covered (H : history) (states : list State) : Prop := ∀ n s, state_at H n s → s ∈ states.

Lemma covered_prefix H H' states : covered H states → H' `prefix_of` H → covered H' states.
Proof.
  intros Hc [k ->] n s Hs. destruct (Z.le_gt_cases n (len H')) as [Hle|Hgt].
  - apply (Hc n). by apply state_at_app.
  - apply (Hc (len H')). apply state_at_app; [lia|]. unfold state_at in *. rewrite take_ge in Hs by (unfold len in Hgt; lia).
    by rewrite to_nat_len, firstn_all.
Qed.

Lemma covered_snoc H states t s : covered H states → replay_all (H ++ [t]) [] = Ok s → covered (H ++ [t]) (states ++ [s]).
Proof.
  intros Hc Hs n s' Hn. apply elem_of_app. destruct (Z.le_gt_cases n (len H)) as [Hle|Hgt].
  - left. apply (Hc n). by apply (state_at_app H [t]).
  - right. apply list_elem_of_singleton. unfold state_at in Hn. rewrite take_ge in Hn by (rewrite length_app; unfold len in Hgt; cbn; lia).
    congruence.
Qed.

Lemma covered_more H states states' : covered H states → covered H (states ++ states').
Proof. intros Hc n s Hs. apply elem_of_app. left. by eapply Hc. Qed.

Lemma ok_state H e : engine_ok H e → replay_all H [] = Ok (view e).
Proof. intros [(_ & _ & a & Hc & _) _]. apply Hc. Qed.

Lemma covered_next H ts states s : (length ts ≤ 1)%nat →
  covered H states → replay_all (H ++ ts) [] = Ok s → covered (H ++ ts) (states ++ [s]).
Proof.
  intros Hl Hc Hs. destruct ts as [|t [|]]; cbn in Hl; [|by apply covered_snoc|lia].
  rewrite app_nil_r. by apply covered_more.
Qed.

Lemma reached_ok osL osC states e :
  cleans osL → reached osL osC states e → ∃ H, engine_ok H e ∧ covered H states.
Proof.
  intros Hclean. induction 1 as [options d dc e Hd Hdc Ho|states e command Hr (H & Hok & Hc) Hcmd
    |states e k d dc options e' Hr (H & Hok & Hc) Hk Hre Ho].
  - pose proof (open_engine osL osC options [] 1 [] d dc Hclean (on_disk_new options d dc Hd Hdc)) as He. rewrite Ho in He.
    destruct He as [He _]. exists []. split; [done|]. intros n s Hs. unfold state_at in Hs. rewrite take_nil in Hs.
    pose proof (ok_state _ _ He) as Hv. apply list_elem_of_singleton. congruence.
  - destruct (exec_ok osL osC Hclean H e command Hok Hcmd) as (ts & Hl & Hok'). exists (H ++ ts). split; [done|].
    apply covered_next; [done|done|]. by apply ok_state.
  - destruct (reopen_crashed H e k d dc options Hok Hk Hre) as (H' & base & l & Hdisk & Hpre & _).
    pose proof (open_engine osL osC options H' base l d dc Hclean Hdisk) as He. rewrite Ho in He. destruct He as [He _].
    exists H'. split; [done|]. destruct Hpre as [Hpre|[_ [t ->]]].
    + apply covered_more. by eapply covered_prefix.
    + apply covered_snoc; [done|]. by apply ok_state.
Qed.

(** * The storage engine: a small one

    An engine with a few commands, for the properties to be looked at on it; and
    what happens to an index that is created while a checkpoint is due. *)
From S2P Require Import FieldIndexSpec CollectionProperties.
Import Engine.Engine Engine.Engine.Coll(documentCount).

Definition notb_due (e : StorageEngine) : bool :=
  match activeCheckpoint e with Some _ => true | None => bytesSinceCheckpoint e <? nextCheckpointAt e end.

Definition command_okb (e : StorageEngine) (command : EngineCommand) : bool :=
  match command with
  | OpenCollection database collection => plainb database && plainb collection
  | OnCollection database collection command =>
      match getCollection e database collection with
      | Some c => admissibleb (documentCount c) command && (negb (makes_index command) || notb_due e)
      | None => false
      end
  | _ => true
  end.

Lemma command_okb_ok e command : command_okb e command = true → command_ok e command.
Proof.
  destruct command as [db coll|db coll command| | | | | | | |]; cbn [command_okb command_ok]; try done.
  - intros [H1 H2]%andb_true_iff. split; by apply plainb_plain.
  - destruct (getCollection e db coll) as [c|]; [|done]. intros [H1 H2]%andb_true_iff.
    split; [by apply admissibleb_admissible|]. intros Hm. rewrite Hm in H2. cbn in H2. unfold notb_due, not_due in *.
    destruct (activeCheckpoint e); [by left|right]. by apply Z.ltb_lt.
Qed.

Section Running.
Context (osL osC : Z → Call → Outcome).

Definition exec_all (commands : list EngineCommand) (e : StorageEngine) : StorageEngine :=
  fold_left (λ e command, (exec osL osC command e).2) commands e.

Fixpoint all_ok (commands : list EngineCommand) (e : StorageEngine) : bool :=
  match commands with
  | [] => true
  | command :: commands => command_okb e command && all_ok commands (exec osL osC command e).2
  end.

Lemma reached_all commands states e :
  reached osL osC states e → all_ok commands e = true → ∃ states', reached osL osC states' (exec_all commands e).
Proof.
  revert states e. induction commands as [|command commands IH]; intros states e Hr Hall; [by exists states|].
  cbn [all_ok] in Hall. apply andb_true_iff in Hall as [Hok Hall]. cbn [exec_all fold_left].
  eapply IH; [|exact Hall]. apply reached_exec; [exact Hr|]. by apply command_okb_ok.
Qed.
End Running.

Definition nothing : Disk := {| files := []; calls := 0 |}.
Definition quiet_os (i : Z) (call : Call) : Outcome := Done.

(** A log with small segments, so that it is truncated soon. *)
Definition engine_options (threshold : Z) : StorageEngineOptions := {|
  opt_log := {| Wal.opt_directory := js "log"; Wal.opt_writeConcern := None; Wal.opt_groupCommit := None;
                Wal.opt_segmentSizeBytes := Some (number_of_Z 150) |};
  opt_checkpoints := js "checkpoints";
  opt_memoryFlushIntervalMs := None; opt_checkpointIntervalMs := None;
  opt_checkpointThresholdBytes := Some (number_of_Z threshold);
  opt_checkpointRetention := None; opt_checkpointOnClose := None; opt_backgroundCheckpoints := None;
  opt_onCheckpointStage := None;
|}.

Definition insert_command (z : Z) : EngineCommand :=
  OnCollection (js "shop") (js "items") (InsertOne (sample_document z) (sample_id z)).

Definition engine_commands : list EngineCommand :=
  [OpenCollection (js "shop") (js "items");
   OnCollection (js "shop") (js "items") (CreateIndex (input_of sample_spec));
   insert_command 1; CheckpointNow; insert_command 2; CheckpointNow; insert_command 3; CheckpointNow;
   insert_command 4; CheckpointInBackground].

(** The engine after the first [n] commands. *)
Definition sample_engine (n : nat) : option StorageEngine :=
  match open quiet_os quiet_os (engine_options 1000000) nothing nothing with
  | inl e => Some (exec_all quiet_os quiet_os (firstn n engine_commands) e)
  | inr _ => None
  end.

Lemma all_ok_firstn n commands e :
  all_ok quiet_os quiet_os commands e = true → all_ok quiet_os quiet_os (firstn n commands) e = true.
Proof.
  revert n e. induction commands as [|command commands IH]; intros [|n] e; [done..|]. cbn [firstn all_ok].
  intros [-> H]%andb_true_iff. by apply IH.
Qed.

Lemma sample_reached n :
  match sample_engine n with Some e => ∃ states, reached quiet_os quiet_os states e | None => False end.
Proof.
  unfold sample_engine.
  assert (match open quiet_os quiet_os (engine_options 1000000) nothing nothing with
    | inl e => all_ok quiet_os quiet_os engine_commands e = true | inr _ => False end) as Hall by (vm_compute; reflexivity).
  destruct (open quiet_os quiet_os (engine_options 1000000) nothing nothing) as [e|] eqn:E; [|done].
  eapply reached_all; [eapply (reached_new _ _ _ nothing nothing); [reflexivity|reflexivity|exact E]|].
  by apply all_ok_firstn.
Qed.

Lemma quiet_cleans : cleans quiet_os.
Proof. intros i file code. done. Qed.

Definition flushedb (d : Disk) : bool := forallb (λ f : path * File, flushed f.2 =? len (Disk.contents f.2)) (files d).

Lemma flushedb_all d : flushedb d = true → WalOpen.all_flushed d.
Proof.
  intros H p f Hp%omap_get_Some_in. unfold flushedb in H. rewrite forallb_forall in H.
  apply list_elem_of_In in Hp. by apply (H (p, f)), Z.eqb_eq in Hp.
Qed.

Lemma loss_nothing d : WalOpen.all_flushed d → WalCrash.power_loss d d.
Proof.
  intros H. split; [done|]. intros p f Hf. exists (length (Disk.contents f)). pose proof (H p f Hf) as Hl. unfold len in Hl.
  split; [lia|]. split; [done|]. rewrite firstn_all, <- Hl. by destruct f.
Qed.

(** ** An index that was not created

    A checkpoint that is due runs when a collection asks for its changes to be
    recorded. For a new index that is before its record is appended, and the
    collection has the index already: it is in the snapshot. When the append then
    fails, [createIndex] throws and takes the index out of the collection, but not
    out of the snapshot. *)
Definition failing_os (n : Z) (i : Z) (call : Call) : Outcome :=
  match call with Write _ => if n <? i then Fails ENOSPC else Done | _ => Done end.

Definition index_names (e : StorageEngine) : list jsstring :=
  match getCollection e (js "shop") (js "items") with
  | Some c => map Spec.name (IndexSet.IndexSet.specs (Coll.indexes c))
  | None => []
  end.

(** The answer of [createIndex], and the indexes then and after the next opening. *)
Definition phantom : option (result Answer * list jsstring * list jsstring) :=
  match open quiet_os quiet_os (engine_options 1) nothing nothing with
  | inr _ => None
  | inl e =>
      let e := exec_all quiet_os quiet_os [OpenCollection (js "shop") (js "items")] e in
      let (r, e) := run (failing_os 0) quiet_os (js "shop") (js "items") (CreateIndex (input_of sample_spec)) e in
      match open quiet_os quiet_os (engine_options 1) (log_disk e) (checkpoint_disk e) with
      | inl e' => Some (r, index_names e, index_names e')
      | inr _ => None
      end
  end.

Example phantom_index : phantom = Some (Throw (StorageError DiskFull), [], [js "n_1"]).
Proof. vm_compute. reflexivity. Qed.
