(* ===== verification/EngineProperties.v ===== *)
(** * The storage engine: properties

    What holds of every engine that can be reached from empty directories by
    commands, checkpoints, crashes and opening again. *)

From stdpp Require Import gmap.
From S2P Require Import Prelude Errors JsNumber JsString JsValue Binary CustomId Codec Roundtrip FilterSpec Update FieldIndex IndexSpec IndexSet IndexSetSpec WalFormat Disk DiskLemmas WriteAheadLog WalLemmas WalInvariant WalOperations WalUpkeep WalOpen WalCrash WalModel WalProperties Operations Checkpoint CheckpointWrite CheckpointRead Triples Stored Collection CollectionLemmas CollectionChanges CollectionSpec CollectionIndexes CollectionModel CollectionProperties Engine EngineReplay EngineInvariant EngineCheckpoint EngineSteps EngineCommands EngineReopen EngineLife.
Import Operations.Operations Engine.Engine Engine.Engine.Wal(WriteConcern,Memory,Journaled,Flushed).
Import Engine.Engine.Coll(documentCount,indexes).
Import IndexSet.IndexSet(specs).
Import Engine.Engine.Snapshot(checkpoint_file_lsn,checkpointFileName,temporaryFileName).

(** ** Recovery *)

(** Opening, and when that fails opening again what it left, [n] times more. *)
Fixpoint open_again (n : nat) (osL osC : Z → Call → Outcome) (options : StorageEngineOptions) (d dc : Disk)
    : StorageEngine + exn :=
  match open osL osC options d dc with
  | inl e => inl e
  | inr (x, (d, dc)) => match n with O => inr x | S n => open_again n osL osC options d dc end
  end.

Lemma open_again_engine n osL osC options H base l d dc :
  cleans osL → on_disk options H base l d dc →
  match open_again n osL osC options d dc with
  | inl e => engine_ok H e
  | inr x => reads osC → not_corruption x
  end.
Proof.
  intros Hclean. revert d dc. induction n as [|n IH]; intros d dc Hd; cbn [open_again];
    pose proof (open_engine osL osC options H base l d dc Hclean Hd) as Ho;
    (destruct (open osL osC options d dc) as [e|[x [d' dc']]]; [by destruct Ho|]); destruct Ho as [Hx Hd']; [done|].
  by apply IH.
Qed.

(** The last transaction, which was not acknowledged, on top of [s]: its append
    broke the log. *)
Definition one_more (e : StorageEngine) (s' : State) : Prop :=
  Wal.broken (log e) = true ∧ ∃ t, apply_all t (view e) = Ok s'.

(** C1: An engine in empty directories, after any commands, checkpoints at once or
    in the background, crashes and restarts: when the process dies or the power
    fails, and its directories are opened again, however often that fails first,
    then every collection has the documents and indexes that all of them had at one
    moment before, and if the write concern promises it those that they had last;
    only a transaction whose append broke the log may be there in addition. Opening
    does not report corruption unless a file cannot be read. *)
Theorem engine_recovers osL osC states e k d dc n osL' osC' options :
  cleans osL → reached osL osC states e → crashed k e d dc → reopening options e d → cleans osL' →
  match open_again n osL' osC' options d dc with
  | inl e' => (view e' ∈ states ∨ one_more e (view e')) ∧ (keeps k e → view e' = view e ∨ one_more e (view e'))
  | inr x => reads osC' → x ≠ StorageError Corruption
  end.
Proof.
  intros Hclean Hr Hk Hre Hclean'. destruct (reached_ok osL osC states e Hclean Hr) as (H & Hok & Hcov).
  destruct (reopen_crashed H e k d dc options Hok Hk Hre) as (H' & base & l & Hdisk & Hpre & Hkeep).
  pose proof (open_again_engine n osL' osC' options H' base l d dc Hclean' Hdisk) as Ho.
  destruct (open_again n osL' osC' options d dc) as [e'|x]; [|exact Ho].
  pose proof (ok_state _ _ Hok) as Hs. pose proof (ok_state _ _ Ho) as Hs'.
  destruct Hpre as [Hpre|[Hb [t ->]]].
  - split.
    + left. apply (covered_prefix H H' states Hcov Hpre (len H')). by apply (proj1 (state_at_full H' (view e'))).
    + intros Hp. left. assert (H' = H) as -> by (apply (anti_symm prefix); auto). congruence.
  - assert (one_more e (view e')) as Hone; [|by split; right].
    split; [done|]. exists t. by rewrite replay_snoc, Hs in Hs'.
Qed.

(** ** The collections of an engine *)


(** ** Checkpoints *)
Lemma log_at_first d w a : log_at d w a → default 0 (Wal.first_lsn w) = log_base a.
Proof.
  intros (old & first & written & waiting & attempted & n & fl & Hi & _).
  pose proof (hold_chain _ _ _ _ _ _ _ _ _ (inv_hold _ _ _ _ _ _ _ _ _ _ _ Hi)) as Hc.
  unfold Wal.first_lsn. rewrite (inv_segments _ _ _ _ _ _ _ _ _ _ _ Hi).
  destruct old as [|[f l] old]; cbn in *; [done|]. by destruct Hc as [-> _].
Qed.

(** A whole snapshot, flushed, of a state that the engine has had. *)
Definition snapshot_ok (states : list State) (dir : jsstring) (d : Disk) (n : Z) : Prop :=
  ∃ cs s, published dir n cs d ∧ snapshot_of s cs ∧ s ∈ states.

(** C3: Nothing is removed from the log before two snapshots have it: every
    snapshot in the directory is whole, on stable storage, one of a state that the
    engine has had, and the log goes on from it without a gap; and once the log does
    not begin with the first record any more, there are two of them at least. *)
Theorem engine_snapshots_safe osL osC states e :
  cleans osL → reached osL osC states e →
  let first := default 0 (Wal.first_lsn (log e)) in
  Forall (λ n, first ≤ n + 1 ≤ lastLsn e + 1 ∧ snapshot_ok states (checkpoints e) (checkpoint_disk e) n)
    (snapshot_numbers (checkpoints e) (checkpoint_disk e)) ∧
  (1 < first → (2 ≤ length (snapshot_numbers (checkpoints e) (checkpoint_disk e)))%nat).
Proof.
  intros Hclean Hr first. destruct (reached_ok osL osC states e Hclean Hr) as (H & [(_ & _ & a & Hc & _) _] & Hcov).
  pose proof Hc as [Hl _ _ _ _ [Hh He]]. unfold first. rewrite (log_at_first _ _ _ Hl). split; [|exact He].
  apply Forall_forall. intros n Hn. destruct (hold_each _ _ _ Hh n Hn) as (cs & [R1 (S1 & S2 & _) (s & Hs & Hsn)] & Hpub).
  destruct (log_at_bounds _ _ _ Hl) as [B1 _]. unfold lastLsn. rewrite (log_at_next _ _ _ Hl).
  split; [lia|]. exists cs, s. split; [done|]. split; [done|]. by eapply Hcov.
Qed.

(** What neither the log, the snapshots, the schedule nor the checkpoint in the
    background is part of: whether the engine is closed, and the promises that were
    rejected. *)
Record aside {X} (f : StorageEngine → X) : Prop := {
  aside_log : ∀ d w e, f (set_log d w e) = f e;
  aside_disk : ∀ d e, f (set_checkpoint_disk d e) = f e;
  aside_schedule : ∀ last bytes next failure e, f (set_schedule last bytes next failure e) = f e;
  aside_active : ∀ act e, f (set_active act e) = f e;
}.

Lemma aside_closed : aside closed.
Proof. by split. Qed.

Lemma aside_rejections : aside rejections.
Proof. by split. Qed.

Section Aside.
Context {X} (osL osC : Z → Call → Outcome) (f : StorageEngine → X) (f_aside : aside f) (b : X).
Abbreviation still := (λ e, f e = b).

Lemma still_log {A} (m : ST (Disk * Wal.WriteAheadLog) exn A) : preserves still (on_log m).
Proof using f_aside. intros e He. unfold on_log. destruct (m (log_disk e, log e)) as [[] []]; by rewrite (aside_log f f_aside). Qed.

Lemma still_disk {A} (m : ST Disk exn A) : preserves still (on_checkpoints m).
Proof using f_aside. intros e He. unfold on_checkpoints. destruct (m (checkpoint_disk e)) as [[]]; by rewrite (aside_disk f f_aside). Qed.

Lemma still_get {A B} (g : StorageEngine → A) (k : A → Engine.Engine.action B) :
  (∀ a, preserves still (k a)) → preserves still (x ← this g; k x).
Proof. intros Hk e He. by apply Hk. Qed.

Lemma still_bind {A B} (m : Engine.Engine.action A) (k : A → Engine.Engine.action B) :
  preserves still m → (∀ a, preserves still (k a)) → preserves still (x ← m; k x).
Proof. intros Hm Hk. eapply triple_bind; [exact Hm|exact Hk]. Qed.

Lemma still_translate {A} (m : Engine.Engine.action A) : preserves still m → preserves still (or_translateIo m).
Proof. apply translate_triple. Qed.

Ltac stays := repeat lazymatch goal with
  | |- triple _ (this _ ≫= _) _ _ => apply still_get; intros ?
  | |- triple _ (_ ≫= _) _ _ => apply still_bind; [|intros ?]
  | |- triple _ (mret _) _ _ => apply triple_ret; intros ? He; exact He
  | |- triple _ (st_throw _) _ _ => apply triple_throw; intros ? He; exact He
  | |- triple _ (update _) _ _ => apply triple_update; intros ? He; by rewrite ?(aside_schedule f f_aside), ?(aside_active f f_aside)
  | |- triple _ (stage _) _ _ => apply stage_same
  | |- triple _ (on_log _) _ _ => apply still_log
  | |- triple _ (on_checkpoints _) _ _ => apply still_disk
  | |- triple _ (or_translateIo _) _ _ => apply still_translate
  | |- triple _ (st_fold _ _ _) _ _ => apply triple_fold; intros ? ? _
  | |- triple _ (match ?x with _ => _ end) _ _ => destruct x
  end.

Lemma still_finish begun file : preserves still (finishCheckpoint osL osC begun file).
Proof using f_aside. unfold finishCheckpoint. stays. Qed.

Lemma still_checkpoint : preserves still (checkpoint_with osL osC None).
Proof using f_aside. unfold checkpoint_with, assertOpen, abort, beginCheckpoint. stays. apply still_finish. Qed.
End Aside.

(** C4: A checkpoint leaves a whole snapshot of what the collections hold, on stable
    storage, under the number of the last record, and remembers that number; one
    that answers nothing had nothing to write; and whether it returns or throws, no
    collection changes. *)
Theorem engine_checkpoint osL osC states e :
  cleans osL → reached osL osC states e →
  let (r, e') := checkpoint osL osC e in
  view e' = view e ∧
  match r with
  | Ok (Some x) => result_lsn x = lastLsn e ∧ lastCheckpoint e' = lastLsn e ∧
      ∃ cs, published (checkpoints e') (lastLsn e) cs (checkpoint_disk e') ∧ snapshot_of (view e) cs
  | Ok None => lastLsn e = 0 ∨ lastLsn e = lastCheckpoint e'
  | Throw _ => True
  end.
Proof.
  intros Hclean Hr. destruct (reached_ok osL osC states e Hclean Hr) as (H & Hok & _). pose proof Hok as [Hs _].
  pose proof (checkpoint_outcome osL osC (env e) H (view e) eq_refl (lastLsn e) e (conj Hs eq_refl)) as Hc.
  pose proof (still_checkpoint osL osC closed aside_closed (closed e) e eq_refl) as Hcl.
  assert (∀ e', steady (env e) H (view e) e' → view e' = view e) as Hview.
  { intros e' (He' & _). unfold view. f_equal. apply (env_eqs _ _ He'). }
  unfold checkpoint. destruct (checkpoint_with osL osC None e) as [[[x|]|x] e'] eqn:E; [| |by split; [apply Hview|]].
  - destruct Hc as [Hs' (El & E1 & E2 & Hn)]. split; [by apply Hview|]. split; [done|]. split; [done|].
    destruct Hs' as (He' & _ & a & [_ _ _ Hst _ [Hh _]] & _). destruct (env_eqs _ _ He') as (_ & Ed & _). rewrite <- Ed in Hn.
    destruct (hold_each _ _ _ Hh _ Hn) as (cs & [_ _ (s & Hsn & Hcs)] & Hpub). exists cs. split; [done|].
    rewrite El in Hsn. apply state_at_full in Hsn. rewrite Hst in Hsn. by injection Hsn as <-.
  - destruct Hc as [Hs' [Hz|[Hz|Hz]]]; (split; [by apply Hview|]); [by left|by right|].
    exfalso. rewrite Hz in Hcl. symmetry in Hcl. unfold checkpoint_with, assertOpen, this, st_get, mbind, st_bind in E.
    by rewrite Hcl in E.
Qed.

(** ** Checkpoints in the background *)
Lemma republished_numbers dir n cs d d' k :
  NoDup (omap_keys (files d)) → checkpoint_file_lsn (checkpointFileName n) = Some n → republished dir n cs d d' →
  k ∈ snapshot_numbers dir d' → k = n ∨ k ∈ snapshot_numbers dir d.
Proof.
  intros Hd Hn Hr Hk. destruct (decide (k = n)) as [->|Hne]; [by left|right].
  assert (NoDup (omap_keys (files d'))) as Hd' by (by apply (republished_elsewhere _ _ _ _ _ Hr)).
  apply in_numbers in Hk as [Hs Ek]; [|done]. apply in_numbers; [done|]. split; [|done].
  by rewrite <- (republished_get dir n cs d d' k Hr Hn Ek Hne).
Qed.

Lemma published_number dir n cs d :
  NoDup (omap_keys (files d)) → checkpoint_file_lsn (checkpointFileName n) = Some n → published dir n cs d →
  n ∈ snapshot_numbers dir d.
Proof. intros Hd Hn (bs & _ & Hh). apply in_numbers; [done|]. split; [by eexists|done]. Qed.

(** The checkpoint [b] of the engine [e] has ended in [e']: it was stopped before;
    or its promise is rejected with an error; or it is fulfilled, with nothing if
    the engine is closed, else with the snapshot of its number, which is remembered,
    and kept unless the directory has newer ones. *)
Definition concluded (b : ActiveCheckpoint) (e e' : StorageEngine) : Prop :=
  let lsn := begun_lsn (active_begun b) in
  activeCheckpoint e' = None ∧
  if aborted b then rejections e' = rejections e
  else
    (∃ x, rejections e' = rejections e ++ [(active_origin b, x)]) ∨
    rejections e' = rejections e ∧
    (closed e = true ∨
     lastCheckpoint e' = lsn ∧
     ((∀ k, k ∈ snapshot_numbers (checkpoints e) (checkpoint_disk e) → k ≤ lsn) →
      lsn ∈ snapshot_numbers (checkpoints e) (checkpoint_disk e'))).

(** It goes on, with fewer documents left. *)
Definition goes_on (b b' : ActiveCheckpoint) (e e' : StorageEngine) : Prop :=
  activeCheckpoint e' = Some b' ∧ (steps_left (active_steps b') < steps_left (active_steps b))%nat ∧
  active_begun b' = active_begun b ∧ active_origin b' = active_origin b ∧ aborted b = false ∧ aborted b' = false ∧
  rejections e' = rejections e ∧ closed e' = closed e ∧ checkpoints e' = checkpoints e ∧
  ∀ k, k ∈ snapshot_numbers (checkpoints e) (checkpoint_disk e') ↔ k ∈ snapshot_numbers (checkpoints e) (checkpoint_disk e).

Section Background.
Context (osL osC : Z → Call → Outcome) (c : Env) (H : history) (s : State).

Lemma turn_outcome e b :
  steady c H s e → activeCheckpoint e = Some b → aborted b = false →
  let e' := (turn osL osC b e).2 in (∃ b', goes_on b b' e e') ∨ concluded b e e'.
Proof using.
  intros (He & _ & a & Hc & Hok) Eb Hb. rewrite Eb in Hok. cbn in Hok. rewrite Hb in Hok. destruct Hok as [Hcov Hst].
  pose proof (env_eqs _ _ He) as (_ & Ed & _). pose proof (core_snapshots _ _ _ _ Hc) as Hk.
  pose proof (hold_nodup _ _ _ (kept_hold _ _ _ _ _ Hk)) as Hnd.
  assert (checkpoint_file_lsn (checkpointFileName (begun_lsn (active_begun b))) = Some (begun_lsn (active_begun b))) as Hlsn.
  { destruct (covers_range _ _ _ _ _ Hcov) as [[? _] ?]. by apply checkpoint_name_lsn. }
  pose proof (next_go osC c H s (onCheckpointStage (settings e)) (active_begun b) (active_steps b) (Some b) e) as Hgo.
  pose proof (next_outcome osC (onCheckpointStage (settings e)) _ _ _ _ _ Hnd Hst) as Hn. unfold stepped in Hn.
  unfold or_translateIo, st_catch, on_checkpoints, st_throw in Hgo.
  unfold turn, this, st_get, mbind, st_bind, st_catch, or_translateIo, st_catch, on_checkpoints, st_throw, update, st_update.
  destruct (Snapshot.next osC _ (active_steps b) (checkpoint_disk e)) as [[[n'|file]|x] d']; cbn [fst snd].
  - left. destruct Hn as (_ & Hel & Hlt). eexists. split; [reflexivity|]. cbn. rewrite Hb.
    do 8 (split; [done|]). intros k. rewrite Ed. apply same_numbers; [done|]. by eapply same_elsewhere.
  - right. destruct Hn as (_ & Hrep & Hpub & _).
    set (e1 := set_checkpoint_disk d' e) in *.
    assert (running c (Some b) any H s e1) as Hr1.
    { eapply running_any, Hgo. split; [|done]. split; [done|]. split; [done|]. by exists a. }
    pose proof (finish_list osL osC c (Some b) H s (active_begun b) file (snapshot_numbers (env_directory c) d') e1
      (conj Hr1 (λ n, iff_refl _))) as Hf.
    pose proof (still_finish osL osC rejections aside_rejections (rejections e) (active_begun b) file e1 eq_refl) as Hrj.
    pose proof (still_finish osL osC closed aside_closed (closed e) (active_begun b) file e1 eq_refl) as Hcl.
    assert (NoDup (omap_keys (files d'))) as Hnd' by (by apply (republished_elsewhere _ _ _ _ _ Hrep)).
    unfold concluded. rewrite Hb.
    destruct (finishCheckpoint osL osC (active_begun b) file e1) as [[[r|]|x] e2]; cbn.
    + destruct Hf as (_ & _ & _ & Hlast & Hnew). split; [done|]. right. split; [done|]. right. split; [done|].
      intros Hmax. rewrite Ed in *. apply Hnew; [by eapply published_number|]. intros k Hk'.
      apply (republished_numbers _ _ _ _ _ _ Hnd Hlsn Hrep) in Hk' as [->|Hk']; [done|by apply Hmax].
    + destruct Hf as [_ Hf]. cbn in Hf. split; [done|]. right. split; [done|]. left. congruence.
    + split; [done|]. left. exists x. by rewrite Hrj.
  - right. unfold concluded. rewrite Hb. cbn. split; [done|]. left. by eexists.
Qed.

Lemma tick_outcome e b :
  steady c H s e → activeCheckpoint e = Some b →
  let e' := (tick osL osC e).2 in (∃ b', goes_on b b' e e') ∨ concluded b e e'.
Proof using.
  intros Hs Eb. unfold tick, this, st_get, mbind, st_bind. rewrite Eb. destruct (aborted b) eqn:Eab; [|by apply turn_outcome].
  right. unfold concluded. by rewrite Eab.
Qed.

Lemma concluded_after b b' e e1 e' : goes_on b b' e e1 → concluded b' e1 e' → concluded b e e'.
Proof using.
  intros (_ & _ & E1 & E2 & E3 & E4 & E5 & E6 & E7 & E8) [Ha Hc]. unfold concluded in *. split; [done|].
  rewrite E4, E1, E2, E5, E6, E7 in Hc. rewrite E3. destruct Hc as [Hc|[Hr Hc]]; [by left|right]. split; [done|].
  destruct Hc as [Hc|[Hl Hc]]; [by left|right]. split; [done|]. intros Hmax. apply Hc. intros k. rewrite E8. apply Hmax.
Qed.

Lemma ticks_conclude n e b :
  steady c H s e → activeCheckpoint e = Some b → (steps_left (active_steps b) ≤ n)%nat →
  ∃ m, (m ≤ n)%nat ∧ (∀ k, (k ≤ m)%nat → activeCheckpoint (Nat.iter k (λ e, (tick osL osC e).2) e) ≠ None) ∧
    let e' := Nat.iter (S m) (λ e, (tick osL osC e).2) e in steady c H s e' ∧ concluded b e e'.
Proof using.
  revert e b. induction n as [|n IH]; intros e b Hs Eb Hl; pose proof (tick_outcome e b Hs Eb) as Ht;
    pose proof (tick_steady osL osC c H s e Hs) as Hs';
    (assert (steady c H s (tick osL osC e).2) as Hs1 by (by destruct (tick osL osC e) as [[] ?])); clear Hs';
    (destruct Ht as [[b' Hg]|Hcon];
     [|exists O; split; [lia|]; split; [intros k Hk; by replace k with O by lia; cbn; rewrite Eb|done]]).
  - destruct Hg as (_ & Hlt & _). lia.
  - pose proof Hg as (Eb' & Hlt & _). destruct (IH _ b' Hs1 Eb' ltac:(lia)) as (m & Hm & Hbefore & Hend).
    exists (S m). split; [lia|]. split.
    + intros [|k] Hk; [cbn; by rewrite Eb|]. rewrite Nat.iter_succ_r. apply Hbefore. lia.
    + rewrite Nat.iter_succ_r. split; [apply Hend|]. eapply concluded_after; [exact Hg|apply Hend].
Qed.
End Background.

(** C5: A checkpoint in the background ends, whatever the operating system does, and
    not later than one turn after as many as it has documents left to write: if it
    was not stopped, its promise is rejected with an error, or the number of its
    snapshot is remembered and the snapshot is in the directory, unless that has
    newer ones or the engine is closed. No collection changes. *)
Theorem engine_background_ends osL osC H e b :
  engine_ok H e → activeCheckpoint e = Some b →
  ∃ n, (n ≤ steps_left (active_steps b))%nat ∧
    (∀ k, (k ≤ n)%nat → activeCheckpoint (Nat.iter k (λ e, (tick osL osC e).2) e) ≠ None) ∧
    let e' := Nat.iter (S n) (λ e, (tick osL osC e).2) e in
    engine_ok H e' ∧ databases e' = databases e ∧ concluded b e e'.
Proof.
  intros [Hs Hcoll] Eb. destruct (ticks_conclude osL osC _ _ _ _ e b Hs Eb (le_n _)) as (n & Hn & Hbefore & Hs' & Hcon).
  exists n. split; [done|]. split; [done|]. cbv zeta. set (e' := Nat.iter (S n) _ e) in *.
  assert (databases e' = databases e) as Ed by apply (env_eqs _ _ (proj1 Hs')).
  split; [|done]. split; [|intros db coll x; unfold getCollection; rewrite Ed; apply Hcoll].
  rewrite Ed. by rewrite (proj1 Hs').
Qed.

(** ** Examples *)
Lemma engine_recovers_witness :
  ∃ e e', sample_engine 9 = Some e ∧
    open_again 0 quiet_os quiet_os (engine_options 1000000) (log_disk e) (checkpoint_disk e) = inl e' ∧
    view e' = view e.
Proof.
  pose proof (sample_reached 9) as Hr. destruct (sample_engine 9) as [e|] eqn:E; [|destruct Hr]. destruct Hr as [states Hr].
  assert (match sample_engine 9 with
    | Some e => Wal.mode (log e) = Flushed ∧ Wal.groupCommit (log e) = false ∧ Wal.broken (log e) = false ∧
        flushedb (log_disk e) = true ∧ flushedb (checkpoint_disk e) = true ∧ checkpoints e = js "checkpoints" ∧
        Wal.directory (log e) = js "log" ∧
        match open_again 0 quiet_os quiet_os (engine_options 1000000) (log_disk e) (checkpoint_disk e) with
        | inl _ => True | inr _ => False end
    | None => False end) as Hx by (vm_compute; repeat split).
  rewrite E in Hx. destruct Hx as (H1 & H2 & H3 & H4 & H5 & H6 & H7 & H8).
  pose proof (engine_recovers quiet_os quiet_os states e PowerFails (log_disk e) (checkpoint_disk e) 0 quiet_os quiet_os
    (engine_options 1000000) quiet_cleans Hr
    (conj H1 (conj (loss_nothing _ (flushedb_all _ H4)) (loss_nothing _ (flushedb_all _ H5))))
    (Build_reopening (engine_options 1000000) e (log_disk e) (eq_sym H7) (eq_sym H6) (λ _, flushedb_all _ H4)) quiet_cleans) as H.
  destruct (open_again 0 quiet_os quiet_os (engine_options 1000000) (log_disk e) (checkpoint_disk e)) as [e'|] eqn:E'; [|destruct H8].
  exists e, e'. split; [reflexivity|]. split; [exact E'|]. destruct H as [_ H]. destruct (H H2) as [Hv|[Hb _]]; [exact Hv|congruence].
Defined.


Lemma engine_snapshots_safe_witness :
  ∃ states e, sample_engine 10 = Some e ∧ snapshot_numbers (checkpoints e) (checkpoint_disk e) = [5; 6] ∧
    snapshot_ok states (checkpoints e) (checkpoint_disk e) 5 ∧ snapshot_ok states (checkpoints e) (checkpoint_disk e) 6.
Proof.
  pose proof (sample_reached 10) as Hr. destruct (sample_engine 10) as [e|] eqn:E; [|destruct Hr]. destruct Hr as [states Hr].
  assert (match sample_engine 10 with
    | Some e => snapshot_numbers (checkpoints e) (checkpoint_disk e) = [5; 6] | None => False end) as Hn by (vm_compute; reflexivity).
  rewrite E in Hn. destruct (engine_snapshots_safe quiet_os quiet_os states e quiet_cleans Hr) as [H _]. rewrite Hn in H.
  inversion_clear H as [|? ? [_ H5] H']. inversion_clear H' as [|? ? [_ H6] _]. exists states, e.
  exact (conj eq_refl (conj Hn (conj H5 H6))).
Defined.

Lemma engine_checkpoint_witness :
  ∃ e e' cs, sample_engine 9 = Some e ∧ (checkpoint quiet_os quiet_os e).2 = e' ∧ lastLsn e = 6 ∧
    published (checkpoints e') 6 cs (checkpoint_disk e') ∧ snapshot_of (view e) cs.
Proof.
  pose proof (sample_reached 9) as Hr. destruct (sample_engine 9) as [e|] eqn:E; [|destruct Hr]. destruct Hr as [states Hr].
  assert (match sample_engine 9 with
    | Some e => lastLsn e = 6 ∧ match (checkpoint quiet_os quiet_os e).1 with Ok (Some _) => True | _ => False end
    | None => False end) as Hx by (vm_compute; split; reflexivity).
  rewrite E in Hx. destruct Hx as [Hl Hx]. pose proof (engine_checkpoint quiet_os quiet_os states e quiet_cleans Hr) as H.
  destruct (checkpoint quiet_os quiet_os e) as [[[x|]|x] e'] eqn:Ec; [|destruct Hx..].
  destruct H as (_ & _ & _ & cs & H1 & H2). rewrite Hl in H1. exists e, e', cs.
  exact (conj eq_refl (conj (f_equal snd Ec) (conj Hl (conj H1 H2)))).
Defined.

(** The engine [e], after its checkpoint [b] has written [n] documents of the first
    collection and paused. *)
Definition paused (n : nat) (b : BegunCheckpoint) (e : StorageEngine) : result StorageEngine :=
  match begun_collections b with
  | [] => Throw RangeError
  | c :: cs =>
      header ← Snapshot.encodeHeader (begun_lsn b) (len (c :: cs));
      parts ← Snapshot.encodeCollection c;
      docs ← documents_bytes (take n (Snapshot.documents c));
      let body := header ++ concat parts ++ docs in
      let file := (checkpoints e, temporaryFileName (begun_lsn b)) in
      let w := {| Snapshot.fd := file; Snapshot.position := len body; Snapshot.checksum := crc32 body;
                  Snapshot.pending := []; Snapshot.pendingBytes := 0 |} in
      let d := checkpoint_disk e in
      Ok (set_active (Some {| active_begun := b; active_origin := Caller; aborted := false;
                              active_steps := Snapshot.Paused (checkpoints e) (begun_lsn b) w (drop n (Snapshot.documents c)) cs |})
           (set_checkpoint_disk (set_files d (omap_set (files d) file {| Disk.contents := body; Disk.flushed := 0 |})) e))
  end.

Lemma paused_ok c H s n b e :
  running c None (λ a, any a ∧ begun_covers c H b a) H s e →
  match paused n b e with Ok e' => steady c H s e' | Throw _ => True end.
Proof.
  intros (He & _ & a & Hc & _ & Hcov). unfold paused. destruct (begun_collections b) as [|x cs] eqn:Eb; [done|].
  destruct (Snapshot.encodeHeader _ _) as [header|] eqn:Eh; [|done]. cbn [mbind res_bind].
  destruct (Snapshot.encodeCollection x) as [parts|] eqn:Ex; [|done]. cbn [mbind res_bind].
  destruct (documents_bytes (take n _)) as [docs|] eqn:Ed; [|done]. cbn [mbind res_bind].
  set (body := header ++ concat parts ++ docs). set (file := (checkpoints e, temporaryFileName (begun_lsn b))).
  set (d := set_files _ _). destruct (env_eqs _ _ He) as (_ & Edir & _).
  assert (elsewhere [file] (checkpoint_disk e) d) as Hel by apply elsewhere_set.
  split; [exact He|]. split; [done|]. exists a. split.
  - apply core_active, core_disk; [done|]. eapply kept_same; [by eapply same_elsewhere|]. apply Hc.
  - cbn. split; [by unfold begun_covers in Hcov|]. rewrite <- Edir. split; [done|]. split; [done|]. split; [done|].
    exists body. split; [split; [|done]; exists body; cbn; rewrite app_nil_r; split; [unfold holds; cbn; by rewrite omap_get_set|done]|].
    rewrite Eb. unfold snapshot_body. rewrite Eh. cbn [mbind res_bind]. rewrite collections_bytes_cons, Ex. cbn [mbind res_bind].
    rewrite <- (take_drop n (Snapshot.documents x)) at 1. rewrite documents_bytes_app, Ed. cbn [mbind res_bind]. unfold rest_bytes.
    destruct (documents_bytes (drop n _)); [|done]. cbn [mbind res_bind after_bytes]. destruct (collections_bytes cs); [|done].
    unfold body. cbn. by rewrite <- !app_assoc.
Qed.

(** The checkpoint of the engine with four documents, paused after two of them. *)
Definition sample_paused : option (BegunCheckpoint * StorageEngine) :=
  match sample_engine 9 with
  | Some e =>
      match beginCheckpoint quiet_os None e with
      | (Ok (Some b), e) => match paused 2 b e with Ok e' => Some (b, e') | Throw _ => None end
      | _ => None
      end
  | None => None
  end.

Lemma sample_paused_ok : match sample_paused with Some (b, e) => ∃ H, engine_ok H e | None => True end.
Proof.
  unfold sample_paused. pose proof (sample_reached 9) as Hr.
  assert (match sample_engine 9 with Some e => activeCheckpoint e = None | None => True end) as Ha by (vm_compute; reflexivity).
  destruct (sample_engine 9) as [e|]; [|done]. destruct Hr as [states Hr].
  destruct (reached_ok quiet_os quiet_os states e quiet_cleans Hr) as (H & Hok & _). destruct Hok as [(He & _ & a & Hc & _) Hcoll].
  pose proof (begin_any quiet_os (env e) H _ eq_refl None any (any_upward _) e) as Hb.
  assert (running (env e) None any H (view_of (databases e)) e) as Hrun by (split; [done|]; split; [done|]; by exists a).
  specialize (Hb Hrun). destruct (beginCheckpoint quiet_os None e) as [[[b|]|x] e1]; [|done..].
  pose proof (paused_ok (env e) H (view_of (databases e)) 2 b e1 Hb) as Hp. destruct (paused 2 b e1) as [e2|]; [|done]. exists H.
  assert (databases e2 = databases e) as Ed by apply (env_eqs _ _ (proj1 Hp)).
  split; [|intros db coll x; unfold getCollection; rewrite Ed; apply Hcoll]. rewrite Ed. by rewrite (proj1 Hp).
Qed.

(** It ends with its snapshot, as the newest. *)
Lemma engine_background_ends_witness :
  match sample_paused with
  | Some (b, e) => ∃ a n, activeCheckpoint e = Some a ∧ steps_left (active_steps a) = 2%nat ∧ (n ≤ 2)%nat ∧
      let e' := Nat.iter (S n) (λ e, (tick quiet_os quiet_os e).2) e in
      activeCheckpoint e' = None ∧ lastCheckpoint e' = 6 ∧ 6 ∈ snapshot_numbers (checkpoints e) (checkpoint_disk e')
  | None => False
  end.
Proof.
  assert (match sample_paused with
    | Some (b, e) => snapshot_numbers (checkpoints e) (checkpoint_disk e) = [4; 5] ∧ closed e = false ∧
        rejections (Nat.iter 1 (λ e, (tick quiet_os quiet_os e).2) e) = [] ∧
        rejections (Nat.iter 2 (λ e, (tick quiet_os quiet_os e).2) e) = [] ∧
        rejections (Nat.iter 3 (λ e, (tick quiet_os quiet_os e).2) e) = [] ∧
        match activeCheckpoint e with
        | Some a => steps_left (active_steps a) = 2%nat ∧ aborted a = false ∧ begun_lsn (active_begun a) = 6
        | None => False
        end
    | None => False end) as Hx by (vm_compute; repeat split).
  pose proof sample_paused_ok as Hok. destruct sample_paused as [[b e]|]; [|exact Hx]. destruct Hok as [H Hok].
  destruct Hx as (Hn & Hcl & R1 & R2 & R3 & Ha). destruct (activeCheckpoint e) as [a|] eqn:Ea; [|destruct Ha].
  destruct Ha as (Hl & Hab & Hb). destruct (engine_background_ends quiet_os quiet_os H e a Hok Ea) as (n & Hle & _ & _ & _ & Hend & Hcon).
  rewrite Hl in Hle. rewrite Hab, Hb, Hn, Hcl in Hcon. exists a, n. split; [reflexivity|]. split; [exact Hl|]. split; [exact Hle|].
  split; [exact Hend|]. destruct Hcon as [[x Hrj]|[_ [Hf|[Hlast Hnew]]]]; [|discriminate Hf|].
  - exfalso. destruct n as [|[|[|n]]]; [| | |lia]; rewrite ?R1, ?R2, ?R3 in Hrj; by destruct (rejections e).
  - split; [exact Hlast|]. apply Hnew. intros k Hk. apply elem_of_cons in Hk as [->|Hk%list_elem_of_singleton]; [|subst k]; discriminate.
Defined.
