(* ===== verification/EngineErrors.v ===== *)
(** * The storage engine: errors

    What appending to an engine throws: only errors of the storage package, since a
    log that is open has its descriptor. *)

From S2P Require Import Prelude Errors JsNumber JsString JsValue Binary WalFormat Disk DiskLemmas WriteAheadLog WalLemmas WalInvariant WalOperations Operations Checkpoint Triples Collection CollectionModel Engine EngineInvariant EngineCommands EngineLife.
Import WriteAheadLog.

(** ** Calls of the operating system *)

(** An error that the system or the storage package throws. *)
Definition io_failure (e : exn) : Prop := match e with SystemError _ | StorageError _ => True | _ => False end.

Lemma ioError_storage e b : storage_failure (ioError e b).
Proof. unfold ioError. repeat case_match; by eexists. Qed.

Lemma translateIo_storage e : io_failure e → storage_failure (translateIo e).
Proof. destruct e; try done; intros _; [by eexists|]. apply (ioError_storage (SystemError code) true). Qed.

(** What [m] throws, whatever the state. *)
Abbreviation throws X m := (outcomes (λ _, True) m (λ _ _, True) (λ e _, X e)).

Section Calls.
Context (os : Z → Call → Outcome).

Lemma syscall_throws {A} call (act : Outcome → ST Disk exn A) :
  (∀ o, throws io_failure (act o)) → throws io_failure (syscall os call act).
Proof.
  intros Ha d _. unfold syscall. cbv zeta; destruct (os _ call); [by apply Ha|by apply Ha|done].
Qed.

Lemma on_file_throws {A} file (act : File → A * File) : throws io_failure (on_file file act).
Proof. intros d _. unfold on_file. destruct (omap_get _ _) as [f|]; [|done]. by destruct (act f). Qed.

Lemma fsync_throws file : throws io_failure (fsyncSync os file).
Proof. apply syscall_throws. intros o. apply on_file_throws. Qed.

Lemma truncate_throws file n : throws io_failure (ftruncateSync os file n).
Proof. apply syscall_throws. intros o. apply on_file_throws. Qed.

Lemma close_throws file : throws io_failure (closeSync os file).
Proof. apply syscall_throws. intros o. by apply outcomes_ret. Qed.

Lemma unlink_throws file : throws io_failure (unlinkSync os file).
Proof. apply syscall_throws. intros o d _. by destruct (omap_has _ _). Qed.

Lemma create_throws file : throws io_failure (createSync os file).
Proof. apply syscall_throws. intros o d _. by destruct (omap_has _ _). Qed.

(** A write takes some bytes of what there is. *)
Lemma write_takes file data position d :
  data ≠ [] →
  match writeSync os file data position d with
  | (Ok n, _) => 1 ≤ n
  | (Throw e, _) => io_failure e
  end.
Proof.
  intros Hd. assert (1 ≤ len data) as Hl by (destruct data; [done|]; rewrite len_cons; pose proof (len_nonneg data); lia).
  unfold writeSync, syscall. cbv zeta. destruct (os _ _); [| |done]; unfold on_file; cbn [files];
    (destruct (omap_get _ _); [|done]); lia.
Qed.

Lemma writeFully_throws fuel file data position :
  (length data ≤ fuel)%nat → throws io_failure (writeFully os fuel file data position).
Proof.
  revert data position. induction fuel as [|fuel IH]; intros data position Hl.
  { destruct data; [|cbn in Hl; lia]. by apply outcomes_ret. }
  destruct data as [|b data]; [by apply outcomes_ret|]. cbn [writeFully].
  intros d _. pose proof (write_takes file (b :: data) position d ltac:(done)) as Hw. unfold mbind, st_bind.
  destruct (writeSync os file _ position d) as [[n|e] d1]; [|done]. apply IH; [|done].
  rewrite length_drop. cbn [length] in *. lia.
Qed.

Lemma syncDirectory_throws dir : throws io_failure (syncDirectory os dir).
Proof.
  assert (∀ e, throws io_failure (match errnoOf e with
    | Some code => if bool_decide (code ∈ [EISDIR; EPERM; EINVAL]) then mret () else st_throw (ioError e false)
    | None => st_throw (ioError e false)
    end : ST Disk exn ())) as Hh.
  { intros e. destruct (errnoOf e); [case_bool_decide|]; try by apply outcomes_ret.
    all: by apply outcomes_throw. }
  unfold syncDirectory. eapply outcomes_bind with (Q := λ _ _, True).
  - eapply outcomes_catch with (X' := λ _ _, True); [|intros e; by apply outcomes_ret].
    eapply outcomes_bind with (Q := λ _ _, True); [|intros u; by apply outcomes_ret].
    eapply outcomes_weaken; [apply (syscall_throws (OpenDirectory dir) (λ _, mret ())); intros o; by apply outcomes_ret|done..].
  - intros [u|e]; [|apply Hh].
    assert (throws io_failure (st_catch (syscall os (FsyncDirectory dir) (λ _, mret ()))
      (λ e, match errnoOf e with
        | Some code => if bool_decide (code ∈ [EISDIR; EPERM; EINVAL]) then mret () else st_throw (ioError e false)
        | None => st_throw (ioError e false)
        end))) as Hf.
    { eapply outcomes_catch with (X' := λ _ _, True); [|intros e; eapply outcomes_weaken; [apply Hh|done..]].
      eapply outcomes_weaken; [apply (syscall_throws (FsyncDirectory dir) (λ _, mret ())); intros o; by apply outcomes_ret|done..]. }
    intros d _. unfold st_finally. specialize (Hf d I). destruct (st_catch _ _ d) as [r d1].
    assert (throws io_failure (syscall os (CloseDirectory dir) (λ _, mret ()))) as Hc
      by (apply syscall_throws; intros o; by apply outcomes_ret).
    specialize (Hc d1 I). destruct (syscall os (CloseDirectory dir) _ d1) as [[v|e] d2]; [exact Hf|exact Hc].
Qed.
End Calls.

(** ** The log *)

(** An open log, and any log: its descriptor is there while it is open. *)
Definition has_fd (s : Disk * WriteAheadLog) : Prop := closed s.2 = false ∧ is_Some (fd s.2).
Definition kept_fd (w : WriteAheadLog) : Prop := closed w = false → is_Some (fd w).
Definition kept (s : Disk * WriteAheadLog) : Prop := kept_fd s.2.

Lemma has_kept s : has_fd s → kept s.
Proof. by intros [_ ?] _. Qed.

(** Code that an open log throws only [X] in, and stays open. *)
Abbreviation open_fails X m := (outcomes has_fd m (λ _, has_fd) (λ e s, X e ∧ has_fd s)).

(** What appending may throw besides: a number that is too large. *)
Definition log_failure (e : exn) : Prop := storage_failure e ∨ e = RangeError.

Implicit Types X Y : exn → Prop.

Lemma fails_bind {A B} X (m : ST (Disk * WriteAheadLog) exn A) (k : A → ST (Disk * WriteAheadLog) exn B) :
  open_fails X m → (∀ a, open_fails X (k a)) → open_fails X (x ← m; k x).
Proof. intros Hm Hk. eapply outcomes_bind; [exact Hm|exact Hk]. Qed.

Lemma fails_weaken {A} X Y (m : ST (Disk * WriteAheadLog) exn A) :
  (∀ e, X e → Y e) → open_fails X m → open_fails Y m.
Proof. intros HX Hm. eapply outcomes_weaken; [exact Hm|done..|]. intros e s [H1 H2]. by split; [apply HX|]. Qed.

Lemma fails_get {A B} X (f : WriteAheadLog → A) (k : A → ST (Disk * WriteAheadLog) exn B) :
  (∀ a, open_fails X (k a)) → open_fails X (x ← this f; k x).
Proof. intros Hk s Hs. unfold this, st_get, mbind, st_bind. by apply Hk. Qed.

(** The changes that leave the log open. *)
Lemma fails_update X (f : WriteAheadLog → WriteAheadLog) :
  (∀ w, closed w = false → is_Some (fd w) → closed (f w) = false ∧ is_Some (fd (f w))) → open_fails X (update f).
Proof. intros Hf [d w] [H1 H2]. by apply (Hf w). Qed.

Lemma fails_disk {A} X (m : ST Disk exn A) : throws X m → open_fails X (on_disk m).
Proof.
  intros Hm [d w] Hs. unfold on_disk. cbn [fst snd]. specialize (Hm d I). by destruct (m d) as [[a|e] d'].
Qed.

Lemma fails_descriptor X : open_fails X descriptor.
Proof. intros [d w] [H1 [file Hfd]]. unfold descriptor, this, st_get, mbind, st_bind. cbn [snd] in *. by rewrite Hfd. Qed.

Lemma fails_catch {A} X Y (m : ST (Disk * WriteAheadLog) exn A) h :
  open_fails Y m → (∀ e, Y e → open_fails X (h e)) → open_fails X (st_catch m h).
Proof.
  intros Hm Hh. eapply outcomes_catch; [exact Hm|]. intros e s [HY Hs]. by apply (Hh e HY).
Qed.

Lemma fails_throw {A} X e : X e → open_fails X (st_throw (A := A) e).
Proof. intros He s Hs. by split. Qed.

Lemma fails_ret {A} X (a : A) : open_fails X (mret a).
Proof. by intros s Hs. Qed.

Lemma writable_fails : outcomes kept assertWritable (λ _, has_fd) (λ e s, storage_failure e ∧ kept s).
Proof.
  intros [d w] Hk. unfold assertWritable, assertOpen, this, st_get, mbind, st_bind. cbn [snd]. unfold kept, kept_fd in *. cbn [snd] in *.
  destruct (closed w) eqn:Ec; [split; [by eexists|cbn; congruence]|]. cbn.
  destruct (broken w); [split; [by eexists|cbn; intros _; by apply Hk]|].
  split; [done|]. by apply Hk.
Qed.

(** What starts with [assertWritable]. *)
Lemma writable_then {A} X (k : ST (Disk * WriteAheadLog) exn A) :
  (∀ e, storage_failure e → X e) → open_fails X k →
  outcomes kept (_ ← assertWritable; k) (λ _, has_fd) (λ e s, X e ∧ kept s).
Proof.
  intros HX Hk. eapply outcomes_bind.
  - eapply outcomes_weaken; [apply writable_fails|done..|]. intros e s [H1 H2]. by split; [apply HX|].
  - intros u. eapply outcomes_weaken; [exact Hk|done..|]. intros e s [H1 H2]. by split; [|apply has_kept].
Qed.

Lemma writable_open : open_fails storage_failure assertWritable.
Proof.
  intros [d w] Hs. pose proof (writable_fails (d, w) (has_kept _ Hs)) as Hw.
  assert ((assertWritable (d, w)).2 = (d, w)) as E.
  { unfold assertWritable, assertOpen, this, st_get, mbind, st_bind. cbn [snd]. destruct (closed w); [done|]. cbn. by destruct (broken w). }
  destruct (assertWritable (d, w)) as [[u|e] s']; cbn in E; subst s'; [done|]. by destruct Hw.
Qed.

Lemma uint64_throws z e : WalFormat.uint64 z = Throw e → e = RangeError.
Proof. unfold WalFormat.uint64. destruct (_ && _); [discriminate|]. by intros [= <-]. Qed.

Section Operations.
Context (os : Z → Call → Outcome).

(** [catch (error) { this.broken = true; throw ioError(error) }]. *)
Lemma fails_broken {A} Y (m : ST (Disk * WriteAheadLog) exn A) b :
  open_fails Y m → open_fails storage_failure (st_catch m (λ error, _ ← update set_broken; st_throw (ioError error b))).
Proof.
  intros Hm. eapply fails_catch; [exact Hm|]. intros e _. apply fails_bind; [by apply fails_update|]. intros u.
  apply fails_throw, ioError_storage.
Qed.

Lemma fails_abandon {A} e n : open_fails storage_failure (x ← abandonWrite os e n; st_throw (A := A) x).
Proof.
  unfold abandonWrite.
  assert (∀ m : action exn, outcomes has_fd m (λ x s, storage_failure x ∧ has_fd s) (λ _ _, False) →
    open_fails storage_failure (x ← m; st_throw (A := A) x)) as Hm.
  { intros m Hm s Hs. specialize (Hm s Hs). unfold mbind, st_bind. destruct (m s) as [[x|x] s']; [exact Hm|done]. }
  apply Hm. clear Hm.
  assert (outcomes has_fd (_ ← update set_broken; mret (ioError e true)) (λ x s, storage_failure x ∧ has_fd s) (λ _ _, False)) as Hb.
  { intros [d w] Hs. split; [apply ioError_storage|exact Hs]. }
  destruct (isDiskFull e); [|exact Hb].
  eapply outcomes_catch with (X' := λ e s, io_failure e ∧ has_fd s); [|intros e'; eapply outcomes_weaken; [exact Hb|by intros s [_ ?]|done..]].
  eapply outcomes_bind; [apply (fails_descriptor io_failure)|]. intros file.
  eapply outcomes_bind; [apply fails_disk, truncate_throws|]. intros u. apply outcomes_ret. intros s Hs.
  split; [apply ioError_storage|done].
Qed.

Lemma fails_write file data position :
  open_fails io_failure (on_disk (writeFully os (length data) file data position)).
Proof. by apply fails_disk, writeFully_throws. Qed.

Lemma fails_fsync : open_fails storage_failure (fsync_or_break os).
Proof.
  eapply (fails_broken io_failure). apply fails_bind; [apply fails_descriptor|]. intros file. apply fails_disk, fsync_throws.
Qed.

Lemma fails_flush : outcomes kept (flush os) (λ _, has_fd) (λ e s, storage_failure e ∧ kept s) ∧ open_fails storage_failure (flush os).
Proof.
  assert (open_fails storage_failure
    (n ← this pendingBytes;
     if n =? 0 then mret ()
     else
       data ← this (λ w, concat (pending w));
       p ← this position;
       _ ← st_catch (file ← descriptor; on_disk (writeFully os (length data) file data (p - n)))
             (λ error, e ← abandonWrite os error (p - n); st_throw e);
       update (set_pending [] 0))) as Hk.
  { apply fails_get. intros n. destruct (n =? 0); [apply fails_ret|]. apply fails_get. intros data. apply fails_get. intros p.
    apply fails_bind; [|intros u; by apply fails_update].
    eapply (fails_catch _ io_failure); [apply fails_bind; [apply fails_descriptor|intros file; apply fails_write]|].
    intros e _. apply fails_abandon. }
  split; [by apply writable_then|]. apply fails_bind; [apply writable_open|]. by intros u.
Qed.

Lemma createSegment_throws dir first durable : throws log_failure (createSegment os dir first durable).
Proof.
  unfold createSegment. eapply outcomes_bind with (Q := λ _ _, True).
  - eapply outcomes_catch with (X' := λ e _, io_failure e).
    + eapply outcomes_bind; [apply create_throws|]. intros fd. by apply outcomes_ret.
    + intros e. apply outcomes_throw. intros s He. left. by apply translateIo_storage.
  - intros opened. eapply outcomes_catch with (X' := λ e _, io_failure e ∨ e = RangeError).
    + apply outcomes_lift.
      { intros e d He _. right. apply bind_Throw_inv in He as [He|(x & _ & He)]; [by apply uint64_throws in He|discriminate He]. }
      intros header _. eapply outcomes_bind with (Q := λ _ _, True).
      { eapply outcomes_weaken; [by apply (writeFully_throws os)|done|done|]. intros e s0 He. by left. }
      intros u. eapply outcomes_bind with (Q := λ _ _, True); [|intros v; by apply outcomes_ret].
      destruct durable; [|by apply outcomes_ret]. eapply outcomes_bind with (Q := λ _ _, True).
      * eapply outcomes_weaken; [apply (fsync_throws os)|done|done|]. intros e s0 He. by left.
      * intros v. eapply outcomes_weaken; [apply (syncDirectory_throws os)|done|done|]. intros e s0 He. by left.
    + intros e. eapply outcomes_bind with (Q := λ _ _, io_failure e ∨ e = RangeError).
      * intros s He. unfold st_catch. by destruct ((_ ← closeSync os opened; _) s) as [[[]|x] s1].
      * intros u. apply outcomes_throw. intros s [He| ->]; [left; by apply translateIo_storage|by right].
Qed.

Lemma fails_rotate : open_fails log_failure (rotate os).
Proof.
  assert (∀ e, storage_failure e → log_failure e) as Hl by (by left).
  unfold rotate. apply fails_get. intros durable. apply fails_bind; [eapply fails_weaken; [exact Hl|apply fails_flush]|]. intros u.
  apply fails_bind.
  { destruct durable; [|apply fails_ret]. apply fails_bind; [eapply fails_weaken; [exact Hl|apply fails_fsync]|].
    intros v. by apply fails_update. }
  intros v. apply fails_get. intros w. apply fails_bind; [apply fails_disk, createSegment_throws|]. intros [info file].
  apply fails_bind; [apply fails_descriptor|]. intros previous.
  apply fails_bind; [apply fails_update; by intros w' H1 H2; split|]. intros x.
  eapply fails_weaken; [exact Hl|]. eapply (fails_broken io_failure). apply fails_disk, close_throws.
Qed.

Lemma append_fails type payload :
  outcomes kept (append os type payload) (λ _, has_fd) (λ e s, log_failure e ∧ kept s).
Proof.
  assert (∀ e, storage_failure e → log_failure e) as Hl by (by left).
  apply writable_then; [exact Hl|]. apply fails_get. intros lsn.
  intros s Hs. revert s Hs. eapply outcomes_lift.
  { intros e s He Hs. split; [|done]. right. unfold WalFormat.encodeRecord in He.
    destruct (_ || _); [by injection He as <-|]. destruct (_ <? _); [by injection He as <-|].
    apply bind_Throw_inv in He as [He|(x & _ & He)]; [by apply uint64_throws in He|discriminate He]. }
  intros record _. apply fails_get. intros w. apply fails_bind; [destruct (_ && _); [apply fails_rotate|apply fails_ret]|]. intros u.
  apply fails_get. intros w1. destruct (bool_decide (mode w1 = Memory)).
  - apply fails_bind; [by apply fails_update|]. intros v. apply fails_get. intros n.
    apply fails_bind; [|intros x; apply fails_ret]. destruct (_ <=? n); [|apply fails_ret].
    eapply fails_catch; [apply fails_flush|]. intros e He. apply fails_get. intros b.
    apply fails_bind; [destruct b; [apply fails_ret|by apply fails_update]|]. intros x. by apply fails_throw, Hl.
  - apply fails_bind.
    { eapply (fails_catch _ io_failure); [apply fails_bind; [apply fails_descriptor|intros file; apply fails_write]|].
      intros e _. eapply fails_weaken; [exact Hl|apply fails_abandon]. }
    intros v. apply fails_bind.
    { destruct (bool_decide (mode w1 = Flushed)); [|apply fails_ret].
      destruct (groupCommit w1); [by apply fails_update|eapply fails_weaken; [exact Hl|apply fails_fsync]]. }
    intros x. apply fails_bind; [by apply fails_update|]. intros y. apply fails_ret.
Qed.

(** What a checkpoint asks of the log. *)
Lemma sync_kept : preserves kept (sync os).
Proof.
  assert (outcomes kept (sync os) (λ _, kept) (λ _, kept)) as H; [|exact H].
  unfold sync. eapply outcomes_bind with (Q := λ _, has_fd).
  - eapply outcomes_weaken; [apply (proj1 fails_flush)|done..|by intros e s [_ ?]].
  - intros u. eapply outcomes_weaken; [eapply (fails_broken io_failure)|done|by intros a s ?%has_kept|by intros e s [_ ?%has_kept]].
    apply fails_bind; [apply fails_descriptor|]. intros file. apply fails_bind; [apply fails_disk, fsync_throws|]. intros v. by apply fails_update.
Qed.

Lemma fails_truncate fuel lsn removed : open_fails log_failure (truncate_loop os fuel lsn removed).
Proof.
  revert removed. induction fuel as [|fuel IH]; intros removed; cbn [truncate_loop]; [apply fails_ret|].
  apply fails_get. intros [|oldest [|next rest]]; [apply fails_ret..|]. destruct (_ <? _); [apply fails_ret|].
  apply fails_bind; [by apply fails_update|]. intros u. apply fails_bind; [|intros v; apply IH].
  eapply (fails_catch _ io_failure); [apply fails_disk, unlink_throws|]. intros e _.
  apply fails_bind; [by apply fails_update|]. intros v. apply fails_throw. left. apply ioError_storage.
Qed.

Lemma truncateThrough_kept lsn : preserves kept (truncateThrough os lsn).
Proof.
  assert (outcomes kept (truncateThrough os lsn) (λ _, kept) (λ _, kept)) as H; [|exact H].
  unfold truncateThrough. eapply outcomes_weaken; [eapply (writable_then (λ _, True)); [done|]|done|by intros a s ?%has_kept|by intros e s [_ ?]].
  apply fails_get. intros n. apply fails_bind; [by eapply fails_weaken; [|apply fails_truncate]|]. intros removed.
  apply fails_get. intros w. apply fails_bind; [|intros u; apply fails_ret].
  destruct (_ && _); [|apply fails_ret]. apply fails_disk. by eapply outcomes_weaken; [apply (syncDirectory_throws os)|..].
Qed.
End Operations.

(** ** The engine *)
Section Engine.
Context (osL osC : Z → Call → Outcome).
Import Engine.Engine.

(** The log of an engine has its descriptor. *)
Definition fd_ok (e : StorageEngine) : Prop := kept_fd (log e).

Abbreviation keeps m := (preserves fd_ok m).

Lemma keeps_bind {A B} (m : Engine.Engine.action A) (k : A → Engine.Engine.action B) :
  keeps m → (∀ a, keeps (k a)) → keeps (x ← m; k x).
Proof. intros Hm Hk. by eapply triple_bind. Qed.

Lemma keeps_get {A B} (f : StorageEngine → A) (k : A → Engine.Engine.action B) :
  (∀ a, keeps (k a)) → keeps (x ← this f; k x).
Proof. intros Hk e He. unfold this, st_get, mbind, st_bind. by apply Hk. Qed.

Lemma keeps_ret {A} (a : A) : keeps (mret a : Engine.Engine.action A).
Proof. by apply triple_ret. Qed.

Lemma keeps_lift {A} (r : result A) : keeps (st_lift r : Engine.Engine.action A).
Proof. apply triple_lift. by destruct r. Qed.

Lemma keeps_throw {A} x : keeps (st_throw x : Engine.Engine.action A).
Proof. by apply triple_throw. Qed.

Lemma keeps_update (f : StorageEngine → StorageEngine) : (∀ e, log (f e) = log e) → keeps (update f).
Proof. intros Hf e He. unfold update, st_update, fd_ok. by rewrite Hf. Qed.

Lemma keeps_checkpoints {A} (m : ST Disk exn A) : keeps (on_checkpoints m).
Proof. intros e He. unfold on_checkpoints. by destruct (m (checkpoint_disk e)) as [[a|x] d]. Qed.

Lemma keeps_log {A} (m : ST (Disk * WriteAheadLog) exn A) : preserves kept m → keeps (on_log m).
Proof.
  intros Hm e He. unfold on_log. specialize (Hm (log_disk e, log e) He).
  by destruct (m (log_disk e, log e)) as [[a|x] [d w]].
Qed.

Lemma keeps_catch {A} (m : Engine.Engine.action A) h : keeps m → (∀ x, keeps (h x)) → keeps (st_catch m h).
Proof. intros Hm Hh. by eapply triple_catch. Qed.

Lemma keeps_fold {A B} (f : A → B → Engine.Engine.action B) l b : (∀ x b, keeps (f x b)) → keeps (st_fold f l b).
Proof. intros Hf. apply triple_fold. intros x b' _. apply Hf. Qed.

Lemma keeps_this {A} (f : StorageEngine → A) : keeps (this f).
Proof. by intros e He. Qed.

Ltac keep_one :=
  lazymatch goal with
  | |- triple _ (mbind _ _) _ _ => apply keeps_bind; [|intros ?]
  | |- triple _ (mret _) _ _ => apply keeps_ret
  | |- triple _ (st_throw _) _ _ => apply keeps_throw
  | |- triple _ (st_lift _) _ _ => apply keeps_lift
  | |- triple _ (this _) _ _ => apply keeps_this
  | |- triple _ (update _) _ _ => apply keeps_update; done
  | |- triple _ (on_checkpoints _) _ _ => apply keeps_checkpoints
  | |- triple _ (on_log (Wal.sync _)) _ _ => apply keeps_log, sync_kept
  | |- triple _ (on_log (Wal.truncateThrough _ _)) _ _ => apply keeps_log, truncateThrough_kept
  | |- triple _ (st_catch _ _) _ _ => apply keeps_catch; [|intros ?]
  | |- triple _ (st_fold _ _ _) _ _ => apply keeps_fold; intros ? ?
  | |- triple _ (match ?x with _ => _ end) _ _ => destruct x
  end.
Ltac keep := repeat keep_one.

Lemma begin_keeps building : keeps (beginCheckpoint osL building).
Proof. unfold beginCheckpoint. keep. Qed.

Lemma finish_keeps begun file : keeps (finishCheckpoint osL osC begun file).
Proof. unfold finishCheckpoint, stage, or_translateIo. keep. Qed.

Lemma turn_keeps a : keeps (turn osL osC a).
Proof. unfold turn, or_translateIo. keep. apply finish_keeps. Qed.

(** A checkpoint that is due throws nothing. *)
Lemma due_keeps building : outcomes fd_ok (runDueCheckpoint osL osC building) (λ _, fd_ok) (λ _ _, False).
Proof.
  assert (keeps (checkpoint_with osL osC building)) as H1.
  { unfold checkpoint_with, assertOpen, abort, or_translateIo. keep; [apply begin_keeps|apply finish_keeps]. }
  assert (keeps (checkpointAsync_with osL osC building Automatic)) as H2.
  { unfold checkpointAsync_with, assertOpen. keep; [apply begin_keeps|apply turn_keeps]. }
  unfold runDueCheckpoint. intros e He. unfold this, st_get, mbind, st_bind. destruct (activeCheckpoint e); [done|].
  destruct (_ <? _); [done|]. unfold runAutomaticCheckpoint, this, st_get, mbind, st_bind, st_catch.
  destruct (backgroundCheckpoints (settings e)).
  - specialize (H2 e He). by destruct (checkpointAsync_with osL osC building Automatic e) as [[b|x] e'].
  - specialize (H1 e He). by destruct (checkpoint_with osL osC building e) as [[b|x] e'].
Qed.

Lemma uint32_range n e : Operations.uint32 n = Throw e → e = RangeError.
Proof. unfold Operations.uint32. destruct (_ && _); [discriminate|]. by intros [= <-]. Qed.

Lemma encodeName_range name e : Operations.encodeName name = Throw e → e = RangeError.
Proof. unfold Operations.encodeName. cbv zeta. destruct (_ || _); [by intros [= <-]|discriminate]. Qed.

Lemma encodeHead_throws kind database collection e : Operations.encodeHead kind database collection = Throw e → e = RangeError.
Proof.
  intros [H|(a & _ & [H|(b & _ & H)]%bind_Throw_inv)]%bind_Throw_inv; [by eapply encodeName_range..|discriminate].
Qed.

Lemma encodeOperation_range operation e : Operations.encodeOperation operation = Throw e → e = RangeError.
Proof.
  assert (∀ i e, Operations.encodeId i = Throw e → e = RangeError) as Hid
    by (intros i x; unfold Operations.encodeId; destruct (negb _); [by intros [= <-]|discriminate]).
  destruct operation as [db coll|db coll i document|db coll i|db coll index|db coll name]; cbn [Operations.encodeOperation].
  - apply encodeHead_throws.
  - intros [H|(a & _ & [H|(b & _ & [H|(c & _ & H)]%bind_Throw_inv)]%bind_Throw_inv)]%bind_Throw_inv;
      [by eapply encodeHead_throws|by eapply Hid| |discriminate].
    apply bind_Throw_inv in H as [H|(x & _ & H)]; [by eapply uint32_range|discriminate].
  - intros [H|(a & _ & [H|(b & _ & H)]%bind_Throw_inv)]%bind_Throw_inv; [by eapply encodeHead_throws|by eapply Hid|discriminate].
  - intros [H|(a & _ & [H|(b & _ & H)]%bind_Throw_inv)]%bind_Throw_inv; [by eapply encodeHead_throws| |discriminate].
    apply bind_Throw_inv in H as [H|(x & _ & [H|(y & _ & H)]%bind_Throw_inv)]; [by eapply encodeName_range..|discriminate].
  - intros [H|(a & _ & [H|(b & _ & H)]%bind_Throw_inv)]%bind_Throw_inv; [by eapply encodeHead_throws|by eapply encodeName_range|discriminate].
Qed.

Lemma mapM_throws {A B} (f : A → result B) l e (P : exn → Prop) :
  (∀ x e, f x = Throw e → P e) → mapM f l = Throw e → P e.
Proof.
  intros Hf. induction l as [|x l IH]; [discriminate|]. cbn [mapM].
  intros [H|(a & _ & [H|(b & _ & H)]%bind_Throw_inv)]%bind_Throw_inv; [by eapply Hf|by apply IH|discriminate].
Qed.

Lemma encodeOperations_throws operations e : Operations.encodeOperations operations = Throw e → e = RangeError.
Proof.
  intros [H|(a & _ & [H|(b & _ & H)]%bind_Throw_inv)]%bind_Throw_inv; [by eapply uint32_range| |discriminate].
  eapply (mapM_throws _ _ _ (λ e, e = RangeError)); [|exact H]. exact encodeOperation_range.
Qed.

(** Appending throws errors of the storage package only. *)
Lemma append_throws building operations :
  outcomes fd_ok (append osL osC building operations) (λ _, fd_ok) (λ e s, storage_failure e ∧ fd_ok s).
Proof.
  unfold append. eapply outcomes_bind with (Q := λ _, fd_ok).
  { intros e He. unfold assertOpen, this, st_get, mbind, st_bind. destruct (closed e); [by split; [eexists|]|done]. }
  intros u. eapply outcomes_bind with (Q := λ _, fd_ok).
  { eapply outcomes_weaken; [apply due_keeps|done..]. }
  intros v. eapply outcomes_catch with (X' := λ e s, log_failure e ∧ fd_ok s).
  - apply outcomes_lift; [intros e s He Hs; split; [right; by eapply encodeOperations_throws|done]|]. intros payload _.
    eapply outcomes_bind with (Q := λ _, fd_ok); [|intros lsn; by apply outcomes_update].
    intros e He. unfold on_log. pose proof (append_fails osL Operations.RecordType_Transaction payload (log_disk e, log e) He) as Ha.
    destruct (Wal.append osL Operations.RecordType_Transaction payload (log_disk e, log e)) as [[lsn|x] [d w]].
    + exact (has_kept _ Ha).
    + exact Ha.
  - intros e. assert (e = RangeError ∨ storage_failure e → outcomes (λ s, log_failure e ∧ fd_ok s)
      (match e with RangeError => st_throw (StorageError InvalidBatch) | e => st_throw e end : Engine.Engine.action ())
      (λ _, fd_ok) (λ e s, storage_failure e ∧ fd_ok s)) as He.
    { intros [-> |He]; [intros s [_ Hs]; split; [by eexists|done]|]. destruct e; try (destruct He; discriminate);
        intros s [_ Hs]; by split. }
    intros s [Hl Hs]. apply He; [destruct Hl; auto|done].
Qed.
(** What the journal of a collection throws. *)
Lemma journal_failure database collection e x :
  fd_ok e → journal_throws (Some (Engine.Engine.journal osL osC database collection)) e x → storage_failure x.
Proof.
  intros He (j & operations & e' & [= <-] & E). unfold Engine.Engine.journal in E. cbv zeta in E.
  match type of E with append _ _ ?b ?l _ = _ => pose proof (append_throws b l e He) as Ha end.
  rewrite E in Ha. apply Ha.
Qed.

Lemma openCollection_failure database collection e x e' :
  fd_ok e → openCollection osL osC database collection e = (Throw x, e') → storage_failure x.
Proof.
  intros He. unfold openCollection, this, st_get. unfold mbind at 1, st_bind at 1.
  destruct (getCollection e database collection); [done|]. unfold mbind, st_bind.
  pose proof (append_throws None [Operations.Operations.OpCreateCollection database collection] e He) as Ha.
  destruct (append _ _ _ _ e) as [[u|y] e1]; [|intros [= <- _]; apply Ha].
  destruct (register_empty database collection e1) as (c & v & -> & _). done.
Qed.

(** The log of an engine that can be reached. *)
Lemma ok_fd H e : engine_ok H e → fd_ok e.
Proof.
  intros [(_ & _ & a & Hc & _) _]. destruct (core_log _ _ _ _ Hc) as (old & first & written & waiting & attempted & n & fl & Hi & _).
  intros Hcl. rewrite (inv_fd _ _ _ _ _ _ _ _ _ _ _ Hi Hcl). by eexists.
Qed.
End Engine.
