(* ===== verification/DocumentSize.v ===== *)
(** * The size of a document

    packages/server/src/document-size.ts: an upper bound for the number of bytes
    that a value takes in a message. *)

From S2P Require Import Prelude JsNumber JsString JsValue Binary Codec.

Definition TAG_BYTES : Z := 1.
Definition LENGTH_BYTES : Z := 4.
Definition WIDEST_NUMBER_BYTES : Z := 8.
Definition CUSTOM_ID_BYTES : Z := 16.

(** [Buffer.byteLength(s, 'utf8')]. *)
Definition byteLength (s : jsstring) : Z := len (utf8_encode s).

Fixpoint estimateEncodedSize (value : DocumentValue) : Z :=
  match value with
  | VNull | VBool _ => TAG_BYTES
  | VNumber _ | VBigInt _ => TAG_BYTES + WIDEST_NUMBER_BYTES
  | VString s => TAG_BYTES + LENGTH_BYTES + byteLength s
  | VDate _ => TAG_BYTES + WIDEST_NUMBER_BYTES
  | VBinary bs => TAG_BYTES + LENGTH_BYTES + len bs
  | VId _ => TAG_BYTES + CUSTOM_ID_BYTES
  | VArray l => fold_left (λ size item, size + estimateEncodedSize item) l (TAG_BYTES + LENGTH_BYTES)
  | VDoc fs =>
      fold_left (λ size (field : jsstring * DocumentValue), let (key, field) := field in
        size + (LENGTH_BYTES + byteLength key + estimateEncodedSize field)) fs (TAG_BYTES + LENGTH_BYTES)
  end.

(** ** It is an upper bound *)
Fixpoint sum_of {A} (f : A → Z) (l : list A) : Z :=
  match l with [] => 0 | x :: l => f x + sum_of f l end.

Lemma fold_sum {A} (f : A → Z) l n : fold_left (λ n x, n + f x) l n = n + sum_of f l.
Proof. revert n. induction l as [|x l IH]; intros n; cbn; [lia|]. rewrite IH. lia. Qed.

Lemma sum_of_app {A} (f : A → Z) l k : sum_of f (l ++ k) = sum_of f l + sum_of f k.
Proof. induction l as [|x l IH]; cbn; lia. Qed.

Lemma sum_of_perm {A} (f : A → Z) l k : l ≡ₚ k → sum_of f l = sum_of f k.
Proof. induction 1; cbn; lia. Qed.

Lemma sum_of_nonneg {A} (f : A → Z) l : Forall (λ x, 0 ≤ f x) l → 0 ≤ sum_of f l.
Proof. induction 1; cbn; lia. Qed.

Lemma len_flat_map {A} (f : A → bytes) l : len (flat_map f l) = sum_of (λ x, len (f x)) l.
Proof. induction l as [|x l IH]; [done|]. cbn. by rewrite len_app, IH. Qed.

Definition field_size (field : jsstring * DocumentValue) : Z :=
  LENGTH_BYTES + byteLength field.1 + estimateEncodedSize field.2.

Lemma estimate_array l :
  estimateEncodedSize (VArray l) = TAG_BYTES + LENGTH_BYTES + sum_of estimateEncodedSize l.
Proof. apply (fold_sum estimateEncodedSize). Qed.

Lemma estimate_document fs :
  estimateEncodedSize (VDoc fs) = TAG_BYTES + LENGTH_BYTES + sum_of field_size fs.
Proof.
  cbn. rewrite <- fold_sum. generalize (TAG_BYTES + LENGTH_BYTES). induction fs as [|[k v] fs IH]; [done|].
  intros n. cbn. by rewrite IH.
Qed.

Lemma enc_number_estimate n : len (enc_number n) ≤ TAG_BYTES + WIDEST_NUMBER_BYTES.
Proof. unfold enc_number. repeat case_match; rewrite len_cons, be_len; unfold TAG_BYTES, WIDEST_NUMBER_BYTES; lia. Qed.

Lemma enc_bytes_len bs : len (enc_bytes bs) = LENGTH_BYTES + len bs.
Proof. unfold enc_bytes. rewrite len_app, be_len. unfold LENGTH_BYTES. lia. Qed.

Lemma enc_fields_len fs : len (enc_fields fs) = sum_of (λ kv : jsstring * bytes, LENGTH_BYTES + byteLength kv.1 + len kv.2) fs.
Proof.
  unfold enc_fields. rewrite len_flat_map. rewrite (sum_of_perm _ _ _ (sort_by_perm field_cmp fs)).
  induction fs as [|[k v] fs IH]; [done|]. cbn [sum_of fst snd]. rewrite IH, len_app, enc_bytes_len.
  unfold byteLength. lia.
Qed.

Lemma estimate_enc v : wf_value v = true → len (enc v) ≤ estimateEncodedSize v.
Proof.
  induction v as [|b|n|z|s|ms|bs|bs|l IH|fs IH] using value_ind'; intros Hw;
    try (cbn [enc estimateEncodedSize]; rewrite ?len_cons, ?len_nil, ?enc_bytes_len, ?be_len; unfold TAG_BYTES, LENGTH_BYTES, WIDEST_NUMBER_BYTES, byteLength; lia).
  - apply enc_number_estimate.
  - cbn in Hw. apply andb_true_iff in Hw as [_ Hw%Z.eqb_eq]. cbn [enc estimateEncodedSize]. rewrite len_cons.
    unfold TAG_BYTES, CUSTOM_ID_BYTES. lia.
  - rewrite estimate_array. cbn [enc]. rewrite len_cons, len_app, be_len, len_flat_map.
    apply wf_array in Hw. enough (sum_of (λ x, len (enc x)) l ≤ sum_of estimateEncodedSize l) by (unfold TAG_BYTES, LENGTH_BYTES; lia).
    induction l as [|v l IHl]; [done|]. inversion_clear IH as [|? ? IHv IH']. inversion_clear Hw as [|? ? Hv Hw'].
    cbn. specialize (IHl IH' Hw'). specialize (IHv Hv). lia.
  - rewrite estimate_document. cbn [enc]. rewrite len_cons, len_app, be_len, enc_fields_len.
    apply wf_doc in Hw as [Hw _].
    enough (sum_of (λ kv : jsstring * bytes, LENGTH_BYTES + byteLength kv.1 + len kv.2)
      (map (λ kv : jsstring * DocumentValue, let (k, v) := kv in (k, enc v)) fs) ≤ sum_of field_size fs)
      by (unfold TAG_BYTES, LENGTH_BYTES in *; lia).
    induction fs as [|[k v] fs IHl]; [done|]. inversion_clear IH as [|? ? IHv IH']. inversion_clear Hw as [|? ? [_ Hv] Hw'].
    cbn. specialize (IHl IH' Hw'). specialize (IHv Hv). unfold field_size at 1. cbn [fst snd] in *. lia.
Qed.
