(* ===== verification/ServerErrors.v ===== *)
(** * Errors of the server

    What the code of packages/server throws: the errors of the storage package and
    of the language, and the classes of catalog.ts, cursor-manager.ts and
    command-dispatcher.ts. Texts that the server composes itself are those of the
    code; the text of an error of the storage package is left out, as everywhere,
    and given by whoever asks for it. *)

From Stdlib Require Import NArith DecimalString.
From S2P Require Import Prelude Errors JsString JsValue CustomId.

(** [WireErrorCode] (packages/protocol/src/errors.ts). *)
Module WireErrorCode.
Definition InvalidRequest : Z := 1000.
Definition UnsupportedProtocolVersion : Z := 1001.
Definition UnknownCommand : Z := 1003.
Definition NamespaceConflict : Z := 3001.
Definition DocumentValidationFailed : Z := 4000.
Definition DuplicateKey : Z := 4001.
Definition InvalidUpdate : Z := 4002.
Definition ImmutableId : Z := 4003.
Definition CursorNotFound : Z := 5000.
Definition InvalidIndex : Z := 6000.
Definition IndexNotFound : Z := 6001.
Definition IndexConflict : Z := 6002.
Definition InternalError : Z := 9000.
End WireErrorCode.

(** The value of a [StorageErrorCode]. *)
Definition storage_code_string (code : StorageErrorCode) : jsstring :=
  match code with
  | InvalidDocument => js "INVALID_DOCUMENT"
  | InvalidDocumentId => js "INVALID_DOCUMENT_ID"
  | InvalidFilter => js "INVALID_FILTER"
  | InvalidFindOptions => js "INVALID_FIND_OPTIONS"
  | InvalidBatch => js "INVALID_BATCH"
  | InvalidUpdate => js "INVALID_UPDATE"
  | ImmutableId => js "IMMUTABLE_ID"
  | DuplicateId => js "DUPLICATE_ID"
  | Corruption => js "CORRUPTION"
  | Io => js "IO_ERROR"
  | DiskFull => js "DISK_FULL"
  | PermissionDenied => js "PERMISSION_DENIED"
  | Closed => js "CLOSED"
  | Locked => js "LOCKED"
  | DuplicateKey => js "DUPLICATE_KEY"
  | InvalidIndex => js "INVALID_INDEX"
  | IndexNotFound => js "INDEX_NOT_FOUND"
  | IndexConflict => js "INDEX_CONFLICT"
  | UnsupportedFormat => js "UNSUPPORTED_FORMAT"
  | InvalidBackup => js "INVALID_BACKUP"
  end.

(** The value of a [ProtocolErrorCode]. *)
Definition protocol_code_string (code : ProtocolErrorCode) : jsstring :=
  match code with
  | InvalidMagic => js "INVALID_MAGIC"
  | UnsupportedVersion => js "UNSUPPORTED_VERSION"
  | InvalidMessageKind => js "INVALID_MESSAGE_KIND"
  | InvalidFlags => js "INVALID_FLAGS"
  | InvalidRequestId => js "INVALID_REQUEST_ID"
  | InvalidPayload => js "INVALID_PAYLOAD"
  | PayloadTooLarge => js "PAYLOAD_TOO_LARGE"
  | IncompleteFrame => js "INCOMPLETE_FRAME"
  | PayloadLengthMismatch => js "PAYLOAD_LENGTH_MISMATCH"
  | InvalidDocumentValue => js "INVALID_DOCUMENT_VALUE"
  | IntegerOutOfRange => js "INTEGER_OUT_OF_RANGE"
  | InvalidDate => js "INVALID_DATE"
  | DocumentTooDeep => js "DOCUMENT_TOO_DEEP"
  | CyclicDocument => js "CYCLIC_DOCUMENT"
  | UnexpectedEnd => js "UNEXPECTED_END"
  | UnknownValueTag => js "UNKNOWN_VALUE_TAG"
  | InvalidUtf8 => js "INVALID_UTF8"
  | DuplicateDocumentKey => js "DUPLICATE_DOCUMENT_KEY"
  | TrailingData => js "TRAILING_DATA"
  | InvalidMessagePayload => js "INVALID_MESSAGE_PAYLOAD"
  end.

(** [CatalogErrorCode] (packages/server/src/catalog.ts). *)
Inductive CatalogErrorCode := InvalidDatabaseName | InvalidCollectionName | NamespaceConflict.

Definition catalog_code_string (code : CatalogErrorCode) : jsstring :=
  match code with
  | InvalidDatabaseName => js "INVALID_DATABASE_NAME"
  | InvalidCollectionName => js "INVALID_COLLECTION_NAME"
  | NamespaceConflict => js "NAMESPACE_CONFLICT"
  end.

(** [CommandExecutionError] (packages/server/src/command-dispatcher.ts). *)
Record CommandExecutionError := {
  error_code : Z;
  error_name : jsstring;
  error_message : jsstring;
  error_details : option Document;
}.

(** What the server may throw. *)
Inductive ServerError :=
  | StorageFailure (error : exn)
  | CatalogError (code : CatalogErrorCode) (message : jsstring)
  | CursorNotFoundError (cursorId : Z)
  | CommandError (error : CommandExecutionError).

Abbreviation outcome := (res ServerError).

(** An error of the storage package or of the language, thrown by the server. *)
Definition from_storage {A} (r : result A) : outcome A :=
  match r with Ok a => Ok a | Throw e => Throw (StorageFailure e) end.

(** ** Texts *)

(** A number as a template literal shows it. *)
Definition number_text (z : Z) : jsstring := js (NilZero.string_of_uint (N.to_uint (Z.to_N z))).

(** [JSON.stringify] of a string: the escape of a code unit. *)
Definition json_escape (u : Z) : jsstring :=
  js "\u" ++ CustomId.hex_byte (u / 256) ++ CustomId.hex_byte (u mod 256).

Definition json_unit (u : Z) : jsstring :=
  if u =? 34 then [92; 34]
  else if u =? 92 then [92; 92]
  else if u =? 8 then js "\b"
  else if u =? 9 then js "\t"
  else if u =? 10 then js "\n"
  else if u =? 12 then js "\f"
  else if u =? 13 then js "\r"
  else if u <? 32 then json_escape u
  else [u].

(** The units of a string, those of a lone surrogate escaped. *)
Fixpoint json_units (s : jsstring) : jsstring :=
  match s with
  | [] => []
  | u :: s' =>
      if is_high u then
        match s' with
        | v :: s'' => if is_low v then u :: v :: json_units s'' else json_escape u ++ json_units s'
        | [] => json_escape u
        end
      else if is_low u then json_escape u ++ json_units s'
      else json_unit u ++ json_units s'
  end.

Definition json_string (s : jsstring) : jsstring := [34] ++ json_units s ++ [34].

(** The white space and line terminators that [trim] removes. *)
Definition is_space (u : Z) : bool :=
  bool_decide (u ∈ [9; 10; 11; 12; 13; 32; 0xA0; 0x1680; 0x2028; 0x2029; 0x202F; 0x205F; 0x3000; 0xFEFF])
  || ((0x2000 <=? u) && (u <=? 0x200A)).

(** [s.trim().length === 0]. *)
Definition is_blank (s : jsstring) : bool := forallb is_space s.
