(* ===== verification/Cursors.v ===== *)
(** * Cursors

    packages/server/src/cursor-manager.ts. An iterator is a reference [I] into a
    store [W] that it changes when it is asked for its next document ([next]); the
    clock is an argument of every operation that reads it. *)

From stdpp Require Import gmap.
From S2P Require Import Prelude Errors JsNumber JsString JsValue DocumentSize ServerErrors.

Module Cursors.
Definition DEFAULT_CURSOR_BATCH_SIZE : Z := 100.
Definition DEFAULT_CURSOR_IDLE_TIMEOUT_MS : Z := 10 * 60 * 1000.
Definition DEFAULT_CURSOR_BATCH_BYTES : Z := 8 * 1024 * 1024.

Record CursorBatch := { cursorId : option Z; documents : list Document }.

Record CursorManagerOptions := {
  opt_idleTimeoutMS : option number;
  opt_maxBatchBytes : option number;
}.

Record CursorState {I : Type} := {
  iterator : I;
  buffered : option Document;
  exhausted : bool;
  lastUsed : Z;
}.
Arguments CursorState : clear implicits.

Record CursorManager {I : Type} := {
  cursors : gmap Z (CursorState I);
  nextCursorId : Z;
  idleTimeoutMS : Z;
  maxBatchBytes : Z;
}.
Arguments CursorManager : clear implicits.

Definition set_cursors {I} (c : gmap Z (CursorState I)) (m : CursorManager I) : CursorManager I := {|
  cursors := c; nextCursorId := nextCursorId m; idleTimeoutMS := idleTimeoutMS m; maxBatchBytes := maxBatchBytes m |}.

Definition set_next {I} (n : Z) (m : CursorManager I) : CursorManager I := {|
  cursors := cursors m; nextCursorId := n; idleTimeoutMS := idleTimeoutMS m; maxBatchBytes := maxBatchBytes m |}.

Definition positive (value : number) : bool := isSafeInteger value && (0 <? Z_of_number value).

(** The constructor. *)
Definition new {I} (options : CursorManagerOptions) : result (CursorManager I) :=
  let timeout := default (number_of_Z DEFAULT_CURSOR_IDLE_TIMEOUT_MS) (opt_idleTimeoutMS options) in
  let maxBatchBytes := default (number_of_Z DEFAULT_CURSOR_BATCH_BYTES) (opt_maxBatchBytes options) in
  if negb (positive timeout) then Throw TypeError
  else if negb (positive maxBatchBytes) then Throw TypeError
  else Ok {| cursors := ∅; nextCursorId := 1; idleTimeoutMS := Z_of_number timeout;
             maxBatchBytes := Z_of_number maxBatchBytes |}.

Definition activeCursorCount {I} (m : CursorManager I) : Z := Z.of_nat (size (cursors m)).

Definition isExhausted {I} (state : CursorState I) : bool :=
  exhausted state && match buffered state with None => true | Some _ => false end.

Definition validateCursorId (id : number) : result () := if positive id then Ok () else Throw TypeError.
Definition validateBatchSize (size : number) : result () := if positive size then Ok () else Throw TypeError.

(** Every cursor that was not used for the idle time. *)
Definition sweepExpired {I} (now : Z) (m : CursorManager I) : Z * CursorManager I :=
  let cutoff := now - idleTimeoutMS m in
  let kept := filter (λ entry : Z * CursorState I, ¬ lastUsed entry.2 ≤ cutoff) (cursors m) in
  (Z.of_nat (size (cursors m)) - Z.of_nat (size kept), set_cursors kept m).

Definition close {I} (id : number) (m : CursorManager I) : result bool * CursorManager I :=
  match validateCursorId id with
  | Throw e => (Throw e, m)
  | Ok _ => (Ok (bool_decide (is_Some (cursors m !! Z_of_number id))),
             set_cursors (delete (Z_of_number id) (cursors m)) m)
  end.

Definition clear {I} (m : CursorManager I) : CursorManager I := set_cursors ∅ m.

(** ** Ids *)
Definition advance (id : Z) : Z := if id =? MAX_SAFE_INTEGER then 1 else id + 1.

Definition advanceCursorId {I} (m : CursorManager I) : CursorManager I := set_next (advance (nextCursorId m)) m.

(** The loop of [allocateCursorId]. Every turn but the last one passes the id of
    another cursor, so the number of cursors bounds the number of turns. *)
Fixpoint allocate_loop {I} (fuel : nat) (first : Z) (m : CursorManager I) : result (CursorManager I) :=
  match cursors m !! nextCursorId m, fuel with
  | None, _ => Ok m
  | Some _, O => Throw JsError
  | Some _, S fuel =>
      let m := advanceCursorId m in
      if nextCursorId m =? first then Throw JsError else allocate_loop fuel first m
  end.

Definition allocateCursorId {I} (m : CursorManager I) : result (Z * CursorManager I) :=
  m ← allocate_loop (size (cursors m)) (nextCursorId m) m;
  Ok (nextCursorId m, advanceCursorId m).

(** ** Batches *)
Section Cursors.
Context {I W : Type} (next : I → ST W exn (option Document)).

Abbreviation action A := (ST (W * CursorState I) exn A).

Definition next_of : action (option Document) := λ '(w, state),
  let (r, w) := next (iterator state) w in (r, (w, state)).

Definition set_buffered (document : option Document) : action () :=
  st_update (λ '(w, state), (w, {| iterator := iterator state; buffered := document;
                                   exhausted := exhausted state; lastUsed := lastUsed state |})).

Definition set_exhausted : action () :=
  st_update (λ '(w, state), (w, {| iterator := iterator state; buffered := buffered state;
                                   exhausted := true; lastUsed := lastUsed state |})).

(** The loop of [takeBatch], for [n] documents more: the documents, and whether it
    returned before there were enough. *)
Fixpoint take_loop (n : nat) (maxBatchBytes : Z) (documents : list Document) (bytes : Z)
    : action (list Document * bool) :=
  match n with
  | O => mret (documents, false)
  | S n =>
      result ← next_of;
      match result with
      | None => _ ← set_exhausted; mret (documents, true)
      | Some value =>
          let size := estimateEncodedSize (VDoc value) in
          if (0 <? len documents) && (maxBatchBytes <? bytes + size)
          then _ ← set_buffered (Some value); mret (documents, true)
          else take_loop n maxBatchBytes (documents ++ [value]) (bytes + size)
      end
  end.

Definition takeBatch (batchSize maxBatchBytes : Z) : action (list Document) :=
  buffered ← st_get (λ '(_, state), buffered state);
  let documents := match buffered with Some document => [document] | None => [] end in
  let bytes := match buffered with Some document => estimateEncodedSize (VDoc document) | None => 0 end in
  _ ← set_buffered None;
  '(documents, returned) ← take_loop (Z.to_nat (batchSize - len documents)) maxBatchBytes documents bytes;
  if returned : bool then mret documents
  else
    lookahead ← next_of;
    _ ← match lookahead with None => set_exhausted | Some value => set_buffered (Some value) end;
    mret documents.

(** [sweep] and [now]: the clock as [sweepExpired] and then the operation read it. *)
Definition open (iterator : I) (batchSize : option number) (sweep now : Z) (w : W) (m : CursorManager I)
    : outcome CursorBatch * (W * CursorManager I) :=
  let batchSize := default (number_of_Z DEFAULT_CURSOR_BATCH_SIZE) batchSize in
  match validateBatchSize batchSize with
  | Throw e => (Throw (StorageFailure e), (w, m))
  | Ok _ =>
      let (_, m) := sweepExpired sweep m in
      let state := {| iterator := iterator; buffered := None; exhausted := false; lastUsed := now |} in
      match takeBatch (Z_of_number batchSize) (maxBatchBytes m) (w, state) with
      | (Throw e, (w, _)) => (Throw (StorageFailure e), (w, m))
      | (Ok batch, (w, state)) =>
          if isExhausted state then (Ok {| cursorId := None; documents := batch |}, (w, m))
          else match allocateCursorId m with
               | Throw e => (Throw (StorageFailure e), (w, m))
               | Ok (id, m) =>
                   (Ok {| cursorId := Some id; documents := batch |},
                    (w, set_cursors (<[id := state]> (cursors m)) m))
               end
      end
  end.

Definition getMore (id : number) (batchSize : option number) (sweep now : Z) (w : W) (m : CursorManager I)
    : outcome CursorBatch * (W * CursorManager I) :=
  let batchSize := default (number_of_Z DEFAULT_CURSOR_BATCH_SIZE) batchSize in
  match validateCursorId id, validateBatchSize batchSize with
  | Throw e, _ | _, Throw e => (Throw (StorageFailure e), (w, m))
  | Ok _, Ok _ =>
      let (_, m) := sweepExpired sweep m in
      let id := Z_of_number id in
      match cursors m !! id with
      | None => (Throw (CursorNotFoundError id), (w, m))
      | Some state =>
          let state := {| iterator := iterator state; buffered := buffered state;
                          exhausted := exhausted state; lastUsed := now |} in
          match takeBatch (Z_of_number batchSize) (maxBatchBytes m) (w, state) with
          | (Throw e, (w, state)) =>
              (Throw (StorageFailure e), (w, set_cursors (<[id := state]> (cursors m)) m))
          | (Ok batch, (w, state)) =>
              if isExhausted state
              then (Ok {| cursorId := None; documents := batch |}, (w, set_cursors (delete id (cursors m)) m))
              else (Ok {| cursorId := Some id; documents := batch |},
                    (w, set_cursors (<[id := state]> (cursors m)) m))
          end
      end
  end.
End Cursors.
End Cursors.
