(* ===== verification/CursorProperties.v ===== *)
(** * Cursors: properties

    The batches of a cursor are the documents of its iterator, in order, each
    once, cut so that a batch fits in a message; ids are those of no other cursor. *)

From stdpp Require Import gmap.
From S2P Require Import Prelude Errors JsNumber JsString JsValue Triples DocumentSize ServerErrors Cursors.
Import Cursors.Cursors.

(** ** Sources of documents

    What a store promises of its iterators: [rest w i] is what the iterator [i]
    will still return if the store does not change, and asking it does not change
    what the others return. *)
Class Source {I W : Type} (next : I → ST W exn (option Document)) (ok : W → Prop)
    (rest : W → I → list Document) : Prop := {
  next_ok : ∀ i w, ok w →
    match next i w with
    | (Ok (Some d), w') => ok w' ∧ rest w i = d :: rest w' i
    | (Ok None, w') => ok w' ∧ rest w i = [] ∧ rest w' i = []
    | (Throw _, _) => False
    end;
  next_others : ∀ i j w, ok w → i ≠ j → rest (next i w).2 j = rest w j;
}.

(** The bytes of a batch, and when one more document would be too many. *)
Definition sizes (l : list Document) : Z := sum_of (λ d, estimateEncodedSize (VDoc d)) l.

Section Batches.
Context {I W : Type} (next : I → ST W exn (option Document)) (ok : W → Prop) (rest : W → I → list Document)
  `{!Source next ok rest}.

Definition waiting (state : CursorState I) : list Document :=
  match buffered state with Some d => [d] | None => [] end.

(** What a cursor will still return. *)
Definition pending (w : W) (state : CursorState I) : list Document := waiting state ++ rest w (iterator state).

(** A cursor is exhausted, or has one more document to return. *)
Definition ended (w : W) (state : CursorState I) : Prop :=
  if exhausted state then pending w state = [] else is_Some (buffered state).

(** A step of a cursor: [l] was taken from what it had to return. *)
Record took (w : W) (state : CursorState I) (l : list Document) (w' : W) (state' : CursorState I) : Prop := {
  took_ok : ok w';
  took_rest : pending w state = l ++ pending w' state';
  took_same : iterator state' = iterator state ∧ lastUsed state' = lastUsed state;
  took_others : ∀ j, iterator state ≠ j → rest w' j = rest w j;
  took_end : ended w' state';
}.

(** Asking the iterator when nothing is buffered. *)
Lemma next_of_spec w state :
  ok w → buffered state = None →
  match next_of next (w, state) with
  | (Ok (Some d), (w', state')) =>
      state' = state ∧ ok w' ∧ rest w (iterator state) = d :: rest w' (iterator state) ∧
      ∀ j, iterator state ≠ j → rest w' j = rest w j
  | (Ok None, (w', state')) =>
      state' = state ∧ ok w' ∧ rest w (iterator state) = [] ∧ rest w' (iterator state) = [] ∧
      ∀ j, iterator state ≠ j → rest w' j = rest w j
  | (Throw _, _) => False
  end.
Proof using Source0.
  intros Hok _. unfold next_of. pose proof (next_ok (iterator state) w Hok) as Hn.
  pose proof (λ j, next_others (iterator state) j w Hok) as Ho.
  destruct (next (iterator state) w) as [[[d|]|e] w']; [| |done]; cbn in Ho; naive_solver.
Qed.

(** The loop has taken [taken] when there is nothing in the buffer. *)
Lemma take_loop_spec limit n taken bytes w state :
  ok w → buffered state = None → exhausted state = false → bytes = sizes taken →
  match take_loop next n limit taken bytes (w, state) with
  | (Ok (l, returned), (w', state')) =>
      ∃ more, l = taken ++ more ∧ (length more ≤ n)%nat ∧
      (iterator state' = iterator state ∧ lastUsed state' = lastUsed state) ∧ ok w' ∧
      (∀ j, iterator state ≠ j → rest w' j = rest w j) ∧
      rest w (iterator state) = more ++ pending w' state' ∧
      (sizes l ≤ limit ∨ len l ≤ 1 ∨ more = []) ∧
      if returned : bool then ended w' state' ∧ (taken = [] → more = [] → pending w' state' = [])
      else length more = n ∧ buffered state' = None ∧ exhausted state' = false
  | (Throw _, _) => False
  end.
Proof using Source0.
  revert taken bytes w state. induction n as [|n IH]; intros taken bytes w state Hok Hb He Hs; cbn [take_loop].
  - unfold mret, st_ret. exists []. rewrite app_nil_r. unfold pending, waiting. rewrite Hb. naive_solver.
  - unfold mbind, st_bind. pose proof (next_of_spec w state Hok Hb) as Hn.
    destruct (next_of next (w, state)) as [[[d|]|e] [w1 st1]]; [| |done].
    + destruct Hn as (-> & Hok1 & Hr & Ho). destruct ((0 <? len taken) && _) eqn:Ec.
      * cbn. exists []. rewrite app_nil_r. unfold ended, pending, waiting. cbn. rewrite He.
        apply andb_true_iff in Ec as [Ht%Z.ltb_lt _].
        split; [done|]. split; [lia|]. split; [done|]. split; [done|]. split; [done|].
        split; [done|]. split; [by right; right|]. split; [done|]. intros ->. by cbn in Ht.
      * specialize (IH (taken ++ [d]) (bytes + estimateEncodedSize (VDoc d)) w1 state Hok1 Hb He).
        assert (bytes + estimateEncodedSize (VDoc d) = sizes (taken ++ [d])) as Hs'
          by (unfold sizes in *; rewrite sum_of_app; cbn [sum_of]; lia). specialize (IH Hs').
        destruct (take_loop next n limit (taken ++ [d]) _ (w1, state)) as [[[l returned]|e] [w' state']]; [|done].
        destruct IH as (more & -> & Hl & Hi & Hok' & Ho' & Hr' & Hz & Hret). exists (d :: more).
        split; [by rewrite <- app_assoc|]. split; [cbn; lia|]. split; [done|]. split; [done|].
        split; [by intros j Hj; rewrite Ho', Ho|]. split; [by rewrite Hr, Hr'|]. split.
        { destruct Hz as [Hz|[Hz|Hz]]; [by left|by right; left|]. subst more. rewrite app_nil_r.
          apply andb_false_iff in Ec as [Hc%Z.ltb_ge|Hc%Z.ltb_ge]; [|left; by rewrite <- Hs'].

          right. left. pose proof (len_nonneg taken). rewrite len_app, len_cons, len_nil. lia. }
        destruct returned.
        { destruct Hret as [H1 H2]. split; [done|]. intros _ ?. done. }
        destruct Hret as (H1 & H2). cbn. split; [lia|done].
    + destruct Hn as (-> & Hok1 & Hr & Hr' & Ho). cbn. exists []. rewrite app_nil_r. unfold ended, pending, waiting. cbn. rewrite Hb, Hr'.
      split; [done|]. split; [lia|]. split; [done|]. split; [done|]. split; [done|]. split; [done|].
      split; [by right; right|]. done.
Qed.

(** A batch: not more documents or bytes than asked for, and none only at the end. *)
Record batch_ok (n limit : Z) (l : list Document) : Prop := {
  batch_length : len l ≤ n;
  batch_size : sizes l ≤ limit ∨ len l ≤ 1;
}.

Lemma takeBatch_spec n limit w state :
  ok w → exhausted state = false → 0 < n →
  match takeBatch next n limit (w, state) with
  | (Ok l, (w', state')) => took w state l w' state' ∧ batch_ok n limit l ∧ (l = [] → pending w' state' = [])
  | (Throw _, _) => False
  end.
Proof using Source0.
  intros Hok He Hn. unfold takeBatch, st_get, mbind, st_bind, set_buffered at 1, st_update.
  set (taken := match buffered state with Some d => [d] | None => [] end).
  set (bytes := match buffered state with Some d => _ | None => 0 end).
  set (st := {| iterator := iterator state; buffered := None; exhausted := exhausted state; lastUsed := lastUsed state |}).
  assert (bytes = sizes taken) as Hb by (unfold bytes, taken, sizes; destruct (buffered state); cbn [sum_of]; lia).
  assert (len taken ≤ 1) as Ht by (unfold taken; destruct (buffered state); rewrite ?len_cons, ?len_nil; lia).
  assert (pending w state = taken ++ rest w (iterator state)) as Hp by done.
  clearbody bytes taken.
  pose proof (take_loop_spec limit (Z.to_nat (n - len taken)) taken bytes w st Hok eq_refl He Hb) as Hl.
  destruct (take_loop next _ limit taken bytes (w, st)) as [[[l returned]|e] [w1 st1]]; [|done].
  destruct Hl as (more & El & Hm & [Hi Hu] & Hok1 & Ho & Hr & Hz & Hret).
  assert (len l ≤ n ∧ (sizes l ≤ limit ∨ len l ≤ 1)) as [Hlen Hsize].
  { subst l. rewrite !len_app. split; [unfold len in *; lia|].
    destruct Hz as [Hz|[Hz| ->]]; [by left|right; by rewrite len_app in Hz|]. right. rewrite len_nil. lia. }
  cbn in Hr, Hi, Hu, Ho. destruct returned.
  - destruct Hret as [H1 H2]. cbn. split; [split; try done|].
    + by rewrite Hp, Hr, El, <- app_assoc.
    + split; [by split|]. intros ->. symmetry in El. apply app_eq_nil in El as [-> ->]. by apply H2.
  - destruct Hret as (Hmn & Hb1 & He1). pose proof (next_of_spec w1 st1 Hok1 Hb1) as Hn1.
    assert (l = [] → False) as Hne.
    { subst l. intros [E1 E2]%app_eq_nil. rewrite E1, E2 in *. cbn in Hmn. rewrite len_nil in Hmn. lia. }
    assert (pending w1 st1 = rest w1 (iterator st1)) as Hp1 by (unfold pending, waiting; by rewrite Hb1).
    destruct (next_of next (w1, st1)) as [[[d|]|e] [w2 st2]]; [| |done].
    + destruct Hn1 as (-> & Hok2 & Hr2 & Ho2). cbn. split; [|split; [by split|done]].
      split; cbn; [done| |done| |unfold ended; cbn; by rewrite He1].
      * rewrite Hp, Hr, Hp1, El, Hr2, <- app_assoc. unfold pending, waiting. by cbn.
      * intros j Hj. rewrite Ho2 by congruence. by apply Ho.
    + destruct Hn1 as (-> & Hok2 & Hr2 & Hr3 & Ho2). cbn. split; [|split; [by split|done]].
      assert (∀ e u, pending w2 {| iterator := iterator st1; buffered := buffered st1; exhausted := e; lastUsed := u |} = [])
        as Hp2 by (intros e u; unfold pending, waiting; cbn; by rewrite Hb1, Hr3).
      split; cbn; try done.
      * rewrite Hp, Hr, Hp1, El, Hr2, Hp2, !app_nil_r. done.
      * intros j Hj. rewrite Ho2 by congruence. by apply Ho.
Qed.
End Batches.

(** ** Ids *)

(** The id that comes [j] turns after [n]. *)
Definition id_after (n : Z) (j : nat) : Z := (n - 1 + Z.of_nat j) mod MAX_SAFE_INTEGER + 1.

Lemma id_after_0 n : 1 ≤ n ≤ MAX_SAFE_INTEGER → id_after n 0 = n.
Proof. intros H. unfold id_after. rewrite Z.mod_small; lia. Qed.

Lemma id_after_range n j : 1 ≤ id_after n j ≤ MAX_SAFE_INTEGER.
Proof. unfold id_after. pose proof (Z.mod_pos_bound (n - 1 + Z.of_nat j) MAX_SAFE_INTEGER eq_refl). lia. Qed.

Lemma advance_after n j : advance (id_after n j) = id_after n (S j).
Proof.
  unfold advance, id_after. set (x := n - 1 + Z.of_nat j).
  replace (n - 1 + Z.of_nat (S j)) with (x + 1) by (unfold x; lia).
  assert (0 < MAX_SAFE_INTEGER) as Hm by done. pose proof (Z.mod_pos_bound x _ Hm) as Hx.
  rewrite <- (Z.add_mod_idemp_l x) by lia.
  destruct (Z.eqb_spec (x mod MAX_SAFE_INTEGER + 1) MAX_SAFE_INTEGER) as [E|E].
  - by rewrite E, Z.mod_same by lia.
  - by rewrite (Z.mod_small (x mod MAX_SAFE_INTEGER + 1)) by lia.
Qed.

Lemma id_after_inj n i j :
  Z.of_nat i < MAX_SAFE_INTEGER → Z.of_nat j < MAX_SAFE_INTEGER → id_after n i = id_after n j → i = j.
Proof.
  intros Hi Hj E. unfold id_after in E. assert (0 < MAX_SAFE_INTEGER) as Hm by done.
  assert ((Z.of_nat i - Z.of_nat j) mod MAX_SAFE_INTEGER = 0) as Hd.
  { replace (Z.of_nat i - Z.of_nat j) with ((n - 1 + Z.of_nat i) - (n - 1 + Z.of_nat j)) by lia.
    rewrite Zminus_mod. replace ((n - 1 + Z.of_nat i) mod MAX_SAFE_INTEGER) with ((n - 1 + Z.of_nat j) mod MAX_SAFE_INTEGER) by lia.
    by rewrite Z.sub_diag. }
  apply Z.mod_divide in Hd as [q Hq]; [|lia]. generalize dependent MAX_SAFE_INTEGER. intros M Hi Hj _ Hm Hq.
  destruct (Z.lt_trichotomy q 0) as [Hlt|[->|Hgt]]; [|lia|]; nia.
Qed.

Section Ids.
Context {I : Type}.
Implicit Types m : CursorManager I.

Lemma all_taken m n k :
  (∀ i, (i < k)%nat → is_Some (cursors m !! id_after n i)) → Z.of_nat k ≤ MAX_SAFE_INTEGER → (k ≤ size (cursors m))%nat.
Proof.
  intros Hall Hk. set (ids := id_after n <$> seq 0 k).
  assert (NoDup ids) as Hn.
  { apply NoDup_fmap_2_strong; [|apply NoDup_seq]. intros i j Hi%elem_of_seq Hj%elem_of_seq. apply id_after_inj; lia. }
  rewrite <- size_dom. replace k with (size (list_to_set ids : gset Z)).
  - apply subseteq_size. intros id Hid%elem_of_list_to_set. unfold ids in Hid. apply list_elem_of_fmap in Hid as (i & -> & Hi%elem_of_seq).
    apply elem_of_dom, Hall. lia.
  - rewrite size_list_to_set by done. unfold ids. by rewrite length_fmap, length_seq.
Qed.

Lemma allocate_loop_spec m n fuel j :
  nextCursorId m = id_after n j → (∀ i, (i < j)%nat → is_Some (cursors m !! id_after n i)) →
  (j + fuel = size (cursors m))%nat → Z.of_nat (size (cursors m)) < MAX_SAFE_INTEGER → 1 ≤ n ≤ MAX_SAFE_INTEGER →
  ∃ k, allocate_loop fuel n m = Ok (set_next (id_after n k) m) ∧ cursors m !! id_after n k = None.
Proof.
  intros Hj Hall Hf Hs Hn. revert m j Hj Hall Hf Hs. induction fuel as [|fuel IH]; intros m j Hj Hall Hf Hs;
    cbn [allocate_loop]; rewrite Hj; (destruct (cursors m !! id_after n j) as [st|] eqn:E;
      [|exists j; split; [rewrite <- Hj; by destruct m|done]]);
    (assert (∀ i, (i < S j)%nat → is_Some (cursors m !! id_after n i)) as Hall'
      by (intros i Hi; destruct (decide (i = j)) as [->|]; [by rewrite E|apply Hall; lia]);
     pose proof (all_taken m n (S j) Hall' ltac:(lia)) as Hk; try lia).
  assert (advance (nextCursorId m) = id_after n (S j)) as Ha by (rewrite Hj; apply advance_after).
  change (nextCursorId (advanceCursorId m)) with (advance (nextCursorId m)). rewrite Ha.
  destruct (Z.eqb_spec (id_after n (S j)) n) as [Ec|_].
  { rewrite <- (id_after_0 n Hn) in Ec at 2. apply id_after_inj in Ec; lia. }
  destruct (IH (advanceCursorId m) (S j) Ha Hall' ltac:(cbn; lia) Hs) as (k & Hk1 & Hk2).
  exists k. split; [rewrite Hk1; by destruct m|done].
Qed.

(** An id is given to no cursor that there is. *)
Lemma allocateCursorId_spec m :
  1 ≤ nextCursorId m ≤ MAX_SAFE_INTEGER → Z.of_nat (size (cursors m)) < MAX_SAFE_INTEGER →
  ∃ id n, allocateCursorId m = Ok (id, set_next n m) ∧ cursors m !! id = None ∧
    1 ≤ id ≤ MAX_SAFE_INTEGER ∧ 1 ≤ n ≤ MAX_SAFE_INTEGER.
Proof.
  intros Hn Hs. pose proof (id_after_0 _ Hn) as H0.
  destruct (allocate_loop_spec m (nextCursorId m) (size (cursors m)) 0 (eq_sym H0) ltac:(lia) ltac:(lia) Hs Hn) as (k & E & Hk).
  unfold allocateCursorId. rewrite E. exists (id_after (nextCursorId m) k), (id_after (nextCursorId m) (S k)).
  split; [|split; [done|split; apply id_after_range]]. cbn. unfold advanceCursorId. cbn. by rewrite advance_after.
Qed.
End Ids.

(** ** What holds of the store and of every iterator *)
Section Keeps.
Context {I W : Type} (next : I → ST W exn (option Document)).
Context (P : W → Prop) (next_keeps : ∀ i w, P w → P (next i w).2).

(** A store that is in order, and the iterator of a cursor. *)
Abbreviation in_order i := (λ s : W * CursorState I, P s.1 ∧ iterator s.2 = i).

Lemma next_of_keeps i : preserves (in_order i) (next_of next).
Proof using next_keeps.
  intros [w state] [Hw Hi]. unfold next_of. specialize (next_keeps (iterator state) w Hw).
  by destruct (next _ w) as [[found|e] w'].
Qed.

Lemma set_keeps i f : (∀ s, (f s).1 = s.1 ∧ iterator (f s).2 = iterator s.2) → preserves (in_order i) (st_update (E := exn) f).
Proof using. intros Hf. apply triple_update. intros s [H1 H2]. destruct (Hf s) as [-> ->]. done. Qed.

Lemma take_loop_keeps i n limit documents bytes : preserves (in_order i) (take_loop next n limit documents bytes).
Proof using next_keeps.
  revert documents bytes. induction n as [|n IH]; intros documents bytes; cbn [take_loop]; [by apply triple_ret|].
  eapply triple_bind; [apply next_of_keeps|]. intros [value|].
  - cbv zeta. destruct (_ && _); [|apply IH].
    eapply triple_bind; [apply set_keeps; by intros []|]. intros u. by apply triple_ret.
  - eapply triple_bind; [apply set_keeps; by intros []|]. intros u. by apply triple_ret.
Qed.

Lemma takeBatch_keeps i n limit : preserves (in_order i) (takeBatch next n limit).
Proof using next_keeps.
  unfold takeBatch. intros s Hs. unfold st_get, mbind at 1, st_bind at 1. revert s Hs. intros s Hs.
  match goal with |- match ?m s with _ => _ end => assert (preserves (in_order i) m) as Hm; [|exact (Hm s Hs)] end.
  eapply triple_bind; [apply set_keeps; by intros []|]. intros u.
  eapply triple_bind; [apply take_loop_keeps|]. intros [documents []]; [by apply triple_ret|].
  eapply triple_bind; [apply next_of_keeps|]. intros [value|];
    (eapply triple_bind; [apply set_keeps; by intros []|]); intros v; by apply triple_ret.
Qed.

(** The iterators of a manager. *)
Definition iterators (Q : I → Prop) (m : CursorManager I) : Prop :=
  ∀ id state, cursors m !! id = Some state → Q (iterator state).

Lemma iterators_sweep Q now m : iterators Q m → iterators Q (sweepExpired now m).2.
Proof using. intros H id state [Hs _]%map_lookup_filter_Some. by eapply H. Qed.

Lemma iterators_delete Q id m : iterators Q m → iterators Q (set_cursors (delete id (cursors m)) m).
Proof using. intros H id' state Hl. cbn in Hl. apply lookup_delete_Some in Hl as [_ Hl]. by eapply H. Qed.

Lemma iterators_insert Q id state m :
  iterators Q m → Q (iterator state) → iterators Q (set_cursors (<[id := state]> (cursors m)) m).
Proof using. intros H Hs id' state' Hl. cbn in Hl. apply lookup_insert_Some in Hl as [[_ <-]|[_ Hl]]; [done|by eapply H]. Qed.

Lemma allocate_loop_cursors fuel first (m m' : CursorManager I) : allocate_loop fuel first m = Ok m' → cursors m' = cursors m.
Proof using.
  revert m. induction fuel as [|fuel IH]; intros m; cbn [allocate_loop]; destruct (cursors m !! _); try done; try (by intros [= ->]).
  destruct (_ =? _); [done|]. intros H. by rewrite (IH _ H).
Qed.

Lemma allocate_cursors (m : CursorManager I) id m' : allocateCursorId m = Ok (id, m') → cursors m' = cursors m.
Proof using.
  unfold allocateCursorId. intros (m1 & Hm & H)%bind_Ok_inv. injection H as _ <-. by apply allocate_loop_cursors in Hm.
Qed.

Lemma open_keeps Q i size sweep now w m :
  P w → iterators Q m → Q i → let s := (open next i size sweep now w m).2 in P s.1 ∧ iterators Q s.2.
Proof using next_keeps.
  intros Hw Hm Hi. unfold open. destruct (validateBatchSize _); [|done].
  pose proof (iterators_sweep Q sweep m Hm) as Hm1. destruct (sweepExpired sweep m) as [n m1]. cbn [snd] in Hm1.
  match goal with |- context [takeBatch next ?n ?l (w, ?st)] => pose proof (takeBatch_keeps i n l (w, st) (conj Hw eq_refl)) as Hb;
    destruct (takeBatch next n l (w, st)) as [[batch|e] [w' state']] end; [|by destruct Hb].
  destruct Hb as [Hw' Hi']. cbn [fst snd] in *. destruct (isExhausted state'); [done|].
  destruct (allocateCursorId m1) as [[id m2]|e] eqn:Ea; [|done]. cbn. split; [done|].
  apply allocate_cursors in Ea. apply iterators_insert; [|by rewrite Hi']. intros id' st. rewrite Ea. apply Hm1.
Qed.

Lemma getMore_keeps Q id size sweep now w m :
  P w → iterators Q m → let s := (getMore next id size sweep now w m).2 in P s.1 ∧ iterators Q s.2.
Proof using next_keeps.
  intros Hw Hm. unfold getMore. destruct (validateCursorId id); [|done]. destruct (validateBatchSize _); [|done].
  pose proof (iterators_sweep Q sweep m Hm) as Hm1. destruct (sweepExpired sweep m) as [n m1]. cbn [snd] in Hm1.
  destruct (cursors m1 !! _) as [state|] eqn:Es; [|done].
  match goal with |- context [takeBatch next ?n ?l (w, ?st)] => pose proof (takeBatch_keeps (iterator state) n l (w, st) (conj Hw eq_refl)) as Hb;
    destruct (takeBatch next n l (w, st)) as [[batch|e] [w' state']] end;
    destruct Hb as [Hw' Hi']; cbn [fst snd] in *; [destruct (isExhausted state')|]; cbn [fst snd]; (split; [done|]).
  - by apply iterators_delete.
  - apply iterators_insert; [done|]. rewrite Hi'. by eapply Hm1.
  - apply iterators_insert; [done|]. rewrite Hi'. by eapply Hm1.
Qed.
End Keeps.

(** ** The manager refines a table of lists *)
Section Manager.
Context {I W : Type} `{!EqDecision I} (next : I → ST W exn (option Document)) (ok : W → Prop)
  (rest : W → I → list Document) `{!Source next ok rest}.

Abbreviation pending := (pending rest).

(** What the cursors will still return, and when they were used. *)
Abbreviation table := (gmap Z (list Document * Z)).

Definition table_of (w : W) (m : CursorManager I) : table :=
  (λ state, (pending w state, lastUsed state)) <$> cursors m.

(** The cursors that were used after [cutoff]. *)
Definition used_after (cutoff : Z) (t : table) : table := filter (λ entry : Z * (list Document * Z), ¬ entry.2.2 ≤ cutoff) t.

Definition unused (i : I) (m : CursorManager I) : Prop :=
  ∀ id state, cursors m !! id = Some state → iterator state ≠ i.

Record manager_ok (w : W) (m : CursorManager I) : Prop := {
  manager_store : ok w;
  manager_next : 1 ≤ nextCursorId m ≤ MAX_SAFE_INTEGER;
  manager_cursors : ∀ id state, cursors m !! id = Some state →
    1 ≤ id ≤ MAX_SAFE_INTEGER ∧ exhausted state = false ∧ is_Some (buffered state);
  manager_iterators : ∀ id state id' state', cursors m !! id = Some state → cursors m !! id' = Some state' →
    iterator state = iterator state' → id = id';
}.

Lemma pending_nonempty w state : is_Some (buffered state) → pending w state ≠ [].
Proof. intros [d Hd]. unfold pending, waiting. by rewrite Hd. Qed.

Lemma sweep_ok w m now : manager_ok w m → manager_ok w (sweepExpired now m).2.
Proof.
  intros [H1 H2 H3 H4]. unfold sweepExpired. cbn. split; cbn; [done|done| |].
  - intros id state [Hs _]%map_lookup_filter_Some. eauto.
  - intros id state id' state' [Hs _]%map_lookup_filter_Some [Hs' _]%map_lookup_filter_Some. eauto.
Qed.

Lemma sweep_table w m now : table_of w (sweepExpired now m).2 = used_after (now - idleTimeoutMS m) (table_of w m).
Proof.
  unfold sweepExpired, table_of, used_after. cbn. by rewrite map_filter_fmap.
Qed.

Lemma sweep_size (m : CursorManager I) now : (size (cursors (sweepExpired now m).2) ≤ size (cursors m))%nat.
Proof. apply map_size_filter. Qed.

Lemma sweep_unused i m now : unused i m → unused i (sweepExpired now m).2.
Proof. intros H id state [Hs _]%map_lookup_filter_Some. by eapply H. Qed.

(** The cursor [id], there or new, has the iterator [i] for itself. *)
Definition owns (m : CursorManager I) (id : Z) (i : I) : Prop :=
  (∃ state, cursors m !! id = Some state ∧ iterator state = i) ∨ cursors m !! id = None ∧ unused i m.

(** From [w] to [w'] only the iterator [i] was asked. *)
Definition moved (i : I) (w w' : W) : Prop := ok w' ∧ ∀ j, i ≠ j → rest w' j = rest w j.

(** The other cursors do not notice a step of one. *)
Lemma owns_others w m id i id' st : manager_ok w m → owns m id i → id' ≠ id → cursors m !! id' = Some st → iterator st ≠ i.
Proof.
  intros Hm [(state & Hs & Hi)|[_ Hu]] Hne Hst E; [|by apply (Hu id' st)].
  by apply Hne, (manager_iterators _ _ Hm id' st id state); [..|rewrite E].
Qed.

Lemma moved_others w w' m id i id' st :
  manager_ok w m → owns m id i → moved i w w' → id' ≠ id → cursors m !! id' = Some st → pending w' st = pending w st.
Proof.
  intros Hm Ho [_ Hr] Hne Hst. unfold pending, CursorProperties.pending. f_equal. apply Hr.
  apply not_eq_sym. by apply (owns_others w m id i id' st).
Qed.

Lemma table_insert w w' m id state :
  manager_ok w m → owns m id (iterator state) → moved (iterator state) w w' →
  table_of w' (set_cursors (<[id := state]> (cursors m)) m) = <[id := (pending w' state, lastUsed state)]> (table_of w m).
Proof.
  intros Hm Hid Ht. unfold table_of. cbn. apply map_eq. intros id'. destruct (decide (id = id')) as [<-|Hne].
  - by rewrite lookup_fmap, !lookup_insert_eq.
  - rewrite lookup_fmap, !lookup_insert_ne, lookup_fmap by done. destruct (cursors m !! id') as [st|] eqn:E; [|done]. cbn.
    by rewrite (moved_others w w' m id (iterator state) id' st).
Qed.

Lemma table_delete w w' m id i :
  manager_ok w m → owns m id i → moved i w w' → table_of w' (set_cursors (delete id (cursors m)) m) = delete id (table_of w m).
Proof.
  intros Hm Hid Ht. unfold table_of. cbn. apply map_eq. intros id'. destruct (decide (id = id')) as [<-|Hne].
  - by rewrite lookup_fmap, !lookup_delete_eq.
  - rewrite lookup_fmap, !lookup_delete_ne, lookup_fmap by done. destruct (cursors m !! id') as [st|] eqn:E; [|done]. cbn.
    by rewrite (moved_others w w' m id i id' st).
Qed.

Lemma table_skip w w' m i : unused i m → moved i w w' → table_of w' m = table_of w m.
Proof.
  intros Hu [_ Hr]. unfold table_of. apply map_eq. intros id'. rewrite !lookup_fmap.
  destruct (cursors m !! id') as [st|] eqn:E; [|done]. cbn. f_equal. f_equal.
  unfold pending, CursorProperties.pending. f_equal. apply Hr. intros Hi. by apply (Hu id' st).
Qed.

Lemma manager_insert w w' (m : CursorManager I) id state next_id :
  manager_ok w m → owns m id (iterator state) → moved (iterator state) w w' → ended rest w' state → exhausted state = false →
  1 ≤ id ≤ MAX_SAFE_INTEGER → 1 ≤ next_id ≤ MAX_SAFE_INTEGER →
  manager_ok w' (set_cursors (<[id := state]> (cursors m)) (set_next next_id m)).
Proof.
  intros Hm Hid [Hok _] He Hx Hr Hnx. unfold ended in He. rewrite Hx in He. split; cbn; [done|done| |].
  - intros id' st [[<- <-]|[Hne Hst]]%lookup_insert_Some; [done|]. by apply (manager_cursors _ _ Hm).
  - pose proof (λ id' st, owns_others w m id (iterator state) id' st Hm Hid) as Hd.
    intros id1 st1 id2 st2 [[<- <-]|[Hne1 Hst1]]%lookup_insert_Some [[<- <-]|[Hne2 Hst2]]%lookup_insert_Some E.
    + done.
    + by destruct (Hd id2 st2).
    + by destruct (Hd id1 st1).
    + by apply (manager_iterators _ _ Hm id1 st1 id2 st2).
Qed.

Lemma manager_delete w w' (m : CursorManager I) id : manager_ok w m → ok w' → manager_ok w' (set_cursors (delete id (cursors m)) m).
Proof.
  intros [H1 H2 H3 H4] Hok. split; cbn; [done|done| |].
  - intros id' st [_ Hst]%lookup_delete_Some. eauto.
  - intros id1 st1 id2 st2 [_ Hst1]%lookup_delete_Some [_ Hst2]%lookup_delete_Some. eauto.
Qed.

Lemma isExhausted_ended w state : ended rest w state → isExhausted state = exhausted state.
Proof.
  unfold isExhausted, ended. destruct (exhausted state) eqn:E; [|done].
  unfold pending, CursorProperties.pending, waiting. by destruct (buffered state).
Qed.

(** What a batch is: the beginning of [l], with [left] to come. *)
Definition batch_of (size limit : Z) (l : list Document) (batch : list Document) (left : list Document) : Prop :=
  l = batch ++ left ∧ batch_ok size limit batch ∧ (batch = [] → left = []).

Definition size_of (size : option number) : Z := Z_of_number (default (number_of_Z DEFAULT_CURSOR_BATCH_SIZE) size).
Definition valid_size (size : option number) : bool := positive (default (number_of_Z DEFAULT_CURSOR_BATCH_SIZE) size).

Lemma valid_size_pos size : valid_size size = true → 0 < size_of size.
Proof. unfold valid_size, positive. intros [_ H%Z.ltb_lt]%andb_true_iff. exact H. Qed.

Lemma cursor_open_outcome i size sweep now w m :
  manager_ok w m → Z.of_nat (base.size (cursors m)) < MAX_SAFE_INTEGER → unused i m → valid_size size = true →
  let t := used_after (sweep - idleTimeoutMS m) (table_of w m) in
  match open next i size sweep now w m with
  | (Ok b, (w', m')) => manager_ok w' m' ∧ idleTimeoutMS m' = idleTimeoutMS m ∧ maxBatchBytes m' = maxBatchBytes m ∧
      ∃ left, batch_of (size_of size) (maxBatchBytes m) (rest w i) (documents b) left ∧
      match cursorId b with
      | None => left = [] ∧ table_of w' m' = t
      | Some id => left ≠ [] ∧ t !! id = None ∧ 1 ≤ id ≤ MAX_SAFE_INTEGER ∧ table_of w' m' = <[id := (left, now)]> t
      end
  | (Throw _, _) => False
  end.
Proof using Source0.
  intros Hm Hs Hu Hv t. unfold open. unfold validateBatchSize. unfold valid_size in Hv. rewrite Hv.
  pose proof (sweep_ok w m sweep Hm) as Hm1. pose proof (sweep_table w m sweep) as Ht1. fold t in Ht1.
  pose proof (sweep_size m sweep) as Hs1. pose proof (sweep_unused i m sweep Hu) as Hu1.
  assert (idleTimeoutMS (sweepExpired sweep m).2 = idleTimeoutMS m ∧ maxBatchBytes (sweepExpired sweep m).2 = maxBatchBytes m) as [E1 E2] by done.
  destruct (sweepExpired sweep m) as [n m1]. cbn [snd] in *.
  set (state := {| iterator := i; buffered := None; exhausted := false; lastUsed := now |}).
  pose proof (takeBatch_spec next ok rest (size_of size) (maxBatchBytes m1) w state (manager_store _ _ Hm) eq_refl (valid_size_pos _ Hv)) as Hb.
  fold (size_of size).
  destruct (takeBatch next (size_of size) (maxBatchBytes m1) (w, state)) as [[l|e] [w' state']]; [|done].
  destruct Hb as (Htook & Hbo & Hnil). pose proof Htook as [Hok Hr [Hi Hl] Ho He].
  change (pending w state) with (rest w i) in Hr. rewrite E2 in Hbo.
  rewrite (isExhausted_ended _ _ He). destruct (exhausted state') eqn:Ex.
  - split; [destruct Hm1 as [_ A2 A3 A4]; by split|]. split; [done|]. split; [done|].
    exists []. unfold ended in He. rewrite Ex in He. rewrite He in Hr.
    split; [by split|]. split; [done|]. rewrite <- Ht1. by apply (table_skip w w' m1 i).
  - destruct (allocateCursorId_spec m1 (manager_next _ _ Hm1) ltac:(lia)) as (id & nx & Ea & Hfree & Hid & Hnx). rewrite Ea.
    assert (owns m1 id (iterator state') ∧ moved (iterator state') w w') as [Hown Hmove]
      by (cbn in Hi; rewrite Hi; split; [by right|by split]).
    split; [exact (manager_insert w w' m1 id state' nx Hm1 Hown Hmove He Ex Hid Hnx)|]. split; [done|]. split; [done|].
    exists (pending w' state'). split; [by split|]. unfold ended in He. rewrite Ex in He.
    split; [by apply pending_nonempty|]. rewrite <- Ht1. split; [unfold table_of; by rewrite lookup_fmap, Hfree|].
    split; [done|]. cbn in Hl. rewrite <- Hl. exact (table_insert w w' m1 id state' Hm1 Hown Hmove).
Qed.

Lemma cursor_more_outcome id size sweep now w m :
  manager_ok w m → positive id = true → valid_size size = true →
  let t := used_after (sweep - idleTimeoutMS m) (table_of w m) in
  match getMore next id size sweep now w m with
  | (Ok b, (w', m')) => manager_ok w' m' ∧ idleTimeoutMS m' = idleTimeoutMS m ∧ maxBatchBytes m' = maxBatchBytes m ∧
      ∃ l used left, t !! Z_of_number id = Some (l, used) ∧
      batch_of (size_of size) (maxBatchBytes m) l (documents b) left ∧
      match cursorId b with
      | None => left = [] ∧ table_of w' m' = delete (Z_of_number id) t
      | Some id' => id' = Z_of_number id ∧ left ≠ [] ∧ table_of w' m' = <[Z_of_number id := (left, now)]> t
      end
  | (Throw x, (w', m')) => x = CursorNotFoundError (Z_of_number id) ∧ t !! Z_of_number id = None ∧
      w' = w ∧ manager_ok w m' ∧ idleTimeoutMS m' = idleTimeoutMS m ∧ maxBatchBytes m' = maxBatchBytes m ∧ table_of w m' = t
  end.
Proof using Source0.
  intros Hm Hid Hv t. unfold getMore, validateCursorId, validateBatchSize. rewrite Hid. unfold valid_size in Hv. rewrite Hv.
  pose proof (sweep_ok w m sweep Hm) as Hm1. pose proof (sweep_table w m sweep) as Ht1. fold t in Ht1.
  assert (idleTimeoutMS (sweepExpired sweep m).2 = idleTimeoutMS m ∧ maxBatchBytes (sweepExpired sweep m).2 = maxBatchBytes m) as [E1 E2] by done.
  destruct (sweepExpired sweep m) as [n m1]. cbn [snd] in *. set (z := Z_of_number id).
  destruct (cursors m1 !! z) as [st|] eqn:Est.
  2: { split; [done|]. rewrite <- Ht1. split; [unfold table_of; by rewrite lookup_fmap, Est|done]. }
  set (state := {| iterator := iterator st; buffered := buffered st; exhausted := exhausted st; lastUsed := now |}).
  destruct (manager_cursors _ _ Hm1 z st Est) as (Hz & Hx & Hbuf).
  pose proof (takeBatch_spec next ok rest (size_of size) (maxBatchBytes m1) w state (manager_store _ _ Hm) Hx (valid_size_pos _ Hv)) as Hb.
  fold (size_of size).
  destruct (takeBatch next (size_of size) (maxBatchBytes m1) (w, state)) as [[l|e] [w' state']]; [|done].
  destruct Hb as (Htook & Hbo & Hnil). pose proof Htook as [Hok Hr [Hi Hl] Ho He]. rewrite E2 in Hbo.
  assert (t !! z = Some (pending w st, lastUsed st)) as Ht by (rewrite <- Ht1; unfold table_of; by rewrite lookup_fmap, Est).
  assert (owns m1 z (iterator state') ∧ moved (iterator state') w w') as [Hown Hmove]
    by (cbn in Hi; rewrite Hi; split; [left; by exists st|by split]).
  rewrite (isExhausted_ended _ _ He). destruct (exhausted state') eqn:Ex.
  - split; [by apply (manager_delete w)|]. split; [done|]. split; [done|]. exists (pending w st), (lastUsed st), [].
    unfold ended in He. rewrite Ex in He. rewrite He in Hr. split; [done|].
    split; [by split|]. split; [done|]. rewrite <- Ht1. by apply (table_delete w w' m1 z (iterator state')).
  - split; [exact (manager_insert w w' m1 z state' (nextCursorId m1) Hm1 Hown Hmove He Ex Hz (manager_next _ _ Hm1))|].
    split; [done|]. split; [done|]. exists (pending w st), (lastUsed st), (pending w' state'). split; [done|].
    split; [by split|]. split; [done|]. unfold ended in He. rewrite Ex in He. split; [by apply pending_nonempty|].
    cbn in Hl. rewrite <- Hl, <- Ht1. exact (table_insert w w' m1 z state' Hm1 Hown Hmove).
Qed.

(** ** Commands of a manager *)
Inductive CursorCommand :=
  | Open (i : I) (size : option number)
  | GetMore (id : number) (size : option number)
  | Close (id : number)
  | Sweep
  | Clear.

Inductive CursorAnswer := Batch (batch : CursorBatch) | Closed (closed : bool) | Removed (count : Z) | Cleared.

(** A command, with the clock as its sweep and then it itself read it. *)
Definition exec (command : CursorCommand) (sweep now : Z) (w : W) (m : CursorManager I)
    : outcome CursorAnswer * (W * CursorManager I) :=
  match command with
  | Open i size => let (r, s) := open next i size sweep now w m in (b ← r; Ok (Batch b), s)
  | GetMore id size => let (r, s) := getMore next id size sweep now w m in (b ← r; Ok (Batch b), s)
  | Close id => let (r, m) := close id m in (b ← from_storage r; Ok (Closed b), (w, m))
  | Sweep => let (n, m) := sweepExpired now m in (Ok (Removed n), (w, m))
  | Clear => (Ok Cleared, (w, clear m))
  end.

Definition valid_command (command : CursorCommand) : bool :=
  match command with
  | Open _ size => valid_size size
  | GetMore id size => positive id && valid_size size
  | Close id => positive id
  | Sweep | Clear => true
  end.

(** What a command answers, and what the table is then: [idle] the time after which
    a cursor is forgotten, [limit] the bytes of a batch, [returns] what a new
    iterator will return. *)
Inductive answers (idle limit : Z) (returns : I → list Document) (t : table) (sweep now : Z) :
    CursorCommand → outcome CursorAnswer → table → Prop :=
  | answers_all i size batch :
      batch_of (size_of size) limit (returns i) batch [] →
      answers idle limit returns t sweep now (Open i size) (Ok (Batch {| cursorId := None; documents := batch |}))
        (used_after (sweep - idle) t)
  | answers_open i size batch left id :
      batch_of (size_of size) limit (returns i) batch left → left ≠ [] → used_after (sweep - idle) t !! id = None →
      1 ≤ id ≤ MAX_SAFE_INTEGER →
      answers idle limit returns t sweep now (Open i size) (Ok (Batch {| cursorId := Some id; documents := batch |}))
        (<[id := (left, now)]> (used_after (sweep - idle) t))
  | answers_last id size l used batch :
      used_after (sweep - idle) t !! Z_of_number id = Some (l, used) → batch_of (size_of size) limit l batch [] →
      answers idle limit returns t sweep now (GetMore id size) (Ok (Batch {| cursorId := None; documents := batch |}))
        (delete (Z_of_number id) (used_after (sweep - idle) t))
  | answers_more id size l used batch left :
      used_after (sweep - idle) t !! Z_of_number id = Some (l, used) → batch_of (size_of size) limit l batch left → left ≠ [] →
      answers idle limit returns t sweep now (GetMore id size)
        (Ok (Batch {| cursorId := Some (Z_of_number id); documents := batch |}))
        (<[Z_of_number id := (left, now)]> (used_after (sweep - idle) t))
  | answers_unknown id size :
      used_after (sweep - idle) t !! Z_of_number id = None →
      answers idle limit returns t sweep now (GetMore id size) (Throw (CursorNotFoundError (Z_of_number id)))
        (used_after (sweep - idle) t)
  | answers_close id :
      answers idle limit returns t sweep now (Close id) (Ok (Closed (bool_decide (is_Some (t !! Z_of_number id)))))
        (delete (Z_of_number id) t)
  | answers_sweep :
      answers idle limit returns t sweep now Sweep
        (Ok (Removed (Z.of_nat (size t) - Z.of_nat (size (used_after (now - idle) t))))) (used_after (now - idle) t)
  | answers_clear : answers idle limit returns t sweep now Clear (Ok Cleared) ∅.

Lemma table_size w m : size (table_of w m) = size (cursors m).
Proof. apply map_size_fmap. Qed.

(** C27: The cursors of a connection are a table of the documents that each will
    still return: a batch is the beginning of what is left, has not more documents
    than asked for nor, with two of them, more bytes than the limit; the cursor is
    gone with its last document and after its idle time; a new one has an id that no
    other has; and no cursor changes what another returns. *)
Theorem cursors_refine command sweep now w m :
  manager_ok w m → Z.of_nat (size (cursors m)) < MAX_SAFE_INTEGER → valid_command command = true →
  match command with Open i _ => unused i m | _ => True end →
  let '(r, (w', m')) := exec command sweep now w m in
  manager_ok w' m' ∧ idleTimeoutMS m' = idleTimeoutMS m ∧ maxBatchBytes m' = maxBatchBytes m ∧
  answers (idleTimeoutMS m) (maxBatchBytes m) (rest w) (table_of w m) sweep now command r (table_of w' m').
Proof using Source0.
  intros Hm Hs Hv Hu. destruct command as [i size|id size|id| |]; cbn [exec valid_command] in *.
  - pose proof (cursor_open_outcome i size sweep now w m Hm Hs Hu Hv) as Ho.
    destruct (open next i size sweep now w m) as [[[id l]|x] [w' m']]; [|done].
    destruct Ho as (H1 & H2 & H3 & left & Hb & Hid). split; [done|]. split; [done|]. split; [done|]. cbn in *.
    destruct id as [id|]; [destruct Hid as (A1 & A2 & A3 & ->)|].
      { by constructor. }
      destruct Hid as [-> ->]. by constructor.
  - apply andb_true_iff in Hv as [Hid Hv]. pose proof (cursor_more_outcome id size sweep now w m Hm Hid Hv) as Ho.
    destruct (getMore next id size sweep now w m) as [[[id' l]|x] [w' m']].
    + destruct Ho as (H1 & H2 & H3 & l' & used & left & Ht & Hb & Hid'). split; [done|]. split; [done|]. split; [done|]. cbn in *.
      destruct id' as [id'|]; [destruct Hid' as (-> & A2 & ->); by econstructor|]. destruct Hid' as [-> ->]. by econstructor.
    + destruct Ho as (-> & Ht & -> & Hm' & E1 & E2 & ->). cbn. split; [done|]. split; [done|]. split; [done|]. by constructor.
  - unfold close, validateCursorId. rewrite Hv. cbn [from_storage mbind res_bind].
    split; [by apply (manager_delete w); [|apply Hm]|]. split; [done|]. split; [done|].
    replace (bool_decide (is_Some (cursors m !! Z_of_number id))) with (bool_decide (is_Some (table_of w m !! Z_of_number id))).
    2: { apply bool_decide_ext. unfold table_of. by rewrite lookup_fmap, fmap_is_Some. }
    replace (table_of w (set_cursors (delete (Z_of_number id) (cursors m)) m)) with (delete (Z_of_number id) (table_of w m))
      by (unfold table_of; cbn; by rewrite fmap_delete). constructor.
  - pose proof (sweep_ok w m now Hm) as H1. pose proof (sweep_table w m now) as H2.
    pose proof (table_size w (sweepExpired now m).2) as H3. rewrite H2 in H3.
    unfold sweepExpired in *. cbn [snd] in *. split; [done|]. split; [done|]. split; [done|]. rewrite H2.
    cbn [cursors set_cursors] in H3. rewrite <- H3, <- (table_size w m). constructor.
  - cbn [fst snd]. split; [|split; [done|split; [done|]]].
    + destruct Hm as [A1 A2 _ _]. split; cbn; [done|done| |]; by intros id state; rewrite lookup_empty.
    + unfold table_of at 2. cbn. rewrite fmap_empty. constructor.
Qed.

(** ** Reading to the end *)

(** A client that asks for batches until there is no cursor any more. *)
Fixpoint read_rest (n : nat) (size : option number) (now : Z) (id : option Z) (w : W) (m : CursorManager I)
    : outcome (list Document) :=
  match id, n with
  | None, _ => Ok []
  | Some _, O => Throw (StorageFailure JsError)
  | Some id, S n =>
      match getMore next (number_of_Z id) size now now w m with
      | (Throw x, _) => Throw x
      | (Ok b, (w, m)) => l ← read_rest n size now (cursorId b) w m; Ok (documents b ++ l)
      end
  end.

Definition read_all (n : nat) (i : I) (size : option number) (now : Z) (w : W) (m : CursorManager I)
    : outcome (list Document) :=
  match open next i size now now w m with
  | (Throw x, _) => Throw x
  | (Ok b, (w, m)) => l ← read_rest n size now (cursorId b) w m; Ok (documents b ++ l)
  end.

Lemma positive_id id : 1 ≤ id ≤ MAX_SAFE_INTEGER → positive (number_of_Z id) = true ∧ Z_of_number (number_of_Z id) = id.
Proof.
  intros H. assert (Z.abs id < 2 ^ 53) as Ha by (unfold MAX_SAFE_INTEGER in H; lia).
  unfold positive, isSafeInteger. rewrite Z_of_number_of_Z by done. rewrite number_of_Z_is_integer by done.
  split; [|done]. apply andb_true_iff. split; [|apply Z.ltb_lt; lia]. cbn. apply Z.leb_le. lia.
Qed.

Lemma still_used idle t id l now : 0 < idle → t !! id = Some (l, now) → used_after (now - idle) t !! id = Some (l, now).
Proof. intros Hi Ht. unfold used_after. apply map_lookup_filter_Some. split; [done|]. cbn. lia. Qed.

Lemma read_rest_spec n size now id l w m :
  manager_ok w m → 0 < idleTimeoutMS m → valid_size size = true → table_of w m !! id = Some (l, now) →
  1 ≤ id ≤ MAX_SAFE_INTEGER → (length l ≤ n)%nat → l ≠ [] → read_rest n size now (Some id) w m = Ok l.
Proof using Source0.
  revert l w m. induction n as [|n IH]; intros l w m Hm Hi Hv Ht Hid Hl Hne; [destruct l; [done|cbn in Hl; lia]|].
  cbn [read_rest]. destruct (positive_id id Hid) as [Hp Hz].
  pose proof (cursor_more_outcome (number_of_Z id) size now now w m Hm Hp Hv) as Ho. rewrite Hz in Ho. cbv zeta in Ho.
  rewrite (still_used _ _ _ _ _ Hi Ht) in Ho.
  destruct (getMore next (number_of_Z id) size now now w m) as [[[id' b]|x] [w' m']]; [|by destruct Ho as (_ & ? & _)].
  destruct Ho as (Hm' & Ei & _ & l' & used & left & [= <- <-] & (-> & _ & Hnil) & Hid'). cbn in *.
  destruct id' as [id'|].
  - destruct Hid' as (-> & Hleft & Ht'). rewrite (IH left w' m'); [done|done|by rewrite Ei|done| |done| |done].
    + by rewrite Ht', lookup_insert_eq.
    + destruct b as [|d b]; [by destruct Hleft; apply Hnil|]. rewrite length_app in Hl. cbn in Hl. lia.
  - destruct Hid' as [-> _]. destruct n; cbn; by rewrite app_nil_r.
Qed.

Lemma read_all_spec i size now w m :
  manager_ok w m → Z.of_nat (base.size (cursors m)) < MAX_SAFE_INTEGER → unused i m → valid_size size = true →
  0 < idleTimeoutMS m →
  read_all (length (rest w i)) i size now w m = Ok (rest w i).
Proof using Source0.
  intros Hm Hs Hu Hv Hi. unfold read_all. pose proof (cursor_open_outcome i size now now w m Hm Hs Hu Hv) as Ho.
  destruct (open next i size now now w m) as [[[id b]|x] [w' m']]; [|done]. cbn in *.
  destruct Ho as (Hm' & Ei & _ & left & (Hr & _ & Hnil) & Hid). rewrite Hr. destruct id as [id|].
  - destruct Hid as (Hleft & _ & Hid & Ht'). rewrite (read_rest_spec _ size now id left w' m'); [done|done|by rewrite Ei|done| |done| |done].
    + by rewrite Ht', lookup_insert_eq.
    + rewrite length_app. lia.
  - destruct Hid as [-> _]. destruct (length (b ++ [])); cbn; by rewrite app_nil_r.
Qed.
(** A client that reads a cursor to its end gets every document of the query,
    in order, each once, whatever the size of the batches, and the end comes after
    as many requests as there are documents at most. *)
Lemma cursor_reads_all i size now w m :
  manager_ok w m → Z.of_nat (base.size (cursors m)) < MAX_SAFE_INTEGER → unused i m → valid_size size = true →
  0 < idleTimeoutMS m →
  read_all (length (rest w i)) i size now w m = Ok (rest w i).
Proof using Source0. apply read_all_spec. Qed.
End Manager.

(** ** Over lists *)
Definition list_next (i : nat) : ST (list (list Document)) exn (option Document) := λ w,
  match w !! i with
  | Some (d :: l) => (Ok (Some d), <[i := l]> w)
  | _ => (Ok None, w)
  end.

Definition list_rest (w : list (list Document)) (i : nat) : list Document := default [] (w !! i).

#[export] Instance list_source : Source list_next (λ _, True) list_rest.
Proof.
  split.
  - intros i w _. unfold list_next, list_rest. destruct (w !! i) as [[|d l]|] eqn:E; [by rewrite E| |by rewrite E].
    split; [done|]. by rewrite list_lookup_insert_eq by (by eapply lookup_lt_Some).
  - intros i j w _ Hij. unfold list_next, list_rest. destruct (w !! i) as [[|d l]|] eqn:E; [done| |done]. cbn.
    by rewrite list_lookup_insert_ne.
Qed.

Definition sample_documents : list Document := [[(js "a", VBool true)]; [(js "a", VBool false)]; [(js "b", VNull)]].

Definition sample_manager : CursorManager nat := {|
  cursors := ∅; nextCursorId := MAX_SAFE_INTEGER; idleTimeoutMS := 1000; maxBatchBytes := 64 |}.

Lemma sample_manager_ok : manager_ok (λ _ : list (list Document), True) [sample_documents] sample_manager.
Proof. split; [done|by split| |]; by intros id state; cbn; rewrite lookup_empty. Qed.

Lemma sample_unused : unused 0%nat sample_manager.
Proof. intros id state. cbn. by rewrite lookup_empty. Qed.

(** A cursor that is opened with two of three documents. *)
Lemma cursors_refine_witness :
  let '(r, (w', m')) := exec list_next (Open 0%nat (Some (number_of_Z 2))) 5 5 [sample_documents] sample_manager in
  manager_ok (λ _, True) w' m' ∧ idleTimeoutMS m' = 1000 ∧ maxBatchBytes m' = 64 ∧
  answers 1000 64 (list_rest [sample_documents]) (table_of list_rest [sample_documents] sample_manager) 5 5
    (Open 0%nat (Some (number_of_Z 2))) r (table_of list_rest w' m').
Proof.
  exact (cursors_refine list_next (λ _, True) list_rest (Open 0%nat (Some (number_of_Z 2))) 5 5 [sample_documents] sample_manager
    sample_manager_ok eq_refl eq_refl sample_unused).
Defined.

Lemma cursor_reads_all_witness :
  read_all list_next 3 0%nat (Some (number_of_Z 1)) 7 [sample_documents] sample_manager = Ok sample_documents.
Proof.
  exact (cursor_reads_all list_next (λ _, True) list_rest 0%nat (Some (number_of_Z 1)) 7 [sample_documents] sample_manager
    sample_manager_ok eq_refl sample_unused eq_refl eq_refl).
Defined.
