(* ===== verification/Catalog.v ===== *)
(** * The catalog

    packages/server/src/catalog.ts: the databases and collections of a server, in
    memory or in a storage engine. *)

From S2P Require Import Prelude Errors JsNumber JsString JsValue IndexSet Disk Collection CollectionModel Engine DocumentSize ServerErrors.

Module Catalog.
Import Engine.Engine.

Definition MAX_NAME_BYTES : Z := 255.

Record CreatedCollection := { created_database : jsstring; created_collection : jsstring }.

(** [InMemoryCatalog]: without an engine the collections are its own. *)
Record InMemoryCatalog := {
  databases : Databases (InMemoryCollection ());
  engine : option StorageEngine;
}.

Definition new (engine : option StorageEngine) : InMemoryCatalog := {| databases := []; engine := engine |}.

Definition set_databases (l : Databases (InMemoryCollection ())) (c : InMemoryCatalog) : InMemoryCatalog :=
  {| databases := l; engine := engine c |}.

(** ** Names *)
Definition capitalize (value : jsstring) : jsstring :=
  match value with
  | u :: value => (if (97 <=? u) && (u <=? 122) then u - 32 else u) :: value
  | [] => []
  end.

Definition validateName (name kind : jsstring) (errorCode : CatalogErrorCode) : outcome () :=
  if is_blank name then
    Throw (CatalogError errorCode (capitalize kind ++ js " name must be a non-empty string."))
  else if bool_decide (0 ∈ name) then
    Throw (CatalogError errorCode (capitalize kind ++ js " name cannot contain a null character."))
  else if MAX_NAME_BYTES <? byteLength name then
    Throw (CatalogError errorCode
      (capitalize kind ++ js " name cannot be longer than " ++ number_text MAX_NAME_BYTES ++ js " bytes."))
  else Ok ().

Definition validateDatabaseName (name : jsstring) : outcome () := validateName name (js "database") InvalidDatabaseName.
Definition validateCollectionName (name : jsstring) : outcome () :=
  validateName name (js "collection") InvalidCollectionName.

Definition sortNames (names : list jsstring) : list jsstring := sort_by (λ left right, sign_of (string_cmp left right)) names.

(** ** What there is *)
Definition databaseCount (c : InMemoryCatalog) : Z :=
  match engine c with
  | None => len (databases c)
  | Some e => len (Engine.Engine.listDatabases e)
  end.

Definition collectionCount (c : InMemoryCatalog) : Z :=
  match engine c with
  | Some e => fold_left (λ total database, total + len (Engine.Engine.listCollections database e)) (Engine.Engine.listDatabases e) 0
  | None => fold_left (λ count (database : jsstring * list (jsstring * InMemoryCollection ())), count + len database.2) (databases c) 0
  end.

Definition listDatabases (c : InMemoryCatalog) : list jsstring :=
  match engine c with
  | Some e => sortNames (Engine.Engine.listDatabases e)
  | None => sortNames (omap_keys (databases c))
  end.

Definition hasDatabase (c : InMemoryCatalog) (name : jsstring) : outcome bool :=
  _ ← validateDatabaseName name;
  Ok (match engine c with
      | Some e => 0 <? len (Engine.Engine.listCollections name e)
      | None => omap_has (databases c) name
      end).

Definition listCollections (c : InMemoryCatalog) (database : jsstring) : outcome (list jsstring) :=
  _ ← validateDatabaseName database;
  Ok (match engine c with
      | Some e => sortNames (Engine.Engine.listCollections database e)
      | None => match omap_get (databases c) database with
                | None => []
                | Some collections => sortNames (omap_keys collections)
                end
      end).

(** The collection of a valid name. *)
Definition find_collection (c : InMemoryCatalog) (database collection : jsstring) : option (InMemoryCollection ()) :=
  match engine c with
  | Some e => Engine.Engine.getCollection e database collection
  | None => lookup (databases c) database collection
  end.

Definition hasCollection (c : InMemoryCatalog) (database collection : jsstring) : outcome bool :=
  _ ← validateDatabaseName database;
  _ ← validateCollectionName collection;
  Ok (match find_collection c database collection with Some _ => true | None => false end).

Definition getCollection (c : InMemoryCatalog) (database collection : jsstring)
    : outcome (option (InMemoryCollection ())) :=
  _ ← validateDatabaseName database;
  _ ← validateCollectionName collection;
  Ok (find_collection c database collection).

(** ** Changes *)
Section Catalog.
Context (osL osC : Z → Call → Outcome).
Abbreviation action A := (ST InMemoryCatalog ServerError A).

(** What the engine does. *)
Definition on_engine {A} (e : StorageEngine) (m : Engine.Engine.action A) : action A := λ c,
  let (r, e) := m e in (from_storage r, {| databases := databases c; engine := Some e |}).

(** [new InMemoryCollection()]. *)
Definition empty_collection : InMemoryCollection () := (Coll.new () [] []).2.

Definition getOrCreateCollection (database collection : jsstring) : action () :=
  _ ← st_lift (validateDatabaseName database);
  _ ← st_lift (validateCollectionName collection);
  engine ← st_get engine;
  match engine with
  | Some e => on_engine e (openCollection osL osC database collection)
  | None =>
      existing ← st_get (λ c, lookup (databases c) database collection);
      match existing with
      | Some _ => mret ()
      | None => st_update (λ c, set_databases (insert (databases c) database collection empty_collection) c)
      end
  end.

Definition already_exists (database collection : jsstring) : ServerError :=
  CatalogError NamespaceConflict (js "Collection " ++ json_string (database ++ js "." ++ collection) ++ js " already exists.").

Definition createCollection (database collection : jsstring) : action CreatedCollection :=
  _ ← st_lift (validateDatabaseName database);
  _ ← st_lift (validateCollectionName collection);
  existing ← st_get (λ c, find_collection c database collection);
  match existing with
  | Some _ => st_throw (already_exists database collection)
  | None =>
      engine ← st_get engine;
      _ ← match engine with
          | Some e => on_engine e (openCollection osL osC database collection)
          | None => st_update (λ c, set_databases (insert (databases c) database collection empty_collection) c)
          end;
      mret {| created_database := database; created_collection := collection |}
  end.

(** The collections are cleared too, which only an iterator that has one can see: a
    collection that is not there has no documents for it (Scans.v). *)
Definition clear : action () :=
  engine ← st_get engine;
  match engine with
  | Some _ => st_throw (StorageFailure JsError)
  | None => st_update (set_databases [])
  end.

(** A command on a collection that was returned. *)
Definition run (database collection : jsstring) (command : Command) : action Answer := λ c,
  match engine c with
  | Some e => on_engine e (Engine.Engine.run osL osC database collection command) c
  | None =>
      match lookup (databases c) database collection with
      | None => (Throw (StorageFailure TypeError), c)
      | Some store =>
          let (r, store) := CollectionModel.run None command store in
          (from_storage r, set_databases (insert (databases c) database collection store) c)
      end
  end.
End Catalog.
End Catalog.
