(* ===== verification/Scans.v ===== *)
(** * Scans

    The iterators that [find] of packages/storage/src/in-memory-collection.ts
    returns, which cursors ask for a document now and then while commands change the
    collection. An iterator over the documents of a collection is one over a [Map]:
    it is where it is in the order of insertion, does not return what was deleted
    before it came there, and returns what was added behind it. Here it is the keys
    that it has still to visit, and a change of the collection changes them.

    [World] is what commands and cursors share: the catalog, and the iterators that
    there are, each a reference. *)

From S2P Require Import Prelude Errors JsNumber JsString JsValue Codec Filter Sort IndexSet Planner Disk Collection CollectionModel Engine ServerErrors Catalog.

Module Scans.
Import Engine.Engine.
Module Cat := Catalog.Catalog.
Abbreviation CompiledFilter := Filter.Filter.CompiledFilter.

(** Where the generator [scan] stands: at its beginning; at a [yield] of the loop
    over candidates, [live] if they are the entries of the map itself; at a [yield]
    of the sorted documents; at its end. *)
Inductive Position :=
  | NotBegun
  | Scanning (live : bool) (keys : list jsstring) (skipped yielded : Z)
  | Sorted (documents : list Document)
  | Ended.

Record Scan := {
  scan_database : jsstring;
  scan_collection : jsstring;
  filter : Document;
  matches : CompiledFilter;
  sorter : option (list Document → list Document);
  skip : Z;
  limit : option Z;
  position : Position;
}.

Definition set_position (p : Position) (s : Scan) : Scan := {|
  scan_database := scan_database s; scan_collection := scan_collection s; filter := filter s; matches := matches s;
  sorter := sorter s; skip := skip s; limit := limit s; position := p |}.

Record World := { catalog : Cat.InMemoryCatalog; scans : list Scan }.

Definition set_scans (l : list Scan) (w : World) : World := {| catalog := catalog w; scans := l |}.

(** ** Options as they arrive *)

(** An entry of a sort specification: what [parseSortSpecification] checks that the
    type of [compileSort] (Sort.v) leaves out. A direction that is no number is one
    that it rejects. *)
Definition sort_entry (entry : DocumentValue) : result (jsstring * Z) :=
  match entry with
  | VArray [VString path; direction] =>
      Ok (path, match direction with
                | VNumber n => if isInteger n then Z_of_number n else 0
                | _ => 0
                end)
  | _ => Sort.Sort.invalidSort
  end.

Definition compileSortValue (sort : list DocumentValue) : result (list Document → list Document) :=
  specification ← mapM sort_entry sort;
  Sort.Sort.compileSort specification.

(** ** Opening *)

(** [find]: the iterator that it returns, which has not begun. *)
Definition find (database collection : jsstring) (filter : Document) (sort : option (list DocumentValue))
    (skip limit : option number) : ST World exn nat :=
  matches ← st_lift (Filter.Filter.compileFilter (VDoc filter));
  sorter ← st_lift (match sort with
                    | None => Ok None
                    | Some sort => s ← compileSortValue sort; Ok (Some s)
                    end);
  skip ← st_lift (Coll.validateSkip skip);
  limit ← st_lift (Coll.validateLimit limit);
  reference ← st_get (λ w, length (scans w));
  _ ← st_update (λ w, set_scans (scans w ++
        [{| scan_database := database; scan_collection := collection; filter := filter; matches := matches;
            sorter := sorter; skip := skip; limit := limit; position := NotBegun |}]) w);
  mret reference.

(** ** The next document *)

(** The loop over candidates, [get] what the map has now: the document of the next
    [yield], and where the loop stands then. *)
Fixpoint scan_next (matches : CompiledFilter) (skip : Z) (limit : option Z) (get : jsstring → option bytes)
    (keys : list jsstring) (skipped yielded : Z) : result (option (Document * (list jsstring * Z * Z))) :=
  match keys with
  | [] => Ok None
  | key :: keys =>
      match get key with
      | None => scan_next matches skip limit get keys skipped yielded
      | Some encoded =>
          if (match limit with Some limit => limit <=? yielded | None => false end) then Ok None
          else
            document ← decodeDocument encoded;
            b ← matches document;
            if negb b then scan_next matches skip limit get keys skipped yielded
            else if skipped <? skip then scan_next matches skip limit get keys (skipped + 1) yielded
            else Ok (Some (document, (keys, skipped, yielded + 1)))
      end
  end.

(** Whether the candidates are the entries of the map itself. *)
Definition whole (filter : Document) (c : InMemoryCollection ()) : result bool :=
  if IndexSet.IndexSet.isEmpty (Coll.indexes c) then Ok true
  else p ← Coll.plan filter c; Ok (match p with Planner.Planner.COLLSCAN _ => true | _ => false end).

(** What the first [next] does before it looks at a document. *)
Definition begin (s : Scan) (c : InMemoryCollection ()) : result Position :=
  l ← Coll.candidates (filter s) c;
  match sorter s with
  | None => live ← whole (filter s) c; Ok (Scanning live (omap_keys l) 0 0)
  | Some sorter =>
      matched ← Coll.matching (matches s) l;
      Ok (Sorted (Coll.slice (sorter (map Coll.located_document matched)) (skip s) (limit s)))
  end.

(** From one [yield] to the next. *)
Definition resume (s : Scan) (get : jsstring → option bytes) (p : Position) : result (option Document * Position) :=
  match p with
  | NotBegun | Ended | Sorted [] => Ok (None, Ended)
  | Sorted (d :: documents) => Ok (Some d, Sorted documents)
  | Scanning live keys skipped yielded =>
      found ← scan_next (matches s) (skip s) (limit s) get keys skipped yielded;
      Ok (match found with
          | None => (None, Ended)
          | Some (d, (keys, skipped, yielded)) => (Some d, Scanning live keys skipped yielded)
          end)
  end.

(** A step of the iterator over [c]; one that throws has ended. *)
Definition advance (s : Scan) (c : option (InMemoryCollection ())) : result (option Document) * Scan :=
  match c with
  | None => (Ok None, set_position Ended s)
  | Some c =>
      match (p ← (match position s with NotBegun => begin s c | p => Ok p end);
             resume s (omap_get (Coll.documents c)) p) with
      | Ok (found, p) => (Ok found, set_position p s)
      | Throw e => (Throw e, set_position Ended s)
      end
  end.

(** A reference that there is no iterator for is never made; it would have ended. *)
Definition next (reference : nat) : ST World exn (option Document) := λ w,
  match scans w !! reference with
  | None => (Ok None, w)
  | Some s =>
      let (r, s) := advance s (Cat.find_collection (catalog w) (scan_database s) (scan_collection s)) in
      (r, set_scans (<[reference := s]> (scans w)) w)
  end.

(** ** Changes of a collection *)

(** An iterator over the entries of a map that had the keys [before] and has now the
    keys [after]: of what it has not visited, what is still there, and what was added. *)
Definition follow (database collection : jsstring) (before after : list jsstring) (s : Scan) : Scan :=
  match position s with
  | Scanning true keys skipped yielded =>
      if decide (scan_database s = database ∧ scan_collection s = collection)
      then set_position (Scanning true
             (List.filter (λ key, bool_decide (key ∈ keys) || negb (bool_decide (key ∈ before))) after) skipped yielded) s
      else s
  | _ => s
  end.

Definition keys_of (c : Cat.InMemoryCatalog) (database collection : jsstring) : list jsstring :=
  match Cat.find_collection c database collection with
  | Some c => omap_keys (Coll.documents c)
  | None => []
  end.

(** What the catalog does to a collection, and what the iterators over it see. *)
Definition on_collection {A} (database collection : jsstring) (m : ST Cat.InMemoryCatalog ServerError A)
    : ST World ServerError A := λ w,
  let (r, c) := m (catalog w) in
  let before := keys_of (catalog w) database collection in
  let after := keys_of c database collection in
  (r, {| catalog := c; scans := map (follow database collection before after) (scans w) |}).

(** Reading the catalog. *)
Definition on_catalog {A} (f : Cat.InMemoryCatalog → outcome A) : ST World ServerError A := λ w, (f (catalog w), w).
End Scans.
