(* ===== verification/ScanProperties.v ===== *)
(** * Iterators of queries: properties

    An iterator that is asked for its documents one at a time returns what the query
    returns at once, and is a source for a cursor (CursorProperties.v); one that
    commands change the collection of still returns every document that is there all
    the time, once. *)

From S2P Require Import Prelude Errors JsNumber JsString JsValue Binary CustomId Codec Roundtrip Filter FilterSpec Sort IndexSet Planner PlannerSpec Stored Disk Collection CollectionLemmas CollectionQueries CollectionModel Engine ServerErrors Catalog Cursors CursorProperties Scans.
Import Scans.Scans.
Import Collection.Collection(candidates,matching,scan_loop,scan,slice,documents,located_document,find_sort,find_skip,find_limit,validateSkip,validateLimit).
Import Cursors.Cursors(CursorManager,CursorState,cursors,iterator,idleTimeoutMS).

(** ** Running an iterator to its end *)

(** What [get] has of [keys]. *)
Definition entries_at (get : jsstring → option bytes) (keys : list jsstring) : list (jsstring * bytes) :=
  omap (λ key, encoded ← get key; Some (key, encoded)) keys.

(** What an iterator at [p] has still to return. *)
Definition rest_at (s : Scan) (get : jsstring → option bytes) (p : Position) : result (list Document) :=
  match p with
  | NotBegun | Ended => Ok []
  | Sorted documents => Ok documents
  | Scanning _ keys skipped yielded =>
      scan_loop (matches s) (skip s) (limit s) (entries_at get keys) skipped yielded
  end.

(** Where an iterator stands when it is asked. *)
Definition standing (s : Scan) (c : Engine.Engine.InMemoryCollection ()) : result Position :=
  match position s with NotBegun => begin s c | p => Ok p end.

Definition drain (s : Scan) (c : Engine.Engine.InMemoryCollection ()) : result (list Document) :=
  p ← standing s c; rest_at s (omap_get (documents c)) p.

Lemma scan_next_loop m skip limit get keys skipped yielded :
  scan_loop m skip limit (entries_at get keys) skipped yielded =
  match scan_next m skip limit get keys skipped yielded with
  | Throw e => Throw e
  | Ok None => Ok []
  | Ok (Some (d, (keys, skipped, yielded))) =>
      l ← scan_loop m skip limit (entries_at get keys) skipped yielded; Ok (d :: l)
  end.
Proof.
  revert skipped yielded. induction keys as [|key keys IH]; intros skipped yielded; [done|].
  unfold entries_at. cbn [omap list_omap scan_next]. fold (entries_at get keys).
  destruct (get key) as [encoded|]; [|apply IH]. cbn [mbind option_bind scan_loop].
  destruct (match limit with Some limit => _ | None => _ end); [done|].
  destruct (decodeDocument encoded) as [d|e]; [|done]. cbn [mbind res_bind].
  destruct (m d) as [[|]|e]; [| |done]; cbn [mbind res_bind negb]; [|apply IH].
  destruct (skipped <? skip); [apply IH|done].
Qed.

(** An iterator that was asked has begun. *)
Definition begun (s : Scan) : Prop := position s ≠ NotBegun.

Lemma drain_begun s c : begun s → drain s c = rest_at s (omap_get (documents c)) (position s).
Proof. unfold begun, drain, standing. by destruct (position s). Qed.

Lemma rest_at_position s p q get : rest_at (set_position p s) get q = rest_at s get q.
Proof. by destruct q. Qed.

Lemma resume_rest s get p :
  match resume s get p with
  | Ok (None, q) => rest_at s get p = Ok [] ∧ q = Ended
  | Ok (Some d, q) => rest_at s get p = (l ← rest_at s get q; Ok (d :: l)) ∧ q ≠ NotBegun
  | Throw e => rest_at s get p = Throw e
  end.
Proof.
  destruct p as [|live keys skipped yielded|[|d l]|]; [done| |done|done|done]. cbn [resume rest_at].
  rewrite scan_next_loop. destruct (scan_next _ _ _ _ _ _ _) as [[[d [[ks sk] y]]|]|e]; by cbn.
Qed.

(** Asking takes the first document of what is left. *)
Lemma advance_drain s c :
  match advance s (Some c) with
  | (Ok None, s') => drain s c = Ok [] ∧ s' = set_position Ended s
  | (Ok (Some d), s') => begun s' ∧ drain s c = (l ← drain s' c; Ok (d :: l)) ∧ ∃ p, s' = set_position p s
  | (Throw e, s') => drain s c = Throw e
  end.
Proof.
  unfold advance. fold (standing s c).
  assert (∀ p, standing s c = Ok p → drain s c = rest_at s (omap_get (documents c)) p) as Hd by (unfold drain; by intros p ->).
  destruct (standing s c) as [p|e] eqn:Es; [|unfold drain; by rewrite Es]. cbn [mbind res_bind].
  rewrite (Hd p eq_refl). pose proof (resume_rest s (omap_get (documents c)) p) as Hr.
  destruct (resume s _ p) as [[[d|] q]|e]; [| |done].
  - destruct Hr as [Hr Hq]. split; [done|]. split; [|by exists q]. rewrite Hr, drain_begun by done.
    by rewrite rest_at_position.
  - destruct Hr as [Hr ->]. by split.
Qed.

(** ** A source for cursors *)
Definition collection_of (w : World) (s : Scan) : option (Engine.Engine.InMemoryCollection ()) :=
  Cat.find_collection (catalog w) (scan_database s) (scan_collection s).

Definition drain_in (w : World) (s : Scan) : result (list Document) :=
  match collection_of w s with None => Ok [] | Some c => drain s c end.

Definition rest (w : World) (reference : nat) : list Document :=
  match scans w !! reference with
  | Some s => match drain_in w s with Ok l => l | Throw _ => [] end
  | None => []
  end.

(** No iterator would throw. *)
Definition sound (w : World) : Prop := ∀ i s, scans w !! i = Some s → ∃ l, drain_in w s = Ok l.

Lemma next_drain i s w :
  scans w !! i = Some s →
  match next i w with
  | (Ok None, w') => drain_in w s = Ok [] ∧
      ∃ s', w' = set_scans (<[i := s']> (scans w)) w ∧ drain_in w' s' = Ok []
  | (Ok (Some d), w') => ∃ s', w' = set_scans (<[i := s']> (scans w)) w ∧
      drain_in w s = (l ← drain_in w' s'; Ok (d :: l))
  | (Throw e, w') => drain_in w s = Throw e
  end.
Proof.
  intros Hs. unfold next. rewrite Hs. fold (collection_of w s).
  assert (∀ p l, drain_in (set_scans l w) (set_position p s) =
    match collection_of w s with None => Ok [] | Some c => drain (set_position p s) c end) as Hd by done.
  assert (drain_in w s = match collection_of w s with None => Ok [] | Some c => drain s c end) as Hd0 by done.
  destruct (collection_of w s) as [c|].
  - rewrite Hd0. pose proof (advance_drain s c) as Ha. destruct (advance s (Some c)) as [[[d|]|e] s']; [| |done].
    + destruct Ha as (_ & -> & p & ->). exists (set_position p s). split; [done|]. by rewrite Hd.
    + destruct Ha as (-> & ->). split; [done|]. exists (set_position Ended s). split; [done|]. rewrite Hd. by rewrite drain_begun.
  - cbn. split; [done|]. exists (set_position Ended s). split; [done|]. apply Hd.
Qed.

Lemma rest_other i j s w : i ≠ j → rest (set_scans (<[i := s]> (scans w)) w) j = rest w j.
Proof. intros Hij. unfold rest. cbn. by rewrite list_lookup_insert_ne. Qed.

Lemma sound_insert i s l w : sound w → drain_in w s = Ok l → sound (set_scans (<[i := s]> (scans w)) w).
Proof.
  intros Hw Hl j s' Hj. cbn in Hj. destruct (decide (i = j)) as [<-|Hij].
  - destruct (decide (i < length (scans w))%nat) as [Hlt|Hge].
    + rewrite list_lookup_insert_eq in Hj by done. injection Hj as <-. by exists l.
    + rewrite list_insert_ge in Hj by lia. by apply (Hw i).
  - rewrite list_lookup_insert_ne in Hj by done. by apply (Hw j).
Qed.

#[export] Instance scan_source : Source next sound rest.
Proof.
  split.
  - intros i w Hw. destruct (scans w !! i) as [s|] eqn:Es.
    2: { assert (next i w = (Ok None, w)) as -> by (unfold next; by rewrite Es). unfold rest. by rewrite Es. }
    pose proof (next_drain i s w Es) as Hn. destruct (Hw i s Es) as [l Hl].
    assert (∀ s' w', w' = set_scans (<[i := s']> (scans w)) w → rest w' i = match drain_in w' s' with Ok l => l | Throw _ => [] end) as Hr.
    { intros s' w' ->. unfold rest. cbn. by rewrite list_lookup_insert_eq by (by eapply lookup_lt_Some). }
    assert (rest w i = match drain_in w s with Ok l => l | Throw _ => [] end) as -> by (unfold rest; by rewrite Es).
    destruct (next i w) as [[[d|]|e] w']; [| |congruence].
    + destruct Hn as (s' & Hw' & Hd). rewrite (Hr s' w' Hw'). rewrite Hd in Hl |- *.
      destruct (drain_in w' s') as [l'|] eqn:El; [|done]. split; [|done]. subst w'. by eapply sound_insert.
    + destruct Hn as (Hd & s' & Hw' & Hd'). rewrite (Hr s' w' Hw'), Hd, Hd'. split; [|done]. subst w'. by eapply sound_insert.
  - intros i j w Hw Hij. unfold next. destruct (scans w !! i) as [s|] eqn:Es; [|done].
    destruct (advance s _) as [r s']. cbn. by apply rest_other.
Qed.

(** ** Queries *)

(** A collection that satisfies its invariant, whatever its journal. *)
Definition coll_ok (c : Engine.Engine.InMemoryCollection ()) (v : view) : Prop := coll_inv (λ _ _, True) c v.

Record scan_ok (s : Scan) : Prop := {
  scan_compiled : Filter.compileFilter (VDoc (filter s)) = Ok (matches s);
  scan_wf : wf_value (VDoc (filter s)) = true;
}.

Lemma scan_ok_position p s : scan_ok s → scan_ok (set_position p s).
Proof. by intros [H1 H2]. Qed.

Lemma scan_loop_ok m skip limit l skipped yielded :
  Forall (λ kb : jsstring * bytes, ∃ d, decodeDocument kb.2 = Ok d ∧ ∃ b, m d = Ok b) l →
  ∃ r, scan_loop m skip limit l skipped yielded = Ok r.
Proof.
  intros Hl. revert skipped yielded. induction Hl as [|[k b] l (d & Hd & hit & Hm) Hl IH]; intros skipped yielded; [by eexists|].
  cbn [scan_loop]. destruct (match limit with Some limit => _ | None => _ end); [by eexists|]. cbn [snd] in Hd. rewrite Hd.
  cbn [mbind res_bind]. rewrite Hm. cbn [mbind res_bind]. destruct hit; [|apply IH]. cbn [negb]. destruct (skipped <? skip); [apply IH|].
  destruct (IH skipped (yielded + 1)) as [r ->]. by eexists.
Qed.

Section Queries.
Context (s : Scan) (c : Engine.Engine.InMemoryCollection ()) (v : view) (Hs : scan_ok s) (Hc : coll_ok c v).

Lemma scan_matches d : encodable (VDoc d) → matches s d = Ok (matched (matches s) d).
Proof using Hs.
  destruct Hs as [Hm Hw]. intros Hd.
  destruct (compile_spec _ _ _ (compile_doc _ _ Hm) Hw) as (_ & _ & _ & Hdec). by apply Hdec.
Qed.

(** What is read of a collection can be decoded and matched. *)
Lemma entry_readable kb : kb ∈ documents c → ∃ d, decodeDocument kb.2 = Ok d ∧ ∃ b, matches s d = Ok b.
Proof using Hs Hc.
  intros Hin. pose proof (view_entry_ok _ _ _ Hc) as Hv. rewrite (inv_documents _ _ _ Hc) in Hin.
  apply list_elem_of_fmap in Hin as ([k d] & -> & Hin). rewrite Forall_forall in Hv. destruct (Hv _ Hin) as [Hst _].
  exists d. cbn. split; [by apply stored_decode|]. eexists. apply scan_matches. exact (stored_encodable _ _ Hst).
Qed.

Lemma candidates_of :
  ∃ P : jsstring → bool, candidates (filter s) c = Ok (List.filter (λ kb, P kb.1) (image v)) ∧
    ∀ kd, kd ∈ v → matched (matches s) kd.2 = true → P kd.1 = true.
Proof using Hs Hc. destruct Hs as [Hm Hw]. exact (query_candidates _ c v _ _ _ Hc (compile_doc _ _ Hm) Hw). Qed.

Lemma entries_of_candidates (P : jsstring → bool) :
  entries_at (omap_get (documents c)) (omap_keys (List.filter (λ kb, P kb.1) (image v))) = List.filter (λ kb, P kb.1) (image v).
Proof using Hc.
  apply omap_get_keys. intros [k b] [Hin _]%elem_of_filter_bool. cbn. rewrite (inv_documents _ _ _ Hc).
  apply omap_get_in; [|done]. rewrite image_keys. apply Hc.
Qed.

Lemma whole_ok : ∃ b, whole (filter s) c = Ok b.
Proof using Hs.
  unfold whole. destruct (IndexSet.IndexSet.isEmpty _); [by eexists|]. destruct Hs as [Hm Hw].
  destruct (compile_spec _ _ _ (compile_doc _ _ Hm) Hw) as (_ & He & _).
  destruct (planQuery_Ok (filter s) (IndexSet.IndexSet.all (Engine.Engine.Coll.indexes c)) (Collection.Collection.documentCount c) He) as (p & Ep & _).
  unfold Engine.Engine.Coll.plan. rewrite Ep. by eexists.
Qed.

(** An iterator that has not begun returns what the query does at once. *)
Lemma drain_fresh :
  position s = NotBegun → drain s c = scan (filter s) (matches s) (sorter s) (skip s) (limit s) c.
Proof using Hs Hc.
  intros Hp. unfold drain, standing, begin, scan. rewrite Hp. destruct candidates_of as (P & E & _).
  rewrite E. cbn [mbind res_bind]. destruct (sorter s) as [sort|].
  - by destruct (matching (matches s) _).
  - destruct whole_ok as [b ->]. cbn [mbind res_bind rest_at]. by rewrite entries_of_candidates.
Qed.

Lemma matching_ok (P : jsstring → bool) :
  (∀ kd, kd ∈ v → matched (matches s) kd.2 = true → P kd.1 = true) →
  ∃ l, matching (matches s) (List.filter (λ kb, P kb.1) (image v)) = Ok l.
Proof using Hs Hc.
  intros HP. eexists. apply matching_spec; [exact (view_entry_ok _ _ _ Hc)|exact scan_matches|exact HP].
Qed.

Lemma drain_ok : ∃ l, drain s c = Ok l.
Proof using Hs Hc.
  destruct (position s) eqn:Ep.
  - rewrite drain_fresh by done. destruct candidates_of as (P & E & HP). unfold scan. rewrite E. cbn [mbind res_bind].
    destruct (sorter s).
    + destruct (matching_ok P HP) as [found ->]. by eexists.
    + apply scan_loop_ok, Forall_forall. intros kb [Hin _]%elem_of_filter_bool. apply entry_readable.
      by rewrite (inv_documents _ _ _ Hc).
  - rewrite drain_begun by (unfold begun; congruence). rewrite Ep. apply scan_loop_ok, Forall_forall.
    intros kb (key & Hkey & Hkb)%list_elem_of_omap. destruct (omap_get (documents c) key) as [b|] eqn:Eb; [|done].
    injection Hkb as <-. apply entry_readable. by apply omap_get_Some_in.
  - rewrite drain_begun by (unfold begun; congruence). rewrite Ep. by eexists.
  - rewrite drain_begun by (unfold begun; congruence). rewrite Ep. by eexists.
Qed.
End Queries.

(** ** Worlds *)

(** Every collection satisfies its invariant, and every iterator is that of a query. *)
Record world_ok (w : World) : Prop := {
  world_collections : ∀ database collection c,
    Cat.find_collection (catalog w) database collection = Some c → ∃ v, coll_ok c v;
  world_scans : ∀ i s, scans w !! i = Some s → scan_ok s;
}.

Lemma world_sound w : world_ok w → sound w.
Proof.
  intros [Hc Hs] i s Hi. unfold drain_in. destruct (collection_of w s) as [c|] eqn:E; [|by eexists].
  destruct (Hc _ _ _ E) as [v Hv]. by apply (drain_ok s c v); [eapply Hs|].
Qed.

(** The cursors of a session are over iterators that there are. *)
Record session_cursors (w : World) (m : CursorManager nat) : Prop := {
  session_manager : manager_ok sound w m;
  session_iterators : ∀ id state, cursors m !! id = Some state → (iterator state < length (scans w))%nat;
}.

(** *** Opening an iterator *)
Definition sort_of (sort : option (list DocumentValue)) (specification : option Sort.Sort.SortSpecification) : Prop :=
  match sort, specification with
  | None, None => True
  | Some sort, Some specification => mapM sort_entry sort = Ok specification
  | _, _ => False
  end.

Lemma find_opens database collection fields sort options w :
  sort_of sort (find_sort options) → wf_value (VDoc fields) = true →
  match Scans.Scans.find database collection fields sort (find_skip options) (find_limit options) w with
  | (Ok i, w') => ∃ s, i = length (scans w) ∧ w' = set_scans (scans w ++ [s]) w ∧ scan_ok s ∧ position s = NotBegun ∧
      scan_database s = database ∧ scan_collection s = collection ∧
      ∀ c : Engine.Engine.InMemoryCollection (), Collection.Collection.find (VDoc fields) options c =
        scan (filter s) (matches s) (sorter s) (skip s) (limit s) c
  | (Throw e, w') => w' = w ∧
      ∀ c : Engine.Engine.InMemoryCollection (), Collection.Collection.find (VDoc fields) options c = Throw e
  end.
Proof.
  intros Hsort Hw. unfold Scans.Scans.find, Collection.Collection.find, st_lift, st_get, st_update, mbind, st_bind.
  destruct (Filter.compileFilter (VDoc fields)) as [m|e] eqn:Em; [|by split]. cbn [mbind res_bind].
  destruct sort as [l|], (find_sort options) as [sp|]; try done; cbn in Hsort; unfold compileSortValue; rewrite ?Hsort;
    cbn [mbind res_bind]; [destruct (Sort.compileSort sp) as [sort'|e]; [|by split]|]; cbn [mbind res_bind];
    (destruct (validateSkip (find_skip options)) as [sk|e]; [|by split]); cbn [mbind res_bind];
    (destruct (validateLimit (find_limit options)) as [li|e]; [|by split]); cbn [mbind res_bind];
    (eexists; split; [done|]; split; [done|]; by split; [split|]).
Qed.

Section Opened.
Context (w : World) (s : Scan) (Hw : world_ok w) (Hs : scan_ok s).

Abbreviation opened := (set_scans (scans w ++ [s]) w).

Lemma opened_ok : world_ok opened.
Proof using Hw Hs.
  destruct Hw as [H1 H2]. split; [exact H1|]. cbn. intros i s' Hi. apply lookup_app_Some in Hi as [Hi|[_ Hi]]; [by eapply H2|].
  by apply list_lookup_singleton_Some in Hi as [_ <-].
Qed.

Lemma opened_rest i : (i < length (scans w))%nat → rest opened i = rest w i.
Proof using. intros Hi. unfold rest. cbn. by rewrite lookup_app_l. Qed.

Lemma opened_new : rest opened (length (scans w)) = match drain_in w s with Ok l => l | Throw _ => [] end.
Proof using. unfold rest. cbn. by rewrite list_lookup_middle. Qed.

Lemma opened_session m : session_cursors w m → session_cursors opened m ∧ unused (length (scans w)) m.
Proof using Hw Hs.
  intros [[H1 H2 H3 H4] Hi]. split; [split; [split|]; try done|].
  - apply world_sound, opened_ok.
  - intros id st Hst. apply Hi in Hst. cbn. rewrite length_app. lia.
  - intros id st Hst. apply Hi in Hst. lia.
Qed.
End Opened.

(** *** Every document of a query *)

(** A find command that is read to its end through a cursor, in batches of any
    size, returns the documents that the query returns at once, and is refused with
    the error of the query. *)
Lemma find_reads database collection fields sort options size now w m c :
  world_ok w → session_cursors w m → Z.of_nat (base.size (cursors m)) < MAX_SAFE_INTEGER → 0 < idleTimeoutMS m →
  Cat.find_collection (catalog w) database collection = Some c →
  wf_value (VDoc fields) = true → sort_of sort (find_sort options) → valid_size size = true →
  match Collection.Collection.find (VDoc fields) options c with
  | Ok l => ∃ i w', Scans.Scans.find database collection fields sort (find_skip options) (find_limit options) w = (Ok i, w') ∧
      read_all next (length l) i size now w' m = Ok l
  | Throw e => Scans.Scans.find database collection fields sort (find_skip options) (find_limit options) w = (Throw e, w)
  end.
Proof.
  intros Hw Hm Hsize Hidle Hc Hwf Hsort Hv. pose proof (find_opens database collection fields sort options w Hsort Hwf) as Ho.
  destruct (Scans.Scans.find _ _ _ _ _ _ w) as [[i|e] w']; [|destruct Ho as [-> Hf]; by rewrite (Hf c)].
  destruct Ho as (s & -> & -> & Hs & Hp & Hdb & Hcoll & Hf). rewrite (Hf c).
  destruct (world_collections _ Hw _ _ _ Hc) as [v Hv'].
  assert (drain_in w s = scan (filter s) (matches s) (sorter s) (skip s) (limit s) c) as Hd.
  { unfold drain_in, collection_of. rewrite Hdb, Hcoll, Hc. by apply (drain_fresh s c v). }
  pose proof (opened_ok w s Hw Hs) as Hw'. destruct (opened_session w s Hw Hs m Hm) as [Hm' Hu].
  destruct (drain_ok s c v Hs Hv') as [l Hl]. rewrite drain_fresh with (v := v) in Hl by done. rewrite Hl in Hd |- *.
  eexists _, _. split; [done|]. pose proof (opened_new w s) as Hr. rewrite Hd in Hr.
  rewrite <- Hr at 1 2. apply (read_all_spec next sound rest); [apply Hm'|done..].
Qed.
