(* ===== verification/ScanChanges.v ===== *)
(** * Iterators of queries: changes while they are open

    An iterator without a sort is asked for documents while commands change its
    collection in between. *)

From stdpp Require Import gmap.
From S2P Require Import Prelude Errors JsNumber JsString JsValue Binary CustomId Codec Roundtrip Filter FilterSpec Sort IndexSet Planner PlannerSpec Stored Collection CollectionLemmas CollectionQueries CollectionModel CollectionProperties Disk WriteAheadLog Engine EngineReplay EngineCommands EngineLife ServerErrors Cursors CursorProperties Catalog Scans ScanProperties.
Import Scans.Scans.
Import Collection.Collection(documents).

Abbreviation collection := (Engine.Engine.InMemoryCollection ()).

(** The iterator is asked, or a command leaves another state of the collection. *)
Inductive Event := Ask | Change (c : collection).

Definition keys (c : collection) : list jsstring := omap_keys (documents c).

Definition changed (c c' : collection) (s : Scan) : Scan :=
  follow (scan_database s) (scan_collection s) (keys c) (keys c') s.

(** The documents that are returned on the way. *)
Fixpoint watch (s : Scan) (c : collection) (events : list Event) : result (list Document * Scan) :=
  match events with
  | [] => Ok ([], s)
  | Ask :: events =>
      match advance s (Some c) with
      | (Throw e, _) => Throw e
      | (Ok found, s) => '(l, s) ← watch s c events; Ok (option_list found ++ l, s)
      end
  | Change c' :: events => watch (changed c c' s) c' events
  end.

(** The states of the collection on the way. *)
Definition states (c : collection) (events : list Event) : list collection :=
  c :: omap (λ event, match event with Ask => None | Change c => Some c end) events.

(** A document that a collection has under [key]. *)
Definition held (c : collection) (key : jsstring) (x : Document) : Prop :=
  ∃ b, omap_get (documents c) key = Some b ∧ decodeDocument b = Ok x.

Lemma held_key c v key x : coll_ok c v → held c key x → ∃ id, obj_get x (js "_id") = Some (VId id) ∧ key = CustomId.toHexString id.
Proof.
  intros Hc (b & Hb & Hx). rewrite (inv_documents _ _ _ Hc) in Hb. apply omap_get_Some_in in Hb.
  apply list_elem_of_fmap in Hb as ([key' x'] & [= -> ->] & Hin).
  pose proof (view_entry_ok _ _ _ Hc) as Hv. rewrite Forall_forall in Hv. destruct (Hv _ Hin) as [Hst Hid].
  pose proof (eq_trans (eq_sym (stored_decode _ _ Hst)) Hx) as Hd. injection Hd as <-. exact Hid.
Qed.

(** A document is under one key. *)
Lemma held_once c c' v v' key key' x : coll_ok c v → coll_ok c' v' → held c key x → held c' key' x → key = key'.
Proof.
  intros Hc Hc' H1 H2. destruct (held_key c v key x Hc H1) as (i & E & ->).
  destruct (held_key c' v' key' x Hc' H2) as (i' & E' & ->). congruence.
Qed.

(** A step of an iterator, before it is written back. *)
Definition asked (s : Scan) (c : collection) : result (option Document * Position) :=
  p ← standing s c; resume s (omap_get (documents c)) p.

Lemma advance_asked s c :
  advance s (Some c) =
  match asked s c with
  | Ok (found, p) => (Ok found, set_position p s)
  | Throw e => (Throw e, set_position Ended s)
  end.
Proof. done. Qed.

(** *** One document *)
Section Stable.
Context (s0 : Scan) (Hs0 : scan_ok s0) (Hsort : sorter s0 = None) (Hskip : skip s0 = 0) (Hlimit : limit s0 = None).
Context (k : jsstring) (d : Document) (Hd : matched (matches s0) d = true).

(** A state of the collection that has the document. *)
Definition has_document (c : collection) : Prop := (∃ v, coll_ok c v) ∧ held c k d.

Definition wanted (b : bool) (l : list jsstring) : Prop := match b with true => k ∈ l | false => k ∉ l end.

(** The iterator has the document still to return, or has returned it. *)
Definition due (b : bool) (s : Scan) : Prop :=
  (∃ p, s = set_position p s0) ∧
  match position s with
  | NotBegun => b = true
  | Scanning _ keys skipped _ => skipped = 0 ∧ NoDup keys ∧ wanted b keys
  | Sorted _ => False
  | Ended => b = false
  end.

(** [l] has the document once, if it was due and is not any more. *)
Definition once (b b' : bool) (l : list Document) : Prop :=
  match b, b' with
  | true, true => d ∉ l
  | true, false => (∃ l1 l2, l = (l1 ++ d :: l2) ∧ (d ∉ l1) ∧ (d ∉ l2))
  | false, _ => b' = false ∧ d ∉ l
  end.

Lemma once_app b1 b2 b3 l1 l2 : once b1 b2 l1 → once b2 b3 l2 → once b1 b3 (l1 ++ l2).
Proof using.
  clear. unfold once. destruct b1, b2.
  - destruct b3; [by rewrite elem_of_app; intros ? ? []|]. intros H1 (m1 & m2 & -> & H2 & H3). exists (l1 ++ m1), m2.
    rewrite <- app_assoc. split; [done|]. by rewrite elem_of_app; split; [intros []|].
  - intros (m1 & m2 & -> & H1 & H2) [-> H3]. exists m1, (m2 ++ l2). rewrite <- app_assoc. split; [done|].
    by rewrite elem_of_app; split; [|intros []].
  - by intros [? _].
  - intros [_ H1] [-> H2]. by rewrite elem_of_app; split; [|intros []].
Qed.

(** What the loop passes and finds. *)
Lemma scan_next_found m get keys yielded :
  match scan_next m 0 None get keys 0 yielded with
  | Ok None => ∀ key b x, key ∈ keys → get key = Some b → decodeDocument b = Ok x → m x ≠ Ok true
  | Ok (Some (x, (keys', skipped, _))) => ∃ pre key b, keys = pre ++ key :: keys' ∧ skipped = 0 ∧
      get key = Some b ∧ decodeDocument b = Ok x ∧ m x = Ok true ∧
      ∀ key b x, key ∈ pre → get key = Some b → decodeDocument b = Ok x → m x ≠ Ok true
  | Throw _ => True
  end.
Proof using.
  clear. revert yielded. induction keys as [|key keys IH]; intros yielded; cbn [scan_next]; [by intros ? ? ? ?%not_elem_of_nil|].
  assert ((∀ b x, get key = Some b → decodeDocument b = Ok x → m x ≠ Ok true) →
    match scan_next m 0 None get keys 0 yielded with
    | Ok None => ∀ key' b x, key' ∈ key :: keys → get key' = Some b → decodeDocument b = Ok x → m x ≠ Ok true
    | Ok (Some (x, (keys', skipped, _))) => ∃ pre key' b, key :: keys = pre ++ key' :: keys' ∧ skipped = 0 ∧
        get key' = Some b ∧ decodeDocument b = Ok x ∧ m x = Ok true ∧
        ∀ key b x, key ∈ pre → get key = Some b → decodeDocument b = Ok x → m x ≠ Ok true
    | Throw _ => True
    end) as Hpass.
  { intros Hk. specialize (IH yielded). destruct (scan_next m 0 None get keys 0 yielded) as [[[x [[ks sk] y]]|]|e]; [| |done].
    - destruct IH as (pre & key' & b & -> & H2 & H3 & H4 & H5 & H6). exists (key :: pre), key', b.
      split; [done|]. split; [done|]. split; [done|]. split; [done|]. split; [done|].
      intros k' b' x' [->|Hin]%elem_of_cons; [apply Hk|by apply H6].
    - intros k' b' x' [->|Hin]%elem_of_cons; [apply Hk|by apply IH]. }
  destruct (get key) as [b|] eqn:Eb; [|by apply Hpass].
  destruct (decodeDocument b) as [x|e] eqn:Ex; [|done]. cbn [mbind res_bind].
  destruct (m x) as [[|]|e] eqn:Em; [| |done]; cbn [mbind res_bind negb].
  - change (0 <? 0) with false. cbv iota. exists [], key, b. split; [done|]. split; [done|]. split; [done|].
    split; [done|]. split; [done|]. by intros ? ? ? ?%not_elem_of_nil.
  - apply Hpass. intros ? ? [= <-]. rewrite Ex. intros [= <-]. congruence.
Qed.

(** The loop between two documents. *)
Lemma resume_due c v s live ks y b :
  coll_ok c v → held c k d → s = set_position (position s) s0 → NoDup ks → wanted b ks →
  match resume s (omap_get (documents c)) (Scanning live ks 0 y) with
  | Ok (found, p) => ∃ b', due b' (set_position p s) ∧ once b b' (option_list found) ∧
      ∀ x, found = Some x → (∃ key, held c key x) ∧ matched (matches s0) x = true
  | Throw _ => True
  end.
Proof using Hs0 Hsort Hskip Hlimit Hd.
  intros Hc Hk Hs Hn Hb. cbn [resume].
  replace (matches s) with (matches s0) by (by rewrite Hs). replace (skip s) with 0 by (by rewrite Hs).
  replace (limit s) with (@None Z) by (by rewrite Hs).
  assert (∀ p, ∃ q, set_position p s = set_position q s0) as Hp by (intros p; exists p; by rewrite Hs).
  pose proof Hk as (bd & Hbd & Hdd). assert (matches s0 d = Ok true) as Hmd.
  { destruct (entry_readable s0 c v Hs0 Hc (k, bd) (omap_get_Some_in _ _ _ Hbd)) as (d' & Hd' & hit & Hhit). cbn in Hd'.
    unfold matched in Hd. assert (d' = d) as -> by congruence. rewrite Hhit in Hd |- *. by f_equal. }
  pose proof (scan_next_found (matches s0) (omap_get (documents c)) ks y) as Hf.
  destruct (scan_next _ _ _ _ _ _ _) as [[[x [[ks' sk] y']]|]|e]; [| |done]; cbn [mbind res_bind].
  - destruct Hf as (pre & key & bs & -> & -> & Hget & Hdec & Hm & Hpre).
    assert (k ∉ pre) as Hkpre by (intros Hin; by apply (Hpre k bd d Hin Hbd Hdd)).
    assert (held c key x) as Hx by (by exists bs). apply NoDup_app in Hn as (_ & _ & [Hkey Hn]%NoDup_cons).
    assert (∀ x', Some x = Some x' → (∃ key, held c key x') ∧ matched (matches s0) x' = true) as Hfound
      by (intros x' [= <-]; split; [by exists key|unfold matched; by rewrite Hm]).
    destruct (decide (key = k)) as [->|Hne].
    + assert (x = d) as -> by congruence. assert (b = true) as -> by (destruct b; [done|]; destruct Hb; set_solver).
      exists false. split; [split; [done|]; by split|]. split; [|done]. exists [], []. by split; [|split; apply not_elem_of_nil].
    + exists b. split; [split; [done|]; split; [done|]; split; [done|]|].
      { cbn. destruct b; set_solver. }
      assert (d ∉ option_list (Some x)) as Hnx.
      { cbn. intros ->%list_elem_of_singleton. by apply Hne, (held_once c c v v key k x). }
      split; [|done]. by destruct b; cbn.
  - destruct b; [by destruct (Hf k bd d Hb Hbd Hdd)|]. exists false. split; [by split|]. split; [|done].
    split; [done|]. apply not_elem_of_nil.
Qed.

(** What a document that an iterator returns is. *)
Definition good_find (c : collection) (found : option Document) : Prop :=
  ∀ x, found = Some x → (∃ key, held c key x) ∧ matched (matches s0) x = true.

Lemma asked_due c v s b :
  coll_ok c v → held c k d → due b s →
  match asked s c with
  | Ok (found, p) => ∃ b', due b' (set_position p s) ∧ once b b' (option_list found) ∧ good_find c found
  | Throw _ => True
  end.
Proof using Hs0 Hsort Hskip Hlimit Hd.
  intros Hc Hk [[p Hp] Hb]. assert (s = set_position (position s) s0) as Hps by (by rewrite Hp).
  assert (scan_ok s) as Hs by (rewrite Hp; by apply scan_ok_position).
  assert (∀ live ks y, NoDup ks → wanted b ks → standing s c = Ok (Scanning live ks 0 y) →
    match asked s c with
    | Ok (found, q) => ∃ b', due b' (set_position q s) ∧ once b b' (option_list found) ∧ good_find c found
    | Throw _ => True
    end) as Hscan.
  { intros live ks y Hn Hw Est. unfold asked. rewrite Est. cbn [mbind res_bind]. by apply (resume_due c v). }
  destruct (position s) as [|live ks sk y|l|] eqn:Ep.
  - subst b. destruct (candidates_of s c v Hs Hc) as (P & E & HP). destruct (whole_ok s c Hs) as [live Hlive].
    pose proof (inv_view _ _ _ Hc) as [Hn Hv]. destruct Hk as (bd & Hbd & Hdd).
    apply (Hscan live (omap_keys (List.filter (λ kb, P kb.1) (image v))) 0).
    + unfold omap_keys. rewrite <- filter_map. apply filter_NoDup. change (map fst (image v)) with (omap_keys (image v)).
      by rewrite image_keys.
    + unfold wanted, omap_keys. rewrite <- filter_map. apply elem_of_filter_bool.
      rewrite (inv_documents _ _ _ Hc) in Hbd. apply omap_get_Some_in, list_elem_of_fmap in Hbd as ([k' d'] & E' & Hin).
      injection E' as E1 ->. rewrite <- E1 in Hin. clear k' E1. rewrite Forall_forall in Hv. destruct (Hv _ Hin) as [Hst _].
      pose proof (eq_trans (eq_sym (stored_decode _ _ Hst)) Hdd) as Hdd'. injection Hdd' as ->. split; [|apply (HP (k, d)); [done|by rewrite Hps]].
      change (map fst (image v)) with (omap_keys (image v)). rewrite image_keys. by apply (list_elem_of_fmap_2 fst) in Hin.
    + unfold standing, begin. rewrite Ep, E. replace (sorter s) with (sorter s0) by (by rewrite Hp). rewrite Hsort. cbn [mbind res_bind].
      by rewrite Hlive.
  - destruct Hb as (-> & Hn & Hw). apply (Hscan live ks y); [done|done|]. unfold standing. by rewrite Ep.
  - done.
  - subst b. unfold asked, standing. rewrite Ep. cbn. exists false. split; [split; [by exists Ended; rewrite Hp|done]|].
    split; [split; [done|apply not_elem_of_nil]|done].
Qed.

Lemma ask_due c s b :
  has_document c → due b s →
  match advance s (Some c) with
  | (Ok found, s') => ∃ b', due b' s' ∧ once b b' (option_list found) ∧ good_find c found
  | (Throw _, _) => False
  end.
Proof using Hs0 Hsort Hskip Hlimit Hd.
  intros [[v Hc] Hk] Hb. pose proof (asked_due c v s b Hc Hk Hb) as Ha.
  assert (scan_ok s) as Hs by (destruct Hb as [[p ->] _]; by apply scan_ok_position).
  pose proof (advance_drain s c) as Hr. destruct (drain_ok s c v Hs Hc) as [all Hall].
  rewrite advance_asked in *. destruct (asked s c) as [[found p]|e]; [exact Ha|]. congruence.
Qed.

Lemma change_due c c' s b : has_document c → has_document c' → due b s → due b (changed c c' s).
Proof using.
  intros [_ (bd & Hk & _)] [[v' Hc'] (bd' & Hk' & _)] [[p Hp] Hb]. unfold changed, follow.
  destruct (position s) as [|[|] ks sk y|l|] eqn:Ep; try (split; [by exists p|by rewrite Ep]).
  rewrite decide_True by done. split; [eexists; rewrite Hp; done|]. destruct Hb as (-> & Hn & Hw). split; [done|].
  assert (k ∈ keys c) as Hin by (unfold keys; apply omap_get_Some_in in Hk; by apply (list_elem_of_fmap_2 fst) in Hk).
  assert (k ∈ keys c') as Hin' by (unfold keys; apply omap_get_Some_in in Hk'; by apply (list_elem_of_fmap_2 fst) in Hk').
  split.
  - apply filter_NoDup. unfold keys. rewrite (inv_documents _ _ _ Hc'), image_keys. apply Hc'.
  - unfold wanted in *. destruct b; rewrite elem_of_filter_bool, orb_true_iff, negb_true_iff, bool_decide_eq_true, bool_decide_eq_false;
      naive_solver.
Qed.

Lemma watch_due events c s b :
  Forall has_document (states c events) → due b s →
  ∃ b' l s', watch s c events = Ok (l, s') ∧ due b' s' ∧ once b b' l ∧
    ∀ x, x ∈ l → matched (matches s0) x = true ∧ ∃ c' key, c' ∈ states c events ∧ held c' key x.
Proof using Hs0 Hsort Hskip Hlimit Hd.
  revert c s b. induction events as [|[|c'] events IH]; intros c s b Hst Hb; cbn [watch].
  - exists b, [], s. split; [done|]. split; [done|]. split; [|by intros x ?%not_elem_of_nil].
    unfold once. destruct b; [|split; [done|]]; apply not_elem_of_nil.
  - pose proof Hst as [Hc _]%Forall_cons. pose proof (ask_due c s b Hc Hb) as Ha.
    destruct (advance s (Some c)) as [[found|e] s1]; [|done]. destruct Ha as (b1 & Hb1 & Ho1 & Hg).
    destruct (IH c s1 b1 Hst Hb1) as (b' & l & s' & -> & Hb' & Ho & Hall). cbn.
    exists b', (option_list found ++ l), s'. split; [done|]. split; [done|]. split; [by eapply once_app|].
    intros x [Hx|Hx]%elem_of_app; [|by apply Hall]. destruct found as [y|]; [|by apply not_elem_of_nil in Hx].
    apply list_elem_of_singleton in Hx as ->. destruct (Hg y eq_refl) as [[key Hy] Hm]. split; [done|].
    exists c, key. split; [left|done].
  - pose proof Hst as [Hc Hst']%Forall_cons. pose proof Hst' as [Hc' _]%Forall_cons.
    destruct (IH c' _ b Hst' (change_due c c' s b Hc Hc' Hb)) as (b' & l & s' & -> & Hb' & Ho & Hall).
    exists b', l, s'. split; [done|]. split; [done|]. split; [done|]. intros x Hx.
    destruct (Hall x Hx) as (Hm & c1 & key & Hin & Hy). split; [done|]. exists c1, key. split; [by right|done].
Qed.
End Stable.

(** C26: While commands change a collection, an iterator over it returns every
    document that matches and stays as it is, once, by the time it ends, and never
    throws; whatever it returns matches and was in the collection at some time. *)
Theorem scan_watches s c k d events :
  scan_ok s → position s = NotBegun → sorter s = None → skip s = 0 → limit s = None →
  matched (matches s) d = true → Forall (has_document k d) (states c events) →
  ∃ l s', watch s c events = Ok (l, s') ∧
    (position s' = Ended → ∃ l1 l2, l = (l1 ++ d :: l2) ∧ (d ∉ l1) ∧ (d ∉ l2)) ∧
    ∀ x, x ∈ l → matched (matches s) x = true ∧ ∃ c' key, c' ∈ states c events ∧ held c' key x.
Proof.
  intros Hs Hp Hsort Hskip Hlimit Hd Hst.
  destruct (watch_due s Hs Hsort Hskip Hlimit k d Hd events c s true Hst) as (b & l & s' & E & [_ Hb] & Ho & Hall).
  { split; [exists NotBegun; rewrite <- Hp; by destruct s|]. by rewrite Hp. }
  exists l, s'. split; [done|]. split; [|done]. intros He. rewrite He in Hb. by subst b.
Qed.

(** * Iterators of queries: on a small collection *)
Import Scans.Scans.
Import Cursors.Cursors(cursors).
Import Collection.Collection(documents).

(** The collection of EngineLife.v after [n] commands. *)
Definition items (n : nat) : option collection :=
  match sample_engine n with Some e => Engine.Engine.getCollection e (js "shop") (js "items") | None => None end.

Lemma items_ok n c : items n = Some c → ∃ v, coll_ok c v.
Proof.
  unfold items. pose proof (sample_reached n) as Hr. destruct (sample_engine n) as [e|]; [|done]. destruct Hr as (states & Hr).
  destruct (reached_ok _ _ _ _ quiet_cleans Hr) as (H & Hok & _). apply (ok_collections _ _ Hok).
Qed.

Definition sample_world (n : nat) : option World :=
  match sample_engine n with Some e => Some {| catalog := Cat.new (Some e); scans := [] |} | None => None end.

Lemma sample_world_ok n : match sample_world n with Some w => world_ok w | None => False end.
Proof.
  unfold sample_world. pose proof (sample_reached n) as Hr. destruct (sample_engine n) as [e|]; [|done]. destruct Hr as (states & Hr).
  destruct (reached_ok _ _ _ _ quiet_cleans Hr) as (H & Hok & _). split; [exact (ok_collections _ _ Hok)|done].
Qed.

Definition sample_cursors : Cursors.Cursors.CursorManager nat :=
  {| Cursors.Cursors.cursors := ∅; Cursors.Cursors.nextCursorId := 1;
     Cursors.Cursors.idleTimeoutMS := Cursors.Cursors.DEFAULT_CURSOR_IDLE_TIMEOUT_MS;
     Cursors.Cursors.maxBatchBytes := Cursors.Cursors.DEFAULT_CURSOR_BATCH_BYTES |}.

Lemma sample_session w : world_ok w → session_cursors w sample_cursors.
Proof.
  intros Hw. split; [split; [by apply world_sound|cbn; unfold MAX_SAFE_INTEGER; lia|..]|]; cbn; intros id st; by rewrite lookup_empty.
Qed.

(** An iterator over all documents. *)
Definition sample_matches : CompiledFilter :=
  match Filter.Filter.compileFilter (VDoc []) with Ok m => m | Throw e => λ _, Throw e end.

Definition sample_scan : Scan := {|
  scan_database := js "shop"; scan_collection := js "items"; filter := []; matches := sample_matches;
  sorter := None; skip := 0; limit := None; position := NotBegun |}.

Lemma sample_scan_ok : scan_ok sample_scan.
Proof.
  split; [|done]. assert (match Filter.Filter.compileFilter (VDoc []) with Ok _ => True | Throw _ => False end) as H by (vm_compute; exact I).
  cbn [filter matches sample_scan]. unfold sample_matches. by destruct (Filter.Filter.compileFilter (VDoc [])).
Qed.

Definition first_key : jsstring := CustomId.toHexString (repeat 1 16).
Definition first_document : Document := [(js "_id", VId (repeat 1 16)); (js "n", sample_number 1)].

Definition has_first (n : nat) : Prop :=
  match items n with
  | Some c => match omap_get (documents c) first_key with Some b => decodeDocument b = Ok first_document | None => False end
  | None => False
  end.

(** Documents come in batches of one. *)
Lemma find_reads_witness :
  match sample_world 9 with
  | Some w => ∃ i w' l, Scans.Scans.find (js "shop") (js "items") [] None None None w = (Ok i, w') ∧
      read_all next (length l) i (Some (number_of_Z 1)) 7 w' sample_cursors = Ok l ∧ length l = 4%nat
  | None => False
  end.
Proof.
  set (options := {| Collection.Collection.find_sort := None; Collection.Collection.find_skip := None;
                     Collection.Collection.find_limit := None |}).
  assert (match items 9 with Some c => match Collection.Collection.find (VDoc []) options c with Ok l => length l = 4%nat | Throw _ => False end | None => False end)
    as Hl by (vm_compute; reflexivity).
  pose proof (sample_world_ok 9) as Hw. unfold sample_world, items in *. destruct (sample_engine 9) as [e|]; [|exact Hw].
  destruct (Engine.Engine.getCollection e (js "shop") (js "items")) as [c|] eqn:Ec; [|destruct Hl].
  pose proof (find_reads (js "shop") (js "items") [] None options (Some (number_of_Z 1)) 7
    {| catalog := Cat.new (Some e); scans := [] |} sample_cursors c Hw (sample_session _ Hw) eq_refl eq_refl Ec eq_refl I eq_refl) as Hf.
  destruct (Collection.Collection.find (VDoc []) options c) as [l|x]; [|destruct Hl].
  destruct Hf as (i & w' & E1 & E2). exists i, w', l. split; [exact E1|]. split; [exact E2|exact Hl].
Defined.

(** Two documents are inserted while an iterator is open. *)
Lemma scan_watches_witness :
  match items 5, items 9 with
  | Some c, Some c' => ∃ l s', watch sample_scan c [Ask; Change c'; Ask; Ask; Ask; Ask] = Ok (l, s') ∧ position s' = Ended ∧
      length l = 4%nat ∧ ∃ l1 l2, l = (l1 ++ first_document :: l2) ∧ (first_document ∉ l1) ∧ (first_document ∉ l2)
  | _, _ => False
  end.
Proof.
  assert (has_first 5) as H5 by (vm_compute; reflexivity). assert (has_first 9) as H9 by (vm_compute; reflexivity).
  assert (match items 5, items 9 with
    | Some c, Some c' => match watch sample_scan c [Ask; Change c'; Ask; Ask; Ask; Ask] with
                         | Ok (l, s') => position s' = Ended ∧ length l = 4%nat | Throw _ => False end
    | _, _ => False end) as Hl by (vm_compute; split; reflexivity).
  assert (matched sample_matches first_document = true) as Hm by (vm_compute; reflexivity).
  unfold has_first in *. pose proof (items_ok 5) as G5. pose proof (items_ok 9) as G9.
  destruct (items 5) as [c|]; [|exact H5]. destruct (items 9) as [c'|]; [|exact H9].
  assert (∀ x, match omap_get (documents x) first_key with Some b => decodeDocument b = Ok first_document | None => False end →
    held x first_key first_document) as Hh.
  { intros x Hx. unfold held. destruct (omap_get (documents x) first_key) as [b|]; [by exists b|done]. }
  pose proof (scan_watches sample_scan c first_key first_document [Ask; Change c'; Ask; Ask; Ask; Ask] sample_scan_ok eq_refl eq_refl eq_refl eq_refl Hm) as Hw.
  destruct Hw as (l & s' & E & Hend & _).
  { repeat constructor; [exact (G5 c eq_refl)|exact (Hh c H5)|exact (G9 c' eq_refl)|exact (Hh c' H9)]. }
  rewrite E in Hl. destruct Hl as [He Hlen]. exists l, s'. split; [exact E|]. split; [exact He|]. split; [exact Hlen|exact (Hend He)].
Defined.
