(* ===== verification/CatalogProperties.v ===== *)
(** * The catalog: properties

    What a command on the catalog keeps, in memory and in a storage engine: its
    collections satisfy their invariant, and an engine is one that can be reached
    (EngineLife.v). What it throws is an error of the catalog or of the storage
    package. *)

From stdpp Require Import gmap.
From S2P Require Import Prelude Errors JsNumber JsString JsValue Binary CustomId Codec Roundtrip Filter FilterSpec Update FieldIndex IndexSpec IndexLemmas IndexSet IndexSetSpec Planner PlannerSpec IndexValidation Stored Disk WriteAheadLog WalOperations Collection CollectionLemmas CollectionQueries CollectionChanges CollectionSpec CollectionUpdates CollectionIndexes CollectionModel Triples Engine EngineReplay EngineInvariant EngineCommands EngineLife EngineErrors ServerErrors Catalog ScanProperties.
Import Catalog.Catalog.
Import Engine.Engine.Coll(documentCount,matchedCount,modifiedCount).
Abbreviation InMemoryCollection := (Engine.Engine.InMemoryCollection ()).

(** ** Answers *)

(** The answer to a command, by its kind, on a collection of [n] documents. *)
Definition answered (n : Z) (command : Command) (answer : Answer) : Prop :=
  match command, answer with
  | InsertOne _ _, Inserted [_] => True
  | InsertMany (Some documents), Inserted ids => len ids = len documents
  | DeleteOne _, Deleted k | DeleteMany _, Deleted k => 0 ≤ k ≤ n
  | ReplaceOne _ _ _ _, Updated r | UpdateOne _ _ _ _, Updated r | UpdateMany _ _ _ _, Updated r =>
      0 ≤ modifiedCount r ≤ matchedCount r ∧ matchedCount r ≤ n
  | CreateIndex _, Indexed _ _ | DropIndex _, Dropped => True
  | _, _ => False
  end.

Lemma selected_len m (v : CollectionLemmas.view) : 0 ≤ len (selected m v) ≤ len v.
Proof. pose proof (len_nonneg (selected m v)). pose proof (List.filter_length_le (λ kd, matched m kd.2) v). unfold selected, len in *. lia. Qed.

Lemma selected_some m (v : CollectionLemmas.view) kd : head (selected m v) = Some kd → 1 ≤ len v.
Proof. pose proof (selected_len m v) as H. destruct (selected m v); [done|]. intros _. unfold len in *. cbn in H. lia. Qed.

(** Only documents that match are changed. *)
Lemma modified_len apply m (v : CollectionLemmas.view) : 0 ≤ len (List.filter (modified apply m) v) ≤ len (selected m v).
Proof.
  split; [apply len_nonneg|]. unfold selected, len. apply inj_le. induction v as [|kd v IH]; [done|]. cbn [List.filter].
  destruct (modified apply m kd) eqn:E; [|destruct (matched m kd.2); cbn; lia].
  unfold modified, rewrite_entry in E. destruct (matched m kd.2); [cbn; lia|].
  by rewrite bool_decide_true in E.
Qed.

Lemma upserts_counts fields apply generated v b r v' : upserts fields apply generated v b r v' → matchedCount r = 0 ∧ modifiedCount r = 0.
Proof. by destruct 1. Qed.

Lemma accepts_answered v l command answer m : accepts v l command answer m → answered (len v) command answer.
Proof.
  pose proof (len_nonneg v) as Hn. pose proof (λ m, selected_len m v) as Hs.
  destruct 1; cbn [answered matchedCount modifiedCount matched_result]; try done;
    repeat match goal with
    | H : head (selected _ v) = Some _ |- _ => apply selected_some in H
    | H : upserts _ _ _ _ _ _ _ |- _ => apply upserts_counts in H as [-> ->]
    end; try lia; try apply Hs.
  - match goal with H : Forall2 _ _ _ |- _ => apply Forall2_length in H; unfold len; rewrite length_map; congruence end.
  - match goal with |- context [head (selected ?f v)] => destruct (head (selected f v)) eqn:E; [apply selected_some in E; lia|lia] end.
  - match goal with |- context [if ?b then _ else _] => destruct b; lia end.
  - match goal with |- context [modified ?apply ?f] => pose proof (modified_len apply f v); pose proof (Hs f); lia end.
Qed.

(** What the server throws when the storage package does. *)
Definition storage_error (e : ServerError) : Prop := ∃ x, e = StorageFailure x ∧ storage_failure x.

(** What a catalog throws. *)
Definition catalog_error (e : ServerError) : Prop :=
  match e with CatalogError _ _ => True | _ => storage_error e end.

(** A collection that has no journal. *)
#[export] Instance memory_laws : JournalLaws (J := ()) None (λ _ _, True) (λ _ _ _, True).
Proof. by split. Qed.

(** *** Reading a collection *)
Section Reading.
Context (c : InMemoryCollection) (v : CollectionLemmas.view) (Hc : coll_ok c v).

Lemma count_view : documentCount c = len v.
Proof using Hc. unfold documentCount. rewrite (inv_documents _ _ _ Hc). unfold image, len. by rewrite length_map. Qed.

Lemma filter_throws filter e : Filter.compileFilter filter = Throw e → storage_failure e.
Proof using. intros H. pose proof (compileFilter_yields filter) as Hy. rewrite H in Hy. destruct Hy as [-> _]. by eexists. Qed.

Lemma explain_throws filter e : wf_value filter = true → Engine.Engine.Coll.explain filter c = Throw e → storage_failure e.
Proof using Hc.
  intros Hw. unfold Engine.Engine.Coll.explain. destruct (Filter.compileFilter filter) as [m|x] eqn:Em.
  2: { intros [= <-]. by eapply filter_throws. }
  cbn [mbind res_bind]. destruct filter as [| | | | | | | | |fields]; try done.
  destruct (compile_spec _ _ _ (compile_doc _ _ Em) Hw) as (_ & He & _).
  destruct (planQuery_Ok fields (IndexSet.IndexSet.all (Engine.Engine.Coll.indexes c)) (documentCount c) He) as (p & Ep & _).
  unfold Engine.Engine.Coll.plan. by rewrite Ep.
Qed.

(** The indexes of a collection are found to be in order. *)
Lemma validate_returns : Engine.Engine.Coll.validateIndexes c = Ok {|
  Engine.Engine.Coll.valid := true; Engine.Engine.Coll.report_indexes := len (IndexSet.IndexSet.all (Engine.Engine.Coll.indexes c));
  Engine.Engine.Coll.report_documents := documentCount c; Engine.Engine.Coll.issues := [] |}.
Proof using Hc.
  unfold Engine.Engine.Coll.validateIndexes. rewrite (decodedEntries_view _ _ _ Hc).
  destruct Hc as [_ [Hn _] [Hset _] _ _]. by rewrite (healthy_set _ v Hset Hn).
Qed.

Lemma findOne_throws filter e : wf_value filter = true → Engine.Engine.Coll.findOne filter c = Throw e → storage_failure e.
Proof using Hc.
  intros Hw. rewrite (findOne_spec _ c v filter Hc Hw). unfold findOne_reference.
  destruct (Filter.compileFilter filter) as [m|x] eqn:Em; [discriminate|]. intros [= <-]. by eapply filter_throws.
Qed.

(** A document that is found has an id. *)
Lemma findOne_member filter d :
  wf_value filter = true → Engine.Engine.Coll.findOne filter c = Ok (Some d) → ∃ i, obj_get d (js "_id") = Some (VId i).
Proof using Hc.
  intros Hw. rewrite (findOne_spec _ c v filter Hc Hw). unfold findOne_reference.
  destruct (Filter.compileFilter filter) as [m|x]; [|discriminate]. intros [= Hd].
  assert (d ∈ map snd v) as Hin.
  { assert (d ∈ List.filter (matched m) (map snd v)) as H by (destruct (List.filter _ _); [done|injection Hd as ->; by left]).
    apply list_elem_of_In, filter_In in H as [H _]. by apply list_elem_of_In. }
  apply list_elem_of_fmap in Hin as ([k d'] & -> & Hin). pose proof (view_entry_ok _ _ _ Hc) as Hv. rewrite Forall_forall in Hv.
  destruct (Hv _ Hin) as (_ & i & Hi & _). by exists i.
Qed.
End Reading.

(** ** Catalogs *)
Section Catalogs.
Context (osL osC : Z → Call → Outcome) (os_cleans : cleans osL).

(** The engine of the catalog has been through [states] and more. *)
Definition catalog_ok (states : list State) (c : InMemoryCatalog) : Prop :=
  match engine c with
  | Some e => ∃ more, reached osL osC (states ++ more) e
  | None => ∀ database collection x, Engine.Engine.lookup (databases c) database collection = Some x → ∃ v, coll_ok x v
  end.

Lemma catalog_collections states c database collection x :
  catalog_ok states c → find_collection c database collection = Some x → ∃ v, coll_ok x v.
Proof using os_cleans.
  unfold catalog_ok, find_collection. destruct (engine c) as [e|]; [|intros H; apply H].
  intros (more & Hr) Hx. destruct (reached_ok _ _ _ _ os_cleans Hr) as (H & Hok & _). exact (ok_collections _ _ Hok _ _ _ Hx).
Qed.

(** The engine after a command of its own. *)
Lemma reached_more states e command :
  (∃ more, reached osL osC (states ++ more) e) → command_ok e command →
  ∃ more, reached osL osC (states ++ more) (exec osL osC command e).2.
Proof using. intros (more & Hr) Hc. eexists. rewrite app_assoc. by apply reached_exec. Qed.

Lemma catalog_run states c database collection x command :
  catalog_ok states c → find_collection c database collection = Some x → admissible (documentCount x) command →
  fits_command command → (makes_index command = true → ∀ e, engine c = Some e → not_due e) →
  let (r, c') := run osL osC database collection command c in
  catalog_ok states c' ∧
  match r with
  | Ok a => ∃ x' v v', find_collection c' database collection = Some x' ∧ coll_ok x v ∧ coll_ok x' v' ∧
      accepts v (IndexSet.IndexSet.specs (Engine.Engine.Coll.indexes x)) command a (v', IndexSet.IndexSet.specs (Engine.Engine.Coll.indexes x'))
  | Throw e => storage_error e
  end.
Proof using os_cleans.
  intros Hok Hx Ha Hf Hi. destruct (catalog_collections _ _ _ _ _ Hok Hx) as [v0 Hv0].
  unfold catalog_ok, find_collection, run in *. destruct (engine c) as [e|] eqn:Ee.
  - assert (command_ok e (OnCollection database collection command)) as Hcmd by (cbn; rewrite Hx; auto).
    pose proof (reached_more states e _ Hok Hcmd) as Hr. destruct Hok as (more & Hre).
    destruct (reached_ok _ _ _ _ os_cleans Hre) as (H & Hok & _).
    pose proof (run_ok osL osC os_cleans H e database collection x command Hok Hx Ha (λ E, Hi E e eq_refl)) as Ho.
    unfold on_engine. cbn [exec] in Hr. unfold mbind, st_bind in Hr.
    destruct (Engine.Engine.run osL osC database collection command e) as [[a|y] e'];
      destruct Ho as (ts & c' & v & v' & _ & _ & Ed & Hv & Hv' & Ho); (split; [exact Hr|]).
    + exists c', v, v'. cbn [engine]. unfold Engine.Engine.getCollection. by rewrite Ed, lookup_insert.
    + exists y. split; [done|]. eapply rejects_storage; [| |exact Ha|exact Hf|exact Ho].
      * intros z. apply journal_failure. by eapply ok_fd.
      * exact (view_entry_ok _ _ _ Hv).
  - rewrite Hx. rewrite (count_view x v0 Hv0) in Ha.
    destruct (run_refines None (λ _ _, True) x v0 command Hv0 Ha (λ _ _, I)) as (v' & Hv' & Ho).
    destruct (CollectionModel.run None command x) as [[a|y] x']; cbn [fst snd] in *; cbn [engine set_databases databases]; rewrite Ee;
      (split; [intros db coll z; destruct (decide ((database, collection) = (db, coll))) as [[= <- <-]|Hne];
        [rewrite lookup_insert; intros [= <-]; by exists v'|rewrite lookup_insert_ne by done; apply Hok]|]).
    + exists x', v0, v'. by rewrite lookup_insert.
    + exists y. split; [done|]. eapply rejects_storage; [| |exact Ha|exact Hf|exact Ho].
      * intros z (j & ops & s' & E & _). done.
      * exact (view_entry_ok _ _ _ Hv0).
Qed.

(** *** Names *)
Lemma validateName_throws name kind code e : validateName name kind code = Throw e → catalog_error e.
Proof using. unfold validateName. repeat case_match; try discriminate; by intros [= <-]. Qed.

(** A new collection. *)
Lemma empty_ok : coll_ok empty_collection [] ∧ documentCount empty_collection = 0.
Proof using.
  assert (view_ok []) as Hv by (by split; constructor). assert (specs_ok []) as Hs by (by split; [constructor|constructor|]).
  destruct (new_outcome () [] [] Hv ltac:(done) Hs ltac:(constructor)) as (x & E & Hm & _ & Ec).
  change (image []) with (@nil (jsstring * bytes)) in E. unfold empty_collection, Engine.Engine.Coll.new.
  unfold Collection.Collection.new in E. rewrite E. cbn [snd]. split; [exact Hm|].
  unfold documentCount. injection Ec as -> _. done.
Qed.

(** What opening a collection does: it is there, as it was or empty. *)
Definition opened_in (c c' : InMemoryCatalog) (database collection : jsstring) : Prop :=
  ∃ x, find_collection c' database collection = Some x ∧
    (find_collection c database collection = Some x ∧ c' = c ∨ find_collection c database collection = None ∧ documentCount x = 0).

Lemma engine_opens states c e database collection :
  catalog_ok states c → engine c = Some e → plain database → plain collection →
  let (r, c') := on_engine e (Engine.Engine.openCollection osL osC database collection) c in
  catalog_ok states c' ∧ match r with Ok _ => opened_in c c' database collection | Throw x => storage_error x end ∧
  c' = {| databases := databases c; engine := Some (Engine.Engine.openCollection osL osC database collection e).2 |}.
Proof using os_cleans.
  intros Hok Ee Hdb Hcoll. unfold catalog_ok in *. rewrite Ee in Hok.
  pose proof (reached_more states e (OpenCollection database collection) Hok (conj Hdb Hcoll)) as Hr. cbn [exec] in Hr.
  destruct Hok as (more & Hre). destruct (reached_ok _ _ _ _ os_cleans Hre) as (H & Hok & _).
  pose proof (openCollection_ok osL osC os_cleans H e database collection Hok Hdb Hcoll) as Ho.
  unfold on_engine. destruct (Engine.Engine.openCollection osL osC database collection e) as [[u|y] e'] eqn:Eo; (split; [exact Hr|split; [|done]]).
  - destruct Ho as (ts & _ & _ & Ho). unfold opened_in, find_collection. rewrite Ee. cbn [engine].
    destruct (Engine.Engine.getCollection e database collection) as [x|] eqn:Eg.
    + destruct Ho as [-> _]. exists x. split; [done|]. left. split; [done|]. destruct c. cbn in *. by rewrite Ee.
    + destruct Ho as (x & Ec & Ed). exists x. split; [unfold Engine.Engine.getCollection; by rewrite Ed, lookup_insert|]. right. split; [done|].
      unfold documentCount. injection Ec as -> _. done.
  - exists y. split; [done|]. eapply openCollection_failure; [by eapply ok_fd|exact Eo].
Qed.

Lemma memory_opens states c database collection :
  catalog_ok states c → engine c = None → find_collection c database collection = None →
  catalog_ok states (set_databases (Engine.Engine.insert (databases c) database collection empty_collection) c) ∧
  opened_in c (set_databases (Engine.Engine.insert (databases c) database collection empty_collection) c) database collection.
Proof using.
  intros Hok Ee Hf. unfold opened_in. rewrite Hf. revert Hok. unfold catalog_ok, find_collection. intros Hok. cbn [engine set_databases databases]. rewrite Ee in *. split.
  - intros db coll z. destruct (decide ((database, collection) = (db, coll))) as [[= <- <-]|Hne].
    + rewrite lookup_insert. intros [= <-]. exists []. apply empty_ok.
    + rewrite lookup_insert_ne by done. apply Hok.
  - exists empty_collection. rewrite lookup_insert. split; [done|]. right. split; [done|]. apply empty_ok.
Qed.

Lemma catalog_opens states c database collection :
  catalog_ok states c → plain database → plain collection →
  let (r, c') := getOrCreateCollection osL osC database collection c in
  catalog_ok states c' ∧
  match r with
  | Ok _ => opened_in c c' database collection ∧
      ∀ e', engine c' = Some e' → ∃ e, engine c = Some e ∧ e' = (Engine.Engine.openCollection osL osC database collection e).2
  | Throw e => catalog_error e
  end.
Proof using os_cleans.
  intros Hok Hdb Hcoll. unfold getOrCreateCollection, st_lift, st_get, st_update, mbind, st_bind.
  destruct (validateDatabaseName database) as [u|x] eqn:E1; [|split; [done|by eapply validateName_throws]].
  destruct (validateCollectionName collection) as [u'|x] eqn:E2; [|split; [done|by eapply validateName_throws]].
  destruct (engine c) as [e|] eqn:Ee.
  - pose proof (engine_opens states c e database collection Hok Ee Hdb Hcoll) as Ho.
    destruct (on_engine e _ c) as [[v|x] c']; destruct Ho as (H1 & H2 & ->); (split; [done|]).
    + split; [done|]. intros e' [= <-]. by exists e.
    + destruct H2 as (y & -> & Hy). by exists y.
  - destruct (Engine.Engine.lookup (databases c) database collection) as [x|] eqn:El.
    + split; [done|]. split; [exists x; unfold find_collection; rewrite Ee; by auto|]. intros e'. by rewrite Ee.
    + destruct (memory_opens states c database collection Hok Ee) as [H1 H2]; [unfold find_collection; by rewrite Ee|].
      split; [done|]. split; [done|]. intros e'. cbn. by rewrite Ee.
Qed.

(** What making a collection does: it was not there, and is. *)
Lemma catalog_creates states c database collection :
  catalog_ok states c → plain database → plain collection →
  let (r, c') := createCollection osL osC database collection c in
  catalog_ok states c' ∧
  match r with
  | Ok made => made = {| created_database := database; created_collection := collection |} ∧
      find_collection c database collection = None ∧ is_Some (find_collection c' database collection)
  | Throw e => catalog_error e
  end.
Proof using os_cleans.
  intros Hok Hdb Hcoll. unfold createCollection, st_lift, st_get, st_update, mbind, st_bind.
  destruct (validateDatabaseName database) as [u|x] eqn:E1; [|split; [done|by eapply validateName_throws]].
  destruct (validateCollectionName collection) as [u'|x] eqn:E2; [|split; [done|by eapply validateName_throws]].
  destruct (find_collection c database collection) eqn:Ef; [done|].
  destruct (engine c) as [e|] eqn:Ee.
  - pose proof (engine_opens states c e database collection Hok Ee Hdb Hcoll) as Ho.
    destruct (on_engine e _ c) as [[v|x] c']; destruct Ho as (H1 & H2 & _); (split; [done|]).
    + destruct H2 as (x & Hx & _). by eauto.
    + destruct H2 as (y & -> & Hy). by exists y.
  - destruct (memory_opens states c database collection Hok Ee Ef) as [H1 (x & Hx & _)]. by eauto.
Qed.
End Catalogs.
