(* ===== verification/Dispatcher.v ===== *)
(** * Commands

    packages/server/src/command-dispatcher.ts: what a command does, and the
    document that answers it. The ids that are generated for new documents and the
    clock are given with each command ([Moment]); the text of an error of the
    storage package, and the detail of an issue, by [describe] and [detail]. *)

From S2P Require Import Prelude Errors JsNumber JsString JsValue Frame Filter Update FieldIndex IndexSpec IndexSet Disk Collection CollectionModel Engine DocumentSize ServerErrors Cursors Catalog Scans.

Module Dispatcher.
Import Scans.Scans.
Abbreviation InMemoryCollection := Engine.Engine.InMemoryCollection.
Module Coll := Engine.Engine.Coll.
Module Cursor := Cursors.Cursors.
Abbreviation CursorManager := (Cursor.CursorManager nat).

Definition SERVER_PRODUCT : jsstring := js "sinterdb-server".
Definition SERVER_PRODUCT_VERSION : jsstring := js "0.2.0".
Definition capabilities : list DocumentValue := [VString (js "typed-documents"); VString (js "streaming")].

Record CommandEnvelope := {
  command : jsstring;
  database : option jsstring;
  parameters : Document;
}.

Record Moment := { generated : nat → result bytes; sweep : Z; now : Z }.

Definition number_value (z : Z) : DocumentValue := VNumber (number_of_Z z).

(** ** Parameters *)
Definition invalid {A} (message : jsstring) (details : Document) : outcome A :=
  Throw (CommandError {| error_code := WireErrorCode.InvalidRequest; error_name := js "InvalidRequest";
                         error_message := message; error_details := Some details |}).

Definition requireDatabase (command' : CommandEnvelope) : outcome jsstring :=
  match database command' with
  | None => invalid (js "Command " ++ json_string (command command') ++ js " requires a database.")
              [(js "command", VString (command command')); (js "field", VString (js "database"))]
  | Some database => Ok database
  end.

(** The text of an invalid parameter, and its detail. *)
Definition invalid_parameter {A} (name must : jsstring) : outcome A :=
  invalid (js "Command parameter " ++ json_string name ++ must) [(js "field", VString name)].

Definition requireStringParameter (parameters : Document) (name : jsstring) : outcome jsstring :=
  match obj_get parameters name with
  | Some (VString value) =>
      if is_blank value then invalid_parameter name (js " must be a non-empty string.") else Ok value
  | _ => invalid_parameter name (js " must be a non-empty string.")
  end.

Definition isPlainDocument (value : option DocumentValue) : bool :=
  match value with Some (VDoc _) => true | _ => false end.

Definition requireDocumentParameter (parameters : Document) (name : jsstring) : outcome Document :=
  match obj_get parameters name with
  | Some (VDoc value) => Ok value
  | _ => invalid_parameter name (js " must be a document.")
  end.

(** The documents of an array of documents. *)
Definition documents_of (l : list DocumentValue) : option (list Document) :=
  mapM (λ v, match v with VDoc d => Some d | _ => None end) l.

Definition requireDocumentArrayParameter (parameters : Document) (name : jsstring) : outcome (list Document) :=
  match obj_get parameters name with
  | Some (VArray value) =>
      match documents_of value with
      | Some (d :: l) => Ok (d :: l)
      | _ => invalid_parameter name (js " must be a non-empty array of documents.")
      end
  | _ => invalid_parameter name (js " must be a non-empty array of documents.")
  end.

Definition requireCursorId (parameters : Document) : outcome number :=
  match obj_get parameters (js "cursorId") with
  | Some (VNumber value) =>
      if Cursor.positive value then Ok value
      else invalid_parameter (js "cursorId") (js " must be a positive integer.")
  | _ => invalid_parameter (js "cursorId") (js " must be a positive integer.")
  end.

Definition optionalBooleanParameter (parameters : Document) (name : jsstring) : outcome bool :=
  match obj_get parameters name with
  | None => Ok false
  | Some (VBool value) => Ok value
  | Some _ => invalid_parameter name (js " must be a boolean.")
  end.

Definition optionalIntegerParameter (parameters : Document) (name : jsstring) (minimum : Z) : outcome (option number) :=
  let fails := invalid_parameter name (js " must be an integer of at least " ++ number_text minimum ++ js ".") in
  match obj_get parameters name with
  | None => Ok None
  | Some (VNumber value) =>
      if negb (isSafeInteger value) || (Z_of_number value <? minimum) then fails else Ok (Some value)
  | Some _ => fails
  end.

Definition MAX_CURSOR_BATCH_SIZE : Z := 10000.

Definition optionalBatchSize (parameters : Document) : outcome (option number) :=
  let fails := invalid_parameter (js "batchSize")
    (js " must be an integer between 1 and " ++ number_text MAX_CURSOR_BATCH_SIZE ++ js ".") in
  match obj_get parameters (js "batchSize") with
  | None => Ok None
  | Some (VNumber value) =>
      if negb (Cursor.positive value) || (MAX_CURSOR_BATCH_SIZE <? Z_of_number value) then fails else Ok (Some value)
  | Some _ => fails
  end.

Record FindOptions := { sort : option (list DocumentValue); skip : option number; limit : option number }.

Definition parseFindOptions (parameters : Document) : outcome FindOptions :=
  skip ← optionalIntegerParameter parameters (js "skip") 0;
  limit ← optionalIntegerParameter parameters (js "limit") 1;
  match obj_get parameters (js "sort") with
  | None => Ok {| sort := None; skip := skip; limit := limit |}
  | Some (VArray sort) => Ok {| sort := Some sort; skip := skip; limit := limit |}
  | Some _ => invalid_parameter (js "sort") (js " must be an array of [path, direction] pairs.")
  end.

Definition INDEX_OPTIONS : list jsstring := [js "field"; js "direction"; js "unique"; js "sparse"; js "name"].

Definition parseIndexInput (index : Document) : outcome Spec.CreateIndexInput :=
  match List.find (λ key, negb (bool_decide (key ∈ INDEX_OPTIONS))) (omap_keys index) with
  | Some key => invalid (js "Unknown index option " ++ json_string key)
                  [(js "field", VString (js "index")); (js "option", VString key)]
  | None => Ok {| Spec.input_field := obj_get index (js "field"); Spec.input_direction := obj_get index (js "direction");
                  Spec.input_unique := obj_get index (js "unique"); Spec.input_sparse := obj_get index (js "sparse");
                  Spec.input_name := obj_get index (js "name") |}
  end.

(** ** Answers *)
Definition toBatchDocument (batch : Cursor.CursorBatch) : Document :=
  [(js "cursorId", match Cursor.cursorId batch with Some id => number_value id | None => VNull end);
   (js "documents", VArray (map VDoc (Cursor.documents batch)))].

Definition toWriteResult (result : Coll.StorageUpdateResult) : Document :=
  [(js "acknowledged", VBool true); (js "matchedCount", number_value (Coll.matchedCount result));
   (js "modifiedCount", number_value (Coll.modifiedCount result));
   (js "upsertedId", match Coll.upsertedId result with Some id => VId id | None => VNull end)].

Definition serverInfo : Document :=
  [(js "product", VString SERVER_PRODUCT); (js "productVersion", VString SERVER_PRODUCT_VERSION);
   (js "protocolVersion", number_value PROTOCOL_VERSION); (js "capabilities", VArray capabilities)].

Definition bound_document (bound : FieldIndex.FieldIndex.IndexBound) : DocumentValue :=
  VDoc [(js "value", FieldIndex.FieldIndex.bound_value bound);
        (js "inclusive", VBool (FieldIndex.FieldIndex.inclusive bound))].

Definition optional {A} (name : jsstring) (f : A → DocumentValue) (value : option A) : Document :=
  match value with Some a => [(name, f a)] | None => [] end.

(** The object of an [ExplainResult]. *)
Definition explain_document (r : Coll.ExplainResult) : Document :=
  [(js "stage", VString (match Coll.stage r with
                         | Coll.STAGE_COLLSCAN => js "COLLSCAN"
                         | Coll.STAGE_IDLOOKUP => js "IDLOOKUP"
                         | Coll.STAGE_IXSCAN => js "IXSCAN"
                         end))]
  ++ optional (js "index") VString (Coll.explain_index r)
  ++ optional (js "field") VString (Coll.explain_field r)
  ++ optional (js "access") (λ a, VString (match a with
                                           | Coll.ACCESS_EQUALITY => js "equality"
                                           | Coll.ACCESS_IN => js "in"
                                           | Coll.ACCESS_RANGE => js "range"
                                           end)) (Coll.access r)
  ++ optional (js "lower") bound_document (Coll.explain_lower r)
  ++ optional (js "upper") bound_document (Coll.explain_upper r)
  ++ [(js "estimatedCandidates", VNumber (Coll.estimatedCandidates r));
      (js "documents", number_value (Coll.documents_examined r))].

Definition index_document (index : IndexSpec) : DocumentValue :=
  VDoc [(js "name", VString (Spec.name index)); (js "field", VString (Spec.field index));
        (js "direction", number_value (Spec.direction index)); (js "unique", VBool (Spec.unique index));
        (js "sparse", VBool (Spec.sparse index))].

Definition problem_text (problem : IndexSet.IndexSet.Problem) : jsstring :=
  match problem with
  | IndexSet.IndexSet.Ordering => js "ordering"
  | IndexSet.IndexSet.DocumentCount => js "document-count"
  | IndexSet.IndexSet.ArrayFlag => js "array-flag"
  | IndexSet.IndexSet.MissingEntry => js "missing-entry"
  | IndexSet.IndexSet.WrongDocuments => js "wrong-documents"
  | IndexSet.IndexSet.UnexpectedEntry => js "unexpected-entry"
  | IndexSet.IndexSet.MissingFieldEntries => js "missing-field-entries"
  | IndexSet.IndexSet.DuplicateKeyProblem => js "duplicate-key"
  end.

(** ** Errors *)
Section Dispatcher.
Context (osL osC : Z → Call → Outcome).
Context (describe : exn → jsstring) (detail : IndexSet.IndexSet.IndexIssue → jsstring).

Definition command_error (code : Z) (name message : jsstring) (details : option Document) : ServerError :=
  CommandError {| error_code := code; error_name := name; error_message := message; error_details := details |}.

(** An error that is none of the catalog is thrown again. *)
Definition translateCatalogError (error : ServerError) : ServerError :=
  match error with
  | CatalogError NamespaceConflict message =>
      command_error WireErrorCode.NamespaceConflict (js "NamespaceConflict") message None
  | CatalogError code message =>
      command_error WireErrorCode.InvalidRequest (js "InvalidRequest") message
        (Some [(js "catalogErrorCode", VString (catalog_code_string code))])
  | error => error
  end.

Definition batch_details (error : exn) : Document :=
  match error with
  | InsertManyError failedIndex insertedIds _ =>
      [(js "failedIndex", number_value failedIndex); (js "insertedCount", number_value (len insertedIds));
       (js "insertedIds", VArray (map VId insertedIds))]
  | _ => []
  end.

Definition translate_code (code : StorageErrorCode) (error : exn) : ServerError :=
  let storageErrorCode := (js "storageErrorCode", VString (storage_code_string code)) in
  match code with
  | DuplicateId =>
      command_error WireErrorCode.DuplicateKey (js "DuplicateKey") (describe error)
        (Some ((js "field", VString (js "_id")) :: storageErrorCode :: batch_details error))
  | DuplicateKey =>
      command_error WireErrorCode.DuplicateKey (js "DuplicateKey") (describe error)
        (Some (storageErrorCode :: batch_details error))
  | InvalidIndex =>
      command_error WireErrorCode.InvalidIndex (js "InvalidIndex") (describe error) (Some [storageErrorCode])
  | IndexNotFound =>
      command_error WireErrorCode.IndexNotFound (js "IndexNotFound") (describe error) (Some [storageErrorCode])
  | IndexConflict =>
      command_error WireErrorCode.IndexConflict (js "IndexConflict") (describe error) (Some [storageErrorCode])
  | InvalidUpdate =>
      command_error WireErrorCode.InvalidUpdate (js "InvalidUpdate") (describe error) (Some [storageErrorCode])
  | ImmutableId =>
      command_error WireErrorCode.ImmutableId (js "ImmutableId") (describe error)
        (Some [(js "field", VString (js "_id")); storageErrorCode])
  | DiskFull =>
      command_error WireErrorCode.InternalError (js "InternalError")
        (js "The server's disk is full, so the operation was not applied. Free space on the server and try again.")
        (Some [storageErrorCode])
  | PermissionDenied =>
      command_error WireErrorCode.InternalError (js "InternalError")
        (js "The server is not allowed to write to its data directory, so the operation was not applied.")
        (Some [storageErrorCode])
  | Io | Closed | Corruption | Locked | UnsupportedFormat =>
      command_error WireErrorCode.InternalError (js "InternalError")
        (js "The server could not persist the operation. Its outcome is unknown.") (Some [storageErrorCode])
  | InvalidDocument | InvalidDocumentId | InvalidFilter | InvalidFindOptions | InvalidBatch | InvalidBackup =>
      command_error WireErrorCode.DocumentValidationFailed (js "DocumentValidationFailed") (describe error)
        (Some (storageErrorCode :: batch_details error))
  end.

(** An error that is no [StorageError] is thrown again. *)
Definition translateStorageError (error : ServerError) : ServerError :=
  match error with
  | StorageFailure e => match storageCode e with Some code => translate_code code e | None => error end
  | error => error
  end.

(** The [catch] of most commands. *)
Definition translate (error : ServerError) : ServerError :=
  match error with
  | CatalogError _ _ => translateCatalogError error
  | _ => translateStorageError error
  end.

(** ** Commands *)
Abbreviation action A := (ST (World * CursorManager) ServerError A).

(** What only the catalog and the iterators take part in. *)
Definition in_world {A} (m : ST World ServerError A) : action A := λ '(w, cursors),
  let (r, w) := m w in (r, (w, cursors)).

(** [try { m } catch (error) { throw f(error) }]. *)
Definition rethrow {S A} (f : ServerError → ServerError) (m : ST S ServerError A) : ST S ServerError A :=
  st_catch m (λ error, st_throw (f error)).

Definition getCollection (database collection : jsstring) : action (option (InMemoryCollection ())) :=
  in_world (on_catalog (λ c, Cat.getCollection c database collection)).

Definition getOrCreateCollection (database collection : jsstring) : action () :=
  in_world (on_collection database collection (Cat.getOrCreateCollection osL osC database collection)).

Definition run (database collection : jsstring) (command : Command) : action Answer :=
  in_world (on_collection database collection (Cat.run osL osC database collection command)).

Definition require {A} (r : outcome A) : action A := st_lift r.

(** The answer of a command of another kind, which there is none of. *)
Definition unexpected {A} : action A := st_throw (StorageFailure TypeError).

Definition storage {A} (r : result A) : action A := st_lift (from_storage r).

Definition listDatabases : action Document :=
  in_world (on_catalog (λ c, Ok [(js "databases", VArray (map VString (Cat.listDatabases c)))])).

Definition createCollection (command : CommandEnvelope) : action Document :=
  databaseName ← require (requireDatabase command);
  collectionName ← require (requireStringParameter (parameters command) (js "name"));
  rethrow translateCatalogError
    (created ← in_world (on_collection databaseName collectionName
       (Cat.createCollection osL osC databaseName collectionName));
     mret [(js "database", VString (Cat.created_database created));
           (js "collection", VString (Cat.created_collection created)); (js "created", VBool true)]).

Definition listCollections (command : CommandEnvelope) : action Document :=
  databaseName ← require (requireDatabase command);
  rethrow translateCatalogError
    (names ← in_world (on_catalog (λ c, Cat.listCollections c databaseName));
     mret [(js "database", VString databaseName); (js "collections", VArray (map VString names))]).

Definition deleteDocuments (command : CommandEnvelope) (many : bool) : action Document :=
  databaseName ← require (requireDatabase command);
  collectionName ← require (requireStringParameter (parameters command) (js "collection"));
  filter ← require (requireDocumentParameter (parameters command) (js "filter"));
  let answer (n : Z) : Document := [(js "acknowledged", VBool true); (js "deletedCount", number_value n)] in
  rethrow translate
    (collection ← getCollection databaseName collectionName;
     match collection with
     | None => _ ← storage (Filter.Filter.compileFilter (VDoc filter)); mret (answer 0)
     | Some _ =>
         r ← run databaseName collectionName (if many then DeleteMany (VDoc filter) else DeleteOne (VDoc filter));
         match r with Deleted n => mret (answer n) | _ => unexpected end
     end).

(** [upsert ? getOrCreateCollection(...) : getCollection(...)]. *)
Definition collection_for (upsert : bool) (database collection : jsstring) : action (option (InMemoryCollection ())) :=
  if upsert then
    _ ← getOrCreateCollection database collection;
    in_world (λ w, (Ok (Cat.find_collection (catalog w) database collection), w))
  else getCollection database collection.

Definition replaceOne (m : Moment) (command : CommandEnvelope) : action Document :=
  databaseName ← require (requireDatabase command);
  collectionName ← require (requireStringParameter (parameters command) (js "collection"));
  filter ← require (requireDocumentParameter (parameters command) (js "filter"));
  replacement ← require (requireDocumentParameter (parameters command) (js "replacement"));
  upsert ← require (optionalBooleanParameter (parameters command) (js "upsert"));
  rethrow translate
    (collection ← collection_for upsert databaseName collectionName;
     match collection with
     | None =>
         _ ← storage (Filter.Filter.compileFilter (VDoc filter));
         mret (toWriteResult {| Coll.matchedCount := 0; Coll.modifiedCount := 0; Coll.upsertedId := None |})
     | Some _ =>
         r ← run databaseName collectionName
               (ReplaceOne (VDoc filter) (VDoc replacement) (Some (VBool upsert)) (generated m 0));
         match r with Updated r => mret (toWriteResult r) | _ => unexpected end
     end).

Definition updateDocuments (m : Moment) (command : CommandEnvelope) (many : bool) : action Document :=
  databaseName ← require (requireDatabase command);
  collectionName ← require (requireStringParameter (parameters command) (js "collection"));
  filter ← require (requireDocumentParameter (parameters command) (js "filter"));
  update ← require (requireDocumentParameter (parameters command) (js "update"));
  upsert ← require (optionalBooleanParameter (parameters command) (js "upsert"));
  rethrow translate
    (collection ← collection_for upsert databaseName collectionName;
     match collection with
     | None =>
         _ ← storage (Filter.Filter.compileFilter (VDoc filter));
         _ ← storage (Update.compileUpdate (VDoc update));
         mret (toWriteResult {| Coll.matchedCount := 0; Coll.modifiedCount := 0; Coll.upsertedId := None |})
     | Some _ =>
         r ← run databaseName collectionName
               (if many then UpdateMany (VDoc filter) (VDoc update) (Some (VBool upsert)) (generated m 0)
                else UpdateOne (VDoc filter) (VDoc update) (Some (VBool upsert)) (generated m 0));
         match r with Updated r => mret (toWriteResult r) | _ => unexpected end
     end).

Definition createIndex (command : CommandEnvelope) : action Document :=
  databaseName ← require (requireDatabase command);
  collectionName ← require (requireStringParameter (parameters command) (js "collection"));
  index ← require (requireDocumentParameter (parameters command) (js "index"));
  input ← require (parseIndexInput index);
  rethrow translate
    (_ ← storage (Spec.normalizeIndexSpec input);
     _ ← getOrCreateCollection databaseName collectionName;
     r ← run databaseName collectionName (CreateIndex input);
     match r with
     | Indexed name created =>
         mret [(js "acknowledged", VBool true); (js "name", VString name); (js "created", VBool created)]
     | _ => unexpected
     end).

Definition dropIndex (command : CommandEnvelope) : action Document :=
  databaseName ← require (requireDatabase command);
  collectionName ← require (requireStringParameter (parameters command) (js "collection"));
  name ← require (requireStringParameter (parameters command) (js "name"));
  rethrow translate
    (collection ← getCollection databaseName collectionName;
     match collection with
     | None => st_throw (StorageFailure (StorageError IndexNotFound))
     | Some _ =>
         _ ← run databaseName collectionName (DropIndex name);
         mret [(js "acknowledged", VBool true)]
     end).

Definition listIndexes (command : CommandEnvelope) : action Document :=
  databaseName ← require (requireDatabase command);
  collectionName ← require (requireStringParameter (parameters command) (js "collection"));
  rethrow translate
    (collection ← getCollection databaseName collectionName;
     mret [(js "indexes", VArray (map index_document
       (match collection with Some c => Coll.listIndexes c | None => [] end)))]).

Definition explain (command : CommandEnvelope) : action Document :=
  databaseName ← require (requireDatabase command);
  collectionName ← require (requireStringParameter (parameters command) (js "collection"));
  filter ← require (requireDocumentParameter (parameters command) (js "filter"));
  rethrow translate
    (collection ← getCollection databaseName collectionName;
     match collection with
     | None =>
         _ ← storage (Filter.Filter.compileFilter (VDoc filter));
         mret [(js "stage", VString (js "COLLSCAN")); (js "estimatedCandidates", number_value 0);
               (js "documents", number_value 0)]
     | Some c => r ← storage (Coll.explain (VDoc filter) c); mret (explain_document r)
     end).

Definition validateIndexes (command : CommandEnvelope) : action Document :=
  databaseName ← require (requireDatabase command);
  collectionName ← require (requireStringParameter (parameters command) (js "collection"));
  rethrow translate
    (collection ← getCollection databaseName collectionName;
     match collection with
     | None => mret [(js "valid", VBool true); (js "indexes", number_value 0); (js "documents", number_value 0);
                     (js "issues", VArray [])]
     | Some c =>
         report ← storage (Coll.validateIndexes c);
         mret [(js "valid", VBool (Coll.valid report)); (js "indexes", number_value (Coll.report_indexes report));
               (js "documents", number_value (Coll.report_documents report));
               (js "issues", VArray (map (λ issue, VDoc
                  [(js "index", VString (IndexSet.IndexSet.issue_index issue));
                   (js "problem", VString (problem_text (IndexSet.IndexSet.problem issue)));
                   (js "detail", VString (detail issue))]) (Coll.issues report)))]
     end).

Definition insertOne (m : Moment) (command : CommandEnvelope) : action Document :=
  databaseName ← require (requireDatabase command);
  collectionName ← require (requireStringParameter (parameters command) (js "collection"));
  document ← require (requireDocumentParameter (parameters command) (js "document"));
  rethrow translate
    (_ ← getOrCreateCollection databaseName collectionName;
     r ← run databaseName collectionName (InsertOne (VDoc document) (generated m 0));
     match r with
     | Inserted [id] => mret [(js "acknowledged", VBool true); (js "insertedId", VId id)]
     | _ => unexpected
     end).

Definition insertMany (m : Moment) (command : CommandEnvelope) : action Document :=
  databaseName ← require (requireDatabase command);
  collectionName ← require (requireStringParameter (parameters command) (js "collection"));
  documents ← require (requireDocumentArrayParameter (parameters command) (js "documents"));
  rethrow translate
    (_ ← getOrCreateCollection databaseName collectionName;
     r ← run databaseName collectionName
           (InsertMany (Some (imap (λ i document, (VDoc document, generated m i)) documents)));
     match r with
     | Inserted ids => mret [(js "acknowledged", VBool true); (js "insertedCount", number_value (len ids));
                             (js "insertedIds", VArray (map VId ids))]
     | _ => unexpected
     end).

Definition findOne (command : CommandEnvelope) : action Document :=
  databaseName ← require (requireDatabase command);
  collectionName ← require (requireStringParameter (parameters command) (js "collection"));
  filter ← require (requireDocumentParameter (parameters command) (js "filter"));
  rethrow translate
    (collection ← getCollection databaseName collectionName;
     match collection with
     | None => mret [(js "document", VNull)]
     | Some c =>
         found ← storage (Coll.findOne (VDoc filter) c);
         mret [(js "document", match found with Some d => VDoc d | None => VNull end)]
     end).

(** ** Cursors *)
Definition open_cursor (m : Moment) (reference : nat) (batchSize : option number) : action Cursor.CursorBatch :=
  λ '(w, cursors), Cursor.open next reference batchSize (sweep m) (now m) w cursors.

Definition more_of_cursor (m : Moment) (id : number) (batchSize : option number) : action Cursor.CursorBatch :=
  λ '(w, cursors), Cursor.getMore next id batchSize (sweep m) (now m) w cursors.

Definition close_cursor (id : number) : action bool :=
  λ '(w, cursors), let (r, cursors) := Cursor.close id cursors in (from_storage r, (w, cursors)).

Definition find (m : Moment) (command : CommandEnvelope) : action Document :=
  databaseName ← require (requireDatabase command);
  collectionName ← require (requireStringParameter (parameters command) (js "collection"));
  filter ← require (requireDocumentParameter (parameters command) (js "filter"));
  batchSize ← require (optionalBatchSize (parameters command));
  options ← require (parseFindOptions (parameters command));
  rethrow translate
    (collection ← getCollection databaseName collectionName;
     match collection with
     | None => mret [(js "cursorId", VNull); (js "documents", VArray [])]
     | Some _ =>
         reference ← in_world (λ w,
           let (r, w) := Scans.find databaseName collectionName filter (sort options) (skip options) (limit options) w in
           (from_storage r, w));
         batch ← open_cursor m reference batchSize;
         mret (toBatchDocument batch)
     end).

Definition cursor_not_found (id : Z) : ServerError :=
  command_error WireErrorCode.CursorNotFound (js "CursorNotFound")
    (js "Cursor " ++ number_text id ++ js " does not exist or has already exhausted.")
    (Some [(js "cursorId", number_value id)]).

Definition getMore (m : Moment) (command : CommandEnvelope) : action Document :=
  cursorId ← require (requireCursorId (parameters command));
  batchSize ← require (optionalBatchSize (parameters command));
  rethrow (λ error, match error with
                    | CursorNotFoundError id => cursor_not_found id
                    | error => translateStorageError error
                    end)
    (batch ← more_of_cursor m cursorId batchSize;
     mret (toBatchDocument batch)).

Definition closeCursor (command : CommandEnvelope) : action Document :=
  cursorId ← require (requireCursorId (parameters command));
  closed ← close_cursor cursorId;
  mret [(js "closed", VBool closed)].

(** ** The switch *)
Definition unknown_command (command' : CommandEnvelope) : ServerError :=
  command_error WireErrorCode.UnknownCommand (js "UnknownCommand")
    (js "Unknown command " ++ json_string (command command') ++ js ".")
    (Some [(js "command", VString (command command'))]).

Inductive ServerCommand :=
  | CServerInfo | CListDatabases | CCreateCollection | CListCollections | CInsertOne | CInsertMany | CDeleteOne
  | CDeleteMany | CReplaceOne | CUpdateOne | CUpdateMany | CFindOne | CFind | CGetMore | CCloseCursor | CCreateIndex
  | CDropIndex | CListIndexes | CExplain | CValidateIndexes.

Definition server_commands : list (jsstring * ServerCommand) :=
  [(js "serverInfo", CServerInfo); (js "listDatabases", CListDatabases); (js "createCollection", CCreateCollection);
   (js "listCollections", CListCollections); (js "insertOne", CInsertOne); (js "insertMany", CInsertMany);
   (js "deleteOne", CDeleteOne); (js "deleteMany", CDeleteMany); (js "replaceOne", CReplaceOne);
   (js "updateOne", CUpdateOne); (js "updateMany", CUpdateMany); (js "findOne", CFindOne); (js "find", CFind);
   (js "getMore", CGetMore); (js "closeCursor", CCloseCursor); (js "createIndex", CCreateIndex);
   (js "dropIndex", CDropIndex); (js "listIndexes", CListIndexes); (js "explain", CExplain);
   (js "validateIndexes", CValidateIndexes)].

Definition dispatch (m : Moment) (command' : CommandEnvelope) : action DocumentValue :=
  document ←
    match omap_get server_commands (command command') with
    | None => st_throw (unknown_command command')
    | Some CServerInfo => mret serverInfo
    | Some CListDatabases => listDatabases
    | Some CCreateCollection => createCollection command'
    | Some CListCollections => listCollections command'
    | Some CInsertOne => insertOne m command'
    | Some CInsertMany => insertMany m command'
    | Some CFindOne => findOne command'
    | Some CDeleteOne => deleteDocuments command' false
    | Some CDeleteMany => deleteDocuments command' true
    | Some CReplaceOne => replaceOne m command'
    | Some CUpdateOne => updateDocuments m command' false
    | Some CUpdateMany => updateDocuments m command' true
    | Some CFind => find m command'
    | Some CGetMore => getMore m command'
    | Some CCloseCursor => closeCursor command'
    | Some CCreateIndex => createIndex command'
    | Some CDropIndex => dropIndex command'
    | Some CListIndexes => listIndexes command'
    | Some CExplain => explain command'
    | Some CValidateIndexes => validateIndexes command'
    end;
  mret (VDoc document).
End Dispatcher.
End Dispatcher.
