(* ===== verification/DispatcherProperties.v ===== *)
(** * The server: what every command keeps

    The collections of the catalog satisfy their invariant, an engine is one that
    can be reached (EngineLife.v), the iterators are those of queries and the cursors
    of a session are over them. *)

From stdpp Require Import gmap.
From S2P Require Import Prelude Errors JsNumber JsString JsValue Binary CustomId Codec Roundtrip Filter FilterSpec Sort Update IndexSpec FieldIndex IndexLemmas FieldIndexSpec IndexSet IndexSetSpec Planner PlannerSpec IndexValidation Stored Collection CollectionLemmas CollectionQueries CollectionChanges CollectionSpec CollectionIndexes CollectionModel Disk WriteAheadLog WalOperations Triples Engine EngineReplay EngineInvariant EngineCommands EngineLife EngineErrors DocumentSize ServerErrors Cursors CursorProperties Catalog Scans ScanProperties CatalogProperties Dispatcher.
Import Scans.Scans Dispatcher.Dispatcher.
Import Cursors.Cursors(CursorState,cursors,iterator).

(** ** Text of messages *)

(** What a message holds: text that is read back as it was written. *)
Definition text_ok (v : DocumentValue) : Prop :=
  wf_value v = true ∧ text_all (λ s, plainb s && no_bom s) v = true.

Lemma text_ok_good v : text_ok v → good_value v.
Proof.
  intros [H1 H2]. split; [done|]. revert H2. apply text_all_mono. by intros s [_ ?]%andb_true_iff.
Qed.

Lemma text_ok_string s : text_ok (VString s) → plain s.
Proof. intros [_ [H _]%andb_true_iff]. by apply plainb_plain. Qed.

Lemma text_ok_get fs k v : text_ok (VDoc fs) → obj_get fs k = Some v → text_ok v.
Proof.
  intros [[Hw _]%wf_doc Ht] Hk%omap_get_Some_in. rewrite Forall_forall in Hw. destruct (Hw _ Hk) as [_ Hv]. split; [done|].
  cbn [text_all] in Ht. rewrite forallb_forall in Ht. apply list_elem_of_In, Ht, andb_true_iff in Hk. by destruct Hk.
Qed.

Lemma text_ok_in l v : text_ok (VArray l) → v ∈ l → text_ok v.
Proof.
  intros [Hw%wf_array Ht] Hv. rewrite Forall_forall in Hw. split; [by apply Hw|]. cbn [text_all] in Ht.
  rewrite forallb_forall in Ht. by apply Ht, list_elem_of_In.
Qed.

(** The name of an index is given, or made of the name of the field. *)
Lemma plain_default field direction : plain field → (len field =? 0) = false → plain (Spec.default_name field direction).
Proof.
  intros [Hw Hb] Hl. unfold Spec.default_name.
  assert (plain (if direction =? 1 then js "_1" else js "_-1")) as [Hw' _]
    by (apply plainb_plain; by destruct (direction =? 1)).
  split; [by apply wf_string_app|]. by destruct field.
Qed.

Lemma input_plain input :
  (∀ v, Spec.input_field input = Some v → text_ok v) → (∀ v, Spec.input_name input = Some v → text_ok v) → plain_input input.
Proof.
  intros Hfield Hname spec Hn. unfold Spec.normalizeIndexSpec in Hn.
  destruct (Spec.input_field input) as [[| | | |field| | | | |]|]; try done.
  assert (plain field) as Hs by (by apply text_ok_string, Hfield).
  destruct (len field =? 0) eqn:El; [done|]. destruct (existsb _ _); [done|]. destruct (bool_decide _ || _); [done|]. inv_ok Hn.
  destruct (Spec.coalesce _ _) as [| | | |name| | | | |] eqn:Ec; try done. destruct (negb _); [done|]. injection Hn as <-.
  split; [|done]. cbn [Spec.name]. unfold Spec.coalesce in Ec.
  destruct (Spec.input_name input) as [v|]; [|injection Ec as <-; by apply plain_default]. specialize (Hname v eq_refl).
  destruct v; try done; injection Ec as <-; [by apply plain_default|by apply text_ok_string].
Qed.

Lemma index_plain index input : text_ok (VDoc index) → parseIndexInput index = Ok input → plain_input input.
Proof.
  intros Ht Hp. unfold parseIndexInput in Hp. destruct (List.find _ _); [done|]. injection Hp as <-.
  apply input_plain; intros v Hv; exact (text_ok_get _ _ _ Ht Hv).
Qed.

(** ** The invariant *)
Abbreviation ServerState := (World * CursorManager)%type.

(** The documents that a cursor will still return. *)
Definition cursor_left (s : ServerState) (id : Z) : option (list Document) := fst <$> table_of rest s.1 s.2 !! id.

(** What a batch leaves behind: no cursor, or one with the documents to come. *)
Definition leaves (s : ServerState) (cursor : option Z) (left : list Document) : Prop :=
  match cursor with
  | None => left = []
  | Some id => left ≠ [] ∧ 1 ≤ id ≤ MAX_SAFE_INTEGER ∧ cursor_left s id = Some left
  end.

Section Server.
Context (osL osC : Z → Call → Outcome) (os_cleans : cleans osL) (states : list State) (least : nat).

(** The engine of the server has been through [states] and more, and there were
    [least] iterators before. *)
Record server_ok (s : ServerState) : Prop := {
  server_count : (least ≤ length (scans s.1))%nat;
  server_catalog : catalog_ok osL osC states (catalog s.1);
  server_scans : ∀ i scan, scans s.1 !! i = Some scan → scan_ok scan;
  server_cursors : session_cursors s.1 s.2;
}.

Lemma server_world s : server_ok s → world_ok s.1.
Proof using os_cleans. intros [_ H1 H2 _]. split; [|done]. intros database collection c. by eapply catalog_collections. Qed.

(** The cursors are over iterators of another store. *)
Lemma session_moves w w' m :
  session_cursors w m → sound w' → (length (scans w) ≤ length (scans w'))%nat → session_cursors w' m.
Proof using.
  intros [[_ H2 H3 H4] Hi] Hw Hl. split; [by split|]. intros id state Hs. apply Hi in Hs. lia.
Qed.

Lemma follow_ok database collection before after s : scan_ok s → scan_ok (follow database collection before after s).
Proof using.
  intros Hs. unfold follow. destruct (position s) as [|[] | |]; try done. case_decide; [|done]. by apply scan_ok_position.
Qed.

(** A change of a collection. *)
Lemma server_changes {A} database collection (m : ST Cat.InMemoryCatalog ServerError A) s :
  server_ok s → catalog_ok osL osC states (m (catalog s.1)).2 →
  let (r, s') := in_world (on_collection database collection m) s in
  server_ok s' ∧ r = (m (catalog s.1)).1 ∧ catalog s'.1 = (m (catalog s.1)).2.
Proof using os_cleans.
  destruct s as [w cursors]. intros [H0 H1 H2 H3] Hc. unfold in_world, on_collection. cbn [fst snd] in *.
  destruct (m (catalog w)) as [r c]. cbn [fst snd] in *. split; [|done].
  assert (∀ i scan, map (follow database collection (keys_of (catalog w) database collection) (keys_of c database collection)) (scans w) !! i = Some scan →
    scan_ok scan) as Hs.
  { intros i scan Hi. apply list_lookup_fmap_Some in Hi as (scan0 & -> & Hi). by eapply follow_ok, H2. }
  split; [cbn [fst scans]; by rewrite length_map|exact Hc|exact Hs|]. cbn [fst snd].
  eapply session_moves; [exact H3| |cbn [scans]; by rewrite length_map].
  apply world_sound. split; [|exact Hs]. intros db coll x. by apply (catalog_collections osL osC os_cleans states).
Qed.

(** *** Cursors *)

(** A store in which only the iterators have moved. *)
Definition moved_on (w w' : World) : Prop :=
  catalog w' = catalog w ∧ length (scans w') = length (scans w) ∧ ∀ i scan, scans w' !! i = Some scan → scan_ok scan.

Lemma advance_position s c : ∃ p, (advance s c).2 = set_position p s.
Proof using.
  unfold advance. destruct c as [c|]; [|by exists Ended].
  match goal with |- context [match ?m with Ok _ => _ | Throw _ => _ end] => destruct m as [[found p]|e] end; [by exists p|by exists Ended].
Qed.

Lemma next_moves w0 i w : moved_on w0 w → moved_on w0 (next i w).2.
Proof using.
  intros (H1 & H2 & H3). unfold next. destruct (scans w !! i) as [s|] eqn:Es; [|done].
  match goal with |- context [advance s ?c] => pose proof (advance_position s c) as [p Hp]; destruct (advance s c) as [r s'] end.
  cbn [fst snd] in *. subst s'. split; [done|]. cbn [scans set_scans]. rewrite length_insert. split; [done|].
  intros j scan Hj. destruct (decide (i = j)) as [<-|Hij].
  - rewrite list_lookup_insert_eq in Hj by (by eapply lookup_lt_Some). injection Hj as <-. by eapply scan_ok_position, H3.
  - rewrite list_lookup_insert_ne in Hj by done. by eapply H3.
Qed.

Lemma server_moved s : server_ok s → moved_on s.1 s.1.
Proof using. intros [_ _ H2 _]. by split. Qed.

(** A manager over a store that has moved on. *)
Lemma server_cursors_moved s w m :
  server_ok s → moved_on s.1 w → manager_ok sound w m →
  iterators (λ i, (i < length (scans s.1))%nat) m → server_ok (w, m).
Proof using. intros [H0 H1 _ _] (E1 & E2 & H3) Hm Hi. split; cbn [fst snd]; [by rewrite E2|by rewrite E1|done|]. split; [done|]. by rewrite E2. Qed.

Lemma server_opens m reference size s :
  server_ok s → Z.of_nat (base.size (cursors s.2)) < MAX_SAFE_INTEGER → unused reference s.2 →
  (reference < length (scans s.1))%nat → valid_size size = true →
  let (r, s') := open_cursor m reference size s in
  server_ok s' ∧ ∃ batch left, r = Ok batch ∧ rest s.1 reference = Cursor.documents batch ++ left ∧
    len (Cursor.documents batch) ≤ size_of size ∧ leaves s' (Cursor.cursorId batch) left.
Proof using.
  destruct s as [w cs]. intros Hs Hn Hu Hr Hv. unfold open_cursor. pose proof Hs as [_ _ _ [Hm Hi]]. cbn [fst snd] in *.
  pose proof (cursor_open_outcome next sound rest reference size (sweep m) (now m) w cs Hm Hn Hu Hv) as Ho.
  pose proof (open_keeps next (moved_on w) (next_moves w) (λ i, (i < length (scans w))%nat) reference size (sweep m) (now m) w cs
    (server_moved _ Hs) Hi Hr) as [Hw' Hi'].
  change (Cursors.Cursors.open next reference size (sweep m) (now m) w cs) with (Cursor.open next reference size (sweep m) (now m) w cs) in *.
  destruct (Cursor.open next reference size (sweep m) (now m) w cs) as [[b|e] [w' cs']]; [|done]. cbn [fst snd] in *.
  destruct Ho as (Hm' & _ & _ & left & (Hr' & [Hn' _] & _) & Hleft).
  split; [by apply (server_cursors_moved (w, cs))|]. exists b, left. split; [done|]. split; [done|]. split; [done|].
  unfold leaves, cursor_left. cbn [fst snd]. destruct (Cursor.cursorId b) as [id|]; [|apply Hleft].
  destruct Hleft as (H1 & _ & H2 & ->). by rewrite lookup_insert_eq.
Qed.

Lemma server_continues m id size s :
  server_ok s → Cursor.positive id = true → valid_size size = true →
  let (r, s') := more_of_cursor m id size s in
  server_ok s' ∧
  match r with
  | Ok batch => ∃ left, cursor_left s (Z_of_number id) = Some (Cursor.documents batch ++ left) ∧
      len (Cursor.documents batch) ≤ size_of size ∧ leaves s' (Cursor.cursorId batch) left ∧
      match Cursor.cursorId batch with
      | Some id' => id' = Z_of_number id
      | None => cursor_left s' (Z_of_number id) = None
      end
  | Throw e => ∃ z, e = CursorNotFoundError z
  end.
Proof using.
  destruct s as [w cs]. intros Hs Hp Hv. unfold more_of_cursor. pose proof Hs as [_ _ _ [Hm Hi]]. cbn [fst snd] in *.
  pose proof (cursor_more_outcome next sound rest id size (sweep m) (now m) w cs Hm Hp Hv) as Ho.
  pose proof (getMore_keeps next (moved_on w) (next_moves w) (λ i, (i < length (scans w))%nat) id size (sweep m) (now m) w cs
    (server_moved _ Hs) Hi) as [Hw' Hi'].
  change (Cursors.Cursors.getMore next id size (sweep m) (now m) w cs) with (Cursor.getMore next id size (sweep m) (now m) w cs) in *.
  destruct (Cursor.getMore next id size (sweep m) (now m) w cs) as [[b|e] [w' cs']]; cbn [fst snd] in *.
  - destruct Ho as (Hm' & _ & _ & l & used & left & Hl & (-> & [Hn _] & _) & Hleft).
    split; [by apply (server_cursors_moved (w, cs))|]. exists left. unfold used_after in Hl. apply map_lookup_filter_Some in Hl as [Hl _].
    unfold leaves, cursor_left. cbn [fst snd]. rewrite Hl. split; [done|]. split; [done|].
    destruct (Cursor.cursorId b) as [id'|].
    + destruct Hleft as (-> & H1 & ->). rewrite lookup_insert_eq. split; [|done]. split; [done|]. split; [|done].
      unfold table_of in Hl. rewrite lookup_fmap in Hl. destruct (cursors cs !! _) as [state|] eqn:Es; [|done].
      destruct Hm as [_ _ Hcs _]. exact (proj1 (Hcs _ _ Es)).
    + destruct Hleft as [-> ->]. by rewrite lookup_delete_eq.
  - destruct Ho as (-> & _ & -> & Hm' & _). split; [|by eexists]. by apply (server_cursors_moved (w, cs)).
Qed.

Lemma server_closes id s :
  server_ok s → Cursor.positive id = true →
  let (r, s') := close_cursor id s in
  server_ok s' ∧ r = Ok (bool_decide (is_Some (cursor_left s (Z_of_number id)))) ∧ cursor_left s' (Z_of_number id) = None.
Proof using.
  destruct s as [w cs]. intros Hs Hp. unfold close_cursor, Cursor.close, Cursor.validateCursorId. rewrite Hp. cbn [from_storage].
  split; [pose proof Hs as [_ _ _ [Hm Hi]]; apply (server_cursors_moved (w, cs)); [done|by apply (server_moved (w, cs))| |]|].
  - by apply (manager_delete sound w); [|apply Hm].
  - by apply iterators_delete.
  - unfold cursor_left, table_of. cbn [fst snd cursors Cursors.Cursors.set_cursors]. rewrite !lookup_fmap, lookup_delete_eq. split; [|done].
    do 2 f_equal. apply bool_decide_ext. by rewrite !fmap_is_Some.
Qed.

(** *** A new iterator *)
Lemma sort_throws sort e : compileSortValue sort = Throw e → storage_failure e.
Proof using.
  unfold compileSortValue. intros [H|(specification & _ & H)]%bind_Throw_inv.
  - eapply (mapM_throws sort_entry); [|exact H]. intros v x. unfold sort_entry. repeat case_match; try discriminate; intros [= <-]; by eexists.
  - unfold Sort.Sort.compileSort in H. apply bind_Throw_inv in H as [H|(keys & _ & H)]; [|done].
    pose proof (Sort.sort_specification specification) as Hs. rewrite H in Hs. destruct Hs as [-> _]. by eexists.
Qed.

(** The sorting function of a find command. *)
Definition sorter_of (sort : option (list DocumentValue)) : result (option (list Document → list Document)) :=
  match sort with None => Ok None | Some sort => s ← compileSortValue sort; Ok (Some s) end.

Lemma options_throw skip limit e :
  Engine.Engine.Coll.validateSkip skip = Throw e ∨ Engine.Engine.Coll.validateLimit limit = Throw e → storage_failure e.
Proof using.
  unfold Engine.Engine.Coll.validateSkip, Engine.Engine.Coll.validateLimit.
  intros [H|H]; [destruct skip|destruct limit]; try done; (destruct (_ || _); [|done]); injection H as <-; by eexists.
Qed.

(** The documents of a new iterator are those that the query returns at once. *)
Lemma finds_query database collection fields sort skip limit w i w' c :
  world_ok w → wf_value (VDoc fields) = true →
  Scans.Scans.find database collection fields sort skip limit w = (Ok i, w') →
  Cat.find_collection (catalog w) database collection = Some c →
  ∃ specification, sort_of sort specification ∧
    Collection.Collection.find (VDoc fields) {| Collection.Collection.find_sort := specification;
      Collection.Collection.find_skip := skip; Collection.Collection.find_limit := limit |} c = Ok (rest w' i).
Proof using.
  intros Hw Hf E Hc.
  assert (∃ specification, sort_of sort specification) as [specification Hsort].
  { destruct sort as [l|]; [|by exists None]. destruct (mapM sort_entry l) as [specification|e] eqn:Em; [by exists (Some specification)|].
    unfold Scans.Scans.find, st_lift, mbind, st_bind in E. destruct (Filter.Filter.compileFilter _); [|done].
    unfold compileSortValue in E. by rewrite Em in E. }
  exists specification. split; [done|]. set (options := {| Collection.Collection.find_sort := specification |}).
  pose proof (find_opens database collection fields sort options w Hsort Hf) as Ho. cbn [Collection.Collection.find_skip Collection.Collection.find_limit options] in Ho.
  rewrite E in Ho. destruct Ho as (s & -> & -> & Hs & Hp & Hdb & Hcoll & Hq). rewrite (Hq c).
  destruct (world_collections _ Hw _ _ _ Hc) as [v Hv].
  assert (drain_in w s = Collection.Collection.scan (filter s) (matches s) (sorter s) (Scans.Scans.skip s) (Scans.Scans.limit s) c) as Hd.
  { unfold drain_in, collection_of. rewrite Hdb, Hcoll, Hc. by apply (drain_fresh s c v). }
  destruct (drain_ok s c v Hs Hv) as [l Hl]. rewrite drain_fresh with (v := v) in Hl by done.
  rewrite opened_new, Hd, Hl. reflexivity.
Qed.

Lemma server_finds database collection fields sort skip limit s :
  server_ok s → wf_value (VDoc fields) = true →
  let (r, s') := in_world (λ w, let (r, w) := Scans.Scans.find database collection fields sort skip limit w in (from_storage r, w)) s in
  server_ok s' ∧
  match r with
  | Ok i => unused i s'.2 ∧ (i < length (scans s'.1))%nat
  | Throw e => storage_error e
  end ∧ s'.2 = s.2.
Proof using os_cleans.
  destruct s as [w cs]. intros Hs Hw. unfold in_world, Scans.Scans.find. fold (sorter_of sort).
  unfold st_lift, st_get, st_update. unfold mbind at 1 2 3 4 5 6, st_bind.
  destruct (Filter.Filter.compileFilter (VDoc fields)) as [m|e] eqn:Em.
  2: { split; [done|]. split; [|done]. exists e. split; [done|]. by eapply filter_throws. }
  destruct (sorter_of sort) as [sorter|e] eqn:Eo.
  2: { split; [done|]. split; [|done]. exists e. split; [done|]. unfold sorter_of in Eo. destruct sort as [sort|]; [|done].
       apply bind_Throw_inv in Eo as [Eo|(f & _ & Eo)]; [|done]. by eapply sort_throws. }
  destruct (Engine.Engine.Coll.validateSkip skip) as [sk|e] eqn:Ek.
  2: { split; [done|]. split; [|done]. exists e. split; [done|]. apply (options_throw skip limit). by left. }
  destruct (Engine.Engine.Coll.validateLimit limit) as [li|e] eqn:El.
  2: { split; [done|]. split; [|done]. exists e. split; [done|]. apply (options_throw skip limit). by right. }
  assert (∀ scan, scan_ok scan → server_ok (set_scans (scans w ++ [scan]) w, cs) ∧
    (unused (length (scans w)) cs ∧ (length (scans w) < length (scans w ++ [scan]))%nat) ∧ cs = cs) as Ho.
  { intros scan Hscan. destruct (opened_session w scan (server_world _ Hs) Hscan cs (server_cursors _ Hs)) as [H1 H2].
    pose proof (opened_ok w scan (server_world _ Hs) Hscan) as [_ H3]. split; [|split; [|done]].
    - split; [|apply Hs|exact H3|exact H1]. cbn. rewrite length_app. pose proof (server_count _ Hs) as H0. cbn [fst] in H0. lia.
    - split; [done|]. rewrite length_app. cbn. lia. }
  apply Ho. by split.
Qed.
End Server.

(** * Commands: properties

    Every command keeps the invariant of the server (DispatcherProperties.v), and is
    answered with a document or an error that the protocol has; but for one: a
    collection that cannot be made throws what the storage package throws. *)
Import Scans.Scans Dispatcher.Dispatcher.
Import Cursors.Cursors(cursors).
Import Engine.Engine.Coll(documentCount).

(** ** Requests *)

(** A request: text that is read back as it was written, parameters that a message
    holds, and ids that are generated. *)
Record request_ok (m : Moment) (request : CommandEnvelope) : Prop := {
  request_database : ∀ d, database request = Some d → plain d;
  request_text : text_ok (VDoc (parameters request));
  request_fits : fits (VDoc (parameters request));
  request_ids : ∀ i, generated_ok (generated m i);
}.

(** The documents that a request may add to a collection, and room for them. *)
Definition added (request : CommandEnvelope) : Z :=
  match obj_get (parameters request) (js "documents") with
  | Some (VArray l) => Z.max 1 (len l)
  | _ => 1
  end.

Definition room (n : Z) (c : Cat.InMemoryCatalog) : Prop :=
  n < 2 ^ 31 ∧ ∀ database collection x, Cat.find_collection c database collection = Some x → documentCount x + n < 2 ^ 31.

(** What the server answers with the code and the name of an error. *)
Definition answerable (e : ServerError) : Prop := ∃ error, e = CommandError error.

(** ** Parameters *)
Lemma requireDatabase_throws request e : requireDatabase request = Throw e → answerable e.
Proof. unfold requireDatabase. destruct (database request); [done|]. intros [= <-]. by eexists. Qed.

Lemma requireString_throws fields name e : requireStringParameter fields name = Throw e → answerable e.
Proof. unfold requireStringParameter. repeat case_match; try done; intros [= <-]; by eexists. Qed.

Lemma requireString_value fields name s : requireStringParameter fields name = Ok s → obj_get fields name = Some (VString s).
Proof. unfold requireStringParameter. repeat case_match; try done. by intros [= ->]. Qed.

Lemma requireDocument_throws fields name e : requireDocumentParameter fields name = Throw e → answerable e.
Proof. unfold requireDocumentParameter. repeat case_match; try done; intros [= <-]; by eexists. Qed.

Lemma requireDocument_value fields name d : requireDocumentParameter fields name = Ok d → obj_get fields name = Some (VDoc d).
Proof. unfold requireDocumentParameter. repeat case_match; try done. by intros [= ->]. Qed.

Lemma requireArray_throws fields name e : requireDocumentArrayParameter fields name = Throw e → answerable e.
Proof. unfold requireDocumentArrayParameter. repeat case_match; try done; intros [= <-]; by eexists. Qed.

Lemma documents_of_map l ds : documents_of l = Some ds → l = map VDoc ds.
Proof.
  revert ds. induction l as [|v l IH]; intros ds; [by intros [= <-]|].
  destruct v; try done. unfold documents_of. cbn [list.mapM mbind option_bind]. fold (documents_of l).
  destruct (documents_of l) as [ds'|]; [|done]. intros [= <-]. cbn. by rewrite (IH ds').
Qed.

Lemma requireArray_value fields name ds :
  requireDocumentArrayParameter fields name = Ok ds → obj_get fields name = Some (VArray (map VDoc ds)).
Proof.
  unfold requireDocumentArrayParameter. destruct (obj_get fields name) as [[| | | | | | | |l|]|]; try done.
  destruct (documents_of l) as [[|d ds']|] eqn:E; try done. intros [= <-]. by rewrite (documents_of_map _ _ E).
Qed.

Lemma optionalBoolean_throws fields name e : optionalBooleanParameter fields name = Throw e → answerable e.
Proof. unfold optionalBooleanParameter. repeat case_match; try done; intros [= <-]; by eexists. Qed.

Lemma requireCursorId_throws fields e : requireCursorId fields = Throw e → answerable e.
Proof. unfold requireCursorId. repeat case_match; try done; intros [= <-]; by eexists. Qed.

Lemma requireCursorId_value fields id : requireCursorId fields = Ok id → Cursor.positive id = true.
Proof. unfold requireCursorId. destruct (obj_get _ _) as [[]|]; try done. destruct (Cursor.positive _) eqn:E; [|done]. by intros [= <-]. Qed.

Lemma requireCursorId_given fields id : requireCursorId fields = Ok id → obj_get fields (js "cursorId") = Some (VNumber id).
Proof. unfold requireCursorId. destruct (obj_get _ _) as [[]|]; try done. destruct (Cursor.positive _); [|done]. by intros [= ->]. Qed.

Lemma batchSize_throws fields e : optionalBatchSize fields = Throw e → answerable e.
Proof. unfold optionalBatchSize. repeat case_match; try done; intros [= <-]; by eexists. Qed.

Lemma batchSize_valid fields size : optionalBatchSize fields = Ok size → valid_size size = true.
Proof.
  unfold optionalBatchSize. destruct (obj_get _ _) as [[]|]; try done; [|by intros [= <-]].
  destruct (Cursor.positive _) eqn:E; cbn [negb orb]; [|done]. destruct (_ <? _); [done|]. by intros [= <-].
Qed.

Lemma findOptions_throws fields e : parseFindOptions fields = Throw e → answerable e.
Proof.
  assert (∀ name minimum e, optionalIntegerParameter fields name minimum = Throw e → answerable e) as Hi.
  { intros name minimum x. unfold optionalIntegerParameter. repeat case_match; try done; intros [= <-]; by eexists. }
  unfold parseFindOptions. intros [H|(skip & _ & [H|(limit & _ & H)]%bind_Throw_inv)]%bind_Throw_inv; [by eapply Hi..|].
  repeat case_match; try done; injection H as <-; by eexists.
Qed.

Lemma indexInput_throws index e : parseIndexInput index = Throw e → answerable e.
Proof. unfold parseIndexInput. destruct (List.find _ _); [|done]. intros [= <-]. by eexists. Qed.

(** ** Errors *)
Section Translation.
Context (describe : exn → jsstring).

Lemma translateStorage_answers e : storage_error e → answerable (translateStorageError describe e).
Proof using. intros (x & -> & code & Hx). cbn [translateStorageError]. rewrite Hx. destruct code; by eexists. Qed.

Lemma translate_answers e : catalog_error e → answerable (translate describe e).
Proof using.
  destruct e as [x|code message|id|error]; intros He; try (by apply translateStorage_answers).
  destruct code; by eexists.
Qed.
End Translation.

Lemma outcomes_rethrow {S A} f (P : S → Prop) (m : ST S ServerError A) (Q : A → S → Prop) (X X' : ServerError → S → Prop) :
  outcomes P m Q X' → (∀ e s, X' e s → X (f e) s) → outcomes P (rethrow f m) Q X.
Proof.
  intros Hm Hf s Hs. specialize (Hm s Hs). unfold rethrow, st_catch. destruct (m s) as [[a|e] s']; [done|]. by apply Hf.
Qed.

(** ** Answers *)

(** A number of documents. *)
Definition counted (n : Z) : Prop := 0 ≤ n < 2 ^ 31.

(** The counts of a change agree. *)
Definition agree (r : Coll.StorageUpdateResult) : Prop :=
  0 ≤ Coll.modifiedCount r ≤ Coll.matchedCount r ∧ counted (Coll.matchedCount r).

Definition updates (command : ServerCommand) : bool :=
  match command with CReplaceOne | CUpdateOne | CUpdateMany => true | _ => false end.
(** The collection that a request names. *)
Definition target (request : CommandEnvelope) (s : ServerState) : option CatalogProperties.InMemoryCollection :=
  match database request, obj_get (parameters request) (js "collection") with
  | Some database, Some (VString collection) => Cat.find_collection (catalog s.1) database collection
  | _, _ => None
  end.

(** A command on that collection, which was there or was made for it, is accepted with
    this answer by the model of collections. *)
Definition changes (request : CommandEnvelope) (before after : ServerState) (command : Command) (answer : Answer) : Prop :=
  ∃ db name x x' v v',
    database request = Some db ∧ obj_get (parameters request) (js "collection") = Some (VString name) ∧
    (Cat.find_collection (catalog before.1) db name = Some x ∨
     Cat.find_collection (catalog before.1) db name = None ∧ documentCount x = 0) ∧
    Cat.find_collection (catalog after.1) db name = Some x' ∧ coll_ok x v ∧ coll_ok x' v' ∧
    accepts v (IndexSet.IndexSet.specs (Coll.indexes x)) command answer (v', IndexSet.IndexSet.specs (Coll.indexes x')).

(** The specifications of its indexes. *)
Definition indexes_of (c : option CatalogProperties.InMemoryCollection) : list IndexSpec :=
  match c with Some c => Spec.idIndexSpec :: IndexSet.IndexSet.specs (Coll.indexes c) | None => [] end.

Definition batch_document (cursor : option Z) (documents : list Document) : Document :=
  [(js "cursorId", match cursor with Some id => number_value id | None => VNull end); (js "documents", VArray (map VDoc documents))].

(** What a request is answered with, by its command, on a server that was in the state
    [before] and is in [after]. *)
Inductive answer_of (m : Moment) (request : CommandEnvelope) (before after : ServerState) : ServerCommand → Document → Prop :=
  | answer_info :
      answer_of m request before after CServerInfo
        [(js "product", VString (js "sinterdb-server")); (js "productVersion", VString (js "0.2.0"));
         (js "protocolVersion", number_value 1);
         (js "capabilities", VArray [VString (js "typed-documents"); VString (js "streaming")])]
  | answer_inserted document id :
      obj_get (parameters request) (js "document") = Some (VDoc document) →
      changes request before after (InsertOne (VDoc document) (generated m 0)) (Inserted [id]) →
      answer_of m request before after CInsertOne [(js "acknowledged", VBool true); (js "insertedId", VId id)]
  | answer_inserted_many documents ids :
      obj_get (parameters request) (js "documents") = Some (VArray (map VDoc documents)) → counted (len ids) →
      changes request before after (InsertMany (Some (imap (λ i document, (VDoc document, generated m i)) documents))) (Inserted ids) →
      answer_of m request before after CInsertMany
        [(js "acknowledged", VBool true); (js "insertedCount", number_value (len ids)); (js "insertedIds", VArray (map VId ids))]
  | answer_deleted (many : bool) fields n :
      obj_get (parameters request) (js "filter") = Some (VDoc fields) → counted n →
      changes request before after (if many then DeleteMany (VDoc fields) else DeleteOne (VDoc fields)) (Deleted n) →
      answer_of m request before after (if many then CDeleteMany else CDeleteOne)
        [(js "acknowledged", VBool true); (js "deletedCount", number_value n)]
  | answer_deleted_none (many : bool) : target request before = None →
      answer_of m request before after (if many then CDeleteMany else CDeleteOne)
        [(js "acknowledged", VBool true); (js "deletedCount", number_value 0)]
  | answer_replaced fields replacement upsert r :
      obj_get (parameters request) (js "filter") = Some (VDoc fields) →
      obj_get (parameters request) (js "replacement") = Some (VDoc replacement) → agree r →
      changes request before after (ReplaceOne (VDoc fields) (VDoc replacement) (Some (VBool upsert)) (generated m 0)) (Updated r) →
      answer_of m request before after CReplaceOne (toWriteResult r)
  | answer_updated (many : bool) fields update upsert r :
      obj_get (parameters request) (js "filter") = Some (VDoc fields) →
      obj_get (parameters request) (js "update") = Some (VDoc update) → agree r →
      changes request before after
        (if many then UpdateMany (VDoc fields) (VDoc update) (Some (VBool upsert)) (generated m 0)
         else UpdateOne (VDoc fields) (VDoc update) (Some (VBool upsert)) (generated m 0)) (Updated r) →
      answer_of m request before after (if many then CUpdateMany else CUpdateOne) (toWriteResult r)
  | answer_updated_none command : updates command = true → target request before = None →
      answer_of m request before after command
        (toWriteResult {| Coll.matchedCount := 0; Coll.modifiedCount := 0; Coll.upsertedId := None |})
  | answer_none fields :
      obj_get (parameters request) (js "filter") = Some (VDoc fields) →
      (∀ c, target request before = Some c → Coll.findOne (VDoc fields) c = Ok None) →
      answer_of m request before after CFindOne [(js "document", VNull)]
  | answer_found c fields d i :
      obj_get (parameters request) (js "filter") = Some (VDoc fields) → target request before = Some c →
      Coll.findOne (VDoc fields) c = Ok (Some d) → obj_get d (js "_id") = Some (VId i) →
      answer_of m request before after CFindOne [(js "document", VDoc d)]
  | answer_nothing : target request before = None → answer_of m request before after CFind (batch_document None [])
  | answer_batch c fields options specification size documents left cursor :
      obj_get (parameters request) (js "filter") = Some (VDoc fields) → target request before = Some c →
      parseFindOptions (parameters request) = Ok options → sort_of (sort options) specification →
      Coll.find (VDoc fields) {| Coll.find_sort := specification; Coll.find_skip := skip options; Coll.find_limit := limit options |} c =
        Ok (documents ++ left) →
      optionalBatchSize (parameters request) = Ok size → len documents ≤ size_of size → leaves after cursor left →
      answer_of m request before after CFind (batch_document cursor documents)
  | answer_more id size documents left cursor :
      obj_get (parameters request) (js "cursorId") = Some (VNumber id) →
      cursor_left before (Z_of_number id) = Some (documents ++ left) →
      optionalBatchSize (parameters request) = Ok size → len documents ≤ size_of size → leaves after cursor left →
      match cursor with Some id' => id' = Z_of_number id | None => cursor_left after (Z_of_number id) = None end →
      answer_of m request before after CGetMore (batch_document cursor documents)
  | answer_closed id :
      obj_get (parameters request) (js "cursorId") = Some (VNumber id) → cursor_left after (Z_of_number id) = None →
      answer_of m request before after CCloseCursor
        [(js "closed", VBool (bool_decide (is_Some (cursor_left before (Z_of_number id)))))]
  | answer_indexed index input name created :
      obj_get (parameters request) (js "index") = Some (VDoc index) → parseIndexInput index = Ok input →
      changes request before after (CreateIndex input) (Indexed name created) →
      answer_of m request before after CCreateIndex
        [(js "acknowledged", VBool true); (js "name", VString name); (js "created", VBool created)]
  | answer_dropped name :
      obj_get (parameters request) (js "name") = Some (VString name) → changes request before after (DropIndex name) Dropped →
      answer_of m request before after CDropIndex [(js "acknowledged", VBool true)]
  | answer_indexes :
      answer_of m request before after CListIndexes
        [(js "indexes", VArray (map index_document (indexes_of (target request before))))]
  | answer_unplanned : target request before = None →
      answer_of m request before after CExplain
        [(js "stage", VString (js "COLLSCAN")); (js "estimatedCandidates", number_value 0); (js "documents", number_value 0)]
  | answer_explained c fields r :
      obj_get (parameters request) (js "filter") = Some (VDoc fields) → target request before = Some c →
      Coll.explain (VDoc fields) c = Ok r →
      answer_of m request before after CExplain (explain_document r)
  | answer_healthy :
      answer_of m request before after CValidateIndexes
        [(js "valid", VBool true);
         (js "indexes", number_value (match target request before with
                                      | Some c => len (IndexSet.IndexSet.all (Coll.indexes c)) | None => 0 end));
         (js "documents", number_value (match target request before with Some c => documentCount c | None => 0 end));
         (js "issues", VArray [])]
  | answer_databases :
      answer_of m request before after CListDatabases [(js "databases", VArray (map VString (Cat.listDatabases (catalog before.1))))]
  | answer_collections db names : database request = Some db → Cat.listCollections (catalog before.1) db = Ok names →
      answer_of m request before after CListCollections [(js "database", VString db); (js "collections", VArray (map VString names))]
  | answer_created db name :
      database request = Some db → obj_get (parameters request) (js "name") = Some (VString name) →
      Cat.find_collection (catalog before.1) db name = None → is_Some (Cat.find_collection (catalog after.1) db name) →
      answer_of m request before after CCreateCollection
        [(js "database", VString db); (js "collection", VString name); (js "created", VBool true)].

(** ** Commands *)
Section Commands.
Context (osL osC : Z → Call → Outcome) (os_cleans : cleans osL).
Context (describe : exn → jsstring) (detail : IndexSet.IndexSet.IndexIssue → jsstring).
Context (states : list State) (least : nat) (m : Moment) (request : CommandEnvelope) (Hreq : request_ok m request).
Context (before : ServerState).

(** No checkpoint is due when the index is made, once there is a collection for it. *)
Definition index_ready (c : Cat.InMemoryCatalog) : Prop :=
  ∀ e database collection, Cat.engine c = Some e →
    not_due (Engine.Engine.openCollection osL osC database collection e).2.

(** What the server is in when a request arrives. *)
Record ready (s : ServerState) : Prop := {
  ready_before : s = before;
  ready_ok : server_ok osL osC states least s;
  ready_room : room (added request) (catalog s.1);
  ready_cursors : Z.of_nat (base.size (cursors s.2)) < MAX_SAFE_INTEGER;
  ready_index : omap_get server_commands (command request) = Some CCreateIndex → index_ready (catalog s.1);
}.

Abbreviation action A := (ST ServerState ServerError A).
Abbreviation server_ok := (server_ok osL osC states least).
Abbreviation fails X := (λ (e : ServerError) (s : ServerState), X e ∧ server_ok s).

(** A command that keeps the invariant, answers with what is [Q], and throws what can
    be answered. *)
Abbreviation answers Q f := (outcomes ready f (λ a s, Q a s ∧ server_ok s) (fails answerable)).
Abbreviation answer c := (λ d s, answer_of m request before s c d).

(** Its body, which the errors of the catalog and of the storage package pass. *)
Abbreviation works Q P f := (outcomes P f (λ a s, Q a s ∧ server_ok s) (fails catalog_error)).

Lemma answers_lift {A B} (Q : B → ServerState → Prop) (r : outcome A) (k : A → action B) :
  (∀ e, r = Throw e → answerable e) → (∀ a, r = Ok a → answers Q (k a)) → answers Q (a ← require r; k a).
Proof using. intros Ht Hk. apply outcomes_lift; [|done]. intros e s He Hs. split; [by apply Ht|apply Hs]. Qed.

Lemma answers_translate {A} (Q : A → ServerState → Prop) (f : action A) : works Q ready f → answers Q (rethrow (translate describe) f).
Proof using.
  intros Hf. eapply outcomes_rethrow; [exact Hf|]. intros e s [He Hs]. split; [by apply translate_answers|done].
Qed.

Lemma works_ret {A} (Q : A → ServerState → Prop) P (a : A) : (∀ s, P s → server_ok s) → (∀ s, P s → Q a s) → works Q P (mret a).
Proof using. intros HP Ha. apply outcomes_ret. intros s Hs. split; [by apply Ha|by apply HP]. Qed.

Lemma works_storage {A B} (Q : B → ServerState → Prop) P (r : result A) (k : A → action B) :
  (∀ s, P s → server_ok s) → (∀ e, r = Throw e → storage_failure e) → (∀ a, r = Ok a → works Q P (k a)) →
  works Q P (a ← storage r; k a).
Proof using.
  intros HP Ht Hk. apply outcomes_lift.
  - intros e s He Hs. split; [|by apply HP]. destruct r as [a|x]; [done|]. injection He as <-. exists x. split; [done|by apply Ht].
  - intros a Ha. destruct r as [b|x]; [|done]. injection Ha as ->. by apply Hk.
Qed.

(** *** Values of the request *)
Lemma document_good name d : obj_get (parameters request) name = Some (VDoc d) → good_value (VDoc d) ∧ encodable (VDoc d).
Proof using Hreq.
  destruct Hreq as [_ Ht Hf _]. intros Hd. split; [eapply text_ok_good, text_ok_get; eassumption|].
  eapply encodable_field; [split; [apply Ht|exact Hf]|by apply omap_get_Some_in].
Qed.

Lemma string_plain name s : obj_get (parameters request) name = Some (VString s) → plain s.
Proof using Hreq. destruct Hreq as [_ Ht _ _]. intros Hs. eapply text_ok_string, text_ok_get; eassumption. Qed.

(** *** What commands do to a collection *)
Lemma get_works Q database collection (k : option CatalogProperties.InMemoryCollection → action Document) :
  (∀ c, Cat.find_collection (catalog before.1) database collection = c →
    works Q (λ s, ready s ∧ Cat.find_collection (catalog s.1) database collection = c) (k c)) →
  works Q ready (c ← getCollection database collection; k c).
Proof using.
  intros Hk. eapply outcomes_bind with (Q := λ c s, Cat.find_collection (catalog before.1) database collection = c ∧
    ready s ∧ Cat.find_collection (catalog s.1) database collection = c).
  2: { intros c s [Hc Hs]. by apply (Hk c Hc s). }
  intros [w cs] Hs. pose proof (ready_before _ Hs) as <-. unfold getCollection, in_world, on_catalog, Cat.getCollection.
  destruct (Cat.validateDatabaseName database) as [u|e] eqn:E1; [|split; [by eapply validateName_throws|apply Hs]].
  cbn [mbind res_bind].
  destruct (Cat.validateCollectionName collection) as [u'|e] eqn:E2; [|split; [by eapply validateName_throws|apply Hs]].
  by cbn [mbind res_bind].
Qed.

(** The collection of that name has been changed by a command. *)
Definition changed (database collection : jsstring) (command : Command) (answer : Answer) (s : ServerState) : Prop :=
  server_ok s ∧ ∃ x x' v v',
    (Cat.find_collection (catalog before.1) database collection = Some x ∨
     Cat.find_collection (catalog before.1) database collection = None ∧ documentCount x = 0) ∧
    Cat.find_collection (catalog s.1) database collection = Some x' ∧ coll_ok x v ∧ coll_ok x' v' ∧
    accepts v (IndexSet.IndexSet.specs (Coll.indexes x)) command answer (v', IndexSet.IndexSet.specs (Coll.indexes x')).

Lemma changed_ok database collection command answer s : changed database collection command answer s → server_ok s.
Proof using. by intros [H _]. Qed.

(** A collection is there, and has room. *)
Definition at_hand (database collection : jsstring) (s : ServerState) : Prop :=
  server_ok s ∧ ∃ x, Cat.find_collection (catalog s.1) database collection = Some x ∧
    (Cat.find_collection (catalog before.1) database collection = Some x ∨
     Cat.find_collection (catalog before.1) database collection = None ∧ documentCount x = 0) ∧
    documentCount x + added request < 2 ^ 31 ∧
    (omap_get server_commands (command request) = Some CCreateIndex → ∀ e, Cat.engine (catalog s.1) = Some e → not_due e).

Lemma open_works database collection :
  plain database → plain collection →
  outcomes ready (getOrCreateCollection osL osC database collection) (λ _, at_hand database collection) (fails catalog_error).
Proof using os_cleans.
  intros Hdb Hcoll s Hs. pose proof (server_catalog _ _ _ _ _ (ready_ok _ Hs)) as Hc.
  pose proof (catalog_opens osL osC os_cleans states (catalog s.1) database collection Hc Hdb Hcoll) as Ho.
  pose proof (server_changes osL osC os_cleans states least database collection (Cat.getOrCreateCollection osL osC database collection) s (ready_ok _ Hs)) as Hch.
  unfold getOrCreateCollection.
  destruct (in_world _ s) as [r s']. destruct (Cat.getOrCreateCollection osL osC database collection (catalog s.1)) as [r0 c'].
  destruct Ho as [Hc' Ho]. cbn [fst snd] in Hch. destruct (Hch Hc') as (Hok & -> & Ec). destruct r0 as [u|e]; [|by split].
  split; [done|]. destruct Ho as [(x & Hx & Hd) He]. exists x. rewrite Ec. split; [done|].
  pose proof (ready_before _ Hs) as <-. split; [destruct Hd as [[Hd _]|Hd]; by auto|].
  destruct (ready_room _ Hs) as [Hn Hr]. split; [destruct Hd as [[Hd _]|[_ Hd]]; [by eapply Hr|lia]|].
  intros Hi e Ee. destruct (He e Ee) as (e0 & E0 & ->). by apply (ready_index _ Hs Hi).
Qed.

(** What is in a collection that was found. *)
Lemma found_hand database collection x s :
  ready s → Cat.find_collection (catalog s.1) database collection = Some x →
  omap_get server_commands (command request) ≠ Some CCreateIndex → at_hand database collection s.
Proof using.
  intros Hs Hx Hi. split; [apply Hs|]. exists x. split; [done|]. split; [left; by rewrite <- (ready_before _ Hs)|]. split; [by eapply (ready_room _ Hs)|done].
Qed.

(** A command on it. *)
Lemma run_works Q database collection c (k : Answer → action Document) :
  (∀ n, n + added request < 2 ^ 31 → admissible n c) → fits_command c →
  (makes_index c = true → omap_get server_commands (command request) = Some CCreateIndex) →
  (∀ n a, 0 ≤ n → n + added request < 2 ^ 31 → answered n c a → works Q (changed database collection c a) (k a)) →
  works Q (at_hand database collection) (a ← run osL osC database collection c; k a).
Proof using os_cleans.
  intros Ha Hf Hi Hk. eapply outcomes_bind with (Q := λ a s, (∃ n, 0 ≤ n ∧ n + added request < 2 ^ 31 ∧ answered n c a) ∧
    changed database collection c a s).
  2: { intros a s [(n & Hn0 & Hn & Han) Hs]. by apply (Hk n a). }
  intros s (Hs & x & Hx & Hbefore & Hn & Hd). pose proof (server_catalog _ _ _ _ _ Hs) as Hc.
  pose proof (catalog_run osL osC os_cleans states (catalog s.1) database collection x c Hc Hx (Ha _ Hn) Hf (λ E, Hd (Hi E))) as Ho.
  pose proof (server_changes osL osC os_cleans states least database collection (Cat.run osL osC database collection c) s Hs) as Hch.
  unfold run.
  destruct (in_world _ s) as [r s']. destruct (Cat.run osL osC database collection c (catalog s.1)) as [r0 c'].
  destruct Ho as [Hc' Ho]. cbn [fst snd] in Hch. destruct (Hch Hc') as (Hok & -> & Ec). destruct r0 as [a|e].
  { destruct Ho as (x' & v & v' & Hx' & Hv & Hv' & Ho). split.
    - exists (documentCount x). split; [apply len_nonneg|]. split; [done|]. rewrite (count_view x v Hv). by eapply accepts_answered.
    - split; [done|]. exists x, x', v, v'. by rewrite Ec. }
  split; [|done]. destruct Ho as (y & -> & Hy). by exists y.
Qed.

Lemma found_run Q database collection x c (k : Answer → action Document) :
  omap_get server_commands (command request) ≠ Some CCreateIndex →
  (∀ n, n + added request < 2 ^ 31 → admissible n c) → fits_command c → makes_index c = false →
  (∀ n a, 0 ≤ n → n + added request < 2 ^ 31 → answered n c a → works Q (changed database collection c a) (k a)) →
  works Q (λ s, ready s ∧ Cat.find_collection (catalog s.1) database collection = Some x) (a ← run osL osC database collection c; k a).
Proof using os_cleans.
  intros Hne Ha Hf Hi Hk. eapply outcomes_weaken; [apply run_works; [done|done|by rewrite Hi|exact Hk]| |done|done].
  intros s [Hs Hx]. by eapply found_hand.
Qed.

Lemma for_works Q upsert database collection (k : option CatalogProperties.InMemoryCollection → action Document) :
  omap_get server_commands (command request) ≠ Some CCreateIndex → plain database → plain collection →
  (∀ x, works Q (at_hand database collection) (k (Some x))) →
  (Cat.find_collection (catalog before.1) database collection = None → works Q server_ok (k None)) →
  works Q ready (c ← collection_for osL osC upsert database collection; k c).
Proof using os_cleans.
  intros Hne Hdb Hcoll Hsome Hnone. unfold collection_for. destruct upsert.
  - intros s Hs. pose proof (open_works database collection Hdb Hcoll s Hs) as Ho. unfold mbind, st_bind.
    destruct (getOrCreateCollection _ _ _ _ s) as [[u|e] [w cs]]; [|done]. unfold in_world.
    pose proof Ho as (_ & x & Hx & _). cbn [fst] in Hx. rewrite Hx. by apply (Hsome x).
  - apply get_works. intros [x|] Hat.
    + eapply outcomes_weaken; [apply (Hsome x)|intros s [Hs Hx]|done|done]. by eapply found_hand.
    + eapply outcomes_weaken; [exact (Hnone Hat)|intros s [Hs _]; apply Hs|done|done].
Qed.

Create HintDb requests.
#[local] Hint Resolve requireDatabase_throws requireString_throws requireDocument_throws requireArray_throws
  optionalBoolean_throws requireCursorId_throws batchSize_throws findOptions_throws indexInput_throws : requests.

(** The next parameter of a command. *)
Tactic Notation "required" ident(x) ident(H) := apply answers_lift; [by eauto with requests|intros x H].

Section Database.
Context (database' : jsstring) (Hdatabase : requireDatabase request = Ok database').

Lemma database_plain : plain database'.
Proof using Hreq Hdatabase.
  apply (request_database _ _ Hreq). unfold requireDatabase in Hdatabase. destruct (database request); [by injection Hdatabase as ->|done].
Qed.
Lemma target_found collection :
  requireStringParameter (parameters request) (js "collection") = Ok collection →
  target request before = Cat.find_collection (catalog before.1) database' collection.
Proof using Hdatabase.
  intros Hc%requireString_value. unfold target. rewrite Hc. unfold requireDatabase in Hdatabase.
  destruct (database request); [by injection Hdatabase as ->|done].
Qed.

End Database.

Lemma changed_changes database' collection command answer s :
  requireDatabase request = Ok database' → requireStringParameter (parameters request) (js "collection") = Ok collection →
  changed database' collection command answer s → changes request before s command answer.
Proof using.
  intros Hdb Hc%requireString_value (_ & x & x' & v & v' & H). exists database', collection, x, x', v, v'. split; [|done].
  unfold requireDatabase in Hdb. by destruct (database request); [injection Hdb as ->|].
Qed.

Lemma good_filter name d : requireDocumentParameter (parameters request) name = Ok d → wf_value (VDoc d) = true.
Proof using Hreq. intros Hd%requireDocument_value. by apply (document_good name d). Qed.

Lemma compile_works Q P d (k : CompiledFilter → action Document) :
  (∀ s, P s → server_ok s) → (∀ f, works Q P (k f)) → works Q P (f ← storage (Filter.Filter.compileFilter (VDoc d)); k f).
Proof using. intros HP Hk. apply works_storage; [done|intros e; apply filter_throws|intros f _; apply Hk]. Qed.

Lemma added_pos : 1 ≤ added request.
Proof using. unfold added. destruct (obj_get _ _) as [[]|]; lia. Qed.

Lemma agree_counts n r :
  n + added request < 2 ^ 31 → 0 ≤ Coll.modifiedCount r ≤ Coll.matchedCount r ∧ Coll.matchedCount r ≤ n → agree r.
Proof using. intros Hn [H1 H2]. pose proof added_pos. split; [done|]. unfold counted. lia. Qed.

Lemma deleteDocuments_answers many :
  omap_get server_commands (command request) ≠ Some CCreateIndex →
  answers (answer (if many then CDeleteMany else CDeleteOne)) (deleteDocuments osL osC describe request many).
Proof using os_cleans Hreq.
  intros Hne. unfold deleteDocuments. required db Hdb. required coll Hcoll. required filter Hf. cbv zeta.
  apply answers_translate, get_works. rewrite <- (target_found _ Hdb _ Hcoll). intros [x|] Hx.
  - apply found_run; [done|..].
    + intros n _. destruct many; by eapply good_filter.
    + by destruct many.
    + by destruct many.
    + intros n a _ Hn Ha. pose proof added_pos.
      assert (∀ k, a = Deleted k → counted k) as Hk by (intros k ->; destruct many; unfold answered, counted in *; lia).
      destruct a as [|k| | |]; try (by destruct many). apply works_ret; [intros s; apply changed_ok|]. intros s Hs.
      apply (answer_deleted _ _ _ _ many filter); [by apply requireDocument_value|by apply Hk|by apply (changed_changes db coll)].
  - apply compile_works; [by intros s [[_ ? _ _ _] _]|]. intros f. apply works_ret; [by intros s [[_ ? _ _ _] _]|].
    intros s _. by apply answer_deleted_none.
Qed.

Lemma listDatabases_answers : answers (answer CListDatabases) listDatabases.
Proof using. intros [w cs] Hs. split; [|apply Hs]. pose proof (ready_before _ Hs) as <-. constructor. Qed.

Lemma listCollections_answers : answers (answer CListCollections) (listCollections request).
Proof using.
  unfold listCollections. required db Hdb. intros [w cs] Hs. unfold rethrow, st_catch, in_world, on_catalog, mbind, st_bind, Cat.listCollections.
  destruct (Cat.validateDatabaseName db) as [u|e] eqn:E; cbn [mbind res_bind].
  { split; [|apply Hs]. pose proof (ready_before _ Hs) as <-. apply answer_collections.
    - unfold requireDatabase in Hdb. by destruct (database request); [injection Hdb as ->|].
    - cbn [fst]. unfold Cat.listCollections. by rewrite E. }
  split; [|apply Hs]. unfold Cat.validateDatabaseName, Cat.validateName in E. repeat case_match; try done; injection E as <-; by eexists.
Qed.

Lemma ready_kept s (P : Prop) : ready s ∧ P → server_ok s.
Proof using. intros [[_ H _ _ _] _]. exact H. Qed.
#[local] Hint Resolve ready_kept : requests.

(** A document of the request, its text and its size. *)
Lemma plain_name name s : requireStringParameter (parameters request) name = Ok s → plain s.
Proof using Hreq. intros H%requireString_value. by eapply string_plain. Qed.

Lemma good_document name d : requireDocumentParameter (parameters request) name = Ok d → good_value (VDoc d) ∧ encodable (VDoc d).
Proof using Hreq. intros Hd%requireDocument_value. by apply (document_good name d). Qed.

Lemma replaceOne_answers :
  omap_get server_commands (command request) ≠ Some CCreateIndex →
  answers (answer CReplaceOne) (replaceOne osL osC describe m request).
Proof using os_cleans Hreq.
  intros Hne. unfold replaceOne. required db Hdb. required coll Hcoll. required fields Hf. required replacement Hr. required upsert Hu.
  apply answers_translate, for_works; [done|by apply database_plain|by eapply plain_name| |].
  - intros x. apply run_works.
    + intros n Hn. pose proof added_pos. destruct (good_document _ _ Hf), (good_document _ _ Hr).
      split; [done|]. split; [done|]. split; [apply Hreq|lia].
    + done.
    + done.
    + intros n [] _ Hn Ha; try done. apply works_ret; [intros s; apply changed_ok|]. intros s Hs.
      apply (answer_replaced _ _ _ _ fields replacement upsert);
        [by apply requireDocument_value..|by apply (agree_counts n)|by apply (changed_changes db coll)].
  - rewrite <- (target_found _ Hdb _ Hcoll). intros Hno.
    apply compile_works; [done|]. intros f. apply works_ret; [done|]. intros s _. by apply answer_updated_none.
Qed.

Lemma updateDocuments_answers many :
  omap_get server_commands (command request) ≠ Some CCreateIndex →
  answers (answer (if many then CUpdateMany else CUpdateOne)) (updateDocuments osL osC describe m request many).
Proof using os_cleans Hreq.
  intros Hne. unfold updateDocuments. required db Hdb. required coll Hcoll. required fields Hf. required update Hu. required upsert Hup.
  apply answers_translate, for_works; [done|by apply database_plain|by eapply plain_name| |].
  - intros x. apply run_works.
    + intros n Hn. pose proof added_pos. destruct (good_document _ _ Hf), (good_document _ _ Hu).
      assert (good_value (VDoc fields) ∧ good_value (VDoc update) ∧ generated_ok (generated m 0) ∧ n + 1 < 2 ^ 31) as Ha
        by (split; [done|]; split; [done|]; split; [apply Hreq|lia]).
      destruct many; exact Ha.
    + destruct (good_document _ _ Hu) as [_ [_ Hfit]]. destruct many; exact Hfit.
    + by destruct many.
    + intros n a _ Hn Ha. assert (∀ r, a = Updated r → agree r) as Hk by (intros r ->; apply (agree_counts n); [done|by destruct many]).
      destruct a as [| |r| |]; try (by destruct many). apply works_ret; [intros s; apply changed_ok|]. intros s Hs.
      apply (answer_updated _ _ _ _ many fields update upsert);
        [by apply requireDocument_value..|by apply Hk|by apply (changed_changes db coll)].
  - rewrite <- (target_found _ Hdb _ Hcoll). intros Hno. apply compile_works; [done|]. intros f. apply works_storage; [done|by intros e; apply compileUpdate_throws|].
    intros apply _. apply works_ret; [done|]. intros s _. apply answer_updated_none; [by destruct many|done].
Qed.

Lemma insertOne_answers :
  omap_get server_commands (command request) ≠ Some CCreateIndex → answers (answer CInsertOne) (insertOne osL osC describe m request).
Proof using os_cleans Hreq.
  intros Hne. unfold insertOne. required db Hdb. required coll Hcoll. required document Hd.
  apply answers_translate. eapply outcomes_bind; [apply open_works; [by apply database_plain|by eapply plain_name]|]. intros u.
  apply run_works.
  - intros n Hn. pose proof added_pos. destruct (good_document _ _ Hd). split; [done|]. split; [apply Hreq|lia].
  - done.
  - done.
  - intros n [[|id [|]]| | | |] _ Hn Ha; try done. apply works_ret; [intros s; apply changed_ok|]. intros s Hs.
    apply (answer_inserted _ _ _ _ document); [by apply requireDocument_value|by apply (changed_changes db coll)].
Qed.

Lemma insertMany_admissible documents n :
  requireDocumentArrayParameter (parameters request) (js "documents") = Ok documents → n + added request < 2 ^ 31 →
  admissible n (InsertMany (Some (imap (λ i document, (VDoc document, generated m i)) documents))).
Proof using Hreq.
  intros Hd%requireArray_value Hn. split.
  - apply Forall_forall. intros vg Hi. apply elem_of_lookup_imap in Hi as (i & d & -> & E). split; [|apply Hreq].
    cbn [fst]. apply text_ok_good. eapply text_ok_in; [eapply text_ok_get; [apply Hreq|exact Hd]|].
    apply list_elem_of_In, in_map, list_elem_of_In. by eapply list_elem_of_lookup_2.
  - unfold added in Hn. rewrite Hd in Hn. unfold len in *. rewrite length_map in Hn.
    match goal with |- _ + Z.of_nat (length (default [] (Some (imap ?f ?l)))) < _ => change (n + Z.of_nat (length (imap f l)) < 2 ^ 31) end.
    rewrite length_imap. lia.
Qed.

Lemma insertMany_answers :
  omap_get server_commands (command request) ≠ Some CCreateIndex → answers (answer CInsertMany) (insertMany osL osC describe m request).
Proof using os_cleans Hreq.
  intros Hne. unfold insertMany. required db Hdb. required coll Hcoll. required documents Hd.
  apply answers_translate. eapply outcomes_bind; [apply open_works; [by apply database_plain|by eapply plain_name]|]. intros u.
  apply run_works; [|done|done|].
  - intros n Hn. by apply insertMany_admissible.
  - intros n [] Hn0 Hn Ha; try done. apply works_ret; [intros s; apply changed_ok|]. destruct (insertMany_admissible documents n Hd Hn) as [_ Hlen].
    intros s Hs. apply (answer_inserted_many _ _ _ _ documents); [by apply requireArray_value| |by apply (changed_changes db coll)].
    cbn [answered default] in Ha, Hlen. unfold id in Hlen. split; [apply len_nonneg|]. rewrite Ha. lia.
Qed.

Lemma createIndex_answers : 
  omap_get server_commands (command request) = Some CCreateIndex → answers (answer CCreateIndex) (createIndex osL osC describe request).
Proof using os_cleans Hreq.
  intros Hci. unfold createIndex. required db Hdb. required coll Hcoll. required index Hx. required input Hi.
  apply answers_translate. apply works_storage; [by intros s []|by intros e; apply normalize_throws|]. intros spec _.
  eapply outcomes_bind; [apply open_works; [by apply database_plain|by eapply plain_name]|]. intros u.
  apply run_works; [|done|done|].
  - intros n _. apply requireDocument_value in Hx. apply (index_plain index); [|done]. eapply text_ok_get; [apply Hreq|exact Hx].
  - intros n [] _ _ Ha; try done. apply works_ret; [intros s; apply changed_ok|]. intros s Hs.
    apply (answer_indexed _ _ _ _ index input); [by apply requireDocument_value|done|by apply (changed_changes db coll)].
Qed.

Lemma dropIndex_answers :
  omap_get server_commands (command request) ≠ Some CCreateIndex → answers (answer CDropIndex) (dropIndex osL osC describe request).
Proof using os_cleans Hreq.
  intros Hne. unfold dropIndex. required db Hdb. required coll Hcoll. required name Hname.
  apply answers_translate, get_works. intros [x|] _.
  - apply found_run; [done|done|done|done|]. intros n [] _ _ Ha; try done.
    apply works_ret; [intros s; apply changed_ok|]. intros s Hs.
    apply (answer_dropped _ _ _ _ name); [by apply requireString_value|by apply (changed_changes db coll)].
  - apply outcomes_throw. intros s [Hs _]. split; [|apply Hs]. eexists. split; [done|]. by eexists.
Qed.

Lemma listIndexes_answers : answers (answer CListIndexes) (listIndexes describe request).
Proof using.
  unfold listIndexes. required db Hdb. required coll Hcoll. apply answers_translate, get_works. intros x Hx.
  apply works_ret; [intros s; apply ready_kept|]. intros s _. rewrite <- Hx, <- (target_found _ Hdb _ Hcoll). constructor.
Qed.

(** A collection that was found is one of the invariant. *)
Lemma found_works {A B} (Q : B → ServerState → Prop) database collection x (r : result A) (k : A → action B) :
  (∀ v, coll_ok x v → ∀ e, r = Throw e → storage_failure e) →
  (∀ v a, coll_ok x v → r = Ok a → works Q server_ok (k a)) →
  works Q (λ s, ready s ∧ Cat.find_collection (catalog s.1) database collection = Some x) (a ← storage r; k a).
Proof using os_cleans.
  intros Ht Hk s [Hs Hx]. destruct (world_collections _ (server_world _ _ os_cleans _ _ _ (ready_ok _ Hs)) _ _ _ Hx) as [v Hv].
  pose proof (works_storage Q server_ok r k (λ s H, H) (Ht v Hv) (λ a, Hk v a Hv)) as Hw. apply Hw, Hs.
Qed.

Lemma explain_answers : answers (answer CExplain) (explain describe request).
Proof using os_cleans Hreq.
  unfold explain. required db Hdb. required coll Hcoll. required fields Hf. apply answers_translate, get_works. rewrite <- (target_found _ Hdb _ Hcoll). intros [x|] Hx.
  - apply found_works; [|intros v r _ Hr; apply works_ret; [done|]].
    + intros v Hv e. eapply explain_throws; [exact Hv|]. by eapply good_filter.
    + intros s _. apply (answer_explained _ _ _ _ x fields r); [by apply requireDocument_value|done..].
  - apply compile_works; [intros s; apply ready_kept|]. intros f. apply works_ret; [intros s; apply ready_kept|]. intros s _. by constructor.
Qed.

Lemma validateIndexes_answers : answers (answer CValidateIndexes) (validateIndexes describe detail request).
Proof using os_cleans.
  unfold validateIndexes. required db Hdb. required coll Hcoll. apply answers_translate, get_works. rewrite <- (target_found _ Hdb _ Hcoll). intros [x|] Hx.
  - apply found_works; [|intros v r Hv Hr; apply works_ret; [done|]].
    + intros v Hv e He. by rewrite (validate_returns x v Hv) in He.
    + intros s _. rewrite (validate_returns x v Hv) in Hr. injection Hr as <-. pose proof (answer_healthy m request before s) as H. by rewrite Hx in H.
  - apply works_ret; [intros s; apply ready_kept|]. intros s _. pose proof (answer_healthy m request before s) as H. by rewrite Hx in H.
Qed.

Lemma findOne_answers : answers (answer CFindOne) (findOne describe request).
Proof using os_cleans Hreq.
  unfold findOne. required db Hdb. required coll Hcoll. required fields Hf. apply answers_translate, get_works. rewrite <- (target_found _ Hdb _ Hcoll). intros [x|] Hx.
  - apply found_works.
    + intros v Hv e. eapply findOne_throws; [exact Hv|]. by eapply good_filter.
    + intros v [d|] Hv Hd; (apply works_ret; [done|]); intros s _.
      * destruct (findOne_member x v Hv (VDoc fields) d (good_filter _ _ Hf) Hd) as [i Hi].
        apply (answer_found _ _ _ _ x fields d i); [by apply requireDocument_value|done..].
      * apply (answer_none _ _ _ _ fields); [by apply requireDocument_value|]. rewrite Hx. by intros c [= <-].
  - apply works_ret; [intros s; apply ready_kept|]. intros s _. apply (answer_none _ _ _ _ fields); [by apply requireDocument_value|by rewrite Hx].
Qed.

Lemma find_answers : answers (answer CFind) (find describe m request).
Proof using os_cleans Hreq.
  unfold find. required db Hdb. required coll Hcoll. required fields Hf. required size Hsize. required options Ho.
  apply answers_translate, get_works. rewrite <- (target_found _ Hdb _ Hcoll).
  intros [x|] Hx; [|apply works_ret; [intros s; apply ready_kept|intros s _; by constructor]].
  intros s [Hs Hc]. pose proof (server_finds osL osC os_cleans states least db coll fields (sort options) (skip options) (limit options) s (ready_ok _ Hs)
    (good_filter _ _ Hf)) as Hfind. unfold mbind at 1, st_bind at 1.
  pose proof (λ i w', finds_query db coll fields (sort options) (skip options) (limit options) s.1 i w' x
    (server_world _ _ os_cleans _ _ _ (ready_ok _ Hs)) (good_filter _ _ Hf)) as Hq.
  unfold in_world in *. destruct s as [w cs]. cbn [fst] in *.
  destruct (Scans.Scans.find db coll fields _ _ _ w) as [[i|e] w1]; cbn [from_storage] in *; destruct Hfind as (Hs1 & Hi & E2);
    [|split; [destruct Hi as (y & E & Hy); by exists y|done]].
  destruct Hi as [Hu Hl]. pose proof (ready_cursors _ Hs) as Hn. rewrite <- E2 in Hn.
  destruct (Hq i w1 eq_refl Hc) as (specification & Hsort & Hdocuments).
  pose proof (server_opens osL osC states least m i size _ Hs1 Hn Hu Hl (batchSize_valid _ _ Hsize)) as Hopen.
  unfold mbind, st_bind. destruct (open_cursor m i size _) as [r s2]. destruct Hopen as (Hs2 & b & left & -> & Hrest & Hlen & Hleft).
  cbn [fst] in Hrest. rewrite Hrest in Hdocuments. split; [|exact Hs2].
  apply (answer_batch _ _ _ _ x fields options specification size _ left); [by apply requireDocument_value|done..].
Qed.

Lemma getMore_answers : answers (answer CGetMore) (getMore describe m request).
Proof using.
  unfold getMore. required id Hid. required size Hsize.
  eapply outcomes_rethrow with (X' := λ e s, (∃ z, e = CursorNotFoundError z) ∧ server_ok s).
  - intros s Hs. pose proof (server_continues osL osC states least m id size s (ready_ok _ Hs) (requireCursorId_value _ _ Hid) (batchSize_valid _ _ Hsize)) as Hm.
    unfold mbind, st_bind. destruct (more_of_cursor m id size s) as [[b|e] s']; [|by destruct Hm].
    destruct Hm as (Hs' & left & H1 & H2 & H3 & H4). split; [|exact Hs']. pose proof (ready_before _ Hs) as <-.
    apply (answer_more _ _ _ _ id size _ left); try done. by apply requireCursorId_given.
  - intros e s [[z ->] Hs]. split; [by eexists|done].
Qed.

Lemma closeCursor_answers : answers (answer CCloseCursor) (closeCursor request).
Proof using.
  unfold closeCursor. required id Hid. intros s Hs.
  pose proof (server_closes osL osC states least id s (ready_ok _ Hs) (requireCursorId_value _ _ Hid)) as Hc.
  unfold mbind, st_bind. destruct (close_cursor id s) as [r s']. destruct Hc as (Hs' & -> & Hc). split; [|done].
  pose proof (ready_before _ Hs) as <-. apply (answer_closed _ _ _ _ id); [by apply requireCursorId_given|done].
Qed.

(** Making a collection is the exception: an error of the storage package is thrown on. *)
Lemma createCollection_answers :
  outcomes ready (createCollection osL osC request) (λ d s, answer CCreateCollection d s ∧ server_ok s) (fails (λ e, answerable e ∨ storage_error e)).
Proof using os_cleans Hreq.
  unfold createCollection.
  apply outcomes_lift; [intros e s He Hs; split; [left; by eauto with requests|apply Hs]|intros db Hdb].
  apply outcomes_lift; [intros e s He Hs; split; [left; by eauto with requests|apply Hs]|intros coll Hcoll].
  eapply outcomes_rethrow with (X' := λ e s, catalog_error e ∧ server_ok s).
  - intros s Hs. pose proof (server_catalog _ _ _ _ _ (ready_ok _ Hs)) as Hc.
    pose proof (catalog_creates osL osC os_cleans states (catalog s.1) db coll Hc (database_plain db Hdb) (plain_name _ _ Hcoll)) as Ho.
    pose proof (server_changes osL osC os_cleans states least db coll (Cat.createCollection osL osC db coll) s (ready_ok _ Hs)) as Hch.
    unfold mbind, st_bind. destruct (in_world _ s) as [r s'].
    destruct (Cat.createCollection osL osC db coll (catalog s.1)) as [r0 c']. cbn [fst snd] in Hch.
    destruct Ho as [Hc' Ho]. destruct (Hch Hc') as (Hok & -> & Ec). destruct r0; [|by split]. split; [|exact Hok].
    destruct Ho as (-> & Hno & Hyes). pose proof (ready_before _ Hs) as <-. apply answer_created; [|by apply requireString_value|done|by rewrite Ec].
    unfold requireDatabase in Hdb. by destruct (database request); [injection Hdb as ->|].
  - intros e s [He Hs]. split; [|done]. destruct e as [x|code message|id|error]; [by right| |by right|by right].
    left. destruct code; by eexists.
Qed.

(** Every command answers, but for one. *)
Lemma dispatch_outcome :
  outcomes ready (dispatch osL osC describe detail m request) 
    (λ answer s, (∃ d c, answer = VDoc d ∧ omap_get server_commands (command request) = Some c ∧ answer_of m request before s c d) ∧ server_ok s)
    (fails (λ e, answerable e ∨ omap_get server_commands (command request) = Some CCreateCollection ∧ storage_error e)).
Proof using os_cleans Hreq.
  unfold dispatch. destruct (omap_get server_commands (command request)) as [c|] eqn:Ec.
  2: { apply outcomes_throw. intros s Hs. split; [left; by eexists|apply Hs]. }
  eapply outcomes_bind with (Q := λ d s, answer c d s ∧ server_ok s).
  2: { intros d. apply outcomes_ret. intros s [Hd Hs]. by split; [exists d, c|]. }
  assert (∀ f : action Document, answers (answer c) f → outcomes ready f (λ d s, answer c d s ∧ server_ok s)
    (fails (λ e, answerable e ∨ Some c = Some CCreateCollection ∧ storage_error e))) as Hf.
  { intros f Hf. eapply outcomes_weaken; [exact Hf|done|done|]. intros e s [He Hs]. by split; [left|]. }
  assert (c ≠ CCreateIndex → omap_get server_commands (command request) ≠ Some CCreateIndex) as Hne by congruence.
  destruct c; try specialize (Hne ltac:(done)); [apply Hf|apply Hf| |apply Hf..].
  - apply outcomes_ret. intros s [_ Hs _ _ _]. split; [by constructor|done].
  - apply listDatabases_answers.
  - eapply outcomes_weaken; [exact createCollection_answers|done|done|]. intros e s [[He|He] Hs]; (split; [|done]); [by left|right; by split].
  - apply listCollections_answers.
  - by apply insertOne_answers.
  - by apply insertMany_answers.
  - by apply (deleteDocuments_answers false).
  - by apply (deleteDocuments_answers true).
  - by apply replaceOne_answers.
  - by apply (updateDocuments_answers false).
  - by apply (updateDocuments_answers true).
  - apply findOne_answers.
  - apply find_answers.
  - apply getMore_answers.
  - apply closeCursor_answers.
  - by apply createIndex_answers.
  - by apply dropIndex_answers.
  - apply listIndexes_answers.
  - apply explain_answers.
  - apply validateIndexes_answers.
Qed.
End Commands.
