(* ===== verification/ServerLife.v ===== *)
(** * The server: its life

    Connections and what they ask for, one command after another: every state of
    the catalog, the iterators and the cursors of each connection that can be
    reached, and what a request is answered with there. *)

From stdpp Require Import gmap.
From S2P Require Import Prelude Errors JsNumber JsString JsValue Binary CustomId Codec Roundtrip FilterSpec Update IndexSpec IndexSet Stored Disk WriteAheadLog WalOperations Collection CollectionLemmas CollectionModel CollectionProperties Triples Engine EngineReplay EngineCommands EngineLife ServerErrors DocumentSize Cursors CursorProperties Catalog Scans ScanProperties ScanChanges CatalogProperties Dispatcher DispatcherProperties.
Import Scans.Scans Dispatcher.Dispatcher.
Import Cursors.Cursors(cursors).
Import Engine.Engine.Coll(documentCount).

(** What the engine does between requests: timers, turns of the event loop, commits. *)
Definition upkeep (command : EngineCommand) : bool :=
  match command with OpenCollection _ _ | OnCollection _ _ _ => false | _ => true end.

Definition set_engine (e : Engine.Engine.StorageEngine) (w : World) : World :=
  {| catalog := {| Cat.databases := Cat.databases (catalog w); Cat.engine := Some e |}; scans := scans w |}.

Section Life.
Context (osL osC : Z → Call → Outcome).
Context (describe : exn → jsstring) (detail : IndexSet.IndexSet.IndexIssue → jsstring).
Context (states : list State).

(** What a request and the server must be like: text that is read back, room for
    documents and cursors, and no index while a checkpoint is due. *)
Record acceptable (m : Moment) (request : CommandEnvelope) (w : World) (cs : CursorManager) : Prop := {
  acceptable_request : request_ok m request;
  acceptable_room : room (added request) (catalog w);
  acceptable_cursors : Z.of_nat (base.size (cursors cs)) < MAX_SAFE_INTEGER;
  acceptable_index : omap_get server_commands (command request) = Some CCreateIndex → index_ready osL osC (catalog w);
}.

(** The catalog and the iterators, and the cursors of each connection. *)
Inductive served : World → list CursorManager → Prop :=
  | served_new c : catalog_ok osL osC states c → served {| catalog := c; scans := [] |} []
  | served_connect w l options cs : served w l → Cursor.new options = Ok cs → served w (l ++ [cs])
  | served_request w l i cs m request : served w l → l !! i = Some cs → acceptable m request w cs →
      let s := (dispatch osL osC describe detail m request (w, cs)).2 in served s.1 (<[i := s.2]> l)
  | served_sweep w l i cs now : served w l → l !! i = Some cs → served w (<[i := (Cursor.sweepExpired now cs).2]> l)
  | served_clear w l i cs : served w l → l !! i = Some cs → served w (<[i := Cursor.clear cs]> l)
  | served_upkeep w l e command : served w l → Cat.engine (catalog w) = Some e → upkeep command = true →
      served (set_engine (EngineLife.exec osL osC command e).2 w) l.

Context (os_cleans : cleans osL).

(** The invariant of a server. *)
Definition all_ok (w : World) (l : list CursorManager) : Prop :=
  catalog_ok osL osC states (catalog w) ∧ world_ok w ∧ Forall (session_cursors w) l.

Lemma all_server w l cs i : all_ok w l → l !! i = Some cs → server_ok osL osC states (length (scans w)) (w, cs).
Proof using.
  intros (Hc & Hw & Hl) Hi. split; [done|done|apply Hw|]. rewrite Forall_lookup in Hl. by eapply Hl.
Qed.

(** The other sessions, when iterators have moved and new ones were made. *)
Lemma others_ok w w' l :
  Forall (session_cursors w) l → world_ok w' → (length (scans w) ≤ length (scans w'))%nat → Forall (session_cursors w') l.
Proof using.
  intros Hl Hw Hn. eapply Forall_impl; [exact Hl|]. intros cs Hcs. eapply session_moves; [exact Hcs|by apply world_sound|done].
Qed.

Lemma served_all w l : served w l → all_ok w l.
Proof using os_cleans.
  induction 1 as [c Hc|w l options cs _ IH Hcs|w l i cs m request _ IH Hi [H1 H2 H3 H4] s|w l i cs now _ IH Hi|w l i cs _ IH Hi|w l e command _ IH He Hu].
  - split; [done|]. split; [|done]. split; [intros db coll x; by apply (catalog_collections osL osC os_cleans states)|done].
  - destruct IH as (Hc & Hw & Hl). split; [done|]. split; [done|]. apply Forall_app. split; [done|]. constructor; [|constructor].
    unfold Cursor.new in Hcs. destruct (negb _); [done|]. destruct (negb _); [done|]. injection Hcs as <-.
    split; [split; [by apply world_sound|cbn; unfold MAX_SAFE_INTEGER; lia|..]|]; cbn; intros id st; by rewrite lookup_empty.
  - pose proof (all_server w l cs i IH Hi) as Hs.
    pose proof (dispatch_outcome osL osC os_cleans describe detail states (length (scans w)) m request H1 (w, cs) (w, cs) ltac:(by split)) as Ho.
    assert (server_ok osL osC states (length (scans w)) s) as Hs'.
    { unfold s. destruct (dispatch _ _ _ _ _ _ _) as [[a|e] s']; apply Ho. }
    destruct IH as (_ & _ & Hl). pose proof (server_world _ _ os_cleans _ _ _ Hs') as Hw'. destruct Hs' as [H5 H6 _ H7].
    split; [done|]. split; [done|]. apply Forall_insert; [|done]. by eapply others_ok.
  - destruct IH as (Hc & Hw & Hl). split; [done|]. split; [done|]. apply Forall_insert; [done|].
    rewrite Forall_lookup in Hl. destruct (Hl i cs Hi) as [Hm Hit]. split; [by apply sweep_ok|exact (iterators_sweep (λ j, (j < length (scans w))%nat) now cs Hit)].
  - destruct IH as (Hc & Hw & Hl). split; [done|]. split; [done|]. apply Forall_insert; [done|].
    rewrite Forall_lookup in Hl. destruct (Hl i cs Hi) as [[G1 G2 _ _] _]. split; [split; [done|done|..]|]; cbn; intros id st; by rewrite lookup_empty.
  - destruct IH as (Hc & [Hw1 Hw2] & Hl). unfold catalog_ok in Hc. rewrite He in Hc.
    assert (catalog_ok osL osC states (catalog (set_engine (EngineLife.exec osL osC command e).2 w))) as Hc'.
    { apply (reached_more osL osC states e command Hc). by destruct command. }
    split; [done|]. assert (world_ok (set_engine (EngineLife.exec osL osC command e).2 w)) as Hw'.
    { split; [|exact Hw2]. intros db coll x. by apply (catalog_collections osL osC os_cleans states). }
    split; [done|]. by eapply others_ok.
Qed.
End Life.

(** ** A small server

    The engine of EngineLife.v, and one connection. *)
Definition requestb (m : Moment) (request : CommandEnvelope) : bool :=
  match database request with Some d => plainb d | None => true end &&
  wf_value (VDoc (parameters request)) &&
  text_all (λ s, plainb s && no_bom s) (VDoc (parameters request)) &&
  storable top_levels (VDoc (parameters request)) && (len (enc (VDoc (parameters request))) <=? MAX_PAYLOAD_SIZE) &&
  generatedb (generated m 0).

(** The collections of a catalog. *)
Definition collections_of (c : Cat.InMemoryCatalog) : Engine.Engine.Databases CatalogProperties.InMemoryCollection :=
  match Cat.engine c with Some e => Engine.Engine.databases e | None => Cat.databases c end.

Definition roomb (n : Z) (c : Cat.InMemoryCatalog) : bool :=
  (n <? 2 ^ 31) &&
  forallb (λ d : jsstring * _, forallb (λ x : jsstring * _, documentCount x.2 + n <? 2 ^ 31) d.2) (collections_of c).

Definition makes_an_index (request : CommandEnvelope) : bool :=
  match omap_get server_commands (command request) with Some CCreateIndex => true | _ => false end.

Definition acceptableb (m : Moment) (request : CommandEnvelope) (w : World) (cs : CursorManager) : bool :=
  requestb m request && roomb (added request) (catalog w) && (Z.of_nat (base.size (cursors cs)) <? MAX_SAFE_INTEGER) &&
  negb (makes_an_index request).

Lemma requestb_ok m request :
  (∀ i, generated m i = generated m 0%nat) → requestb m request = true → request_ok m request.
Proof.
  intros Hg. unfold requestb. rewrite !andb_true_iff. intros [[[[[H1 H2] H3] H4] H5%Z.leb_le] H6]. split.
  - intros d Hd. rewrite Hd in H1. by apply plainb_plain.
  - by split.
  - by split.
  - intros i. rewrite Hg. by apply generatedb_ok.
Qed.

Lemma roomb_room n c : roomb n c = true → room n c.
Proof.
  unfold roomb. intros [H1%Z.ltb_lt H2]%andb_true_iff. split; [done|]. intros db coll x Hx.
  assert (Engine.Engine.lookup (collections_of c) db coll = Some x) as Hl.
  { unfold Cat.find_collection, collections_of in *. by destruct (Cat.engine c). }
  unfold Engine.Engine.lookup in Hl. destruct (omap_get (collections_of c) db) as [cs|] eqn:Ed; [|done].
  apply omap_get_Some_in, list_elem_of_In in Ed. apply omap_get_Some_in, list_elem_of_In in Hl. rewrite forallb_forall in H2.
  specialize (H2 _ Ed). rewrite forallb_forall in H2. by apply Z.ltb_lt, (H2 _ Hl).
Qed.

Lemma acceptableb_ok osL osC m request w cs :
  (∀ i, generated m i = generated m 0%nat) → acceptableb m request w cs = true → acceptable osL osC m request w cs.
Proof.
  intros Hg. unfold acceptableb. rewrite !andb_true_iff. intros [[[H1 H2] H3%Z.ltb_lt] H4]. split.
  - by apply requestb_ok.
  - by apply roomb_room.
  - done.
  - intros Hc. unfold makes_an_index in H4. by rewrite Hc in H4.
Qed.

Definition sample_moment (z : Z) : Moment := {| generated := λ _, sample_id z; sweep := 0; now := 0 |}.

Definition request_of (name : jsstring) (fields : Document) : CommandEnvelope := {|
  command := name; database := Some (js "shop"); parameters := (js "collection", VString (js "items")) :: fields |}.

Definition sample_requests : list (Moment * CommandEnvelope) :=
  [(sample_moment 31, request_of (js "insertOne") [(js "document", sample_document 31)]);
   (sample_moment 32, request_of (js "find") [(js "filter", VDoc []); (js "batchSize", number_value 1)]);
   (sample_moment 33, request_of (js "insertOne") [(js "document", sample_document 1)]);
   (sample_moment 34, request_of (js "deleteOne") [(js "filter", VDoc [(js "n", sample_number 31)])]);
   (sample_moment 35, {| command := js "getMore"; database := None;
                         parameters := [(js "cursorId", number_value 1); (js "batchSize", number_value 5)] |})].

Definition sample_describe (e : exn) : jsstring := js "refused".
Definition sample_detail (issue : IndexSet.IndexSet.IndexIssue) : jsstring := js "wrong".

Definition sample_dispatch (x : Moment * CommandEnvelope) (s : ServerState) : res ServerError DocumentValue * ServerState :=
  dispatch quiet_os quiet_os sample_describe sample_detail x.1 x.2 s.

Definition serve_all (requests : list (Moment * CommandEnvelope)) (s : ServerState) : ServerState :=
  fold_left (λ s x, (sample_dispatch x s).2) requests s.

Fixpoint all_acceptable (requests : list (Moment * CommandEnvelope)) (s : ServerState) : bool :=
  match requests with
  | [] => true
  | x :: requests => acceptableb x.1 x.2 s.1 s.2 && all_acceptable requests (sample_dispatch x s).2
  end.

(** The server after the first [n] requests. *)
Definition sample_server (n : nat) : option ServerState :=
  match sample_engine 5 with
  | Some e => Some (serve_all (firstn n sample_requests) ({| catalog := Cat.new (Some e); scans := [] |}, sample_cursors))
  | None => None
  end.

Lemma all_acceptable_firstn n requests s : all_acceptable requests s = true → all_acceptable (firstn n requests) s = true.
Proof.
  revert n s. induction requests as [|x requests IH]; intros [|n] s; [done..|]. cbn [firstn all_acceptable].
  intros [-> H]%andb_true_iff. by apply IH.
Qed.

Abbreviation sample_life := (served quiet_os quiet_os sample_describe sample_detail).

Lemma served_requests states requests w cs :
  sample_life states w [cs] → Forall (λ x : Moment * CommandEnvelope, ∀ i, generated x.1 i = generated x.1 0%nat) requests →
  all_acceptable requests (w, cs) = true →
  let s := serve_all requests (w, cs) in sample_life states s.1 [s.2].
Proof.
  revert w cs. induction requests as [|x requests IH]; intros w cs Hs Hg Ha; [done|].
  apply Forall_cons in Hg as [Hx Hg]. cbn [all_acceptable fst snd] in Ha. apply andb_true_iff in Ha as [Ha Hr].
  cbn [serve_all fold_left]. pose proof (served_request quiet_os quiet_os sample_describe sample_detail states w [cs] 0%nat cs x.1 x.2 Hs eq_refl
    (acceptableb_ok _ _ _ _ _ _ Hx Ha)) as Hs'.
  fold (sample_dispatch x (w, cs)) in Hs'. destruct (sample_dispatch x (w, cs)) as [r [w' cs']]. exact (IH w' cs' Hs' Hg Hr).
Qed.

Lemma sample_served n :
  match sample_server n with Some s => ∃ states, sample_life states s.1 [s.2] | None => False end.
Proof.
  assert (match sample_engine 5 with
    | Some e => all_acceptable sample_requests ({| catalog := Cat.new (Some e); scans := [] |}, sample_cursors) = true
    | None => False end) as Ha by (vm_compute; reflexivity).
  unfold sample_server. pose proof (sample_reached 5) as Hr. destruct (sample_engine 5) as [e|]; [|done]. destruct Hr as (states & Hr).
  exists states. apply served_requests.
  - apply (served_connect _ _ _ _ _ _ [] {| Cursor.opt_idleTimeoutMS := None; Cursor.opt_maxBatchBytes := None |}); [|done].
    apply served_new. exists []. by rewrite app_nil_r.
  - apply Forall_take. repeat constructor.
  - by apply all_acceptable_firstn.
Qed.

(** ** Properties *)
Section Properties.
Context (osL osC : Z → Call → Outcome) (os_cleans : cleans osL).
Context (describe : exn → jsstring) (detail : IndexSet.IndexSet.IndexIssue → jsstring) (states : list State).

Lemma request_outcome w l i cs m request :
  served osL osC describe detail states w l → l !! i = Some cs → acceptable osL osC m request w cs →
  match dispatch osL osC describe detail m request (w, cs) with
  | (Ok answer, s) => ∃ d c, answer = VDoc d ∧ omap_get server_commands (command request) = Some c ∧
      answer_of m request (w, cs) s c d
  | (Throw e, _) => (∃ error, e = CommandError error) ∨
      omap_get server_commands (command request) = Some CCreateCollection ∧ storage_error e
  end.
Proof using os_cleans.
  intros Hs Hi [H1 H2 H3 H4]. pose proof (served_all _ _ _ _ _ os_cleans w l Hs) as Ha.
  pose proof (all_server _ _ _ w l cs i Ha Hi) as Hok.
  pose proof (dispatch_outcome osL osC os_cleans describe detail states (length (scans w)) m request H1 (w, cs) (w, cs) ltac:(by split)) as Ho.
  destruct (dispatch _ _ _ _ _ _ _) as [[a|e] s']; apply Ho.
Qed.

(** C6: Whatever connections ask for, one command after another, and whatever the
    engine does between them: every collection satisfies its invariant, the engine is
    one that can be reached, every iterator is that of a query, and the cursors of
    every connection hold a document each, under ids and over iterators that differ. *)
Theorem served_ok w l : served osL osC describe detail states w l → all_ok osL osC states w l.
Proof using os_cleans. by apply served_all. Qed.

(** C7: A request that is acceptable is answered with the document of its command
    ([answer_of]), or with an error that has a code and a name; only making a
    collection may throw an error of the storage package on. A command that changes
    a collection, or makes or drops an index, is answered with what the model of
    collections accepts it with, on the collection before and after; one that finds,
    explains or looks at indexes with what its collection holds; a find or getMore
    with the next documents of the query, and a cursor that has the others; closing
    a cursor with whether there was one. *)
Theorem request_answered w l i cs m request :
  served osL osC describe detail states w l → l !! i = Some cs → acceptable osL osC m request w cs →
  match dispatch osL osC describe detail m request (w, cs) with
  | (Ok answer, s) => ∃ d c, answer = VDoc d ∧ omap_get server_commands (command request) = Some c ∧
      answer_of m request (w, cs) s c d
  | (Throw e, _) => (∃ error, e = CommandError error) ∨
      omap_get server_commands (command request) = Some CCreateCollection ∧ storage_error e
  end.
Proof using os_cleans. apply request_outcome. Qed.
End Properties.

(** An answer and an error of the sample. *)
Lemma served_ok_witness :
  match sample_server 2 with
  | Some s => (∃ states, all_ok quiet_os quiet_os states s.1 [s.2]) ∧ base.size (cursors s.2) = 1%nat ∧ length (scans s.1) = 1%nat
  | None => False
  end.
Proof.
  pose proof (sample_served 2) as H.
  assert (match sample_server 2 with Some s => base.size (cursors s.2) = 1%nat ∧ length (scans s.1) = 1%nat | None => False end) as Hn
    by (vm_compute; by split).
  destruct (sample_server 2) as [s|]; [|exact H]. split; [|exact Hn]. destruct H as (states & H). exists states.
  exact (served_ok quiet_os quiet_os quiet_cleans sample_describe sample_detail states s.1 [s.2] H).
Defined.

(** An insertion that a unique index refuses. *)
Example duplicate_refused :
  match sample_server 2, sample_requests !! 2%nat with
  | Some s, Some x => match (sample_dispatch x s).1 with Throw (CommandError error) => error_code error = WireErrorCode.DuplicateKey | _ => False end
  | _, _ => False
  end.
Proof. vm_compute. reflexivity. Qed.

Lemma answer_more_inv m request before after d :
  answer_of m request before after CGetMore d →
  ∃ id documents left cursor, d = batch_document cursor documents ∧ obj_get (parameters request) (js "cursorId") = Some (VNumber id) ∧
    cursor_left before (Z_of_number id) = Some (documents ++ left) ∧ leaves after cursor left.
Proof.
  inversion 1; try match goal with many : bool |- _ => by destruct many end; [done|]. by do 4 eexists.
Qed.

(** The next batch of a cursor, after a document that it has returned was deleted. *)
Lemma request_answered_witness :
  match sample_server 4, sample_requests !! 4%nat with
  | Some s, Some x => ∃ document left cursor, cursor_left s 1 = Some (document :: left) ∧
      sample_dispatch x s = (Ok (VDoc (batch_document cursor [document])), (sample_dispatch x s).2) ∧ leaves (sample_dispatch x s).2 cursor left
  | _, _ => False
  end.
Proof.
  pose proof (sample_served 4) as H.
  assert (match sample_server 4 with
    | Some s => match sample_requests !! 4%nat with
                | Some x => acceptableb x.1 x.2 s.1 s.2 = true ∧ omap_get server_commands (command x.2) = Some CGetMore ∧
                    omap_get (parameters x.2) (js "cursorId") = Some (number_value 1) ∧
                    match (sample_dispatch x s).1 with
                    | Ok (VDoc d) => match omap_get d (js "documents") with Some (VArray [_]) => True | _ => False end
                    | _ => False end
                | None => False
                end
    | None => False end) as Hn by (vm_compute; repeat split).
  destruct (sample_server 4) as [[w cs]|]; [|exact H]. change (sample_requests !! 4%nat) with (Some (nth 4 sample_requests (sample_moment 0, request_of [] []))) in *.
  set (x := nth 4 sample_requests (sample_moment 0, request_of [] [])) in *.
  destruct Hn as (Ha & Hc & Hid & Hn). destruct H as (states & H). cbn [fst snd] in *.
  pose proof (request_answered quiet_os quiet_os quiet_cleans sample_describe sample_detail states w [cs] 0%nat cs x.1 x.2 H eq_refl
    (acceptableb_ok quiet_os quiet_os x.1 x.2 w cs (λ _, eq_refl) Ha)) as Hr.
  unfold sample_dispatch in *. destruct (dispatch _ _ _ _ _ _ _) as [[a|e] s']; [|destruct Hn]. cbn [fst snd] in *.
  destruct Hr as (d & c & -> & Ec & Hd). rewrite Hc in Ec. injection Ec as <-.
  destruct (answer_more_inv _ _ _ _ _ Hd) as (id & documents & left & cursor & -> & Hg & Hl & Hleft).
  pose proof (eq_trans (eq_sym Hid) Hg) as Hz. injection Hz as <-. change (Z_of_number (number_of_Z 1)) with 1 in Hl.
  destruct documents as [|document [|]]; [destruct Hn| |destruct Hn]. exists document, left, cursor.
  split; [exact Hl|]. split; [reflexivity|exact Hleft].
Defined.
