(* ===== verification/Session.v ===== *)
(** * Sessions

    packages/server/src/session.ts, one connection and its messages, and
    packages/server/src/group-commit.ts, which holds the answers of all of them until
    the storage engine has flushed what they rely on. The socket is what has been
    written to it, and whether it has been ended or destroyed. *)

From S2P Require Import Prelude Errors JsNumber JsString JsValue Binary Frame Message IndexSet Disk WriteAheadLog Engine ServerErrors Cursors Catalog Scans Dispatcher.

Module Session.
Import Scans.Scans Dispatcher.Dispatcher.

(** ** Sockets *)
Record Socket := { written : list bytes; writableEnded : bool; destroyed : bool }.

Definition new_socket : Socket := {| written := []; writableEnded := false; destroyed := false |}.

Definition destroy (s : Socket) : Socket :=
  {| written := written s; writableEnded := writableEnded s; destroyed := true |}.

(** [socket.write]; after the end it is an error of the connection, which the
    session answers with [destroy]. *)
Definition socket_write (data : bytes) (s : Socket) : Socket :=
  if destroyed s then s
  else if writableEnded s then destroy s
  else {| written := written s ++ [data]; writableEnded := false; destroyed := false |}.

(** [socket.end()] and [socket.end(data)]. *)
Definition socket_end (data : option bytes) (s : Socket) : Socket :=
  if destroyed s then s
  else if writableEnded s then match data with Some _ => destroy s | None => s end
  else {| written := written s ++ match data with Some data => [data] | None => [] end;
          writableEnded := true; destroyed := false |}.

(** ** State *)
Inductive ServerSessionState := AwaitingHandshake | Ready | Closing | Closed.

#[export] Instance state_eq_dec : EqDecision ServerSessionState.
Proof. solve_decision. Defined.

Record ServerSession := {
  socket : Socket;
  decoder : Stream.decoder;
  cursors : CursorManager;
  held : list bytes;
  holding : bool;
  endAfterRelease : bool;
  currentState : ServerSessionState;
}.

(** [GroupCommitter]: the sessions whose callbacks wait for the next flush. *)
Record GroupCommitter := { waiting : list nat; scheduled : bool }.

(** What sessions share; [faults] is what was given to [onError]. *)
Record Shared := { world : World; committer : option GroupCommitter; faults : list ServerError }.

Definition set_world (w : World) (s : Shared) : Shared := {| world := w; committer := committer s; faults := faults s |}.
Definition set_committer (c : option GroupCommitter) (s : Shared) : Shared :=
  {| world := world s; committer := c; faults := faults s |}.
Definition add_fault (error : ServerError) (s : Shared) : Shared :=
  {| world := world s; committer := committer s; faults := faults s ++ [error] |}.

Definition set_socket (k : Socket) (s : ServerSession) : ServerSession := {|
  socket := k; decoder := decoder s; cursors := cursors s; held := held s; holding := holding s;
  endAfterRelease := endAfterRelease s; currentState := currentState s |}.
Definition set_decoder (d : Stream.decoder) (s : ServerSession) : ServerSession := {|
  socket := socket s; decoder := d; cursors := cursors s; held := held s; holding := holding s;
  endAfterRelease := endAfterRelease s; currentState := currentState s |}.
Definition set_cursors (c : CursorManager) (s : ServerSession) : ServerSession := {|
  socket := socket s; decoder := decoder s; cursors := c; held := held s; holding := holding s;
  endAfterRelease := endAfterRelease s; currentState := currentState s |}.
Definition set_held (l : list bytes) (b : bool) (e : bool) (s : ServerSession) : ServerSession := {|
  socket := socket s; decoder := decoder s; cursors := cursors s; held := l; holding := b;
  endAfterRelease := e; currentState := currentState s |}.
Definition set_state (t : ServerSessionState) (s : ServerSession) : ServerSession := {|
  socket := socket s; decoder := decoder s; cursors := cursors s; held := held s; holding := holding s;
  endAfterRelease := endAfterRelease s; currentState := t |}.

(** The cursors of [new CursorManager()]. *)
Definition new_cursors : CursorManager :=
  {| Cursor.cursors := ∅; Cursor.nextCursorId := 1; Cursor.idleTimeoutMS := Cursor.DEFAULT_CURSOR_IDLE_TIMEOUT_MS;
     Cursor.maxBatchBytes := Cursor.DEFAULT_CURSOR_BATCH_BYTES |}.

Definition new : ServerSession := {|
  socket := new_socket; decoder := Stream.new; cursors := new_cursors; held := []; holding := false;
  endAfterRelease := false; currentState := AwaitingHandshake |}.

Definition canReceiveMessages (s : ServerSession) : bool :=
  bool_decide (currentState s = AwaitingHandshake) || bool_decide (currentState s = Ready).

(** ** The barrier *)

(** [engine.hasUncommittedWrites] of the engine of the catalog. *)
Definition hasPending (s : Shared) : bool :=
  match Cat.engine (catalog (world s)) with Some e => Engine.Engine.hasUncommittedWrites e | None => false end.

Definition whenDurable (self : nat) (c : GroupCommitter) : GroupCommitter :=
  {| waiting := waiting c ++ [self]; scheduled := true |}.

(** ** Messages *)
Definition encode (kind : Z) (requestId : Z) (payload : Document) : result bytes :=
  Message.encodeMessage {| Message.in_kind := kind; Message.in_requestId := number_of_Z requestId;
                           Message.in_payload := payload; Message.in_flags := None |}.

(** The payload of a command, which has been validated. *)
Definition envelope_of (payload : Document) : CommandEnvelope := {|
  command := match obj_get payload (js "command") with Some (VString s) => s | _ => [] end;
  database := match obj_get payload (js "database") with Some (VString s) => Some s | _ => None end;
  parameters := match obj_get payload (js "parameters") with Some (VDoc d) => d | _ => [] end |}.

Definition error_payload (code : Z) (name message : jsstring) (details : option Document) : Document :=
  [(js "code", number_value code); (js "name", VString name); (js "message", VString message);
   (js "retryable", VBool false)]
  ++ match details with Some details => [(js "details", VDoc details)] | None => [] end.

Section Session.
Context (osL osC : Z → Call → Outcome).
Context (describe : exn → jsstring) (detail : IndexSet.IndexSet.IndexIssue → jsstring).
Context (self : nat) (product productVersion : jsstring).

Abbreviation action A := (ST (Shared * ServerSession) exn A).

Definition this {A} (f : ServerSession → A) : action A := st_get (λ s, f s.2).
Definition update (f : ServerSession → ServerSession) : action () := st_update (λ s, (s.1, f s.2)).
Definition share (f : Shared → Shared) : action () := st_update (λ s, (f s.1, s.2)).

Definition on_socket (f : Socket → Socket) : action () := update (λ s, set_socket (f (socket s)) s).

(** [onError]. *)
Definition onError (error : ServerError) : action () := share (add_fault error).

Definition write (data : bytes) : action () :=
  holding ← this holding;
  if holding : bool
  then update (λ s, set_held (held s ++ [data]) true (endAfterRelease s) s)
  else on_socket (socket_write data).

Definition send (kind requestId : Z) (payload : Document) : action () :=
  data ← st_lift (encode kind requestId payload);
  write data.

Definition sendError (requestId code : Z) (name message : jsstring) (closeConnection : bool) (details : option Document)
    : action () :=
  encoded ← st_lift (encode MessageKind.Error requestId (error_payload code name message details));
  if closeConnection then
    _ ← update (set_state Closing);
    holding ← this holding;
    if holding : bool
    then update (λ s, set_held (held s ++ [encoded]) true true s)
    else on_socket (socket_end (Some encoded))
  else write encoded.

(** [close], which a server calls on none of its sessions. *)
Definition close : action () :=
  state ← this currentState;
  match state with
  | Closing | Closed => mret ()
  | _ => _ ← update (set_state Closing); on_socket (socket_end None)
  end.

Definition holdUntilDurable : action () :=
  holding ← this holding;
  pending ← st_get (λ s : Shared * ServerSession, hasPending s.1);
  committer ← st_get (λ s : Shared * ServerSession, committer s.1);
  match committer with
  | Some c =>
      if holding || negb pending then mret ()
      else
        _ ← update (λ s, set_held (held s) true (endAfterRelease s) s);
        share (set_committer (Some (whenDurable self c)))
  | None => mret ()
  end.

(** [release], with the error of the flush. *)
Definition release (error : option exn) : action () :=
  _ ← update (λ s, set_held (held s) false (endAfterRelease s) s);
  held ← this held;
  ending ← this endAfterRelease;
  _ ← update (λ s, set_held [] false false s);
  k ← this socket;
  if destroyed k || writableEnded k then mret ()
  else
    match error with
    | Some error => _ ← onError (StorageFailure error); on_socket destroy
    | None =>
        _ ← st_each (λ data, on_socket (socket_write data)) held;
        if ending : bool then on_socket (socket_end None) else mret ()
    end.

Definition failCommand (requestId : Z) (error : ServerError) : action () :=
  _ ← onError error;
  sendError requestId WireErrorCode.InternalError (js "InternalError")
    (js "The server failed to execute the command.") false None.

Definition dispatch_command (m : Moment) (command : CommandEnvelope) : action (outcome DocumentValue) :=
  λ '(s, session),
    let '(r, (w, c)) := dispatch osL osC describe detail m command (world s, cursors session) in
    (Ok r, (set_world w s, set_cursors c session)).

Definition handleCommand (m : Moment) (requestId : Z) (command : CommandEnvelope) : action () :=
  r ← dispatch_command m command;
  match r with
  | Throw error =>
      _ ← holdUntilDurable;
      match error with
      | CommandError error =>
          sendError requestId (error_code error) (error_name error) (error_message error) false (error_details error)
      | error => failCommand requestId error
      end
  | Ok value =>
      _ ← holdUntilDurable;
      st_catch (send MessageKind.Result requestId [(js "value", value)])
        (λ error, match error with
                  | ProtocolError PayloadTooLarge =>
                      sendError requestId WireErrorCode.InternalError (js "ResultTooLarge")
                        (js "The result is larger than the 16 MiB message limit. Request fewer or smaller documents.")
                        false None
                  | error => failCommand requestId (StorageFailure error)
                  end)
  end.

(** A message that may not be sent, and closes the connection or not. *)
Definition reject (requestId code : Z) (name message : jsstring) (closeConnection : bool) : action () :=
  sendError requestId code name message closeConnection None.

Definition version_text (version : number) : jsstring := number_text (Z_of_number version).

Definition handleHandshake (message : DecodedMessage) : action () :=
  let payload := Message.payload message in
  let requestId := Message.requestId message in
  if negb (Message.kind message =? MessageKind.Handshake) then
    reject requestId WireErrorCode.InvalidRequest (js "InvalidRequest")
      (js "The first message on a connection must be a handshake.") true
  else if negb (Message.equals_string (obj_get payload (js "role")) (js "client")) then
    reject requestId WireErrorCode.InvalidRequest (js "InvalidRequest")
      (js "The opening handshake must use the client role.") true
  else
    let version := match obj_get payload (js "protocolVersion") with Some (VNumber n) => n | _ => number_of_Z 0 end in
    if negb (isInteger version && (Z_of_number version =? PROTOCOL_VERSION)) then
      reject requestId WireErrorCode.UnsupportedProtocolVersion (js "UnsupportedProtocolVersion")
        (js "Protocol version " ++ version_text version ++ js " is not supported.") true
    else
      _ ← send MessageKind.Handshake requestId
            [(js "role", VString (js "server")); (js "protocolVersion", number_value PROTOCOL_VERSION);
             (js "product", VString product); (js "productVersion", VString productVersion);
             (js "capabilities", VArray capabilities)];
      update (set_state Ready).

Definition handleMessage (m : Moment) (message : DecodedMessage) : action () :=
  let requestId := Message.requestId message in
  let kind := Message.kind message in
  if requestId =? 0 then
    reject 0 WireErrorCode.InvalidRequest (js "InvalidRequest") (js "Client requests must use a non-zero request ID.") true
  else
    state ← this currentState;
    match state with
    | AwaitingHandshake => handleHandshake message
    | _ =>
        if kind =? MessageKind.Ping then
          send MessageKind.Result requestId
            [(js "value", VDoc [(js "ok", VBool true);
               (js "sentAt", default VNull (obj_get (Message.payload message) (js "sentAt")));
               (js "receivedAt", VDate (Some (now m)))])]
        else if kind =? MessageKind.Command then handleCommand m requestId (envelope_of (Message.payload message))
        else if kind =? MessageKind.Handshake then
          reject requestId WireErrorCode.InvalidRequest (js "InvalidRequest")
            (js "The connection handshake has already completed.") false
        else
          reject requestId WireErrorCode.InvalidRequest (js "InvalidRequest")
            (js "Clients may only send handshake, ping, and command messages.") false
    end.

Definition handleProtocolFailure (error : exn) : action () :=
  sendError 0 WireErrorCode.InvalidRequest (js "InvalidRequest") (describe error) true
    (Some (match error with
           | ProtocolError code => [(js "protocolErrorCode", VString (protocol_code_string code))]
           | _ => []
           end)).

(** The loop over the messages of a chunk, each with its moment. *)
Fixpoint handle_messages (moments : nat → Moment) (messages : list DecodedMessage) : action () :=
  match messages with
  | [] => mret ()
  | message :: messages =>
      can ← this canReceiveMessages;
      if can : bool then
        _ ← handleMessage (moments O) message;
        handle_messages (λ i, moments (S i)) messages
      else mret ()
  end.

(** The decoder's [push], which changes it whether it throws or not. *)
Definition push (chunk : bytes) : action (result (list DecodedMessage)) := λ '(s, session),
  let (r, d) := Stream.push (decoder session) chunk in (Ok r, (s, set_decoder d session)).

Definition handleData (moments : nat → Moment) (chunk : bytes) : action () :=
  can ← this canReceiveMessages;
  if can : bool then
    r ← push chunk;
    match r with
    | Throw error => handleProtocolFailure error
    | Ok messages => handle_messages moments messages
    end
  else mret ().

(** ** The other events of a socket *)
Definition handleError : action () := on_socket destroy.

Definition handleClose : action () :=
  _ ← update (λ s, set_cursors (Cursor.clear (cursors s)) s);
  _ ← update (λ s, set_decoder (Stream.reset (decoder s)) s);
  update (set_state Closed).

Definition sweepCursors (now : Z) : action () := update (λ s, set_cursors (Cursor.sweepExpired now (cursors s)).2 s).
End Session.

(** ** The flush *)
Section Server.
Context (osL osC : Z → Call → Outcome).

(** A server: what its sessions share, and the sessions. *)
Record Server := { shared : Shared; sessions : list ServerSession }.

(** A handler of one session; an error that it does not catch is one of the process. *)
Definition on_session (i : nat) (m : nat → ST (Shared * ServerSession) exn ()) : ST Server exn () := λ s,
  match sessions s !! i with
  | None => (Ok (), s)
  | Some session =>
      let '(r, (sh, session)) := m i (shared s, session) in
      (r, {| shared := sh; sessions := <[i := session]> (sessions s) |})
  end.

(** [commit] of the engine. *)
Definition engine_commit (s : Shared) : option exn * Shared :=
  match Cat.engine (catalog (world s)) with
  | None => (None, s)
  | Some e =>
      let (r, e) := Engine.Engine.commit osL e in
      (match r with Ok _ => None | Throw error => Some error end,
       set_world {| catalog := {| Cat.databases := Cat.databases (catalog (world s)); Cat.engine := Some e |};
                    scans := scans (world s) |} s)
  end.

(** [run] of the group committer, the callback of [setImmediate]. *)
Definition run_commit : ST Server exn () := λ s,
  match committer (shared s) with
  | Some c =>
      if scheduled c then
        let callbacks := waiting c in
        let sh := set_committer (Some {| waiting := []; scheduled := false |}) (shared s) in
        let (failure, sh) := engine_commit sh in
        st_each (λ i, on_session i (λ _, release failure)) callbacks {| shared := sh; sessions := sessions s |}
      else (Ok (), s)
  | None => (Ok (), s)
  end.
End Server.
End Session.
