(* ===== verification/SessionProperties.v ===== *)
(** * Sessions: properties

    The messages of a connection are answered in their order, each once, with the
    number of its request and the reply to it ([reply]), unless that does not fit in
    a frame; what is not of the protocol is refused; and no answer to a command is written to the socket while the
    storage engine has writes that are not flushed. *)

From stdpp Require Import gmap.
From S2P Require Import Prelude Errors JsNumber JsString JsValue Binary Codec Frame Message IndexSet CollectionModel CollectionProperties Disk WriteAheadLog Triples Engine EngineLife DocumentSize ServerErrors Cursors Catalog Scans Dispatcher ServerLife Session.
Import Scans.Scans(catalog,scans) Dispatcher.Dispatcher(CommandEnvelope,Moment) Session.Session.
Module Cat := Catalog.Catalog.

(** What a session has said: what is written, and what is held. *)
Definition sent (s : ServerSession) : list bytes := written (socket s) ++ held s.

Definition socket_open (k : Socket) : Prop := destroyed k = false ∧ writableEnded k = false.

(** Only a session that holds its answers has some. *)
Definition orderly (s : ServerSession) : Prop := holding s = false → held s = [].

(** A session that is not about to end. *)
Record live (s : ServerSession) : Prop := {
  live_socket : socket_open (socket s);
  live_orderly : orderly s;
  live_ending : endAfterRelease s = false;
}.

(** ** The error of a chunk that is not of the protocol *)
Definition failure_details (e : exn) : Document :=
  match e with ProtocolError code => [(js "protocolErrorCode", VString (protocol_code_string code))] | _ => [] end.

Definition failure_payload (text : jsstring) (e : exn) : Document :=
  error_payload WireErrorCode.InvalidRequest (js "InvalidRequest") text (Some (failure_details e)).

(** A text that fits in a frame, with the rest of the error. The longest text of an
    error of the protocol has a key that the frame in error had twice. *)
Record presentable (text : jsstring) : Prop := {
  presentable_wf : wf_string text;
  presentable_some : text ≠ [];
  presentable_size : byteLength text ≤ MAX_PAYLOAD_SIZE - 1000;
}.

Lemma failure_valid text e : text ≠ [] → Message.validateMessagePayload MessageKind.Error (failure_payload text e) = Ok ().
Proof.
  intros Hne. assert (Message.isNonEmptyString (Some (VString text)) = true) as Hsome.
  { unfold Message.isNonEmptyString. destruct text as [|u text]; [done|]. rewrite len_cons. pose proof (len_nonneg text). apply Z.ltb_lt. lia. }
  change (Message.validateMessagePayload MessageKind.Error (failure_payload text e)) with
    (_ ← Message.check true; _ ← Message.check true; _ ← Message.check (Message.isNonEmptyString (Some (VString text)));
     _ ← Message.check true; Message.check true).
  by rewrite Hsome.
Qed.

Lemma failure_details_ok e :
  wf_value (VDoc (failure_details e)) = true ∧ storable 100 (VDoc (failure_details e)) = true ∧
  estimateEncodedSize (VDoc (failure_details e)) ≤ 100.
Proof. destruct e as [code| | | | | | |]; [destruct code|..]; vm_compute; repeat split; discriminate. Qed.

Lemma failure_storable_in levels text e :
  isWellFormed text = true → storable (S levels) (VDoc (failure_details e)) = true → storable (S (S levels)) (VDoc (failure_payload text e)) = true.
Proof.
  intros Hwf Hd. unfold failure_payload. generalize dependent (failure_details e). intros details Hd.
  change (forallb (λ kv : jsstring * DocumentValue, let (k, v) := kv in isWellFormed k && storable (S levels) v)
    (error_payload WireErrorCode.InvalidRequest (js "InvalidRequest") text (Some details)) = true).
  unfold error_payload. cbn [app forallb]. rewrite !andb_true_iff.
  repeat split; first [exact Hwf|exact Hd|reflexivity].
Qed.

Lemma failure_storable text e : isWellFormed text = true → storable top_levels (VDoc (failure_payload text e)) = true.
Proof. intros Hwf. destruct (failure_details_ok e) as (_ & Hd & _). exact (failure_storable_in 99 text e Hwf Hd). Qed.

Lemma failure_wf text e : wf_string text → wf_value (VDoc (failure_payload text e)) = true.
Proof.
  intros [Hu Hwf]. destruct (failure_details_ok e) as (Hd & _). unfold failure_payload. generalize dependent (failure_details e). intros details Hd.
  assert (forallb is_unitb text = true) as Ht by (by apply units_wf).
  change (forallb (λ kv : jsstring * DocumentValue, let (k, v) := kv in forallb is_unitb k && wf_value v)
    (error_payload WireErrorCode.InvalidRequest (js "InvalidRequest") text (Some details)) && true = true).
  unfold error_payload. cbn [app forallb]. rewrite !andb_true_iff. repeat split; first [exact Ht|exact Hd|reflexivity].
Qed.

Lemma failure_size text e : estimateEncodedSize (VDoc (failure_payload text e)) ≤ 1000 + byteLength text.
Proof.
  destruct (failure_details_ok e) as (_ & _ & Hd). unfold failure_payload. set (details := failure_details e) in *.
  unfold error_payload. cbn [estimateEncodedSize fold_left app]. change (fold_left _ details _) with (estimateEncodedSize (VDoc details)).
  repeat match goal with |- context [byteLength ?k] => lazymatch k with js _ => let v := eval vm_compute in (byteLength k) in change (byteLength k) with v end end.
  change (estimateEncodedSize (Dispatcher.Dispatcher.number_value WireErrorCode.InvalidRequest)) with 9.
  unfold TAG_BYTES, LENGTH_BYTES. lia.
Qed.

Section Sessions.
Context (osL osC : Z → Call → Outcome).
Context (describe : exn → jsstring) (detail : IndexSet.IndexSet.IndexIssue → jsstring).
Context (self : nat) (product productVersion : jsstring).

(** A session that holds its answers waits for the next flush. *)
Definition enrolled (x : Shared * ServerSession) : Prop :=
  holding x.2 = true → ∃ c, committer x.1 = Some c ∧ (self ∈ waiting c) ∧ scheduled c = true.

(** While writes are not flushed, the session holds its answers. *)
Definition waits (x : Shared * ServerSession) : Prop :=
  is_Some (committer x.1) → hasPending x.1 = true → holding x.2 = true.

(** *** What a message is answered with *)

(** What the dispatcher makes of a command. *)
Definition dispatched (x : Shared * ServerSession) (m : Moment) (command : CommandEnvelope) : outcome DocumentValue :=
  (Dispatcher.Dispatcher.dispatch osL osC describe detail m command (world x.1, cursors x.2)).1.

Definition internal_error : Document :=
  error_payload WireErrorCode.InternalError (js "InternalError") (js "The server failed to execute the command.") None.

(** The kind and the payload of the frame for a command: its result if that fits in
    a frame, or an error. *)
Inductive command_reply (x : Shared * ServerSession) (m : Moment) (id : Z) (command : CommandEnvelope) : Z → Document → Prop :=
  | reply_value value data :
      dispatched x m command = Ok value → encode MessageKind.Result id [(js "value", value)] = Ok data →
      command_reply x m id command MessageKind.Result [(js "value", value)]
  | reply_error error :
      dispatched x m command = Throw (CommandError error) →
      command_reply x m id command MessageKind.Error
        (error_payload (error_code error) (error_name error) (error_message error) (error_details error))
  | reply_failure error :
      dispatched x m command = Throw error → (∀ e, error ≠ CommandError e) →
      command_reply x m id command MessageKind.Error internal_error
  | reply_too_large value :
      dispatched x m command = Ok value → encode MessageKind.Result id [(js "value", value)] = Throw (ProtocolError PayloadTooLarge) →
      command_reply x m id command MessageKind.Error
        (error_payload WireErrorCode.InternalError (js "ResultTooLarge")
          (js "The result is larger than the 16 MiB message limit. Request fewer or smaller documents.") None)
  | reply_unsendable value e :
      dispatched x m command = Ok value → encode MessageKind.Result id [(js "value", value)] = Throw e →
      e ≠ ProtocolError PayloadTooLarge →
      command_reply x m id command MessageKind.Error internal_error.

(** A handshake that the server agrees to. *)
Definition greets (message : DecodedMessage) : Prop :=
  Message.kind message = MessageKind.Handshake ∧
  obj_get (Message.payload message) (js "role") = Some (VString (js "client")) ∧
  ∃ version, obj_get (Message.payload message) (js "protocolVersion") = Some (VNumber version) ∧
    isInteger version = true ∧ Z_of_number version = PROTOCOL_VERSION.

Definition invalid_request (text : jsstring) : Document :=
  error_payload WireErrorCode.InvalidRequest (js "InvalidRequest") text None.

(** The kind and the payload of the frame for a message, at the moment when it is
    handled. *)
Inductive reply (x : Shared * ServerSession) (m : Moment) (message : DecodedMessage) : Z → Document → Prop :=
  | reply_numberless : Message.requestId message = 0 →
      reply x m message MessageKind.Error (invalid_request (js "Client requests must use a non-zero request ID."))
  | reply_welcome : Message.requestId message ≠ 0 → currentState x.2 = AwaitingHandshake → greets message →
      reply x m message MessageKind.Handshake
        [(js "role", VString (js "server")); (js "protocolVersion", Dispatcher.Dispatcher.number_value PROTOCOL_VERSION);
         (js "product", VString product); (js "productVersion", VString productVersion);
         (js "capabilities", VArray [VString (js "typed-documents"); VString (js "streaming")])]
  | reply_refused code name text :
      Message.requestId message ≠ 0 → currentState x.2 = AwaitingHandshake → ¬ greets message →
      code = WireErrorCode.InvalidRequest ∨ code = WireErrorCode.UnsupportedProtocolVersion →
      reply x m message MessageKind.Error (error_payload code name text None)
  | reply_pong : Message.requestId message ≠ 0 → currentState x.2 = Ready → Message.kind message = MessageKind.Ping →
      reply x m message MessageKind.Result
        [(js "value", VDoc [(js "ok", VBool true); (js "sentAt", default VNull (obj_get (Message.payload message) (js "sentAt")));
                            (js "receivedAt", VDate (Some (Dispatcher.Dispatcher.now m)))])]
  | reply_command kind payload :
      Message.requestId message ≠ 0 → currentState x.2 = Ready → Message.kind message = MessageKind.Command →
      command_reply x m (Message.requestId message) (envelope_of (Message.payload message)) kind payload →
      reply x m message kind payload
  | reply_misplaced text :
      Message.requestId message ≠ 0 → currentState x.2 = Ready →
      Message.kind message ≠ MessageKind.Ping → Message.kind message ≠ MessageKind.Command →
      reply x m message MessageKind.Error (invalid_request text).

Section Message.
Context (s0 : ServerSession) (id : Z) (R : Z → Document → Prop).

(** Nothing is said since [s0]. *)
Record silent (x : Shared * ServerSession) : Prop := {
  silent_live : live x.2;
  silent_enrolled : enrolled x;
  silent_sent : sent x.2 = sent s0;
  silent_written : written (socket x.2) = written (socket s0);
  silent_receives : canReceiveMessages x.2 = true;
}.

(** What is said is one answer to the request [id]; if the session holds its
    answers, it is held. *)
Record said (x : Shared * ServerSession) : Prop := {
  said_answer : ∃ kind payload r, R kind payload ∧ encode kind id payload = Ok r ∧ sent x.2 = sent s0 ++ [r];
  said_held : holding x.2 = true → written (socket x.2) = written (socket s0);
  said_enrolled : enrolled x;
  said_live : live x.2 ∧ canReceiveMessages x.2 = true ∨ currentState x.2 = Closing ∧ orderly x.2;
}.

(** After a command, the answer waits for what is pending. *)
Definition waits_if (b : bool) (x : Shared * ServerSession) : Prop := b = true → waits x.

(** A reply that does not fit in a frame: that is the error. *)
Definition unsaid (e : exn) : Prop := ∃ kind payload, R kind payload ∧ encode kind id payload = Throw e.

(** Code that says it, or throws and says nothing. *)
Abbreviation says b m :=
  (outcomes (λ x, silent x ∧ waits_if b x) m (λ _ x, said x ∧ waits_if b x) (λ e x, (silent x ∧ waits_if b x) ∧ unsaid e)).

(** Writing leaves the session live. *)
Lemma write_live b kind payload data : R kind payload → encode kind id payload = Ok data →
  outcomes (λ x, silent x ∧ waits_if b x) (write data) (λ _ x, (said x ∧ waits_if b x) ∧ live x.2) (λ _ _, False).
Proof using.
  intros HR Hd [sh s] [[[[H1 H2] H3 H4] He Hs Hw Hr] Hb]. cbn [fst snd] in *. unfold write, this, on_socket, update, st_get, st_update, mbind, st_bind.
  cbn [fst snd]. destruct (holding s) eqn:Eh.
  - assert (live (set_held (held s ++ [data]) true (endAfterRelease s) s)) as Hl by (split; [done|by unfold orderly|exact H4]).
    split; [|exact Hl]. split; [|done]. split; cbn [fst snd].
    + exists kind, payload, data. split; [done|]. split; [done|]. unfold sent in *. cbn [socket held set_held]. by rewrite app_assoc, Hs.
    + done.
    + intros _. by apply He.
    + left. split; [exact Hl|exact Hr].
  - specialize (H3 Eh). unfold socket_write. cbn [fst snd]. rewrite H1, H2.
    set (k := {| written := written (socket s) ++ [data]; writableEnded := false; destroyed := false |}).
    assert (live (set_socket k s)) as Hl by (split; [by split|by intros _; exact H3|exact H4]).
    split; [|exact Hl]. split; [|intros E; specialize (Hb E); unfold waits in *; cbn in *; by rewrite Eh in *].
    split; cbn [fst snd].
    + exists kind, payload, data. split; [done|]. split; [done|]. unfold sent in *. cbn [k socket set_socket written held]. rewrite H3, app_nil_r in *.
      by rewrite <- Hs.
    + cbn [holding set_socket]. by rewrite Eh.
    + by intros E%(eq_trans (eq_sym Eh)).
    + left. split; [exact Hl|exact Hr].
Qed.

Lemma write_says b kind payload data : R kind payload → encode kind id payload = Ok data → says b (write data).
Proof using.
  intros HR Hd. eapply outcomes_weaken; [exact (write_live b kind payload data HR Hd)|done|by intros a x [H _]|by intros e x H].
Qed.

Lemma send_live b kind payload :
  (∀ data, encode kind id payload = Ok data → R kind payload) →
  outcomes (λ x, silent x ∧ waits_if b x) (send kind id payload) (λ _ x, (said x ∧ waits_if b x) ∧ live x.2)
    (λ e x, (silent x ∧ waits_if b x) ∧ encode kind id payload = Throw e).
Proof using.
  intros HR. unfold send. apply outcomes_lift; [by intros e x H Hx|]. intros data Hd.
  eapply outcomes_weaken; [exact (write_live b kind payload data (HR data Hd) Hd)|done|done|by intros e x H].
Qed.

Lemma send_says b kind payload : R kind payload → says b (send kind id payload).
Proof using.
  intros HR. eapply outcomes_weaken; [apply (send_live b kind payload); by intros|done|by intros a x [H _]|].
  intros e x [H He]. split; [done|]. by exists kind, payload.
Qed.

Lemma sendError_says b code name message close details :
  R MessageKind.Error (error_payload code name message details) → says b (sendError id code name message close details).
Proof using.
  intros HR. unfold sendError. apply outcomes_lift; [intros e x He H; split; [done|by eexists _, _]|].
  intros data Hd. destruct close; [|by eapply write_says].
  intros [sh s] [[[[H1 H2] H3 H4] He Hs Hw Hr] Hb]. cbn [fst snd] in *.
  unfold this, on_socket, update, st_get, st_update, mbind, st_bind. cbn [fst snd holding set_state].
  destruct (holding s) eqn:Eh.
  - split; [|done]. split; cbn [fst snd].
    + eexists _, _, data. split; [exact HR|]. split; [exact Hd|]. unfold sent in *. cbn [socket held set_held set_state]. by rewrite app_assoc, Hs.
    + done.
    + intros _. by apply He.
    + right. split; [done|]. by unfold orderly.
  - split; [|intros E; specialize (Hb E); unfold waits in *; cbn in *; by rewrite Eh in *].
    specialize (H3 Eh). unfold socket_end. cbn [fst snd socket set_state]. rewrite H1, H2. split; cbn [fst snd socket set_socket set_state written held holding].
    + eexists _, _, data. split; [exact HR|]. split; [exact Hd|]. unfold sent in *. cbn [socket set_socket set_state written held]. rewrite H3, app_nil_r in *.
      by rewrite <- Hs.
    + by rewrite Eh.
    + by intros E%(eq_trans (eq_sym Eh)).
    + right. split; [done|]. by intros _.
Qed.

(** What is said after something that says nothing. *)
Lemma says_after {A} b b' (m : ST (Shared * ServerSession) exn A) (k : A → ST (Shared * ServerSession) exn ()) :
  outcomes (λ x, silent x ∧ waits_if b x) m (λ _ x, silent x ∧ waits_if b' x) (λ _ _, False) →
  (∀ a, says b' (k a)) →
  outcomes (λ x, silent x ∧ waits_if b x) (a ← m; k a) (λ _ x, said x ∧ waits_if b' x) (λ e x, (silent x ∧ waits_if b' x) ∧ unsaid e).
Proof using.
  intros Hm Hk. eapply outcomes_bind; [|exact Hk]. eapply outcomes_weaken; [exact Hm|done|done|done].
Qed.

Lemma onError_silent b error : outcomes (λ x, silent x ∧ waits_if b x) (onError error) (λ _ x, silent x ∧ waits_if b x) (λ _ _, False).
Proof using. intros [sh s] [[H1 H2 H3 H4 H5] Hb]. split; [|exact Hb]. split; [exact H1|exact H2|exact H3|exact H4|exact H5]. Qed.

Lemma failCommand_says b error : R MessageKind.Error internal_error → says b (failCommand id error).
Proof using. intros HR. apply says_after; [apply onError_silent|]. intros u. by apply sendError_says. Qed.

Lemma hold_silent :
  outcomes (λ x, silent x ∧ waits_if false x) (holdUntilDurable self) (λ _ x, silent x ∧ waits_if true x) (λ _ _, False).
Proof using.
  intros [sh s] [[H1 H2 H3 H4 H5] _]. unfold holdUntilDurable, this, share, update, st_get, st_update, mbind, st_bind. cbn [fst snd] in *.
  destruct (committer sh) as [c|] eqn:Ec.
  2: { split; [by split|]. intros _ [? ?]. cbn in *. congruence. }
  destruct (holding s) eqn:Eh; cbn [orb].
  { split; [by split|]. by intros _ _ _. }
  destruct (hasPending sh) eqn:Ep; cbn [negb].
  2: { split; [by split|]. intros _ _ Hp. cbn in *. congruence. }
  destruct H1 as [L1 L2 L3]. split; [split; cbn [fst snd]|by intros _ _ _].
  - split; [exact L1|done|exact L3].
  - intros _. eexists. split; [done|]. split; [|done]. cbn. apply elem_of_app. right. by apply list_elem_of_singleton.
  - exact H3.
  - exact H4.
  - exact H5.
Qed.

Lemma dispatch_silent m command x :
  silent x →
  let (r, x') := dispatch_command osL osC describe detail m command x in
  r = Ok (dispatched x m command) ∧ silent x' ∧ waits_if false x'.
Proof using.
  destruct x as [sh s]. intros [[L1 L2 L3] H2 H3 H4 H5]. unfold dispatch_command, dispatched. cbn [fst snd].
  destruct (Dispatcher.Dispatcher.dispatch _ _ _ _ _ _ _) as [r [w c]].
  split; [done|]. split; [|done]. split; [by split|exact H2|exact H3|exact H4|exact H5].
Qed.

(** A result that does not fit in a frame. *)
Lemma unsendable_says m command x value e :
  dispatched x m command = Ok value → (∀ kind payload, command_reply x m id command kind payload → R kind payload) →
  outcomes (λ y, (silent y ∧ waits_if true y) ∧ encode MessageKind.Result id [(js "value", value)] = Throw e)
    (match e with
     | ProtocolError PayloadTooLarge =>
         sendError id WireErrorCode.InternalError (js "ResultTooLarge")
           (js "The result is larger than the 16 MiB message limit. Request fewer or smaller documents.") false None
     | error => failCommand id (StorageFailure error)
     end) (λ _ y, said y ∧ waits_if true y) (λ e y, (silent y ∧ waits_if true y) ∧ unsaid e).
Proof using.
  intros Ed HR y [Hy Ee].
  assert (e = ProtocolError PayloadTooLarge ∨ e ≠ ProtocolError PayloadTooLarge) as [->|Hne]
    by (destruct e as [code| | | | | | |]; [destruct code|..]; first [left; reflexivity|right; discriminate]).
  - refine (sendError_says true _ _ _ false None _ y Hy). apply HR. by apply (reply_too_large _ _ _ _ value).
  - pose proof (failCommand_says true (StorageFailure e) (HR _ _ (reply_unsendable _ _ _ _ value e Ed Ee Hne)) y Hy) as Hf.
    destruct e as [code| | | | | | |]; [destruct code|..]; first [destruct Hne; reflexivity|exact Hf].
Qed.

(** A command. *)
Lemma handleCommand_says m command x :
  silent x → (∀ kind payload, command_reply x m id command kind payload → R kind payload) →
  match handleCommand osL osC describe detail self m id command x with
  | (Ok _, x') => said x' ∧ waits x'
  | (Throw e, x') => silent x' ∧ unsaid e
  end.
Proof using.
  intros Hx HR. unfold handleCommand. unfold mbind at 1, st_bind at 1.
  pose proof (dispatch_silent m command x Hx) as Hd. destruct (dispatch_command _ _ _ _ _ _ _) as [o x1]. destruct Hd as (-> & Hx1).
  assert (∀ f : ST (Shared * ServerSession) exn (),
    outcomes (λ x, silent x ∧ waits_if false x) f (λ _ x, said x ∧ waits_if true x) (λ e x, (silent x ∧ waits_if true x) ∧ unsaid e) →
    match f x1 with (Ok _, x') => said x' ∧ waits x' | (Throw e, x') => silent x' ∧ unsaid e end) as Hf.
  { intros f Hf. specialize (Hf x1 Hx1). destruct (f x1) as [[u|e] x']; [destruct Hf as [H1 H2]; split; [done|by apply H2]|].
    by destruct Hf as [[H1 _] H2]. }
  destruct (dispatched x m command) as [value|error] eqn:Ed; apply Hf; (apply says_after; [apply hold_silent|]); intros u.
  - eapply outcomes_catch; [|intros e; exact (unsendable_says m command x value e Ed HR)].
    eapply outcomes_weaken; [apply (send_live true MessageKind.Result [(js "value", value)])|done|by intros a y [H _]|done].
    intros data Hdata. apply HR. by eapply reply_value.
  - assert ((∀ error', error ≠ CommandError error') → says true (failCommand id error)) as Hfail
      by (intros Hne; exact (failCommand_says true error (HR _ _ (reply_failure _ _ _ _ error Ed Hne)))).
    destruct error as [y|code message|z|error]; [apply Hfail; discriminate..|].
    apply sendError_says, HR, reply_error. exact Ed.
Qed.

(** The handshake, and any message. *)
Lemma reject_says b code name message close :
  R MessageKind.Error (error_payload code name message None) → says b (reject id code name message close).
Proof using. apply sendError_says. Qed.

Lemma ready_said x : said x → live x.2 → said (x.1, set_state Ready x.2).
Proof using.
  intros [H1 H2 H3 _] [L1 L2 L3]. split; [exact H1|exact H2|exact H3|]. left. split; [by split|done].
Qed.

Lemma handleHandshake_says x m message :
  Message.requestId message = id → id ≠ 0 → currentState x.2 = AwaitingHandshake →
  (∀ kind payload, reply x m message kind payload → R kind payload) →
  says false (handleHandshake product productVersion message).
Proof using.
  intros Eid Hid Hst HR. unfold handleHandshake. cbv zeta. unfold Message.equals_string. rewrite Eid.
  assert (∀ code name text, ¬ greets message →
    code = WireErrorCode.InvalidRequest ∨ code = WireErrorCode.UnsupportedProtocolVersion →
    says false (reject id code name text true)) as Hno
    by (intros code name text Hg Hc; apply reject_says, HR; apply reply_refused; [congruence|done..]).
  destruct (Z.eqb_spec (Message.kind message) MessageKind.Handshake) as [Ek|Ek]; cbn [negb]; [|apply Hno; [by intros (? & _)|by left]].
  destruct (obj_get (Message.payload message) (js "role")) as [[| | | |role| | | | |]|] eqn:Er; cbn [negb];
    try (apply Hno; [intros (_ & Hr & _); by rewrite Er in Hr|by left]).
  case_bool_decide as Hrole; cbn [negb]; [|apply Hno; [intros (_ & Hr & _); rewrite Er in Hr; by injection Hr|by left]]. subst role.
  assert (¬ greets message ∨ ∃ version, obj_get (Message.payload message) (js "protocolVersion") = Some (VNumber version)) as Hv.
  { destruct (obj_get (Message.payload message) (js "protocolVersion")) as [[]|] eqn:Ev; try (left; intros (_ & _ & v & Hv & _); by rewrite Ev in Hv).
    right. by eexists. }
  match goal with |- context [isInteger ?v] => set (version := v); destruct (isInteger version && (Z_of_number version =? PROTOCOL_VERSION)) eqn:E end;
    cbn [negb].
  - assert (greets message) as Hg.
    { split; [done|]. split; [done|]. destruct (obj_get (Message.payload message) (js "protocolVersion")) as [[]|] eqn:Ev; try (by vm_compute in E).
      apply andb_true_iff in E as [E1 E2%Z.eqb_eq]. by eexists. }
    eapply outcomes_bind; [|intros u; unfold update; apply outcomes_update; intros y Hy; exact Hy].
    eapply outcomes_weaken; [apply (send_live false)|done| |].
    + intros data _. apply HR. apply reply_welcome; [congruence|done..].
    + intros a y [[Hs _] Hl]. split; [by apply ready_said|done].
    + intros e y [Hy He]. split; [done|]. eexists _, _. split; [apply HR; apply reply_welcome; [congruence|done..]|exact He].
  - apply Hno; [|by right]. intros (_ & _ & v & Hv' & H1 & H2). unfold version in E. rewrite Hv', H1, H2 in E. done.
Qed.

Lemma handleMessage_says m message x :
  Message.requestId message = id → silent x →
  (∀ kind payload, reply x m message kind payload → R kind payload) →
  match handleMessage osL osC describe detail self product productVersion m message x with
  | (Ok _, x') => said x'
  | (Throw e, x') => silent x' ∧ unsaid e
  end.
Proof using.
  intros E Hx HR.
  assert (∀ f : ST (Shared * ServerSession) exn (), says false f →
    match f x with (Ok _, x') => said x' | (Throw e, x') => silent x' ∧ unsaid e end) as Hf.
  { intros f Hf. assert (waits_if false x) as Hw by discriminate. specialize (Hf x (conj Hx Hw)). destruct (f x) as [[u|e] x']; [apply Hf|]. by destruct Hf as [[H1 _] H2]. }
  unfold handleMessage. cbv zeta. destruct (Z.eqb_spec (Message.requestId message) 0) as [E0|E0].
  { apply Hf. replace (reject 0) with (reject id) by congruence. apply reject_says, HR, reply_numberless. exact E0. }
  rewrite E. unfold this, st_get. unfold mbind at 1, st_bind at 1.
  destruct (currentState x.2) eqn:Est; [apply Hf; apply (handleHandshake_says x m); [done|congruence|done|done]|..].
  2, 3: pose proof (silent_receives _ Hx) as Hc; unfold canReceiveMessages in Hc; by rewrite Est in Hc.
  destruct (Z.eqb_spec (Message.kind message) MessageKind.Ping) as [Ep|Ep]; [apply Hf, send_says, HR; by apply reply_pong|].
  destruct (Z.eqb_spec (Message.kind message) MessageKind.Command) as [Ec|Ec].
  - pose proof (handleCommand_says m (envelope_of (Message.payload message)) x Hx) as Hm.
    destruct (handleCommand _ _ _ _ _ _ _ _ x) as [[u|e] x'];
      (apply Hm; intros kind payload Hk; apply HR, reply_command; [done|done|done|by rewrite E]).
  - destruct (Message.kind message =? MessageKind.Handshake); apply Hf, reject_says, HR; by apply reply_misplaced.
Qed.
End Message.

(** *** Many messages *)

(** The answers that are said to the first of some messages, each to the session that
    the one before left. *)
Inductive exchange : (nat → Moment) → Shared * ServerSession → list DecodedMessage → list bytes → Shared * ServerSession → Prop :=
  | exchange_nil moments x messages : exchange moments x messages [] x
  | exchange_cons moments x message messages kind payload r x1 rs x2 :
      reply x (moments O) message kind payload → encode kind (Message.requestId message) payload = Ok r →
      handleMessage osL osC describe detail self product productVersion (moments O) message x = (Ok (), x1) →
      sent x1.2 = sent x.2 ++ [r] → exchange (λ i, moments (S i)) x1 messages rs x2 →
      exchange moments x (message :: messages) (r :: rs) x2.

Lemma exchange_sent moments x messages rs x' : exchange moments x messages rs x' → sent x'.2 = sent x.2 ++ rs.
Proof using. induction 1 as [|? ? ? ? ? ? ? ? ? ? _ _ _ E _ IH]; [by rewrite app_nil_r|]. by rewrite IH, E, <- app_assoc. Qed.

Lemma exchange_length moments x messages rs x' : exchange moments x messages rs x' → (length rs ≤ length messages)%nat.
Proof using. induction 1; cbn; lia. Qed.

(** The message after the first ones has no answer: its reply does not fit in a
    frame. *)
Definition stopped (moments : nat → Moment) (x : Shared * ServerSession) (messages : list DecodedMessage) (rs : list bytes) (e : exn)
    (x' : Shared * ServerSession) : Prop :=
  ∃ x1 message kind payload, exchange moments x messages rs x1 ∧ messages !! length rs = Some message ∧
    reply x1 (moments (length rs)) message kind payload ∧ encode kind (Message.requestId message) payload = Throw e ∧
    sent x'.2 = sent x1.2.

(** The start of a handler. *)
Lemma silent_start x : live x.2 → enrolled x → canReceiveMessages x.2 = true → silent x.2 x.
Proof using. intros H1 H2 H3. by split. Qed.

Lemma handle_messages_says moments messages x :
  live x.2 → enrolled x → canReceiveMessages x.2 = true →
  match handle_messages osL osC describe detail self product productVersion moments messages x with
  | (Ok _, x') => ∃ rs, exchange moments x messages rs x' ∧ enrolled x' ∧
      (length rs = length messages ∧ live x'.2 ∧ canReceiveMessages x'.2 = true ∨ currentState x'.2 = Closing ∧ orderly x'.2)
  | (Throw e, x') => ∃ rs, stopped moments x messages rs e x' ∧ live x'.2 ∧ enrolled x'
  end.
Proof using.
  revert moments x. induction messages as [|message messages IH]; intros moments x Hl He Hc; cbn [handle_messages].
  { exists []. split; [constructor|]. split; [done|]. by left. }
  unfold this, st_get. unfold mbind at 1, st_bind at 1. rewrite Hc. unfold mbind, st_bind.
  pose proof (handleMessage_says x.2 (Message.requestId message) (reply x (moments O) message) (moments O) message x eq_refl
    (silent_start x Hl He Hc) (λ kind payload H, H)) as Hm.
  destruct (handleMessage _ _ _ _ _ _ _ _ _ x) as [[[]|e] x1] eqn:Ex.
  - destruct Hm as [(kind & payload & r & Er & Ed & Es) _ He1 Hl1]. destruct Hl1 as [[Hl1 Hc1]|[Hcl Ho]].
    + specialize (IH (λ i, moments (S i)) x1 Hl1 He1 Hc1).
      destruct (handle_messages _ _ _ _ _ _ _ _ _ x1) as [[v|e] x2].
      * destruct IH as (rs & Ha & He2 & Hend). exists (r :: rs). split; [by eapply exchange_cons|].
        split; [done|]. destruct Hend as [[Hn Hend]|Hend]; [left; split; [cbn; lia|done]|by right].
      * destruct IH as (rs & (y & message' & kind' & payload' & H1 & H2 & H3 & H4 & H5) & H6). exists (r :: rs). split; [|done].
        exists y, message', kind', payload'. split; [by eapply exchange_cons|done].
    + assert (canReceiveMessages x1.2 = false) as Hcan by (unfold canReceiveMessages; by rewrite Hcl).
      assert (handle_messages osL osC describe detail self product productVersion (λ i, moments (S i)) messages x1 = (Ok (), x1)) as ->.
      { destruct messages as [|message' messages]; [done|]. cbn [handle_messages]. unfold this, st_get, mbind, st_bind. by rewrite Hcan. }
      exists [r]. split; [eapply exchange_cons; [done..|constructor]|]. split; [done|by right].
  - destruct Hm as [[H1 H2 H3 _ _] (kind & payload & HR & Hd)]. exists []. split; [|done].
    exists x, message, kind, payload. split; [constructor|]. done.
Qed.

(** *** The group committer stays *)
Definition grouped (x : Shared * ServerSession) : Prop := is_Some (committer x.1).

Lemma write_grouped data : preserves grouped (write data).
Proof using. intros x Hx. unfold write, this, st_get, mbind, st_bind. by destruct (holding x.2). Qed.

Lemma send_grouped kind id payload : preserves grouped (send kind id payload).
Proof using. intros x Hx. unfold send, st_lift, mbind, st_bind. destruct (encode _ _ _); [by apply write_grouped|done]. Qed.

Lemma sendError_grouped id code name message close details : preserves grouped (sendError id code name message close details).
Proof using.
  intros x Hx. unfold sendError. unfold mbind at 1, st_bind at 1, st_lift. destruct (encode _ _ _); [|done]. destruct close; [|by apply write_grouped].
  unfold this, update, st_update, st_get, mbind, st_bind. cbn [snd]. by destruct (holding _).
Qed.

Lemma failCommand_grouped id error : preserves grouped (failCommand id error).
Proof using. intros x Hx. unfold failCommand, onError, share, st_update. unfold mbind, st_bind. by apply sendError_grouped. Qed.

Lemma hold_grouped : preserves grouped (holdUntilDurable self).
Proof using.
  intros [sh s] Hx. unfold holdUntilDurable, this, share, update, st_get, st_update, mbind, st_bind. cbn [fst snd].
  unfold grouped in *. cbn [fst] in *. destruct (committer sh) eqn:Ec; [|by destruct Hx]. destruct (_ || _); cbn; [rewrite Ec|]; by eexists.
Qed.

Ltac group :=
  lazymatch goal with
  | |- triple _ (failCommand _ _) _ _ => apply failCommand_grouped
  | |- triple _ (sendError _ _ _ _ _ _) _ _ => apply sendError_grouped
  | |- triple _ (send _ _ _) _ _ => apply send_grouped
  end.

Lemma handleCommand_grouped m id command : preserves grouped (handleCommand osL osC describe detail self m id command).
Proof using.
  unfold handleCommand. eapply triple_bind.
  - intros [sh s] Hx. unfold dispatch_command. destruct (Dispatcher.Dispatcher.dispatch _ _ _ _ _ _ _) as [r [w c]].
    instantiate (1 := λ _, grouped). exact Hx.
  - intros [value|error].
    + eapply triple_bind; [apply hold_grouped|]. intros u. eapply triple_catch; [group|].
      intros e. destruct e as [code| | | | | | |]; [destruct code|..]; cbv beta iota; group.
    + eapply triple_bind; [apply hold_grouped|]. intros u. destruct error; cbv beta iota; group.
Qed.

(** *** Properties of a session *)
Lemma sendError_closes id code name message details x :
  match sendError id code name message true details x with (Ok _, x') => currentState x'.2 = Closing | (Throw _, x') => x' = x end.
Proof using.
  unfold sendError, st_lift. unfold mbind at 1, st_bind at 1. destruct (encode _ _ _) as [data|e]; [|done].
  unfold this, update, on_socket, st_update, st_get, mbind, st_bind. cbn [fst snd]. by destruct (holding _).
Qed.

(** The answer to a chunk that is not of the protocol. *)
Definition protocol_failure (e : exn) : Document := failure_payload (describe e) e.

Lemma protocol_failure_encodes e : presentable (describe e) → ∃ data, encode MessageKind.Error 0 (protocol_failure e) = Ok data.
Proof using.
  intros [[Hu Hwf] Hne Hsize]. unfold MAX_PAYLOAD_SIZE in Hsize. unfold protocol_failure, encode, Message.encodeMessage, Message.encodeMessagePayload.
  cbn [Message.in_kind Message.in_payload Message.in_requestId Message.in_flags]. rewrite failure_valid by done. cbn [mbind res_bind].
  unfold encodeDocument. pose proof (failure_size (describe e) e) as Hs.
  pose proof (estimate_enc _ (failure_wf (describe e) e (conj Hu Hwf))) as He.
  rewrite encode_fits by (first [by apply failure_storable|unfold MAX_PAYLOAD_SIZE; lia]). cbn [mbind res_bind].
  pose proof (frame_outcome {| Frame.in_kind := number_of_Z MessageKind.Error; Frame.in_requestId := number_of_Z 0;
    Frame.in_payload := enc (VDoc (failure_payload (describe e) e)); Frame.in_flags := None |}) as Hf.
  cbn [Frame.in_kind Frame.in_payload Frame.in_requestId Frame.in_flags default] in Hf.
  destruct (Frame.encodeFrame _) as [data|[code| | | | | | |]]; [by exists data|exfalso; destruct code; try exact Hf|destruct Hf..].
  all: first [unfold MAX_PAYLOAD_SIZE in Hf; lia|apply Hf; split; [reflexivity|]].
  all: first [left; reflexivity|by apply (bool_decide_unpack _); vm_compute|vm_compute; split; discriminate].
Qed.

(** C20: The messages that arrive in a chunk of a connection are answered in their
    order, each with one frame that has the number of its request, and is the
    [reply] to it: the handshake or its refusal, the answer to a ping, the result
    of a command or its error, or the error of a message that is not to be sent
    then. The connection goes on to the last message or ends with an error. A
    message has no answer only where the frame that it is to be answered with does
    not fit into one: that error is thrown on, and the messages after it are not
    handled. A chunk that is not of the protocol is answered with one error with the
    number 0, and ends the connection. *)
Theorem data_answered moments chunk x :
  live x.2 → enrolled x → canReceiveMessages x.2 = true →
  (∀ e, (Stream.push (decoder x.2) chunk).1 = Throw e → presentable (describe e)) →
  match (Stream.push (decoder x.2) chunk) with
  | (Ok messages, d) =>
      match handleData osL osC describe detail self product productVersion moments chunk x with
      | (Ok _, x') => ∃ rs, exchange moments (x.1, set_decoder d x.2) messages rs x' ∧ sent x'.2 = sent x.2 ++ rs ∧ enrolled x' ∧
          (length rs = length messages ∧ live x'.2 ∧ canReceiveMessages x'.2 = true ∨ currentState x'.2 = Closing ∧ orderly x'.2)
      | (Throw e, x') => ∃ rs, stopped moments (x.1, set_decoder d x.2) messages rs e x'
      end
  | (Throw e, _) =>
      ∃ data x', handleData osL osC describe detail self product productVersion moments chunk x = (Ok (), x') ∧
        encode MessageKind.Error 0 (protocol_failure e) = Ok data ∧ sent x'.2 = sent x.2 ++ [data] ∧ currentState x'.2 = Closing
  end.
Proof using.
  destruct x as [sh s]. intros Hl He Hc Hp. cbn [fst snd] in *.
  assert (handleData osL osC describe detail self product productVersion moments chunk (sh, s) =
    let (r, d) := Stream.push (decoder s) chunk in
    match r with
    | Ok messages => handle_messages osL osC describe detail self product productVersion moments messages
    | Throw error => handleProtocolFailure describe error
    end (sh, set_decoder d s)) as ->.
  { unfold handleData, this, st_get, push, mbind, st_bind. cbn [snd]. rewrite Hc. by destruct (Stream.push (decoder s) chunk). }
  destruct (Stream.push (decoder s) chunk) as [r d]. cbn [fst] in Hp.
  assert (live (set_decoder d s)) as Hl' by (by destruct Hl as [L1 L2 L3]; split).
  destruct r as [messages|e].
  - pose proof (handle_messages_says moments messages (sh, set_decoder d s) Hl' He Hc) as Hm.
    destruct (handle_messages _ _ _ _ _ _ _ _ _ _) as [[u|e] x'].
    + destruct Hm as (rs & Hx & Hm). exists rs. split; [done|]. split; [exact (exchange_sent _ _ _ _ _ Hx)|done].
    + destruct Hm as (rs & Hx & _). by exists rs.
  - destruct (protocol_failure_encodes e (Hp e eq_refl)) as [data Hd].
    assert (silent s (sh, set_decoder d s) ∧ waits_if false (sh, set_decoder d s)) as Hsilent by (split; [by split|discriminate]).
    pose proof (sendError_says s 0 (λ kind payload, kind = MessageKind.Error ∧ payload = protocol_failure e) false
      WireErrorCode.InvalidRequest (js "InvalidRequest") (describe e) true (Some (failure_details e)) (conj eq_refl eq_refl) _ Hsilent) as Hs.
    pose proof (sendError_closes 0 WireErrorCode.InvalidRequest (js "InvalidRequest") (describe e) (Some (failure_details e))
      (sh, set_decoder d s)) as Hcl.
    exists data. unfold handleProtocolFailure. fold (failure_details e). destruct (sendError _ _ _ _ _ _ _) as [[[]|x] x'].
    + destruct Hs as [[(kind & payload & r & [-> ->] & Hr & Hsent) _ _ _] _]. rewrite Hr in Hd. injection Hd as <-. by exists x'.
    + destruct Hs as (_ & kind & payload & [-> ->] & Hr). by rewrite Hd in Hr.
Qed.

(** C8: The answer to a command, and to what follows it, is not written while the
    engine has writes that are not flushed: the session holds it, and waits for the
    next flush. *)
Theorem reply_waits m id command x :
  live x.2 → enrolled x → canReceiveMessages x.2 = true → is_Some (committer x.1) →
  match handleCommand osL osC describe detail self m id command x with
  | (Ok _, x') => (∃ kind payload r, encode kind id payload = Ok r ∧ sent x'.2 = sent x.2 ++ [r]) ∧
      (hasPending x'.1 = true → holding x'.2 = true ∧ written (socket x'.2) = written (socket x.2) ∧
        ∃ c, committer x'.1 = Some c ∧ (self ∈ waiting c) ∧ scheduled c = true)
  | (Throw _, x') => written (socket x'.2) = written (socket x.2)
  end.
Proof using.
  intros Hl He Hc Hg.
  pose proof (handleCommand_says x.2 id (λ _ _, True) m command x (silent_start x Hl He Hc) (λ _ _ _, I)) as Hs.
  pose proof (handleCommand_grouped m id command x Hg) as Hg'.
  destruct (handleCommand _ _ _ _ _ _ _ _ x) as [[u|e] x']; [|apply Hs]. destruct Hs as [[(kind & payload & r & _ & H1) H2 H3 _] Hw].
  split; [by eauto|]. intros Hp. specialize (Hw Hg' Hp). split; [exact Hw|]. split; [exact (H2 Hw)|exact (H3 Hw)].
Qed.
End Sessions.

(** ** The flush *)

(** A session that is released: the answers are written, or the connection is cut. *)
Definition released (failure : option exn) (s s' : ServerSession) : Prop :=
  holding s' = false ∧ held s' = [] ∧ endAfterRelease s' = false ∧ currentState s' = currentState s ∧
  (socket_open (socket s) →
    match failure with
    | None => written (socket s') = sent s ∧ destroyed (socket s') = false ∧ writableEnded (socket s') = endAfterRelease s
    | Some _ => written (socket s') = written (socket s) ∧ destroyed (socket s') = true
    end) ∧
  (¬ socket_open (socket s) → socket s' = socket s).

Lemma socket_write_all l k : socket_open k →
  fold_left (λ k data, socket_write data k) l k = {| written := written k ++ l; writableEnded := false; destroyed := false |}.
Proof.
  revert k. induction l as [|data l IH]; intros k [H1 H2]; cbn [fold_left].
  - rewrite app_nil_r. by destruct k; cbn in *; subst.
  - rewrite IH; unfold socket_write; rewrite H1, H2; [|done]. cbn. by rewrite <- app_assoc.
Qed.

Lemma each_write l x :
  st_each (λ data, on_socket (socket_write data)) l x =
  (Ok (), (x.1, set_socket (fold_left (λ k data, socket_write data k) l (socket x.2)) x.2)).
Proof.
  revert x. induction l as [|data l IH]; intros [sh s]; cbn [st_each fold_left]; [by destruct s|].
  unfold mbind, st_bind. unfold on_socket at 1, update, st_update. cbn [fst snd]. rewrite IH. done.
Qed.

Lemma release_releases failure sh s :
  let '(r, (sh', s')) := release failure (sh, s) in
  r = Ok () ∧ released failure s s' ∧ world sh' = world sh ∧ committer sh' = committer sh.
Proof.
  unfold release, this, update, st_get, st_update, mbind, st_bind. cbn [fst snd held holding endAfterRelease set_held socket].
  destruct (destroyed (socket s)) eqn:Ed; cbn [orb].
  { split; [done|]. split; [|done]. unfold released. cbn. split; [done|]. split; [done|]. split; [done|]. split; [done|].
    split; [intros [E _]; congruence|done]. }
  destruct (writableEnded (socket s)) eqn:Ew.
  { split; [done|]. split; [|done]. unfold released. cbn. split; [done|]. split; [done|]. split; [done|]. split; [done|].
    split; [intros [_ E]; congruence|done]. }
  assert (socket_open (socket s)) as Ho by done.
  destruct failure as [error|].
  { split; [done|]. split; [|done]. unfold released. cbn. split; [done|]. split; [done|]. split; [done|]. split; [done|].
    split; [done|]. by intros []. }
  rewrite each_write. cbn [fst snd socket set_held]. rewrite (socket_write_all _ _ Ho).
  destruct (endAfterRelease s) eqn:Ee; cbn; (split; [done|]); (split; [|done]); unfold released; rewrite Ee; cbn; rewrite ?app_nil_r;
    (split; [done|]); (split; [done|]); (split; [done|]); (split; [done|]); (split; [done|intros Hn; by destruct (Hn Ho)]).
Qed.

Section Flush.
Context (osL : Z → Call → Outcome).

(** The log is closed with the engine only. *)
Definition log_open (e : Engine.Engine.StorageEngine) : Prop :=
  Engine.Engine.Wal.closed (Engine.Engine.log e) = true → Engine.Engine.closed e = true.

(** The flush of an engine succeeds: nothing is waiting to be flushed, or the log can
    be written and its file is flushed by the operating system. *)
Definition flushes (e : Engine.Engine.StorageEngine) : Prop :=
  Engine.Engine.hasUncommittedWrites e = false ∨
  Engine.Engine.Wal.broken (Engine.Engine.log e) = false ∧
  ∃ file u d, Engine.Engine.Wal.fd (Engine.Engine.log e) = Some file ∧
    fsyncSync osL file (Engine.Engine.log_disk e) = (Ok u, d).

Lemma fsync_succeeds d w :
  match Engine.Engine.Wal.fsync_or_break osL (d, w) with
  | (Ok _, (_, w')) => Engine.Engine.Wal.closed w' = Engine.Engine.Wal.closed w ∧
      ∃ file u d', Engine.Engine.Wal.fd w = Some file ∧ fsyncSync osL file d = (Ok u, d')
  | (Throw _, _) => ¬ ∃ file u d', Engine.Engine.Wal.fd w = Some file ∧ fsyncSync osL file d = (Ok u, d')
  end.
Proof using.
  unfold Engine.Engine.Wal.fsync_or_break, Engine.Engine.Wal.descriptor, Engine.Engine.Wal.this, Engine.Engine.Wal.on_disk, st_catch, mbind, st_bind, st_get.
  cbn [snd fst]. destruct (Engine.Engine.Wal.fd w) as [file|] eqn:Ef; [|by intros (? & ? & ? & ? & _)].
  unfold mret, st_ret. cbn [fst snd]. destruct (fsyncSync osL file d) as [[u|x] d'] eqn:Es; cbn; [split; [done|by exists file, u, d']|].
  intros (f & u & d2 & [= <-] & E). congruence.
Qed.

Lemma flushes_outcome e : log_open e →
  match Engine.Engine.commit osL e with
  | (Ok _, e') => flushes e ∧ Engine.Engine.hasUncommittedWrites e' = false
  | (Throw _, _) => ¬ flushes e
  end.
Proof using.
  intros Ho. unfold Engine.Engine.commit, Engine.Engine.this, st_get, flushes, Engine.Engine.hasUncommittedWrites.
  unfold mbind at 1, st_bind at 1. destruct (Engine.Engine.closed e) eqn:Ec; [cbn; rewrite Ec; by auto|].
  assert (Engine.Engine.Wal.closed (Engine.Engine.log e) = false) as Hw.
  { destruct (Engine.Engine.Wal.closed (Engine.Engine.log e)) eqn:E; [|done]. by rewrite (Ho E) in Ec. }
  unfold Engine.Engine.on_log, Engine.Engine.Wal.commit, Engine.Engine.Wal.this, st_get. unfold mbind at 1, st_bind at 1. cbn [snd negb andb].
  rewrite Hw, orb_false_r. destruct (Engine.Engine.Wal.unsynced (Engine.Engine.log e)) eqn:Eu; cbn [negb].
  2: { unfold mret, st_ret. cbn. rewrite Eu, andb_false_r. by auto. }
  unfold Engine.Engine.Wal.assertWritable, Engine.Engine.Wal.assertOpen, Engine.Engine.Wal.this, st_get, mbind, st_bind. cbn [snd]. rewrite Hw. unfold mret, st_ret. cbn [snd].
  destruct (Engine.Engine.Wal.broken (Engine.Engine.log e)) eqn:Eb; [cbn; by intros [?|[? _]]|].
  pose proof (fsync_succeeds (Engine.Engine.log_disk e) (Engine.Engine.log e)) as Hf.
  destruct (Engine.Engine.Wal.fsync_or_break osL _) as [[v|x] [d' w']]; cbn; [|by intros [?|[_ ?]]].
  rewrite andb_false_r. destruct Hf as [_ Hf]. by auto.
Qed.

Lemma engine_commit_outcome sh :
  (∀ e, Cat.engine (catalog (world sh)) = Some e → log_open e) →
  let (failure, sh') := engine_commit osL sh in
  committer sh' = committer sh ∧
  (failure = None ↔ ∀ e, Cat.engine (catalog (world sh)) = Some e → flushes e) ∧
  (failure = None → hasPending sh' = false).
Proof using.
  intros Ho. unfold engine_commit, hasPending. destruct (Cat.engine (catalog (world sh))) as [e|] eqn:Ee; [|by rewrite Ee].
  pose proof (flushes_outcome e (Ho e eq_refl)) as Hf. destruct (Engine.Engine.commit osL e) as [[u|x] e']; (split; [done|]).
  - destruct Hf as [Hf Hp]. split; [|done]. split; [|done]. by intros _ ? [= <-].
  - split; [|done]. split; [done|]. intros H. destruct Hf. by apply H.
Qed.

(** The callbacks, one after another. *)
Lemma release_all failure l s :
  NoDup l →
  let '(r, s') := st_each (λ i, on_session i (λ _, release failure)) l s in
  r = Ok () ∧ world (shared s') = world (shared s) ∧ committer (shared s') = committer (shared s) ∧
  ∀ i, match sessions s !! i, sessions s' !! i with
       | Some session, Some session' => (i ∈ l → released failure session session') ∧ (i ∉ l → session' = session)
       | None, None => True
       | _, _ => False
       end.
Proof using.
  revert s. induction l as [|j l IH]; intros s Hl; cbn [st_each].
  { split; [done|]. split; [done|]. split; [done|]. intros i. destruct (sessions s !! i) as [x|]; [|done].
    split; [by intros ?%not_elem_of_nil|done]. }
  apply NoDup_cons in Hl as [Hj Hl]. unfold mbind, st_bind. unfold on_session at 1.
  destruct (sessions s !! j) as [x|] eqn:Ej.
  2: { specialize (IH s Hl). destruct (st_each _ l s) as [r s']. destruct IH as (H1 & H2 & H3 & H4). split; [done|]. split; [done|]. split; [done|].
       intros i. specialize (H4 i). destruct (sessions s !! i) as [x|] eqn:Ei; [|done]. destruct (sessions s' !! i) as [x'|]; [|done].
       destruct (decide (i = j)) as [->|Hne]; [congruence|]. rewrite elem_of_cons. split; [intros [?|?]; [done|by apply H4]|].
       intros Hn. apply H4. tauto. }
  pose proof (release_releases failure (shared s) x) as Hr. destruct (release failure (shared s, x)) as [r [sh x1]].
  destruct Hr as (-> & Hx & Ew & Ec). specialize (IH {| shared := sh; sessions := <[j := x1]> (sessions s) |} Hl).
  destruct (st_each _ l _) as [r s']. cbn [shared sessions] in IH. destruct IH as (-> & H2 & H3 & H4).
  split; [done|]. split; [by rewrite H2|]. split; [by rewrite H3|]. intros i. specialize (H4 i).
  destruct (decide (i = j)) as [->|Hne].
  - rewrite list_lookup_insert_eq in H4 by (by eapply lookup_lt_Some). rewrite Ej. destruct (sessions s' !! j) as [x'|]; [|done].
    destruct H4 as [_ H4]. rewrite (H4 Hj). split; [by intros _|]. intros Hn. destruct Hn. left.
  - rewrite list_lookup_insert_ne in H4 by done. destruct (sessions s !! i) as [y|]; [|done]. destruct (sessions s' !! i) as [y'|]; [|done].
    rewrite elem_of_cons. split; [intros [?|?]; [done|by apply H4]|]. intros Hn. apply H4. tauto.
Qed.

(** C9: When the flush runs, every session that waits for it is released, and the
    others are left alone. It fails exactly when the engine has writes that wait to
    be flushed, and its log is broken or the operating system does not flush the
    file. If it does not fail, nothing is pending any more, and what each session
    held is written, in order; if it fails, nothing is written, and the connection
    of each is cut. *)
Theorem flush_releases s c :
  committer (shared s) = Some c → scheduled c = true → NoDup (waiting c) →
  (∀ e, Cat.engine (catalog (world (shared s))) = Some e → log_open e) →
  ∃ failure s', run_commit osL s = (Ok (), s') ∧
    committer (shared s') = Some {| waiting := []; scheduled := false |} ∧
    (failure = None ↔ ∀ e, Cat.engine (catalog (world (shared s))) = Some e → flushes e) ∧
    (failure = None → hasPending (shared s') = false) ∧
    ∀ i, match sessions s !! i, sessions s' !! i with
         | Some session, Some session' =>
             ((i ∈ waiting c) → released failure session session') ∧ ((i ∉ waiting c) → session' = session)
         | None, None => True
         | _, _ => False
         end.
Proof using.
  intros Hc Hs Hn Ho. unfold run_commit. rewrite Hc, Hs.
  set (sh0 := set_committer (Some {| waiting := []; scheduled := false |}) (shared s)).
  pose proof (engine_commit_outcome sh0 Ho) as He. destruct (engine_commit osL sh0) as [failure sh]. destruct He as (Hsh & Hf & Hp).
  pose proof (release_all failure (waiting c) {| shared := sh; sessions := sessions s |} Hn) as Hr.
  destruct (st_each _ _ _) as [r s']. destruct Hr as (-> & H2 & H3 & H4). exists failure, s'.
  split; [done|]. split; [rewrite H3; exact Hsh|]. split; [exact Hf|]. split; [|exact H4].
  intros E. unfold hasPending. rewrite H2. exact (Hp E).
Qed.
End Flush.

(** * Sessions: a small one

    An engine that flushes for many writers at once, and a connection to it. *)
Import Scans.Scans(catalog,scans) Dispatcher.Dispatcher(CommandEnvelope,Moment) Session.Session.
Import Engine.Engine Dispatcher.Dispatcher(CommandEnvelope,Moment,command,parameters,database).

Definition group_options : StorageEngineOptions := {|
  opt_log := {| Wal.opt_directory := js "log"; Wal.opt_writeConcern := Some Wal.Flushed; Wal.opt_groupCommit := Some true;
                Wal.opt_segmentSizeBytes := None |};
  opt_checkpoints := js "checkpoints";
  opt_memoryFlushIntervalMs := None; opt_checkpointIntervalMs := None; opt_checkpointThresholdBytes := None;
  opt_checkpointRetention := None; opt_checkpointOnClose := None; opt_backgroundCheckpoints := None;
  opt_onCheckpointStage := None;
|}.

Definition group_engine : option StorageEngine :=
  match Engine.Engine.open quiet_os quiet_os group_options nothing nothing with inl e => Some e | inr _ => None end.

(** A connection that has made its handshake. *)
Definition sample_session : option (Shared * ServerSession) :=
  match group_engine with
  | Some e => Some ({| world := {| catalog := Cat.new (Some e); scans := [] |};
                       committer := Some {| waiting := []; scheduled := false |}; faults := [] |}, set_state Ready new)
  | None => None
  end.

Definition sample_handle (x : Shared * ServerSession) : res exn () * (Shared * ServerSession) :=
  handleCommand quiet_os quiet_os sample_describe sample_detail 0 (sample_moment 31) 7
    (request_of (js "insertOne") [(js "document", sample_document 31)]) x.

Lemma sample_live x : sample_session = Some x → live x.2 ∧ enrolled 0 x ∧ canReceiveMessages x.2 = true ∧ is_Some (committer x.1).
Proof.
  unfold sample_session. destruct group_engine as [e|]; [|done]. intros [= <-]. split; [by split|]. split; [done|]. split; [done|by eexists].
Qed.

(** The answer of an insertion is held. *)
Lemma reply_waits_witness :
  match sample_session with
  | Some x => let (r, x') := sample_handle x in
      (∃ kind payload data, encode kind 7 payload = Ok data ∧ sent x'.2 = [data]) ∧ hasPending x'.1 = true ∧
      written (socket x'.2) = [] ∧ ∃ c, committer x'.1 = Some c ∧ (0%nat ∈ waiting c) ∧ scheduled c = true
  | None => False
  end.
Proof.
  assert (match sample_session with
    | Some x => let (r, x') := sample_handle x in r = Ok () ∧ hasPending x'.1 = true ∧ sent x.2 = [] ∧ written (socket x.2) = []
    | None => False end) as H by (vm_compute; repeat split).
  pose proof sample_live as Hl. destruct sample_session as [x|]; [|exact H]. destruct (Hl x eq_refl) as (H1 & H2 & H3 & H4).
  pose proof (reply_waits quiet_os quiet_os sample_describe sample_detail 0 (sample_moment 31) 7
    (request_of (js "insertOne") [(js "document", sample_document 31)]) x H1 H2 H3 H4) as Hr.
  fold (sample_handle x) in Hr. destruct (sample_handle x) as [r x']. destruct H as (-> & Hp & Hs & Hw). rewrite Hs, Hw in Hr.
  destruct Hr as [Ha Hr]. split; [exact Ha|]. split; [exact Hp|]. destruct (Hr Hp) as (_ & G1 & G2). split; [exact G1|exact G2].
Defined.

Definition sample_pending : option Server :=
  match sample_session with
  | Some x => let (_, x') := sample_handle x in Some {| shared := x'.1; sessions := [x'.2] |}
  | None => None
  end.

(** It is written after the flush. *)
Lemma flush_releases_witness :
  match sample_pending with
  | Some s => ∃ s', run_commit quiet_os s = (Ok (), s') ∧ hasPending (shared s) = true ∧
      match sessions s, sessions s' with
      | [x], [x'] => written (socket x) = [] ∧ ∃ data, written (socket x') = [data] ∧ hasPending (shared s') = false
      | _, _ => False
      end
  | None => False
  end.
Proof.
  assert (match sample_pending with
    | Some s => committer (shared s) = Some {| waiting := [0%nat]; scheduled := true |} ∧ hasPending (shared s) = true ∧
        match Cat.engine (catalog (world (shared s))) with Some e => Wal.closed (log e) = false | None => False end ∧
        match sessions s with
        | [x] => written (socket x) = [] ∧ destroyed (socket x) = false ∧ writableEnded (socket x) = false ∧ length (held x) = 1%nat
        | _ => False
        end ∧
        match (run_commit quiet_os s).2 with s' => match sessions s' with [x'] => destroyed (socket x') = false | _ => False end end
    | None => False end) as H by (vm_compute; repeat split).
  destruct sample_pending as [s|]; [|exact H]. destruct H as (Hc & Hp & He & Hs & Hd).
  assert (NoDup [0%nat]) as Hn by (apply NoDup_singleton).
  destruct (flush_releases quiet_os s _ Hc eq_refl Hn) as (failure & s' & E & _ & _ & Hf & Hall).
  { intros e Ee. rewrite Ee in He. intros Hcl. congruence. }
  exists s'. split; [exact E|]. split; [exact Hp|]. rewrite E in Hd. cbn [snd] in Hd. destruct s as [sh ss], s' as [sh' ss']. cbn [sessions shared] in *.
  destruct ss as [|x [|]]; [destruct Hs| |destruct Hs]. destruct ss' as [|x' [|]]; [destruct Hd| |destruct Hd]. specialize (Hall 0%nat). cbn in Hall.
  destruct Hs as (Hw & D1 & D2 & Hl). destruct Hall as [Hall _].
  destruct (Hall (list_elem_of_here _ _)) as (_ & _ & _ & _ & Ho & _). specialize (Ho (conj D1 D2)).
  split; [exact Hw|]. destruct failure as [e|].
  - destruct Ho as [_ Ho]. congruence.
  - destruct Ho as (Ho & _). unfold sent in Ho. rewrite Hw in Ho. destruct (held x) as [|data [|]]; try discriminate Hl.
    exists data. split; [exact Ho|exact (Hf eq_refl)].
Defined.

(** ** A handshake and a ping *)
Definition hello : result bytes :=
  encode MessageKind.Handshake 1
    [(js "role", VString (js "client")); (js "protocolVersion", Dispatcher.Dispatcher.number_value PROTOCOL_VERSION);
     (js "product", VString (js "client")); (js "productVersion", VString (js "1"));
     (js "capabilities", VArray [])].

Definition ping : result bytes := encode MessageKind.Ping 2 [(js "sentAt", VDate (Some 5))].

Definition hello_and_ping : bytes :=
  match hello, ping with Ok a, Ok b => a ++ b | _, _ => [] end.

Definition nobody : Shared := {| world := {| catalog := Cat.new None; scans := [] |}; committer := None; faults := [] |}.

(** What the connection makes of a chunk. *)
Definition sample_chunk (chunk : bytes) : res exn () * (Shared * ServerSession) :=
  handleData quiet_os quiet_os sample_describe sample_detail 0 (js "server") (js "1") (λ _, sample_moment 1) chunk (nobody, new).

(** Something else than the protocol. *)
Definition noise : bytes := repeat 0 20.

Lemma sample_presentable e : presentable (sample_describe e).
Proof. split; [split|..]; by (apply (bool_decide_unpack _); vm_compute). Qed.

(** The handshake and the ping have their answers; the noise is refused. *)
Lemma data_answered_witness :
  (let (r, x') := sample_chunk hello_and_ping in r = Ok () ∧ length (sent x'.2) = 2%nat ∧ live x'.2) ∧
  match (Stream.push (decoder new) noise).1 with
  | Ok _ => False
  | Throw e => ∃ data, encode MessageKind.Error 0 (protocol_failure sample_describe e) = Ok data ∧ sent (sample_chunk noise).2.2 = [data]
  end.
Proof.
  assert (match (Stream.push (decoder new) hello_and_ping).1 with Ok messages => length messages = 2%nat | Throw _ => False end) as Hm
    by (vm_compute; reflexivity).
  assert (let (r, x') := sample_chunk hello_and_ping in r = Ok () ∧ currentState x'.2 = Ready) as Hr by (vm_compute; split; reflexivity).
  assert (match (Stream.push (decoder new) noise).1 with Ok _ => False | Throw _ => True end) as Hn by (vm_compute; exact I).
  assert (live new) as Hl by (split; [split|intros _|]; reflexivity).
  assert (enrolled 0 (nobody, new)) as He by (intros E; discriminate E).
  assert (∀ chunk, ∀ e, (Stream.push (decoder (nobody, new).2) chunk).1 = Throw e → presentable (sample_describe e)) as Hp
    by (intros ? ? _; apply sample_presentable).
  pose proof (λ chunk, data_answered quiet_os quiet_os sample_describe sample_detail 0 (js "server") (js "1") (λ _, sample_moment 1) chunk
    (nobody, new) Hl He eq_refl (Hp chunk)) as H. clear Hp Hl He.
  split; [specialize (H hello_and_ping)|specialize (H noise)];
    cbn [snd] in H; fold (sample_chunk hello_and_ping) (sample_chunk noise) in H.
  - destruct (Stream.push (decoder new) hello_and_ping) as [[messages|e] d]; [|destruct Hm]. cbn [fst] in Hm.
    destruct (sample_chunk hello_and_ping) as [r x']. destruct Hr as [-> Hst]. split; [reflexivity|].
    destruct H as (rs & _ & Hs & _ & [(Hlen & Hl & _)|[Hc _]]); [|congruence].
    split; [|exact Hl]. rewrite Hs. cbn. congruence.
  - destruct (Stream.push (decoder new) noise) as [[messages|e] d]; [destruct Hn|].
    destruct H as (data & x' & E & Hd & Hs & _). exists data. rewrite E. split; [exact Hd|exact Hs].
Defined.

(** ** What is not answered

    A document that a message just holds can be inserted, but the message that would
    return it is one level deeper: the failure is given to [onError], as an error of
    the server itself. *)
Fixpoint nested (n : nat) : DocumentValue :=
  match n with O => VDoc [] | S n => VDoc [(js "a", nested n)] end.

Definition deep_document : DocumentValue := nested 98.

Definition insert_deep : CommandEnvelope := request_of (js "insertOne") [(js "document", deep_document)].

Definition sample_command (m : Moment) (request : CommandEnvelope) (x : Shared * ServerSession) : Shared * ServerSession :=
  (handleCommand quiet_os quiet_os sample_describe sample_detail 0 m 7 request x).2.

Definition faults_of_find : list ServerError :=
  let x := sample_command (sample_moment 31) insert_deep (nobody, set_state Ready new) in
  faults (sample_command (sample_moment 32) (request_of (js "find") [(js "filter", VDoc [])]) x).1.

Definition command_message (request : CommandEnvelope) : result bytes :=
  encode MessageKind.Command 7
    [(js "command", VString (command request)); (js "database", VString (js "shop"));
     (js "parameters", VDoc (parameters request))].

Example deep_document_faults :
  (∃ r, command_message insert_deep = Ok r) ∧ faults_of_find = [StorageFailure (ProtocolError DocumentTooDeep)].
Proof. split; [eexists|]; vm_compute; reflexivity. Qed.

(** A collection that cannot be made for want of space is an error of the server
    itself too, where an insertion into it is answered. *)
Definition full_dispatch (name : jsstring) : option (list ServerError) :=
  match sample_session with
  | Some x => Some (faults (handleCommand (failing_os 0) quiet_os sample_describe sample_detail 0 (sample_moment 31) 7
      {| command := name; database := Some (js "shop");
         parameters := [(js "name", VString (js "items")); (js "collection", VString (js "items")); (js "document", sample_document 1)] |} x).2.1)
  | None => None
  end.

Example full_disk_faults :
  full_dispatch (js "insertOne") = Some [] ∧ full_dispatch (js "createCollection") = Some [StorageFailure (StorageError DiskFull)].
Proof. split; vm_compute; reflexivity. Qed.
