(* ===== verification/Driver.v ===== *)
(** * The driver

    packages/driver/src: what the driver makes of the answers of a server
    (collection.ts, indexes.ts, list-result.ts, client.ts) in [Results]; its cursors
    (cursor.ts) in [FindCursor]; the opening of a connection (handshake.ts) in
    [Handshake]; the requests of a connection that wait for their answers
    (request-dispatcher.ts) in [Requests]; and the life of a client (client.ts) in
    [Client]. A promise is a number, its place in the list of all promises that were
    made; sockets are those of Session.v. *)

From S2P Require Import Prelude Errors JsNumber JsString JsValue Frame Message ServerErrors Session.

Module Driver.

(** ** Errors (errors.ts) *)
Inductive SinterErrorCode :=
  | InvalidConnectionString | InvalidClientOptions | InvalidDocument | ClientClosed | ClientNotConnected
  | ConnectionFailed | ConnectionTimeout | SocketTimeout | RequestTimeout | IncompatibleProtocol
  | ProtocolViolation | ServerError.

(** The fields of a [SinterServerError]. *)
Record SinterServerErrorFields := {
  message : jsstring;
  wireCode : option number;
  serverErrorName : option jsstring;
  retryable : bool;
  details : option Document;
}.

(** The classes; [LoopPending] is no error but a loop that has no fuel left. *)
Inductive SinterError :=
  | SinterClientOptionsError
  | SinterDocumentError (cause : exn)
  | SinterClientStateError (closed : bool)
  | SinterConnectionError
  | SinterConnectionTimeoutError
  | SinterSocketTimeoutError
  | SinterRequestTimeoutError
  | SinterProtocolError
  | SinterServerError (fields : SinterServerErrorFields)
  | SinterInsertManyError (fields : SinterServerErrorFields) (failedIndex : number) (insertedIds : list bytes)
  | SinterCompatibilityError (message : option jsstring)
  | LoopPending.

Definition error_code (error : SinterError) : option SinterErrorCode :=
  match error with
  | SinterClientOptionsError => Some InvalidClientOptions
  | SinterDocumentError _ => Some InvalidDocument
  | SinterClientStateError closed => Some (if closed then ClientClosed else ClientNotConnected)
  | SinterConnectionError => Some ConnectionFailed
  | SinterConnectionTimeoutError => Some ConnectionTimeout
  | SinterSocketTimeoutError => Some SocketTimeout
  | SinterRequestTimeoutError => Some RequestTimeout
  | SinterProtocolError => Some ProtocolViolation
  | SinterServerError _ | SinterInsertManyError _ _ _ => Some ServerError
  | SinterCompatibilityError _ => Some IncompatibleProtocol
  | LoopPending => None
  end.

Abbreviation answer := (res SinterError).

(** What the driver makes of an error message, whose payload has been validated. *)
Definition server_error_fields (payload : Document) : SinterServerErrorFields := {|
  message := match obj_get payload (js "message") with Some (VString s) => s | _ => [] end;
  wireCode := match obj_get payload (js "code") with Some (VNumber n) => Some n | _ => None end;
  serverErrorName := match obj_get payload (js "name") with Some (VString s) => Some s | _ => None end;
  retryable := match obj_get payload (js "retryable") with Some (VBool b) => b | _ => false end;
  details := match obj_get payload (js "details") with Some (VDoc d) => Some d | _ => None end |}.

(** ** Results *)
Module Results.
Record InsertManyResult := { insertedCount : number; insertedIds : list bytes }.
Record UpdateResult := { matchedCount : number; modifiedCount : number; upsertedId : option bytes }.
Record CreateIndexResult := { created_name : jsstring; created : bool }.
Record IndexInfo := { name : jsstring; field : jsstring; direction : number; unique : bool; sparse : bool }.
Record IndexBoundInfo := { value : DocumentValue; inclusive : bool }.
Record ExplainResult := {
  stage : jsstring;
  index : option jsstring;
  index_field : option jsstring;
  access : option jsstring;
  lower : option IndexBoundInfo;
  upper : option IndexBoundInfo;
  estimatedCandidates : number;
  documents : number;
}.
Record IndexIssue := { issue_index : jsstring; problem : jsstring; detail : jsstring }.
Record IndexValidationResult := {
  valid : bool;
  indexes : number;
  documents_checked : number;
  issues : list IndexIssue;
}.
Record SinterPingResult := { sentAt : Z; receivedAt : Z }.

Definition invalid {A} : answer A := Throw SinterProtocolError.

(** [isPlainDocument], and [asRecord]: an object of a class has no property of
    those that are then asked for. *)
Definition asRecord (value : DocumentValue) : answer Document :=
  match value with VDoc d => Ok d | _ => invalid end.

Definition isCount (value : option DocumentValue) : option number :=
  match value with
  | Some (VNumber n) => if isSafeInteger n && (0 <=? Z_of_number n) then Some n else None
  | _ => None
  end.

Definition is_true (value : option DocumentValue) : bool :=
  match value with Some (VBool b) => b | _ => false end.

Definition the_bool (value : option DocumentValue) : option bool :=
  match value with Some (VBool b) => Some b | _ => None end.

Definition the_string (value : option DocumentValue) : option jsstring :=
  match value with Some (VString s) => Some s | _ => None end.

Definition the_id (value : DocumentValue) : option bytes :=
  match value with VId bs => Some bs | _ => None end.

Definition the_array (value : option DocumentValue) : option (list DocumentValue) :=
  match value with Some (VArray l) => Some l | _ => None end.

(** What a check gives, or the error of a result that is none of the server's. *)
Definition demand {A} (value : option A) : answer A :=
  match value with Some a => Ok a | None => invalid end.

Definition parseInsertOneResult (value : DocumentValue) : answer bytes :=
  value ← asRecord value;
  if is_true (obj_get value (js "acknowledged"))
  then demand (id ← obj_get value (js "insertedId"); the_id id) else invalid.

Definition parseInsertManyResult (value : DocumentValue) : answer InsertManyResult :=
  value ← asRecord value;
  if is_true (obj_get value (js "acknowledged")) then
    insertedCount ← demand (isCount (obj_get value (js "insertedCount")));
    insertedIds ← demand (l ← the_array (obj_get value (js "insertedIds")); mapM the_id l);
    if len insertedIds =? Z_of_number insertedCount
    then Ok {| insertedCount := insertedCount; insertedIds := insertedIds |} else invalid
  else invalid.

(** A document with an [_id] of the class of ids. *)
Definition parseDocument (value : DocumentValue) : option Document :=
  match value with
  | VDoc d => match obj_get d (js "_id") with Some (VId _) => Some d | _ => None end
  | _ => None
  end.

Definition parseFindOneResult (value : DocumentValue) : answer (option Document) :=
  value ← asRecord value;
  match obj_get value (js "document") with
  | Some VNull => Ok None
  | Some document => d ← demand (parseDocument document); Ok (Some d)
  | None => invalid
  end.

Definition parseUpdateResult (value : DocumentValue) : answer UpdateResult :=
  value ← asRecord value;
  if is_true (obj_get value (js "acknowledged")) then
    matchedCount ← demand (isCount (obj_get value (js "matchedCount")));
    modifiedCount ← demand (isCount (obj_get value (js "modifiedCount")));
    if Z_of_number matchedCount <? Z_of_number modifiedCount then invalid
    else
      match obj_get value (js "upsertedId") with
      | Some VNull => Ok {| matchedCount := matchedCount; modifiedCount := modifiedCount; upsertedId := None |}
      | Some (VId id) => Ok {| matchedCount := matchedCount; modifiedCount := modifiedCount; upsertedId := Some id |}
      | _ => invalid
      end
  else invalid.

Definition parseDeleteResult (value : DocumentValue) : answer number :=
  value ← asRecord value;
  if is_true (obj_get value (js "acknowledged"))
  then demand (isCount (obj_get value (js "deletedCount"))) else invalid.

(** [translateInsertManyFailure]: what insertMany throws for an error. *)
Definition translateInsertManyFailure (error : SinterError) : SinterError :=
  match error with
  | SinterServerError fields =>
      match details fields with
      | Some details =>
          match isCount (obj_get details (js "failedIndex")),
                (l ← the_array (obj_get details (js "insertedIds")); mapM the_id l) with
          | Some failedIndex, Some insertedIds => SinterInsertManyError fields failedIndex insertedIds
          | _, _ => error
          end
      | None => error
      end
  | _ => error
  end.

(** *** indexes.ts *)
Definition parseCreateIndexResult (value : DocumentValue) : answer CreateIndexResult :=
  record ← asRecord value;
  if is_true (obj_get record (js "acknowledged")) then
    name ← demand (the_string (obj_get record (js "name")));
    created ← demand (the_bool (obj_get record (js "created")));
    Ok {| created_name := name; created := created |}
  else invalid.

(** A direction: [1] or [-1]. *)
Definition the_direction (value : option DocumentValue) : option number :=
  match value with
  | Some (VNumber n) => if isInteger n && (Z.abs (Z_of_number n) =? 1) then Some n else None
  | _ => None
  end.

Definition parseIndexInfo (entry : DocumentValue) : answer IndexInfo :=
  index ← asRecord entry;
  name ← demand (the_string (obj_get index (js "name")));
  field ← demand (the_string (obj_get index (js "field")));
  direction ← demand (the_direction (obj_get index (js "direction")));
  unique ← demand (the_bool (obj_get index (js "unique")));
  sparse ← demand (the_bool (obj_get index (js "sparse")));
  Ok {| name := name; field := field; direction := direction; unique := unique; sparse := sparse |}.

Definition parseIndexList (value : DocumentValue) : answer (list IndexInfo) :=
  record ← asRecord value;
  indexes ← demand (the_array (obj_get record (js "indexes")));
  mapM parseIndexInfo indexes.

Definition parseBound (value : DocumentValue) : answer IndexBoundInfo :=
  record ← asRecord value;
  inclusive ← demand (the_bool (obj_get record (js "inclusive")));
  value ← demand (obj_get record (js "value"));
  Ok {| value := value; inclusive := inclusive |}.

(** A property that there may not be. *)
Definition maybe {A} (f : DocumentValue → answer A) (value : option DocumentValue) : answer (option A) :=
  match value with None => Ok None | Some v => a ← f v; Ok (Some a) end.

Definition string_of (v : DocumentValue) : answer jsstring := demand (the_string (Some v)).

(** A string that is one of some. *)
Definition one_of (values : list jsstring) (v : DocumentValue) : answer jsstring :=
  s ← string_of v; if bool_decide (s ∈ values) then Ok s else invalid.

Definition STAGES : list jsstring := [js "COLLSCAN"; js "IDLOOKUP"; js "IXSCAN"].
Definition ACCESSES : list jsstring := [js "equality"; js "in"; js "range"].

Definition parseExplainResult (value : DocumentValue) : answer ExplainResult :=
  record ← asRecord value;
  stage ← (v ← demand (obj_get record (js "stage")); one_of STAGES v);
  estimatedCandidates ← demand (isCount (obj_get record (js "estimatedCandidates")));
  documents ← demand (isCount (obj_get record (js "documents")));
  access ← maybe (one_of ACCESSES) (obj_get record (js "access"));
  index ← maybe string_of (obj_get record (js "index"));
  field ← maybe string_of (obj_get record (js "field"));
  lower ← maybe parseBound (obj_get record (js "lower"));
  upper ← maybe parseBound (obj_get record (js "upper"));
  Ok {| stage := stage; index := index; index_field := field; access := access; lower := lower; upper := upper;
        estimatedCandidates := estimatedCandidates; documents := documents |}.

Definition parseIssue (entry : DocumentValue) : answer IndexIssue :=
  issue ← asRecord entry;
  index ← demand (the_string (obj_get issue (js "index")));
  problem ← demand (the_string (obj_get issue (js "problem")));
  detail ← demand (the_string (obj_get issue (js "detail")));
  Ok {| issue_index := index; problem := problem; detail := detail |}.

Definition parseIndexValidation (value : DocumentValue) : answer IndexValidationResult :=
  record ← asRecord value;
  valid ← demand (the_bool (obj_get record (js "valid")));
  indexes ← demand (isCount (obj_get record (js "indexes")));
  documents ← demand (isCount (obj_get record (js "documents")));
  issues ← demand (the_array (obj_get record (js "issues")));
  issues ← mapM parseIssue issues;
  Ok {| valid := valid; indexes := indexes; documents_checked := documents; issues := issues |}.

(** *** list-result.ts and client.ts *)
Definition parseNameList (value : DocumentValue) (field : jsstring) : answer (list jsstring) :=
  record ← asRecord value;
  names ← demand (the_array (obj_get record field));
  demand (mapM (λ name, the_string (Some name)) names).

(** The time of a [Date] that is a time. *)
Definition the_time (value : option DocumentValue) : option Z :=
  match value with Some (VDate (Some ms)) => Some ms | _ => None end.

Definition parsePingResult (value : DocumentValue) (expectedSentAt : Z) : answer SinterPingResult :=
  result ← asRecord value;
  if is_true (obj_get result (js "ok")) then
    sentAt ← demand (the_time (obj_get result (js "sentAt")));
    receivedAt ← demand (the_time (obj_get result (js "receivedAt")));
    if sentAt =? expectedSentAt then Ok {| sentAt := sentAt; receivedAt := receivedAt |} else invalid
  else invalid.
End Results.

(** ** Cursors *)
Module FindCursor.

(** [cursorId]: [undefined], [null], or the id of a cursor of the server. *)
Inductive CursorId := Unasked | NoMore | OpenCursor (id : number).

Record FindQueryOptions := {
  sort : option (list (jsstring * number));
  skip : option number;
  limit : option number;
}.

(** What a cursor is made with. *)
Record Query := {
  collection : jsstring;
  filter : Document;
  batchSize : option number;
  query : FindQueryOptions;
}.

Record FindCursor := { buffer : list Document; cursorId : CursorId; closed : bool }.

Definition new : FindCursor := {| buffer := []; cursorId := Unasked; closed := false |}.

(** [{ name: value }], or [{}] for an option that is left out. *)
Definition given {A} (name : jsstring) (f : A → DocumentValue) (value : option A) : Document :=
  match value with Some a => [(name, f a)] | None => [] end.

Definition sort_value (sort : list (jsstring * number)) : DocumentValue :=
  VArray (map (λ pd : jsstring * number, VArray [VString pd.1; VNumber pd.2]) sort).

Definition find_parameters (q : Query) : Document :=
  [(js "collection", VString (collection q)); (js "filter", VDoc (filter q))]
  ++ given (js "batchSize") VNumber (batchSize q) ++ given (js "sort") sort_value (sort (query q))
  ++ given (js "skip") VNumber (skip (query q)) ++ given (js "limit") VNumber (limit (query q)).

Definition getMore_parameters (q : Query) (id : number) : Document :=
  (js "cursorId", VNumber id) :: given (js "batchSize") VNumber (batchSize q).

Definition valid_cursorId (value : option DocumentValue) : option CursorId :=
  match value with
  | Some VNull => Some NoMore
  | Some (VNumber n) => if isSafeInteger n && (0 <? Z_of_number n) then Some (OpenCursor n) else None
  | _ => None
  end.

Definition parseBatch (value : DocumentValue) : answer (CursorId * list Document) :=
  record ← Results.asRecord value;
  cursorId ← Results.demand (valid_cursorId (obj_get record (js "cursorId")));
  documents ← Results.demand
    (l ← Results.the_array (obj_get record (js "documents")); mapM Results.parseDocument l);
  Ok (cursorId, documents).

Section FindCursor.
Context {W : Type} (execute : jsstring → Document → ST W SinterError DocumentValue) (q : Query).

Abbreviation action A := (ST (W * FindCursor) SinterError A).

Definition send (command : jsstring) (parameters : Document) : action DocumentValue := λ '(s, c),
  let (r, s) := execute command parameters s in (r, (s, c)).

Definition this {A} (f : FindCursor → A) : action A := st_get (λ s, f s.2).
Definition update (f : FindCursor → FindCursor) : action () := st_update (λ s, (s.1, f s.2)).

(** [try { m } finally { f }]. *)
Definition finally {A} (m : action A) (f : action ()) : action A := λ s,
  let (r, s) := m s in
  match f s with
  | (Ok _, s) => (r, s)
  | (Throw e, s) => (Throw e, s)
  end.

Definition explain : action Results.ExplainResult :=
  value ← send (js "explain") [(js "collection", VString (collection q)); (js "filter", VDoc (filter q))];
  st_lift (Results.parseExplainResult value).

Definition fetchBatch : action () :=
  cursorId ← this cursorId;
  value ← match cursorId with
          | OpenCursor id => send (js "getMore") (getMore_parameters q id)
          | _ => send (js "find") (find_parameters q)
          end;
  '(cursorId, documents) ← st_lift (parseBatch value);
  update (λ c, {| buffer := buffer c ++ documents; cursorId := cursorId; closed := closed c |}).

(** The loop ends when a batch has documents or says that there are no more;
    [fuel] is how many batches are asked for at most. *)
Fixpoint hasNext (fuel : nat) : action bool :=
  c ← this id;
  match buffer c with
  | _ :: _ => mret true
  | [] =>
      if closed c then mret false
      else match cursorId c, fuel with
           | NoMore, _ => mret false
           | _, O => st_throw LoopPending
           | _, S fuel => _ ← fetchBatch; hasNext fuel
           end
  end.

Definition next (fuel : nat) : action (option Document) :=
  more ← hasNext fuel;
  if more : bool then
    c ← this id;
    match buffer c with
    | d :: l => _ ← update (λ c, {| buffer := l; cursorId := cursorId c; closed := closed c |}); mret (Some d)
    | [] => mret None
    end
  else mret None.

Definition close : action () :=
  c ← this id;
  if closed c then mret ()
  else
    _ ← update (λ _, {| buffer := []; cursorId := NoMore; closed := true |});
    match cursorId c with
    | OpenCursor id => _ ← send (js "closeCursor") [(js "cursorId", VNumber id)]; mret ()
    | _ => mret ()
    end.

(** The loop of [toArray], for [n] documents at most. *)
Fixpoint read_loop (n fuel : nat) (results : list Document) : action (list Document) :=
  doc ← next fuel;
  match doc, n with
  | None, _ => mret results
  | Some _, O => st_throw LoopPending
  | Some doc, S n => read_loop n fuel (results ++ [doc])
  end.

Definition toArray (n fuel : nat) : action (list Document) := finally (read_loop n fuel []) close.

(** A [for await] loop over the cursor that is left with a [break] in the turn of
    its document number [n], if there are so many. *)
Fixpoint iterate_loop (n fuel : nat) (results : list Document) : action (list Document) :=
  doc ← next fuel;
  match doc, n with
  | None, _ => mret results
  | Some doc, O => mret (results ++ [doc])
  | Some doc, S n => iterate_loop n fuel (results ++ [doc])
  end.

Definition iterate (n fuel : nat) : action (list Document) := finally (iterate_loop n fuel []) close.
End FindCursor.
End FindCursor.

(** ** Names (namespace.ts) *)
Module Namespace.

(** A [SinterNamespaceError] is a [SinterClientOptionsError]. *)
Definition validateCommonName (name : jsstring) : answer () :=
  if is_blank name then Throw SinterClientOptionsError else Ok ().

(** [name.includes(c)]. *)
Definition includes (name : jsstring) (c : Z) : bool := existsb (Z.eqb c) name.

Definition validateDatabaseName (name : jsstring) : answer () :=
  _ ← validateCommonName name;
  if includes name 47 || includes name 92 || includes name 0 then Throw SinterClientOptionsError else Ok ().

Definition validateCollectionName (name : jsstring) : answer () :=
  _ ← validateCommonName name;
  if includes name 0 then Throw SinterClientOptionsError else Ok ().
End Namespace.

(** ** Collections and databases *)
Module Collections.
Import Results.

(** [FindOptions] and [UpdateOptions]. *)
Record FindOptions := { batchSize : option number; find_query : FindCursor.FindQueryOptions }.
Record UpdateOptions := { upsert : option bool }.

Section Collections.
Context {W : Type} (execute : jsstring → Document → ST W SinterError DocumentValue) (name : jsstring).

Abbreviation action A := (ST W SinterError A).

Definition insertOne (document : Document) : action bytes :=
  value ← execute (js "insertOne") [(js "collection", VString name); (js "document", VDoc document)];
  st_lift (parseInsertOneResult value).

Definition insertMany (documents : list Document) : action InsertManyResult :=
  value ← st_catch
    (execute (js "insertMany") [(js "collection", VString name); (js "documents", VArray (map VDoc documents))])
    (λ error, st_throw (translateInsertManyFailure error));
  st_lift (parseInsertManyResult value).

Definition findOne (filter : Document) : action (option Document) :=
  value ← execute (js "findOne") [(js "collection", VString name); (js "filter", VDoc filter)];
  st_lift (parseFindOneResult value).

Definition runDelete (command : jsstring) (filter : Document) : action number :=
  value ← execute command [(js "collection", VString name); (js "filter", VDoc filter)];
  st_lift (parseDeleteResult value).

Definition deleteOne (filter : Document) : action number := runDelete (js "deleteOne") filter.
Definition deleteMany (filter : Document) : action number := runDelete (js "deleteMany") filter.

Definition replaceOne (filter replacement : Document) (options : UpdateOptions) : action UpdateResult :=
  value ← execute (js "replaceOne")
    ([(js "collection", VString name); (js "filter", VDoc filter); (js "replacement", VDoc replacement)]
     ++ FindCursor.given (js "upsert") VBool (upsert options));
  st_lift (parseUpdateResult value).

Definition runUpdate (command : jsstring) (filter update : Document) (options : UpdateOptions) : action UpdateResult :=
  value ← execute command
    ([(js "collection", VString name); (js "filter", VDoc filter); (js "update", VDoc update)]
     ++ FindCursor.given (js "upsert") VBool (upsert options));
  st_lift (parseUpdateResult value).

Definition updateOne (filter update : Document) (options : UpdateOptions) : action UpdateResult :=
  runUpdate (js "updateOne") filter update options.
Definition updateMany (filter update : Document) (options : UpdateOptions) : action UpdateResult :=
  runUpdate (js "updateMany") filter update options.

Definition createIndex (definition : Document) : action CreateIndexResult :=
  value ← execute (js "createIndex") [(js "collection", VString name); (js "index", VDoc definition)];
  st_lift (parseCreateIndexResult value).

Definition dropIndex (index : jsstring) : action () :=
  _ ← execute (js "dropIndex") [(js "collection", VString name); (js "name", VString index)];
  mret ().

Definition indexes : action (list IndexInfo) :=
  value ← execute (js "listIndexes") [(js "collection", VString name)];
  st_lift (parseIndexList value).

Definition validateIndexes : action IndexValidationResult :=
  value ← execute (js "validateIndexes") [(js "collection", VString name)];
  st_lift (parseIndexValidation value).

(** The cursor that [find] returns, and what it is made with. *)
Definition find (filter : Document) (options : FindOptions) : FindCursor.Query * FindCursor.FindCursor :=
  ({| FindCursor.collection := name; FindCursor.filter := filter; FindCursor.batchSize := batchSize options;
      FindCursor.query := find_query options |}, FindCursor.new).

(** Of a database, and of the client. *)
Definition listCollections : action (list jsstring) :=
  value ← execute (js "listCollections") [];
  st_lift (parseNameList value (js "collections")).

Definition listDatabases : action (list jsstring) :=
  value ← execute (js "listDatabases") [];
  st_lift (parseNameList value (js "databases")).
End Collections.
End Collections.

(** ** The opening of a connection *)
Module Handshake.
Definition CLIENT_HANDSHAKE_REQUEST_ID : Z := 1.

Record ClientHandshakeOptions := {
  product : jsstring;
  productVersion : jsstring;
  capabilities : option (list jsstring);
}.

Record ServerHandshake := {
  protocolVersion : number;
  server_product : jsstring;
  server_productVersion : jsstring;
  server_capabilities : list jsstring;
}.

Definition required (options : ClientHandshakeOptions) : list jsstring := default [] (capabilities options).

(** The state of the handlers: the socket, the decoder, and what the promise was
    settled with, when it was. *)
Record Attempt := { socket : Session.Socket; decoder : Stream.decoder; settled : option (answer ServerHandshake) }.

(** [fail] and [succeed], which do nothing once it is settled. *)
Definition fail (error : SinterError) (a : Attempt) : Attempt :=
  match settled a with
  | Some _ => a
  | None => {| socket := Session.destroy (socket a); decoder := decoder a; settled := Some (Throw error) |}
  end.

Definition succeed (handshake : ServerHandshake) (a : Attempt) : Attempt :=
  match settled a with
  | Some _ => a
  | None => {| socket := socket a; decoder := decoder a; settled := Some (Ok handshake) |}
  end.

Definition strings_of (value : option DocumentValue) : list jsstring :=
  match value with
  | Some (VArray l) => omap (λ v, match v with VString s => Some s | _ => None end) l
  | _ => []
  end.

Definition string_at (payload : Document) (name : jsstring) : jsstring :=
  match obj_get payload name with Some (VString s) => s | _ => [] end.

(** What a message of the server says, whose payload has been validated. *)
Definition judge (options : ClientHandshakeOptions) (message : DecodedMessage) : answer ServerHandshake :=
  let payload := Message.payload message in
  if negb (Message.requestId message =? CLIENT_HANDSHAKE_REQUEST_ID) then Throw SinterProtocolError
  else if Message.kind message =? MessageKind.Error then
    if bool_decide (string_at payload (js "name") ∈ [js "UnsupportedProtocolVersion"; js "UnsupportedCapability"])
    then Throw (SinterCompatibilityError (Some (string_at payload (js "message"))))
    else Throw (SinterServerError (server_error_fields payload))
  else if negb (Message.kind message =? MessageKind.Handshake) then Throw SinterProtocolError
  else if negb (bool_decide (string_at payload (js "role") = js "server")) then Throw SinterProtocolError
  else
    let version := match obj_get payload (js "protocolVersion") with Some (VNumber n) => n | _ => number_of_Z 0 end in
    if negb (isInteger version && (Z_of_number version =? PROTOCOL_VERSION)) then Throw (SinterCompatibilityError None)
    else
      let capabilities := strings_of (obj_get payload (js "capabilities")) in
      if forallb (λ capability, bool_decide (capability ∈ capabilities)) (required options)
      then Ok {| protocolVersion := version; server_product := string_at payload (js "product");
                 server_productVersion := string_at payload (js "productVersion"); server_capabilities := capabilities |}
      else Throw (SinterCompatibilityError None).

(** A chunk that arrives: text, or bytes. *)
Inductive Chunk := Text | Bytes (chunk : bytes).

(** [onData]: the loop over the messages returns in its first turn. The handlers
    are taken off the socket when the promise is settled. *)
Definition onData (options : ClientHandshakeOptions) (chunk : Chunk) (a : Attempt) : Attempt :=
  match settled a with
  | Some _ => a
  | None =>
      match chunk with
      | Text => fail SinterProtocolError a
      | Bytes chunk =>
          let (r, d) := Stream.push (decoder a) chunk in
          let a := {| socket := socket a; decoder := d; settled := settled a |} in
          match r with
          | Throw _ => fail SinterProtocolError a
          | Ok [] => a
          | Ok (message :: _) =>
              match judge options message with
              | Ok handshake => succeed handshake a
              | Throw error => fail error a
              end
          end
      end
  end.

(** [onError] and [onClose]. *)
Definition onLost (a : Attempt) : Attempt := fail SinterConnectionError a.

Definition handshake_payload (options : ClientHandshakeOptions) : Document :=
  [(js "role", VString (js "client")); (js "protocolVersion", VNumber (number_of_Z PROTOCOL_VERSION));
   (js "product", VString (product options)); (js "productVersion", VString (productVersion options));
   (js "capabilities", VArray (map VString (required options)))].

Definition performClientHandshake (options : ClientHandshakeOptions) (k : Session.Socket) : Attempt :=
  let a := {| socket := k; decoder := Stream.new; settled := None |} in
  match Session.encode MessageKind.Handshake CLIENT_HANDSHAKE_REQUEST_ID (handshake_payload options) with
  | Throw _ => fail SinterConnectionError a
  | Ok data => {| socket := Session.socket_write data k; decoder := Stream.new; settled := None |}
  end.
End Handshake.

(** ** Requests and their answers *)
Module Requests.
Definition FIRST_OPERATION_REQUEST_ID : Z := Handshake.CLIENT_HANDSHAKE_REQUEST_ID + 1.

(** What the promise of a request is settled with. *)
Abbreviation Settled := (answer DecodedMessage).

(** [pending]: the requests that wait, with their promises; [timers]: the timers
    that are set, each for the promise and the request of its callback; [promises]:
    what every promise has been settled with. *)
Record RequestDispatcher := {
  socket : Session.Socket;
  decoder : Stream.decoder;
  requestIds : RequestId.RequestIdGenerator;
  pending : list (Z * nat);
  timers : list (nat * Z);
  closed : bool;
  promises : list (option Settled);
}.

Definition new (k : Session.Socket) : RequestDispatcher := {|
  socket := k; decoder := Stream.new; requestIds := {| RequestId.current := FIRST_OPERATION_REQUEST_ID |};
  pending := []; timers := []; closed := false; promises := [] |}.

Definition set_socket (k : Session.Socket) (d : RequestDispatcher) : RequestDispatcher := {|
  socket := k; decoder := decoder d; requestIds := requestIds d; pending := pending d; timers := timers d;
  closed := closed d; promises := promises d |}.
Definition set_decoder (s : Stream.decoder) (d : RequestDispatcher) : RequestDispatcher := {|
  socket := socket d; decoder := s; requestIds := requestIds d; pending := pending d; timers := timers d;
  closed := closed d; promises := promises d |}.
Definition set_requestIds (g : RequestId.RequestIdGenerator) (d : RequestDispatcher) : RequestDispatcher := {|
  socket := socket d; decoder := decoder d; requestIds := g; pending := pending d; timers := timers d;
  closed := closed d; promises := promises d |}.
Definition set_pending (p : list (Z * nat)) (t : list (nat * Z)) (d : RequestDispatcher) : RequestDispatcher := {|
  socket := socket d; decoder := decoder d; requestIds := requestIds d; pending := p; timers := t;
  closed := closed d; promises := promises d |}.
Definition set_closed (d : RequestDispatcher) : RequestDispatcher := {|
  socket := socket d; decoder := Stream.reset (decoder d); requestIds := requestIds d; pending := pending d;
  timers := timers d; closed := true; promises := promises d |}.
Definition set_promises (l : list (option Settled)) (d : RequestDispatcher) : RequestDispatcher := {|
  socket := socket d; decoder := decoder d; requestIds := requestIds d; pending := pending d; timers := timers d;
  closed := closed d; promises := l |}.

(** [resolve] and [reject] of a promise, which count once. *)
Definition settle (promise : nat) (r : Settled) (d : RequestDispatcher) : RequestDispatcher :=
  match promises d !! promise with
  | Some None => set_promises (<[promise := Some r]> (promises d)) d
  | _ => d
  end.

(** A promise that is already rejected. *)
Definition rejected (error : SinterError) (d : RequestDispatcher) : nat * RequestDispatcher :=
  (length (promises d), set_promises (promises d ++ [Some (Throw error)]) d).

(** [pending.delete(requestId)] with [clearTimeout]. *)
Definition forget (requestId : Z) (promise : nat) (d : RequestDispatcher) : RequestDispatcher :=
  set_pending (omap_delete (pending d) requestId) (omap_delete (timers d) promise) d.

Definition rejectRequest (requestId : Z) (error : SinterError) (d : RequestDispatcher) : RequestDispatcher :=
  match omap_get (pending d) requestId with
  | None => d
  | Some promise => settle promise (Throw error) (forget requestId promise d)
  end.

Definition rejectAll (error : SinterError) (d : RequestDispatcher) : RequestDispatcher :=
  fold_left (λ d (entry : Z * nat), settle entry.2 (Throw error) (forget entry.1 entry.2 d)) (pending d) d.

Definition close (error : SinterError) (d : RequestDispatcher) : RequestDispatcher :=
  if closed d then d else rejectAll error (set_closed d).

Definition failConnection (error : SinterError) (d : RequestDispatcher) : RequestDispatcher :=
  if closed d then d
  else
    let d := close error d in
    set_socket (Session.destroy (socket d)) d.

Definition handleMessage (message : DecodedMessage) (d : RequestDispatcher) : RequestDispatcher :=
  match omap_get (pending d) (Message.requestId message) with
  | None => d
  | Some promise =>
      settle promise
        (if Message.kind message =? MessageKind.Error
         then Throw (SinterServerError (server_error_fields (Message.payload message))) else Ok message)
        (forget (Message.requestId message) promise d)
  end.

(** [handleData], which is taken off the socket when the dispatcher is closed. *)
Definition handleData (chunk : Handshake.Chunk) (d : RequestDispatcher) : RequestDispatcher :=
  if closed d then d
  else match chunk with
       | Handshake.Text => failConnection SinterProtocolError d
       | Handshake.Bytes chunk =>
           let (r, s) := Stream.push (decoder d) chunk in
           let d := set_decoder s d in
           match r with
           | Throw _ => failConnection SinterProtocolError d
           | Ok messages => fold_left (λ d message, handleMessage message d) messages d
           end
       end.

Definition handleError (d : RequestDispatcher) : RequestDispatcher := failConnection SinterConnectionError d.
Definition handleClose (d : RequestDispatcher) : RequestDispatcher := close SinterConnectionError d.

(** The loop of [allocateRequestId]. Every turn but the last passes the id of a
    request that waits, so the number of those bounds the number of turns. *)
Fixpoint allocate_loop (fuel : nat) (first requestId : Z) (d : RequestDispatcher) : answer Z * RequestDispatcher :=
  match omap_get (pending d) requestId, fuel with
  | None, _ => (Ok requestId, d)
  | Some _, O => (Throw LoopPending, d)
  | Some _, S fuel =>
      let (requestId, g) := RequestId.next (requestIds d) in
      let d := set_requestIds g d in
      if requestId =? first then (Throw SinterProtocolError, d) else allocate_loop fuel first requestId d
  end.

Definition allocateRequestId (d : RequestDispatcher) : answer Z * RequestDispatcher :=
  let (first, g) := RequestId.next (requestIds d) in
  let d := set_requestIds g d in
  allocate_loop (length (pending d)) first first d.

(** [request]: its promise. [written] tells whether [socket.write] returns. *)
Definition request (kind : Z) (payload : Document) (written : bool) (d : RequestDispatcher)
    : answer nat * RequestDispatcher :=
  if closed d || Session.destroyed (socket d) then
    let (promise, d) := rejected SinterConnectionError d in (Ok promise, d)
  else
    match allocateRequestId d with
    | (Throw e, d) => (Throw e, d)
    | (Ok requestId, d) =>
        match Session.encode kind requestId payload with
        | Throw cause => let (promise, d) := rejected (SinterDocumentError cause) d in (Ok promise, d)
        | Ok frame =>
            let promise := length (promises d) in
            let d := set_promises (promises d ++ [None]) d in
            let d := set_pending (omap_set (pending d) requestId promise) (timers d ++ [(promise, requestId)]) d in
            (Ok promise,
             if written then set_socket (Session.socket_write frame (socket d)) d
             else rejectRequest requestId SinterConnectionError d)
        end
    end.

(** The callback of the timer of a promise, when it is set. *)
Definition timeout (promise : nat) (d : RequestDispatcher) : RequestDispatcher :=
  match omap_get (timers d) promise with
  | None => d
  | Some requestId =>
      let d := set_pending (pending d) (omap_delete (timers d) promise) d in
      match omap_get (pending d) requestId with
      | None => d
      | Some _ => settle promise (Throw SinterRequestTimeoutError)
                    (set_pending (omap_delete (pending d) requestId) (timers d) d)
      end
  end.

(** The callback of [socket.write] with an error. *)
Definition writeFailed (requestId : Z) (d : RequestDispatcher) : RequestDispatcher :=
  rejectRequest requestId SinterConnectionError d.

(** *** What happens to a connection *)
Inductive Event :=
  | Request (kind : Z) (payload : Document) (written : bool)
  | Data (chunk : Handshake.Chunk)
  | Timeout (promise : nat)
  | WriteFailed (requestId : Z)
  | SocketError
  | SocketClosed
  | Close (error : SinterError).

Definition step (event : Event) (d : RequestDispatcher) : RequestDispatcher :=
  match event with
  | Request kind payload written => (request kind payload written d).2
  | Data chunk => handleData chunk d
  | Timeout promise => timeout promise d
  | WriteFailed requestId => writeFailed requestId d
  | SocketError => handleError d
  | SocketClosed => handleClose d
  | Close error => close error d
  end.

Definition run (events : list Event) (d : RequestDispatcher) : RequestDispatcher :=
  fold_left (λ d event, step event d) events d.
End Requests.

(** ** Clients *)
Module Client.
Inductive SinterClientState := New | Connecting | Connected | Closing | Closed.

#[export] Instance client_state_eq_dec : EqDecision SinterClientState.
Proof. solve_decision. Defined.

Inductive ClientEvent := EventConnecting | EventConnected | EventClosed | EventError.

(** A connection that [openSocket] made, and its promise: which handlers are on the
    socket and whether the timer is set; [outcome] is what the promise was settled
    with. A dispatcher has the socket, once there is one. *)
Record Connection := {
  raw : Session.Socket;
  dispatcher : option Requests.RequestDispatcher;
  listening : bool;
  handshaking : bool;
  timer : bool;
  attached : bool;
  outcome : option (answer ());
}.

(** [socket], [pendingConnection] and [requestDispatcher] are those of a connection,
    by its number; [awaited] are the sockets that a [close] waits for. *)
Record SinterClient := {
  currentState : SinterClientState;
  socket : option nat;
  pendingConnection : option nat;
  negotiatedServer : option Handshake.ServerHandshake;
  requestDispatcher : option nat;
  connections : list Connection;
  awaited : list nat;
  emitted : list ClientEvent;
}.

Definition new : SinterClient := {|
  currentState := New; socket := None; pendingConnection := None; negotiatedServer := None;
  requestDispatcher := None; connections := []; awaited := []; emitted := [] |}.

Definition set_state (s : SinterClientState) (c : SinterClient) : SinterClient := {|
  currentState := s; socket := socket c; pendingConnection := pendingConnection c;
  negotiatedServer := negotiatedServer c; requestDispatcher := requestDispatcher c;
  connections := connections c; awaited := awaited c; emitted := emitted c |}.
Definition set_socket (n : option nat) (c : SinterClient) : SinterClient := {|
  currentState := currentState c; socket := n; pendingConnection := pendingConnection c;
  negotiatedServer := negotiatedServer c; requestDispatcher := requestDispatcher c;
  connections := connections c; awaited := awaited c; emitted := emitted c |}.
Definition set_pendingConnection (n : option nat) (c : SinterClient) : SinterClient := {|
  currentState := currentState c; socket := socket c; pendingConnection := n;
  negotiatedServer := negotiatedServer c; requestDispatcher := requestDispatcher c;
  connections := connections c; awaited := awaited c; emitted := emitted c |}.
(** [negotiatedServer] and [requestDispatcher]. *)
Definition set_server (h : option Handshake.ServerHandshake) (n : option nat) (c : SinterClient) : SinterClient := {|
  currentState := currentState c; socket := socket c; pendingConnection := pendingConnection c;
  negotiatedServer := h; requestDispatcher := n;
  connections := connections c; awaited := awaited c; emitted := emitted c |}.
Definition set_connections (l : list Connection) (c : SinterClient) : SinterClient := {|
  currentState := currentState c; socket := socket c; pendingConnection := pendingConnection c;
  negotiatedServer := negotiatedServer c; requestDispatcher := requestDispatcher c;
  connections := l; awaited := awaited c; emitted := emitted c |}.
Definition set_awaited (l : list nat) (c : SinterClient) : SinterClient := {|
  currentState := currentState c; socket := socket c; pendingConnection := pendingConnection c;
  negotiatedServer := negotiatedServer c; requestDispatcher := requestDispatcher c;
  connections := connections c; awaited := l; emitted := emitted c |}.
Definition emit (e : ClientEvent) (c : SinterClient) : SinterClient := {|
  currentState := currentState c; socket := socket c; pendingConnection := pendingConnection c;
  negotiatedServer := negotiatedServer c; requestDispatcher := requestDispatcher c;
  connections := connections c; awaited := awaited c; emitted := emitted c ++ [e] |}.

(** What changes a connection. *)
Definition on_connection (n : nat) (f : Connection → Connection) (c : SinterClient) : SinterClient :=
  set_connections (alter f n (connections c)) c.

Definition on_dispatcher (f : Requests.RequestDispatcher → Requests.RequestDispatcher) (a : Connection) : Connection := {|
  raw := raw a; dispatcher := f <$> dispatcher a; listening := listening a; handshaking := handshaking a;
  timer := timer a; attached := attached a; outcome := outcome a |}.

Definition socket_of (a : Connection) : Session.Socket :=
  match dispatcher a with Some d => Requests.socket d | None => raw a end.

(** [socket.destroy()]. *)
Definition destroy (a : Connection) : Connection := {|
  raw := Session.destroy (raw a);
  dispatcher := (λ d, Requests.set_socket (Session.destroy (Requests.socket d)) d) <$> dispatcher a;
  listening := listening a; handshaking := handshaking a; timer := timer a; attached := attached a; outcome := outcome a |}.

(** The handlers of [openSocket] are taken off, and the handshake begins. *)
Definition shake (a : Connection) : Connection := {|
  raw := raw a; dispatcher := dispatcher a; listening := false; handshaking := true; timer := timer a;
  attached := attached a; outcome := outcome a |}.

(** The promise is settled: the timer and the handlers of [openSocket] are gone. *)
Definition settle (r : answer ()) (a : Connection) : Connection := {|
  raw := raw a; dispatcher := dispatcher a; listening := false; handshaking := false; timer := false;
  attached := attached a; outcome := Some r |}.

Definition attach (a : Connection) : Connection := {|
  raw := raw a; dispatcher := Some (Requests.new (raw a)); listening := listening a; handshaking := handshaking a;
  timer := timer a; attached := true; outcome := outcome a |}.

Section Client.
Context (hears : bool).

(** [emitDriverError], with a listener for errors or without. *)
Definition emitDriverError (c : SinterClient) : SinterClient := if hears then emit EventError c else c.

Definition transitionToClosed (c : SinterClient) : SinterClient :=
  match currentState c with Closed => c | _ => emit EventClosed (set_state Closed c) end.

(** [this.requestDispatcher?.close(error)], and the field is cleared. *)
Definition close_dispatcher (error : SinterError) (c : SinterClient) : SinterClient :=
  let current := requestDispatcher c in
  let c := match current with Some n => on_connection n (on_dispatcher (Requests.close error)) c | None => c end in
  set_server (negotiatedServer c) None c.

Definition finishFailure (n : nat) (error : SinterError) (c : SinterClient) : SinterClient :=
  match connections c !! n with
  | Some a =>
      match outcome a with
      | Some _ => c
      | None =>
          let c := on_connection n (λ a, destroy (settle (Throw error) a)) c in
          let c := if bool_decide (socket c = Some n) then set_socket None c else c in
          let c := set_server None None c in
          let shouldEmitError := match currentState c with Closing | Closed => false | _ => true end in
          let c := match currentState c with Connecting => set_state New c | _ => c end in
          if shouldEmitError then emitDriverError c else c
      end
  | None => c
  end.

Definition finishSuccess (n : nat) (handshake : Handshake.ServerHandshake) (c : SinterClient) : SinterClient :=
  match connections c !! n with
  | Some a =>
      match outcome a with
      | Some _ => c
      | None =>
          match currentState c with
          | Connecting =>
              let c := on_connection n (λ a, attach (settle (Ok ()) a)) c in
              let c := set_server (Some handshake) (Some n) c in
              emit EventConnected (set_state Connected c)
          | _ => finishFailure n (SinterClientStateError true) c
          end
      end
  | None => c
  end.

Definition new_connection : Connection := {|
  raw := Session.new_socket; dispatcher := None; listening := true; handshaking := false; timer := true;
  attached := false; outcome := None |}.

(** [openSocket]: the number of the new connection. *)
Definition openSocket (c : SinterClient) : nat * SinterClient :=
  let n := length (connections c) in
  (n, set_socket (Some n) (set_connections (connections c ++ [new_connection]) c)).

(** What [connect] returns: a promise that is settled, or that of a connection. *)
Inductive ConnectPromise := Settled (r : answer ()) | Awaits (connection : nat).

Definition connect (c : SinterClient) : ConnectPromise * SinterClient :=
  match currentState c with
  | Connected => (Settled (Ok ()), c)
  | Closing | Closed => (Settled (Throw (SinterClientStateError true)), c)
  | _ =>
      match pendingConnection c with
      | Some n => (Awaits n, c)
      | None =>
          let (n, c) := openSocket (emit EventConnecting (set_state Connecting c)) in
          (Awaits n, set_pendingConnection (Some n) c)
      end
  end.

Definition close (c : SinterClient) : SinterClient :=
  match currentState c with
  | Closed => c
  | _ =>
      let c := set_server None (requestDispatcher c) (set_state Closing c) in
      let c := close_dispatcher (SinterClientStateError true) c in
      let k := socket c in
      let c := set_socket None c in
      match k with
      | None => transitionToClosed c
      | Some n =>
          match connections c !! n with
          | Some a =>
              if Session.destroyed (socket_of a) then transitionToClosed c
              else set_awaited (n :: awaited c) (on_connection n destroy c)
          | None => transitionToClosed c
          end
      end
  end.

Definition getRequestDispatcher (c : SinterClient) : answer nat :=
  match currentState c, requestDispatcher c with
  | Connected, Some n => Ok n
  | _, _ => Throw (SinterClientStateError false)
  end.

(** The request that [ping] and [executeCommand] make. *)
Definition request (kind : Z) (payload : Document) (written : bool) (c : SinterClient) : answer (nat * nat) * SinterClient :=
  match getRequestDispatcher c with
  | Throw e => (Throw e, c)
  | Ok n =>
      match connections c !! n with
      | Some a =>
          match dispatcher a with
          | Some d =>
              let (r, d) := Requests.request kind payload written d in
              (promise ← r; Ok (n, promise), on_connection n (on_dispatcher (λ _, d)) c)
          | None => (Throw (SinterClientStateError false), c)
          end
      | None => (Throw (SinterClientStateError false), c)
      end
  end.

(** What [executeCommand] asks and makes of the answer. *)
Definition command_payload (database : option jsstring) (command : jsstring) (parameters : Document) : Document :=
  (js "command", VString command) :: FindCursor.given (js "database") VString database ++ [(js "parameters", VDoc parameters)].

Definition response_value (response : Requests.Settled) : answer DocumentValue :=
  response ← response;
  if Message.kind response =? MessageKind.Result
  then Results.demand (obj_get (Message.payload response) (js "value")) else Throw SinterProtocolError.

(** What [ping] makes of the answer. *)
Definition ping_result (response : Requests.Settled) (sentAt : Z) : answer Results.SinterPingResult :=
  value ← response_value response;
  Results.parsePingResult value sentAt.

(** [resolveTimeout]. *)
Definition MAX_TIMEOUT_MS : Z := 2147483647.

Definition resolveTimeout (value : option number) (defaultValue minimum : Z) : answer Z :=
  match value with
  | None => Ok defaultValue
  | Some value =>
      if negb (isSafeInteger value) || (Z_of_number value <? minimum) || (MAX_TIMEOUT_MS <? Z_of_number value)
      then Throw SinterClientOptionsError else Ok (Z_of_number value)
  end.

(** ** What happens to a client *)
Inductive Event :=
  | Connect
  | ConnectionSettled (n : nat)
  | SocketConnected (n : nat)
  | HandshakeSettled (n : nat) (r : answer Handshake.ServerHandshake)
  | ConnectTimedOut (n : nat)
  | SocketTimedOut (n : nat)
  | SocketFailed (n : nat)
  | SocketClosed (n : nat)
  | Request (kind : Z) (payload : Document) (written : bool)
  | Data (n : nat) (chunk : Handshake.Chunk)
  | RequestTimedOut (n promise : nat)
  | WriteFailed (n : nat) (requestId : Z)
  | Close
  | CloseFinished (n : nat).

(** The handlers of [attachSocketLifecycle], after those of the dispatcher. *)
Definition lifecycle_timeout (n : nat) (c : SinterClient) : SinterClient :=
  if bool_decide (socket c = Some n)
  then on_connection n destroy (close_dispatcher SinterSocketTimeoutError (emitDriverError c)) else c.

Definition lifecycle_close (n : nat) (c : SinterClient) : SinterClient :=
  if bool_decide (socket c = Some n) then
    let c := set_server None (requestDispatcher c) (set_socket None c) in
    transitionToClosed (close_dispatcher SinterConnectionError c)
  else c.

Definition step (event : Event) (c : SinterClient) : SinterClient :=
  let at_connection n (f : Connection → SinterClient) : SinterClient :=
    match connections c !! n with Some a => f a | None => c end in
  match event with
  | Connect => (connect c).2
  | ConnectionSettled n =>
      at_connection n (λ a, match outcome a with
        | Some _ => if bool_decide (pendingConnection c = Some n) then set_pendingConnection None c else c
        | None => c
        end)
  | SocketConnected n => at_connection n (λ a, if listening a then on_connection n shake c else c)
  | HandshakeSettled n r =>
      at_connection n (λ a,
        if handshaking a then match r with Ok h => finishSuccess n h c | Throw e => finishFailure n e c end else c)
  | ConnectTimedOut n => at_connection n (λ a, if timer a then finishFailure n SinterConnectionTimeoutError c else c)
  | SocketTimedOut n => at_connection n (λ a, if attached a then lifecycle_timeout n c else c)
  | SocketFailed n =>
      at_connection n (λ a,
        if listening a then finishFailure n SinterConnectionError c
        else if attached a then emitDriverError (on_connection n (on_dispatcher Requests.handleError) c) else c)
  | SocketClosed n =>
      at_connection n (λ a,
        if listening a then finishFailure n SinterConnectionError c
        else if attached a then lifecycle_close n (on_connection n (on_dispatcher Requests.handleClose) c) else c)
  | Request kind payload written => (request kind payload written c).2
  | Data n chunk => on_connection n (on_dispatcher (Requests.handleData chunk)) c
  | RequestTimedOut n promise => on_connection n (on_dispatcher (Requests.timeout promise)) c
  | WriteFailed n requestId => on_connection n (on_dispatcher (Requests.writeFailed requestId)) c
  | Close => close c
  | CloseFinished n => if bool_decide (n ∈ awaited c) then transitionToClosed c else c
  end.

Definition run (events : list Event) : SinterClient := fold_left (λ c event, step event c) events new.
End Client.
End Client.
End Driver.
