(* ===== verification/DriverProperties.v ===== *)
(** * The driver: properties

    Every request of a connection is settled once, with the answer that has its
    number, or with the error that ends the connection; numbers of requests that wait
    differ; and a client is connected at most once and closed for good. *)

From S2P Require Import Prelude Errors JsNumber JsString JsValue Frame Message Streams ServerErrors Session Driver.
Import Driver.Driver.

(** ** Requests *)
Module RequestsFacts.
Import Driver.Driver.Requests.

Definition swap (entry : Z * nat) : nat * Z := (entry.2, entry.1).

(** The requests that wait have numbers and promises of their own, a timer each, and
    are those whose promises are not settled; none waits when it is closed. *)
Record dispatcher_ok (d : RequestDispatcher) : Prop := {
  ok_ids : NoDup (omap_keys (pending d));
  ok_promises : NoDup (map snd (pending d));
  ok_waiting : ∀ p, promises d !! p = Some None ↔ p ∈ map snd (pending d);
  ok_timers : timers d = map swap (pending d);
  ok_range : ∀ id, id ∈ omap_keys (pending d) → MIN_REQUEST_ID ≤ id ≤ MAX_REQUEST_ID;
  ok_current : MIN_REQUEST_ID ≤ RequestId.current (requestIds d) ≤ MAX_REQUEST_ID;
  ok_closed : closed d = true → pending d = [];
}.

Lemma new_ok k : dispatcher_ok (new k).
Proof.
  split; cbn; try done; try apply NoDup_nil_2; [|by intros id ?%elem_of_nil]. intros p. rewrite elem_of_nil. by split.
Qed.

(** Removing a request that waits. *)
Lemma delete_both (l : list (Z * nat)) id p :
  NoDup (omap_keys l) → NoDup (map snd l) → omap_get l id = Some p →
  omap_delete (map swap l) p = map swap (omap_delete l id) ∧
  (∀ q, q ∈ map snd (omap_delete l id) ↔ q ∈ map snd l ∧ q ≠ p).
Proof.
  induction l as [|[i q] l IH]; [done|]. cbn [omap_keys map fst snd]. intros Hi Hp Hg.
  apply NoDup_cons in Hi as [Hi Hi']. apply NoDup_cons in Hp as [Hp Hp']. cbn [omap_get omap_delete swap fst snd] in *.
  destruct (decide (id = i)) as [->|Hne].
  - injection Hg as <-. rewrite decide_True by done. split; [done|]. intros r. rewrite elem_of_cons. naive_solver.
  - assert (p ∈ map snd l) as Hin by (apply (list_elem_of_fmap_2 snd _ (id, p)), omap_get_Some_in, Hg).
    rewrite decide_False by (intros ->; done). destruct (IH Hi' Hp' Hg) as [-> IH2]. split; [done|].
    intros r. cbn [map snd]. rewrite !elem_of_cons, IH2. naive_solver.
Qed.

Lemma delete_snd_NoDup (l : list (Z * nat)) id : NoDup (map snd l) → NoDup (map snd (omap_delete l id)).
Proof.
  induction l as [|[i q] l IH]; [done|]. cbn [map snd omap_delete]. intros [Hq Hl]%NoDup_cons. destruct (decide _); [done|].
  cbn [map snd]. apply NoDup_cons. split; [|by apply IH]. intros Hin. apply Hq. clear -Hin. induction l as [|[j r] l IH]; [done|].
  cbn [omap_delete] in Hin. destruct (decide _); cbn [map snd] in *; [by right|]. apply elem_of_cons in Hin as [->|Hin]; [left|right; auto].
Qed.

(** Settling a promise that waits, whose request is removed. *)
Lemma settle_forget_ok id p r d :
  dispatcher_ok d → omap_get (pending d) id = Some p →
  dispatcher_ok (settle p r (forget id p d)) ∧ promises (settle p r (forget id p d)) = <[p := Some r]> (promises d) ∧
  pending (settle p r (forget id p d)) = omap_delete (pending d) id.
Proof.
  intros [H1 H2 H3 H4 H5 H6 H7] Hg.
  assert (promises d !! p = Some None) as Hp by (apply H3, (list_elem_of_fmap_2 snd _ (id, p)), omap_get_Some_in, Hg).
  destruct (delete_both _ _ _ H1 H2 Hg) as [Hd Hs]. unfold settle. cbn [promises forget set_pending]. rewrite Hp.
  split; [|done]. split; cbn.
  - by apply omap_delete_NoDup.
  - by apply delete_snd_NoDup.
  - intros q. rewrite Hs, <- H3. destruct (decide (p = q)) as [->|Hne].
    + rewrite list_lookup_insert_eq by (by eapply lookup_lt_Some). naive_solver.
    + rewrite list_lookup_insert_ne by done. naive_solver.
  - by rewrite H4.
  - intros i Hi. apply H5. change (i ∈ omap_keys (omap_delete (pending d) id)) in Hi. rewrite omap_delete_keys in Hi.
    eapply elem_of_sublist; [exact Hi|apply oset_delete_sublist].
  - done.
  - intros Hc. by rewrite (H7 Hc).
Qed.

(** *** Answers *)

(** What a message settles a request with. *)
Definition outcome_of (message : DecodedMessage) : Settled :=
  if Message.kind message =? MessageKind.Error
  then Throw (SinterServerError (server_error_fields (Message.payload message))) else Ok message.

(** The first of some messages that has a number. *)
Definition answer_for (id : Z) (messages : list DecodedMessage) : option Settled :=
  outcome_of <$> List.find (λ message, Message.requestId message =? id) messages.

(** What is left of [d] when messages have arrived: a request is settled by the
    first that has its number, and the others wait on. *)
Record answers (messages : list DecodedMessage) (d d' : RequestDispatcher) : Prop := {
  answers_ok : dispatcher_ok d';
  answers_promises : ∀ p, promises d' !! p =
    match promises d !! p, omap_get (timers d) p with
    | Some None, Some id => Some (answer_for id messages)
    | r, _ => r
    end;
  answers_pending : pending d' = filter (λ entry, answer_for entry.1 messages = None) (pending d);
  answers_rest : socket d' = socket d ∧ closed d' = closed d ∧ requestIds d' = requestIds d ∧ decoder d' = decoder d;
}.

(** A promise that waits is that of one request, which its timer has. *)
Lemma timer_of d id p :
  dispatcher_ok d → omap_get (pending d) id = Some p ↔ omap_get (timers d) p = Some id.
Proof.
  intros [H1 H2 _ -> _ _ _].
  rewrite (omap_get_Some_iff (pending d) id p H1), (omap_get_Some_iff (map swap (pending d)) p id).
  - split; [intros H; exact (list_elem_of_fmap_2 swap _ _ H)|]. intros ([i q] & [= -> ->] & H)%list_elem_of_fmap. done.
  - unfold omap_keys. by rewrite map_map.
Qed.

Lemma waiting_timer d p : dispatcher_ok d → promises d !! p = Some None → ∃ id, omap_get (timers d) p = Some id ∧ omap_get (pending d) id = Some p.
Proof.
  intros H Hp. apply (ok_waiting _ H) in Hp as Hin. apply list_elem_of_fmap in Hin as ([id q] & -> & Hin). cbn in *.
  apply omap_get_in in Hin; [|by apply H]. exists id. split; [by apply timer_of|done].
Qed.

Lemma pending_waits d id p : dispatcher_ok d → omap_get (pending d) id = Some p → promises d !! p = Some None.
Proof. intros H Hg. apply (ok_waiting _ H). apply omap_get_Some_in, (list_elem_of_fmap_2 snd) in Hg. done. Qed.

Lemma filter_agree {A} (P Q : A → Prop) `{∀ x, Decision (P x), ∀ x, Decision (Q x)} (l : list A) :
  (∀ x, x ∈ l → P x ↔ Q x) → filter P l = filter Q l.
Proof.
  induction l as [|x l IH]; intros Hl; [done|]. rewrite !filter_cons, IH by (intros y Hy; apply Hl; by right).
  destruct (Hl x ltac:(left)). repeat case_decide; naive_solver.
Qed.

Lemma answers_nil d : dispatcher_ok d → answers [] d d.
Proof.
  intros H. split; [done| |by rewrite filter_id by (by apply Forall_forall)|done]. intros p. destruct (promises d !! p) as [[r|]|] eqn:E; [done| |done].
  by destruct (waiting_timer d p H E) as (id & -> & _).
Qed.

Lemma answer_for_cons id message messages :
  answer_for id (message :: messages) = if Message.requestId message =? id then Some (outcome_of message) else answer_for id messages.
Proof. unfold answer_for. cbn [List.find]. by destruct (Message.requestId message =? id). Qed.

Lemma settle_timers p r d : timers (settle p r d) = timers d.
Proof. unfold settle. by destruct (promises d !! p) as [[]|]. Qed.

Lemma settle_rest p r d :
  socket (settle p r d) = socket d ∧ closed (settle p r d) = closed d ∧ requestIds (settle p r d) = requestIds d ∧
  decoder (settle p r d) = decoder d.
Proof. unfold settle. by destruct (promises d !! p) as [[]|]. Qed.

(** The numbers of a table without one of its entries. *)
Lemma filter_without (l : list (Z * nat)) id message messages :
  NoDup (omap_keys l) → Message.requestId message = id →
  filter (λ entry, answer_for entry.1 messages = None) (omap_delete l id) =
  filter (λ entry, answer_for entry.1 (message :: messages) = None) l.
Proof.
  intros Hl <-. rewrite omap_delete_filter by done. rewrite list_filter_filter. apply list_filter_iff.
  intros [i q]. cbn [fst]. rewrite answer_for_cons. destruct (Z.eqb_spec (Message.requestId message) i); naive_solver.
Qed.

Lemma handleMessage_ok message d : dispatcher_ok d → dispatcher_ok (handleMessage message d).
Proof. intros Hd. unfold handleMessage. destruct (omap_get _ _) as [p|] eqn:Eg; [by apply settle_forget_ok|done]. Qed.

Lemma handleMessage_answers message messages d d' :
  dispatcher_ok d → answers messages (handleMessage message d) d' → answers (message :: messages) d d'.
Proof.
  intros Hd [H1 H2 H3 H4]. unfold handleMessage in *. destruct (omap_get (pending d) (Message.requestId message)) as [p|] eqn:Eg.
  - fold (outcome_of message) in H2, H3, H4. destruct (settle_forget_ok _ p (outcome_of message) d Hd Eg) as (Hd1 & Ep & Eq).
    pose proof (pending_waits _ _ _ Hd Eg) as Hp.
    split; [done| | |].
    + intros q. rewrite H2, Ep, settle_timers. cbn [timers forget set_pending]. destruct (decide (p = q)) as [<-|Hne].
      * rewrite list_lookup_insert_eq by (by eapply lookup_lt_Some). rewrite Hp. apply (timer_of _ _ _ Hd) in Eg as ->.
        by rewrite answer_for_cons, Z.eqb_refl.
      * rewrite list_lookup_insert_ne, omap_get_delete_ne by done. destruct (promises d !! q) as [[r|]|]; [done| |done].
        destruct (omap_get (timers d) q) as [i|] eqn:Ei; [|done]. rewrite answer_for_cons.
        destruct (Z.eqb_spec (Message.requestId message) i) as [<-|]; [|done]. apply (timer_of _ _ _ Hd) in Ei. congruence.
    + rewrite H3, Eq. apply filter_without; [apply Hd|done].
    + destruct (settle_rest p (outcome_of message) (forget (Message.requestId message) p d)) as (R1 & R2 & R3 & R4).
      destruct H4 as (-> & -> & -> & ->). rewrite R1, R2, R3, R4. done.
  - assert (∀ i, i ∈ omap_keys (pending d) → answer_for i (message :: messages) = answer_for i messages) as Ha.
    { intros i Hi. rewrite answer_for_cons. destruct (Z.eqb_spec (Message.requestId message) i) as [<-|]; [|done].
      by apply omap_get_None in Eg. }
    split; [done| | |done].
    + intros q. rewrite H2. destruct (promises d !! q) as [[r|]|] eqn:Eq; [done| |done].
      destruct (waiting_timer d q Hd Eq) as (i & -> & Hi). rewrite Ha; [done|]. by apply (list_elem_of_fmap_2 fst _ (i, q)), omap_get_Some_in.
    + rewrite H3. apply filter_agree. intros [i q] Hin. cbn [fst]. rewrite Ha; [done|]. by apply (list_elem_of_fmap_2 fst) in Hin.
Qed.

Lemma handleMessages_answers messages d :
  dispatcher_ok d → answers messages d (fold_left (λ d message, handleMessage message d) messages d).
Proof.
  revert d. induction messages as [|message messages IH]; intros d Hd; cbn [fold_left]; [by apply answers_nil|].
  apply handleMessage_answers; [done|]. by apply IH, handleMessage_ok.
Qed.

(** *** The end of a connection *)

Lemma rejectAll_spec error d :
  dispatcher_ok d →
  dispatcher_ok (rejectAll error d) ∧ pending (rejectAll error d) = [] ∧ closed (rejectAll error d) = closed d ∧
  socket (rejectAll error d) = socket d ∧
  ∀ p, promises (rejectAll error d) !! p = match promises d !! p with Some None => Some (Some (Throw error)) | r => r end.
Proof.
  unfold rejectAll. remember (pending d) as l eqn:El. revert d El. induction l as [|[i q] l IH]; intros d El Hd; cbn [fold_left].
  - split; [done|]. split; [done|]. split; [done|]. split; [done|]. intros p. destruct (promises d !! p) as [[r|]|] eqn:Ep; [done| |done].
    apply (ok_waiting _ Hd) in Ep. rewrite <- El in Ep. by apply elem_of_nil in Ep.
  - cbn [fst snd]. assert (omap_get (pending d) i = Some q) as Eg by (rewrite <- El; cbn; by rewrite decide_True).
    destruct (settle_forget_ok i q (Throw error) d Hd Eg) as (Hd1 & Ep & Eq).
    assert (promises d !! q = Some None) as Hq by (apply (ok_waiting _ Hd); rewrite <- El; left).
    specialize (IH (settle q (Throw error) (forget i q d))). rewrite Eq, <- El in IH. cbn in IH. rewrite decide_True in IH by done.
    destruct (IH eq_refl Hd1) as (A1 & A2 & A3 & A4 & A5). destruct (settle_rest q (Throw error) (forget i q d)) as (R1 & R2 & _ & _).
    split; [done|]. split; [done|]. split; [by rewrite A3|]. split; [by rewrite A4|]. intros p. rewrite A5, Ep.
    destruct (decide (q = p)) as [<-|Hne]; [rewrite list_lookup_insert_eq by (by eapply lookup_lt_Some); by rewrite Hq|].
    by rewrite list_lookup_insert_ne.
Qed.

(** *** Numbers of requests *)

(** The number that comes [k] after [first]. *)
Definition id_at (first k : Z) : Z := (first - MIN_REQUEST_ID + k) mod MAX_REQUEST_ID + MIN_REQUEST_ID.

Lemma id_at_range first k : MIN_REQUEST_ID ≤ id_at first k ≤ MAX_REQUEST_ID.
Proof. unfold id_at, MIN_REQUEST_ID, MAX_REQUEST_ID. pose proof (Z.mod_pos_bound (first - 1 + k) 0xffffffff eq_refl). lia. Qed.

Lemma id_at_0 first : MIN_REQUEST_ID ≤ first ≤ MAX_REQUEST_ID → id_at first 0 = first.
Proof. unfold id_at, MIN_REQUEST_ID, MAX_REQUEST_ID. intros H. rewrite Z.mod_small; lia. Qed.

Lemma id_at_next first k :
  RequestId.next {| RequestId.current := id_at first k |} = (id_at first k, {| RequestId.current := id_at first (k + 1) |}).
Proof.
  unfold RequestId.next. cbn [RequestId.current]. do 2 f_equal. unfold id_at, MIN_REQUEST_ID, MAX_REQUEST_ID.
  pose proof (Z.mod_pos_bound (first - 1 + k) 0xffffffff eq_refl) as Hb. set (m := (first - 1 + k) mod 0xffffffff) in *.
  assert ((first - 1 + (k + 1)) mod 0xffffffff = (m + 1) mod 0xffffffff) as ->
    by (unfold m; rewrite Zplus_mod_idemp_l; f_equal; lia).
  destruct (Z.eqb_spec (m + 1) 0xffffffff) as [->|Hne]; [reflexivity|]. rewrite Z.mod_small; lia.
Qed.

Lemma id_at_inj first j k : 0 ≤ j < MAX_REQUEST_ID → 0 ≤ k < MAX_REQUEST_ID → id_at first j = id_at first k → j = k.
Proof.
  unfold id_at, MIN_REQUEST_ID, MAX_REQUEST_ID. intros Hj Hk E.
  pose proof (Z_div_mod_eq_full (first - 1 + j) 0xffffffff). pose proof (Z_div_mod_eq_full (first - 1 + k) 0xffffffff). nia.
Qed.

(** Numbers that differ and are all taken are no more than the requests that wait. *)
Lemma ids_fit first (l : list Z) k :
  0 ≤ k ≤ MAX_REQUEST_ID → (∀ j, 0 ≤ j < k → id_at first j ∈ l) → k ≤ len l.
Proof.
  intros Hk Hl. assert (NoDup (map (id_at first) (seqZ 0 k))) as Hd.
  { apply NoDup_fmap_2_strong; [|apply NoDup_seqZ]. intros i j Hi%elem_of_seqZ Hj%elem_of_seqZ. apply id_at_inj; lia. }
  assert (length (map (id_at first) (seqZ 0 k)) ≤ length l)%nat as Hn.
  { apply submseteq_length, NoDup_submseteq; [done|]. intros i (j & -> & Hj%elem_of_seqZ)%list_elem_of_fmap. apply Hl. lia. }
  rewrite length_map, length_seqZ in Hn. unfold len. lia.
Qed.

Definition with_id (id : Z) (d : RequestDispatcher) : RequestDispatcher := set_requestIds {| RequestId.current := id |} d.

Lemma with_id_ok id d : dispatcher_ok d → MIN_REQUEST_ID ≤ id ≤ MAX_REQUEST_ID → dispatcher_ok (with_id id d).
Proof. intros [H1 H2 H3 H4 H5 H6 H7] Hid. by split. Qed.

(** A number that no waiting request has; or all are taken. *)
Definition allocated (d : RequestDispatcher) (r : answer Z * RequestDispatcher) : Prop :=
  (∃ id, MIN_REQUEST_ID ≤ id ≤ MAX_REQUEST_ID ∧ r.2 = with_id id d) ∧
  match r.1 with
  | Ok id => (id ∉ omap_keys (pending d)) ∧ MIN_REQUEST_ID ≤ id ≤ MAX_REQUEST_ID
  | Throw e => e = SinterProtocolError ∧ len (pending d) = MAX_REQUEST_ID
  end.

Lemma request_loop_spec first fuel k d :
  dispatcher_ok d → MIN_REQUEST_ID ≤ first ≤ MAX_REQUEST_ID → 0 ≤ k < MAX_REQUEST_ID → k + Z.of_nat fuel = len (pending d) →
  (∀ j, 0 ≤ j < k → id_at first j ∈ omap_keys (pending d)) → RequestId.current (requestIds d) = id_at first (k + 1) →
  allocated d (allocate_loop fuel first (id_at first k) d).
Proof.
  intros Hd Hf. revert k d Hd. induction fuel as [|fuel IH]; intros k d Hd Hk Hn Hj Hc; cbn [allocate_loop];
    (assert (d = with_id (id_at first (k + 1)) d) as Ed by (destruct d as [? ? [] ? ? ? ?]; cbn in *; by subst));
    destruct (omap_get (pending d) (id_at first k)) as [p|] eqn:Eg.
  1, 3: assert (∀ j, 0 ≤ j < k + 1 → id_at first j ∈ omap_keys (pending d)) as Hj'.
  1, 3: intros j Hjk; destruct (decide (j = k)) as [->|]; [by apply omap_get_Some_in, (list_elem_of_fmap_2 fst) in Eg|apply Hj; lia].
  - pose proof (ids_fit first _ (k + 1) ltac:(lia) Hj') as Hl. unfold omap_keys, len in *. rewrite length_map in Hl. lia.
  - rewrite Ed at 2. cbn [requestIds with_id set_requestIds]. rewrite id_at_next.
    destruct (Z.eqb_spec (id_at first (k + 1)) first) as [Ef|Ef].
    + split; [exists (id_at first (k + 1 + 1)); split; [apply id_at_range|done]|]. cbn [fst]. split; [done|].
      assert (k + 1 = MAX_REQUEST_ID) as EM.
      { rewrite <- (id_at_0 first Hf) in Ef at 2. destruct (decide (k + 1 = MAX_REQUEST_ID)); [done|]. apply id_at_inj in Ef; lia. }
      apply Z.le_antisymm; [|pose proof (ids_fit first _ (k + 1) ltac:(lia) Hj') as Hl; unfold omap_keys, len in *; rewrite length_map in Hl; lia].
      assert (length (omap_keys (pending d)) ≤ length (seqZ MIN_REQUEST_ID MAX_REQUEST_ID))%nat as Hle.
      { apply submseteq_length, NoDup_submseteq; [apply Hd|]. intros i Hi%(ok_range _ Hd). apply elem_of_seqZ. unfold MIN_REQUEST_ID in *. lia. }
      unfold omap_keys, len in *. rewrite length_map, length_seqZ in Hle. unfold MAX_REQUEST_ID in *. lia.
    + specialize (IH (k + 1) (set_requestIds {| RequestId.current := id_at first (k + 1 + 1) |} d)).
      assert (k + 1 ≠ MAX_REQUEST_ID) as EM.
      { intros EM. apply Ef. unfold id_at. rewrite EM, <- Z.add_mod_idemp_r, Z_mod_same_full by done. exact (id_at_0 first Hf). }
      destruct IH as [(i & Hi & Ei) Hr]; [apply (with_id_ok (id_at first (k + 1 + 1))); [done|apply id_at_range]|lia|cbn [pending set_requestIds]; lia|done|done|].
      split; [exists i; split; [exact Hi|exact Ei]|exact Hr].
  - split; [exists (id_at first (k + 1)); split; [apply id_at_range|done]|]. cbn. split; [by apply omap_get_None|apply id_at_range].
  - split; [exists (id_at first (k + 1)); split; [apply id_at_range|done]|]. cbn. split; [by apply omap_get_None|apply id_at_range].
Qed.

Lemma allocate_spec d : dispatcher_ok d → allocated d (allocateRequestId d).
Proof.
  intros Hd. unfold allocateRequestId. pose proof (ok_current _ Hd) as Hc. set (first := RequestId.current (requestIds d)) in *.
  assert (RequestId.next (requestIds d) = (first, {| RequestId.current := id_at first 1 |})) as ->.
  { pose proof (id_at_next first 0) as Hn. rewrite id_at_0 in Hn by done. unfold first in *. by destruct (requestIds d). }
  cbn [pending set_requestIds].
  pose proof (request_loop_spec first (length (pending d)) 0 (with_id (id_at first 1) d)) as Hl.
  rewrite (id_at_0 first Hc) in Hl.
  destruct Hl as [(i & Hi & Ei) Hr]; [by apply with_id_ok; [|apply id_at_range]|done|by unfold MAX_REQUEST_ID|done|lia|done|].
  split; [exists i; split; [exact Hi|exact Ei]|exact Hr].
Qed.

(** *** What every event keeps *)

(** What is settled stays as it is. *)
Definition keeps (d d' : RequestDispatcher) : Prop :=
  ∀ p r, promises d !! p = Some (Some r) → promises d' !! p = Some (Some r).

#[export] Instance keeps_preorder : PreOrder keeps.
Proof. split; [by intros d p r|]. intros d1 d2 d3 H1 H2 p r Hp. by apply H2, H1. Qed.

Lemma settle_keeps p r d : keeps d (settle p r d).
Proof.
  intros q x Hq. unfold settle. destruct (promises d !! p) as [[|]|] eqn:Ep; [done| |done]. cbn.
  rewrite list_lookup_insert_ne; [done|congruence].
Qed.

Lemma forget_keeps id p d : keeps d (forget id p d).
Proof. by intros q x. Qed.

Lemma rejectRequest_ok id e d : dispatcher_ok d → dispatcher_ok (rejectRequest id e d) ∧ keeps d (rejectRequest id e d).
Proof.
  intros Hd. unfold rejectRequest. destruct (omap_get _ _) as [p|] eqn:Eg; [|done]. split; [by apply settle_forget_ok|].
  etrans; [apply (forget_keeps id p)|apply settle_keeps].
Qed.

Lemma close_spec error d : dispatcher_ok d →
  dispatcher_ok (close error d) ∧ closed (close error d) = true ∧ socket (close error d) = socket d ∧
  ∀ p, promises (close error d) !! p =
    match promises d !! p with Some None => Some (Some (Throw error)) | r => r end.
Proof.
  intros Hd. unfold close. destruct (closed d) eqn:Ec.
  - split; [done|]. split; [done|]. split; [done|]. intros p. destruct (promises d !! p) as [[r|]|] eqn:Ep; [done| |done].
    apply (ok_waiting _ Hd) in Ep. rewrite (ok_closed _ Hd Ec) in Ep. by apply elem_of_nil in Ep.
  - assert (rejectAll error (set_closed d) = set_closed (rejectAll error d)) as ->.
    { unfold rejectAll. cbn [pending set_closed]. generalize (pending d). intros l. clear. revert d. induction l as [|[i q] l IH]; intros d; [done|].
      cbn [fold_left fst snd]. rewrite <- IH. f_equal. unfold settle. cbn [promises forget set_pending set_closed].
      by destruct (promises d !! q) as [[]|]. }
    destruct (rejectAll_spec error d Hd) as ([H1 H2 H3 H4 H5 H6 H7] & A2 & A3 & A4 & A5). split; [by split|]. done.
Qed.

Lemma failConnection_spec error d : dispatcher_ok d →
  dispatcher_ok (failConnection error d) ∧ closed (failConnection error d) = true ∧
  (closed d = false → Session.destroyed (socket (failConnection error d)) = true) ∧
  ∀ p, promises (failConnection error d) !! p =
    match promises d !! p with Some None => Some (Some (Throw error)) | r => r end.
Proof.
  intros Hd. unfold failConnection. destruct (close_spec error d Hd) as ([H1 H2 H3 H4 H5 H6 H7] & A2 & A3 & A4).
  destruct (closed d) eqn:Ec.
  - split; [done|]. split; [done|]. split; [done|]. intros p. rewrite <- A4. unfold close. by rewrite Ec.
  - split; [by split|]. by split.
Qed.

Lemma push_ok s d : dispatcher_ok d → dispatcher_ok (set_decoder s d).
Proof. intros [H1 H2 H3 H4 H5 H6 H7]. by split. Qed.

Lemma ended_keeps error d d' :
  (∀ p, promises d' !! p = match promises d !! p with Some None => Some (Some (Throw error)) | r => r end) → keeps d d'.
Proof. intros H p r Hp. by rewrite H, Hp. Qed.

Lemma handleData_ok chunk d : dispatcher_ok d → dispatcher_ok (handleData chunk d) ∧ keeps d (handleData chunk d).
Proof.
  intros Hd. unfold handleData. destruct (closed d); [done|]. destruct chunk as [|chunk].
  { destruct (failConnection_spec SinterProtocolError d Hd) as (H & _ & _ & Hp). split; [done|]. by eapply ended_keeps. }
  destruct (Stream.push (decoder d) chunk) as [[messages|e] s]; pose proof (push_ok s d Hd) as Hd'.
  - pose proof (handleMessages_answers messages (set_decoder s d) Hd') as [H1 H2 _ _]. split; [done|].
    intros p r Hp. rewrite H2. cbn [promises set_decoder]. by rewrite Hp.
  - destruct (failConnection_spec SinterProtocolError _ Hd') as (H & _ & _ & Hp). split; [done|]. by apply (ended_keeps _ _ _ Hp).
Qed.

Lemma rejected_ok error d : dispatcher_ok d → dispatcher_ok (rejected error d).2 ∧ keeps d (rejected error d).2.
Proof.
  intros [H1 H2 H3 H4 H5 H6 H7]. unfold rejected. split; [split; try done|]; cbn.
  - intros p. rewrite <- H3. rewrite lookup_app_Some. split; [|by left]. intros [Hp|[_ Hp]]; [done|].
    by apply list_lookup_singleton_Some in Hp as [_ ?].
  - intros p r Hp. cbn. by apply lookup_app_l_Some.
Qed.

(** A request that waits from now on. *)
Definition enqueue (id : Z) (d : RequestDispatcher) : RequestDispatcher :=
  let d' := set_promises (promises d ++ [None]) d in
  set_pending (omap_set (pending d') id (length (promises d))) (timers d' ++ [(length (promises d), id)]) d'.

Lemma enqueue_ok id d :
  dispatcher_ok d → closed d = false → id ∉ omap_keys (pending d) → MIN_REQUEST_ID ≤ id ≤ MAX_REQUEST_ID →
  dispatcher_ok (enqueue id d) ∧ keeps d (enqueue id d) ∧ pending (enqueue id d) = pending d ++ [(id, length (promises d))].
Proof.
  intros [H1 H2 H3 H4 H5 H6 H7] Hc Hn Hr. apply omap_get_None in Hn as Hg.
  assert (pending (enqueue id d) = pending d ++ [(id, length (promises d))]) as Ep by (cbn; by apply omap_set_None).
  assert (length (promises d) ∉ map snd (pending d)) as Hf.
  { intros Hin%H3%lookup_lt_Some. lia. }
  split; [split|split; [|done]].
  - rewrite Ep, omap_keys_app. apply NoDup_app. split; [done|]. split; [|apply NoDup_singleton]. by intros i Hi ->%list_elem_of_singleton.
  - rewrite Ep, map_app. apply NoDup_app. split; [done|]. split; [|apply NoDup_singleton]. by intros i Hi ->%list_elem_of_singleton.
  - intros p. rewrite Ep, map_app, elem_of_app, <- H3. cbn. rewrite lookup_app_Some, list_lookup_singleton_Some, list_elem_of_singleton. split.
    + intros [Hp|(Hp & Hz & _)]; [by left|right; lia].
    + intros [Hp| ->]; [by left|right]. split; [lia|]. split; [lia|done].
  - rewrite Ep, map_app, <- H4. done.
  - intros i. rewrite Ep, omap_keys_app, elem_of_app. intros [Hi| ->%list_elem_of_singleton]; [by apply H5|done].
  - done.
  - cbn. by rewrite Hc.
  - intros p r Hp. cbn. by apply lookup_app_l_Some.
Qed.

(** What [request] does: it refuses, or the request waits under a number that no
    other has and is written; the error of a number is thrown when all are taken. *)
Inductive requested (kind : Z) (payload : Document) (written : bool) (d : RequestDispatcher)
    : answer nat * RequestDispatcher → Prop :=
  | requested_closed : closed d || Session.destroyed (socket d) = true →
      requested kind payload written d (Ok (length (promises d)), (rejected SinterConnectionError d).2)
  | requested_none id : len (pending d) = MAX_REQUEST_ID → MIN_REQUEST_ID ≤ id ≤ MAX_REQUEST_ID →
      requested kind payload written d (Throw SinterProtocolError, with_id id d)
  | requested_invalid id next cause : id ∉ omap_keys (pending d) → MIN_REQUEST_ID ≤ next ≤ MAX_REQUEST_ID →
      Session.encode kind id payload = Throw cause →
      requested kind payload written d
        (Ok (length (promises d)), (rejected (SinterDocumentError cause) (with_id next d)).2)
  | requested_sent id next frame : id ∉ omap_keys (pending d) → MIN_REQUEST_ID ≤ next ≤ MAX_REQUEST_ID →
      MIN_REQUEST_ID ≤ id ≤ MAX_REQUEST_ID → Session.encode kind id payload = Ok frame → closed d = false →
      requested kind payload written d
        (Ok (length (promises d)),
         if written then set_socket (Session.socket_write frame (socket d)) (enqueue id (with_id next d))
         else rejectRequest id SinterConnectionError (enqueue id (with_id next d))).

Lemma request_requested kind payload written d : dispatcher_ok d → requested kind payload written d (request kind payload written d).
Proof.
  intros Hd. unfold request. destruct (closed d || Session.destroyed (socket d)) eqn:Ec; [by apply requested_closed|].
  pose proof (allocate_spec d Hd) as [(next & Hn & Er) Ha]. apply orb_false_iff in Ec as [Ec _].
  destruct (allocateRequestId d) as [[id|e] d1]; cbn [fst snd] in *; subst d1.
  - destruct Ha as [Hf Hi]. destruct (Session.encode kind id payload) as [frame|cause] eqn:Ee.
    + exact (requested_sent kind payload written d id next frame Hf Hn Hi Ee Ec).
    + exact (requested_invalid kind payload written d id next cause Hf Hn Ee).
  - destruct Ha as [-> Hl]. exact (requested_none kind payload written d next Hl Hn).
Qed.

Lemma request_ok kind payload written d :
  dispatcher_ok d → dispatcher_ok (request kind payload written d).2 ∧ keeps d (request kind payload written d).2.
Proof.
  intros Hd. destruct (request_requested kind payload written d Hd) as [Hc|id Hl Hi|id next cause Hf Hn He|id next frame Hf Hn Hi He Hc];
    cbn [snd].
  - by apply rejected_ok.
  - split; [by apply with_id_ok|by intros q x].
  - destruct (rejected_ok (SinterDocumentError cause) (with_id next d) (with_id_ok _ _ Hd Hn)) as [H1 H2]. by split.
  - destruct (enqueue_ok id (with_id next d) (with_id_ok _ _ Hd Hn) Hc Hf Hi) as ([H1 H2 H3 H4 H5 H6 H7] & Hk & _). destruct written.
    + split; [by split|exact Hk].
    + destruct (rejectRequest_ok id SinterConnectionError (enqueue id (with_id next d)) ltac:(by split)) as [H8 H9].
      split; [done|]. etrans; [exact Hk|exact H9].
Qed.

(** A timer that is set is that of a request that waits. *)
Lemma timeout_settles p d : dispatcher_ok d →
  timeout p d = match omap_get (timers d) p with
                | None => d
                | Some id => settle p (Throw SinterRequestTimeoutError) (forget id p d)
                end.
Proof.
  intros Hd. unfold timeout. destruct (omap_get (timers d) p) as [id|] eqn:Et; [|done]. apply (timer_of _ _ _ Hd) in Et.
  cbn [pending timers set_pending]. by rewrite Et.
Qed.

Lemma timeout_ok p d : dispatcher_ok d → dispatcher_ok (timeout p d) ∧ keeps d (timeout p d).
Proof.
  intros Hd. rewrite timeout_settles by done. destruct (omap_get (timers d) p) as [id|] eqn:Et; [|done].
  apply (timer_of _ _ _ Hd) in Et. split; [by apply settle_forget_ok|]. etrans; [apply (forget_keeps id p)|apply settle_keeps].
Qed.

Lemma close_ok error d : dispatcher_ok d → dispatcher_ok (close error d) ∧ keeps d (close error d).
Proof. intros Hd. destruct (close_spec error d Hd) as (H & _ & _ & Hp). split; [done|]. by eapply ended_keeps. Qed.

Lemma failConnection_ok error d : dispatcher_ok d → dispatcher_ok (failConnection error d) ∧ keeps d (failConnection error d).
Proof. intros Hd. destruct (failConnection_spec error d Hd) as (H & _ & _ & Hp). split; [done|]. by eapply ended_keeps. Qed.

Lemma event_ok event d : dispatcher_ok d → dispatcher_ok (step event d) ∧ keeps d (step event d).
Proof.
  intros Hd. destruct event; cbn [step];
    eauto using request_ok, handleData_ok, timeout_ok, rejectRequest_ok, close_ok, failConnection_ok.
Qed.

Lemma events_ok events d : dispatcher_ok d → dispatcher_ok (run events d) ∧ keeps d (run events d).
Proof.
  revert d. induction events as [|event events IH]; intros d Hd; [done|]. cbn [run fold_left].
  destruct (event_ok event d Hd) as [H1 H2]. destruct (IH _ H1) as [H3 H4]. split; [exact H3|]. by etrans.
Qed.

(** *** Properties *)

(** C22: Whatever happens to a connection, the requests that wait have numbers that
    differ and a timer each, and are those that are not settled; what a request was
    settled with stays; and none waits when the connection is closed. *)
Theorem requests_settled k events more :
  let d := run events (new k) in
  NoDup (omap_keys (pending d)) ∧
  (∀ p, promises d !! p = Some None ↔ ∃ id, (id, p) ∈ pending d) ∧
  (∀ id p, (id, p) ∈ pending d ↔ (p, id) ∈ timers d) ∧
  (∀ p r, promises d !! p = Some (Some r) → promises (run (events ++ more) (new k)) !! p = Some (Some r)) ∧
  (closed d = true → ∀ p, (p < length (promises d))%nat → ∃ r, promises d !! p = Some (Some r)).
Proof.
  intros d. destruct (events_ok events (new k) (new_ok k)) as [Hd _]. fold d in Hd. pose proof Hd as [H1 H2 H3 H4 H5 H6 H7].
  split; [done|]. split; [|split; [|split]].
  - intros p. rewrite H3. split; [by intros ([id q] & -> & Hin)%list_elem_of_fmap; exists id|].
    intros [id Hin]. by apply (list_elem_of_fmap_2 snd) in Hin.
  - intros id p. rewrite H4. split; [by intros Hin%(list_elem_of_fmap_2 swap)|]. by intros ([i q] & [= -> ->] & Hin)%list_elem_of_fmap.
  - intros p r Hp. unfold run. rewrite fold_left_app. by apply (events_ok more d Hd).
  - intros Hc p Hp. destruct (promises d !! p) as [[r|]|] eqn:E; [by exists r| |by apply lookup_ge_None in E; lia].
    apply H3 in E. rewrite (H7 Hc) in E. by apply elem_of_nil in E.
Qed.

(** C23: A chunk from the server settles every request that waits with the first
    message of its number, and no other request, whatever else the chunk holds; one
    that is not of the protocol settles all of them with an error, and ends the
    connection. *)
Theorem chunk_routed k events chunk :
  let d := run events (new k) in
  closed d = false →
  let d' := handleData (Handshake.Bytes chunk) d in
  match (Stream.push (decoder d) chunk).1 with
  | Ok messages =>
      (∀ id p, (id, p) ∈ pending d → promises d' !! p = Some (answer_for id messages)) ∧
      (∀ p, promises d !! p ≠ Some None → promises d' !! p = promises d !! p) ∧
      pending d' = filter (λ entry, answer_for entry.1 messages = None) (pending d) ∧ closed d' = false
  | Throw _ =>
      (∀ p, promises d !! p = Some None → promises d' !! p = Some (Some (Throw SinterProtocolError))) ∧
      closed d' = true ∧ Session.destroyed (socket d') = true
  end.
Proof.
  intros d Hc d'. destruct (events_ok events (new k) (new_ok k)) as [Hd _]. fold d in Hd. unfold d', handleData. rewrite Hc.
  destruct (Stream.push (decoder d) chunk) as [[messages|e] s]; cbn [fst]; pose proof (push_ok s d Hd) as Hd'.
  - destruct (handleMessages_answers messages _ Hd') as [A1 A2 A3 (_ & A4 & _)]. cbn [promises pending closed timers set_decoder] in *.
    split; [|split; [|split; [done|congruence]]].
    + intros id p Hin. apply omap_get_in in Hin; [|by apply Hd]. rewrite A2, (pending_waits _ _ _ Hd Hin).
      by apply (timer_of _ _ _ Hd) in Hin as ->.
    + intros p Hp. rewrite A2. by destruct (promises d !! p) as [[]|].
  - destruct (failConnection_spec SinterProtocolError _ Hd') as (_ & A2 & A3 & A4). split; [|split; [done|by apply A3]].
    intros p Hp. rewrite A4. cbn. by rewrite Hp.
Qed.

(** C24: A request that is sent gets a number that no other waiting request has, and
    waits; looking for the number ends, and fails exactly when all 2^32 - 1 of them
    are taken; a request that cannot be encoded is refused, and nothing is sent. *)
Theorem request_numbered k events kind payload :
  let d := run events (new k) in
  closed d = false → Session.destroyed (socket d) = false →
  match request kind payload true d with
  | (Ok p, d') => p = length (promises d) ∧ ∃ id, (id ∉ omap_keys (pending d)) ∧
      match Session.encode kind id payload with
      | Ok frame => pending d' = pending d ++ [(id, p)] ∧ promises d' = promises d ++ [None] ∧
          socket d' = Session.socket_write frame (socket d)
      | Throw cause => pending d' = pending d ∧ promises d' = promises d ++ [Some (Throw (SinterDocumentError cause))] ∧
          socket d' = socket d
      end
  | (Throw e, d') => e = SinterProtocolError ∧ len (pending d) = MAX_REQUEST_ID ∧ promises d' = promises d
  end.
Proof.
  intros d Hc Hs. destruct (events_ok events (new k) (new_ok k)) as [Hd _]. fold d in Hd.
  destruct (request_requested kind payload true d Hd) as [Ho|id Hl Hi|id next cause Hf Hn He|id next frame Hf Hn Hi He _].
  - by rewrite Hc, Hs in Ho.
  - done.
  - split; [done|]. exists id. by rewrite He.
  - destruct (enqueue_ok id (with_id next d) (with_id_ok _ _ Hd Hn) Hc Hf Hi) as (_ & _ & Ep). split; [done|]. exists id. rewrite He.
    split; [done|]. split; [exact Ep|done].
Qed.
(** *** Examples *)

(** A ping waits; a second one comes. *)
Definition sample_ping : Event := Request MessageKind.Ping [(js "sentAt", VDate (Some 5))] true.
Definition sample_result (id : Z) : bytes :=
  match Session.encode MessageKind.Result id [(js "value", VBool true)] with Ok b => b | Throw _ => [] end.

(** The answers come in the other order, with one that nothing waits for. *)
Lemma chunk_routed_witness :
  let d := run [sample_ping; sample_ping] (new Session.new_socket) in
  let d' := handleData (Handshake.Bytes (sample_result 3 ++ sample_result 7)) d in
  match (Stream.push (decoder d) (sample_result 3 ++ sample_result 7)).1 with
  | Ok messages => len messages = 2 ∧ pending d' = [(2, 0%nat)] ∧ (promises d' !! 1%nat = Some (answer_for 3 messages))
  | Throw _ => False
  end.
Proof.
  intros d d'. assert (match (Stream.push (decoder d) (sample_result 3 ++ sample_result 7)).1 with
    | Ok messages => len messages = 2 ∧ base.filter (λ entry : Z * nat, answer_for entry.1 messages = None) (pending d) = [(2, 0%nat)]
    | Throw _ => False end) as Hm by (vm_compute; done).
  assert ((3, 1%nat) ∈ pending d) as Hin by (apply (bool_decide_unpack _); vm_compute; exact I).
  pose proof (chunk_routed Session.new_socket [sample_ping; sample_ping] (sample_result 3 ++ sample_result 7) eq_refl) as H. fold d in H. cbv zeta in H.
  destruct (Stream.push (decoder d) _).1 as [messages|e]; [|exact Hm]. destruct Hm as [H1 H2], H as (A & _ & B & _).
  split; [exact H1|]. split; [rewrite <- H2; exact B|apply A, Hin].
Defined.

Lemma request_numbered_witness :
  let d := run [sample_ping; sample_ping] (new Session.new_socket) in
  match request MessageKind.Ping [(js "sentAt", VDate (Some 6))] true d with
  | (Ok p, d') => p = 2%nat ∧ ∃ id, (id ∉ [2; 3]) ∧ pending d' = [(2, 0%nat); (3, 1%nat); (id, 2%nat)]
  | (Throw _, _) => False
  end.
Proof.
  intros d. assert (pending d = [(2, 0%nat); (3, 1%nat)]) as E1 by (vm_compute; reflexivity). assert (length (promises d) = 2%nat) as E2 by (vm_compute; reflexivity).
  assert (match request MessageKind.Ping [(js "sentAt", VDate (Some 6))] true d with
    | (Ok _, d') => len (pending d') = 3 | (Throw _, _) => False end) as Hl by (vm_compute; reflexivity).
  pose proof (request_numbered Session.new_socket [sample_ping; sample_ping] MessageKind.Ping [(js "sentAt", VDate (Some 6))] eq_refl eq_refl) as H.
  fold d in H. cbv zeta in H.
  destruct (request _ _ _ d) as [[p|e] d']; [|exact Hl]. destruct H as (-> & id & Hid & H). rewrite E1 in Hid. split; [exact E2|]. exists id. split; [exact Hid|].
  destruct (Session.encode _ _ _) as [frame|cause]; destruct H as (H & _); rewrite H, E1 in Hl |- *; [by rewrite E2|discriminate Hl].
Defined.
End RequestsFacts.

(** ** Clients *)
Module ClientFacts.
Import Driver.Driver.Client.
Import RequestsFacts(dispatcher_ok,new_ok,request_ok,handleData_ok,timeout_ok,rejectRequest_ok,close_ok,close_spec,failConnection_ok,failConnection_spec).
Abbreviation closed := Requests.closed.

(** A connection: it is settled when nothing is to come of it, and its dispatcher is
    closed unless it is that of the client. *)
Record connection_ok (current : option nat) (n : nat) (a : Connection) : Prop := {
  connection_open : listening a || handshaking a || timer a = true → outcome a = None;
  connection_attached : attached a = true ↔ is_Some (dispatcher a);
  connection_dispatcher : ∀ d, dispatcher a = Some d →
    dispatcher_ok d ∧ outcome a = Some (Ok ()) ∧ (current ≠ Some n → closed d = true);
}.

#[export] Instance event_eq_dec : EqDecision ClientEvent.
Proof. solve_decision. Defined.

(** How often an event was emitted. *)
Definition times (e : ClientEvent) (c : SinterClient) : nat := length (filter (λ x, x = e) (emitted c)).

(** A client has one connection under way at most; it is connected while it has a
    dispatcher; it is connected and closed once at most, and closed for good. *)
Record client_ok (c : SinterClient) : Prop := {
  client_connections : ∀ n a, connections c !! n = Some a → connection_ok (requestDispatcher c) n a;
  client_unsettled : ∀ n a, connections c !! n = Some a → outcome a = None →
    pendingConnection c = Some n ∧ currentState c ≠ New ∧ currentState c ≠ Connected;
  client_connecting : currentState c = Connecting →
    ∃ n a, pendingConnection c = Some n ∧ connections c !! n = Some a ∧ outcome a = None;
  client_dispatcher : ∀ n, requestDispatcher c = Some n →
    currentState c = Connected ∧ ∃ a d, connections c !! n = Some a ∧ dispatcher a = Some d;
  client_closed : times EventClosed c = if decide (currentState c = Closed) then 1%nat else 0%nat;
  client_connected : (times EventConnected c ≤ 1)%nat ∧
    (currentState c = New ∨ currentState c = Connecting → times EventConnected c = 0%nat);
}.

Lemma times_emit e e' c : times e (emit e' c) = ((if decide (e' = e) then 1 else 0) + times e c)%nat.
Proof.
  unfold times. cbn [emitted emit]. rewrite filter_app, length_app, filter_cons, filter_nil. destruct (decide (e' = e)); cbn; lia.
Qed.

Lemma on_connection_Some n f c m a :
  connections (on_connection n f c) !! m = Some a ↔ ∃ a0, connections c !! m = Some a0 ∧ a = if decide (n = m) then f a0 else a0.
Proof.
  cbn [connections on_connection set_connections]. destruct (decide (n = m)) as [->|Hne].
  - rewrite list_lookup_alter_eq. destruct (connections c !! m); cbn; naive_solver.
  - rewrite list_lookup_alter_ne by done. naive_solver.
Qed.

(** *** Steps of a dispatcher *)
Record dispatcher_step (f : Requests.RequestDispatcher → Requests.RequestDispatcher) : Prop := {
  step_keeps : ∀ d, dispatcher_ok d → dispatcher_ok (f d);
  step_closed : ∀ d, closed d = true → closed (f d) = true;
}.

Lemma handleData_closed chunk d : closed d = true → Requests.handleData chunk d = d.
Proof. unfold Requests.handleData. by intros ->. Qed.

Lemma settle_closed p r d : closed (Requests.settle p r d) = closed d.
Proof. apply RequestsFacts.settle_rest. Qed.

Lemma close_closed e d : closed d = true → Requests.close e d = d.
Proof. unfold Requests.close. by intros ->. Qed.

Lemma fail_closed e d : closed d = true → Requests.failConnection e d = d.
Proof. unfold Requests.failConnection. by intros ->. Qed.

Lemma reject_closed id e d : closed d = true → closed (Requests.rejectRequest id e d) = true.
Proof. unfold Requests.rejectRequest. intros Hc. destruct (omap_get _ _); [by rewrite settle_closed|done]. Qed.

Lemma timeout_closed p d : closed d = true → closed (Requests.timeout p d) = true.
Proof. unfold Requests.timeout. intros Hc. destruct (omap_get _ _); [|done]. destruct (omap_get _ _); [by rewrite settle_closed|done]. Qed.

Lemma data_step chunk : dispatcher_step (Requests.handleData chunk).
Proof. split; [intros d Hd; by apply handleData_ok|intros d Hd; by rewrite handleData_closed]. Qed.
Lemma timeout_step p : dispatcher_step (Requests.timeout p).
Proof. split; [intros d Hd; by apply timeout_ok|apply timeout_closed]. Qed.
Lemma write_step id : dispatcher_step (Requests.writeFailed id).
Proof. split; [intros d Hd; by apply rejectRequest_ok|apply reject_closed]. Qed.
Lemma error_step : dispatcher_step Requests.handleError.
Proof. split; [intros d Hd; by apply failConnection_ok|intros d Hd; unfold Requests.handleError; by rewrite fail_closed]. Qed.
Lemma closing_step e : dispatcher_step (Requests.close e).
Proof. split; [intros d Hd; by apply close_ok|intros d Hd; by rewrite close_closed]. Qed.
Lemma destroy_step : dispatcher_step (λ d, Requests.set_socket (Session.destroy (Requests.socket d)) d).
Proof. split; [intros d [H1 H2 H3 H4 H5 H6 H7]; by split|done]. Qed.

(** What only changes the dispatcher of a connection, or its socket. *)
Definition mild (f : Connection → Connection) : Prop :=
  ∀ a, outcome (f a) = outcome a ∧ attached (f a) = attached a ∧ listening (f a) = listening a ∧
    handshaking (f a) = handshaking a ∧ timer (f a) = timer a ∧
    ∃ g, dispatcher_step g ∧ dispatcher (f a) = g <$> dispatcher a.

Lemma on_dispatcher_mild f : dispatcher_step f → mild (on_dispatcher f).
Proof. intros Hf a. repeat split. by exists f. Qed.

Lemma destroy_mild : mild destroy.
Proof. intros a. repeat split. eexists. split; [exact destroy_step|done]. Qed.

Lemma mild_ok current n f a : mild f → connection_ok current n a → connection_ok current n (f a).
Proof.
  intros Hf [H1 H2 H3]. destruct (Hf a) as (E1 & E2 & E3 & E4 & E5 & g & Hg & E6). split.
  - by rewrite E1, E3, E4, E5.
  - by rewrite E2, E6, fmap_is_Some.
  - intros d Hd. rewrite E6 in Hd. apply fmap_Some in Hd as (d0 & Hd & ->). destruct (H3 d0 Hd) as (A1 & A2 & A3).
    split; [by apply Hg|]. split; [congruence|]. intros Hc. by apply Hg, A3.
Qed.

Lemma mild_client n f c : mild f → client_ok c → client_ok (on_connection n f c).
Proof.
  intros Hf [H1 H2 H3 H4 H5 H6]. split; [| | | |exact H5|exact H6].
  - intros m a (a0 & Ha & ->)%on_connection_Some. destruct (decide (n = m)); [apply mild_ok|]; by eauto.
  - intros m a (a0 & Ha & ->)%on_connection_Some Ho. apply (H2 m a0 Ha). destruct (decide (n = m)); [|done].
    by destruct (Hf a0) as (<- & _).
  - intros Hc. destruct (H3 Hc) as (m & a & Hp & Ha & Ho). exists m. exists (if decide (n = m) then f a else a).
    split; [done|]. split; [apply on_connection_Some; by exists a|]. destruct (decide (n = m)); [|done]. by destruct (Hf a) as (-> & _).
  - intros m Hm. destruct (H4 m Hm) as (Hc & a & d & Ha & Hd). split; [done|].
    destruct (decide (n = m)) as [->|Hne].
    + destruct (Hf a) as (_ & _ & _ & _ & _ & g & _ & E). exists (f a), (g d). split; [apply on_connection_Some; exists a; by rewrite decide_True|].
      by rewrite E, Hd.
    + exists a, d. split; [|done]. apply on_connection_Some. exists a. by rewrite decide_False.
Qed.

(** *** Steps of a client *)
Section Steps.
Context (hears : bool).

(** A client that closes goes on to be closed, for good; it waits for a socket only
    then. *)
Definition ending (c : SinterClient) : bool := match currentState c with Closing | Closed => true | _ => false end.

Record onward (c c' : SinterClient) : Prop := {
  onward_ending : ending c = true → ending c' = true;
  onward_closed : currentState c = Closed → currentState c' = Closed;
  onward_awaited : awaited c' = awaited c ∨ ending c' = true;
}.

#[local] Instance onward_preorder : PreOrder onward.
Proof.
  split; [intros c; split; auto|]. intros c1 c2 c3 [A1 A2 A3] [B1 B2 B3]. split; [auto..|].
  destruct B3 as [->|]; [|by right]. destruct A3 as [->|]; [by left|right; auto].
Qed.

Lemma onward_same c c' : currentState c' = currentState c → awaited c' = awaited c → onward c c'.
Proof. intros E1 E2. split; unfold ending; rewrite ?E1; auto. Qed.

Lemma onward_error c : onward c (emitDriverError hears c).
Proof. apply onward_same; unfold emitDriverError; by destruct hears. Qed.

Lemma onward_transition c : onward c (transitionToClosed c).
Proof. unfold transitionToClosed. split; unfold ending; destruct (currentState c) eqn:E; cbn; rewrite ?E; auto. Qed.

Lemma onward_dispatcher e c : onward c (close_dispatcher e c).
Proof. apply onward_same; unfold close_dispatcher; by destruct (requestDispatcher c). Qed.

Lemma onward_connection n f c : onward c (on_connection n f c).
Proof. by apply onward_same. Qed.

Lemma onward_failure n e c : onward c (finishFailure hears n e c).
Proof.
  unfold finishFailure. destruct (connections c !! n) as [a|]; [|done]. destruct (outcome a); [done|].
  set (c1 := on_connection n _ c). set (c2 := if bool_decide (socket c1 = Some n) then set_socket None c1 else c1).
  assert (currentState (set_server None None c2) = currentState c ∧ awaited (set_server None None c2) = awaited c) as [E1 E2]
    by (unfold c2; by case_bool_decide).
  set (c3 := set_server None None c2) in *. clearbody c3. rewrite E1. etrans; [by apply (onward_same c c3)|].
  destruct (currentState c) eqn:Es; try apply onward_error; try done.
  etrans; [|apply onward_error]. split; unfold ending; cbn; rewrite ?E1; auto; congruence.
Qed.

Lemma onward_success n h c : onward c (finishSuccess hears n h c).
Proof.
  unfold finishSuccess. destruct (connections c !! n) as [a|]; [|done]. destruct (outcome a); [done|].
  pose proof (onward_failure n (SinterClientStateError true) c) as Hf. destruct (currentState c) eqn:Es; try exact Hf.
  split; unfold ending; cbn; rewrite ?Es; auto; congruence.
Qed.

Lemma onward_connect c : onward c (connect c).2.
Proof.
  unfold connect. destruct (currentState c) eqn:Es; try done; destruct (pendingConnection c); try done;
    (split; unfold ending; cbn; rewrite ?Es; auto; congruence).
Qed.

Lemma onward_close c : onward c (close c).
Proof.
  unfold close. set (c1 := set_socket None (close_dispatcher (SinterClientStateError true) (set_server None (requestDispatcher c) (set_state Closing c)))).
  assert (currentState c1 = Closing) as E1 by (unfold c1, close_dispatcher; cbn; by destruct (requestDispatcher c)).
  clearbody c1.
  assert (currentState c ≠ Closed → ∀ c2, onward c1 c2 → onward c c2) as Hs.
  { intros Hne c2 [A1 _ _]. unfold ending in A1 at 1. rewrite E1 in A1. split; [auto|congruence|right; auto]. }
  assert (currentState c = Closed ∨ currentState c ≠ Closed) as [E|E] by (destruct (currentState c); by (left + right)).
  { by rewrite E. }
  assert (∀ c2, onward c1 c2 → onward c (match currentState c with Closed => c | _ => c2 end)) as Hf
    by (intros c2 H2; specialize (Hs E c2 H2); by destruct (currentState c)).
  apply Hf. destruct (socket _) as [n|]; [|apply onward_transition]. destruct (connections c1 !! n) as [a|]; [|apply onward_transition].
  destruct (Session.destroyed _); [apply onward_transition|]. split; unfold ending; cbn; rewrite ?E1; auto.
Qed.

Lemma onward_request kind payload written c : onward c (request kind payload written c).2.
Proof.
  unfold request. destruct (getRequestDispatcher c) as [n|]; [|done]. destruct (connections c !! n) as [a|]; [|done].
  destruct (dispatcher a); [|done]. destruct (Requests.request _ _ _ _). apply onward_connection.
Qed.

Lemma onward_step event c : onward c (step hears event c).
Proof.
  destruct event as [|n|n|n r|n|n|n|n|kind payload written|n chunk|n p|n id| |n]; cbn [step];
    try apply onward_connection; try (destruct (connections c !! n) as [a|]; [|done]).
  - apply onward_connect.
  - destruct (outcome a); [|done]. case_bool_decide; [by apply onward_same|done].
  - destruct (listening a); [apply onward_connection|done].
  - destruct (handshaking a); [|done]. destruct r; [apply onward_success|apply onward_failure].
  - destruct (timer a); [apply onward_failure|done].
  - destruct (attached a); [|done]. unfold lifecycle_timeout. case_bool_decide; [|done].
    etrans; [apply onward_error|]. etrans; [apply onward_dispatcher|apply onward_connection].
  - destruct (listening a); [apply onward_failure|]. destruct (attached a); [|done]. etrans; [apply onward_connection|apply onward_error].
  - destruct (listening a); [apply onward_failure|]. destruct (attached a); [|done]. etrans; [apply onward_connection|].
    unfold lifecycle_close. case_bool_decide; [|done]. etrans; [|apply onward_transition]. etrans; [|apply onward_dispatcher]. by apply onward_same.
  - apply onward_request.
  - apply onward_close.
  - case_bool_decide; [apply onward_transition|done].
Qed.

Lemma error_ok c : client_ok c → client_ok (emitDriverError hears c).
Proof.
  intros [H1 H2 H3 H4 H5 H6]. unfold emitDriverError. destruct hears; [|by split].
  split; [done..| |]; rewrite times_emit; [by rewrite decide_False|by rewrite decide_False].
Qed.

Lemma socket_ok k c : client_ok c → client_ok (set_socket k c).
Proof. intros [H1 H2 H3 H4 H5 H6]. by split. Qed.

Lemma awaited_ok l c : client_ok c → client_ok (set_awaited l c).
Proof. intros [H1 H2 H3 H4 H5 H6]. by split. Qed.

Lemma negotiated_ok h c : client_ok c → client_ok (set_server h (requestDispatcher c) c).
Proof. intros [H1 H2 H3 H4 H5 H6]. by split. Qed.

(** The dispatcher of a client goes: it is closed, and so are all. *)
Lemma close_dispatcher_ok e c :
  client_ok c → client_ok (close_dispatcher e c) ∧ requestDispatcher (close_dispatcher e c) = None ∧
  currentState (close_dispatcher e c) = currentState c ∧ socket (close_dispatcher e c) = socket c.
Proof.
  intros Hc. unfold close_dispatcher. destruct (requestDispatcher c) as [n|] eqn:En.
  2: { split; [|done]. destruct Hc as [H1 H2 H3 H4 H5 H6]. split; try done. cbn. by rewrite <- En. }
  split; [|done]. pose proof (mild_client n _ c (on_dispatcher_mild _ (closing_step e)) Hc) as Hm.
  destruct Hm as [H1 H2 H3 H4 H5 H6]. split; try done. intros m a Ha. change (connections (set_server (negotiatedServer (on_connection n (on_dispatcher (Requests.close e)) c)) None
    (on_connection n (on_dispatcher (Requests.close e)) c))) with (connections (on_connection n (on_dispatcher (Requests.close e)) c)) in Ha.
  destruct (H1 m a Ha) as [A1 A2 A3]. split; [done|done|]. intros d Hd. destruct (A3 d Hd) as (B1 & B2 & B3). split; [done|]. split; [done|].
  intros _. cbn in B3. rewrite En in B3. destruct (decide (n = m)) as [->|Hne]; [|apply B3; congruence].
  apply on_connection_Some in Ha as (a0 & Ha & ->). rewrite decide_True in Hd by done. cbn in Hd. apply fmap_Some in Hd as (d0 & Hd & ->).
  apply close_spec. destruct (client_connections _ Hc m a0 Ha) as [_ _ A]. by apply (A d0).
Qed.

Lemma transition_ok c : client_ok c → requestDispatcher c = None → client_ok (transitionToClosed c).
Proof.
  intros Hc Hd. unfold transitionToClosed. pose proof Hc as [H1 H2 H3 H4 H5 H6].
  assert (currentState c = Closed ∨ currentState c ≠ Closed) as [E|E] by (destruct (currentState c); by (left + right)).
  { by rewrite E. }
  assert (client_ok (emit EventClosed (set_state Closed c))) as Hr; [|by destruct (currentState c)].
  rewrite decide_False in H5 by done. split.
  - exact H1.
  - intros n a Ha Ho. by destruct (H2 n a Ha Ho).
  - done.
  - cbn. rewrite Hd. done.
  - rewrite times_emit. change (times EventClosed (set_state Closed c)) with (times EventClosed c). by rewrite H5.
  - rewrite times_emit. change (times EventConnected (set_state Closed c)) with (times EventConnected c). rewrite decide_False by done.
    split; [apply H6|]. by intros [?|?].
Qed.

(** The state moves on to [Closing]. *)
Lemma closing_ok c : client_ok c → currentState c ≠ Closed → requestDispatcher c = None → client_ok (set_state Closing c).
Proof.
  intros [H1 H2 H3 H4 H5 H6] E Hd. rewrite decide_False in H5 by done. split.
  - exact H1.
  - intros n a Ha Ho. by destruct (H2 n a Ha Ho).
  - done.
  - cbn. rewrite Hd. done.
  - exact H5.
  - cbn. split; [apply H6|]. by intros [?|?].
Qed.

(** A connection that was under way fails. *)
Lemma finishFailure_ok n e c : client_ok c → client_ok (finishFailure hears n e c).
Proof.
  intros Hc. unfold finishFailure. destruct (connections c !! n) as [a|] eqn:Ea; [|done]. destruct (outcome a) eqn:Eo; [done|].
  pose proof Hc as [H1 H2 H3 H4 H5 H6]. destruct (H2 n a Ea Eo) as (Hp & Hn & Hcd).
  assert (requestDispatcher c = None) as Ed by (destruct (requestDispatcher c) as [m|] eqn:E; [by destruct (client_dispatcher _ Hc m E)|done]).
  assert (dispatcher a = None) as Ea'.
  { destruct (H1 n a Ea) as [_ _ A]. destruct (dispatcher a) as [d|] eqn:E; [|done]. destruct (A d eq_refl) as (_ & A2 & _). congruence. }
  set (c1 := on_connection n (λ a, destroy (settle (Throw e) a)) c).
  set (c2 := if bool_decide (socket c1 = Some n) then set_socket None c1 else c1).
  set (c3 := set_server None None c2).
  assert (connections c3 = connections c1 ∧ pendingConnection c3 = pendingConnection c ∧ currentState c3 = currentState c ∧
    emitted c3 = emitted c ∧ requestDispatcher c3 = None) as (K1 & K2 & K3 & K4 & K5) by (unfold c3, c2; by case_bool_decide).
  assert (∀ m a1, connections c3 !! m = Some a1 → connection_ok None m a1 ∧ outcome a1 ≠ None) as Hall.
  { intros m a1. rewrite K1. unfold c1. intros (a0 & Ha0 & ->)%on_connection_Some. destruct (decide (n = m)) as [<-|Hne].
    - rewrite Ea in Ha0. injection Ha0 as <-. split; [|done]. destruct (H1 n a Ea) as [_ A2 _]. split; cbn; [done| |by rewrite Ea'].
      rewrite A2, Ea'. done.
    - rewrite <- Ed. split; [by apply H1|]. intros E. destruct (H2 m a0 Ha0 E) as (E' & _). congruence. }
  clearbody c3. clear c1 c2 K1.
  assert (client_ok (match currentState c3 with Connecting => set_state New c3 | _ => c3 end)) as Hr.
  { assert (∀ s, s ≠ Connecting → (s = Closed ↔ currentState c = Closed) → (s = New ∨ s = Connecting → currentState c = New ∨ currentState c = Connecting) →
      client_ok (set_state s c3)) as Hs.
    { intros s Hs1 Hs2 Hs3. split.
      - intros m a1 Ha1. destruct (Hall m a1 Ha1) as [Hk _]. rewrite <- K5 in Hk. exact Hk.
      - intros m a1 Ha1 Ho. by destruct (Hall m a1 Ha1) as [_ ?].
      - done.
      - intros m Hm. change (requestDispatcher c3 = Some m) in Hm. congruence.
      - unfold times. cbn [emitted set_state currentState]. rewrite K4. unfold times in H5. rewrite H5.
        destruct (decide (s = Closed)), (decide (currentState c = Closed)); tauto.
      - unfold times in *. cbn [emitted set_state currentState]. rewrite K4. split; [apply H6|]. intros Hs. apply H6, Hs3, Hs. }
    assert (c3 = set_state (currentState c3) c3) as E by (by destruct c3).
    destruct (currentState c3); try congruence; [apply Hs|rewrite E; apply Hs..]; rewrite <- ?K3; naive_solver. }
  destruct (match currentState c3 with Closing | Closed => false | _ => true end); [by apply error_ok|exact Hr].
Qed.

(** A connection that was under way is there. *)
Lemma finishSuccess_ok n h c : client_ok c → client_ok (finishSuccess hears n h c).
Proof.
  intros Hc. unfold finishSuccess. destruct (connections c !! n) as [a|] eqn:Ea; [|done]. destruct (outcome a) eqn:Eo; [done|].
  pose proof (finishFailure_ok n (SinterClientStateError true) c Hc) as Hf. destruct (currentState c) eqn:Es; try exact Hf. clear Hf.
  pose proof Hc as [H1 H2 H3 H4 H5 H6]. rewrite Es in *. destruct (H2 n a Ea Eo) as (Hp & _ & _).
  set (c1 := on_connection n (λ a, attach (settle (Ok ()) a)) c).
  assert (∀ m a1, connections c1 !! m = Some a1 → connection_ok (Some n) m a1 ∧ outcome a1 ≠ None) as Hall.
  { intros m a1 (a0 & Ha0 & ->)%on_connection_Some. destruct (decide (n = m)) as [<-|Hne].
    - split; [|done]. split; cbn; [done|by split; [eexists|]|]. intros d [= <-]. split; [apply new_ok|]. by split.
    - split; [|intros E; destruct (H2 m a0 Ha0 E) as (E' & _); congruence]. destruct (H1 m a0 Ha0) as [A1 A2 A3]. split; [done..|].
      intros d Hd. destruct (A3 d Hd) as (B1 & B2 & B3). split; [done|]. split; [done|]. intros _. apply B3.
      intros E. by destruct (H4 m E). }
  assert (times EventConnected c = 0%nat) as E0 by (apply H6; by right). split.
  - intros m a1 Ha1. by apply Hall.
  - intros m a1 Ha1 Ho. by destruct (Hall m a1 Ha1) as [_ ?].
  - done.
  - intros m [= <-]. split; [done|]. exists (attach (settle (Ok ()) a)), (Requests.new (raw a)). split; [|done].
    apply (on_connection_Some n (λ a, attach (settle (Ok ()) a)) c n). exists a. by rewrite decide_True.
  - rewrite times_emit. exact H5.
  - rewrite times_emit. change (times EventConnected (set_state Connected (set_server (Some h) (Some n) c1))) with (times EventConnected c).
    rewrite E0. split; [by rewrite decide_True|]. by intros [?|?].
Qed.

Lemma connect_ok c : client_ok c → client_ok (connect c).2.
Proof.
  intros Hc. pose proof Hc as [H1 H2 H3 H4 H5 H6]. unfold connect.
  destruct (currentState c) eqn:Es; try done; destruct (pendingConnection c) as [n|] eqn:Ep; try done.
  2: { destruct (H3 eq_refl) as (n & a & ? & _). congruence. }
  assert (∀ m a, connections c !! m = Some a → outcome a ≠ None) as Hs by (intros m a Ha Ho; by destruct (H2 m a Ha Ho)).
  assert (requestDispatcher c = None) as Ed by (destruct (requestDispatcher c) as [m|] eqn:E; [by destruct (H4 m eq_refl)|done]).
  cbn [openSocket snd]. set (n := length (connections c)).
  assert (∀ m a, (connections c ++ [new_connection]) !! m = Some a → connections c !! m = Some a ∨ m = n ∧ a = new_connection) as Hl.
  { intros m a [Hm|[Hm Ha]]%lookup_app_Some; [by left|right]. apply list_lookup_singleton_Some in Ha as [Hz <-]. split; [unfold n; lia|done]. }
  split; cbn.
  - intros m a Ha. rewrite Ed. destruct (Hl m a Ha) as [Ha'|[-> ->]]; [rewrite <- Ed; by apply H1|]. split; [done|by split; [|intros []]|done].
  - intros m a Ha Ho. destruct (Hl m a Ha) as [Ha'|[-> ->]]; [|done]. by destruct (Hs m a Ha').
  - intros _. exists n, new_connection. split; [done|]. split; [apply list_lookup_middle; done|done].
  - rewrite Ed. done.
  - unfold times in *. cbn. by rewrite filter_app, filter_cons_False, filter_nil, app_nil_r.
  - unfold times in *. cbn. rewrite filter_app, filter_cons_False, filter_nil, app_nil_r by done.
    split; [apply H6|]. intros _. apply H6. by left.
Qed.

Lemma close_client_ok c : client_ok c → client_ok (close c).
Proof.
  intros Hc. unfold close. assert (currentState c = Closed ∨ currentState c ≠ Closed) as [E|E] by (destruct (currentState c); by (left + right)).
  { by rewrite E. }
  set (c1 := set_socket None (close_dispatcher (SinterClientStateError true) (set_server None (requestDispatcher c) (set_state Closing c)))).
  assert (client_ok c1 ∧ requestDispatcher c1 = None) as [H1 Hd].
  { destruct (close_dispatcher_ok (SinterClientStateError true) (set_server None (requestDispatcher c) c) (negotiated_ok None c Hc)) as (K1 & K2 & K3 & _).
    assert (c1 = set_socket None (set_state Closing (close_dispatcher (SinterClientStateError true) (set_server None (requestDispatcher c) c)))) as ->
      by (unfold c1, close_dispatcher; cbn; by destruct (requestDispatcher c)).
    split; [|exact K2]. apply socket_ok, closing_ok; [done|by rewrite K3|done]. }
  assert (client_ok (match socket (close_dispatcher (SinterClientStateError true) (set_server None (requestDispatcher c) (set_state Closing c))) with
    | None => transitionToClosed c1
    | Some n => match connections c1 !! n with
                | Some a => if Session.destroyed (socket_of a) then transitionToClosed c1
                            else set_awaited (n :: awaited c1) (on_connection n destroy c1)
                | None => transitionToClosed c1
                end
    end)) as Hr; [|by destruct (currentState c)].
  destruct (socket _) as [n|]; [|by apply transition_ok]. destruct (connections c1 !! n) as [a|]; [|by apply transition_ok].
  destruct (Session.destroyed _); [by apply transition_ok|]. by apply awaited_ok, mild_client, H1; apply destroy_mild.
Qed.

(** The next state of a dispatcher after a request of the client. *)
Lemma request_client_ok kind payload written c : client_ok c → client_ok (request kind payload written c).2.
Proof.
  intros Hc. unfold request. destruct (getRequestDispatcher c) as [n|e] eqn:Eg; [|done].
  destruct (connections c !! n) as [a|] eqn:Ea; [|done]. destruct (dispatcher a) as [d|] eqn:Ed; [|done].
  destruct (Requests.request kind payload written d) as [r d'] eqn:Er. cbn [snd].
  assert (requestDispatcher c = Some n) as Ec.
  { unfold getRequestDispatcher in Eg. destruct (currentState c), (requestDispatcher c); congruence. }
  assert (on_connection n (on_dispatcher (λ _, d')) c = on_connection n (on_dispatcher (λ d, (Requests.request kind payload written d).2)) c) as ->.
  { unfold on_connection. f_equal. apply list_eq. intros m. destruct (decide (n = m)) as [<-|Hne]; [|by rewrite !list_lookup_alter_ne].
    rewrite !list_lookup_alter_eq, Ea. cbn. unfold on_dispatcher. rewrite Ed. cbn. by rewrite Er. }
  apply mild_client; [|done]. apply on_dispatcher_mild. split; [intros d0 Hd0; by apply request_ok|].
  intros d0 Hd0. unfold Requests.request. rewrite Hd0. done.
Qed.

Lemma pending_cleared n a c :
  client_ok c → connections c !! n = Some a → outcome a ≠ None → pendingConnection c = Some n → client_ok (set_pendingConnection None c).
Proof.
  intros [H1 H2 H3 H4 H5 H6] Ha Ho Hp. split; [done| | |done..].
  - intros m a' Ha' Ho'. cbn [connections set_pendingConnection] in Ha'. destruct (H2 m a' Ha' Ho') as [Hm _]. rewrite Hp in Hm. injection Hm as <-.
    rewrite Ha in Ha'. by injection Ha' as <-.
  - intros Hs. destruct (H3 Hs) as (m & a' & Hm & Ha' & Ho'). rewrite Hp in Hm. injection Hm as <-.
    rewrite Ha in Ha'. by injection Ha' as <-.
Qed.

Lemma shake_ok n a c : client_ok c → connections c !! n = Some a → listening a = true → client_ok (on_connection n shake c).
Proof.
  intros [H1 H2 H3 H4 H5 H6] Ha Hl. assert (outcome a = None) as Ho by (apply (H1 n a Ha); by rewrite Hl).
  split; [| | | |exact H5|exact H6].
  - intros m a' (a0 & Ha0 & ->)%on_connection_Some. destruct (decide (n = m)) as [<-|]; [|by apply H1].
    rewrite Ha in Ha0. injection Ha0 as <-. destruct (H1 n a Ha) as [A1 A2 A3]. split; [by intros _|exact A2|exact A3].
  - intros m a' (a0 & Ha0 & ->)%on_connection_Some Ho'. apply (H2 m a0 Ha0). by destruct (decide (n = m)).
  - intros Hs. destruct (H3 Hs) as (m & a0 & Hp & Ha0 & Ho0). exists m, (if decide (n = m) then shake a0 else a0). split; [done|].
    split; [apply on_connection_Some; by exists a0|]. by destruct (decide (n = m)).
  - intros m Hm. destruct (H4 m Hm) as (Hs & a0 & d & Ha0 & Hd). split; [done|].
    exists (if decide (n = m) then shake a0 else a0), d. split; [apply on_connection_Some; by exists a0|]. by destruct (decide (n = m)).
Qed.

Lemma lifecycle_close_ok n c : client_ok c → client_ok (lifecycle_close n c).
Proof.
  intros Hc. unfold lifecycle_close. case_bool_decide; [|done].
  destruct (close_dispatcher_ok SinterConnectionError (set_server None (requestDispatcher c) (set_socket None c))) as (K1 & K2 & _).
  - apply (negotiated_ok None (set_socket None c)), socket_ok, Hc.
  - by apply transition_ok.
Qed.

Lemma lifecycle_timeout_ok n c : client_ok c → client_ok (lifecycle_timeout hears n c).
Proof.
  intros Hc. unfold lifecycle_timeout. case_bool_decide; [|done]. apply mild_client; [apply destroy_mild|].
  by apply close_dispatcher_ok, error_ok.
Qed.

Lemma client_step_ok event c : client_ok c → (awaited c = [] ∨ ending c = true) → client_ok (step hears event c).
Proof.
  intros Hc Hw. destruct event as [|n|n|n r|n|n|n|n|kind payload written|n chunk|n p|n id| |n]; cbn [step].
  1: by apply connect_ok.
  all: try (destruct (connections c !! n) as [a|] eqn:Ea; [|done]).
  - destruct (outcome a) eqn:Eo; [|done]. case_bool_decide; [|done]. apply (pending_cleared n a); [done|done|by rewrite Eo|done].
  - destruct (listening a) eqn:El; [|done]. by apply (shake_ok n a).
  - destruct (handshaking a); [|done]. destruct r; [by apply finishSuccess_ok|by apply finishFailure_ok].
  - destruct (timer a); [|done]. by apply finishFailure_ok.
  - destruct (attached a); [|done]. by apply lifecycle_timeout_ok.
  - destruct (listening a); [by apply finishFailure_ok|]. destruct (attached a); [|done].
    apply error_ok, mild_client, Hc. apply on_dispatcher_mild, error_step.
  - destruct (listening a); [by apply finishFailure_ok|]. destruct (attached a); [|done].
    apply lifecycle_close_ok, mild_client, Hc. apply on_dispatcher_mild, closing_step.
  - by apply request_client_ok.
  - apply mild_client, Hc. apply on_dispatcher_mild, data_step.
  - apply mild_client, Hc. apply on_dispatcher_mild, timeout_step.
  - apply mild_client, Hc. apply on_dispatcher_mild, write_step.
  - by apply close_client_ok.
  - case_bool_decide as Hn; [|done]. apply transition_ok; [done|]. destruct Hw as [Hw|Hw]; [rewrite Hw in Hn; by apply elem_of_nil in Hn|].
    unfold ending in Hw. destruct (requestDispatcher c) as [m|] eqn:E; [|done]. destruct (client_dispatcher _ Hc m E) as [Hs _]. by rewrite Hs in Hw.
Qed.

Definition client_inv (c : SinterClient) : Prop := client_ok c ∧ (awaited c = [] ∨ ending c = true).

Lemma new_client_inv : client_inv new.
Proof. split; [|by left]. split; try done. split; [cbn; lia|done]. Qed.

Lemma event_inv event c : client_inv c → client_inv (step hears event c).
Proof.
  intros [H1 H2]. split; [by apply client_step_ok|]. destruct (onward_step event c) as [A1 _ A2].
  destruct A2 as [->|]; [|by right]. destruct H2; [by left|right; auto].
Qed.

Lemma events_inv events c : client_inv c → client_inv (fold_left (λ c event, step hears event c) events c).
Proof. revert c. induction events as [|event events IH]; intros c Hc; [done|]. by apply IH, event_inv. Qed.

Lemma run_onward events c : onward c (fold_left (λ c event, step hears event c) events c).
Proof. revert c. induction events as [|event events IH]; intros c; [done|]. cbn. etrans; [apply onward_step|apply IH]. Qed.

(** C25: Whatever happens to a client, it is connected while it has a dispatcher for
    requests, and has one connection under way at most; it is connected once at most,
    and closed once at most and for good; and when it is closed, every request that
    was made has been settled. *)
Theorem client_life events more :
  let c := run hears events in
  (∀ n, requestDispatcher c = Some n → currentState c = Connected) ∧
  (∀ n m a b, connections c !! n = Some a → connections c !! m = Some b → outcome a = None → outcome b = None → n = m) ∧
  (times EventConnected c ≤ 1)%nat ∧ times EventClosed c = (if decide (currentState c = Closed) then 1 else 0)%nat ∧
  (currentState c = Closed → currentState (run hears (events ++ more)) = Closed ∧
    ∀ n a d p, connections c !! n = Some a → dispatcher a = Some d → (p < length (Requests.promises d))%nat →
      ∃ r, Requests.promises d !! p = Some (Some r)).
Proof.
  intros c. destruct (events_inv events new new_client_inv) as [[H1 H2 H3 H4 H5 H6] _]. fold (run hears events) in *. fold c in H1, H2, H3, H4, H5, H6.
  split; [intros n Hn; by destruct (H4 n Hn)|]. split.
  { intros n m a b Ha Hb Ha' Hb'. destruct (H2 n a Ha Ha'), (H2 m b Hb Hb'). congruence. }
  split; [apply H6|]. split; [exact H5|]. intros Hc. split.
  - unfold run. rewrite fold_left_app. by apply run_onward.
  - intros n a d p Ha Hd Hp. destruct (H1 n a Ha) as [_ _ A]. destruct (A d Hd) as (Hok & _ & Hcl).
    destruct (Requests.promises d !! p) as [[r|]|] eqn:E; [by exists r| |by apply lookup_ge_None in E; lia].
    apply (RequestsFacts.ok_waiting _ Hok) in E. rewrite (RequestsFacts.ok_closed _ Hok) in E; [by apply elem_of_nil in E|].
    apply Hcl. intros Hn. destruct (H4 n Hn). congruence.
Qed.
End Steps.
End ClientFacts.
