(* ===== verification/DriverServer.v ===== *)
(** * The driver and the server

    A cursor of the driver over a server that keeps the interface [CursorService]
    returns every document once, and leaves no cursor behind; the dispatcher of
    commands keeps the interface. *)

From stdpp Require Import gmap.
From S2P Require Import Prelude Errors JsNumber JsString JsValue Binary Codec Roundtrip Frame Message Streams Filter FilterSpec Sort IndexSet Stored Disk Collection CollectionLemmas CollectionQueries CollectionModel CollectionProperties WalOperations Engine EngineReplay EngineLife ServerErrors Cursors CursorProperties Catalog Scans ScanProperties CatalogProperties Dispatcher DispatcherProperties ScanChanges ServerLife Session SessionProperties Driver DriverProperties.
Import Driver.Driver Driver.Driver.FindCursor.

(** ** Servers of cursors *)

(** A document that the driver takes for one. *)
Definition identified (d : Document) : Prop := Results.parseDocument (VDoc d) = Some d.

Section Client.
Context {W : Type} (execute : jsstring → Document → ST W SinterError DocumentValue) (q : Query).

(** The server has nothing of the query ([idle]), or the cursor [id] that will still
    return [l]. *)
Context (idle : W → Prop) (has : W → Z → list Document → Prop).

(** What is left when a batch was answered, and the cursor for it. *)
Definition continues (next : option Z) (left : list Document) (w : W) : Prop :=
  match next with None => left = [] ∧ idle w | Some id => has w id left end.

Definition batch_answer (next : option Z) (batch : list Document) : DocumentValue :=
  VDoc (Dispatcher.Dispatcher.toBatchDocument {| Cursors.Cursors.cursorId := next; Cursors.Cursors.documents := batch |}).

Class CursorService : Prop := {
  service_id : ∀ w id l, has w id l → 1 ≤ id ≤ MAX_SAFE_INTEGER ∧ l ≠ [];
  service_more : ∀ w id l, has w id l → ∃ batch next left w',
    execute (js "getMore") (getMore_parameters q (number_of_Z id)) w = (Ok (batch_answer next batch), w') ∧
    l = batch ++ left ∧ batch ≠ [] ∧ continues next left w';
  service_close : ∀ w id l, has w id l → ∃ v w',
    execute (js "closeCursor") [(js "cursorId", VNumber (number_of_Z id))] w = (Ok v, w') ∧ idle w';
}.

(** The query returns [l] from its first batch on. *)
Definition begins (w : W) (l : list Document) : Prop :=
  ∃ batch next left w',
    execute (js "find") (find_parameters q) w = (Ok (batch_answer next batch), w') ∧
    l = batch ++ left ∧ (batch = [] → left = []) ∧ continues next left w'.

Context {serves : CursorService}.

(** A cursor that will still return [l]. *)
Definition reading (w : W) (c : FindCursor) (l : list Document) : Prop :=
  closed c = false ∧
  match cursorId c with
  | Unasked => buffer c = [] ∧ idle w ∧ begins w l
  | NoMore => l = buffer c ∧ idle w
  | OpenCursor n => ∃ id left, n = number_of_Z id ∧ l = buffer c ++ left ∧ has w id left
  end.

Lemma parse_documents l : Forall identified l → mapM Results.parseDocument (map VDoc l) = Some l.
Proof using.
  induction 1 as [|d l Hd Hl IH]; [done|]. cbn [map]. change (mapM Results.parseDocument (VDoc d :: map VDoc l)) with
    (d' ← Results.parseDocument (VDoc d); l' ← mapM Results.parseDocument (map VDoc l); mret (d' :: l')). by rewrite Hd, IH.
Qed.

(** The driver understands the batches of the server. *)
Lemma parse_batch next batch :
  (∀ id, next = Some id → 1 ≤ id ≤ MAX_SAFE_INTEGER) → Forall identified batch →
  parseBatch (batch_answer next batch) =
    Ok (match next with Some id => OpenCursor (number_of_Z id) | None => NoMore end, batch).
Proof using.
  intros Hid Hb. unfold parseBatch, batch_answer. cbn [Results.asRecord mbind res_bind].
  assert (valid_cursorId (obj_get (Dispatcher.Dispatcher.toBatchDocument {| Cursors.Cursors.cursorId := next; Cursors.Cursors.documents := batch |}) (js "cursorId")) =
    Some (match next with Some id => OpenCursor (number_of_Z id) | None => NoMore end)) as ->.
  { destruct next as [id|]; [|done]. transitivity (valid_cursorId (Some (VNumber (number_of_Z id)))); [done|]. unfold valid_cursorId.
    destruct (positive_id id (Hid id eq_refl)) as [Hp _]. unfold Cursors.Cursors.positive in Hp. by rewrite Hp. }
  cbn [Results.demand mbind res_bind].
  assert (Results.the_array (obj_get (Dispatcher.Dispatcher.toBatchDocument {| Cursors.Cursors.cursorId := next; Cursors.Cursors.documents := batch |}) (js "documents")) =
    Some (map VDoc batch)) as -> by done.
  cbn [mbind option_bind]. by rewrite parse_documents.
Qed.

Lemma continues_id next left w : continues next left w → ∀ id, next = Some id → 1 ≤ id ≤ MAX_SAFE_INTEGER.
Proof using serves. intros H id ->. by apply service_id in H as [? _]. Qed.

(** The cursor with a batch that was read into its empty buffer. *)
Definition filled (next : option Z) (batch : list Document) : FindCursor := {|
  buffer := batch; cursorId := match next with Some id => OpenCursor (number_of_Z id) | None => NoMore end; closed := false |}.

Lemma filled_reading next batch left w :
  continues next left w → (batch = [] → left = []) →
  reading w (filled next batch) (batch ++ left) ∧ (batch ≠ [] ∨ cursorId (filled next batch) = NoMore).
Proof using serves.
  intros Hc Hn. destruct next as [id|]; cbn in Hc.
  - split; [split; [done|]; by exists id, left|]. left. intros Hb. apply service_id in Hc as [_ Hne]. auto.
  - destruct Hc as [-> Hi]. split; [|by right]. split; [done|]. cbn. by rewrite app_nil_r.
Qed.

Lemma fetchBatch_reads w c l :
  reading w c l → buffer c = [] → cursorId c ≠ NoMore → Forall identified l →
  ∃ w' c', fetchBatch execute q (w, c) = (Ok (), (w', c')) ∧ reading w' c' l ∧ (buffer c' ≠ [] ∨ cursorId c' = NoMore).
Proof using serves.
  destruct c as [buffer cursorId closed]. intros [Hc Hr] Hb Hn Hl. cbn in *. subst closed buffer.
  unfold fetchBatch, this, send, update, st_get, st_update, st_lift, mbind, st_bind. cbn [fst snd FindCursor.cursorId FindCursor.buffer FindCursor.closed].
  destruct cursorId as [| |n]; [|done|].
  - destruct Hr as (_ & _ & batch & next & left & w' & -> & -> & Hne & Hc). apply Forall_app in Hl as [Hl _].
    rewrite parse_batch; [|by eapply continues_id|done]. exists w', (filled next batch). split; [done|]. by apply filled_reading.
  - destruct Hr as (id & left0 & -> & -> & Hh). destruct (service_more _ _ _ Hh) as (batch & next & left & w' & -> & -> & Hne & Hc).
    cbn [app] in *. apply Forall_app in Hl as [Hl _]. rewrite parse_batch; [|by eapply continues_id|done]. exists w', (filled next batch). split; [done|].
    by apply filled_reading.
Qed.

Lemma reading_more w c l fuel :
  reading w c l → Forall identified l → (1 ≤ fuel)%nat →
  ∃ w' c', hasNext execute q fuel (w, c) = (Ok (match buffer c' with [] => false | _ => true end), (w', c')) ∧ reading w' c' l ∧
    (buffer c' ≠ [] ∨ cursorId c' = NoMore).
Proof using serves.
  assert (∀ w c l fuel, reading w c l → buffer c ≠ [] ∨ cursorId c = NoMore →
    hasNext execute q fuel (w, c) = (Ok (match buffer c with [] => false | _ => true end), (w, c))) as Hstop.
  { clear w c l fuel. intros w c l fuel [Hc _] He. destruct fuel; cbn [hasNext]; unfold this, st_get, mbind, st_bind; cbn [fst snd]; unfold Datatypes.id;
      (destruct (buffer c); [|done]); rewrite Hc; (destruct He as [He| ->]; [done|done]). }
  intros Hr Hl Hf. destruct (buffer c) as [|d b] eqn:Eb; [destruct (cursorId c) eqn:Ei|].
  2, 4: exists w, c; split; [|split; [done|]]; [apply (Hstop w c l); [done|]|]; rewrite ?Eb, ?Ei; auto.
  all: destruct fuel as [|fuel]; [lia|]; destruct (fetchBatch_reads w c l Hr Eb ltac:(congruence) Hl) as (w' & c' & Ef & Hr' & He).
  all: exists w', c'; split; [|by split]; cbn [hasNext]; unfold this, st_get; unfold mbind at 1, st_bind at 1; cbn [fst snd]; unfold Datatypes.id.
  all: rewrite Eb, (proj1 Hr), Ei; unfold mbind, st_bind; rewrite Ef; by apply (Hstop w' c' l).
Qed.

(** The next document. *)
Lemma next_reads w c l fuel :
  reading w c l → Forall identified l → (1 ≤ fuel)%nat →
  ∃ w' c', next execute q fuel (w, c) = (Ok (head l), (w', c')) ∧ reading w' c' (tail l).
Proof using serves.
  intros Hr Hl Hf. destruct (reading_more w c l fuel Hr Hl Hf) as (w' & c' & E & [Hc Hr'] & He).
  unfold next, mbind, st_bind. rewrite E. destruct c' as [buffer' cursorId' closed']. cbn in Hc, Hr', He |- *. subst closed'.
  destruct buffer' as [|d b].
  - destruct He as [He| ->]; [done|]. destruct Hr' as [-> Hi]. exists w', {| FindCursor.buffer := []; cursorId := NoMore; closed := false |}. split; [done|]. by split.
  - exists w', {| FindCursor.buffer := b; cursorId := cursorId'; closed := false |}.
    destruct cursorId' as [| |n]; [by destruct Hr'| |].
    + destruct Hr' as [-> Hi]. split; [done|]. by split.
    + destruct Hr' as (id & left & -> & -> & Hh). split; [done|]. split; [done|]. by exists id, left.
Qed.

(** Closing leaves nothing behind. *)
Lemma close_reads w c l : reading w c l →
  ∃ w', close execute (w, c) = (Ok (), (w', {| buffer := []; cursorId := NoMore; closed := true |})) ∧ idle w'.
Proof using serves.
  intros [Hc Hr]. unfold close, this, send, update, st_get, st_update, mbind, st_bind. cbn [fst snd]. unfold Datatypes.id. rewrite Hc.
  destruct (cursorId c) as [| |n].
  - exists w. split; [done|]. apply Hr.
  - exists w. split; [done|]. apply Hr.
  - destruct Hr as (i & left & -> & _ & Hh). destruct (service_close _ _ _ Hh) as (v & w' & E & Hi). exists w'.
    cbn [fst snd]. rewrite E. by split.
Qed.

Lemma finally_reads {A} (m : ST (W * FindCursor) SinterError A) w c l r w' c' :
  m (w, c) = (r, (w', c')) → reading w' c' l →
  ∃ w1, finally m (close execute) (w, c) = (r, (w1, {| buffer := []; cursorId := NoMore; closed := true |})) ∧ idle w1.
Proof using serves.
  intros Hm Hr. unfold finally. rewrite Hm. destruct (close_reads w' c' l Hr) as (w1 & -> & Hi). by exists w1.
Qed.

Lemma read_loop_reads n fuel w c l results :
  reading w c l → Forall identified l → (1 ≤ fuel)%nat → (length l ≤ n)%nat →
  ∃ w' c', read_loop execute q n fuel results (w, c) = (Ok (results ++ l), (w', c')) ∧ reading w' c' [].
Proof using serves.
  revert w c l results. induction n as [|n IH]; intros w c l results Hr Hl Hf Hn; cbn [read_loop]; unfold mbind, st_bind;
    destruct (next_reads w c l fuel Hr Hl Hf) as (w' & c' & -> & Hr'); destruct l as [|d l]; cbn [head tail] in *.
  1, 3: exists w', c'; split; [by rewrite app_nil_r|done].
  - cbn in Hn. lia.
  - apply Forall_cons in Hl as [_ Hl]. destruct (IH w' c' l (results ++ [d]) Hr' Hl Hf ltac:(cbn in Hn; lia)) as (w1 & c1 & -> & Hr1).
    exists w1, c1. split; [|done]. by rewrite <- app_assoc.
Qed.

Lemma iterate_loop_reads n fuel w c l results :
  reading w c l → Forall identified l → (1 ≤ fuel)%nat →
  ∃ w' c', iterate_loop execute q n fuel results (w, c) = (Ok (results ++ take (S n) l), (w', c')) ∧ reading w' c' (drop (S n) l).
Proof using serves.
  revert w c l results. induction n as [|n IH]; intros w c l results Hr Hl Hf; cbn [iterate_loop]; unfold mbind, st_bind;
    destruct (next_reads w c l fuel Hr Hl Hf) as (w' & c' & -> & Hr'); destruct l as [|d l]; cbn [head tail] in *.
  1, 3: exists w', c'; split; [by rewrite app_nil_r|done].
  - exists w', c'. cbn [take drop]. by rewrite ?take_0, ?drop_0.
  - apply Forall_cons in Hl as [_ Hl]. destruct (IH w' c' l (results ++ [d]) Hr' Hl Hf) as (w1 & c1 & -> & Hr1).
    exists w1, c1. split; [|done]. by rewrite <- app_assoc.
Qed.
End Client.

(** ** The dispatcher of commands as a server of cursors *)
Module Server := Dispatcher.Dispatcher.
Module Cat := Catalog.Catalog.
Abbreviation ServerState := (Scans.Scans.World * Cursors.Cursors.CursorManager nat)%type.

(** What the driver gets for an error of the dispatcher: session.ts answers with its
    code and name, or with an internal error. *)
Definition server_failure (e : ServerErrors.ServerError) : SinterError :=
  SinterServerError (server_error_fields
    match e with
    | CommandError e => Session.error_payload (ServerErrors.error_code e) (error_name e) (error_message e) (error_details e)
    | _ => Session.error_payload WireErrorCode.InternalError (js "InternalError")
             (js "The server failed to execute the command.") None
    end).

Section Service.
Context (osL osC : Z → Call → Outcome).
Context (describe : exn → jsstring) (detail : IndexSet.IndexSet.IndexIssue → jsstring).
Context (m : Server.Moment) (database : jsstring) (q : Query).

(** [executeCommand] of a database, with the dispatcher at the other end. *)
Definition execute (command : jsstring) (parameters : Document) : ST ServerState SinterError DocumentValue := λ s,
  let (r, s) := Server.dispatch osL osC describe detail m
    {| Server.command := command; Server.database := Some database; Server.parameters := parameters |} s in
  (match r with Ok v => Ok v | Throw e => Throw (server_failure e) end, s).

(** Options that the types of the driver allow and the server accepts. *)
Definition valid_query : bool :=
  match batchSize q with
  | Some n => Cursors.Cursors.positive n && (Z_of_number n <=? Server.MAX_CURSOR_BATCH_SIZE)
  | None => true
  end &&
  match skip (query q) with Some n => isSafeInteger n && (0 <=? Z_of_number n) | None => true end &&
  match limit (query q) with Some n => isSafeInteger n && (1 <=? Z_of_number n) | None => true end.

(** The options of the query for the collection. *)
Definition specification : option Sort.Sort.SortSpecification :=
  map (λ pd : jsstring * number, (pd.1, if isInteger pd.2 then Z_of_number pd.2 else 0)) <$> sort (query q).

Definition storage_options : Collection.Collection.StorageFindOptions := {|
  Collection.Collection.find_sort := specification;
  Collection.Collection.find_skip := skip (query q);
  Collection.Collection.find_limit := limit (query q) |}.

Lemma valid_batch : valid_query = true → ∀ parameters, obj_get parameters (js "batchSize") = VNumber <$> batchSize q →
  Server.optionalBatchSize parameters = Ok (batchSize q).
Proof using.
  unfold valid_query. rewrite !andb_true_iff. intros [[H1 _] _] parameters Hp. unfold Server.optionalBatchSize. rewrite Hp.
  destruct (batchSize q) as [n|]; [|done]. cbn. apply andb_true_iff in H1 as [Hn Hm%Z.leb_le]. change (Server.Cursor.positive n) with (Cursors.Cursors.positive n).
  rewrite Hn. cbn. by destruct (Z.ltb_spec Server.MAX_CURSOR_BATCH_SIZE (Z_of_number n)); [lia|].
Qed.

Lemma valid_size_of : valid_query = true → valid_size (batchSize q) = true.
Proof using.
  unfold valid_query. rewrite !andb_true_iff. intros [[H1 _] _]. unfold valid_size. destruct (batchSize q) as [n|]; [|done].
  by apply andb_true_iff in H1 as [Hn _].
Qed.

Lemma find_parameters_get :
  obj_get (find_parameters q) (js "collection") = Some (VString (collection q)) ∧
  obj_get (find_parameters q) (js "filter") = Some (VDoc (filter q)) ∧
  obj_get (find_parameters q) (js "batchSize") = VNumber <$> batchSize q ∧
  obj_get (find_parameters q) (js "sort") = sort_value <$> sort (query q) ∧
  obj_get (find_parameters q) (js "skip") = VNumber <$> skip (query q) ∧
  obj_get (find_parameters q) (js "limit") = VNumber <$> limit (query q).
Proof using.
  unfold find_parameters, given. destruct (batchSize q), (sort (query q)), (skip (query q)), (limit (query q)); by repeat split.
Qed.

Lemma valid_integer parameters name minimum (value : option number) :
  obj_get parameters name = VNumber <$> value →
  match value with Some n => isSafeInteger n && (minimum <=? Z_of_number n) | None => true end = true →
  Server.optionalIntegerParameter parameters name minimum = Ok value.
Proof using.
  intros Hp Hv. unfold Server.optionalIntegerParameter. rewrite Hp. destruct value as [n|]; [|done]. cbn [fmap option_fmap option_map].
  apply andb_true_iff in Hv as [-> Hm%Z.leb_le]. cbn [negb orb]. by destruct (Z.ltb_spec (Z_of_number n) minimum); [lia|].
Qed.

Lemma find_options :
  valid_query = true →
  Server.parseFindOptions (find_parameters q) =
    Ok {| Server.sort := map (λ pd : jsstring * number, VArray [VString pd.1; VNumber pd.2]) <$> sort (query q);
          Server.skip := skip (query q); Server.limit := limit (query q) |}.
Proof using.
  unfold valid_query. rewrite !andb_true_iff. intros [[_ H1] H2]. destruct find_parameters_get as (_ & _ & _ & E1 & E2 & E3).
  unfold Server.parseFindOptions. rewrite (valid_integer _ _ 0 _ E2 H1), (valid_integer _ _ 1 _ E3 H2), E1.
  by destruct (sort (query q)).
Qed.

Lemma specification_sort :
  sort_of (map (λ pd : jsstring * number, VArray [VString pd.1; VNumber pd.2]) <$> sort (query q)) specification.
Proof using.
  unfold specification, sort_of. destruct (sort (query q)) as [l|]; [|done]. cbn. induction l as [|[p d] l IH]; [done|].
  cbn [map]. change (mapM Scans.Scans.sort_entry (VArray [VString (p, d).1; VNumber (p, d).2] :: map (λ pd : jsstring * number, VArray [VString pd.1; VNumber pd.2]) l))
    with (y ← Scans.Scans.sort_entry (VArray [VString p; VNumber d]);
          k ← mapM Scans.Scans.sort_entry (map (λ pd : jsstring * number, VArray [VString pd.1; VNumber pd.2]) l); mret (y :: k)).
  by rewrite IH.
Qed.

(** *** Batches and the end of a cursor *)
Lemma execute_more id s : valid_query = true → 1 ≤ id ≤ MAX_SAFE_INTEGER →
  match Cursors.Cursors.getMore Scans.Scans.next (number_of_Z id) (batchSize q) (Server.sweep m) (Server.now m) s.1 s.2 with
  | (Ok b, s') => execute (js "getMore") (getMore_parameters q (number_of_Z id)) s = (Ok (VDoc (Server.toBatchDocument b)), s')
  | (Throw _, _) => True
  end.
Proof using.
  intros Hq Hid. destruct (positive_id id Hid) as [Hp _]. unfold execute.
  change (Server.dispatch osL osC describe detail m {| Server.command := js "getMore"; Server.database := Some database;
    Server.parameters := getMore_parameters q (number_of_Z id) |})
    with (d ← Server.getMore describe m {| Server.command := js "getMore"; Server.database := Some database;
      Server.parameters := getMore_parameters q (number_of_Z id) |}; mret (M := ST ServerState ServerErrors.ServerError) (VDoc d)).
  unfold Server.getMore. cbn [Server.parameters].
  assert (Server.requireCursorId (getMore_parameters q (number_of_Z id)) = Ok (number_of_Z id)) as ->.
  { transitivity (if Server.Cursor.positive (number_of_Z id) then Ok (number_of_Z id)
      else Server.invalid_parameter (js "cursorId") (js " must be a positive integer.")); [done|].
    change (Server.Cursor.positive (number_of_Z id)) with (Cursors.Cursors.positive (number_of_Z id)). by rewrite Hp. }
  rewrite (valid_batch Hq) by (unfold getMore_parameters, given; by destruct (batchSize q)).
  unfold Server.rethrow, st_catch, Server.require, st_lift, Server.more_of_cursor, mbind, st_bind. destruct s as [w cs]. cbn [fst snd].
  by destruct (Cursors.Cursors.getMore _ _ _ _ _ _ _) as [[b|e] s'].
Qed.

Lemma execute_close id s : 1 ≤ id ≤ MAX_SAFE_INTEGER →
  ∃ v, execute (js "closeCursor") [(js "cursorId", VNumber (number_of_Z id))] s =
    (Ok v, (s.1, Cursors.Cursors.set_cursors (delete id (Cursors.Cursors.cursors s.2)) s.2)).
Proof using.
  intros Hid. destruct (positive_id id Hid) as [Hp Hz]. unfold execute. destruct s as [w cs].
  eexists. change (Server.dispatch osL osC describe detail m {| Server.command := js "closeCursor"; Server.database := Some database;
    Server.parameters := [(js "cursorId", VNumber (number_of_Z id))] |})
    with (d ← Server.closeCursor {| Server.command := js "closeCursor"; Server.database := Some database;
      Server.parameters := [(js "cursorId", VNumber (number_of_Z id))] |}; mret (M := ST ServerState ServerErrors.ServerError) (VDoc d)).
  unfold Server.closeCursor. cbn [Server.parameters].
  assert (Server.requireCursorId [(js "cursorId", VNumber (number_of_Z id))] = Ok (number_of_Z id)) as ->.
  { transitivity (if Server.Cursor.positive (number_of_Z id) then Ok (number_of_Z id)
      else Server.invalid_parameter (js "cursorId") (js " must be a positive integer.")); [done|].
    change (Server.Cursor.positive (number_of_Z id)) with (Cursors.Cursors.positive (number_of_Z id)). by rewrite Hp. }
  unfold Server.require, st_lift, Server.close_cursor, Server.Cursor.close, Server.Cursor.validateCursorId, mbind, st_bind.
  change (Server.Cursor.positive (number_of_Z id)) with (Cursors.Cursors.positive (number_of_Z id)). rewrite Hp, Hz. done.
Qed.

Section Table.
Context (idleTime : Z) (before : gmap Z (list Document * Z)).

(** The cursors that are forgotten are those not used for the idle time. *)
Definition current (t : gmap Z (list Document * Z)) : gmap Z (list Document * Z) := used_after (Server.sweep m - idleTime) t.

Definition server_table (s : ServerState) : gmap Z (list Document * Z) := table_of rest s.1 s.2.

Record in_order (s : ServerState) : Prop := {
  order_manager : manager_ok sound s.1 s.2;
  order_idle : Cursors.Cursors.idleTimeoutMS s.2 = idleTime;
}.

(** The cursors are those of [before], and maybe that of the query. *)
Definition server_idle (s : ServerState) : Prop := in_order s ∧ current (server_table s) = before.

Definition server_has (s : ServerState) (id : Z) (l : list Document) : Prop :=
  in_order s ∧ 1 ≤ id ≤ MAX_SAFE_INTEGER ∧ l ≠ [] ∧ before !! id = None ∧
  server_table s = <[id := (l, Server.now m)]> before.

Context (Hq : valid_query = true) (Hbefore : current before = before) (Hnow : Server.sweep m - idleTime < Server.now m).

Lemma current_insert id l : current (<[id := (l, Server.now m)]> before) = <[id := (l, Server.now m)]> before.
Proof using Hbefore Hnow.
  unfold current, used_after in *. rewrite map_filter_insert_True by (cbn; lia). by rewrite Hbefore.
Qed.

(** What the server has after a batch of the cursor [id], or of a new one. *)
Lemma service_continues s next left id :
  in_order s → before !! id = None → 1 ≤ id ≤ MAX_SAFE_INTEGER →
  match next with
  | None => left = [] ∧ server_table s = before
  | Some id' => id' = id ∧ left ≠ [] ∧ server_table s = <[id := (left, Server.now m)]> before
  end → continues server_idle server_has next left s.
Proof using Hbefore.
  intros Ho Hb Hid Hn. destruct next as [id'|]; cbn.
  - destruct Hn as (-> & Hl & Ht). by split.
  - destruct Hn as [-> Ht]. split; [done|]. split; [done|]. by rewrite Ht.
Qed.

#[export] Instance dispatcher_service : CursorService execute q server_idle server_has.
Proof using Hq Hbefore Hnow.
  split.
  - intros s id l (_ & Hid & Hl & _). by split.
  - intros s id l ([Hm Hi] & Hid & Hl & Hb & Ht). destruct (positive_id id Hid) as [Hp Hz]. pose proof (execute_more id s Hq Hid) as He.
    pose proof (cursor_more_outcome Scans.Scans.next sound rest (number_of_Z id) (batchSize q) (Server.sweep m) (Server.now m) s.1 s.2 Hm Hp (valid_size_of Hq)) as Ho.
    cbv zeta in Ho. rewrite Hz in Ho. fold (server_table s) in Ho. rewrite Hi, Ht in Ho. fold (current (<[id:=(l, Server.now m)]> before)) in Ho.
    rewrite current_insert, lookup_insert_eq in Ho.
    destruct (Cursors.Cursors.getMore _ _ _ _ _ _ _) as [[[next batch]|e] [w' cs']]; [|by destruct Ho as (_ & ? & _)].
    destruct Ho as (Hm' & Hi' & _ & l' & used & left & [= <- <-] & (-> & _ & Hne) & Hn).
    cbn [fst snd Cursors.Cursors.cursorId Cursors.Cursors.documents] in *.
    exists batch, next, left, (w', cs'). split; [exact He|]. split; [done|]. split; [intros ->; by rewrite Hne in Hl|].
    apply (service_continues (w', cs') next left id); [by split|done|done|]. unfold server_table. cbn [fst snd]. destruct next as [id'|].
    + destruct Hn as (-> & Hleft & Hn). by rewrite Hn, insert_insert_eq.
    + destruct Hn as [-> Hn]. by rewrite Hn, delete_insert_id.
  - intros s id l ([Hm Hi] & Hid & Hl & Hb & Ht). destruct (execute_close id s Hid) as [v He]. exists v. eexists. split; [exact He|].
    assert (server_table (s.1, Cursors.Cursors.set_cursors (delete id (Cursors.Cursors.cursors s.2)) s.2) = before) as Hd.
    { unfold server_table, table_of. cbn. rewrite fmap_delete. unfold server_table, table_of in Ht. rewrite Ht. by rewrite delete_insert_id. }
    split; [split; [|done]|by rewrite Hd]. cbn. by apply (manager_delete sound s.1); [|apply Hm].
Qed.
End Table.

(** *** The first batch *)
Lemma current_idem idleTime t : current idleTime (current idleTime t) = current idleTime t.
Proof using. unfold current, used_after. apply map_filter_filter_l. intros i x Hx Hp. exact Hp. Qed.

Section Find.
Context (w : Scans.Scans.World) (cs : Cursors.Cursors.CursorManager nat) (c : Engine.Engine.InMemoryCollection ()).
Context (Hw : world_ok w) (Hcs : session_cursors w cs) (Hq : valid_query = true) (Hf : wf_value (VDoc (filter q)) = true).
Context (Hsize : Z.of_nat (base.size (Cursors.Cursors.cursors cs)) < MAX_SAFE_INTEGER).
Context (Hc : Cat.getCollection (Scans.Scans.catalog w) database (collection q) = Ok (Some c)).

Abbreviation idleTime := (Cursors.Cursors.idleTimeoutMS cs).
Abbreviation before := (current idleTime (server_table (w, cs))).

Lemma named : is_blank (collection q) = false ∧ Cat.find_collection (Scans.Scans.catalog w) database (collection q) = Some c.
Proof using Hc.
  unfold Cat.getCollection in Hc. apply bind_Ok_inv in Hc as (u & _ & (u' & Hn & [= He])%bind_Ok_inv). split; [|done].
  unfold Cat.validateCollectionName, Cat.validateName in Hn. by destruct (is_blank (collection q)).
Qed.

(** The command that opens the iterator and the cursor over it. *)
Lemma execute_find :
  execute (js "find") (find_parameters q) (w, cs) =
  match Scans.Scans.find database (collection q) (filter q) (map (λ pd : jsstring * number, VArray [VString pd.1; VNumber pd.2]) <$> sort (query q))
          (skip (query q)) (limit (query q)) w with
  | (Throw e, w') => (Throw (server_failure (Server.translate describe (StorageFailure e))), (w', cs))
  | (Ok i, w') =>
      match Cursors.Cursors.open Scans.Scans.next i (batchSize q) (Server.sweep m) (Server.now m) w' cs with
      | (Throw e, s) => (Throw (server_failure (Server.translate describe e)), s)
      | (Ok b, s) => (Ok (VDoc (Server.toBatchDocument b)), s)
      end
  end.
Proof using Hq Hc.
  unfold execute. change (Server.dispatch osL osC describe detail m {| Server.command := js "find"; Server.database := Some database;
    Server.parameters := find_parameters q |})
    with (d ← Server.find describe m {| Server.command := js "find"; Server.database := Some database;
      Server.parameters := find_parameters q |}; mret (M := ST ServerState ServerErrors.ServerError) (VDoc d)).
  destruct find_parameters_get as (E1 & E2 & E3 & _). destruct named as [Hb _].
  unfold Server.find. cbn [Server.parameters].
  assert (Server.requireStringParameter (find_parameters q) (js "collection") = Ok (collection q)) as ->
    by (unfold Server.requireStringParameter; by rewrite E1, Hb).
  assert (Server.requireDocumentParameter (find_parameters q) (js "filter") = Ok (filter q)) as ->
    by (unfold Server.requireDocumentParameter; by rewrite E2).
  rewrite (valid_batch Hq _ E3), (find_options Hq). unfold Server.requireDatabase. cbn [Server.database Server.sort Server.skip Server.limit].
  unfold Server.rethrow, st_catch, Server.require, st_lift, Server.getCollection, Server.in_world, Scans.Scans.on_catalog, Server.open_cursor, st_throw, mbind, st_bind.
  rewrite Hc. destruct (Scans.Scans.find _ _ _ _ _ _ _) as [[i|e] w']; [|done]. cbn [from_storage].
  by destruct (Cursors.Cursors.open _ _ _ _ _ _ _) as [[b|e] s'].
Qed.

Lemma opened_table s i : s = Scans.Scans.set_scans (Scans.Scans.scans w ++ [i]) w → server_table (s, cs) = server_table (w, cs).
Proof using Hcs.
  intros ->. unfold server_table, table_of. cbn [fst snd]. apply map_eq. intros id. rewrite !lookup_fmap.
  destruct (Cursors.Cursors.cursors cs !! id) as [st|] eqn:Est; [|done]. cbn. do 2 f_equal. unfold pending. f_equal.
  apply opened_rest. by eapply session_iterators.
Qed.

Lemma find_begins :
  match Collection.Collection.find (VDoc (filter q)) storage_options c with
  | Ok l => begins execute q (server_idle idleTime before) (server_has idleTime before) (w, cs) l
  | Throw e => execute (js "find") (find_parameters q) (w, cs) =
      (Throw (server_failure (Server.translate describe (StorageFailure e))), (w, cs))
  end.
Proof using Hw Hcs Hq Hf Hsize Hc.
  destruct named as [_ Hfound]. pose proof execute_find as He.
  pose proof (find_opens database (collection q) (filter q) _ storage_options w specification_sort Hf) as Ho.
  cbn [Collection.Collection.find_skip Collection.Collection.find_limit storage_options] in Ho.
  destruct (Scans.Scans.find _ _ _ _ _ _ _) as [[i|e] w']; [|destruct Ho as [-> Ho]; by rewrite Ho].
  destruct Ho as (s & -> & Ew & Hs & Hp & Hdb & Hcoll & Hall). rewrite (Hall c).
  destruct (world_collections _ Hw _ _ _ Hfound) as [v Hv].
  destruct (drain_ok s c v Hs Hv) as [l Hl]. rewrite drain_fresh with (v := v) in Hl by done. rewrite Hl.
  destruct (opened_session w s Hw Hs cs Hcs) as [[Hm _] Hu]. rewrite <- Ew in Hm.
  assert (rest w' (length (Scans.Scans.scans w)) = l) as Hr.
  { rewrite Ew, opened_new. unfold drain_in, collection_of. rewrite Hdb, Hcoll, Hfound, drain_fresh with (v := v) by done. by rewrite Hl. }
  pose proof (cursor_open_outcome Scans.Scans.next sound rest (length (Scans.Scans.scans w)) (batchSize q) (Server.sweep m) (Server.now m) w' cs Hm Hsize Hu (valid_size_of Hq)) as Hopen.
  cbv zeta in Hopen. rewrite Hr in Hopen. change (table_of rest w' cs) with (server_table (w', cs)) in Hopen. rewrite (opened_table w' s Ew) in Hopen.
  destruct (Cursors.Cursors.open _ _ _ _ _ _ _) as [[[next batch]|e] [w1 cs1]]; [|done].
  destruct Hopen as (Hm1 & Hi1 & _ & left & (-> & _ & Hne) & Hn). cbn [fst snd Cursors.Cursors.cursorId Cursors.Cursors.documents] in *.
  exists batch, next, left, (w1, cs1). split; [exact He|]. split; [done|]. split; [done|].
  destruct next as [id|]; cbn [continues].
  - destruct Hn as (Hleft & Hid & Hr1 & Ht). split; [by split|]. by split.
  - destruct Hn as [-> Ht]. split; [done|]. split; [by split|]. change (server_table (w1, cs1)) with (table_of rest w1 cs1). rewrite Ht. apply current_idem.
Qed.
End Find.
End Service.

(** *** The documents of a query *)
Lemma slice_members l skip limit d : d ∈ Collection.Collection.slice l skip limit → d ∈ l.
Proof.
  unfold Collection.Collection.slice. cbv zeta. intros H.
  assert (d ∈ skipn (Z.to_nat (Z.min skip (len l))) l) as H'
    by (destruct limit; [eapply elem_of_sublist; [exact H|apply sublist_take]|exact H]).
  eapply elem_of_sublist; [exact H'|apply sublist_drop].
Qed.

(** The driver takes every document of a query for one. *)
Lemma find_identified (c : Engine.Engine.InMemoryCollection ()) v fields options l :
  coll_ok c v → wf_value (VDoc fields) = true → Collection.Collection.find (VDoc fields) options c = Ok l → Forall identified l.
Proof.
  intros Hc Hw Hl. rewrite (find_spec _ c v _ _ Hc Hw) in Hl. unfold find_reference in Hl.
  apply bind_Ok_inv in Hl as (matches & _ & (sorter & Hs & (sk & _ & (li & _ & [= <-])%bind_Ok_inv)%bind_Ok_inv)%bind_Ok_inv).
  apply Forall_forall. intros d Hd%slice_members.
  assert (d ∈ map snd v) as Hin.
  { enough (d ∈ List.filter (matched matches) (map snd v)) as H.
    { apply list_elem_of_In, filter_In in H as [H _]. by apply list_elem_of_In. }
    destruct (Collection.Collection.find_sort options); [by rewrite (Sort.compileSort_perm _ _ _ Hs) in Hd|by injection Hs as <-]. }
  apply list_elem_of_fmap in Hin as ([k d'] & -> & Hin). pose proof (view_entry_ok _ _ _ Hc) as Hv. rewrite Forall_forall in Hv.
  destruct (Hv _ Hin) as (_ & i & Hi & _). unfold identified, Results.parseDocument. cbn [snd] in *. by rewrite Hi.
Qed.

(** *** What a user of the driver gets *)
Definition ended : FindCursor := {| buffer := []; cursorId := NoMore; closed := true |}.

Section Reads.
Context (osL osC : Z → Call → Outcome).
Context (describe : exn → jsstring) (detail : IndexSet.IndexSet.IndexIssue → jsstring).
Context (m : Server.Moment) (database : jsstring) (q : Query).
Context (w : Scans.Scans.World) (cs : Cursors.Cursors.CursorManager nat) (c : Engine.Engine.InMemoryCollection ()).
Abbreviation idleTime := (Cursors.Cursors.idleTimeoutMS cs).

(** A query of a collection of the server, at a time when a cursor that was just used
    is not idle. *)
Record queried : Prop := {
  query_world : world_ok w;
  query_cursors : session_cursors w cs;
  query_size : Z.of_nat (base.size (Cursors.Cursors.cursors cs)) < MAX_SAFE_INTEGER;
  query_now : Server.sweep m - idleTime < Server.now m;
  query_valid : valid_query q = true;
  query_filter : wf_value (VDoc (filter q)) = true;
  query_collection : Cat.getCollection (Scans.Scans.catalog w) database (collection q) = Ok (Some c);
}.

(** The cursors that were there and are not forgotten are as they were. *)
Definition same_table (s : ServerState) : Prop :=
  current m idleTime (server_table s) = current m idleTime (server_table (w, cs)).

Abbreviation execute := (execute osL osC describe detail m database).

(** The loops of the driver over a query that is answered: they run over a reading
    of its documents, on a server whose cursors have no trace of it. *)
Lemma loop_reads {A} (loop : ST (ServerState * FindCursor) SinterError A) r l :
  queried → Collection.Collection.find (VDoc (filter q)) (storage_options q) c = Ok l →
  (∀ idle has (serves : CursorService execute q idle has),
    Forall identified l → reading execute q idle has (w, cs) new l →
    ∃ s' c' l', loop ((w, cs), new) = (r, (s', c')) ∧ reading execute q idle has s' c' l') →
  ∃ s, finally loop (close execute) ((w, cs), new) = (r, (s, ended)) ∧ same_table s.
Proof using.
  intros [Hw Hcs Hsize Hnow Hq Hf Hc] Hl Hloop.
  pose proof (find_begins osL osC describe detail m database q w cs c Hw Hcs Hq Hf Hsize Hc) as Hb. rewrite Hl in Hb.
  pose proof (current_idem m idleTime (server_table (w, cs))) as Hi.
  assert (server_idle m idleTime (current m idleTime (server_table (w, cs))) (w, cs)) as Hidle.
  { split; [|done]. split; [apply Hcs|done]. }
  destruct (named database q w c Hc) as [_ Hfound]. destruct (world_collections _ Hw _ _ _ Hfound) as [v Hv].
  pose proof (dispatcher_service osL osC describe detail m database q idleTime _ Hq Hi Hnow) as serves.
  destruct (Hloop _ _ serves (find_identified c v _ _ l Hv Hf Hl)) as (s' & c' & l' & E & Hr).
  { split; [done|]. by split. }
  destruct (finally_reads execute q _ _ loop (w, cs) new l' r s' c' E Hr) as (s1 & E1 & _ & Hi1). by exists s1.
Qed.

(** A query that the collection refuses. *)
Lemma loop_refused {A} (loop : ST (ServerState * FindCursor) SinterError A) e fuel (rest : option Document → ST (ServerState * FindCursor) SinterError A) :
  queried → Collection.Collection.find (VDoc (filter q)) (storage_options q) c = Throw e → (1 ≤ fuel)%nat →
  loop = (d ← next execute q fuel; rest d) →
  finally loop (close execute) ((w, cs), new) =
    (Throw (server_failure (Server.translate describe (StorageFailure e))), ((w, cs), ended)).
Proof using.
  intros [Hw Hcs Hsize Hnow Hq Hf Hc] Hl Hfuel ->.
  pose proof (find_begins osL osC describe detail m database q w cs c Hw Hcs Hq Hf Hsize Hc) as Hb. rewrite Hl in Hb.
  destruct fuel as [|fuel]; [lia|]. unfold finally, next. cbn [hasNext].
  unfold fetchBatch, this, send, update, st_get, st_update, st_lift, mbind, st_bind. cbn [fst snd new buffer cursorId closed]. unfold Datatypes.id.
  cbn [fst snd new buffer cursorId closed]. by rewrite Hb.
Qed.

(** C10: [toArray] returns the documents that the collection returns for the query, in
    order, each once, whatever the size of the batches, or throws the error of the
    server for a query that is refused. Afterwards the server has no cursor of it, and
    the other cursors are as they were. *)
Theorem driver_reads n fuel :
  queried → (1 ≤ fuel)%nat →
  match Collection.Collection.find (VDoc (filter q)) (storage_options q) c with
  | Ok l => (length l ≤ n)%nat →
      ∃ s, toArray execute q n fuel ((w, cs), new) = (Ok l, (s, ended)) ∧ same_table s
  | Throw e => toArray execute q n fuel ((w, cs), new) =
      (Throw (server_failure (Server.translate describe (StorageFailure e))), ((w, cs), ended))
  end.
Proof using.
  intros Hc Hfuel. destruct (Collection.Collection.find _ _ _) as [l|e] eqn:Hl.
  - intros Hn. apply (loop_reads _ _ l Hc Hl). intros idle has serves Hi Hr.
    destruct (read_loop_reads execute q idle has n fuel (w, cs) new l [] Hr Hi Hfuel Hn) as (s' & c' & E & Hr'). by exists s', c', [].
  - eapply (loop_refused _ e fuel); [done..|]. by destruct n.
Qed.

(** A loop over the documents of a query that is left early gets those it asked
    for, and closes the cursor: the server has no cursor of it, and the other cursors
    are as they were. *)
Lemma driver_leaves_early n fuel l :
  queried → (1 ≤ fuel)%nat → Collection.Collection.find (VDoc (filter q)) (storage_options q) c = Ok l →
  ∃ s, iterate execute q n fuel ((w, cs), new) = (Ok (take (S n) l), (s, ended)) ∧ same_table s.
Proof using.
  intros Hc Hfuel Hl. apply (loop_reads _ _ l Hc Hl). intros idle has serves Hi Hr.
  destruct (iterate_loop_reads execute q idle has n fuel (w, cs) new l [] Hr Hi Hfuel) as (s' & c' & E & Hr'). by exists s', c', (drop (S n) l).
Qed.
End Reads.

(** ** The opening of a connection *)

(** A message whose payload is what a message can have, and its frame. *)
Definition framed (kind id : Z) (payload : Document) (data : bytes) : Prop :=
  wf_value (VDoc payload) = true ∧ bom_free (VDoc payload) = true ∧ Session.encode kind id payload = Ok data.

(** A frame that comes to a decoder with nothing pending. *)
Lemma framed_pushed kind id payload data d :
  framed kind id payload data → 0 ≤ id ≤ MAX_REQUEST_ID → wf_decoder d → Streams.contents d = [] →
  ∃ m d', Stream.push d data = (Ok [m], d') ∧ wf_decoder d' ∧ Streams.contents d' = [] ∧
    Message.kind m = kind ∧ Message.requestId m = id ∧ (∀ k, obj_get (Message.payload m) k = norm <$> obj_get payload k).
Proof.
  intros (Hw & Hb & E) Hid Hd Hc.
  destruct (message_pushed {| Message.in_kind := kind; Message.in_requestId := number_of_Z id;
    Message.in_payload := payload; Message.in_flags := None |} data d Hw Hb E Hd Hc) as (m & d' & Ep & [_ T2 _ T4 _ T6] & Hd' & Hc').
  exists m, d'. split; [exact Ep|]. split; [exact Hd'|]. split; [exact Hc'|]. split; [exact T2|]. split; [|exact T6].
  rewrite T4. cbn. apply Z_of_number_of_Z. unfold MAX_REQUEST_ID in Hid. lia.
Qed.

Section Opening.
Context (osL osC : Z → Call → Outcome).
Context (describe : exn → jsstring) (detail : IndexSet.IndexSet.IndexIssue → jsstring).
Context (self : nat) (product productVersion : jsstring) (options : Handshake.ClientHandshakeOptions).

(** The server's part of the handshake. *)
Definition server_handshake : Document :=
  [(js "role", VString (js "server")); (js "protocolVersion", Server.number_value PROTOCOL_VERSION);
   (js "product", VString product); (js "productVersion", VString productVersion);
   (js "capabilities", VArray Server.capabilities)].

(** What the client knows of the server then. *)
Definition agreed : Handshake.ServerHandshake := {|
  Handshake.protocolVersion := number_of_Z PROTOCOL_VERSION; Handshake.server_product := product;
  Handshake.server_productVersion := productVersion;
  Handshake.server_capabilities := [js "typed-documents"; js "streaming"] |}.

(** The session, when the message of the client was read. *)
Lemma session_opens m reply x :
  Message.kind m = MessageKind.Handshake → Message.requestId m = Handshake.CLIENT_HANDSHAKE_REQUEST_ID →
  (∀ k, obj_get (Message.payload m) k = norm <$> obj_get (Handshake.handshake_payload options) k) →
  Session.encode MessageKind.Handshake Handshake.CLIENT_HANDSHAKE_REQUEST_ID server_handshake = Ok reply →
  Session.holding x.2 = false →
  Session.handleHandshake product productVersion m x =
    (Ok (), (x.1, Session.set_state Session.Ready (Session.set_socket (Session.socket_write reply (Session.socket x.2)) x.2))).
Proof using.
  intros K I G Hr Hh. unfold Session.handleHandshake. cbv zeta. rewrite K, I.
  assert (obj_get (Message.payload m) (js "role") = Some (VString (js "client"))) as -> by (by rewrite G).
  assert (obj_get (Message.payload m) (js "protocolVersion") = Some (VNumber (number_of_Z PROTOCOL_VERSION))) as -> by (by rewrite G).
  change (negb (MessageKind.Handshake =? MessageKind.Handshake)) with false.
  change (negb (Message.equals_string (Some (VString (js "client"))) (js "client"))) with false.
  change (negb (isInteger (number_of_Z PROTOCOL_VERSION) && (Z_of_number (number_of_Z PROTOCOL_VERSION) =? PROTOCOL_VERSION))) with false.
  cbv iota. unfold Session.send, st_lift. fold server_handshake. unfold mbind, st_bind. rewrite Hr.
  unfold Session.write, Session.on_socket, Session.update, Session.this, st_update, st_get, mbind, st_bind. by rewrite Hh.
Qed.

(** What the client makes of the message of the server. *)
Lemma client_judges m :
  Message.kind m = MessageKind.Handshake → Message.requestId m = Handshake.CLIENT_HANDSHAKE_REQUEST_ID →
  (∀ k, obj_get (Message.payload m) k = norm <$> obj_get server_handshake k) →
  Handshake.judge options m =
    if forallb (λ capability, bool_decide (capability ∈ Handshake.server_capabilities agreed)) (Handshake.required options)
    then Ok agreed else Throw (SinterCompatibilityError None).
Proof using.
  intros K I G. unfold Handshake.judge, Handshake.string_at. cbv zeta. rewrite K, I, !G. reflexivity.
Qed.

(** C21: A client and a server agree: what the client writes makes the session ready,
    and what the session answers makes the client connected, to a server of that
    product and version, if it has every capability that the client requires; if not,
    the client ends the connection and the user gets the error for that. *)
Theorem handshake_agrees moments sh data reply :
  framed MessageKind.Handshake Handshake.CLIENT_HANDSHAKE_REQUEST_ID (Handshake.handshake_payload options) data →
  framed MessageKind.Handshake Handshake.CLIENT_HANDSHAKE_REQUEST_ID server_handshake reply →
  let a := Handshake.performClientHandshake options Session.new_socket in
  Session.written (Handshake.socket a) = [data] ∧
  ∃ s, Session.handleData osL osC describe detail self product productVersion moments data (sh, Session.new) = (Ok (), (sh, s)) ∧
    Session.currentState s = Session.Ready ∧ Session.written (Session.socket s) = [reply] ∧
    let a' := Handshake.onData options (Handshake.Bytes reply) a in
    if forallb (λ capability, bool_decide (capability ∈ Handshake.server_capabilities agreed)) (Handshake.required options)
    then Handshake.settled a' = Some (Ok agreed) ∧ Session.destroyed (Handshake.socket a') = false
    else Handshake.settled a' = Some (Throw (SinterCompatibilityError None)) ∧ Session.destroyed (Handshake.socket a') = true.
Proof using.
  intros Hdata Hreply a. pose proof settled_new as [Hnew _].
  assert (0 ≤ Handshake.CLIENT_HANDSHAKE_REQUEST_ID ≤ MAX_REQUEST_ID) as Hid by done.
  destruct (framed_pushed _ _ _ _ Stream.new Hdata Hid Hnew eq_refl) as (m1 & d1 & E1 & _ & _ & K1 & I1 & G1).
  destruct (framed_pushed _ _ _ _ Stream.new Hreply Hid Hnew eq_refl) as (m2 & d2 & E2 & _ & _ & K2 & I2 & G2).
  destruct Hdata as (_ & _ & Hdata), Hreply as (_ & _ & Hreply).
  assert (a = {| Handshake.socket := Session.socket_write data Session.new_socket; Handshake.decoder := Stream.new; Handshake.settled := None |}) as Ea
    by (unfold a, Handshake.performClientHandshake; by rewrite Hdata).
  rewrite Ea. clear a Ea. split; [done|].
  pose proof (session_opens m1 reply (sh, Session.set_decoder d1 Session.new) K1 I1 G1 Hreply eq_refl) as Es.
  pose proof (client_judges m2 K2 I2 G2) as Ej. eexists. split; [|split; [|split]].
  - unfold Session.handleData, Session.push, Session.this, st_get, mbind, st_bind. cbn [snd].
    change (Session.canReceiveMessages Session.new) with true. cbv beta iota.
    change (Session.decoder Session.new) with Stream.new. rewrite E1. cbv beta iota.
    cbn [Session.handle_messages]. unfold Session.this, st_get, mbind, st_bind. cbn [snd].
    change (Session.canReceiveMessages (Session.set_decoder d1 Session.new)) with true. cbv beta iota.
    assert (Session.handleMessage osL osC describe detail self product productVersion (moments O) m1 (sh, Session.set_decoder d1 Session.new) =
      Session.handleHandshake product productVersion m1 (sh, Session.set_decoder d1 Session.new)) as -> by (unfold Session.handleMessage; by rewrite I1).
    by rewrite Es.
  - done.
  - done.
  - cbv zeta. unfold Handshake.onData. cbn [Handshake.settled Handshake.decoder]. rewrite E2, Ej. by destruct (forallb _ _).
Qed.
End Opening.

(** ** The way of a command *)

(** What is left of a document after the way through a frame: its fields in the order
    of the codec. *)
Definition norm_document (d : Document) : Document := match norm (VDoc d) with VDoc d => d | _ => d end.

(** What the driver gets for what the server did. *)
Definition travelled (r : answer DocumentValue) : answer DocumentValue :=
  match r with
  | Ok v => Ok (norm v)
  | Throw (SinterServerError f) => Throw (SinterServerError {|
      message := message f; wireCode := wireCode f; serverErrorName := serverErrorName f; retryable := retryable f;
      details := norm_document <$> details f |})
  | Throw e => Throw e
  end.

(** The payload of an error. *)
Definition failure_payload (e : ServerErrors.ServerError) : Document :=
  match e with
  | CommandError e => Session.error_payload (ServerErrors.error_code e) (error_name e) (error_message e) (error_details e)
  | _ => Session.error_payload WireErrorCode.InternalError (js "InternalError") (js "The server failed to execute the command.") None
  end.

(** The message that a result makes, when it fits into one. *)
Definition reply_kind (r : outcome DocumentValue) : Z := match r with Ok _ => MessageKind.Result | Throw _ => MessageKind.Error end.
Definition reply_payload (r : outcome DocumentValue) : Document :=
  match r with Ok v => [(js "value", v)] | Throw e => failure_payload e end.

(** The client's part. *)
Lemma norm_document_eq d : norm (VDoc d) = VDoc (norm_document d).
Proof. unfold norm_document. by rewrite norm_doc. Qed.

Lemma server_error_fields_norm payload payload' :
  (∀ k, obj_get payload' k = norm <$> obj_get payload k) →
  Throw (SinterServerError (server_error_fields payload')) = travelled (Throw (SinterServerError (server_error_fields payload))).
Proof.
  intros G. unfold server_error_fields, travelled. cbn [message wireCode serverErrorName retryable details]. rewrite !G. do 3 f_equal.
  all: destruct (obj_get payload _) as [v|]; [|done]; destruct v; cbn [fmap option_fmap option_map]; try done.
  all: by rewrite norm_document_eq.
Qed.

Lemma response_travelled r message :
  Message.kind message = reply_kind r → (∀ k, obj_get (Message.payload message) k = norm <$> obj_get (reply_payload r) k) →
  Client.response_value
    (if Message.kind message =? MessageKind.Error then Throw (SinterServerError (server_error_fields (Message.payload message))) else Ok message) =
  travelled (match r with Ok v => Ok v | Throw e => Throw (server_failure e) end).
Proof.
  intros K G. rewrite K. destruct r as [v|e]; cbn [reply_kind].
  - cbn. rewrite K, G. done.
  - change (MessageKind.Error =? MessageKind.Error) with true. cbv iota. unfold Client.response_value. cbn [mbind res_bind].
    rewrite (server_error_fields_norm _ _ G). unfold server_failure. by destruct e.
Qed.

(** The server's part: code that leaves all of the session but what it says. *)
Record says (data : list bytes) (x x' : Session.Shared * Session.ServerSession) : Prop := {
  says_sent : sent x'.2 = sent x.2 ++ data;
  says_world : Session.world x'.1 = Session.world x.1;
  says_cursors : Session.cursors x'.2 = Session.cursors x.2;
  says_live : live x.2 → live x'.2;
}.

Lemma says_trans l l' x x' x'' : says l x x' → says l' x' x'' → says (l ++ l') x x''.
Proof.
  intros [H1 H2 H3 H4] [H5 H6 H7 H8]. split; [by rewrite H5, H1, app_assoc|congruence|congruence|auto].
Qed.

Lemma write_says_data data x : live x.2 → ∃ x', Session.write data x = (Ok (), x') ∧ says [data] x x'.
Proof.
  intros [[H1 H2] H3 H4]. unfold Session.write, Session.this, Session.on_socket, Session.update, st_get, st_update, mbind, st_bind.
  destruct (Session.holding x.2) eqn:Eh; eexists; (split; [done|]); split; unfold sent; cbn [fst snd Session.socket Session.held Session.set_socket Session.set_held]; try done.
  - by rewrite app_assoc.
  - unfold Session.socket_write. rewrite H1, H2. cbn. by rewrite (H3 Eh), !app_nil_r.
  - intros _. split; [|by intros E; apply H3|done]. unfold Session.socket_write. by rewrite H1, H2.
Qed.

Lemma hold_says self x : ∃ x', Session.holdUntilDurable self x = (Ok (), x') ∧ says [] x x'.
Proof.
  unfold Session.holdUntilDurable, Session.this, Session.share, Session.update, st_get, st_update, mbind, st_bind.
  destruct (Session.committer x.1); [|exists x; split; [done|]; split; [by rewrite app_nil_r|done..]].
  destruct (_ || _); (eexists; split; [done|]); (split; [by rewrite app_nil_r|done|done|]); [done|].
  intros [H1 H2 H3]. split; [done|by unfold orderly|done].
Qed.

Section Command.
Context (osL osC : Z → Call → Outcome).
Context (describe : exn → jsstring) (detail : IndexSet.IndexSet.IndexIssue → jsstring).
Context (self : nat) (product productVersion : jsstring).

(** One reply to a command, the frame of its result. *)
Lemma handleCommand_replies m id command sh s reply :
  let o := Server.dispatch osL osC describe detail m command (Session.world sh, Session.cursors s) in
  live s → Session.encode (reply_kind o.1) id (reply_payload o.1) = Ok reply →
  ∃ x', Session.handleCommand osL osC describe detail self m id command (sh, s) = (Ok (), x') ∧
    sent x'.2 = sent s ++ [reply] ∧ (Session.world x'.1, Session.cursors x'.2) = o.2.
Proof using.
  intros o Hl. unfold Session.handleCommand, Session.dispatch_command. unfold mbind at 1, st_bind at 1. fold o.
  destruct o as [r [w c]]. cbn [fst snd]. set (x1 := (Session.set_world w sh, Session.set_cursors c s)).
  assert (live x1.2) as Hl1 by (by destruct Hl).
  assert (∀ kind payload, Session.encode kind id payload = Ok reply → ∀ x, live x.2 → says [] x1 x →
    ∃ x', Session.send kind id payload x = (Ok (), x') ∧ sent x'.2 = sent s ++ [reply] ∧ (Session.world x'.1, Session.cursors x'.2) = (w, c)) as Hsend.
  { intros kind payload He x Hx Hs. destruct (write_says_data reply x Hx) as (x' & E & Hw). exists x'.
    unfold Session.send, st_lift, mbind, st_bind. rewrite He. split; [exact E|]. destruct (says_trans _ _ _ _ _ Hs Hw) as [S1 S2 S3 _]. by rewrite S1, S2, S3. }
  intros He. destruct (hold_says self x1) as (x2 & Eh & Hs). pose proof (says_live _ _ _ Hs Hl1) as Hl2.
  destruct r as [v|e]; unfold mbind at 1, st_bind at 1; rewrite Eh.
  - destruct (Hsend _ _ He x2 Hl2 Hs) as (x' & E & H). exists x'. unfold st_catch. change (Session.send MessageKind.Result id [(js "value", v)] x2 = (Ok (), x')) in E. by rewrite E.
  - assert (∀ code name message details, Session.sendError id code name message false details =
      Session.send MessageKind.Error id (Session.error_payload code name message details)) as Hse by done.
    assert (∀ error, says [] x1 (Session.add_fault error x2.1, x2.2)) as Hf by (intros error; by destruct Hs).
    cbn [reply_kind] in He.
    clearbody x1. destruct e; cbn [reply_payload failure_payload] in *; [..|rewrite Hse; exact (Hsend _ _ He x2 Hl2 Hs)].
    all: unfold Session.failCommand, Session.onError, Session.share, st_update; unfold mbind at 1, st_bind at 1; rewrite Hse.
    all: eapply (Hsend MessageKind.Error); [exact He|exact Hl2|apply Hf].
Qed.

(** The command in a chunk. *)
Lemma command_handled moments sh s frame m d id database command parameters :
  Session.currentState s = Session.Ready → 1 ≤ id →
  Stream.push (Session.decoder s) frame = (Ok [m], d) →
  Message.kind m = MessageKind.Command → Message.requestId m = id →
  (∀ k, obj_get (Message.payload m) k = norm <$> obj_get (Client.command_payload (Some database) command parameters) k) →
  ∀ x', Session.handleCommand osL osC describe detail self (moments O) id {| Server.command := command; Server.database := Some database;
    Server.parameters := norm_document parameters |} (sh, Session.set_decoder d s) = (Ok (), x') →
  Session.handleData osL osC describe detail self product productVersion moments frame (sh, s) = (Ok (), x').
Proof using.
  intros Hs Hid E K I G x' Hx. unfold Session.handleData, Session.push, Session.this, st_get, mbind, st_bind. cbn [snd].
  assert (Session.canReceiveMessages s = true) as -> by (unfold Session.canReceiveMessages; by rewrite Hs).
  cbv beta iota. rewrite E. cbv beta iota. cbn [Session.handle_messages]. unfold Session.this, st_get, mbind, st_bind. cbn [snd].
  assert (Session.canReceiveMessages (Session.set_decoder d s) = true) as -> by (unfold Session.canReceiveMessages; cbn [Session.currentState Session.set_decoder]; by rewrite Hs).
  assert (Session.envelope_of (Message.payload m) = {| Server.command := command; Server.database := Some database;
    Server.parameters := norm_document parameters |}) as He.
  { unfold Session.envelope_of. rewrite !G.
    change (obj_get (Client.command_payload (Some database) command parameters) (js "parameters")) with (Some (VDoc parameters)).
    cbn [fmap option_fmap option_map]. by rewrite norm_document_eq. }
  unfold Session.handleMessage. cbv zeta. rewrite I, K, He. destruct (Z.eqb_spec id 0); [lia|].
  unfold Session.this, st_get, mbind, st_bind. cbn [snd Session.currentState Session.set_decoder]. rewrite Hs.
  change (MessageKind.Command =? MessageKind.Ping) with false. change (MessageKind.Command =? MessageKind.Command) with true. cbv beta iota.
  by rewrite Hx.
Qed.

(** C11: A command of the driver gets to the server, and its result back to the driver:
    the session carries out the command with the parameters of the driver, and says
    one frame, which settles the request with the result or with the error of the
    server, all up to the order of fields. *)
Theorem command_travels moments sh s k events id p database command parameters frame reply :
  let d := Requests.run events (Requests.new k) in
  let o := Server.dispatch osL osC describe detail (moments O) {| Server.command := command; Server.database := Some database;
    Server.parameters := norm_document parameters |} (Session.world sh, Session.cursors s) in
  live s → Session.currentState s = Session.Ready → wf_decoder (Session.decoder s) → Streams.contents (Session.decoder s) = [] →
  Requests.closed d = false → (id, p) ∈ Requests.pending d → wf_decoder (Requests.decoder d) → Streams.contents (Requests.decoder d) = [] →
  framed MessageKind.Command id (Client.command_payload (Some database) command parameters) frame →
  framed (reply_kind o.1) id (reply_payload o.1) reply →
  ∃ x' r, Session.handleData osL osC describe detail self product productVersion moments frame (sh, s) = (Ok (), x') ∧
    sent x'.2 = sent s ++ [reply] ∧
    Requests.promises (Requests.handleData (Handshake.Bytes reply) d) !! p = Some (Some r) ∧
    (travelled (execute osL osC describe detail (moments O) database command (norm_document parameters) (Session.world sh, Session.cursors s)).1,
     (Session.world x'.1, Session.cursors x'.2)) =
    (Client.response_value r,
     (execute osL osC describe detail (moments O) database command (norm_document parameters) (Session.world sh, Session.cursors s)).2).
Proof using.
  intros d o Hl Hready Hds Hcs Hopen Hin Hdd Hcd Hframe Hreply.
  destruct (RequestsFacts.events_ok events (Requests.new k) (RequestsFacts.new_ok k)) as [Hok _]. fold d in Hok.
  assert (omap_get (Requests.pending d) id = Some p) as Hp by (apply omap_get_in; [apply Hok|done]).
  assert (MIN_REQUEST_ID ≤ id ≤ MAX_REQUEST_ID) as Hrange by (apply Hok; by apply (list_elem_of_fmap_2 fst) in Hin).
  assert (0 ≤ id ≤ MAX_REQUEST_ID) as Hid by (unfold MIN_REQUEST_ID in Hrange; lia).
  destruct (framed_pushed _ _ _ _ (Session.decoder s) Hframe Hid Hds Hcs) as (m1 & d1 & E1 & _ & _ & K1 & I1 & G1).
  destruct (framed_pushed _ _ _ _ (Requests.decoder d) Hreply Hid Hdd Hcd) as (m2 & d2 & E2 & _ & _ & K2 & I2 & G2).
  assert (live (Session.set_decoder d1 s)) as Hl' by (by destruct Hl).
  destruct (handleCommand_replies (moments O) id {| Server.command := command; Server.database := Some database;
    Server.parameters := norm_document parameters |} sh (Session.set_decoder d1 s) reply Hl' (proj2 (proj2 Hreply))) as (x' & Ex & Es & Ew).
  exists x'. eexists. split; [|split; [exact Es|split]].
  - apply (command_handled moments sh s frame m1 d1 id database command parameters); try done. unfold MIN_REQUEST_ID in Hrange. lia.
  - unfold Requests.handleData. rewrite Hopen, E2. cbn [fold_left]. unfold Requests.handleMessage. rewrite I2. cbn [Requests.pending Requests.set_decoder].
    rewrite Hp. destruct (RequestsFacts.settle_forget_ok id p (if Message.kind m2 =? MessageKind.Error
      then Throw (SinterServerError (server_error_fields (Message.payload m2))) else Ok m2) (Requests.set_decoder d2 d)
      (RequestsFacts.push_ok d2 d Hok) Hp) as (_ & -> & _).
    apply list_lookup_insert_eq. apply lookup_lt_Some with None. exact (RequestsFacts.pending_waits _ _ _ Hok Hp).
  - change (Session.cursors (Session.set_decoder d1 s)) with (Session.cursors s) in Ew. fold o in Ew. rewrite (response_travelled o.1 m2 K2 G2), Ew.
    unfold execute. fold o. by destruct o as [[v|e] st].
Qed.
End Command.

(** ** What the driver makes of answers *)
Module Answers.
Import Driver.Driver.Results Driver.Driver.Collections.

(** The methods that send one command, with what they are given. *)
Inductive Operation :=
  | InsertOne (document : Document)
  | InsertMany (documents : list Document)
  | FindOne (filter : Document)
  | DeleteOne (filter : Document)
  | DeleteMany (filter : Document)
  | ReplaceOne (filter replacement : Document) (options : UpdateOptions)
  | UpdateOne (filter update : Document) (options : UpdateOptions)
  | UpdateMany (filter update : Document) (options : UpdateOptions)
  | CreateIndex (definition : Document)
  | DropIndex (index : jsstring)
  | ListCollections.

Inductive Outcome :=
  | Inserted (id : bytes)
  | InsertedMany (r : InsertManyResult)
  | Found (document : option Document)
  | Deleted (n : number)
  | Updated (r : UpdateResult)
  | Indexed (r : CreateIndexResult)
  | Dropped
  | Names (names : list jsstring).

Definition perform {W} (execute : jsstring → Document → ST W SinterError DocumentValue) (name : jsstring) (o : Operation)
    : ST W SinterError Outcome :=
  match o with
  | InsertOne document => id ← insertOne execute name document; mret (Inserted id)
  | InsertMany documents => r ← insertMany execute name documents; mret (InsertedMany r)
  | FindOne filter => r ← findOne execute name filter; mret (Found r)
  | DeleteOne filter => n ← deleteOne execute name filter; mret (Deleted n)
  | DeleteMany filter => n ← deleteMany execute name filter; mret (Deleted n)
  | ReplaceOne filter replacement options => r ← replaceOne execute name filter replacement options; mret (Updated r)
  | UpdateOne filter update options => r ← updateOne execute name filter update options; mret (Updated r)
  | UpdateMany filter update options => r ← updateMany execute name filter update options; mret (Updated r)
  | CreateIndex definition => r ← createIndex execute name definition; mret (Indexed r)
  | DropIndex index => _ ← dropIndex execute name index; mret Dropped
  | ListCollections => names ← listCollections execute; mret (Names names)
  end.

(** The command of a method, and its parameters. *)
Definition command_of (o : Operation) : Server.ServerCommand :=
  match o with
  | InsertOne _ => Server.CInsertOne
  | InsertMany _ => Server.CInsertMany
  | FindOne _ => Server.CFindOne
  | DeleteOne _ => Server.CDeleteOne
  | DeleteMany _ => Server.CDeleteMany
  | ReplaceOne _ _ _ => Server.CReplaceOne
  | UpdateOne _ _ _ => Server.CUpdateOne
  | UpdateMany _ _ _ => Server.CUpdateMany
  | CreateIndex _ => Server.CCreateIndex
  | DropIndex _ => Server.CDropIndex
  | ListCollections => Server.CListCollections
  end.

Definition name_of (o : Operation) : jsstring :=
  match o with
  | InsertOne _ => js "insertOne"
  | InsertMany _ => js "insertMany"
  | FindOne _ => js "findOne"
  | DeleteOne _ => js "deleteOne"
  | DeleteMany _ => js "deleteMany"
  | ReplaceOne _ _ _ => js "replaceOne"
  | UpdateOne _ _ _ => js "updateOne"
  | UpdateMany _ _ _ => js "updateMany"
  | CreateIndex _ => js "createIndex"
  | DropIndex _ => js "dropIndex"
  | ListCollections => js "listCollections"
  end.

Definition parameters_of (name : jsstring) (o : Operation) : Document :=
  let collection := (js "collection", VString name) in
  let upsert (options : UpdateOptions) := given (js "upsert") VBool (upsert options) in
  match o with
  | InsertOne document => [collection; (js "document", VDoc document)]
  | InsertMany documents => [collection; (js "documents", VArray (map VDoc documents))]
  | FindOne filter | DeleteOne filter | DeleteMany filter => [collection; (js "filter", VDoc filter)]
  | ReplaceOne filter replacement options =>
      [collection; (js "filter", VDoc filter); (js "replacement", VDoc replacement)] ++ upsert options
  | UpdateOne filter update options | UpdateMany filter update options =>
      [collection; (js "filter", VDoc filter); (js "update", VDoc update)] ++ upsert options
  | CreateIndex definition => [collection; (js "index", VDoc definition)]
  | DropIndex index => [collection; (js "name", VString index)]
  | ListCollections => []
  end.

(** The result that the user gets, and the document that the server answered with. *)
Definition tells (r : Outcome) (d : Document) : Prop :=
  match r with
  | Inserted id => obj_get d (js "insertedId") = Some (VId id)
  | InsertedMany r => obj_get d (js "insertedCount") = Some (VNumber (insertedCount r)) ∧
      obj_get d (js "insertedIds") = Some (VArray (map VId (insertedIds r)))
  | Found document => obj_get d (js "document") = Some (match document with Some d => VDoc d | None => VNull end)
  | Deleted n => obj_get d (js "deletedCount") = Some (VNumber n)
  | Updated r => obj_get d (js "matchedCount") = Some (VNumber (matchedCount r)) ∧
      obj_get d (js "modifiedCount") = Some (VNumber (modifiedCount r)) ∧
      obj_get d (js "upsertedId") = Some (match upsertedId r with Some id => VId id | None => VNull end)
  | Indexed r => obj_get d (js "name") = Some (VString (created_name r)) ∧ obj_get d (js "created") = Some (VBool (created r))
  | Dropped => True
  | Names names => obj_get d (js "collections") = Some (VArray (map VString names))
  end.

(** What a method makes of an answer. *)
Definition parse (o : Operation) (v : DocumentValue) : answer Outcome :=
  match o with
  | InsertOne _ => id ← parseInsertOneResult v; Ok (Inserted id)
  | InsertMany _ => r ← parseInsertManyResult v; Ok (InsertedMany r)
  | FindOne _ => r ← parseFindOneResult v; Ok (Found r)
  | DeleteOne _ | DeleteMany _ => n ← parseDeleteResult v; Ok (Deleted n)
  | ReplaceOne _ _ _ | UpdateOne _ _ _ | UpdateMany _ _ _ => r ← parseUpdateResult v; Ok (Updated r)
  | CreateIndex _ => r ← parseCreateIndexResult v; Ok (Indexed r)
  | DropIndex _ => Ok Dropped
  | ListCollections => names ← parseNameList v (js "collections"); Ok (Names names)
  end.

(** And of an error. *)
Definition translated (o : Operation) (e : SinterError) : SinterError :=
  match o with InsertMany _ => translateInsertManyFailure e | _ => e end.

Lemma perform_spec {W} (execute : jsstring → Document → ST W SinterError DocumentValue) name o s :
  perform execute name o s =
  match execute (name_of o) (parameters_of name o) s with
  | (Ok v, s) => (parse o v, s)
  | (Throw e, s) => (Throw (translated o e), s)
  end.
Proof.
  destruct o; cbn [perform name_of parameters_of parse translated];
    unfold insertOne, insertMany, findOne, deleteOne, deleteMany, runDelete, replaceOne, updateOne, updateMany, runUpdate, createIndex, dropIndex,
      listCollections, st_catch, st_lift, st_throw, mbind, st_bind;
    match goal with |- context [execute ?c ?p s] => destruct (execute c p s) as [[v|e] s'] end; try done;
    cbv beta iota; unfold mbind; match goal with |- context [match ?r with Ok _ => _ | Throw _ => _ end] => by destruct r end.
Qed.
Lemma isCount_value n : 0 ≤ n ≤ MAX_SAFE_INTEGER →
  isCount (Some (Server.number_value n)) = Some (number_of_Z n) ∧ Z_of_number (number_of_Z n) = n.
Proof.
  intros H. assert (Z.abs n < 2 ^ 53) as Ha by (unfold MAX_SAFE_INTEGER in H; lia).
  unfold Server.number_value, isCount, isSafeInteger. rewrite Z_of_number_of_Z, number_of_Z_is_integer by done. split; [|done].
  destruct (Z.leb_spec (Z.abs n) MAX_SAFE_INTEGER); [|lia]. by destruct (Z.leb_spec 0 n); [|lia].
Qed.

Lemma counted_value n : counted n → isCount (Some (Server.number_value n)) = Some (number_of_Z n) ∧ Z_of_number (number_of_Z n) = n.
Proof. intros H. apply isCount_value. unfold counted, MAX_SAFE_INTEGER in *. lia. Qed.

Lemma the_ids ids : mapM the_id (map VId ids) = Some ids.
Proof. by apply (mapM_fmap_Some the_id VId). Qed.

Lemma the_names names : mapM (λ name, the_string (Some name)) (map VString names) = Some names.
Proof. by apply (mapM_fmap_Some (λ name, the_string (Some name)) VString). Qed.

Lemma parse_deleted n :
  counted n → let d := [(js "acknowledged", VBool true); (js "deletedCount", Server.number_value n)] in
  ∃ r, (n ← parseDeleteResult (VDoc d); Ok (Deleted n)) = Ok r ∧ tells r d.
Proof.
  intros Hn d. destruct (counted_value _ Hn) as [E _]. exists (Deleted (number_of_Z n)). split; [|done].
  unfold parseDeleteResult. cbn [asRecord mbind res_bind].
  change (is_true (obj_get d (js "acknowledged"))) with true. change (obj_get d (js "deletedCount")) with (Some (Server.number_value n)).
  cbv iota. by rewrite E.
Qed.

Lemma parse_updated (w : Server.Coll.StorageUpdateResult) :
  0 ≤ Server.Coll.modifiedCount w ≤ Server.Coll.matchedCount w → counted (Server.Coll.matchedCount w) →
  ∃ r, (r ← parseUpdateResult (VDoc (Server.toWriteResult w)); Ok (Updated r)) = Ok r ∧ tells r (Server.toWriteResult w).
Proof.
  intros Hm Hn. destruct (counted_value _ Hn) as [E1 E2].
  destruct (counted_value (Server.Coll.modifiedCount w)) as [E3 E4]; [unfold counted in *; lia|].
  exists (Updated {| matchedCount := number_of_Z (Server.Coll.matchedCount w); modifiedCount := number_of_Z (Server.Coll.modifiedCount w);
    upsertedId := Server.Coll.upsertedId w |}). split; [|done].
  unfold parseUpdateResult. cbn [asRecord mbind res_bind].
  change (is_true (obj_get (Server.toWriteResult w) (js "acknowledged"))) with true.
  change (obj_get (Server.toWriteResult w) (js "matchedCount")) with (Some (Server.number_value (Server.Coll.matchedCount w))).
  change (obj_get (Server.toWriteResult w) (js "modifiedCount")) with (Some (Server.number_value (Server.Coll.modifiedCount w))).
  change (obj_get (Server.toWriteResult w) (js "upsertedId")) with
    (Some (match Server.Coll.upsertedId w with Some id => VId id | None => VNull end)).
  rewrite E1. cbn [demand mbind res_bind]. rewrite E3. cbn [demand mbind res_bind]. rewrite E2, E4.
  destruct (Z.ltb_spec (Server.Coll.matchedCount w) (Server.Coll.modifiedCount w)); [lia|]. by destruct (Server.Coll.upsertedId w).
Qed.

(** The driver understands what commands are answered with. *)
Lemma parse_tells m request before after o d :
  answer_of m request before after (command_of o) d → ∃ r, parse o (VDoc d) = Ok r ∧ tells r d.
Proof.
  assert (∀ r, agree r → ∃ a, (r ← parseUpdateResult (VDoc (Server.toWriteResult r)); Ok (Updated r)) = Ok a ∧ tells a (Server.toWriteResult r)) as Hupdated
    by (intros r [H1 H2]; by apply parse_updated).
  assert (agree {| Server.Coll.matchedCount := 0; Server.Coll.modifiedCount := 0; Server.Coll.upsertedId := None |}) as Hnone by by split.
  assert (∀ n, counted n → ∃ r, parse (DeleteMany []) (VDoc [(js "acknowledged", VBool true); (js "deletedCount", Server.number_value n)]) = Ok r ∧
    tells r [(js "acknowledged", VBool true); (js "deletedCount", Server.number_value n)]) as Hdeleted by (intros n; apply parse_deleted).
  assert (counted 0) as H0 by done.
  intros H. remember (command_of o) as c eqn:Ec. destruct H as [|document id|documents ids _ Hn|many fields n _ Hn|many|fields replacement upsert r _ _ Hr
    |many fields update upsert r _ _ Hr|command Hc|fields|c fields d i _ _ _ Hi| | | | |index input name created|name| | | | | |db names|];
    try (destruct many); try (subst command); destruct o; try discriminate Ec; try discriminate Hc; cbn [parse];
    try (by apply Hdeleted); try (by apply Hupdated); try (eexists; by split).
  - destruct (counted_value _ Hn) as [E1 E2]. unfold parseInsertManyResult. cbn [asRecord mbind res_bind].
    match goal with |- context [obj_get ?d (js "insertedCount")] => change (obj_get d (js "insertedCount")) with (Some (Server.number_value (len ids)));
      change (obj_get d (js "insertedIds")) with (Some (VArray (map VId ids))); change (is_true (obj_get d (js "acknowledged"))) with true end.
    rewrite E1. cbn [demand mbind res_bind the_array option_bind]. rewrite the_ids. cbn [demand mbind res_bind]. rewrite E2, Z.eqb_refl. eexists. by split.
  - eexists. unfold parseFindOneResult. cbn [asRecord mbind res_bind].
    change (obj_get [(js "document", VDoc d)] (js "document")) with (Some (VDoc d)). unfold parseDocument. rewrite Hi. by split.
  - unfold parseNameList. cbn [asRecord mbind res_bind].
    match goal with |- context [obj_get ?d (js "collections")] => change (obj_get d (js "collections")) with (Some (VArray (map VString names))) end.
    cbn [demand mbind res_bind the_array]. rewrite the_names. eexists. by split.
Qed.

(** *** With the server *)
Section Understood.
Context (osL osC : Z → Call → Disk.Outcome) (os_cleans : WalOperations.cleans osL).
Context (describe : exn → jsstring) (detail : IndexSet.IndexSet.IndexIssue → jsstring) (states : list State).
Context (m : Server.Moment) (database name : jsstring).

Abbreviation request o := {| Server.command := name_of o; Server.database := Some database; Server.parameters := parameters_of name o |}.

(** An error that the server sent. *)
Definition from_server (e : SinterError) : Prop := (∃ f, e = SinterServerError f) ∨ ∃ f n ids, e = SinterInsertManyError f n ids.

(** C12: The driver understands the server: a method of a collection that asks for an
    acceptable change, or for a document, or for the names of collections, returns
    what the server answered, with counts that are numbers of documents, or throws an
    error that the server sent; it never takes an answer for none of the protocol. *)
Theorem driver_understands w l i cs o :
  served osL osC describe detail states w l → l !! i = Some cs → acceptable osL osC m (request o) w cs →
  match perform (execute osL osC describe detail m database) name o (w, cs) with
  | (Ok r, s) => ∃ d, Server.dispatch osL osC describe detail m (request o) (w, cs) = (Ok (VDoc d), s) ∧ tells r d
  | (Throw e, s) => from_server e ∧ ∃ error, Server.dispatch osL osC describe detail m (request o) (w, cs) = (Throw error, s)
  end.
Proof using os_cleans.
  intros Hs Hi Ha. rewrite perform_spec. unfold execute. pose proof (request_outcome osL osC os_cleans describe detail states w l i cs m _ Hs Hi Ha) as Ho.
  destruct (Server.dispatch _ _ _ _ _ _ _) as [[v|e] s].
  - destruct Ho as (d & c & -> & Hc & Hd). assert (omap_get Server.server_commands (Server.command (request o)) = Some (command_of o)) as Hc' by (by destruct o).
    rewrite Hc' in Hc. injection Hc as <-.
    destruct (parse_tells _ _ _ _ o d Hd) as (r & -> & Hr). by exists d.
  - split; [|by exists e]. unfold server_failure. destruct o; try (left; eexists; reflexivity). cbn [translated]. unfold translateInsertManyFailure.
    repeat case_match; first [left; eexists; reflexivity|right; do 3 eexists; reflexivity].
Qed.
End Understood.
End Answers.

(** *** Examples *)

(** The four documents of a collection, by one each. *)
Definition sample_query : Query := {|
  collection := js "items"; filter := []; batchSize := Some (number_of_Z 1);
  query := {| sort := None; skip := None; limit := None |} |}.

Definition sample_time : Server.Moment := {| Server.generated := λ _, Ok []; Server.sweep := 7; Server.now := 7 |}.

Lemma sample_queried :
  match sample_world 9, items 9 with
  | Some w, Some c => queried sample_time (js "shop") sample_query w sample_cursors c
  | _, _ => False
  end.
Proof.
  pose proof (sample_world_ok 9) as Hw. assert (match items 9 with Some _ => True | None => False end) as Hi by (vm_compute; exact I).
  unfold sample_world, items in *. destruct (sample_engine 9) as [e|]; [|exact Hw].
  destruct (Engine.Engine.getCollection e (js "shop") (js "items")) as [c|] eqn:Ec; [|exact Hi].
  split; [exact Hw|by apply ScanChanges.sample_session|done..|]. exact (f_equal Ok Ec).
Qed.

Lemma sample_found :
  match items 9 with
  | Some c => match Collection.Collection.find (VDoc (filter sample_query)) (storage_options sample_query) c with
              | Ok l => length l = 4%nat | Throw _ => False end
  | None => False
  end.
Proof. vm_compute. reflexivity. Qed.

Abbreviation sample_execute := (execute quiet_os quiet_os sample_describe sample_detail sample_time (js "shop")).

Lemma driver_reads_witness :
  match sample_world 9 with
  | Some w => ∃ l s, toArray sample_execute sample_query 4 1 ((w, sample_cursors), new) = (Ok l, (s, ended)) ∧ length l = 4%nat
  | None => False
  end.
Proof.
  pose proof sample_queried as Hq. pose proof sample_found as Hl. destruct (sample_world 9) as [w|]; [|destruct Hq].
  destruct (items 9) as [c|]; [|destruct Hq].
  pose proof (driver_reads quiet_os quiet_os sample_describe sample_detail sample_time (js "shop") sample_query w sample_cursors c 4 1 Hq (le_n 1)) as H.
  destruct (Collection.Collection.find _ _ c) as [l|e]; [|destruct Hl]. destruct (H ltac:(rewrite Hl; apply le_n)) as (s & E & _).
  exists l, s. split; [exact E|exact Hl].
Defined.

Lemma driver_leaves_early_witness :
  match sample_world 9 with
  | Some w => ∃ l s, iterate sample_execute sample_query 1 1 ((w, sample_cursors), new) = (Ok l, (s, ended)) ∧ length l = 2%nat ∧
      same_table sample_time w sample_cursors s
  | None => False
  end.
Proof.
  pose proof sample_queried as Hq. pose proof sample_found as Hl. destruct (sample_world 9) as [w|]; [|destruct Hq].
  destruct (items 9) as [c|]; [|destruct Hq].
  destruct (Collection.Collection.find _ _ c) as [l|e] eqn:E; [|destruct Hl].
  destruct (driver_leaves_early quiet_os quiet_os sample_describe sample_detail sample_time (js "shop") sample_query w sample_cursors c 1 1 l Hq (le_n 1) E)
    as (s & H & Hs).
  exists (take 2 l), s. split; [exact H|]. split; [|exact Hs]. rewrite length_take, Hl. reflexivity.
Defined.

(** A server without data, and a session of it. *)
Definition sample_shared : Session.Shared := {|
  Session.world := {| Scans.Scans.catalog := Cat.new None; Scans.Scans.scans := [] |}; Session.committer := None; Session.faults := [] |}.

Definition sample_options : Handshake.ClientHandshakeOptions := {|
  Handshake.product := js "app"; Handshake.productVersion := js "1.0"; Handshake.capabilities := Some [js "streaming"] |}.

Definition sample_frame (kind id : Z) (payload : Document) : bytes :=
  match Session.encode kind id payload with Ok data => data | Throw _ => [] end.

Lemma handshake_agrees_witness :
  let data := sample_frame MessageKind.Handshake 1 (Handshake.handshake_payload sample_options) in
  let reply := sample_frame MessageKind.Handshake 1 (server_handshake (js "sinterdb") (js "1")) in
  let a := Handshake.performClientHandshake sample_options Session.new_socket in
  Session.written (Handshake.socket a) = [data] ∧
  Handshake.settled (Handshake.onData sample_options (Handshake.Bytes reply) a) = Some (Ok (agreed (js "sinterdb") (js "1"))).
Proof.
  assert (framed MessageKind.Handshake 1 (Handshake.handshake_payload sample_options)
    (sample_frame MessageKind.Handshake 1 (Handshake.handshake_payload sample_options))) as H1 by (split; [|split]; vm_compute; reflexivity).
  assert (framed MessageKind.Handshake 1 (server_handshake (js "sinterdb") (js "1"))
    (sample_frame MessageKind.Handshake 1 (server_handshake (js "sinterdb") (js "1")))) as H2 by (split; [|split]; vm_compute; reflexivity).
  destruct (handshake_agrees quiet_os quiet_os sample_describe sample_detail 0 (js "sinterdb") (js "1") sample_options (λ _, sample_time) sample_shared
    _ _ H1 H2) as (E1 & s & _ & _ & _ & E2 & _).
  split; [exact E1|exact E2].
Defined.

(** The driver looks for a document that is not there. *)
Definition sample_find_one : Document := [(js "filter", VDoc []); (js "collection", VString (js "items"))].
Definition sample_command : Document := Client.command_payload (Some (js "shop")) (js "findOne") sample_find_one.
Definition sample_answer : outcome DocumentValue := Ok (VDoc [(js "document", VNull)]).

Lemma command_travels_witness :
  let d := Requests.run [Requests.Request MessageKind.Command sample_command true] (Requests.new Session.new_socket) in
  ∃ r, Requests.promises (Requests.handleData (Handshake.Bytes (sample_frame MessageKind.Result 2 (reply_payload sample_answer))) d) !! 0%nat = Some (Some r) ∧
    Client.response_value r = Ok (VDoc [(js "document", VNull)]).
Proof.
  intros d. set (s := Session.set_state Session.Ready Session.new).
  assert (Server.dispatch quiet_os quiet_os sample_describe sample_detail sample_time {| Server.command := js "findOne"; Server.database := Some (js "shop");
    Server.parameters := norm_document sample_find_one |} (Session.world sample_shared, Session.cursors s) =
    (sample_answer, (Session.world sample_shared, Session.cursors s))) as Ho by (vm_compute; reflexivity).
  assert (framed MessageKind.Command 2 sample_command (sample_frame MessageKind.Command 2 sample_command)) as H1 by (split; [|split]; vm_compute; reflexivity).
  assert (framed MessageKind.Result 2 (reply_payload sample_answer) (sample_frame MessageKind.Result 2 (reply_payload sample_answer))) as H2
    by (split; [|split]; vm_compute; reflexivity).
  assert (live s) as Hl by (split; [split; reflexivity|intros _; reflexivity|reflexivity]).
  assert ((2, 0%nat) ∈ Requests.pending d) as Hin by (apply (bool_decide_unpack _); vm_compute; exact I).
  destruct (command_travels quiet_os quiet_os sample_describe sample_detail 0 (js "sinterdb") (js "1") (λ _, sample_time) sample_shared s Session.new_socket
    [Requests.Request MessageKind.Command sample_command true] 2 0 (js "shop") (js "findOne") sample_find_one _
    (sample_frame MessageKind.Result 2 (reply_payload sample_answer)) Hl eq_refl (proj1 settled_new) eq_refl eq_refl Hin (proj1 settled_new) eq_refl H1
    ltac:(cbv beta zeta; rewrite Ho; exact H2)) as (x' & r & _ & _ & Er & Eq).
  exists r. split; [exact Er|]. refine (eq_trans (eq_sym (f_equal fst Eq)) _). unfold execute. cbv beta. rewrite Ho. reflexivity.
Defined.

(** All documents are deleted. *)
Definition sample_operation : Answers.Operation := Answers.DeleteMany [].
Definition sample_request : Server.CommandEnvelope := {|
  Server.command := Answers.name_of sample_operation; Server.database := Some (js "shop");
  Server.parameters := Answers.parameters_of (js "items") sample_operation |}.

Abbreviation sample_perform := (Answers.perform (execute quiet_os quiet_os sample_describe sample_detail (sample_moment 40) (js "shop")) (js "items") sample_operation).

Lemma driver_understands_witness :
  match sample_server 2 with
  | Some (w, cs) => ∃ n s d, sample_perform (w, cs) = (Ok (Answers.Deleted n), s) ∧ Z_of_number n = 3 ∧
      obj_get d (js "deletedCount") = Some (VNumber n) ∧
      Server.dispatch quiet_os quiet_os sample_describe sample_detail (sample_moment 40) sample_request (w, cs) = (Ok (VDoc d), s)
  | None => False
  end.
Proof.
  pose proof (sample_served 2) as H.
  assert (match sample_server 2 with
    | Some (w, cs) => acceptableb (sample_moment 40) sample_request w cs = true ∧
        match sample_perform (w, cs) with (Ok (Answers.Deleted n), _) => Z_of_number n = 3 | _ => False end
    | None => False end) as Hn by (vm_compute; by split).
  destruct (sample_server 2) as [[w cs]|]; [|destruct H]. destruct Hn as [Ha Hn]. destruct H as (states & H). cbn [fst snd] in H.
  assert (acceptable quiet_os quiet_os (sample_moment 40) sample_request w cs) as Hacc by (apply acceptableb_ok; [intros j; reflexivity|exact Ha]).
  pose proof (Answers.driver_understands quiet_os quiet_os quiet_cleans sample_describe sample_detail states (sample_moment 40) (js "shop") (js "items")
    w [cs] 0%nat cs sample_operation H eq_refl Hacc) as Hr.
  destruct (sample_perform (w, cs)) as [[r|e] s]; [|destruct Hn]. destruct r; try exact (False_ind _ Hn). destruct Hr as (d & E1 & E2).
  exists n, s, d. split; [reflexivity|]. split; [exact Hn|]. split; [exact E2|exact E1].
Defined.
